(* ===== verification/_CoqProject ===== *)
-Q . S2P
Prelude.v
GoStrings.v
RsqlLexer.v
RsqlParser.v
RsqlRoundTrip.v
RsqlCompiler.v
RsqlSafety.v
Objects.v
Classes.v
StorageScope.v
Policy.v
PolicyCompile.v
ViewerSpec.v
Resolver.v
Fields.v
Contact.v
Render.v
RenderSafety.v
Ledger.v
Backstop.v
ScopedDriver.v
ScopedBlobs.v
PrincipalStores.v
JobStore.v
JobQueue.v
AuthScopes.v
Encodings.v
AuthRegistry.v
AuthInvariants.v
AuthKeys.v
AuthSessions.v
AuthSafety.v
AuthConfinement.v
AuthFlows.v
UrlFilter.v
Projection.v
ObjectDB.v
EdgeDB.v
ObjectSafety.v
Blobs.v
BlobText.v
ServiceContent.v
BlobSafety.v
Federation.v
FederationSafety.v
FederationTargets.v
FederationLiveness.v
FederationLocal.v
FederationEdits.v
Ulid.v
SharingDB.v
SharingSafety.v
SharingEffect.v
ReadAudit.v
HttpGate.v
GateSafety.v
RegistryRoutes.v
RegistrySafety.v
ShareRoutes.v
ShareSafety.v
NetIP.v
SafeFetch.v
FetchSafety.v
Turns.v
Pipelines.v
Upgrade.v
UpgradeSafety.v
Reproject.v
ReprojectSafety.v
Ingest.v
IngestSafety.v
Reanalyze.v
ReanalyzeSafety.v
