(* ===== verification/Prelude.v ===== *)
(** * ContextHelp: a verification development (root file)

    ContextHelp keeps a person's knowledge objects in a database and serves
    them to other people, agents and devices under share policies.  This
    development models the code that decides who a caller is, what such a
    principal may see, what of an object it is shown, how work reaches the
    workers, and how objects, their index and their blobs are stored and pushed
    to other instances, and proves it does what it promises.  Sources are named
    under [src/].

    ** The program's parts and their files

    Queries.  A query or a policy's data filter is RSQL text.
    - [RsqlLexer], [RsqlParser]: [internal/search/lexer.go], [ast.go],
      [parser.go], text to tokens to AST.  [RsqlRoundTrip]: the concrete syntax
      of an AST, and that parsing inverts it.
    - [RsqlCompiler]: [internal/search/compiler.go], AST to SQL for SQLite and
      Postgres, each table narrowed to the viewer's scope.  [RsqlSafety]: what
      holds of every compiled query.

    Sharing.  A principal holds grants of policies through audiences, has a
    ceiling of classes it never sees, and may use a key bound to a policy.
    - [Objects], [Classes]: the objects ([internal/storage/types.go]) and their
      sensitivity classes ([internal/storage/classes.go],
      [internal/sharing/classes.go]).
    - [StorageScope]: a viewer's SQL scope and the registry's records
      ([internal/storage/scope.go], [sharing.go]).
    - [Policy], [PolicyCompile]: policies and their compilation into a viewer
      ([internal/sharing/policy.go], [compile.go], [viewer.go]).  [ViewerSpec]:
      the abstract specification of a viewer, and the refinement.
    - [Resolver]: loading a principal from the registry and the cache of
      compiled viewers ([internal/sharing/resolver.go], [preview.go]).

    Rendering.  A restricted viewer gets a copy of each object it sees.
    - [Fields]: the fields a policy lists and the derived rule
      ([internal/sharing/fields.go]).  [Contact]: a contact's text from its
      fields ([internal/projection/contact.go]).
    - [Render]: the copy and the withheld values ([internal/sharing/render.go]).
      [RenderSafety]: noninterference, excluded classes, withheld values.

    Egress.  What a request's handler wrote is checked before it leaves.
    - [Ledger]: what the request released and withheld, and the driver that
      renders and records every read ([internal/sharing/ledger.go],
      [scoped.go]).
    - [Backstop]: the walk of a response's ID paths and the replacement of
      withheld values ([internal/sharing/backstop.go]); its theorems put the
      render layer, the ledger and the backstop together.

    Storage for a restricted viewer.
    - [ScopedDriver]: every accessor and method of the scoped driver and where
      its call goes ([internal/storage/scoped.go], [scoped_objects.go],
      [scoped_state.go], [scoped_system.go]).
    - [ScopedBlobs]: blobs visible through objects.
    - [PrincipalStores]: saved searches, the wrapper against the contract of a
      store (class [SavedSearchLaws]) and the SQLite store that keeps it
      ([internal/storage/sqlite/saved_searches.go]).

    Jobs.
    - [JobStore]: the statements on the jobs table
      ([internal/storage/sqlite/jobs.go]).
    - [JobQueue]: the table under any interleaving of clients, leases, the queue
      ([internal/jobs/queue.go]), settlement by workers ([worker.go],
      [tasks.go]) and idempotent submission ([internal/service/service.go]).
    - [Pipelines]: versioned names, step contracts, the registry and its detectors
      ([internal/pipeline/version.go], [contract.go], [validate.go],
      [override.go], [registry.go], [detectors.go]).
    - [Ingest]: a worker's run of an ingest job, from its draft through the
      pipeline's hops to the object, its blobs, its mention edges and the jobs of
      staged items ([internal/jobs/worker.go],
      [internal/storage/mention_edges.go], [mention_provenance.go]).
      [IngestSafety]: what its runs leave, wherever they stop.

    Callers.  A request is authenticated by a chain of methods over a registry of
    principals, identities, keys, sessions and tickets.
    - [AuthScopes]: scopes, roles and session scope sets ([internal/auth/scope.go],
      [auth.go], [policy.go]).  [Encodings]: hexadecimal, base64url and hashes.
    - [AuthRegistry]: the records and the SQLite stores
      ([internal/storage/auth.go], [ui_sessions.go],
      [internal/storage/sqlite/auth.go], [ui_sessions.go]), with a state and
      error monad for code that calls them.  [AuthInvariants]: what every
      statement keeps.
    - [AuthKeys], [AuthSessions]: API keys, browser sessions, invites and the
      chain ([internal/auth/apikey.go], [keys.go], [session.go], [ticket.go],
      [chain.go]).  [AuthSafety], [AuthConfinement], [AuthFlows]: what a
      credential can do, its scopes and lifetime, and its use from issue to end.

    The sharing registry and the gate.
    - [SharingDB]: audiences, members, policies, grants, ceilings, key bindings
      and the access log ([internal/storage/sqlite/sharing.go]), the instance of
      [Resolver]'s registry class.  [SharingSafety]: the invariant of its tables,
      and that its revision moves with every write; [SharingEffect]: what the
      tables grant is what the viewers see.  [Ulid]: the ids of new rows
      ([internal/storage/auth.go]).
    - [ReadAudit]: the buffering writer of the read audit
      ([internal/sharing/audit.go]) among other goroutines.
    - [HttpGate]: the route tables and the middleware around every handler
      ([internal/server/http/routes.go], [capabilities.go], [scope.go],
      [middleware_auth.go], [middleware_visibility.go], [ui_session.go],
      [session_guard.go]).  [GateSafety]: who reaches a handler, and what every
      request leaves.
    - [RegistryRoutes]: principals, identities, keys and sessions over the API
      ([internal/server/http/handlers_principals.go], [handlers_self.go],
      [mintLink] of [ui_ceremony.go]).  [RegistrySafety]: what they widen and
      touch.
    - [ShareRoutes]: audiences, policies, templates, grants, ceilings, key
      bindings, the read audit and invites over the API
      ([internal/server/http/handlers_share.go], [handlers_share_policies.go],
      [handlers_share_audit.go], [internal/sharing/templates.go]).
      [ShareSafety]: the policies they store always compile, and what they leave
      alone.

    URLs.
    - [UrlFilter]: patterns, the layered filter, configuration and merging
      ([internal/urlfilter]).
    - [NetIP]: IP addresses, prefixes and their texts, as Go's [net/netip] has
      them.  [SafeFetch]: the guard that keeps fetches away from private networks
      ([internal/safefetch/policy.go], [client.go], [FetchGuard] of
      [internal/config/config.go]).  [FetchSafety]: what it lets through.

    Objects, their index and their edges.
    - [Projection]: the searched and embedded text of an object and the masked
      text restricted viewers search ([internal/projection], [internal/storage/blobref]).
    - [ObjectDB]: the SQLite object store with its triggers, unique and full-text
      indexes ([internal/storage/sqlite/objects.go], [object_reminders.go],
      [object_blob_refs.go], [object_counts.go], [reproject.go], [ref_text.go]).
      [ObjectSafety]: its invariant.
    - [EdgeDB]: edges, entities and watermarks ([internal/storage/sqlite/edges.go],
      [entities.go], [watermarks.go]).
    - [Turns]: runs that call shared stores one call at a time among other
      writers, with calls that fail, cancellation and the death of the process;
      the interface between a job and its world.  [Reproject]: the job that brings
      the index to a new projection, its scheduling and the index signatures
      ([internal/jobs/reproject.go], [reproject_reftext.go],
      [internal/storage/indexsig/indexsig.go]).  [ReprojectSafety]: what its runs
      leave, and that they end.
    - [Upgrade]: the upgrade status, the response header that carries it and the
      selectors of a re-ingest ([internal/upgrade/manager.go], [header.go],
      [selector.go]).  [UpgradeSafety]: the header reads back, a selector keeps to
      its words.
    - [Reanalyze]: stale pipeline stamps, the re-analysis of an object and the
      worker that re-analyses what a selector matches
      ([internal/service/staleness.go], [reanalyze.go],
      [internal/upgrade/worker.go]).  [ReanalyzeSafety]: how a run ends.

    Blobs.  Content above a threshold lives in a blob its row refers to.
    - [Blobs]: putting, checking, deleting, sweeping and copying blobs
      ([internal/storage/blob], [blob/local/store.go],
      [internal/pipeline/steps/externalize.go]), each operation a program of
      calls on the object and the blob store.  [BlobText]: capped previews and
      content hashes.  [BlobSafety]: the operations interleaved.
    - [ServiceContent]: content read back and written again
      ([internal/service/content.go]).

    Federation.  Changes are pushed to other instances.
    - [Federation]: the syncer over a pusher (class [Pusher]), the local and the
      remote pusher and the receiver ([internal/federation/sync.go], [pusher.go],
      [local.go], [remote.go], [internal/service/federation.go],
      [internal/server/http/handlers_federation.go]).
    - [FederationSafety]: what the syncer asks of a pusher (class [PusherLaws])
      and that no change is lost.  [FederationTargets]: both pushers keep it.
      [FederationLiveness]: syncs end and get through (class [Reliable]).
      [FederationLocal]: the local pusher is reliable, and what it
      delivers; concrete runs.
      [FederationEdits]: objects edited after a push.

    The query compiler is used by [Policy] (filters are compiled when they are
    validated) and by storage (under a viewer's scope); [PolicyCompile] gives
    the viewers that [StorageScope] turns into scopes, that [ScopedDriver]
    binds to stores and whose plans [Render] applies; [SharingDB] is the registry
    [Resolver] loads from, on top of [AuthRegistry], and [HttpGate] runs the
    chain of [AuthSessions], the resolver, the backstop and [ReadAudit] around a
    handler.  [Projection] feeds
    [ObjectDB], which [Blobs] calls together with [EdgeDB]; [ServiceContent] and
    [Federation] run programs of [Blobs]; [Ingest], [Reproject] and [Reanalyze] are
    runs of [Turns] over these stores, the jobs table and the status of [Upgrade].

    ** What the theorems show

    - Viewers: [Compile_refines_may_see] and its companions say a compiled
      viewer is its specification, denies by default, and that keys and ceilings
      only narrow; [Resolve_coherent] that the cache never serves a stale viewer.
    - Rendering: [Render_noninterference] and [Render_contact_noninterference]
      that nothing a plan withholds influences a copy; [Render_graph_safe] that
      no excluded node survives; the two theorems on withheld values that the
      canaries are sound and complete.
    - Egress: [egress_withheld], that no string value of a response holds a value
      some copy of the request withheld in the handler's own bytes (an occurrence
      can only run through a category token the backstop put there), and
      [egress_ids], that a response names at its ID paths, the JSON an MCP text
      embeds included, only what its scoped reads answered, whatever the handler
      wrote.
    - SQL: text independent of values, placeholders in step with arguments,
      parentheses balanced, errors of parsed queries known.
    - Language: the parser terminates on every text, inverts printing, and
      returns only shapes the compiler handles.
    - Storage: the wrappers agree with their contract tables and fail closed
      ([ScopedDriver_fails_closed]: only the listed writes of the shared stores
      reach a store as they are); one principal's writes never reach another's
      rows.
    - Jobs: an invariant of every reachable table, exclusivity of a renewed lease
      under every statement but a [Retry] of the job ([lease_exclusive]),
      at-most-once submission under a key for every caller
      ([Enqueue_idempotent]), the exact effect of acquiring and of settling a job.
    - Ingest: [completed_is_stored], that a job that reads completed names the
      object the draft of its own run stands for, linked to what it mentions,
      wherever the run stops, as long as others leave its job alone and delete
      nothing; [ingest_settles], that an undisturbed run settles its job;
      [mention_edges_spec], one edge per mention and direction.

    - Callers: an inactive principal and a revoked identity are never
      authenticated again; no caller holds a scope its roles do not grant; keys,
      sessions, codes and tickets keep their limits and their single use.
    - Sharing over the tables: [sharing_takes_effect], that any viewer resolved,
      cached or not, sees what the tables grant at that instant.
    - The gate: [handler_reached], what must hold before a handler runs, and
      [request_accounted], what a restricted request leaves and answers;
      [audit_accounts], that no audit entry disappears unnoticed.
    - The registry routes: [nothing_widens], that no credential gains a scope its
      caller does not hold, and [others_untouched], that a route changes only the
      rows of the principal it names.
    - The sharing routes: [every_viewer_resolves], that no request fails for a
      policy the API stored, and [share_routes_confined], what a route may touch.
    - URLs: a filter admits exactly what its layers say, a merged configuration
      what both do, and the greedy glob matcher decides its patterns.
    - Fetches: [check_spec], the refused ranges by number in every form of an
      address; [fetch_guarded], that no connection reaches one unless the
      configuration says so, whatever the resolver and the servers answer; and
      [fetch_ends], that redirects end.
    - Objects: uniqueness, the exactness of both full-text indexes and a new
      greatest position for every change in every reachable database; the masked
      text says nothing of classed nodes; related
      objects are the bounded reachability relation.
    - Re-projection, beside writers that leave no row with a ref for its text:
      [stamped_index_current], that a signature that verifies vouches for both
      full-text indexes after any run that started under none or with nothing left
      to do; [reprojection_ends] and [reprojection_completes], that a run that has
      the upgrade status to itself ends, and undisturbed leaves nothing stale.
    - Upgrades: [header_roundtrip], that the header of every reachable status is
      printable and reads back; [selector_confined], that an accepted predicate
      keeps to the words allowed, up to the identifier characters SQLite has
      beyond ASCII's; [reingest_ends], that the result of a selective re-ingest
      that has the status to itself says what status it leaves, and that it served
      every object it listed.
    - Blobs: after any interleaving of operations that fail or not, a stored row
      lacks its blob only if an operation reported it or wrote the reference
      without the content at hand; previews are the longest
      valid prefix; content survives a read and a write.
    - Federation: nothing is lost behind a watermark, a sync ends, and from a
      source at rest a new local target gets a copy of every object whose blobs are
      there, the others holding up at most three syncs each
      ([federation_gets_through]), whereas an edited object can hold up all
      ([edited_object_blocks]).

    Examples that are not what the source's comments say ([key_entry_not_applied],
    [grant_hides_star_entry], [complete_after_cancel],
    [unreadable_replay_rejected], [lapsed_worker_requeues], [expiry_wraps], [bound_key_unbinds],
    [since_wraps], [status_wedged], [stale_under_stamp], [edges_never_written],
    [externalized_not_found], [quoted_names_unchecked], [reingest_wedged],
    [reanalyze_forgets], [member_names_kept], [stale_update_loses_blob],
    [other_letters_unchecked]) are lemmas beside the definitions.

    ** Conventions and bounds

    A Go string is a byte string.  A Go function that returns an error is a
    [result]; each package's errors are an inductive type, one constructor per
    error site, without the message text around wrapped errors.  Maps are
    [gmap]s, or association lists where a table is only looked up.  Loops that
    are not structural run on fuel: one unit per byte of input for the lexer and
    one per token for the parser, plus one; the termination theorems say the
    fuel is never used up.  Go ints that only count or index are [nat] or [Z];
    the products that could wrap (durations in nanoseconds) are wrapped to 64
    bits.  A database table is the list of its rows in rowid order; a statement
    is one atomic function of it, a transaction of several too; a
    mutex-protected method is one step.  Where the order of calls on two stores
    matters an operation is a program ([Blobs.Prog]) or a run ([Turns.RunM]) whose
    calls interleave with those of others, and a call may fail with its effect or
    without it.  The
    clock, random bytes and new ids are arguments, one per reading.  A page of a
    sync is pushed with fuel two, which a skip uses up once at most, and a sync
    has fuel for one round per row of the source and one more; each loop of a
    re-projection has fuel for one round per row and one more: the termination
    theorems say none is used up.

    Outside the model, as classes or arguments: Unicode tables beyond ASCII
    ([GoUnicode]), time formatting and JSON ([GoEncodings], [GoJSON]), the JSON
    columns and URIs of an object ([GoColumns]) and its wire form ([GoWire]),
    SHA-256 ([GoCrypto]), the JSON of keys, invites and policy specs ([GoSpecs]),
    the YAML and JSON of a policy ([GoDocs]),
    the host of an Origin header ([GoOrigin]), [net/url], IDNA and the IP
    parsing of URL filters ([GoNet]), the resolver, the connections and the servers
    a fetch meets ([Outside]), what the network does to a request, decoding a stored
    policy, the database's answer to a SQL comparison (rows in [ViewerSpec] are
    their classes and the truth of every other comparison), how SQLite decides a
    selector's clause, the float arithmetic of costs ([GoFloat]), and the stores
    below the wrappers.

    ** Not modelled

    The full-text query builder, vector search and ranking, whose results are the
    engine's; metadata facets, ListBySQL and a restricted driver's scope in the
    object lists, which are SQL text run by the engine; the steps of the pipelines
    (arguments of [Ingest] and [Reanalyze], but for externalizing), which call models and the
    network; vectors; the federation workers' goroutines and cycle check; the embeddings
    migration; submission for analysis beyond the keyed [Enqueue]; cursors; the canonical graph; host rules,
    event streams and security events of the gate; the Postgres twins of the
    SQLite stores, whose SQL differs but whose contract is the same.  Transports,
    providers, importers, the command line and the user interfaces are I/O around
    the modelled code and are left out. *)

From stdpp Require Export base tactics option list strings gmap fin_maps sorting.

(** The empty Go string. *)
Abbreviation nostr := EmptyString (only parsing).

Declare Scope go_scope.
Delimit Scope go_scope with go.
Open Scope go_scope.

(** ** Fallible code

    A Go function returning [(T, error)] is a [result E T]: [Ok] when the
    error is nil, [Err] otherwise.  Each component has its own error type [E],
    with one constructor per error site of the source. *)
Inductive result (E A : Type) : Type :=
| Ok (a : A)
| Err (e : E).
Arguments Ok {E A} _.
Arguments Err {E A} _.

#[export] Instance result_ret E : MRet (result E) := λ A a, Ok a.
#[export] Instance result_bind E : MBind (result E) := λ A B f m,
  match m with Ok a => f a | Err e => Err e end.
#[export] Instance result_fmap E : FMap (result E) := λ A B f m,
  match m with Ok a => Ok (f a) | Err e => Err e end.

(** Wrapping an error: Go's [fmt.Errorf("...: %w", err)]. *)
Definition map_err {E F A} (f : E → F) (m : result E A) : result F A :=
  match m with Ok a => Ok a | Err e => Err (f e) end.

Definition is_ok {E A} (m : result E A) : bool :=
  match m with Ok _ => true | Err _ => false end.

(** A loop body run over a list, stopping at the first error. *)
Fixpoint for_each {E A} (f : A → result E unit) (l : list A) : result E unit :=
  match l with
  | [] => Ok tt
  | x :: l' => f x ≫= λ _, for_each f l'
  end.

(** [errs = append(errs, ...)] over a range. *)
Definition collect {A E} (f : A → list E) (l : list A) : list E := concat (map f l).

Section result_lemmas.
Context {E : Type}.

Lemma bind_ok_inv {A B} (m : result E A) (f : A → result E B) b :
  m ≫= f = Ok b → ∃ a, m = Ok a ∧ f a = Ok b.
Proof. destruct m as [a|e]; simpl; [eauto|discriminate]. Qed.

Lemma bind_err_inv {A B} (m : result E A) (f : A → result E B) e :
  m ≫= f = Err e → m = Err e ∨ ∃ a, m = Ok a ∧ f a = Err e.
Proof. destruct m as [a|e']; simpl; intros; simplify_eq; eauto. Qed.

Lemma fmap_ok_inv {A B} (m : result E A) (f : A → B) b :
  f <$> m = Ok b → ∃ a, m = Ok a ∧ b = f a.
Proof. destruct m as [a|e]; cbn; intros; simplify_eq; eauto. Qed.

Lemma for_each_ok {A} (f : A → result E unit) l :
  for_each f l = Ok tt ↔ Forall (λ x, f x = Ok tt) l.
Proof.
  induction l as [|x l IH]; simpl; [done|].
  rewrite Forall_cons. destruct (f x) as [[]|e]; simpl; [naive_solver|].
  split; [discriminate|intros [? _]; discriminate].
Qed.
End result_lemmas.

Lemma map_err_ok_inv {E F A} (f : E → F) (m : result E A) a :
  map_err f m = Ok a → m = Ok a.
Proof. destruct m; simpl; congruence. Qed.

Lemma Forall2_in_r {A B} (R : A → B → Prop) l k y : Forall2 R l k → y ∈ k → ∃ x, x ∈ l ∧ R x y.
Proof.
  induction 1 as [|x y' l k Hr _ IH]; intros Hy; [by apply not_elem_of_nil in Hy|].
  apply elem_of_cons in Hy as [->|Hy]; [exists x; by split; [left|]|].
  destruct (IH Hy) as (z & Hz & Hzr). exists z. by split; [right|].
Qed.
Lemma Forall2_in_l {A B} (R : A → B → Prop) l k x : Forall2 R l k → x ∈ l → ∃ y, y ∈ k ∧ R x y.
Proof.
  induction 1 as [|x' y l k Hr _ IH]; intros Hx; [by apply not_elem_of_nil in Hx|].
  apply elem_of_cons in Hx as [->|Hx]; [exists y; by split; [left|]|].
  destruct (IH Hx) as (z & Hz & Hzr). exists z. by split; [right|].
Qed.

(** ** Tactics

    [flatten] splits the first [match] or [if] found in the goal,
    [flatten_in H] the first one in [H]; [inv_ok] takes a successful monadic
    computation apart, one step per [≫=]. *)
Ltac flatten :=
  match goal with
  | |- context [match ?x with _ => _ end] => destruct x eqn:?
  end.

Ltac flatten_in H :=
  match type of H with
  | context [match ?x with _ => _ end] => destruct x eqn:?
  end.

Ltac inv_ok :=
  repeat match goal with
  | H : Err _ = Ok _ |- _ => discriminate H
  | H : Ok _ = Err _ |- _ => discriminate H
  | H : Ok _ = Ok _ |- _ => injection H as H
  | H : mbind _ _ = Ok _ |- _ =>
      let a := fresh "a" in let Ha := fresh "Ha" in
      apply bind_ok_inv in H as (a & Ha & H)
  | H : fmap _ _ = Ok _ |- _ =>
      let a := fresh "a" in let Ha := fresh "Ha" in
      apply fmap_ok_inv in H as (a & Ha & H)
  | H : map_err _ _ = Ok _ |- _ => apply map_err_ok_inv in H
  end; simplify_eq.

(** ** Runs of code that threads a state

    A Go method that reads and writes [S] and may fail is a [stateful S E];
    each component names its own and makes it a monad with [st_ret] and
    [st_bind].  [st_does R m]: every run of [m] relates its first state to its
    last. *)
Definition stateful (S E A : Type) : Type := S → result E A * S.
Definition st_ret {S E A} (a : A) : stateful S E A := λ s, (Ok a, s).
Definition st_bind {S E A B} (m : stateful S E A) (f : A → stateful S E B) : stateful S E B := λ s,
  match m s with
  | (Ok a, s') => f a s'
  | (Err e, s') => (Err e, s')
  end.
Definition st_does {S E A} (R : S → S → Prop) (m : stateful S E A) : Prop := ∀ s r s', m s = (r, s') → R s s'.

Section runs.
Context {S E : Type}.

Lemma st_bind_inv {A B} (m : stateful S E A) (f : A → stateful S E B) s r s' :
  st_bind m f s = (r, s') → (∃ e, m s = (Err e, s') ∧ r = Err e) ∨ ∃ a s1, m s = (Ok a, s1) ∧ f a s1 = (r, s').
Proof. unfold st_bind. destruct (m s) as [[a|e] s1]; [eauto|]. intros [= <- <-]. eauto. Qed.

Context (R : S → S → Prop) `{!PreOrder R}.

Lemma st_does_ret {A} (a : A) : st_does R (st_ret a : stateful S E A).
Proof. by intros s r s' [= _ <-]. Qed.
Lemma st_does_bind_post {A B} (P : A → Prop) (m : stateful S E A) (f : A → stateful S E B) :
  st_does R m → (∀ s a s', m s = (Ok a, s') → P a) → (∀ a, P a → st_does R (f a)) → st_does R (st_bind m f).
Proof.
  intros Hm Hp Hf s r s' [(e & Hx & _)|(a & s1 & Hx & Hr)]%st_bind_inv; pose proof (Hm _ _ _ Hx) as Hs; [done|].
  transitivity s1; [done|]. by eapply Hf; [eapply Hp|].
Qed.
Lemma st_does_bind {A B} (m : stateful S E A) (f : A → stateful S E B) :
  st_does R m → (∀ a, st_does R (f a)) → st_does R (st_bind m f).
Proof. intros Hm Hf. by apply (st_does_bind_post (λ _, True)). Qed.
End runs.

(** ** Reachability *)
Section star.
Context {A : Type} (R : A → A → Prop).

Inductive star : A → A → Prop :=
| star_refl a : star a a
| star_step a b c : R a b → star b c → star a c.

(** Rule induction for an invariant: what every step preserves holds in
    every reachable state. *)
Lemma star_invariant (P : A → Prop) :
  (∀ a b, R a b → P a → P b) → ∀ a b, star a b → P a → P b.
Proof. intros Hstep a b H. induction H; eauto. Qed.

Lemma star_trans a b c : star a b → star b c → star a c.
Proof. induction 1; eauto using star. Qed.
End star.

Create HintDb go.
#[export] Hint Constructors star : go.

(** ** Lists as Go slices *)
Section lists.
Context {A : Type} `{EqDecision A}.

(** [slices.Contains] *)
Definition contains (l : list A) (x : A) : bool := bool_decide (x ∈ l).

Lemma contains_true l x : contains l x = true ↔ x ∈ l.
Proof. apply bool_decide_eq_true. Qed.
Lemma contains_false l x : contains l x = false ↔ x ∉ l.
Proof. apply bool_decide_eq_false. Qed.

(** [intersect]: the entries of [a] that [b] also lists, in [a]'s order. *)
Definition keep_in (a b : list A) : list A := filter (λ x, x ∈ b) a.

(** [slices.Compact]: drops an entry equal to the one before it. *)
Fixpoint Compact (l : list A) : list A :=
  match l with
  | x :: ((y :: _) as l') => if bool_decide (x = y) then Compact l' else x :: Compact l'
  | _ => l
  end.

Lemma elem_of_Compact x l : x ∈ Compact l ↔ x ∈ l.
Proof.
  induction l as [|a [|b l] IH]; [done|done|].
  change (Compact (a :: b :: l)) with
    (if bool_decide (a = b) then Compact (b :: l) else a :: Compact (b :: l)).
  case_bool_decide as Hab; subst; set_solver.
Qed.
End lists.

(** [sort.SliceStable] with a strict order [ltb]: the stable insertion sort. *)
Section stable_sort.
Context {A : Type} (ltb : A → A → bool).

Fixpoint insert_stable (x : A) (l : list A) : list A :=
  match l with
  | [] => [x]
  | y :: l' => if ltb y x then y :: insert_stable x l' else x :: l
  end.

Definition SliceStable (l : list A) : list A := foldr insert_stable [] l.

Lemma insert_stable_perm x l : insert_stable x l ≡ₚ x :: l.
Proof.
  induction l as [|y l IH]; simpl; [done|].
  destruct (ltb y x); [|done]. rewrite IH. constructor.
Qed.

Lemma SliceStable_perm l : SliceStable l ≡ₚ l.
Proof. induction l as [|x l IH]; simpl; [done|]. by rewrite insert_stable_perm, IH. Qed.
End stable_sort.

(** Of a list without repetitions under [f], [f] picks one element. *)
Lemma NoDup_map_inj {A B} (f : A → B) l x y : NoDup (map f l) → x ∈ l → y ∈ l → f x = f y → x = y.
Proof.
  induction l as [|z l IH]; cbn; [by intros _ Hx%not_elem_of_nil|]. intros [Hz Hl]%NoDup_cons.
  intros [->|Hx]%elem_of_cons [->|Hy]%elem_of_cons He; [done| | |by apply IH].
  - destruct Hz. rewrite He. by apply list_elem_of_fmap_2.
  - destruct Hz. rewrite <- He. by apply list_elem_of_fmap_2.
Qed.

(** ** Boolean quantifiers over lists *)
Lemma existsb_exists' {A} (f : A → bool) l : existsb f l = true ↔ ∃ x, x ∈ l ∧ f x = true.
Proof. rewrite existsb_exists. by setoid_rewrite list_elem_of_In. Qed.

Lemma forallb_forall' {A} (f : A → bool) l : forallb f l = true ↔ ∀ x, x ∈ l → f x = true.
Proof. rewrite forallb_forall. by setoid_rewrite list_elem_of_In. Qed.

Lemma existsb_perm {A} (f : A → bool) l k : l ≡ₚ k → existsb f l = existsb f k.
Proof.
  intros H. apply eq_true_iff_eq. rewrite !existsb_exists'.
  by setoid_rewrite H.
Qed.

Lemma existsb_map {A B} (g : A → B) (f : B → bool) l :
  existsb f (map g l) = existsb (λ x, f (g x)) l.
Proof. induction l; simpl; congruence. Qed.

Lemma existsb_ext' {A} (f g : A → bool) l : (∀ x, x ∈ l → f x = g x) → existsb f l = existsb g l.
Proof.
  intros H. induction l as [|x l IH]; simpl; [done|].
  rewrite H by set_solver. f_equal. apply IH. set_solver.
Qed.

Lemma elem_of_concat_map {A B} (f : A → list B) l x : x ∈ concat (map f l) ↔ ∃ y, y ∈ l ∧ x ∈ f y.
Proof. induction l as [|y l IH]; simpl; [set_solver|]. rewrite elem_of_app, IH. set_solver. Qed.

Lemma cons_inv {A} (x y : A) l k : x :: l = y :: k → x = y ∧ l = k.
Proof. by intros [=]. Qed.
