(* ===== verification/GoStrings.v ===== *)
(** * Go's string operations, as the modelled packages use them

    A Go string is a byte sequence: a Rocq [string], one [ascii] per byte.
    [utf8_head] gives the width Go's UTF-8 decoder consumes; [TrimSpace],
    [Cut], [Contains], [Join], [RuneCount] and the rest follow package
    [strings].  The Unicode tables Go consults for runes outside ASCII are the
    class [GoUnicode]: the definitions that need them take an instance. *)

From Stdlib Require Export Ascii.
From stdpp Require Export pretty.
From S2P Require Import Prelude.

Infix "+:+" := String.append (at level 60, right associativity) : go_scope.

Definition byte_str (n : nat) : string := String (Ascii.ascii_of_nat n) nostr.
Definition bytes (l : list nat) : string := foldr (λ n s, String (Ascii.ascii_of_nat n) s) nostr l.
Definition code (c : ascii) : nat := Ascii.nat_of_ascii c.

(** The double quote character, [0x22]. *)
Definition dquote : ascii := Ascii.ascii_of_nat 34.
Definition squote : ascii := Ascii.ascii_of_nat 39.

(** Character equality as a Boolean. *)
Definition is_char (c d : ascii) : bool := bool_decide (c = d).

Definition str_eqb (s t : string) : bool := bool_decide (s = t).

(** ** Slicing *)
Fixpoint str_drop (n : nat) (s : string) : string :=
  match n, s with
  | S n', String _ s' => str_drop n' s'
  | _, _ => s
  end.

Fixpoint str_take (n : nat) (s : string) : string :=
  match n, s with
  | S n', String c s' => String c (str_take n' s')
  | _, _ => nostr
  end.

(** [s[i:j]] *)
Definition slice (s : string) (i j : nat) : string := str_take (j - i) (str_drop i s).

(** The longest prefix of [s] whose bytes satisfy [p], and the rest. *)
Fixpoint span (p : ascii → bool) (s : string) : string * string :=
  match s with
  | String c s' => if p c then let '(a, b) := span p s' in (String c a, b) else (nostr, s)
  | EmptyString => (nostr, nostr)
  end.

Fixpoint str_forall (p : ascii → bool) (s : string) : bool :=
  match s with
  | String c s' => p c && str_forall p s'
  | EmptyString => true
  end.

(** ** Package strings *)
Definition HasPrefix (s p : string) : bool := String.prefix p s.
Definition TrimPrefix (s p : string) : string :=
  if HasPrefix s p then str_drop (String.length p) s else s.
(** [strings.CutPrefix]: [None] stands for found = false. *)
Definition CutPrefix (s p : string) : option string :=
  if HasPrefix s p then Some (str_drop (String.length p) s) else None.

(** [strings.Cut]'s first result: the part of [s] before the first [sep]. *)
Fixpoint CutBefore (s sep : string) : string :=
  if HasPrefix s sep then nostr
  else match s with String c s' => String c (CutBefore s' sep) | EmptyString => nostr end.

(** [strings.Contains] *)
Fixpoint StrContains (s sub : string) : bool :=
  HasPrefix s sub ||
  match s with String _ s' => StrContains s' sub | EmptyString => false end.

Fixpoint Join (l : list string) (sep : string) : string :=
  match l with
  | [] => nostr
  | [s] => s
  | s :: l' => s +:+ sep +:+ Join l' sep
  end.

(** [strings.ReplaceAll] of a single byte. *)
Fixpoint ReplaceByte (s : string) (old : ascii) (new : string) : string :=
  match s with
  | EmptyString => nostr
  | String c s' => (if is_char c old then new else String c nostr) +:+ ReplaceByte s' old new
  end.

(** Splitting at one byte. *)
Fixpoint SplitByte (s : string) (sep : ascii) : list string :=
  match s with
  | EmptyString => [nostr]
  | String c s' =>
      if is_char c sep then nostr :: SplitByte s' sep
      else match SplitByte s' sep with
           | x :: l => String c x :: l
           | [] => [String c nostr]
           end
  end.

(** ** White space

    [unicode.IsSpace] of a rune below U+0100, as the lexer applies it to one
    byte; and the encodings of every white space rune, which is what
    [TrimSpace] removes at both ends. *)
Definition IsSpaceLatin1 (c : ascii) : bool :=
  let n := code c in
  ((9 <=? n) && (n <=? 13)) || (n =? 32) || (n =? 133) || (n =? 160).

Definition space_encodings : list string :=
  map bytes ([[9]; [10]; [11]; [12]; [13]; [32]; [194; 133]; [194; 160]; [225; 154; 128]] ++
    map (λ n, [226; 128; n]) [128; 129; 130; 131; 132; 133; 134; 135; 136; 137; 138; 168; 169; 175] ++
    [[226; 129; 159]; [227; 128; 128]]).

Fixpoint strip_one (encs : list string) (s : string) : option string :=
  match encs with
  | [] => None
  | e :: encs' => match CutPrefix s e with Some s' => Some s' | None => strip_one encs' s end
  end.

Fixpoint strip_all (fuel : nat) (encs : list string) (s : string) : string :=
  match fuel with
  | O => s
  | S n => match strip_one encs s with Some s' => strip_all n encs s' | None => s end
  end.

Definition TrimLeftSpace (s : string) : string := strip_all (String.length s) space_encodings s.
Definition TrimRightSpace (s : string) : string :=
  String.rev (strip_all (String.length s) (map String.rev space_encodings) (String.rev s)).
Definition TrimSpace (s : string) : string := TrimRightSpace (TrimLeftSpace s).

(** ** UTF-8 *)
Definition in_range (lo hi : nat) (c : ascii) : bool := (lo <=? code c) && (code c <=? hi).
Definition cont : ascii → bool := in_range 128 191.

(** The bytes the decoder consumes at the head of [s] and whether they encode
    a rune; an invalid sequence consumes one byte (RuneError, width 1). *)
Definition utf8_head (s : string) : nat * bool :=
  match s with
  | EmptyString => (0, false)
  | String a s1 =>
      let ok2 p := match s1 with String b _ => p b | _ => false end in
      let ok3 p := match s1 with String b (String c _) => p b && cont c | _ => false end in
      let ok4 p := match s1 with String b (String c (String d _)) => p b && cont c && cont d | _ => false end in
      let n := code a in
      if n <? 128 then (1, true)
      else if (194 <=? n) && (n <=? 223) then if ok2 cont then (2, true) else (1, false)
      else if n =? 224 then if ok3 (in_range 160 191) then (3, true) else (1, false)
      else if n =? 237 then if ok3 (in_range 128 159) then (3, true) else (1, false)
      else if (225 <=? n) && (n <=? 239) then if ok3 cont then (3, true) else (1, false)
      else if n =? 240 then if ok4 (in_range 144 191) then (4, true) else (1, false)
      else if (241 <=? n) && (n <=? 243) then if ok4 cont then (4, true) else (1, false)
      else if n =? 244 then if ok4 (in_range 128 143) then (4, true) else (1, false)
      else (1, false)
  end.

(** [for _, r := range s]: the encodings of the runes of [s], in order. *)
Fixpoint runes_fuel (fuel : nat) (s : string) : list string :=
  match fuel, s with
  | S n, String _ _ =>
      let w := (utf8_head s).1 in str_take w s :: runes_fuel n (str_drop w s)
  | _, _ => []
  end.
Definition runes (s : string) : list string := runes_fuel (String.length s) s.

(** [utf8.RuneCountInString] *)
Definition RuneCount (s : string) : nat := length (runes s).

(** The value of a rune from its encoding (valid encodings only). *)
Definition rune_value (e : string) : N :=
  match map (λ c, N.of_nat (code c)) (String.list_ascii_of_string e) with
  | [a] => a
  | [a; b] => (a - 192) * 64 + (b - 128)
  | [a; b; c] => ((a - 224) * 64 + (b - 128)) * 64 + (c - 128)
  | [a; b; c; d] => (((a - 240) * 64 + (b - 128)) * 64 + (c - 128)) * 64 + (d - 128)
  | _ => 65533
  end%N.

Definition is_ascii (s : string) : bool := str_forall (λ c, code c <? 128) s.

(** What Go's Unicode tables say of runes outside ASCII: the lower case of a
    string with non-ASCII bytes, letters and digits from U+0080 on. *)
Class GoUnicode := {
  uc_to_lower : string → string;
  uc_is_letter : N → bool;
  uc_is_digit : N → bool;
}.

Definition lower_ascii (c : ascii) : ascii :=
  if in_range 65 90 c then Ascii.ascii_of_nat (code c + 32) else c.

Fixpoint str_map (f : ascii → ascii) (s : string) : string :=
  match s with
  | EmptyString => nostr
  | String c s' => String (f c) (str_map f s')
  end.

(** [strings.ToLower]: byte by byte on an ASCII string, the Unicode tables
    otherwise. *)
Definition ToLower `{GoUnicode} (s : string) : string :=
  if is_ascii s then str_map lower_ascii s else uc_to_lower s.

(** Character classes of the regular expressions. *)
Definition is_lower (c : ascii) : bool := in_range 97 122 c.
Definition is_upper (c : ascii) : bool := in_range 65 90 c.
Definition is_digit (c : ascii) : bool := in_range 48 57 c.

(** A non-empty string whose first byte satisfies [p] and the others [q]:
    the regular expression [^[p][q]*$]. *)
Definition match_head_tail (p q : ascii → bool) (s : string) : bool :=
  match s with EmptyString => false | String c s' => p c && str_forall q s' end.

(** [slices.Sort] of strings: byte-wise order. *)
Definition SortStrings (l : list string) : list string := merge_sort String.le l.
(** [a < b] of strings. *)
Definition str_ltb (a b : string) : bool := String.ltb a b.

(** ** Lemmas *)
Lemma str_app_nil_l (s : string) : nostr +:+ s = s.
Proof. done. Qed.
Lemma str_app_cons c (s t : string) : String c s +:+ t = String c (s +:+ t).
Proof. done. Qed.
Lemma str_app_nil_r (s : string) : s +:+ nostr = s.
Proof. induction s as [|c s IH]; [done|]. by rewrite str_app_cons, IH. Qed.
Lemma str_app_assoc (s t u : string) : (s +:+ t) +:+ u = s +:+ t +:+ u.
Proof. induction s as [|c s IH]; [done|]. by rewrite !str_app_cons, IH. Qed.
Lemma length_str_app (s t : string) : String.length (s +:+ t) = String.length s + String.length t.
Proof. induction s as [|c s IH]; [done|]. rewrite str_app_cons. simpl. by rewrite IH. Qed.

#[export] Hint Rewrite str_app_nil_l str_app_cons str_app_nil_r str_app_assoc length_str_app : go_str.
Ltac str_norm := autorewrite with go_str in *.

Lemma str_drop_app (a b : string) : str_drop (String.length a) (a +:+ b) = b.
Proof. induction a as [|c a IH]; [by destruct b|done]. Qed.
Lemma str_take_app (a b : string) : str_take (String.length a) (a +:+ b) = a.
Proof. induction a as [|c a IH]; [done|]. rewrite str_app_cons. simpl. by rewrite IH. Qed.
Lemma str_take_drop n (s : string) : str_take n s +:+ str_drop n s = s.
Proof. revert s. induction n as [|n IH]; intros [|c s]; simpl; try done. by rewrite str_app_cons, IH. Qed.

Lemma slice_mid (a v b : string) :
  slice (a +:+ v +:+ b) (String.length a) (String.length a + String.length v) = v.
Proof.
  unfold slice. rewrite str_drop_app.
  replace (String.length a + String.length v - String.length a) with (String.length v) by lia.
  apply str_take_app.
Qed.

Lemma HasPrefix_spec (s p : string) : HasPrefix s p = true ↔ ∃ t, s = p +:+ t.
Proof.
  unfold HasPrefix. revert s. induction p as [|c p IH]; intros s; simpl.
  - split; [by exists s|by destruct s].
  - destruct s as [|d s]; [naive_solver|]. specialize (IH s). simpl in *.
    destruct (ascii_dec c d) as [->|Hne].
    + etrans; [exact IH|]. split; intros [t Ht]; exists t; [by rewrite Ht|].
      by injection Ht.
    + split; [done|]. intros [t Ht]. by injection Ht.
Qed.

Lemma span_spec p s a b :
  span p s = (a, b) →
  s = a +:+ b ∧ str_forall p a = true ∧ (match b with String c _ => p c = false | _ => True end).
Proof.
  revert a b. induction s as [|c s IH]; intros a b; simpl.
  - by intros [= <- <-].
  - destruct (p c) eqn:Hp.
    + destruct (span p s) as [a' b'] eqn:Hs. intros [= <- <-].
      destruct (IH a' b' eq_refl) as (-> & Ha & Hb).
      by rewrite str_app_cons; simpl; rewrite Hp.
    + by intros [= <- <-].
Qed.

Lemma span_app p a b :
  str_forall p a = true → (match b with String c _ => p c = false | _ => True end) →
  span p (a +:+ b) = (a, b).
Proof.
  intros Ha Hb. induction a as [|c a IH].
  - rewrite str_app_nil_l. destruct b as [|d b]; simpl; [done|]. by rewrite Hb.
  - simpl in Ha. apply andb_true_iff in Ha as [Hc Ha]. rewrite str_app_cons.
    cbn [span]. by rewrite Hc, (IH Ha).
Qed.

Lemma str_forall_app p a b : str_forall p (a +:+ b) = str_forall p a && str_forall p b.
Proof.
  induction a as [|c a IH]; [done|].
  rewrite str_app_cons. cbn [str_forall]. by rewrite IH, andb_assoc.
Qed.

Lemma str_forall_impl (p q : ascii → bool) s :
  (∀ c, p c = true → q c = true) → str_forall p s = true → str_forall q s = true.
Proof.
  intros Hpq. induction s as [|c s IH]; simpl; [done|].
  rewrite !andb_true_iff. naive_solver.
Qed.

Lemma str_eqb_true s t : str_eqb s t = true ↔ s = t.
Proof. apply bool_decide_eq_true. Qed.
Lemma is_char_true c d : is_char c d = true ↔ c = d.
Proof. apply bool_decide_eq_true. Qed.
Lemma is_char_refl c : is_char c c = true.
Proof. by apply is_char_true. Qed.
Lemma str_eqb_refl s : str_eqb s s = true.
Proof. by apply str_eqb_true. Qed.

Lemma StrContains_spec s sub : StrContains s sub = true ↔ ∃ a b, s = a +:+ sub +:+ b.
Proof.
  induction s as [|c s IH]; cbn [StrContains]; rewrite orb_true_iff, HasPrefix_spec.
  - split; [intros [[t Ht]|?]; [|done]|]; [by exists nostr, t|].
    intros (a & b & Hab). left. exists b. destruct a; [done|discriminate].
  - rewrite IH. split.
    + intros [[t ->]|(a & b & ->)]; [by exists nostr, t|by exists (String c a), b].
    + intros ([|d a] & b & Hab); [left; by exists b|right].
      injection Hab as -> ->. by exists a, b.
Qed.

(** The order of [slices.Sort] on strings. *)
Lemma SortStrings_sorted l : StronglySorted String.le (SortStrings l).
Proof. apply StronglySorted_merge_sort; apply _. Qed.
Lemma SortStrings_perm l : SortStrings l ≡ₚ l.
Proof. apply merge_sort_Permutation. Qed.

(** ** TrimSpace *)
Lemma rev_app_spec s t : String.rev_app s t = String.rev s +:+ t.
Proof.
  unfold String.rev. revert t. induction s as [|c s IH]; intros t; [done|].
  cbn [String.rev_app]. rewrite IH, (IH (String c nostr)). by str_norm.
Qed.
Lemma str_rev_cons c s : String.rev (String c s) = String.rev s +:+ String c nostr.
Proof. unfold String.rev at 1. cbn [String.rev_app]. apply rev_app_spec. Qed.
Lemma str_rev_app s t : String.rev (s +:+ t) = String.rev t +:+ String.rev s.
Proof.
  induction s as [|c s IH]; [by rewrite str_app_nil_l, str_app_nil_r|].
  by rewrite str_app_cons, !str_rev_cons, IH, str_app_assoc.
Qed.
Lemma str_rev_involutive s : String.rev (String.rev s) = s.
Proof. induction s as [|c s IH]; [done|]. by rewrite str_rev_cons, str_rev_app, IH. Qed.

Lemma strip_one_some encs s s' :
  strip_one encs s = Some s' → ∃ e, e ∈ encs ∧ s = e +:+ s'.
Proof.
  induction encs as [|e encs IH]; [done|]. simpl. unfold CutPrefix.
  destruct (HasPrefix s e) eqn:H; [|intros (e'&?&?)%IH; exists e'; set_solver].
  apply HasPrefix_spec in H as [t ->]. rewrite str_drop_app. intros [= ->]. exists e. set_solver.
Qed.

Lemma strip_one_none encs s : strip_one encs s = None ↔ ∀ e, e ∈ encs → HasPrefix s e = false.
Proof.
  induction encs as [|e encs IH]; simpl; [set_solver|]. unfold CutPrefix.
  destruct (HasPrefix s e) eqn:H; [split; [done|intros Hn; rewrite Hn in H; set_solver]|].
  rewrite IH. set_solver.
Qed.

(** With no empty encoding, the string's length is fuel enough. *)
Lemma strip_all_stripped encs fuel s :
  Forall (λ e, e ≠ nostr) encs → String.length s ≤ fuel → strip_one encs (strip_all fuel encs s) = None.
Proof.
  intros He. revert s. induction fuel as [|n IH]; intros s Hs; simpl.
  - apply strip_one_none. intros e Hin. destruct s; [|simpl in Hs; lia].
    rewrite Forall_forall in He. destruct e; [by destruct (He _ Hin)|done].
  - destruct (strip_one encs s) as [s'|] eqn:H; [|done]. apply IH.
    apply strip_one_some in H as (e & Hin & ->). rewrite Forall_forall in He. specialize (He _ Hin).
    rewrite length_str_app in Hs. destruct e; simpl in *; [done|lia].
Qed.

Lemma strip_all_suffix encs fuel s : ∃ t, s = t +:+ strip_all fuel encs s.
Proof.
  revert s. induction fuel as [|n IH]; intros s; simpl; [by exists nostr|].
  destruct (strip_one encs s) as [s'|] eqn:H; [|by exists nostr].
  apply strip_one_some in H as (e & _ & ->). destruct (IH s') as [t Ht].
  exists (e +:+ t). by rewrite str_app_assoc, <- Ht.
Qed.

Lemma strip_all_id encs fuel s : strip_one encs s = None → strip_all fuel encs s = s.
Proof. intros H. destruct fuel; simpl; [done|]. by rewrite H. Qed.

Lemma space_encodings_nonempty : Forall (λ e, e ≠ nostr) space_encodings.
Proof. repeat constructor; discriminate. Qed.
Lemma rev_space_encodings_nonempty : Forall (λ e, e ≠ nostr) (map String.rev space_encodings).
Proof. repeat constructor; discriminate. Qed.

Lemma TrimSpace_idemp s : TrimSpace (TrimSpace s) = TrimSpace s.
Proof.
  assert (Hl : strip_one space_encodings (TrimLeftSpace s) = None)
    by (apply strip_all_stripped; [apply space_encodings_nonempty|done]).
  unfold TrimSpace at 2 3, TrimRightSpace. set (x := TrimLeftSpace s) in *.
  set (rencs := map String.rev space_encodings).
  assert (Hr : strip_one rencs (strip_all (String.length x) rencs (String.rev x)) = None).
  { apply strip_all_stripped; [apply rev_space_encodings_nonempty|].
    assert (∀ t, String.length (String.rev t) = String.length t) as ->; [|done].
    intros t. induction t as [|c t IH]; [done|]. rewrite str_rev_cons, length_str_app, IH. simpl. lia. }
  destruct (strip_all_suffix rencs (String.length x) (String.rev x)) as [r Hx].
  set (y := strip_all (String.length x) rencs (String.rev x)) in *.
  apply (f_equal String.rev) in Hx. rewrite str_rev_involutive, str_rev_app in Hx.
  unfold TrimSpace. assert (TrimLeftSpace (String.rev y) = String.rev y) as ->.
  { apply strip_all_id, strip_one_none. intros e He. rewrite strip_one_none in Hl. specialize (Hl e He).
    destruct (HasPrefix (String.rev y) e) eqn:H; [|done]. apply HasPrefix_spec in H as [t Ht].
    rewrite Hx, Ht, str_app_assoc in Hl. rewrite <- Hl. symmetry. apply HasPrefix_spec. eauto. }
  unfold TrimRightSpace. rewrite str_rev_involutive. by rewrite strip_all_id.
Qed.

(** ** Splitting what was joined *)
Definition lacks (c : ascii) (s : string) : bool := str_forall (λ d, negb (is_char d c)) s.

Lemma SplitByte_app c a b : lacks c a = true → SplitByte (a +:+ String c b) c = a :: SplitByte b c.
Proof.
  induction a as [|d a IH]; intros H.
  - rewrite str_app_nil_l. cbn [SplitByte]. by rewrite is_char_refl.
  - cbn in H. apply andb_true_iff in H as [Hd H]. rewrite str_app_cons. cbn [SplitByte].
    apply negb_true_iff in Hd. by rewrite Hd, (IH H).
Qed.

Lemma SplitByte_lacks c a : lacks c a = true → SplitByte a c = [a].
Proof.
  induction a as [|d a IH]; intros H; [done|]. cbn in H. apply andb_true_iff in H as [Hd H].
  apply negb_true_iff in Hd. cbn [SplitByte]. by rewrite Hd, (IH H).
Qed.

(** Pieces each preceded by the separator. *)
Definition prefixed (c : ascii) (l : list string) : string := foldr (λ x s, String c (x +:+ s)) nostr l.

Lemma SplitByte_prefixed c a l :
  lacks c a = true → Forall (λ x, lacks c x = true) l → SplitByte (a +:+ prefixed c l) c = a :: l.
Proof.
  intros Ha Hl. revert a Ha. induction Hl as [|x l Hx Hl IH]; intros a Ha; simpl.
  - rewrite str_app_nil_r. by apply SplitByte_lacks.
  - rewrite SplitByte_app by done. by rewrite IH.
Qed.

Lemma Join_prefixed c x l : Join (x :: l) (String c nostr) = x +:+ prefixed c l.
Proof.
  revert x. induction l as [|y l IH]; intros x; [by cbn; rewrite str_app_nil_r|].
  change (Join (x :: y :: l) (String c nostr)) with (x +:+ String c nostr +:+ Join (y :: l) (String c nostr)).
  rewrite IH. by str_norm.
Qed.

Lemma Join_inj c l k :
  Forall (λ x, lacks c x = true ∧ x ≠ nostr) l → Forall (λ x, lacks c x = true ∧ x ≠ nostr) k →
  Join l (String c nostr) = Join k (String c nostr) → l = k.
Proof.
  assert (Hs : ∀ x l, Forall (λ x, lacks c x = true ∧ x ≠ nostr) (x :: l) →
    SplitByte (Join (x :: l) (String c nostr)) c = x :: l).
  { intros x m [[Hx _] Hm]%Forall_cons. rewrite Join_prefixed. apply SplitByte_prefixed; [done|].
    eapply Forall_impl; [exact Hm|]. by intros ? [? _]. }
  assert (Hn : ∀ x l, Forall (λ x, lacks c x = true ∧ x ≠ nostr) (x :: l) → Join (x :: l) (String c nostr) ≠ nostr).
  { intros x m Hm Hj. apply Hs in Hm as Hq. rewrite Hj in Hq. cbn in Hq. injection Hq as <- <-.
    apply Forall_cons in Hm as [[_ Hx] _]. done. }
  intros Hl Hk H. destruct l as [|x l], k as [|y k]; [done|..].
  - symmetry in H. by apply Hn in H.
  - by apply Hn in H.
  - rewrite <- (Hs x l), <- (Hs y k) by done. by rewrite H.
Qed.

Lemma app_sep_inj c a1 a2 b1 b2 :
  lacks c a1 = true → lacks c a2 = true → a1 +:+ String c b1 = a2 +:+ String c b2 → a1 = a2 ∧ b1 = b2.
Proof.
  revert a2. induction a1 as [|d a1 IH]; intros [|d2 a2] H1 H2 H.
  - rewrite !str_app_nil_l in H. by simplify_eq.
  - rewrite str_app_nil_l, str_app_cons in H. simplify_eq. cbn in H2. by rewrite is_char_refl in H2.
  - rewrite str_app_nil_l, str_app_cons in H. simplify_eq. cbn in H1. by rewrite is_char_refl in H1.
  - rewrite !str_app_cons in H. simplify_eq. cbn in H1, H2.
    apply andb_true_iff in H1 as [_ H1]. apply andb_true_iff in H2 as [_ H2].
    destruct (IH a2 H1 H2) as [-> ->]; done.
Qed.

Lemma str_app_inj a b1 b2 : a +:+ b1 = a +:+ b2 → b1 = b2.
Proof. induction a as [|c a IH]; [done|]. rewrite !str_app_cons. intros [=]. auto. Qed.

Lemma lacks_app c a b : lacks c (a +:+ b) = lacks c a && lacks c b.
Proof. apply str_forall_app. Qed.

(** The decimal form of an integer: digits and a sign. *)
Definition decimal_char (c : ascii) : bool := is_digit c || is_char c "-".

Lemma pretty_N_chars (n : N) : str_forall decimal_char (pretty n) = true.
Proof.
  assert (H : ∀ x s, str_forall decimal_char s = true → str_forall decimal_char (pretty_N_go x s) = true).
  { intros x. induction (N.lt_wf_0 x) as [x _ IH]; intros s Hs.
    assert (x = 0 ∨ 0 < x)%N as [->|?] by lia; [by rewrite pretty_N_go_0|].
    rewrite pretty_N_go_step by done. apply IH; [by apply N.div_lt|]. cbn [str_forall]. rewrite Hs, andb_true_r.
    unfold pretty_N_char. by repeat case_match. }
  unfold pretty, pretty_N. case_decide; [done|]. by apply H.
Qed.

Lemma pretty_Z_chars (z : Z) : str_forall decimal_char (pretty z) = true.
Proof.
  destruct z as [|p|p]; [done|apply (pretty_N_chars (Npos p))|].
  change (pretty (Z.neg p)) with (String "-" (pretty (N.pos p))). cbn [str_forall].
  apply (pretty_N_chars (Npos p)).
Qed.

Lemma str_forall_lacks p c s : p c = false → str_forall p s = true → lacks c s = true.
Proof.
  intros Hc. apply str_forall_impl. intros d Hd. apply negb_true_iff.
  destruct (is_char d c) eqn:E; [|done]. apply is_char_true in E as ->. congruence.
Qed.

Lemma match_head_tail_lacks p q c s :
  p c = false → q c = false → match_head_tail p q s = true → lacks c s = true ∧ s ≠ nostr.
Proof.
  intros Hp Hq. destruct s as [|d s]; [done|]. cbn [match_head_tail].
  intros [Hd Hs]%andb_true_iff. split; [|done]. unfold lacks. cbn [str_forall].
  rewrite (str_forall_lacks q c s Hq Hs : str_forall _ s = true), andb_true_r. apply negb_true_iff.
  destruct (is_char d c) eqn:E; [|done]. apply is_char_true in E as ->. congruence.
Qed.

Lemma TrimSpace_infix s : ∃ a b, s = a +:+ TrimSpace s +:+ b.
Proof.
  unfold TrimSpace, TrimRightSpace.
  destruct (strip_all_suffix space_encodings (String.length s) s) as [a Ha].
  change (strip_all (String.length s) space_encodings s) with (TrimLeftSpace s) in Ha.
  set (x := TrimLeftSpace s) in *. set (rencs := map String.rev space_encodings).
  destruct (strip_all_suffix rencs (String.length x) (String.rev x)) as [r Hx].
  apply (f_equal String.rev) in Hx. rewrite str_rev_involutive, str_rev_app in Hx.
  exists a, (String.rev r). by rewrite <- Hx.
Qed.

Lemma lacks_TrimSpace c s : lacks c s = true → lacks c (TrimSpace s) = true.
Proof.
  destruct (TrimSpace_infix s) as (a & b & Hs). rewrite Hs at 1. rewrite !lacks_app, !andb_true_iff. tauto.
Qed.

(** The order of strings is total, so not-less is the reverse order. *)
Lemma str_ltb_false a b : str_ltb a b = false ↔ String.le b a.
Proof.
  unfold str_ltb, String.ltb, String.le, String.leb. rewrite (String.compare_antisym a b).
  destruct (String.compare b a); cbn; split; done.
Qed.

Lemma str_ltb_irrefl a : str_ltb a a = false.
Proof. by apply str_ltb_false. Qed.

Lemma str_ltb_asym a b : str_ltb a b = true → str_ltb b a = false.
Proof.
  intros Hab. destruct (str_ltb b a) eqn:E; [|done]. exfalso. revert Hab E.
  unfold str_ltb, String.ltb. rewrite (String.compare_antisym a b). by destruct (String.compare b a).
Qed.

(** [strings.HasSuffix] and [strings.TrimSuffix]. *)
Definition HasSuffix (s p : string) : bool :=
  (String.length p <=? String.length s) && str_eqb (str_drop (String.length s - String.length p) s) p.
Definition TrimSuffix (s p : string) : string :=
  if HasSuffix s p then str_take (String.length s - String.length p) s else s.

(** ** [strings.ReplaceAll]

    [cut_at old skip s] cuts [s] at the occurrences of [old], left to right and
    without overlap, after dropping [skip] bytes; [ReplaceAll] joins the pieces
    with the new text.  An empty [old] matches before each rune and at the end. *)
Fixpoint cut_at (old : string) (skip : nat) (s : string) : string * list string :=
  match s with
  | EmptyString => (nostr, [])
  | String a s' =>
      match skip with
      | S k => cut_at old k s'
      | O =>
          if HasPrefix s old then
            let (h, t) := cut_at old (Nat.pred (String.length old)) s' in (nostr, h :: t)
          else let (h, t) := cut_at old 0 s' in (String a h, t)
      end
  end.

Definition ReplaceAll (s old new : string) : string :=
  if str_eqb old nostr then foldl (λ out r, out +:+ r +:+ new) new (runes s)
  else let (h, t) := cut_at old 0 s in foldl (λ out p, out +:+ new +:+ p) h t.

Lemma StrContains_false s sub : StrContains s sub = false ↔ ¬ ∃ a b, s = a +:+ sub +:+ b.
Proof. rewrite <- StrContains_spec. by rewrite not_true_iff_false. Qed.

(** A string without [c] cannot straddle a [c]. *)
Lemma StrContains_sep c a b w : lacks c w = true → w ≠ nostr →
  StrContains (a +:+ String c b) w = true → StrContains a w = true ∨ StrContains b w = true.
Proof.
  intros Hw Hne. rewrite !StrContains_spec. intros (x & y & Heq). revert x y Heq.
  induction a as [|d a IH]; intros x y Heq.
  - right. destruct x as [|e x]; cbn in Heq.
    + destruct w as [|e w]; [done|]. cbn in Heq. injection Heq as <- _. cbn in Hw.
      by rewrite is_char_refl in Hw.
    + injection Heq as _ Heq. exists x, y. exact Heq.
  - destruct x as [|e x]; cbn in Heq.
    + left. exists nostr. cbn. clear IH. change (String d a +:+ String c b = w +:+ y) in Heq.
      revert w Hw Hne Heq. generalize (String d a) as u. induction u as [|f u IH]; intros w Hw Hne Heq.
      * destruct w as [|e w]; [done|]. cbn in Heq. injection Heq as <- _. cbn in Hw. by rewrite is_char_refl in Hw.
      * destruct w as [|e w]; [done|]. cbn in Heq. injection Heq as <- Heq.
        destruct w as [|g w]; [by exists u|]. cbn in Hw. apply andb_true_iff in Hw as [_ Hw].
        destruct (IH (String g w)) as [z Hz]; [done|done|done|]. exists z. cbn. by rewrite Hz.
    + injection Heq as <- Heq. destruct (IH x y Heq) as [(p & q & ->)|Hb]; [left|by right].
      exists (String d p), q. done.
Qed.

Lemma HasPrefix_app_l s p q : HasPrefix s p = true → HasPrefix (s +:+ q) p = true.
Proof. rewrite !HasPrefix_spec. intros [t ->]. exists (t +:+ q). by rewrite str_app_assoc. Qed.

(** The pieces: the first is a prefix of what is left of [s], every piece is
    part of [s], and none holds [old]. *)
Lemma cut_at_pieces old skip s : old ≠ nostr →
  (∃ r, str_drop skip s = (cut_at old skip s).1 +:+ r) ∧
  Forall (λ p, StrContains p old = false ∧ ∃ a b, s = a +:+ p +:+ b) ((cut_at old skip s).1 :: (cut_at old skip s).2).
Proof.
  intros Hne. assert (Hnil : StrContains nostr old = false).
  { apply StrContains_false. intros (a & b & E). destruct a; [|done]. destruct old; done. }
  revert skip. induction s as [|a s IH]; intros skip.
  - destruct skip; cbn; (split; [by exists nostr|]); (constructor; [|constructor]); (split; [done|]); by exists nostr, nostr.
  - assert (Hext : ∀ l, Forall (λ p, StrContains p old = false ∧ ∃ x y, s = x +:+ p +:+ y) l →
      Forall (λ p, StrContains p old = false ∧ ∃ x y, String a s = x +:+ p +:+ y) l).
    { intros l Hl. eapply Forall_impl; [exact Hl|]. intros p [Hp (x & y & ->)]. split; [done|]. by exists (String a x), y. }
    destruct skip as [|k]; cbn [cut_at str_drop].
    + destruct (HasPrefix (String a s) old) eqn:E.
      * destruct (IH (Nat.pred (String.length old))) as [_ Hf]. destruct (cut_at old _ s) as [h t]. cbn [fst snd] in *.
        split; [by exists (String a s)|]. constructor; [|by apply Hext]. split; [done|]. by exists nostr, (String a s).
      * destruct (IH 0) as [[r Hr] Hf]. destruct (cut_at old 0 s) as [h t]. cbn [fst snd] in *.
        assert (Hr' : s = h +:+ r) by (by destruct s). split; [exists r; cbn; by rewrite Hr'|].
        apply Forall_cons in Hf as [[Hh _] Hf]. constructor; [|by apply Hext]. split.
        -- cbn. rewrite Hh, orb_false_r. apply not_true_iff_false. intros Hp.
           change (HasPrefix (String a h) old = true) in Hp.
           apply (HasPrefix_app_l _ _ r) in Hp. rewrite str_app_cons, <- Hr' in Hp. by rewrite E in Hp.
        -- exists nostr, r. cbn. by rewrite Hr'.
    + destruct (IH k) as [Hr Hf]. destruct (cut_at old k s) as [h t]. cbn [fst snd] in *. split; [done|by apply Hext].
Qed.

(** Replacing [old] by a bracketed token leaves no [old], and no other string
    that was not there: what it inserts is cut off by the brackets. *)
Lemma ReplaceAll_token s old cat w :
  old ≠ nostr → w ≠ nostr → lacks "[" w = true → lacks "]" w = true → StrContains cat w = false →
  StrContains s w = false ∨ old = w →
  StrContains (ReplaceAll s old ("[" +:+ cat +:+ "]")) w = false.
Proof.
  intros Hold Hw Ho Hc Hcat Hs. unfold ReplaceAll, str_eqb. rewrite bool_decide_false by done.
  destruct (cut_at_pieces old 0 s Hold) as [_ Hf]. destruct (cut_at old 0 s) as [h t]. cbn [fst snd] in Hf.
  assert (Hp : Forall (λ p, StrContains p w = false) (h :: t)).
  { eapply Forall_impl; [exact Hf|]. intros p [Hp (a & b & ->)]. destruct Hs as [Hs|<-]; [|done].
    apply StrContains_false. intros (x & y & ->). apply StrContains_false in Hs. apply Hs.
    exists (a +:+ x), (y +:+ b). by rewrite !str_app_assoc. }
  clear Hf Hs. apply Forall_cons in Hp as [Hh Ht]. revert h Hh. induction Ht as [|p t Hp Ht IH]; intros h Hh; [done|].
  cbn [foldl]. apply IH. apply not_true_iff_false. intros Hin.
  change (h +:+ ("[" +:+ cat +:+ "]") +:+ p) with (h +:+ String "[" ((cat +:+ "]") +:+ p)) in Hin.
  apply StrContains_sep in Hin as [Hin|Hin]; [congruence| |done..]. rewrite str_app_assoc in Hin.
  change (cat +:+ "]" +:+ p) with (cat +:+ String "]" p) in Hin.
  apply StrContains_sep in Hin as [Hin|Hin]; [congruence|congruence|done..].
Qed.
