(* ===== verification/RsqlLexer.v ===== *)
(** * The RSQL abstract syntax and lexer

    Models [internal/search/ast.go] and [internal/search/lexer.go].

    The Go lexer indexes [l.input] with [l.pos]; the model keeps the unread
    suffix [input[pos:]] beside [pos], so [l.input[l.pos]] is the head of
    [unread] and [l.pos++] drops it ([Lex_spans] below ties them
    together).  [lex] recurses through [lexOperatorAndValue], [lexQuotedValue] and
    [lexValueList], whose every successful return is [return l.lex()]: here
    those three return the advanced lexer and [lex] makes the recursive call.
    Each turn consumes at least one byte, so [Lex] gives [lex] one unit of fuel
    more than the input has bytes ([lex_fuel] shows it is enough). *)

From S2P Require Import Prelude GoStrings.

(** ** ast.go *)
Inductive Operator : Type := OpEq | OpNeq | OpGt | OpGte | OpLt | OpLte | OpIn | OpOut.

#[export] Instance Operator_eq_dec : EqDecision Operator.
Proof. solve_decision. Defined.

Definition opInText : string := "=in=".
Definition opOutText : string := "=out=".

(** [operatorStrings] and [Operator.String]. *)
Definition operatorString (o : Operator) : string :=
  match o with
  | OpEq => "==" | OpNeq => "!=" | OpGt => ">" | OpGte => ">="
  | OpLt => "<" | OpLte => "<=" | OpIn => opInText | OpOut => opOutText
  end.

(** [ComparisonNode.Value any]: a string, or a []string for IN/OUT. *)
Inductive Value : Type :=
| VString (s : string)
| VStrings (l : list string).

#[export] Instance Value_eq_dec : EqDecision Value.
Proof. solve_decision. Defined.

Inductive Node : Type :=
| ComparisonNode (Field : string) (op : Operator) (v : Value)
| AndNode (Children : list Node)
| OrNode (Children : list Node).

(** Induction over the AST, through the children lists. *)
Section Node_induction.
Context (P : Node → Prop).
Hypothesis Hcmp : ∀ f o v, P (ComparisonNode f o v).
Hypothesis Hand : ∀ l, Forall P l → P (AndNode l).
Hypothesis Hor : ∀ l, Forall P l → P (OrNode l).

Fixpoint Node_ind' (n : Node) : P n :=
  match n with
  | ComparisonNode f o v => Hcmp f o v
  | AndNode l => Hand l ((fix go l := match l return Forall P l with
      | [] => Forall_nil_2 P | x :: l' => Forall_cons_2 P x l' (Node_ind' x) (go l') end) l)
  | OrNode l => Hor l ((fix go l := match l return Forall P l with
      | [] => Forall_nil_2 P | x :: l' => Forall_cons_2 P x l' (Node_ind' x) (go l') end) l)
  end.
End Node_induction.

(** ** Tokens *)
Inductive TokenType : Type :=
| TokenField | TokenOp | TokenValue | TokenValues | TokenAnd | TokenOr
| TokenLParen | TokenRParen | TokenEOF.

#[export] Instance TokenType_eq_dec : EqDecision TokenType.
Proof. solve_decision. Defined.

Record Token : Type := mkToken {
  tType : TokenType;
  tValue : string;
  tValues : list string;
  tPos : nat;
}.

Record Lexer : Type := mkLexer {
  unread : string;
  pos : nat;
  tokens : list Token;
}.

(** The error returns of the lexer. *)
Inductive LexError : Type :=
| UnexpectedCharacter (ch : ascii) (p : nat)
| ExpectedValue (p : nat)
| UnexpectedEnd (p : nat)
| UnexpectedEqual (p : nat)
| ExpectedNotEqual (p : nat)
| UnexpectedOperatorChar (ch : ascii) (p : nat)
| UnterminatedString (p : nat)
| UnterminatedValueList (p : nat)
| LexOutOfFuel.

(** [l.tokens = append(l.tokens, t)] *)
Definition emit (t : Token) (l : Lexer) : Lexer :=
  mkLexer (unread l) (pos l) (tokens l ++ [t]).

(** [l.pos += n] *)
Definition advance (n : nat) (l : Lexer) : Lexer :=
  mkLexer (str_drop n (unread l)) (pos l + n) (tokens l).

(** Advance over the bytes satisfying [p]: a loop [for l.pos < len(l.input) &&
    p(l.input[l.pos])], with the text it walked over. *)
Definition advanceWhile (p : ascii → bool) (l : Lexer) : string * Lexer :=
  let '(a, b) := span p (unread l) in
  (a, mkLexer b (pos l + String.length a) (tokens l)).

Definition isIdentStart (ch : ascii) : bool :=
  is_lower ch || is_upper ch || is_char ch "_" || is_char ch "." || is_char ch "@".

Definition isIdentChar (ch : ascii) : bool :=
  isIdentStart ch || is_digit ch || is_char ch "-".

Definition isSeparator (ch : ascii) : bool :=
  is_char ch ";" || is_char ch "," || is_char ch ")" || is_char ch " ".

Definition skipWhitespace (l : Lexer) : Lexer := (advanceWhile IsSpaceLatin1 l).2.

Definition lastTokenIsSetOp (l : Lexer) : bool :=
  match last (tokens l) with
  | None => false
  | Some t => bool_decide (tType t = TokenOp) &&
              (str_eqb (tValue t) opInText || str_eqb (tValue t) opOutText)
  end.

Definition lexField (l : Lexer) : Lexer :=
  let start := pos l in
  let '(v, l') := advanceWhile isIdentChar l in
  emit (mkToken TokenField v [] start) l'.

Definition readOperator (l : Lexer) : result LexError (string * Lexer) :=
  match unread l with
  | EmptyString => Err (UnexpectedEnd (pos l))
  | String ch _ =>
      let two := str_take 2 (unread l) in
      if str_eqb two "==" || str_eqb two "!=" || str_eqb two ">=" || str_eqb two "<="
      then Ok (two, advance 2 l)
      else if is_char ch ">" || is_char ch "<" then Ok (String ch nostr, advance 1 l)
      else if is_char ch "=" then
        if HasPrefix (unread l) opInText then Ok (opInText, advance (String.length opInText) l)
        else if HasPrefix (unread l) opOutText then Ok (opOutText, advance (String.length opOutText) l)
        else Err (UnexpectedEqual (pos l))
      else if is_char ch "!" then Err (ExpectedNotEqual (pos l))
      else Err (UnexpectedOperatorChar ch (pos l))
  end.

(** Up to its [return l.lex()]. *)
Definition lexQuotedValue (l : Lexer) : result LexError Lexer :=
  match unread l with
  | EmptyString => Err (UnterminatedString (pos l))
  | String quote _ =>
      let l := advance 1 l in
      let start := pos l in
      let '(v, l') := advanceWhile (λ c, negb (is_char c quote)) l in
      match unread l' with
      | EmptyString => Err (UnterminatedString (start - 1))
      | String _ _ => Ok (advance 1 (emit (mkToken TokenValue v [] start) l'))
      end
  end.

(** Up to its [return l.lex()]. *)
Definition lexOperatorAndValue (l : Lexer) : result LexError Lexer :=
  let start := pos l in
  '(op, l) ← readOperator l;
  let l := emit (mkToken TokenOp op [] start) l in
  if str_eqb op opInText || str_eqb op opOutText then Ok l
  else
    let l := skipWhitespace l in
    match unread l with
    | EmptyString => Err (ExpectedValue (pos l))
    | String ch _ =>
        if is_char ch dquote || is_char ch squote then lexQuotedValue l
        else
          let vStart := pos l in
          let '(v, l') := advanceWhile (λ c, negb (isSeparator c)) l in
          if pos l' =? vStart then Err (ExpectedValue (pos l'))
          else Ok (emit (mkToken TokenValue v [] vStart) l')
    end.

(** The loop of [lexValueList]: [s] is [input[pos:]], [seg] is
    [input[start:pos]].  Returns the suffix after the closing parenthesis, its
    position, the start of the last segment and the values. *)
Fixpoint valueListLoop (s seg : string) (start p : nat) (values : list string)
    : result LexError (string * nat * nat * list string) :=
  match s with
  | EmptyString => Err (UnterminatedValueList start)
  | String ch s' =>
      let val := TrimSpace seg in
      let values' := if str_eqb val nostr then values else values ++ [val] in
      if is_char ch ")" then Ok (s', p + 1, start, values')
      else if is_char ch "," then valueListLoop s' nostr (p + 1) (p + 1) values'
      else valueListLoop s' (seg +:+ String ch nostr) start (p + 1) values
  end.

(** Up to its [return l.lex()]. *)
Definition lexValueList (l : Lexer) : result LexError Lexer :=
  let l := advance 1 l in
  '(s, p, start, values) ← valueListLoop (unread l) nostr (pos l) (pos l) [];
  Ok (emit (mkToken TokenValues nostr values start) (mkLexer s p (tokens l))).

Fixpoint lex (fuel : nat) (l : Lexer) : result LexError Lexer :=
  match fuel with
  | O => Err LexOutOfFuel
  | S fuel' =>
      let l := skipWhitespace l in
      match unread l with
      | EmptyString => Ok (emit (mkToken TokenEOF nostr [] (pos l)) l)
      | String ch _ =>
          if is_char ch ";" then lex fuel' (advance 1 (emit (mkToken TokenAnd ";" [] (pos l)) l))
          else if is_char ch "," then lex fuel' (advance 1 (emit (mkToken TokenOr "," [] (pos l)) l))
          else if is_char ch "(" then
            if lastTokenIsSetOp l then lexValueList l ≫= lex fuel'
            else lex fuel' (advance 1 (emit (mkToken TokenLParen "(" [] (pos l)) l))
          else if is_char ch ")" then
            lex fuel' (advance 1 (emit (mkToken TokenRParen ")" [] (pos l)) l))
          else if is_char ch "=" || is_char ch "!" || is_char ch ">" || is_char ch "<" then
            lexOperatorAndValue l ≫= lex fuel'
          else if is_char ch dquote || is_char ch squote then lexQuotedValue l ≫= lex fuel'
          else if isIdentStart ch then lex fuel' (lexField l)
          else Err (UnexpectedCharacter ch (pos l))
      end
  end.

Definition Lex (input : string) : result LexError (list Token) :=
  l ← lex (S (String.length input)) (mkLexer input 0 []);
  Ok (tokens l).

(** ** Where the lexer is in its input *)

(** [Moves l l']: [l'] read a prefix [w] of what [l] had left, and every token
    it emitted lies in [w] at the position it carries. *)
Definition within (p : nat) (w : string) (t : Token) : Prop :=
  tType t ≠ TokenEOF ∧ ∃ a b, w = a +:+ tValue t +:+ b ∧ tPos t = p + String.length a.

Record Moves (l : Lexer) (w : string) (l' : Lexer) : Prop := {
  moves_text : unread l = w +:+ unread l';
  moves_pos : pos l' = pos l + String.length w;
  moves_tokens : ∃ ts, tokens l' = tokens l ++ ts ∧ Forall (within (pos l) w) ts;
}.

Lemma within_app_l p w w' t : within p w t → within p (w +:+ w') t.
Proof. intros (He & a & b & -> & Hp). split; [done|]. exists a, (b +:+ w'). by str_norm. Qed.

Lemma within_app_r p w w' t : within (p + String.length w) w' t → within p (w +:+ w') t.
Proof.
  intros (He & a & b & -> & Hp). split; [done|]. exists (w +:+ a), b. str_norm.
  split; [done|lia].
Qed.

Lemma Moves_refl l : Moves l nostr l.
Proof. split; [done|simpl; lia|]. exists []. by rewrite app_nil_r. Qed.

Lemma Moves_trans l1 w1 l2 w2 l3 : Moves l1 w1 l2 → Moves l2 w2 l3 → Moves l1 (w1 +:+ w2) l3.
Proof.
  intros [Ht1 Hp1 (ts1 & Hk1 & Hw1)] [Ht2 Hp2 (ts2 & Hk2 & Hw2)]. split.
  - by rewrite Ht1, Ht2, str_app_assoc.
  - rewrite length_str_app. lia.
  - exists (ts1 ++ ts2). rewrite Hk2, Hk1, <- app_assoc. split; [done|].
    apply Forall_app; split; [eapply Forall_impl; eauto using within_app_l|].
    rewrite Hp1 in Hw2. eapply Forall_impl; eauto using within_app_r.
Qed.

Lemma Moves_advanceWhile p l v l' : advanceWhile p l = (v, l') → Moves l v l'.
Proof.
  unfold advanceWhile. destruct (span p (unread l)) as [a b] eqn:Hs. intros [= <- <-].
  apply span_spec in Hs as (Hs & _). split; simpl; [done|done|].
  exists []. by rewrite app_nil_r.
Qed.

(** Emitting the text just walked over. *)
Lemma Moves_emit_text l v l' ty vs :
  ty ≠ TokenEOF → Moves l v l' → tokens l' = tokens l →
  Moves l v (emit (mkToken ty v vs (pos l)) l').
Proof.
  intros He [Ht Hp _] Hk. split; simpl; [done|done|]. eexists [_]. rewrite Hk. split; [done|].
  constructor; [|done]. split; [done|]. exists nostr, nostr. simpl. str_norm. split; [done|lia].
Qed.

Lemma tokens_advanceWhile p l v l' : advanceWhile p l = (v, l') → tokens l' = tokens l.
Proof. unfold advanceWhile. destruct (span _ _). by intros [= <- <-]. Qed.

Lemma Moves_advance l c s : unread l = String c s → Moves l (String c nostr) (advance 1 l).
Proof.
  intros Hu. split; simpl; rewrite ?Hu; [done|done|]. exists []. by rewrite app_nil_r.
Qed.

Lemma Moves_advance_n l w s n :
  unread l = w +:+ s → n = String.length w → Moves l w (advance n l).
Proof.
  intros Hu ->. split; simpl; rewrite ?Hu, ?str_drop_app; [done|done|].
  exists []. by rewrite app_nil_r.
Qed.

#[export] Hint Resolve Moves_refl Moves_advanceWhile Moves_advance : go.

Lemma Moves_skipWhitespace l : ∃ w, Moves l w (skipWhitespace l).
Proof.
  unfold skipWhitespace. destruct (advanceWhile _ l) as [w l'] eqn:H. eauto with go.
Qed.

(** A one-byte token. *)
Lemma Moves_single l c s ty vs :
  ty ≠ TokenEOF → unread l = String c s →
  Moves l (String c nostr) (advance 1 (emit (mkToken ty (String c nostr) vs (pos l)) l)).
Proof.
  intros He Hu. split; simpl; rewrite ?Hu; [done|done|]. eexists [_]. split; [done|].
  constructor; [|done]. split; [done|]. exists nostr, nostr. simpl. split; [done|lia].
Qed.

Lemma Moves_lexField l c s :
  unread l = String c s → isIdentStart c = true → ∃ w, w ≠ nostr ∧ Moves l w (lexField l).
Proof.
  intros Hu Hc. unfold lexField. destruct (advanceWhile isIdentChar l) as [v l'] eqn:Hv.
  exists v. split.
  - unfold advanceWhile in Hv. rewrite Hu in Hv. simpl in Hv.
    unfold isIdentChar at 1 in Hv. rewrite Hc in Hv. simpl in Hv.
    destruct (span isIdentChar s). by injection Hv as <- _.
  - apply Moves_emit_text; [done|eauto with go|eauto using tokens_advanceWhile].
Qed.

Lemma Moves_readOperator l op l' :
  readOperator l = Ok (op, l') → op ≠ nostr ∧ Moves l op l' ∧ tokens l' = tokens l.
Proof.
  unfold readOperator. destruct (unread l) as [|c s] eqn:Hu; [done|].
  cbv zeta. remember (str_take 2 (String c s)) as two eqn:Htwo.
  intros H. flatten_in H.
  { injection H as <- <-.
    assert (String.length two = 2) as Hlen.
    { repeat (apply orb_true_iff in Heqb as [Heqb|Heqb]); apply str_eqb_true in Heqb; by rewrite Heqb. }
    split; [by destruct two|]. split; [|done].
    apply Moves_advance_n with (s := str_drop 2 (String c s)); [|done].
    by rewrite Hu, Htwo, str_take_drop. }
  flatten_in H; [injection H as <- <-; split_and!; eauto with go|].
  flatten_in H; [|by destruct (is_char c "!")].
  flatten_in H; [|flatten_in H; [|done]];
    match goal with Hp : HasPrefix _ _ = true |- _ => apply HasPrefix_spec in Hp as [t Ht] end;
    injection H as <- <-; (split; [done|]); (split; [|done]);
    (apply Moves_advance_n with (s := t); [by rewrite Hu|done]).
Qed.

Lemma Moves_lexQuotedValue l l' :
  lexQuotedValue l = Ok l' → ∃ w, w ≠ nostr ∧ Moves l w l'.
Proof.
  unfold lexQuotedValue. destruct (unread l) as [|q s] eqn:Hu; [done|].
  destruct (advanceWhile _ (advance 1 l)) as [v l1] eqn:Hv.
  destruct (unread l1) as [|c s1] eqn:Hu1; [done|]. intros [= <-].
  exists (String q nostr +:+ (v +:+ String c nostr)). split; [done|].
  eapply Moves_trans; [by eapply Moves_advance|].
  eapply Moves_trans; [|by eapply Moves_advance].
  exact (Moves_emit_text _ _ _ TokenValue [] ltac:(done)
    (Moves_advanceWhile _ _ _ _ Hv) (tokens_advanceWhile _ _ _ _ Hv)).
Qed.

Lemma Moves_lexOperatorAndValue l l' :
  lexOperatorAndValue l = Ok l' → ∃ w, w ≠ nostr ∧ Moves l w l'.
Proof.
  unfold lexOperatorAndValue. intros H. apply bind_ok_inv in H as ([op l1] & Hop & H).
  apply Moves_readOperator in Hop as (Hne & Hm & Hk).
  pose proof (Moves_emit_text _ _ _ TokenOp [] ltac:(done) Hm Hk) as Hm1.
  set (l2 := emit _ l1) in *. clearbody l2.
  destruct (str_eqb op opInText || str_eqb op opOutText); [injection H as <-; eauto|].
  destruct (Moves_skipWhitespace l2) as [w Hw].
  set (l3 := skipWhitespace l2) in *. clearbody l3.
  pose proof (Moves_trans _ _ _ _ _ Hm1 Hw) as Hm3.
  assert (∀ w', op +:+ w' ≠ nostr) as Happ by (intros; by destruct op).
  destruct (unread l3) as [|c s]; [done|].
  destruct (is_char c dquote || is_char c squote).
  - apply Moves_lexQuotedValue in H as (v & _ & Hv).
    exists ((op +:+ w) +:+ v). split; [by rewrite str_app_assoc|]. by eapply Moves_trans.
  - destruct (advanceWhile _ l3) as [v l4] eqn:Hv. destruct (pos l4 =? pos l3); [done|].
    injection H as <-. exists ((op +:+ w) +:+ v). split; [by rewrite str_app_assoc|].
    eapply Moves_trans; [done|].
    apply Moves_emit_text; [done|eauto with go|eauto using tokens_advanceWhile].
Qed.

Lemma valueListLoop_spec s seg start p vals s' p' start' vals' :
  valueListLoop s seg start p vals = Ok (s', p', start', vals') →
  p = start + String.length seg →
  ∃ a b, s = a +:+ s' ∧ p' = p + String.length a ∧
         seg +:+ a = b +:+ str_drop (String.length b) (seg +:+ a) ∧
         start' = start + String.length b ∧ String.length b ≤ String.length (seg +:+ a).
Proof.
  revert seg start p vals. induction s as [|c s IH]; intros seg start p vals; simpl; [done|].
  destruct (is_char c ")").
  { intros [= <- <- <- <-] ->. exists (String c nostr), nostr.
    simpl. rewrite str_app_nil_l. split_and!; try done; lia. }
  destruct (is_char c ",").
  - intros H ->. apply IH in H as (a & b & -> & -> & Hb & -> & Hle); [|simpl; lia].
    rewrite str_app_nil_l in *.
    exists (String c a), (seg +:+ String c b). rewrite !length_str_app. simpl in *.
    split_and!; try done; try lia.
    replace (String.length seg + S (String.length b)) with
      (String.length (seg +:+ String c b)) by (rewrite length_str_app; simpl; lia).
    replace (seg +:+ String c a) with ((seg +:+ String c b) +:+ str_drop (String.length b) a).
    + by rewrite str_drop_app.
    + str_norm. by rewrite <- Hb.
  - intros H ->. apply IH in H as (a & b & -> & -> & Hb & -> & Hle);
      [|rewrite length_str_app; simpl; lia].
    exists (String c a), b. str_norm. simpl in *. split_and!; try done; lia.
Qed.

Lemma Moves_lexValueList l c s l' :
  unread l = String c s → lexValueList l = Ok l' → ∃ w, w ≠ nostr ∧ Moves l w l'.
Proof.
  intros Hu. unfold lexValueList. intros H.
  apply bind_ok_inv in H as ([[[s' p'] st] vs] & Hl & H). injection H as <-.
  apply valueListLoop_spec in Hl as (a & b & Ha & -> & Hb & -> & Hle); [|simpl; lia].
  rewrite str_app_nil_l in *.
  exists (String c nostr +:+ a). split; [done|].
  eapply Moves_trans; [by eapply Moves_advance|]. split; simpl in *; [done|done|].
  eexists [_]. split; [done|]. constructor; [|done]. split; [done|].
  exists b, (str_drop (String.length b) a). simpl. by rewrite str_app_nil_l.
Qed.

(** One turn of [lex]'s loop: it ends, or moves on by at least a byte. *)
Inductive lex_turn : Type := Done (l : Lexer) | More (l : Lexer) | Stop (e : LexError).

Definition turn_of (m : result LexError Lexer) : lex_turn :=
  match m with Ok l => More l | Err e => Stop e end.

Definition turn (l : Lexer) : lex_turn :=
  let l := skipWhitespace l in
  match unread l with
  | EmptyString => Done (emit (mkToken TokenEOF nostr [] (pos l)) l)
  | String ch _ =>
      if is_char ch ";" then More (advance 1 (emit (mkToken TokenAnd ";" [] (pos l)) l))
      else if is_char ch "," then More (advance 1 (emit (mkToken TokenOr "," [] (pos l)) l))
      else if is_char ch "(" then
        if lastTokenIsSetOp l then turn_of (lexValueList l)
        else More (advance 1 (emit (mkToken TokenLParen "(" [] (pos l)) l))
      else if is_char ch ")" then More (advance 1 (emit (mkToken TokenRParen ")" [] (pos l)) l))
      else if is_char ch "=" || is_char ch "!" || is_char ch ">" || is_char ch "<" then
        turn_of (lexOperatorAndValue l)
      else if is_char ch dquote || is_char ch squote then turn_of (lexQuotedValue l)
      else if isIdentStart ch then More (lexField l)
      else Stop (UnexpectedCharacter ch (pos l))
  end.

Lemma lex_turn_eq fuel l :
  lex (S fuel) l = match turn l with Done l' => Ok l' | More l' => lex fuel l' | Stop e => Err e end.
Proof.
  cbn [lex]. unfold turn. cbv zeta. destruct (unread (skipWhitespace l)) as [|ch s]; [done|].
  repeat case_match; simplify_eq; try done;
    repeat match goal with H : turn_of ?m = _ |- _ => destruct m; simplify_eq/= end; done.
Qed.

Lemma turn_more l l' : turn l = More l' → ∃ w, w ≠ nostr ∧ Moves l w l'.
Proof.
  unfold turn. cbv zeta. destruct (Moves_skipWhitespace l) as [w0 H0].
  set (l1 := skipWhitespace l) in *. clearbody l1.
  destruct (unread l1) as [|ch s] eqn:Hu; [done|]. intros H.
  assert (∃ w, w ≠ nostr ∧ Moves l1 w l') as (w & Hw & Hm); last first.
  { exists (w0 +:+ w). split; [by destruct w0|]. by eapply Moves_trans. }
  repeat match type of H with
  | (if ?b then _ else _) = _ => destruct b eqn:?
  | turn_of ?m = _ => destruct m eqn:?; simpl in H; [|discriminate H]
  end; simplify_eq/=;
  repeat match goal with Hc : is_char _ _ = true |- _ => apply is_char_true in Hc; subst ch end;
  first [ exists (String ch nostr); split; [done|]; by eapply Moves_single
        | by eapply Moves_lexValueList | by eapply Moves_lexOperatorAndValue
        | by eapply Moves_lexQuotedValue | by eapply Moves_lexField
        | eexists (String _ nostr); split; [done|]; by eapply Moves_single ].
Qed.

Lemma turn_done l l' :
  turn l = Done l' →
  ∃ w l1, Moves l w l1 ∧ tokens l1 = tokens l ∧ unread l1 = nostr ∧
          l' = emit (mkToken TokenEOF nostr [] (pos l1)) l1.
Proof.
  unfold turn. cbv zeta. destruct (advanceWhile IsSpaceLatin1 l) as [w l1] eqn:H0.
  assert (skipWhitespace l = l1) as -> by (unfold skipWhitespace; by rewrite H0).
  destruct (unread l1) as [|ch s] eqn:Hu.
  - intros [= <-]. exists w, l1. split_and!; eauto using tokens_advanceWhile, Moves_advanceWhile.
  - intros H. by repeat match type of H with
    | (if ?b then _ else _) = _ => destruct b
    | turn_of ?m = _ => destruct m; discriminate H
    end.
Qed.

Lemma turn_stop l : turn l ≠ Stop LexOutOfFuel.
Proof.
  unfold turn. cbv zeta. set (l1 := skipWhitespace l). clearbody l1.
  assert (∀ s seg st p vs, valueListLoop s seg st p vs ≠ Err LexOutOfFuel) as Hloop.
  { induction s as [|c s IH]; intros; simpl; [done|].
    destruct (is_char c ")"); [done|]. destruct (is_char c ","); apply IH. }
  assert (∀ l, lexQuotedValue l ≠ Err LexOutOfFuel) as Hq.
  { intros l2. unfold lexQuotedValue. repeat case_match; done. }
  assert (∀ l, readOperator l ≠ Err LexOutOfFuel) as Ho.
  { intros l2. unfold readOperator. repeat case_match; done. }
  destruct (unread l1) as [|ch s]; [done|]. intros H.
  repeat match type of H with
  | (if ?b then _ else _) = _ => destruct b
  | turn_of ?m = _ => destruct m as [|e] eqn:Hm; simpl in H; [discriminate|]; injection H as ->
  end; try done.
  - unfold lexValueList in Hm. apply bind_err_inv in Hm as [Hm|([[[??]?]?]&_&Hm)]; [|done].
    by eapply Hloop.
  - unfold lexOperatorAndValue in Hm. apply bind_err_inv in Hm as [Hm|([??]&_&Hm)].
    + by eapply Ho.
    + repeat case_match; try done. by eapply Hq.
  - by eapply Hq.
Qed.

Lemma Moves_length l w l' : Moves l w l' → String.length (unread l) = String.length w + String.length (unread l').
Proof. intros [-> _ _]. by rewrite length_str_app. Qed.

(** Fuel: more than the unread bytes is enough, and the result no longer
    depends on it. *)
Lemma lex_enough f1 f2 l :
  String.length (unread l) < f1 → String.length (unread l) < f2 → lex f1 l = lex f2 l.
Proof.
  revert f2 l. induction f1 as [|f1 IH]; intros [|f2] l H1 H2; try lia.
  rewrite !lex_turn_eq. destruct (turn l) as [l'|l'|e] eqn:Ht; try done.
  apply turn_more in Ht as (w & Hw & Hm). apply Moves_length in Hm.
  destruct w; [done|]. simpl in *. apply IH; lia.
Qed.

Lemma lex_fuel fuel l : String.length (unread l) < fuel → lex fuel l ≠ Err LexOutOfFuel.
Proof.
  revert l. induction fuel as [|fuel IH]; intros l Hl; [lia|].
  rewrite lex_turn_eq. destruct (turn l) as [l'|l'|e] eqn:Ht; [done| |].
  - apply turn_more in Ht as (w & Hw & Hm). apply Moves_length in Hm.
    destruct w; [done|]. simpl in *. apply IH; lia.
  - intros [= ->]. by eapply turn_stop.
Qed.

(** The result of [lex]: the whole input read, tokens within it, one EOF. *)
Lemma lex_moves fuel l l' :
  lex fuel l = Ok l' →
  ∃ l1, Moves l (unread l) l1 ∧ unread l1 = nostr ∧
        l' = emit (mkToken TokenEOF nostr [] (pos l1)) l1.
Proof.
  revert l. induction fuel as [|fuel IH]; intros l; [done|].
  rewrite lex_turn_eq. destruct (turn l) as [l2|l2|e] eqn:Ht; [| |done].
  - intros [= ->]. apply turn_done in Ht as (w & l1 & Hm & _ & Hu & ->). exists l1.
    split; [|done]. pose proof (moves_text _ _ _ Hm) as Hl. rewrite Hu, str_app_nil_r in Hl.
    by rewrite Hl.
  - intros H. apply IH in H as (l1 & Hm & Hu & ->). exists l1.
    apply turn_more in Ht as (w & _ & Hw). split; [|done].
    rewrite (moves_text _ _ _ Hw). by eapply Moves_trans.
Qed.

Lemma Lex_no_fuel_error input : Lex input ≠ Err LexOutOfFuel.
Proof.
  unfold Lex. intros H. apply bind_err_inv in H as [H|(l & _ & H)]; [|done].
  by eapply lex_fuel, H; simpl; lia.
Qed.

(** ** Properties *)

(** Lexing always terminates with tokens or one of the source's errors:
    the fuel [Lex] gives its loop is never used up. *)
Theorem Lex_terminates input : Lex input ≠ Err LexOutOfFuel.
Proof. apply Lex_no_fuel_error. Qed.

(** Every token of a lexed query is the text of the query at the position
    the token carries (so the positions in parse errors point into the query),
    and the token list ends with one EOF token, placed at the end of the
    query. *)
Theorem Lex_spans input toks :
  Lex input = Ok toks →
  ∃ body, toks = body ++ [mkToken TokenEOF nostr [] (String.length input)] ∧
    ∀ t, t ∈ body → tType t ≠ TokenEOF ∧
      tPos t + String.length (tValue t) ≤ String.length input ∧
      slice input (tPos t) (tPos t + String.length (tValue t)) = tValue t.
Proof.
  unfold Lex. intros H. inv_ok. apply lex_moves in Ha as (l1 & [Ht Hp (ts & Hk & Hw)] & Hu & ->).
  simpl in *. rewrite Hk, Hp. exists ts. split; [done|].
  intros t Ht'. eapply Forall_forall in Hw as (He & a & b & -> & ->); [|done].
  split_and!; [done| |apply slice_mid]. rewrite !length_str_app. lia.
Qed.

Lemma Lex_spans_witness :
  ∃ toks body, Lex "type==idea" = Ok toks ∧ length toks = 4 ∧
    toks = body ++ [mkToken TokenEOF nostr [] 10].
Proof.
  edestruct (Lex_spans "type==idea") as (body & Hb & _); [vm_compute; reflexivity|].
  eexists _, body. split; [vm_compute; reflexivity|]. split; [reflexivity|exact Hb].
Defined.
