(* ===== verification/RsqlParser.v ===== *)
(** * The RSQL parser

    Models [internal/search/parser.go].  The Go parser holds the token slice
    and an index; the model holds the tokens from the index on
    ([p.tokens[p.pos:]]).  [parseOr], [parseAnd], [parseConstraint] and
    [parseGroup] are mutually recursive through the group: they are written
    against the [parseOr] of the nested query and [parseOr] ties the knot with
    fuel.  A nested query is entered past its "(" and each loop turn consumes a
    token, so one unit of fuel per token is enough ([parseOr_fuel]). *)

From S2P Require Import Prelude GoStrings RsqlLexer.

Inductive ParseError : Type :=
| PLex (e : LexError)
| UnexpectedToken (v : string) (p : nat)
| ExpectedRParen (p : nat)
| ExpectedField (p : nat) (v : string)
| ExpectedOperator (p : nat)
| UnknownOperator (s : string)
| ExpectedValueList (p : nat)
| PExpectedValue (p : nat)
| ParseOutOfFuel.

(** [parser.peek]: past the end it is the zero token of type EOF. *)
Definition peek (p : list Token) : Token :=
  match p with [] => mkToken TokenEOF nostr [] 0 | t :: _ => t end.
(** [parser.next]'s effect on the position. *)
Definition next (p : list Token) : list Token := tail p.

Definition isType (ty : TokenType) (t : Token) : bool := bool_decide (tType t = ty).

Definition parseOperator (s : string) : result ParseError Operator :=
  if str_eqb s "==" then Ok OpEq
  else if str_eqb s "!=" then Ok OpNeq
  else if str_eqb s ">" then Ok OpGt
  else if str_eqb s ">=" then Ok OpGte
  else if str_eqb s "<" then Ok OpLt
  else if str_eqb s "<=" then Ok OpLte
  else if str_eqb s opInText then Ok OpIn
  else if str_eqb s opOutText then Ok OpOut
  else Err (UnknownOperator s).

Definition parseComparison (p : list Token) : result ParseError (Node * list Token) :=
  if negb (isType TokenField (peek p)) then Err (ExpectedField (tPos (peek p)) (tValue (peek p)))
  else
    let field := peek p in let p := next p in
    if negb (isType TokenOp (peek p)) then Err (ExpectedOperator (tPos (peek p)))
    else
      let op := peek p in let p := next p in
      operator ← parseOperator (tValue op);
      if bool_decide (operator = OpIn) || bool_decide (operator = OpOut) then
        if negb (isType TokenValues (peek p)) then Err (ExpectedValueList (tPos (peek p)))
        else Ok (ComparisonNode (tValue field) operator (VStrings (tValues (peek p))), next p)
      else
        if negb (isType TokenValue (peek p)) then Err (PExpectedValue (tPos (peek p)))
        else Ok (ComparisonNode (tValue field) operator (VString (tValue (peek p))), next p).

Section parser.
(** [parseOr] of a nested query. *)
Context (parseOr_rec : list Token → result ParseError (Node * list Token)).

Definition parseGroup (p : list Token) : result ParseError (Node * list Token) :=
  let p := next p in
  '(node, p) ← parseOr_rec p;
  if negb (isType TokenRParen (peek p)) then Err (ExpectedRParen (tPos (peek p)))
  else Ok (node, next p).

Definition parseConstraint (p : list Token) : result ParseError (Node * list Token) :=
  if isType TokenLParen (peek p) then parseGroup p else parseComparison p.

(** The loop of [parseAnd] and of [parseOr]: while the next token is [sep],
    consume it, parse one more child and append it. *)
Fixpoint childLoop (sep : TokenType) (child : list Token → result ParseError (Node * list Token))
    (fuel : nat) (children : list Node) (p : list Token) : result ParseError (list Node * list Token) :=
  match fuel with
  | O => Err ParseOutOfFuel
  | S fuel' =>
      if isType sep (peek p) then
        '(r, p) ← child (next p);
        childLoop sep child fuel' (children ++ [r]) p
      else Ok (children, p)
  end.

Definition parseAnd (p : list Token) : result ParseError (Node * list Token) :=
  '(l, p) ← parseConstraint p;
  if isType TokenAnd (peek p) then
    '(children, p) ← childLoop TokenAnd parseConstraint (S (length p)) [l] p;
    Ok (AndNode children, p)
  else Ok (l, p).

Definition parseOrBody (p : list Token) : result ParseError (Node * list Token) :=
  '(l, p) ← parseAnd p;
  if isType TokenOr (peek p) then
    '(children, p) ← childLoop TokenOr parseAnd (S (length p)) [l] p;
    Ok (OrNode children, p)
  else Ok (l, p).
End parser.

Fixpoint parseOr (fuel : nat) (p : list Token) : result ParseError (Node * list Token) :=
  match fuel with
  | O => Err ParseOutOfFuel
  | S fuel' => parseOrBody (parseOr fuel') p
  end.

Definition Parse (input : string) : result ParseError Node :=
  tokens ← map_err PLex (Lex input);
  '(node, p) ← parseOr (S (length tokens)) tokens;
  if negb (isType TokenEOF (peek p)) then Err (UnexpectedToken (tValue (peek p)) (tPos (peek p)))
  else Ok node.

(** ** Termination *)

(** A parser that consumes: what it leaves is shorter than what it was given. *)
Definition shrinks {A} (f : list Token → result ParseError (A * list Token)) : Prop :=
  ∀ p n p', f p = Ok (n, p') → length p' < length p.
(** An error of the recursive-descent parser itself: neither the lexer's nor
    the model's fuel. *)
Definition parser_error (e : ParseError) : bool :=
  match e with PLex _ | ParseOutOfFuel => false | _ => true end.
(** A parser that does not run out of fuel on fewer than [k] tokens. *)
Definition fuelled {A} (k : nat) (f : list Token → result ParseError (A * list Token)) : Prop :=
  ∀ p e, length p < k → f p = Err e → parser_error e = true.

Lemma isType_peek ty p : isType ty (peek p) = true → ty ≠ TokenEOF → ∃ t p', p = t :: p' ∧ tType t = ty.
Proof.
  unfold isType. rewrite bool_decide_eq_true. destruct p as [|t p]; simpl; [congruence|eauto].
Qed.

Lemma length_next p ty : isType ty (peek p) = true → ty ≠ TokenEOF → S (length (next p)) = length p.
Proof. intros H Hne. by destruct (isType_peek _ _ H Hne) as (t & p' & -> & _). Qed.

Lemma parseComparison_shrinks : shrinks parseComparison.
Proof.
  intros p n p'. unfold parseComparison.
  destruct (isType TokenField (peek p)) eqn:H1; [simpl|done].
  destruct (isType TokenOp (peek (next p))) eqn:H2; [simpl|done].
  intros H. apply bind_ok_inv in H as (o & _ & H).
  apply length_next in H1; [|done]. apply length_next in H2; [|done].
  case_match.
  - destruct (isType TokenValues _) eqn:H3; simplify_eq/=. apply length_next in H3; [lia|done].
  - destruct (isType TokenValue _) eqn:H3; simplify_eq/=. apply length_next in H3; [lia|done].
Qed.

Lemma parseOperator_fuelled s e : parseOperator s = Err e → parser_error e = true.
Proof. unfold parseOperator. intros H. repeat case_match; by simplify_eq. Qed.

Lemma parseComparison_fuelled k : fuelled k parseComparison.
Proof.
  intros p e _. unfold parseComparison. intros H. repeat (case_match; [by simplify_eq|]).
  apply bind_err_inv in H as [H|(o & _ & H)]; [by eapply parseOperator_fuelled|].
  repeat case_match; by simplify_eq.
Qed.

Section parser_fuel.
Context (rec : list Token → result ParseError (Node * list Token)).
Hypothesis rec_shrinks : shrinks rec.

Lemma parseConstraint_shrinks : shrinks (parseConstraint rec).
Proof using rec_shrinks.
  intros p n p'. unfold parseConstraint, parseGroup.
  destruct (isType TokenLParen (peek p)) eqn:H1; [|apply parseComparison_shrinks].
  intros H. apply bind_ok_inv in H as ([m q] & Hr & H). apply rec_shrinks in Hr.
  apply length_next in H1; [|done].
  destruct (isType TokenRParen (peek q)) eqn:H2; simplify_eq/=.
  apply length_next in H2; [lia|done].
Qed.

Lemma parseConstraint_fuelled k : fuelled k rec → fuelled (S k) (parseConstraint rec).
Proof using.
  intros Hrec p e Hp. unfold parseConstraint, parseGroup.
  destruct (isType TokenLParen (peek p)) eqn:H1; [|by eapply parseComparison_fuelled].
  intros H. apply length_next in H1; [|done].
  apply bind_err_inv in H as [H|([m q] & _ & H)].
  - eapply Hrec; [|done]. lia.
  - case_match; by simplify_eq.
Qed.

Lemma childLoop_shrinks sep child fuel acc p l p' :
  shrinks child → sep ≠ TokenEOF →
  childLoop sep child fuel acc p = Ok (l, p') → length p' ≤ length p.
Proof using.
  intros Hc Hs. revert acc p. induction fuel as [|fuel IH]; intros acc p; simpl; [done|].
  destruct (isType sep (peek p)) eqn:Hp; [|by intros [= _ <-]].
  intros H. apply bind_ok_inv in H as ([r q] & Hr & H).
  apply IH in H. apply Hc in Hr. apply length_next in Hp; [lia|done].
Qed.

Lemma childLoop_fuelled sep child fuel acc p e :
  shrinks child → fuelled (length p) child → sep ≠ TokenEOF → length p < fuel →
  childLoop sep child fuel acc p = Err e → parser_error e = true.
Proof using.
  intros Hc Hf Hs. revert acc p Hf. induction fuel as [|fuel IH]; intros acc p Hf Hl; [lia|].
  simpl. destruct (isType sep (peek p)) eqn:Hp; [|done].
  apply length_next in Hp; [|done].
  intros H. apply bind_err_inv in H as [H|([r q] & Hr & H)].
  - eapply Hf; [|done]. lia.
  - apply Hc in Hr. eapply IH; [| |done]; [intros p' e' ?; apply Hf; lia|lia].
Qed.

Lemma parseAnd_shrinks : shrinks (parseAnd rec).
Proof using rec_shrinks.
  intros p n p'. unfold parseAnd. intros H. apply bind_ok_inv in H as ([m q] & Hm & H).
  apply parseConstraint_shrinks in Hm.
  destruct (isType TokenAnd (peek q)); [|by injection H as _ <-].
  apply bind_ok_inv in H as ([l q'] & Hl & H). simplify_eq.
  apply childLoop_shrinks in Hl; [lia|apply parseConstraint_shrinks|done].
Qed.

Lemma parseAnd_fuelled k : fuelled k rec → fuelled (S k) (parseAnd rec).
Proof using rec_shrinks.
  intros Hrec p e Hp. pose proof (parseConstraint_fuelled k Hrec) as Hc.
  unfold parseAnd. intros H. apply bind_err_inv in H as [H|([m q] & Hm & H)].
  - by eapply Hc.
  - apply parseConstraint_shrinks in Hm.
    destruct (isType TokenAnd (peek q)); [|done].
    apply bind_err_inv in H as [H|([l q'] & _ & H)]; [|done].
    eapply childLoop_fuelled; [| | | |exact H]; [apply parseConstraint_shrinks| |done|lia].
    intros p' e' ?; apply Hc; lia.
Qed.

Lemma parseOrBody_shrinks : shrinks (parseOrBody rec).
Proof using rec_shrinks.
  intros p n p'. unfold parseOrBody. intros H. apply bind_ok_inv in H as ([m q] & Hm & H).
  apply parseAnd_shrinks in Hm.
  destruct (isType TokenOr (peek q)); [|by injection H as _ <-].
  apply bind_ok_inv in H as ([l q'] & Hl & H). simplify_eq.
  apply childLoop_shrinks in Hl; [lia|apply parseAnd_shrinks|done].
Qed.

Lemma parseOrBody_fuelled k : fuelled k rec → fuelled (S k) (parseOrBody rec).
Proof using rec_shrinks.
  intros Hrec p e Hp. pose proof (parseAnd_fuelled k Hrec) as Hc.
  unfold parseOrBody. intros H. apply bind_err_inv in H as [H|([m q] & Hm & H)].
  - by eapply Hc.
  - apply parseAnd_shrinks in Hm.
    destruct (isType TokenOr (peek q)); [|done].
    apply bind_err_inv in H as [H|([l q'] & _ & H)]; [|done].
    eapply childLoop_fuelled; [| | | |exact H]; [apply parseAnd_shrinks| |done|lia].
    intros p' e' ?; apply Hc; lia.
Qed.
End parser_fuel.

Lemma parseOr_shrinks fuel : shrinks (parseOr fuel).
Proof. induction fuel as [|fuel IH]; [by intros p|by apply parseOrBody_shrinks]. Qed.

Lemma parseOr_fuel fuel : fuelled fuel (parseOr fuel).
Proof.
  induction fuel as [|fuel IH]; [intros p e ?; lia|].
  apply parseOrBody_fuelled; [apply parseOr_shrinks|done].
Qed.

(** Parsing any query terminates with an AST or one of the source's
    errors: neither the lexer's nor the recursive-descent parser's fuel runs
    out. *)
Theorem Parse_terminates input :
  Parse input ≠ Err ParseOutOfFuel ∧ Parse input ≠ Err (PLex LexOutOfFuel).
Proof.
  assert (∀ e, Parse input = Err e → parser_error e = true ∨
    ∃ e', e = PLex e' ∧ Lex input = Err e') as Hall.
  { unfold Parse. intros e H.
    apply bind_err_inv in H as [H|(toks & _ & H)].
    { right. destruct (Lex input) as [|e'] eqn:He; simpl in H; simplify_eq. eauto. }
    left. apply bind_err_inv in H as [H|([n p] & _ & H)]; [|by case_match; simplify_eq].
    eapply parseOr_fuel; [|done]. lia. }
  split; intros H; destruct (Hall _ H) as [?|(e' & ? & He)]; simplify_eq/=.
  by apply Lex_no_fuel_error in He.
Qed.
