(* ===== verification/RsqlRoundTrip.v ===== *)
(** * Printing RSQL and parsing it back

    The source has no printer; [print] below is the reference concrete syntax
    of an AST (values quoted, nested groups parenthesised), and
    [Parse_print] says the lexer and parser together invert it on every
    printable AST: the query language can express, and [Parse] recovers, every
    such AST.  [Parse_wf] is the converse bound: what [Parse] returns always
    has the shape the compiler expects. *)

From S2P Require Import Prelude GoStrings RsqlLexer RsqlParser.

(** ** Well-formed ASTs *)
Definition value_kind_ok (o : Operator) (v : Value) : bool :=
  match o, v with
  | OpIn, VStrings _ | OpOut, VStrings _ => true
  | OpIn, VString _ | OpOut, VString _ => false
  | _, VString _ => true
  | _, VStrings _ => false
  end.

Fixpoint wf_node (n : Node) : bool :=
  match n with
  | ComparisonNode _ o v => value_kind_ok o v
  | AndNode l | OrNode l => (2 <=? length l) && forallb wf_node l
  end.

Section wf.
Context (rec : list Token → result ParseError (Node * list Token)).
Definition yields_wf (f : list Token → result ParseError (Node * list Token)) : Prop :=
  ∀ p n p', f p = Ok (n, p') → wf_node n = true.
Hypothesis Hrec : yields_wf rec.

Lemma parseComparison_wf : yields_wf parseComparison.
Proof using.
  intros p n p'. unfold parseComparison. intros H.
  repeat (case_match; [done|]). apply bind_ok_inv in H as (o & _ & H).
  destruct (bool_decide (o = OpIn) || bool_decide (o = OpOut)) eqn:Ho.
  - case_match; simplify_eq/=. apply orb_true_iff in Ho.
    rewrite !bool_decide_eq_true in Ho. by destruct Ho as [-> | ->].
  - case_match; simplify_eq/=. apply orb_false_iff in Ho.
    rewrite !bool_decide_eq_false in Ho. by destruct o, Ho.
Qed.

Lemma parseConstraint_wf : yields_wf (parseConstraint rec).
Proof using Hrec.
  intros p n p'. unfold parseConstraint, parseGroup. case_match; [|apply parseComparison_wf].
  intros Hg. inv_ok. repeat case_match; simplify_eq. by eapply Hrec.
Qed.

Lemma childLoop_wf sep child fuel acc p l p' :
  yields_wf child → forallb wf_node acc = true →
  childLoop sep child fuel acc p = Ok (l, p') →
  forallb wf_node l = true ∧ length acc ≤ length l ∧
  (isType sep (peek p) = true → length acc < length l).
Proof using.
  intros Hc. revert acc p. induction fuel as [|fuel IH]; intros acc p Hacc; [done|].
  cbn [childLoop]. destruct (isType sep (peek p)); [|intros [= <- _]; split_and!; [done|lia|done]].
  intros H. apply bind_ok_inv in H as ([r q] & Hr & H). apply IH in H as (Hl & Hle & _).
  - rewrite length_app in Hle. simpl in Hle. split_and!; [done|lia|intros; lia].
  - rewrite forallb_app, Hacc. simpl. by erewrite Hc.
Qed.

Lemma parseAnd_wf : yields_wf (parseAnd rec).
Proof using Hrec.
  intros p n p'. unfold parseAnd. intros H. apply bind_ok_inv in H as ([m q] & Hm & H).
  apply parseConstraint_wf in Hm. destruct (isType TokenAnd (peek q)) eqn:Hq; [|by simplify_eq].
  apply bind_ok_inv in H as ([l q'] & Hl & H). simplify_eq.
  apply childLoop_wf in Hl as (Hl & _ & Hlt); [|apply parseConstraint_wf|simpl; by rewrite Hm].
  specialize (Hlt Hq). cbn [wf_node length] in *. rewrite Hl, andb_true_r. by apply Nat.leb_le.
Qed.

Lemma parseOrBody_wf : yields_wf (parseOrBody rec).
Proof using Hrec.
  intros p n p'. unfold parseOrBody. intros H. apply bind_ok_inv in H as ([m q] & Hm & H).
  apply parseAnd_wf in Hm. destruct (isType TokenOr (peek q)) eqn:Hq; [|by simplify_eq].
  apply bind_ok_inv in H as ([l q'] & Hl & H). simplify_eq.
  apply childLoop_wf in Hl as (Hl & _ & Hlt); [|apply parseAnd_wf|simpl; by rewrite Hm].
  specialize (Hlt Hq). cbn [wf_node length] in *. rewrite Hl, andb_true_r. by apply Nat.leb_le.
Qed.
End wf.

Lemma parseOr_wf fuel : yields_wf (parseOr fuel).
Proof. induction fuel as [|fuel IH]; [by intros p|by apply parseOrBody_wf]. Qed.

Lemma Parse_wf_node input n : Parse input = Ok n → wf_node n = true.
Proof.
  unfold Parse. intros H. inv_ok. repeat case_match; simplify_eq. by eapply parseOr_wf.
Qed.

(** ** Concrete syntax *)
Definition has_char (c : ascii) (s : string) : bool := negb (str_forall (λ d, negb (is_char d c)) s).

(** A value is quoted with double quotes, or with single quotes when it holds a
    double quote. *)
Definition quote_for (v : string) : ascii := if has_char dquote v then squote else dquote.

Definition printValue (v : Value) : string :=
  match v with
  | VString s => String (quote_for s) (s +:+ String (quote_for s) nostr)
  | VStrings l => "(" +:+ Join l "," +:+ ")"
  end.

Definition is_group (n : Node) : bool :=
  match n with ComparisonNode _ _ _ => false | _ => true end.
Definition parens (n : Node) (s : string) : string := if is_group n then "(" +:+ s +:+ ")" else s.

Fixpoint print (n : Node) : string :=
  match n with
  | ComparisonNode f o v => f +:+ operatorString o +:+ printValue v
  | AndNode l => Join (map (λ c, parens c (print c)) l) ";"
  | OrNode l => Join (map (λ c, parens c (print c)) l) ","
  end.

(** Text the concrete syntax can carry: identifiers as fields, values without
    both kinds of quotes, list members that are trimmed, not empty and free of
    separators. *)
Definition printable_member (v : string) : bool :=
  negb (str_eqb v nostr) && str_eqb (TrimSpace v) v &&
  str_forall (λ c, negb (is_char c ")" || is_char c ",")) v.

Definition printable_value (v : Value) : bool :=
  match v with
  | VString s => negb (has_char dquote s && has_char squote s)
  | VStrings l => forallb printable_member l
  end.

Fixpoint printable (n : Node) : bool :=
  match n with
  | ComparisonNode f o v =>
      match_head_tail isIdentStart isIdentChar f && value_kind_ok o v && printable_value v
  | AndNode l | OrNode l => (2 <=? length l) && forallb printable l
  end.

(** ** Tokens without positions *)
Definition lexeme : Type := TokenType * string * list string.
Definition erase (t : Token) : lexeme := (tType t, tValue t, tValues t).

Definition sepLex (ty : TokenType) (s : string) : lexeme := (ty, s, []).
Definition valueLex (v : Value) : lexeme :=
  match v with VString s => (TokenValue, s, []) | VStrings l => (TokenValues, nostr, l) end.

Definition parensLex (n : Node) (ls : list lexeme) : list lexeme :=
  if is_group n then sepLex TokenLParen "(" :: ls ++ [sepLex TokenRParen ")"] else ls.

Fixpoint joinLex (sep : lexeme) (l : list (list lexeme)) : list lexeme :=
  match l with
  | [] => []
  | [x] => x
  | x :: l' => x ++ sep :: joinLex sep l'
  end.

Fixpoint lexemes (n : Node) : list lexeme :=
  match n with
  | ComparisonNode f o v => [(TokenField, f, []); (TokenOp, operatorString o, []); valueLex v]
  | AndNode l => joinLex (sepLex TokenAnd ";") (map (λ c, parensLex c (lexemes c)) l)
  | OrNode l => joinLex (sepLex TokenOr ",") (map (λ c, parensLex c (lexemes c)) l)
  end.

(** ** Lexing what [print] wrote *)
Definition steps : Lexer → Lexer → Prop := star (λ a b, turn a = More b).

Lemma steps_lex l l' f :
  steps l l' → String.length (unread l) < f → lex f l = lex (S (String.length (unread l'))) l'.
Proof.
  intros H. revert f. induction H as [l|l l1 l2 Ht _ IH]; intros f Hf.
  - apply lex_enough; lia.
  - destruct f as [|f]; [lia|]. rewrite lex_turn_eq, Ht.
    apply turn_more in Ht as (w & Hw & Hm). apply Moves_length in Hm.
    apply IH. destruct w; [done|]. simpl in *. lia.
Qed.

(** [reads s ls]: from a lexer about to read [s] (and not just after a set
    operator), turns lead past [s] and append tokens that erase to [ls]. *)
Definition reads (s : string) (ls : list lexeme) : Prop := ∀ l rest,
  unread l = s +:+ rest → lastTokenIsSetOp l = false →
  ∃ l', steps l l' ∧ unread l' = rest ∧
        map erase (tokens l') = map erase (tokens l) ++ ls ∧ lastTokenIsSetOp l' = false.

Lemma reads_nil : reads nostr [].
Proof. intros l rest Hu Hs. exists l. rewrite app_nil_r. split_and!; [apply star_refl|done..]. Qed.

Lemma reads_app s1 ls1 s2 ls2 : reads s1 ls1 → reads s2 ls2 → reads (s1 +:+ s2) (ls1 ++ ls2).
Proof.
  intros H1 H2 l rest Hu Hs. rewrite str_app_assoc in Hu.
  destruct (H1 _ _ Hu Hs) as (l1 & Hst1 & Hu1 & Hk1 & Hs1).
  destruct (H2 _ _ Hu1 Hs1) as (l2 & Hst2 & Hu2 & Hk2 & Hs2).
  exists l2. split_and!; [by eapply star_trans|done| |done].
  by rewrite Hk2, Hk1, app_assoc.
Qed.

Lemma skipWhitespace_id l c s :
  unread l = String c s → IsSpaceLatin1 c = false → skipWhitespace l = l.
Proof.
  intros Hu Hc. unfold skipWhitespace, advanceWhile. rewrite Hu. simpl. rewrite Hc. simpl.
  destruct l; simpl in *. subst. f_equal. lia.
Qed.

(** The tokens of one byte. *)
Inductive single_lex : ascii → TokenType → Prop :=
| single_and : single_lex ";" TokenAnd
| single_or : single_lex "," TokenOr
| single_lparen : single_lex "(" TokenLParen
| single_rparen : single_lex ")" TokenRParen.
#[export] Hint Constructors single_lex : go.

Lemma reads_single c ty :
  single_lex c ty → reads (String c nostr) [sepLex ty (String c nostr)].
Proof.
  intros Hc l rest Hu Hs.
  assert (IsSpaceLatin1 c = false ∧ ty ≠ TokenOp) as [Hsp Hty]
    by (by destruct Hc).
  exists (advance 1 (emit (mkToken ty (String c nostr) [] (pos l)) l)).
  split_and!.
  - eapply star_step; [|apply star_refl]. unfold turn. cbv zeta.
    rewrite (skipWhitespace_id _ _ _ Hu Hsp), Hu. rewrite Hs. by destruct Hc.
  - simpl. by rewrite Hu.
  - simpl. by rewrite map_app.
  - unfold lastTokenIsSetOp. simpl. rewrite last_snoc. simpl.
    by rewrite bool_decide_eq_false_2.
Qed.

(** Bytes of an identifier are none of the lexer's other leads. *)
Lemma isIdentStart_lead c :
  isIdentStart c = true →
  IsSpaceLatin1 c = false ∧ is_char c ";" = false ∧ is_char c "," = false ∧
  is_char c "(" = false ∧ is_char c ")" = false ∧
  (is_char c "=" || is_char c "!" || is_char c ">" || is_char c "<") = false ∧
  (is_char c dquote || is_char c squote) = false.
Proof. by destruct c as [[] [] [] [] [] [] [] []]; vm_compute; intros. Qed.

Lemma turn_field l f o rest :
  unread l = f +:+ operatorString o +:+ rest →
  match_head_tail isIdentStart isIdentChar f = true →
  turn l = More (mkLexer (operatorString o +:+ rest) (pos l + String.length f)
                         (tokens l ++ [mkToken TokenField f [] (pos l)])).
Proof.
  intros Hu Hf. destruct f as [|c f]; [done|]. simpl in Hf. apply andb_true_iff in Hf as [Hc Hf].
  pose proof Hu as Hu'. rewrite str_app_cons in Hu'.
  apply isIdentStart_lead in Hc as Hc'.
  destruct Hc' as (Hsp & H1 & H2 & H3 & H4 & H5 & H6).
  unfold turn. cbv zeta. rewrite (skipWhitespace_id _ _ _ Hu' Hsp), Hu'.
  rewrite H1, H2, H3, H4, H5, H6, Hc. f_equal. unfold lexField, advanceWhile. rewrite Hu.
  rewrite span_app; [done| |by destruct o].
  simpl. unfold isIdentChar at 1. by rewrite Hc.
Qed.

Definition set_op (o : Operator) : bool := bool_decide (o = OpIn) || bool_decide (o = OpOut).

Lemma readOperator_print o rest p t :
  (match rest with String c _ => is_char c "=" = false | _ => True end) →
  readOperator (mkLexer (operatorString o +:+ rest) p t) =
  Ok (operatorString o, mkLexer rest (p + String.length (operatorString o)) t).
Proof. destruct o, rest as [|c s]; intros Hc; try reflexivity; destruct c as [[] [] [] [] [] [] [] []]; try reflexivity; discriminate Hc. Qed.

Lemma turn_operator o l s :
  unread l = operatorString o +:+ s → turn l = turn_of (lexOperatorAndValue l).
Proof.
  intros Hu. unfold turn. cbv zeta. destruct o;
    (rewrite (skipWhitespace_id _ _ _ Hu eq_refl), Hu; reflexivity).
Qed.

Lemma quote_for_cases v : quote_for v = dquote ∨ quote_for v = squote.
Proof. unfold quote_for. destruct (has_char dquote v); auto. Qed.

Lemma quote_for_free v :
  has_char dquote v && has_char squote v = false → str_forall (λ c, negb (is_char c (quote_for v))) v = true.
Proof.
  unfold quote_for. destruct (has_char dquote v) eqn:Hd; simpl; intros Hs.
  - by apply negb_false_iff in Hs.
  - by apply negb_false_iff in Hd.
Qed.

Lemma turn_op_quoted o v p t rest :
  set_op o = false → has_char dquote v && has_char squote v = false →
  turn (mkLexer (operatorString o +:+ printValue (VString v) +:+ rest) p t) =
  More (mkLexer rest (p + String.length (operatorString o) + 1 + String.length v + 1)
          ((t ++ [mkToken TokenOp (operatorString o) [] p]) ++
           [mkToken TokenValue v [] (p + String.length (operatorString o) + 1)])).
Proof.
  intros Ho Hv. erewrite turn_operator; [|done]. unfold lexOperatorAndValue.
  rewrite readOperator_print; [|simpl; destruct (quote_for_cases v) as [-> | ->]; done].
  simpl. unfold set_op in Ho.
  assert (str_eqb (operatorString o) opInText || str_eqb (operatorString o) opOutText = false)
    as -> by (by destruct o).
  unfold emit. simpl.
  assert (is_char (quote_for v) dquote || is_char (quote_for v) squote = true) as Hq
    by (by destruct (quote_for_cases v) as [-> | ->]).
  assert (IsSpaceLatin1 (quote_for v) = false) as Hsp
    by (by destruct (quote_for_cases v) as [-> | ->]).
  erewrite skipWhitespace_id; [|done|done]. simpl. rewrite Hq.
  unfold lexQuotedValue, advanceWhile. simpl. str_norm.
  rewrite span_app; [|by apply quote_for_free|by rewrite is_char_refl].
  simpl. reflexivity.
Qed.

Lemma reads_op_quoted f o v :
  match_head_tail isIdentStart isIdentChar f = true →
  set_op o = false → has_char dquote v && has_char squote v = false →
  reads (f +:+ operatorString o +:+ printValue (VString v))
        [(TokenField, f, []); (TokenOp, operatorString o, []); (TokenValue, v, [])].
Proof.
  intros Hf Ho Hv l rest Hu Hs. rewrite !str_app_assoc in Hu.
  eexists. split_and!.
  - eapply star_step; [by apply turn_field|].
    eapply star_step; [by apply turn_op_quoted|apply star_refl].
  - done.
  - simpl. by rewrite !map_app, <- !app_assoc.
  - unfold lastTokenIsSetOp. simpl. by rewrite last_snoc.
Qed.

(** Value lists. *)
Definition member_char (c : ascii) : bool := negb (is_char c ")" || is_char c ",").

Lemma valueListLoop_walk w s seg start p vals :
  str_forall member_char w = true →
  valueListLoop (w +:+ s) seg start p vals =
  valueListLoop s (seg +:+ w) start (p + String.length w) vals.
Proof.
  revert seg p. induction w as [|c w IH]; intros seg p Hw.
  - rewrite str_app_nil_l, str_app_nil_r. f_equal. simpl. lia.
  - simpl in Hw. apply andb_true_iff in Hw as [Hc Hw].
    unfold member_char in Hc. apply negb_true_iff, orb_false_iff in Hc as [Hc1 Hc2].
    rewrite str_app_cons. cbn [valueListLoop]. rewrite Hc1, Hc2.
    rewrite IH by done. str_norm. simpl. f_equal. lia.
Qed.

Lemma valueListLoop_members l rest start p vals :
  forallb printable_member l = true →
  ∃ p' start', valueListLoop (Join l "," +:+ String ")" rest) nostr start p vals =
  Ok (rest, p', start', vals ++ l).
Proof.
  revert start p vals. induction l as [|v l IH]; intros start p vals Hl.
  - simpl. rewrite app_nil_r. eauto.
  - simpl in Hl. apply andb_true_iff in Hl as [Hv Hl]. unfold printable_member in Hv.
    apply andb_true_iff in Hv as [Hv Hm]. apply andb_true_iff in Hv as [Hne Ht].
    apply negb_true_iff in Hne. apply str_eqb_true in Ht.
    destruct l as [|v' l].
    + simpl Join. rewrite valueListLoop_walk by done. rewrite str_app_nil_l.
      cbn [valueListLoop]. rewrite Ht, Hne. simpl. eauto.
    + change (Join (v :: v' :: l) ",") with (v +:+ "," +:+ Join (v' :: l) ",").
      rewrite !str_app_assoc, valueListLoop_walk by done.
      rewrite str_app_nil_l. rewrite str_app_cons, str_app_nil_l.
      cbn [valueListLoop]. change (is_char "," ")") with false.
      change (is_char "," ",") with true. rewrite Ht, Hne. cbv iota.
      destruct (IH (p + String.length v + 1) (p + String.length v + 1) (vals ++ [v]) Hl)
        as (p' & st' & ->). rewrite <- app_assoc. eauto.
Qed.

Lemma reads_op_list f o vs :
  match_head_tail isIdentStart isIdentChar f = true →
  set_op o = true → forallb printable_member vs = true →
  reads (f +:+ operatorString o +:+ printValue (VStrings vs))
        [(TokenField, f, []); (TokenOp, operatorString o, []); (TokenValues, nostr, vs)].
Proof.
  intros Hf Ho Hvs l rest Hu Hs. rewrite !str_app_assoc in Hu.
  set (p1 := pos l + String.length f).
  set (t1 := tokens l ++ [mkToken TokenField f [] (pos l)]).
  set (t2 := t1 ++ [mkToken TokenOp (operatorString o) [] p1]).
  set (p2 := p1 + String.length (operatorString o)).
  set (tl := Join vs "," +:+ String ")" rest).
  assert (turn (mkLexer (operatorString o +:+ printValue (VStrings vs) +:+ rest) p1 t1) =
          More (mkLexer (String "(" tl) p2 t2)) as Hop.
  { erewrite turn_operator; [|done]. unfold lexOperatorAndValue.
    rewrite readOperator_print by done. unfold set_op in Ho. simpl.
    assert (str_eqb (operatorString o) opInText || str_eqb (operatorString o) opOutText = true)
      as -> by (by destruct o).
    unfold emit, tl. simpl. by str_norm. }
  destruct (valueListLoop_members vs rest (p2 + 1) (p2 + 1) [] Hvs) as (p' & st' & Hl).
  assert (turn (mkLexer (String "(" tl) p2 t2) =
          More (mkLexer rest p' (t2 ++ [mkToken TokenValues nostr vs st']))) as Hlist.
  { unfold turn. cbv zeta. erewrite skipWhitespace_id by done. simpl.
    assert (lastTokenIsSetOp (mkLexer (String "(" tl) p2 t2) = true) as ->.
    { unfold lastTokenIsSetOp, t2. simpl. rewrite last_snoc. simpl. by destruct o. }
    unfold lexValueList, tl. simpl. by rewrite Hl. }
  exists (mkLexer rest p' (t2 ++ [mkToken TokenValues nostr vs st'])). split_and!.
  - eapply star_step; [by apply turn_field|]. eapply star_step; [exact Hop|].
    eapply star_step; [exact Hlist|apply star_refl].
  - done.
  - unfold t2, t1. simpl. by rewrite !map_app, <- !app_assoc.
  - unfold lastTokenIsSetOp. simpl. by rewrite last_snoc.
Qed.

Lemma reads_parens n s ls : reads s ls → reads (parens n s) (parensLex n ls).
Proof.
  intros H. unfold parens, parensLex. destruct (is_group n); [|done].
  change (sepLex TokenLParen "(" :: ls ++ [sepLex TokenRParen ")"]) with
    ([sepLex TokenLParen "("] ++ ls ++ [sepLex TokenRParen ")"]).
  apply reads_app; [apply reads_single; constructor|].
  apply reads_app; [done|apply reads_single; constructor].
Qed.

Lemma reads_join c ty l :
  single_lex c ty → Forall (λ x, reads x.1 x.2) l →
  reads (Join (map fst l) (String c nostr)) (joinLex (sepLex ty (String c nostr)) (map snd l)).
Proof.
  intros Hc Hl. induction Hl as [|[s ls] l Hs Hl IH]; [apply reads_nil|].
  destruct l as [|[s' ls'] l]; [done|]. cbn [map fst snd] in *.
  apply (reads_app s ls); [done|].
  apply (reads_app (String c nostr) [sepLex ty (String c nostr)]); [by apply reads_single|done].
Qed.

Lemma reads_children c ty l :
  single_lex c ty → Forall (λ n, printable n = true → reads (print n) (lexemes n)) l →
  forallb printable l = true →
  reads (Join (map (λ n, parens n (print n)) l) (String c nostr))
        (joinLex (sepLex ty (String c nostr)) (map (λ n, parensLex n (lexemes n)) l)).
Proof.
  intros Hc Hl Hp.
  pose proof (reads_join c ty (map (λ n, (parens n (print n), parensLex n (lexemes n))) l) Hc) as H.
  rewrite !map_map in H. simpl in H. apply H. apply Forall_map.
  rewrite forallb_forall' in Hp. rewrite Forall_forall in Hl |- *.
  intros n Hn. simpl. apply reads_parens. apply Hl; auto.
Qed.

Lemma reads_print n : printable n = true → reads (print n) (lexemes n).
Proof.
  induction n as [f o v|l IH|l IH] using Node_ind'; intros Hp; cbn [printable] in Hp.
  - apply andb_true_iff in Hp as [Hp Hv]. apply andb_true_iff in Hp as [Hf Hk].
    destruct v as [s|vs].
    + apply reads_op_quoted; [done|by destruct o|by apply negb_true_iff].
    + apply reads_op_list; [done|by destruct o|done].
  - apply andb_true_iff in Hp as [_ Hp]. by apply reads_children; auto with go.
  - apply andb_true_iff in Hp as [_ Hp]. by apply reads_children; auto with go.
Qed.

(** Lexing a printed AST gives its lexemes and the final EOF. *)
Lemma Lex_print n :
  printable n = true →
  ∃ toks p, Lex (print n) = Ok (toks ++ [mkToken TokenEOF nostr [] p]) ∧ map erase toks = lexemes n.
Proof.
  intros Hp. destruct (reads_print n Hp (mkLexer (print n) 0 []) nostr) as (l' & Hst & Hu & Hk & _).
  { by rewrite str_app_nil_r. }
  { done. }
  exists (tokens l'), (pos l'). split; [|done].
  unfold Lex. erewrite steps_lex; [|done|simpl; lia]. rewrite Hu. simpl.
  destruct l' as [u p t]; simpl in *; subst u. unfold skipWhitespace, advanceWhile. simpl.
  by rewrite Nat.add_0_r.
Qed.

(** ** Parsing the lexemes *)
Definition child_parser : Type := list Token → result ParseError (Node * list Token).

(** [f] recovers the parenthesised-if-needed [c] in front of any rest that does
    not start with a token of type [stop]. *)
Definition parses_child (stop : TokenType → bool) (f : child_parser) (c : Node) : Prop :=
  ∀ ts rest, map erase ts = parensLex c (lexemes c) → stop (tType (peek rest)) = false →
    f (ts ++ rest) = Ok (c, rest).

Definition stop_and (ty : TokenType) : bool := bool_decide (ty = TokenAnd).
Definition no_stop (ty : TokenType) : bool := false.

Lemma map_erase_app_inv ts a b :
  map erase ts = a ++ b → ∃ t1 t2, ts = t1 ++ t2 ∧ map erase t1 = a ∧ map erase t2 = b.
Proof. apply map_eq_app. Qed.
Lemma map_erase_cons_inv ts x b :
  map erase ts = x :: b → ∃ t t2, ts = t :: t2 ∧ erase t = x ∧ map erase t2 = b.
Proof. apply map_eq_cons. Qed.
Ltac inv_erase :=
  repeat match goal with
  | H : map erase _ = _ :: _ |- _ => apply map_erase_cons_inv in H as (? & ? & -> & ? & H)
  | H : map erase ?t = [] |- _ => apply map_eq_nil in H; subst t
  | H : erase ?t = (_, _, _) |- _ => destruct t; unfold erase in H; simplify_eq/=
  end.

Lemma parseOperator_print o : parseOperator (operatorString o) = Ok o.
Proof. by destruct o. Qed.

Lemma parseComparison_lexemes f o v ts rest :
  value_kind_ok o v = true → map erase ts = lexemes (ComparisonNode f o v) →
  parseComparison (ts ++ rest) = Ok (ComparisonNode f o v, rest).
Proof.
  intros Hk Hts. simpl in Hts. unfold valueLex in Hts.
  destruct v as [s|l]; inv_erase; unfold parseComparison; simpl; rewrite parseOperator_print;
    by destruct o.
Qed.

(** The rest of a chain: every further child after its separator. *)
Definition tailLex (sep : lexeme) (l : list Node) : list lexeme :=
  concat (map (λ c, sep :: parensLex c (lexemes c)) l).

Lemma joinLex_tail sep c l :
  joinLex sep (map (λ c, parensLex c (lexemes c)) (c :: l)) =
  parensLex c (lexemes c) ++ tailLex sep l.
Proof.
  revert c. induction l as [|d l IH]; intros c; [by simpl; rewrite app_nil_r|].
  change (joinLex sep (map (λ c, parensLex c (lexemes c)) (c :: d :: l))) with
    (parensLex c (lexemes c) ++ sep :: joinLex sep (map (λ c, parensLex c (lexemes c)) (d :: l))).
  rewrite IH. done.
Qed.

Lemma erase_sep t ty s : erase t = sepLex ty s → isType ty t = true.
Proof. unfold erase, sepLex, isType. intros [= -> _ _]. by rewrite bool_decide_eq_true. Qed.

Lemma childLoop_lexemes stop f sep s fuel acc l ts rest :
  Forall (parses_child stop f) l → stop sep = false → stop (tType (peek rest)) = false →
  isType sep (peek rest) = false → length l < fuel →
  map erase ts = tailLex (sepLex sep s) l →
  childLoop sep f fuel acc (ts ++ rest) = Ok (acc ++ l, rest).
Proof.
  intros Hl Hsep Hstop Hrest. revert acc ts fuel.
  induction Hl as [|c l Hc Hl IH]; intros acc ts [|fuel] Hf Hts; simpl in Hf; try lia.
  - unfold tailLex in Hts. simpl in Hts. inv_erase. cbn [childLoop app]. by rewrite Hrest, app_nil_r.
  - cbn [tailLex map concat] in Hts.
    change (sepLex sep s :: parensLex c (lexemes c)) with ([sepLex sep s] ++ parensLex c (lexemes c)) in Hts.
    rewrite <- app_assoc in Hts. apply map_erase_cons_inv in Hts as (t & t2 & -> & Ht & Hts).
    apply map_erase_app_inv in Hts as (t3 & t4 & -> & Ht3 & Ht4).
    cbn [childLoop app peek next tail].
    rewrite (erase_sep _ _ _ Ht), <- app_assoc, Hc; [|done|].
    + cbn [mbind result_bind]. rewrite IH; [by rewrite <- app_assoc|lia|done].
    + destruct l as [|d l]; simpl in Ht4; inv_erase; [done|].
      unfold sepLex in *. by inv_erase.
Qed.

(** [parseOr] with this fuel recovers [n] in front of anything that does not
    continue the query. *)
Definition parses_query (fuel : nat) (n : Node) : Prop := ∀ ts rest,
  map erase ts = lexemes n →
  isType TokenAnd (peek rest) = false → isType TokenOr (peek rest) = false →
  parseOr fuel (ts ++ rest) = Ok (n, rest).

Lemma parseConstraint_child fuel n :
  printable n = true → (is_group n = true → parses_query fuel n) →
  parses_child no_stop (parseConstraint (parseOr fuel)) n.
Proof.
  intros Hwf Hq ts rest Hts _. unfold parensLex in Hts. destruct (is_group n) eqn:Hg.
  - apply map_erase_cons_inv in Hts as (t & t2 & -> & Ht & Hts).
    apply map_erase_app_inv in Hts as (t3 & t4 & -> & Ht3 & Ht4). unfold sepLex in *. inv_erase.
    unfold parseConstraint, parseGroup. cbn [app peek next tail]. simpl.
    rewrite <- app_assoc. by rewrite Hq.
  - destruct n as [f o v| |]; try done. cbn [printable] in Hwf.
    apply andb_true_iff in Hwf as [Hwf _]. apply andb_true_iff in Hwf as [_ Hk].
    replace (parseConstraint (parseOr fuel) (ts ++ rest)) with (parseComparison (ts ++ rest)).
    + by apply parseComparison_lexemes.
    + simpl in Hts. destruct v; inv_erase; done.
Qed.

Lemma parseAnd_child fuel n :
  parses_child no_stop (parseConstraint (parseOr fuel)) n →
  parses_child stop_and (parseAnd (parseOr fuel)) n.
Proof.
  intros Hc ts rest Hts Hstop. unfold parseAnd. rewrite Hc; [|done|done].
  cbn [mbind result_bind]. unfold isType. unfold stop_and in Hstop. by rewrite Hstop.
Qed.

Lemma in_tailLex sep c l :
  c ∈ l → length (parensLex c (lexemes c)) < length (tailLex sep l).
Proof.
  intros Hc. apply list_elem_of_split in Hc as (l1 & l2 & ->).
  unfold tailLex. rewrite map_app, concat_app. cbn [map concat].
  rewrite !length_app. simpl. lia.
Qed.

Lemma in_joinLex sep c l :
  c ∈ l → length (parensLex c (lexemes c)) ≤
          length (joinLex sep (map (λ c, parensLex c (lexemes c)) l)).
Proof.
  destruct l as [|d l]; [by intros ?%elem_of_nil|]. rewrite joinLex_tail, length_app.
  intros [->|Hc]%elem_of_cons; [lia|]. pose proof (in_tailLex sep c l Hc). lia.
Qed.

Lemma length_parensLex n : is_group n = true → length (parensLex n (lexemes n)) = length (lexemes n) + 2.
Proof. intros Hg. unfold parensLex. rewrite Hg. simpl. rewrite length_app. simpl. lia. Qed.

(** The children of a conjunction or a disjunction, one level of fuel down. *)
Lemma parse_children fuel sep l :
  forallb printable l = true →
  Forall (λ n, printable n = true → ∀ fuel, length (lexemes n) < fuel → parses_query fuel n) l →
  length (joinLex sep (map (λ c, parensLex c (lexemes c)) l)) < S fuel →
  Forall (parses_child no_stop (parseConstraint (parseOr fuel))) l.
Proof.
  rewrite forallb_forall'. rewrite !Forall_forall. intros Hp Hq Hlen c Hc.
  apply parseConstraint_child; [auto|]. intros Hg. apply Hq; [done|auto|].
  pose proof (in_joinLex sep c l Hc). rewrite (length_parensLex c Hg) in *. lia.
Qed.

Lemma peek_tailLex ty s l ts rest sep :
  map erase ts = tailLex (sepLex ty s) l → l ≠ [] → isType sep (peek (ts ++ rest)) = bool_decide (ty = sep).
Proof.
  intros Hts Hl. destruct l as [|c l]; [done|]. unfold tailLex, sepLex in Hts. simpl in Hts.
  by inv_erase.
Qed.

Lemma length_tailLex sep l : length l ≤ length (tailLex sep l).
Proof. unfold tailLex. induction l; simpl; [lia|]. rewrite length_app. lia. Qed.

Lemma parse_query n :
  printable n = true → ∀ fuel, length (lexemes n) < fuel → parses_query fuel n.
Proof.
  induction n as [f o v|l IH|l IH] using Node_ind'; intros Hp [|fuel] Hlen; try lia;
    intros ts rest Hts Hand Hor; cbn [parseOr]; unfold parseOrBody.
  - rewrite (parseAnd_child fuel (ComparisonNode f o v)); [|by apply parseConstraint_child|done|done].
    cbn [mbind result_bind]. by rewrite Hor.
  - cbn [printable] in Hp. apply andb_true_iff in Hp as [Hl Hp]. apply Nat.leb_le in Hl.
    pose proof (parse_children _ _ _ Hp IH Hlen) as Hc.
    destruct l as [|c l]; simpl in Hl; [lia|].
    cbn [lexemes] in Hts. rewrite joinLex_tail in Hts.
    apply map_erase_app_inv in Hts as (t1 & t2 & -> & Ht1 & Ht2). rewrite <- app_assoc.
    apply Forall_cons_1 in Hc as [Hc Hcs].
    unfold parseAnd. rewrite Hc; [|done|done]. cbn [mbind result_bind].
    erewrite peek_tailLex by (done || by destruct l; simpl in Hl; try lia).
    rewrite bool_decide_eq_true_2 by done.
    erewrite (childLoop_lexemes no_stop _ TokenAnd ";"); [|done..| |done].
    + cbn [mbind result_bind]. by rewrite Hor.
    + rewrite length_app. apply (f_equal length) in Ht2. rewrite length_map in Ht2.
      pose proof (length_tailLex (sepLex TokenAnd ";") l). lia.
  - cbn [printable] in Hp. apply andb_true_iff in Hp as [Hl Hp]. apply Nat.leb_le in Hl.
    pose proof (parse_children _ _ _ Hp IH Hlen) as Hc.
    assert (Forall (parses_child stop_and (parseAnd (parseOr fuel))) l) as Hc'
      by (eapply Forall_impl; [done|]; intros; by apply parseAnd_child).
    destruct l as [|c l]; simpl in Hl; [lia|].
    cbn [lexemes] in Hts. rewrite joinLex_tail in Hts.
    apply map_erase_app_inv in Hts as (t1 & t2 & -> & Ht1 & Ht2). rewrite <- app_assoc.
    apply Forall_cons_1 in Hc' as [Hc' Hcs].
    assert (l ≠ []) as Hne by (by destruct l; simpl in Hl; try lia).
    rewrite Hc'; [|done|by apply (peek_tailLex _ _ _ _ rest TokenAnd Ht2 Hne)].
    cbn [mbind result_bind].
    erewrite peek_tailLex by done. rewrite bool_decide_eq_true_2 by done.
    erewrite (childLoop_lexemes stop_and _ TokenOr ","); [done|done..| |done].
    rewrite length_app. apply (f_equal length) in Ht2. rewrite length_map in Ht2.
    pose proof (length_tailLex (sepLex TokenOr ",") l). lia.
Qed.

(** ** Properties *)

(** C15. Parsing inverts printing: on the printed form of every printable AST
    (identifier fields, values free of one kind of quote, trimmed list members
    without separators, connectives of at least two children nested to any
    depth) [Parse] returns exactly that AST. *)
Theorem Parse_print n : printable n = true → Parse (print n) = Ok n.
Proof.
  intros Hp. destruct (Lex_print n Hp) as (toks & p & Hl & He). unfold Parse. rewrite Hl.
  cbn [map_err mbind result_bind].
  rewrite (parse_query n Hp _); [done| |done|done|done].
  rewrite <- He, length_map, length_app. simpl. lia.
Qed.

Definition sample_node : Node :=
  AndNode [ComparisonNode "type" OpEq (VString "idea");
           OrNode [ComparisonNode "class" OpOut (VStrings ["personal"; "contact_details"]);
                   ComparisonNode "metadata.k" OpGte (VString "it's")]].

Lemma Parse_print_witness : printable sample_node = true ∧ Parse (print sample_node) = Ok sample_node.
Proof. split; [vm_compute; reflexivity|apply Parse_print; vm_compute; reflexivity]. Defined.

(** C40. What [Parse] returns has the shape the compiler relies on: a list value
    exactly under [=in=] and [=out=], and at least two children under every
    connective. *)
Theorem Parse_wf input n : Parse input = Ok n → wf_node n = true.
Proof. apply Parse_wf_node. Qed.

Lemma Parse_wf_witness :
  ∃ n, Parse "tag=in=(a,b);(type==x,type==y)" = Ok n ∧ wf_node n = true.
Proof.
  eexists. split; [vm_compute; reflexivity|].
  apply (Parse_wf "tag=in=(a,b);(type==x,type==y)"). vm_compute; reflexivity.
Defined.
