(* ===== verification/RsqlCompiler.v ===== *)
(** * Compiling RSQL to SQL

    Models [internal/search/compiler.go], [dialect.go] and the part of
    [internal/storage/scope.go] the compiler reads ([Scope]).  A compilation is
    the SQL text with [?] placeholders and the arguments bound to them. *)

From S2P Require Import Prelude GoStrings RsqlLexer.

Inductive Dialect : Type := DialectSQLite | DialectPostgres.
#[export] Instance Dialect_eq_dec : EqDecision Dialect.
Proof. solve_decision. Defined.

(** [storage.Scope] *)
Record Scope : Type := mkScope {
  scSQL : string;
  scArgs : list Value;
  scEntities : bool;
  scPrincipal : string;
}.

Definition Compiled : Type := string * list Value.

Inductive CompileError : Type :=
| UnknownField (f : string)
| InOutRequiresList
| ClassRequiresString
| ClassRequiresList
| ClassUnsupported (o : Operator)
| ClassEmpty (o : Operator)
| BadMetadataKey (k : string)
| TagInRequiresList
| TagUnsupported (o : Operator)
| MentionOnlyEq
| RelatedOnlyEq
| SimilarOnlyEq.

Definition directColumns (f : string) : bool :=
  str_eqb f "type" || str_eqb f "subtype" || str_eqb f "pipeline" || str_eqb f "source".
Definition dateColumns (f : string) : bool := str_eqb f "created_at" || str_eqb f "updated_at".
Definition columnAliases (f : string) : option string :=
  if str_eqb f "profile" then Some "profile_id" else None.

Definition metadataPrefix : string := "metadata.".

(** [^[A-Za-z0-9_-]+(\.[A-Za-z0-9_-]+)*$] *)
Definition metadataKeyChar (c : ascii) : bool :=
  is_upper c || is_lower c || is_digit c || is_char c "_" || is_char c "-".
Definition metadataKeyPattern (k : string) : bool :=
  forallb (match_head_tail metadataKeyChar metadataKeyChar) (SplitByte k ".").

Definition PostgresFTSRegconfig : string := "simple".

Definition sqlOperator (o : Operator) : string :=
  match o with
  | OpEq => "=" | OpNeq => "!=" | OpGt => ">" | OpGte => ">="
  | OpLt => "<" | OpLte => "<=" | OpIn => "IN" | OpOut => "NOT IN"
  end.

(** [placeholders[i] = "?"] for every value, joined with commas. *)
Definition placeholders (vals : list string) : string := Join (map (λ _, "?") vals) ",".

Definition compileColumn (expr : string) (op : Operator) (v : Value) (pathArgs : list Value)
    : result CompileError Compiled :=
  match op with
  | OpIn | OpOut =>
      match v with
      | VStrings vals =>
          let not := match op with OpOut => "NOT " | _ => nostr end in
          Ok (expr +:+ " " +:+ not +:+ "IN (" +:+ placeholders vals +:+ ")",
              pathArgs ++ map VString vals)
      | VString _ => Err InOutRequiresList
      end
  | _ => Ok (expr +:+ " " +:+ sqlOperator op +:+ " ?", pathArgs ++ [v])
  end.

Definition compileClass (d : Dialect) (op : Operator) (v : Value) : result CompileError Compiled :=
  let '(jsonFunc, member) :=
    match d with
    | DialectPostgres => ("jsonb_array_elements_text(classes) AS c", "c")
    | DialectSQLite => ("json_each(classes)", "json_each.value")
    end in
  vals ← match op with
         | OpEq | OpNeq => match v with VString s => Ok [s] | _ => Err ClassRequiresString end
         | OpIn | OpOut => match v with VStrings l => Ok l | _ => Err ClassRequiresList end
         | _ => Err (ClassUnsupported op)
         end;
  if bool_decide (vals = []) then Err (ClassEmpty op)
  else
    let not := match op with OpNeq | OpOut => "NOT " | _ => nostr end in
    Ok (not +:+ "EXISTS (SELECT 1 FROM " +:+ jsonFunc +:+ " WHERE " +:+ member +:+ " IN (" +:+
          placeholders vals +:+ "))",
        map VString vals).

Definition compileMetadata (d : Dialect) (f : string) (op : Operator) (v : Value)
    : result CompileError Compiled :=
  let key := TrimPrefix f metadataPrefix in
  if negb (metadataKeyPattern key) then Err (BadMetadataKey key)
  else match d with
  | DialectPostgres =>
      compileColumn "(metadata #>> ?::text[])" op v [VString ("{" +:+ ReplaceByte key "." "," +:+ "}")]
  | DialectSQLite => compileColumn "json_extract(metadata, ?)" op v [VString ("$." +:+ key)]
  end.

Definition compileTag (d : Dialect) (op : Operator) (v : Value) : result CompileError Compiled :=
  let '(jsonFunc, rowAlias) :=
    match d with
    | DialectPostgres => ("jsonb_array_elements(tags)", "value->>'label'")
    | DialectSQLite => ("json_each(tags)", "json_each.value->>'label'")
    end in
  match op with
  | OpIn =>
      match v with
      | VStrings vals =>
          Ok ("EXISTS (SELECT 1 FROM " +:+ jsonFunc +:+ " WHERE " +:+ rowAlias +:+ " IN (" +:+
                placeholders vals +:+ "))", map VString vals)
      | VString _ => Err TagInRequiresList
      end
  | OpEq => Ok ("EXISTS (SELECT 1 FROM " +:+ jsonFunc +:+ " WHERE " +:+ rowAlias +:+ " = ?)", [v])
  | OpNeq => Ok ("NOT EXISTS (SELECT 1 FROM " +:+ jsonFunc +:+ " WHERE " +:+ rowAlias +:+ " = ?)", [v])
  | _ => Err (TagUnsupported op)
  end.

Definition compileSimilar (d : Dialect) (op : Operator) (v : Value) : result CompileError Compiled :=
  match op with
  | OpEq =>
      match d with
      | DialectPostgres =>
          Ok ("id IN (SELECT id FROM objects WHERE fts @@ websearch_to_tsquery(?, ?))",
              [VString PostgresFTSRegconfig; v])
      | DialectSQLite => Ok ("id IN (SELECT id FROM objects_fts WHERE objects_fts MATCH ?)", [v])
      end
  | _ => Err SimilarOnlyEq
  end.

Section compiler.
(** [compiler{dialect, scope}] *)
Context (d : Dialect) (scope : option Scope).

Definition visibleObjects (col : string) : Compiled :=
  match scope with
  | None => (nostr, [])
  | Some sc => (" AND " +:+ col +:+ " IN (SELECT id FROM objects WHERE " +:+ scSQL sc +:+ ")", scArgs sc)
  end.

Definition mention (op : Operator) (v : Value) : result CompileError Compiled :=
  match op with
  | OpEq =>
      let '(vis, vargs) := visibleObjects "from_id" in
      Ok ("id IN (SELECT from_id FROM edges WHERE from_type = 'object' AND to_type = 'entity' AND edge_type = 'mentions' AND to_id = ?" +:+ vis +:+ ")",
          v :: vargs)
  | _ => Err MentionOnlyEq
  end.

Definition relatedHead : string := "id IN (
		SELECT DISTINCT e2.from_id
		FROM edges e1
		JOIN edges e2 ON e1.to_id = e2.to_id
		WHERE e1.from_type = 'object'
		  AND e1.to_type = 'entity'
		  AND e1.to_id = ?
		  AND e1.edge_type = 'mentions'
		  AND e2.from_type = 'object'
		  AND e2.from_id != e1.from_id
		  AND e2.edge_type = 'mentions'".
Definition relatedTail : string := "
	)".

Definition related (op : Operator) (v : Value) : result CompileError Compiled :=
  match op with
  | OpEq =>
      let '(e1, args1) := visibleObjects "e1.from_id" in
      let '(e2, args2) := visibleObjects "e2.from_id" in
      Ok (relatedHead +:+ e1 +:+ e2 +:+ relatedTail, v :: args1 ++ args2)
  | _ => Err RelatedOnlyEq
  end.

Definition comparison (f : string) (op : Operator) (v : Value) : result CompileError Compiled :=
  if str_eqb f "tag" then compileTag d op v
  else if str_eqb f "mention" then mention op v
  else if str_eqb f "related" then related op v
  else if str_eqb f "similar" then compileSimilar d op v
  else if str_eqb f "class" then compileClass d op v
  else if HasPrefix f metadataPrefix then compileMetadata d f op v
  else match columnAliases f with
  | Some column => compileColumn column op v []
  | None => if directColumns f || dateColumns f then compileColumn f op v [] else Err (UnknownField f)
  end.

(** The loop of [logical]: compile each child, wrap it and collect. *)
Fixpoint logicalLoop (node : Node → result CompileError Compiled) (children : list Node)
    : result CompileError (list string * list Value) :=
  match children with
  | [] => Ok ([], [])
  | c :: l =>
      '(sql, args) ← node c;
      '(parts, allArgs) ← logicalLoop node l;
      Ok (("(" +:+ sql +:+ ")") :: parts, args ++ allArgs)
  end.

Definition logical (node : Node → result CompileError Compiled) (children : list Node) (op : string)
    : result CompileError Compiled :=
  '(parts, allArgs) ← logicalLoop node children;
  Ok (Join parts (" " +:+ op +:+ " "), allArgs).

Fixpoint node (n : Node) : result CompileError Compiled :=
  match n with
  | ComparisonNode f op v => comparison f op v
  | AndNode l => logical node l "AND"
  | OrNode l => logical node l "OR"
  end.
End compiler.

Definition CompileUnnumbered (d : Dialect) (n : Node) (scope : option Scope) : result CompileError Compiled :=
  node d scope n.

(** [rebindPostgres]: the [n]-th placeholder becomes [$n]. *)
Fixpoint rebindFrom (n : nat) (sql : string) : string :=
  match sql with
  | EmptyString => nostr
  | String c s =>
      if is_char c "?" then "$" +:+ pretty n +:+ rebindFrom (S n) s
      else String c (rebindFrom n s)
  end.
Definition rebindPostgres (sql : string) : string := rebindFrom 1 sql.

Definition CompileScoped (d : Dialect) (n : Node) (scope : option Scope) : result CompileError Compiled :=
  '(sql, args) ← CompileUnnumbered d n scope;
  Ok (match d with DialectPostgres => rebindPostgres sql | DialectSQLite => sql end, args).

Definition CompileFor (d : Dialect) (n : Node) : result CompileError Compiled := CompileScoped d n None.
Definition Compile (n : Node) : result CompileError Compiled := CompileFor DialectSQLite n.
