(* ===== verification/RsqlSafety.v ===== *)
(** * What the compiler guarantees about its SQL

    Three structural facts hold of every compiled query, for both dialects and
    under any scope that has them itself: as many placeholders as bound
    arguments ([CompileUnnumbered_placeholders]),
    balanced parentheses ([CompileUnnumbered_balanced]), and SQL text that does
    not depend on the values or metadata keys of the query
    ([CompileScoped_no_injection]). *)

From S2P Require Import Prelude GoStrings RsqlLexer RsqlParser RsqlRoundTrip RsqlCompiler.

(** ** Counting placeholders *)
Fixpoint count_char (c : ascii) (s : string) : nat :=
  match s with
  | EmptyString => 0
  | String d s' => (if is_char d c then 1 else 0) + count_char c s'
  end.
Abbreviation count_q := (count_char "?").

Lemma count_char_app c a b : count_char c (a +:+ b) = count_char c a + count_char c b.
Proof. induction a as [|d a IH]; [done|]. rewrite str_app_cons. simpl. rewrite IH. lia. Qed.

(** ** Nesting *)

(** Parenthesis depth after reading [s] at depth [d]; [None] when a closing
    parenthesis has no opening one. *)
Fixpoint depth (d : nat) (s : string) : option nat :=
  match s with
  | EmptyString => Some d
  | String c s' =>
      if is_char c "(" then depth (S d) s'
      else if is_char c ")" then match d with O => None | S d' => depth d' s' end
      else depth d s'
  end.
(** [s] closes what it opens and never more. *)
Definition balanced (s : string) : Prop := ∀ d, depth d s = Some d.

Lemma depth_app d a b : depth d (a +:+ b) = depth d a ≫= λ d', depth d' b.
Proof.
  revert d. induction a as [|c a IH]; intros d; [done|].
  rewrite str_app_cons. cbn [depth]. destruct (is_char c "("); [apply IH|].
  destruct (is_char c ")"); [destruct d as [|d]; [reflexivity|apply IH]|apply IH].
Qed.

Lemma balanced_app a b : balanced a → balanced b → balanced (a +:+ b).
Proof. intros Ha Hb d. rewrite depth_app, Ha. apply Hb. Qed.
Lemma balanced_paren a : balanced a → balanced ("(" +:+ a +:+ ")").
Proof.
  intros Ha d. rewrite depth_app. change (depth d "(") with (Some (S d)).
  cbn [mbind option_bind]. rewrite depth_app, Ha. reflexivity.
Qed.
Lemma balanced_nil : balanced nostr.
Proof. by intros d. Qed.

(** A text without parentheses is balanced. *)
Lemma balanced_plain s : count_char "(" s = 0 → count_char ")" s = 0 → balanced s.
Proof.
  intros H1 H2 d. revert d. induction s as [|c s IH]; intros d; [done|]. simpl in *.
  destruct (is_char c "("); [done|]. destruct (is_char c ")"); [done|]. by apply IH.
Qed.

(** What a fragment of SQL contributes. *)
Record sql_ok (s : string) (args : list Value) : Prop := {
  sql_ok_args : count_q s = length args;
  sql_ok_balanced : balanced s;
}.

Lemma sql_ok_nil : sql_ok nostr [].
Proof. split; [done|apply balanced_nil]. Qed.
Lemma sql_ok_app s1 a1 s2 a2 : sql_ok s1 a1 → sql_ok s2 a2 → sql_ok (s1 +:+ s2) (a1 ++ a2).
Proof.
  intros [H1 B1] [H2 B2]. split; [|by apply balanced_app].
  by rewrite count_char_app, length_app, H1, H2.
Qed.
Lemma sql_ok_plain s1 s2 a : count_q s1 = 0 → balanced s1 → sql_ok s2 a → sql_ok (s1 +:+ s2) a.
Proof. intros H1 B1 H2. by apply (sql_ok_app s1 []). Qed.
Lemma sql_ok_paren s a : sql_ok s a → sql_ok ("(" +:+ s +:+ ")") a.
Proof.
  intros [H B]. split; [|by apply balanced_paren].
  rewrite !count_char_app, H. simpl. lia.
Qed.

Lemma placeholders_ok vals : sql_ok (placeholders vals) (map VString vals).
Proof.
  unfold placeholders. split.
  - rewrite length_map. induction vals as [|v [|v' vals] IH]; [done|done|].
    change (Join (map (λ _ : string, "?") (v :: v' :: vals)) ",") with
      ("?" +:+ "," +:+ Join (map (λ _ : string, "?") (v' :: vals)) ",").
    rewrite !count_char_app, IH. done.
  - intros d. induction vals as [|v [|v' vals] IH]; [done|done|].
    change (Join (map (λ _ : string, "?") (v :: v' :: vals)) ",") with
      ("?" +:+ "," +:+ Join (map (λ _ : string, "?") (v' :: vals)) ",").
    rewrite !depth_app. done.
Qed.

(** Text between two literals that open and close around it. *)
Lemma sql_between a m b args :
  sql_ok m args → count_q a = 0 → count_q b = 0 → balanced (a +:+ b) → sql_ok (a +:+ m +:+ b) args.
Proof.
  intros [Hc Hd] Ha Hb Hab. split.
  - by rewrite !count_char_app, Ha, Hb, Hc, Nat.add_0_r.
  - intros d. specialize (Hab d). rewrite depth_app in Hab. rewrite depth_app.
    destruct (depth d a) as [d'|]; [|done]. cbn [mbind option_bind] in *.
    by rewrite depth_app, Hd.
Qed.

Lemma placeholders_between a b vals :
  count_q a = 0 → count_q b = 0 → balanced (a +:+ b) →
  sql_ok (a +:+ placeholders vals +:+ b) (map VString vals).
Proof. apply sql_between, placeholders_ok. Qed.

(** Literals are decided by computation. *)
Ltac literal := first [ vm_compute; reflexivity | by apply balanced_plain; vm_compute | by intros ?; vm_compute ].

Lemma sql_ok_one s v : count_q s = 1 → balanced s → sql_ok s [v].
Proof. done. Qed.

Section compile_ok.
Context (d : Dialect) (scope : option Scope).
Hypothesis Hscope : ∀ sc, scope = Some sc → sql_ok (scSQL sc) (scArgs sc).

Lemma visibleObjects_ok col sql args :
  count_q col = 0 → balanced col → visibleObjects scope col = (sql, args) → sql_ok sql args.
Proof using Hscope.
  intros Hc Hb. unfold visibleObjects. destruct scope as [sc|]; intros [= <- <-]; [|apply sql_ok_nil].
  apply sql_ok_plain; [literal|literal|]. apply sql_ok_plain; [done|done|].
  apply sql_between; [by apply Hscope|literal..].
Qed.

Lemma compileColumn_ok expr op v pathArgs sql args :
  sql_ok expr pathArgs → compileColumn expr op v pathArgs = Ok (sql, args) → sql_ok sql args.
Proof using.
  intros He. unfold compileColumn.
  assert (∀ o : string, count_q o = 0 → balanced o →
    sql_ok (expr +:+ " " +:+ o +:+ " ?") (pathArgs ++ [v])) as Hbin.
  { intros o Ho Hb. apply sql_ok_app; [done|].
    apply sql_ok_plain; [literal|literal|]. apply sql_ok_plain; [done|done|].
    split; literal. }
  assert (∀ (o : string) vals, count_q o = 0 → balanced o →
    sql_ok (expr +:+ " " +:+ o +:+ "IN (" +:+ placeholders vals +:+ ")")
           (pathArgs ++ map VString vals)) as Hin.
  { intros o vals Ho Hb. apply sql_ok_app; [done|]. apply sql_ok_plain; [literal|literal|].
    apply sql_ok_plain; [done|done|]. apply placeholders_between; literal. }
  destruct op, v; intros H; simplify_eq; first [apply Hbin|apply Hin]; literal.
Qed.

Lemma compileClass_ok op v sql args : compileClass d op v = Ok (sql, args) → sql_ok sql args.
Proof using.
  unfold compileClass. destruct d; intros H; apply bind_ok_inv in H as (vals & _ & H);
    case_bool_decide; simplify_eq;
    (destruct op; rewrite <- ?str_app_assoc, 1?str_app_assoc; apply placeholders_between; literal).
Qed.

Lemma compileTag_ok op v sql args : compileTag d op v = Ok (sql, args) → sql_ok sql args.
Proof using.
  unfold compileTag. destruct d, op, v; intros H; simplify_eq; try (split; literal);
    (rewrite <- ?str_app_assoc, 1?str_app_assoc; apply placeholders_between; literal).
Qed.

Lemma compileMetadata_ok f op v sql args : compileMetadata d f op v = Ok (sql, args) → sql_ok sql args.
Proof using.
  unfold compileMetadata. case_match; [done|].
  destruct d; apply compileColumn_ok; split; literal.
Qed.

Lemma compileSimilar_ok op v sql args : compileSimilar d op v = Ok (sql, args) → sql_ok sql args.
Proof using.
  unfold compileSimilar. destruct op, d; intros H; simplify_eq; split; literal.
Qed.

Lemma mention_ok op v sql args : mention scope op v = Ok (sql, args) → sql_ok sql args.
Proof using Hscope.
  unfold mention. destruct (visibleObjects scope "from_id") as [vis vargs] eqn:Hv.
  apply visibleObjects_ok in Hv; [|literal..].
  destruct op; intros H; simplify_eq.
  pose proof (sql_ok_app "?" [v] vis vargs ltac:(split; literal) Hv) as Hq.
  match goal with |- sql_ok (?a +:+ _) _ =>
    change a with ((str_take (String.length a - 1) a) +:+ "?") end.
  rewrite str_app_assoc, <- (str_app_assoc "?"). by apply sql_between; [|literal..].
Qed.

Lemma related_ok op v sql args : related scope op v = Ok (sql, args) → sql_ok sql args.
Proof using Hscope.
  unfold related. destruct (visibleObjects scope "e1.from_id") as [e1 a1] eqn:H1.
  destruct (visibleObjects scope "e2.from_id") as [e2 a2] eqn:H2.
  apply visibleObjects_ok in H1; [|literal..]. apply visibleObjects_ok in H2; [|literal..].
  destruct op; intros H; simplify_eq.
  pose proof (sql_ok_app _ _ _ _ H1 H2) as [Hc Hb]. split.
  - rewrite !count_char_app in *. cbn [length].
    change (count_q relatedHead) with 1. change (count_q relatedTail) with 0. lia.
  - intros n. specialize (Hb (S n)). rewrite <- (str_app_assoc e1 e2), depth_app.
    change (depth n relatedHead) with (Some (S n)). cbn [mbind option_bind].
    rewrite depth_app, Hb. reflexivity.
Qed.

Lemma plain_column f : directColumns f || dateColumns f = true → sql_ok f [].
Proof using.
  unfold directColumns, dateColumns. intros H.
  repeat (apply orb_true_iff in H as [H|H]); apply str_eqb_true in H; subst; split; literal.
Qed.

Lemma comparison_ok f op v sql args : comparison d scope f op v = Ok (sql, args) → sql_ok sql args.
Proof using Hscope.
  unfold comparison, columnAliases. intros H. repeat case_match; simplify_eq;
    eauto using compileTag_ok, mention_ok, related_ok, compileSimilar_ok, compileClass_ok,
      compileMetadata_ok, compileColumn_ok, plain_column.
  eapply compileColumn_ok; [|done]. split; literal.
Qed.

Lemma logicalLoop_ok f l parts args :
  Forall (λ n, ∀ sql args, f n = Ok (sql, args) → sql_ok sql args) l →
  logicalLoop f l = Ok (parts, args) →
  ∃ argss, args = concat argss ∧ Forall2 sql_ok parts argss.
Proof using.
  intros Hl. revert parts args. induction Hl as [|n l Hn Hl IH]; intros parts args; simpl.
  - intros [= <- <-]. by exists [].
  - intros H. apply bind_ok_inv in H as ([sql a] & Hs & H).
    apply bind_ok_inv in H as ([ps as_] & Hp & H). simplify_eq.
    destruct (IH _ _ Hp) as (argss & -> & Hf). exists (a :: argss). split; [done|].
    constructor; [apply sql_ok_paren; auto|done].
Qed.

Lemma sql_ok_join sep parts argss :
  count_q sep = 0 → balanced sep → Forall2 sql_ok parts argss → sql_ok (Join parts sep) (concat argss).
Proof using.
  intros Hc Hb H. induction H as [|s a parts argss Hs H IH]; [apply sql_ok_nil|].
  destruct H as [|s' a' parts argss Hs' H].
  - simpl. by rewrite app_nil_r.
  - change (Join (s :: s' :: parts) sep) with (s +:+ sep +:+ Join (s' :: parts) sep).
    apply sql_ok_app; [done|]. by apply sql_ok_plain.
Qed.

Lemma node_ok n sql args : node d scope n = Ok (sql, args) → sql_ok sql args.
Proof using Hscope.
  revert sql args. induction n as [f o v|l IH|l IH] using Node_ind'; intros sql args;
    cbn [node]; [apply comparison_ok| |];
    unfold logical; intros H; apply bind_ok_inv in H as ([parts as_] & Hl & H); simplify_eq;
    apply logicalLoop_ok in Hl as (argss & -> & Hf); [|done| |done];
    (apply sql_ok_join; [literal|literal|done]).
Qed.
End compile_ok.

(** A scope as the drivers receive it: its predicate is itself well formed. *)
Definition scope_ok (scope : option Scope) : Prop :=
  ∀ sc, scope = Some sc → sql_ok (scSQL sc) (scArgs sc).

(** ** Numbering the placeholders *)

(** The reference for [rebindPostgres]: the segments between placeholders,
    joined by [$n], [$n+1], ... *)
Fixpoint weave (n : nat) (segs : list string) : string :=
  match segs with
  | [] => nostr
  | [s] => s
  | s :: l => s +:+ "$" +:+ pretty n +:+ weave (S n) l
  end.

Lemma SplitByte_cons_nonempty s c : SplitByte s c ≠ [].
Proof. destruct s as [|d s]; [done|]. simpl. destruct (is_char d c); [done|]. by destruct (SplitByte s c). Qed.

Lemma rebindFrom_weave n s : rebindFrom n s = weave n (SplitByte s "?").
Proof.
  revert n. induction s as [|c s IH]; intros n; [done|].
  cbn [rebindFrom SplitByte]. destruct (is_char c "?") eqn:Hc.
  - rewrite IH. destruct (SplitByte s "?") as [|x l] eqn:Hs; [|done].
    by apply SplitByte_cons_nonempty in Hs.
  - rewrite IH. destruct (SplitByte s "?") as [|x [|y l]] eqn:Hs; [|done|done].
    by apply SplitByte_cons_nonempty in Hs.
Qed.

Lemma length_SplitByte s c : length (SplitByte s c) = S (count_char c s).
Proof.
  induction s as [|d s IH]; [done|]. simpl. destruct (is_char d c); simpl; [by rewrite IH|].
  destruct (SplitByte s c) as [|x l]; [done|]. simpl in *. lia.
Qed.

(** ** SQL text is independent of query text *)

(** Two values of the same kind; lists of the same length. *)
Definition value_sim (v1 v2 : Value) : bool :=
  match v1, v2 with
  | VString _, VString _ => true
  | VStrings l1, VStrings l2 => length l1 =? length l2
  | _, _ => false
  end.

(** The same field, or two metadata keys the compiler accepts. *)
Definition metadata_field (f : string) : bool :=
  HasPrefix f metadataPrefix && metadataKeyPattern (TrimPrefix f metadataPrefix).
Definition field_sim (f1 f2 : string) : bool :=
  str_eqb f1 f2 || (metadata_field f1 && metadata_field f2).

(** Two ASTs with the same connectives, operators and columns, whatever their
    values and metadata keys. *)
Fixpoint node_sim (n1 n2 : Node) : bool :=
  match n1, n2 with
  | ComparisonNode f1 o1 v1, ComparisonNode f2 o2 v2 =>
      field_sim f1 f2 && bool_decide (o1 = o2) && value_sim v1 v2
  | AndNode l1, AndNode l2 | OrNode l1, OrNode l2 =>
      (fix go l1 l2 := match l1, l2 with
       | [], [] => true
       | a :: l1', b :: l2' => node_sim a b && go l1' l2'
       | _, _ => false
       end) l1 l2
  | _, _ => false
  end.

(** The same outcome up to the bound arguments. *)
Definition same_text (r1 r2 : result CompileError Compiled) : Prop :=
  match r1, r2 with
  | Ok (s1, a1), Ok (s2, a2) => s1 = s2 ∧ length a1 = length a2
  | Err e1, Err e2 => e1 = e2
  | _, _ => False
  end.

Lemma same_text_refl r : same_text r r.
Proof. by destruct r as [[s a]|e]. Qed.

Lemma placeholders_length l1 l2 : length l1 = length l2 → placeholders l1 = placeholders l2.
Proof.
  intros H. unfold placeholders. f_equal. revert l2 H.
  induction l1 as [|a l1 IH]; intros [|b l2]; simpl; intros; simplify_eq; f_equal; auto.
Qed.

Lemma value_sim_cases v1 v2 :
  value_sim v1 v2 = true →
  (∃ s1 s2, v1 = VString s1 ∧ v2 = VString s2) ∨
  (∃ l1 l2, v1 = VStrings l1 ∧ v2 = VStrings l2 ∧ length l1 = length l2).
Proof.
  destruct v1, v2; simpl; intros H; try done; [left; eauto|right].
  apply Nat.eqb_eq in H. eauto.
Qed.

Lemma compileColumn_sim expr op v1 v2 p1 p2 :
  value_sim v1 v2 = true → length p1 = length p2 →
  same_text (compileColumn expr op v1 p1) (compileColumn expr op v2 p2).
Proof.
  intros [(s1&s2&->&->)|(l1&l2&->&->&Hl)]%value_sim_cases Hp; destruct op; simpl;
    rewrite ?length_app, ?length_map, ?Hp, ?(placeholders_length _ _ Hl), ?Hl; done.
Qed.

Ltac sim_solve Hl :=
  simpl; rewrite ?length_map, ?(placeholders_length _ _ Hl), ?Hl; try done.

Lemma comparison_sim d scope f1 f2 op v1 v2 :
  field_sim f1 f2 = true → value_sim v1 v2 = true →
  same_text (comparison d scope f1 op v1) (comparison d scope f2 op v2).
Proof.
  intros Hf Hv. unfold field_sim in Hf. apply orb_true_iff in Hf as [Hf|Hf].
  - apply str_eqb_true in Hf as <-. pose proof (value_sim_cases _ _ Hv) as Hc.
    unfold comparison. repeat case_match; try apply same_text_refl.
    + unfold compileTag. destruct Hc as [(s1&s2&->&->)|(l1&l2&->&->&Hl)];
        destruct d, op; try done; sim_solve Hl.
    + unfold mention. destruct (visibleObjects _ _). by destruct op.
    + unfold related. destruct (visibleObjects scope "e1.from_id"), (visibleObjects scope "e2.from_id").
      by destruct op.
    + unfold compileSimilar. by destruct op, d.
    + unfold compileClass. destruct Hc as [(s1&s2&->&->)|(l1&l2&->&->&Hl)]; destruct d, op; try done;
        (destruct l1 as [|x1 l1], l2 as [|x2 l2]; [done|done|done|]);
        cbn [compileClass mbind result_bind map same_text];
        rewrite (placeholders_length (x1 :: l1) (x2 :: l2) Hl); simpl in *;
        rewrite ?length_map; auto.
    + unfold compileMetadata. case_match; [done|]. by destruct d; apply compileColumn_sim.
    + by apply compileColumn_sim.
    + by apply compileColumn_sim.
  - apply andb_true_iff in Hf as [H1 H2]. unfold metadata_field in *.
    apply andb_true_iff in H1 as [H1 K1]. apply andb_true_iff in H2 as [H2 K2].
    assert (∀ f v, HasPrefix f metadataPrefix = true → metadataKeyPattern (TrimPrefix f metadataPrefix) = true →
      comparison d scope f op v = match d with
        | DialectPostgres => compileColumn "(metadata #>> ?::text[])" op v
            [VString ("{" +:+ ReplaceByte (TrimPrefix f metadataPrefix) "." "," +:+ "}")]
        | DialectSQLite => compileColumn "json_extract(metadata, ?)" op v
            [VString ("$." +:+ TrimPrefix f metadataPrefix)] end) as Heq.
    { intros f v Hp Hk. pose proof Hp as Hp'. apply HasPrefix_spec in Hp as [t ->].
      unfold comparison, compileMetadata. rewrite Hp', Hk. destruct d; reflexivity. }
    rewrite !Heq by done. by destruct d; apply compileColumn_sim.
Qed.

Definition same_parts (r1 r2 : result CompileError (list string * list Value)) : Prop :=
  match r1, r2 with
  | Ok (s1, a1), Ok (s2, a2) => s1 = s2 ∧ length a1 = length a2
  | Err e1, Err e2 => e1 = e2
  | _, _ => False
  end.

(** Children lists related pairwise. *)
Fixpoint nodes_sim (l1 l2 : list Node) : bool :=
  match l1, l2 with
  | [], [] => true
  | a :: l1', b :: l2' => node_sim a b && nodes_sim l1' l2'
  | _, _ => false
  end.

Lemma logicalLoop_sim f l1 l2 :
  Forall (λ n1, ∀ n2, node_sim n1 n2 = true → same_text (f n1) (f n2)) l1 →
  nodes_sim l1 l2 = true → same_parts (logicalLoop f l1) (logicalLoop f l2).
Proof.
  intros H. revert l2. induction H as [|n1 l1 Hn H IH]; intros [|n2 l2]; simpl; try done.
  intros [Hs Hl]%andb_true_iff. specialize (Hn _ Hs). specialize (IH _ Hl).
  destruct (f n1) as [[s1 a1]|], (f n2) as [[s2 a2]|]; simpl in *; try done.
  destruct Hn as [-> Ha].
  destruct (logicalLoop f l1) as [[p1 b1]|], (logicalLoop f l2) as [[p2 b2]|]; simpl in *; try done.
  destruct IH as [-> Hb]. rewrite !length_app. auto.
Qed.

Lemma logical_sim f l1 l2 op :
  same_parts (logicalLoop f l1) (logicalLoop f l2) → same_text (logical f l1 op) (logical f l2 op).
Proof.
  unfold logical. destruct (logicalLoop f l1) as [[? ?]|], (logicalLoop f l2) as [[? ?]|]; simpl; try done.
  by intros [-> ?].
Qed.

Lemma node_sim_text d scope n1 n2 :
  node_sim n1 n2 = true → same_text (node d scope n1) (node d scope n2).
Proof.
  revert n2. induction n1 as [f o v|l IH|l IH] using Node_ind'; intros [f2 o2 v2|l2|l2] H; try done.
  - cbn [node_sim] in H. apply andb_true_iff in H as [H Hv]. apply andb_true_iff in H as [Hf Ho].
    apply bool_decide_eq_true in Ho as <-. by apply comparison_sim.
  - apply logical_sim. by apply logicalLoop_sim.
  - apply logical_sim. by apply logicalLoop_sim.
Qed.

(** ** Compiling what [Parse] returns *)
Definition kind_error (e : CompileError) : bool :=
  match e with
  | InOutRequiresList | ClassRequiresString | ClassRequiresList | TagInRequiresList => true
  | _ => false
  end.

Lemma comparison_kind d scope f o v e :
  value_kind_ok o v = true → comparison d scope f o v = Err e → kind_error e = false.
Proof.
  unfold comparison, columnAliases, compileTag, mention, related, compileSimilar, compileClass,
    compileMetadata, compileColumn, visibleObjects.
  intros Hk H. destruct o, v; try done; simpl in H; repeat case_match; simplify_eq/=; done.
Qed.

Lemma logicalLoop_err f l e :
  logicalLoop f l = Err e → ∃ n, n ∈ l ∧ f n = Err e.
Proof.
  induction l as [|n l IH]; [done|]. simpl. intros H.
  apply bind_err_inv in H as [H|([s a] & _ & H)]; [exists n; split; [left|done]|].
  apply bind_err_inv in H as [H|([p b] & _ & H)]; [|done].
  destruct (IH H) as (m & Hm & He). exists m. split; [by right|done].
Qed.

Lemma node_kind d scope n e : wf_node n = true → node d scope n = Err e → kind_error e = false.
Proof.
  revert e. induction n as [f o v|l IH|l IH] using Node_ind'; intros e Hwf;
    cbn [wf_node node] in *; [by apply comparison_kind| |];
    apply andb_true_iff in Hwf as [_ Hwf]; rewrite forallb_forall' in Hwf;
    unfold logical; intros H; apply bind_err_inv in H as [H|([p a] & _ & H)]; try done;
    apply logicalLoop_err in H as (n & Hn & He); rewrite Forall_forall in IH; eapply IH; eauto.
Qed.

(** ** Properties *)

(** Every compiled query binds exactly as many arguments as its SQL has
    placeholders: in SQLite's form, and before renumbering in Postgres's, the
    number of [?] in the text is the number of arguments, for every AST, under
    any scope whose own predicate has that property. *)
Theorem CompileUnnumbered_placeholders d n scope sql args :
  scope_ok scope → CompileUnnumbered d n scope = Ok (sql, args) → count_char "?" sql = length args.
Proof. intros Hs H. apply node_ok in H as [H _]; done. Qed.

Definition sample_scope : Scope := mkScope "status = ? AND (type = ?)" [VString "active"; VString "idea"] true "prn_1".

Lemma sample_scope_ok : scope_ok (Some sample_scope).
Proof. intros sc [= <-]. split; literal. Qed.

Lemma CompileUnnumbered_placeholders_witness :
  ∃ sql args, CompileUnnumbered DialectPostgres (ComparisonNode "related" OpEq (VString "x")) (Some sample_scope)
    = Ok (sql, args) ∧ count_char "?" sql = 5 ∧ count_char "?" sql = length args.
Proof.
  eexists _, _. split; [vm_compute; reflexivity|]. split; [vm_compute; reflexivity|].
  eapply (CompileUnnumbered_placeholders DialectPostgres (ComparisonNode "related" OpEq (VString "x")) (Some sample_scope));
    [exact sample_scope_ok|vm_compute; reflexivity].
Defined.

(** The parentheses of every compiled query are balanced and never close
    more than they opened, so a predicate spliced between parentheses stays
    inside them: nothing a query says can escape the conjunct it is put in. *)
Theorem CompileUnnumbered_balanced d n scope sql args :
  scope_ok scope → CompileUnnumbered d n scope = Ok (sql, args) → balanced sql.
Proof. intros Hs H. apply node_ok in H as [_ H]; done. Qed.

Lemma CompileUnnumbered_balanced_witness :
  ∃ sql args, CompileUnnumbered DialectSQLite sample_node None = Ok (sql, args) ∧ balanced sql.
Proof.
  eexists _, _. split; [vm_compute; reflexivity|].
  eapply (CompileUnnumbered_balanced DialectSQLite sample_node None);
    [intros sc Hsc; discriminate Hsc|vm_compute; reflexivity].
Defined.

(** C14. The SQL text is independent of the query's values and metadata keys:
    two queries with the same connectives, columns and operators, equally long
    value lists, and any values and metadata keys whatever compile to the same
    text (or the same refusal) in either dialect and under the same scope; what
    differs travels as bound arguments only. *)
Theorem CompileScoped_no_injection d scope n1 n2 :
  node_sim n1 n2 = true → same_text (CompileScoped d n1 scope) (CompileScoped d n2 scope).
Proof.
  intros H. apply (node_sim_text d scope) in H. unfold CompileScoped, CompileUnnumbered.
  destruct (node d scope n1) as [[s1 a1]|], (node d scope n2) as [[s2 a2]|]; simpl in *; try done.
  by destruct H as [-> ?].
Qed.

Lemma CompileScoped_no_injection_witness :
  same_text
    (CompileScoped DialectPostgres (ComparisonNode "metadata.a" OpEq (VString "x")) None)
    (CompileScoped DialectPostgres (ComparisonNode "metadata.b" OpEq (VString "') OR (1 = 1")) None).
Proof. apply (CompileScoped_no_injection DialectPostgres None). vm_compute; reflexivity. Defined.

(** [rebindPostgres] numbers the placeholders consecutively from [$1] and
    leaves the rest of the text alone: its result is the text between the
    placeholders of its input joined by [$1], [$2], ..., one per bound
    argument. *)
Theorem CompileScoped_postgres_numbering n scope sql args :
  scope_ok scope → CompileScoped DialectPostgres n scope = Ok (sql, args) →
  ∃ segs, CompileUnnumbered DialectPostgres n scope = Ok (Join segs "?", args) ∧
          length segs = S (length args) ∧ sql = weave 1 segs.
Proof.
  intros Hs H. unfold CompileScoped in H. apply bind_ok_inv in H as ([s a] & Hc & H). simplify_eq.
  exists (SplitByte s "?"). split_and!.
  - rewrite Hc. do 2 f_equal. clear. induction s as [|c s IH]; [done|]. cbn [SplitByte].
    destruct (is_char c "?") eqn:Hq.
    + apply is_char_true in Hq as ->. destruct (SplitByte s "?") as [|x l] eqn:Hl;
        [by apply SplitByte_cons_nonempty in Hl|]. rewrite IH at 1. done.
    + destruct (SplitByte s "?") as [|x [|y l]] eqn:Hl; [by apply SplitByte_cons_nonempty in Hl| |];
        rewrite IH at 1; done.
  - rewrite length_SplitByte. apply node_ok in Hc as [Hc _]; [by rewrite Hc|done].
  - apply rebindFrom_weave.
Qed.

Lemma CompileScoped_postgres_numbering_witness :
  ∃ segs, CompileUnnumbered DialectPostgres sample_node None = Ok (Join segs "?",
      [VString "idea"; VString "personal"; VString "contact_details"; VString "{k}"; VString "it's"]) ∧
    length segs = 6.
Proof.
  edestruct (CompileScoped_postgres_numbering sample_node None) as (segs & H1 & H2 & _);
    [intros sc Hsc; discriminate Hsc|vm_compute; reflexivity|].
  exists segs. split; [exact H1|exact H2].
Defined.

(** On ASTs that [Parse] returns the compiler never refuses a value for its
    kind: the only compile errors of a parsed query are unknown fields,
    operators a field does not support, empty class lists and malformed
    metadata keys. *)
Theorem Parse_CompileScoped_errors input n d scope e :
  Parse input = Ok n → CompileScoped d n scope = Err e → kind_error e = false.
Proof.
  intros Hp H. apply Parse_wf_node in Hp. unfold CompileScoped, CompileUnnumbered in H.
  apply bind_err_inv in H as [H|([s a] & _ & H)]; [by eapply node_kind|done].
Qed.

Lemma Parse_CompileScoped_errors_witness :
  CompileScoped DialectSQLite (ComparisonNode "class" OpIn (VStrings [])) None = Err (ClassEmpty OpIn) ∧
  kind_error (ClassEmpty OpIn) = false.
Proof.
  split; [vm_compute; reflexivity|].
  apply (Parse_CompileScoped_errors "class=in=()" (ComparisonNode "class" OpIn (VStrings []))
    DialectSQLite None); vm_compute; reflexivity.
Defined.
