(* ===== verification/Objects.v ===== *)
(** * Knowledge objects

    The data model of [internal/storage/types.go]: an object, its parts and
    its intra-object graph.  A Go [any] (a metadata value) is an [Any]: what a
    step writes in memory or what decoding the stored JSON gives back.  Maps
    from strings are [gmap]s (a nil map reads as the empty one); times are
    integers (nanoseconds); a mention is carried by its URI text and a weight by
    its decimal text, the only things the modelled code reads of them. *)

From S2P Require Import Prelude GoStrings.

(** A dynamic value.  [AStrs] is a Go [[]string], [AList] a [[]any], [AMap] a
    [map[string]any], [AMaps] a [[]map[string]any], [AStruct] any other value that encodes as a JSON object,
    given by the fields of its encoding. *)
Inductive Any : Type :=
| ANil
| AStr (s : string)
| ABool (b : bool)
| ANum (decimal : string)
| AStrs (l : list string)
| AList (l : list Any)
| AMap (m : list (string * Any))
| AMaps (l : list (list (string * Any)))
| AStruct (fields : list (string * Any)).

(** [v.(string)]: [None] when the assertion fails. *)
Definition any_string (v : Any) : option string :=
  match v with AStr s => Some s | _ => None end.

Record Section_ : Type := mkSection {
  secTitle : string;
  secContent : string;
  secOrder : Z;
  secMetadata : gmap string Any;
}.

Record Tag : Type := mkTag { tagLabel : string; tagWeight : string; tagSource : string }.

Record Decision_ : Type := mkDecision { decTitle : string; decStatus : string; decImpact : string }.

Record Task : Type := mkTask { taskTitle : string; taskStatus : string }.

Record GraphNode : Type := mkGraphNode {
  gnID : string;
  gnNodeType : string;
  gnLabel : string;
  gnContent : string;
  gnOrder : Z;
  gnMetadata : gmap string Any;
}.

Record GraphEdge : Type := mkGraphEdge {
  geID : string;
  geFromID : string;
  geToID : string;
  geEdgeType : string;
  geWeight : string;
}.

Record ObjectGraph : Type := mkObjectGraph {
  ogNodes : list GraphNode;
  ogEdges : list GraphEdge;
}.

(** [KnowledgeObject], less the three fields that are never serialized
    ([Vectors], [BlobContent], [ChangeSeq]). *)
Record KnowledgeObject : Type := mkKO {
  koID : string;
  koType : string;
  koSubtype : string;
  koRawContent : string;
  koTextContent : string;
  koContentType : string;
  koMetadata : gmap string Any;
  koSummaries : list string;
  koSections : list Section_;
  koTags : list Tag;
  koMentions : list string;
  koDecisions : list Decision_;
  koTasks : list Task;
  koPipeline : string;
  koSource : string;
  koRegistryInfluences : list string;
  koContentHash : string;
  koSourceKey : string;
  koStatus : string;
  koInboxNote : string;
  koReinforcementCount : Z;
  koLastReinforcedAt : option Z;
  koRemindAt : option Z;
  koRemindedAt : option Z;
  koCreatedAt : Z;
  koUpdatedAt : Z;
  koFTSIndexed : bool;
  koProfileID : string;
  koClasses : list string;
  koAttachmentIDs : list string;
  koGraph : option ObjectGraph;
}.

(** [FindNode] *)
Definition FindNode (g : option ObjectGraph) (id : string) : option GraphNode :=
  g ← g; List.find (λ n, str_eqb (gnID n) id) (ogNodes g).
