(* ===== verification/Classes.v ===== *)
(** * Content classes

    Models [internal/storage/classes.go] (the class vocabulary of objects and
    graph nodes) and [internal/sharing/classes.go] (the rules that assign
    classes at ingest). *)

From S2P Require Import Prelude GoStrings Objects.

(** ** internal/storage/classes.go *)
Definition ClassPersonal : string := "personal".
Definition ClassContactDetails : string := "contact_details".
Definition NodeMetadataClasses : string := "classes".

(** [^[a-z][a-z0-9_-]{0,63}$] *)
Definition classNameChar (c : ascii) : bool :=
  is_lower c || is_digit c || is_char c "_" || is_char c "-".
Definition classNamePattern (s : string) : bool :=
  match_head_tail is_lower classNameChar s && (String.length s <=? 64).

Inductive ClassError : Type :=
| BadClassName (name : string)
| RuleWithoutMatcher
| InRule (i : nat) (e : ClassError).

Definition ValidateClassName (name : string) : result ClassError unit :=
  if negb (classNamePattern name) then Err (BadClassName name) else Ok tt.

(** nil and the empty slice are the same list here. *)
Definition NormalizeClasses (classes : list string) : list string :=
  let out := filter (λ c, c ≠ nostr) (map TrimSpace classes) in
  Compact (SortStrings out).

Definition NodeClasses (n : GraphNode) : list string :=
  match gnMetadata n !! NodeMetadataClasses with
  | Some (AStrs v) => NormalizeClasses v
  | Some (AList v) => NormalizeClasses (omap any_string v)
  | _ => []
  end.

Definition set_metadata (n : GraphNode) (m : gmap string Any) : GraphNode :=
  mkGraphNode (gnID n) (gnNodeType n) (gnLabel n) (gnContent n) (gnOrder n) m.

Definition SetNodeClasses (n : GraphNode) (classes : list string) : GraphNode :=
  match NormalizeClasses classes with
  | [] => set_metadata n (delete NodeMetadataClasses (gnMetadata n))
  | norm => set_metadata n (<[NodeMetadataClasses := AStrs norm]> (gnMetadata n))
  end.

(** ** internal/sharing/classes.go *)
Record ClassRule : Type := mkClassRule {
  crClass : string;
  crType : string;
  crSubtype : string;
  crSource : string;
  crProfile : string;
  crPipeline : string;
  crTag : string;
  crStructuredType : string;
}.

Definition StructuredPersonNote : string := "person_note".
Definition ProfilePersonal : string := "personal".
Definition metadataStructured : string := "enrichment.structured_metadata".

Definition DefaultClassRules : list ClassRule :=
  [mkClassRule ClassPersonal nostr nostr nostr nostr nostr nostr StructuredPersonNote;
   mkClassRule ClassPersonal nostr nostr nostr ProfilePersonal nostr nostr nostr].

Definition ClassRule_Validate (r : ClassRule) : result ClassError unit :=
  _ ← ValidateClassName (crClass r);
  if str_eqb (crType r) nostr && str_eqb (crSubtype r) nostr && str_eqb (crSource r) nostr &&
     str_eqb (crProfile r) nostr && str_eqb (crPipeline r) nostr && str_eqb (crTag r) nostr &&
     str_eqb (crStructuredType r) nostr
  then Err RuleWithoutMatcher
  else Ok tt.

Definition pipelineMatches (have want : string) : bool :=
  str_eqb have want || str_eqb (CutBefore have "@") (CutBefore want "@").

Definition hasTag (obj : KnowledgeObject) (label : string) : bool :=
  existsb (λ t, str_eqb (tagLabel t) label) (koTags obj).

(** Decoding a JSON object into [struct{ Type string `json:"type"` }]: every
    key that folds to [type] assigns it, [null] leaves it, and a value that is
    not a string fails the decoding. *)
Fixpoint decodeType (fields : list (string * Any)) (typ : string) : option string :=
  match fields with
  | [] => Some typ
  | (k, v) :: l =>
      if str_eqb (str_map lower_ascii k) "type" then
        match v with
        | AStr s => decodeType l s
        | ANil => decodeType l typ
        | _ => None
        end
      else decodeType l typ
  end.

Definition StructuredType (obj : KnowledgeObject) : string :=
  match koMetadata obj !! metadataStructured with
  | None | Some ANil => nostr
  | Some (AMap m) =>
      match list_to_map (M := gmap string Any) m !! "type" with
      | Some v => default nostr (any_string v)
      | None => nostr
      end
  | Some (AStruct fields) => default nostr (decodeType fields nostr)
  | Some _ => nostr
  end.

(** One guard of [Matches]: a set matcher whose test fails. *)
Definition refutes (want : string) (holds : bool) : bool := negb (str_eqb want nostr) && negb holds.

Definition Matches (r : ClassRule) (obj : option KnowledgeObject) : bool :=
  match obj with
  | None => false
  | Some obj =>
      if refutes (crType r) (str_eqb (koType obj) (crType r)) then false
      else if refutes (crSubtype r) (str_eqb (koSubtype obj) (crSubtype r)) then false
      else if refutes (crSource r) (str_eqb (koSource obj) (crSource r)) then false
      else if refutes (crProfile r) (str_eqb (koProfileID obj) (crProfile r)) then false
      else if refutes (crPipeline r) (pipelineMatches (koPipeline obj) (crPipeline r)) then false
      else if refutes (crTag r) (hasTag obj (crTag r)) then false
      else if refutes (crStructuredType r) (str_eqb (StructuredType obj) (crStructuredType r)) then false
      else true
  end.

Definition ApplyClassRules (rules : list ClassRule) (obj : option KnowledgeObject) : list string :=
  match obj with
  | None => []
  | Some o =>
      NormalizeClasses (koClasses o ++ map crClass (filter (λ r, Matches r obj = true) rules))
  end.

Fixpoint validateRulesFrom (i : nat) (rules : list ClassRule) : result ClassError unit :=
  match rules with
  | [] => Ok tt
  | r :: l => _ ← map_err (InRule i) (ClassRule_Validate r); validateRulesFrom (S i) l
  end.
Definition ValidateClassRules (rules : list ClassRule) : result ClassError unit := validateRulesFrom 0 rules.

(** ** Lemmas *)
(** [Compact] of a sorted list is strictly sorted: it has no duplicate. *)
Lemma Compact_sorted l :
  StronglySorted String.le l → StronglySorted String.le (Compact l) ∧ NoDup (Compact l).
Proof.
  induction l as [|a [|b l] IH]; intros H.
  - split; [constructor|apply NoDup_nil_2].
  - split; [done|apply NoDup_singleton].
  - apply StronglySorted_cons in H as [Ha Hs]. destruct (IH Hs) as [IH1 IH2].
    change (Compact (a :: b :: l)) with
      (if bool_decide (a = b) then Compact (b :: l) else a :: Compact (b :: l)).
    case_bool_decide as Hab; [by split|]. rewrite Forall_forall in Ha. split.
    + apply StronglySorted_cons. split; [|done]. apply Forall_forall.
      intros x Hx. apply Ha. by apply (elem_of_Compact x (b :: l)).
    + apply NoDup_cons. split; [|done]. intros Hin. rewrite elem_of_Compact in Hin.
      apply Hab. apply (anti_symm String.le); [apply Ha; set_solver|].
      apply StronglySorted_cons in Hs as [Hb _]. rewrite Forall_forall in Hb.
      apply elem_of_cons in Hin as [->|Hin]; [done|by apply Hb].
Qed.

Lemma Compact_NoDup (l : list string) : NoDup l → Compact l = l.
Proof.
  induction l as [|a [|b l] IH]; intros H; [done..|].
  change (Compact (a :: b :: l)) with
    (if bool_decide (a = b) then Compact (b :: l) else a :: Compact (b :: l)).
  apply NoDup_cons in H as [Ha H]. rewrite bool_decide_false by set_solver. by rewrite IH.
Qed.

Lemma elem_of_NormalizeClasses c l :
  c ∈ NormalizeClasses l ↔ c ≠ nostr ∧ ∃ x, x ∈ l ∧ c = TrimSpace x.
Proof.
  unfold NormalizeClasses. rewrite elem_of_Compact, SortStrings_perm, list_elem_of_filter.
  change (map TrimSpace l) with (TrimSpace <$> l). rewrite list_elem_of_fmap. naive_solver.
Qed.

Lemma NormalizeClasses_sorted l :
  StronglySorted String.le (NormalizeClasses l) ∧ NoDup (NormalizeClasses l).
Proof. apply Compact_sorted, SortStrings_sorted. Qed.

(** Normalized lists are determined by their members. *)
Lemma NormalizeClasses_ext l k :
  (∀ c, c ∈ NormalizeClasses l ↔ c ∈ NormalizeClasses k) → NormalizeClasses l = NormalizeClasses k.
Proof.
  intros H. destruct (NormalizeClasses_sorted l), (NormalizeClasses_sorted k).
  apply (StronglySorted_unique String.le); [done..|]. by apply NoDup_Permutation.
Qed.

Lemma NormalizeClasses_normal l : NormalizeClasses (NormalizeClasses l) = NormalizeClasses l.
Proof.
  apply NormalizeClasses_ext. intros c. rewrite elem_of_NormalizeClasses. split.
  - intros (Hc & x & Hx & ->). apply elem_of_NormalizeClasses in Hx as (Hx & y & Hy & ->).
    apply elem_of_NormalizeClasses. rewrite TrimSpace_idemp in *. eauto.
  - intros H. pose proof H as (Hc & x & Hx & ->)%elem_of_NormalizeClasses. split; [done|].
    exists (TrimSpace x). by rewrite TrimSpace_idemp.
Qed.

Lemma NormalizeClasses_app l k c :
  c ∈ NormalizeClasses (l ++ k) ↔ c ∈ NormalizeClasses l ∨ c ∈ NormalizeClasses k.
Proof. rewrite !elem_of_NormalizeClasses. set_solver. Qed.

Lemma NormalizeClasses_nil : NormalizeClasses [] = [].
Proof. done. Qed.

Lemma SortStrings_nil l : SortStrings l = [] → l = [].
Proof. intros H. pose proof (SortStrings_perm l) as Hp. rewrite H in Hp. by apply Permutation_nil_l in Hp. Qed.

Lemma NodeClasses_normal n : NormalizeClasses (NodeClasses n) = NodeClasses n.
Proof. unfold NodeClasses. repeat case_match; auto using NormalizeClasses_normal. Qed.

Lemma refutes_false want holds : refutes want holds = false ↔ (want ≠ nostr → holds = true).
Proof.
  unfold refutes, str_eqb. case_bool_decide; destruct holds; naive_solver.
Qed.

(** A trimmed non-empty class name is its own normal form. *)
Lemma valid_class_trimmed c : ValidateClassName c = Ok tt → c ≠ nostr.
Proof. unfold ValidateClassName, classNamePattern. by destruct c. Qed.

(** ** Properties *)

(** [NormalizeClasses] returns a canonical form: sorted without duplicates
    or empty entries, holding exactly the trimmed entries of its input; two
    lists with the same non-empty trimmed entries normalize to the same list,
    and normalizing again changes nothing. *)
Theorem NormalizeClasses_canonical l k :
  StronglySorted String.le (NormalizeClasses l) ∧ NoDup (NormalizeClasses l) ∧
  (∀ c, c ∈ NormalizeClasses l ↔ c ≠ nostr ∧ ∃ x, x ∈ l ∧ c = TrimSpace x) ∧
  NormalizeClasses (NormalizeClasses l) = NormalizeClasses l ∧
  ((∀ c, c ≠ nostr → c ∈ map TrimSpace l ↔ c ∈ map TrimSpace k) ↔
   NormalizeClasses l = NormalizeClasses k).
Proof.
  split_and!; [apply NormalizeClasses_sorted|apply NormalizeClasses_sorted|
               intros; apply elem_of_NormalizeClasses|apply NormalizeClasses_normal|].
  assert (Hm : ∀ c m, c ∈ map TrimSpace m ↔ ∃ x, x ∈ m ∧ c = TrimSpace x).
  { intros c m. change (map TrimSpace m) with (TrimSpace <$> m). rewrite list_elem_of_fmap. naive_solver. }
  split; intros H.
  - apply NormalizeClasses_ext. intros c. rewrite !elem_of_NormalizeClasses, <- !Hm. naive_solver.
  - intros c Hc. rewrite !Hm. transitivity (c ∈ NormalizeClasses l).
    + rewrite elem_of_NormalizeClasses. naive_solver.
    + rewrite H, elem_of_NormalizeClasses. naive_solver.
Qed.

(** Writing a node's classes and reading them back gives their normal form,
    and writing touches no other metadata key and no other field of the node. *)
Theorem NodeClasses_SetNodeClasses n classes :
  NodeClasses (SetNodeClasses n classes) = NormalizeClasses classes ∧
  (∀ k, k ≠ NodeMetadataClasses → gnMetadata (SetNodeClasses n classes) !! k = gnMetadata n !! k) ∧
  gnID (SetNodeClasses n classes) = gnID n ∧ gnContent (SetNodeClasses n classes) = gnContent n ∧
  gnLabel (SetNodeClasses n classes) = gnLabel n ∧ gnNodeType (SetNodeClasses n classes) = gnNodeType n.
Proof.
  unfold SetNodeClasses. destruct (NormalizeClasses classes) as [|c l] eqn:E; simpl.
  - split_and!; [|intros k Hk; by rewrite lookup_delete_ne by congruence|done..].
    unfold NodeClasses. simpl. by rewrite lookup_delete_eq.
  - split_and!; [|intros k Hk; by rewrite lookup_insert_ne by congruence|done..].
    unfold NodeClasses. simpl. rewrite lookup_insert_eq, <- E. apply NormalizeClasses_normal.
Qed.

(** A class rule matches an object exactly when every matcher it sets holds
    of it: type, subtype, source and profile by equality, the pipeline up to an
    [@vN] suffix, the tag by any of the object's labels, the structured type by
    the one the structured-metadata step assigned. *)
Theorem Matches_spec r obj :
  Matches r (Some obj) = true ↔
    (crType r ≠ nostr → koType obj = crType r) ∧
    (crSubtype r ≠ nostr → koSubtype obj = crSubtype r) ∧
    (crSource r ≠ nostr → koSource obj = crSource r) ∧
    (crProfile r ≠ nostr → koProfileID obj = crProfile r) ∧
    (crPipeline r ≠ nostr → koPipeline obj = crPipeline r ∨
       CutBefore (koPipeline obj) "@" = CutBefore (crPipeline r) "@") ∧
    (crTag r ≠ nostr → ∃ t, t ∈ koTags obj ∧ tagLabel t = crTag r) ∧
    (crStructuredType r ≠ nostr → StructuredType obj = crStructuredType r).
Proof.
  assert (Hb : ∀ a b c d e f g : bool,
    (if a then false else if b then false else if c then false else if d then false
     else if e then false else if f then false else if g then false else true) = true ↔
    a = false ∧ b = false ∧ c = false ∧ d = false ∧ e = false ∧ f = false ∧ g = false)
    by (intros; repeat case_match; naive_solver).
  unfold Matches. rewrite Hb, !refutes_false. unfold pipelineMatches, hasTag.
  rewrite orb_true_iff, !str_eqb_true, existsb_exists'. by setoid_rewrite str_eqb_true.
Qed.

(** Applying class rules returns the object's own classes and the class of
    every matching rule, normalized: a class is assigned exactly when the object
    carries it or some matching rule names it, so nothing the object carried is
    lost. *)
Theorem ApplyClassRules_spec rules obj c :
  c ∈ ApplyClassRules rules (Some obj) ↔
    c ≠ nostr ∧ ((∃ x, x ∈ koClasses obj ∧ c = TrimSpace x) ∨
                 (∃ r, r ∈ rules ∧ Matches r (Some obj) = true ∧ c = TrimSpace (crClass r))).
Proof.
  unfold ApplyClassRules. rewrite elem_of_NormalizeClasses.
  change (map crClass) with (fmap (M := list) crClass).
  setoid_rewrite elem_of_app. setoid_rewrite list_elem_of_fmap. setoid_rewrite list_elem_of_filter.
  naive_solver.
Qed.
