(* ===== verification/StorageScope.v ===== *)
(** * Viewer scopes and the sharing registry's rules

    Models [internal/storage/scope.go] and the parts of
    [internal/storage/sharing.go] that decide: when a membership or a grant is
    in force, and which names audiences and policies may have.  [storage.Viewer]
    is an interface; here it is a class of operations, of which the compiled
    viewers of file PolicyCompile are an instance. *)

From S2P Require Import Prelude GoStrings RsqlLexer RsqlCompiler RsqlSafety.

Definition SQLDialectSQLite : string := "sqlite".
Definition SQLDialectPostgres : string := "postgres".

Definition CapabilityEntities : string := "entities".
Definition CapabilityExport : string := "export".
Definition CapabilityMCP : string := "mcp".
Definition CapabilityEvents : string := "events".
Definition CapabilitySearchPrefix : string := "search:".

Definition ObjectStatusActive : string := "active".

(** [storage.Viewer] *)
Class StorageViewer (V : Type) : Type := {
  IsUnrestricted : V → bool;
  PrincipalID : V → string;
  ObjectPredicate : V → string → Compiled;
  Allows : V → string → bool;
}.

Definition matchNothing : string := "(1 = 0)".

(** [ViewerScope]: [None] is the second result being false. *)
Definition ViewerScope `{StorageViewer V} (v : option V) (dialect : string) : option Scope :=
  match v with
  | None => None
  | Some v =>
      if IsUnrestricted v then None
      else
        let '(pred, args) :=
          let '(pred, args) := ObjectPredicate v dialect in
          if str_eqb pred nostr then (matchNothing, []) else (pred, args) in
        Some (mkScope ("status = ? AND (" +:+ pred +:+ ")") (VString ObjectStatusActive :: args)
                (Allows v CapabilityEntities) (PrincipalID v))
  end.

(** ** internal/storage/sharing.go *)
Record AudienceMember : Type := mkAudienceMember {
  amAudienceID : string;
  amPrincipalID : string;
  amExpiresAt : option Z;
  amAddedBy : string;
  amAddedAt : Z;
}.

(** [x.After(now)] of an optional expiry: unset never expires. *)
Definition member_ActiveAt (m : option AudienceMember) (now : Z) : bool :=
  match m with
  | None => false
  | Some m => match amExpiresAt m with None => true | Some t => (now <? t)%Z end
  end.

Record ShareGrant : Type := mkShareGrant {
  sgID : string;
  sgAudienceID : string;
  sgPolicyID : string;
  sgExpiresAt : option Z;
  sgCreatedBy : string;
  sgCreatedAt : Z;
  sgRevokedAt : option Z;
}.

Definition grant_ActiveAt (g : option ShareGrant) (now : Z) : bool :=
  match g with
  | None => false
  | Some g =>
      match sgRevokedAt g with Some _ => false | None => true end &&
      match sgExpiresAt g with None => true | Some t => (now <? t)%Z end
  end.

(** [^[a-z0-9][a-z0-9._-]{0,63}$] *)
Definition sharingNameHead (c : ascii) : bool := is_lower c || is_digit c.
Definition sharingNameChar (c : ascii) : bool :=
  is_lower c || is_digit c || is_char c "." || is_char c "_" || is_char c "-".
Definition sharingNamePattern (s : string) : bool :=
  match_head_tail sharingNameHead sharingNameChar s && (String.length s <=? 64).
Definition ValidateSharingName (name : string) : bool := sharingNamePattern name.

(** ** Properties *)

Section viewer_scope.
Context `{StorageViewer V}.

Lemma ViewerScope_shape (v : V) dialect sc :
  ViewerScope (Some v) dialect = Some sc →
  IsUnrestricted v = false ∧
  ∃ pred args, scSQL sc = "status = ? AND (" +:+ pred +:+ ")" ∧ scArgs sc = VString ObjectStatusActive :: args ∧
    (ObjectPredicate v dialect = (pred, args) ∧ pred ≠ nostr ∨
     (ObjectPredicate v dialect).1 = nostr ∧ pred = matchNothing ∧ args = []).
Proof.
  unfold ViewerScope. destruct (IsUnrestricted v); [done|].
  destruct (ObjectPredicate v dialect) as [p a] eqn:E. unfold str_eqb.
  case_bool_decide as Hp; intros [= <-]; (split; [done|]); eexists _, _; split_and!; eauto.
Qed.
End viewer_scope.

(** A scope always pins the viewer to active objects, whatever its
    predicate says: the text is [status = ? AND (...)] with [active] bound first,
    the viewer's own predicate stays inside the parentheses, an empty predicate
    becomes one no row satisfies, and exactly the nil and the unrestricted
    viewer have no scope. *)
Theorem ViewerScope_pins_active {V : Type} `{StorageViewer V} (v : option V) dialect :
  (ViewerScope v dialect = None ↔ v = None ∨ ∃ w, v = Some w ∧ IsUnrestricted w = true) ∧
  (∀ sc, ViewerScope v dialect = Some sc →
    ∃ w pred args, v = Some w ∧
      scSQL sc = "status = ? AND (" +:+ pred +:+ ")" ∧ scArgs sc = VString ObjectStatusActive :: args ∧
      scEntities sc = Allows w CapabilityEntities ∧ scPrincipal sc = PrincipalID w ∧
      (pred, args) = if str_eqb (ObjectPredicate w dialect).1 nostr then (matchNothing, [])
                     else ObjectPredicate w dialect).
Proof.
  split.
  - unfold ViewerScope. destruct v as [w|]; [|naive_solver]. destruct (IsUnrestricted w) eqn:E; [naive_solver|].
    destruct (ObjectPredicate w dialect) as [p a].
    assert (¬ (Some w = None ∨ ∃ w0, Some w = Some w0 ∧ IsUnrestricted w0 = true))
      by (intros [?|(w0 & [= <-] & ?)]; congruence).
    destruct (str_eqb p nostr); split; [done|by intros|done|by intros].
  - intros sc Hsc. destruct v as [w|]; [|done]. exists w. unfold ViewerScope in Hsc.
    destruct (IsUnrestricted w); [done|]. destruct (ObjectPredicate w dialect) as [p a]. cbn [fst].
    unfold str_eqb in *. case_bool_decide; injection Hsc as <-; eexists _, _; split_and!; done.
Qed.

(** A membership or a grant never comes back into force: in force at a
    moment it was in force at every earlier one, a revoked grant is never in
    force, and one with an expiry is not from that instant on. *)
Theorem ActiveAt_expires g m t1 t2 :
  (t1 ≤ t2)%Z →
  (grant_ActiveAt (Some g) t2 = true → grant_ActiveAt (Some g) t1 = true) ∧
  (member_ActiveAt (Some m) t2 = true → member_ActiveAt (Some m) t1 = true) ∧
  (∀ r, sgRevokedAt g = Some r → grant_ActiveAt (Some g) t1 = false) ∧
  (∀ e, sgExpiresAt g = Some e → (e ≤ t1)%Z → grant_ActiveAt (Some g) t2 = false) ∧
  (∀ e, amExpiresAt m = Some e → (e ≤ t1)%Z → member_ActiveAt (Some m) t2 = false).
Proof.
  intros Ht. unfold grant_ActiveAt, member_ActiveAt.
  destruct (sgRevokedAt g), (sgExpiresAt g), (amExpiresAt m); simpl;
    rewrite ?Z.ltb_lt, ?Z.ltb_ge; (split_and!; intros; simplify_eq; try done; lia).
Qed.

Lemma ActiveAt_expires_witness :
  grant_ActiveAt (Some (mkShareGrant "grt_1" "aud_1" "pol_1" (Some 10%Z) "prn_1" 0%Z None)) 12%Z = false.
Proof.
  destruct (ActiveAt_expires (mkShareGrant "grt_1" "aud_1" "pol_1" (Some 10%Z) "prn_1" 0%Z None)
    (mkAudienceMember "aud_1" "prn_1" None "prn_0" 0%Z) 11%Z 12%Z) as (_ & _ & _ & H & _); [lia|].
  apply (H 10%Z); [reflexivity|lia].
Defined.
