(* ===== verification/Policy.v ===== *)
(** * Share policies

    Models [internal/sharing/policy.go]: the policy record, its validation (a
    list of every problem, as [errors.Join] collects them), the check of its
    data filter, and the fields it renders per type.  Go ranges over the fields
    map in no fixed order; [Validate] here reports its problems in the map's
    enumeration order. *)

From S2P Require Import Prelude GoStrings RsqlLexer RsqlParser RsqlCompiler Classes StorageScope.

Record Redact : Type := mkRedact {
  rdMask : list string;
  rdReveal : list string;
  rdStyle : string;
}.

Record Capabilities : Type := mkCapabilities {
  capSearch : list string;
  capEntities : bool;
  capExport : bool;
  capMCP : bool;
  capEvents : bool;
}.

Record Policy : Type := mkPolicy {
  polName : string;
  polVersion : Z;
  polData : string;
  polExcludeClasses : list string;
  polFields : gmap string (list string);
  polRedact : Redact;
  polCapabilities : Capabilities;
}.

Definition RedactCategory : string := "category".
Definition RedactPartial : string := "partial".

Definition SearchModes : list string := ["graph"; "fts"; "vector"; "rsql"].

Definition PolicyFields : list string :=
  ["type"; "subtype"; "tag"; "profile"; "class"; "source"; "created_at"; "updated_at"].

Definition crossObjectFields (f : string) : bool := str_eqb f "mention" || str_eqb f "related".

Definition metadataFieldPrefix : string := "metadata.".

(** [FieldAll] of [internal/sharing/fields.go] *)
Definition FieldAll : string := "*".

(** [^[a-z][a-z0-9_]*$] *)
Definition fieldNamePattern (s : string) : bool :=
  match_head_tail is_lower (λ c, is_lower c || is_digit c || is_char c "_") s.
(** A star, or [^[a-z][a-z0-9_.-]*$] *)
Definition typeNamePattern (s : string) : bool :=
  str_eqb s "*" ||
  match_head_tail is_lower
    (λ c, is_lower c || is_digit c || is_char c "_" || is_char c "." || is_char c "-") s.
(** [^[a-z][a-z0-9_]*$] *)
Definition categoryPattern (s : string) : bool := fieldNamePattern s.

Inductive PolicyError : Type :=
| BadPolicyName (name : string)
| EmptyData
| DataParse (e : ParseError)
| CrossObjectField (f : string)
| FieldNotAllowed (f : string)
| DataCompile (e : CompileError)
| BadExcludeClass (e : ClassError)
| BadFieldType (typ : string)
| NoFields (typ : string)
| FieldAllNotAlone (typ : string)
| BadField (typ f : string)
| BadRedactStyle (s : string)
| BadCategory (what c : string)
| BadSearchMode (m : string)
| NilPolicyRow
| BadSpec (name : string).

(** [checkPolicyFields] and [checkChildren] *)
Fixpoint checkPolicyFields (n : Node) : result PolicyError unit :=
  match n with
  | ComparisonNode f _ _ =>
      if crossObjectFields f then Err (CrossObjectField f)
      else if contains PolicyFields f || HasPrefix f metadataFieldPrefix then Ok tt
      else Err (FieldNotAllowed f)
  | AndNode l | OrNode l => for_each checkPolicyFields l
  end.

Definition DataNode (p : Policy) : result PolicyError Node :=
  if str_eqb (TrimSpace (polData p)) nostr then Err EmptyData
  else
    node ← map_err DataParse (Parse (polData p));
    _ ← checkPolicyFields node;
    _ ← for_each (λ d, map_err DataCompile (CompileFor d node) ≫= λ _, Ok tt) [DialectSQLite; DialectPostgres];
    Ok node.

Definition errs_of {A} (m : result PolicyError A) : list PolicyError :=
  match m with Ok _ => [] | Err e => [e] end.

Definition validateFields (p : Policy) : list PolicyError :=
  collect (λ '(typ, fields),
    (if negb (typeNamePattern typ) then [BadFieldType typ] else []) ++
    (if bool_decide (fields = []) then [NoFields typ] else []) ++
    collect (λ f,
      if str_eqb f FieldAll then
        if negb (length fields =? 1) then [FieldAllNotAlone typ] else []
      else if negb (fieldNamePattern f) then [BadField typ f] else []) fields)
    (map_to_list (polFields p)).

Definition Redact_validate (r : Redact) : list PolicyError :=
  (if str_eqb (rdStyle r) nostr || str_eqb (rdStyle r) RedactCategory || str_eqb (rdStyle r) RedactPartial
   then [] else [BadRedactStyle (rdStyle r)]) ++
  collect (λ '(name, cats),
    collect (λ c, if negb (categoryPattern c) then [BadCategory name c] else []) cats)
    [("mask", rdMask r); ("reveal", rdReveal r)].

Definition Capabilities_validate (c : Capabilities) : list PolicyError :=
  collect (λ m, if negb (contains SearchModes m) then [BadSearchMode m] else []) (capSearch c).

(** The empty list is the nil error. *)
Definition Validate (p : Policy) : list PolicyError :=
  (if ValidateSharingName (polName p) then [] else [BadPolicyName (polName p)]) ++
  errs_of (DataNode p) ++
  collect (λ c, match ValidateClassName c with Ok _ => [] | Err e => [BadExcludeClass e] end)
    (polExcludeClasses p) ++
  validateFields p ++ Redact_validate (polRedact p) ++ Capabilities_validate (polCapabilities p).

(** A stored policy row.  [spSpec] is the strict decoding of the row's JSON
    spec, [None] where decoding fails. *)
Record SharePolicy : Type := mkSharePolicy {
  spID : string;
  spName : string;
  spVersion : Z;
  spSpec : option Policy;
}.

Inductive FromSpecError : Type := SpecError (e : PolicyError) | SpecInvalid (errs : list PolicyError).

Definition PolicyFromSpec (row : option SharePolicy) : result FromSpecError Policy :=
  match row with
  | None => Err (SpecError NilPolicyRow)
  | Some row =>
      match spSpec row with
      | None => Err (SpecError (BadSpec (spName row)))
      | Some p =>
          let p := mkPolicy (spName row) (spVersion row) (polData p) (polExcludeClasses p)
                     (polFields p) (polRedact p) (polCapabilities p) in
          match Validate p with [] => Ok p | errs => Err (SpecInvalid errs) end
      end
  end.

(** [FieldsFor]: a type's own entry, else the [*] entry, else none. *)
Definition fieldsFor (fields : gmap string (list string)) (typ : string) : list string :=
  match fields !! typ with
  | Some f => f
  | None => default [] (fields !! "*")
  end.
Definition Policy_FieldsFor (p : Policy) (typ : string) : list string := fieldsFor (polFields p) typ.

(** ** Lemmas *)

(** The fields a policy may filter by, read off the whole filter. *)
Definition policy_field (f : string) : bool :=
  negb (crossObjectFields f) && (contains PolicyFields f || HasPrefix f metadataFieldPrefix).

Fixpoint node_fields (n : Node) : list string :=
  match n with
  | ComparisonNode f _ _ => [f]
  | AndNode l | OrNode l => concat (map node_fields l)
  end.

Lemma Forall_concat' {A B} (P : B → Prop) (f : A → list B) l :
  Forall P (concat (map f l)) ↔ Forall (λ x, Forall P (f x)) l.
Proof. induction l as [|x l IH]; simpl; [split; constructor|]. by rewrite Forall_app, Forall_cons, IH. Qed.

Lemma checkPolicyFields_ok n :
  checkPolicyFields n = Ok tt ↔ Forall (λ f, policy_field f = true) (node_fields n).
Proof.
  assert (Hl : ∀ l, Forall (λ n, checkPolicyFields n = Ok tt ↔ Forall (λ f, policy_field f = true) (node_fields n)) l →
    for_each checkPolicyFields l = Ok tt ↔ Forall (λ f, policy_field f = true) (concat (map node_fields l))).
  { intros l IH. rewrite for_each_ok, Forall_concat', !Forall_forall. rewrite Forall_forall in IH.
    split; intros H x Hx; apply (IH x Hx), (H x Hx). }
  induction n as [f o v|l IH|l IH] using Node_ind'; [|by apply Hl..].
  simpl. rewrite Forall_singleton. unfold policy_field.
  destruct (crossObjectFields f); [done|]. simpl. by case_match.
Qed.

Lemma node_fields_child l n P :
  Forall P (concat (map node_fields l)) → n ∈ l → Forall P (node_fields n).
Proof. rewrite Forall_concat', Forall_forall. auto. Qed.

Lemma logicalLoop_ext f g l : (∀ n, n ∈ l → f n = g n) → logicalLoop f l = logicalLoop g l.
Proof.
  induction l as [|n l IH]; intros H; simpl; [done|]. rewrite (H n) by set_solver.
  by rewrite IH by set_solver.
Qed.

(** A node over policy fields compiles the same whatever the scope: it reads
    its own row only. *)
Lemma node_scope_irrelevant d sc1 sc2 n :
  Forall (λ f, policy_field f = true) (node_fields n) → node d sc1 n = node d sc2 n.
Proof.
  induction n as [f o v|l IH|l IH] using Node_ind'; intros H.
  - simpl in *. rewrite Forall_singleton in H. unfold policy_field, crossObjectFields in H.
    apply andb_true_iff in H as [H _]. apply negb_true_iff, orb_false_iff in H as [H1 H2].
    unfold comparison. by rewrite H1, H2.
  - cbn [node]. unfold logical. rewrite (logicalLoop_ext _ (node d sc2)); [done|].
    intros n Hn. rewrite Forall_forall in IH. eapply IH; [done|]. by eapply node_fields_child.
  - cbn [node]. unfold logical. rewrite (logicalLoop_ext _ (node d sc2)); [done|].
    intros n Hn. rewrite Forall_forall in IH. eapply IH; [done|]. by eapply node_fields_child.
Qed.

Lemma DataNode_inv p n :
  DataNode p = Ok n →
  Parse (polData p) = Ok n ∧ Forall (λ f, policy_field f = true) (node_fields n) ∧
  ∀ d, ∃ c, CompileFor d n = Ok c.
Proof.
  unfold DataNode. destruct (str_eqb _ _); [done|]. intros H. inv_ok.
  destruct a0. apply checkPolicyFields_ok in Ha0.
  assert (∀ d, ∃ c, CompileFor d n = Ok c); [|by auto]. destruct a1.
  apply for_each_ok in Ha1. inversion Ha1 as [|? ? H1 Ha2]; subst. inversion Ha2 as [|? ? H2 _]; subst.
  intros []; [apply bind_ok_inv in H1 as (c & Hc & _)|apply bind_ok_inv in H2 as (c & Hc & _)];
    apply map_err_ok_inv in Hc; eauto.
Qed.

Lemma node_ok_unnumbered d n sc c : CompileScoped d n sc = Ok c → ∃ c', CompileUnnumbered d n sc = Ok c'.
Proof. unfold CompileScoped. intros H. inv_ok. eauto. Qed.

Lemma collect_nil {A E} (f : A → list E) l : collect f l = [] ↔ Forall (λ x, f x = []) l.
Proof.
  unfold collect. induction l as [|x l IH]; simpl; [split; constructor|].
  rewrite Forall_cons, <- IH. destruct (f x); simpl; naive_solver.
Qed.

Lemma if_nil {E} (b : bool) (e : E) : (if b then [e] else []) = [] ↔ b = false.
Proof. by destruct b. Qed.

Lemma app_nil_iff {A} (l k : list A) : l ++ k = [] ↔ l = [] ∧ k = [].
Proof. destruct l; naive_solver. Qed.

(** One entry of the fields map is well formed. *)
Definition field_entry_ok (typ : string) (fields : list string) : Prop :=
  typeNamePattern typ = true ∧ fields ≠ [] ∧
  (fields = [FieldAll] ∨ Forall (λ f, fieldNamePattern f = true) fields).

Lemma FieldAll_no_name : fieldNamePattern FieldAll = false.
Proof. done. Qed.

Lemma validateFields_entry typ fields :
  (if negb (typeNamePattern typ) then [BadFieldType typ] else []) ++
    (if bool_decide (fields = []) then [NoFields typ] else []) ++
    collect (λ f,
      if str_eqb f FieldAll then
        if negb (length fields =? 1) then [FieldAllNotAlone typ] else []
      else if negb (fieldNamePattern f) then [BadField typ f] else []) fields = [] ↔
  field_entry_ok typ fields.
Proof.
  unfold field_entry_ok. rewrite !app_nil_iff, !if_nil, negb_false_iff, bool_decide_eq_false, collect_nil.
  split; (intros (H1 & H2 & H3); split_and!; [done|done|]).
  - destruct (decide (FieldAll ∈ fields)) as [Hin|Hin].
    + rewrite Forall_forall in H3. pose proof (H3 _ Hin) as H. rewrite str_eqb_refl in H.
      apply if_nil, negb_false_iff, Nat.eqb_eq in H.
      destruct fields as [|f [|]]; [done| |done]. left. rewrite list_elem_of_singleton in Hin. by subst.
    + right. apply Forall_forall. intros f Hf. rewrite Forall_forall in H3.
      pose proof (H3 _ Hf) as H. unfold str_eqb in H. rewrite bool_decide_false in H by congruence.
      by apply if_nil, negb_false_iff in H.
  - destruct H3 as [->|H3]; [by repeat constructor|]. eapply Forall_impl; [exact H3|]. simpl. intros f Hf.
    unfold str_eqb. case_bool_decide as He; [subst f; by rewrite FieldAll_no_name in Hf|]. by rewrite Hf.
Qed.

Lemma validateFields_nil p :
  validateFields p = [] ↔ ∀ typ fields, polFields p !! typ = Some fields → field_entry_ok typ fields.
Proof.
  unfold validateFields. rewrite collect_nil, Forall_forall. split.
  - intros H typ fields Hl. apply elem_of_map_to_list in Hl. apply (H _) in Hl.
    by apply validateFields_entry.
  - intros H [typ fields] Hl. apply elem_of_map_to_list in Hl. by apply validateFields_entry, H.
Qed.

(** ** Properties *)

(** A policy's filter decides each object by its own row: whatever
    [DataNode] accepts parses, compares only fields a policy may use, compiles
    for both dialects, and compiles to the same SQL and arguments under every
    scope, since no accepted filter reaches across objects through the edges
    table. *)
Theorem DataNode_row_local p n :
  DataNode p = Ok n →
  Parse (polData p) = Ok n ∧ Forall (λ f, policy_field f = true) (node_fields n) ∧
  (∀ d, ∃ c, CompileFor d n = Ok c ∧ ∀ sc, CompileScoped d n sc = Ok c).
Proof.
  intros (Hp & Hf & Hc)%DataNode_inv. split_and!; [done..|]. intros d.
  destruct (Hc d) as [c Hd]. exists c. split; [done|]. intros sc. rewrite <- Hd.
  unfold CompileFor, CompileScoped, CompileUnnumbered. by rewrite (node_scope_irrelevant d sc None).
Qed.

Definition sample_policy : Policy :=
  mkPolicy "colleagues" 3 "profile==work;metadata.team=in=(core,infra)" ["personal"]
    {["*" := ["title"; "summary"]; "contact" := ["org"; "role"]]}
    (mkRedact [] [] nostr) (mkCapabilities ["fts"] true false false false).

Lemma DataNode_row_local_witness :
  ∃ n, DataNode sample_policy = Ok n ∧
       Forall (λ f, policy_field f = true) (node_fields n).
Proof.
  eexists. split; [vm_compute; reflexivity|].
  eapply (DataNode_row_local sample_policy); vm_compute; reflexivity.
Defined.

(** [Validate] accepts a policy exactly when its name is a sharing name,
    its data filter is accepted, every excluded class is a class name, every
    fields entry names a type and lists field names or the lone star, its
    redaction style and categories are known, and its search modes are known. *)
Theorem Validate_spec p :
  Validate p = [] ↔
    ValidateSharingName (polName p) = true ∧ (∃ n, DataNode p = Ok n) ∧
    Forall (λ c, ValidateClassName c = Ok tt) (polExcludeClasses p) ∧
    (∀ typ fields, polFields p !! typ = Some fields → field_entry_ok typ fields) ∧
    rdStyle (polRedact p) ∈ [nostr; RedactCategory; RedactPartial] ∧
    Forall (λ c, categoryPattern c = true) (rdMask (polRedact p) ++ rdReveal (polRedact p)) ∧
    Forall (λ m, m ∈ SearchModes) (capSearch (polCapabilities p)).
Proof.
  unfold Validate. rewrite !app_nil_iff, validateFields_nil, collect_nil.
  unfold Redact_validate, Capabilities_validate. rewrite app_nil_iff, !collect_nil, Forall_app.
  assert (∀ b e, (if b : bool then [] else [e : PolicyError]) = [] ↔ b = true) as Hb by by intros [] ?.
  rewrite !Hb. assert (errs_of (DataNode p) = [] ↔ ∃ n, DataNode p = Ok n) as ->.
  { destruct (DataNode p); simpl; naive_solver. }
  rewrite !orb_true_iff, !str_eqb_true, !elem_of_cons.
  rewrite !Forall_cons, !collect_nil.
  assert (Hcat : ∀ what l, Forall (λ c, (if negb (categoryPattern c) then [BadCategory what c] else []) = []) l ↔
    Forall (λ c, categoryPattern c = true) l).
  { intros what l. apply Forall_iff. intros c. by rewrite if_nil, negb_false_iff. }
  assert (Hm : ∀ l, Forall (λ m, (if negb (contains SearchModes m) then [BadSearchMode m] else []) = []) l ↔
    Forall (λ m, m ∈ SearchModes) l).
  { intros l. apply Forall_iff. intros m. by rewrite if_nil, negb_false_iff, contains_true. }
  assert (Hc : ∀ l, Forall (λ c, match ValidateClassName c with Ok _ => [] | Err e => [BadExcludeClass e] end = []) l ↔
    Forall (λ c, ValidateClassName c = Ok tt) l).
  { intros l. apply Forall_iff. intros c. destruct (ValidateClassName c) as [[]|]; naive_solver. }
  rewrite !Hcat, Hm, Hc.
  rewrite elem_of_nil, Forall_nil. tauto.
Qed.
