(* ===== verification/PolicyCompile.v ===== *)
(** * Compiling grants into a viewer

    Models [internal/sharing/compile.go] (everything but the store reads of
    [loadInput], which file Resolver holds) and [internal/sharing/viewer.go]: a
    principal's grants, ceiling and key policy become one predicate, one render
    plan and one cache key.  Maps keyed by dialect are functions from dialects;
    their zero value is Go's. *)

From S2P Require Import Prelude GoStrings RsqlLexer RsqlParser RsqlCompiler RsqlSafety Classes StorageScope Policy.

Definition MatchNothing : string := "(1 = 0)".

Record Grant : Type := mkGrant {
  grID : string;
  grAudience : string;
  grPolicy : Policy;
}.

Record Input : Type := mkInput {
  inPrincipalID : string;
  inIdentityID : string;
  inGrants : list Grant;
  inDenyClasses : list string;
  inKeyPolicy : option Policy;
}.

Record GrantPlan : Type := mkGrantPlan {
  gpID : string;
  gpAudience : string;
  gpPolicy : string;
  gpVersion : Z;
  gpData : Node;
  gpExcludeClasses : list string;
  gpFields : gmap string (list string);
  gpMask : list string;
  gpCapabilities : Capabilities;
}.

Record RenderPlan : Type := mkRenderPlan {
  rpGrants : list GrantPlan;
  rpFields : gmap string (list string);
  rpDenyClasses : list string;
  rpCapabilities : Capabilities;
  rpMasked : list string;
  rpPartExclusions : list string;
}.

Definition noCapabilities : Capabilities := mkCapabilities [] false false false false.
Definition zeroPlan : RenderPlan := mkRenderPlan [] ∅ [] noCapabilities [] [].

Definition Plan_FieldsFor (p : RenderPlan) (typ : string) : list string := fieldsFor (rpFields p) typ.

Definition ExcludesAny (p : RenderPlan) (classes : list string) : bool :=
  existsb (contains (rpPartExclusions p)) classes.

Record view : Type := mkView {
  vwPrincipal : string;
  vwIdentity : string;
  vwKey : string;
  vwNode : option Node;
  vwSql : Dialect → Compiled;
  vwUnnumbered : Dialect → Compiled;
  vwPlan : RenderPlan;
}.

Inductive CompileViewerError : Type :=
| PrincipalRequired
| InGrant (id policy : string) (e : PolicyError)
| InKeyPolicy (policy : string) (e : PolicyError)
| PredicateError (e : CompileError).

Record Viewer : Type := mkViewer { vUnrestricted : bool; vView : option view }.
Definition zeroViewer : Viewer := mkViewer false None.
Definition Unrestricted : Viewer := mkViewer true None.

(** ** compile.go *)
Definition classOut (classes : list string) : Node := ComparisonNode "class" OpOut (VStrings classes).

Definition andNot (n : Node) (classes : list string) : Node :=
  match NormalizeClasses classes with
  | [] => n
  | classes => AndNode [n; classOut classes]
  end.

Definition buildPredicate (union : list Node) (deny : list string) (key : option Node) : Node :=
  let n := match union with [u] => u | _ => OrNode union end in
  let parts := n :: (match deny with [] => [] | _ => [classOut deny] end) ++ option_list key in
  match parts with [p] => p | _ => AndNode parts end.

(** [if !slices.Contains(acc, f) { acc = append(acc, f) }] over a list. *)
Definition addMissing (acc fs : list string) : list string :=
  foldl (λ acc f, if contains acc f then acc else acc ++ [f]) acc fs.

(** One type of one grant merged into the union: nothing is stored while the
    list is empty, and a grant that projects every field replaces it. *)
Definition addFields (acc : option (list string)) (fs : list string) : option (list string) :=
  if contains fs FieldAll then Some [FieldAll]
  else match addMissing (default [] acc) fs with [] => acc | l => Some l end.

(** A grant's fields map merged into the union, type by type. *)
Definition mergeFields (fields gfields : gmap string (list string)) : gmap string (list string) :=
  merge (λ acc gfs, match gfs with None => acc | Some fs => addFields acc fs end) fields gfields.

Definition unionCapabilities (a b : Capabilities) : Capabilities :=
  mkCapabilities (addMissing (capSearch a) (capSearch b)) (capEntities a || capEntities b)
    (capExport a || capExport b) (capMCP a || capMCP b) (capEvents a || capEvents b).

Definition intersectCapabilities (a b : Capabilities) : Capabilities :=
  mkCapabilities (keep_in (capSearch a) (capSearch b)) (capEntities a && capEntities b)
    (capExport a && capExport b) (capMCP a && capMCP b) (capEvents a && capEvents b).

Definition unionMasks (grants : list Grant) : list string :=
  match grants with
  | [] => []
  | g :: l => foldl (λ masked g, keep_in masked (rdMask (polRedact (grPolicy g)))) (rdMask (polRedact (grPolicy g))) l
  end.

Definition unionPlan (grants : list Grant) : gmap string (list string) * Capabilities * list string :=
  (foldl (λ fields g, mergeFields fields (polFields (grPolicy g))) ∅ grants,
   foldl (λ caps g, unionCapabilities caps (polCapabilities (grPolicy g))) noCapabilities grants,
   NormalizeClasses (unionMasks grants)).

Definition intersectFields (fields : gmap string (list string)) (key : Policy) : gmap string (list string) :=
  map_imap (λ typ fs,
    let allowed := Policy_FieldsFor key typ in
    let kept := if contains allowed FieldAll then fs
                else if contains fs FieldAll then allowed
                else keep_in fs allowed in
    match kept with [] => None | _ => Some kept end) fields.

Definition grantKey (g : Grant) : string :=
  ";grant=" +:+ grID g +:+ ":" +:+ polName (grPolicy g) +:+ "@" +:+ pretty (polVersion (grPolicy g)).

Definition policyKey (i : Input) (grants : list Grant) : string :=
  "principal=" +:+ inPrincipalID i +:+ ";deny=" +:+ Join (NormalizeClasses (inDenyClasses i)) "," +:+
  match inKeyPolicy i with
  | None => nostr
  | Some k => ";key=" +:+ polName k +:+ "@" +:+ pretty (polVersion k)
  end +:+
  foldr (λ g s, grantKey g +:+ s) nostr grants.

Definition sortGrants (l : list Grant) : list Grant := SliceStable (λ a b, str_ltb (grID a) (grID b)) l.

Definition Key (i : Input) : string := policyKey i (sortGrants (inGrants i)).

(** One turn of the grants loop. *)
Definition grantPlan (g : Grant) : result CompileViewerError (Node * GrantPlan) :=
  let p := grPolicy g in
  n ← map_err (InGrant (grID g) (polName p)) (DataNode p);
  Ok (andNot n (polExcludeClasses p),
      mkGrantPlan (grID g) (grAudience g) (polName p) (polVersion p) n
        (NormalizeClasses (polExcludeClasses p)) (polFields p) (rdMask (polRedact p)) (polCapabilities p)).

Fixpoint grantLoop (grants : list Grant) : result CompileViewerError (list Node * list GrantPlan) :=
  match grants with
  | [] => Ok ([], [])
  | g :: l =>
      '(n, gp) ← grantPlan g;
      '(ns, gps) ← grantLoop l;
      Ok (n :: ns, gp :: gps)
  end.

(** The key policy's part: its predicate and how it narrows the plan. *)
Definition keyPart (kp : option Policy) (fields : gmap string (list string)) (caps : Capabilities)
    (exclusions : list string)
    : result CompileViewerError (option Node * gmap string (list string) * Capabilities * list string) :=
  match kp with
  | None => Ok (None, fields, caps, exclusions)
  | Some k =>
      n ← map_err (InKeyPolicy (polName k)) (DataNode k);
      Ok (Some (andNot n (polExcludeClasses k)), intersectFields fields k,
          intersectCapabilities caps (polCapabilities k), exclusions ++ polExcludeClasses k)
  end.

Definition dialect_set (m : Dialect → Compiled) (d : Dialect) (c : Compiled) : Dialect → Compiled :=
  λ d', if bool_decide (d' = d) then c else m d'.
Definition no_sql : Dialect → Compiled := λ _, (nostr, []).

Fixpoint compileDialects (n : Node) (ds : list Dialect) (sql unnumbered : Dialect → Compiled)
    : result CompileViewerError ((Dialect → Compiled) * (Dialect → Compiled)) :=
  match ds with
  | [] => Ok (sql, unnumbered)
  | d :: ds' =>
      c ← map_err PredicateError (CompileFor d n);
      u ← map_err PredicateError (CompileUnnumbered d n None);
      compileDialects n ds' (dialect_set sql d c) (dialect_set unnumbered d u)
  end.

Definition Compile (i : Input) : result CompileViewerError Viewer :=
  if str_eqb (inPrincipalID i) nostr then Err PrincipalRequired
  else
    let grants := sortGrants (inGrants i) in
    '(union, plans) ← grantLoop grants;
    let deny := NormalizeClasses (inDenyClasses i) in
    let '(fields, caps, masked) := unionPlan grants in
    let exclusions := inDenyClasses i ++ concat (map (λ g, polExcludeClasses (grPolicy g)) grants) in
    '(keyNode, fields, caps, exclusions) ← keyPart (inKeyPolicy i) fields caps exclusions;
    let plan := mkRenderPlan plans fields deny caps masked (NormalizeClasses exclusions) in
    let n := match union with [] => None | _ => Some (buildPredicate union deny keyNode) end in
    '(sql, unnumbered) ←
      match n with
      | None => Ok (no_sql, no_sql)
      | Some n => compileDialects n [DialectSQLite; DialectPostgres] no_sql no_sql
      end;
    Ok (mkViewer false (Some (mkView (inPrincipalID i) (inIdentityID i) (policyKey i grants) n sql unnumbered plan))).

(** ** viewer.go *)
Definition Viewer_PrincipalID (v : Viewer) : string :=
  match vView v with None => nostr | Some w => vwPrincipal w end.
Definition Viewer_IdentityID (v : Viewer) : string :=
  match vView v with None => nostr | Some w => vwIdentity w end.

Definition Viewer_PolicyKey (v : Viewer) : string :=
  if vUnrestricted v then "unrestricted"
  else match vView v with None => nostr | Some w => vwKey w end.

Definition MatchesNothing (v : Viewer) : bool :=
  negb (vUnrestricted v) &&
  match vView v with None => true | Some w => match vwNode w with None => true | Some _ => false end end.

(** The view of a viewer that does not match nothing is not nil. *)
Definition compiled_in (pick : view → Dialect → Compiled) (v : Viewer) (d : Dialect) : Compiled :=
  match vView v with None => (nostr, []) | Some w => pick w d end.

Definition Predicate (v : Viewer) (d : Dialect) : Compiled :=
  if vUnrestricted v then (nostr, [])
  else if MatchesNothing v then (MatchNothing, [])
  else compiled_in vwSql v d.

Definition Viewer_ObjectPredicate (v : Viewer) (dialect : string) : Compiled :=
  if vUnrestricted v then (nostr, [])
  else if MatchesNothing v then (MatchNothing, [])
  else
    let d := if str_eqb dialect SQLDialectPostgres then DialectPostgres else DialectSQLite in
    compiled_in vwUnnumbered v d.

Definition Viewer_Allows (v : Viewer) (c : string) : bool :=
  if vUnrestricted v then true
  else match vView v with
  | None => false
  | Some w =>
      let caps := rpCapabilities (vwPlan w) in
      match CutPrefix c CapabilitySearchPrefix with
      | Some mode => contains (capSearch caps) mode
      | None =>
          if str_eqb c CapabilityEntities then capEntities caps
          else if str_eqb c CapabilityExport then capExport caps
          else if str_eqb c CapabilityMCP then capMCP caps
          else if str_eqb c CapabilityEvents then capEvents caps
          else false
      end
  end.

Definition PredicateNode (v : Viewer) : option Node := w ← vView v; vwNode w.
Definition Plan (v : Viewer) : RenderPlan :=
  match vView v with None => zeroPlan | Some w => vwPlan w end.

(** [var _ storage.Viewer = Viewer{}] *)
#[export] Instance Viewer_storage : StorageViewer Viewer := {
  IsUnrestricted := vUnrestricted;
  PrincipalID := Viewer_PrincipalID;
  ObjectPredicate := Viewer_ObjectPredicate;
  Allows := Viewer_Allows;
}.
