(* ===== verification/ViewerSpec.v ===== *)
(** * What a compiled viewer means

    The abstract specification of a viewer: which rows it sees, which fields
    and capabilities it has, stated from the grants, the ceiling and the key
    policy directly; and the theorems that [Compile] implements it.

    A row is its classes and the truth of every other comparison on it (what
    the database answers for the SQL of [RsqlCompiler]); a class comparison
    holds as [compileClass] documents.  [AND] and [OR] are monotone in SQL's
    three-valued logic and the class tests are [EXISTS], so two truth values are
    enough to say which rows a [WHERE] selects. *)

From S2P Require Import Prelude GoStrings RsqlLexer RsqlParser RsqlRoundTrip RsqlCompiler RsqlSafety Classes StorageScope Policy PolicyCompile.

Record Row : Type := mkRow {
  rowClasses : list string;
  rowHolds : string → Operator → Value → bool;
}.

Definition carries (row : Row) (classes : list string) : bool := existsb (contains (rowClasses row)) classes.

Definition class_holds (row : Row) (op : Operator) (v : Value) : bool :=
  match op, v with
  | OpEq, VString s => carries row [s]
  | OpNeq, VString s => negb (carries row [s])
  | OpIn, VStrings l => carries row l
  | OpOut, VStrings l => negb (carries row l)
  | _, _ => false
  end.

Fixpoint eval (row : Row) (n : Node) : bool :=
  match n with
  | ComparisonNode f op v => if str_eqb f "class" then class_holds row op v else rowHolds row f op v
  | AndNode l => forallb (eval row) l
  | OrNode l => existsb (eval row) l
  end.

(** A policy lets a row through: its filter holds and the row carries none of
    the classes it excludes. *)
Definition policy_admits (row : Row) (p : Policy) : bool :=
  match DataNode p with
  | Ok n => eval row n && negb (carries row (NormalizeClasses (polExcludeClasses p)))
  | Err _ => false
  end.

(** The specification: some grant's policy admits the row, the ceiling denies
    none of its classes, and the key policy, when there is one, admits it. *)
Definition may_see (i : Input) (row : Row) : bool :=
  existsb (λ g, policy_admits row (grPolicy g)) (inGrants i) &&
  negb (carries row (NormalizeClasses (inDenyClasses i))) &&
  match inKeyPolicy i with None => true | Some k => policy_admits row k end.

(** The rows the implementation selects. *)
Definition sees (v : Viewer) (row : Row) : bool :=
  vUnrestricted v || match PredicateNode v with None => false | Some n => eval row n end.

(** ** Lemmas: the predicate *)
Lemma eval_classOut row l : eval row (classOut l) = negb (carries row l).
Proof. done. Qed.

Lemma eval_andNot row n l : eval row (andNot n l) = eval row n && negb (carries row (NormalizeClasses l)).
Proof.
  unfold andNot. destruct (NormalizeClasses l) as [|c l']; [by rewrite andb_true_r|].
  cbn [eval forallb]. by rewrite eval_classOut, andb_true_r.
Qed.

Lemma eval_buildPredicate row union deny key :
  union ≠ [] →
  eval row (buildPredicate union deny key) =
    existsb (eval row) union && negb (carries row deny) &&
    match key with None => true | Some n => eval row n end.
Proof.
  intros Hu. unfold buildPredicate.
  assert (Hn : eval row (match union with [u] => u | _ => OrNode union end) = existsb (eval row) union).
  { destruct union as [|u [|u' union]]; [done| |done]. simpl. by rewrite orb_false_r. }
  set (n := match union with [u] => u | _ => OrNode union end) in *. clearbody n.
  unfold option_list. destruct deny as [|c deny], key as [k|]; cbn [app option_rect eval forallb];
    rewrite ?eval_classOut, Hn, ?andb_true_r, ?andb_assoc; done.
Qed.

Lemma grantPlan_ok g n gp :
  grantPlan g = Ok (n, gp) →
  (∃ m, DataNode (grPolicy g) = Ok m ∧ n = andNot m (polExcludeClasses (grPolicy g)) ∧
    gp = mkGrantPlan (grID g) (grAudience g) (polName (grPolicy g)) (polVersion (grPolicy g)) m
        (NormalizeClasses (polExcludeClasses (grPolicy g))) (polFields (grPolicy g))
        (rdMask (polRedact (grPolicy g))) (polCapabilities (grPolicy g))) ∧
  ∀ row, eval row n = policy_admits row (grPolicy g).
Proof.
  unfold grantPlan. intros H. inv_ok. split; [eauto|]. intros row. unfold policy_admits.
  by rewrite Ha, eval_andNot.
Qed.

Lemma grantLoop_ok grants ns gps :
  grantLoop grants = Ok (ns, gps) →
  Forall2 (λ g n, ∃ gp, grantPlan g = Ok (n, gp)) grants ns ∧ length ns = length grants.
Proof.
  revert ns gps. induction grants as [|g l IH]; simpl; intros ns gps H; inv_ok; [by repeat constructor|].
  destruct a as [n gp]. inv_ok. destruct a as [ns' gps']. inv_ok.
  destruct (IH _ _ Ha0) as [H1 H2]. split; [constructor; eauto|simpl; congruence].
Qed.

Lemma grantLoop_eval grants ns gps row :
  grantLoop grants = Ok (ns, gps) →
  existsb (eval row) ns = existsb (λ g, policy_admits row (grPolicy g)) grants.
Proof.
  intros [H _]%grantLoop_ok. induction H as [|g n l ns (gp & Hg) H IH]; [done|].
  simpl. rewrite IH. f_equal. by apply grantPlan_ok in Hg as [_ Hg].
Qed.

Lemma sortGrants_perm l : sortGrants l ≡ₚ l.
Proof. apply SliceStable_perm. Qed.

Lemma keyPart_ok kp fields caps excl kn fields' caps' excl' row :
  keyPart kp fields caps excl = Ok (kn, fields', caps', excl') →
  match kn with None => true | Some n => eval row n end =
    match kp with None => true | Some k => policy_admits row k end.
Proof.
  unfold keyPart. destruct kp as [k|]; intros H; inv_ok; [|done].
  unfold policy_admits. by rewrite Ha, eval_andNot.
Qed.

(** Everything a successful compilation went through. *)
Lemma Compile_inv i v :
  Compile i = Ok v →
  ∃ ns gps kn fields caps excl sql un,
    inPrincipalID i ≠ nostr ∧
    grantLoop (sortGrants (inGrants i)) = Ok (ns, gps) ∧
    keyPart (inKeyPolicy i) (unionPlan (sortGrants (inGrants i))).1.1 (unionPlan (sortGrants (inGrants i))).1.2
      (inDenyClasses i ++ concat (map (λ g, polExcludeClasses (grPolicy g)) (sortGrants (inGrants i))))
      = Ok (kn, fields, caps, excl) ∧
    let n := match ns with [] => None | _ => Some (buildPredicate ns (NormalizeClasses (inDenyClasses i)) kn) end in
    (match n with
     | None => sql = no_sql ∧ un = no_sql
     | Some n => ∀ d, CompileFor d n = Ok (sql d) ∧ CompileUnnumbered d n None = Ok (un d)
     end) ∧
    v = mkViewer false (Some (mkView (inPrincipalID i) (inIdentityID i) (Key i) n sql un
          (mkRenderPlan gps fields (NormalizeClasses (inDenyClasses i)) caps
             (unionPlan (sortGrants (inGrants i))).2 (NormalizeClasses excl)))).
Proof.
  unfold Compile. destruct (str_eqb (inPrincipalID i) nostr) eqn:Hp; [done|].
  intros H. apply bind_ok_inv in H as ([ns gps] & Hg & H).
  destruct (unionPlan (sortGrants (inGrants i))) as [[ufields ucaps] masked] eqn:Hu.
  apply bind_ok_inv in H as ([[[kn fields] caps] excl] & Hk & H).
  apply bind_ok_inv in H as ([sql un] & Hs & H). injection H as <-.
  exists ns, gps, kn, fields, caps, excl, sql, un. split_and!; [|done|done| |done].
  - intros Heq. rewrite Heq in Hp. done.
  - destruct ns as [|n0 ns]; cbn zeta; [by injection Hs as <- <-|].
    cbn [compileDialects] in Hs.
    apply bind_ok_inv in Hs as (c1 & Hc1 & Hs). apply bind_ok_inv in Hs as (u1 & Hu1 & Hs).
    apply bind_ok_inv in Hs as (c2 & Hc2 & Hs). apply bind_ok_inv in Hs as (u2 & Hu2 & Hs).
    injection Hs as <- <-. apply map_err_ok_inv in Hc1, Hu1, Hc2, Hu2. by intros [].
Qed.

Lemma Compile_sees i v row : Compile i = Ok v → sees v row = may_see i row.
Proof.
  intros (ns & gps & kn & fields & caps & excl & sql & un & _ & Hg & Hk & _ & ->)%Compile_inv.
  unfold sees, may_see, PredicateNode. simpl.
  rewrite <- (existsb_perm _ _ _ (sortGrants_perm (inGrants i))), <- (grantLoop_eval _ _ _ row Hg).
  rewrite <- (keyPart_ok _ _ _ _ _ _ _ _ row Hk).
  destruct ns as [|n ns]; [done|]. by rewrite eval_buildPredicate.
Qed.

(** ** Lemmas: totality *)
Definition compiles (d : Dialect) (n : Node) : Prop := ∃ c, node d None n = Ok c.

Lemma compiles_logicalLoop d l :
  Forall (compiles d) l → ∃ c, logicalLoop (node d None) l = Ok c.
Proof.
  induction 1 as [|n l [[s a] Hn] _ [[p b] Hl]]; [eexists; reflexivity|].
  eexists. simpl. rewrite Hn. simpl. rewrite Hl. reflexivity.
Qed.

Lemma compiles_and d l : Forall (compiles d) l → compiles d (AndNode l).
Proof. intros [[p a] H]%compiles_logicalLoop. eexists. cbn [node]. unfold logical. rewrite H. reflexivity. Qed.
Lemma compiles_or d l : Forall (compiles d) l → compiles d (OrNode l).
Proof. intros [[p a] H]%compiles_logicalLoop. eexists. cbn [node]. unfold logical. rewrite H. reflexivity. Qed.

Lemma compiles_classOut d l : l ≠ [] → compiles d (classOut l).
Proof. intros Hl. destruct l as [|x l]; [done|]. destruct d; eexists; reflexivity. Qed.

Lemma compiles_andNot d n l : compiles d n → compiles d (andNot n l).
Proof.
  intros H. unfold andNot. destruct (NormalizeClasses l) as [|c l'] eqn:E; [done|].
  apply compiles_and. repeat constructor; [done|]. by apply compiles_classOut.
Qed.

Lemma compiles_buildPredicate d union deny key :
  Forall (compiles d) union → (∀ n, key = Some n → compiles d n) → compiles d (buildPredicate union deny key).
Proof.
  intros Hu Hk. unfold buildPredicate.
  assert (Hn : compiles d (match union with [u] => u | _ => OrNode union end)).
  { destruct union as [|u [|u' union]]; [by apply compiles_or|by inversion Hu|by apply compiles_or]. }
  set (n := match union with [u] => u | _ => OrNode union end) in *. clearbody n.
  assert (Hp : Forall (compiles d) (n :: (match deny with [] => [] | _ => [classOut deny] end) ++ option_list key)).
  { constructor; [done|]. apply Forall_app. split.
    - destruct deny; repeat constructor. by apply compiles_classOut.
    - destruct key; repeat constructor. by apply Hk. }
  cbn zeta. destruct ((match deny with [] => [] | _ => [classOut deny] end) ++ option_list key) as [|x l];
    [done|by apply compiles_and].
Qed.

Lemma DataNode_compiles p n d : DataNode p = Ok n → compiles d n.
Proof.
  intros (_ & _ & H)%DataNode_inv. destruct (H d) as [c Hc]. by apply node_ok_unnumbered in Hc.
Qed.

Lemma grantLoop_total grants :
  (∃ r, grantLoop grants = Ok r) ↔ Forall (λ g, ∃ n, DataNode (grPolicy g) = Ok n) grants.
Proof.
  induction grants as [|g l IH]; simpl; [split; [constructor|eauto]|]. rewrite Forall_cons, <- IH.
  unfold grantPlan. destruct (DataNode (grPolicy g)) as [n|e]; simpl.
  - destruct (grantLoop l) as [[ns gps]|e]; simpl; naive_solver.
  - naive_solver.
Qed.

Lemma grantLoop_compiles d grants ns gps : grantLoop grants = Ok (ns, gps) → Forall (compiles d) ns.
Proof.
  intros [H _]%grantLoop_ok. induction H as [|g n l ns (gp & Hg) H IH]; constructor; [|done].
  apply grantPlan_ok in Hg as [(m & Hm & -> & _) _]. eapply compiles_andNot, DataNode_compiles, Hm.
Qed.

Lemma compileDialects_total n sql un :
  (∀ d, compiles d n) →
  ∃ r, compileDialects n [DialectSQLite; DialectPostgres] sql un = Ok r.
Proof.
  intros H. destruct (H DialectSQLite) as [[s1 a1] H1], (H DialectPostgres) as [[s2 a2] H2].
  cbn [compileDialects]. unfold CompileFor, CompileScoped, CompileUnnumbered. rewrite H1, H2. eauto.
Qed.

(** ** Properties *)

(** C1. The predicate [Compile] builds is the specification: a compiled viewer
    sees a row exactly when some grant's policy admits it, the principal's
    ceiling denies none of its classes, and the policy its key is bound to, if
    any, admits it too; so exclusions apply per grant, the ceiling always wins
    and a key only narrows. *)
Theorem Compile_refines_may_see i v row : Compile i = Ok v → sees v row = may_see i row.
Proof. apply Compile_sees. Qed.

Definition sample_input : Input :=
  mkInput "prn_1" nostr
    [mkGrant "grt_2" "partners" (mkPolicy "ideas" 1 "type==idea" [] {["*" := ["title"]]}
       (mkRedact [] [] nostr) noCapabilities);
     mkGrant "grt_1" "colleagues" sample_policy]
    ["health"] (Some (mkPolicy "phone" 2 "type=in=(idea,contact)" [] {["*" := ["*"]]}
       (mkRedact [] [] nostr) (mkCapabilities ["fts"] true false false false))).
Definition sample_row : Row := mkRow ["work"] (λ f _ _, str_eqb f "type").

Lemma Compile_refines_may_see_witness :
  ∃ v, Compile sample_input = Ok v ∧ sees v sample_row = true ∧ sees v sample_row = may_see sample_input sample_row.
Proof.
  destruct (Compile sample_input) as [v|e] eqn:E; [|vm_compute in E; discriminate E].
  exists v. split; [reflexivity|]. pose proof (Compile_refines_may_see sample_input v sample_row E) as H.
  split; [rewrite H; vm_compute; reflexivity|exact H].
Defined.

(** [Compile] fails only for a missing principal or a policy whose own
    filter is refused: once every grant's policy and the key policy pass
    [DataNode], the combined predicate always compiles for both dialects. *)
Theorem Compile_total i :
  (∃ v, Compile i = Ok v) ↔
    inPrincipalID i ≠ nostr ∧
    Forall (λ g, ∃ n, DataNode (grPolicy g) = Ok n) (inGrants i) ∧
    (∀ k, inKeyPolicy i = Some k → ∃ n, DataNode k = Ok n).
Proof.
  rewrite <- (sortGrants_perm (inGrants i)), <- grantLoop_total. split.
  - intros [v (ns & gps & kn & fields & caps & excl & sql & un & Hp & Hg & Hk & _)%Compile_inv].
    split_and!; [done|eauto|]. intros k Hkp. rewrite Hkp in Hk. unfold keyPart in Hk. inv_ok. eauto.
  - intros (Hp & [[ns gps] Hg] & Hk). unfold Compile, str_eqb. rewrite bool_decide_false by done.
    rewrite Hg. destruct (unionPlan (sortGrants (inGrants i))) as [[ufields ucaps] masked].
    cbn [mbind result_bind].
    assert (∃ kn fields caps excl,
      keyPart (inKeyPolicy i) ufields ucaps
        (inDenyClasses i ++ concat (map (λ g, polExcludeClasses (grPolicy g)) (sortGrants (inGrants i))))
        = Ok (kn, fields, caps, excl) ∧ ∀ d n, kn = Some n → compiles d n)
      as (kn & fields & caps & excl & -> & Hkn).
    { unfold keyPart. destruct (inKeyPolicy i) as [k|]; [|by eexists _, _, _, _; split; [reflexivity|]].
      destruct (Hk k eq_refl) as [n Hn]. rewrite Hn. cbn. eexists _, _, _, _. split; [done|].
      intros d m [= <-]. eapply compiles_andNot, DataNode_compiles, Hn. }
    cbn [mbind result_bind]. destruct ns as [|n ns]; [eexists; reflexivity|].
    destruct (compileDialects_total (buildPredicate (n :: ns) (NormalizeClasses (inDenyClasses i)) kn) no_sql no_sql)
      as [[sql un] ->]; [|eexists; reflexivity].
    intros d. apply compiles_buildPredicate; [by eapply grantLoop_compiles|by apply Hkn].
Qed.

(** Deny by default: the zero viewer, and a principal no grant applies to,
    see no row, and every predicate they hand to the storage layer selects
    none, whatever their ceiling or key policy say. *)
Theorem deny_by_default i v :
  inGrants i = [] → Compile i = Ok v →
  MatchesNothing v = true ∧ (∀ row, sees v row = false) ∧
  (∀ d, Predicate v d = (MatchNothing, [])) ∧ (∀ dn, Viewer_ObjectPredicate v dn = (MatchNothing, [])) ∧
  MatchesNothing zeroViewer = true ∧ (∀ row, sees zeroViewer row = false) ∧
  (∀ c, Viewer_Allows zeroViewer c = false).
Proof.
  intros Hn (ns & gps & kn & fields & caps & excl & sql & un & _ & Hg & _ & _ & ->)%Compile_inv.
  rewrite Hn in Hg. injection Hg as <- <-. by split_and!.
Qed.

Lemma deny_by_default_witness :
  ∃ v, Compile (mkInput "prn_9" nostr [] ["personal"] None) = Ok v ∧ MatchesNothing v = true.
Proof.
  eexists. split; [vm_compute; reflexivity|].
  eapply (deny_by_default (mkInput "prn_9" nostr [] ["personal"] None)); vm_compute; reflexivity.
Defined.

(** ** Lemmas: capabilities and fields *)
Definition cap_holds (caps : Capabilities) (c : string) : bool :=
  match CutPrefix c CapabilitySearchPrefix with
  | Some mode => contains (capSearch caps) mode
  | None =>
      if str_eqb c CapabilityEntities then capEntities caps
      else if str_eqb c CapabilityExport then capExport caps
      else if str_eqb c CapabilityMCP then capMCP caps
      else if str_eqb c CapabilityEvents then capEvents caps
      else false
  end.

(** A fields list shows a field it lists, or every field. *)
Definition shows (fields : list string) (f : string) : bool := contains fields f || contains fields FieldAll.
(** What the map says of a type's own entry. *)
Definition entry_shows (fields : gmap string (list string)) (typ f : string) : bool :=
  shows (default [] (fields !! typ)) f.

Lemma elem_of_addMissing acc fs x : x ∈ addMissing acc fs ↔ x ∈ acc ∨ x ∈ fs.
Proof.
  unfold addMissing. revert acc. induction fs as [|f fs IH]; intros acc; simpl; [set_solver|].
  rewrite IH. destruct (contains acc f) eqn:E; [apply contains_true in E; set_solver|set_solver].
Qed.

Lemma contains_addMissing acc fs x : contains (addMissing acc fs) x = contains acc x || contains fs x.
Proof. apply eq_true_iff_eq. by rewrite orb_true_iff, !contains_true, elem_of_addMissing. Qed.

Lemma contains_keep_in a b (x : string) : contains (keep_in a b) x = contains a x && contains b x.
Proof.
  apply eq_true_iff_eq. unfold keep_in. rewrite andb_true_iff, !contains_true, list_elem_of_filter. tauto.
Qed.

Lemma cap_union a b c : cap_holds (unionCapabilities a b) c = cap_holds a c || cap_holds b c.
Proof.
  unfold cap_holds. destruct (CutPrefix _ _); [apply contains_addMissing|].
  repeat match goal with |- context [if str_eqb c ?k then _ else _] => destruct (str_eqb c k) end; done.
Qed.

Lemma cap_intersect a b c : cap_holds (intersectCapabilities a b) c = cap_holds a c && cap_holds b c.
Proof.
  unfold cap_holds. destruct (CutPrefix _ _); [apply contains_keep_in|].
  repeat match goal with |- context [if str_eqb c ?k then _ else _] => destruct (str_eqb c k) end; done.
Qed.

Lemma cap_none c : cap_holds noCapabilities c = false.
Proof.
  unfold cap_holds. destruct (CutPrefix _ _); [done|].
  repeat match goal with |- context [if str_eqb c ?k then _ else _] => destruct (str_eqb c k) end; done.
Qed.

(** A left fold whose observation distributes over its step. *)
Lemma foldl_observe {A B} (step : A → B → A) (obs : A → bool) (ob : B → bool) a l :
  (∀ a b, obs (step a b) = obs a || ob b) → obs (foldl step a l) = obs a || existsb ob l.
Proof.
  intros H. revert a. induction l as [|b l IH]; intros a; simpl; [by rewrite orb_false_r|].
  by rewrite IH, H, orb_assoc.
Qed.

Lemma shows_nil f : shows [] f = false.
Proof. done. Qed.

Lemma shows_addFields acc fs f : shows (default [] (addFields acc fs)) f = shows (default [] acc) f || shows fs f.
Proof.
  unfold addFields. destruct (contains fs FieldAll) eqn:E.
  - unfold shows. rewrite E, orb_true_r. simpl. by rewrite !orb_true_r.
  - assert (Hm : shows (addMissing (default [] acc) fs) f = shows (default [] acc) f || shows fs f).
    { unfold shows. rewrite !contains_addMissing, E.
      by destruct (contains (default [] acc) f), (contains (default [] acc) FieldAll), (contains fs f). }
    destruct (addMissing (default [] acc) fs) as [|x l] eqn:Ea; [|done].
    rewrite <- Hm. simpl. assert (default [] acc = []) as ->; [|done].
    destruct (default [] acc) as [|y l]; [done|].
    assert (y ∈ addMissing (y :: l) fs) as Hy by (apply elem_of_addMissing; set_solver).
    rewrite Ea in Hy. set_solver.
Qed.

Lemma entry_shows_merge fields gfields typ f :
  entry_shows (mergeFields fields gfields) typ f = entry_shows fields typ f || entry_shows gfields typ f.
Proof.
  unfold entry_shows, mergeFields. rewrite lookup_merge.
  destruct (fields !! typ) as [acc|] eqn:E1, (gfields !! typ) as [fs|] eqn:E2; cbn [diag_None].
  - apply (shows_addFields (Some acc)).
  - by rewrite orb_false_r.
  - apply (shows_addFields None).
  - done.
Qed.

Lemma entry_shows_intersect fields key typ f :
  entry_shows (intersectFields fields key) typ f = entry_shows fields typ f && shows (Policy_FieldsFor key typ) f.
Proof.
  unfold entry_shows, intersectFields. rewrite map_lookup_imap.
  destruct (fields !! typ) as [fs|] eqn:E; simpl; [|done].
  set (allowed := Policy_FieldsFor key typ).
  assert (H : ∀ kept : list string, default [] (match kept with [] => None | _ => Some kept end) = kept) by by intros [].
  rewrite H. unfold shows. destruct (contains allowed FieldAll) eqn:E1; [by rewrite orb_true_r, andb_true_r|].
  destruct (contains fs FieldAll) eqn:E2; [by rewrite orb_true_r, E1, orb_false_r|].
  by rewrite !contains_keep_in, E1, E2, !orb_false_r.
Qed.

Lemma unionPlan_fields grants typ f :
  entry_shows (unionPlan grants).1.1 typ f = existsb (λ g, entry_shows (polFields (grPolicy g)) typ f) grants.
Proof.
  simpl. rewrite (foldl_observe _ (λ m, entry_shows m typ f) (λ g, entry_shows (polFields (grPolicy g)) typ f)).
  - unfold entry_shows at 1. by rewrite lookup_empty.
  - intros. apply entry_shows_merge.
Qed.

Lemma unionPlan_caps grants c :
  cap_holds (unionPlan grants).1.2 c = existsb (λ g, cap_holds (polCapabilities (grPolicy g)) c) grants.
Proof.
  simpl. rewrite (foldl_observe _ (λ m, cap_holds m c) (λ g, cap_holds (polCapabilities (grPolicy g)) c)).
  - by rewrite cap_none.
  - intros. apply cap_union.
Qed.

Lemma keyPart_plan kp fields caps excl kn fields' caps' excl' :
  keyPart kp fields caps excl = Ok (kn, fields', caps', excl') →
  (∀ typ f, entry_shows fields' typ f =
    entry_shows fields typ f && match kp with None => true | Some k => shows (Policy_FieldsFor k typ) f end) ∧
  (∀ c, cap_holds caps' c =
    cap_holds caps c && match kp with None => true | Some k => cap_holds (polCapabilities k) c end) ∧
  excl' = excl ++ match kp with None => [] | Some k => polExcludeClasses k end.
Proof.
  unfold keyPart. destruct kp as [k|]; intros H; inv_ok.
  - split_and!; [intros; apply entry_shows_intersect|intros; apply cap_intersect|done].
  - split_and!; [intros; by rewrite andb_true_r|intros; by rewrite andb_true_r|by rewrite app_nil_r].
Qed.

Lemma Compile_allows i v c :
  Compile i = Ok v →
  Viewer_Allows v c =
    existsb (λ g, cap_holds (polCapabilities (grPolicy g)) c) (inGrants i) &&
    match inKeyPolicy i with None => true | Some k => cap_holds (polCapabilities k) c end.
Proof.
  intros (ns & gps & kn & fields & caps & excl & sql & un & _ & Hg & Hk & _ & ->)%Compile_inv.
  apply keyPart_plan in Hk as (_ & Hc & _).
  assert (∀ w, Viewer_Allows (mkViewer false (Some w)) c = cap_holds (rpCapabilities (vwPlan w)) c) as -> by done.
  cbn [vwPlan rpCapabilities]. rewrite Hc, unionPlan_caps. f_equal.
  apply existsb_perm, sortGrants_perm.
Qed.

(** A viewer's capabilities are the union of its grants', cut down by the
    key policy's: it holds a capability exactly when some applying grant opens
    it and the key policy, when one is bound, opens it as well. *)
Theorem Compile_capabilities i v c :
  Compile i = Ok v →
  Viewer_Allows v c =
    existsb (λ g, cap_holds (polCapabilities (grPolicy g)) c) (inGrants i) &&
    match inKeyPolicy i with None => true | Some k => cap_holds (polCapabilities k) c end.
Proof. apply Compile_allows. Qed.

Lemma Compile_capabilities_witness :
  ∃ v, Compile sample_input = Ok v ∧ Viewer_Allows v "search:fts" = true ∧ Viewer_Allows v "export" = false.
Proof.
  destruct (Compile sample_input) as [v|e] eqn:E; [|vm_compute in E; discriminate E].
  exists v. split; [reflexivity|].
  split; rewrite (Compile_capabilities sample_input v _ E); vm_compute; reflexivity.
Defined.

(** The render plan's own entry of a type shows exactly the fields some
    applying grant's entry of that type shows and the key policy renders for
    that type; and the plan withholds parts of every class the ceiling, any
    grant or the key policy excludes. *)
Theorem Compile_fields i v typ f :
  Compile i = Ok v →
  entry_shows (rpFields (Plan v)) typ f =
    existsb (λ g, entry_shows (polFields (grPolicy g)) typ f) (inGrants i) &&
    match inKeyPolicy i with None => true | Some k => shows (Policy_FieldsFor k typ) f end ∧
  ∀ c, ExcludesAny (Plan v) [c] = true ↔
    c ∈ NormalizeClasses (inDenyClasses i) ∨
    (∃ g, g ∈ inGrants i ∧ c ∈ NormalizeClasses (polExcludeClasses (grPolicy g))) ∨
    (∃ k, inKeyPolicy i = Some k ∧ c ∈ NormalizeClasses (polExcludeClasses k)).
Proof.
  intros (ns & gps & kn & fields & caps & excl & sql & un & _ & Hg & Hk & _ & ->)%Compile_inv.
  apply keyPart_plan in Hk as (Hf & _ & ->). unfold Plan, ExcludesAny. simpl. split.
  - rewrite Hf, unionPlan_fields. f_equal. apply existsb_perm, sortGrants_perm.
  - intros c. rewrite orb_false_r, contains_true, !NormalizeClasses_app, !elem_of_NormalizeClasses.
    setoid_rewrite elem_of_concat_map. setoid_rewrite (sortGrants_perm (inGrants i)).
    setoid_rewrite elem_of_NormalizeClasses. destruct (inKeyPolicy i) as [k|]; set_solver.
Qed.

Lemma Compile_fields_witness :
  ∃ v, Compile sample_input = Ok v ∧ entry_shows (rpFields (Plan v)) "contact" "role" = true ∧
       ExcludesAny (Plan v) ["personal"] = true.
Proof.
  destruct (Compile sample_input) as [v|e] eqn:E; [|vm_compute in E; discriminate E].
  destruct (Compile_fields sample_input v "contact" "role" E) as [Hf He].
  exists v. split; [reflexivity|]. split; [rewrite Hf; vm_compute; reflexivity|].
  apply He. right. left. exists (mkGrant "grt_1" "colleagues" sample_policy).
  split; [right; left|vm_compute; left].
Defined.

(** ** The viewer's SQL *)

(** Every compiled viewer hands storage a sound scope: its SQL has exactly
    one bound argument per placeholder and balanced parentheses, so any user
    query compiled under it, in either dialect, binds its arguments in step
    with its placeholders and never closes a parenthesis of the scope. *)
Theorem Compile_scoped_query i v dialect sc d n sql args :
  Compile i = Ok v → ViewerScope (Some v) dialect = Some sc →
  CompileUnnumbered d n (Some sc) = Ok (sql, args) →
  count_char "?" sql = length args ∧ balanced sql ∧
  count_char "?" (scSQL sc) = length (scArgs sc) ∧ balanced (scSQL sc).
Proof.
  intros (ns & gps & kn & fields & caps & excl & sq & un & _ & Hg & Hk & Hs & ->)%Compile_inv Hsc Hq.
  assert (Hok : sql_ok (scSQL sc) (scArgs sc)).
  { apply ViewerScope_shape in Hsc as (_ & pred & a & -> & -> & Hp).
    apply (sql_ok_app "status = ? AND " [VString ObjectStatusActive]);
      [apply sql_ok_one; literal|]. apply sql_ok_paren.
    destruct Hp as [[Hp _]|(_ & -> & ->)]; [|split; literal].
    simpl in Hp. unfold Viewer_ObjectPredicate, MatchesNothing, compiled_in in Hp. simpl in Hp.
    destruct ns as [|n0 ns]; [injection Hp as <- <-; split; literal|]. cbn zeta in Hs.
    set (dd := if str_eqb dialect SQLDialectPostgres then DialectPostgres else DialectSQLite) in *.
    destruct (Hs dd) as [_ Hu]. rewrite Hp in Hu. by apply node_ok in Hu. }
  apply node_ok in Hq as [Hq1 Hq2]; [|by intros ? [= <-]]. destruct Hok. done.
Qed.

Lemma Compile_scoped_query_witness :
  ∃ v sc sql args, Compile sample_input = Ok v ∧ ViewerScope (Some v) SQLDialectPostgres = Some sc ∧
    CompileUnnumbered DialectPostgres (ComparisonNode "mention" OpEq (VString "ent_1")) (Some sc) = Ok (sql, args) ∧
    count_char "?" sql = length args.
Proof.
  destruct (Compile sample_input) as [v|e] eqn:E; [|vm_compute in E; discriminate E].
  destruct (ViewerScope (Some v) SQLDialectPostgres) as [sc|] eqn:Es.
  2:{ vm_compute in E. injection E as <-. vm_compute in Es. discriminate Es. }
  destruct (CompileUnnumbered DialectPostgres (ComparisonNode "mention" OpEq (VString "ent_1")) (Some sc))
    as [[sql args]|e] eqn:Eq; [|vm_compute in Eq; discriminate Eq].
  exists v, sc, sql, args. split; [reflexivity|]. split; [exact Es|]. split; [exact Eq|].
  apply (Compile_scoped_query sample_input v SQLDialectPostgres sc DialectPostgres
    (ComparisonNode "mention" OpEq (VString "ent_1")) sql args E Es Eq).
Defined.

(** ** Where the plan and its description part *)

(** A key policy's own entry for a type is not applied when the grants only
    have the star entry: the plan renders a contact's content although the key
    policy renders its [org] alone. *)
Definition star_grants : Input :=
  mkInput "prn_1" "idn_1"
    [mkGrant "grt_1" "colleagues" (mkPolicy "all" 1 "type=in=(idea,contact)" []
       {["*" := ["title"; "content"]]} (mkRedact [] [] nostr) noCapabilities)] []
    (Some (mkPolicy "phone" 1 "type=in=(idea,contact)" [] {["*" := ["*"]; "contact" := ["org"]]}
       (mkRedact [] [] nostr) noCapabilities)).

Lemma key_entry_not_applied :
  ∃ v k, Compile star_grants = Ok v ∧ inKeyPolicy star_grants = Some k ∧
    shows (Plan_FieldsFor (Plan v) "contact") "content" = true ∧
    shows (Policy_FieldsFor k "contact") "content" = false.
Proof. eexists _, _. split_and!; vm_compute; reflexivity. Qed.

(** Adding a grant can take fields away: a type's own entry in one grant hides
    the star entry of another. *)
Definition two_grants (second : list Grant) : Input :=
  mkInput "prn_1" nostr
    (mkGrant "grt_1" "colleagues" (mkPolicy "all" 1 "type=in=(idea,contact)" []
       {["*" := ["content"]]} (mkRedact [] [] nostr) noCapabilities) :: second) [] None.
Definition contact_grant : Grant :=
  mkGrant "grt_2" "partners" (mkPolicy "cards" 1 "type==contact" []
    {["contact" := ["org"]]} (mkRedact [] [] nostr) noCapabilities).

Lemma grant_hides_star_entry :
  ∃ v1 v2, Compile (two_grants []) = Ok v1 ∧ Compile (two_grants [contact_grant]) = Ok v2 ∧
    shows (Plan_FieldsFor (Plan v1) "contact") "content" = true ∧
    shows (Plan_FieldsFor (Plan v2) "contact") "content" = false.
Proof. eexists _, _. split_and!; vm_compute; reflexivity. Qed.

Definition narrowed (i : Input) (deny : list string) (k : option Policy) : Input :=
  mkInput (inPrincipalID i) (inIdentityID i) (inGrants i) (inDenyClasses i ++ deny) k.
Definition widened (i : Input) (more : list Grant) : Input :=
  mkInput (inPrincipalID i) (inIdentityID i) (inGrants i ++ more) (inDenyClasses i) (inKeyPolicy i).

Lemma carries_app row l k :
  carries row (NormalizeClasses (l ++ k)) = carries row (NormalizeClasses l) || carries row (NormalizeClasses k).
Proof.
  apply eq_true_iff_eq. unfold carries. rewrite orb_true_iff, !existsb_exists'.
  setoid_rewrite NormalizeClasses_app. naive_solver.
Qed.

(** A key narrows and never widens, a ceiling only takes away, and a grant
    only adds rows: with the same grants, a viewer compiled under a key policy
    and a larger ceiling sees no row and holds no capability that the viewer
    without them lacks, while one with more grants sees every row the first
    saw. *)
Theorem key_and_ceiling_narrow i deny k more v w u row c :
  inKeyPolicy i = None →
  Compile i = Ok v → Compile (narrowed i deny k) = Ok w → Compile (widened i more) = Ok u →
  (sees w row = true → sees v row = true) ∧ (Viewer_Allows w c = true → Viewer_Allows v c = true) ∧
  (sees v row = true → sees u row = true).
Proof.
  intros Hi Hv Hw Hu. rewrite (Compile_sees _ _ row Hv), (Compile_sees _ _ row Hw), (Compile_sees _ _ row Hu).
  assert (Hc : ∀ j x, Compile j = Ok x → Viewer_Allows x c =
    existsb (λ g, cap_holds (polCapabilities (grPolicy g)) c) (inGrants j) &&
    match inKeyPolicy j with None => true | Some k => cap_holds (polCapabilities k) c end)
    by (intros j x; apply (Compile_allows j x c)).
  rewrite (Hc _ _ Hv), (Hc _ _ Hw). unfold may_see, narrowed, widened. cbn [inGrants inDenyClasses inKeyPolicy].
  rewrite Hi, carries_app, existsb_app, !andb_true_iff, !negb_true_iff, orb_false_iff, orb_true_iff.
  tauto.
Qed.

Lemma key_and_ceiling_narrow_witness :
  ∃ v w u, Compile (two_grants []) = Ok v ∧
    Compile (narrowed (two_grants []) ["work"] (Some sample_policy)) = Ok w ∧
    Compile (widened (two_grants []) [contact_grant]) = Ok u ∧
    sees v sample_row = true ∧ sees w sample_row = false ∧ (sees v sample_row = true → sees u sample_row = true).
Proof.
  destruct (Compile (two_grants [])) as [v|e] eqn:Ev; [|vm_compute in Ev; discriminate Ev].
  destruct (Compile (narrowed (two_grants []) ["work"] (Some sample_policy))) as [w|e] eqn:Ew;
    [|vm_compute in Ew; discriminate Ew].
  destruct (Compile (widened (two_grants []) [contact_grant])) as [u|e] eqn:Eu; [|vm_compute in Eu; discriminate Eu].
  exists v, w, u. split; [reflexivity|]. split; [reflexivity|]. split; [reflexivity|].
  split; [rewrite (Compile_sees _ _ sample_row Ev); vm_compute; reflexivity|].
  split; [rewrite (Compile_sees _ _ sample_row Ew); vm_compute; reflexivity|].
  apply (key_and_ceiling_narrow (two_grants []) ["work"] (Some sample_policy) [contact_grant] v w u
    sample_row "export" eq_refl Ev Ew Eu).
Defined.
