(* ===== verification/Resolver.v ===== *)
(** * Resolving a request's viewer

    Models [loadInput] and [CompileFor] of [internal/sharing/compile.go] and
    [internal/sharing/resolver.go].  The sharing registry is a store outside
    the modelled code: its four reads are the class [SharingStore].  The
    resolver's state is its cache of compiled viewers; its mutex makes each
    access atomic, so a run is a sequence of operations. *)

From S2P Require Import Prelude GoStrings RsqlCompiler Classes StorageScope Policy PolicyCompile ViewerSpec.

Inductive StoreError : Type := ErrNotFound | StoreFailure (what : string).

Record ActiveGrant : Type := mkActiveGrant {
  agGrant : ShareGrant;
  agAudienceName : string;
  agPolicy : SharePolicy;
}.

(** The reads of [storage.SharingStore] the resolver makes. *)
Class SharingStore (S : Type) : Type := {
  DenyClasses : S → string → result StoreError (list string);
  ListActiveForPrincipal : S → string → Z → result StoreError (list ActiveGrant);
  IdentityPolicy : S → string → result StoreError string;
  Policies_Get : S → string → result StoreError SharePolicy;
  Policies_GetByName : S → string → result StoreError SharePolicy;
}.

(** [storage.AuthStore]'s principal lookup: the id and the kind. *)
Class PrincipalRegistry (R : Type) : Type := {
  Principals_Get : R → string → result StoreError (string * string);
}.

Inductive ResolveError : Type :=
| FromStore (e : StoreError)
| FromPolicy (e : FromSpecError)
| FromCompile (e : CompileViewerError)
| ErrViewAsUnknown.

Definition PrincipalKindOwner : string := "owner".
Definition OwnerPrincipal : string := "owner".

Definition resolverCacheMax : nat := 1024.

(** A NUL byte. *)
Definition nul : ascii := Ascii.ascii_of_nat 0.

Definition activeGrant (ag : ActiveGrant) : result ResolveError Grant :=
  p ← map_err FromPolicy (PolicyFromSpec (Some (agPolicy ag)));
  Ok (mkGrant (sgID (agGrant ag)) (agAudienceName ag) p).

Fixpoint activeGrants (l : list ActiveGrant) : result ResolveError (list Grant) :=
  match l with
  | [] => Ok []
  | ag :: l' => g ← activeGrant ag; gs ← activeGrants l'; Ok (g :: gs)
  end.

Section resolver.
Context {S : Type} `{SharingStore S}.

Definition loadInput (st : S) (principalID identityID : string) (now : Z) : result ResolveError Input :=
  deny ← map_err FromStore (DenyClasses st principalID);
  active ← map_err FromStore (ListActiveForPrincipal st principalID now);
  grants ← activeGrants active;
  key ←
    (if str_eqb identityID nostr then Ok None
     else
       policyID ← map_err FromStore (IdentityPolicy st identityID);
       if str_eqb policyID nostr then Ok None
       else
         row ← map_err FromStore (Policies_Get st policyID);
         p ← map_err FromPolicy (PolicyFromSpec (Some row));
         Ok (Some p));
  Ok (mkInput principalID identityID grants deny key).

Definition CompileForPrincipal (st : S) (principalID identityID : string) (now : Z) : result ResolveError Viewer :=
  i ← loadInput st principalID identityID now;
  map_err FromCompile (Compile i).

(** [r.cache] *)
Record Resolver : Type := mkResolver { rsCache : gmap string Viewer }.
Definition NewResolver : Resolver := mkResolver ∅.

Definition cacheKey (i : Input) : string := inIdentityID i +:+ String nul (Key i).

(** [Resolve] of a resolver with a store.  The viewer, and the cache after. *)
Definition Resolve (r : Resolver) (st : S) (principalID kind identityID : string) (now : Z)
    : result ResolveError Viewer * Resolver :=
  if str_eqb kind PrincipalKindOwner then (Ok Unrestricted, r)
  else
    match loadInput st principalID identityID now with
    | Err (FromStore ErrNotFound) => (Ok zeroViewer, r)
    | Err e => (Err e, r)
    | Ok i =>
        let key := cacheKey i in
        match rsCache r !! key with
        | Some v => (Ok v, r)
        | None =>
            match Compile i with
            | Err e => (Err (FromCompile e), r)
            | Ok v =>
                let cache := if resolverCacheMax <=? size (rsCache r) then ∅ else rsCache r in
                (Ok v, mkResolver (<[key := v]> cache))
            end
        end
    end.

(** A nil resolver, or one without a store. *)
Definition ResolveNil (kind : string) : Viewer :=
  if str_eqb kind PrincipalKindOwner then Unrestricted else zeroViewer.

Definition Invalidate (r : Resolver) : Resolver := mkResolver ∅.
Definition CacheSize (r : Resolver) : nat := size (rsCache r).

(** [ViewAs] ([internal/sharing/preview.go]) of a resolver with a store; the
    registry is optional. *)
Definition ViewAs {R : Type} `{PrincipalRegistry R} (r : Resolver) (st : S) (reg : option R) (target : string)
    (now : Z) : result ResolveError Viewer * Resolver :=
  let byPolicy :=
    match Policies_GetByName st target with
    | Err ErrNotFound => (Err ErrViewAsUnknown, r)
    | Err e => (Err (FromStore e), r)
    | Ok row =>
        (p ← map_err FromPolicy (PolicyFromSpec (Some row));
         map_err FromCompile
           (Compile (mkInput OwnerPrincipal nostr [mkGrant ("preview:" +:+ polName p) "preview" p] [] None)), r)
    end in
  if str_eqb target nostr then (Err ErrViewAsUnknown, r)
  else
    match reg with
    | None => byPolicy
    | Some reg =>
        match Principals_Get reg target with
        | Ok (id, kind) => Resolve r st id kind nostr now
        | Err ErrNotFound => byPolicy
        | Err e => (Err (FromStore e), r)
        end
    end.
End resolver.
Arguments Resolver : clear implicits.

(** ** The cache key *)

(** Identifiers as the stores mint them, names and classes as they validate
    them. *)
Record wf_input (i : Input) : Prop := {
  wf_principal : lacks ";" (inPrincipalID i) = true;
  wf_identity : lacks nul (inIdentityID i) = true;
  wf_deny : Forall (λ c, ValidateClassName c = Ok tt) (inDenyClasses i);
  wf_key : ∀ k, inKeyPolicy i = Some k → ValidateSharingName (polName k) = true;
  wf_grants : Forall (λ g, lacks ";" (grID g) = true ∧ lacks ":" (grID g) = true ∧
                           ValidateSharingName (polName (grPolicy g)) = true) (inGrants i);
}.

Definition keySegment (k : Policy) : string := "key=" +:+ polName k +:+ "@" +:+ pretty (polVersion k).
Definition grantSegment (g : Grant) : string :=
  "grant=" +:+ grID g +:+ ":" +:+ polName (grPolicy g) +:+ "@" +:+ pretty (polVersion (grPolicy g)).

Lemma sharing_name_lacks c s :
  sharingNameChar c = false → ValidateSharingName s = true → lacks c s = true.
Proof.
  unfold ValidateSharingName, sharingNamePattern. intros Hc [H _]%andb_true_iff.
  apply (match_head_tail_lacks sharingNameHead sharingNameChar); [|done..].
  unfold sharingNameHead, sharingNameChar in *. by destruct (is_lower c), (is_digit c).
Qed.

Lemma class_name_lacks c s :
  classNameChar c = false → ValidateClassName s = Ok tt → lacks c s = true ∧ s ≠ nostr.
Proof.
  unfold ValidateClassName, classNamePattern. intros Hc.
  destruct (match_head_tail is_lower classNameChar s) eqn:E; [|done]. intros _.
  apply (match_head_tail_lacks is_lower classNameChar); [|done..].
  unfold classNameChar in Hc. by destruct (is_lower c).
Qed.

Lemma version_lacks c (z : Z) : decimal_char c = false → lacks c (pretty z) = true.
Proof. intros H. apply (str_forall_lacks decimal_char); [done|apply pretty_Z_chars]. Qed.

Lemma elem_of_SortStrings x l : x ∈ SortStrings l ↔ x ∈ l.
Proof. by rewrite SortStrings_perm. Qed.

Lemma deny_segment_ok c i :
  classNameChar c = false → wf_input i →
  Forall (λ x, lacks c x = true ∧ x ≠ nostr) (NormalizeClasses (inDenyClasses i)).
Proof.
  intros Hc Hwf. apply Forall_forall. intros x (Hx & y & Hy & ->)%elem_of_NormalizeClasses. split; [|done].
  apply lacks_TrimSpace. pose proof (wf_deny i Hwf) as Hd. rewrite Forall_forall in Hd.
  by apply (class_name_lacks c y Hc), Hd.
Qed.

Lemma lacks_Join c l : lacks c "," = true → Forall (λ x, lacks c x = true) l → lacks c (Join l ",") = true.
Proof.
  intros Hc H. induction H as [|x l Hx Hl IH]; [done|]. destruct l as [|y l]; [done|].
  change (Join (x :: y :: l) ",") with (x +:+ "," +:+ Join (y :: l) ",").
  by rewrite !lacks_app, Hx, Hc, IH.
Qed.

Lemma keySegment_lacks k : ValidateSharingName (polName k) = true → lacks ";" (keySegment k) = true.
Proof.
  intros H. unfold keySegment. rewrite !lacks_app, (sharing_name_lacks ";" (polName k)), (version_lacks ";" (polVersion k)) by done. done.
Qed.

Lemma grantSegment_lacks g :
  lacks ";" (grID g) = true → ValidateSharingName (polName (grPolicy g)) = true → lacks ";" (grantSegment g) = true.
Proof.
  intros Hi H. unfold grantSegment. rewrite !lacks_app, Hi, (sharing_name_lacks ";" (polName (grPolicy g))),
    (version_lacks ";" (polVersion (grPolicy g))) by done. done.
Qed.

Definition grants_ok (gs : list Grant) : Prop :=
  Forall (λ g, lacks ";" (grID g) = true ∧ lacks ":" (grID g) = true ∧
               ValidateSharingName (polName (grPolicy g)) = true) gs.

(** The segments of a key between its semicolons. *)
Definition keySegments (i : Input) (gs : list Grant) : list string :=
  ("principal=" +:+ inPrincipalID i) :: ("deny=" +:+ Join (NormalizeClasses (inDenyClasses i)) ",") ::
  match inKeyPolicy i with None => [] | Some k => [keySegment k] end ++ map grantSegment gs.

Lemma policyKey_segments i gs :
  wf_input i → grants_ok gs → SplitByte (policyKey i gs) ";" = keySegments i gs.
Proof.
  intros Hwf Hgs. pose proof (wf_principal i Hwf) as Hp.
  assert (Hgr : foldr (λ g s, grantKey g +:+ s) nostr gs = prefixed ";" (map grantSegment gs)).
  { clear. induction gs as [|g gs IH]; [done|]. simpl. rewrite IH. unfold grantKey, grantSegment. by str_norm. }
  unfold policyKey, keySegments. rewrite Hgr.
  assert (Heq : "principal=" +:+ inPrincipalID i +:+ ";deny=" +:+ Join (NormalizeClasses (inDenyClasses i)) "," +:+
      match inKeyPolicy i with None => nostr | Some k => ";key=" +:+ polName k +:+ "@" +:+ pretty (polVersion k) end +:+
      prefixed ";" (map grantSegment gs) =
    ("principal=" +:+ inPrincipalID i) +:+ prefixed ";"
      (("deny=" +:+ Join (NormalizeClasses (inDenyClasses i)) ",") ::
       match inKeyPolicy i with None => [] | Some k => [keySegment k] end ++ map grantSegment gs)).
  { destruct (inKeyPolicy i) as [k|]; cbn [app prefixed foldr]; unfold keySegment; str_norm; done. }
  rewrite Heq. apply SplitByte_prefixed.
  - rewrite lacks_app, Hp. done.
  - constructor.
    + rewrite lacks_app. apply andb_true_iff. split; [done|]. apply lacks_Join; [done|].
      eapply Forall_impl; [by apply (deny_segment_ok ";")|]. by intros ? [? _].
    + apply Forall_app. split.
      * destruct (inKeyPolicy i) as [k|] eqn:E; repeat constructor. by apply keySegment_lacks, (wf_key i Hwf).
      * apply Forall_map. eapply Forall_impl; [exact Hgs|]. intros g (? & _ & ?). by apply grantSegment_lacks.
Qed.

Lemma name_version_inj n1 n2 (v1 v2 : Z) :
  ValidateSharingName n1 = true → ValidateSharingName n2 = true →
  n1 +:+ "@" +:+ pretty v1 = n2 +:+ "@" +:+ pretty v2 → n1 = n2 ∧ v1 = v2.
Proof.
  intros H1 H2 H. destruct (app_sep_inj "@" n1 n2 (pretty v1) (pretty v2)) as [-> Hv];
    [by apply (sharing_name_lacks "@")..|done|]. by apply (inj pretty) in Hv.
Qed.

Lemma grantSegment_inj g1 g2 :
  lacks ":" (grID g1) = true → lacks ":" (grID g2) = true →
  ValidateSharingName (polName (grPolicy g1)) = true → ValidateSharingName (polName (grPolicy g2)) = true →
  grantSegment g1 = grantSegment g2 →
  grID g1 = grID g2 ∧ polName (grPolicy g1) = polName (grPolicy g2) ∧
  polVersion (grPolicy g1) = polVersion (grPolicy g2).
Proof.
  intros H1 H2 N1 N2 H. apply (str_app_inj "grant=") in H.
  destruct (app_sep_inj ":" (grID g1) (grID g2) _ _ H1 H2 H) as [-> H'].
  by destruct (name_version_inj _ _ _ _ N1 N2 H') as [-> ->].
Qed.

(** What a grant contributes to a key. *)
Definition grant_id (g : Grant) : string * string * Z := (grID g, polName (grPolicy g), polVersion (grPolicy g)).
Definition policy_id (p : Policy) : string * Z := (polName p, polVersion p).

Lemma grantSegments_inj gs1 gs2 :
  grants_ok gs1 → grants_ok gs2 → map grantSegment gs1 = map grantSegment gs2 → map grant_id gs1 = map grant_id gs2.
Proof.
  intros H1. revert gs2. induction H1 as [|g1 gs1 (Hs & Hc & Hn) H1 IH]; intros [|g2 gs2] H2 H; [done..|].
  apply Forall_cons in H2 as [(Hs2 & Hc2 & Hn2) H2]. cbn [map] in H. apply cons_inv in H as [Hg Hl].
  destruct (grantSegment_inj g1 g2 Hc Hc2 Hn Hn2 Hg) as (E1 & E2 & E3). cbn [map]. rewrite (IH gs2 H2 Hl).
  unfold grant_id. congruence.
Qed.

Lemma key_not_grant k g : keySegment k ≠ grantSegment g.
Proof. done. Qed.

Lemma policyKey_inj i1 i2 gs1 gs2 :
  wf_input i1 → wf_input i2 → grants_ok gs1 → grants_ok gs2 → policyKey i1 gs1 = policyKey i2 gs2 →
  inPrincipalID i1 = inPrincipalID i2 ∧
  NormalizeClasses (inDenyClasses i1) = NormalizeClasses (inDenyClasses i2) ∧
  policy_id <$> inKeyPolicy i1 = policy_id <$> inKeyPolicy i2 ∧
  map grant_id gs1 = map grant_id gs2.
Proof.
  intros W1 W2 G1 G2 H. apply (f_equal (λ s, SplitByte s ";")) in H.
  rewrite !policyKey_segments in H by done. unfold keySegments in H.
  apply cons_inv in H as [Hp H]. apply cons_inv in H as [Hd Hl].
  apply (str_app_inj "principal=") in Hp. apply (str_app_inj "deny=") in Hd.
  apply (Join_inj ",") in Hd; [|by apply (deny_segment_ok ",")..].
  assert (Hk : policy_id <$> inKeyPolicy i1 = policy_id <$> inKeyPolicy i2 ∧
               map grantSegment gs1 = map grantSegment gs2).
  { destruct (inKeyPolicy i1) as [k1|] eqn:E1, (inKeyPolicy i2) as [k2|] eqn:E2; cbn [app] in Hl.
    - apply cons_inv in Hl as [Hk Hl]. apply (str_app_inj "key=") in Hk.
      destruct (name_version_inj (polName k1) (polName k2) (polVersion k1) (polVersion k2)) as [Hn Hv];
        [by apply (wf_key i1 W1)|by apply (wf_key i2 W2)|exact Hk|].
      cbn. unfold policy_id. by rewrite Hn, Hv.
    - destruct gs2 as [|g2 gs2]; [done|]. cbn [map] in Hl. apply cons_inv in Hl as [Hk _]. by destruct (key_not_grant k1 g2).
    - destruct gs1 as [|g1 gs1]; [done|]. cbn [map] in Hl. apply cons_inv in Hl as [Hk _]. by destruct (key_not_grant k2 g1).
    - done. }
  destruct Hk as [Hk Hg]. split_and!; [done|done|done|]. by apply grantSegments_inj.
Qed.

(** ** The cache never lies *)
Section coherence.
(** The registry's law: a policy's spec is fixed by its name and version (the
    store bumps the version on every update), a grant's audience by the grant. *)
Context (spec : string → Z → Policy) (aud : string → string).

Record registered (i : Input) : Prop := {
  reg_wf : wf_input i;
  reg_grants : Forall (λ g, grPolicy g = spec (polName (grPolicy g)) (polVersion (grPolicy g)) ∧
                            grAudience g = aud (grID g)) (inGrants i);
  reg_key : ∀ k, inKeyPolicy i = Some k → k = spec (polName k) (polVersion k);
}.

Lemma registered_grants_eq gs1 gs2 :
  Forall (λ g, grPolicy g = spec (polName (grPolicy g)) (polVersion (grPolicy g)) ∧ grAudience g = aud (grID g)) gs1 →
  Forall (λ g, grPolicy g = spec (polName (grPolicy g)) (polVersion (grPolicy g)) ∧ grAudience g = aud (grID g)) gs2 →
  map grant_id gs1 = map grant_id gs2 → gs1 = gs2.
Proof.
  intros H1. revert gs2. induction H1 as [|g1 gs1 [P1 A1] H1 IH]; intros [|g2 gs2] H2 H; [done..|].
  apply Forall_cons in H2 as [[P2 A2] H2]. cbn [map] in H. apply cons_inv in H as [Hg Hl].
  rewrite (IH gs2 H2 Hl). f_equal. unfold grant_id in Hg. injection Hg as Hi Hn Hv.
  destruct g1 as [i1 a1 p1], g2 as [i2 a2 p2]; simpl in *. rewrite P1, P2, A1, A2. congruence.
Qed.

Lemma NormalizeClasses_app_l l1 l2 m :
  NormalizeClasses l1 = NormalizeClasses l2 → NormalizeClasses (l1 ++ m) = NormalizeClasses (l2 ++ m).
Proof. intros H. apply NormalizeClasses_ext. intros c. by rewrite !NormalizeClasses_app, H. Qed.

Lemma Compile_determined i1 i2 :
  registered i1 → registered i2 → inIdentityID i1 = inIdentityID i2 → Key i1 = Key i2 → Compile i1 = Compile i2.
Proof.
  intros R1 R2 Hid HK. assert (Hs : ∀ i, registered i → grants_ok (sortGrants (inGrants i))).
  { intros i R. unfold grants_ok. rewrite sortGrants_perm. apply (wf_grants i (reg_wf i R)). }
  pose proof (policyKey_inj i1 i2 _ _ (reg_wf _ R1) (reg_wf _ R2) (Hs _ R1) (Hs _ R2) HK) as (Hp & Hd & Hk & Hg).
  apply registered_grants_eq in Hg; [|by rewrite sortGrants_perm; apply reg_grants..].
  assert (Hk' : inKeyPolicy i1 = inKeyPolicy i2).
  { destruct (inKeyPolicy i1) as [k1|] eqn:E1, (inKeyPolicy i2) as [k2|] eqn:E2; try done.
    unfold policy_id in Hk. cbn in Hk. injection Hk as Hn Hv.
    rewrite (reg_key _ R1 _ E1), (reg_key _ R2 _ E2). by rewrite Hn, Hv. }
  assert (Hkey : policyKey i1 (sortGrants (inGrants i1)) = policyKey i2 (sortGrants (inGrants i2))) by exact HK.
  unfold Compile. rewrite <- Hp, <- Hid, <- Hd, <- Hk', <- Hkey, <- Hg. clear Hkey.
  destruct (str_eqb _ _); [done|]. destruct (grantLoop _) as [[ns gps]|]; cbn [mbind result_bind]; [|done].
  destruct (unionPlan _) as [[fields caps] masked]. unfold keyPart.
  destruct (inKeyPolicy i1) as [k|]; cbn [mbind result_bind].
  - destruct (DataNode k); cbn [mbind result_bind map_err]; [|done].
    rewrite <- !app_assoc. by rewrite (NormalizeClasses_app_l _ (inDenyClasses i2)).
  - by rewrite (NormalizeClasses_app_l _ (inDenyClasses i2)).
Qed.

Record coherent (r : Resolver) : Prop := {
  coh_size : size (rsCache r) ≤ resolverCacheMax;
  coh_cache : ∀ key v, rsCache r !! key = Some v → vUnrestricted v = false ∧
    ∀ i, registered i → cacheKey i = key → Compile i = Ok v;
}.

Lemma cacheKey_inj i1 i2 :
  registered i1 → registered i2 → cacheKey i1 = cacheKey i2 → inIdentityID i1 = inIdentityID i2 ∧ Key i1 = Key i2.
Proof.
  intros R1 R2 H. apply (app_sep_inj nul) in H; [done|apply wf_identity, reg_wf..]; done.
Qed.

Lemma Compile_restricted i v : Compile i = Ok v → vUnrestricted v = false.
Proof. by intros (ns & gps & kn & fields & caps & excl & sql & un & _ & _ & _ & _ & ->)%Compile_inv. Qed.

Context {S : Type} `{SharingStore S}.

Definition store_ok (st : S) : Prop :=
  ∀ p id now i, loadInput st p id now = Ok i → registered i.

Inductive resolver_step : Resolver → Resolver → Prop :=
| step_resolve r st p kind id now :
    store_ok st → resolver_step r (Resolve r st p kind id now).2
| step_invalidate r : resolver_step r (Invalidate r).

Lemma coherent_empty : coherent NewResolver.
Proof. split; [simpl; rewrite map_size_empty; unfold resolverCacheMax; lia|]. intros key v Hl. simpl in Hl. by rewrite lookup_empty in Hl. Qed.

Lemma coherent_insert r i v :
  coherent r → registered i → Compile i = Ok v →
  coherent (mkResolver (<[cacheKey i := v]> (if resolverCacheMax <=? size (rsCache r) then ∅ else rsCache r))).
Proof.
  intros [Hs Hc] R Hv. set (cache := if resolverCacheMax <=? size (rsCache r) then ∅ else rsCache r).
  assert (Hsz : size cache < resolverCacheMax).
  { unfold cache. destruct (resolverCacheMax <=? size (rsCache r)) eqn:E;
      [rewrite map_size_empty; unfold resolverCacheMax; lia|by apply Nat.leb_gt in E]. }
  assert (Hsub : ∀ key w, cache !! key = Some w → rsCache r !! key = Some w).
  { intros key w. unfold cache. destruct (_ <=? _); [by rewrite lookup_empty|done]. }
  split; cbn [rsCache].
  - rewrite map_size_insert. destruct (cache !! cacheKey i); simpl; lia.
  - intros key w. destruct (decide (key = cacheKey i)) as [->|Hne].
    + rewrite lookup_insert_eq. intros [= <-]. split; [by eapply Compile_restricted|].
      intros j Rj Hj. destruct (cacheKey_inj j i Rj R Hj) as [Hid HK].
      by rewrite (Compile_determined j i).
    + rewrite lookup_insert_ne by congruence. intros Hl%Hsub. by apply Hc.
Qed.

Lemma coherent_Resolve r st p kind id now :
  coherent r → store_ok st → coherent (Resolve r st p kind id now).2.
Proof.
  intros Hr Hst. unfold Resolve. destruct (str_eqb kind PrincipalKindOwner); [done|].
  destruct (loadInput st p id now) as [i|[[]| | |]] eqn:E; [|done..].
  destruct (rsCache r !! cacheKey i); [done|].
  destruct (Compile i) as [v|] eqn:Ec; [|done]. apply coherent_insert; [done|by eapply Hst|done].
Qed.

Lemma reachable_coherent r : star resolver_step NewResolver r → coherent r.
Proof.
  intros Hr. eapply star_invariant; [|exact Hr|apply coherent_empty].
  intros a b [r' st p kind id now Hst|r'] Ha; [by apply coherent_Resolve|apply coherent_empty].
Qed.

(** What a resolver without a cache answers. *)
Definition fresh (st : S) (p kind id : string) (now : Z) : result ResolveError Viewer :=
  if str_eqb kind PrincipalKindOwner then Ok Unrestricted
  else match CompileForPrincipal st p id now with
  | Err (FromStore ErrNotFound) => Ok zeroViewer
  | m => m
  end.

Lemma Resolve_fresh r st p kind id now :
  coherent r → store_ok st → (Resolve r st p kind id now).1 = fresh st p kind id now.
Proof.
  intros Hr Hst. unfold Resolve, fresh, CompileForPrincipal. destruct (str_eqb kind PrincipalKindOwner); [done|].
  destruct (loadInput st p id now) as [i|[[]| | |]] eqn:E; [|done..]. cbn [mbind result_bind].
  destruct (rsCache r !! cacheKey i) as [v|] eqn:El.
  - destruct Hr as [_ Hc]. apply Hc in El as [_ El]. rewrite (El i); [done|by eapply Hst|done].
  - by destruct (Compile i).
Qed.

(** C2. The viewer cache is coherent: after any sequence of resolutions (of
    any principals, against a registry that changes in between) and
    invalidations, [Resolve] answers exactly what loading the registry and
    compiling now would, so it never serves a viewer the registry no longer
    grants; and the cache never holds more than [resolverCacheMax] viewers. *)
Theorem Resolve_coherent r st p kind id now :
  star resolver_step NewResolver r → store_ok st →
  (Resolve r st p kind id now).1 = fresh st p kind id now ∧
  CacheSize (Resolve r st p kind id now).2 ≤ resolverCacheMax.
Proof.
  intros Hr%reachable_coherent Hst. split; [by apply Resolve_fresh|].
  by apply coh_size, coherent_Resolve.
Qed.

(** Only the owner is unrestricted: whatever the cache, the registry and
    the credential, a resolution that bypasses visibility is one of kind
    owner, and a principal or identity the registry does not know resolves to
    the zero viewer. *)
Theorem Resolve_unrestricted_only_owner r st p kind id now v :
  star resolver_step NewResolver r → store_ok st →
  (Resolve r st p kind id now).1 = Ok v →
  (vUnrestricted v = true ↔ kind = PrincipalKindOwner) ∧
  (kind ≠ PrincipalKindOwner → loadInput st p id now = Err (FromStore ErrNotFound) → v = zeroViewer).
Proof.
  intros Hr%reachable_coherent Hst. rewrite Resolve_fresh by done. unfold fresh, CompileForPrincipal, str_eqb.
  case_bool_decide as Hk; [intros [= <-]; naive_solver|].
  destruct (loadInput st p id now) as [i|[[]| | |]] eqn:E; cbn [mbind result_bind].
  - destruct (Compile i) as [w|] eqn:Ec; [|done]. intros [= <-]. rewrite (Compile_restricted i w) by done. naive_solver.
  - intros [= <-]. naive_solver.
  - done.
  - done.
  - done.
  - done.
Qed.
End coherence.

(** ** A registry with one principal, one grant and one credential *)
Inductive SampleRegistry : Type := sampleRegistry (granted : bool).

Definition sample_spec (name : string) (version : Z) : Policy :=
  mkPolicy name version "type==idea" ["personal"] {["*" := ["title"]]} (mkRedact [] [] nostr) noCapabilities.

#[export] Instance SampleRegistry_store : SharingStore SampleRegistry := {
  DenyClasses st p := if str_eqb p "prn_1" then Ok ["health"] else Err ErrNotFound;
  ListActiveForPrincipal st p now := match st with
    | sampleRegistry true => Ok [mkActiveGrant (mkShareGrant "grt_1" "aud_1" "pol_1" None "prn_0" 0%Z None)
                                   "colleagues" (mkSharePolicy "pol_1" "ideas" 2 (Some (sample_spec "x" 0)))]
    | sampleRegistry false => Ok [] end;
  IdentityPolicy st id := if str_eqb id "idn_1" then Ok nostr else Err ErrNotFound;
  Policies_Get st id := Err ErrNotFound;
  Policies_GetByName st name := Err ErrNotFound;
}.

Lemma sample_registered b id :
  lacks nul id = true →
  registered sample_spec (λ _, "colleagues")
    (mkInput "prn_1" id
       (if b : bool then [mkGrant "grt_1" "colleagues" (sample_spec "ideas" 2)] else []) ["health"] None).
Proof.
  intros Hid. split; [split; [reflexivity|exact Hid| |intros k Hk; discriminate Hk|]| |intros k Hk; discriminate Hk].
  - repeat constructor.
  - destruct b; repeat constructor.
  - destruct b; repeat constructor.
Qed.

Lemma sample_active b : activeGrants
    (if b : bool then [mkActiveGrant (mkShareGrant "grt_1" "aud_1" "pol_1" None "prn_0" 0%Z None)
             "colleagues" (mkSharePolicy "pol_1" "ideas" 2 (Some (sample_spec "x" 0)))] else [])
  = Ok (if b then [mkGrant "grt_1" "colleagues" (sample_spec "ideas" 2)] else []).
Proof. destruct b; vm_compute; reflexivity. Qed.

Lemma sample_store_ok b : store_ok sample_spec (λ _, "colleagues") (sampleRegistry b).
Proof.
  intros p id now i. unfold loadInput. cbn [DenyClasses SampleRegistry_store].
  destruct (str_eqb p "prn_1") eqn:Hp; [|intros H; discriminate H]. apply str_eqb_true in Hp as ->.
  destruct b; cbn [map_err mbind result_bind ListActiveForPrincipal SampleRegistry_store];
    [rewrite (sample_active true)|rewrite (sample_active false)]; cbn [mbind result_bind];
    destruct (str_eqb id nostr) eqn:Hid; cbn [IdentityPolicy SampleRegistry_store];
    try (apply str_eqb_true in Hid as ->; intros [= <-];
         first [by apply (sample_registered true)|by apply (sample_registered false)]);
    (destruct (str_eqb id "idn_1") eqn:Hi; [|intros H; discriminate H]); apply str_eqb_true in Hi as ->;
    intros [= <-]; first [by apply (sample_registered true)|by apply (sample_registered false)].
Qed.

Lemma sample_run :
  star (resolver_step sample_spec (λ _, "colleagues")) NewResolver
    (Resolve NewResolver (sampleRegistry true) "prn_1" "person" nostr 0%Z).2.
Proof. eapply star_step; [apply step_resolve, sample_store_ok|apply star_refl]. Qed.

Lemma Resolve_coherent_witness :
  let r := (Resolve NewResolver (sampleRegistry true) "prn_1" "person" nostr 0%Z).2 in
  CacheSize r = 1 ∧
  (Resolve r (sampleRegistry false) "prn_1" "person" nostr 1%Z).1 =
    fresh (sampleRegistry false) "prn_1" "person" nostr 1%Z.
Proof.
  split; [vm_compute; reflexivity|].
  apply (Resolve_coherent sample_spec (λ _, "colleagues") _ (sampleRegistry false) "prn_1" "person" nostr 1%Z
    sample_run (sample_store_ok false)).
Defined.

Lemma Resolve_unrestricted_only_owner_witness :
  ∃ v, (Resolve NewResolver (sampleRegistry true) "prn_7" "person" nostr 0%Z).1 = Ok v ∧ v = zeroViewer.
Proof.
  eexists. split; [vm_compute; reflexivity|].
  eapply (Resolve_unrestricted_only_owner sample_spec (λ _, "colleagues") NewResolver (sampleRegistry true)
    "prn_7" "person" nostr 0%Z);
    [apply star_refl|exact (sample_store_ok true)|vm_compute; reflexivity|discriminate|vm_compute; reflexivity].
Defined.
