(* ===== verification/Fields.v ===== *)
(** * Policy fields and the derived rule

    Models [internal/sharing/fields.go]: which fields of an object a policy
    projects, and when a field some pipeline step derived may be shown. *)

From S2P Require Import Prelude GoStrings Policy.

Definition FieldTitle : string := "title".
Definition FieldSummary : string := "summary".
Definition FieldContent : string := "content".
Definition FieldSections : string := "sections".
Definition FieldDecisions : string := "decisions".
Definition FieldTasks : string := "tasks".
Definition FieldMentions : string := "mentions".
Definition FieldGraph : string := "graph".
Definition FieldTags : string := "tags".
Definition FieldMetadata : string := "metadata".
Definition FieldSource : string := "source".

(** Looking a key up in a literal Go map. *)
Fixpoint assoc {A} (m : list (string * A)) (k : string) : option A :=
  match m with
  | [] => None
  | (k', v) :: m' => if str_eqb k k' then Some v else assoc m' k
  end.

Definition fieldAliases : list (string * string) :=
  [("summaries", FieldSummary); ("text", FieldContent); ("raw_content", FieldContent);
   ("text_content", FieldContent); ("body", FieldContent); ("nodes", FieldGraph);
   ("graph_nodes", FieldGraph); ("mention", FieldMentions); ("tag", FieldTags);
   ("decision", FieldDecisions); ("task", FieldTasks); ("section", FieldSections)].

(** Step contract names of the object's fields. *)
Definition koRaw : string := "RawContent".
Definition koText : string := "TextContent".
Definition koCType : string := "ContentType".
Definition koMeta : string := "Metadata".
Definition koSummariesName : string := "Summaries".
Definition koSectionsName : string := "Sections".
Definition koTagsName : string := "Tags".
Definition koMentionsName : string := "Mentions".
Definition koDecisionsName : string := "Decisions".
Definition koTasksName : string := "Tasks".
Definition koGraphName : string := "Graph".
Definition koSourceName : string := "Source".
Definition koVectorsName : string := "Vectors".

Definition contractAliases : list (string * string) :=
  [("text", koRaw); ("content_type", koCType); ("type", "Type"); ("subtype", "Subtype");
   ("sections", koSectionsName); ("tags", koTagsName); ("mentions", koMentionsName); ("metadata", koMeta)].

Definition canonicalContractKey (key : string) : string :=
  if negb (StrContains key ".") then default key (assoc contractAliases key) else key.

Definition derivedOnly (ko : string) : bool :=
  contains [koSummariesName; koSectionsName; koDecisionsName; koTasksName; koGraphName; koMentionsName] ko.

Definition alwaysKept : list string :=
  ["ID"; "Type"; "Subtype"; "Status"; "Pipeline"; "ProfileID"; "CreatedAt"; "UpdatedAt"].

(** [StepContract] of [internal/sharing/render.go] *)
Record StepContract : Type := mkStep {
  stName : string;
  stRequires : list string;
  stProduces : list string;
}.

(** The canonical projected fields; [fsFields] is the key set of the map. *)
Record fieldSet : Type := mkFieldSet { fsAll : bool; fsFields : list string }.

Section fields.
Context `{GoUnicode}.

Definition canonicalField (f : string) : string :=
  let f := ToLower (TrimSpace f) in default f (assoc fieldAliases f).

Definition newFieldSet (fields : list string) : fieldSet :=
  let cs := map canonicalField fields in mkFieldSet (contains cs FieldAll) cs.
End fields.

Definition has (fs : fieldSet) (f : string) : bool := fsAll fs || contains (fsFields fs) f.

(** The object fields one policy field opens. *)
Definition opens (f : string) : list string :=
  if str_eqb f FieldContent then [koRaw; koText; koCType]
  else if str_eqb f FieldTitle then [koMeta +:+ ".title"]
  else if str_eqb f FieldMetadata then [koMeta]
  else if str_eqb f FieldSummary then [koSummariesName]
  else if str_eqb f FieldSections then [koSectionsName]
  else if str_eqb f FieldTags then [koTagsName]
  else if str_eqb f FieldMentions then [koMentionsName]
  else if str_eqb f FieldDecisions then [koDecisionsName]
  else if str_eqb f FieldTasks then [koTasksName]
  else if str_eqb f FieldGraph then [koGraphName]
  else if str_eqb f FieldSource then [koSourceName]
  else [].

(** The key set of the map [visibleKO] builds. *)
Definition visibleKO (fs : fieldSet) : list string :=
  alwaysKept ++
  if fsAll fs then
    [koRaw; koText; koCType; koMeta; koSummariesName; koSectionsName; koTagsName; koMentionsName;
     koDecisionsName; koTasksName; koGraphName; koSourceName; koVectorsName; "Classes"]
  else concat (map opens (fsFields fs)).

Definition requireSatisfied (key : string) (vis : list string) : bool :=
  let key := canonicalContractKey key in
  if contains vis key then true
  else if HasPrefix key (koMeta +:+ ".") then contains vis koMeta
  else false.

Definition produces (ko : string) (s : StepContract) : bool :=
  existsb (λ p, str_eqb (canonicalContractKey p) ko) (stProduces s).

(** The loop of [derivedOK]: [produced] so far, [None] for an early false. *)
Fixpoint derivedLoop (ko : string) (vis : list string) (steps : list StepContract) (produced : bool) : option bool :=
  match steps with
  | [] => Some produced
  | s :: l =>
      if negb (produces ko s) then derivedLoop ko vis l produced
      else if forallb (λ r, requireSatisfied r vis) (stRequires s) then derivedLoop ko vis l true
      else None
  end.

Definition derivedOK (ko : string) (fs : fieldSet) (vis : list string) (steps : list StepContract) : bool :=
  if fsAll fs then true
  else match derivedLoop ko vis steps false with
  | None => false
  | Some false => negb (derivedOnly ko)
  | Some true => true
  end.

(** ** Lemmas *)
Lemma derivedLoop_spec ko vis steps b :
  match derivedLoop ko vis steps b with
  | None => ∃ s, s ∈ steps ∧ produces ko s = true ∧ forallb (λ r, requireSatisfied r vis) (stRequires s) = false
  | Some b' => b' = b || existsb (produces ko) steps ∧
      ∀ s r, s ∈ steps → produces ko s = true → r ∈ stRequires s → requireSatisfied r vis = true
  end.
Proof.
  revert b. induction steps as [|s l IH]; intros b; simpl; [split; [by rewrite orb_false_r|set_solver]|].
  destruct (produces ko s) eqn:E; simpl.
  - destruct (forallb _ (stRequires s)) eqn:Ef; [|exists s; set_solver].
    specialize (IH true). destruct (derivedLoop ko vis l true) as [b'|]; [|destruct IH as (s'&?&?&?); exists s'; set_solver].
    destruct IH as [-> IH]. split; [by rewrite orb_true_r|]. rewrite forallb_forall' in Ef. set_solver.
  - specialize (IH b). destruct (derivedLoop ko vis l b) as [b'|]; [|destruct IH as (s'&?&?&?); exists s'; set_solver].
    destruct IH as [-> IH]. split; [done|]. intros s' r [->|Hs]%elem_of_cons ?; [congruence|eauto].
Qed.

(** ** Properties *)

(** The derived rule: for a policy that does not project every field, a
    derived-only part (summaries, sections, decisions, tasks, graph, mentions)
    may be rendered only when some step of the object's pipeline is known to
    produce it and every input of every step that produces it is itself
    projected; a field no step produces is rendered when it is not
    derived-only. *)
Theorem derivedOK_spec ko fs vis steps :
  fsAll fs = false →
  derivedOK ko fs vis steps = true ↔
    (∀ s r, s ∈ steps → produces ko s = true → r ∈ stRequires s → requireSatisfied r vis = true) ∧
    ((∃ s, s ∈ steps ∧ produces ko s = true) ∨ derivedOnly ko = false).
Proof.
  intros Hall. unfold derivedOK. rewrite Hall. pose proof (derivedLoop_spec ko vis steps false) as H.
  destruct (derivedLoop ko vis steps false) as [b|].
  - destruct H as [-> H]. simpl. destruct (existsb (produces ko) steps) eqn:E.
    + apply existsb_exists' in E. naive_solver.
    + rewrite negb_true_iff. split; [naive_solver|]. intros [_ [Hs|?]]; [|done].
      apply existsb_exists' in Hs. congruence.
  - split; [done|]. intros [Hr _]. destruct H as (s & Hs & Hp & Hf). exfalso.
    apply not_true_iff_false in Hf. apply Hf, forallb_forall'. eauto.
Qed.

Definition summarize_step : StepContract := mkStep "summarize" ["TextContent"] ["Summaries"].

Lemma derivedOK_spec_witness :
  derivedOK "Summaries" (mkFieldSet false ["summary"]) (visibleKO (mkFieldSet false ["summary"])) [summarize_step] = true ↔
    (∀ s r, s ∈ [summarize_step] → produces "Summaries" s = true → r ∈ stRequires s →
       requireSatisfied r (visibleKO (mkFieldSet false ["summary"])) = true) ∧
    ((∃ s, s ∈ [summarize_step] ∧ produces "Summaries" s = true) ∨ derivedOnly "Summaries" = false).
Proof. apply (derivedOK_spec "Summaries" (mkFieldSet false ["summary"])). reflexivity. Defined.
