(* ===== verification/Contact.v ===== *)
(** * Contacts rebuilt from their fields

    Models [internal/projection/contact.go]: a contact's text is written from
    the values of the fields a viewer may see, never cut out of the stored
    text. *)

From S2P Require Import Prelude GoStrings Objects Classes.

Definition TypeContact : string := "contact".
Definition NodeTypeSection : string := "section".

Definition ContactTitle : string := "title".
Definition ContactOrg : string := "org".
Definition ContactRole : string := "role".
Definition ContactCity : string := "city".
Definition ContactEmail : string := "email".
Definition ContactPhone : string := "phone".
Definition ContactAddress : string := "address".
Definition ContactTags : string := "tags".
Definition ContactNote : string := "note".

Definition ContactNoteLabel : string := "note".
Definition ContactCardLabel : string := "card".

Definition ContactFields : list string :=
  [ContactTitle; ContactRole; ContactOrg; ContactCity; ContactEmail; ContactPhone; ContactAddress; ContactTags; ContactNote].
Definition ContactCardFields : list string := [ContactTitle; ContactRole; ContactOrg; ContactCity].
Definition ContactSearchableMinimum : list string := [ContactTitle; ContactOrg; ContactRole; ContactTags; ContactCity].

Definition ContactFieldClasses (f : string) : option string :=
  if str_eqb f ContactEmail || str_eqb f ContactPhone || str_eqb f ContactAddress then Some ClassContactDetails
  else if str_eqb f ContactNote then Some ClassPersonal
  else None.

Definition newline : string := String (Ascii.ascii_of_nat 10) nostr.

Definition metaRaw (ko : KnowledgeObject) (key : string) : string :=
  default nostr (koMetadata ko !! key ≫= any_string).
Definition metaString (ko : KnowledgeObject) (key : string) : string := TrimSpace (metaRaw ko key).

Definition isNote (n : GraphNode) : bool :=
  str_eqb (gnNodeType n) NodeTypeSection && str_eqb (gnLabel n) ContactNoteLabel.
Definition isCard (n : GraphNode) : bool :=
  str_eqb (gnNodeType n) NodeTypeSection && str_eqb (gnLabel n) ContactCardLabel.

Definition contactNote (ko : KnowledgeObject) : string :=
  match koGraph ko with
  | None => nostr
  | Some g =>
      Join (map (λ n, TrimSpace (gnContent n))
             (filter (λ n, isNote n = true ∧ TrimSpace (gnContent n) ≠ nostr) (ogNodes g))) newline
  end.

Definition isScalar (f : string) : bool :=
  contains [ContactOrg; ContactRole; ContactCity; ContactEmail; ContactPhone; ContactAddress] f.

Definition ContactField (ko : KnowledgeObject) (f : string) : string :=
  if str_eqb f ContactTitle then
    let s := metaString ko "name" in
    if negb (str_eqb s nostr) then s
    else match koSummaries ko with s :: _ => TrimSpace s | [] => nostr end
  else if isScalar f then metaString ko f
  else if str_eqb f ContactTags then
    Join (filter (λ l, l ≠ nostr) (map tagLabel (koTags ko))) ", "
  else if str_eqb f ContactNote then contactNote ko
  else nostr.

(** [if head.Len() > 0 { head.WriteString(sep) }; head.WriteString(v)] when
    [v] is not empty. *)
Definition writeWith (sep v head : string) : string :=
  if str_eqb v nostr then head
  else if str_eqb head nostr then v
  else head +:+ sep +:+ v.

Definition line (label v : string) : list string := if str_eqb v nostr then [] else [label +:+ v].

(** The body of [RenderContact], over the function [value] it closes over. *)
Definition renderValues (value : string → string) : string :=
  let head := writeWith " @ " (value ContactOrg) (writeWith " | " (value ContactRole) (value ContactTitle)) in
  Join (line nostr head ++ line nostr (value ContactCity) ++
        line "Email: " (value ContactEmail) ++ line "Phone: " (value ContactPhone) ++
        line "Address: " (value ContactAddress) ++ line "Tags: " (value ContactTags) ++
        line nostr (value ContactNote)) newline.

Definition RenderContact (ko : KnowledgeObject) (fields : list string) : string :=
  renderValues (λ f, if negb (contains fields f) then nostr else ContactField ko f).

(** ** Lemmas *)
Lemma RenderContact_ext k1 k2 fields :
  (∀ f, f ∈ fields → ContactField k1 f = ContactField k2 f) → RenderContact k1 fields = RenderContact k2 fields.
Proof.
  intros H. unfold RenderContact, renderValues.
  assert (Hv : ∀ f, (if negb (contains fields f) then nostr else ContactField k1 f) =
                    (if negb (contains fields f) then nostr else ContactField k2 f)).
  { intros f. destruct (contains fields f) eqn:E; [|done]. apply contains_true in E. by apply H. }
  by rewrite !Hv.
Qed.

(** ** Properties *)

(** A contact's text depends on nothing but the values of the listed
    fields: two contacts that agree on them render to the same text, whatever
    else they hold (a withheld email, note, summary, stored card), and a contact
    none of whose listed fields has a value renders to the empty text. *)
Theorem RenderContact_noninterference k1 k2 fields :
  (∀ f, f ∈ fields → ContactField k1 f = ContactField k2 f) →
  RenderContact k1 fields = RenderContact k2 fields ∧
  ((∀ f, f ∈ fields → ContactField k1 f = nostr) → RenderContact k2 fields = nostr).
Proof.
  intros H. split; [by apply RenderContact_ext|]. intros Hn.
  unfold RenderContact.
  assert (Hv : ∀ f, (if negb (contains fields f) then nostr else ContactField k2 f) = nostr).
  { intros f. destruct (contains fields f) eqn:E; [|done]. apply contains_true in E.
    cbn. by rewrite <- (H f E), Hn. }
  unfold renderValues. by rewrite !Hv.
Qed.

Definition empty_object : KnowledgeObject :=
  mkKO "c-1" TypeContact nostr nostr nostr nostr ∅ [] [] [] [] [] [] nostr nostr [] nostr nostr nostr nostr
    0 None None None 0 0 false nostr [] [] None.

Definition with_metadata (ko : KnowledgeObject) (m : gmap string Any) : KnowledgeObject :=
  mkKO (koID ko) (koType ko) (koSubtype ko) (koRawContent ko) (koTextContent ko) (koContentType ko) m
    (koSummaries ko) (koSections ko) (koTags ko) (koMentions ko) (koDecisions ko) (koTasks ko) (koPipeline ko)
    (koSource ko) (koRegistryInfluences ko) (koContentHash ko) (koSourceKey ko) (koStatus ko) (koInboxNote ko)
    (koReinforcementCount ko) (koLastReinforcedAt ko) (koRemindAt ko) (koRemindedAt ko) (koCreatedAt ko)
    (koUpdatedAt ko) (koFTSIndexed ko) (koProfileID ko) (koClasses ko) (koAttachmentIDs ko) (koGraph ko).

Definition ana : KnowledgeObject :=
  with_metadata empty_object {["name" := AStr "Ana"; "org" := AStr "Acme"; "email" := AStr "a@b"]}.
Definition ana_card : KnowledgeObject := with_metadata empty_object {["name" := AStr "Ana"; "org" := AStr "Acme"]}.

Lemma RenderContact_noninterference_witness :
  RenderContact ana [ContactTitle; ContactOrg] = "Ana @ Acme" ∧
  RenderContact ana [ContactTitle; ContactOrg] = RenderContact ana_card [ContactTitle; ContactOrg].
Proof.
  split; [vm_compute; reflexivity|].
  refine (proj1 (RenderContact_noninterference ana ana_card [ContactTitle; ContactOrg] _)).
  intros f Hf. apply elem_of_cons in Hf as [->|Hf]; [vm_compute; reflexivity|].
  apply elem_of_cons in Hf as [->|Hf]; [vm_compute; reflexivity|]. by apply not_elem_of_nil in Hf.
Defined.
