(* ===== verification/Render.v ===== *)
(** * The render layer

    Models [internal/sharing/render.go]: the copy of an object a viewer gets,
    and the values the copy left out.  A renderer method that records withheld
    values is a computation of the writer monad [W]; the copy starts from
    [alwaysKeptCopy] and each method fills its own fields.  Ranging over a
    metadata map has no fixed order in Go; only membership of the strings it
    yields is used. *)

From S2P Require Import Prelude GoStrings RsqlLexer Objects Classes Policy PolicyCompile Fields Contact.

Record Withheld : Type := mkWithheld { whCategory : string; whValue : string }.
#[export] Instance Withheld_eq_dec : EqDecision Withheld.
Proof. solve_decision. Defined.

Record Rendered : Type := mkRendered { rdObject : option KnowledgeObject; rdWithheld : list Withheld }.

Definition CanaryMinRunes : nat := 6.

(** ** The writer of withheld values *)
Record W (A : Type) : Type := mkW { wVal : A; wLog : list Withheld }.
Arguments mkW {A} _ _.
Arguments wVal {A} _.
Arguments wLog {A} _.
#[export] Instance W_ret : MRet W := λ A a, mkW a [].
#[export] Instance W_bind : MBind W := λ A B f m, let r := f (wVal m) in mkW (wVal r) (wLog m ++ wLog r).

(** [withhold] *)
Definition withhold (category : string) (values : list string) : W unit :=
  mkW tt (map (mkWithheld category) (filter (λ v, TrimSpace v ≠ nostr) values)).

(** [for _, x := range l { ... }] *)
Fixpoint for_w {A} (f : A → W unit) (l : list A) : W unit :=
  match l with [] => mret tt | x :: l' => f x ≫= λ _, for_w f l' end.

(** A field copied when projected, withheld (or only dropped) otherwise. *)
Definition keep_or {A} (b : bool) (v zero : A) (otherwise : W unit) : W A :=
  if b then mret v else otherwise ≫= λ _, mret zero.

Record renderer : Type := mkRenderer {
  rrObj : KnowledgeObject;
  rrPlan : RenderPlan;
  rrFs : fieldSet;
  rrVis : list string;
  rrSteps : list StepContract;
}.

(** [keptStrings] and [metadataStrings] *)
Fixpoint metadataStrings (v : Any) : list string :=
  match v with
  | AStr s => [s]
  | AMap m => concat (map (λ '(_, e), metadataStrings e) m)
  | AList l => concat (map metadataStrings l)
  | _ => []
  end.

Definition keptStrings (o : KnowledgeObject) : list string :=
  [koRawContent o; koTextContent o; koSource o] ++ koSummaries o ++
  concat (map (λ s, [secTitle s; secContent s]) (koSections o)) ++
  map tagLabel (koTags o) ++ koMentions o ++
  concat (map (λ d, [decTitle d; decImpact d]) (koDecisions o)) ++
  map taskTitle (koTasks o) ++
  concat (map (λ '(_, e), metadataStrings e) (map_to_list (koMetadata o))) ++
  match koGraph o with None => [] | Some g => concat (map (λ n, [gnLabel n; gnContent n]) (ogNodes g)) end.

Section renderer.
Context (r : renderer).

Definition ok (ko : string) : bool := derivedOK ko (rrFs r) (rrVis r) (rrSteps r).
Definition excludes (classes : list string) : bool := ExcludesAny (rrPlan r) classes.

(** ** filterGraph *)
Definition filterNode (rewrite : GraphNode → option GraphNode) (n : GraphNode) : W (list GraphNode) :=
  let classes := NodeClasses n in
  if excludes classes then
    _ ← withhold (Join classes ",") [gnContent n]; mret []
  else mret [default n (rewrite n)].

Fixpoint filterNodes (rewrite : GraphNode → option GraphNode) (l : list GraphNode) : W (list GraphNode) :=
  match l with
  | [] => mret []
  | n :: l' => a ← filterNode rewrite n; b ← filterNodes rewrite l'; mret (a ++ b)
  end.

(** The edges between kept nodes; [kept] is a set of node ids. *)
Definition keptEdges (nodes : list GraphNode) (edges : list GraphEdge) : list GraphEdge :=
  let kept := map gnID nodes in
  filter (λ e, contains kept (geFromID e) && contains kept (geToID e) = true) edges.

(** The graph, nil when no node is left. *)
Definition graph_of (nodes : list GraphNode) (edges : list GraphEdge) : option ObjectGraph :=
  match nodes with [] => None | _ => Some (mkObjectGraph nodes (keptEdges nodes edges)) end.

Definition filterGraph (g : ObjectGraph) (rewrite : GraphNode → option GraphNode) : W (option ObjectGraph) :=
  nodes ← filterNodes rewrite (ogNodes g);
  mret (graph_of nodes (ogEdges g)).

(** ** Objects without a structured renderer *)
Definition genericMetadata : W (gmap string Any) :=
  let obj := rrObj r in
  let title := koMetadata obj !! "title" ≫= any_string in
  if has (rrFs r) FieldMetadata && ok koMeta then mret (koMetadata obj)
  else if has (rrFs r) FieldTitle && ok koMeta then
    mret match title with
         | Some t => if negb (str_eqb t nostr) then {["title" := AStr t]} else ∅
         | None => ∅
         end
  else
    _ ← match title with Some t => withhold FieldTitle [t] | None => mret tt end;
    mret ∅.

Definition genericGraph : W (option ObjectGraph) :=
  match koGraph (rrObj r) with
  | None => mret None
  | Some g =>
      if negb (has (rrFs r) FieldGraph) || negb (ok koGraphName) then
        _ ← for_w (λ n, withhold FieldGraph [gnContent n]) (ogNodes g); mret None
      else filterGraph g (λ _, None)
  end.

(** [alwaysKeptCopy], with the fields a renderer fills. *)
Definition alwaysKeptCopy (raw text ctype : string) (meta : gmap string Any) (summaries : list string)
    (sections : list Section_) (tags : list Tag) (mentions : list string) (decisions : list Decision_)
    (tasks : list Task) (source : string) (graph : option ObjectGraph) : KnowledgeObject :=
  let obj := rrObj r in
  mkKO (koID obj) (koType obj) (koSubtype obj) raw text ctype meta summaries sections tags mentions decisions
    tasks (koPipeline obj) source [] nostr nostr (koStatus obj) nostr 0 None None None (koCreatedAt obj)
    (koUpdatedAt obj) false (koProfileID obj) [] [] graph.

Definition generic : W KnowledgeObject :=
  let obj := rrObj r in
  let fs := rrFs r in
  '(raw, text, ctype) ← keep_or (has fs FieldContent)
    (koRawContent obj, koTextContent obj, koContentType obj) (nostr, nostr, nostr)
    (withhold FieldContent [koRawContent obj; koTextContent obj]);
  summaries ← keep_or (has fs FieldSummary && ok koSummariesName) (koSummaries obj) []
    (withhold FieldSummary (koSummaries obj));
  sections ← keep_or (has fs FieldSections && ok koSectionsName) (koSections obj) []
    (for_w (λ s, withhold FieldSections [secTitle s; secContent s]) (koSections obj));
  decisions ← keep_or (has fs FieldDecisions && ok koDecisionsName) (koDecisions obj) []
    (for_w (λ d, withhold FieldDecisions [decTitle d; decImpact d]) (koDecisions obj));
  tasks ← keep_or (has fs FieldTasks && ok koTasksName) (koTasks obj) []
    (for_w (λ t, withhold FieldTasks [taskTitle t]) (koTasks obj));
  mentions ← keep_or (has fs FieldMentions && ok koMentionsName) (koMentions obj) [] (mret tt);
  tags ← keep_or (has fs FieldTags && ok koTagsName) (koTags obj) [] (mret tt);
  source ← keep_or (has fs FieldSource) (koSource obj) nostr (mret tt);
  meta ← genericMetadata;
  graph ← genericGraph;
  mret (alwaysKeptCopy raw text ctype meta summaries sections tags mentions decisions tasks source graph).

(** ** Contacts *)
Definition fieldShown (f : string) : bool :=
  if match ContactFieldClasses f with Some class => excludes [class] | None => false end
  then false else has (rrFs r) f.

Fixpoint contactFieldsLoop (l : list string) : W (list string) :=
  match l with
  | [] => mret []
  | f :: l' =>
      if fieldShown f then visible ← contactFieldsLoop l'; mret (f :: visible)
      else
        _ ← (if negb (str_eqb f ContactTags) then withhold f [ContactField (rrObj r) f] else mret tt);
        contactFieldsLoop l'
  end.
Definition contactFields : W (list string) := contactFieldsLoop ContactFields.

(** The metadata key of a contact field; none for tags and note. *)
Definition contactKey (f : string) : option string :=
  if str_eqb f ContactTitle then Some "name" else if isScalar f then Some f else None.

Definition contactMetadata (obj : KnowledgeObject) (visible : list string) : gmap string Any :=
  foldl (λ out f,
    match contactKey f with
    | None => out
    | Some key =>
        match koMetadata obj !! key ≫= any_string with
        | Some v => if negb (str_eqb v nostr) then <[key := AStr v]> out else out
        | None => out
        end
    end) ∅ visible.

Definition set_content (n : GraphNode) (c : string) : GraphNode :=
  mkGraphNode (gnID n) (gnNodeType n) (gnLabel n) c (gnOrder n) (gnMetadata n).

(** One turn of the second loop of [contactGraph]. *)
Definition contactNode (card : string) (note : bool) (n : GraphNode) : W (list GraphNode) :=
  if isCard n && negb (str_eqb card nostr) then mret [n]
  else if isNote n && note then mret [n]
  else
    _ ← (if negb (isCard n) then withhold FieldGraph [gnContent n] else mret tt);
    mret [].

Fixpoint contactNodes (card : string) (note : bool) (l : list GraphNode) : W (list GraphNode) :=
  match l with
  | [] => mret []
  | n :: l' => a ← contactNode card note n; b ← contactNodes card note l'; mret (a ++ b)
  end.

Definition contactGraph (visible : list string) : W (option ObjectGraph) :=
  match koGraph (rrObj r) with
  | None => mret None
  | Some g =>
      let note := contains visible ContactNote in
      let card := RenderContact (rrObj r) (keep_in visible ContactCardFields) in
      filtered ← filterGraph g (λ n, if isCard n then Some (set_content n card) else None);
      match filtered with
      | None => mret None
      | Some fg =>
          nodes ← contactNodes card note (ogNodes fg);
          mret (graph_of nodes (ogEdges fg))
      end
  end.

Definition renderContact : W KnowledgeObject :=
  let obj := rrObj r in
  visible ← contactFields;
  _ ← withhold FieldContent [koRawContent obj; koTextContent obj];
  _ ← withhold FieldSummary (koSummaries obj);
  _ ← for_w (λ s, withhold FieldSections [secTitle s; secContent s]) (koSections obj);
  graph ← contactGraph visible;
  mret (alwaysKeptCopy (RenderContact obj visible) nostr nostr (contactMetadata obj visible) [] []
    (if contains visible ContactTags then koTags obj else []) [] [] [] nostr graph).
End renderer.

(** ** finish *)
Fixpoint finishLoop (kept : list string) (seen : list string) (l : list Withheld) : list Withheld :=
  match l with
  | [] => []
  | w :: l' =>
      if (RuneCount (whValue w) <? CanaryMinRunes) || contains seen (whValue w) then finishLoop kept seen l'
      else if existsb (λ k, StrContains k (whValue w)) kept then finishLoop kept seen l'
      else w :: finishLoop kept (whValue w :: seen) l'
  end.

Definition finish (out : KnowledgeObject) (withheld : list Withheld) : list Withheld :=
  finishLoop (keptStrings out) [] withheld.

(** [Provenance]: [None] for a nil one; it returns no step for a pipeline it
    does not know. *)
Definition Provenance : Type := option (string → list StepContract).

Section render.
Context `{GoUnicode}.

Definition newRenderer (v : Viewer) (obj : KnowledgeObject) (prov : Provenance) : renderer :=
  let plan := Plan v in
  let fs := newFieldSet (Plan_FieldsFor plan (koType obj)) in
  let steps := match prov with
               | Some p => if negb (str_eqb (koPipeline obj) nostr) then p (koPipeline obj) else []
               | None => [] end in
  mkRenderer obj plan fs (visibleKO fs) steps.

Definition Render (v : Viewer) (obj : option KnowledgeObject) (prov : Provenance) : Rendered :=
  match obj with
  | None => mkRendered None []
  | Some obj =>
      if vUnrestricted v then mkRendered (Some obj) []
      else
        let r := newRenderer v obj prov in
        let out := if str_eqb (koType obj) TypeContact then renderContact r else generic r in
        mkRendered (Some (wVal out)) (finish (wVal out) (wLog out))
  end.
End render.
