(* ===== verification/RenderSafety.v ===== *)
(** * What a rendered object may depend on

    Theorems about [Render]: an unrestricted viewer gets the object itself;
    a restricted viewer's copy is a function of what its plan projects
    (noninterference, for plain objects and for contacts); class-excluded nodes
    and dangling edges never survive; and the withheld values handed to the
    backstop are long enough, distinct and absent from the copy. *)

From S2P Require Import Prelude GoStrings RsqlLexer RsqlCompiler Objects Classes Policy PolicyCompile ViewerSpec Fields Contact Render.

(** ** Lemmas: the writer *)
Lemma wVal_bind {A B} (m : W A) (f : A → W B) : wVal (m ≫= f) = wVal (f (wVal m)).
Proof. done. Qed.
Lemma wLog_bind {A B} (m : W A) (f : A → W B) : wLog (m ≫= f) = wLog m ++ wLog (f (wVal m)).
Proof. done. Qed.
Lemma wVal_ret {A} (a : A) : wVal (mret a) = a.
Proof. done. Qed.
Lemma wVal_keep_or {A} (b : bool) (v zero : A) o : wVal (keep_or b v zero o) = if b then v else zero.
Proof. by destruct b. Qed.

(** ** Lemmas: graphs *)
Section graphs.
Context (r : renderer).

Lemma filterNodes_val rewrite l :
  wVal (filterNodes r rewrite l) =
    map (λ n, default n (rewrite n)) (filter (λ n, excludes r (NodeClasses n) = false) l).
Proof.
  induction l as [|n l IH]; [done|]. cbn [filterNodes]. rewrite !wVal_bind, wVal_ret, IH.
  unfold filterNode. rewrite filter_cons. by destruct (excludes r (NodeClasses n)).
Qed.

Lemma contactNodes_val card note l :
  wVal (contactNodes card note l) =
    filter (λ n, (isCard n && negb (str_eqb card nostr)) || (isNote n && note) = true) l.
Proof.
  induction l as [|n l IH]; [done|]. cbn [contactNodes]. rewrite !wVal_bind, wVal_ret, IH.
  unfold contactNode. rewrite filter_cons.
  destruct (isCard n && negb (str_eqb card nostr)); simpl; [done|].
  by destruct (isNote n && note).
Qed.

Lemma keptEdges_spec nodes edges e :
  e ∈ keptEdges nodes edges ↔ e ∈ edges ∧
    (∃ n, n ∈ nodes ∧ gnID n = geFromID e) ∧ (∃ n, n ∈ nodes ∧ gnID n = geToID e).
Proof.
  unfold keptEdges. rewrite list_elem_of_filter, andb_true_iff, !contains_true.
  change (map gnID nodes) with (gnID <$> nodes). rewrite !list_elem_of_fmap. naive_solver.
Qed.

Lemma keptEdges_mono nodes1 nodes2 edges :
  (∀ i, i ∈ map gnID nodes1 → i ∈ map gnID nodes2) →
  keptEdges nodes1 (keptEdges nodes2 edges) = keptEdges nodes1 edges.
Proof.
  intros H. unfold keptEdges. induction edges as [|e l IH]; [done|].
  rewrite !filter_cons. repeat case_decide; rewrite ?filter_cons, ?IH.
  - by rewrite decide_True by done.
  - by rewrite decide_False by done.
  - exfalso. rewrite !andb_true_iff, !contains_true in *. naive_solver.
  - done.
Qed.

Lemma graph_of_nodes nodes edges g : graph_of nodes edges = Some g → ogNodes g = nodes ∧ ogEdges g = keptEdges nodes edges.
Proof. destruct nodes; [done|]. intros H. by injection H as <-. Qed.

Lemma genericGraph_val :
  wVal (genericGraph r) =
    match koGraph (rrObj r) with
    | None => None
    | Some g =>
        if has (rrFs r) FieldGraph && ok r koGraphName
        then graph_of (filter (λ n, excludes r (NodeClasses n) = false) (ogNodes g)) (ogEdges g)
        else None
    end.
Proof.
  unfold genericGraph. destruct (koGraph (rrObj r)) as [g|]; [|done].
  destruct (has (rrFs r) FieldGraph), (ok r koGraphName); simpl; try done.
  rewrite filterNodes_val. by rewrite map_id.
Qed.

(** The nodes of a contact that may be shown at all. *)
Definition contactShown (note : bool) (n : GraphNode) : bool :=
  negb (excludes r (NodeClasses n)) && (isCard n || (isNote n && note)).

(** The nodes of the rendered contact graph. *)
Definition contactFinal (card : string) (note : bool) (l : list GraphNode) : list GraphNode :=
  filter (λ n, (isCard n && negb (str_eqb card nostr)) || (isNote n && note) = true)
    (map (λ n, default n (if isCard n then Some (set_content n card) else None))
       (filter (λ n, excludes r (NodeClasses n) = false) l)).

Lemma contactGraph_val visible :
  wVal (contactGraph r visible) =
    match koGraph (rrObj r) with
    | None => None
    | Some g =>
        graph_of (contactFinal (RenderContact (rrObj r) (keep_in visible ContactCardFields))
                    (contains visible ContactNote) (ogNodes g)) (ogEdges g)
    end.
Proof.
  unfold contactGraph. destruct (koGraph (rrObj r)) as [g|]; [|done].
  rewrite wVal_bind. unfold filterGraph at 1. rewrite wVal_bind, wVal_ret, filterNodes_val.
  unfold contactFinal. set (card := RenderContact _ _). set (ns := map _ _).
  destruct (graph_of ns (ogEdges g)) as [fg|] eqn:E.
  - apply graph_of_nodes in E as [Hn He]. rewrite wVal_bind, wVal_ret, contactNodes_val, Hn, He.
    set (ns' := filter _ ns). assert (keptEdges ns' (keptEdges ns (ogEdges g)) = keptEdges ns' (ogEdges g)) as Hk.
    { apply keptEdges_mono. intros i. change (map gnID) with (fmap (M := list) gnID).
      rewrite !list_elem_of_fmap. intros (n & -> & Hi). exists n. split; [done|].
      by apply list_elem_of_filter in Hi as [_ Hi]. }
    unfold graph_of. destruct ns' eqn:Hns; [done|]. by rewrite Hk.
  - assert (ns = []) as -> by (by destruct ns). done.
Qed.

Lemma contactFields_val : wVal (contactFields r) = filter (λ f, fieldShown r f = true) ContactFields.
Proof.
  unfold contactFields. generalize ContactFields as l. intros l. induction l as [|f l IH]; [done|].
  cbn [contactFieldsLoop]. rewrite filter_cons. destruct (fieldShown r f); rewrite wVal_bind, ?wVal_ret, IH; done.
Qed.

Lemma generic_val :
  let obj := rrObj r in let fs := rrFs r in
  wVal (generic r) =
    let c := has fs FieldContent in
    alwaysKeptCopy r (if c then koRawContent obj else nostr) (if c then koTextContent obj else nostr)
      (if c then koContentType obj else nostr) (wVal (genericMetadata r))
      (if has fs FieldSummary && ok r koSummariesName then koSummaries obj else [])
      (if has fs FieldSections && ok r koSectionsName then koSections obj else [])
      (if has fs FieldTags && ok r koTagsName then koTags obj else [])
      (if has fs FieldMentions && ok r koMentionsName then koMentions obj else [])
      (if has fs FieldDecisions && ok r koDecisionsName then koDecisions obj else [])
      (if has fs FieldTasks && ok r koTasksName then koTasks obj else [])
      (if has fs FieldSource then koSource obj else nostr) (wVal (genericGraph r)).
Proof.
  unfold generic. cbv zeta. rewrite wVal_bind, wVal_keep_or.
  destruct (has (rrFs r) FieldContent); rewrite !wVal_bind, !wVal_keep_or; reflexivity.
Qed.

Lemma genericMetadata_val :
  let title := koMetadata (rrObj r) !! "title" ≫= any_string in
  wVal (genericMetadata r) =
    if has (rrFs r) FieldMetadata && ok r koMeta then koMetadata (rrObj r)
    else if has (rrFs r) FieldTitle && ok r koMeta then
      match title with Some t => if negb (str_eqb t nostr) then {["title" := AStr t]} else ∅ | None => ∅ end
    else ∅.
Proof.
  unfold genericMetadata. destruct (has (rrFs r) FieldMetadata && ok r koMeta); [done|].
  by destruct (has (rrFs r) FieldTitle && ok r koMeta).
Qed.
End graphs.

(** ** Lemmas: a contact's graph is a function of its outline *)
Definition blank (n : GraphNode) : GraphNode := if isCard n then set_content n nostr else n.
Definition recard (card : string) (n : GraphNode) : GraphNode := if isCard n then set_content n card else n.

(** A contact's graph with the nodes a viewer may see, card texts blanked. *)
Definition contact_outline (r : renderer) (note : bool) (o : KnowledgeObject)
    : option (list GraphNode * list GraphEdge) :=
  g ← koGraph o;
  let ns := filter (λ n, contactShown r note n = true) (ogNodes g) in
  Some (map blank ns, keptEdges ns (ogEdges g)).

Lemma isCard_set_content n c : isCard (set_content n c) = isCard n.
Proof. done. Qed.
Lemma isNote_set_content n c : isNote (set_content n c) = isNote n.
Proof. done. Qed.

Lemma contactFinal_outline r card note l :
  contactFinal r card note l =
    filter (λ n, (isCard n && negb (str_eqb card nostr)) || (isNote n && note) = true)
      (map (recard card) (map blank (filter (λ n, contactShown r note n = true) l))).
Proof.
  unfold contactFinal. induction l as [|n l IH]; [done|].
  rewrite !(filter_cons _ n l).
  assert (Hs : contactShown r note n = negb (excludes r (NodeClasses n)) && (isCard n || (isNote n && note))) by done.
  destruct (excludes r (NodeClasses n)); cbn [negb andb] in Hs; [by rewrite Hs|].
  rewrite Hs. rewrite decide_True by done. cbn [map].
  assert (Hr : default n (if isCard n then Some (set_content n card) else None) = recard card (blank n)).
  { unfold recard, blank. by destruct (isCard n) eqn:Ec; rewrite ?isCard_set_content, Ec. }
  assert (Hc : isCard (recard card (blank n)) = isCard n ∧ isNote (recard card (blank n)) = isNote n).
  { unfold recard, blank. by destruct (isCard n) eqn:Ec; rewrite ?isCard_set_content, ?Ec, ?isNote_set_content. }
  destruct Hc as [Hc Hn]. rewrite Hr, (filter_cons _ (recard card (blank n))), Hc, Hn, IH.
  destruct (isCard n) eqn:Ec, (isNote n) eqn:En, note; cbn [andb orb];
    rewrite ?(decide_True (P := true = true)), ?(decide_False (P := false = true)) by done; cbn [map];
    rewrite ?(filter_cons _ (recard card (blank n))), ?Hc, ?Hn; try done; by destruct (str_eqb card nostr).
Qed.

Lemma map_gnID_blank l : map gnID (map blank l) = map gnID l.
Proof. rewrite map_map. apply map_ext. intros n. unfold blank. by destruct (isCard n). Qed.
Lemma map_gnID_recard c l : map gnID (map (recard c) l) = map gnID l.
Proof. rewrite map_map. apply map_ext. intros n. unfold recard. by destruct (isCard n). Qed.

Lemma contactFinal_ids r card note l i :
  i ∈ map gnID (contactFinal r card note l) → i ∈ map gnID (filter (λ n, contactShown r note n = true) l).
Proof.
  rewrite contactFinal_outline. set (ns := filter (λ n, contactShown r note n = true) l).
  intros Hi. apply list_elem_of_fmap in Hi as (n & -> & Hn). apply list_elem_of_filter in Hn as [_ Hn].
  apply (list_elem_of_fmap_2 gnID) in Hn.
  change (gnID n ∈ map gnID (map (recard card) (map blank ns))) in Hn.
  by rewrite map_gnID_recard, map_gnID_blank in Hn.
Qed.

Lemma contact_graph_outline r card note g1 g2 :
  (λ g, (map blank (filter (λ n, contactShown r note n = true) (ogNodes g)),
         keptEdges (filter (λ n, contactShown r note n = true) (ogNodes g)) (ogEdges g))) g1 =
  (λ g, (map blank (filter (λ n, contactShown r note n = true) (ogNodes g)),
         keptEdges (filter (λ n, contactShown r note n = true) (ogNodes g)) (ogEdges g))) g2 →
  graph_of (contactFinal r card note (ogNodes g1)) (ogEdges g1) =
  graph_of (contactFinal r card note (ogNodes g2)) (ogEdges g2).
Proof.
  simpl. intros [= Hn He].
  assert (Hf : contactFinal r card note (ogNodes g1) = contactFinal r card note (ogNodes g2))
    by (by rewrite !contactFinal_outline, Hn).
  unfold graph_of. rewrite <- (keptEdges_mono _ _ (ogEdges g1) (contactFinal_ids r card note (ogNodes g1))).
  rewrite <- (keptEdges_mono _ _ (ogEdges g2) (contactFinal_ids r card note (ogNodes g2))).
  by rewrite He, Hf.
Qed.

(** ** Agreement on what a viewer may see *)

(** The fields every rendered object keeps. *)
Record same_kept (o1 o2 : KnowledgeObject) : Prop := {
  sk_id : koID o1 = koID o2;
  sk_type : koType o1 = koType o2;
  sk_subtype : koSubtype o1 = koSubtype o2;
  sk_status : koStatus o1 = koStatus o2;
  sk_pipeline : koPipeline o1 = koPipeline o2;
  sk_profile : koProfileID o1 = koProfileID o2;
  sk_created : koCreatedAt o1 = koCreatedAt o2;
  sk_updated : koUpdatedAt o1 = koUpdatedAt o2;
}.

Definition visible_graph (r : renderer) (o : KnowledgeObject) : option (list GraphNode * list GraphEdge) :=
  g ← koGraph o;
  let ns := filter (λ n, excludes r (NodeClasses n) = false) (ogNodes g) in
  Some (ns, keptEdges ns (ogEdges g)).

Definition title_of (o : KnowledgeObject) : option string := koMetadata o !! "title" ≫= any_string.

(** The projected parts of a plain object. *)
Record same_projected (r : renderer) (o1 o2 : KnowledgeObject) : Prop := {
  sp_content : has (rrFs r) FieldContent = true →
    koRawContent o1 = koRawContent o2 ∧ koTextContent o1 = koTextContent o2 ∧ koContentType o1 = koContentType o2;
  sp_summaries : has (rrFs r) FieldSummary && ok r koSummariesName = true → koSummaries o1 = koSummaries o2;
  sp_sections : has (rrFs r) FieldSections && ok r koSectionsName = true → koSections o1 = koSections o2;
  sp_decisions : has (rrFs r) FieldDecisions && ok r koDecisionsName = true → koDecisions o1 = koDecisions o2;
  sp_tasks : has (rrFs r) FieldTasks && ok r koTasksName = true → koTasks o1 = koTasks o2;
  sp_mentions : has (rrFs r) FieldMentions && ok r koMentionsName = true → koMentions o1 = koMentions o2;
  sp_tags : has (rrFs r) FieldTags && ok r koTagsName = true → koTags o1 = koTags o2;
  sp_source : has (rrFs r) FieldSource = true → koSource o1 = koSource o2;
  sp_metadata : has (rrFs r) FieldMetadata && ok r koMeta = true → koMetadata o1 = koMetadata o2;
  sp_title : has (rrFs r) FieldTitle && ok r koMeta = true → title_of o1 = title_of o2;
  sp_graph : has (rrFs r) FieldGraph && ok r koGraphName = true → visible_graph r o1 = visible_graph r o2;
}.

(** The visible parts of a contact. *)
Record same_contact (r : renderer) (o1 o2 : KnowledgeObject) : Prop := {
  sc_fields : ∀ f, f ∈ ContactFields → fieldShown r f = true → ContactField o1 f = ContactField o2 f;
  sc_metadata : ∀ f key, f ∈ ContactFields → fieldShown r f = true → contactKey f = Some key →
    koMetadata o1 !! key ≫= any_string = koMetadata o2 !! key ≫= any_string;
  sc_tags : fieldShown r ContactTags = true → koTags o1 = koTags o2;
  sc_graph : contact_outline r (fieldShown r ContactNote) o1 = contact_outline r (fieldShown r ContactNote) o2;
}.

Definition with_obj (r : renderer) (o : KnowledgeObject) : renderer :=
  mkRenderer o (rrPlan r) (rrFs r) (rrVis r) (rrSteps r).

Lemma same_copy r o1 o2 raw text ctype meta su se tg me de ta so gr :
  same_kept o1 o2 →
  alwaysKeptCopy (with_obj r o1) raw text ctype meta su se tg me de ta so gr =
  alwaysKeptCopy (with_obj r o2) raw text ctype meta su se tg me de ta so gr.
Proof.
  intros [H1 H2 H3 H4 H5 H6 H7 H8]. unfold alwaysKeptCopy. cbn [with_obj rrObj].
  by rewrite H1, H2, H3, H4, H5, H6, H7, H8.
Qed.

Lemma if_same {A} (b : bool) (x y z : A) : (b = true → x = y) → (if b then x else z) = if b then y else z.
Proof. destruct b; intros H; [by apply H|done]. Qed.

Lemma generic_same r o1 o2 :
  same_kept o1 o2 → same_projected r o1 o2 → wVal (generic (with_obj r o1)) = wVal (generic (with_obj r o2)).
Proof.
  intros Hk Hp. rewrite !generic_val. cbv zeta. rewrite (same_copy r o1 o2) by done.
  rewrite !genericMetadata_val, !genericGraph_val. cbn [with_obj rrObj rrFs].
  change (ok (with_obj r o1)) with (ok r). change (ok (with_obj r o2)) with (ok r).
  change (excludes (with_obj r o1)) with (excludes r). change (excludes (with_obj r o2)) with (excludes r).
  destruct Hp as [Hc Hsu Hse Hde Hta Hme Htg Hso Hm Ht Hg].
  f_equal.
  - apply if_same. intros Hb. by destruct (Hc Hb) as (? & ? & ?).
  - apply if_same. intros Hb. by destruct (Hc Hb) as (? & ? & ?).
  - apply if_same. intros Hb. by destruct (Hc Hb) as (? & ? & ?).
  - unfold title_of in Ht.
    destruct (has (rrFs r) FieldMetadata && ok r koMeta); [by apply Hm|].
    destruct (has (rrFs r) FieldTitle && ok r koMeta); [|done]. by rewrite Ht.
  - exact (if_same _ _ _ _ Hsu).
  - exact (if_same _ _ _ _ Hse).
  - exact (if_same _ _ _ _ Htg).
  - exact (if_same _ _ _ _ Hme).
  - exact (if_same _ _ _ _ Hde).
  - exact (if_same _ _ _ _ Hta).
  - exact (if_same _ _ _ _ Hso).
  - unfold visible_graph in Hg.
    destruct (has (rrFs r) FieldGraph && ok r koGraphName); [|by destruct (koGraph o1), (koGraph o2)].
    specialize (Hg eq_refl).
    destruct (koGraph o1) as [g1|], (koGraph o2) as [g2|]; try done. cbn in Hg.
    injection Hg as Hn He. unfold graph_of. by rewrite Hn in *; rewrite He.
Qed.

(** ** Lemmas: contacts *)
Definition shownFields (r : renderer) : list string := filter (λ f, fieldShown r f = true) ContactFields.

Lemma renderContact_val r :
  let visible := shownFields r in
  wVal (renderContact r) =
    alwaysKeptCopy r (RenderContact (rrObj r) visible) nostr nostr (contactMetadata (rrObj r) visible) [] []
      (if contains visible ContactTags then koTags (rrObj r) else []) [] [] [] nostr
      (wVal (contactGraph r visible)).
Proof.
  cbv zeta. unfold renderContact. rewrite wVal_bind, contactFields_val. fold (shownFields r).
  rewrite !wVal_bind, wVal_ret. reflexivity.
Qed.

Lemma elem_of_shownFields r f : f ∈ shownFields r ↔ f ∈ ContactFields ∧ fieldShown r f = true.
Proof. unfold shownFields. rewrite list_elem_of_filter. tauto. Qed.

Lemma contains_shownFields r f : f ∈ ContactFields → contains (shownFields r) f = fieldShown r f.
Proof. intros Hf. apply eq_true_iff_eq. rewrite contains_true, elem_of_shownFields. tauto. Qed.

Lemma contactMetadata_ext o1 o2 visible :
  (∀ f key, f ∈ visible → contactKey f = Some key →
     koMetadata o1 !! key ≫= any_string = koMetadata o2 !! key ≫= any_string) →
  contactMetadata o1 visible = contactMetadata o2 visible.
Proof.
  unfold contactMetadata. generalize (∅ : gmap string Any) as out. induction visible as [|f l IH]; intros out H; [done|].
  cbn [foldl]. assert (Hl : ∀ g key, g ∈ l → contactKey g = Some key →
    koMetadata o1 !! key ≫= any_string = koMetadata o2 !! key ≫= any_string) by (intros; eapply H; set_solver).
  destruct (contactKey f) as [key|] eqn:E; [|by apply IH].
  rewrite (H f key) by (set_solver || done). by apply IH.
Qed.

Lemma ContactNote_field : ContactNote ∈ ContactFields.
Proof. apply contains_true. reflexivity. Qed.
Lemma ContactTags_field : ContactTags ∈ ContactFields.
Proof. apply contains_true. reflexivity. Qed.

Lemma contact_same r o1 o2 :
  same_kept o1 o2 → same_contact r o1 o2 →
  wVal (renderContact (with_obj r o1)) = wVal (renderContact (with_obj r o2)).
Proof.
  intros Hk [Hf Hm Ht Hg]. rewrite !renderContact_val. cbv zeta. rewrite (same_copy r o1 o2) by done.
  change (shownFields (with_obj r o1)) with (shownFields r). change (shownFields (with_obj r o2)) with (shownFields r).
  cbn [with_obj rrObj]. rewrite !contains_shownFields by apply ContactTags_field.
  assert (Hfv : ∀ f, f ∈ shownFields r → ContactField o1 f = ContactField o2 f).
  { intros f [? ?]%elem_of_shownFields. by apply Hf. }
  rewrite (RenderContact_ext o1 o2) by done.
  rewrite (contactMetadata_ext o1 o2) by (intros f key [? ?]%elem_of_shownFields; by apply Hm).
  f_equal.
  - destruct (fieldShown r ContactTags); [by apply Ht|done].
  - rewrite !contactGraph_val, !contains_shownFields by apply ContactNote_field. cbn [with_obj rrObj].
    assert (Hcard : RenderContact o1 (keep_in (shownFields r) ContactCardFields) =
                    RenderContact o2 (keep_in (shownFields r) ContactCardFields)).
    { apply RenderContact_ext. intros f Hin. unfold keep_in in Hin. apply list_elem_of_filter in Hin as [_ Hin]. by apply Hfv. }
    rewrite Hcard. unfold contact_outline in Hg.
    destruct (koGraph o1) as [g1|], (koGraph o2) as [g2|]; try done. cbn in Hg. injection Hg as Hn He.
    apply (contact_graph_outline (with_obj r o1)). simpl. f_equal; done.
Qed.

(** ** Lemmas: finish *)
Lemma finishLoop_spec kept seen l w :
  w ∈ finishLoop kept seen l →
  w ∈ l ∧ CanaryMinRunes ≤ RuneCount (whValue w) ∧ whValue w ∉ seen ∧
  ∀ k, k ∈ kept → StrContains k (whValue w) = false.
Proof.
  revert seen. induction l as [|x l IH]; intros seen; cbn [finishLoop]; [set_solver|].
  destruct (RuneCount (whValue x) <? CanaryMinRunes) eqn:E1, (contains seen (whValue x)) eqn:E2; cbn [orb];
    try (intros (?&?&?&?)%IH; split_and!; set_solver).
  destruct (existsb (λ k, StrContains k (whValue x)) kept) eqn:E3; [intros (?&?&?&?)%IH; split_and!; set_solver|].
  apply Nat.ltb_ge in E1. apply contains_false in E2.
  intros [->|(?&?&?&?)%IH]%elem_of_cons; [|split_and!; set_solver].
  split_and!; [set_solver|done|done|]. intros k Hk. destruct (StrContains k (whValue x)) eqn:E; [|done].
  assert (existsb (λ k, StrContains k (whValue x)) kept = true) by (apply existsb_exists'; eauto). congruence.
Qed.

Lemma finishLoop_nodup kept seen l : NoDup (map whValue (finishLoop kept seen l)).
Proof.
  revert seen. induction l as [|x l IH]; intros seen; cbn [finishLoop]; [apply NoDup_nil_2|].
  destruct ((RuneCount (whValue x) <? CanaryMinRunes) || contains seen (whValue x)); [apply IH|].
  destruct (existsb (λ k, StrContains k (whValue x)) kept); [apply IH|]. cbn [map].
  apply NoDup_cons. split; [|apply IH]. intros Hin. apply list_elem_of_fmap in Hin as (w & Hw & Hin).
  apply finishLoop_spec in Hin as (_ & _ & Hs & _). rewrite <- Hw in Hs. set_solver.
Qed.

(** Nothing withheld is lost but to one of the three rules. *)
Lemma finishLoop_complete kept seen l w :
  w ∈ l → CanaryMinRunes ≤ RuneCount (whValue w) → whValue w ∉ seen →
  (∀ k, k ∈ kept → StrContains k (whValue w) = false) → whValue w ∈ map whValue (finishLoop kept seen l).
Proof.
  intros Hin Hlen Hs Hk. revert seen Hs. induction l as [|x l IH]; intros seen Hs; [set_solver|]. cbn [finishLoop].
  assert (Hex : existsb (λ k, StrContains k (whValue w)) kept = false).
  { destruct (existsb _ kept) eqn:E; [|done]. apply existsb_exists' in E as (k & Hk' & E). by rewrite Hk in E. }
  destruct (decide (whValue x = whValue w)) as [Hx|Hx].
  - rewrite Hx. apply Nat.ltb_ge in Hlen. rewrite Hlen. apply contains_false in Hs. rewrite Hs. cbn [orb].
    rewrite Hex. cbn [map]. rewrite Hx. set_solver.
  - apply elem_of_cons in Hin as [->|Hin]; [done|].
    destruct (_ || _); [by apply IH|].
    destruct (existsb (λ k, StrContains k (whValue x)) kept); [by apply IH|]. cbn [map].
    apply elem_of_cons. right. apply IH; [done|]. set_solver.
Qed.

(** ** Lemmas: what a plain rendering leaves out *)
Definition nonblank (l : list string) : list string := filter (λ v, TrimSpace v ≠ nostr) l.
Definition logged {A} (m : W A) : list string := map whValue (wLog m).

(** The content values of a plain object its copy does not show. *)
Definition projected_out (r : renderer) : list string :=
  let o := rrObj r in
  let shown f ko := has (rrFs r) f && ok r ko in
  (if has (rrFs r) FieldContent then [] else [koRawContent o; koTextContent o]) ++
  (if shown FieldSummary koSummariesName then [] else koSummaries o) ++
  (if shown FieldSections koSectionsName then [] else concat (map (λ s, [secTitle s; secContent s]) (koSections o))) ++
  (if shown FieldDecisions koDecisionsName then [] else concat (map (λ d, [decTitle d; decImpact d]) (koDecisions o))) ++
  (if shown FieldTasks koTasksName then [] else concat (map (λ t, [taskTitle t]) (koTasks o))) ++
  (if shown FieldMetadata koMeta || shown FieldTitle koMeta then [] else option_list (title_of o)) ++
  match koGraph o with
  | None => []
  | Some g =>
      concat (map (λ n, if shown FieldGraph koGraphName && negb (excludes r (NodeClasses n)) then [] else [gnContent n])
        (ogNodes g))
  end.

Lemma logged_bind {A B} (m : W A) (f : A → W B) : logged (m ≫= f) = logged m ++ logged (f (wVal m)).
Proof. unfold logged. by rewrite wLog_bind, map_app. Qed.
Lemma logged_withhold c vs : logged (withhold c vs) = nonblank vs.
Proof. unfold logged, withhold. simpl. rewrite map_map. apply map_id. Qed.
Lemma nonblank_app l k : nonblank (l ++ k) = nonblank l ++ nonblank k.
Proof. apply filter_app. Qed.
Lemma logged_for_w {A} (f : A → W unit) (vs : A → list string) l :
  (∀ x, logged (f x) = nonblank (vs x)) → logged (for_w f l) = nonblank (concat (map vs l)).
Proof.
  intros H. induction l as [|x l IH]; [done|]. cbn [for_w map concat]. rewrite logged_bind, H, IH. by rewrite nonblank_app.
Qed.
Lemma logged_keep_or {A} (b : bool) (v zero : A) o : logged (keep_or b v zero o) = if b then [] else logged o.
Proof. destruct b; [done|]. unfold keep_or. rewrite logged_bind. apply app_nil_r. Qed.
Lemma nonblank_if (b : bool) l : nonblank (if b then [] else l) = if b then [] else nonblank l.
Proof. by destruct b. Qed.

Lemma logged_filterNodes r rewrite l :
  logged (filterNodes r rewrite l) =
    nonblank (concat (map (λ n, if negb (excludes r (NodeClasses n)) then [] else [gnContent n]) l)).
Proof.
  induction l as [|n l IH]; [done|]. cbn [filterNodes map concat]. rewrite !logged_bind, IH, nonblank_app.
  unfold filterNode. destruct (excludes r (NodeClasses n)); cbn [negb]; [|by rewrite app_nil_r].
  rewrite logged_bind, logged_withhold. by rewrite !app_nil_r.
Qed.

Lemma logged_genericGraph r :
  logged (genericGraph r) =
    nonblank match koGraph (rrObj r) with
    | None => []
    | Some g =>
        concat (map (λ n, if has (rrFs r) FieldGraph && ok r koGraphName && negb (excludes r (NodeClasses n))
                          then [] else [gnContent n]) (ogNodes g))
    end.
Proof.
  unfold genericGraph. destruct (koGraph (rrObj r)) as [g|]; [|done].
  destruct (has (rrFs r) FieldGraph), (ok r koGraphName); cbn [negb orb andb].
  - unfold filterGraph. rewrite logged_bind, logged_filterNodes. by rewrite app_nil_r.
  - rewrite logged_bind, (logged_for_w _ (λ n, [gnContent n])) by (intros; apply logged_withhold). by rewrite app_nil_r.
  - rewrite logged_bind, (logged_for_w _ (λ n, [gnContent n])) by (intros; apply logged_withhold). by rewrite app_nil_r.
  - rewrite logged_bind, (logged_for_w _ (λ n, [gnContent n])) by (intros; apply logged_withhold). by rewrite app_nil_r.
Qed.

Lemma logged_genericMetadata r :
  logged (genericMetadata r) =
    nonblank (if has (rrFs r) FieldMetadata && ok r koMeta || has (rrFs r) FieldTitle && ok r koMeta then []
              else option_list (title_of (rrObj r))).
Proof.
  unfold genericMetadata, title_of. destruct (has (rrFs r) FieldMetadata && ok r koMeta); [done|].
  destruct (has (rrFs r) FieldTitle && ok r koMeta); [done|]. cbn [orb]. rewrite logged_bind.
  destruct (koMetadata (rrObj r) !! "title" ≫= any_string); [rewrite logged_withhold|]; by rewrite app_nil_r.
Qed.

Lemma logged_generic r : logged (generic r) = nonblank (projected_out r).
Proof.
  unfold generic, projected_out. cbv zeta. rewrite !nonblank_app, !nonblank_if.
  rewrite logged_bind, logged_keep_or, logged_withhold, wVal_keep_or. f_equal.
  destruct (has (rrFs r) FieldContent);
    rewrite !logged_bind, !logged_keep_or, logged_withhold, logged_genericMetadata, logged_genericGraph;
    rewrite (logged_for_w _ (λ s, [secTitle s; secContent s])), (logged_for_w _ (λ d, [decTitle d; decImpact d])),
      (logged_for_w _ (λ t, [taskTitle t])) by (intros; apply logged_withhold);
    rewrite nonblank_if; repeat (f_equal; [done|]); rewrite ?app_nil_r;
    destruct (has (rrFs r) FieldMentions && ok r koMentionsName), (has (rrFs r) FieldTags && ok r koTagsName),
      (has (rrFs r) FieldSource); cbn [app]; by rewrite ?app_nil_r.
Qed.

(** ** Properties *)
Section properties.
Context `{GoUnicode}.

(** C9. Noninterference of the render layer for plain objects: two objects
    that agree on the fields every copy keeps and on each part the viewer's
    plan projects under the derived rule (a graph up to its class-excluded
    nodes) render to the same copy; nothing else of an object can influence
    what a restricted viewer is shown. *)
Theorem Render_noninterference v o1 o2 prov :
  vUnrestricted v = false → koType o1 ≠ TypeContact →
  same_kept o1 o2 → same_projected (newRenderer v o1 prov) o1 o2 →
  rdObject (Render v (Some o1) prov) = rdObject (Render v (Some o2) prov).
Proof.
  intros Hv Ht Hk Hp. unfold Render. rewrite Hv, <- (sk_type _ _ Hk).
  unfold str_eqb. rewrite bool_decide_false by done. cbn [rdObject]. f_equal.
  assert (newRenderer v o2 prov = with_obj (newRenderer v o1 prov) o2) as ->.
  { unfold newRenderer, with_obj. cbn. by rewrite <- (sk_type _ _ Hk), <- (sk_pipeline _ _ Hk). }
  by apply (generic_same (newRenderer v o1 prov)).
Qed.

(** Noninterference of the render layer for contacts: two contacts that
    agree on the fields every copy keeps, on the values of the contact fields
    the viewer sees (projected and of no class it excludes) and on the outline
    of their graphs (ids, labels and metadata of the card and visible note
    nodes, note contents, never card contents) render to the same copy. *)
Theorem Render_contact_noninterference v o1 o2 prov :
  vUnrestricted v = false → koType o1 = TypeContact →
  same_kept o1 o2 → same_contact (newRenderer v o1 prov) o1 o2 →
  rdObject (Render v (Some o1) prov) = rdObject (Render v (Some o2) prov).
Proof.
  intros Hv Ht Hk Hp. unfold Render. rewrite Hv, <- (sk_type _ _ Hk), Ht.
  cbn [rdObject str_eqb]. rewrite str_eqb_refl. apply (f_equal Some).
  assert (newRenderer v o2 prov = with_obj (newRenderer v o1 prov) o2) as ->.
  { unfold newRenderer, with_obj. cbn. by rewrite <- (sk_type _ _ Hk), <- (sk_pipeline _ _ Hk). }
  by apply (contact_same (newRenderer v o1 prov)).
Qed.

(** No part of an excluded class survives: every node of a restricted
    copy's graph is a node of the stored graph (a contact's card with its text
    rebuilt) none of whose classes the plan excludes, every edge is a stored
    edge between two nodes of the copy, and a plain copy has a graph only when
    the graph is projected. *)
Theorem Render_graph_safe v o prov out g :
  vUnrestricted v = false → rdObject (Render v (Some o) prov) = Some out → koGraph out = Some g →
  ∃ g0, koGraph o = Some g0 ∧
    (∀ n, n ∈ ogNodes g → ∃ n0, n0 ∈ ogNodes g0 ∧ ExcludesAny (Plan v) (NodeClasses n0) = false ∧
       gnID n = gnID n0 ∧ gnLabel n = gnLabel n0 ∧ gnMetadata n = gnMetadata n0 ∧
       (n = n0 ∨ koType o = TypeContact ∧ isCard n0 = true)) ∧
    (∀ e, e ∈ ogEdges g → e ∈ ogEdges g0 ∧
       (∃ n, n ∈ ogNodes g ∧ gnID n = geFromID e) ∧ (∃ n, n ∈ ogNodes g ∧ gnID n = geToID e)).
Proof.
  intros Hv Ho Hg. unfold Render in Ho. rewrite Hv in Ho. cbn [rdObject] in Ho.
  set (r := newRenderer v o prov) in *. assert (Hobj : rrObj r = o) by done.
  apply (inj Some) in Ho. rewrite <- Ho in Hg. clear Ho.
  destruct (str_eqb (koType o) TypeContact) eqn:Ht.
  - apply str_eqb_true in Ht. rewrite renderContact_val in Hg. cbn [koGraph alwaysKeptCopy] in Hg.
    rewrite contactGraph_val, Hobj in Hg. destruct (koGraph o) as [g0|]; [|done]. exists g0. split; [done|].
    apply graph_of_nodes in Hg as [Hn He]. rewrite He. split.
    + intros n Hin. rewrite Hn in Hin. unfold contactFinal in Hin.
      apply list_elem_of_filter in Hin as [_ Hin]. apply list_elem_of_fmap in Hin as (n0 & -> & Hin).
      apply list_elem_of_filter in Hin as [Hx Hin]. exists n0.
      destruct (isCard n0) eqn:Ec; simpl; split_and!; auto.
    + intros e. rewrite keptEdges_spec, <- Hn. tauto.
  - rewrite generic_val in Hg. cbn [koGraph alwaysKeptCopy] in Hg. rewrite genericGraph_val, Hobj in Hg.
    destruct (koGraph o) as [g0|]; [|done]. exists g0. split; [done|].
    destruct (_ && _); [|done]. apply graph_of_nodes in Hg as [Hn He]. rewrite He. split.
    + intros n Hin. rewrite Hn in Hin. apply list_elem_of_filter in Hin as [Hx Hin].
      exists n. split_and!; auto.
    + intros e. rewrite keptEdges_spec, <- Hn. tauto.
Qed.

(** The canaries a rendering hands to the backstop are sound: each is at
    least six runes long, no two are equal, and none occurs in any content
    string of the copy it came with; an unrestricted viewer gets the stored
    object itself and no canary. *)
Theorem Render_withheld_sound v o prov :
  (vUnrestricted v = true → Render v (Some o) prov = mkRendered (Some o) []) ∧
  NoDup (map whValue (rdWithheld (Render v (Some o) prov))) ∧
  ∀ w out, w ∈ rdWithheld (Render v (Some o) prov) → rdObject (Render v (Some o) prov) = Some out →
    CanaryMinRunes ≤ RuneCount (whValue w) ∧
    ∀ k, k ∈ keptStrings out → StrContains k (whValue w) = false.
Proof.
  unfold Render. destruct (vUnrestricted v) eqn:Hv.
  - split_and!; [done|apply NoDup_nil_2|set_solver].
  - split_and!; [done|apply finishLoop_nodup|]. cbn [rdWithheld rdObject].
    intros w out Hw [= <-]. by apply finishLoop_spec in Hw as (_ & ? & _ & ?).
Qed.

(** No withheld content goes unguarded: of a plain object, every content
    value the copy does not show (text, summaries, section, decision and task
    texts, the title, the contents of unprojected and class-excluded nodes)
    that is not blank, has at least six runes and does not occur in the copy is
    handed to the backstop. *)
Theorem Render_withheld_complete v o prov x out :
  vUnrestricted v = false → koType o ≠ TypeContact →
  rdObject (Render v (Some o) prov) = Some out →
  x ∈ projected_out (newRenderer v o prov) → TrimSpace x ≠ nostr → CanaryMinRunes ≤ RuneCount x →
  (∀ k, k ∈ keptStrings out → StrContains k x = false) →
  x ∈ map whValue (rdWithheld (Render v (Some o) prov)).
Proof.
  intros Hv Ht Ho Hx Hb Hl Hk. unfold Render in *. rewrite Hv in *. unfold str_eqb in *.
  rewrite bool_decide_false in * by done. cbn [rdObject rdWithheld] in *. apply (inj Some) in Ho. subst out.
  assert (Hg : x ∈ logged (generic (newRenderer v o prov))).
  { rewrite logged_generic. unfold nonblank. apply list_elem_of_filter. done. }
  unfold logged in Hg. apply list_elem_of_fmap in Hg as (w & -> & Hw).
  by apply finishLoop_complete with (w := w); [..|set_solver|].
Qed.
End properties.

(** ** Instances *)

(** The Unicode tables restricted to ASCII strings. *)
Definition ascii_unicode : GoUnicode := {| uc_to_lower s := s; uc_is_letter _ := false; uc_is_digit _ := false |}.

Definition plan_viewer (fields : gmap string (list string)) (part_exclusions : list string) : Viewer :=
  mkViewer false (Some (mkView "prn_1" nostr "k" None no_sql no_sql
    (mkRenderPlan [] fields [] noCapabilities [] part_exclusions))).

Definition with_content (ko : KnowledgeObject) (typ raw : string) (g : option ObjectGraph) : KnowledgeObject :=
  mkKO (koID ko) typ (koSubtype ko) raw (koTextContent ko) (koContentType ko) (koMetadata ko)
    (koSummaries ko) (koSections ko) (koTags ko) (koMentions ko) (koDecisions ko) (koTasks ko) (koPipeline ko)
    (koSource ko) (koRegistryInfluences ko) (koContentHash ko) (koSourceKey ko) (koStatus ko) (koInboxNote ko)
    (koReinforcementCount ko) (koLastReinforcedAt ko) (koRemindAt ko) (koRemindedAt ko) (koCreatedAt ko)
    (koUpdatedAt ko) (koFTSIndexed ko) (koProfileID ko) (koClasses ko) (koAttachmentIDs ko) g.

Definition title_viewer : Viewer := plan_viewer {["*" := ["title"]]} ["personal"].
Definition note1 : KnowledgeObject := with_content (with_metadata empty_object {["title" := AStr "Plan"]}) "note" "the first secret" None.
Definition note2 : KnowledgeObject := with_content (with_metadata empty_object {["title" := AStr "Plan"]}) "note" "another secret" None.

Lemma Render_noninterference_witness :
  rdObject (Render (H := ascii_unicode) title_viewer (Some note1) None) =
  rdObject (Render (H := ascii_unicode) title_viewer (Some note2) None) ∧
  map whValue (rdWithheld (Render (H := ascii_unicode) title_viewer (Some note1) None)) = ["the first secret"].
Proof.
  split; [|vm_compute; reflexivity].
  apply (Render_noninterference (H := ascii_unicode) title_viewer note1 note2 None);
    [reflexivity|discriminate|split; reflexivity|].
  split; intros Hb; try (vm_compute in Hb; discriminate Hb); vm_compute; reflexivity.
Defined.

Definition card_node : GraphNode := mkGraphNode "c-1/0" "section" "card" "Ana @ Acme" 0 ∅.
Definition note_node : GraphNode :=
  mkGraphNode "c-1/1" "section" "note" "her birthday" 1 {["classes" := AList [AStr "personal"]]}.
Definition contact1 : KnowledgeObject :=
  with_content ana TypeContact "Ana @ Acme" (Some (mkObjectGraph [card_node; note_node] [])).
Definition contact2 : KnowledgeObject :=
  with_content ana_card TypeContact "hers" (Some (mkObjectGraph [set_content card_node "old"] [])).
Definition contact_viewer : Viewer := plan_viewer {["contact" := ["title"; "org"; "note"]]} ["personal"].

Lemma Render_contact_noninterference_witness :
  rdObject (Render (H := ascii_unicode) contact_viewer (Some contact1) None) =
  rdObject (Render (H := ascii_unicode) contact_viewer (Some contact2) None) ∧
  option_map koRawContent (rdObject (Render (H := ascii_unicode) contact_viewer (Some contact1) None)) = Some "Ana @ Acme".
Proof.
  split; [|vm_compute; reflexivity].
  apply (Render_contact_noninterference (H := ascii_unicode) contact_viewer contact1 contact2 None);
    [reflexivity|reflexivity|split; reflexivity|].
  split.
  - intros f Hf Hs. repeat (apply elem_of_cons in Hf as [->|Hf]; [first [vm_compute; reflexivity|vm_compute in Hs; discriminate Hs]|]).
    by apply not_elem_of_nil in Hf.
  - intros f key Hf Hs Hk. repeat (apply elem_of_cons in Hf as [->|Hf];
      [vm_compute in Hk; first [discriminate Hk|injection Hk as <-];
       first [vm_compute; reflexivity|vm_compute in Hs; discriminate Hs]|]).
    by apply not_elem_of_nil in Hf.
  - intros Hs. vm_compute in Hs. discriminate Hs.
  - vm_compute. reflexivity.
Defined.

Lemma Render_graph_safe_witness :
  ∃ out g, rdObject (Render (H := ascii_unicode) contact_viewer (Some contact1) None) = Some out ∧ koGraph out = Some g ∧
    map gnID (ogNodes g) = ["c-1/0"] ∧
    ∀ e, e ∈ ogEdges g → ∃ n, n ∈ ogNodes g ∧ gnID n = geFromID e.
Proof.
  destruct (rdObject (Render (H := ascii_unicode) contact_viewer (Some contact1) None)) as [out|] eqn:Eo;
    [|vm_compute in Eo; discriminate Eo].
  destruct (koGraph out) as [g|] eqn:Eg.
  2:{ vm_compute in Eo. injection Eo as <-. vm_compute in Eg. discriminate Eg. }
  exists out, g. split; [reflexivity|]. split; [exact Eg|]. split.
  - vm_compute in Eo. injection Eo as <-. vm_compute in Eg. injection Eg as <-. vm_compute. reflexivity.
  - destruct (Render_graph_safe (H := ascii_unicode) contact_viewer contact1 None out g eq_refl Eo Eg)
      as (g0 & _ & _ & He). intros e Hin. destruct (He e Hin) as (_ & Hf & _). exact Hf.
Defined.

Lemma Render_withheld_complete_witness :
  "the first secret" ∈ map whValue (rdWithheld (Render (H := ascii_unicode) title_viewer (Some note1) None)).
Proof.
  destruct (rdObject (Render (H := ascii_unicode) title_viewer (Some note1) None)) as [out|] eqn:Eo;
    [|vm_compute in Eo; discriminate Eo].
  apply (Render_withheld_complete (H := ascii_unicode) title_viewer note1 None "the first secret" out);
    [reflexivity|discriminate|exact Eo|vm_compute; left|vm_compute; discriminate|vm_compute; lia|].
  vm_compute in Eo. injection Eo as <-. intros k Hk. vm_compute in Hk.
  repeat (apply elem_of_cons in Hk as [->|Hk]; [vm_compute; reflexivity|]). by apply not_elem_of_nil in Hk.
Defined.
