(* ===== verification/Ledger.v ===== *)
(** * The request ledger and the rendering driver

    Models [internal/sharing/ledger.go], what a request released to a
    restricted viewer, and [internal/sharing/scoped.go], the driver that renders
    and records every row a handler reads; [ProjectDocument] is that of
    [internal/projection/projection.go].  A [*Ledger] is an [option Ledger]; its
    mutex makes each method one step. *)

From S2P Require Import Prelude GoStrings Objects Policy PolicyCompile Fields Contact Render RenderSafety.

(** ** ledger.go *)
Record Ledger : Type := mkLedger {
  lObjects : gset string;
  lEntities : gset string;
  lEdges : gset string;
  lCanaries : gmap string string;  (* withheld value to its category *)
}.

Definition NewLedger : Ledger := mkLedger ∅ ∅ ∅ ∅.
Definition EntityURIPrefix : string := "ctxt://entity/".

Definition AddObject (l : option Ledger) (id : string) : option Ledger :=
  if str_eqb id nostr then l
  else (λ l, mkLedger ({[id]} ∪ lObjects l) (lEntities l) (lEdges l) (lCanaries l)) <$> l.
Definition AddEntity (l : option Ledger) (slug : string) : option Ledger :=
  if str_eqb slug nostr then l
  else (λ l, mkLedger (lObjects l) ({[slug]} ∪ lEntities l) (lEdges l) (lCanaries l)) <$> l.
Definition AddEdge (l : option Ledger) (id : string) : option Ledger :=
  if str_eqb id nostr then l
  else (λ l, mkLedger (lObjects l) (lEntities l) ({[id]} ∪ lEdges l) (lCanaries l)) <$> l.
Definition AddWithheld (l : option Ledger) (w : list Withheld) : option Ledger :=
  (λ l, mkLedger (lObjects l) (lEntities l) (lEdges l)
          (foldl (λ m x, <[whValue x := whCategory x]> m) (lCanaries l) w)) <$> l.

Definition HasObject (l : option Ledger) (id : string) : bool :=
  match l with Some l => bool_decide (id ∈ lObjects l) | None => false end.
Definition HasEntity (l : option Ledger) (slug : string) : bool :=
  match l with Some l => bool_decide (TrimPrefix slug EntityURIPrefix ∈ lEntities l) | None => false end.
Definition HasEdge (l : option Ledger) (id : string) : bool :=
  match l with Some l => bool_decide (id ∈ lEdges l) | None => false end.

(** The order of [Canaries]: longest first, then by value. *)
Definition canary_ltb (a b : Withheld) : bool :=
  (String.length (whValue b) <? String.length (whValue a)) ||
  ((String.length (whValue b) =? String.length (whValue a)) && str_ltb (whValue a) (whValue b)).

Definition Canaries (l : option Ledger) : list Withheld :=
  match l with
  | None => []
  | Some l => SliceStable canary_ltb (map (λ '(v, c), mkWithheld c v) (map_to_list (lCanaries l)))
  end.

(** ** Rows the scoped driver's stores return *)
Record NodeHit : Type := mkNodeHit { nhObjectID : string; nhNodeRef : string; nhNodeType : string; nhSnippet : string }.
Record DocumentProjection : Type := mkDocument { dpTitle : string; dpBody : string; dpSections : list Section_ }.
Record NodeAwareResult : Type := mkNodeAware {
  naObject : option KnowledgeObject;
  naNodeHits : list NodeHit;
  naDocumentView : option DocumentProjection;
}.
Record Edge : Type := mkEdge { edID : string; edFromType : string; edFromID : string; edToType : string; edToID : string }.
Definition EdgeEndpointEntity : string := "entity".

Definition ProjectDocument (ko : option KnowledgeObject) : DocumentProjection :=
  match ko with
  | None => mkDocument nostr nostr []
  | Some ko =>
      match koGraph ko with
      | Some (mkObjectGraph (n :: nodes) _) =>
          let sections := map (λ n, mkSection (gnLabel n) (gnContent n) (gnOrder n) ∅)
                            (filter (λ n, gnNodeType n = NodeTypeSection) (n :: nodes)) in
          mkDocument nostr nostr (SliceStable (λ a b, (secOrder a <? secOrder b)%Z) sections)
      | _ => mkDocument nostr (koTextContent ko) (koSections ko)
      end
  end.

(** ** scoped.go: the object reads

    One constructor per [ObjectStore] read that releases objects; the filters,
    vector queries and SQL arguments pass through unread. *)
Inductive OneRead : Type :=
| Get (id : string)
| GetByContentHash (hash profileID : string)
| GetBySourceKey (key : string).

Inductive ListRead (F Q : Type) : Type :=
| List_ (filter : F)
| ListBySQL (clause : string) (args : list RsqlLexer.Value) (filter : F)
| VectorSearch (q : Q) (filter : F)
| FTSSearch (query : string) (filter : F)
| ListDueReminders (now : Z)
| ListPendingReminders.

Inductive NodeRead (F Q NF : Type) : Type :=
| FTSSearchNodeAware (query : string) (filter : F) (naf : NF)
| VectorSearchNodeAware (q : Q) (filter : F) (naf : NF).

(** What the scoped driver's stores answer (package storage, bound to the
    viewer's scope). *)
Inductive EntityRead : Type := EntityGet (slug : string) | EntityResolve (mention : string).
Inductive EdgeRead : Type := EdgeListFrom (fromType fromID : string) | EdgeListTo (toType toID : string).

Class ScopedStores (E F Q NF G : Type) : Type := {
  st_one : OneRead → result E (option KnowledgeObject);
  st_list : ListRead F Q → result E (list (option KnowledgeObject) * Z);
  st_nodes : NodeRead F Q NF → result E (list (option NodeAwareResult));
  st_entity : EntityRead → result E (option string);  (* the slug of the entity *)
  st_entities : G → list (option string);             (* of the entities [List] answers *)
  st_edges : EdgeRead → list (option Edge);           (* the edges answered, with an error or without *)
}.

(** [renderedReads] *)
Definition renderedReads : list string :=
  ["Get"; "GetByContentHash"; "GetBySourceKey"; "List"; "ListBySQL"; "VectorSearch"; "FTSSearch";
   "FTSSearchNodeAware"; "VectorSearchNodeAware"; "ListDueReminders"; "ListPendingReminders"].

Section driver.
Context `{GoUnicode} `{ScopedStores E F Q NF G}.
Context (v : Viewer) (prov : Provenance).

(** [render]: one object, rendered and recorded. *)
Definition render (obj : option KnowledgeObject) (l : option Ledger) : option KnowledgeObject * option Ledger :=
  match rdObject (Render v obj prov) with
  | None => (None, l)
  | Some o => (Some o, AddWithheld (AddObject l (koID o)) (rdWithheld (Render v obj prov)))
  end.

Fixpoint renderAll (objs : list (option KnowledgeObject)) (l : option Ledger)
    : list (option KnowledgeObject) * option Ledger :=
  match objs with
  | [] => ([], l)
  | None :: objs' => renderAll objs' l
  | Some o :: objs' =>
      let (o', l1) := render (Some o) l in
      let (out, l2) := renderAll objs' l1 in (o' :: out, l2)
  end.

Definition nodeIDOfRef (ref : string) : string := TrimPrefix ref "ctxt:node/".

Definition renderNode (r : NodeAwareResult) (o : option KnowledgeObject) : NodeAwareResult :=
  mkNodeAware o
    (filter (λ h, is_Some (FindNode (o ≫= koGraph) (nodeIDOfRef (nhNodeRef h)))) (naNodeHits r))
    ((λ _, ProjectDocument o) <$> naDocumentView r).

Fixpoint renderNodeAware (res : list (option NodeAwareResult)) (l : option Ledger)
    : list NodeAwareResult * option Ledger :=
  match res with
  | [] => ([], l)
  | None :: res' => renderNodeAware res' l
  | Some r :: res' =>
      match naObject r with
      | None => renderNodeAware res' l
      | Some _ =>
          let (o, l1) := render (naObject r) l in
          let (out, l2) := renderNodeAware res' l1 in (renderNode r o :: out, l2)
      end
  end.

(** [renderObjects]: the reads, and the guarded write. *)
Definition readOne (q : OneRead) (l : option Ledger) : result E (option KnowledgeObject * option Ledger) :=
  o ← st_one q; Ok (render o l).
Definition readList (q : ListRead F Q) (l : option Ledger)
    : result E (list (option KnowledgeObject) * Z * option Ledger) :=
  '(objs, total) ← st_list q; let (out, l') := renderAll objs l in Ok (out, total, l').
Definition readNodes (q : NodeRead F Q NF) (l : option Ledger) : result E (list NodeAwareResult * option Ledger) :=
  res ← st_nodes q; Ok (renderNodeAware res l).

(** [Update]: whether the write reaches the store. *)
Definition Update_allowed (obj : option KnowledgeObject) : bool :=
  match obj with
  | Some o => fsAll (newFieldSet (Plan_FieldsFor (Plan v) (koType o)))
  | None => true
  end.

(** [ledgerEntities], and [releaseObject], [releaseEntity], [releaseEndpoint]. *)
Definition releaseObject (l : option Ledger) (id : string) : option Ledger :=
  if str_eqb id nostr || HasObject l id then l
  else match readOne (Get id) l with Ok (_, l') => l' | Err _ => l end.
Definition readEntity (q : EntityRead) (l : option Ledger) : option Ledger :=
  match st_entity q with Ok (Some e) => AddEntity l e | _ => l end.
Definition readEntities (g : G) (l : option Ledger) : option Ledger :=
  foldl (λ l e, match e with None => l | Some e => AddEntity l e end) l (st_entities g).
Definition releaseEntity (l : option Ledger) (slug : string) : option Ledger :=
  let slug := TrimPrefix slug EntityURIPrefix in
  if str_eqb slug nostr || HasEntity l slug then l else readEntity (EntityGet slug) l.
Definition releaseEndpoint (l : option Ledger) (typ id : string) : option Ledger :=
  if str_eqb typ EdgeEndpointEntity then releaseEntity l id else releaseObject l id.

(** [record] of [ledgerEdges] and [ledgerProximity], and the aliases' loop. *)
Definition recordEdges (edges : list (option Edge)) (l : option Ledger) : option Ledger :=
  foldl (λ l e, match e with
    | None => l
    | Some e => releaseEndpoint (releaseEndpoint (AddEdge l (edID e)) (edFromType e) (edFromID e)) (edToType e) (edToID e)
    end) l edges.
Definition readEdges (q : EdgeRead) (l : option Ledger) : option Ledger := recordEdges (st_edges q) l.
Definition recordPairs (scores : list (option (string * string))) (l : option Ledger) : option Ledger :=
  foldl (λ l p, match p with None => l | Some (a, b) => releaseObject (releaseObject l a) b end) l scores.
Definition recordAliases (ids : list (option string)) (l : option Ledger) : option Ledger :=
  foldl (λ l a, match a with None => l | Some id => releaseObject l id end) l ids.

(** Every read of a handler, as what it does to the request's ledger. *)
Inductive request_step : option Ledger → option Ledger → Prop :=
| rq_one q l o l' : readOne q l = Ok (o, l') → request_step l l'
| rq_list q l os n l' : readList q l = Ok (os, n, l') → request_step l l'
| rq_nodes q l rs l' : readNodes q l = Ok (rs, l') → request_step l l'
| rq_entity q l : request_step l (readEntity q l)
| rq_entities g l : request_step l (readEntities g l)
| rq_edges q l : request_step l (readEdges q l)
| rq_pairs ps l : request_step l (recordPairs ps l)
| rq_aliases ids l : request_step l (recordAliases ids l).

(** An object some scoped read answers, an entity, and an edge. *)
Definition scoped_object (o : KnowledgeObject) : Prop :=
  (∃ q, st_one q = Ok (Some o)) ∨
  (∃ q os n, st_list q = Ok (os, n) ∧ Some o ∈ os) ∨
  (∃ q rs r, st_nodes q = Ok rs ∧ Some r ∈ rs ∧ naObject r = Some o).
Definition scoped_entity (slug : string) : Prop :=
  (∃ q, st_entity q = Ok (Some slug)) ∨ (∃ g, Some slug ∈ st_entities g).
Definition scoped_edge (id : string) : Prop := ∃ q e, Some e ∈ st_edges q ∧ edID e = id.

(** What a ledger holds: only what scoped reads answered. *)
Record ledger_sound (l : option Ledger) : Prop := {
  snd_object : ∀ id, HasObject l id = true → ∃ o, scoped_object o ∧ koID o = id;
  snd_entity : ∀ l0 slug, l = Some l0 → slug ∈ lEntities l0 → scoped_entity slug;
  snd_edge : ∀ l0 id, l = Some l0 → id ∈ lEdges l0 → scoped_edge id;
  snd_canary : ∀ l0 x, l = Some l0 → x ∈ dom (lCanaries l0) → x ≠ nostr;
}.

(** Nothing recorded is lost. *)
Definition ledger_le (l l' : option Ledger) : Prop :=
  match l, l' with
  | None, None => True
  | Some l, Some l' => lObjects l ⊆ lObjects l' ∧ lEntities l ⊆ lEntities l' ∧ lEdges l ⊆ lEdges l' ∧
      dom (lCanaries l) ⊆ dom (lCanaries l')
  | _, _ => False
  end.

#[export] Instance ledger_le_refl : Reflexive ledger_le.
Proof. intros [l|]; cbn; [|done]. by split_and!. Qed.
#[export] Instance ledger_le_trans : Transitive ledger_le.
Proof.
  intros [a|] [b|] [c|]; cbn; try done. intros (A1 & A2 & A3 & A4) (B1 & B2 & B3 & B4).
  split_and!; etransitivity; eassumption.
Qed.

Lemma AddObject_le l id : ledger_le l (AddObject l id).
Proof. unfold AddObject. destruct (str_eqb id nostr); [done|]. destruct l as [l|]; cbn; [|done]. split_and!; try done. intros x Hx. apply elem_of_union. by right. Qed.
Lemma AddEntity_le l id : ledger_le l (AddEntity l id).
Proof. unfold AddEntity. destruct (str_eqb id nostr); [done|]. destruct l as [l|]; cbn; [|done]. split_and!; try done. intros x Hx. apply elem_of_union. by right. Qed.
Lemma AddEdge_le l id : ledger_le l (AddEdge l id).
Proof. unfold AddEdge. destruct (str_eqb id nostr); [done|]. destruct l as [l|]; cbn; [|done]. split_and!; try done. intros x Hx. apply elem_of_union. by right. Qed.

Lemma dom_add_withheld (w : list Withheld) (m : gmap string string) x :
  x ∈ dom (foldl (λ m x, <[whValue x := whCategory x]> m) m w) ↔ x ∈ dom m ∨ x ∈ map whValue w.
Proof.
  revert m. induction w as [|y w IH]; intros m; cbn [foldl map].
  - split; [by left|]. intros [?|?%not_elem_of_nil]; done.
  - rewrite IH, dom_insert, elem_of_union, elem_of_singleton, elem_of_cons. tauto.
Qed.

Lemma AddWithheld_le l w : ledger_le l (AddWithheld l w).
Proof. destruct l as [l|]; cbn; [|done]. split_and!; try done. intros x Hx. apply dom_add_withheld. by left. Qed.

Lemma Canaries_dom l x : x ∈ map whValue (Canaries (Some l)) ↔ x ∈ dom (lCanaries l).
Proof.
  unfold Canaries. rewrite SliceStable_perm, map_map, list_elem_of_fmap, elem_of_dom. split.
  - intros ([v' c] & -> & Hin). apply elem_of_map_to_list in Hin. cbn. by exists c.
  - intros [c Hc]. exists (x, c). split; [done|]. by apply elem_of_map_to_list.
Qed.

Lemma HasObject_le l l' id : ledger_le l l' → HasObject l id = true → HasObject l' id = true.
Proof.
  destruct l as [l|], l' as [l'|]; cbn; try done. intros (Ho & _) Hi. apply bool_decide_eq_true in Hi.
  apply bool_decide_eq_true. by apply Ho.
Qed.

Lemma canary_le l l' x : ledger_le l l' → x ∈ map whValue (Canaries l) → x ∈ map whValue (Canaries l').
Proof.
  destruct l as [l|], l' as [l'|]; cbn [ledger_le]; try done. intros (_ & _ & _ & Hc). rewrite !Canaries_dom. apply Hc.
Qed.

(** ** Rendering records *)
Lemma Render_id o : ∃ x, rdObject (Render v (Some o) prov) = Some x ∧ koID x = koID o.
Proof.
  unfold Render. destruct (vUnrestricted v); [by exists o|]. eexists. split; [done|].
  destruct (str_eqb (koType o) TypeContact); [by rewrite renderContact_val|by rewrite generic_val].
Qed.

Lemma render_le obj l : ledger_le l (render obj l).2.
Proof.
  unfold render. destruct (rdObject _) as [o|]; cbn; [|done]. etransitivity; [apply AddObject_le|apply AddWithheld_le].
Qed.

Lemma renderAll_le objs l : ledger_le l (renderAll objs l).2.
Proof.
  revert l. induction objs as [|[o|] objs IH]; intros l; cbn [renderAll]; [done| |apply IH].
  pose proof (render_le (Some o) l) as Hr. destruct (render (Some o) l) as [o' l1]. cbn in Hr.
  specialize (IH l1). destruct (renderAll objs l1) as [out l2]. cbn in *. by etransitivity.
Qed.

Lemma renderNodeAware_le rs l : ledger_le l (renderNodeAware rs l).2.
Proof.
  revert l. induction rs as [|[r|] rs IH]; intros l; cbn [renderNodeAware]; [done| |apply IH].
  destruct (naObject r) as [o|]; [|apply IH].
  pose proof (render_le (Some o) l) as Hr. destruct (render (Some o) l) as [o' l1]. cbn in Hr.
  specialize (IH l1). destruct (renderNodeAware rs l1) as [out l2]. cbn in *. by etransitivity.
Qed.

(** ** What the ledger holds *)
Lemma HasObject_AddObject l id x : HasObject (AddObject l id) x = true → HasObject l x = true ∨ x = id.
Proof.
  unfold AddObject. destruct (str_eqb id nostr); [by left|]. destruct l as [l|]; cbn; [|done].
  rewrite !bool_decide_eq_true, elem_of_union, elem_of_singleton. tauto.
Qed.

Lemma sound_AddObject l id : ledger_sound l → (∃ o, scoped_object o ∧ koID o = id) → ledger_sound (AddObject l id).
Proof.
  intros [Ho He Hg Hc] Hid. unfold AddObject. destruct (str_eqb id nostr) eqn:Eid; [done|]. destruct l as [l|]; [|done]. split.
  - intros x Hx. assert (HasObject (AddObject (Some l) id) x = true) as [Hl| ->]%HasObject_AddObject
      by (unfold AddObject; by rewrite Eid); [by apply Ho|done].
  - intros l0 slug [= <-] Hs. by eapply He.
  - intros l0 x [= <-] Hs. by eapply Hg.
  - intros l0 x [= <-] Hs. by eapply Hc.
Qed.

Lemma sound_AddEntity l slug : ledger_sound l → scoped_entity slug → ledger_sound (AddEntity l slug).
Proof.
  intros [Ho He Hg Hc] Hid. unfold AddEntity. destruct (str_eqb slug nostr); [done|]. destruct l as [l|]; [|done]. split.
  - intros x Hx. by apply Ho.
  - intros l0 s [= <-] [->%elem_of_singleton|Hs]%elem_of_union; [done|by eapply He].
  - intros l0 x [= <-] Hs. by eapply Hg.
  - intros l0 x [= <-] Hs. by eapply Hc.
Qed.

Lemma sound_AddEdge l id : ledger_sound l → scoped_edge id → ledger_sound (AddEdge l id).
Proof.
  intros [Ho He Hg Hc] Hid. unfold AddEdge. destruct (str_eqb id nostr); [done|]. destruct l as [l|]; [|done]. split.
  - intros x Hx. by apply Ho.
  - intros l0 s [= <-] Hs. by eapply He.
  - intros l0 x [= <-] [->%elem_of_singleton|Hs]%elem_of_union; [done|by eapply Hg].
  - intros l0 x [= <-] Hs. by eapply Hc.
Qed.

Lemma sound_AddWithheld l w : ledger_sound l → (∀ x, x ∈ w → whValue x ≠ nostr) → ledger_sound (AddWithheld l w).
Proof.
  intros [Ho He Hg Hc] Hw. destruct l as [l|]; [|done]. split; [intros x Hx; by apply Ho|..].
  - intros l0 s [= <-] Hs. by eapply He.
  - intros l0 x [= <-] Hs. by eapply Hg.
  - intros l0 x [= <-] [Hx|Hx]%dom_add_withheld; [by eapply Hc|].
    apply list_elem_of_fmap in Hx as (y & -> & Hy). by apply Hw.
Qed.

Lemma render_None l : render None l = (None, l).
Proof. done. Qed.

(** A withheld value is long enough to be a canary, so it is not empty. *)
Lemma Render_canary o x : x ∈ rdWithheld (Render v (Some o) prov) → whValue x ≠ nostr.
Proof.
  unfold Render. destruct (vUnrestricted v); [by intros ?%not_elem_of_nil|]. cbn [rdWithheld].
  intros (_ & Hl & _)%finishLoop_spec Hn. rewrite Hn in Hl. vm_compute in Hl. lia.
Qed.

Lemma sound_render o l : ledger_sound l → scoped_object o → ledger_sound (render (Some o) l).2.
Proof.
  intros Hl Ho. unfold render. destruct (Render_id o) as (x & -> & Hx). cbn.
  apply sound_AddWithheld; [apply sound_AddObject; [done|]; exists o; by rewrite Hx|]. apply Render_canary.
Qed.

Lemma sound_renderAll objs l : ledger_sound l → (∀ o, Some o ∈ objs → scoped_object o) → ledger_sound (renderAll objs l).2.
Proof.
  revert l. induction objs as [|[o|] objs IH]; intros l Hl Ho; cbn [renderAll]; [done| |].
  - pose proof (sound_render o l Hl (Ho o ltac:(left))) as Hr. destruct (render (Some o) l) as [o' l1]. cbn in Hr.
    specialize (IH l1 Hr ltac:(intros; apply Ho; by right)). by destruct (renderAll objs l1).
  - apply IH; [done|]. intros. apply Ho. by right.
Qed.

Lemma sound_renderNodeAware rs l : ledger_sound l →
  (∀ r o, Some r ∈ rs → naObject r = Some o → scoped_object o) → ledger_sound (renderNodeAware rs l).2.
Proof.
  revert l. induction rs as [|[r|] rs IH]; intros l Hl Ho; cbn [renderNodeAware]; [done| |].
  - assert (Ho' : ∀ r' o, Some r' ∈ rs → naObject r' = Some o → scoped_object o) by (intros; eapply Ho; [by right|done]).
    destruct (naObject r) as [o|] eqn:Er; [|by apply IH].
    pose proof (sound_render o l Hl (Ho r o ltac:(left) Er)) as Hr. destruct (render (Some o) l) as [o' l1]. cbn in Hr.
    specialize (IH l1 Hr Ho'). by destruct (renderNodeAware rs l1).
  - apply IH; [done|]. intros. eapply Ho; [by right|done].
Qed.

Lemma readOne_inv q l o l' : readOne q l = Ok (o, l') → ∃ s, st_one q = Ok s ∧ (o, l') = render s l.
Proof. unfold readOne. intros Hr. apply bind_ok_inv in Hr as (s & Hs & Hr). injection Hr as Hr. exists s. by rewrite Hr. Qed.

Lemma sound_readOne q l o l' : ledger_sound l → readOne q l = Ok (o, l') → ledger_sound l'.
Proof.
  intros Hl (s & Hs & Hr)%readOne_inv. replace l' with (render s l).2 by (by rewrite <- Hr).
  destruct s as [s|]; [|done]. apply sound_render; [done|]. left. by exists q.
Qed.

Lemma sound_releaseObject l id : ledger_sound l → ledger_sound (releaseObject l id).
Proof.
  intros Hl. unfold releaseObject. destruct (_ || _); [done|]. destruct (readOne _ l) as [[o l']|] eqn:Er; [|done].
  by eapply sound_readOne.
Qed.

Lemma sound_readEntity q l : ledger_sound l → ledger_sound (readEntity q l).
Proof.
  intros Hl. unfold readEntity. destruct (st_entity q) as [[e|]|] eqn:Er; [|done..].
  apply sound_AddEntity; [done|]. left. by exists q.
Qed.

Lemma sound_releaseEndpoint l typ id : ledger_sound l → ledger_sound (releaseEndpoint l typ id).
Proof.
  intros Hl. unfold releaseEndpoint, releaseEntity. destruct (str_eqb typ _); [|by apply sound_releaseObject].
  destruct (_ || _); [done|by apply sound_readEntity].
Qed.

(** A loop that keeps a property of the ledger at each turn. *)
Lemma foldl_ledger {A} (P : option Ledger → Prop) (f : option Ledger → A → option Ledger) (xs : list A) l :
  P l → (∀ l x, x ∈ xs → P l → P (f l x)) → P (foldl f l xs).
Proof.
  revert l. induction xs as [|x xs IH]; intros l Hl Hf; cbn; [done|].
  apply IH; [apply Hf; [left|done]|]. intros. apply Hf; [by right|done].
Qed.

Lemma request_step_sound l l' : request_step l l' → ledger_sound l → ledger_sound l'.
Proof.
  intros [q k o k' Hs|q k os n k' Hs|q k rs k' Hs|q k|g k|q k|ps k|ids k] Hl.
  - by eapply sound_readOne.
  - unfold readList in Hs. apply bind_ok_inv in Hs as ([objs total] & Ho & Hs).
    pose proof (sound_renderAll objs k Hl) as Hr. destruct (renderAll objs k) as [out k1]. injection Hs as _ _ <-.
    apply Hr. intros o Hin. right. left. by exists q, objs, total.
  - unfold readNodes in Hs. apply bind_ok_inv in Hs as (res & Ho & Hs). injection Hs as Hs.
    pose proof (sound_renderNodeAware res k Hl) as Hr. rewrite Hs in Hr. apply Hr.
    intros r o Hin Hr'. right. right. by exists q, res, r.
  - by apply sound_readEntity.
  - unfold readEntities. apply (foldl_ledger ledger_sound); [done|]. intros m [e|] Hin Hm; [|done].
    apply sound_AddEntity; [done|]. right. by exists g.
  - apply (foldl_ledger ledger_sound); [done|]. intros m [e|] Hin Hm; [|done].
    apply sound_releaseEndpoint, sound_releaseEndpoint, sound_AddEdge; [done|]. by exists q, e.
  - apply (foldl_ledger ledger_sound); [done|]. intros m [[a b]|] _ Hm; [|done]. by apply sound_releaseObject, sound_releaseObject.
  - apply (foldl_ledger ledger_sound); [done|]. intros m [a|] _ Hm; [|done]. by apply sound_releaseObject.
Qed.

Lemma readOne_le q l o l' : readOne q l = Ok (o, l') → ledger_le l l'.
Proof.
  intros (s & _ & Hr)%readOne_inv. replace l' with (render s l).2 by (by rewrite <- Hr). apply render_le.
Qed.

Lemma releaseObject_le l id : ledger_le l (releaseObject l id).
Proof.
  unfold releaseObject. destruct (_ || _); [done|]. destruct (readOne _ l) as [[o l']|] eqn:Er; [|done].
  by eapply readOne_le.
Qed.

Lemma readEntity_le q l : ledger_le l (readEntity q l).
Proof. unfold readEntity. destruct (st_entity q) as [[e|]|]; [|done..]. apply AddEntity_le. Qed.

Lemma releaseEndpoint_le l typ id : ledger_le l (releaseEndpoint l typ id).
Proof.
  unfold releaseEndpoint, releaseEntity. destruct (str_eqb typ _); [|apply releaseObject_le].
  destruct (_ || _); [done|apply readEntity_le].
Qed.

Lemma request_step_le l l' : request_step l l' → ledger_le l l'.
Proof.
  intros [q k o k' Hs|q k os n k' Hs|q k rs k' Hs|q k|g k|q k|ps k|ids k].
  - by eapply readOne_le.
  - unfold readList in Hs. apply bind_ok_inv in Hs as ([objs total] & Ho & Hs).
    pose proof (renderAll_le objs k) as Hr. destruct (renderAll objs k) as [out k1]. by injection Hs as _ _ <-.
  - unfold readNodes in Hs. apply bind_ok_inv in Hs as (res & Ho & Hs). injection Hs as Hs.
    pose proof (renderNodeAware_le res k) as Hr. by rewrite Hs in Hr.
  - apply readEntity_le.
  - apply (foldl_ledger (ledger_le k)); [done|]. intros m [e|] _ Hm; [|done]. etransitivity; [exact Hm|apply AddEntity_le].
  - apply (foldl_ledger (ledger_le k)); [done|]. intros m [e|] _ Hm; [|done].
    do 2 (etransitivity; [|apply releaseEndpoint_le]). etransitivity; [exact Hm|apply AddEdge_le].
  - apply (foldl_ledger (ledger_le k)); [done|]. intros m [[a b]|] _ Hm; [|done].
    do 2 (etransitivity; [|apply releaseObject_le]). exact Hm.
  - apply (foldl_ledger (ledger_le k)); [done|]. intros m [a|] _ Hm; [|done].
    etransitivity; [exact Hm|apply releaseObject_le].
Qed.

Lemma run_le l l' : star request_step l l' → ledger_le l l'.
Proof. induction 1 as [|a b c Hab _ IH]; [done|]. etransitivity; [by apply request_step_le|done]. Qed.

(** A rendered object is recorded with everything its copy withheld. *)
Lemma render_recorded o l0 :
  let l := (render (Some o) (Some l0)).2 in
  (koID o ≠ nostr → HasObject l (koID o) = true) ∧
  ∀ w, w ∈ rdWithheld (Render v (Some o) prov) → whValue w ∈ map whValue (Canaries l).
Proof.
  cbn zeta. unfold render. destruct (Render_id o) as (x & -> & Hx). cbn [snd]. split.
  - intros Hne. unfold AddObject, str_eqb. rewrite Hx, bool_decide_false by done. cbn.
    apply bool_decide_eq_true, elem_of_union. left. by apply elem_of_singleton.
  - intros w Hw. unfold AddObject. rewrite Hx. destruct (str_eqb (koID o) nostr); cbn [fmap option_fmap option_map AddWithheld];
      apply Canaries_dom, dom_add_withheld; right; by apply list_elem_of_fmap_2.
Qed.

(** What the ledger knows of an object: that it was released, and every value
    its copy withheld. *)
Definition recorded (l : option Ledger) (o : KnowledgeObject) : Prop :=
  (koID o ≠ nostr → HasObject l (koID o) = true) ∧
  ∀ w, w ∈ rdWithheld (Render v (Some o) prov) → whValue w ∈ map whValue (Canaries l).

Lemma recorded_le l l' o : ledger_le l l' → recorded l o → recorded l' o.
Proof. intros Hl [H1 H2]. split; [intros Hne; eapply HasObject_le; eauto|intros w Hw; eapply canary_le; eauto]. Qed.

Lemma le_some l0 l : ledger_le (Some l0) l → ∃ l1, l = Some l1.
Proof. destruct l as [l1|]; [by exists l1|done]. Qed.

Lemma renderAll_recorded objs l0 o : Some o ∈ objs → recorded (renderAll objs (Some l0)).2 o.
Proof.
  revert l0. induction objs as [|[x|] objs IH]; intros l0 Hin; cbn [renderAll]; [by apply not_elem_of_nil in Hin| |].
  - pose proof (render_recorded x l0) as Hr. pose proof (render_le (Some x) (Some l0)) as Hle.
    destruct (render (Some x) (Some l0)) as [x' l1]. cbn [snd] in Hr, Hle. destruct (le_some _ _ Hle) as [l2 ->].
    pose proof (renderAll_le objs (Some l2)) as Hle2. specialize (IH l2).
    destruct (renderAll objs (Some l2)) as [out l3]. cbn [snd] in *.
    apply elem_of_cons in Hin as [[= ->]|Hin]; [by eapply recorded_le|by apply IH].
  - apply elem_of_cons in Hin as [?|Hin]; [done|by apply IH].
Qed.

Lemma renderNodeAware_recorded rs l0 r o : Some r ∈ rs → naObject r = Some o → recorded (renderNodeAware rs (Some l0)).2 o.
Proof.
  intros Hin Ho. revert l0. induction rs as [|[x|] rs IH]; intros l0; cbn [renderNodeAware]; [by apply not_elem_of_nil in Hin| |].
  - apply elem_of_cons in Hin as [[= <-]|Hin]; [rewrite Ho|destruct (naObject x) as [y|]; [|by apply IH]].
    + pose proof (render_recorded o l0) as Hr. pose proof (render_le (Some o) (Some l0)) as Hle.
      destruct (render (Some o) (Some l0)) as [x' l1]. cbn [snd] in Hr, Hle. destruct (le_some _ _ Hle) as [l2 ->].
      pose proof (renderNodeAware_le rs (Some l2)) as Hle2. destruct (renderNodeAware rs (Some l2)) as [out l3].
      by eapply recorded_le.
    + pose proof (render_le (Some y) (Some l0)) as Hle. destruct (render (Some y) (Some l0)) as [x' l1]. cbn [snd] in Hle.
      destruct (le_some _ _ Hle) as [l2 ->]. specialize (IH Hin l2). by destruct (renderNodeAware rs (Some l2)).
  - apply elem_of_cons in Hin as [?|Hin]; [done|by apply IH].
Qed.

(** A read of a handler that answers the object [o]. *)
Inductive reads (o : KnowledgeObject) : option Ledger → option Ledger → Prop :=
| rd_one q l o' l' : st_one q = Ok (Some o) → readOne q l = Ok (o', l') → reads o l l'
| rd_list q l os total out n l' : st_list q = Ok (os, total) → Some o ∈ os → readList q l = Ok (out, n, l') → reads o l l'
| rd_nodes q l rs r out l' : st_nodes q = Ok rs → Some r ∈ rs → naObject r = Some o →
    readNodes q l = Ok (out, l') → reads o l l'.

Lemma reads_step o l l' : reads o l l' → request_step l l'.
Proof. intros [q k o' k' _ Hr|q k os total out n k' _ _ Hr|q k rs r out k' _ _ _ Hr]; eauto using request_step. Qed.

Lemma reads_recorded o l0 l' : reads o (Some l0) l' → recorded l' o.
Proof.
  intros Hr. remember (Some l0) as l eqn:El. destruct Hr as [q k o' k' Hs Hr|q k os total out n k' Hs Hin Hr|q k rs r out k' Hs Hin Ho Hr]; subst k.
  - apply readOne_inv in Hr as (s & Hs' & Hr). rewrite Hs in Hs'. injection Hs' as <-.
    pose proof (render_recorded o l0) as Hrec. rewrite <- Hr in Hrec. exact Hrec.
  - unfold readList in Hr. rewrite Hs in Hr. pose proof (renderAll_recorded os l0 o Hin) as Hrec. cbn in Hr.
    destruct (renderAll os (Some l0)) as [out' l1]. by injection Hr as _ _ <-.
  - unfold readNodes in Hr. rewrite Hs in Hr. pose proof (renderNodeAware_recorded rs l0 r o Hin Ho) as Hrec. cbn in Hr.
    injection Hr as Hr. by rewrite Hr in Hrec.
Qed.
End driver.
