(* ===== verification/Backstop.v ===== *)
(** * The egress backstop

    Models [internal/sharing/backstop.go]: the last check of a response to a
    restricted viewer.  A body is decoded into a [JSON] document, every value
    at one of the shape's ID paths must be in the request's ledger, and every
    withheld value is replaced in every string.  Go's [encoding/json] is the
    class [GoJSON]; a decoded object is the list of its members, and counting
    hits is left out except for the hits a result reports. *)

From S2P Require Import Prelude GoStrings Objects Policy PolicyCompile Fields Contact Render RenderSafety Ledger.

Inductive Shape : Type := ShapeNone | ShapeObjects | ShapeEntities | ShapeMixed.

Inductive IDKind : Type :=
| KindObject | KindEntity | KindEdge | KindEndpoint | KindNodeID | KindNodeRef | KindGraphNodeKey.

Record IDPath : Type := mkPath { ipPath : string; ipKind : IDKind }.

Definition httpObjectPaths : list IDPath :=
  [mkPath "id" KindObject; mkPath "data[].id" KindObject; mkPath "objects[].id" KindObject;
   mkPath "explain[].id" KindObject; mkPath "object_id" KindObject; mkPath "[].object_id" KindObject;
   mkPath "data[].object_id" KindObject; mkPath "data[].from" KindObject; mkPath "data[].edge.id" KindEdge;
   mkPath "data[].edge.from_id" KindEndpoint; mkPath "data[].edge.to_id" KindEndpoint;
   mkPath "graph.nodes[].id" KindNodeID; mkPath "data[].graph.nodes[].id" KindNodeID;
   mkPath "objects[].graph.nodes[].id" KindNodeID; mkPath "metadata.source_ids[]" KindObject;
   mkPath "data[].metadata.source_ids[]" KindObject; mkPath "objects[].metadata.source_ids[]" KindObject;
   mkPath "result.content[].text!json.results[].id" KindObject].

Definition httpEntityPaths : list IDPath :=
  [mkPath "slug" KindEntity; mkPath "data[].slug" KindEntity; mkPath "entities[].slug" KindEntity].

Definition httpGraphPaths : list IDPath :=
  [mkPath "nodes{}" KindGraphNodeKey; mkPath "edges[].source" KindGraphNodeKey; mkPath "edges[].target" KindGraphNodeKey].

Definition grpcObjectPaths : list IDPath :=
  [mkPath "id" KindObject; mkPath "objects[].id" KindObject; mkPath "graph.nodes[].id" KindNodeID;
   mkPath "objects[].graph.nodes[].id" KindNodeID; mkPath "results[].object.id" KindObject;
   mkPath "results[].object.graph.nodes[].id" KindNodeID; mkPath "results[].node_hits[].object_id" KindObject;
   mkPath "results[].node_hits[].node_ref" KindNodeRef].

Definition grpcEntityPaths : list IDPath := [mkPath "slug" KindEntity; mkPath "entities[].slug" KindEntity].

Definition HTTPPaths (shape : Shape) : list IDPath :=
  match shape with
  | ShapeObjects => httpObjectPaths
  | ShapeEntities => httpEntityPaths
  | ShapeMixed => concat [httpObjectPaths; httpEntityPaths; httpGraphPaths]
  | ShapeNone => []
  end.

Definition GRPCPaths (shape : Shape) : list IDPath :=
  match shape with
  | ShapeObjects => grpcObjectPaths
  | ShapeEntities => grpcEntityPaths
  | ShapeMixed => concat [grpcObjectPaths; grpcEntityPaths]
  | ShapeNone => []
  end.

(** ** Paths *)
Record segment : Type := mkSegment { sgKey : string; sgArray : bool; sgMapKeys : bool; sgJson : bool }.

Definition parseSegment (tok : string) : segment :=
  if str_eqb tok "[]" then mkSegment nostr true false false
  else if HasSuffix tok "[]" then mkSegment (TrimSuffix tok "[]") true false false
  else if HasSuffix tok "{}" then mkSegment (TrimSuffix tok "{}") false true false
  else if HasSuffix tok "!json" then mkSegment (TrimSuffix tok "!json") false false true
  else mkSegment tok false false false.

Definition parsePath (path : string) : list segment := map parseSegment (SplitByte path ".").

(** ** Documents *)
Inductive JSON : Type :=
| JNull
| JBool (b : bool)
| JNum (literal : string)
| JStr (s : string)
| JArr (l : list JSON)
| JObj (m : list (string * JSON)).

Class GoJSON : Type := {
  Decode : string → option JSON;  (* the first value of a text, numbers kept as literals *)
  Marshal : JSON → string;
}.

Fixpoint member (m : list (string * JSON)) (k : string) : option JSON :=
  match m with
  | [] => None
  | (k', v) :: m' => if str_eqb k' k then Some v else member m' k
  end.
(** [m[k] = v] for a key [m] holds. *)
Definition set_member (m : list (string * JSON)) (k : string) (v : JSON) : list (string * JSON) :=
  map (λ '(k', v'), (k', if str_eqb k' k then v else v')) m.

Record BackstopResult : Type := mkResult { brBody : string; brHits : list string; brAbsent : bool }.
Inductive BackstopError : Type := ErrNotJSON.

Section backstop.
Context `{GoJSON}.
(** [backstopRun]: the ledger and its canaries. *)
Context (ledger : option Ledger) (canaries : list Withheld).

Definition allowed (value : string) (kind : IDKind) : bool :=
  if str_eqb value nostr then true
  else
    match kind with
    | KindObject => HasObject ledger value
    | KindEntity => HasEntity ledger value
    | KindEdge => HasEdge ledger value
    | KindEndpoint => HasObject ledger value || HasEntity ledger value
    | KindNodeID => HasObject ledger (CutBefore value "/")
    | KindNodeRef => HasObject ledger (CutBefore (TrimPrefix value "ctxt:node/") "/")
    | KindGraphNodeKey =>
        if str_eqb value "query" then true
        else if HasPrefix value "obj:" then HasObject ledger (TrimPrefix value "obj:")
        else if HasPrefix value "ent:" then HasEntity ledger (TrimPrefix value "ent:")
        else false
    end.

(** [canary] and [canaryTree] *)
Definition canary (s : string) : string :=
  foldl (λ s c, if StrContains s (whValue c) then ReplaceAll s (whValue c) ("[" +:+ whCategory c +:+ "]") else s)
    s canaries.

Fixpoint canaryAll (node : JSON) : JSON :=
  match node with
  | JStr s => JStr (canary s)
  | JObj m => JObj (map (λ '(k, v), (k, canaryAll v)) m)
  | JArr l => JArr (map canaryAll l)
  | _ => node
  end.
Definition canaryTree (node : JSON) : JSON := match canaries with [] => node | _ => canaryAll node end.

(** The hits [canary] and [canaryTree] append. *)
Definition canaryHits (s : string) : list string :=
  (foldl (λ '(s, h) c,
     if StrContains s (whValue c)
     then (ReplaceAll s (whValue c) ("[" +:+ whCategory c +:+ "]"), h ++ ["canary:" +:+ whCategory c]) else (s, h))
   (s, []) canaries).2.
Fixpoint canaryTreeHits (node : JSON) : list string :=
  match node with
  | JStr s => canaryHits s
  | JObj m => concat (map (λ '(_, v), canaryTreeHits v) m)
  | JArr l => concat (map canaryTreeHits l)
  | _ => []
  end.

(** [applyArray] over a walk [f] of the elements, which answers the element
    and whether it must go. *)
Definition applyArray (f : JSON → JSON * bool) (node : JSON) : JSON :=
  match node with
  | JArr l => JArr (omap (λ e, let (res, strip) := f e in if strip then None else Some res) l)
  | _ => node
  end.

(** [apply]: the node with every hit removed, and whether it must go itself. *)
Fixpoint apply (segs : list segment) (kind : IDKind) (node : JSON) : JSON * bool :=
  match segs with
  | [] =>
      match node with
      | JStr s => if allowed s kind then (node, false) else (JNull, true)
      | _ => (node, false)
      end
  | seg :: segs' =>
      if str_eqb (sgKey seg) nostr then
        (if sgArray seg then applyArray (apply segs' kind) node else node, false)
      else
        match node with
        | JObj m =>
            match member m (sgKey seg) with
            | None => (node, false)
            | Some child =>
                if sgArray seg then (JObj (set_member m (sgKey seg) (applyArray (apply segs' kind) child)), false)
                else if sgMapKeys seg then
                  match child with
                  | JObj cm => (JObj (set_member m (sgKey seg) (JObj (filter (λ kv, allowed kv.1 kind = true) cm))), false)
                  | _ => (node, false)
                  end
                else if sgJson seg then
                  match child with
                  | JStr s =>
                      match Decode s with
                      | None => (node, false)
                      | Some doc =>
                          (JObj (set_member m (sgKey seg) (JStr (Marshal (canaryTree (apply segs' kind doc).1)))), false)
                      end
                  | _ => (node, false)
                  end
                else
                  let (res, strip) := apply segs' kind child in
                  if strip then (node, true) else (JObj (set_member m (sgKey seg) res), false)
            end
        | _ => (node, false)
        end
  end.

(** The hits [apply] appends. *)
Fixpoint applyHits (segs : list segment) (kind : IDKind) (path : string) (node : JSON) : list string :=
  match segs with
  | [] => match node with JStr s => if allowed s kind then [] else [path +:+ "=" +:+ s] | _ => [] end
  | seg :: segs' =>
      let elements v := match v with JArr l => concat (map (applyHits segs' kind path) l) | _ => [] end in
      if str_eqb (sgKey seg) nostr then (if sgArray seg then elements node else [])
      else
        match node with
        | JObj m =>
            match member m (sgKey seg) with
            | None => []
            | Some child =>
                if sgArray seg then elements child
                else if sgMapKeys seg then
                  match child with
                  | JObj cm => map (λ kv, path +:+ "=" +:+ kv.1) (filter (λ kv, allowed kv.1 kind = false) cm)
                  | _ => []
                  end
                else if sgJson seg then
                  match child with
                  | JStr s =>
                      match Decode s with
                      | None => []
                      | Some doc =>
                          applyHits segs' kind path doc ++
                          match canaries with [] => [] | _ => canaryTreeHits (apply segs' kind doc).1 end
                      end
                  | _ => []
                  end
                else applyHits segs' kind path child
            end
        | _ => []
        end
  end.

(** The loop over the paths: the document, whether a root value was hit, and
    the hits. *)
Fixpoint applyPaths (paths : list IDPath) (doc : JSON) : JSON * bool * list string :=
  match paths with
  | [] => (doc, false, [])
  | p :: paths' =>
      let segs := parsePath (ipPath p) in
      let (doc', strip) := apply segs (ipKind p) doc in
      let '(out, absent, hits) := applyPaths paths' doc' in
      (out, strip || absent, applyHits segs (ipKind p) (ipPath p) doc ++ hits)
  end.
End backstop.

Definition Backstop `{GoJSON} (body : string) (paths : list IDPath) (ledger : option Ledger)
    : result BackstopError BackstopResult :=
  let canaries := Canaries ledger in
  if str_eqb (TrimSpace body) nostr then Ok (mkResult body [] false)
  else
    match Decode body with
    | None =>
        match paths with
        | [] => Ok (mkResult (canary canaries body) (canaryHits canaries body) false)
        | _ => Err ErrNotJSON
        end
    | Some doc =>
        let '(doc', absent, hits) := applyPaths ledger canaries paths doc in
        Ok (mkResult (Marshal (canaryTree canaries doc'))
              (hits ++ match canaries with [] => [] | _ => canaryTreeHits canaries doc' end) absent)
    end.

(** ** What stands at a path

    [holds_at P stands path doc]: every string [apply] checks along the path, in
    the document and in the documents its strings embed, stands for one of which
    [P] holds; so does every key of a map it checks.  A text where a path goes on
    into an embedded document is either no JSON at all or the encoding of a
    document whose own strings hold [P] at the rest of the path.  [stands s0 s]:
    the response has [s] where the walk left [s0]; inside an embedded document
    that is [s0] with the withheld values replaced. *)
Section holds_at.
Context `{GoJSON} (canaries : list Withheld) (P : string → Prop).

Definition replaced_by (s0 s : string) : Prop := s = canary canaries s0.

Definition elements_hold (f : JSON → Prop) (node : JSON) : Prop :=
  match node with JArr l => ∀ x, x ∈ l → f x | _ => True end.

Fixpoint holds_at (stands : string → string → Prop) (segs : list segment) (node : JSON) : Prop :=
  match segs with
  | [] => match node with JStr s => ∃ s0, stands s0 s ∧ P s0 | _ => True end
  | seg :: segs' =>
      if str_eqb (sgKey seg) nostr then (if sgArray seg then elements_hold (holds_at stands segs') node else True)
      else
        match node with
        | JObj m =>
            match member m (sgKey seg) with
            | None => True
            | Some child =>
                if sgArray seg then elements_hold (holds_at stands segs') child
                else if sgMapKeys seg then match child with JObj cm => ∀ k, k ∈ map fst cm → P k | _ => True end
                else if sgJson seg then
                  match child with
                  | JStr s => ∃ s0, stands s0 s ∧
                      (Decode s0 = None ∨ ∃ doc, s0 = Marshal doc ∧ holds_at replaced_by segs' doc)
                  | _ => True
                  end
                else holds_at stands segs' child
            end
        | _ => True
        end
  end.
End holds_at.

(** Every string of a document, at any depth; member names are not among them. *)
Fixpoint strings_of (node : JSON) : list string :=
  match node with
  | JStr s => [s]
  | JArr l => concat (map strings_of l)
  | JObj m => concat (map (λ '(_, v), strings_of v) m)
  | _ => []
  end.

Definition plainPath (segs : list segment) : bool := forallb (λ s, negb (sgJson s)) segs.
Definition disjoint_heads (p q : list segment) : bool :=
  match p, q with a :: _, b :: _ => negb (str_eqb (sgKey a) (sgKey b)) | _, _ => false end.
(** A later path [q] cannot bring back what [p] removed. *)
Definition compatible (p q : list segment) : bool := plainPath q || disjoint_heads p q.

(** Inside an embedded document an array, a map or another document takes a hit
    in: [apply] drops a hit at the embedded document's root. *)
Definition takes_hits (segs : list segment) : bool := existsb (λ s, sgArray s || sgMapKeys s || sgJson s) segs.
Fixpoint absorbed (segs : list segment) : bool :=
  match segs with [] => true | seg :: segs' => (negb (sgJson seg) || takes_hits segs') && absorbed segs' end.

Fixpoint compatible_paths (paths : list IDPath) : bool :=
  match paths with
  | [] => true
  | p :: paths' =>
      absorbed (parsePath (ipPath p)) &&
      forallb (λ q, compatible (parsePath (ipPath p)) (parsePath (ipPath q))) paths' && compatible_paths paths'
  end.

(** ** Lemmas on documents *)
Lemma member_set m k v k' : member (set_member m k v) k' = (if str_eqb k' k then (λ _, v) <$> member m k' else member m k').
Proof.
  unfold set_member. induction m as [|[k1 v1] m IH]; cbn; [by destruct (str_eqb k' k)|]. rewrite IH. unfold str_eqb.
  repeat case_bool_decide; subst; try done; congruence.
Qed.

Lemma member_map f m k : member (map (λ '(k', v), (k', f v)) m) k = f <$> member m k.
Proof. induction m as [|[k1 v1] m IH]; cbn; [done|]. by destruct (str_eqb k1 k). Qed.

(** [le n' n]: [n'] is [n] with array elements, members or strings removed. *)
Inductive le : JSON → JSON → Prop :=
| le_refl n : le n n
| le_null n : le JNull n
| le_arr l' l : (∀ x', x' ∈ l' → ∃ x, x ∈ l ∧ le x' x) → le (JArr l') (JArr l)
| le_obj m' m : (∀ k v', member m' k = Some v' → ∃ v, member m k = Some v ∧ le v' v) →
    (∀ k, k ∈ map fst m' → k ∈ map fst m) → le (JObj m') (JObj m).

Lemma set_member_keys m k v : map fst (set_member m k v) = map fst m.
Proof. unfold set_member. rewrite map_map. apply map_ext. by intros [k' v']. Qed.

Lemma le_set m k v v' : member m k = Some v → le v' v → le (JObj (set_member m k v')) (JObj m).
Proof.
  intros Hm Hv. apply le_obj; [|intros k'; by rewrite set_member_keys]. intros k' w. rewrite member_set.
  destruct (str_eqb k' k) eqn:E.
  - apply str_eqb_true in E as ->. rewrite Hm. intros [= <-]. by exists v.
  - intros Hw. exists w. split; [done|apply le_refl].
Qed.

Lemma member_filter_keys m (P : string * JSON → Prop) `{∀ x, Decision (P x)} (HP : ∀ k v w, P (k, v) → P (k, w)) k v :
  member (filter P m) k = Some v → member m k = Some v.
Proof.
  induction m as [|[k1 v1] m IH]; [done|]. rewrite filter_cons. destruct (decide (P (k1, v1))) as [Hd|Hd]; cbn.
  - destruct (str_eqb k1 k); [done|apply IH].
  - destruct (str_eqb k1 k) eqn:E; [|apply IH]. apply str_eqb_true in E as ->. intros Hm. exfalso. apply Hd.
    clear IH Hd. induction m as [|[k2 v2] m IH]; [done|]. rewrite filter_cons in Hm.
    destruct (decide (P (k2, v2))) as [Hd|Hd]; [|by apply IH]. cbn in Hm. destruct (str_eqb k2 k) eqn:E; [|by apply IH].
    apply str_eqb_true in E as ->. by eapply HP.
Qed.

Lemma elements_hold_mono (f g : JSON → Prop) node : (∀ x, f x → g x) → elements_hold f node → elements_hold g node.
Proof. destruct node; cbn; auto. Qed.

Lemma holds_at_mono `{GoJSON} cs (P Q : string → Prop) stands segs node :
  (∀ s, P s → Q s) → holds_at cs P stands segs node → holds_at cs Q stands segs node.
Proof.
  intros HPQ. revert stands node. induction segs as [|seg segs IH]; intros stands node Hh; cbn [holds_at] in *.
  - destruct node; try done. destruct Hh as (s0 & ? & ?). eauto.
  - destruct (str_eqb (sgKey seg) nostr).
    { destruct (sgArray seg); [|done]. eapply elements_hold_mono; [intros x; apply IH|exact Hh]. }
    destruct node as [|b|lit|t|l|m]; try done. destruct (member m (sgKey seg)) as [c|]; [|done].
    destruct (sgArray seg); [eapply elements_hold_mono; [intros x; apply IH|exact Hh]|].
    destruct (sgMapKeys seg); [destruct c; eauto|]. destruct (sgJson seg); [|by apply IH].
    destruct c; try done. destruct Hh as (s0 & Hs & [Hd|(doc & Hm & Hd)]); exists s0; (split; [done|]); eauto.
Qed.

Lemma holds_at_le `{GoJSON} cs P stands segs n' n : le n' n → holds_at cs P stands segs n → holds_at cs P stands segs n'.
Proof.
  revert n' n. induction segs as [|seg segs IH]; intros n' n Hle Hs.
  - destruct Hle as [n|n|l' l _|m' m _ _]; cbn in *; done.
  - assert (He : ∀ c' c, le c' c → elements_hold (holds_at cs P stands segs) c → elements_hold (holds_at cs P stands segs) c').
    { intros c' c Hc Hel. destruct Hc as [c|c|l' l Hl|? ? ? ?]; cbn in *; try done.
      intros x (y & Hy & Hxy)%Hl. eapply IH; [exact Hxy|by apply Hel]. }
    cbn [holds_at] in *. destruct (str_eqb (sgKey seg) nostr); [destruct (sgArray seg); [by eapply He|done]|].
    destruct Hle as [n|n|l' l _|m' m Hm _]; [done..|].
    destruct (member m' (sgKey seg)) as [c'|] eqn:E; [|done]. destruct (Hm _ _ E) as (c & Ec & Hc). rewrite Ec in Hs.
    destruct (sgArray seg); [by eapply He|]. destruct (sgMapKeys seg); [|destruct (sgJson seg); [|by eapply IH]].
    + destruct Hc as [c|c|l' l _|cm' cm _ Hk]; try done. intros k Hin. by apply Hs, Hk.
    + by destruct Hc.
Qed.

(** ** Lemmas on the walk *)
Section walk.
Context `{GoJSON} (ledger : option Ledger) (canaries : list Withheld).
Notation walk := (apply ledger canaries).
Notation ok_value := (allowed ledger).

Lemma elem_of_applyArray (f : JSON → JSON * bool) (l : list JSON) x' :
  x' ∈ omap (λ e, let (res, strip) := f e in if strip then None else Some res) l → ∃ x, x ∈ l ∧ f x = (x', false).
Proof.
  intros (x & Hx & Hf)%list_elem_of_omap. exists x. split; [done|]. destruct (f x) as [res strip].
  by destruct strip; [|injection Hf as ->].
Qed.

Lemma applyArray_elements f (Q : JSON → Prop) node :
  (∀ n n', f n = (n', false) → Q n') → elements_hold Q (applyArray f node).
Proof. intros Hf. destruct node as [|b|lit|t|l|m]; cbn; try done. intros x (y & _ & Hy)%elem_of_applyArray. by eapply Hf. Qed.

(** A walk into an array, a map or an embedded document leaves no hit to its
    caller. *)
Lemma takes_hits_strip segs kind node : takes_hits segs = true → (walk segs kind node).2 = false.
Proof.
  revert node. induction segs as [|seg segs IH]; intros node Ht; [done|]. cbn [apply].
  destruct (str_eqb (sgKey seg) nostr); [done|]. destruct node as [|b|lit|t|l|m]; try done.
  destruct (member m (sgKey seg)) as [c|]; [|done]. unfold takes_hits in Ht. cbn [existsb] in Ht.
  destruct (sgArray seg); [done|]. destruct (sgMapKeys seg); [by destruct c|].
  destruct (sgJson seg); [destruct c; try done; by destruct (Decode _)|]. specialize (IH c Ht).
  destruct (walk segs kind c) as [res strip]. cbn in IH. by rewrite IH.
Qed.

Lemma holds_canaryAll P segs node :
  holds_at canaries P eq segs node → holds_at canaries P (replaced_by canaries) segs (canaryAll canaries node).
Proof.
  revert node. induction segs as [|seg segs IH]; intros node Hh.
  - destruct node as [|b|lit|t|l|m]; cbn in *; try done. destruct Hh as (s0 & -> & Hp). by exists t.
  - assert (He : ∀ n, elements_hold (holds_at canaries P eq segs) n →
      elements_hold (holds_at canaries P (replaced_by canaries) segs) (canaryAll canaries n)).
    { intros [|b|lit|t|l|m] Hel; cbn in *; try done. intros x (y & -> & Hy)%list_elem_of_fmap. by apply IH, Hel. }
    cbn [holds_at] in *. destruct (str_eqb (sgKey seg) nostr); [destruct (sgArray seg); [by apply He|done]|].
    destruct node as [|b|lit|t|l|m]; cbn [canaryAll]; try done. rewrite (member_map (canaryAll canaries)).
    destruct (member m (sgKey seg)) as [c|]; cbn [fmap option_fmap option_map]; [|done].
    destruct (sgArray seg); [by apply He|]. destruct (sgMapKeys seg).
    { destruct c as [|b|lit|t|l|cm]; cbn; try done. intros k Hk. apply Hh. rewrite map_map in Hk.
      erewrite map_ext in Hk; [exact Hk|]. by intros [k1 w]. }
    destruct (sgJson seg); [|by apply IH]. destruct c as [|b|lit|t|l|cm]; cbn; try done.
    destruct Hh as (s0 & -> & Hs). by exists t.
Qed.

Lemma canaryTree_all doc : canaryTree canaries doc = canaryAll canaries doc.
Proof.
  destruct canaries as [|c cs]; [|done]. cbn. revert doc. fix IH 1. intros [|b|lit|t|l|m]; cbn; try reflexivity.
  - f_equal. induction l as [|x l IHl]; cbn; [reflexivity|]. by rewrite <- IH, <- IHl.
  - f_equal. induction m as [|[k x] m IHm]; cbn; [reflexivity|]. by rewrite <- IH, <- IHm.
Qed.

(** What a walk keeps at its path is allowed. *)
Lemma apply_holds segs kind node node' : absorbed segs = true → walk segs kind node = (node', false) →
  holds_at canaries (λ s, ok_value s kind = true) eq segs node'.
Proof.
  revert node node'. induction segs as [|seg segs IH]; intros node node' Hab Ha.
  - cbn in *. destruct node as [|b|lit|t|l|m]; try by injection Ha as <-.
    destruct (ok_value t kind) eqn:E; [|done]. injection Ha as <-. by exists t.
  - cbn [absorbed] in Hab. apply andb_true_iff in Hab as [Hj Hab].
    assert (IH' : ∀ n n', walk segs kind n = (n', false) → holds_at canaries (λ s, ok_value s kind = true) eq segs n') by eauto.
    cbn [apply holds_at] in *. destruct (str_eqb (sgKey seg) nostr).
    { injection Ha as <-. destruct (sgArray seg); [|done]. by apply applyArray_elements. }
    destruct node as [|b|lit|t|l|m]; try by injection Ha as <-.
    destruct (member m (sgKey seg)) as [c|] eqn:Em; [|injection Ha as <-; by rewrite Em].
    destruct (sgArray seg) eqn:Ea.
    { injection Ha as <-. rewrite member_set, str_eqb_refl, Em. by apply applyArray_elements. }
    destruct (sgMapKeys seg) eqn:Ek.
    { destruct c as [|b|lit|t|l|cm]; try (injection Ha as <-; by rewrite Em).
      injection Ha as <-. rewrite member_set, str_eqb_refl, Em. cbn.
      intros k ([k' w] & -> & [Hk _]%list_elem_of_filter)%list_elem_of_fmap. exact Hk. }
    destruct (sgJson seg) eqn:Ej.
    { destruct c as [|b|lit|t|l|cm]; try (injection Ha as <-; by rewrite Em).
      destruct (Decode t) as [doc|] eqn:Ed; injection Ha as <-.
      - rewrite member_set, str_eqb_refl, Em. cbn [fmap option_fmap option_map]. eexists. split; [reflexivity|]. right.
        eexists. split; [reflexivity|]. rewrite canaryTree_all. apply holds_canaryAll. eapply IH'.
        rewrite <- (takes_hits_strip segs kind doc Hj). apply surjective_pairing.
      - rewrite Em. exists t. split; [done|by left]. }
    destruct (walk segs kind c) as [res strip] eqn:Er. destruct strip; [done|]. injection Ha as <-.
    rewrite member_set, str_eqb_refl, Em. by eapply IH'.
Qed.

Lemma applyArray_le f node : (∀ n, le (f n).1 n) → le (applyArray f node) node.
Proof.
  intros Hf. destruct node as [|b|lit|t|l|m]; try apply le_refl. apply le_arr.
  intros x' (x & Hx & Hfx)%elem_of_applyArray. exists x. split; [done|]. specialize (Hf x). by rewrite Hfx in Hf.
Qed.

(** A walk along a plain path only removes. *)
Lemma apply_le segs kind node : plainPath segs = true → le (walk segs kind node).1 node.
Proof.
  revert node. induction segs as [|seg segs IH]; intros node Hp.
  - cbn. destruct node as [|b|lit|t|l|m]; try apply le_refl. destruct (ok_value t kind); [apply le_refl|apply le_null].
  - cbn [plainPath forallb] in Hp. apply andb_true_iff in Hp as [Hj Hp]. apply negb_true_iff in Hj.
    assert (IH' : ∀ n, le (walk segs kind n).1 n) by auto. cbn [apply].
    destruct (str_eqb (sgKey seg) nostr); [destruct (sgArray seg); [by apply applyArray_le|apply le_refl]|].
    destruct node as [|b|lit|t|l|m]; try apply le_refl.
    destruct (member m (sgKey seg)) as [c|] eqn:Em; [|apply le_refl].
    destruct (sgArray seg); [eapply le_set; [done|by apply applyArray_le]|].
    destruct (sgMapKeys seg).
    { destruct c as [|b|lit|t|l|cm]; try apply le_refl. eapply le_set; [done|]. apply le_obj.
      - intros k v' Hm. exists v'. split; [|apply le_refl]. revert Hm. apply member_filter_keys. by intros.
      - intros k ([k' w] & -> & [_ Hin]%list_elem_of_filter)%list_elem_of_fmap. by apply (list_elem_of_fmap_2 fst). }
    rewrite Hj. specialize (IH' c). destruct (walk segs kind c) as [res strip]. destruct strip; [apply le_refl|].
    by eapply le_set.
Qed.

Lemma apply_disjoint P stands p q kind node : disjoint_heads p q = true →
  holds_at canaries P stands p (walk q kind node).1 ↔ holds_at canaries P stands p node.
Proof.
  destruct p as [|a p], q as [|b q]; try done. cbn [disjoint_heads]. intros Hd%negb_true_iff.
  cbn [apply]. destruct (str_eqb (sgKey b) nostr) eqn:Eb.
  - apply str_eqb_true in Eb. rewrite Eb in Hd. destruct (sgArray b); [|done]. cbn [holds_at fst].
    rewrite Hd. by destruct node.
  - destruct node as [|x|lit|t|l|m]; try done. destruct (member m (sgKey b)) as [c|]; [|done].
    assert (Hk : ∀ v, holds_at canaries P stands (a :: p) (JObj (set_member m (sgKey b) v)) ↔
                      holds_at canaries P stands (a :: p) (JObj m)).
    { intros v. cbn [holds_at]. destruct (str_eqb (sgKey a) nostr); [done|]. by rewrite member_set, Hd. }
    destruct (sgArray b); [apply Hk|]. destruct (sgMapKeys b); [destruct c; (done || apply Hk)|].
    destruct (sgJson b); [destruct c; try done; destruct (Decode s); [apply Hk|done]|].
    destruct (walk q kind c) as [res strip]. destruct strip; [done|apply Hk].
Qed.

Lemma applyPaths_keeps P p paths doc :
  forallb (λ q, compatible p (parsePath (ipPath q))) paths = true →
  holds_at canaries P eq p doc → holds_at canaries P eq p (applyPaths ledger canaries paths doc).1.1.
Proof.
  revert doc. induction paths as [|q paths IH]; intros doc Hc Hh; [done|].
  cbn [forallb] in Hc. apply andb_true_iff in Hc as [Hq Hc]. cbn [applyPaths].
  assert (Hstep : holds_at canaries P eq p (walk (parsePath (ipPath q)) (ipKind q) doc).1).
  { apply orb_true_iff in Hq as [Hq|Hq]; [eapply holds_at_le; [by apply apply_le|done]|by apply apply_disjoint]. }
  destruct (walk _ _ doc) as [doc' strip]. cbn [fst] in Hstep. specialize (IH doc' Hc Hstep).
  by destruct (applyPaths _ _ paths doc') as [[out absent] hits].
Qed.

(** After the loop no path holds a value that is not allowed. *)
Lemma applyPaths_holds paths doc p :
  compatible_paths paths = true → (applyPaths ledger canaries paths doc).1.2 = false → p ∈ paths →
  holds_at canaries (λ s, ok_value s (ipKind p) = true) eq (parsePath (ipPath p)) (applyPaths ledger canaries paths doc).1.1.
Proof.
  revert doc. induction paths as [|q paths IH]; intros doc Hc Ha Hp; [by apply not_elem_of_nil in Hp|].
  cbn [compatible_paths] in Hc. apply andb_true_iff in Hc as [[Hab Hq]%andb_true_iff Hc]. cbn [applyPaths] in *.
  destruct (walk _ _ doc) as [doc' strip] eqn:E. specialize (IH doc' Hc).
  pose proof (applyPaths_keeps (λ s, ok_value s (ipKind q) = true) (parsePath (ipPath q)) paths doc' Hq) as Hsh.
  destruct (applyPaths _ _ paths doc') as [[out absent] hits]. cbn [fst snd] in *.
  apply orb_false_iff in Ha as [-> Ha]. apply elem_of_cons in Hp as [->|Hp]; [|by apply IH].
  apply Hsh. by eapply apply_holds.
Qed.

(** ** Lemmas on the canary *)
Notation replaced := (canary canaries).

Lemma strings_canaryAll node : strings_of (canaryAll canaries node) = map replaced (strings_of node).
Proof.
  revert node. fix IH 1. intros [|b|lit|t|l|m]; cbn; try done.
  - induction l as [|x l IHl]; cbn; [done|]. by rewrite map_app, IH, IHl.
  - induction m as [|[k x] m IHm]; cbn; [done|]. by rewrite map_app, IH, IHm.
Qed.

End walk.

(** ** Withheld values in a text

    A value the replacement cannot bring back: it holds no bracket and is not
    part of a category's name. *)
Record replaceable (cs : list Withheld) (w : string) : Prop := {
  rp_nonempty : w ≠ nostr;
  rp_open : lacks "[" w = true;
  rp_close : lacks "]" w = true;
  rp_category : ∀ c, c ∈ cs → StrContains (whCategory c) w = false;
}.

Lemma replaceable_tail c cs w : replaceable (c :: cs) w → replaceable cs w.
Proof. intros [H1 H2 H3 H4]. split; [done..|]. intros x Hx. apply H4. by right. Qed.

Lemma canary_keeps cs w s : (∀ c, c ∈ cs → whValue c ≠ nostr) → replaceable cs w →
  StrContains s w = false → StrContains (canary cs s) w = false.
Proof.
  revert s. induction cs as [|c cs IH]; intros s Hne Hw Hs; [done|]. unfold canary. cbn [foldl]. apply IH.
  - intros x Hx. apply Hne. by right.
  - by eapply replaceable_tail.
  - destruct (StrContains s (whValue c)); [|done]. destruct Hw as [H1 H2 H3 H4].
    apply ReplaceAll_token; [apply Hne; left|done..|apply H4; left|by left].
Qed.

Lemma canary_clean cs w s : (∀ c, c ∈ cs → whValue c ≠ nostr) → replaceable cs w → w ∈ map whValue cs →
  StrContains (canary cs s) w = false.
Proof.
  revert s. induction cs as [|c cs IH]; intros s Hne Hw Hin; [by apply not_elem_of_nil in Hin|].
  assert (Hne' : ∀ x, x ∈ cs → whValue x ≠ nostr) by (intros; apply Hne; by right).
  unfold canary. cbn [foldl]. destruct (decide (whValue c = w)) as [Hc|Hc].
  - apply canary_keeps; [done|by eapply replaceable_tail|].
    destruct (StrContains s (whValue c)) eqn:E; [|by rewrite <- Hc].
    destruct Hw as [H1 H2 H3 H4]. apply ReplaceAll_token; [apply Hne; left|done..|apply H4; left|by right].
  - apply IH; [done|by eapply replaceable_tail|]. cbn [map] in Hin. apply elem_of_cons in Hin as [Hin|Hin]; [by destruct Hc|done].
Qed.

(** ** What the replacement put there

    [canary] on a text whose bytes carry a mark: the handler's bytes come in
    unmarked, and the bytes of the tokens that replace a withheld value go in
    marked.  [erase] forgets the marks. *)
Definition marked : Type := list (ascii * bool).
Definition mark (b : bool) (s : string) : marked := map (λ a, (a, b)) (String.list_ascii_of_string s).
Definition erase (m : marked) : string := String.string_of_list_ascii (map fst m).

Fixpoint cut_marked (old : string) (skip : nat) (m : marked) : marked * list marked :=
  match m with
  | [] => ([], [])
  | x :: m' =>
      match skip with
      | S k => cut_marked old k m'
      | O =>
          if HasPrefix (erase m) old then
            let (h, t) := cut_marked old (Nat.pred (String.length old)) m' in ([], h :: t)
          else let (h, t) := cut_marked old 0 m' in (x :: h, t)
      end
  end.
Definition replace_marked (m : marked) (old token : string) : marked :=
  let (h, t) := cut_marked old 0 m in foldl (λ out p, out ++ mark true token ++ p) h t.
Definition canary_marked (cs : list Withheld) (s : string) : marked :=
  foldl (λ m c, if StrContains (erase m) (whValue c) then replace_marked m (whValue c) ("[" +:+ whCategory c +:+ "]") else m)
    (mark false s) cs.

(** No occurrence of [w] is made of the handler's bytes alone. *)
Definition untouched (m : marked) (w : string) : Prop :=
  ¬ ∃ a u b, m = a ++ u ++ b ∧ erase u = w ∧ ∀ x, x ∈ u → x.2 = false.

Lemma erase_app a b : erase (a ++ b) = erase a +:+ erase b.
Proof. unfold erase. rewrite map_app. induction (map fst a) as [|x l IH]; cbn; [done|]. by rewrite IH. Qed.

Lemma erase_mark b s : erase (mark b s) = s.
Proof. unfold erase, mark. rewrite map_map, map_id. apply String.string_of_list_ascii_of_string. Qed.

Lemma cut_erase old skip m :
  cut_at old skip (erase m) = (erase (cut_marked old skip m).1, map erase (cut_marked old skip m).2).
Proof.
  revert skip. induction m as [|x m IH]; intros skip; [done|].
  change (erase (x :: m)) with (String x.1 (erase m)). destruct skip as [|k]; cbn [cut_at cut_marked]; [|apply IH].
  change (erase (x :: m)) with (String x.1 (erase m)). destruct (HasPrefix _ old); rewrite IH; by destruct (cut_marked old _ m).
Qed.

Lemma erase_replace m old token : old ≠ nostr → erase (replace_marked m old token) = ReplaceAll (erase m) old token.
Proof.
  intros Hold. unfold ReplaceAll, replace_marked, str_eqb. rewrite bool_decide_false, cut_erase by done.
  destruct (cut_marked old 0 m) as [h t]. cbn [fst snd]. revert h. induction t as [|p t IH]; intros h; [done|].
  cbn [foldl map]. by rewrite IH, !erase_app, erase_mark.
Qed.

Lemma erase_canary cs s : (∀ c, c ∈ cs → whValue c ≠ nostr) → erase (canary_marked cs s) = canary cs s.
Proof.
  unfold canary_marked, canary. intros Hne. rewrite <- (erase_mark false s) at 2.
  generalize (mark false s) as m. induction cs as [|c cs IH]; intros m; [done|]. cbn [foldl].
  rewrite IH by (intros; apply Hne; by right). f_equal. destruct (StrContains _ _); [|done].
  apply erase_replace, Hne. left.
Qed.

Lemma cut_marked_pieces old skip m :
  (∃ r, drop skip m = (cut_marked old skip m).1 ++ r) ∧
  Forall (λ p, ∃ a b, m = a ++ p ++ b) ((cut_marked old skip m).1 :: (cut_marked old skip m).2).
Proof.
  revert skip. induction m as [|x m IH]; intros skip.
  { destruct skip; (split; [by exists []|]); (constructor; [by exists [], []|constructor]). }
  assert (Hext : ∀ l, Forall (λ p : marked, ∃ a b, m = a ++ p ++ b) l → Forall (λ p, ∃ a b, x :: m = a ++ p ++ b) l).
  { intros l Hl. eapply Forall_impl; [exact Hl|]. intros p (a & b & ->). by exists (x :: a), b. }
  destruct skip as [|k]; cbn [cut_marked drop].
  - destruct (HasPrefix (erase (x :: m)) old).
    + destruct (IH (Nat.pred (String.length old))) as [_ Hf]. destruct (cut_marked old _ m) as [h t]. cbn [fst snd] in *.
      split; [by exists (x :: m)|]. constructor; [by exists [], (x :: m)|by apply Hext].
    + destruct (IH 0) as [[r Hr] Hf]. rewrite drop_0 in Hr. destruct (cut_marked old 0 m) as [h t]. cbn [fst snd] in *.
      apply Forall_cons in Hf as [_ Hf]. split; [exists r; cbn; by rewrite Hr at 1|].
      constructor; [exists [], r; cbn; by rewrite Hr at 1|by apply Hext].
  - destruct (IH k) as [Hr Hf]. destruct (cut_marked old k m) as [h t]. cbn [fst snd] in *. split; [done|by apply Hext].
Qed.

Lemma untouched_infix a p b w : untouched (a ++ p ++ b) w → untouched p w.
Proof. intros Hu (x & u & y & -> & He & Hm). apply Hu. exists (a ++ x), u, (y ++ b). by rewrite <- !app_assoc. Qed.

Lemma untouched_lacks m w : StrContains (erase m) w = false → untouched m w.
Proof. intros Hs (a & u & b & -> & <- & _). apply StrContains_false in Hs. apply Hs. exists (erase a), (erase b). by rewrite !erase_app. Qed.

(** A marked byte cuts: what is untouched on both sides of it is untouched. *)
Lemma untouched_cut a k b w : w ≠ nostr → k.2 = true → untouched a w → untouched b w → untouched (a ++ k :: b) w.
Proof.
  intros Hw Hk Ha Hb (x & u & y & He & Heu & Hm). symmetry in He. destruct (app_eq_app _ _ _ _ He) as (l & [[-> Hl]|[-> Hl]]).
  - destruct l as [|k' l]; cbn in Hl.
    + destruct u as [|k' u]; [by destruct Hw|]. cbn in Hl. injection Hl as <- _.
      assert (k.2 = false) by (apply Hm; left). congruence.
    + injection Hl as <- ->. apply Hb. by exists l, u, y.
  - destruct (app_eq_app _ _ _ _ Hl) as (l' & [[-> Hl']|[-> Hl']]).
    + destruct l' as [|k' l']; cbn in Hl'; [apply Ha; exists x, l, []; by rewrite !app_nil_r in *|].
      injection Hl' as <- _. assert (k.2 = false) by (apply Hm, elem_of_app; right; left). congruence.
    + apply Ha. by exists x, u, l'.
Qed.

Lemma untouched_token a tok b w : w ≠ nostr → tok ≠ nostr → untouched a w → untouched b w →
  untouched (a ++ mark true tok ++ b) w.
Proof.
  intros Hw Ht Ha Hb. destruct tok as [|c tok]; [done|]. cbn. apply untouched_cut; [done|done|done|].
  change (untouched (mark true tok ++ b) w). clear Ht. induction tok as [|d tok IH]; [done|].
  apply (untouched_cut []); [done|done| |exact IH]. intros (x & u & y & He & Heu & _).
  by destruct x, u.
Qed.

Lemma replace_untouched m old tok w : old ≠ nostr → w ≠ nostr → tok ≠ nostr → untouched m w ∨ old = w →
  untouched (replace_marked m old tok) w.
Proof.
  intros Ho Hw Ht Hm. unfold replace_marked.
  destruct (cut_marked_pieces old 0 m) as [_ Hf]. destruct (cut_at_pieces old 0 (erase m) Ho) as [_ Hc].
  rewrite cut_erase in Hc. destruct (cut_marked old 0 m) as [h t]. cbn [fst snd] in *.
  assert (Hall : Forall (λ p, untouched p w) (h :: t)).
  { change (erase h :: map erase t) with (erase <$> (h :: t)) in Hc. rewrite Forall_fmap in Hc.
    eapply Forall_impl; [apply Forall_and; split; [exact Hf|exact Hc]|]. intros p [(a & b & ->) [Hp _]].
    destruct Hm as [Hm| ->]; [by eapply untouched_infix|by apply untouched_lacks]. }
  clear Hf Hc Hm. apply Forall_cons in Hall as [Hh Ha]. revert h Hh. induction Ha as [|p t Hp _ IH]; intros h Hh; [done|].
  cbn [foldl]. by apply IH, untouched_token.
Qed.

(** No withheld value is left in the handler's bytes, whatever the values hold. *)
Lemma canary_untouched cs s w : (∀ c, c ∈ cs → whValue c ≠ nostr) → w ∈ map whValue cs → untouched (canary_marked cs s) w.
Proof.
  intros Hne Hin. assert (Hw : w ≠ nostr) by (apply list_elem_of_fmap in Hin as (c & -> & Hc); by apply Hne).
  unfold canary_marked. generalize (mark false s) as m. revert Hin.
  assert (Hkeep : ∀ cs m, (∀ c, c ∈ cs → whValue c ≠ nostr) → untouched m w →
    untouched (foldl (λ m c, if StrContains (erase m) (whValue c)
      then replace_marked m (whValue c) ("[" +:+ whCategory c +:+ "]") else m) m cs) w).
  { clear -Hw. induction cs as [|c cs IH]; intros m Hne Hm; [done|]. cbn [foldl]. apply IH; [intros; apply Hne; by right|].
    destruct (StrContains _ _); [|done]. apply replace_untouched; [apply Hne; left|done|done|by left]. }
  induction cs as [|c cs IH]; intros Hin m; [by apply not_elem_of_nil in Hin|].
  assert (Hne' : ∀ x, x ∈ cs → whValue x ≠ nostr) by (intros; apply Hne; by right). cbn [foldl map] in *.
  apply elem_of_cons in Hin as [->|Hin]; [|by apply IH]. apply Hkeep; [done|].
  destruct (StrContains (erase m) (whValue c)) eqn:E; [|by apply untouched_lacks].
  apply replace_untouched; [apply Hne; left|done|done|by right].
Qed.

Lemma Backstop_json `{GoJSON} body paths l r doc : TrimSpace body ≠ nostr → Decode body = Some doc →
  Backstop body paths l = Ok r →
  brBody r = Marshal (canaryTree (Canaries l) (applyPaths l (Canaries l) paths doc).1.1) ∧
  brAbsent r = (applyPaths l (Canaries l) paths doc).1.2.
Proof.
  intros Hb Hd. unfold Backstop. unfold str_eqb. rewrite bool_decide_false, Hd by done.
  destruct (applyPaths _ _ paths doc) as [[doc' absent] hits]. by intros [= <-].
Qed.

(** The values at the paths of a response that is not absent. *)
Lemma Backstop_holds `{GoJSON} body paths l r :
  compatible_paths paths = true → paths ≠ [] → TrimSpace body ≠ nostr → Backstop body paths l = Ok r → brAbsent r = false →
  ∃ doc, brBody r = Marshal doc ∧
  ∀ p, p ∈ paths →
    holds_at (Canaries l) (λ s, allowed l s (ipKind p) = true) (replaced_by (Canaries l)) (parsePath (ipPath p)) doc.
Proof.
  intros Hc Hne Hb Hr Ha. destruct (Decode body) as [doc|] eqn:Hd.
  2: { exfalso. unfold Backstop, str_eqb in Hr. rewrite bool_decide_false, Hd in Hr by done. by destruct paths. }
  destruct (Backstop_json body paths l r doc Hb Hd Hr) as [Hbody Habs]. rewrite Ha in Habs. rewrite canaryTree_all in Hbody.
  eexists. split; [exact Hbody|]. intros p Hin. by apply holds_canaryAll, applyPaths_holds.
Qed.

(** ** What leaves the server *)
Section egress.
Context `{GoUnicode} `{ScopedStores E F Q NF G} `{GoJSON}.
Context (v : Viewer) (prov : Provenance).
Notation request_step := (request_step v prov).

Lemma start_sound : ledger_sound (Some NewLedger).
Proof.
  split.
  - intros id Hi. apply bool_decide_eq_true in Hi. by apply not_elem_of_empty in Hi.
  - intros l0 slug [= <-] Hs. by apply not_elem_of_empty in Hs.
  - intros l0 id [= <-] Hs. by apply not_elem_of_empty in Hs.
  - intros l0 x [= <-] Hx. apply elem_of_dom in Hx as [c Hc]. cbn in Hc. by rewrite lookup_empty in Hc.
Qed.

Lemma run_sound l l' : star request_step l l' → ledger_sound l → ledger_sound l'.
Proof. apply star_invariant. intros a b. apply request_step_sound. Qed.

Lemma canaries_nonempty l : ledger_sound l → ∀ c, c ∈ Canaries l → whValue c ≠ nostr.
Proof.
  intros [_ _ _ Hc] c Hin. destruct l as [l|]; [|by apply not_elem_of_nil in Hin].
  eapply Hc; [done|]. apply Canaries_dom. by apply list_elem_of_fmap_2.
Qed.

(** What stands at an ID path of a kind, released by the request's own reads. *)
Definition read_object (id : string) : Prop := ∃ o, scoped_object o ∧ koID o = id.
Definition released (kind : IDKind) (s : string) : Prop :=
  s = nostr ∨
  match kind with
  | KindObject => read_object s
  | KindEntity => scoped_entity (TrimPrefix s EntityURIPrefix)
  | KindEdge => scoped_edge s
  | KindEndpoint => read_object s ∨ scoped_entity (TrimPrefix s EntityURIPrefix)
  | KindNodeID => read_object (CutBefore s "/")
  | KindNodeRef => read_object (CutBefore (TrimPrefix s "ctxt:node/") "/")
  | KindGraphNodeKey =>
      s = "query" ∨ (HasPrefix s "obj:" = true ∧ read_object (TrimPrefix s "obj:")) ∨
      (HasPrefix s "ent:" = true ∧ scoped_entity (TrimPrefix (TrimPrefix s "ent:") EntityURIPrefix))
  end.

Lemma allowed_released l kind s : ledger_sound l → allowed l s kind = true → released kind s.
Proof.
  intros [Ho He Hg _]. unfold allowed, released. destruct (str_eqb s nostr) eqn:Es; [left; by apply str_eqb_true|].
  assert (He' : ∀ x, HasEntity l x = true → scoped_entity (TrimPrefix x EntityURIPrefix)).
  { intros x Hx. destruct l as [l|]; [|done]. apply bool_decide_eq_true in Hx. by eapply He. }
  intros Ha. right. destruct kind; try (by apply Ho); try (by apply He').
  - destruct l as [l|]; [|done]. apply bool_decide_eq_true in Ha. by eapply Hg.
  - apply orb_true_iff in Ha as [Ha|Ha]; [left; by apply Ho|right; by apply He'].
  - destruct (str_eqb s "query") eqn:Eq; [left; by apply str_eqb_true|right].
    destruct (HasPrefix s "obj:"); [left; split; [done|by apply Ho]|].
    destruct (HasPrefix s "ent:"); [right; split; [done|by apply He']|done].
Qed.

(** C8. A response names only what the request released.  Whatever reads a
    restricted viewer's handler makes and whatever JSON body it then writes, a
    response of the backstop that is not absent has at each ID path of its
    shape, the path into the answer an MCP text embeds included, only values one
    of the viewer's scoped reads answered: the ID of an object, the slug of an
    entity, the ID of an edge, a node of an object, or a search graph key of one;
    withheld values are replaced in it afterwards.  A text a path goes on into
    that is no JSON stays what the handler wrote. *)
Theorem egress_ids shape paths l body r :
  paths = HTTPPaths shape ∨ paths = GRPCPaths shape →
  star request_step (Some NewLedger) l → TrimSpace body ≠ nostr → shape ≠ ShapeNone →
  Backstop body paths l = Ok r → brAbsent r = false →
  ∃ doc, brBody r = Marshal doc ∧
  ∀ p, p ∈ paths →
    holds_at (Canaries l) (λ s, allowed l s (ipKind p) = true ∧ released (ipKind p) s) (replaced_by (Canaries l))
      (parsePath (ipPath p)) doc.
Proof.
  intros Hp Hrun Hb Hsh Hr Ha.
  assert (Hc : compatible_paths paths = true ∧ paths ≠ [])
    by (destruct Hp as [->| ->], shape; try done; (split; [vm_compute; reflexivity|discriminate])).
  destruct (Backstop_holds body paths l r) as (doc & Hbody & Hdoc); [apply Hc|apply Hc|done..|].
  exists doc. split; [done|]. intros p Hin. eapply holds_at_mono; [|by apply Hdoc]. cbn. intros s Hs. split; [done|].
  eapply allowed_released; [|exact Hs]. by apply (run_sound _ _ Hrun start_sound).
Qed.

(** What is left of a withheld value in a text of the response: the text is what
    the replacement made of one the handler wrote, no occurrence of the value in
    it is made of the handler's bytes alone, and a value that is replaceable does
    not occur at all. *)
Definition kept_out (cs : list Withheld) (w s : string) : Prop :=
  (∃ s0, s = erase (canary_marked cs s0) ∧ untouched (canary_marked cs s0) w) ∧
  (replaceable cs w → StrContains s w = false).

Lemma canary_kept_out cs w s : (∀ c, c ∈ cs → whValue c ≠ nostr) → w ∈ map whValue cs → kept_out cs w (canary cs s).
Proof.
  intros Hne Hin. split; [|intros Hrep; by apply canary_clean]. exists s. rewrite erase_canary by done.
  split; [done|by apply canary_untouched].
Qed.

(** C7. What a viewer's copy of an object withheld does not leave the server:
    after a read answered the object, whatever else the request reads and
    whatever body its handler writes (out of the copy, the stored row or
    anything else), no string value of the backstop's response holds a value
    that copy withheld in the handler's own bytes; an occurrence can only run
    through a category token the backstop put there, and a value without
    brackets that is no part of a category's name does not occur at all.  The
    names of an object's members are not searched. *)
Theorem egress_withheld o w l1 l2 l paths body r :
  star request_step (Some NewLedger) l1 → reads v prov o l1 l2 → star request_step l2 l →
  w ∈ rdWithheld (Render v (Some o) prov) → TrimSpace body ≠ nostr → Backstop body paths l = Ok r →
  (Decode body ≠ None →
     ∃ doc, brBody r = Marshal doc ∧ ∀ s, s ∈ strings_of doc → kept_out (Canaries l) (whValue w) s) ∧
  (Decode body = None → kept_out (Canaries l) (whValue w) (brBody r)).
Proof.
  intros Hr1 Hread Hr2 Hw Hb Hr.
  assert (Hs : ledger_sound l).
  { eapply run_sound; [exact Hr2|]. eapply request_step_sound; [by eapply reads_step|]. by eapply run_sound, start_sound. }
  assert (Hin : whValue w ∈ map whValue (Canaries l)).
  { destruct (le_some _ _ (run_le v prov _ _ Hr1)) as [l0 ->].
    eapply canary_le; [by eapply run_le|]. by apply (reads_recorded v prov o l0 l2 Hread). }
  pose proof (canaries_nonempty l Hs) as Hne. split.
  - intros Hd. destruct (Decode body) as [doc|] eqn:Hdoc; [|done].
    destruct (Backstop_json body paths l r doc Hb Hdoc Hr) as [Hbody _].
    rewrite canaryTree_all in Hbody. eexists. split; [exact Hbody|]. intros s Hin'. rewrite strings_canaryAll in Hin'.
    apply list_elem_of_fmap in Hin' as (s0 & -> & _). by apply canary_kept_out.
  - intros Hd. unfold Backstop, str_eqb in Hr. rewrite bool_decide_false, Hd in Hr by done. destruct paths; [|done].
    injection Hr as <-. by apply canary_kept_out.
Qed.
End egress.

(** ** Examples: one object, read by its ID *)
Definition note_stores : ScopedStores unit unit unit unit unit := {|
  st_one q := match q with Get id => if str_eqb id (koID note1) then Ok (Some note1) else Err tt | _ => Err tt end;
  st_list _ := Ok ([], 0%Z);
  st_nodes _ := Ok [];
  st_entity _ := Err tt;
  st_entities _ := [];
  st_edges _ := [];
|}.

(** A codec of a few documents: the plain one [{"id": .., "text": ..}] with a
    fixed text, and the answer of a tools/call whose text is the list of two
    search results, encoded by writing their IDs one after the other. *)
Definition note_json : GoJSON := {|
  Decode s :=
    if str_eqb s "tools/call" then
      Some (JObj [("result", JObj [("content", JArr [JObj [("text", JStr "results: c-1 c-9")]])])])
    else if str_eqb s "results: c-1 c-9" then
      Some (JObj [("results", JArr [JObj [("id", JStr "c-1")]; JObj [("id", JStr "c-9")]])])
    else Some (JObj [("id", JStr "c-1"); ("text", JStr s)]);
  Marshal d :=
    match d with
    | JObj [_; (_, JStr s)] => s
    | JObj [(_, JObj [(_, JArr [JObj [(_, JStr s)]])])] => "text: " +:+ s
    | JObj [(_, JArr l)] =>
        "results:" +:+ foldr (λ x out, match x with JObj [(_, JStr s)] => " " +:+ s +:+ out | _ => out end) nostr l
    | _ => nostr
    end;
|}.

Definition note_ledger : option Ledger := (render (H := ascii_unicode) title_viewer None (Some note1) (Some NewLedger)).2.
Definition leaking_body : string := "it says the first secret, twice: the first secret".

(** A result the request never read is taken out of the embedded answer. *)
Example embedded_result_removed :
  Backstop (H := note_json) "tools/call" (HTTPPaths ShapeObjects) note_ledger =
    Ok (mkResult "text: results: c-1" ["result.content[].text!json.results[].id=c-9"] false).
Proof. vm_compute. reflexivity. Qed.

(** The names of members are not searched for withheld values. *)
Example member_names_kept :
  canaryTree [mkWithheld "content" "the first secret"] (JObj [("the first secret", JStr "the first secret")]) =
    JObj [("the first secret", JStr "[content]")].
Proof. reflexivity. Qed.

Lemma note_read : reads (H := ascii_unicode) (H0 := note_stores) title_viewer None note1 (Some NewLedger) note_ledger.
Proof. eapply (rd_one (H := ascii_unicode) (H0 := note_stores) _ _ _ (Get "c-1")); reflexivity. Qed.

Lemma egress_ids_witness :
  ∃ r doc, Backstop (H := note_json) "tools/call" (HTTPPaths ShapeObjects) note_ledger = Ok r ∧
    brBody r = "text: results: c-1" ∧ brBody r = Marshal (GoJSON := note_json) doc ∧
    holds_at (H := note_json) (Canaries note_ledger)
      (λ s, allowed note_ledger s KindObject = true ∧ released (H0 := note_stores) KindObject s)
      (replaced_by (Canaries note_ledger)) (parsePath "result.content[].text!json.results[].id") doc.
Proof.
  destruct (Backstop (H := note_json) "tools/call" (HTTPPaths ShapeObjects) note_ledger) as [r|] eqn:Er;
    [|vm_compute in Er; discriminate Er].
  assert (Ha : brAbsent r = false) by (vm_compute in Er; injection Er as <-; reflexivity).
  assert (Hrun : star (request_step (H := ascii_unicode) (H0 := note_stores) title_viewer None) (Some NewLedger) note_ledger).
  { eapply star_step; [|apply star_refl]. eapply reads_step. exact note_read. }
  destruct (egress_ids (H := ascii_unicode) (H0 := note_stores) (H1 := note_json) title_viewer None ShapeObjects
              (HTTPPaths ShapeObjects) note_ledger "tools/call" r) as (doc & Hbody & Hdoc);
    [by left|exact Hrun|vm_compute; discriminate|discriminate|exact Er|exact Ha|].
  exists r, doc. split; [reflexivity|]. split; [vm_compute in Er; injection Er as <-; reflexivity|]. split; [exact Hbody|].
  apply (Hdoc (mkPath "result.content[].text!json.results[].id" KindObject)).
  unfold HTTPPaths, httpObjectPaths. repeat (left || right).
Defined.

Lemma egress_withheld_witness :
  ∃ r doc, Backstop (H := note_json) leaking_body (HTTPPaths ShapeObjects) note_ledger = Ok r ∧
    brBody r = "it says [content], twice: [content]" ∧ brBody r = Marshal (GoJSON := note_json) doc ∧
    ∀ s, s ∈ strings_of doc → StrContains s "the first secret" = false.
Proof.
  destruct (Backstop (H := note_json) leaking_body (HTTPPaths ShapeObjects) note_ledger) as [r|] eqn:Er;
    [|vm_compute in Er; discriminate Er].
  destruct (egress_withheld (H := ascii_unicode) (H0 := note_stores) (H1 := note_json) title_viewer None note1
              (mkWithheld "content" "the first secret") (Some NewLedger) note_ledger note_ledger
              (HTTPPaths ShapeObjects) leaking_body r) as [Hj _];
    [apply star_refl|exact note_read|apply star_refl|vm_compute; left|vm_compute; discriminate|exact Er|].
  destruct Hj as (doc & Hbody & Hdoc); [discriminate|]. exists r, doc. split; [reflexivity|].
  split; [vm_compute in Er; injection Er as <-; reflexivity|]. split; [exact Hbody|].
  intros s Hs. apply (Hdoc s Hs). split; [discriminate|reflexivity|reflexivity|]. intros c Hc. vm_compute in Hc.
  apply list_elem_of_singleton in Hc as ->. reflexivity.
Defined.
