(* ===== verification/ScopedDriver.v ===== *)
(** * The scoped storage driver

    Models [internal/storage/scoped.go], [scoped_objects.go], [scoped_state.go]
    and [scoped_system.go]: which store, if any, each of the storage methods
    reaches for a viewer.  A restricted wrapper is a table from its methods to
    their bodies, a body is a function from the wrapper's fields to a [route];
    the per-principal stores and the blob store, whose bodies do more than
    route, are modelled in full in files PrincipalStores and ScopedBlobs. *)

From S2P Require Import Prelude GoStrings RsqlCompiler StorageScope.

(** ** Refusals *)
Inductive cause : Type := ErrNoViewer | ErrNoScopedReads.

(** Every one of these wraps [ErrRestrictedViewer]. *)
Inductive refusal_error : Type :=
| restrictedRead (store method : string)
| restrictedWrite (store method : string)
| refuseRead (store method : string) (c : option cause)
| noPrincipal (store method : string).

(** What a wrapper method does with its call: hand it to the driver's store, to
    the driver's store bound to the scope, to the driver's store as the
    viewer's principal, answer it from the blobs visible objects refer to, or
    refuse. *)
Inductive route : Type :=
| ToInner
| ToScoped
| ToPrincipal (p : string)
| ToVisibleBlobs
| Refuse (e : refusal_error).

(** ** The driver wrapper *)
Record scopedDriver : Type := mkScopedDriver {
  sdScope : option Scope;
  sdBinds : string → bool;  (* whether the driver's store of an accessor is a scoper *)
}.

Inductive driver : Type := NoDriver | WholeDriver | Restricted (sd : scopedDriver).

Definition ScopedDriver `{StorageViewer V} (v : option V) (present : bool) (dialect : string)
    (binds : string → bool) : driver :=
  if negb present then NoDriver
  else
    match v with
    | Some w => if IsUnrestricted w then WholeDriver
                else Restricted (mkScopedDriver (ViewerScope v dialect) binds)
    | None => Restricted (mkScopedDriver (ViewerScope v dialect) binds)
    end.

(** [driverDialect] of the dialect a driver reports, if it reports one. *)
Definition driverDialect (reported : option string) : string :=
  match reported with
  | Some d => if str_eqb d SQLDialectPostgres then SQLDialectPostgres else SQLDialectSQLite
  | None => SQLDialectSQLite
  end.

(** [scopedObjects], [scopedEntities], ...: whether the bound store is not nil. *)
Definition scopedStore (sd : scopedDriver) (accessor : string) : bool :=
  sdBinds sd accessor && match sdScope sd with Some _ => true | None => false end.

Definition principalOf (sd : scopedDriver) : string :=
  match sdScope sd with None => nostr | Some sc => scPrincipal sc end.

Definition refusal (sd : scopedDriver) (bound : bool) : option cause :=
  match sdScope sd with
  | None => Some ErrNoViewer
  | Some _ => if negb bound then Some ErrNoScopedReads else None
  end.

(** The fields of a restricted wrapper. *)
Record wrapper : Type := mkWrapper {
  wScoped : bool;
  wRefuse : option cause;
  wPrincipal : string;
}.

(** ** Method bodies *)
Definition inner (w : wrapper) : route := ToInner.
Definition noRead (store method : string) (w : wrapper) : route := Refuse (restrictedRead store method).
Definition noWrite (store method : string) (w : wrapper) : route := Refuse (restrictedWrite store method).
Definition scoped (store method : string) (w : wrapper) : route :=
  if negb (wScoped w) then Refuse (refuseRead store method (wRefuse w)) else ToScoped.
Definition byBlobRefs (method : string) (w : wrapper) : route :=
  if negb (wScoped w) then Refuse (refuseRead "Blobs" method (wRefuse w)) else ToVisibleBlobs.

Definition principalRead (store method : string) (c : option cause) : refusal_error :=
  match c with Some _ => refuseRead store method c | None => noPrincipal store method end.
Definition asPrincipal (store method : string) (w : wrapper) : route :=
  if str_eqb (wPrincipal w) nostr then Refuse (principalRead store method (wRefuse w))
  else ToPrincipal (wPrincipal w).

Definition methods : Type := list (string * (wrapper → route)).

(** ** scoped_objects.go *)
Definition restrictedObjects : methods :=
  [("Create", inner); ("Get", scoped "Objects" "Get");
   ("GetByContentHash", scoped "Objects" "GetByContentHash");
   ("GetBySourceKey", scoped "Objects" "GetBySourceKey"); ("List", scoped "Objects" "List");
   ("CountByType", scoped "Objects" "CountByType"); ("Update", inner); ("TransitionStatus", inner);
   ("Delete", inner); ("CountBlobRefs", noRead "Objects" "CountBlobRefs");
   ("ListBySQL", scoped "Objects" "ListBySQL"); ("Reinforce", inner); ("SetReminder", inner);
   ("ClearReminder", inner); ("ListDueReminders", noRead "Objects" "ListDueReminders");
   ("MarkReminded", inner); ("ListPendingReminders", noRead "Objects" "ListPendingReminders");
   ("VectorSearch", scoped "Objects" "VectorSearch"); ("FTSSearch", scoped "Objects" "FTSSearch");
   ("FTSSearchNodeAware", scoped "Objects" "FTSSearchNodeAware");
   ("VectorSearchNodeAware", scoped "Objects" "VectorSearchNodeAware")].

Definition restrictedEntities : methods :=
  [("Upsert", inner); ("UpsertThin", inner); ("SetContentStatus", inner);
   ("Get", scoped "Entities" "Get"); ("List", scoped "Entities" "List");
   ("Namespaces", scoped "Entities" "Namespaces"); ("Resolve", scoped "Entities" "Resolve")].

Definition restrictedEdges : methods :=
  [("Create", inner); ("ListFrom", scoped "Edges" "ListFrom"); ("ListTo", scoped "Edges" "ListTo");
   ("Delete", inner); ("DeleteByObject", inner);
   ("CountMentionsTo", scoped "Edges" "CountMentionsTo");
   ("RelatedObjectIDs", scoped "Edges" "RelatedObjectIDs");
   ("CreateAll", inner); ("CreateMissing", inner); ("DeleteMatching", inner)].

Definition restrictedEmbeddings : methods :=
  [("EnsureIndex", inner); ("Put", inner); ("Get", noRead "Embeddings" "Get");
   ("Search", scoped "Embeddings" "Search"); ("ListMissing", noRead "Embeddings" "ListMissing");
   ("PurgeModel", inner)].

Definition restrictedProximity : methods :=
  [("GetNeighbors", scoped "Proximity" "GetNeighbors");
   ("GetNeighborsAbove", scoped "Proximity" "GetNeighborsAbove"); ("Get", scoped "Proximity" "Get");
   ("Put", inner); ("PutBatch", inner); ("Delete", inner);
   ("FindStale", noRead "Proximity" "FindStale"); ("Stats", noRead "Proximity" "Stats")].

Definition restrictedAliases : methods :=
  [("Create", inner); ("Resolve", scoped "Aliases" "Resolve"); ("List", scoped "Aliases" "List"); ("Delete", inner)].

Definition restrictedAttachments : methods :=
  [("SaveAttachment", inner); ("GetAttachment", noRead "Attachments" "GetAttachment");
   ("ListAttachments", noRead "Attachments" "ListAttachments"); ("DeleteAttachment", inner)].

Definition restrictedBlobs : methods :=
  [("Put", inner); ("Get", byBlobRefs "Get"); ("Delete", inner); ("Exists", byBlobRefs "Exists");
   ("List", byBlobRefs "List"); ("URL", byBlobRefs "URL")].

(** ** scoped_state.go *)
Definition restrictedAuditLog : methods :=
  [("Append", inner); ("List", noRead "AuditLog" "List"); ("GetObjectHistory", noRead "AuditLog" "GetObjectHistory")].

Definition restrictedSavedSearches : methods :=
  [("Create", asPrincipal "SavedSearches" "Create"); ("GetByName", asPrincipal "SavedSearches" "GetByName");
   ("List", asPrincipal "SavedSearches" "List"); ("Update", asPrincipal "SavedSearches" "Update");
   ("Delete", asPrincipal "SavedSearches" "Delete")].

Definition restrictedSearchHistory : methods :=
  [("Append", asPrincipal "SearchHistory" "Append"); ("List", asPrincipal "SearchHistory" "List");
   ("ClearByProfile", noRead "SearchHistory" "ClearByProfile")].

Definition restrictedResurfacing : methods :=
  [("Upsert", asPrincipal "Resurfacing" "Upsert"); ("List", asPrincipal "Resurfacing" "List");
   ("MarkSurfaced", inner); ("Dismiss", inner); ("DeleteByProfile", inner); ("DeleteByObject", inner)].

Definition restrictedReminders : methods :=
  [("Create", inner); ("Get", noRead "Reminders" "Get"); ("List", noRead "Reminders" "List"); ("Dismiss", inner)].

Definition restrictedWatermarks : methods :=
  [("GetWatermark", noRead "Watermarks" "GetWatermark"); ("SetWatermark", inner)].

Definition restrictedUISessions : methods :=
  [("CreateLoginCode", inner); ("ConsumeLoginCode", inner); ("Create", inner);
   ("Lookup", noRead "UISessions" "Lookup"); ("Get", noRead "UISessions" "Get"); ("Touch", inner);
   ("Revoke", inner); ("List", noRead "UISessions" "List"); ("Prune", inner)].

Definition restrictedPendingEntities : methods :=
  [("Upsert", inner); ("List", noRead "PendingEntities" "List"); ("Get", noRead "PendingEntities" "Get");
   ("Delete", inner); ("DeleteEntity", inner)].

(** ** scoped_system.go *)
Definition restrictedJobs : methods :=
  [("Create", noWrite "Jobs" "Create"); ("Get", noRead "Jobs" "Get");
   ("GetByIdempotencyKey", noRead "Jobs" "GetByIdempotencyKey"); ("List", noRead "Jobs" "List");
   ("AcquireNext", noWrite "Jobs" "AcquireNext"); ("Complete", noWrite "Jobs" "Complete");
   ("Fail", noWrite "Jobs" "Fail"); ("Retry", noWrite "Jobs" "Retry"); ("Cancel", noWrite "Jobs" "Cancel");
   ("RecoverStale", noWrite "Jobs" "RecoverStale"); ("ExtendLease", noWrite "Jobs" "ExtendLease");
   ("ReleaseLease", noWrite "Jobs" "ReleaseLease")].

Definition restrictedPipelines : methods :=
  [("Create", noWrite "Pipelines" "Create"); ("Get", noRead "Pipelines" "Get"); ("List", noRead "Pipelines" "List");
   ("Update", noWrite "Pipelines" "Update"); ("Delete", noWrite "Pipelines" "Delete");
   ("Archive", noWrite "Pipelines" "Archive"); ("Unarchive", noWrite "Pipelines" "Unarchive")].

Definition restrictedSteps : methods :=
  [("Create", noWrite "Steps" "Create"); ("Get", noRead "Steps" "Get"); ("List", noRead "Steps" "List");
   ("Unregister", noWrite "Steps" "Unregister"); ("Update", noWrite "Steps" "Update")].

Definition restrictedRegistries : methods :=
  [("CacheManifest", noWrite "Registries" "CacheManifest");
   ("GetCachedManifest", noRead "Registries" "GetCachedManifest");
   ("UpdateETag", noWrite "Registries" "UpdateETag"); ("List", noRead "Registries" "List");
   ("Delete", noWrite "Registries" "Delete")].

Definition restrictedEntitlements : methods :=
  [("Upsert", noWrite "Entitlements" "Upsert"); ("Get", noRead "Entitlements" "Get");
   ("List", noRead "Entitlements" "List"); ("Delete", noWrite "Entitlements" "Delete")].

Definition restrictedMetering : methods :=
  [("Record", noWrite "Metering" "Record"); ("RecordCapped", noWrite "Metering" "RecordCapped");
   ("Aggregate", noRead "Metering" "Aggregate"); ("List", noRead "Metering" "List")].

Definition restrictedFeeds : methods :=
  [("Create", noWrite "Feeds" "Create"); ("Get", noRead "Feeds" "Get"); ("GetByURL", noRead "Feeds" "GetByURL");
   ("List", noRead "Feeds" "List"); ("Update", noWrite "Feeds" "Update"); ("Delete", noWrite "Feeds" "Delete")].

Definition restrictedFeedItems : methods :=
  [("Create", noWrite "FeedItems" "Create"); ("ExistsByGUID", noRead "FeedItems" "ExistsByGUID")].

Definition restrictedBatches : methods :=
  [("Create", noWrite "Batches" "Create"); ("Get", noRead "Batches" "Get"); ("Update", noWrite "Batches" "Update")].

Definition restrictedDetectors : methods :=
  [("Create", noWrite "Detectors" "Create"); ("Get", noRead "Detectors" "Get"); ("List", noRead "Detectors" "List");
   ("Update", noWrite "Detectors" "Update"); ("Delete", noWrite "Detectors" "Delete");
   ("Enable", noWrite "Detectors" "Enable"); ("Disable", noWrite "Detectors" "Disable")].

Definition restrictedWatches : methods :=
  [("CreateWatch", noWrite "Watches" "CreateWatch"); ("GetWatch", noRead "Watches" "GetWatch");
   ("ListWatches", noRead "Watches" "ListWatches"); ("UpdateWatch", noWrite "Watches" "UpdateWatch");
   ("DeleteWatch", noWrite "Watches" "DeleteWatch"); ("UpsertFileRecord", noWrite "Watches" "UpsertFileRecord");
   ("GetFileRecord", noRead "Watches" "GetFileRecord"); ("DeleteFileRecord", noWrite "Watches" "DeleteFileRecord");
   ("ListFileRecords", noRead "Watches" "ListFileRecords")].

(** ** The accessors of scoped.go *)
Definition boundTo (accessor : string) (sd : scopedDriver) : wrapper :=
  let bound := scopedStore sd accessor in mkWrapper bound (refusal sd bound) nostr.
Definition ofPrincipal (sd : scopedDriver) : wrapper := mkWrapper false (refusal sd true) (principalOf sd).
Definition innerOnly (sd : scopedDriver) : wrapper := mkWrapper false None nostr.

Definition accessors : list (string * ((scopedDriver → wrapper) * methods)) :=
  [("Objects", (boundTo "Objects", restrictedObjects));
   ("Entities", (boundTo "Entities", restrictedEntities));
   ("Edges", (boundTo "Edges", restrictedEdges));
   ("Jobs", (innerOnly, restrictedJobs)); ("Pipelines", (innerOnly, restrictedPipelines));
   ("Steps", (innerOnly, restrictedSteps)); ("Registries", (innerOnly, restrictedRegistries));
   ("Reminders", (innerOnly, restrictedReminders)); ("Feeds", (innerOnly, restrictedFeeds));
   ("FeedItems", (innerOnly, restrictedFeedItems)); ("Batches", (innerOnly, restrictedBatches));
   ("Detectors", (innerOnly, restrictedDetectors));
   ("Blobs", (boundTo "Objects", restrictedBlobs));
   ("Proximity", (boundTo "Proximity", restrictedProximity));
   ("Watches", (innerOnly, restrictedWatches));
   ("Aliases", (boundTo "Aliases", restrictedAliases));
   ("AuditLog", (innerOnly, restrictedAuditLog)); ("Attachments", (innerOnly, restrictedAttachments));
   ("Resurfacing", (ofPrincipal, restrictedResurfacing));
   ("Entitlements", (innerOnly, restrictedEntitlements));
   ("PendingEntities", (innerOnly, restrictedPendingEntities));
   ("Metering", (innerOnly, restrictedMetering));
   ("Embeddings", (boundTo "Embeddings", restrictedEmbeddings));
   ("SavedSearches", (ofPrincipal, restrictedSavedSearches));
   ("SearchHistory", (ofPrincipal, restrictedSearchHistory));
   ("Watermarks", (innerOnly, restrictedWatermarks)); ("UISessions", (innerOnly, restrictedUISessions))].

Inductive accessorKind : Type := accessorScoped | accessorPassthrough.

Definition scopedAccessors : list (string * accessorKind) :=
  [("Init", accessorPassthrough); ("Close", accessorPassthrough); ("Health", accessorPassthrough);
   ("Auth", accessorPassthrough); ("Sharing", accessorPassthrough)] ++
  map (λ a, (a, accessorScoped))
    ["Objects"; "Entities"; "Edges"; "Jobs"; "Pipelines"; "Steps"; "Registries"; "Reminders"; "Feeds"; "FeedItems";
     "Batches"; "Detectors"; "Blobs"; "Proximity"; "Watches"; "Aliases"; "AuditLog"; "Attachments"; "Resurfacing";
     "Entitlements"; "PendingEntities"; "Metering"; "Embeddings"; "SavedSearches"; "SearchHistory"; "Watermarks";
     "UISessions"].

(** A Go map from strings, as an association list. *)
Fixpoint find {A} (k : string) (m : list (string * A)) : option A :=
  match m with
  | [] => None
  | (k', v) :: m' => if str_eqb k k' then Some v else find k m'
  end.

(** Where a call of [accessor().method] goes. *)
Definition call (d : driver) (accessor method : string) : option route :=
  match d with
  | NoDriver => None
  | WholeDriver => Some ToInner
  | Restricted sd =>
      match find accessor accessors with
      | None => Some ToInner
      | Some (fields, ms) => body ← find method ms; Some (body (fields sd))
      end
  end.

(** ** The contract tables *)
Definition restrictedReads : list (string * list string) :=
  [("Attachments", ["GetAttachment"; "ListAttachments"]); ("AuditLog", ["List"; "GetObjectHistory"]);
   ("Batches", ["Get"]); ("Detectors", ["Get"; "List"]); ("Embeddings", ["Get"; "ListMissing"]);
   ("Entitlements", ["Get"; "List"]); ("FeedItems", ["ExistsByGUID"]); ("Feeds", ["Get"; "GetByURL"; "List"]);
   ("Jobs", ["Get"; "GetByIdempotencyKey"; "List"]); ("Metering", ["Aggregate"; "List"]);
   ("Objects", ["CountBlobRefs"; "ListDueReminders"; "ListPendingReminders"]);
   ("PendingEntities", ["List"; "Get"]); ("Pipelines", ["Get"; "List"]); ("Proximity", ["FindStale"; "Stats"]);
   ("Registries", ["GetCachedManifest"; "List"]); ("Reminders", ["Get"; "List"]);
   ("SearchHistory", ["ClearByProfile"]); ("Steps", ["Get"; "List"]); ("UISessions", ["Lookup"; "Get"; "List"]);
   ("Watches", ["GetWatch"; "ListWatches"; "GetFileRecord"; "ListFileRecords"]); ("Watermarks", ["GetWatermark"])].

Definition restrictedWrites : list (string * list string) :=
  [("Batches", ["Create"; "Update"]); ("Detectors", ["Create"; "Update"; "Delete"; "Enable"; "Disable"]);
   ("Entitlements", ["Upsert"; "Delete"]); ("FeedItems", ["Create"]); ("Feeds", ["Create"; "Update"; "Delete"]);
   ("Jobs", ["Create"; "AcquireNext"; "Complete"; "Fail"; "Retry"; "Cancel"; "RecoverStale"; "ExtendLease"; "ReleaseLease"]);
   ("Metering", ["Record"; "RecordCapped"]);
   ("Pipelines", ["Create"; "Update"; "Delete"; "Archive"; "Unarchive"]);
   ("Registries", ["CacheManifest"; "UpdateETag"; "Delete"]); ("Steps", ["Create"; "Unregister"; "Update"]);
   ("Watches", ["CreateWatch"; "UpdateWatch"; "DeleteWatch"; "UpsertFileRecord"; "DeleteFileRecord"])].

Definition scopedReads : list (string * list string) :=
  [("Aliases", ["Resolve"; "List"]); ("Blobs", ["Get"; "Exists"; "List"; "URL"]);
   ("Edges", ["ListFrom"; "ListTo"; "CountMentionsTo"; "RelatedObjectIDs"]); ("Embeddings", ["Search"]);
   ("Entities", ["Get"; "List"; "Namespaces"; "Resolve"]);
   ("Objects", ["Get"; "GetByContentHash"; "GetBySourceKey"; "List"; "CountByType"; "ListBySQL"; "VectorSearch";
                "FTSSearch"; "FTSSearchNodeAware"; "VectorSearchNodeAware"]);
   ("Proximity", ["GetNeighbors"; "GetNeighborsAbove"; "Get"])].

Definition principalReads : list (string * list string) :=
  [("Resurfacing", ["List"]); ("SavedSearches", ["GetByName"; "List"]); ("SearchHistory", ["List"])].

Definition listed (t : list (string * list string)) (accessor method : string) : bool :=
  contains (default [] (find accessor t)) method.

(** ** What the tables promise *)

(** The writes of the per-principal stores: they reach the driver, as the
    viewer's principal. *)
Definition principalWrites : list (string * list string) :=
  [("Resurfacing", ["Upsert"]); ("SavedSearches", ["Create"; "Update"; "Delete"]); ("SearchHistory", ["Append"])].

(** The writes that reach the driver unchanged whoever asks: of the stores whose
    rows are shared or belong to the server's own bookkeeping. *)
Definition sharedWrites : list (string * list string) :=
  [("Objects", ["Create"; "Update"; "TransitionStatus"; "Delete"; "Reinforce"; "SetReminder"; "ClearReminder"; "MarkReminded"]);
   ("Entities", ["Upsert"; "UpsertThin"; "SetContentStatus"]);
   ("Edges", ["Create"; "Delete"; "DeleteByObject"; "CreateAll"; "CreateMissing"; "DeleteMatching"]);
   ("Embeddings", ["EnsureIndex"; "Put"; "PurgeModel"]); ("Proximity", ["Put"; "PutBatch"; "Delete"]);
   ("Aliases", ["Create"; "Delete"]); ("Attachments", ["SaveAttachment"; "DeleteAttachment"]);
   ("Blobs", ["Put"; "Delete"]); ("AuditLog", ["Append"]);
   ("Resurfacing", ["MarkSurfaced"; "Dismiss"; "DeleteByProfile"; "DeleteByObject"]);
   ("Reminders", ["Create"; "Dismiss"]); ("Watermarks", ["SetWatermark"]);
   ("UISessions", ["CreateLoginCode"; "ConsumeLoginCode"; "Create"; "Touch"; "Revoke"; "Prune"]);
   ("PendingEntities", ["Upsert"; "Delete"; "DeleteEntity"])].

(** The stores no share policy covers. *)
Definition ownerOnly (accessor : string) : bool := match find accessor restrictedWrites with Some _ => true | None => false end.

(** The route the tables promise a restricted viewer's method. *)
Definition promised (accessor method : string) (sd : scopedDriver) : route :=
  let source := if str_eqb accessor "Blobs" then "Objects" else accessor in
  if listed restrictedReads accessor method then Refuse (restrictedRead accessor method)
  else if listed restrictedWrites accessor method then Refuse (restrictedWrite accessor method)
  else if listed scopedReads accessor method then
    if scopedStore sd source then if str_eqb accessor "Blobs" then ToVisibleBlobs else ToScoped
    else Refuse (refuseRead accessor method (refusal sd false))
  else if listed principalReads accessor method || listed principalWrites accessor method then
    if str_eqb (principalOf sd) nostr
    then Refuse (match sdScope sd with None => refuseRead accessor method (Some ErrNoViewer)
                                  | Some _ => noPrincipal accessor method end)
    else ToPrincipal (principalOf sd)
  else ToInner.

Lemma principalOf_none sd : sdScope sd = None → principalOf sd = nostr.
Proof. intros H. unfold principalOf. by rewrite H. Qed.

(** One wrapper method keeps its promise, for every driver. *)
Definition keeps (accessor : string) (fields : scopedDriver → wrapper) (mb : string * (wrapper → route)) : Prop :=
  ∀ sd, mb.2 (fields sd) = promised accessor mb.1 sd.

(** Every question left is whether the driver's store binds. *)
Ltac route_cases :=
  intros [[?|] binds]; vm_compute;
  repeat match goal with |- context [binds ?a] => destruct (binds a) end; reflexivity.

Lemma wrappers_keep : Forall (λ '(acc, (fields, ms)), Forall (keeps acc fields) ms) accessors.
Proof.
  repeat lazymatch goal with
  | |- Forall _ accessors => unfold accessors
  | |- Forall _ [] => constructor
  | |- Forall _ (_ :: _) => constructor
  | |- keeps _ _ _ => route_cases
  | |- Forall _ ?ms => let m := eval unfold ms in ms in change ms with m
  | |- _ => progress cbv beta iota
  end.
Qed.

Lemma find_elem {A} k (m : list (string * A)) v : find k m = Some v → (k, v) ∈ m.
Proof.
  induction m as [|[k' v'] m IH]; simpl; [done|]. destruct (str_eqb k k') eqn:E.
  - apply str_eqb_true in E as ->. intros [= ->]. left.
  - intros H. right. by apply IH.
Qed.

Lemma call_promised sd accessor method r :
  find accessor accessors ≠ None → call (Restricted sd) accessor method = Some r → r = promised accessor method sd.
Proof.
  unfold call. destruct (find accessor accessors) as [[fields ms]|] eqn:Ea; [|done]. intros _.
  destruct (find method ms) as [body|] eqn:Em; [|done]. cbn. intros [= <-].
  apply find_elem in Ea, Em. pose proof wrappers_keep as H. rewrite Forall_forall in H.
  specialize (H _ Ea). simpl in H. rewrite Forall_forall in H. by apply (H _ Em).
Qed.

(** Every method a table lists is a method of its wrapper, and every method of
    an owner-only store is listed. *)
Definition table_known (t : list (string * list string)) : bool :=
  forallb (λ '(acc, ms), forallb (λ m, match call (Restricted (mkScopedDriver None (λ _, true))) acc m with
                                       | Some _ => match find acc accessors with Some _ => true | None => false end
                                       | None => false end) ms) t.
Definition owner_listed : bool :=
  forallb (λ '(acc, (_, ms)), negb (ownerOnly acc) ||
    forallb (λ '(m, _), listed restrictedReads acc m || listed restrictedWrites acc m) ms) accessors.

(** Each method is in exactly one of the tables. *)
Definition route_known (accessor method : string) : bool :=
  match List.filter (λ t, listed t accessor method)
          [restrictedReads; restrictedWrites; scopedReads; principalReads; principalWrites; sharedWrites] with
  | [_] => true
  | _ => false
  end.
Definition routes_known : bool :=
  forallb (λ '(acc, (_, ms)), forallb (λ '(m, _), route_known acc m) ms) accessors.

(** What holds of every method of every wrapper, by looking at each. *)
Lemma call_known sd accessor method r :
  find accessor accessors ≠ None → call (Restricted sd) accessor method = Some r →
  route_known accessor method = true ∧
  (ownerOnly accessor = true → listed restrictedReads accessor method || listed restrictedWrites accessor method = true).
Proof.
  unfold call. destruct (find accessor accessors) as [[fields ms]|] eqn:Ea; [|done]. intros _.
  destruct (find method ms) as [body|] eqn:Em; [|done]. intros _. apply find_elem in Ea, Em.
  assert (routes_known = true) as Hr by (vm_compute; reflexivity).
  assert (owner_listed = true) as Ho by (vm_compute; reflexivity).
  unfold routes_known in Hr. rewrite forallb_forall' in Hr. specialize (Hr _ Ea). cbn -[route_known] in Hr.
  rewrite forallb_forall' in Hr. specialize (Hr _ Em). cbn -[route_known] in Hr. split; [done|]. intros Hx.
  unfold owner_listed in Ho. rewrite forallb_forall' in Ho. specialize (Ho _ Ea). cbn -[listed] in Ho.
  rewrite Hx in Ho. cbn -[listed] in Ho. rewrite forallb_forall' in Ho. apply (Ho _ Em).
Qed.

(** ** Properties *)

(** The hand-written wrappers agree with their contract tables: for every
    accessor [ScopedDriver] wraps and every method of its wrapper, whatever the
    scope and whichever of the driver's stores bind to one, the method's body
    refuses, answers through the scope, acts as the principal or reaches the
    driver exactly as [restrictedReads], [restrictedWrites], [scopedReads] and
    [principalReads] list it; the wrapped accessors are the scoped ones of
    [scopedAccessors], and each method a table lists exists. *)
Theorem wrappers_match_tables sd accessor method r :
  (find accessor accessors ≠ None → call (Restricted sd) accessor method = Some r → r = promised accessor method sd) ∧
  (find accessor accessors ≠ None ↔ find accessor scopedAccessors = Some accessorScoped) ∧
  forallb table_known [restrictedReads; restrictedWrites; scopedReads; principalReads; principalWrites; sharedWrites] = true.
Proof.
  split_and!; [by intros; eapply call_promised| |vm_compute; reflexivity].
  assert (H1 : forallb (λ '(a, _), match find a scopedAccessors with Some accessorScoped => true | _ => false end) accessors = true)
    by (vm_compute; reflexivity).
  assert (H2 : forallb (λ '(a, k), match k with accessorPassthrough => true
                                   | accessorScoped => match find a accessors with Some _ => true | None => false end end)
                 scopedAccessors = true) by (vm_compute; reflexivity).
  split; intros H.
  - destruct (find accessor accessors) as [fm|] eqn:E; [|done]. apply find_elem in E.
    rewrite forallb_forall' in H1. specialize (H1 _ E). cbv beta iota in H1. by destruct (find accessor scopedAccessors) as [[]|].
  - apply find_elem in H. rewrite forallb_forall' in H2. specialize (H2 _ H). cbv beta iota in H2.
    by destruct (find accessor accessors).
Qed.


(** A viewer of one principal, for the instances below. *)
Inductive OneViewer : Type := oneViewer (principal : string).
#[export] Instance OneViewer_storage : StorageViewer OneViewer := {
  IsUnrestricted _ := false;
  PrincipalID v := match v with oneViewer p => p end;
  ObjectPredicate _ _ := ("type = ?", []);
  Allows _ _ := false;
}.

