(* ===== verification/ScopedBlobs.v ===== *)
(** * Blobs of a restricted viewer

    Models [restrictedBlobs] of [internal/storage/scoped_objects.go]: a blob is
    visible only through an object the viewer sees that refers to it.  The
    driver's blob store and its object store bound to the viewer's scope are
    interfaces: the classes below. *)

From S2P Require Import Prelude GoStrings.

Inductive BlobError : Type :=
| ErrBlobNotFound (key : string)  (* hiddenBlob: wraps ErrBlobNotFound and ErrNotFound *)
| BlobRefused (method : string)   (* refuseRead("Blobs", method, cause) *)
| BlobFailure (what : string).

(** [storage.BlobStore], its reads; a key listed by [List] is [BlobInfo.Key]. *)
Class BlobStore (S : Type) : Type := {
  Blob_Get : S → string → result BlobError string;
  Blob_Exists : S → string → result BlobError bool;
  Blob_List : S → string → result BlobError (list string);
  Blob_URL : S → string → result BlobError string;
}.

(** [CountBlobRefs] of the object store bound to the scope. *)
Class BlobRefs (R : Type) : Type := { CountBlobRefs : R → string → result BlobError Z }.

Section blobs.
Context {S R : Type} `{BlobStore S} `{BlobRefs R}.

(** [restrictedBlobs{inner, refs, refuse}]; [None] is a nil [refs]. *)
Context (store : S) (refs : option R).

Definition visible (rf : R) (key : string) : result BlobError bool :=
  n ← CountBlobRefs rf key; Ok (0 <? n)%Z.

Definition hiddenBlob (key : string) : BlobError := ErrBlobNotFound key.

Definition rb_Get (key : string) : result BlobError string :=
  match refs with
  | None => Err (BlobRefused "Get")
  | Some rf => ok ← visible rf key; if negb ok then Err (hiddenBlob key) else Blob_Get store key
  end.

Definition rb_Exists (key : string) : result BlobError bool :=
  match refs with
  | None => Err (BlobRefused "Exists")
  | Some rf => ok ← visible rf key; if negb ok then Ok false else Blob_Exists store key
  end.

Fixpoint visibleKeys (rf : R) (all : list string) : result BlobError (list string) :=
  match all with
  | [] => Ok []
  | b :: l => ok ← visible rf b; out ← visibleKeys rf l; Ok (if ok : bool then b :: out else out)
  end.

Definition rb_List (prefix : string) : result BlobError (list string) :=
  match refs with
  | None => Err (BlobRefused "List")
  | Some rf => all ← Blob_List store prefix; visibleKeys rf all
  end.

Definition rb_URL (key : string) : result BlobError string :=
  match refs with
  | None => Err (BlobRefused "URL")
  | Some rf => ok ← visible rf key; if negb ok then Err (hiddenBlob key) else Blob_URL store key
  end.

Lemma visibleKeys_ok rf all out :
  visibleKeys rf all = Ok out → ∀ k, k ∈ out ↔ k ∈ all ∧ visible rf k = Ok true.
Proof.
  revert out. induction all as [|b l IH]; intros out Ho k; simpl in Ho.
  - injection Ho as <-. split; [intros Hk; by apply not_elem_of_nil in Hk|intros [Hk _]; by apply not_elem_of_nil in Hk].
  - apply bind_ok_inv in Ho as (ok & Hok & Ho). apply bind_ok_inv in Ho as (o & Hl & Ho). injection Ho as <-.
    specialize (IH _ Hl). destruct ok; rewrite ?elem_of_cons, IH.
    + split; [intros [->|[? ?]]; auto|intros [[->|?] ?]; auto].
    + split; [intros [? ?]; auto|intros [[->|?] ?]; [congruence|auto]].
Qed.
End blobs.

(** A blob is visible to a restricted viewer only through an object it sees:
    when no visible object refers to a key, reading it, asking for its URL and
    asking whether it exists answer exactly as for a missing key, whatever the
    blob store holds, so a guessed key confirms nothing; a listing returns
    exactly the listed keys some visible object refers to; and without a scope
    every read refuses. *)
Theorem blobs_follow_objects {S R : Type} `{BlobStore S} `{BlobRefs R} (store : S) (rf : R) key prefix :
  (visible rf key = Ok false →
     rb_Get store (Some rf) key = Err (ErrBlobNotFound key) ∧
     rb_URL store (Some rf) key = Err (ErrBlobNotFound key) ∧
     rb_Exists store (Some rf) key = Ok false) ∧
  (∀ out, rb_List store (Some rf) prefix = Ok out →
     ∃ all, Blob_List store prefix = Ok all ∧ ∀ k, k ∈ out ↔ k ∈ all ∧ visible rf k = Ok true) ∧
  (∀ data, rb_Get store (Some rf) key = Ok data → visible rf key = Ok true ∧ Blob_Get store key = Ok data) ∧
  rb_Get store (R := R) None key = Err (BlobRefused "Get") ∧ rb_List store (R := R) None prefix = Err (BlobRefused "List").
Proof.
  split_and!; [|intros out Ho|intros data Hd|done|done].
  - intros Hv. unfold rb_Get, rb_URL, rb_Exists. by rewrite Hv.
  - unfold rb_List in Ho. apply bind_ok_inv in Ho as (all & Ha & Ho). exists all. split; [done|].
    by apply visibleKeys_ok.
  - unfold rb_Get in Hd. apply bind_ok_inv in Hd as (ok & Hok & Hd). destruct ok; [done|discriminate].
Qed.
