(* ===== verification/PrincipalStores.v ===== *)
(** * Per-principal stores

    Models the saved searches of a restricted viewer: the wrapper
    [restrictedSavedSearches] of [internal/storage/scoped_state.go] over any
    store that keeps the contract of [SavedSearchStore] (a class with its laws),
    and the SQLite store of [internal/storage/sqlite/saved_searches.go], which
    keeps it.  The table is the list of its rows in insertion order; RFC 3339
    columns hold whole seconds, and [ORDER BY created_at DESC] is the stable
    sort, ties in insertion order. *)

From S2P Require Import Prelude GoStrings Resolver.

Record SavedSearch : Type := mkSavedSearch {
  ssID : string;
  ssName : string;
  ssQuery : string;
  ssProfileID : string;
  ssAlertOn : string;
  ssNotify : string;
  ssOwnerPrincipal : string;
  ssCreatedAt : Z;
  ssUpdatedAt : Z;
}.

Record SavedSearchFilter : Type := mkFilter {
  sfProfileID : string;
  sfOwnerPrincipal : string;
  sfLimit : Z;
  sfOffset : Z;
}.

Definition PrincipalOrOwner (p : string) : string := if str_eqb p nostr then OwnerPrincipal else p.

Inductive SearchError : Type :=
| SearchConflict (name : string)
| SearchNotFound (name : string)
| SearchRefused (method : string)
| SearchFailure (what : string).

(** ** The contract *)
Class SavedSearchStore (S : Type) : Type := {
  SS_Create : S → SavedSearch → result SearchError S;
  SS_GetByName : S → string → result SearchError (option SavedSearch);
  SS_List : S → SavedSearchFilter → result SearchError (list SavedSearch);
  SS_Update : S → SavedSearch → result SearchError S;
  SS_Delete : S → string → result SearchError S;
  ss_rows : S → list SavedSearch;
}.

Class SavedSearchLaws (S : Type) `{SavedSearchStore S} : Prop := {
  law_get : ∀ s n r, SS_GetByName s n = Ok r →
    match r with
    | Some r => r ∈ ss_rows s ∧ ssName r = n
    | None => ∀ r, r ∈ ss_rows s → ssName r ≠ n
    end;
  law_create : ∀ s x s', SS_Create s x = Ok s' →
    ∃ r, ssOwnerPrincipal r = PrincipalOrOwner (ssOwnerPrincipal x) ∧ ssName r = ssName x ∧
         ss_rows s' ≡ₚ r :: ss_rows s;
  law_list : ∀ s f l, SS_List s f = Ok l → sfOwnerPrincipal f ≠ nostr →
    ∀ r, r ∈ l → r ∈ ss_rows s ∧ ssOwnerPrincipal r = sfOwnerPrincipal f;
  law_update : ∀ s x s', SS_Update s x = Ok s' →
    Forall2 (λ r r', ssOwnerPrincipal r' = ssOwnerPrincipal r ∧ (ssName r ≠ ssName x → r' = r)) (ss_rows s) (ss_rows s');
  law_delete : ∀ s n s', SS_Delete s n = Ok s' → ss_rows s' = filter (λ r, ssName r ≠ n) (ss_rows s);
  law_names : ∀ s, NoDup (map ssName (ss_rows s));
}.

(** ** The restricted wrapper *)
Section restricted.
Context {S : Type} `{SavedSearchLaws S}.
(** [v.principal] *)
Context (principal : string).

Definition own (s : S) (name : string) : result SearchError (option SavedSearch) :=
  r ← SS_GetByName s name;
  match r with
  | None => Ok None
  | Some r => if negb (str_eqb (PrincipalOrOwner (ssOwnerPrincipal r)) principal) then Ok None else Ok (Some r)
  end.

Definition set_owner (x : SavedSearch) : SavedSearch :=
  mkSavedSearch (ssID x) (ssName x) (ssQuery x) (ssProfileID x) (ssAlertOn x) (ssNotify x) principal
    (ssCreatedAt x) (ssUpdatedAt x).

Definition rs_Create (s : S) (x : SavedSearch) : result SearchError S :=
  if str_eqb principal nostr then Err (SearchRefused "Create") else SS_Create s (set_owner x).

Definition rs_GetByName (s : S) (name : string) : result SearchError (option SavedSearch) :=
  if str_eqb principal nostr then Err (SearchRefused "GetByName") else own s name.

Definition rs_List (s : S) (f : SavedSearchFilter) : result SearchError (list SavedSearch) :=
  if str_eqb principal nostr then Err (SearchRefused "List")
  else SS_List s (mkFilter (sfProfileID f) principal (sfLimit f) (sfOffset f)).

Definition rs_Update (s : S) (x : SavedSearch) : result SearchError S :=
  if str_eqb principal nostr then Err (SearchRefused "Update")
  else
    r ← own s (ssName x);
    match r with
    | None => Err (SearchNotFound (ssName x))
    | Some _ => SS_Update s (set_owner x)
    end.

Definition rs_Delete (s : S) (name : string) : result SearchError S :=
  if str_eqb principal nostr then Err (SearchRefused "Delete")
  else
    r ← own s name;
    match r with
    | None => Err (SearchNotFound name)
    | Some _ => SS_Delete s name
    end.

(** What a viewer can do to the store. *)
Inductive viewer_step : S → S → Prop :=
| vs_create s x s' : rs_Create s x = Ok s' → viewer_step s s'
| vs_update s x s' : rs_Update s x = Ok s' → viewer_step s s'
| vs_delete s n s' : rs_Delete s n = Ok s' → viewer_step s s'.

(** The rows of every other principal. *)
Definition mine (r : SavedSearch) : Prop := PrincipalOrOwner (ssOwnerPrincipal r) = principal.
#[export] Instance mine_dec r : Decision (mine r) := decide (_ = _).
Definition others (s : S) : list SavedSearch := filter (λ r, ¬ mine r) (ss_rows s).

Lemma own_some s name r : own s name = Ok (Some r) → r ∈ ss_rows s ∧ ssName r = name ∧ mine r.
Proof.
  unfold own. intros Ho. apply bind_ok_inv in Ho as (o & Hg & Ho). apply law_get in Hg.
  destruct o as [x|]; [|discriminate]. destruct (str_eqb _ principal) eqn:E; [|discriminate].
  injection Ho as <-. apply str_eqb_true in E. destruct Hg. auto.
Qed.

(** A name is held by one row, so a row of another principal has another name. *)
Lemma other_name s name r x : own s name = Ok (Some r) → x ∈ ss_rows s → ¬ mine x → ssName x ≠ name.
Proof.
  intros (Hr & Hn & Hm)%own_some Hx Hnm Heq. assert (x = r) as ->; [|done].
  pose proof (law_names s) as Hd. revert Hr Hx Hd. generalize (ss_rows s) as l. intros l Hr Hx Hd.
  assert (Heq' : ssName x = ssName r) by congruence. clear - Hr Hx Hd Heq'.
  induction l as [|y l IH]; [by apply not_elem_of_nil in Hr|]. cbn [map] in Hd. apply NoDup_cons in Hd as [Hy Hd].
  apply elem_of_cons in Hr as [->|Hr], Hx as [->|Hx]; [done| | |by apply IH].
  - destruct Hy. rewrite <- Heq'. by apply (list_elem_of_fmap_2 ssName).
  - destruct Hy. rewrite Heq'. by apply (list_elem_of_fmap_2 ssName).
Qed.

Lemma PrincipalOrOwner_idemp p : PrincipalOrOwner (PrincipalOrOwner p) = PrincipalOrOwner p.
Proof. unfold PrincipalOrOwner, str_eqb. repeat case_bool_decide; congruence. Qed.

Lemma viewer_step_others s s' : viewer_step s s' → others s' ≡ₚ others s.
Proof.
  unfold others. intros [t x t' Hs|t x t' Hs|t n t' Hs]; revert Hs;
    unfold rs_Create, rs_Update, rs_Delete, str_eqb; (case_bool_decide as Hp; [discriminate|]).
  - intros (r & Ho & _ & ->)%law_create. rewrite filter_cons. cbn [set_owner ssOwnerPrincipal] in Ho.
    rewrite decide_False; [done|]. intros Hn. apply Hn. unfold mine. rewrite Ho, PrincipalOrOwner_idemp.
    unfold PrincipalOrOwner, str_eqb. by rewrite bool_decide_false.
  - intros Hs. apply bind_ok_inv in Hs as ([r|] & Hr & Hs); [|discriminate]. apply law_update in Hs.
    cbn [set_owner ssName] in Hs. pose proof (other_name t (ssName x) r) as Hn.
    assert (Hall : ∀ y, y ∈ ss_rows t → ¬ mine y → ssName y ≠ ssName x) by (intros; by eapply Hn).
    clear Hn Hr. revert Hall. induction Hs as [|a b l k [Ho Hab] Hs IH]; intros Hall; [done|].
    rewrite !filter_cons. assert (Hm : mine b ↔ mine a) by (unfold mine; by rewrite Ho).
    assert (Hl : ∀ y, y ∈ l → ¬ mine y → ssName y ≠ ssName x) by (intros; apply Hall; [by right|done]).
    destruct (decide (¬ mine a)) as [Ha|Ha]; [rewrite decide_True by tauto|rewrite decide_False by tauto].
    + rewrite Hab by (apply Hall; [left|done]). by rewrite IH.
    + by apply IH.
  - intros Hs. apply bind_ok_inv in Hs as ([r|] & Hr & Hs); [|discriminate]. apply law_delete in Hs. rewrite Hs.
    assert (Hall : ∀ y, y ∈ ss_rows t → ¬ mine y → ssName y ≠ n) by (intros; by eapply other_name).
    clear Hs Hr. revert Hall. generalize (ss_rows t) as l. induction l as [|y l IH]; intros Hall; [done|].
    assert (Hl : ∀ y, y ∈ l → ¬ mine y → ssName y ≠ n) by (intros; apply Hall; [by right|done]).
    rewrite !(filter_cons _ y l). destruct (decide (¬ mine y)) as [Hy|Hy].
    + rewrite decide_True by (apply Hall; [left|done]). rewrite filter_cons, decide_True by done. by rewrite IH.
    + destruct (decide (ssName y ≠ n)); [rewrite filter_cons, decide_False by tauto|]; by rewrite IH.
Qed.

(** A restricted viewer's saved searches are its own: through its wrapper,
    over any store that keeps the contract, it reads only rows of its own
    principal, and no sequence of creations, updates and deletions, whatever
    owner or name it writes in them, adds, changes or removes a row of another
    principal; a viewer with no principal is refused everything. *)
Theorem saved_searches_isolated s s' :
  (∀ n r, rs_GetByName s n = Ok (Some r) → r ∈ ss_rows s ∧ mine r) ∧
  (∀ f l r, rs_List s f = Ok l → r ∈ l → r ∈ ss_rows s ∧ mine r) ∧
  (star viewer_step s s' → others s' ≡ₚ others s) ∧
  (principal = nostr → (∀ n, rs_GetByName s n = Err (SearchRefused "GetByName")) ∧ ¬ (∃ t, viewer_step s t)).
Proof.
  split_and!.
  - intros n r. unfold rs_GetByName. destruct (str_eqb principal nostr); [discriminate|].
    intros (? & _ & ?)%own_some. done.
  - intros f l r. unfold rs_List, str_eqb. case_bool_decide as Hp; [discriminate|]. intros Hl Hr.
    destruct (law_list _ _ _ Hl Hp r Hr) as [? Ho]. split; [done|]. unfold mine, PrincipalOrOwner, str_eqb.
    cbn in Ho. by rewrite Ho, bool_decide_false.
  - induction 1 as [|a b c Hab Hbc IH]; [done|]. by rewrite IH, (viewer_step_others a b).
  - intros Hp. unfold rs_GetByName. rewrite Hp. split; [done|].
    intros [t [u x t' Hs|u x t' Hs|u n t' Hs]]; unfold rs_Create, rs_Update, rs_Delete in Hs; rewrite Hp in Hs; discriminate.
Qed.
End restricted.

(** ** The SQLite store *)
Definition rfc3339 (t : Z) : Z := (t / 1000000000 * 1000000000)%Z.

Definition stored (x : SavedSearch) : SavedSearch :=
  mkSavedSearch (ssID x) (ssName x) (ssQuery x) (ssProfileID x) (ssAlertOn x) (ssNotify x)
    (PrincipalOrOwner (ssOwnerPrincipal x)) (rfc3339 (ssCreatedAt x)) (rfc3339 (ssUpdatedAt x)).

(** INSERT under the primary key and the unique name. *)
Definition sql_Create (t : list SavedSearch) (x : SavedSearch) : result SearchError (list SavedSearch) :=
  if existsb (λ r, str_eqb (ssID r) (ssID x) || str_eqb (ssName r) (ssName x)) t
  then Err (SearchConflict (ssName x))
  else Ok (t ++ [stored x]).

Definition sql_GetByName (t : list SavedSearch) (name : string) : option SavedSearch :=
  List.find (λ r, str_eqb (ssName r) name) t.

(** [principalPage] and [profilePage]. *)
Definition page {A} (limit offset : Z) (l : list A) : list A :=
  if (0 <? limit)%Z then take (Z.to_nat limit) (drop (Z.to_nat offset) l) else l.

Definition sql_List (t : list SavedSearch) (f : SavedSearchFilter) : list SavedSearch :=
  let rows := filter (λ r, (sfOwnerPrincipal f = nostr ∨ ssOwnerPrincipal r = sfOwnerPrincipal f) ∧
                           (sfProfileID f = nostr ∨ ssProfileID r = sfProfileID f)) t in
  page (sfLimit f) (sfOffset f) (SliceStable (λ a b, (ssCreatedAt b <? ssCreatedAt a)%Z) rows).

Definition sql_Update (t : list SavedSearch) (x : SavedSearch) : list SavedSearch :=
  map (λ r, if str_eqb (ssName r) (ssName x)
            then mkSavedSearch (ssID r) (ssName r) (ssQuery x) (ssProfileID x) (ssAlertOn x) (ssNotify x)
                   (ssOwnerPrincipal r) (ssCreatedAt r) (rfc3339 (ssUpdatedAt x))
            else r) t.

Definition sql_Delete (t : list SavedSearch) (name : string) : list SavedSearch := filter (λ r, ssName r ≠ name) t.

(** A table whose names are unique: what the schema's constraint keeps. *)
Record SqlSearches : Type := mkSqlSearches { sqRows : list SavedSearch; sqNames : NoDup (map ssName sqRows) }.

(** What an insert lets through keeps names unique: [seal] never refuses it. *)
Lemma sql_Create_names t x t' :
  NoDup (map ssName t) → sql_Create t x = Ok t' → NoDup (map ssName t').
Proof.
  unfold sql_Create. intros Hd. destruct (existsb _ t) eqn:E; [done|]. intros [= <-].
  rewrite map_app. apply NoDup_app. split_and!; [done| |apply NoDup_singleton].
  intros n Hn Hx. apply list_elem_of_singleton in Hx as ->. apply list_elem_of_fmap in Hn as (r & Hr & Hin).
  apply not_true_iff_false in E. apply E, existsb_exists'. exists r. split; [done|].
  apply orb_true_iff. right. apply str_eqb_true. by symmetry.
Qed.

Lemma sql_Update_names t x : map ssName (sql_Update t x) = map ssName t.
Proof. unfold sql_Update. rewrite map_map. apply map_ext. intros r. by destruct (str_eqb (ssName r) (ssName x)). Qed.

Lemma sql_Delete_names t n : NoDup (map ssName t) → NoDup (map ssName (sql_Delete t n)).
Proof.
  unfold sql_Delete. induction t as [|r t IH]; [done|]. intros Hn. cbn [map] in Hn. apply NoDup_cons in Hn as [Hr Hd].
  rewrite filter_cons. case_decide; [|by apply IH]. cbn [map]. apply NoDup_cons. split; [|by apply IH].
  intros (y & Hy & Hin)%list_elem_of_fmap. apply list_elem_of_filter in Hin as [_ Hin].
  apply Hr. rewrite Hy. by apply (list_elem_of_fmap_2 ssName).
Qed.

(** The database's own check of the unique name. *)
Definition seal (t : list SavedSearch) : result SearchError SqlSearches :=
  match decide (NoDup (map ssName t)) with
  | left H => Ok (mkSqlSearches t H)
  | right _ => Err (SearchFailure "unique name")
  end.

#[export] Instance SqlSearches_store : SavedSearchStore SqlSearches := {
  SS_Create s x := t ← sql_Create (sqRows s) x; seal t;
  SS_GetByName s n := Ok (sql_GetByName (sqRows s) n);
  SS_List s f := Ok (sql_List (sqRows s) f);
  SS_Update s x := Ok (mkSqlSearches (sql_Update (sqRows s) x) (eq_rect_r (λ l, NoDup l) (sqNames s) (sql_Update_names (sqRows s) x)));
  SS_Delete s n := Ok (mkSqlSearches (sql_Delete (sqRows s) n) (sql_Delete_names _ n (sqNames s)));
  ss_rows := sqRows;
}.

Lemma elem_of_page {A} limit offset (l : list A) x : x ∈ page limit offset l → x ∈ l.
Proof.
  unfold page. destruct (0 <? limit)%Z; [|done]. intros (i & Hi & _)%elem_of_take. rewrite lookup_drop in Hi.
  by eapply list_elem_of_lookup_2.
Qed.

#[export] Instance SqlSearches_laws : SavedSearchLaws SqlSearches.
Proof.
  split.
  - intros s n r [= <-]. unfold sql_GetByName. destruct (List.find _ (sqRows s)) as [x|] eqn:E.
    + apply List.find_some in E as [Hin Hn]. apply str_eqb_true in Hn. split; [by apply list_elem_of_In|done].
    + intros x Hx Hn. apply list_elem_of_In in Hx. pose proof (List.find_none _ _ E x Hx) as Hf. cbn in Hf.
      by rewrite Hn, str_eqb_refl in Hf.
  - intros s x s' Hs. cbn [SS_Create SqlSearches_store] in Hs. apply bind_ok_inv in Hs as (t & Ht & Hs).
    exists (stored x). split_and!; [done|done|]. unfold seal in Hs. destruct (decide _) as [Hd|]; [|discriminate].
    injection Hs as <-. cbn [ss_rows SqlSearches_store sqRows]. unfold sql_Create in Ht.
    destruct (existsb _ (sqRows s)); [discriminate|]. injection Ht as <-. by rewrite Permutation_app_comm.
  - intros s f l [= <-] Hf r Hr. unfold sql_List in Hr. apply elem_of_page in Hr.
    rewrite SliceStable_perm in Hr. apply list_elem_of_filter in Hr as [[[?|Ho] _] Hin]; [done|]. done.
  - intros s x s' [= <-]. cbn [ss_rows SqlSearches_store sqRows]. unfold sql_Update.
    induction (sqRows s) as [|r l IH]; [constructor|]. constructor; [|done].
    destruct (str_eqb (ssName r) (ssName x)) eqn:E; [|done]. apply str_eqb_true in E. done.
  - by intros s n s' [= <-].
  - intros s. apply sqNames.
Qed.

Definition others_search : SavedSearch :=
  mkSavedSearch "ss_1" "digest" "type==idea" nostr nostr nostr "prn_2" 0 0.
Definition sample_searches : SqlSearches := mkSqlSearches [others_search] (NoDup_singleton "digest").

Lemma saved_searches_isolated_witness :
  rs_Delete "prn_1" sample_searches "digest" = Err (SearchNotFound "digest") ∧
  ∀ s', star (viewer_step "prn_1") sample_searches s' → others "prn_1" s' ≡ₚ [others_search].
Proof.
  split; [vm_compute; reflexivity|]. intros s'.
  destruct (saved_searches_isolated (S := SqlSearches) "prn_1" sample_searches s') as (_ & _ & H & _).
  exact H.
Defined.
