(* ===== verification/JobStore.v ===== *)
(** * The job store

    Models [JobStore] of [internal/storage/sqlite/jobs.go] over the [jobs]
    table (migrations 001, 027, 028, 031, 036 and 039): the rows in rowid order,
    each statement a function of the table and of the instant [time.Now()]
    returned to it, in nanoseconds.  Times are stored as RFC 3339 text and
    compared as text, leases as Unix milliseconds.  A failure of the database
    itself is not modelled: the only statement that can fail is an insert that
    breaks a unique index. *)

From S2P Require Import Prelude GoStrings.

(** What the source takes from Go's [time] and [encoding/json]: formatting and
    parsing an instant in the process's zone, and a list of strings as JSON. *)
Class GoEncodings : Type := {
  Format : Z → string;
  ParseTime : string → Z;
  MarshalStrings : list string → string;
  UnmarshalStrings : string → option (list string);
}.

Definition UnixMilli (t : Z) : Z := (t / 1000000)%Z.
Definition Second : Z := 1000000000.
(** The product [time.Duration(n) * time.Second] in an int64. *)
Definition wrap64 (z : Z) : Z := ((z + 2 ^ 63) mod 2 ^ 64 - 2 ^ 63)%Z.

Definition JobPending : string := "pending".
Definition JobRunning : string := "running".
Definition JobCompleted : string := "completed".
Definition JobFailed : string := "failed".
Definition JobCancelled : string := "cancelled".

(** ** Jobs and their rows

    [JobOf T M] is the struct [Job] with its instants in [T] and its string
    lists in [M]: a job in memory is [JobOf Z (list string)], its columns are
    [JobOf string string]. *)
Record JobOf (T M : Type) : Type := mkJob {
  jID : string;
  jType : string;
  jStatus : string;
  jPayload : string;
  jPipeline : string;
  jSource : string;
  jResultID : string;
  jError : string;
  jRetryCount : Z;
  jMaxRetries : Z;
  jCreatedAt : T;
  jUpdatedAt : T;
  jStartedAt : option T;
  jCompletedAt : option T;
  jUserMentions : M;
  jUserHints : M;
  jUserProfile : string;
  jUserNote : string;
  jIdempotencyKey : string;
}.
Arguments mkJob {T M}.
Arguments jID {T M} _. Arguments jType {T M} _. Arguments jStatus {T M} _.
Arguments jPayload {T M} _. Arguments jPipeline {T M} _. Arguments jSource {T M} _.
Arguments jResultID {T M} _. Arguments jError {T M} _. Arguments jRetryCount {T M} _.
Arguments jMaxRetries {T M} _. Arguments jCreatedAt {T M} _. Arguments jUpdatedAt {T M} _.
Arguments jStartedAt {T M} _. Arguments jCompletedAt {T M} _. Arguments jUserMentions {T M} _.
Arguments jUserHints {T M} _. Arguments jUserProfile {T M} _. Arguments jUserNote {T M} _.
Arguments jIdempotencyKey {T M} _.

Abbreviation Job := (JobOf Z (list string)).

Record JobRow : Type := mkRow {
  rJob : JobOf string string;
  rClaimToken : string;
  rLeaseExpiresAt : option Z;
}.

Definition rID (r : JobRow) : string := jID (rJob r).
Definition rStatus (r : JobRow) : string := jStatus (rJob r).
Definition rKey (r : JobRow) : string := jIdempotencyKey (rJob r).

Record JobFilter : Type := mkJobFilter {
  jfStatus : string;
  jfType : string;
  jfLimit : Z;
  jfOffset : Z;
}.

Inductive JobError : Type :=
| JobConflict (id : string)
| JobNotFound
| JobNotFoundID (id : string)
| JobNotRetryable (id : string)
| JobNotCancellable (id : string).

(** [SET status = .., result_id = .., error = .., retry_count = .., updated_at = ..,
    started_at = .., completed_at = ..]: the columns the statements write; the
    others keep what the insert gave them. *)
Definition set_columns (j : JobOf string string) (status result err : string) (retries : Z)
    (updated : string) (started completed : option string) : JobOf string string :=
  mkJob (jID j) (jType j) status (jPayload j) (jPipeline j) (jSource j) result err retries (jMaxRetries j)
    (jCreatedAt j) updated started completed (jUserMentions j) (jUserHints j) (jUserProfile j)
    (jUserNote j) (jIdempotencyKey j).

Section store.
Context `{GoEncodings}.

Definition encodeUserStrings (m : list string) : string :=
  match m with [] => nostr | _ => MarshalStrings m end.

Definition decodeUserStrings (s : string) : list string :=
  if str_eqb s nostr then [] else default [] (UnmarshalStrings s).

(** The columns [Create] binds. *)
Definition encodeJob (j : Job) : JobOf string string :=
  mkJob (jID j) (jType j) (jStatus j) (jPayload j) (jPipeline j) (jSource j) (jResultID j) (jError j)
    (jRetryCount j) (jMaxRetries j) (Format (jCreatedAt j)) (Format (jUpdatedAt j))
    (Format <$> jStartedAt j) (Format <$> jCompletedAt j)
    (encodeUserStrings (jUserMentions j)) (encodeUserStrings (jUserHints j))
    (jUserProfile j) (jUserNote j) (jIdempotencyKey j).

(** [scanJob] and [scanJobFromRows] on a row that was found. *)
Definition scanJob (r : JobRow) : Job :=
  let j := rJob r in
  mkJob (jID j) (jType j) (jStatus j) (jPayload j) (jPipeline j) (jSource j) (jResultID j) (jError j)
    (jRetryCount j) (jMaxRetries j) (ParseTime (jCreatedAt j)) (ParseTime (jUpdatedAt j))
    (ParseTime <$> jStartedAt j) (ParseTime <$> jCompletedAt j)
    (decodeUserStrings (jUserMentions j)) (decodeUserStrings (jUserHints j))
    (jUserProfile j) (jUserNote j) (jIdempotencyKey j).

(** ** Statements

    [update p f t] is [UPDATE jobs SET f WHERE p]; [RowsAffected] counts the
    rows [p] selects. *)
Definition update (p : JobRow → bool) (f : JobRow → JobRow) (t : list JobRow) : list JobRow :=
  map (λ r, if p r then f r else r) t.
Definition RowsAffected (p : JobRow → bool) (t : list JobRow) : nat := length (List.filter p t).

Definition has_id (id : string) (r : JobRow) : bool := str_eqb (rID r) id.
Definition has_status (s : string) (r : JobRow) : bool := str_eqb (rStatus r) s.

(** The primary key and the partial unique index over non-empty keys. *)
Definition conflicts (j : Job) (r : JobRow) : bool :=
  str_eqb (rID r) (jID j) || (negb (str_eqb (jIdempotencyKey j) nostr) && str_eqb (rKey r) (jIdempotencyKey j)).

(** A new row has the defaults of [claim_token] and [lease_expires_at]. *)
Definition Create (t : list JobRow) (j : Job) : result JobError (list JobRow) :=
  if existsb (conflicts j) t then Err (JobConflict (jID j)) else Ok (t ++ [mkRow (encodeJob j) nostr None]).

Definition Get (t : list JobRow) (id : string) : result JobError Job :=
  match List.find (has_id id) t with Some r => Ok (scanJob r) | None => Err JobNotFound end.

Definition GetByIdempotencyKey (t : list JobRow) (key : string) : option Job :=
  if str_eqb key nostr then None else scanJob <$> List.find (λ r, str_eqb (rKey r) key) t.

Definition jobs_where (f : JobFilter) (r : JobRow) : bool :=
  (str_eqb (jfStatus f) nostr || has_status (jfStatus f) r) &&
  (str_eqb (jfType f) nostr || str_eqb (jType (rJob r)) (jfType f)).

(** LIMIT and OFFSET as [List] writes them; SQLite has no OFFSET without a
    LIMIT, so an offset alone is a syntax error ([None]). *)
Definition List_ (t : list JobRow) (f : JobFilter) : option (list Job * nat) :=
  let rows := List.filter (jobs_where f) t in
  let sorted := SliceStable (λ a b, str_ltb (jCreatedAt (rJob b)) (jCreatedAt (rJob a))) rows in
  let off := (0 <? jfOffset f)%Z in
  if negb (0 <? jfLimit f)%Z then (if off then None else Some (map scanJob sorted, length rows))
  else Some (map scanJob (take (Z.to_nat (jfLimit f)) (if off then drop (Z.to_nat (jfOffset f)) sorted else sorted)),
             length rows).

(** [ORDER BY created_at ASC LIMIT 1], ties in rowid order. *)
Fixpoint oldest (l : list JobRow) : option JobRow :=
  match l with
  | [] => None
  | r :: l' =>
      match oldest l' with
      | Some r' => if str_ltb (jCreatedAt (rJob r')) (jCreatedAt (rJob r)) then Some r' else Some r
      | None => Some r
      end
  end.

Definition claimed (now : Z) (claim : string) (r : JobRow) : JobRow :=
  let j := rJob r in
  mkRow (set_columns j JobRunning (jResultID j) (jError j) (jRetryCount j) (Format now) (Some (Format now))
           (jCompletedAt j)) claim None.

(** The job [AcquireNext] returns, with the claim it minted. *)
Definition AcquireNext (t : list JobRow) (now : Z) (claim : string) : list JobRow * option (Job * string) :=
  match oldest (List.filter (has_status JobPending) t) with
  | None => (t, None)
  | Some r =>
      let p x := has_id (rID r) x && has_status JobPending x in
      (update p (claimed now claim) t, (λ x, (scanJob (claimed now claim x), claim)) <$> List.find p t)
  end.

Definition affecting (e : JobError) (p : JobRow → bool) (f : JobRow → JobRow) (t : list JobRow)
    : result JobError (list JobRow) :=
  if (RowsAffected p t =? 0)%nat then Err e else Ok (update p f t).

Definition completed (now : Z) (res : string) (r : JobRow) : JobRow :=
  let j := rJob r in
  mkRow (set_columns j JobCompleted res (jError j) (jRetryCount j) (Format now) (jStartedAt j) (Some (Format now)))
    (rClaimToken r) (rLeaseExpiresAt r).
Definition Complete (t : list JobRow) (now : Z) (id res : string) : result JobError (list JobRow) :=
  affecting (JobNotFoundID id) (has_id id) (completed now res) t.

Definition failed (now : Z) (msg : string) (r : JobRow) : JobRow :=
  let j := rJob r in
  mkRow (set_columns j JobFailed (jResultID j) msg (jRetryCount j) (Format now) (jStartedAt j) (jCompletedAt j))
    (rClaimToken r) (rLeaseExpiresAt r).
Definition Fail_ (t : list JobRow) (now : Z) (id msg : string) : result JobError (list JobRow) :=
  affecting (JobNotFoundID id) (has_id id) (failed now msg) t.

Definition retried (now : Z) (r : JobRow) : JobRow :=
  let j := rJob r in
  mkRow (set_columns j JobPending (jResultID j) nostr (jRetryCount j + 1) (Format now) None None) nostr None.
Definition retryable (id : string) (r : JobRow) : bool :=
  has_id id r && (jRetryCount (rJob r) <? jMaxRetries (rJob r))%Z.
Definition Retry (t : list JobRow) (now : Z) (id : string) : result JobError (list JobRow) :=
  affecting (JobNotRetryable id) (retryable id) (retried now) t.

Definition cancelled (now : Z) (r : JobRow) : JobRow :=
  let j := rJob r in
  mkRow (set_columns j JobCancelled (jResultID j) (jError j) (jRetryCount j) (Format now) (jStartedAt j) (jCompletedAt j))
    (rClaimToken r) (rLeaseExpiresAt r).
Definition Cancel (t : list JobRow) (now : Z) (id : string) : result JobError (list JobRow) :=
  affecting (JobNotCancellable id) (λ r, has_id id r && (has_status JobPending r || has_status JobRunning r))
    (cancelled now) t.

(** A running row whose lease ran out, or an unleased one that started at the
    cutoff or before; SQL's comparison with a NULL [started_at] is not true. *)
Definition stale (now timeoutSeconds : Z) (r : JobRow) : bool :=
  has_status JobRunning r &&
  match rLeaseExpiresAt r with
  | None =>
      match jStartedAt (rJob r) with
      | Some st => negb (str_ltb (Format (now - wrap64 (timeoutSeconds * Second))) st)
      | None => false
      end
  | Some e => (e <=? UnixMilli now)%Z
  end.
Definition requeued (now : Z) (r : JobRow) : JobRow :=
  let j := rJob r in
  mkRow (set_columns j JobPending (jResultID j) (jError j) (jRetryCount j) (Format now) None (jCompletedAt j)) nostr None.
Definition RecoverStale (t : list JobRow) (now timeoutSeconds : Z) : list JobRow * nat :=
  (update (stale now timeoutSeconds) (requeued now) t, RowsAffected (stale now timeoutSeconds) t).

Definition under_claim (id claim : string) (r : JobRow) : bool :=
  has_id id r && str_eqb (rClaimToken r) claim && has_status JobRunning r.
Definition with_lease (e : option Z) (r : JobRow) : JobRow := mkRow (rJob r) (rClaimToken r) e.

Definition ExtendLease (t : list JobRow) (now : Z) (id claim : string) (ttl : Z) : list JobRow * bool :=
  if str_eqb claim nostr then (t, false)
  else (update (under_claim id claim) (with_lease (Some (UnixMilli (now + ttl)))) t,
        (RowsAffected (under_claim id claim) t =? 1)%nat).

Definition ReleaseLease (t : list JobRow) (id claim : string) : list JobRow :=
  if str_eqb claim nostr then t else update (under_claim id claim) (with_lease None) t.
End store.

(** ** What the statements do to a table *)
Section lemmas.
Context `{GoEncodings}.

Lemma elem_of_update p f t r' :
  r' ∈ update p f t ↔ ∃ r, r ∈ t ∧ r' = if p r then f r else r.
Proof. unfold update. rewrite list_elem_of_fmap. naive_solver. Qed.

Lemma update_app p f t u : update p f (t ++ u) = update p f t ++ update p f u.
Proof. apply map_app. Qed.

Lemma update_none p f t : (∀ r, r ∈ t → p r = false) → update p f t = t.
Proof.
  intros Hp. induction t as [|r t IH]; [done|]. cbn. rewrite Hp by left. f_equal.
  apply IH. intros. apply Hp. by right.
Qed.

Lemma update_map {B} (g : JobRow → B) p f t :
  (∀ r, p r = true → g (f r) = g r) → map g (update p f t) = map g t.
Proof.
  intros Hg. unfold update. rewrite map_map. apply map_ext. intros r.
  destruct (p r) eqn:E; [by apply Hg|done].
Qed.

Lemma affecting_inv e p f t t' : affecting e p f t = Ok t' → t' = update p f t ∧ ∃ r, r ∈ t ∧ p r = true.
Proof.
  unfold affecting, RowsAffected. destruct (List.filter p t) as [|r l] eqn:E; [discriminate|].
  intros [= <-]. split; [done|]. exists r. rewrite list_elem_of_In, <- filter_In, E. by left.
Qed.

Lemma oldest_none l : oldest l = None → l = [].
Proof. destruct l as [|r l]; [done|]. cbn. destruct (oldest l) as [r'|]; [destruct (str_ltb _ _)|]; discriminate. Qed.

Lemma str_not_ltb_trans (a b c : string) :
  str_ltb b a = false → str_ltb c b = false → str_ltb c a = false.
Proof. rewrite !str_ltb_false. intros ??. by transitivity b. Qed.

Lemma oldest_spec l r : oldest l = Some r →
  r ∈ l ∧ ∀ x, x ∈ l → str_ltb (jCreatedAt (rJob x)) (jCreatedAt (rJob r)) = false.
Proof.
  revert r. induction l as [|y l IH]; intros r; [discriminate|]. cbn.
  destruct (oldest l) as [r'|] eqn:E.
  - destruct (IH r' eq_refl) as [Hin Hmin]. destruct (str_ltb _ _) eqn:L; intros [= <-].
    + split; [by right|]. intros x [->|Hx]%elem_of_cons; [|by apply Hmin].
      by apply str_ltb_asym.
    + split; [by left|]. intros x [->|Hx]%elem_of_cons; [apply str_ltb_irrefl|].
      eapply str_not_ltb_trans; [|by apply Hmin]. done.
  - intros [= <-]. apply oldest_none in E as ->. split; [by left|].
    intros x ->%list_elem_of_singleton. apply str_ltb_irrefl.
Qed.

Lemma has_id_true id r : has_id id r = true ↔ rID r = id.
Proof. apply str_eqb_true. Qed.
Lemma has_status_true s r : has_status s r = true ↔ rStatus r = s.
Proof. apply str_eqb_true. Qed.

(** Ids are unique, so an id picks one row out. *)
Lemma update_at l1 r l2 p f :
  NoDup (map rID (l1 ++ r :: l2)) → p r = true → (∀ x, p x = true → rID x = rID r) →
  update p f (l1 ++ r :: l2) = l1 ++ f r :: l2 ∧ List.find p (l1 ++ r :: l2) = Some r.
Proof.
  intros Hd Hr Hp. rewrite map_app in Hd. cbn [map] in Hd. apply NoDup_app in Hd as (_ & H1 & H2).
  apply NoDup_cons in H2 as [H2 _].
  assert (F1 : ∀ x, x ∈ l1 → p x = false).
  { intros x Hx. destruct (p x) eqn:E; [|done]. exfalso. apply (H1 (rID x)); [by apply list_elem_of_fmap_2|].
    rewrite (Hp x E). left. }
  assert (F2 : ∀ x, x ∈ l2 → p x = false).
  { intros x Hx. destruct (p x) eqn:E; [|done]. exfalso. apply H2. rewrite <- (Hp x E). by apply list_elem_of_fmap_2. }
  split.
  - rewrite update_app, (update_none _ _ l1) by done. f_equal. change (update p f (r :: l2)) with ((if p r then f r else r) :: update p f l2).
    by rewrite Hr, (update_none _ _ l2).
  - clear - F1 Hr. induction l1 as [|y l IH]; cbn; [by rewrite Hr|]. rewrite F1 by left. apply IH. intros. apply F1. by right.
Qed.

Lemma AcquireNext_none t now claim : (AcquireNext t now claim).2 = None →
  (AcquireNext t now claim).1 = t ∧ ∀ r, r ∈ t → rStatus r ≠ JobPending.
Proof.
  unfold AcquireNext. destruct (oldest _) as [r|] eqn:E; cbn [fst snd].
  - intros Hn. apply oldest_spec in E as [Hr _]. apply list_elem_of_In, filter_In in Hr as [Hr Hs].
    destruct (List.find _ t) eqn:F; [discriminate|]. pose proof (List.find_none _ _ F r Hr) as Hf. cbn in Hf.
    rewrite Hs, andb_true_r in Hf. by rewrite (proj2 (has_id_true _ _) eq_refl) in Hf.
  - intros _. split; [done|]. intros r Hr Hs. apply oldest_none in E.
    assert (r ∈ List.filter (has_status JobPending) t) as Hin; [|rewrite E in Hin; by apply not_elem_of_nil in Hin].
    apply list_elem_of_In, filter_In. split; [by apply list_elem_of_In|by apply has_status_true].
Qed.

Lemma AcquireNext_some t now claim j : NoDup (map rID t) → (AcquireNext t now claim).2 = Some j →
  ∃ l1 r l2, t = l1 ++ r :: l2 ∧ (AcquireNext t now claim).1 = l1 ++ claimed now claim r :: l2 ∧
    rStatus r = JobPending ∧ j = (scanJob (claimed now claim r), claim) ∧
    ∀ x, x ∈ t → rStatus x = JobPending → str_ltb (jCreatedAt (rJob x)) (jCreatedAt (rJob r)) = false.
Proof.
  unfold AcquireNext. intros Hd. destruct (oldest _) as [r|] eqn:E; [|discriminate]. cbn [fst snd].
  apply oldest_spec in E as [Hr Hmin]. apply list_elem_of_In, filter_In in Hr as [Hr Hs].
  apply list_elem_of_In, list_elem_of_split in Hr as (l1 & l2 & ->).
  assert (Hp : has_id (rID r) r && has_status JobPending r = true)
    by (rewrite Hs, andb_true_r; by apply has_id_true).
  edestruct (update_at l1 r l2 (λ x, has_id (rID r) x && has_status JobPending x)) as [-> ->]; [done|done| |].
  { intros x [Hx _]%andb_true_iff. by apply has_id_true. }
  intros [= <-]. exists l1, r, l2. split_and!; [done|done|by apply has_status_true|done|].
  intros x Hx Hxs. apply Hmin. apply list_elem_of_In, filter_In. split; [by apply list_elem_of_In|by apply has_status_true].
Qed.
End lemmas.

(** [AcquireNext] answers no job exactly when no job is pending, and then
    changes nothing; otherwise it claims one pending row, none of the pending
    rows having an earlier [created_at], answers that row's job with the claim it
    wrote, and changes no other row: the row now runs under the claim, unleased,
    from the given instant. *)
Theorem AcquireNext_spec `{GoEncodings} t now claim :
  NoDup (map rID t) →
  match AcquireNext t now claim with
  | (t', None) => t' = t ∧ ∀ r, r ∈ t → rStatus r ≠ JobPending
  | (t', Some (j, c)) =>
      c = claim ∧ ∃ l1 r l2, t = l1 ++ r :: l2 ∧ t' = l1 ++ claimed now claim r :: l2 ∧
        rStatus r = JobPending ∧ j = scanJob (claimed now claim r) ∧
        ∀ x, x ∈ t → rStatus x = JobPending → String.le (jCreatedAt (rJob r)) (jCreatedAt (rJob x))
  end.
Proof.
  intros Hd. destruct (AcquireNext t now claim) as [t' [[j c]|]] eqn:E.
  - destruct (AcquireNext_some t now claim (j, c) Hd) as (l1 & r & l2 & Ht & Ht' & Hs & [= -> ->] & Hmin); [by rewrite E|].
    split; [done|]. exists l1, r, l2. rewrite E in Ht'. split_and!; try done.
    intros x Hx Hxs. apply str_ltb_false. by apply Hmin.
  - pose proof (AcquireNext_none t now claim) as Hn. rewrite E in Hn. by apply Hn.
Qed.

(** Sample encodings and rows for the examples. *)
Definition sample_encodings : GoEncodings :=
  {| Format := pretty; ParseTime _ := 0%Z; MarshalStrings l := Join l ","; UnmarshalStrings s := Some (SplitByte s ",") |}.

Definition sample_job (id key : string) : Job :=
  mkJob id "ingest:text" JobPending "content" "text.ingest" "cli" nostr nostr 0 1 5%Z 5%Z None None [] [] nostr nostr key.

Definition sample_pending (id key : string) : JobRow := mkRow (@encodeJob sample_encodings (sample_job id key)) nostr None.

Lemma AcquireNext_spec_witness :
  ∃ t', @AcquireNext sample_encodings [sample_pending "j1" "k1"; sample_pending "j2" "k2"] 9 "c1" =
          (t', Some (@scanJob sample_encodings (@claimed sample_encodings 9 "c1" (sample_pending "j1" "k1")), "c1")) ∧
  ∃ l1 r l2, [sample_pending "j1" "k1"; sample_pending "j2" "k2"] = l1 ++ r :: l2 ∧ rStatus r = JobPending.
Proof.
  assert (Hd : NoDup (map rID [sample_pending "j1" "k1"; sample_pending "j2" "k2"])) by (refine (bool_decide_eq_true_1 _ _); vm_compute; reflexivity).
  pose proof (@AcquireNext_spec sample_encodings _ 9 "c1" Hd) as H.
  eexists. split; [vm_compute; reflexivity|].
  destruct (@AcquireNext sample_encodings _ 9 "c1") as [t' [[j c]|]] eqn:E; [|vm_compute in E; discriminate E].
  destruct H as (_ & l1 & r & l2 & Ht & _ & Hs & _). exists l1, r, l2. split; [exact Ht|exact Hs].
Defined.
