(* ===== verification/JobQueue.v ===== *)
(** * The job queue: lifecycle, leases, settlement

    The job table under every interleaving of its clients' statements
    ([store_step]) and its invariant; [Queue] of [internal/jobs/queue.go]; how a
    worker settles a job ([internal/jobs/worker.go], [tasks.go]) and what a
    lease buys it; the idempotent [Service.Enqueue] of
    [internal/service/service.go]. *)

From S2P Require Import Prelude GoStrings StorageScope ScopedDriver JobStore.

(** ** Every statement, by any client *)
Section steps.
Context `{GoEncodings}.

(** Callers create jobs with no retries used; [AcquireNext]'s claim is a fresh
    UUID. *)
Inductive store_step : list JobRow → list JobRow → Prop :=
| st_create t j t' : jRetryCount j = 0%Z → Create t j = Ok t' → store_step t t'
| st_acquire t now claim : claim ≠ nostr → claim ∉ map rClaimToken t →
    store_step t (AcquireNext t now claim).1
| st_complete t now id res t' : Complete t now id res = Ok t' → store_step t t'
| st_fail t now id msg t' : Fail_ t now id msg = Ok t' → store_step t t'
| st_retry t now id t' : Retry t now id = Ok t' → store_step t t'
| st_cancel t now id t' : Cancel t now id = Ok t' → store_step t t'
| st_recover t now timeout : store_step t (RecoverStale t now timeout).1
| st_extend t now id claim ttl : store_step t (ExtendLease t now id claim ttl).1
| st_release t id claim : store_step t (ReleaseLease t id claim).

Definition nonempty (l : list string) : list string := filter (λ s, s ≠ nostr) l.

(** What holds of a row on its own: a pending job carries no claim and no
    lease, only a claimed job is leased, and no job is retried past its bound. *)
Record row_ok (r : JobRow) : Prop := {
  ok_idle : rStatus r = JobPending → rClaimToken r = nostr ∧ rLeaseExpiresAt r = None;
  ok_leased : rLeaseExpiresAt r ≠ None → rClaimToken r ≠ nostr;
  ok_retries : (0 ≤ jRetryCount (rJob r) ≤ Z.max 0 (jMaxRetries (rJob r)))%Z;
}.

Record jobs_ok (t : list JobRow) : Prop := {
  ok_ids : NoDup (map rID t);
  ok_keys : NoDup (nonempty (map rKey t));
  ok_claims : NoDup (nonempty (map rClaimToken t));
  ok_rows : ∀ r, r ∈ t → row_ok r;
}.

Lemma nonempty_app l k : nonempty (l ++ k) = nonempty l ++ nonempty k.
Proof. apply filter_app. Qed.

Lemma nonempty_cons s l : nonempty (s :: l) = if str_eqb s nostr then nonempty l else s :: nonempty l.
Proof.
  unfold nonempty. rewrite filter_cons. unfold str_eqb. case_bool_decide; [rewrite decide_False|rewrite decide_True]; auto.
Qed.

(** An update that keeps a row's id and key, and keeps or clears its claim. *)
Definition tame (f : JobRow → JobRow) : Prop :=
  ∀ r, rID (f r) = rID r ∧ rKey (f r) = rKey r ∧ (rClaimToken (f r) = rClaimToken r ∨ rClaimToken (f r) = nostr).

Lemma update_claims_sublist p f t : tame f →
  nonempty (map rClaimToken (update p f t)) `sublist_of` nonempty (map rClaimToken t).
Proof.
  intros Hf. induction t as [|r t IH]; [done|]. cbn [update map]. fold (update p f t). rewrite !nonempty_cons.
  destruct (p r).
  - destruct (Hf r) as (_ & _ & [->| ->]).
    + destruct (str_eqb _ _); [done|by apply sublist_skip].
    + rewrite str_eqb_refl. destruct (str_eqb _ _); [done|by apply sublist_cons].
  - destruct (str_eqb _ _); [done|by apply sublist_skip].
Qed.

Lemma jobs_ok_update p f t : tame f → (∀ r, r ∈ t → p r = true → row_ok r → row_ok (f r)) →
  jobs_ok t → jobs_ok (update p f t).
Proof.
  intros Hf Hr [Hi Hk Hc Ho]. split.
  - rewrite update_map; [done|]. intros r _. by apply Hf.
  - rewrite update_map; [done|]. intros r _. by apply Hf.
  - eapply sublist_NoDup; [exact Hc|by apply update_claims_sublist].
  - intros r' (r & Hin & ->)%elem_of_update. destruct (p r) eqn:E; auto.
Qed.

Lemma jobs_ok_affecting e p f t t' : tame f → (∀ r, p r = true → row_ok r → row_ok (f r)) →
  jobs_ok t → affecting e p f t = Ok t' → jobs_ok t'.
Proof. intros Hf Hr Ht [-> _]%affecting_inv. apply jobs_ok_update; auto. Qed.

Lemma jobs_ok_create t j t' : jRetryCount j = 0%Z → jobs_ok t → Create t j = Ok t' → jobs_ok t'.
Proof.
  intros Hz [Hi Hk Hc Ho]. unfold Create. destruct (existsb _ t) eqn:E; [discriminate|]. intros [= <-].
  assert (Hno : ∀ r, r ∈ t → conflicts j r = false).
  { intros r Hr. apply not_true_iff_false. intros Hc'. apply not_true_iff_false in E. apply E, existsb_exists'. eauto. }
  split; rewrite ?map_app, ?nonempty_app.
  - apply NoDup_app. split_and!; [done| |apply NoDup_singleton]. intros x (r & -> & Hr)%list_elem_of_fmap Hx.
    apply list_elem_of_singleton in Hx. specialize (Hno r Hr). unfold conflicts in Hno.
    change (rID r = jID j) in Hx. by rewrite Hx, str_eqb_refl in Hno.
  - apply NoDup_app. split_and!; [done| |].
    + intros x [Hne (r & -> & Hr)%list_elem_of_fmap]%list_elem_of_filter Hx.
      apply list_elem_of_filter in Hx as [_ Hx%list_elem_of_singleton].
      specialize (Hno r Hr). unfold conflicts in Hno. change (rKey r = jIdempotencyKey j) in Hx.
      apply orb_false_iff in Hno as [_ Hno]. rewrite <- Hx, str_eqb_refl, andb_true_r in Hno.
      apply negb_false_iff, str_eqb_true in Hno. done.
    + cbn [map]. rewrite nonempty_cons. destruct (str_eqb _ _); [constructor|apply NoDup_singleton].
  - cbn. rewrite app_nil_r. done.
  - intros r [Hr| ->%list_elem_of_singleton]%elem_of_app; [by apply Ho|]. split; cbn; [done|done|lia].
Qed.

Lemma jobs_ok_acquire t now claim : claim ≠ nostr → claim ∉ map rClaimToken t → jobs_ok t →
  jobs_ok (AcquireNext t now claim).1.
Proof.
  intros Hne Hfresh Ht. destruct (AcquireNext t now claim).2 as [j|] eqn:E.
  2: by apply AcquireNext_none in E as [-> _].
  apply AcquireNext_some in E as (l1 & r & l2 & Et & -> & Hs & _ & _); [|apply Ht].
  destruct Ht as [Hi Hk Hc Ho]. destruct (Ho r) as [Hidle _ Hret]; [subst; apply elem_of_app; right; left|].
  destruct (Hidle Hs) as [Hcl _]. subst t. split.
  - by rewrite map_app in *.
  - by rewrite map_app in *.
  - rewrite !map_app, !nonempty_app in *. cbn [map claimed rClaimToken] in *. rewrite nonempty_cons in *.
    rewrite Hcl, str_eqb_refl in Hc. destruct (str_eqb claim nostr) eqn:Ec; [apply str_eqb_true in Ec; done|].
    rewrite <- Permutation_middle. apply NoDup_cons. split; [|done].
    intros Hin. apply Hfresh. rewrite <- nonempty_app in Hin. apply list_elem_of_filter in Hin as [_ Hin].
    rewrite elem_of_app in *. destruct Hin; [by left|by right; right].
  - intros x [Hx|[->|Hx]%elem_of_cons]%elem_of_app.
    + apply Ho, elem_of_app. by left.
    + split; cbn; [discriminate|done|done].
    + apply Ho, elem_of_app. right. by right.
Qed.

Ltac row_case := intros r Hp [Hidle Hleased Hret]; split; cbn in *; try done.

Lemma jobs_ok_step t t' : store_step t t' → jobs_ok t → jobs_ok t'.
Proof.
  intros Hs Ht.
  destruct Hs as [t j t' Hz Hs|t now c Hne Hf|t now id res t' Hs|t now id msg t' Hs|t now id t' Hs|t now id t' Hs
                 |t now timeout|t now id c ttl|t id c].
  - by eapply jobs_ok_create.
  - by apply jobs_ok_acquire.
  - revert Hs. apply jobs_ok_affecting; [|row_case|done]. intros r. auto.
  - revert Hs. apply jobs_ok_affecting; [|row_case|done]. intros r. auto.
  - revert Hs. apply jobs_ok_affecting; [|row_case|done]; [intros r; auto|].
    unfold retryable in Hp. apply andb_true_iff in Hp as [_ Hp%Z.ltb_lt]. lia.
  - revert Hs. apply jobs_ok_affecting; [|row_case|done]. intros r. auto.
  - cbn. apply jobs_ok_update; [intros r; auto| |done]. intros r _ _ [Hidle Hleased Hret]. split; cbn; done.
  - unfold ExtendLease. destruct (str_eqb c nostr) eqn:Ec; [done|]. cbn. apply jobs_ok_update; [intros r; auto| |done].
    intros r _ Hu [Hidle Hleased Hret]. unfold under_claim in Hu. rewrite !andb_true_iff, has_status_true, str_eqb_true in Hu.
    destruct Hu as [[_ Hc] Hst]. split; cbn; [intros Hp; change (rStatus r = JobPending) in Hp; rewrite Hst in Hp; discriminate| |done].
    intros _ Hn. rewrite <- Hc, Hn, str_eqb_refl in Ec. done.
  - unfold ReleaseLease. destruct (str_eqb c nostr) eqn:Ec; [done|]. cbn. apply jobs_ok_update; [intros r; auto| |done].
    intros r _ Hu [Hidle Hleased Hret]. split; cbn; [|done|done].
    intros Hp. split; [by apply Hidle|done].
Qed.

(** In every table any interleaving of the clients' statements can reach
    from the empty one, ids, non-empty idempotency keys and claims are held
    by one row each, a pending job carries neither claim nor lease, a leased
    job carries a claim, and no job was retried more often than its
    [max_retries] allows. *)
Theorem store_invariant t : star store_step [] t → jobs_ok t.
Proof.
  intros Hs. eapply (star_invariant _ jobs_ok); [intros a b; apply jobs_ok_step|exact Hs|].
  by split; try apply NoDup_nil_2; try (intros r ?%not_elem_of_nil).
Qed.

Lemma store_invariant_from t t' : star store_step t t' → jobs_ok t → jobs_ok t'.
Proof. apply star_invariant. apply jobs_ok_step. Qed.

(** A job keeps its id and its key whatever is done to it. *)
Lemma store_step_keys t t' : store_step t t' → ∃ new, map (λ r, (rID r, rKey r)) t' = map (λ r, (rID r, rKey r)) t ++ new.
Proof.
  assert (Hu : ∀ p f u, tame f → ∃ new, map (λ r, (rID r, rKey r)) (update p f u) = map (λ r, (rID r, rKey r)) u ++ new).
  { intros p f u Hf. exists []. rewrite app_nil_r. apply update_map. intros r _. by destruct (Hf r) as (-> & -> & _). }
  assert (Ha : ∀ e p f u u', tame f → affecting e p f u = Ok u' →
    ∃ new, map (λ r, (rID r, rKey r)) u' = map (λ r, (rID r, rKey r)) u ++ new).
  { intros e p f u u' Hf [-> _]%affecting_inv. by apply Hu. }
  intros [u j u' _ Hs|u now c _ _|u now id res u' Hs|u now id msg u' Hs|u now id u' Hs|u now id u' Hs
                 |u now timeout|u now id c ttl|u id c].
  - unfold Create in Hs. destruct (existsb _ u); [discriminate|]. injection Hs as <-. rewrite map_app. eauto.
  - unfold AcquireNext. destruct (oldest _) as [r|]; [|exists []; by rewrite app_nil_r]. cbn [fst].
    exists []. rewrite app_nil_r. apply update_map. done.
  - eapply Ha; [|exact Hs]. intros r; auto.
  - eapply Ha; [|exact Hs]. intros r; auto.
  - eapply Ha; [|exact Hs]. intros r; auto.
  - eapply Ha; [|exact Hs]. intros r; auto.
  - apply Hu. intros r; auto.
  - unfold ExtendLease. destruct (str_eqb c nostr); [exists []; by rewrite app_nil_r|]. apply Hu. intros r; auto.
  - unfold ReleaseLease. destruct (str_eqb c nostr); [exists []; by rewrite app_nil_r|]. apply Hu. intros r; auto.
Qed.
End steps.

(** ** Leases *)
Section leases.
Context `{GoEncodings}.

(** Job [id] runs under claim [c] with a lease until [e]. *)
Definition holds (t : list JobRow) (id c : string) (e : Z) : Prop :=
  ∃ r, r ∈ t ∧ rID r = id ∧ rStatus r = JobRunning ∧ rClaimToken r = c ∧ rLeaseExpiresAt r = Some e.

(** A statement of another pool or client reading the clock at [now]: anything
    but settling, cancelling or retrying the job, or presenting its claim.
    [Retry] is not among the job's statements here: it checks no claim, so a pool
    that lost the job long ago may still put it back to pending
    ([lapsed_worker_requeues] below). *)
Inductive foreign_step (id c : string) (now : Z) : list JobRow → list JobRow → Prop :=
| fs_create t j t' : jRetryCount j = 0%Z → Create t j = Ok t' → foreign_step id c now t t'
| fs_acquire t claim : claim ≠ nostr → claim ∉ map rClaimToken t →
    foreign_step id c now t (AcquireNext t now claim).1
| fs_complete t id' res t' : id' ≠ id → Complete t now id' res = Ok t' → foreign_step id c now t t'
| fs_fail t id' msg t' : id' ≠ id → Fail_ t now id' msg = Ok t' → foreign_step id c now t t'
| fs_retry t id' t' : id' ≠ id → Retry t now id' = Ok t' → foreign_step id c now t t'
| fs_cancel t id' t' : id' ≠ id → Cancel t now id' = Ok t' → foreign_step id c now t t'
| fs_recover t timeout : foreign_step id c now t (RecoverStale t now timeout).1
| fs_extend t id' claim ttl : (id' ≠ id ∨ claim ≠ c) → foreign_step id c now t (ExtendLease t now id' claim ttl).1
| fs_release t id' claim : (id' ≠ id ∨ claim ≠ c) → foreign_step id c now t (ReleaseLease t id' claim).

(** A statement that settles or cancels the job, whoever sends it: none of the
    three checks a claim. *)
Inductive settle_step (id : string) : list JobRow → list JobRow → Prop :=
| ss_complete t now res t' : Complete t now id res = Ok t' → settle_step id t t'
| ss_fail t now msg t' : Fail_ t now id msg = Ok t' → settle_step id t t'
| ss_cancel t now t' : Cancel t now id = Ok t' → settle_step id t t'.

(** Others act while the lease is live; the holder renews it; and, where
    [settles], anyone settles or cancels the job. *)
Inductive lease_run (settles : bool) (id c : string) : list JobRow * Z → list JobRow * Z → Prop :=
| lr_foreign now t t' e : (UnixMilli now < e)%Z → foreign_step id c now t t' → lease_run settles id c (t, e) (t', e)
| lr_settle t t' e : settles = true → settle_step id t t' → lease_run settles id c (t, e) (t', e)
| lr_renew now ttl t e : lease_run settles id c (t, e) ((ExtendLease t now id c ttl).1, UnixMilli (now + ttl)).

(** The job has ended. *)
Definition ended_status (s : string) : Prop := s ∈ [JobCompleted; JobFailed; JobCancelled].
Definition settled (t : list JobRow) (id : string) : Prop := ∃ r, r ∈ t ∧ rID r = id ∧ ended_status (rStatus r).

Lemma foreign_is_step id c now t t' : foreign_step id c now t t' → store_step t t'.
Proof. destruct 1; eauto using store_step. Qed.

Lemma holds_update t id c e p f : holds t id c e →
  (∀ r, rID r = id → rStatus r = JobRunning → rClaimToken r = c → rLeaseExpiresAt r = Some e → p r = false) →
  holds (update p f t) id c e.
Proof.
  intros (r & Hr & Hi & Hs & Hc & He) Hp. exists r. split_and!; try done. apply elem_of_update. exists r. by rewrite Hp.
Qed.

Lemma holds_affecting t t' id c e err p f : holds t id c e → affecting err p f t = Ok t' →
  (∀ r, rID r = id → rStatus r = JobRunning → p r = false) → holds t' id c e.
Proof. intros Hh [-> _]%affecting_inv Hp. apply holds_update; auto. Qed.

Lemma has_id_false id r : rID r ≠ id → has_id id r = false.
Proof. intros Hn. unfold has_id, str_eqb. by rewrite bool_decide_false. Qed.

Lemma under_claim_other id c id' claim r : (id' ≠ id ∨ claim ≠ c) → rID r = id → rClaimToken r = c →
  under_claim id' claim r = false.
Proof.
  intros Ho Hi Hc. apply not_true_iff_false. unfold under_claim. rewrite !andb_true_iff, has_id_true, str_eqb_true.
  intros [[? ?] _]. destruct Ho; congruence.
Qed.

Lemma holds_foreign id c now t t' e : jobs_ok t → (UnixMilli now < e)%Z → foreign_step id c now t t' →
  holds t id c e → holds t' id c e.
Proof.
  intros Hok Hlt Hs Hh.
  destruct Hs as [t j t' _ Hs|t claim Hne Hf|t id' res t' Hn Hs|t id' msg t' Hn Hs|t id' t' Hn Hs|t id' t' Hn Hs
                 |t timeout|t id' claim ttl Ho|t id' claim Ho].
  - unfold Create in Hs. destruct (existsb _ t); [discriminate|]. injection Hs as <-.
    destruct Hh as (r & Hr & Hh). exists r. split; [apply elem_of_app; by left|done].
  - destruct (AcquireNext t now claim).2 as [j|] eqn:E; [|by apply AcquireNext_none in E as [-> _]].
    apply AcquireNext_some in E as (l1 & x & l2 & -> & -> & Hx & _ & _); [|apply Hok].
    destruct Hh as (r & Hr & Hi & Hst & Hh). exists r. split; [|done].
    rewrite !elem_of_app, !elem_of_cons in *. destruct Hr as [Hr|[->|Hr]]; [by left| |by right; right].
    rewrite Hst in Hx. discriminate.
  - eapply holds_affecting; [done|exact Hs|]. intros r Hi _. apply has_id_false. congruence.
  - eapply holds_affecting; [done|exact Hs|]. intros r Hi _. apply has_id_false. congruence.
  - eapply holds_affecting; [done|exact Hs|]. intros r Hi _. unfold retryable. rewrite has_id_false; [done|congruence].
  - eapply holds_affecting; [done|exact Hs|]. intros r Hi _. cbn. rewrite has_id_false; [done|congruence].
  - apply holds_update; [done|]. intros r _ _ _ He. unfold stale. rewrite He. rewrite (proj2 (Z.leb_gt _ _)) by done.
    apply andb_false_r.
  - unfold ExtendLease. destruct (str_eqb claim nostr); [done|]. apply holds_update; [done|].
    intros r Hi _ Hc _. by eapply under_claim_other.
  - unfold ReleaseLease. destruct (str_eqb claim nostr); [done|]. apply holds_update; [done|].
    intros r Hi _ Hc _. by eapply under_claim_other.
Qed.

Lemma under_claim_true id c r : under_claim id c r = true ↔ rID r = id ∧ rClaimToken r = c ∧ rStatus r = JobRunning.
Proof. unfold under_claim. rewrite !andb_true_iff, has_id_true, has_status_true, str_eqb_true. tauto. Qed.

Lemma holds_renew id c now ttl t e : c ≠ nostr → holds t id c e →
  holds (ExtendLease t now id c ttl).1 id c (UnixMilli (now + ttl)).
Proof.
  intros Hne (r & Hr & Hi & Hs & Hc & He). unfold ExtendLease. unfold str_eqb. rewrite bool_decide_false by done. cbn [fst].
  exists (with_lease (Some (UnixMilli (now + ttl))) r). split; [|done]. apply elem_of_update. exists r.
  by rewrite (proj2 (under_claim_true id c r)).
Qed.

Lemma ended_idle s : ended_status s → s ≠ JobPending ∧ s ≠ JobRunning.
Proof. unfold ended_status. rewrite !elem_of_cons, elem_of_nil. intros [->|[->|[->|[]]]]; done. Qed.

Lemma settled_update t id p f : settled t id →
  (∀ r, rID r = id → ended_status (rStatus r) → p r = false ∨ rID (f r) = id ∧ ended_status (rStatus (f r))) →
  settled (update p f t) id.
Proof.
  intros (r & Hr & Hi & Hs) Hp. exists (if p r then f r else r). split; [apply elem_of_update; by exists r|].
  destruct (Hp r Hi Hs) as [->|[? ?]]; [done|by destruct (p r)].
Qed.
Lemma settled_affecting t t' id err p f : settled t id → affecting err p f t = Ok t' →
  (∀ r, rID r = id → ended_status (rStatus r) → p r = false ∨ rID (f r) = id ∧ ended_status (rStatus (f r))) → settled t' id.
Proof. intros Hs [-> _]%affecting_inv Hp. by apply settled_update. Qed.

(** A claim is presented in vain for a job that has ended. *)
Lemma ended_no_claim id' claim r : ended_status (rStatus r) → under_claim id' claim r = false.
Proof. intros [_ Hn]%ended_idle. apply not_true_iff_false. by intros (_ & _ & ?)%under_claim_true. Qed.

Lemma settled_renew t now id' claim ttl id : settled t id → settled (ExtendLease t now id' claim ttl).1 id.
Proof.
  intros Hs. unfold ExtendLease. destruct (str_eqb claim nostr); [done|]. apply settled_update; [done|]. intros r _ He. left.
  by apply ended_no_claim.
Qed.

Lemma settled_foreign id c now t t' : jobs_ok t → foreign_step id c now t t' → settled t id → settled t' id.
Proof.
  intros Hok Hs Hd.
  assert (Hkeep : ∀ e p f u u', affecting e p f u = Ok u' → settled u id → (∀ r, rID r = id → p r = false) → settled u' id).
  { intros e p f u u' Ha Hu Hp. apply (settled_affecting _ _ _ _ _ _ Hu Ha). intros r Hi _. left. by apply Hp. }
  destruct Hs as [t j t' _ Hs|t claim Hne Hf|t id' res t' Hn Hs|t id' msg t' Hn Hs|t id' t' Hn Hs|t id' t' Hn Hs
                 |t timeout|t id' claim ttl Ho|t id' claim Ho].
  - unfold Create in Hs. destruct (existsb _ t); [discriminate|]. injection Hs as <-.
    destruct Hd as (r & Hr & Hh). exists r. split; [apply elem_of_app; by left|done].
  - destruct (AcquireNext t now claim).2 as [j|] eqn:E; [|by apply AcquireNext_none in E as [-> _]].
    apply AcquireNext_some in E as (l1 & x & l2 & -> & -> & Hx & _ & _); [|apply Hok].
    destruct Hd as (r & Hr & Hi & Hst). exists r. split; [|done].
    rewrite !elem_of_app, !elem_of_cons in *. destruct Hr as [Hr|[->|Hr]]; [by left| |by right; right].
    apply ended_idle in Hst as [? _]. done.
  - apply (Hkeep _ _ _ _ _ Hs Hd). intros r Hi. apply has_id_false. congruence.
  - apply (Hkeep _ _ _ _ _ Hs Hd). intros r Hi. apply has_id_false. congruence.
  - apply (Hkeep _ _ _ _ _ Hs Hd). intros r Hi. unfold retryable. by rewrite has_id_false by congruence.
  - apply (Hkeep _ _ _ _ _ Hs Hd). intros r Hi. cbn. by rewrite has_id_false by congruence.
  - apply settled_update; [done|]. intros r _ [_ He]%ended_idle. left. unfold stale. apply andb_false_intro1.
    apply not_true_iff_false. by rewrite has_status_true.
  - by apply settled_renew.
  - unfold ReleaseLease. destruct (str_eqb claim nostr); [done|]. apply settled_update; [done|]. intros r _ He. left.
    by apply ended_no_claim.
Qed.

(** Settling a job ends it, one that ended too. *)
Lemma settle_ends id t t' : settle_step id t t' → settled t' id.
Proof.
  intros Hs.
  assert (Hends : ∀ e p f u u', affecting e p f u = Ok u' → (∀ r, p r = true → rID r = id) →
    (∀ r, rID (f r) = rID r ∧ ended_status (rStatus (f r))) → settled u' id).
  { intros e p f u u' [-> (r & Hr & Hp)]%affecting_inv Hid Hf. exists (f r). destruct (Hf r) as [Hi He].
    split; [apply elem_of_update; exists r; by rewrite Hp|]. split; [|done]. rewrite Hi. by apply Hid. }
  destruct Hs as [t now res t' Hs|t now msg t' Hs|t now t' Hs]; apply (Hends _ _ _ _ _ Hs).
  - intros r. apply has_id_true.
  - intros r. split; [done|]. by left.
  - intros r. apply has_id_true.
  - intros r. split; [done|]. right. by left.
  - intros r [Hr _]%andb_true_iff. by apply has_id_true.
  - intros r. split; [done|]. right. right. by left.
Qed.

Lemma settle_is_step id t t' : settle_step id t t' → store_step t t'.
Proof. destruct 1; [by eapply st_complete|by eapply st_fail|by eapply st_cancel]. Qed.

(** Held, or ended by somebody. *)
Definition held_or_settled (settles : bool) (t : list JobRow) (id c : string) (e : Z) : Prop :=
  holds t id c e ∨ settles = true ∧ settled t id.

Lemma lease_run_invariant settles id c a b : c ≠ nostr → star (lease_run settles id c) a b →
  jobs_ok a.1 ∧ held_or_settled settles a.1 id c a.2 → jobs_ok b.1 ∧ held_or_settled settles b.1 id c b.2.
Proof.
  intros Hne. apply (star_invariant _ (λ a, jobs_ok a.1 ∧ held_or_settled settles a.1 id c a.2)).
  intros x y [now t t' e Hlt Hs|t t' e Hset Hs|now ttl t e] [Hok Hh]; cbn [fst snd] in *.
  - split; [eapply jobs_ok_step; [by eapply foreign_is_step|done]|].
    destruct Hh as [Hh|[Hset Hh]]; [left; by eapply holds_foreign|right; split; [done|by eapply settled_foreign]].
  - split; [eapply jobs_ok_step; [by eapply settle_is_step|done]|]. right. split; [done|by eapply settle_ends].
  - split; [eapply jobs_ok_step; [|done]; apply st_extend|].
    destruct Hh as [Hh|[Hset Hh]]; [left; by eapply holds_renew|right; split; [done|by apply settled_renew]].
Qed.

(** The lease's holder is counted once: ids are unique. *)
Lemma holds_count t id c e : NoDup (map rID t) → holds t id c e → RowsAffected (under_claim id c) t = 1.
Proof.
  intros Hd (r & Hr & Hi & Hs & Hc & He). apply list_elem_of_split in Hr as (l1 & l2 & ->).
  assert (Hu : under_claim id c r = true) by by apply under_claim_true.
  rewrite map_app in Hd. cbn [map] in Hd. apply NoDup_app in Hd as (_ & H1 & [H2 _]%NoDup_cons).
  assert (Hz : ∀ l, (∀ x, x ∈ l → rID x ≠ id) → List.filter (under_claim id c) l = []).
  { induction l as [|x l IH]; intros Hx; [done|]. cbn. rewrite IH by (intros; apply Hx; by right).
    destruct (under_claim id c x) eqn:E; [|done]. apply under_claim_true in E as [E _]. destruct (Hx x); [left|done]. }
  unfold RowsAffected. rewrite List.filter_app, length_app. cbn [List.filter]. rewrite Hu.
  rewrite !Hz; [done| |]; intros x Hx Hxi.
  - apply H2. rewrite Hi, <- Hxi. by apply list_elem_of_fmap_2.
  - eapply (H1 (rID x)); [by apply list_elem_of_fmap_2|]. rewrite Hxi, <- Hi. left.
Qed.

(** A claim no row of the job runs under is refused. *)
Lemma claim_refused t id now claim ttl : (∀ x, x ∈ t → under_claim id claim x = false) → ExtendLease t now id claim ttl = (t, false).
Proof.
  intros Hf. unfold ExtendLease. destruct (str_eqb claim nostr); [done|]. rewrite update_none by done. f_equal.
  unfold RowsAffected. replace (List.filter (under_claim id claim) t) with (@nil JobRow); [done|]. clear - Hf.
  induction t as [|x t IH]; [done|]. cbn. rewrite Hf by left. apply IH. intros. apply Hf. by right.
Qed.

Lemma same_id t x y : jobs_ok t → x ∈ t → y ∈ t → rID x = rID y → x = y.
Proof. intros Hok Hx Hy He. exact (NoDup_map_inj rID t x y (ok_ids _ Hok) Hx Hy He). Qed.

Lemma foreign_claim_refused t id c e now c' ttl : jobs_ok t → holds t id c e → c' ≠ c → ExtendLease t now id c' ttl = (t, false).
Proof.
  intros Hok (r & Hr & Hi & Hs & Hc & He) Hn. apply claim_refused. intros x Hx. apply not_true_iff_false.
  intros (Hxi & Hxc & _)%under_claim_true. rewrite (same_id t x r Hok Hx Hr) in Hxc by congruence. congruence.
Qed.

Lemma settled_claim_refused t id now c' ttl : jobs_ok t → settled t id → ExtendLease t now id c' ttl = (t, false).
Proof.
  intros Hok (r & Hr & Hi & Hs). apply claim_refused. intros x Hx. apply not_true_iff_false. intros Hu.
  pose proof Hu as (Hxi & _ & _)%under_claim_true. rewrite (same_id t x r Hok Hx Hr) in Hu by congruence.
  by rewrite (ended_no_claim _ _ _ Hs) in Hu.
Qed.

(** C30. A lease makes its holder the job's only runner.  While the holder renews
    it before it runs out, other pools and clients may create, acquire and recover
    jobs, settle, retry and cancel other jobs, and present other claims; and, where
    [settles], anyone may complete, fail or cancel the job itself, which the code
    does by id alone.  The one statement left out is a [Retry] of the job.  Then
    the job runs under the holder's claim with its lease or, where [settles], has
    ended; no pool acquires it, and recovery does not requeue it; the holder's next
    renewal succeeds when the job still runs and is refused once it ended; a
    renewal under any other claim is refused and changes nothing. *)
Theorem lease_exclusive settles id c t e t' e' :
  jobs_ok t → c ≠ nostr → holds t id c e → star (lease_run settles id c) (t, e) (t', e') →
  (holds t' id c e' ∨ settles = true ∧ settled t' id) ∧
  (∀ now claim j cl, (AcquireNext t' now claim).2 = Some (j, cl) → jID j ≠ id) ∧
  (∀ now timeout, (UnixMilli now < e')%Z →
     let t2 := (RecoverStale t' now timeout).1 in holds t2 id c e' ∨ settles = true ∧ settled t2 id) ∧
  (∀ now ttl, (ExtendLease t' now id c ttl).2 = true ↔ holds t' id c e') ∧
  (∀ now c' ttl, c' ≠ c → ExtendLease t' now id c' ttl = (t', false)).
Proof.
  intros Hok Hne Hh Hs.
  destruct (lease_run_invariant settles id c _ _ Hne Hs (conj Hok (or_introl Hh))) as [Hok' Hh']. cbn [fst snd] in Hok', Hh'.
  split; [done|]. split; [|split; [|split]].
  - intros now claim j cl Ha. apply AcquireNext_some in Ha as (l1 & r & l2 & Et & _ & Hp & [= -> ->] & _); [|apply Hok'].
    intros Hj. change (rID r = id) in Hj. assert (Hr : r ∈ t') by (subst t'; apply elem_of_app; right; left).
    destruct Hh' as [(x & Hx & Hi & Hst & _)|(_ & x & Hx & Hi & Hst)];
      rewrite (same_id t' x r Hok' Hx Hr) in Hst by congruence; [by rewrite Hst in Hp|by apply ended_idle in Hst as [? _]].
  - intros now timeout Hlt. destruct Hh' as [Hh'|[Hset Hh']]; [left|right; split; [done|]].
    + eapply holds_foreign; [done|exact Hlt|apply fs_recover|done].
    + eapply (settled_foreign id c now); [done|apply fs_recover|done].
  - intros now ttl. destruct Hh' as [Hh'|[_ Hh']].
    + split; [done|]. intros _. unfold ExtendLease, str_eqb. rewrite bool_decide_false by done. cbn [snd].
      by rewrite (holds_count t' id c e') by (done || apply Hok').
    + rewrite settled_claim_refused by done. split; [done|]. intros (x & Hx & Hi & Hr & _). destruct Hh' as (y & Hy & Hyi & Hye).
      rewrite (same_id t' y x Hok' Hy Hx) in Hye by congruence. by apply ended_idle in Hye as [_ ?].
  - intros now c' ttl Hn. destruct Hh' as [Hh'|[_ Hh']]; [by eapply foreign_claim_refused|by apply settled_claim_refused].
Qed.
End leases.

(** ** The queue *)
Inductive QueueError : Type :=
| QueuePipelineRequired
| QueuePipelineNotFound (name : string)
| QueueTypeRequired
| QueueMaxRetries (id : string)
| QueueStore (e : JobError).

Section queue.
Context `{GoEncodings}.
(** The validator [SetPipelineValidator] installs, if any: true accepts. *)
Context (validatePipeline : option (string → bool)).

Definition default_status (j : Job) : Job :=
  if str_eqb (jStatus j) nostr
  then mkJob (jID j) (jType j) JobPending (jPayload j) (jPipeline j) (jSource j) (jResultID j) (jError j)
         (jRetryCount j) (jMaxRetries j) (jCreatedAt j) (jUpdatedAt j) (jStartedAt j) (jCompletedAt j)
         (jUserMentions j) (jUserHints j) (jUserProfile j) (jUserNote j) (jIdempotencyKey j)
  else j.

Definition Enqueue (t : list JobRow) (j : Job) : result QueueError (list JobRow) :=
  match validatePipeline with
  | Some v =>
      if str_eqb (jPipeline j) nostr then Err QueuePipelineRequired
      else if negb (v (jPipeline j)) then Err (QueuePipelineNotFound (jPipeline j))
      else map_err QueueStore (Create t (default_status j))
  | None => map_err QueueStore (Create t (default_status j))
  end.

Definition EnqueueTask (t : list JobRow) (now : Z) (id jobType payload : string) (maxRetries : Z)
    : result QueueError (list JobRow * Job) :=
  if str_eqb jobType nostr then Err QueueTypeRequired
  else
    let at_ := (now / Second * Second)%Z in
    let j := mkJob id jobType JobPending payload nostr nostr nostr nostr 0 maxRetries at_ at_ None None [] [] nostr nostr nostr in
    t' ← map_err QueueStore (Create t j);
    Ok (t', j).

Definition QueueRetry (t : list JobRow) (now : Z) (id : string) : result QueueError (list JobRow) :=
  j ← map_err QueueStore (Get t id);
  if (jMaxRetries j <=? jRetryCount j)%Z then Err (QueueMaxRetries id)
  else map_err QueueStore (Retry t now id).

(** ** Settlement by a worker

    A rejected settlement is logged and leaves the table as it was; the
    events published beside it are not modelled. *)
Definition loggedUpdate {E} (r : result E (list JobRow)) (t : list JobRow) : list JobRow :=
  match r with Ok t' => t' | Err _ => t end.

Definition markCompleted (t : list JobRow) (now : Z) (id res : string) : list JobRow := loggedUpdate (Complete t now id res) t.
Definition markFailed (t : list JobRow) (now : Z) (id reason : string) : list JobRow := loggedUpdate (Fail_ t now id reason) t.

Definition retryOrFail (t : list JobRow) (now : Z) (id msg : string) : list JobRow :=
  match QueueRetry t now id with
  | Ok t' => t'
  | Err _ => markFailed t now id msg
  end.

(** *** Task jobs: [runTask] *)
Inductive TaskStart : Type := TakenOver | NotHeld | Started.
Inductive TaskCause : Type := NoCause | ErrJobCancelled | ErrLeaseLost | ErrPoolStopped.
Inductive TaskResult : Type :=
| TaskOk (result : string)
| TaskErr (msg : string) (permanent : bool).

(** Up to the handler's start; [inflight] maps the task jobs this pool runs to
    the claims they renew under. *)
Definition startTask (inflight : gmap string string) (t : list JobRow) (now : Z) (id claim : string) (leaseTTL : Z)
    : gmap string string * list JobRow * TaskStart :=
  let (t', held) := ExtendLease t now id claim leaseTTL in
  match inflight !! id with
  | Some _ => (<[id := claim]> inflight, t', TakenOver)
  | None => if held then (<[id := claim]> inflight, t', Started) else (inflight, t', NotHeld)
  end.

(** From the handler's return to the end of [runTask]. *)
Definition settleTask (inflight : gmap string string) (t : list JobRow) (now : Z) (id : string)
    (r : TaskResult) (cause : TaskCause) : gmap string string * list JobRow :=
  let t' :=
    match r, cause with
    | TaskOk res, _ => loggedUpdate (Complete t now id res) t
    | _, ErrJobCancelled => t
    | _, ErrLeaseLost => t
    | _, ErrPoolStopped => ReleaseLease t id (default nostr (inflight !! id))
    | TaskErr msg true, NoCause => loggedUpdate (Fail_ t now id msg) t
    | TaskErr msg false, NoCause => retryOrFail t now id msg
    end in
  (delete id inflight, t').

(** One renewal tick of [watchTask]: the token read before the renewal, the one
    read after it, and whether the job's row then reads cancelled. *)
Definition renewTick (t : list JobRow) (now : Z) (id token token' : string) (leaseTTL : Z) : list JobRow * TaskCause :=
  let (t', held) := ExtendLease t now id token leaseTTL in
  let cancelled := match Get t' id with Ok j => str_eqb (jStatus j) JobCancelled | Err _ => false end in
  (t', if held || negb (str_eqb token' token) then NoCause else if cancelled then ErrJobCancelled else ErrLeaseLost).

Lemma find_id l1 r l2 : NoDup (map rID (l1 ++ r :: l2)) → List.find (has_id (rID r)) (l1 ++ r :: l2) = Some r.
Proof.
  intros Hd. edestruct (update_at l1 r l2 (has_id (rID r)) id) as [_ ->]; [done| | |done]; [by apply has_id_true|].
  intros x Hx. by apply has_id_true.
Qed.

Lemma affecting_at e p f l1 r l2 : NoDup (map rID (l1 ++ r :: l2)) → p r = true → (∀ x, p x = true → rID x = rID r) →
  affecting e p f (l1 ++ r :: l2) = Ok (l1 ++ f r :: l2).
Proof.
  intros Hd Hr Hp. destruct (update_at l1 r l2 p f) as [Hu _]; [done..|]. unfold affecting, RowsAffected.
  rewrite Hu, List.filter_app, length_app. cbn. rewrite Hr. cbn. by rewrite Nat.add_succ_r.
Qed.

(** Settling a failed run: the one row of the job goes back to pending,
    unclaimed and unleased with one more retry used, while it has retries
    left, and otherwise is failed with the run's error; no other row changes,
    and a job that is not in the table changes nothing. *)
Theorem retryOrFail_settles t now id msg :
  NoDup (map rID t) →
  ((∀ r, r ∈ t → rID r ≠ id) → retryOrFail t now id msg = t) ∧
  (∀ l1 r l2, t = l1 ++ r :: l2 → rID r = id →
     retryOrFail t now id msg =
     l1 ++ (if (jRetryCount (rJob r) <? jMaxRetries (rJob r))%Z then retried now r else failed now msg r) :: l2).
Proof.
  intros Hd. split.
  - intros Hno. unfold retryOrFail, QueueRetry, Get. destruct (List.find (has_id id) t) as [r|] eqn:E.
    { apply List.find_some in E as [Hr Hi]. apply list_elem_of_In in Hr. destruct (Hno r Hr). by apply has_id_true. }
    cbn. unfold markFailed, Fail_. destruct (affecting _ _ _ t) as [t'|] eqn:Ea; [|done].
    apply affecting_inv in Ea as (_ & r & Hr & Hi). destruct (Hno r Hr). by apply has_id_true.
  - intros l1 r l2 -> <-. unfold retryOrFail, QueueRetry, Get. rewrite find_id by done.
    change (map_err QueueStore (Ok (scanJob r)) ≫= ?f) with (f (scanJob r)). cbn beta.
    change (jMaxRetries (scanJob r)) with (jMaxRetries (rJob r)). change (jRetryCount (scanJob r)) with (jRetryCount (rJob r)).
    rewrite Z.ltb_antisym. destruct (jMaxRetries (rJob r) <=? jRetryCount (rJob r))%Z eqn:E; cbn [negb].
    + unfold markFailed, Fail_. rewrite affecting_at; [done|done|by apply has_id_true|]. intros x. apply has_id_true.
    + unfold Retry. rewrite affecting_at; [done|done| |].
      * unfold retryable. by rewrite (proj2 (has_id_true _ r) eq_refl), Z.ltb_antisym, E.
      * intros x [Hx _]%andb_true_iff. by apply has_id_true.
Qed.

(** Nothing in [Complete] or [Fail] looks at the status, so a job cancelled
    while its handler runs to a result ends completed. *)
Lemma complete_after_cancel l1 r l2 now now' res : NoDup (map rID (l1 ++ r :: l2)) → rStatus r = JobRunning →
  ∃ t, Cancel (l1 ++ r :: l2) now (rID r) = Ok t ∧
  ∃ r', (settleTask ∅ t now' (rID r) (TaskOk res) ErrJobCancelled).2 = l1 ++ r' :: l2 ∧ rStatus r' = JobCompleted.
Proof.
  intros Hd Hs. exists (l1 ++ cancelled now r :: l2). split.
  - unfold Cancel. apply affecting_at; [done| |].
    + rewrite (proj2 (has_id_true _ r) eq_refl), (proj2 (has_status_true JobRunning r) Hs). by rewrite orb_true_r.
    + intros x [Hx _]%andb_true_iff. by apply has_id_true.
  - exists (completed now' res (cancelled now r)). split; [|done]. cbn [settleTask snd]. unfold Complete.
    rewrite affecting_at; [done| |by apply has_id_true|]; [|intros x; apply has_id_true].
    rewrite map_app in *. exact Hd.
Qed.
End queue.

(** ** Idempotent submission: [Service.Enqueue] *)
Record AnalyzeRequest : Type := mkAnalyze {
  aqContent : string;
  aqType : string;
  aqSource : string;
  aqPipeline : string;
  aqIdempotencyKey : string;
}.

(** What the caller's view of the store says to a read of [Jobs]: it answers,
    it refuses with [ErrRestrictedViewer] alone, or with an error that is
    [ErrNoViewer] as well; and which of them the scoped driver's route is. *)
Inductive JobsAccess : Type := JobsOpen | JobsRestricted | JobsNoViewer.

Definition jobsAccess (r : option route) : JobsAccess :=
  match r with
  | Some (Refuse (refuseRead _ _ (Some ErrNoViewer))) => JobsNoViewer
  | Some (Refuse _) => JobsRestricted
  | _ => JobsOpen
  end.

(** A nil viewer's refusal by the jobs store names no [ErrNoViewer], so the
    lookup takes it for a restricted viewer's. *)
Lemma nil_viewer_jobs_restricted {V} `{StorageViewer V} dialect binds :
  jobsAccess (call (ScopedDriver (None : option V) true dialect binds) "Jobs" "GetByIdempotencyKey") = JobsRestricted.
Proof. reflexivity. Qed.

Inductive ServiceError : Type :=
| ServiceIdempotencyLookup
| ServicePipelineNotFound (name : string)
| ServiceQueue (e : QueueError).

Section service.
Context `{GoEncodings}.
(** The service's pipeline detection (source, type, content), its existence
    check, and the queue's validator. *)
Context (detectPipeline : string → string → string → string).
Context (pipelineExists : string → bool).
Context (validatePipeline : option (string → bool)).

Definition dedupeOnIdempotencyKey (acc : JobsAccess) (t : list JobRow) (key : string) : result ServiceError (option string) :=
  if str_eqb key nostr then Ok None
  else
    match acc with
    | JobsRestricted => Ok None
    | JobsNoViewer => Err ServiceIdempotencyLookup
    | JobsOpen => Ok (jID <$> GetByIdempotencyKey t key)
    end.

(** The lookup runs on table [t], the insert and the lookup after a rejected
    insert on [t'], which other clients may have changed in between; [newID]
    is the fresh UUID.  The result is the table after the call and the job's
    id. *)
Definition ServiceEnqueue (acc : JobsAccess) (t t' : list JobRow) (now : Z) (newID : string) (req : AnalyzeRequest)
    : result ServiceError (list JobRow * string) :=
  hit ← dedupeOnIdempotencyKey acc t (aqIdempotencyKey req);
  match hit with
  | Some jobID => Ok (t', jobID)
  | None =>
      let name := if str_eqb (aqPipeline req) nostr
                  then detectPipeline (aqSource req) (aqType req) (aqContent req) else aqPipeline req in
      if negb (pipelineExists name) then Err (ServicePipelineNotFound name)
      else
        let at_ := (now / Second * Second)%Z in
        let job := mkJob newID ("ingest:" +:+ aqType req) JobPending (aqContent req) name (aqSource req) nostr nostr 0 3
                     at_ at_ None None [] [] nostr nostr (aqIdempotencyKey req) in
        match Enqueue validatePipeline t' job with
        | Ok t'' => Ok (t'', newID)
        | Err e =>
            match dedupeOnIdempotencyKey acc t' (aqIdempotencyKey req) with
            | Ok (Some jobID) => Ok (t', jobID)
            | _ => Err (ServiceQueue e)
            end
        end
  end.

(** The job that carries a key. *)
Definition keyed (t : list JobRow) (key id : string) : Prop := ∃ r, r ∈ t ∧ rKey r = key ∧ rID r = id.

Lemma keyed_step t t' key id : star store_step t t' → keyed t key id → keyed t' key id.
Proof.
  apply (star_invariant _ (λ u, keyed u key id)). intros a b Hs (r & Hr & Hk & Hi).
  destruct (store_step_keys a b Hs) as [new Hn].
  assert (Hin : (id, key) ∈ map (λ r, (rID r, rKey r)) b).
  { rewrite Hn. apply elem_of_app. left. apply list_elem_of_fmap. exists r. by rewrite Hi, Hk. }
  apply list_elem_of_fmap in Hin as (x & [= Hxi Hxk] & Hx). by exists x.
Qed.

Lemma keyed_unique t key i j : NoDup (nonempty (map rKey t)) → key ≠ nostr → keyed t key i → keyed t key j → i = j.
Proof.
  intros Hd Hk (r & Hr & Hrk & <-) (x & Hx & Hxk & <-). induction t as [|y t IH]; [by apply not_elem_of_nil in Hr|].
  cbn [map] in Hd. rewrite nonempty_cons in Hd.
  assert (Hy : rKey y = key → ∀ z, z ∈ t → rKey z ≠ key).
  { intros Hyk z Hz Hzk. rewrite Hyk in Hd. unfold str_eqb in Hd. rewrite bool_decide_false in Hd by done.
    apply NoDup_cons in Hd as [Hn _]. apply Hn. apply list_elem_of_filter. split; [done|]. rewrite <- Hzk. by apply list_elem_of_fmap_2. }
  assert (Hd' : NoDup (nonempty (map rKey t))) by (destruct (str_eqb _ _); [done|by apply NoDup_cons in Hd as [_ ?]]).
  apply elem_of_cons in Hr as [->|Hr], Hx as [->|Hx]; [done| | |by apply IH].
  - destruct (Hy Hrk x Hx Hxk).
  - destruct (Hy Hxk r Hr Hrk).
Qed.

Lemma GetByIdempotencyKey_spec t key : key ≠ nostr →
  match GetByIdempotencyKey t key with
  | Some j => keyed t key (jID j)
  | None => ∀ id, ¬ keyed t key id
  end.
Proof.
  intros Hk. unfold GetByIdempotencyKey. unfold str_eqb at 1. rewrite bool_decide_false by done.
  destruct (List.find _ t) as [r|] eqn:E; cbn.
  - apply List.find_some in E as [Hr He]. apply str_eqb_true in He. apply list_elem_of_In in Hr. by exists r.
  - intros id (r & Hr & Hrk & _). apply list_elem_of_In in Hr. pose proof (List.find_none _ _ E r Hr) as Hf. cbn in Hf.
    by rewrite Hrk, str_eqb_refl in Hf.
Qed.

Lemma dedupe_found acc t key id : key ≠ nostr → dedupeOnIdempotencyKey acc t key = Ok (Some id) → keyed t key id.
Proof.
  intros Hk. unfold dedupeOnIdempotencyKey. unfold str_eqb at 1. rewrite bool_decide_false by done. destruct acc; [|done..].
  pose proof (GetByIdempotencyKey_spec t key Hk) as Hg. destruct (GetByIdempotencyKey t key); [by intros [= <-]|done].
Qed.

Lemma dedupe_hit t key id : key ≠ nostr → NoDup (nonempty (map rKey t)) → keyed t key id →
  dedupeOnIdempotencyKey JobsOpen t key = Ok (Some id).
Proof.
  intros Hk Hd Hi. unfold dedupeOnIdempotencyKey. unfold str_eqb at 1. rewrite bool_decide_false by done.
  pose proof (GetByIdempotencyKey_spec t key Hk) as Hg. destruct (GetByIdempotencyKey t key) as [j|]; cbn.
  - f_equal. f_equal. by eapply keyed_unique.
  - by destruct (Hg id).
Qed.

Lemma ServiceEnqueue_keyed acc t t' now newID req t'' id : aqIdempotencyKey req ≠ nostr → star store_step t t' →
  ServiceEnqueue acc t t' now newID req = Ok (t'', id) →
  keyed t'' (aqIdempotencyKey req) id ∧
  (t'' = t' ∨ (store_step t' t'' ∧ ∀ i, ¬ keyed t' (aqIdempotencyKey req) i)).
Proof.
  intros Hk Hs He. unfold ServiceEnqueue in He. apply bind_ok_inv in He as (hit & Hd & He).
  destruct hit as [i|].
  { apply dedupe_found in Hd; [|done]. injection He as <- <-. split; [by eapply keyed_step|by left]. }
  destruct (negb _); [discriminate|].
  match type of He with context [Enqueue _ _ ?jj] => remember jj as job eqn:Ej end.
  destruct (Enqueue validatePipeline t' job) as [u|e] eqn:Eq.
  - injection He as <- <-. unfold Enqueue, default_status in Eq.
    assert (Ec : Create t' job = Ok u).
    { assert (str_eqb (jStatus job) nostr = false) as Est by (subst job; done). rewrite Est in Eq. clear Est.
      by repeat first [discriminate Eq|apply map_err_ok_inv in Eq|flatten_in Eq]. }
    split; [|right; split].
    + unfold Create in Ec. destruct (existsb _ t'); [discriminate|]. injection Ec as <-.
      exists (mkRow (encodeJob job) nostr None). split; [apply elem_of_app; right; left|]. by subst job.
    + eapply st_create; [|exact Ec]. by subst job.
    + intros i (r & Hr & Hrk & _). unfold Create in Ec. destruct (existsb _ t') eqn:Ex; [discriminate|].
      apply not_true_iff_false in Ex. apply Ex, existsb_exists'. exists r. split; [done|]. unfold conflicts.
      replace (jIdempotencyKey job) with (aqIdempotencyKey req) by by subst job.
      unfold str_eqb. rewrite (bool_decide_false (aqIdempotencyKey req = nostr)), (bool_decide_true (rKey r = _)) by done.
      apply orb_true_r.
  - destruct (dedupeOnIdempotencyKey acc t' _) as [[i|]|] eqn:Ed; [|discriminate..].
    apply dedupe_found in Ed; [|done]. injection He as <- <-. by split; [|left].
Qed.

(** A caller whose viewer refuses reads of the jobs cannot look its key up: a nil
    viewer's lookup fails, a restricted one's finds nothing and the unique index
    rejects its row.  Its replay of a keyed submission is an error. *)
Lemma unreadable_replay_rejected acc t t' now newID req id : acc ≠ JobsOpen → aqIdempotencyKey req ≠ nostr →
  keyed t' (aqIdempotencyKey req) id → ∃ e, ServiceEnqueue acc t t' now newID req = Err e.
Proof.
  intros Hacc Hk (r & Hr & Hrk & _). unfold ServiceEnqueue, dedupeOnIdempotencyKey.
  replace (str_eqb (aqIdempotencyKey req) nostr) with false by (symmetry; by apply bool_decide_eq_false).
  destruct acc; [done| |cbn; eauto].
  cbn. destruct (negb _); [eauto|]. unfold Enqueue, default_status, Create. cbn [jStatus jPipeline jID].
  replace (existsb _ t') with true; [|symmetry].
  { cbn. destruct validatePipeline; [|eauto]. destruct (str_eqb _ _); [eauto|]. destruct (negb _); eauto. }
  apply existsb_exists'. exists r. split; [done|]. unfold conflicts. cbn.
  unfold str_eqb. rewrite (bool_decide_false (aqIdempotencyKey req = nostr)), (bool_decide_true (rKey r = _)) by done.
  apply orb_true_r.
Qed.

(** C31. A keyed submission happens once.  When a submission under a non-empty
    idempotency key succeeded, by any caller, every later one under that key, with
    any content, after any statements of any clients and with any of them running
    between its lookup and its insert, adds no row: a caller that may read the jobs
    is answered the same job, and one that may not (restricted, or without a
    viewer) gets an error and no other job.  And when the first submission itself
    lost the race to another, it answered the job that won. *)
Theorem Enqueue_idempotent acc t0 t1 t2 now newID req id :
  jobs_ok t0 → star store_step t0 t1 → aqIdempotencyKey req ≠ nostr →
  ServiceEnqueue acc t0 t1 now newID req = Ok (t2, id) →
  (∀ i, keyed t1 (aqIdempotencyKey req) i → i = id ∧ t2 = t1) ∧
  ∀ acc' t3 t4 now' newID' req', star store_step t2 t3 → star store_step t3 t4 →
    aqIdempotencyKey req' = aqIdempotencyKey req →
    match acc' with
    | JobsOpen => ServiceEnqueue acc' t3 t4 now' newID' req' = Ok (t4, id)
    | JobsRestricted | JobsNoViewer => ∃ e, ServiceEnqueue acc' t3 t4 now' newID' req' = Err e
    end.
Proof.
  intros Hok H01 Hk He. pose proof (store_invariant_from _ _ H01 Hok) as Hok1.
  destruct (ServiceEnqueue_keyed _ _ _ _ _ _ _ _ Hk H01 He) as [Hid Hstep].
  assert (H12 : star store_step t1 t2) by (destruct Hstep as [->|[Hst _]]; eauto with go).
  pose proof (store_invariant_from _ _ H12 Hok1) as Hok2. split.
  - intros i Hi. assert (i = id) as -> by (eapply keyed_unique; [apply Hok2|exact Hk|by eapply keyed_step|done]). split; [done|].
    destruct Hstep as [->|[_ Hn]]; [done|]. by destruct (Hn id).
  - intros acc' t3 t4 now' newID' req' H23 H34 Hreq.
    pose proof (keyed_step _ _ _ _ H23 Hid) as H3. pose proof (store_invariant_from _ _ H23 Hok2) as Hok3.
    assert (Hno : acc' ≠ JobsOpen → ∃ e, ServiceEnqueue acc' t3 t4 now' newID' req' = Err e).
    { intros Hacc. eapply unreadable_replay_rejected; [done|by rewrite Hreq|]. rewrite Hreq. by eapply keyed_step. }
    destruct acc'; [|by apply Hno..]. unfold ServiceEnqueue. rewrite Hreq.
    by rewrite (dedupe_hit _ _ _ Hk (ok_keys _ Hok3) H3).
Qed.
End service.

(** ** Examples *)
Lemma store_invariant_witness :
  let t := (@AcquireNext sample_encodings [sample_pending "j1" "k1"] 9 "c1").1 in
  star (@store_step sample_encodings) [] t ∧ jobs_ok t.
Proof.
  cbn zeta. assert (Hs : star (@store_step sample_encodings) [] (@AcquireNext sample_encodings [sample_pending "j1" "k1"] 9 "c1").1).
  { eapply star_step; [apply (@st_create sample_encodings _ (sample_job "j1" "k1")); [reflexivity|vm_compute; reflexivity]|].
    eapply star_step; [|apply star_refl]. apply (@st_acquire sample_encodings [sample_pending "j1" "k1"] 9 "c1"); [discriminate|].
    refine (bool_decide_eq_true_1 _ _). vm_compute. reflexivity. }
  split; [exact Hs|]. exact (store_invariant _ Hs).
Defined.

Definition sample_running : JobRow := with_lease (Some 40000%Z) (@claimed sample_encodings 9 "c1" (sample_pending "j1" "k1")).

Lemma sample_running_ok : jobs_ok [sample_running].
Proof.
  split; [refine (bool_decide_eq_true_1 _ _); vm_compute; reflexivity..|]. intros r ->%list_elem_of_singleton.
  split; [discriminate|discriminate|cbn; lia].
Qed.

(** Recovery passes over the leased job; another pool, which lost it, completes
    it: the holder's renewal is then refused, as is every other. *)
Lemma lease_exclusive_witness :
  let r := @RecoverStale sample_encodings [sample_running] 30000000000 0 in
  (UnixMilli 30000000000 < 40000)%Z ∧
  (@ExtendLease r.1 39000000000 "j1" "c1" 30000000000).2 = true ∧
  ∃ t, @Complete sample_encodings r.1 31000000000 "j1" "done" = Ok t ∧
    (@ExtendLease t 39000000000 "j1" "c1" 30000000000).2 ≠ true ∧ @ExtendLease t 39000000000 "j1" "c2" 30000000000 = (t, false).
Proof.
  cbn zeta. assert (Hlt : (UnixMilli 30000000000 < 40000)%Z) by (vm_compute; reflexivity). split; [exact Hlt|].
  assert (Hh : holds [sample_running] "j1" "c1" 40000) by (exists sample_running; split; [left|repeat split]).
  assert (Hrec : ∀ b, star (@lease_run sample_encodings b "j1" "c1") ([sample_running], 40000%Z)
                        ((@RecoverStale sample_encodings [sample_running] 30000000000 0).1, 40000%Z)).
  { intros b. eapply star_step; [|apply star_refl]. eapply lr_foreign; [exact Hlt|]. apply fs_recover. }
  split.
  - destruct (@lease_exclusive sample_encodings false "j1" "c1" [sample_running] 40000
                (@RecoverStale sample_encodings [sample_running] 30000000000 0).1 40000) as ([Hk|[? _]] & _ & _ & Hr & _);
      [exact sample_running_ok|discriminate|exact Hh|apply Hrec| |discriminate].
    by apply Hr.
  - destruct (@Complete sample_encodings (@RecoverStale sample_encodings [sample_running] 30000000000 0).1 31000000000 "j1" "done")
      as [t|e] eqn:Hc; [|vm_compute in Hc; discriminate Hc].
    exists t. split; [reflexivity|].
    destruct (@lease_exclusive sample_encodings true "j1" "c1" [sample_running] 40000 t 40000) as (_ & _ & _ & Hr & Ho);
      [exact sample_running_ok|discriminate|exact Hh| |].
    + eapply star_trans; [apply Hrec|]. eapply star_step; [|apply star_refl]. apply lr_settle; [reflexivity|].
      by eapply ss_complete.
    + split; [|by apply Ho]. rewrite Hr. vm_compute in Hc. injection Hc as <-.
      intros (x & ->%list_elem_of_singleton & _ & Hst & _). discriminate Hst.
Defined.

(** A pool whose lease ran out while its handler was busy ends with
    [retryOrFail], which checks no claim: the job another pool has leased goes back
    to pending, and a third acquires it while that lease is live. *)
Example lapsed_worker_requeues :
  let t1 := (@RecoverStale sample_encodings [sample_running] 50000000000 1800).1 in
  let t2 := (@AcquireNext sample_encodings t1 51000000000 "c2").1 in
  let t3 := (@ExtendLease t2 51000000000 "j1" "c2" 30000000000).1 in
  let t4 := @retryOrFail sample_encodings t3 52000000000 "j1" "boom" in
  holds t3 "j1" "c2" 81000 ∧ (UnixMilli 53000000000 < 81000)%Z ∧
  (λ jc, (jID jc.1, jc.2)) <$> (@AcquireNext sample_encodings t4 53000000000 "c3").2 = Some ("j1"%string, "c3"%string).
Proof.
  cbn zeta. split; [|vm_compute; done]. eexists. split; [vm_compute; left|]. vm_compute. done.
Qed.

Lemma retryOrFail_settles_witness :
  let r := @claimed sample_encodings 9 "c1" (sample_pending "j1" "k1") in
  @retryOrFail sample_encodings [r] 10 "j1" "boom" = [@retried sample_encodings 10 r].
Proof.
  cbn zeta. destruct (@retryOrFail_settles sample_encodings [@claimed sample_encodings 9 "c1" (sample_pending "j1" "k1")] 10 "j1" "boom")
    as [_ H]; [apply NoDup_singleton|].
  exact (H [] _ [] eq_refl eq_refl).
Defined.

Definition sample_request : AnalyzeRequest := mkAnalyze "content" "text" "cli" "text.ingest" "k1".

Lemma Enqueue_idempotent_witness :
  let enqueue := @ServiceEnqueue sample_encodings (λ _ _ _, "text.ingest") (λ _, true) None in
  ∃ t2, enqueue JobsOpen [] [] 7%Z "j1" sample_request = Ok (t2, "j1") ∧
    enqueue JobsOpen t2 t2 8%Z "j2" sample_request = Ok (t2, "j1") ∧
    ∃ e, enqueue JobsRestricted t2 t2 8%Z "j2" sample_request = Err e.
Proof.
  cbn zeta. eexists. split; [vm_compute; reflexivity|].
  match goal with |- @ServiceEnqueue _ _ _ _ _ ?t _ _ _ _ = _ ∧ _ => set (t2 := t) end.
  assert (Hok : jobs_ok []).
  { split; [refine (bool_decide_eq_true_1 _ _); vm_compute; reflexivity..|]. by intros r ?%not_elem_of_nil. }
  assert (Hfirst : @ServiceEnqueue sample_encodings (λ _ _ _, "text.ingest"%string) (λ _, true) None JobsOpen [] [] 7%Z "j1" sample_request
                   = Ok (t2, "j1"%string)) by (vm_compute; reflexivity).
  destruct (@Enqueue_idempotent sample_encodings (λ _ _ _, "text.ingest"%string) (λ _, true) None JobsOpen [] [] t2 7 "j1" sample_request "j1"
              Hok (star_refl _ _) ltac:(discriminate) Hfirst) as [_ Hreplay].
  split; [apply (Hreplay JobsOpen)|apply (Hreplay JobsRestricted)]; try apply star_refl; reflexivity.
Defined.
