(* ===== verification/AuthScopes.v ===== *)
(** * Scopes, roles and session scope sets

    Models [internal/auth/scope.go] and the principal of [internal/auth/auth.go]:
    the scopes a route requires, the bundle each role grants, the union a
    principal's roles grant, and the set a browser session is narrowed to. *)

From S2P Require Import Prelude GoStrings.

(** A scope is a string [verb:resource]. *)
Abbreviation Scope := string (only parsing).

Definition ScopeReadObjects : Scope := "read:objects".
Definition ScopeWriteObjects : Scope := "write:objects".
Definition ScopeDeleteObjects : Scope := "delete:objects".
Definition ScopeDeleteEdges : Scope := "delete:edges".
Definition ScopeDeleteAliases : Scope := "delete:aliases".
Definition ScopeDeleteSearches : Scope := "delete:searches".
Definition ScopeReadMCP : Scope := "read:mcp".
Definition ScopeReadInbox : Scope := "read:inbox".
Definition ScopeWriteInbox : Scope := "write:inbox".
Definition ScopeProcessInbox : Scope := "process:inbox".
Definition ScopeReadFeeds : Scope := "read:feeds".
Definition ScopeWriteFeeds : Scope := "write:feeds".
Definition ScopeDeleteFeeds : Scope := "delete:feeds".
Definition ScopeReadJobs : Scope := "read:jobs".
Definition ScopeWriteJobs : Scope := "write:jobs".
Definition ScopeCancelJobs : Scope := "cancel:jobs".
Definition ScopeReadRegistries : Scope := "read:registries".
Definition ScopeSyncRegistries : Scope := "sync:registries".
Definition ScopeReadSystem : Scope := "read:system".
Definition ScopeWriteSystem : Scope := "write:system".
Definition ScopeWriteSelf : Scope := "write:self".
Definition ScopeReadPipelines : Scope := "read:pipelines".
Definition ScopeAdminPipelines : Scope := "admin:pipelines".
Definition ScopeAdminSteps : Scope := "admin:steps".
Definition ScopeReadWatches : Scope := "read:watches".
Definition ScopeAdminWatches : Scope := "admin:watches".
Definition ScopeAdminAudit : Scope := "admin:audit".
Definition ScopeAdminPrincipals : Scope := "admin:principals".
Definition ScopeAdminShares : Scope := "admin:shares".
Definition ScopeReadUI : Scope := "read:ui".
Definition ScopeSignoutUI : Scope := "signout:ui".

Definition AllScopes : list Scope := [
  ScopeReadObjects; ScopeWriteObjects; ScopeDeleteObjects; ScopeDeleteEdges;
  ScopeDeleteAliases; ScopeDeleteSearches; ScopeReadMCP;
  ScopeReadInbox; ScopeWriteInbox; ScopeProcessInbox;
  ScopeReadFeeds; ScopeWriteFeeds; ScopeDeleteFeeds;
  ScopeReadJobs; ScopeWriteJobs; ScopeCancelJobs;
  ScopeReadRegistries; ScopeSyncRegistries;
  ScopeReadSystem; ScopeWriteSystem;
  ScopeWriteSelf;
  ScopeReadPipelines; ScopeAdminPipelines; ScopeAdminSteps;
  ScopeReadWatches; ScopeAdminWatches;
  ScopeAdminAudit; ScopeAdminPrincipals; ScopeAdminShares;
  ScopeReadUI; ScopeSignoutUI ].

Definition sessionOnlyScopes : list Scope := [ScopeSignoutUI].
Definition selfScopes : list Scope := [ScopeWriteSelf].

Definition UISessionScopes : list Scope := [
  ScopeReadObjects; ScopeDeleteObjects;
  ScopeReadInbox;
  ScopeReadFeeds;
  ScopeReadJobs; ScopeWriteJobs;
  ScopeReadRegistries;
  ScopeReadSystem;
  ScopeWriteSelf;
  ScopeAdminShares;
  ScopeSignoutUI ].

Definition verbRead : string := "read".
Definition verbWrite : string := "write".

(** [strings.Cut] on the first colon: the whole string when it has none. *)
Definition Verb (s : Scope) : string := CutBefore s ":".

Definition RoleAdmin : string := "admin".
Definition RoleWriter : string := "writer".
Definition RoleReader : string := "reader".
Definition Roles : list string := [RoleAdmin; RoleWriter; RoleReader].

(** ** Bundles *)

(** The filter a role keeps scopes by; [None] is an unknown role. *)
Definition role_keep (role : string) : option (Scope → bool) :=
  if str_eqb role RoleAdmin then Some (λ _, true)
  else if str_eqb role RoleWriter then Some (λ s, str_eqb (Verb s) verbRead || str_eqb (Verb s) verbWrite)
  else if str_eqb role RoleReader then Some (λ s, str_eqb (Verb s) verbRead)
  else None.

(** The loop of [Bundle]. *)
Definition bundle_of (keep : Scope → bool) : list Scope :=
  List.filter (λ s, (keep s || contains selfScopes s) && negb (contains sessionOnlyScopes s)) AllScopes.

Definition Bundle (role : string) : option (list Scope) :=
  match role_keep role with
  | None => None
  | Some keep => Some (bundle_of keep)
  end.

Inductive RoleError : Type :=
| NoRoles
| UnknownRole (r : string).

Definition ValidateRoles (roles : list string) : result RoleError unit :=
  match roles with
  | [] => Err NoRoles
  | _ => for_each (λ r, match Bundle r with Some _ => Ok tt | None => Err (UnknownRole r) end) roles
  end.

(** [granted] is the map of the bundles' scopes, read back in [AllScopes] order. *)
Definition ScopesForRoles (roles : list string) : list Scope :=
  let granted := concat (map (λ r, default [] (Bundle r)) roles) in
  List.filter (contains granted) AllScopes.

Definition SessionKindUI : string := "ui".

(** [session.go] *)
Definition SessionScopes (kind : string) : list Scope :=
  if str_eqb kind SessionKindUI then UISessionScopes else [].

Definition SessionScopesFor (principal : list Scope) (kind : string) : list Scope :=
  let set := SessionScopes kind in
  List.filter (λ s, contains set s && (contains principal s || contains sessionOnlyScopes s)) AllScopes.

(** [intersectScopes] of [keys.go] *)
Definition intersectScopes (a b : list Scope) : list Scope :=
  List.filter (λ s, contains a s && contains b s) AllScopes.

(** [scopesNamed] of [keys.go] *)
Definition scopesNamed (names : list string) : list Scope := List.filter (contains names) AllScopes.

(** [rolesWithin] of [keys.go] *)
Definition rolesWithin (asked : list string) (granted : list Scope) : list string :=
  List.filter (λ r, match Bundle r with None => false | Some b => forallb (contains granted) b end) asked.

(** ** The authenticated caller *)
Record Principal : Type := mkPrincipal {
  pID : string;
  pName : string;
  pKind : string;
  pProvider : string;
  pRoles : list string;
  pScopes : list Scope;
  pMeta : gmap string string;
}.

(** [p.Meta[k]]: the empty string when the key is absent. *)
Definition Meta (p : Principal) (k : string) : string := default nostr (pMeta p !! k).

Definition HasScope (p : option Principal) (s : Scope) : bool :=
  match p with None => false | Some p => contains (pScopes p) s end.

Definition HasRole (p : option Principal) (role : string) : bool :=
  match p with None => false | Some p => contains (pRoles p) role end.

Definition IsSelf (p : option Principal) (principalID : string) : bool :=
  match p with None => false | Some p => negb (str_eqb principalID nostr) && str_eqb (pID p) principalID end.

Definition BypassesEntityGate (p : option Principal) : bool := HasRole p RoleAdmin.

(** [storage.OwnerPrincipal] and [PrincipalKindOwner] *)
Definition LocalPrincipal : Principal :=
  mkPrincipal "owner" "owner" "owner" "none" [RoleAdmin] AllScopes ∅.

Definition MetaVia : string := "via".
Definition MetaSessionKind : string := "session_kind".
Definition MetaSessionID : string := "session_id".
Definition ViaSession : string := "session".
Definition MetaKeyID : string := "key_id".
Definition MetaIdentityID : string := "identity_id".

Definition IsSession (p : option Principal) : bool :=
  match p with None => false | Some p => str_eqb (Meta p MetaVia) ViaSession end.

Definition SessionKind (p : option Principal) : string :=
  if negb (IsSession p) then nostr
  else match p with None => nostr | Some p => Meta p MetaSessionKind end.

(** [auth.Attach]: what the policy engine sees of a caller. *)
Record KitPrincipal : Type := mkKitPrincipal { kpID : string; kpRole : string; kpSource : string }.

Definition Attach (p : Principal) : KitPrincipal :=
  mkKitPrincipal (pID p) (match pRoles p with r :: _ => r | [] => nostr end) (pProvider p).

(** ** Lemmas *)

Lemma elem_of_bfilter {A} (f : A → bool) l x : x ∈ List.filter f l ↔ x ∈ l ∧ f x = true.
Proof. rewrite !list_elem_of_In. apply filter_In. Qed.

Lemma elem_of_intersectScopes a b s : s ∈ intersectScopes a b ↔ s ∈ AllScopes ∧ s ∈ a ∧ s ∈ b.
Proof. unfold intersectScopes. rewrite elem_of_bfilter, andb_true_iff, !contains_true. tauto. Qed.

Lemma elem_of_scopesNamed names s : s ∈ scopesNamed names ↔ s ∈ AllScopes ∧ s ∈ names.
Proof. unfold scopesNamed. rewrite elem_of_bfilter, contains_true. tauto. Qed.

Lemma elem_of_ScopesForRoles roles s :
  s ∈ ScopesForRoles roles ↔ s ∈ AllScopes ∧ ∃ r b, r ∈ roles ∧ Bundle r = Some b ∧ s ∈ b.
Proof.
  unfold ScopesForRoles. rewrite elem_of_bfilter, contains_true, elem_of_concat_map.
  split; intros [Ha H]; (split; [done|]).
  - destruct H as (r & Hr & Hs). destruct (Bundle r) eqn:Hb; [eauto|by apply not_elem_of_nil in Hs].
  - destruct H as (r & b & Hr & Hb & Hs). exists r. by rewrite Hb.
Qed.

Lemma elem_of_bundle_of keep s :
  s ∈ bundle_of keep ↔ s ∈ AllScopes ∧ s ∉ sessionOnlyScopes ∧ (keep s = true ∨ s ∈ selfScopes).
Proof.
  unfold bundle_of. rewrite elem_of_bfilter, andb_true_iff, orb_true_iff, negb_true_iff, contains_true, contains_false.
  tauto.
Qed.

(** No bundle and no set of roles grants a session-only scope. *)
Lemma Bundle_not_session_only role b s : Bundle role = Some b → s ∈ b → s ∉ sessionOnlyScopes.
Proof.
  unfold Bundle. destruct (role_keep role) as [keep|]; [|discriminate].
  intros <-%(inj Some) (_ & H & _)%elem_of_bundle_of. exact H.
Qed.

Lemma ScopesForRoles_not_session_only roles s : s ∈ ScopesForRoles roles → s ∉ sessionOnlyScopes.
Proof.
  intros (_ & r & b & _ & Hb & Hs)%elem_of_ScopesForRoles.
  by apply (Bundle_not_session_only r b).
Qed.

Lemma elem_of_SessionScopesFor principal kind s :
  s ∈ SessionScopesFor principal kind ↔
  s ∈ AllScopes ∧ s ∈ SessionScopes kind ∧ (s ∈ principal ∨ s ∈ sessionOnlyScopes).
Proof.
  unfold SessionScopesFor. rewrite elem_of_bfilter, andb_true_iff, orb_true_iff, !contains_true. tauto.
Qed.

(** A session holds the session-only scopes, and of the others only what its
    credential holds. *)
Lemma SessionScopesFor_narrows principal kind s :
  s ∈ SessionScopesFor principal kind → s ∈ principal ∨ s = ScopeSignoutUI.
Proof.
  intros (_ & _ & [H|H])%elem_of_SessionScopesFor; [by left|right].
  by apply list_elem_of_singleton in H.
Qed.

(** A session cannot mint another: it never holds [read:ui]. *)
Lemma SessionScopesFor_no_mint principal kind : ScopeReadUI ∉ SessionScopesFor principal kind.
Proof.
  intros (_ & H & _)%elem_of_SessionScopesFor. revert H. unfold SessionScopes.
  destruct (str_eqb kind SessionKindUI); [|apply not_elem_of_nil].
  refine (bool_decide_eq_true_1 (ScopeReadUI ∉ UISessionScopes) _). reflexivity.
Qed.

(** The bundles are ordered: a reader's is within a writer's, a writer's within
    an admin's, an admin's is everything that is not session-only. *)
Lemma bundle_of_mono k1 k2 : (∀ s, k1 s = true → k2 s = true) → bundle_of k1 ⊆ bundle_of k2.
Proof. intros H s (? & ? & Hk)%elem_of_bundle_of. apply elem_of_bundle_of. destruct Hk; auto. Qed.

Lemma Bundle_order : ∃ r w a, Bundle RoleReader = Some r ∧ Bundle RoleWriter = Some w ∧ Bundle RoleAdmin = Some a ∧
  r ⊆ w ∧ w ⊆ a ∧ ∀ s, s ∈ a ↔ s ∈ AllScopes ∧ s ∉ sessionOnlyScopes.
Proof.
  set (kw := λ s, str_eqb (Verb s) verbRead || str_eqb (Verb s) verbWrite).
  exists (bundle_of (λ s, str_eqb (Verb s) verbRead)), (bundle_of kw), (bundle_of (λ _, true)).
  unfold Bundle. split; [reflexivity|]. split; [reflexivity|]. split; [reflexivity|]. split; [|split].
  - apply bundle_of_mono. intros s Hs. unfold kw. by rewrite Hs.
  - by apply bundle_of_mono.
  - intros s. rewrite elem_of_bundle_of. clear. split; [intros (H1 & H2 & _)|intros (H1 & H2)]; auto.
Qed.

Lemma rolesWithin_covered asked granted r b :
  r ∈ rolesWithin asked granted → Bundle r = Some b → b ⊆ granted.
Proof.
  unfold rolesWithin. intros [_ H]%elem_of_bfilter Hb. rewrite Hb in H.
  intros s Hs. rewrite forallb_forall' in H. by apply contains_true, H.
Qed.

(** What roles within a granted set grant is within it. *)
Lemma rolesWithin_scopes asked granted : ScopesForRoles (rolesWithin asked granted) ⊆ granted.
Proof.
  intros s (_ & r & b & Hr & Hb & Hs)%elem_of_ScopesForRoles.
  by apply (rolesWithin_covered asked granted r b).
Qed.

(** The scope sets are long literal lists: proofs use the lemmas above. *)
#[global] Opaque ScopesForRoles scopesNamed intersectScopes SessionScopesFor.
