(* ===== verification/Encodings.v ===== *)
(** * Hexadecimal, base64url and hashing

    What the credential code uses of Go's [encoding/hex], [encoding/base64]
    ([RawURLEncoding], not strict) and [crypto/sha256], and the helpers of
    [internal/auth/apikey.go], [session.go] and [internal/storage/auth.go] built
    on them.  SHA-256 is a parameter: nothing here depends on its values. *)

From S2P Require Import Prelude GoStrings.
From Stdlib Require Import ZifyNat.

(** ** Hexadecimal *)
Definition hex_digit (n : nat) : ascii := Ascii.ascii_of_nat (if n <? 10 then 48 + n else 87 + n).

(** [hex.EncodeToString] *)
Fixpoint EncodeHex (s : string) : string :=
  match s with
  | EmptyString => nostr
  | String c s' => String (hex_digit (code c / 16)) (String (hex_digit (code c mod 16)) (EncodeHex s'))
  end.

Definition lower_hex (c : ascii) : bool := is_digit c || in_range 97 102 c.

(** [isHex]: [n] bytes of lowercase hex. *)
Definition isHex (s : string) (n : nat) : bool := (String.length s =? 2 * n) && str_forall lower_hex s.

(** ** base64.RawURLEncoding *)
Definition b64_char (v : nat) : ascii :=
  Ascii.ascii_of_nat
    (if v <? 26 then 65 + v else if v <? 52 then 71 + v else if v <? 62 then v - 4 else if v =? 62 then 45 else 95).

Definition b64_val (c : ascii) : option nat :=
  let n := code c in
  if is_upper c then Some (n - 65)
  else if is_lower c then Some (n - 71)
  else if is_digit c then Some (n + 4)
  else if n =? 45 then Some 62
  else if n =? 95 then Some 63
  else None.

Definition str3 (a b c : nat) (s : string) : string := String (b64_char a) (String (b64_char b) (String (b64_char c) s)).

(** [EncodeToString]: four characters for three bytes, no padding. *)
Fixpoint EncodeBase64 (s : string) : string :=
  match s with
  | EmptyString => nostr
  | String x EmptyString => String (b64_char (code x / 4)) (String (b64_char (code x mod 4 * 16)) nostr)
  | String x (String y EmptyString) =>
      str3 (code x / 4) (code x mod 4 * 16 + code y / 16) (code y mod 16 * 4) nostr
  | String x (String y (String z s')) =>
      str3 (code x / 4) (code x mod 4 * 16 + code y / 16) (code y mod 16 * 4 + code z / 64)
        (String (b64_char (code z mod 64)) (EncodeBase64 s'))
  end.

(** The decoder skips carriage returns and line feeds and stops at a character
    outside the alphabet. *)
Fixpoint b64_values (s : string) : option (list nat) :=
  match s with
  | EmptyString => Some []
  | String c s' =>
      if (code c =? 10) || (code c =? 13) then b64_values s'
      else match b64_val c with
           | None => None
           | Some v => cons v <$> b64_values s'
           end
  end.

(** A quantum of one character is an error; unused low bits are dropped. *)
Fixpoint b64_bytes (l : list nat) : option string :=
  match l with
  | [] => Some nostr
  | [a; b] => Some (byte_str (a * 4 + b / 16))
  | [a; b; c] => Some (byte_str (a * 4 + b / 16) +:+ byte_str (b mod 16 * 16 + c / 4))
  | a :: b :: c :: d :: l' =>
      String.append (byte_str (a * 4 + b / 16) +:+ byte_str (b mod 16 * 16 + c / 4) +:+ byte_str (c mod 4 * 64 + d)) <$> b64_bytes l'
  | _ => None
  end.

(** [DecodeString] *)
Definition DecodeBase64 (s : string) : option string := b64_values s ≫= b64_bytes.

Definition secretBytes : nat := 32.

(** [wellFormedSecret]: 43 characters that decode to 32 bytes. *)
Definition wellFormedSecret (s : string) : bool :=
  (String.length s =? 43) &&
  match DecodeBase64 s with None => false | Some b => String.length b =? secretBytes end.

(** ** SHA-256 *)
Class GoCrypto : Type := { SHA256 : string → string }.

(** [HashSecret] of [session.go] and [TicketHash] of [internal/storage/auth.go] *)
Definition HashSecret `{GoCrypto} (secret : string) : string := EncodeHex (SHA256 secret).
Definition TicketHash `{GoCrypto} (secret : string) : string := EncodeHex (SHA256 secret).

Definition hashDomain : string := "ctxt-apikey-v1".

(** [apiKeyHash] of [apikey.go]: the domain, the id and the secret, a zero byte between. *)
Definition apiKeyHash `{GoCrypto} (id secret : string) : string :=
  EncodeHex (SHA256 (hashDomain +:+ byte_str 0 +:+ id +:+ byte_str 0 +:+ secret)).

(** ** Lemmas *)

#[local] Ltac Zify.zify_post_hook ::= Z.to_euclidean_division_equations.

Lemma code_bound c : code c < 256.
Proof. apply Ascii.nat_ascii_bounded. Qed.

Lemma length_EncodeHex s : String.length (EncodeHex s) = 2 * String.length s.
Proof. induction s as [|c s IH]; [done|]. cbn [EncodeHex String.length]. rewrite IH. lia. Qed.

Lemma below_forallb (f : nat → bool) n : forallb f (seq 0 n) = true → ∀ v, v < n → f v = true.
Proof. rewrite forallb_forall. intros H v Hv. apply H, in_seq. lia. Qed.

Lemma hex_digit_lower n : n < 16 → lower_hex (hex_digit n) = true.
Proof. revert n. refine (below_forallb _ 16 _). reflexivity. Qed.

Lemma EncodeHex_lower s : str_forall lower_hex (EncodeHex s) = true.
Proof.
  induction s as [|c s IH]; [done|]. pose proof (code_bound c). cbn [EncodeHex str_forall].
  rewrite !hex_digit_lower, IH; [done| |].
  - apply Nat.mod_upper_bound. lia.
  - apply Nat.Div0.div_lt_upper_bound. lia.
Qed.

(** What [hex.EncodeToString] writes, [isHex] accepts. *)
Lemma isHex_EncodeHex s : isHex (EncodeHex s) (String.length s) = true.
Proof. unfold isHex. rewrite length_EncodeHex, EncodeHex_lower, Nat.eqb_refl. done. Qed.

Lemma b64_val_char v : v < 64 → b64_val (b64_char v) = Some v.
Proof.
  intros Hv. assert (H : bool_decide (b64_val (b64_char v) = Some v) = true); [|by apply bool_decide_eq_true in H].
  revert v Hv. refine (below_forallb _ 64 _). vm_compute. reflexivity.
Qed.

Lemma b64_char_not_newline v : v < 64 → ((code (b64_char v) =? 10) || (code (b64_char v) =? 13)) = false.
Proof.
  intros Hv. apply negb_true_iff. revert v Hv. refine (below_forallb _ 64 _). vm_compute. reflexivity.
Qed.

Lemma b64_values_cons v s : v < 64 → b64_values (String (b64_char v) s) = cons v <$> b64_values s.
Proof. intros Hv. simpl. by rewrite b64_char_not_newline, b64_val_char. Qed.

Lemma byte_str_code c n : n = code c → byte_str n = String c nostr.
Proof. intros ->. unfold byte_str, code. by rewrite Ascii.ascii_nat_embedding. Qed.

(** Induction over a string three bytes at a time. *)
Lemma string_ind3 (P : string → Prop) :
  P nostr → (∀ x, P (String x nostr)) → (∀ x y, P (String x (String y nostr))) →
  (∀ x y z s, P s → P (String x (String y (String z s)))) → ∀ s, P s.
Proof.
  intros H0 H1 H2 H3. fix IH 1. intros [|x [|y [|z s]]]; [apply H0|apply H1|apply H2|apply H3, IH].
Qed.

Lemma EncodeBase64_values3 x y z s :
  b64_values (EncodeBase64 (String x (String y (String z s)))) =
  (λ l, code x / 4 :: code x mod 4 * 16 + code y / 16 :: code y mod 16 * 4 + code z / 64 :: code z mod 64 :: l)
    <$> b64_values (EncodeBase64 s).
Proof.
  pose proof (code_bound x). pose proof (code_bound y). pose proof (code_bound z).
  change (EncodeBase64 (String x (String y (String z s)))) with
    (str3 (code x / 4) (code x mod 4 * 16 + code y / 16) (code y mod 16 * 4 + code z / 64)
       (String (b64_char (code z mod 64)) (EncodeBase64 s))).
  unfold str3. rewrite !b64_values_cons by lia. by destruct (b64_values (EncodeBase64 s)).
Qed.

(** Decoding inverts encoding. *)
Lemma DecodeBase64_Encode s : DecodeBase64 (EncodeBase64 s) = Some s.
Proof.
  unfold DecodeBase64. induction s as [|x|x y|x y z s IH] using string_ind3.
  - done.
  - pose proof (code_bound x).
    change (EncodeBase64 _) with (String (b64_char (code x / 4)) (String (b64_char (code x mod 4 * 16)) nostr)).
    rewrite !b64_values_cons by lia. cbn [b64_values fmap option_fmap option_map mbind option_bind b64_bytes].
    rewrite (byte_str_code x); [done|lia].
  - pose proof (code_bound x). pose proof (code_bound y).
    change (EncodeBase64 _) with (str3 (code x / 4) (code x mod 4 * 16 + code y / 16) (code y mod 16 * 4) nostr).
    unfold str3. rewrite !b64_values_cons by lia. cbn [b64_values fmap option_fmap option_map mbind option_bind b64_bytes].
    rewrite (byte_str_code x), (byte_str_code y); [done|lia|lia].
  - rewrite EncodeBase64_values3. destruct (b64_values (EncodeBase64 s)) as [l|]; [|discriminate].
    pose proof (code_bound x). pose proof (code_bound y). pose proof (code_bound z).
    cbn [fmap option_fmap option_map mbind option_bind b64_bytes] in *. rewrite IH.
    rewrite (byte_str_code x), (byte_str_code y), (byte_str_code z); [done|lia..].
Qed.

Lemma length_EncodeBase64_3 x y z s :
  String.length (EncodeBase64 (String x (String y (String z s)))) = 4 + String.length (EncodeBase64 s).
Proof. done. Qed.

(** A minted secret, 32 random bytes, is well formed. *)
Lemma wellFormedSecret_Encode b : String.length b = secretBytes → wellFormedSecret (EncodeBase64 b) = true.
Proof.
  intros Hb. unfold wellFormedSecret. rewrite DecodeBase64_Encode, Hb, Nat.eqb_refl, andb_true_r.
  unfold secretBytes in Hb. do 32 (destruct b as [|? b]; [discriminate|]). destruct b; [|discriminate]. done.
Qed.

(** ** Printable text

    Hexadecimal and base64url are printable_ascii ASCII, which trimming leaves alone. *)
Definition printable_ascii (c : ascii) : bool := in_range 33 126 c.

Lemma str_forall_rev p s : str_forall p (String.rev s) = str_forall p s.
Proof.
  induction s as [|c s IH]; [done|]. rewrite str_rev_cons, str_forall_app, IH. simpl. rewrite andb_true_r. apply andb_comm.
Qed.

Definition unprintable_head (e : string) : bool := match e with EmptyString => false | String c _ => negb (printable_ascii c) end.

Lemma strip_one_printable encs s :
  forallb unprintable_head encs = true → str_forall printable_ascii s = true → strip_one encs s = None.
Proof.
  rewrite forallb_forall'. intros He Hs. apply strip_one_none. intros e Hin. apply He in Hin.
  apply not_true_iff_false. intros [t ->]%HasPrefix_spec. destruct e as [|c e]; [done|].
  rewrite str_app_cons in Hs. cbn in Hin, Hs. destruct (printable_ascii c); done.
Qed.

Lemma TrimSpace_printable s : str_forall printable_ascii s = true → TrimSpace s = s.
Proof.
  intros Hs. unfold TrimSpace, TrimLeftSpace, TrimRightSpace.
  rewrite (strip_all_id space_encodings) by (by apply strip_one_printable).
  rewrite strip_all_id; [apply str_rev_involutive|]. apply strip_one_printable; [done|]. by rewrite str_forall_rev.
Qed.

Lemma b64_char_printable v : v < 64 → printable_ascii (b64_char v) = true.
Proof. revert v. refine (below_forallb _ 64 _). vm_compute. reflexivity. Qed.

Lemma EncodeBase64_printable s : str_forall printable_ascii (EncodeBase64 s) = true.
Proof.
  induction s as [|x|x y|x y z s IH] using string_ind3; [done|..].
  - pose proof (code_bound x).
    change (EncodeBase64 (String x nostr)) with (String (b64_char (code x / 4)) (String (b64_char (code x mod 4 * 16)) nostr)).
    cbn [str_forall]. rewrite !b64_char_printable by lia. done.
  - pose proof (code_bound x). pose proof (code_bound y).
    change (EncodeBase64 (String x (String y nostr))) with
      (str3 (code x / 4) (code x mod 4 * 16 + code y / 16) (code y mod 16 * 4) nostr).
    unfold str3. cbn [str_forall]. rewrite !b64_char_printable by lia. done.
  - pose proof (code_bound x). pose proof (code_bound y). pose proof (code_bound z).
    change (EncodeBase64 (String x (String y (String z s)))) with
      (str3 (code x / 4) (code x mod 4 * 16 + code y / 16) (code y mod 16 * 4 + code z / 64)
         (String (b64_char (code z mod 64)) (EncodeBase64 s))).
    unfold str3. cbn [str_forall]. rewrite !b64_char_printable, IH by lia. done.
Qed.

Lemma lower_hex_printable c : lower_hex c = true → printable_ascii c = true.
Proof.
  unfold lower_hex, is_digit, printable_ascii, in_range. rewrite orb_true_iff, !andb_true_iff, !Nat.leb_le. lia.
Qed.

Lemma EncodeHex_printable s : str_forall printable_ascii (EncodeHex s) = true.
Proof. eapply str_forall_impl; [|apply EncodeHex_lower]. apply lower_hex_printable. Qed.

Lemma lower_hex_lacks c s : lower_hex c = false → str_forall lower_hex s = true → lacks c s = true.
Proof. apply str_forall_lacks. Qed.
