(* ===== verification/AuthRegistry.v ===== *)
(** * The principal registry

    Models [internal/storage/auth.go], [ui_sessions.go] and their SQLite stores
    ([internal/storage/sqlite/auth.go], [ui_sessions.go]): principals,
    identities, tickets, the key-value table, browser sessions and login codes
    (migrations 041, 048 and 049).  A table is a map from its primary key to its
    row; each statement or transaction is one step on the database.  Instants
    are nanoseconds since the epoch, the columns hold Unix milliseconds; a role
    column's JSON array is its list.  Randomness and [time.Now()] are arguments. *)

From S2P Require Import Prelude GoStrings JobStore Resolver Encodings AuthScopes.

Definition PrincipalKindPerson : string := "person".
Definition PrincipalKindDevice : string := "device".
Definition PrincipalKindPeer : string := "peer".
Definition PrincipalKinds : list string :=
  [PrincipalKindOwner; PrincipalKindPerson; PrincipalKindDevice; PrincipalKindPeer].

Definition PrincipalActive : string := "active".
Definition PrincipalSuspended : string := "suspended".
Definition PrincipalRevoked : string := "revoked".
Definition PrincipalStatuses : list string := [PrincipalActive; PrincipalSuspended; PrincipalRevoked].

Definition DefaultPrincipalRoles : list string := ["reader"%string].

Definition IdentityMethodAPIKey : string := "api_key".
Definition IdentityMethodLink : string := "link".
Definition IdentityMethods : list string :=
  [IdentityMethodAPIKey; "passkey"; "proxy"; "oidc"; "mtls"; IdentityMethodLink]%string.

Definition Minute : Z := 60 * Second.
Definition IdentityTouchEvery : Z := Minute.

Definition TicketKindInvite : string := "invite".
Definition TicketKindMagicLink : string := "magic_link".
Definition TicketKinds : list string := [TicketKindInvite; TicketKindMagicLink].

Definition RevokeReasonIdentityRevoked : string := "identity revoked".
Definition RevokeReasonPrincipalRevoked : string := "principal revoked".

(** [time.Time{}]: the first instant of year 1. *)
Definition ZeroTime : Z := -62135596800000000000.
Definition IsZero (t : Z) : bool := (t =? ZeroTime)%Z.

Definition toMillis (t : Z) : Z := UnixMilli t.
Definition fromMillis (ms : Z) : Z := (ms * 1000000)%Z.

(** ** Rows

    Each record is both the struct, its instants in nanoseconds, and its row,
    its instants in milliseconds; [scan...] reads the row as the struct. *)
Record StoredPrincipal : Type := mkSP {
  spID : string;
  spKind : string;
  spDisplayName : string;
  spRoles : list string;
  spStatus : string;
  spCreatedAt : Z;
  spRevokedAt : option Z;
}.

Record Identity : Type := mkIdentity {
  idnID : string;
  idnPrincipalID : string;
  idnMethod : string;
  idnIssuer : string;
  idnSubject : string;
  idnName : string;
  idnCreatedAt : Z;
  idnRevokedAt : option Z;
  idnLastUsedAt : option Z;
}.

Record Ticket : Type := mkTicket {
  tkKind : string;
  tkPrincipalID : string;
  tkPayload : string;
  tkCreatedBy : string;
  tkCreatedAt : Z;
  tkExpiresAt : Z;
  tkRedeemedAt : option Z;
}.

Record TicketIssue : Type := mkTicketIssue {
  tiKind : string;
  tiPayload : string;
  tiTTL : Z;
  tiCreatedBy : string;
  tiPrincipalID : string;
  tiNow : Z;
}.

Record UISession : Type := mkUISession {
  usID : string;
  usSecretHash : string;
  usPrincipalID : string;
  usIdentityID : string;
  usScope : string;
  usUserAgent : string;
  usRemoteAddr : string;
  usCreatedAt : Z;
  usLastSeenAt : Z;
  usIdleExpiresAt : Z;
  usExpiresAt : Z;
  usRevokedAt : option Z;
  usRevokeReason : string;
}.

Record UILoginCode : Type := mkLoginCode {
  lcCodeHash : string;
  lcPrincipalID : string;
  lcIdentityID : string;
  lcScope : string;
  lcCreatedAt : Z;
  lcExpiresAt : Z;
}.

Definition sp_times (f : Z → Z) (p : StoredPrincipal) : StoredPrincipal :=
  mkSP (spID p) (spKind p) (spDisplayName p) (spRoles p) (spStatus p) (f (spCreatedAt p)) (f <$> spRevokedAt p).
Definition idn_times (f : Z → Z) (i : Identity) : Identity :=
  mkIdentity (idnID i) (idnPrincipalID i) (idnMethod i) (idnIssuer i) (idnSubject i) (idnName i)
    (f (idnCreatedAt i)) (f <$> idnRevokedAt i) (f <$> idnLastUsedAt i).
Definition tk_times (f : Z → Z) (t : Ticket) : Ticket :=
  mkTicket (tkKind t) (tkPrincipalID t) (tkPayload t) (tkCreatedBy t) (f (tkCreatedAt t)) (f (tkExpiresAt t))
    (f <$> tkRedeemedAt t).
Definition us_times (f : Z → Z) (u : UISession) : UISession :=
  mkUISession (usID u) (usSecretHash u) (usPrincipalID u) (usIdentityID u) (usScope u) (usUserAgent u) (usRemoteAddr u)
    (f (usCreatedAt u)) (f (usLastSeenAt u)) (f (usIdleExpiresAt u)) (f (usExpiresAt u)) (f <$> usRevokedAt u)
    (usRevokeReason u).
Definition lc_times (f : Z → Z) (c : UILoginCode) : UILoginCode :=
  mkLoginCode (lcCodeHash c) (lcPrincipalID c) (lcIdentityID c) (lcScope c) (f (lcCreatedAt c)) (f (lcExpiresAt c)).

Definition scanPrincipal : StoredPrincipal → StoredPrincipal := sp_times fromMillis.
Definition scanIdentity : Identity → Identity := idn_times fromMillis.
Definition scanTicket : Ticket → Ticket := tk_times fromMillis.
Definition scanUISession : UISession → UISession := us_times fromMillis.

Definition principal_Active (p : StoredPrincipal) : bool := str_eqb (spStatus p) PrincipalActive.
Definition identity_Active (i : Identity) : bool := match idnRevokedAt i with None => true | Some _ => false end.

Definition session_Active (s : UISession) (now : Z) : bool :=
  match usRevokedAt s with None => true | Some _ => false end && (now <? usIdleExpiresAt s)%Z && (now <? usExpiresAt s)%Z.

(** ** The database *)
Record AuthDB : Type := mkDB {
  dbPrincipals : gmap string StoredPrincipal;
  dbIdentities : gmap string Identity;
  dbTickets : gmap string Ticket;
  dbKV : gmap string string;
  dbSessions : gmap string UISession;
  dbCodes : gmap string UILoginCode;
}.

Definition set_principals (m : gmap string StoredPrincipal) (d : AuthDB) : AuthDB :=
  mkDB m (dbIdentities d) (dbTickets d) (dbKV d) (dbSessions d) (dbCodes d).
Definition set_identities (m : gmap string Identity) (d : AuthDB) : AuthDB :=
  mkDB (dbPrincipals d) m (dbTickets d) (dbKV d) (dbSessions d) (dbCodes d).
Definition set_tickets (m : gmap string Ticket) (d : AuthDB) : AuthDB :=
  mkDB (dbPrincipals d) (dbIdentities d) m (dbKV d) (dbSessions d) (dbCodes d).
Definition set_kv (m : gmap string string) (d : AuthDB) : AuthDB :=
  mkDB (dbPrincipals d) (dbIdentities d) (dbTickets d) m (dbSessions d) (dbCodes d).
Definition set_sessions (m : gmap string UISession) (d : AuthDB) : AuthDB :=
  mkDB (dbPrincipals d) (dbIdentities d) (dbTickets d) (dbKV d) m (dbCodes d).
Definition set_codes (m : gmap string UILoginCode) (d : AuthDB) : AuthDB :=
  mkDB (dbPrincipals d) (dbIdentities d) (dbTickets d) (dbKV d) (dbSessions d) m.

(** The refusals of a credential, and the other errors of the registry and of
    package [auth].  [InvalidCredential] is every error that wraps
    [ErrInvalidCredential]. *)
Inductive Refusal : Type :=
| NotAnAPIKey | UnknownAPIKey | KeyRevoked | KeyExpired
| KeyNoIdentity | KeyIdentityRevoked | KeyOtherPrincipal | KeyNoPrincipal
| PrincipalNotActive | ConfigKeyExpired | ConfigKeyNoPrincipal
| NoIdentity | SessionCannotMint | UnknownCode | CodeHashMismatch
| IdentityGone | IdentityRevoked | PrincipalGone
| UnknownSession | MalformedCookie | InvalidTicket.

Inductive AuthError : Type :=
| ErrNotFound
| ErrAlreadyExists
| ErrPrincipalInactive
| ErrOwnerProtected
| ErrNoCredential
| ErrAPIKeyNotFound (id : string)
| InvalidCredential (why : Refusal)
| AuthInvalid (what : string)
| AuthStorage (what : string).

(** [errors.Is(err, ErrInvalidCredential)] *)
Definition is_invalid (e : AuthError) : bool := match e with InvalidCredential _ => true | _ => false end.

(** ** The monad: a step on the database that returns a value or an error *)
Definition auth (A : Type) : Type := AuthDB → result AuthError A * AuthDB.

#[export] Instance auth_ret : MRet auth := λ A a d, (Ok a, d).
#[export] Instance auth_bind : MBind auth := λ A B f m d,
  match m d with
  | (Ok a, d') => f a d'
  | (Err e, d') => (Err e, d')
  end.

Definition throw {A} (e : AuthError) : auth A := λ d, (Err e, d).
Definition gets {A} (f : AuthDB → A) : auth A := λ d, (Ok (f d), d).
Definition modify (f : AuthDB → AuthDB) : auth unit := λ d, (Ok tt, f d).
(** [if err != nil { return handle(err) }] *)
Definition handle {A} (m : auth A) (h : AuthError → auth A) : auth A := λ d,
  match m d with
  | (Ok a, d') => (Ok a, d')
  | (Err e, d') => h e d'
  end.
Definition of_option {A} (o : option A) (e : AuthError) : auth A :=
  match o with Some a => mret a | None => throw e end.
Definition check (b : bool) (e : AuthError) : auth unit := if b then mret tt else throw e.

(** A row by a column that is not the primary key. *)
Definition map_find {A} (P : A → bool) (m : gmap string A) : option A := List.find P (map snd (map_to_list m)).

(** ** Principals *)

Definition role_char_bad (c : ascii) : bool :=
  contains [" "; Ascii.ascii_of_nat 9; Ascii.ascii_of_nat 13; Ascii.ascii_of_nat 10; dquote]%char c.
(** [r == nostr || strings.ContainsAny(r, ...)] *)
Definition role_bad (r : string) : bool := str_eqb r nostr || negb (str_forall (λ c, negb (role_char_bad c)) r).

(** [PrepareNewPrincipal]; [newID] is what [NewPrincipalID] returns. *)
Definition PrepareNewPrincipal (p : StoredPrincipal) (now : Z) (newID : string) : result AuthError StoredPrincipal :=
  if str_eqb (spKind p) PrincipalKindOwner then Err ErrOwnerProtected
  else if negb (contains PrincipalKinds (spKind p)) then Err (AuthInvalid "principal: unknown kind")
  else
    let id := if str_eqb (spID p) nostr then newID else spID p in
    if str_eqb id OwnerPrincipal then Err ErrOwnerProtected
    else if str_eqb (TrimSpace (spDisplayName p)) nostr then Err (AuthInvalid "principal: display name is required")
    else
      let roles := match spRoles p with [] => DefaultPrincipalRoles | r => r end in
      if existsb role_bad roles then Err (AuthInvalid "principal: role")
      else
        let status := if str_eqb (spStatus p) nostr then PrincipalActive else spStatus p in
        if negb (contains PrincipalStatuses status) then Err (AuthInvalid "principal: unknown status")
        else
          Ok (mkSP id (spKind p) (spDisplayName p) roles status
                (if IsZero (spCreatedAt p) then now else spCreatedAt p) (spRevokedAt p)).

(** [Create] fills the caller's struct in: it is returned. *)
Definition principal_Create (now : Z) (newID : string) (p : StoredPrincipal) : auth StoredPrincipal := λ d,
  match PrepareNewPrincipal p now newID with
  | Err e => (Err e, d)
  | Ok p =>
      match dbPrincipals d !! spID p with
      | Some _ => (Err ErrAlreadyExists, d)
      | None => (Ok p, set_principals (<[spID p := sp_times toMillis p]> (dbPrincipals d)) d)
      end
  end.

Definition principal_Get (id : string) : auth StoredPrincipal := λ d,
  match dbPrincipals d !! id with
  | Some p => (Ok (scanPrincipal p), d)
  | None => (Err ErrNotFound, d)
  end.

(** [ORDER BY created_at, id]; [LIMIT -1] is no limit. *)
Definition principal_le (p q : StoredPrincipal) : Prop :=
  (spCreatedAt p < spCreatedAt q)%Z ∨ (spCreatedAt p = spCreatedAt q ∧ String.le (spID p) (spID q)).
#[export] Instance principal_le_dec p q : Decision (principal_le p q).
Proof. unfold principal_le. apply _. Defined.

Definition limited {A} (limit : Z) (l : list A) : list A := if (0 <? limit)%Z then take (Z.to_nat limit) l else l.

Definition principal_List (kind status : string) (limit : Z) : auth (list StoredPrincipal) :=
  gets (λ d, map scanPrincipal (limited limit (merge_sort principal_le
    (List.filter (λ p, (str_eqb kind nostr || str_eqb (spKind p) kind) && (str_eqb status nostr || str_eqb (spStatus p) status))
      (map snd (map_to_list (dbPrincipals d))))))).

Definition guard_principal (id : string) : auth StoredPrincipal :=
  p ← principal_Get id;
  if str_eqb (spKind p) PrincipalKindOwner then throw ErrOwnerProtected else mret p.

Definition set_status (status : string) (revoked : option Z) (p : StoredPrincipal) : StoredPrincipal :=
  mkSP (spID p) (spKind p) (spDisplayName p) (spRoles p) status (spCreatedAt p) revoked.

(** [UPDATE t SET .. WHERE id = ? AND cond] *)
Definition update_row {A} (id : string) (cond : A → bool) (f : A → A) (m : gmap string A) : gmap string A :=
  alter (λ r, if cond r then f r else r) id m.

Definition principal_Suspend (id : string) : auth unit :=
  p ← guard_principal id;
  if str_eqb (spStatus p) PrincipalSuspended then mret tt
  else if str_eqb (spStatus p) PrincipalRevoked then throw ErrPrincipalInactive
  else
    modify (λ d, set_principals (update_row id (λ r, str_eqb (spStatus r) PrincipalActive)
                                   (λ r, set_status PrincipalSuspended (spRevokedAt r) r) (dbPrincipals d)) d).

Definition revoke_identity_row (ms : Z) (i : Identity) : Identity :=
  mkIdentity (idnID i) (idnPrincipalID i) (idnMethod i) (idnIssuer i) (idnSubject i) (idnName i)
    (idnCreatedAt i) (Some ms) (idnLastUsedAt i).
Definition touch_identity_row (ms : Z) (i : Identity) : Identity :=
  mkIdentity (idnID i) (idnPrincipalID i) (idnMethod i) (idnIssuer i) (idnSubject i) (idnName i)
    (idnCreatedAt i) (idnRevokedAt i) (Some ms).
Definition session_live (s : UISession) : bool := match usRevokedAt s with None => true | Some _ => false end.
Definition revoke_session_row (ms : Z) (reason : string) (s : UISession) : UISession :=
  mkUISession (usID s) (usSecretHash s) (usPrincipalID s) (usIdentityID s) (usScope s) (usUserAgent s) (usRemoteAddr s)
    (usCreatedAt s) (usLastSeenAt s) (usIdleExpiresAt s) (usExpiresAt s) (Some ms) reason.

(** [UPDATE t SET .. WHERE cond] and [DELETE FROM t WHERE cond] *)
Definition update_where {A} (cond : A → bool) (f : A → A) (m : gmap string A) : gmap string A :=
  (λ r, if cond r then f r else r) <$> m.
Definition delete_where {A} (cond : A → bool) (m : gmap string A) : gmap string A :=
  filter (λ kv, cond kv.2 = false) m.

(** The four statements of the transaction. *)
Definition cascade_principal (id : string) (ms : Z) (d : AuthDB) : AuthDB :=
  mkDB
    (update_row id (λ p, negb (str_eqb (spStatus p) PrincipalRevoked)) (set_status PrincipalRevoked (Some ms)) (dbPrincipals d))
    (update_where (λ i, str_eqb (idnPrincipalID i) id && identity_Active i) (revoke_identity_row ms) (dbIdentities d))
    (dbTickets d) (dbKV d)
    (update_where (λ s, str_eqb (usPrincipalID s) id && session_live s)
       (revoke_session_row ms RevokeReasonPrincipalRevoked) (dbSessions d))
    (delete_where (λ c, str_eqb (lcPrincipalID c) id) (dbCodes d)).

Definition principal_Revoke (id : string) (at_ : Z) : auth unit :=
  p ← guard_principal id;
  if str_eqb (spStatus p) PrincipalRevoked then mret tt else modify (cascade_principal id (toMillis at_)).

(** ** Identities *)

Definition PrepareNewIdentity (i : Identity) (now : Z) (newID : string) : result AuthError Identity :=
  if str_eqb (idnPrincipalID i) nostr then Err (AuthInvalid "identity: principal id is required")
  else if negb (contains IdentityMethods (idnMethod i)) then Err (AuthInvalid "identity: unknown method")
  else if str_eqb (idnSubject i) nostr then Err (AuthInvalid "identity: subject is required")
  else
    Ok (mkIdentity (if str_eqb (idnID i) nostr then newID else idnID i) (idnPrincipalID i) (idnMethod i) (idnIssuer i)
          (idnSubject i) (idnName i) (if IsZero (idnCreatedAt i) then now else idnCreatedAt i)
          (idnRevokedAt i) (idnLastUsedAt i)).

(** The columns of [UNIQUE (method, issuer, subject)]. *)
Definition same_triple (method issuer subject : string) (i : Identity) : bool :=
  str_eqb (idnMethod i) method && str_eqb (idnIssuer i) issuer && str_eqb (idnSubject i) subject.

(** The unique indexes are checked as the row is inserted, the foreign key at
    the end of the statement. *)
Definition identity_Create (now : Z) (newID : string) (i : Identity) : auth Identity := λ d,
  match PrepareNewIdentity i now newID with
  | Err e => (Err e, d)
  | Ok i =>
      match dbIdentities d !! idnID i, map_find (same_triple (idnMethod i) (idnIssuer i) (idnSubject i)) (dbIdentities d) with
      | None, None =>
          match dbPrincipals d !! idnPrincipalID i with
          | None => (Err ErrNotFound, d)
          | Some _ => (Ok i, set_identities (<[idnID i := idn_times toMillis i]> (dbIdentities d)) d)
          end
      | _, _ => (Err ErrAlreadyExists, d)
      end
  end.

Definition identity_Get (id : string) : auth Identity := λ d,
  match dbIdentities d !! id with
  | Some i => (Ok (scanIdentity i), d)
  | None => (Err ErrNotFound, d)
  end.

Definition identity_Find (method issuer subject : string) : auth Identity := λ d,
  match map_find (same_triple method issuer subject) (dbIdentities d) with
  | Some i => (Ok (scanIdentity i), d)
  | None => (Err ErrNotFound, d)
  end.

Definition identity_le (i j : Identity) : Prop :=
  (idnCreatedAt i < idnCreatedAt j)%Z ∨ (idnCreatedAt i = idnCreatedAt j ∧ String.le (idnID i) (idnID j)).
#[export] Instance identity_le_dec i j : Decision (identity_le i j).
Proof. unfold identity_le. apply _. Defined.

Definition identity_ListByPrincipal (principalID : string) : auth (list Identity) :=
  gets (λ d, map scanIdentity (merge_sort identity_le
    (List.filter (λ i, str_eqb (idnPrincipalID i) principalID) (map snd (map_to_list (dbIdentities d)))))).

Definition identity_exists (id : string) : auth unit := λ d,
  (match dbIdentities d !! id with Some _ => Ok tt | None => Err ErrNotFound end, d).

Definition cascade_identity (id : string) (ms : Z) (d : AuthDB) : AuthDB :=
  mkDB (dbPrincipals d)
    (update_row id identity_Active (revoke_identity_row ms) (dbIdentities d))
    (dbTickets d) (dbKV d)
    (update_where (λ s, str_eqb (usIdentityID s) id && session_live s)
       (revoke_session_row ms RevokeReasonIdentityRevoked) (dbSessions d))
    (delete_where (λ c, str_eqb (lcIdentityID c) id) (dbCodes d)).

(** [RowsAffected]: whether the conditional update found its row. *)
Definition row_hit {A} (id : string) (cond : A → bool) (m : gmap string A) : bool :=
  match m !! id with Some r => cond r | None => false end.

Definition identity_Revoke (id : string) (at_ : Z) : auth unit := λ d,
  if row_hit id identity_Active (dbIdentities d) then modify (cascade_identity id (toMillis at_)) d
  else identity_exists id d.

Definition touchable (at_ : Z) (i : Identity) : bool :=
  identity_Active i &&
  match idnLastUsedAt i with None => true | Some t => (t <=? toMillis (at_ - IdentityTouchEvery))%Z end.

Definition identity_Touch (id : string) (at_ : Z) : auth unit := λ d,
  if row_hit id (touchable at_) (dbIdentities d)
  then modify (λ d, set_identities (update_row id (touchable at_) (touch_identity_row (toMillis at_)) (dbIdentities d)) d) d
  else identity_exists id d.

(** ** Tickets *)
Section tickets.
Context `{GoCrypto}.

(** [PrepareTicketIssue]; [now] is [time.Now()]. *)
Definition PrepareTicketIssue (t : TicketIssue) (now : Z) : result AuthError TicketIssue :=
  if negb (contains TicketKinds (tiKind t)) then Err (AuthInvalid "ticket: unknown kind")
  else if (tiTTL t <=? 0)%Z then Err (AuthInvalid "ticket: ttl must be positive")
  else if str_eqb (tiCreatedBy t) nostr then Err (AuthInvalid "ticket: created_by is required")
  else
    Ok (mkTicketIssue (tiKind t) (if str_eqb (tiPayload t) nostr then "{}" else tiPayload t) (tiTTL t) (tiCreatedBy t)
          (tiPrincipalID t) (if IsZero (tiNow t) then now else tiNow t)).

(** [secret] is what [NewTicketSecret] returns.  The primary key is checked as
    the row is inserted, the two foreign keys at the end of the statement. *)
Definition ticket_Issue (now : Z) (secret : string) (t : TicketIssue) : auth string := λ d,
  match PrepareTicketIssue t now with
  | Err e => (Err e, d)
  | Ok t =>
      let row := mkTicket (tiKind t) (tiPrincipalID t) (tiPayload t) (tiCreatedBy t)
                   (toMillis (tiNow t)) (toMillis (tiNow t + tiTTL t)) None in
      match dbTickets d !! TicketHash secret with
      | Some _ => (Err ErrAlreadyExists, d)
      | None =>
          if (str_eqb (tiPrincipalID t) nostr || bool_decide (is_Some (dbPrincipals d !! tiPrincipalID t)))
             && bool_decide (is_Some (dbPrincipals d !! tiCreatedBy t))
          then (Ok secret, set_tickets (<[TicketHash secret := row]> (dbTickets d)) d)
          else (Err ErrNotFound, d)
      end
  end.

Definition principal_status (d : AuthDB) (id : string) : option string := spStatus <$> dbPrincipals d !! id.

(** [kind = ? AND redeemed_at IS NULL AND expires_at > ?] *)
Definition ticket_open (kind : string) (n : Z) (t : Ticket) : bool :=
  str_eqb (tkKind t) kind && match tkRedeemedAt t with None => true | Some _ => false end && (n <? tkExpiresAt t)%Z.

(** [principal_id IS NULL OR EXISTS (..)]: an empty id is the column's NULL. *)
Definition ticket_principal_ok (d : AuthDB) (t : Ticket) : bool :=
  str_eqb (tkPrincipalID t) nostr || bool_decide (principal_status d (tkPrincipalID t) = Some PrincipalActive).

Definition redeemed (n : Z) (t : Ticket) : Ticket :=
  mkTicket (tkKind t) (tkPrincipalID t) (tkPayload t) (tkCreatedBy t) (tkCreatedAt t) (tkExpiresAt t) (Some n).

Definition ticket_Redeem (kind secret : string) (now : Z) : auth Ticket := λ d,
  let n := toMillis now in
  match dbTickets d !! TicketHash secret with
  | Some t =>
      if ticket_open kind n t then
        if ticket_principal_ok d t
        then (Ok (scanTicket (redeemed n t)), set_tickets (<[TicketHash secret := redeemed n t]> (dbTickets d)) d)
        else
          (* the LEFT JOIN: a ticket whose principal has a status that is not active *)
          match principal_status d (tkPrincipalID t) with
          | Some _ => (Err ErrPrincipalInactive, d)
          | None => (Err ErrNotFound, d)
          end
      else (Err ErrNotFound, d)
  | None => (Err ErrNotFound, d)
  end.
End tickets.

(** ** The key-value table *)
Definition kv_Put (key value : string) : auth unit := modify (λ d, set_kv (<[key := value]> (dbKV d)) d).
Definition kv_Get (key : string) : auth (option string) := gets (λ d, dbKV d !! key).
Definition kv_Delete (key : string) : auth unit := modify (λ d, set_kv (delete key (dbKV d)) d).

(** [key LIKE prefix% ESCAPE '\']: SQLite's LIKE folds the case of ASCII letters. *)
Definition like_prefix (prefix key : string) : bool := HasPrefix (str_map lower_ascii key) (str_map lower_ascii prefix).

Definition kv_List (prefix : string) : auth (list string) :=
  gets (λ d, SortStrings (List.filter (like_prefix prefix) (map fst (map_to_list (dbKV d))))).

(** ** Browser sessions and login codes *)

(** The primary key, then the foreign key. *)
Definition session_CreateLoginCode (c : UILoginCode) : auth unit := λ d,
  match dbCodes d !! lcCodeHash c, dbIdentities d !! lcIdentityID c with
  | None, Some _ => (Ok tt, set_codes (<[lcCodeHash c := lc_times toMillis c]> (dbCodes d)) d)
  | _, _ => (Err (AuthStorage "ui login code create"), d)
  end.

(** [DELETE ... RETURNING]: the code is gone whether it had expired or not. *)
Definition session_ConsumeLoginCode (codeHash : string) (now : Z) : auth UILoginCode := λ d,
  match dbCodes d !! codeHash with
  | None => (Err ErrNotFound, d)
  | Some r =>
      let c := lc_times fromMillis r in
      let c := mkLoginCode codeHash (lcPrincipalID c) (lcIdentityID c) (lcScope c) (lcCreatedAt c) (lcExpiresAt c) in
      let d' := set_codes (delete codeHash (dbCodes d)) d in
      if (now <? lcExpiresAt c)%Z then (Ok c, d') else (Err ErrNotFound, d')
  end.

Definition session_Create (u : UISession) : auth unit := λ d,
  match dbSessions d !! usID u, map_find (λ s, str_eqb (usSecretHash s) (usSecretHash u)) (dbSessions d),
        dbIdentities d !! usIdentityID u with
  | None, None, Some _ => (Ok tt, set_sessions (<[usID u := us_times toMillis u]> (dbSessions d)) d)
  | _, _, _ => (Err (AuthStorage "ui session create"), d)
  end.

(** [revoked_at IS NULL AND idle_expires_at > ? AND expires_at > ?] *)
Definition row_active (n : Z) (s : UISession) : bool :=
  session_live s && (n <? usIdleExpiresAt s)%Z && (n <? usExpiresAt s)%Z.

Definition session_Lookup (secretHash : string) (now : Z) : auth UISession := λ d,
  match map_find (λ s, str_eqb (usSecretHash s) secretHash && row_active (toMillis now) s) (dbSessions d) with
  | Some s => (Ok (scanUISession s), d)
  | None => (Err ErrNotFound, d)
  end.

Definition session_Get (id : string) : auth UISession := λ d,
  match dbSessions d !! id with
  | Some s => (Ok (scanUISession s), d)
  | None => (Err ErrNotFound, d)
  end.

Definition session_exists (id : string) : auth unit := λ d,
  (match dbSessions d !! id with Some _ => Ok tt | None => Err ErrNotFound end, d).

(** [SET last_seen_at = ?, idle_expires_at = MIN(?, expires_at)] *)
Definition touch_session_row (at_ idleUntil : Z) (s : UISession) : UISession :=
  mkUISession (usID s) (usSecretHash s) (usPrincipalID s) (usIdentityID s) (usScope s) (usUserAgent s) (usRemoteAddr s)
    (usCreatedAt s) at_ (Z.min idleUntil (usExpiresAt s)) (usExpiresAt s) (usRevokedAt s) (usRevokeReason s).

Definition session_Touch (id : string) (at_ idleUntil : Z) : auth unit := λ d,
  if row_hit id session_live (dbSessions d)
  then modify (λ d, set_sessions (update_row id session_live (touch_session_row (toMillis at_) (toMillis idleUntil)) (dbSessions d)) d) d
  else session_exists id d.

Definition session_Revoke (id : string) (at_ : Z) (reason : string) : auth unit := λ d,
  if row_hit id session_live (dbSessions d)
  then modify (λ d, set_sessions (update_row id session_live (revoke_session_row (toMillis at_) reason) (dbSessions d)) d) d
  else session_exists id d.

(** [ORDER BY created_at DESC, id DESC] *)
Definition session_le (s t : UISession) : Prop :=
  (usCreatedAt t < usCreatedAt s)%Z ∨ (usCreatedAt s = usCreatedAt t ∧ String.le (usID t) (usID s)).
#[export] Instance session_le_dec s t : Decision (session_le s t).
Proof. unfold session_le. apply _. Defined.

Definition session_List (activeOnly : bool) (now : Z) (principalID : string) (limit : Z) : auth (list UISession) :=
  gets (λ d, map scanUISession (limited limit (merge_sort session_le
    (List.filter (λ s, (negb activeOnly || row_active (toMillis now) s) &&
                       (str_eqb principalID nostr || str_eqb (usPrincipalID s) principalID))
      (map snd (map_to_list (dbSessions d))))))).

Definition prunable (b : Z) (s : UISession) : bool :=
  match usRevokedAt s with Some t => (t <? b)%Z | None => false end
  || (usIdleExpiresAt s <? b)%Z || (usExpiresAt s <? b)%Z.

Definition session_Prune (before : Z) : auth nat := λ d,
  let b := toMillis before in
  let kept := delete_where (prunable b) (dbSessions d) in
  (Ok (size (dbSessions d) - size kept),
   set_codes (delete_where (λ c, (lcExpiresAt c <? b)%Z) (dbCodes d)) (set_sessions kept d)).
