(* ===== verification/AuthInvariants.v ===== *)
(** * Invariants of the principal registry

    What every statement of the registry's stores keeps, whatever its arguments
    and in whatever order statements run: rows are keyed by their ids, unique
    columns are unique, foreign keys hold, and the registry only moves forward:
    no principal or identity is deleted, changes its roles or its owner, or comes
    back from a revocation, and no redeemed ticket opens again. *)

From S2P Require Import Prelude GoStrings JobStore Resolver Encodings AuthScopes AuthRegistry.

(** ** Rows by another column *)
Section map_find.
Context {A : Type} (P : A → bool) (m : gmap string A).

Lemma map_find_some x : map_find P m = Some x → ∃ k, m !! k = Some x ∧ P x = true.
Proof.
  unfold map_find. intros [Hin HP]%find_some. apply in_map_iff in Hin as ([k y] & <- & Hin).
  exists k. split; [|done]. by apply elem_of_map_to_list, list_elem_of_In.
Qed.

Lemma map_find_none : map_find P m = None → ∀ k x, m !! k = Some x → P x = false.
Proof.
  intros Hn k x Hk. apply (find_none P _ Hn). apply in_map_iff. exists (k, x). split; [done|].
  by apply list_elem_of_In, elem_of_map_to_list.
Qed.

(** A row that is the only one to satisfy [P] is the one found. *)
Lemma map_find_unique k x :
  m !! k = Some x → P x = true → (∀ k' y, m !! k' = Some y → P y = true → k' = k) → map_find P m = Some x.
Proof.
  intros Hk HP Hu. destruct (map_find P m) as [y|] eqn:Hf.
  - apply map_find_some in Hf as (k' & Hk' & HP'). apply Hu in Hk' as Heq; [|done]. congruence.
  - pose proof (map_find_none Hf k x Hk). congruence.
Qed.
End map_find.

(** ** Updates *)
Lemma lookup_update_row {A} id (c : A → bool) f m k :
  update_row id c f m !! k = (λ r, if str_eqb k id && c r then f r else r) <$> m !! k.
Proof.
  unfold update_row. destruct (decide (k = id)) as [->|Hne].
  - rewrite lookup_alter_eq, str_eqb_refl. done.
  - rewrite lookup_alter_ne by done. assert (str_eqb k id = false) as ->.
    { apply not_true_iff_false. by rewrite str_eqb_true. }
    by destruct (m !! k).
Qed.

Lemma lookup_update_where {A} (c : A → bool) f (m : gmap string A) k :
  update_where c f m !! k = (λ r, if c r then f r else r) <$> m !! k.
Proof. unfold update_where. by rewrite lookup_fmap. Qed.

Lemma lookup_delete_where {A} (c : A → bool) (m : gmap string A) k x :
  delete_where c m !! k = Some x ↔ m !! k = Some x ∧ c x = false.
Proof. unfold delete_where. by rewrite map_lookup_filter_Some. Qed.

(** ** The statements *)
Section ops.
Context `{GoCrypto}.

(** One constructor per statement or transaction that writes.  Apart are those
    whose arguments the credential code chooses with care: a new identity, a key
    record, a new session, a session's expiry. *)
Inductive plain_op : ∀ A, auth A → Prop :=
| op_principal_Create now id p : plain_op _ (principal_Create now id p)
| op_principal_Suspend id : plain_op _ (principal_Suspend id)
| op_principal_Revoke id t : plain_op _ (principal_Revoke id t)
| op_identity_Revoke id t : plain_op _ (identity_Revoke id t)
| op_identity_Touch id t : plain_op _ (identity_Touch id t)
| op_ticket_Issue now s t : plain_op _ (ticket_Issue now s t)
| op_ticket_Redeem k s t : plain_op _ (ticket_Redeem k s t)
| op_session_CreateLoginCode c : plain_op _ (session_CreateLoginCode c)
| op_session_ConsumeLoginCode h t : plain_op _ (session_ConsumeLoginCode h t)
| op_session_Revoke id t r : plain_op _ (session_Revoke id t r)
| op_session_Prune t : plain_op _ (session_Prune t).

Inductive store_op : ∀ A, auth A → Prop :=
| op_plain A m : plain_op A m → store_op A m
| op_identity_Create now id i : store_op _ (identity_Create now id i)
| op_session_Create u : store_op _ (session_Create u)
| op_session_Touch id t i : store_op _ (session_Touch id t i)
| op_kv_Put k v : store_op _ (kv_Put k v)
| op_kv_Delete k : store_op _ (kv_Delete k).

Inductive reg_step (d d' : AuthDB) : Prop :=
| reg_step_intro A (m : auth A) r : store_op A m → m d = (r, d') → reg_step d d'.

(** ** Moving forward *)
Definition status_rank (s : string) : nat :=
  if str_eqb s PrincipalActive then 0 else if str_eqb s PrincipalRevoked then 2 else 1.

Definition sp_ext (p p' : StoredPrincipal) : Prop :=
  spID p' = spID p ∧ spKind p' = spKind p ∧ spDisplayName p' = spDisplayName p ∧ spRoles p' = spRoles p ∧
  spCreatedAt p' = spCreatedAt p ∧ status_rank (spStatus p) ≤ status_rank (spStatus p').

Definition some_stays {T} (o o' : option T) : Prop := ∀ t, o = Some t → o' = Some t.

Definition idn_ext (i i' : Identity) : Prop :=
  idnID i' = idnID i ∧ idnPrincipalID i' = idnPrincipalID i ∧ idnMethod i' = idnMethod i ∧ idnIssuer i' = idnIssuer i ∧
  idnSubject i' = idnSubject i ∧ idnName i' = idnName i ∧ some_stays (idnRevokedAt i) (idnRevokedAt i').

Definition tk_ext (t t' : Ticket) : Prop :=
  tkKind t' = tkKind t ∧ tkPrincipalID t' = tkPrincipalID t ∧ tkExpiresAt t' = tkExpiresAt t ∧
  some_stays (tkRedeemedAt t) (tkRedeemedAt t').

(** Every row of the first table is in the second, moved forward. *)
Definition rows_ext {A} (R : A → A → Prop) (m m' : gmap string A) : Prop :=
  ∀ k r, m !! k = Some r → ∃ r', m' !! k = Some r' ∧ R r r'.

#[export] Instance some_stays_preorder T : PreOrder (@some_stays T).
Proof. split; unfold some_stays; red; auto. Qed.
#[export] Instance sp_ext_preorder : PreOrder sp_ext.
Proof. split; red; unfold sp_ext; intros; repeat split; intuition (try congruence); lia. Qed.
#[export] Instance idn_ext_preorder : PreOrder idn_ext.
Proof. split; red; unfold idn_ext, some_stays; intros; repeat split; intuition (try congruence); eauto. Qed.
#[export] Instance tk_ext_preorder : PreOrder tk_ext.
Proof. split; red; unfold tk_ext, some_stays; intros; repeat split; intuition (try congruence); eauto. Qed.
#[export] Instance rows_ext_preorder {A} (R : A → A → Prop) `{!PreOrder R} : PreOrder (rows_ext R).
Proof.
  split; red; unfold rows_ext.
  - intros m k r Hk. exists r. split; [done|reflexivity].
  - intros m1 m2 m3 H1 H2 k r Hk. destruct (H1 _ _ Hk) as (r2 & Hk2 & Hr2).
    destruct (H2 _ _ Hk2) as (r3 & Hk3 & Hr3). exists r3. split; [done|by transitivity r2].
Qed.

Record reg_ext (d d' : AuthDB) : Prop := {
  ext_principals : rows_ext sp_ext (dbPrincipals d) (dbPrincipals d');
  ext_identities : rows_ext idn_ext (dbIdentities d) (dbIdentities d');
  ext_tickets : rows_ext tk_ext (dbTickets d) (dbTickets d');
}.

#[export] Instance reg_ext_preorder : PreOrder reg_ext.
Proof.
  split; red.
  - intros d. split; reflexivity.
  - intros d1 d2 d3 [] []. split; etransitivity; eauto.
Qed.

Lemma rows_ext_insert_fresh {A} (R : A → A → Prop) `{!PreOrder R} m k x : m !! k = None → rows_ext R m (<[k := x]> m).
Proof.
  intros Hn k' r Hk. exists r. split; [|reflexivity]. rewrite lookup_insert_ne; [done|congruence].
Qed.

Lemma rows_ext_insert {A} (R : A → A → Prop) `{!PreOrder R} m k x y : m !! k = Some x → R x y → rows_ext R m (<[k := y]> m).
Proof.
  intros Hx HR k' r Hk. destruct (decide (k = k')) as [->|Hne].
  - exists y. rewrite lookup_insert_eq. split; [done|congruence].
  - exists r. rewrite lookup_insert_ne by done. split; [done|reflexivity].
Qed.

Lemma rows_ext_update_row {A} (R : A → A → Prop) `{!PreOrder R} m id c f :
  (∀ x, c x = true → R x (f x)) → rows_ext R m (update_row id c f m).
Proof.
  intros HR k r Hk. rewrite lookup_update_row, Hk. cbn. eexists. split; [done|].
  destruct (str_eqb k id); cbn; [|reflexivity]. destruct (c r) eqn:Hc; [auto|reflexivity].
Qed.

Lemma rows_ext_update_where {A} (R : A → A → Prop) `{!PreOrder R} m c f :
  (∀ x, c x = true → R x (f x)) → rows_ext R m (update_where c f m).
Proof.
  intros HR k r Hk. rewrite lookup_update_where, Hk. cbn. eexists. split; [done|].
  destruct (c r) eqn:Hc; [auto|reflexivity].
Qed.

Lemma revoke_identity_ext ms i : identity_Active i = true → idn_ext i (revoke_identity_row ms i).
Proof. unfold identity_Active. intros Hi. repeat split; try done. intros t Ht. by rewrite Ht in Hi. Qed.

Lemma touch_identity_ext ms i : idn_ext i (touch_identity_row ms i).
Proof. repeat split; try done. Qed.

Lemma redeemed_ext kind n t : ticket_open kind n t = true → tk_ext t (redeemed n t).
Proof.
  unfold ticket_open. intros Ho. repeat split; try done. intros x Hx. rewrite Hx in Ho. by destruct (str_eqb _ _).
Qed.

Lemma set_status_ext status r p : status_rank (spStatus p) ≤ status_rank status → sp_ext p (set_status status r p).
Proof. intros Hs. repeat split; done. Qed.

Lemma status_rank_revoked : status_rank PrincipalRevoked = 2. Proof. reflexivity. Qed.
Lemma status_rank_le s : status_rank s ≤ 2.
Proof. unfold status_rank. repeat destruct (str_eqb _ _); lia. Qed.

Lemma bind_inv {A B} (m : auth A) (f : A → auth B) d r d' :
  (m ≫= f) d = (r, d') →
  (∃ e, m d = (Err e, d') ∧ r = Err e) ∨ (∃ a d1, m d = (Ok a, d1) ∧ f a d1 = (r, d')).
Proof. exact (st_bind_inv m f d r d'). Qed.

(** [does R m]: every run of [m] is related by [R], its first state to its
    last.  For a preorder it is enough to look at the statements of [m]. *)
Definition does (R : AuthDB → AuthDB → Prop) {A} (m : auth A) : Prop := ∀ d r d', m d = (r, d') → R d d'.

(** A run that changes nothing. *)
Definition reads_only {A} (m : auth A) : Prop := ∀ d r d', m d = (r, d') → d' = d.

Section does.
Context (R : AuthDB → AuthDB → Prop) `{!PreOrder R}.

Lemma does_bind {A B} (m : auth A) (f : A → auth B) : does R m → (∀ a, does R (f a)) → does R (m ≫= f).
Proof. exact (st_does_bind R m f). Qed.

Lemma does_handle {A} (m : auth A) h : does R m → (∀ e, does R (h e)) → does R (handle m h).
Proof.
  intros Hm Hh d r d'. unfold handle. destruct (m d) as [[a|e] d1] eqn:Hr; apply Hm in Hr; [by intros [= _ <-]|].
  intros Hr'. apply Hh in Hr'. by transitivity d1.
Qed.

Lemma does_reads {A} (m : auth A) : reads_only m → does R m.
Proof. intros Hm d r d' Hr. apply Hm in Hr as ->. reflexivity. Qed.
End does.

Lemma principal_Get_state id d r d' : principal_Get id d = (r, d') → d' = d ∧
  match r with
  | Ok p => ∃ q, dbPrincipals d !! id = Some q ∧ p = scanPrincipal q
  | Err e => e = ErrNotFound ∧ dbPrincipals d !! id = None
  end.
Proof. unfold principal_Get. destruct (dbPrincipals d !! id); intros [= <- <-]; eauto. Qed.

Lemma guard_principal_state id d r d' : guard_principal id d = (r, d') → d' = d ∧
  match r with
  | Ok p => ∃ q, dbPrincipals d !! id = Some q ∧ p = scanPrincipal q ∧ spKind q ≠ PrincipalKindOwner
  | Err _ => True
  end.
Proof.
  unfold guard_principal. intros [(e & Hg & ->)|(p & d1 & Hg & Hr)]%bind_inv.
  - by apply principal_Get_state in Hg as [-> _].
  - apply principal_Get_state in Hg as [-> (q & Hq & ->)]. revert Hr.
    destruct (str_eqb (spKind (scanPrincipal q)) PrincipalKindOwner) eqn:Hk; intros [= <- <-]; [done|].
    split; [done|]. exists q. repeat split; [done|]. intros Hq'. cbn in Hk. rewrite Hq', str_eqb_refl in Hk. discriminate.
Qed.

(** A transaction that changes the state is one update of it. *)
Lemma principal_Suspend_state id d r d' : principal_Suspend id d = (r, d') →
  d' = d ∨ d' = set_principals (update_row id (λ r, str_eqb (spStatus r) PrincipalActive)
                                   (λ r, set_status PrincipalSuspended (spRevokedAt r) r) (dbPrincipals d)) d.
Proof.
  unfold principal_Suspend. intros [(e & Hg & ->)|(p & d1 & Hg & Hr)]%bind_inv.
  - apply guard_principal_state in Hg as [-> _]. by left.
  - apply guard_principal_state in Hg as [-> _]. revert Hr.
    repeat destruct (str_eqb _ _); unfold modify; intros [= <- <-]; auto.
Qed.

Lemma principal_Revoke_state id t d r d' : principal_Revoke id t d = (r, d') →
  d' = d ∨ d' = cascade_principal id (toMillis t) d.
Proof.
  unfold principal_Revoke. intros [(e & Hg & ->)|(p & d1 & Hg & Hr)]%bind_inv.
  - apply guard_principal_state in Hg as [-> _]. by left.
  - apply guard_principal_state in Hg as [-> _]. revert Hr.
    repeat destruct (str_eqb _ _); unfold modify; intros [= <- <-]; auto.
Qed.

Lemma cascade_principal_ext id ms d : reg_ext d (cascade_principal id ms d).
Proof.
  split; cbn; [|..|reflexivity].
  - apply rows_ext_update_row; [apply _|]. intros p _. apply set_status_ext. rewrite status_rank_revoked. apply status_rank_le.
  - apply rows_ext_update_where; [apply _|]. intros i [_ Hi]%andb_true_iff. by apply revoke_identity_ext.
Qed.

Lemma suspend_rank p : str_eqb (spStatus p) PrincipalActive = true → status_rank (spStatus p) ≤ status_rank PrincipalSuspended.
Proof. intros ->%str_eqb_true. apply Nat.le_0_l. Qed.

(** Every statement moves the registry forward. *)
Lemma store_op_ext A (m : auth A) d r d' : store_op A m → m d = (r, d') → reg_ext d d'.
Proof.
  intros Hop Hm. destruct Hop as [A m Hop|now id i|u|id t i|k v|k].
  2: { revert Hm. unfold identity_Create. destruct (PrepareNewIdentity i now id) as [j|e]; [|by intros [= _ <-]].
      destruct (dbIdentities d !! idnID j) eqn:Hk; [by intros [= _ <-]|].
      destruct (map_find _ _); [by intros [= _ <-]|]. destruct (dbPrincipals d !! _); intros [= _ <-]; [|done].
      split; cbn; [reflexivity| |reflexivity]. apply rows_ext_insert_fresh; [apply _|done]. }
  2: by revert Hm; unfold session_Create; repeat (destruct (_ !! _) || destruct (map_find _ _)); intros [= _ <-]; split.
  2: by revert Hm; unfold session_Touch, session_exists, modify; destruct (row_hit _ _ _); intros [= _ <-]; split.
  2-3: by injection Hm as _ <-.
  destruct Hop.
  - revert Hm. unfold principal_Create. destruct (PrepareNewPrincipal p now id) as [q|e]; [|by intros [= _ <-]].
    destruct (dbPrincipals d !! spID q) eqn:Hk; intros [= <- <-]; [done|].
    split; cbn; [|reflexivity..]. apply rows_ext_insert_fresh; [apply _|done].
  - apply principal_Suspend_state in Hm as [->| ->]; [done|]. split; cbn; [|reflexivity..].
    apply rows_ext_update_row; [apply _|]. intros q Hq. by apply set_status_ext, suspend_rank.
  - apply principal_Revoke_state in Hm as [->| ->]; [done|]. apply cascade_principal_ext.
  - revert Hm. unfold identity_Revoke, identity_exists, modify. destruct (row_hit _ _ _); intros [= _ <-]; [|done].
    split; cbn; [reflexivity| |reflexivity]. apply rows_ext_update_row; [apply _|]. apply revoke_identity_ext.
  - revert Hm. unfold identity_Touch, identity_exists, modify. destruct (row_hit _ _ _); intros [= _ <-]; [|done].
    split; cbn; [reflexivity| |reflexivity]. apply rows_ext_update_row; [apply _|]. intros; apply touch_identity_ext.
  - revert Hm. unfold ticket_Issue. destruct (PrepareTicketIssue t now) as [q|e]; [|by intros [= _ <-]].
    destruct (dbTickets d !! TicketHash s) eqn:Hk; [by intros [= _ <-]|]. destruct (_ && _); intros [= _ <-]; [|done].
    split; cbn; [reflexivity..|]. apply rows_ext_insert_fresh; [apply _|done].
  - revert Hm. unfold ticket_Redeem. destruct (dbTickets d !! TicketHash s) as [q|] eqn:Hk; [|by intros [= _ <-]].
    destruct (ticket_open _ _ _) eqn:Ho; [|by intros [= _ <-]]. destruct (ticket_principal_ok _ _).
    + intros [= _ <-]. split; cbn; [reflexivity..|]. eapply rows_ext_insert; [apply _|done|by eapply redeemed_ext].
    + destruct (principal_status _ _); intros [= _ <-]; done.
  - revert Hm. unfold session_CreateLoginCode. repeat destruct (_ !! _); intros [= _ <-]; split; reflexivity.
  - revert Hm. unfold session_ConsumeLoginCode. destruct (_ !! _); [|by intros [= _ <-]].
    destruct (_ <? _)%Z; intros [= _ <-]; split; reflexivity.
  - revert Hm. unfold session_Revoke, session_exists, modify. destruct (row_hit _ _ _); intros [= _ <-]; split; reflexivity.
  - revert Hm. unfold session_Prune. intros [= _ <-]; split; reflexivity.
Qed.

Lemma plain_op_kv A (m : auth A) d r d' : plain_op A m → m d = (r, d') → dbKV d' = dbKV d.
Proof.
  intros Hop Hm. destruct Hop.
  2: by apply principal_Suspend_state in Hm as [->| ->].
  2: by apply principal_Revoke_state in Hm as [->| ->].
  all: revert Hm.
  all: unfold principal_Create, identity_Revoke, identity_Touch, identity_exists, ticket_Issue, ticket_Redeem,
    session_CreateLoginCode, session_ConsumeLoginCode, session_Revoke, session_exists,
    session_Prune, modify.
  all: repeat case_match; by intros [= _ <-].
Qed.

Lemma reg_step_ext d d' : star reg_step d d' → reg_ext d d'.
Proof.
  induction 1 as [d|d d1 d2 [A m r Hop Hm] _ IH]; [reflexivity|].
  transitivity d1; [by eapply store_op_ext|done].
Qed.

(** ** Keys, unique columns and foreign keys *)
Definition has_row {A} (m : gmap string A) (k : string) : Prop := is_Some (m !! k).
(** No parent row disappears. *)
Definition keeps_rows {A} (m m' : gmap string A) : Prop := ∀ k, has_row m k → has_row m' k.
(** Every row of [m'] was in [m], with the same key columns. *)
Definition rows_from {A} (R : A → A → Prop) (m m' : gmap string A) : Prop :=
  ∀ k r', m' !! k = Some r' → ∃ r, m !! k = Some r ∧ R r r'.

Definition unique_key {A T} (col : A → T) (m : gmap string A) : Prop :=
  ∀ k1 k2 r1 r2, m !! k1 = Some r1 → m !! k2 = Some r2 → col r1 = col r2 → k1 = k2.

Definition triple (i : Identity) : string * string * string := (idnMethod i, idnIssuer i, idnSubject i).

Record reg_wf (d : AuthDB) : Prop := {
  wf_principal_id : ∀ k p, dbPrincipals d !! k = Some p → spID p = k;
  wf_identity_id : ∀ k i, dbIdentities d !! k = Some i → idnID i = k;
  wf_identity_fk : ∀ k i, dbIdentities d !! k = Some i → has_row (dbPrincipals d) (idnPrincipalID i);
  wf_triple : unique_key triple (dbIdentities d);
  wf_session_id : ∀ k s, dbSessions d !! k = Some s → usID s = k;
  wf_session_fk : ∀ k s, dbSessions d !! k = Some s → has_row (dbIdentities d) (usIdentityID s);
  wf_secret : unique_key usSecretHash (dbSessions d);
  wf_code_id : ∀ k c, dbCodes d !! k = Some c → lcCodeHash c = k;
  wf_code_fk : ∀ k c, dbCodes d !! k = Some c → has_row (dbIdentities d) (lcIdentityID c);
  wf_ticket_fk : ∀ k t, dbTickets d !! k = Some t →
    has_row (dbPrincipals d) (tkCreatedBy t) ∧ (tkPrincipalID t = nostr ∨ has_row (dbPrincipals d) (tkPrincipalID t));
}.

Definition sp_same (p p' : StoredPrincipal) : Prop := spID p' = spID p.
Definition idn_same (i i' : Identity) : Prop :=
  idnID i' = idnID i ∧ idnPrincipalID i' = idnPrincipalID i ∧ triple i' = triple i.
Definition us_same (s s' : UISession) : Prop :=
  usID s' = usID s ∧ usIdentityID s' = usIdentityID s ∧ usSecretHash s' = usSecretHash s.
Definition tk_same (t t' : Ticket) : Prop := tkCreatedBy t' = tkCreatedBy t ∧ tkPrincipalID t' = tkPrincipalID t.

Lemma rows_from_refl {A} (R : A → A → Prop) m : (∀ x, R x x) → rows_from R m m.
Proof. intros HR k r Hk. eauto. Qed.

Lemma rows_from_update_row {A} (R : A → A → Prop) id c f m : (∀ x, R x x) → (∀ x, R x (f x)) → rows_from R m (update_row id c f m).
Proof.
  intros Hr Hf k r'. rewrite lookup_update_row. destruct (m !! k) as [r|]; [|discriminate]. intros [= <-].
  exists r. split; [done|]. destruct (str_eqb k id && c r); auto.
Qed.

Lemma rows_from_update_where {A} (R : A → A → Prop) c f m : (∀ x, R x x) → (∀ x, R x (f x)) → rows_from R m (update_where c f m).
Proof.
  intros Hr Hf k r'. rewrite lookup_update_where. destruct (m !! k) as [r|]; [|discriminate]. intros [= <-].
  exists r. split; [done|]. destruct (c r); auto.
Qed.

Lemma rows_from_delete_where {A} (R : A → A → Prop) c m : (∀ x, R x x) → rows_from R m (delete_where c m).
Proof. intros Hr k r' [Hk _]%lookup_delete_where. eauto. Qed.

Lemma rows_from_delete {A} (R : A → A → Prop) (m : gmap string A) k : (∀ x, R x x) → rows_from R m (delete k m).
Proof. intros Hr k' r' [_ Hk]%lookup_delete_Some. eauto. Qed.

Lemma rows_keep_refl {A} (m : gmap string A) : keeps_rows m m. Proof. by intros k. Qed.
Lemma keeps_insert {A} (m : gmap string A) k x : keeps_rows m (<[k := x]> m).
Proof. intros k' Hk. unfold has_row. destruct (decide (k = k')) as [->|]; [rewrite lookup_insert_eq|rewrite lookup_insert_ne]; eauto. Qed.
Lemma keeps_ext {A} (R : A → A → Prop) m m' : rows_ext R m m' → keeps_rows m m'.
Proof. intros Hx k [r Hr]. destruct (Hx _ _ Hr) as (r' & Hr' & _). by exists r'. Qed.

(** One lemma per shape of change: rows kept with their key columns, or one new row. *)
Lemma reg_wf_from d d' :
  reg_wf d →
  rows_from sp_same (dbPrincipals d) (dbPrincipals d') → keeps_rows (dbPrincipals d) (dbPrincipals d') →
  rows_from idn_same (dbIdentities d) (dbIdentities d') → keeps_rows (dbIdentities d) (dbIdentities d') →
  rows_from tk_same (dbTickets d) (dbTickets d') →
  rows_from us_same (dbSessions d) (dbSessions d') →
  rows_from eq (dbCodes d) (dbCodes d') → reg_wf d'.
Proof.
  intros [Hp Hi Hif Ht Hs Hsf Hh Hc Hcf Htf] Fp Kp Fi Ki Ft Fs Fc. split.
  - intros k p Hk. destruct (Fp _ _ Hk) as (q & Hq & Hs'). rewrite Hs'. eauto.
  - intros k i Hk. destruct (Fi _ _ Hk) as (j & Hj & E1 & _). rewrite E1. eauto.
  - intros k i Hk. destruct (Fi _ _ Hk) as (j & Hj & _ & E2 & _). rewrite E2. eauto.
  - intros k1 k2 i1 i2 H1 H2 Heq. destruct (Fi _ _ H1) as (j1 & Hj1 & _ & _ & T1), (Fi _ _ H2) as (j2 & Hj2 & _ & _ & T2).
    apply (Ht k1 k2 j1 j2); congruence.
  - intros k x Hk. destruct (Fs _ _ Hk) as (y & Hy & E1 & _). rewrite E1. eauto.
  - intros k x Hk. destruct (Fs _ _ Hk) as (y & Hy & _ & E2 & _). rewrite E2. eauto.
  - intros k1 k2 i1 i2 H1 H2 Heq. destruct (Fs _ _ H1) as (j1 & Hj1 & _ & _ & T1), (Fs _ _ H2) as (j2 & Hj2 & _ & _ & T2).
    apply (Hh k1 k2 j1 j2); congruence.
  - intros k x Hk. destruct (Fc _ _ Hk) as (y & Hy & <-). eauto.
  - intros k x Hk. destruct (Fc _ _ Hk) as (y & Hy & <-). eauto.
  - intros k x Hk. destruct (Ft _ _ Hk) as (y & Hy & E1 & E2). rewrite E1, E2.
    destruct (Htf _ _ Hy) as [? [?|?]]; split; eauto.
Qed.

Lemma sp_same_refl p : sp_same p p. Proof. done. Qed.
Lemma idn_same_refl i : idn_same i i. Proof. done. Qed.
Lemma us_same_refl s : us_same s s. Proof. done. Qed.
Lemma tk_same_refl t : tk_same t t. Proof. done. Qed.

(** The tables a statement leaves alone. *)
Ltac from_tables :=
  first [ apply rows_from_refl; intros; repeat split; done
        | apply rows_keep_refl
        | apply keeps_insert
        | apply rows_from_update_row; intros; repeat split; done
        | apply rows_from_update_where; intros; repeat split; done
        | apply rows_from_delete_where; intros; repeat split; done
        | apply rows_from_delete; intros; repeat split; done
        | idtac ].

Lemma keeps_update_row {A} (m : gmap string A) id c f : keeps_rows m (update_row id c f m).
Proof. intros k [r Hr]. unfold has_row. rewrite lookup_update_row, Hr. eauto. Qed.
Lemma keeps_update_where {A} (m : gmap string A) c f : keeps_rows m (update_where c f m).
Proof. intros k [r Hr]. unfold has_row. rewrite lookup_update_where, Hr. eauto. Qed.

(** A new row under its own key keeps a column that no other row has unique. *)
Lemma unique_key_insert {A T} (col : A → T) m k x :
  unique_key col m → (∀ k' y, m !! k' = Some y → col y ≠ col x) → unique_key col (<[k := x]> m).
Proof.
  intros Hu Hx k1 k2 r1 r2 [[<- <-]|[Hn1 H1]]%lookup_insert_Some [[<- <-]|[Hn2 H2]]%lookup_insert_Some Heq; eauto.
  - destruct (Hx _ _ H2). done.
  - destruct (Hx _ _ H1). done.
Qed.

Lemma insert_case {A} (m : gmap string A) k x k' r (P : A → Prop) :
  <[k := x]> m !! k' = Some r → (k' = k → P x) → (∀ r, m !! k' = Some r → P r) → P r.
Proof. intros [[<- <-]|[Hn Hk]]%lookup_insert_Some Hx Hm; eauto. Qed.

Lemma reg_wf_principal d p :
  reg_wf d → reg_wf (set_principals (<[spID p := sp_times toMillis p]> (dbPrincipals d)) d).
Proof.
  intros [Hp Hi Hif Ht Hs Hsf Hh Hc Hcf Htf].
  assert (K : keeps_rows (dbPrincipals d) (<[spID p := sp_times toMillis p]> (dbPrincipals d))) by apply keeps_insert.
  split; cbn; eauto.
  - intros k q Hk. apply (insert_case _ _ _ _ _ (λ q, spID q = k) Hk); [by intros ->|eauto].
  - intros k t Hk. destruct (Htf _ _ Hk) as [? [?|?]]; eauto.
Qed.

Lemma same_triple_spec i j : same_triple (idnMethod i) (idnIssuer i) (idnSubject i) j = true ↔ triple j = triple i.
Proof. unfold same_triple, triple. rewrite !andb_true_iff, !str_eqb_true. split; [intros [[-> ->] ->]; done|by intros [= -> -> ->]]. Qed.

Lemma reg_wf_identity d i :
  reg_wf d → dbIdentities d !! idnID i = None →
  map_find (same_triple (idnMethod i) (idnIssuer i) (idnSubject i)) (dbIdentities d) = None →
  has_row (dbPrincipals d) (idnPrincipalID i) →
  reg_wf (set_identities (<[idnID i := idn_times toMillis i]> (dbIdentities d)) d).
Proof.
  intros [Hp Hi Hif Ht Hs Hsf Hh Hc Hcf Htf] Hn Hf Hpk.
  assert (K : keeps_rows (dbIdentities d) (<[idnID i := idn_times toMillis i]> (dbIdentities d))) by apply keeps_insert.
  split; cbn; eauto.
  - intros k q Hk. apply (insert_case _ _ _ _ _ (λ q, idnID q = k) Hk); [by intros ->|eauto].
  - intros k q Hk. apply (insert_case _ _ _ _ _ (λ q, has_row (dbPrincipals d) (idnPrincipalID q)) Hk); [done|eauto].
  - apply unique_key_insert; [done|]. intros k' j Hk' Heq.
    pose proof (map_find_none _ _ Hf _ _ Hk') as Hfalse.
    assert (same_triple (idnMethod i) (idnIssuer i) (idnSubject i) j = true) by by apply same_triple_spec. congruence.
Qed.

Lemma reg_wf_session d u :
  reg_wf d → map_find (λ s, str_eqb (usSecretHash s) (usSecretHash u)) (dbSessions d) = None →
  has_row (dbIdentities d) (usIdentityID u) →
  reg_wf (set_sessions (<[usID u := us_times toMillis u]> (dbSessions d)) d).
Proof.
  intros [Hp Hi Hif Ht Hs Hsf Hh Hc Hcf Htf] Hf Hik. split; cbn; eauto.
  - intros k q Hk. apply (insert_case _ _ _ _ _ (λ q, usID q = k) Hk); [by intros ->|eauto].
  - intros k q Hk. apply (insert_case _ _ _ _ _ (λ q, has_row (dbIdentities d) (usIdentityID q)) Hk); [done|eauto].
  - apply unique_key_insert; [done|]. intros k' j Hk' Heq.
    pose proof (map_find_none _ _ Hf _ _ Hk') as Hfalse. cbn in Hfalse, Heq. rewrite Heq, str_eqb_refl in Hfalse. done.
Qed.

Lemma reg_wf_code d c :
  reg_wf d → has_row (dbIdentities d) (lcIdentityID c) →
  reg_wf (set_codes (<[lcCodeHash c := lc_times toMillis c]> (dbCodes d)) d).
Proof.
  intros [Hp Hi Hif Ht Hs Hsf Hh Hc Hcf Htf] Hik. split; cbn; eauto.
  - intros k q Hk. apply (insert_case _ _ _ _ _ (λ q, lcCodeHash q = k) Hk); [by intros ->|eauto].
  - intros k q Hk. apply (insert_case _ _ _ _ _ (λ q, has_row (dbIdentities d) (lcIdentityID q)) Hk); [done|eauto].
Qed.

Lemma reg_wf_ticket d k t :
  reg_wf d → has_row (dbPrincipals d) (tkCreatedBy t) → (tkPrincipalID t = nostr ∨ has_row (dbPrincipals d) (tkPrincipalID t)) →
  reg_wf (set_tickets (<[k := t]> (dbTickets d)) d).
Proof.
  intros [Hp Hi Hif Ht Hs Hsf Hh Hc Hcf Htf] Hcb Hpr. split; cbn; eauto.
  intros k' q Hk. apply (insert_case _ _ _ _ _ (λ q, has_row (dbPrincipals d) (tkCreatedBy q) ∧
    (tkPrincipalID q = nostr ∨ has_row (dbPrincipals d) (tkPrincipalID q))) Hk); [done|eauto].
Qed.

Ltac wf_update := intros; apply (reg_wf_from _ _ ltac:(eassumption)); cbn;
  repeat first [apply keeps_update_row | apply keeps_update_where | from_tables].

(** Every statement keeps the tables well-formed. *)
Lemma store_op_wf A (m : auth A) d r d' : store_op A m → m d = (r, d') → reg_wf d → reg_wf d'.
Proof.
  intros Hop Hm Hwf. destruct Hop as [A m Hop|now id i|u|id t i|k v|k]; [destruct Hop| | | |injection Hm as _ <-; wf_update..].
  - revert Hm. unfold principal_Create. destruct (PrepareNewPrincipal p now id) as [q|e]; [|by intros [= _ <-]].
    destruct (dbPrincipals d !! spID q) eqn:Hk; intros [= <- <-]; [done|]. by apply reg_wf_principal.
  - apply principal_Suspend_state in Hm as [->| ->]; [done|]. wf_update.
  - apply principal_Revoke_state in Hm as [->| ->]; [done|]. wf_update.
  - revert Hm. unfold identity_Revoke, identity_exists, modify. destruct (row_hit _ _ _); intros [= _ <-]; [|done]. wf_update.
  - revert Hm. unfold identity_Touch, identity_exists, modify. destruct (row_hit _ _ _); intros [= _ <-]; [|done]. wf_update.
  - revert Hm. unfold ticket_Issue. destruct (PrepareTicketIssue t now) as [q|e]; [|by intros [= _ <-]].
    destruct (dbTickets d !! TicketHash s) eqn:Hk; [by intros [= _ <-]|]. destruct (_ && _) eqn:Hfk; intros [= _ <-]; [|done].
    apply andb_true_iff in Hfk as [Hp Hc]. apply bool_decide_eq_true in Hc. apply reg_wf_ticket; [done|done|].
    apply orb_true_iff in Hp as [Hp|Hp]; [left; by apply str_eqb_true|right; by apply bool_decide_eq_true in Hp].
  - revert Hm. unfold ticket_Redeem. destruct (dbTickets d !! TicketHash s) as [q|] eqn:Hk; [|by intros [= _ <-]].
    destruct (ticket_open _ _ _) eqn:Ho; [|by intros [= _ <-]]. destruct (ticket_principal_ok _ _).
    + intros [= _ <-]. destruct (wf_ticket_fk _ Hwf _ _ Hk). by apply reg_wf_ticket.
    + destruct (principal_status _ _); intros [= _ <-]; done.
  - revert Hm. unfold session_CreateLoginCode. destruct (_ !! _); [by intros [= _ <-]|].
    destruct (dbIdentities d !! _) eqn:Hk; intros [= _ <-]; [|done]. apply reg_wf_code; [done|by eexists].
  - revert Hm. unfold session_ConsumeLoginCode. destruct (_ !! _); [|by intros [= _ <-]].
    destruct (_ <? _)%Z; intros [= _ <-]; wf_update.
  - revert Hm. unfold session_Revoke, session_exists, modify. destruct (row_hit _ _ _); intros [= _ <-]; [|done]. wf_update.
  - revert Hm. unfold session_Prune. intros [= _ <-]. wf_update.
  - revert Hm. unfold identity_Create. destruct (PrepareNewIdentity i now id) as [j|e]; [|by intros [= _ <-]].
    destruct (dbIdentities d !! idnID j) eqn:Hk; [by intros [= _ <-]|].
    destruct (map_find _ _) eqn:Hf; [by intros [= _ <-]|]. destruct (dbPrincipals d !! _) eqn:Hp; intros [= _ <-]; [|done].
    apply reg_wf_identity; eauto. by eexists.
  - revert Hm. unfold session_Create. destruct (_ !! _); [by intros [= _ <-]|].
    destruct (map_find _ _) eqn:Hf; [by intros [= _ <-]|].
    destruct (dbIdentities d !! _) eqn:Hk; intros [= _ <-]; [|done]. apply reg_wf_session; [done|done|by eexists].
  - revert Hm. unfold session_Touch, session_exists, modify. destruct (row_hit _ _ _); intros [= _ <-]; [|done]. wf_update.
Qed.

Lemma reg_step_wf d d' : star reg_step d d' → reg_wf d → reg_wf d'.
Proof. apply star_invariant. intros a b [A m r Hop Hm]. by apply (store_op_wf A m a r b). Qed.

(** What a plain statement does to identities and sessions: nothing to the key
    columns of an identity, and no new session or later expiry. *)
Definition us_frame (s s' : UISession) : Prop :=
  us_same s s' ∧ usPrincipalID s' = usPrincipalID s ∧ usScope s' = usScope s ∧ usCreatedAt s' = usCreatedAt s ∧
  usLastSeenAt s' = usLastSeenAt s ∧ usIdleExpiresAt s' = usIdleExpiresAt s ∧ usExpiresAt s' = usExpiresAt s.

Lemma plain_op_rows A (m : auth A) d r d' : plain_op A m → m d = (r, d') →
  rows_from idn_same (dbIdentities d) (dbIdentities d') ∧ rows_from us_frame (dbSessions d) (dbSessions d').
Proof.
  intros Hop Hm. destruct Hop.
  2: by apply principal_Suspend_state in Hm as [->| ->]; split; cbn; from_tables.
  2: by apply principal_Revoke_state in Hm as [->| ->]; split; cbn; from_tables.
  all: revert Hm.
  all: unfold principal_Create, identity_Revoke, identity_Touch, identity_exists, ticket_Issue, ticket_Redeem,
    session_CreateLoginCode, session_ConsumeLoginCode, session_Revoke, session_exists, session_Prune, modify.
  all: repeat case_match; intros [= _ <-]; split; cbn; from_tables.
Qed.

(** ** The database a migration leaves: the owner and nothing else *)
Definition owner_row (created : Z) : StoredPrincipal :=
  mkSP OwnerPrincipal PrincipalKindOwner "Owner" [RoleAdmin] PrincipalActive created None.
Definition initDB (created : Z) : AuthDB := mkDB {[ OwnerPrincipal := owner_row created ]} ∅ ∅ ∅ ∅ ∅.

Lemma initDB_wf created : reg_wf (initDB created).
Proof.
  split; cbn; try (intros ? ? Hx; by rewrite lookup_empty in Hx).
  - by intros k p [<- <-]%lookup_singleton_Some.
  - intros ? ? ? ? Hx; by rewrite lookup_empty in Hx.
  - intros ? ? ? ? Hx; by rewrite lookup_empty in Hx.
Qed.

Definition reachable (d : AuthDB) : Prop := ∃ created, star reg_step (initDB created) d.

Lemma reachable_wf d : reachable d → reg_wf d.
Proof. intros [c Hd]. by apply (reg_step_wf (initDB c)), initDB_wf. Qed.
End ops.
