(* ===== verification/AuthKeys.v ===== *)
(** * API keys

    Models [internal/auth/apikey.go] (the key issuer over the key-value table)
    and [internal/auth/keys.go] (keys over the principal registry, the keys
    declared in config, and the [api_key] method).  The random bytes a mint
    draws, the ids it assigns and the clock's readings are arguments, one per
    call; a record's JSON is a parameter. *)

From S2P Require Import Prelude GoStrings JobStore Resolver Encodings AuthScopes AuthRegistry.

Definition APIKeyPrefix : string := "ctxt".
Definition apiKeyStorePrefix : string := "apikey/".
Definition apiKeyIDBytes : nat := 8.
Definition apiKeySecretBytes : nat := 32.

Definition MethodAPIKey : string := "api_key".
Definition configKeyIDPrefix : string := "config:".

Record APIKey : Type := mkAPIKey {
  akID : string;
  akPrincipal : string;
  akScopes : list string;
  akCreatedAt : Z;
  akExpiresAt : Z;
  akRevokedAt : Z;
  akHash : string;
}.

Record NewAPIKey : Type := mkNewAPIKey { nkPrincipal : string; nkScopes : list string; nkTTL : Z }.

(** [encoding/json] on an [APIKey].  A record whose text is ASCII is read back
    as it was written; a year outside 0 to 9999 does not encode. *)
Class KeyCodec : Type := {
  MarshalKey : APIKey → option string;
  UnmarshalKey : string → option APIKey;
}.

Definition key_ascii (k : APIKey) : bool :=
  is_ascii (akID k) && is_ascii (akPrincipal k) && forallb is_ascii (akScopes k) && is_ascii (akHash k).

Class KeyCodecLaws `{KeyCodec} : Prop := {
  unmarshal_marshal : ∀ k s, key_ascii k = true → MarshalKey k = Some s → UnmarshalKey s = Some k;
}.

Definition maxDuration : Z := 2 ^ 63 - 1.
Definition minDuration : Z := - 2 ^ 63.
(** [a.Sub(b)]: saturates at the range of a duration. *)
Definition Sub (a b : Z) : Z := Z.max minDuration (Z.min maxDuration (a - b)).

Section issuer.
Context `{GoCrypto} `{KeyCodec}.

(** ** apikey.go *)

(** [strings.SplitN(raw, sep, 3)] when it has three parts. *)
Definition splitN3 (s : string) (sep : ascii) : option (string * string * string) :=
  match span (λ c, negb (is_char c sep)) s with
  | (a, String _ r) =>
      match span (λ c, negb (is_char c sep)) r with
      | (b, String _ c) => Some (a, b, c)
      | _ => None
      end
  | _ => None
  end.

Definition splitAPIKey (raw : string) : option (string * string) :=
  match splitN3 raw "_" with
  | Some (p, id, sec) =>
      if str_eqb p APIKeyPrefix && isHex id apiKeyIDBytes then
        match DecodeBase64 sec with
        | Some b => if String.length b =? apiKeySecretBytes then Some (id, sec) else None
        | None => None
        end
      else None
  | None => None
  end.

Definition lk_get (id : string) : auth (option APIKey) :=
  v ← kv_Get (apiKeyStorePrefix +:+ id);
  match v with
  | None => mret None
  | Some data =>
      match UnmarshalKey data with
      | None => throw (AuthStorage "decode api key")
      | Some rec => mret (Some rec)
      end
  end.

Definition lk_put (rec : APIKey) : auth unit :=
  match MarshalKey rec with
  | None => throw (AuthStorage "encode api key")
  | Some data => kv_Put (apiKeyStorePrefix +:+ akID rec) data
  end.

(** [s == nostr || strings.ContainsAny(s, ...)] *)
Definition scope_bad (s : string) : bool :=
  str_eqb s nostr ||
  negb (str_forall (λ c, negb (contains [" "; Ascii.ascii_of_nat 9; Ascii.ascii_of_nat 13; Ascii.ascii_of_nat 10]%char c)) s).

(** The record [Create] writes. *)
Definition new_record (now : Z) (id sec : string) (spec : NewAPIKey) : APIKey :=
  mkAPIKey id (nkPrincipal spec) (nkScopes spec) now
    (if (0 <? nkTTL spec)%Z then (now + nkTTL spec)%Z else ZeroTime) ZeroTime (apiKeyHash id sec).

(** [Create]: [idb] and [secret] are the random bytes, [now] the clock. *)
Definition lk_Create (now : Z) (idb secret : string) (spec : NewAPIKey) : auth (string * APIKey) :=
  if str_eqb (TrimSpace (nkPrincipal spec)) nostr then throw (AuthInvalid "an api key needs a principal")
  else if existsb scope_bad (nkScopes spec) then throw (AuthInvalid "scope is one non-empty word")
  else
    let id := EncodeHex idb in
    let sec := EncodeBase64 secret in
    let rec := new_record now id sec spec in
    _ ← lk_put rec;
    mret (APIKeyPrefix +:+ "_" +:+ id +:+ "_" +:+ sec, rec).

Definition lk_Get (id : string) : auth APIKey :=
  rec ← lk_get id; of_option rec (ErrAPIKeyNotFound id).

(** A stable sort of the listed records, newest first, then by id. *)
Definition key_ltb (a b : APIKey) : bool :=
  if negb (akCreatedAt a =? akCreatedAt b)%Z then (akCreatedAt b <? akCreatedAt a)%Z else str_ltb (akID a) (akID b).

Fixpoint lk_getall (keys : list string) : auth (list APIKey) :=
  match keys with
  | [] => mret []
  | key :: keys =>
      rec ← lk_get (TrimPrefix key apiKeyStorePrefix);
      rest ← lk_getall keys;
      mret (match rec with Some r => r :: rest | None => rest end)
  end.

Definition lk_List : auth (list APIKey) :=
  keys ← kv_List apiKeyStorePrefix;
  out ← lk_getall keys;
  mret (SliceStable key_ltb out).

Definition with_revoked (t : Z) (k : APIKey) : APIKey :=
  mkAPIKey (akID k) (akPrincipal k) (akScopes k) (akCreatedAt k) (akExpiresAt k) t (akHash k).

Definition lk_Revoke (now : Z) (id : string) : auth APIKey :=
  rec ← lk_Get id;
  if IsZero (akRevokedAt rec) then
    _ ← lk_put (with_revoked now rec);
    mret (with_revoked now rec)
  else mret rec.

(** [!ExpiresAt.IsZero() && !now.Before(ExpiresAt)] *)
Definition expired (at_ now : Z) : bool := negb (IsZero at_) && negb (now <? at_)%Z.

Definition lk_Verify (now : Z) (raw : string) : auth APIKey :=
  let raw := TrimSpace raw in
  if str_eqb raw nostr then throw ErrNoCredential
  else
    match splitAPIKey raw with
    | None => throw (InvalidCredential NotAnAPIKey)
    | Some (id, sec) =>
        rec ← lk_get id;
        match rec with
        | None => throw (InvalidCredential UnknownAPIKey)
        | Some rec =>
            if negb (str_eqb (apiKeyHash id sec) (akHash rec)) then throw (InvalidCredential UnknownAPIKey)
            else if negb (IsZero (akRevokedAt rec)) then throw (InvalidCredential KeyRevoked)
            else if expired (akExpiresAt rec) now then throw (InvalidCredential KeyExpired)
            else mret rec
        end
    end.

(** ** keys.go *)
Record MintKey : Type := mkMintKey {
  mkPrincipalID : string;
  mkName : string;
  mkExpiresAt : Z;
  mkScopes : list Scope;
}.

Record IssuedKey : Type := mkIssuedKey {
  ikID : string;
  ikPrincipalID : string;
  ikIdentityID : string;
  ikName : string;
  ikScopes : list Scope;
  ikCreatedAt : Z;
  ikExpiresAt : Z;
}.

Definition keyScopes (p : StoredPrincipal) (asked : list Scope) : result AuthError (list Scope) :=
  let granted := ScopesForRoles (spRoles p) in
  match asked with
  | [] => Ok granted
  | _ =>
      if existsb (λ s, contains asked s && negb (contains granted s)) AllScopes
      then Err (AuthInvalid "scope is not granted to principal")
      else if existsb (λ s, negb (contains AllScopes s)) asked then Err (AuthInvalid "unknown scope")
      else Ok (List.filter (contains asked) AllScopes)
  end.

Definition lift {A} (m : result AuthError A) : auth A := λ d, (m, d).

(** [Mint] reads the clock itself, [issuer.Create] again, [Identities().Create]
    fills no time in, and undoing the record reads it once more. *)
Definition keys_Mint (t1 t2 t3 : Z) (idb secret idnID : string) (spec : MintKey) : auth (string * IssuedKey) :=
  if str_eqb (mkPrincipalID spec) nostr then throw (AuthInvalid "an api key needs a principal")
  else
    p ← principal_Get (mkPrincipalID spec);
    _ ← check (principal_Active p) ErrPrincipalInactive;
    scopes ← lift (keyScopes p (mkScopes spec));
    let ttl := if IsZero (mkExpiresAt spec) then 0%Z else Sub (mkExpiresAt spec) t1 in
    _ ← check (IsZero (mkExpiresAt spec) || (0 <? ttl)%Z) (AuthInvalid "expiry is not in the future");
    kr ← lk_Create t2 idb secret (mkNewAPIKey (spID p) scopes ttl);
    let rec := kr.2 in
    idn ← handle
      (identity_Create t2 idnID (mkIdentity nostr (spID p) IdentityMethodAPIKey nostr (akID rec) (mkName spec) (akCreatedAt rec) None None))
      (λ e, handle (_ ← lk_Revoke t3 (akID rec); throw e) (λ _, throw e));
    mret (kr.1, mkIssuedKey (akID rec) (spID p) (AuthRegistry.idnID idn) (mkName spec) scopes (akCreatedAt rec) (akExpiresAt rec)).

(** [registryPrincipal], with the metadata the callers set. *)
Definition registryPrincipal (p : StoredPrincipal) (scopes : list Scope) (method : string) (meta : gmap string string) : Principal :=
  mkPrincipal (spID p) (spDisplayName p) (spKind p) method (spRoles p) scopes meta.

Definition keyPrincipal (p : StoredPrincipal) (rec : APIKey) (idn : Identity) : Principal :=
  registryPrincipal p (scopesNamed (akScopes rec)) MethodAPIKey
    (<[MetaKeyID := akID rec]> (<[MetaIdentityID := idnID idn]> ∅)).

(** [errors.Is(err, storage.ErrNotFound)]: [why] replaces it. *)
Definition not_found_as {A} (m : auth A) (why : AuthError) : auth A :=
  handle m (λ e, match e with ErrNotFound => throw why | _ => throw e end).

Definition keys_Verify (t1 t2 : Z) (raw : string) : auth (Principal * Identity) :=
  rec ← lk_Verify t1 raw;
  idn ← not_found_as (identity_Find IdentityMethodAPIKey nostr (akID rec)) (InvalidCredential KeyNoIdentity);
  _ ← check (identity_Active idn) (InvalidCredential KeyIdentityRevoked);
  _ ← check (str_eqb (idnPrincipalID idn) (akPrincipal rec)) (InvalidCredential KeyOtherPrincipal);
  p ← not_found_as (principal_Get (idnPrincipalID idn)) (InvalidCredential KeyNoPrincipal);
  _ ← check (principal_Active p) (InvalidCredential PrincipalNotActive);
  _ ← identity_Touch (idnID idn) t2;
  mret (keyPrincipal p rec idn, idn).

Definition keys_ScopesOf (p : StoredPrincipal) (idn : Identity) : auth (list Scope) :=
  if negb (str_eqb (idnMethod idn) IdentityMethodAPIKey) then mret (ScopesForRoles (spRoles p))
  else
    handle (rec ← lk_Get (idnSubject idn); mret (scopesNamed (akScopes rec)))
      (λ e, match e with ErrAPIKeyNotFound _ => mret [] | _ => throw e end).

(** The record behind an identity; [None] when it is gone ([continue]). *)
Definition record_of (idn : Identity) : auth (option APIKey) :=
  handle (rec ← lk_Get (idnSubject idn); mret (Some rec))
    (λ e, match e with ErrAPIKeyNotFound _ => mret None | _ => throw e end).

Fixpoint any_active_key (now : Z) (idns : list Identity) : auth bool :=
  match idns with
  | [] => mret false
  | idn :: idns =>
      if negb (str_eqb (idnMethod idn) IdentityMethodAPIKey) || negb (identity_Active idn) then any_active_key now idns
      else
        rec ← record_of idn;
        match rec with
        | None => any_active_key now idns
        | Some rec =>
            if IsZero (akRevokedAt rec) && (IsZero (akExpiresAt rec) || (now <? akExpiresAt rec)%Z)
            then mret true else any_active_key now idns
        end
  end.

Definition keys_OwnerHasActiveKey (now : Z) : auth bool :=
  idns ← identity_ListByPrincipal OwnerPrincipal; any_active_key now idns.

Record KeyInfo : Type := mkKeyInfo { kiKey : IssuedKey; kiRevokedAt : option Z; kiLastUsedAt : option Z }.

Definition keyInfo (rec : APIKey) (idn : Identity) : KeyInfo :=
  mkKeyInfo
    (mkIssuedKey (akID rec) (idnPrincipalID idn) (idnID idn) (idnName idn) (scopesNamed (akScopes rec))
       (akCreatedAt rec) (akExpiresAt rec))
    (match idnRevokedAt idn with
     | Some t => Some t
     | None => if negb (IsZero (akRevokedAt rec)) then Some (akRevokedAt rec) else None
     end)
    (idnLastUsedAt idn).

Definition api_not_found {A} (m : auth A) : auth A :=
  handle m (λ e, match e with ErrAPIKeyNotFound _ => throw ErrNotFound | _ => throw e end).

Definition keys_Get (id : string) : auth KeyInfo :=
  rec ← api_not_found (lk_Get id);
  idn ← identity_Find IdentityMethodAPIKey nostr (akID rec);
  mret (keyInfo rec idn).

Fixpoint infos (idns : list Identity) : auth (list KeyInfo) :=
  match idns with
  | [] => mret []
  | idn :: idns =>
      if negb (str_eqb (idnMethod idn) IdentityMethodAPIKey) then infos idns
      else
        rec ← record_of idn;
        rest ← infos idns;
        mret (match rec with Some rec => keyInfo rec idn :: rest | None => rest end)
  end.

Definition keys_ListByPrincipal (principalID : string) : auth (list KeyInfo) :=
  idns ← identity_ListByPrincipal principalID; infos idns.

Definition keys_Revoke (t1 t2 : Z) (id : string) : auth unit :=
  _ ← api_not_found (lk_Revoke t1 id);
  idn ← handle (i ← identity_Find IdentityMethodAPIKey nostr id; mret (Some i))
          (λ e, match e with ErrNotFound => mret None | _ => throw e end);
  match idn with
  | None => mret tt
  | Some idn => identity_Revoke (idnID idn) t2
  end.

(** ** Keys declared in config *)
Record ConfigKey : Type := mkConfigKey {
  ckHash : string;
  ckPrincipal : string;
  ckRoles : list string;
  ckExpiresAt : Z;
}.

Record Credential : Type := mkCredential {
  crScheme : string;
  crToken : string;
  crTLSPeers : nat;  (* the peer certificates of the connection *)
  crCookie : string;
}.

Definition Credential_Empty (c : Credential) : bool :=
  str_eqb (crToken c) nostr && str_eqb (crCookie c) nostr && (crTLSPeers c =? 0).

(** [configMatch]: the first declared key with the presented key's hash. *)
Definition configMatch (cfg : list ConfigKey) (now : Z) (raw : string) : auth (option Principal) :=
  match List.find (λ k, str_eqb (SHA256 raw) (ckHash k)) cfg with
  | None => mret None
  | Some hit =>
      if expired (ckExpiresAt hit) now then throw (InvalidCredential ConfigKeyExpired)
      else
        p ← not_found_as (principal_Get (ckPrincipal hit)) (InvalidCredential ConfigKeyNoPrincipal);
        _ ← check (principal_Active p) (InvalidCredential PrincipalNotActive);
        let own := ScopesForRoles (spRoles p) in
        let '(roles, scopes) :=
          match ckRoles hit with
          | [] => (spRoles p, own)
          | asked => (rolesWithin asked own, intersectScopes (ScopesForRoles asked) own)
          end in
        let out := registryPrincipal p scopes MethodAPIKey
                     (<[MetaKeyID := configKeyIDPrefix +:+ EncodeHex (str_take 6 (ckHash hit))]> ∅) in
        mret (Some (mkPrincipal (pID out) (pName out) (pKind out) (pProvider out) roles (pScopes out) (pMeta out)))
  end.

(** [APIKeyMethod.Authenticate]: the clock is read by [configMatch], [issuer.Verify]
    and [Verify] in turn. *)
Definition apikey_Authenticate (cfg : list ConfigKey) (t1 t2 t3 : Z) (cred : Credential) : auth (option Principal) :=
  if str_eqb (crToken cred) nostr then mret None
  else
    p ← configMatch cfg t1 (crToken cred);
    match p with
    | Some p => mret (Some p)
    | None => r ← keys_Verify t2 t3 (crToken cred); mret (Some r.1)
    end.

(** [RequireOwnerCredential] *)
Definition RequireOwnerCredential (cfg : list ConfigKey) (now : Z) : auth unit :=
  if existsb (λ k, str_eqb (ckPrincipal k) OwnerPrincipal && (IsZero (ckExpiresAt k) || (now <? ckExpiresAt k)%Z)) cfg
  then mret tt
  else
    ok ← keys_OwnerHasActiveKey now;
    check ok (AuthInvalid "no active owner credential").
End issuer.
