(* ===== verification/AuthSessions.v ===== *)
(** * Browser sessions, tickets and the chain of methods

    Models [internal/auth/session.go], [ticket.go] and [chain.go] over the
    registry.  Random bytes, new ids and the readings of the clock are arguments,
    one per call the source makes; the payload of an invite is JSON, a parameter. *)

From S2P Require Import Prelude GoStrings JobStore StorageScope Resolver Encodings AuthScopes AuthRegistry AuthKeys.

Definition MethodSession : string := "session".

Definition DefaultSessionIdleTTL : Z := 12 * 60 * Minute.
Definition DefaultSessionMaxTTL : Z := 7 * 24 * 60 * Minute.
Definition DefaultLoginCodeTTL : Z := 60 * Second.
Definition DefaultSessionTouchEvery : Z := Minute.

Record SessionOptions : Type := mkSessionOptions { IdleTTL : Z; MaxTTL : Z; CodeTTL : Z; TouchEvery : Z }.

Definition withDefaults (o : SessionOptions) : SessionOptions :=
  mkSessionOptions
    (if (IdleTTL o <=? 0)%Z then DefaultSessionIdleTTL else IdleTTL o)
    (if (MaxTTL o <=? 0)%Z then DefaultSessionMaxTTL else MaxTTL o)
    (if (CodeTTL o <=? 0)%Z then DefaultLoginCodeTTL else CodeTTL o)
    (if (TouchEvery o <=? 0)%Z then DefaultSessionTouchEvery else TouchEvery o).

Record ClientInfo : Type := mkClientInfo { ciUserAgent : string; ciRemoteAddr : string }.

Definition minTime (a b : Z) : Z := if (a <? b)%Z then a else b.
(** [truncate] *)
Definition truncate (s : string) (n : nat) : string := if String.length s <=? n then s else str_take n s.

Record Minted : Type := mkMinted { mSecret : string; mSession : UISession; mPrincipal : Principal }.

(** [sessionPrincipal]: the registry principal through a session. *)
Definition sessionPrincipal (p : StoredPrincipal) (scopes : list Scope) (sess : UISession) : Principal :=
  registryPrincipal p (SessionScopesFor scopes (usScope sess)) MethodSession
    (<[MetaVia := ViaSession]> (<[MetaSessionKind := usScope sess]>
       (<[MetaSessionID := usID sess]> (<[MetaIdentityID := usIdentityID sess]> ∅)))).

(** A session with the activity [Authenticate] records in memory. *)
Definition seen (now idle : Z) (s : UISession) : UISession :=
  mkUISession (usID s) (usSecretHash s) (usPrincipalID s) (usIdentityID s) (usScope s) (usUserAgent s) (usRemoteAddr s)
    (usCreatedAt s) now idle (usExpiresAt s) (usRevokedAt s) (usRevokeReason s).

Section sessions.
Context `{GoCrypto} `{KeyCodec}.
(** [s.opts], its defaults filled in, and whether [s.keys] is set. *)
Context (opts : SessionOptions) (with_keys : bool).

(** ** session.go *)

Definition newSessionID (b : string) : string := "uis_" +:+ EncodeHex b.

Definition MintCode (now : Z) (code_bytes : string) (p : option Principal) : auth (string * Z) :=
  match p with
  | None => throw ErrNoCredential
  | Some p =>
      if IsSession (Some p) then throw (InvalidCredential SessionCannotMint)
      else
        let idn := Meta p MetaIdentityID in
        if str_eqb idn nostr then throw (InvalidCredential NoIdentity)
        else
          let code := EncodeBase64 code_bytes in
          let expires := (now + CodeTTL opts)%Z in
          _ ← session_CreateLoginCode (mkLoginCode (HashSecret code) (pID p) idn SessionKindUI now expires);
          mret (code, expires)
  end.

Definition resolve (identityID principalID : string) : auth (StoredPrincipal * Identity * list Scope) :=
  idn ← not_found_as (identity_Get identityID) (InvalidCredential IdentityGone);
  _ ← check (identity_Active idn && str_eqb (idnPrincipalID idn) principalID) (InvalidCredential IdentityRevoked);
  p ← not_found_as (principal_Get principalID) (InvalidCredential PrincipalGone);
  _ ← check (principal_Active p) (InvalidCredential PrincipalNotActive);
  scopes ← (if with_keys then keys_ScopesOf p idn else mret (ScopesForRoles (spRoles p)));
  mret (p, idn, scopes).

(** [mintFor]: [sb] and [ib] are the random bytes of the secret and of the id. *)
Definition mintFor (now : Z) (sb ib identityID principalID kind : string) (ci : ClientInfo) : auth Minted :=
  r ← resolve identityID principalID;
  let '(p, idn, scopes) := r in
  let secret := EncodeBase64 sb in
  let expires := (now + MaxTTL opts)%Z in
  let sess := mkUISession (newSessionID ib) (HashSecret secret) (spID p) (idnID idn) kind
                (truncate (ciUserAgent ci) 256) (truncate (ciRemoteAddr ci) 64)
                now now (minTime (now + IdleTTL opts) expires) expires None nostr in
  _ ← session_Create sess;
  mret (mkMinted secret sess (sessionPrincipal p scopes sess)).

Definition Exchange (t1 t2 : Z) (sb ib code : string) (ci : ClientInfo) : auth Minted :=
  if str_eqb code nostr then throw ErrNoCredential
  else
    let codeHash := HashSecret code in
    lc ← not_found_as (session_ConsumeLoginCode codeHash t1) (InvalidCredential UnknownCode);
    _ ← check (str_eqb (lcCodeHash lc) codeHash) (InvalidCredential CodeHashMismatch);
    mintFor t2 sb ib (lcIdentityID lc) (lcPrincipalID lc) (lcScope lc) ci.

Definition MintFor (now : Z) (sb ib principalID identityID : string) (ci : ClientInfo) : auth Minted :=
  mintFor now sb ib identityID principalID SessionKindUI ci.

Definition ListSessionsByPrincipal (now : Z) (principalID : string) (all : bool) : auth (list UISession) :=
  session_List (negb all) now principalID 0.

(** [active]: a session the registry has outrun is revoked on the spot. *)
Definition active (now : Z) (secretHash : string) : auth (UISession * StoredPrincipal * list Scope) :=
  sess ← not_found_as (session_Lookup secretHash now) (InvalidCredential UnknownSession);
  r ← handle (resolve (usIdentityID sess) (usPrincipalID sess))
        (λ e, if is_invalid e
              then _ ← session_Revoke (usID sess) now RevokeReasonIdentityRevoked; throw e
              else throw e);
  let '(p, _, scopes) := r in
  mret (sess, p, scopes).

Definition Authenticate (t1 t2 : Z) (secret : string) : auth (Principal * UISession) :=
  if str_eqb secret nostr then throw ErrNoCredential
  else
    r ← active t1 (HashSecret secret);
    let '(sess, p, scopes) := r in
    if (TouchEvery opts <=? Sub t2 (usLastSeenAt sess))%Z then
      _ ← session_Touch (usID sess) t2 (t2 + IdleTTL opts);
      let sess := seen t2 (minTime (t2 + IdleTTL opts) (usExpiresAt sess)) sess in
      mret (sessionPrincipal p scopes sess, sess)
    else mret (sessionPrincipal p scopes sess, sess).

Definition CheckSession (now : Z) (secretHash : string) : auth unit := _ ← active now secretHash; mret tt.

Definition RevokeSession (now : Z) (id reason : string) : auth unit := session_Revoke id now reason.

(** [SessionMethod.Authenticate] *)
Definition session_Authenticate (t1 t2 : Z) (cred : Credential) : auth (option Principal) :=
  if str_eqb (crCookie cred) nostr then mret None
  else if negb (wellFormedSecret (crCookie cred)) then throw (InvalidCredential MalformedCookie)
  else
    handle (r ← Authenticate t1 t2 (crCookie cred); mret (Some r.1))
      (λ e, if is_invalid e then mret None else throw e).

(** ** ticket.go *)
Record Invite : Type := mkInvite { invDisplayName : string; invAudienceID : string; invTTL : Z }.
Record Issued : Type := mkIssued { isSecret : string; isExpiresAt : Z }.

Definition DefaultInviteTTL : Z := 7 * 24 * 60 * Minute.
Definition MagicLinkTTL : Z := 10 * Minute.
Definition LinkIdentityInvite : string := "invite".
Definition LinkIdentitySignIn : string := "sign-in link".

(** [InvitePayload] as JSON. *)
Context (MarshalInvite : string → string → option string).
Context (UnmarshalInvite : string → option (string * string)).
(** [t.sharing]: the audiences, [None] without a sharing registry.  [AddMember]
    is the sharing store's; it answers an error or nothing. *)
Context (sharing : option (string → bool)).
Context (AddMember : AudienceMember → result AuthError unit).

Definition MintInvite (now : Z) (secret : string) (by_ : option Principal) (inv : Invite) : auth Issued :=
  match by_ with
  | None => throw ErrNoCredential
  | Some by_ =>
      let name := TrimSpace (invDisplayName inv) in
      if str_eqb name nostr then throw (AuthInvalid "an invite needs the display name")
      else if (invTTL inv <? 0)%Z then throw (AuthInvalid "invite expiry must be positive")
      else
        let ttl := if (invTTL inv =? 0)%Z then DefaultInviteTTL else invTTL inv in
        _ ← (if str_eqb (invAudienceID inv) nostr then mret tt
             else match sharing with
                  | None => throw (AuthInvalid "no sharing registry")
                  | Some audiences => check (audiences (invAudienceID inv)) ErrNotFound
                  end);
        match MarshalInvite name (invAudienceID inv) with
        | None => throw (AuthInvalid "encode invite")
        | Some payload =>
            s ← ticket_Issue now secret (mkTicketIssue TicketKindInvite payload ttl (pID by_) nostr now);
            mret (mkIssued s (now + ttl))
        end
  end.

Definition MintLink (now : Z) (secret : string) (by_ : option Principal) (principalID : string) : auth Issued :=
  match by_ with
  | None => throw ErrNoCredential
  | Some by_ =>
      p ← principal_Get principalID;
      _ ← check (principal_Active p) ErrPrincipalInactive;
      s ← ticket_Issue now secret (mkTicketIssue TicketKindMagicLink nostr MagicLinkTTL (pID by_) (spID p) now);
      mret (mkIssued s (now + MagicLinkTTL))
  end.

Definition redeem (now : Z) (kind secret : string) : auth Ticket :=
  if str_eqb secret nostr then throw ErrNoCredential
  else
    handle (ticket_Redeem kind secret now)
      (λ e, match e with
            | ErrNotFound | ErrPrincipalInactive => throw (InvalidCredential InvalidTicket)
            | _ => throw e
            end).

Definition bindAndMint (t : Z) (idnID sb ib principalID subject name : string) (now : Z) (ci : ClientInfo) : auth Minted :=
  idn ← identity_Create now idnID (mkIdentity nostr principalID IdentityMethodLink nostr subject name now None None);
  MintFor t sb ib principalID (AuthRegistry.idnID idn) ci.

Definition RedeemInvite (t1 t2 t3 : Z) (newID idnID sb ib secret : string) (ci : ClientInfo) : auth Minted :=
  tk ← redeem t1 TicketKindInvite secret;
  match UnmarshalInvite (tkPayload tk) with
  | None => throw (AuthInvalid "decode invite")
  | Some (name, audience) =>
      _ ← (if str_eqb audience nostr then mret tt
           else match sharing with
                | None => throw (AuthInvalid "no sharing registry")
                | Some audiences => check (audiences audience) ErrNotFound
                end);
      p ← principal_Create t2 newID (mkSP nostr PrincipalKindPerson name [] nostr t2 None);
      _ ← (if str_eqb audience nostr then mret tt
           else lift (AddMember (mkAudienceMember audience (spID p) None (tkCreatedBy tk) t2)));
      bindAndMint t3 idnID sb ib (spID p) (TicketHash secret) LinkIdentityInvite t2 ci
  end.

Definition RedeemLink (t1 t2 t3 : Z) (idnID sb ib secret : string) (ci : ClientInfo) : auth Minted :=
  tk ← redeem t1 TicketKindMagicLink secret;
  bindAndMint t3 idnID sb ib (tkPrincipalID tk) (TicketHash secret) LinkIdentitySignIn t2 ci.
End sessions.

(** ** chain.go *)
Record Method : Type := mkMethod {
  mName : string;
  mAmbient : bool;
  mAuthenticate : Credential → auth (option Principal);
}.

(** [Result] with the error: a match, a refusal, or nothing that matched. *)
Inductive Outcome : Type :=
| Authenticated (p : Principal) (method : string) (ambient : bool)
| Refused (e : AuthError)
| NoCredential (clearCookie : bool).

Definition Chain : Type := list Method.

Definition NewChain (methods : list Method) : Chain :=
  List.filter (λ m, negb (mAmbient m)) methods ++ List.filter mAmbient methods.

(** The map keeps the last method of a name. *)
Definition byName (available : list Method) (name : string) : option Method :=
  List.find (λ m, str_eqb (mName m) name) (rev available).

Fixpoint pick (available : list Method) (names : list string) : result AuthError (list Method) :=
  match names with
  | [] => Ok []
  | n :: names =>
      match byName available n with
      | None => Err (AuthInvalid "method is configured but not available")
      | Some m => cons m <$> pick available names
      end
  end.

Definition ChainFor (names : list string) (available : list Method) : result AuthError Chain :=
  NewChain <$> pick available names.

Definition Methods (c : Chain) : list string := map mName c.
Definition Has (c : option Chain) (name : string) : bool :=
  match c with None => false | Some c => contains (Methods c) name end.

Fixpoint chain_Authenticate (c : Chain) (cred : Credential) (d : AuthDB) : Outcome * AuthDB :=
  match c with
  | [] => (NoCredential (negb (str_eqb (crCookie cred) nostr)), d)
  | m :: c' =>
      match mAuthenticate m cred d with
      | (Err e, d') => (Refused e, d')
      | (Ok (Some p), d') => (Authenticated p (mName m) (mAmbient m), d')
      | (Ok None, d') => chain_Authenticate c' cred d'
      end
  end.

(** The two methods a build has, and the ones a chain may be made of. *)
Definition apikey_method `{GoCrypto} `{KeyCodec} (cfg : list ConfigKey) (t1 t2 t3 : Z) : Method :=
  mkMethod MethodAPIKey false (apikey_Authenticate cfg t1 t2 t3).
Definition session_method `{GoCrypto} `{KeyCodec} (opts : SessionOptions) (with_keys : bool) (t1 t2 : Z) : Method :=
  mkMethod MethodSession true (session_Authenticate opts with_keys t1 t2).
