(* ===== verification/AuthSafety.v ===== *)
(** * What a credential can do

    The theorems about the credential code as a whole: which requests the chain
    authenticates in a database that any run of the registry's statements
    reached, and that every method of package [auth] is such a run. *)

From S2P Require Import Prelude GoStrings JobStore StorageScope Resolver Encodings AuthScopes AuthRegistry AuthInvariants AuthKeys AuthSessions.

(** ** Taking a successful step apart *)
Lemma bind_ok {A B} (m : auth A) (f : A → auth B) d b d' :
  (m ≫= f) d = (Ok b, d') → ∃ a d1, m d = (Ok a, d1) ∧ f a d1 = (Ok b, d').
Proof. intros [(e & _ & Hr)|H]%bind_inv; [discriminate|done]. Qed.

Lemma handle_ok {A} (m : auth A) h d a d' :
  handle m h d = (Ok a, d') → m d = (Ok a, d') ∨ ∃ e d1, m d = (Err e, d1) ∧ h e d1 = (Ok a, d').
Proof. unfold handle. destruct (m d) as [[x|e] d1]; intros H; [left; done|right; eauto]. Qed.

Lemma not_found_as_ok {A} (m : auth A) why d a d' : not_found_as m why d = (Ok a, d') → m d = (Ok a, d').
Proof. intros [H|(e & d1 & _ & H)]%handle_ok; [done|]. by destruct e. Qed.

Lemma check_ok b e d u d' : check b e d = (Ok u, d') → b = true ∧ d' = d.
Proof. unfold check. destruct b; intros H; [|discriminate]. by injection H as _ <-. Qed.

Lemma ret_ok {A} (a : A) d b d' : (mret a : auth A) d = (Ok b, d') → b = a ∧ d' = d.
Proof. by intros [= <- <-]. Qed.

Lemma lift_ok {A} (m : result AuthError A) d a d' : lift m d = (Ok a, d') → m = Ok a ∧ d' = d.
Proof. by intros [= -> <-]. Qed.

(** One bind at a time, reading what checks and returns say. *)
Ltac inv_auth H :=
  repeat match type of H with
  | (_ ≫= _) _ = (Ok _, _) =>
      let a := fresh "x" in let d1 := fresh "d" in let Ha := fresh "Hs" in
      apply bind_ok in H as (a & d1 & Ha & H);
      lazymatch type of Ha with
      | check _ _ _ = _ => apply check_ok in Ha as [Ha ->]
      | lift _ _ = _ => apply lift_ok in Ha as [Ha ->]
      | not_found_as _ _ _ = _ => apply not_found_as_ok in Ha
      | _ => idtac
      end
  | mret _ _ = (Ok _, _) => apply ret_ok in H as [H ->]
  end.

(** ** Read-only steps *)
Lemma reads_ret {A} (a : A) : reads_only (mret a). Proof. by intros d r d' [= _ <-]. Qed.
Lemma reads_throw {A} e : reads_only (throw (A := A) e). Proof. by intros d r d' [= _ <-]. Qed.
Lemma reads_gets {A} (f : AuthDB → A) : reads_only (gets f). Proof. by intros d r d' [= _ <-]. Qed.
Lemma reads_check b e : reads_only (check b e). Proof. destruct b; [apply reads_ret|apply reads_throw]. Qed.
Lemma reads_of_option {A} (o : option A) e : reads_only (of_option o e).
Proof. destruct o; [apply reads_ret|apply reads_throw]. Qed.
Lemma reads_lift {A} (m : result AuthError A) : reads_only (lift m). Proof. by intros d r d' [= _ <-]. Qed.

Lemma reads_bind {A B} (m : auth A) (f : A → auth B) : reads_only m → (∀ a, reads_only (f a)) → reads_only (m ≫= f).
Proof.
  intros Hm Hf d r d' [(e & H & _)|(a & d1 & H & H')]%bind_inv; [by apply Hm in H|].
  apply Hm in H as ->. by apply Hf in H'.
Qed.

Lemma reads_handle {A} (m : auth A) h : reads_only m → (∀ e, reads_only (h e)) → reads_only (handle m h).
Proof.
  intros Hm Hh d r d'. unfold handle. destruct (m d) as [[a|e] d1] eqn:H; apply Hm in H as ->; [by intros [= _ <-]|].
  apply Hh.
Qed.

Lemma reads_principal_Get id : reads_only (principal_Get id).
Proof. intros d r d' H. by apply principal_Get_state in H as [-> _]. Qed.
Lemma reads_identity_Get id : reads_only (identity_Get id).
Proof. intros d r d'. unfold identity_Get. destruct (_ !! _); by intros [= _ <-]. Qed.
Lemma reads_identity_Find m i s : reads_only (identity_Find m i s).
Proof. intros d r d'. unfold identity_Find. destruct (map_find _ _); by intros [= _ <-]. Qed.
Lemma reads_session_Lookup h t : reads_only (session_Lookup h t).
Proof. intros d r d'. unfold session_Lookup. destruct (map_find _ _); by intros [= _ <-]. Qed.

Create HintDb auth_reads.
#[export] Hint Resolve reads_ret reads_throw reads_gets reads_check reads_of_option reads_lift
  reads_principal_Get reads_identity_Get reads_identity_Find reads_session_Lookup : auth_reads.
#[export] Hint Extern 2 (reads_only (_ ≫= _)) => apply reads_bind; [|intros ?] : auth_reads.
#[export] Hint Extern 2 (reads_only (handle _ _)) => apply reads_handle; [|intros ?] : auth_reads.

Ltac solve_reads := repeat first [progress eauto 4 with auth_reads | progress intros | case_match].

Section reads_only.
Context `{GoCrypto} `{KeyCodec}.

Lemma reads_not_found_as {A} (m : auth A) why : reads_only m → reads_only (not_found_as m why).
Proof. intros Hm. apply reads_handle; [done|]. intros []; apply reads_throw. Qed.
Lemma reads_api_not_found {A} (m : auth A) : reads_only m → reads_only (api_not_found m).
Proof. intros Hm. apply reads_handle; [done|]. intros []; apply reads_throw. Qed.
Lemma reads_lk_get id : reads_only (lk_get id).
Proof. unfold lk_get, kv_Get. apply reads_bind; [apply reads_gets|]. intros o. solve_reads. Qed.
Lemma reads_lk_Get id : reads_only (lk_Get id).
Proof. apply reads_bind; [apply reads_lk_get|intros; apply reads_of_option]. Qed.
Lemma reads_ScopesOf p idn : reads_only (keys_ScopesOf p idn).
Proof.
  unfold keys_ScopesOf. destruct (negb _); [apply reads_ret|]. apply reads_handle.
  - apply reads_bind; [apply reads_lk_Get|intros; apply reads_ret].
  - intros []; solve_reads.
Qed.
Lemma reads_lk_Verify now raw : reads_only (lk_Verify now raw).
Proof.
  unfold lk_Verify. destruct (str_eqb _ _); [apply reads_throw|]. destruct (splitAPIKey _) as [[id sec]|]; [|apply reads_throw].
  apply reads_bind; [apply reads_lk_get|]. intros [rec|]; [|apply reads_throw]. solve_reads.
Qed.
Lemma reads_resolve wk id pid : reads_only (resolve wk id pid).
Proof.
  unfold resolve. apply reads_bind; [apply reads_not_found_as, reads_identity_Get|]. intros idn.
  apply reads_bind; [apply reads_check|]. intros _.
  apply reads_bind; [apply reads_not_found_as, reads_principal_Get|]. intros p.
  apply reads_bind; [apply reads_check|]. intros _.
  apply reads_bind; [|intros; apply reads_ret]. destruct wk; [apply reads_ScopesOf|apply reads_ret].
Qed.
Lemma reads_configMatch cfg now raw : reads_only (configMatch cfg now raw).
Proof.
  unfold configMatch. destruct (List.find _ _) as [hit|]; [|apply reads_ret]. destruct (expired _ _); [apply reads_throw|].
  apply reads_bind; [apply reads_not_found_as, reads_principal_Get|]. intros p.
  apply reads_bind; [apply reads_check|]. intros _. destruct (ckRoles hit); apply reads_ret.
Qed.
End reads_only.

(** ** What a success says *)
Section spec.
Context `{GoCrypto} `{KeyCodec}.

(** The registry rows behind an identity that may act for a principal. *)
Record standing (d : AuthDB) (identityID principalID : string) (i : Identity) (p : StoredPrincipal) : Prop := {
  st_identity : dbIdentities d !! identityID = Some i;
  st_live : idnRevokedAt i = None;
  st_owner : idnPrincipalID i = principalID;
  st_principal : dbPrincipals d !! principalID = Some p;
  st_active : spStatus p = PrincipalActive;
}.

Lemma identity_Get_ok id d i d' : identity_Get id d = (Ok i, d') → d' = d ∧ ∃ r, dbIdentities d !! id = Some r ∧ i = scanIdentity r.
Proof. unfold identity_Get. destruct (_ !! _) eqn:Hk; intros [= <- <-]; eauto. Qed.

Lemma principal_Get_ok id d p d' : principal_Get id d = (Ok p, d') → d' = d ∧ ∃ r, dbPrincipals d !! id = Some r ∧ p = scanPrincipal r.
Proof. intros Hg. by apply principal_Get_state in Hg as [-> (q & Hq & ->)]; eauto. Qed.

Lemma identity_Find_ok m s t d i d' : identity_Find m s t d = (Ok i, d') → d' = d ∧
  ∃ k r, dbIdentities d !! k = Some r ∧ same_triple m s t r = true ∧ i = scanIdentity r.
Proof.
  unfold identity_Find. destruct (map_find _ _) as [r|] eqn:Hf; intros [= <- <-]. split; [done|].
  apply map_find_some in Hf as (k & Hk & Ht). eauto.
Qed.

Lemma scan_live i : identity_Active (scanIdentity i) = true → idnRevokedAt i = None.
Proof. unfold identity_Active, scanIdentity, idn_times. cbn. by destruct (idnRevokedAt i). Qed.

Lemma resolve_ok wk id pid d r d' : resolve wk id pid d = (Ok r, d') →
  d' = d ∧ ∃ i p, standing d id pid i p ∧ r.1.1 = scanPrincipal p ∧ r.1.2 = scanIdentity i ∧
    (if wk then keys_ScopesOf (scanPrincipal p) (scanIdentity i) d = (Ok r.2, d) else r.2 = ScopesForRoles (spRoles p)).
Proof.
  unfold resolve. intros Hr. inv_auth Hr.
  apply identity_Get_ok in Hs as (-> & i & Hi & ->). apply andb_true_iff in Hs0 as [Hl Ho%str_eqb_true].
  apply principal_Get_ok in Hs1 as (-> & p & Hp & ->). apply str_eqb_true in Hs2.
  match type of Hs3 with _ = (_, ?e) => assert (e = d) as -> end.
  { destruct wk; [by apply reads_ScopesOf in Hs3|by apply ret_ok in Hs3 as [_ ->]]. }
  split; [done|].
  exists i, p. subst r. cbn [fst snd]. split; [split; [exact Hi|by apply scan_live|exact Ho|exact Hp|exact Hs2]|].
  split; [reflexivity|]. split; [reflexivity|]. destruct wk; [exact Hs3|]. by apply ret_ok in Hs3 as [-> _].
Qed.

(** A key record at its place in the key-value table. *)
Definition key_at (d : AuthDB) (id : string) (rec : APIKey) : Prop :=
  ∃ data, dbKV d !! (apiKeyStorePrefix +:+ id) = Some data ∧ UnmarshalKey data = Some rec.

Lemma lk_get_ok id d o d' : lk_get id d = (Ok o, d') → d' = d ∧ ∀ rec, o = Some rec ↔ key_at d id rec.
Proof.
  unfold lk_get. intros Hg. inv_auth Hg. injection Hs as <- <-. unfold key_at.
  destruct (dbKV d !! _) as [data|].
  - destruct (UnmarshalKey data) as [rec'|] eqn:Hu; [|discriminate]. apply ret_ok in Hg as [-> ->].
    split; [done|]. intros rec. split; [intros [= ->]; eauto|]. intros (data' & [= <-] & Hu'). congruence.
  - apply ret_ok in Hg as [-> ->]. split; [done|]. intros rec. split; [discriminate|]. by intros (data' & ? & _).
Qed.

Lemma lk_Get_ok id d rec d' : lk_Get id d = (Ok rec, d') → d' = d ∧ key_at d id rec.
Proof.
  unfold lk_Get. intros Hg. inv_auth Hg. apply lk_get_ok in Hs as [-> Hs]. destruct x as [x|]; [|discriminate].
  apply ret_ok in Hg as [-> ->]. split; [done|]. by apply Hs.
Qed.

(** A key that verifies: its record, and the secret that hashes to it. *)
Lemma lk_Verify_ok now raw d rec d' : lk_Verify now raw d = (Ok rec, d') →
  d' = d ∧ ∃ id sec, splitAPIKey (TrimSpace raw) = Some (id, sec) ∧ key_at d id rec ∧
    akHash rec = apiKeyHash id sec ∧ akRevokedAt rec = ZeroTime ∧ (akExpiresAt rec = ZeroTime ∨ (now < akExpiresAt rec)%Z).
Proof.
  unfold lk_Verify. destruct (str_eqb _ _); [discriminate|].
  destruct (splitAPIKey (TrimSpace raw)) as [[id sec]|] eqn:Hsplit; [|discriminate].
  intros Hv. inv_auth Hv. apply lk_get_ok in Hs as [-> Hs]. destruct x as [x|]; [|discriminate].
  destruct (str_eqb _ _) eqn:Hh; [|discriminate]. cbn [negb] in Hv. apply str_eqb_true in Hh.
  destruct (IsZero (akRevokedAt x)) eqn:Hr; [|discriminate]. cbn [negb] in Hv. apply Z.eqb_eq in Hr.
  destruct (expired _ _) eqn:He; [discriminate|]. apply ret_ok in Hv as [-> ->]. split; [done|].
  exists id, sec. do 4 (split; [done || by apply Hs|]).
  unfold expired, IsZero in He. apply andb_false_iff in He as [He|He].
  - left. by apply negb_false_iff, Z.eqb_eq in He.
  - right. by apply negb_false_iff, Z.ltb_lt in He.
Qed.

Lemma keys_Verify_ok t1 t2 raw d p i d' : keys_Verify t1 t2 raw d = (Ok (p, i), d') →
  ∃ rec k irow prow, lk_Verify t1 raw d = (Ok rec, d) ∧
    standing d k (akPrincipal rec) irow prow ∧ same_triple IdentityMethodAPIKey nostr (akID rec) irow = true ∧
    i = scanIdentity irow ∧ p = keyPrincipal (scanPrincipal prow) rec (scanIdentity irow).
Proof.
  unfold keys_Verify. intros Hv. inv_auth Hv. pose proof (reads_lk_Verify _ _ _ _ _ Hs) as ->.
  apply identity_Find_ok in Hs0 as (-> & k & irow & Hk & Ht & ->). apply scan_live in Hs1.
  apply str_eqb_true in Hs2. apply principal_Get_ok in Hs3 as (-> & prow & Hp & ->). apply str_eqb_true in Hs4.
  injection Hv as -> ->. exists x, k, irow, prow. split; [done|]. split; [|done].
  split; try done. cbn in Hs2, Hp. by rewrite <- Hs2.
Qed.

Lemma configMatch_ok cfg now raw d p d' : configMatch cfg now raw d = (Ok (Some p), d') →
  d' = d ∧ ∃ hit prow, hit ∈ cfg ∧ SHA256 raw = ckHash hit ∧ dbPrincipals d !! ckPrincipal hit = Some prow ∧
    spStatus prow = PrincipalActive ∧ pID p = spID prow ∧ pMeta p !! MetaIdentityID = None ∧
    pRoles p = (match ckRoles hit with [] => spRoles prow | a => rolesWithin a (ScopesForRoles (spRoles prow)) end) ∧
    pScopes p = (match ckRoles hit with
                 | [] => ScopesForRoles (spRoles prow)
                 | a => intersectScopes (ScopesForRoles a) (ScopesForRoles (spRoles prow))
                 end).
Proof.
  intros Hc. pose proof (reads_configMatch _ _ _ _ _ _ Hc) as ->. split; [done|]. revert Hc.
  unfold configMatch. destruct (List.find _ _) as [hit|] eqn:Hf; [|discriminate].
  apply find_some in Hf as [Hin Hh%str_eqb_true]. destruct (expired _ _); [discriminate|].
  intros Hc. inv_auth Hc. apply principal_Get_ok in Hs as (-> & prow & Hp & ->). apply str_eqb_true in Hs0.
  exists hit, prow. rewrite <- list_elem_of_In in Hin. cbn [scanPrincipal sp_times spStatus spRoles] in Hs0, Hc.
  split; [exact Hin|]. split; [exact Hh|]. split; [exact Hp|]. split; [exact Hs0|].
  destruct (ckRoles hit) as [|r rs]; apply ret_ok in Hc as [Hc _]; apply (inj Some) in Hc as ->;
    (split; [reflexivity|]; 
     split; [cbn [pMeta registryPrincipal]; rewrite lookup_insert_ne by discriminate; apply lookup_empty|]; split; reflexivity).
Qed.
End spec.

(** ** The methods of package auth

    Every method is a composition of statements: what a preorder relates the
    ends of each statement by, it relates the ends of each method by. *)
Create HintDb auth_does.
#[export] Hint Resolve reads_lk_get reads_lk_Get reads_ScopesOf reads_lk_Verify reads_resolve reads_configMatch : auth_reads.
#[export] Hint Constructors plain_op : auth_does.

(** Peels a method: binds, handlers and branches down to statements and reads. *)
Ltac solve_does :=
  cbn beta zeta;
  first
    [ solve [apply does_reads; [assumption|]; eauto 2 with auth_reads]
    | solve [eauto 2 with auth_does]
    | apply does_bind; [assumption| |intros ?]; solve_does
    | apply does_handle; [assumption| |intros ?]; solve_does
    | match goal with |- does _ (match ?x with _ => _ end) => destruct x; solve_does end
    | idtac ].

Section methods.
Context `{GoCrypto} `{KeyCodec} (opts : SessionOptions) (wk : bool) (cfg : list ConfigKey).
Context (MarshalInvite : string → string → option string) (UnmarshalInvite : string → option (string * string)).
Context (sharing : option (string → bool)) (AddMember : AudienceMember → result AuthError unit).

(** A call of the credential code, with any arguments; minting a key is apart. *)
Inductive api_method : ∀ A, auth A → Prop :=
| api_plain A m : plain_op A m → api_method A m
| api_RevokeKey t1 t2 id : api_method _ (keys_Revoke t1 t2 id)
| api_apikey t1 t2 t3 cred : api_method _ (apikey_Authenticate cfg t1 t2 t3 cred)
| api_session t1 t2 cred : api_method _ (session_Authenticate opts wk t1 t2 cred)
| api_CheckSession now h : api_method _ (CheckSession wk now h)
| api_MintCode now b p : api_method _ (MintCode opts now b p)
| api_Exchange t1 t2 sb ib code ci : api_method _ (Exchange opts wk t1 t2 sb ib code ci)
| api_MintInvite now secret by_ inv : api_method _ (MintInvite MarshalInvite sharing now secret by_ inv)
| api_MintLink now secret by_ pid : api_method _ (MintLink now secret by_ pid)
| api_RedeemInvite t1 t2 t3 id idn sb ib secret ci :
    api_method _ (RedeemInvite opts wk UnmarshalInvite sharing AddMember t1 t2 t3 id idn sb ib secret ci)
| api_RedeemLink t1 t2 t3 idn sb ib secret ci : api_method _ (RedeemLink opts wk t1 t2 t3 idn sb ib secret ci).

(** A key is minted under an id that no key has: its 64 random bits are fresh. *)
Inductive api_step (d d' : AuthDB) : Prop :=
| api_step_method A (m : auth A) r : api_method A m → m d = (r, d') → api_step d d'
| api_step_mint t1 t2 t3 idb sec idn spec r :
    dbKV d !! (apiKeyStorePrefix +:+ EncodeHex idb) = None → keys_Mint t1 t2 t3 idb sec idn spec d = (r, d') → api_step d d'.

Section compose.
Context (R : AuthDB → AuthDB → Prop) {HR : PreOrder R}.
Hypothesis Hplain : ∀ A (m : auth A), plain_op A m → does R m.
Hypothesis Hlink : ∀ now id pid subject name t,
  does R (identity_Create now id (mkIdentity nostr pid IdentityMethodLink nostr subject name t None None)).
Hypothesis Hrevoke : ∀ now id, does R (lk_Revoke now id).
Hypothesis Hopen : ∀ now sb ib i p k ci, does R (mintFor opts wk now sb ib i p k ci).
Hypothesis Hauth : ∀ t1 t2 secret, does R (Authenticate opts wk t1 t2 secret).

Lemma does_not_found_as {A} (m : auth A) why : does R m → does R (not_found_as m why).
Proof using HR. intros Hm. apply does_handle; [done|done|]. intros []; apply does_reads, reads_throw; done. Qed.
Lemma does_api_not_found {A} (m : auth A) : does R m → does R (api_not_found m).
Proof using HR. intros Hm. apply does_handle; [done|done|]. intros []; apply does_reads, reads_throw; done. Qed.

Hint Resolve Hplain Hlink Hrevoke Hopen Hauth does_not_found_as does_api_not_found : auth_does.
Hint Extern 1 (does _ _) => solve [apply Hplain; constructor] : auth_does.

Lemma does_keys_Verify t1 t2 raw : does R (keys_Verify t1 t2 raw).
Proof using HR Hplain. unfold keys_Verify, not_found_as. solve_does. Qed.
Lemma does_active now h : does R (active wk now h).
Proof using HR Hplain. unfold active, not_found_as. solve_does. Qed.
Lemma does_redeem now kind secret : does R (redeem now kind secret).
Proof using HR Hplain. unfold redeem. solve_does. Qed.
Lemma does_bindAndMint t idn sb ib pid subj name now ci : does R (bindAndMint opts wk t idn sb ib pid subj name now ci).
Proof using HR Hlink Hopen. unfold bindAndMint, MintFor. solve_does. Qed.
Hint Resolve does_keys_Verify does_active does_redeem does_bindAndMint : auth_does.

Lemma api_does A (m : auth A) : api_method A m → does R m.
Proof using All.
  intros Hm. destruct Hm.
  - by apply Hplain.
  - unfold keys_Revoke. solve_does.
  - unfold apikey_Authenticate. solve_does.
  - unfold session_Authenticate. solve_does.
  - unfold CheckSession. solve_does.
  - unfold MintCode. solve_does.
  - unfold Exchange, not_found_as. solve_does.
  - unfold MintInvite. solve_does.
  - unfold MintLink. solve_does.
  - unfold RedeemInvite. solve_does.
  - unfold RedeemLink. solve_does.
Qed.

Lemma api_steps_does d d' :
  (∀ t1 t2 t3 idb sec idn spec d r d', dbKV d !! (apiKeyStorePrefix +:+ EncodeHex idb) = None →
     keys_Mint t1 t2 t3 idb sec idn spec d = (r, d') → R d d') →
  star api_step d d' → R d d'.
Proof using All.
  intros Hmint. induction 1 as [d|d d1 d2 [A m r Hm Hr|t1 t2 t3 idb sec idn spec r Hf Hr] _ IH]; [reflexivity| |].
  - transitivity d1; [by eapply api_does|done].
  - transitivity d1; [by eapply Hmint|done].
Qed.
End compose.

(** *** Every method is a run of the registry's statements *)
Definition runs {A} (m : auth A) : Prop := does (star reg_step) m.

#[export] Instance reg_steps_preorder : PreOrder (star reg_step).
Proof. split; red; [constructor|intros; by eapply star_trans]. Qed.

Lemma runs_op {A} (m : auth A) : store_op A m → runs m.
Proof. intros Hop d r d' Hr. eapply star_step; [|constructor]. by econstructor. Qed.

Ltac by_op := apply runs_op;
  first [apply op_plain; solve [constructor] | apply op_identity_Create | apply op_session_Create | apply op_session_Touch | apply op_kv_Put].
Hint Extern 1 (does _ _) => by_op : auth_does.

Lemma runs_lk_put rec : does (star reg_step) (lk_put rec).
Proof. pose proof reg_steps_preorder. unfold lk_put. solve_does. Qed.
Hint Resolve runs_lk_put : auth_does.
Lemma runs_lk_Revoke now id : does (star reg_step) (lk_Revoke now id).
Proof. pose proof reg_steps_preorder. unfold lk_Revoke. solve_does. Qed.
Hint Resolve runs_lk_Revoke : auth_does.
Lemma runs_keys_Mint t1 t2 t3 idb sec idn spec : does (star reg_step) (keys_Mint t1 t2 t3 idb sec idn spec).
Proof. pose proof reg_steps_preorder. unfold keys_Mint, lk_Create. solve_does. Qed.
Lemma runs_mintFor now sb ib i p k ci : does (star reg_step) (mintFor opts wk now sb ib i p k ci).
Proof. pose proof reg_steps_preorder. unfold mintFor. solve_does. Qed.
Lemma runs_Authenticate t1 t2 secret : does (star reg_step) (Authenticate opts wk t1 t2 secret).
Proof.
  pose proof reg_steps_preorder. unfold Authenticate. destruct (str_eqb _ _); [solve_does|].
  apply does_bind; [done| |].
  - apply does_active; [done|]. intros A m Hop. by apply runs_op, op_plain.
  - intros [[s p] sc]. solve_does.
Qed.

Lemma api_runs A (m : auth A) : api_method A m → runs m.
Proof.
  apply (api_does (star reg_step)); [| |apply runs_lk_Revoke|apply runs_mintFor|apply runs_Authenticate].
  - intros B m' Hop. by apply runs_op, op_plain.
  - intros. by_op.
Qed.

Lemma api_steps_runs d d' : star api_step d d' → star reg_step d d'.
Proof.
  induction 1 as [d|d d1 d2 [A m r Hm Hr|t1 t2 t3 idb sec idn spec r Hf Hr] _ IH]; [constructor| |].
  - apply api_runs in Hr; [|done]. by eapply star_trans.
  - apply runs_keys_Mint in Hr. by eapply star_trans.
Qed.
End methods.

(** ** Who the chain authenticates *)
Section chain.
Context `{GoCrypto} `{KeyCodec}.

Lemma session_Lookup_ok h t d s d' : session_Lookup h t d = (Ok s, d') →
  d' = d ∧ ∃ k r, dbSessions d !! k = Some r ∧ usSecretHash r = h ∧ row_active (toMillis t) r = true ∧ s = scanUISession r.
Proof.
  unfold session_Lookup. destruct (map_find _ _) as [r|] eqn:Hf; intros [= <- <-]. split; [done|].
  apply map_find_some in Hf as (k & Hk & Hr). apply andb_true_iff in Hr as [Hh%str_eqb_true Ha]. eauto 6.
Qed.

(** [active]: the row of the session, its standing credential and its scopes. *)
Lemma active_ok wk now h d r d' : active wk now h d = (Ok r, d') →
  d' = d ∧ ∃ k s i p, dbSessions d !! k = Some s ∧ usSecretHash s = h ∧ row_active (toMillis now) s = true ∧
    standing d (usIdentityID s) (usPrincipalID s) i p ∧ r.1.1 = scanUISession s ∧ r.1.2 = scanPrincipal p ∧
    (if wk then keys_ScopesOf (scanPrincipal p) (scanIdentity i) d = (Ok r.2, d) else r.2 = ScopesForRoles (spRoles p)).
Proof.
  unfold active. intros Ha. inv_auth Ha. apply session_Lookup_ok in Hs as (-> & k & s & Hk & Hh & Hrow & ->).
  apply handle_ok in Hs0 as [Hs0|(e & de & _ & Hs0)].
  - apply resolve_ok in Hs0 as (-> & i & p & Hst & E1 & E2 & Hsc). destruct x0 as [[p' i'] sc].
    apply ret_ok in Ha as [-> ->]. split; [done|]. exists k, s, i, p. cbn [fst snd] in *. auto 10.
  - destruct (is_invalid e); [|discriminate]. apply bind_ok in Hs0 as (? & ? & _ & Hs0). discriminate.
Qed.

(** What [Authenticate] answers is the session of [active], seen or not. *)
Lemma Authenticate_ok opts wk t1 t2 secret d p sess d' : Authenticate opts wk t1 t2 secret d = (Ok (p, sess), d') →
  ∃ s q sc seen_at idle, active wk t1 (HashSecret secret) d = (Ok (s, q, sc), d) ∧
    (sess = s ∨ sess = seen seen_at idle s) ∧ p = sessionPrincipal q sc sess ∧
    (d' = d ∨ ∃ u, session_Touch (usID s) t2 (t2 + IdleTTL opts) d = (Ok u, d')).
Proof.
  unfold Authenticate. destruct (str_eqb secret nostr); [discriminate|]. intros Ha. inv_auth Ha.
  destruct x as [[s q] sc]. pose proof (active_ok _ _ _ _ _ _ Hs) as [-> _].
  destruct (_ <=? _)%Z.
  - apply bind_ok in Ha as (u & d2 & Ht & Ha). apply ret_ok in Ha as [Ha ->].
    exists s, q, sc. eexists _, _. split; [done|]. injection Ha as -> ->. split; [by right|]. split; [done|]. right. eauto.
  - apply ret_ok in Ha as [Ha ->]. exists s, q, sc, 0%Z, 0%Z. injection Ha as -> ->. auto.
Qed.

Lemma session_Meta_identity q sc s : pMeta (sessionPrincipal q sc s) !! MetaIdentityID = Some (usIdentityID s).
Proof. unfold sessionPrincipal. cbn [pMeta registryPrincipal]. rewrite !lookup_insert_ne by discriminate. apply lookup_insert_eq. Qed.

Lemma key_Meta_identity p rec i : pMeta (keyPrincipal p rec i) !! MetaIdentityID = Some (idnID i).
Proof. unfold keyPrincipal. cbn [pMeta registryPrincipal]. rewrite lookup_insert_ne by discriminate. apply lookup_insert_eq. Qed.

(** A caller and the registry rows that vouch for it: an active principal, and
    the live identity its credential is bound to unless config declared it. *)
Definition vouched (d : AuthDB) (p : Principal) : Prop :=
  ∃ k prow, dbPrincipals d !! k = Some prow ∧ spStatus prow = PrincipalActive ∧ pID p = spID prow ∧
    match pMeta p !! MetaIdentityID with
    | None => True
    | Some i => ∃ irow, dbIdentities d !! i = Some irow ∧ idnRevokedAt irow = None ∧ idnPrincipalID irow = k
    end.

Lemma session_vouched opts wk t1 t2 cred d p d' :
  session_Authenticate opts wk t1 t2 cred d = (Ok (Some p), d') → vouched d p.
Proof.
  unfold session_Authenticate. destruct (str_eqb _ _); [discriminate|]. destruct (negb _); [discriminate|].
  intros [Ha|(e & d1 & _ & Ha)]%handle_ok; [|destruct (is_invalid e); discriminate].
  inv_auth Ha. injection Ha as ->. destruct x as [p sess]. apply Authenticate_ok in Hs as (s & q & sc & sa & idl & Hact & Hsess & -> & _).
  apply active_ok in Hact as (_ & k & srow & i & prow & _ & _ & _ & [Hi Hl Ho Hp Hact] & E1 & E2 & _). cbn [fst snd] in *. subst s q.
  exists (usPrincipalID srow), prow. split; [exact Hp|]. split; [exact Hact|]. split; [reflexivity|].
  rewrite session_Meta_identity. exists i. destruct Hsess as [->| ->]; auto.
Qed.

Lemma apikey_vouched cfg t1 t2 t3 cred d p d' : reg_wf d →
  apikey_Authenticate cfg t1 t2 t3 cred d = (Ok (Some p), d') → vouched d p.
Proof.
  unfold apikey_Authenticate. intros Hwf. destruct (str_eqb _ _); [discriminate|]. intros Ha. inv_auth Ha.
  destruct x as [q|].
  - apply ret_ok in Ha as [[= ->] ->]. apply configMatch_ok in Hs as (-> & hit & prow & _ & _ & Hp & Hact & Hid & Hm & _).
    exists (ckPrincipal hit), prow. rewrite Hm. auto.
  - pose proof (reads_configMatch _ _ _ _ _ _ Hs) as ->. inv_auth Ha. injection Ha as ->. destruct x as [p i].
    apply keys_Verify_ok in Hs0 as (rec & k & irow & prow & _ & [Hi Hl Ho Hp Hact] & _ & -> & ->).
    exists (akPrincipal rec), prow. split; [exact Hp|]. split; [exact Hact|]. split; [reflexivity|].
    cbn [fst]. rewrite key_Meta_identity. exists irow. cbn. by rewrite (wf_identity_id _ Hwf _ _ Hi).
Qed.

(** The methods a chain is made of, with any configuration and any clock. *)
Definition builtin (m : Method) : Prop :=
  (∃ cfg t1 t2 t3, m = apikey_method cfg t1 t2 t3) ∨ (∃ opts wk t1 t2, m = session_method opts wk t1 t2).

Lemma builtin_runs m cred : builtin m → runs (mAuthenticate m cred).
Proof.
  intros [(cfg & t1 & t2 & t3 & ->)|(opts & wk & t1 & t2 & ->)].
  - apply (api_runs (mkSessionOptions 0 0 0 0) false cfg (λ _ _, None) (λ _, None) None (λ _, Ok tt)), api_apikey.
  - apply (api_runs opts wk [] (λ _ _, None) (λ _, None) None (λ _, Ok tt)), api_session.
Qed.

Lemma builtin_vouched m cred d p d' : builtin m → reg_wf d → mAuthenticate m cred d = (Ok (Some p), d') → vouched d p.
Proof.
  intros [(cfg & t1 & t2 & t3 & ->)|(opts & wk & t1 & t2 & ->)] Hwf Ha.
  - eapply apikey_vouched; [exact Hwf|exact Ha].
  - eapply session_vouched. exact Ha.
Qed.

(** Whoever a chain authenticates, some state on the way vouched for. *)
Lemma chain_vouched c cred d p n a d' : Forall builtin c → reg_wf d →
  chain_Authenticate c cred d = (Authenticated p n a, d') → ∃ d1, star reg_step d d1 ∧ vouched d1 p.
Proof.
  intros Hc. revert d. induction Hc as [|m c Hm Hc IH]; intros d Hwf; [discriminate|]. cbn [chain_Authenticate].
  destruct (mAuthenticate m cred d) as [[[q|]|e] d1] eqn:Hr; [| |discriminate].
  - intros [= -> _ _ _]. exists d. split; [constructor|by eapply builtin_vouched].
  - intros Ha. apply builtin_runs in Hr; [|done]. destruct (IH d1) as (d2 & Hd2 & Hv); [by eapply reg_step_wf|done|].
    exists d2. split; [by eapply star_trans|done].
Qed.

(** ** Revocation *)

Lemma status_rank_inactive s : s ≠ PrincipalActive → 1 ≤ status_rank s.
Proof.
  intros Hs. unfold status_rank. destruct (str_eqb s PrincipalActive) eqn:Ha; [by apply str_eqb_true in Ha|].
  destruct (str_eqb s PrincipalRevoked); lia.
Qed.

(** A principal that is not active never becomes active again. *)
Lemma inactive_forever d d' id p :
  star reg_step d d' → dbPrincipals d !! id = Some p → spStatus p ≠ PrincipalActive →
  ∃ p', dbPrincipals d' !! id = Some p' ∧ spStatus p' ≠ PrincipalActive.
Proof.
  intros Hd Hp Hs. destruct (ext_principals _ _ (reg_step_ext _ _ Hd) _ _ Hp) as (p' & Hp' & Hext). exists p'. split; [done|].
  destruct Hext as (_ & _ & _ & _ & _ & Hr). intros Hact. rewrite Hact in Hr.
  apply status_rank_inactive in Hs. assert (status_rank PrincipalActive = 0) by reflexivity. lia.
Qed.

Lemma revoked_forever d d' id i t :
  star reg_step d d' → dbIdentities d !! id = Some i → idnRevokedAt i = Some t →
  ∃ i', dbIdentities d' !! id = Some i' ∧ idnRevokedAt i' = Some t.
Proof.
  intros Hd Hi Ht. destruct (ext_identities _ _ (reg_step_ext _ _ Hd) _ _ Hi) as (i' & Hi' & Hext). exists i'. split; [done|].
  destruct Hext as (_ & _ & _ & _ & _ & _ & Hx). by apply Hx.
Qed.

Lemma principal_Revoke_ok id t d u d' : principal_Revoke id t d = (Ok u, d') →
  ∃ p, dbPrincipals d' !! id = Some p ∧ spStatus p = PrincipalRevoked.
Proof.
  unfold principal_Revoke. intros (p & d1 & Hg & Hr)%bind_ok. apply guard_principal_state in Hg as (-> & q & Hq & -> & _).
  destruct (str_eqb _ _) eqn:Hs.
  - apply ret_ok in Hr as [_ ->]. apply str_eqb_true in Hs. eauto.
  - injection Hr as _ <-. cbn [dbPrincipals cascade_principal]. rewrite lookup_update_row, Hq. cbn [fmap option_fmap option_map].
    eexists. split; [done|]. rewrite str_eqb_refl. cbn [scanPrincipal sp_times spStatus] in Hs. by rewrite Hs.
Qed.

Lemma principal_Suspend_ok id d u d' : principal_Suspend id d = (Ok u, d') →
  ∃ p, dbPrincipals d' !! id = Some p ∧ spStatus p ≠ PrincipalActive.
Proof.
  unfold principal_Suspend. intros (p & d1 & Hg & Hr)%bind_ok. apply guard_principal_state in Hg as (-> & q & Hq & -> & _).
  cbn [scanPrincipal sp_times spStatus] in Hr. destruct (str_eqb (spStatus q) PrincipalSuspended) eqn:Hs.
  - apply ret_ok in Hr as [_ ->]. apply str_eqb_true in Hs. exists q. split; [done|]. by rewrite Hs.
  - destruct (str_eqb (spStatus q) PrincipalRevoked); [discriminate|]. injection Hr as _ <-.
    cbn [dbPrincipals set_principals]. rewrite lookup_update_row, Hq. cbn [fmap option_fmap option_map].
    eexists. split; [done|]. rewrite str_eqb_refl. cbn [andb]. destruct (str_eqb (spStatus q) PrincipalActive) eqn:Ha; [done|].
    intros Hx. by rewrite Hx in Ha.
Qed.

Lemma identity_Revoke_ok id t d u d' : identity_Revoke id t d = (Ok u, d') →
  ∃ i t', dbIdentities d' !! id = Some i ∧ idnRevokedAt i = Some t'.
Proof.
  unfold identity_Revoke, identity_exists, row_hit. destruct (dbIdentities d !! id) as [i|] eqn:Hi; [|discriminate].
  destruct (identity_Active i) eqn:Ha.
  - intros [= _ <-]. cbn [dbIdentities cascade_identity]. rewrite lookup_update_row, Hi. cbn [fmap option_fmap option_map].
    rewrite str_eqb_refl, Ha. cbn. eauto.
  - intros [= _ <-]. unfold identity_Active in Ha. destruct (idnRevokedAt i) eqn:Hr; [eauto|discriminate].
Qed.

(** C32. A principal that was suspended or revoked is never authenticated again:
    whatever statements ran since, whatever the request carries, and whatever
    methods, configuration and clock the chain has, the caller is someone else. *)
Theorem inactive_principal_refused d d1 d2 d3 id t c cred p n a :
  reachable d → (principal_Revoke id t d = (Ok tt, d1) ∨ principal_Suspend id d = (Ok tt, d1)) → star reg_step d1 d2 →
  Forall builtin c → chain_Authenticate c cred d2 = (Authenticated p n a, d3) → pID p ≠ id.
Proof.
  intros Hreach Hrev Hd Hc Ha Heq.
  assert (Hwf1 : reg_wf d1).
  { apply (reg_step_wf d); [|by apply reachable_wf]. destruct Hrev as [Hrev|Hrev]; eapply runs_op; try exact Hrev; repeat constructor. }
  assert (∃ p, dbPrincipals d1 !! id = Some p ∧ spStatus p ≠ PrincipalActive) as (p1 & Hp1 & Hs1).
  { destruct Hrev as [Hrev|Hrev]; [|by eapply principal_Suspend_ok].
    apply principal_Revoke_ok in Hrev as (p1 & ? & Hs). exists p1. split; [done|]. by rewrite Hs. }
  apply chain_vouched in Ha as (d4 & Hd4 & k & prow & Hk & Hact & Hid & _); [|done|by eapply reg_step_wf].
  destruct (inactive_forever d1 d4 id p1) as (p4 & Hp4 & Hs4); [by eapply star_trans|done|done|].
  assert (Hwf4 : reg_wf d4) by (eapply reg_step_wf; [|exact Hwf1]; by eapply star_trans).
  pose proof (wf_principal_id _ Hwf4 _ _ Hk). congruence.
Qed.

(** A revoked identity is never authenticated through again: no key and no
    session bound to it is accepted in any later state, by any chain. *)
Theorem revoked_identity_refused d d1 d2 d3 id t c cred p n a :
  reachable d → identity_Revoke id t d = (Ok tt, d1) → star reg_step d1 d2 → Forall builtin c →
  chain_Authenticate c cred d2 = (Authenticated p n a, d3) → pMeta p !! MetaIdentityID ≠ Some id.
Proof.
  intros Hreach Hrev Hd Hc Ha Heq.
  assert (Hwf1 : reg_wf d1).
  { apply (reg_step_wf d); [|by apply reachable_wf]. eapply runs_op; [|exact Hrev]; repeat constructor. }
  apply identity_Revoke_ok in Hrev as (i1 & t1 & Hi1 & Ht1).
  apply chain_vouched in Ha as (d4 & Hd4 & k & prow & Hk & Hact & Hid & Hm); [|done|by eapply reg_step_wf].
  rewrite Heq in Hm. destruct Hm as (irow & Hirow & Hlive & _).
  destruct (revoked_forever d1 d4 id i1 t1) as (i4 & Hi4 & Hs4); [by eapply star_trans|done|done|]. congruence.
Qed.
End chain.

(** ** An instance to evaluate on

    A hash that keeps its input, and a record's JSON as the bits of its fields. *)
Fixpoint bits_of (p : positive) : string :=
  match p with
  | xH => nostr
  | xO p => String "0" (bits_of p)
  | xI p => String "1" (bits_of p)
  end.
Fixpoint of_bits (s : string) : positive :=
  match s with
  | EmptyString => xH
  | String "0" s => xO (of_bits s)
  | String _ s => xI (of_bits s)
  end.
Lemma of_bits_of p : of_bits (bits_of p) = p.
Proof. induction p as [p IH|p IH|]; cbn; congruence. Qed.

Definition key_tuple (k : APIKey) : string * string * list string * Z * Z * Z * string :=
  (akID k, akPrincipal k, akScopes k, akCreatedAt k, akExpiresAt k, akRevokedAt k, akHash k).
Definition of_tuple (t : string * string * list string * Z * Z * Z * string) : APIKey :=
  let '(i, p, s, c, e, r, h) := t in mkAPIKey i p s c e r h.

#[local] Instance ex_crypto : GoCrypto := {| SHA256 s := s |}.
#[local] Instance ex_codec : KeyCodec :=
  {| MarshalKey k := Some (bits_of (encode (key_tuple k)));
     UnmarshalKey s := of_tuple <$> decode (of_bits s) |}.
#[local] Instance ex_codec_laws : KeyCodecLaws.
Proof.
  split. intros k s _ Hs. assert (s = bits_of (encode (key_tuple k))) as -> by (cbn in Hs; congruence).
  unfold UnmarshalKey, ex_codec. rewrite of_bits_of, decode_encode. by destruct k.
Qed.

(** An owner, a person, the owner's key and a login code of it. *)
Definition ex_id : string := "01234567".
Definition ex_secret : string := "0123456789abcdef0123456789abcdef".
Definition ex_person : StoredPrincipal := mkSP "prn_1" PrincipalKindPerson "Ada" [] nostr 0 None.
Definition ex_d1 : AuthDB := (principal_Create 0 "prn_1" ex_person (initDB 0)).2.
Definition ex_mint : auth (string * IssuedKey) :=
  keys_Mint 0 0 0 ex_id ex_secret "idn_1" (mkMintKey OwnerPrincipal "cli" ZeroTime []).
Definition ex_d2 : AuthDB := (ex_mint ex_d1).2.
Definition ex_key : string := APIKeyPrefix +:+ "_" +:+ EncodeHex ex_id +:+ "_" +:+ EncodeBase64 ex_secret.
Definition ex_chain : Chain := NewChain [session_method (withDefaults (mkSessionOptions 0 0 0 0)) true 10 10; apikey_method [] 10 10 10].
Definition ex_cred : Credential := mkCredential "bearer" ex_key 0 "cookie".

Lemma ex_reachable : reachable ex_d2.
Proof.
  exists 0%Z. eapply star_trans with ex_d1.
  - eapply (runs_op (principal_Create 0 "prn_1" ex_person)); [apply op_plain, op_principal_Create|apply surjective_pairing].
  - eapply runs_keys_Mint. apply (surjective_pairing (ex_mint ex_d1)).
Qed.

Lemma ex_builtin : Forall builtin ex_chain.
Proof.
  refine (Forall_cons_2 _ _ _ _ (Forall_cons_2 _ _ _ _ (Forall_nil_2 _))).
  - left. by exists [], 10%Z, 10%Z, 10%Z.
  - right. by exists (withDefaults (mkSessionOptions 0 0 0 0)), true, 10%Z, 10%Z.
Qed.

(** The owner's key authenticates the owner, after the person was revoked. *)
Example ex_owner_after_revoke :
  let d := (principal_Revoke "prn_1" 5 ex_d2).2 in
  match chain_Authenticate ex_chain ex_cred d with (Authenticated p n a, _) => (pID p, n, a) = (OwnerPrincipal, MethodAPIKey, false) | _ => False end.
Proof. vm_compute. reflexivity. Qed.

(** *** Witnesses *)
Definition is_authenticated (o : Outcome) : bool := match o with Authenticated _ _ _ => true | _ => false end.

Lemma step_fst {A B} (x : A * B) a : x.1 = a → x = (a, x.2).
Proof. destruct x. by intros <-. Qed.

Lemma outcome_cases {B} (r : Outcome * B) : is_authenticated r.1 = true → ∃ p n a d, r = (Authenticated p n a, d).
Proof. destruct r as [[p n a|e|b] d]; [eauto|discriminate..]. Qed.

Lemma result_cases {A B} (r : result AuthError A * B) : is_ok r.1 = true → ∃ x d, r = (Ok x, d).
Proof. destruct r as [[x|e] d]; [eauto|discriminate]. Qed.
Lemma inactive_principal_refused_witness :
  ∃ p n a d3, chain_Authenticate ex_chain ex_cred (principal_Revoke "prn_1" 5 ex_d2).2 = (Authenticated p n a, d3) ∧ pID p ≠ "prn_1"%string.
Proof.
  destruct (outcome_cases (chain_Authenticate ex_chain ex_cred (principal_Revoke "prn_1" 5 ex_d2).2)) as (p & n & a & d3 & Ha);
    [vm_compute; reflexivity|].
  exists p, n, a, d3. split; [exact Ha|].
  refine (inactive_principal_refused ex_d2 _ _ d3 _ 5 ex_chain ex_cred p n a ex_reachable (or_introl _) (star_refl _ _) ex_builtin Ha).
  apply step_fst. vm_compute. reflexivity.
Defined.

Definition ex_config_chain : Chain := [apikey_method [mkConfigKey ex_key OwnerPrincipal [] ZeroTime] 10 10 10].

Lemma revoked_identity_refused_witness :
  ∃ p n a d3, chain_Authenticate ex_config_chain ex_cred (identity_Revoke "idn_1" 5 ex_d2).2 = (Authenticated p n a, d3) ∧
    pMeta p !! MetaIdentityID ≠ Some "idn_1"%string.
Proof.
  destruct (outcome_cases (chain_Authenticate ex_config_chain ex_cred (identity_Revoke "idn_1" 5 ex_d2).2)) as (p & n & a & d3 & Ha);
    [vm_compute; reflexivity|].
  exists p, n, a, d3. split; [exact Ha|].
  refine (revoked_identity_refused ex_d2 _ _ d3 _ 5 ex_config_chain ex_cred p n a ex_reachable _ (star_refl _ _) _ Ha).
  - apply step_fst. vm_compute. reflexivity.
  - refine (Forall_cons_2 _ _ _ _ (Forall_nil_2 _)). left. by exists [mkConfigKey ex_key OwnerPrincipal [] ZeroTime], 10%Z, 10%Z, 10%Z.
Defined.
