(* ===== verification/AuthConfinement.v ===== *)
(** * Scopes and lifetimes of credentials

    Invariants of every database the credential code reaches: a key holds only
    scopes its principal's roles grant and stands for the principal of its
    identity, and a session's expiries are what its options allow.  From them:
    no caller holds a scope its roles do not grant, and no cookie outlives its
    session's limits. *)

From S2P Require Import Prelude GoStrings JobStore StorageScope Resolver Encodings AuthScopes AuthRegistry AuthInvariants AuthKeys AuthSessions AuthSafety.

(** The relation of an invariant: what holds before a run holds after it. *)
Definition keeping (I : AuthDB → Prop) (d d' : AuthDB) : Prop := I d → I d'.
#[export] Instance keeping_preorder I : PreOrder (keeping I).
Proof. split; red; unfold keeping; auto. Qed.

(** ** Scopes *)
Section scopes.
Context `{GoCrypto} `{KeyCodecLaws}.

(** Principal ids are text that JSON keeps, as [NewPrincipalID]'s are. *)
Definition ascii_ids (d : AuthDB) : Prop := ∀ k p, dbPrincipals d !! k = Some p → is_ascii k = true.

Record key_ok (d : AuthDB) (id : string) (rec : APIKey) : Prop := {
  ko_id : akID rec = id;
  ko_ascii : key_ascii rec = true;
  ko_scopes : ∃ p, dbPrincipals d !! akPrincipal rec = Some p ∧ ∀ s, s ∈ akScopes rec → s ∈ ScopesForRoles (spRoles p);
}.

Record confined (d : AuthDB) : Prop := {
  cf_keys : ∀ id rec, key_at d id rec → key_ok d id rec;
  cf_identities : ∀ k i, dbIdentities d !! k = Some i → idnMethod i = IdentityMethodAPIKey →
    ∃ rec, key_at d (idnSubject i) rec ∧ akPrincipal rec = idnPrincipalID i;
}.

Definition confined_if (d : AuthDB) : Prop := ascii_ids d → confined d.

Lemma ascii_ids_ext d d' : reg_ext d d' → ascii_ids d' → ascii_ids d.
Proof. intros [Hp _ _] Ha k p Hk. destruct (Hp _ _ Hk) as (p' & Hp' & _). by apply (Ha k p'). Qed.

Lemma key_ok_ext d d' id rec : reg_ext d d' → key_ok d id rec → key_ok d' id rec.
Proof.
  intros [Hp _ _] [Hid Ha (p & Hpk & Hs)]. destruct (Hp _ _ Hpk) as (p' & Hp' & _ & _ & _ & Hr & _).
  split; [done|done|]. exists p'. split; [done|]. rewrite Hr. done.
Qed.

Lemma key_at_inj d id r1 r2 : key_at d id r1 → key_at d id r2 → r1 = r2.
Proof. intros (x & Hx & Hu) (y & Hy & Hv). congruence. Qed.

Lemma key_at_kv d d' id rec : dbKV d' = dbKV d → key_at d' id rec ↔ key_at d id rec.
Proof. unfold key_at. by intros ->. Qed.

(** A run that leaves the key records alone, with identities whose columns stay
    or that are not keys. *)
Lemma confined_frame d d' :
  reg_ext d d' → dbKV d' = dbKV d →
  (∀ k i, dbIdentities d' !! k = Some i → idnMethod i = IdentityMethodAPIKey →
     ∃ k0 i0, dbIdentities d !! k0 = Some i0 ∧ idn_same i0 i) →
  confined_if d → confined_if d'.
Proof.
  intros Hext Hkv Hi Hc Ha. destruct (Hc (ascii_ids_ext _ _ Hext Ha)) as [Hk Hid]. split.
  - intros id rec Hr. apply (key_ok_ext d); [done|]. apply Hk. by apply (key_at_kv d d').
  - intros k i Hki Hm. destruct (Hi _ _ Hki Hm) as (k0 & i0 & Hk0 & _ & Hp & Ht).
    injection Ht as Hme _ Hsu. destruct (Hid k0 i0 Hk0) as (rec & Hr & Hpr); [congruence|].
    exists rec. rewrite Hsu, Hp. split; [|done]. by apply (key_at_kv d d').
Qed.

Lemma confined_plain A (m : auth A) : plain_op A m → does (keeping confined_if) m.
Proof.
  intros Hop d r d' Hm. pose proof (plain_op_rows _ _ _ _ _ Hop Hm) as [Hi _].
  refine (confined_frame d d' _ _ _); [by eapply store_op_ext; [apply op_plain|]|by eapply plain_op_kv|].
  intros k i Hk _. destruct (Hi _ _ Hk) as (i0 & Hi0 & Hs). eauto.
Qed.

(** What a created identity is. *)
Lemma identity_Create_ok now id i d j d' : identity_Create now id i d = (Ok j, d') →
  d' = set_identities (<[idnID j := idn_times toMillis j]> (dbIdentities d)) d ∧ triple j = triple i ∧
  idnPrincipalID j = idnPrincipalID i ∧ idnID j = (if str_eqb (idnID i) nostr then id else idnID i) ∧ idnRevokedAt j = idnRevokedAt i ∧
  dbIdentities d !! idnID j = None ∧
  map_find (same_triple (idnMethod j) (idnIssuer j) (idnSubject j)) (dbIdentities d) = None.
Proof.
  unfold identity_Create. destruct (PrepareNewIdentity i now id) as [k|e] eqn:Hp; [|discriminate].
  destruct (dbIdentities d !! idnID k) eqn:Hk; [discriminate|]. destruct (map_find _ _) eqn:Hf; [discriminate|].
  destruct (dbPrincipals d !! _); intros Heq; [|discriminate]. injection Heq as -> <-. split; [done|].
  unfold PrepareNewIdentity in Hp. repeat (case_match; [discriminate|]). injection Hp as <-. auto 7.
Qed.

Lemma identity_Create_err now id i d e d' : identity_Create now id i d = (Err e, d') → d' = d.
Proof.
  unfold identity_Create. repeat case_match; intros Heq; try discriminate; by injection Heq as _ <-.
Qed.

Lemma identity_Create_ext now id i d r d' : identity_Create now id i d = (r, d') → reg_ext d d'.
Proof. apply store_op_ext. apply op_identity_Create. Qed.

(** A link identity is not a key. *)
Lemma confined_link now id pid subject name t :
  does (keeping confined_if) (identity_Create now id (mkIdentity nostr pid IdentityMethodLink nostr subject name t None None)).
Proof.
  intros d r d' Hc. pose proof (identity_Create_ext _ _ _ _ _ _ Hc) as Hext. destruct r as [j|e].
  - apply identity_Create_ok in Hc as (-> & Ht & _). injection Ht as Hm _ _. refine (confined_frame _ _ Hext eq_refl _). cbn.
    intros k i [[<- <-]|[_ Hk]]%lookup_insert_Some Hmi; [|by exists k, i].
    cbn in Hmi. rewrite Hm in Hmi. discriminate.
  - apply identity_Create_err in Hc as ->. unfold keeping. done.
Qed.

(** *** Putting a record *)
Lemma lk_put_ok rec d r d' : lk_put rec d = (r, d') →
  (d' = d ∧ is_ok r = false) ∨
  ∃ data, MarshalKey rec = Some data ∧ r = Ok tt ∧ d' = set_kv (<[apiKeyStorePrefix +:+ akID rec := data]> (dbKV d)) d.
Proof.
  unfold lk_put. destruct (MarshalKey rec) as [data|]; intros Hp; injection Hp as <- <-; [right; eauto|by left].
Qed.

Lemma key_at_put d data rec id rec' : key_ascii rec = true → MarshalKey rec = Some data →
  key_at (set_kv (<[apiKeyStorePrefix +:+ akID rec := data]> (dbKV d)) d) id rec' →
  (id = akID rec ∧ rec' = rec) ∨ (id ≠ akID rec ∧ key_at d id rec').
Proof.
  intros Ha Hm (x & Hx & Hu). cbn in Hx. apply lookup_insert_Some in Hx as [[Heq <-]|[Hne Hx]].
  - left. apply str_app_inj in Heq as <-. split; [done|]. rewrite (unmarshal_marshal _ _ Ha Hm) in Hu. congruence.
  - right. split; [congruence|]. by exists x.
Qed.

Lemma key_at_put_same d data rec : key_ascii rec = true → MarshalKey rec = Some data →
  key_at (set_kv (<[apiKeyStorePrefix +:+ akID rec := data]> (dbKV d)) d) (akID rec) rec.
Proof. intros Ha Hm. exists data. cbn. rewrite lookup_insert_eq. split; [done|]. by apply unmarshal_marshal. Qed.

Lemma key_at_put_other d data rec id rec' : id ≠ akID rec → key_at d id rec' →
  key_at (set_kv (<[apiKeyStorePrefix +:+ akID rec := data]> (dbKV d)) d) id rec'.
Proof.
  intros Hne (x & Hx & Hu). exists x. cbn. rewrite lookup_insert_ne; [done|]. intros Heq%str_app_inj. congruence.
Qed.

Lemma with_revoked_ascii t rec : key_ascii (with_revoked t rec) = key_ascii rec. Proof. done. Qed.

Lemma confined_revoke now id : does (keeping confined_if) (lk_Revoke now id).
Proof.
  intros d r d' Hr. unfold lk_Revoke in Hr. apply bind_inv in Hr as [(e & Hg & ->)|(rec & d1 & Hg & Hr)].
  { apply reads_lk_Get in Hg as ->. unfold keeping. done. }
  apply lk_Get_ok in Hg as [-> Hk]. destruct (IsZero _); [|by injection Hr as _ <-; unfold keeping].
  assert (Hput : ∃ r', lk_put (with_revoked now rec) d = (r', d')).
  { apply bind_inv in Hr as [(e & Hp & _)|(u & d1 & Hp & Hr)]; [eauto|]. injection Hr as _ <-. eauto. }
  destruct Hput as (r' & Hp). apply lk_put_ok in Hp as [[-> _]|(data & Hm & _ & ->)]; [unfold keeping; done|].
  intros Hc Ha. destruct (Hc Ha) as [Hkeys Hids]. destruct (Hkeys _ _ Hk) as [Hid Has Hs]. split.
  - intros id' rec' [[-> ->]|[Hne Hr']]%key_at_put; [by split| |by rewrite with_revoked_ascii|done].
    by destruct (Hkeys _ _ Hr').
  - intros k i Hki Hmi. destruct (Hids k i Hki Hmi) as (rec0 & Hr0 & Hp0). cbn in Hki.
    destruct (decide (idnSubject i = akID rec)) as [Heq|Hne].
    + rewrite Heq, Hid in Hr0. pose proof (key_at_inj _ _ _ _ Hr0 Hk) as ->. exists (with_revoked now rec). split; [|done].
      rewrite Heq. by apply (key_at_put_same d data (with_revoked now rec)).
    + exists rec0. split; [|done]. by apply key_at_put_other.
Qed.

(** *** Minting *)
Lemma keyScopes_granted p asked out s : keyScopes p asked = Ok out → s ∈ out → s ∈ ScopesForRoles (spRoles p).
Proof.
  unfold keyScopes. destruct asked as [|a asked]; [intros Heq Hs; congruence|].
  destruct (existsb _ AllScopes) eqn:Hg; [discriminate|]. destruct (existsb _ (a :: asked)); [discriminate|].
  intros Heq. assert (out = List.filter (contains (a :: asked)) AllScopes) as -> by congruence.
  intros [Ha Hc]%elem_of_bfilter. destruct (contains (ScopesForRoles (spRoles p)) s) eqn:Hin; [by apply contains_true in Hin|].
  apply not_true_iff_false in Hg. destruct Hg. apply existsb_exists'. exists s. split; [done|]. by rewrite Hc, Hin.
Qed.

Lemma AllScopes_ascii s : s ∈ AllScopes → is_ascii s = true.
Proof. revert s. apply forallb_forall'. vm_compute. reflexivity. Qed.

Lemma lower_hex_ascii s : str_forall lower_hex s = true → is_ascii s = true.
Proof.
  apply str_forall_impl. intros c Hc. unfold lower_hex, is_digit, in_range in Hc.
  apply orb_true_iff in Hc. rewrite !andb_true_iff, !Nat.leb_le in Hc. apply Nat.ltb_lt. lia.
Qed.

Lemma new_record_ok d now idb sec p scopes ttl : reg_wf d → ascii_ids d → dbPrincipals d !! spID p = Some p →
  (∀ s, s ∈ scopes → s ∈ ScopesForRoles (spRoles p)) →
  key_ok d (EncodeHex idb) (new_record now (EncodeHex idb) sec (mkNewAPIKey (spID p) scopes ttl)).
Proof.
  intros Hwf Ha Hp Hs. split; [done| |exists p; split; [exact Hp|exact Hs]].
  unfold key_ascii. cbn [new_record akID akPrincipal akScopes akHash nkPrincipal nkScopes].
  rewrite !andb_true_iff. repeat split.
  - apply lower_hex_ascii, EncodeHex_lower.
  - by apply (Ha (spID p) p).
  - apply forallb_forall'. intros s Hin. apply AllScopes_ascii. apply Hs, elem_of_ScopesForRoles in Hin. by destruct Hin.
  - apply lower_hex_ascii, EncodeHex_lower.
Qed.

Lemma ret_inv {A} (a : A) d r d' : (mret a : auth A) d = (r, d') → r = Ok a ∧ d' = d.
Proof. by intros [= <- <-]. Qed.

(** How a mint ends: the registry untouched, or a record written and then either
    bound to a new identity or revoked again. *)
Lemma keys_Mint_cases t1 t2 t3 idb sec idn spec d r d' : reg_wf d → keys_Mint t1 t2 t3 idb sec idn spec d = (r, d') →
  (d' = d ∧ is_ok r = false) ∨ ∃ p scopes ttl data, let rec := new_record t2 (EncodeHex idb) (EncodeBase64 sec) (mkNewAPIKey (spID p) scopes ttl) in
    let d1 := set_kv (<[apiKeyStorePrefix +:+ EncodeHex idb := data]> (dbKV d)) d in
    let i := mkIdentity nostr (spID p) IdentityMethodAPIKey nostr (EncodeHex idb) (mkName spec) t2 None None in
    dbPrincipals d !! spID p = Some p ∧ spID p = mkPrincipalID spec ∧ spStatus p = PrincipalActive ∧
    keyScopes (scanPrincipal p) (mkScopes spec) = Ok scopes ∧ MarshalKey rec = Some data ∧
    (IsZero (mkExpiresAt spec) = true ∧ ttl = 0%Z ∨ IsZero (mkExpiresAt spec) = false ∧ ttl = Sub (mkExpiresAt spec) t1 ∧ (0 < ttl)%Z) ∧
    ((∃ j, identity_Create t2 idn i d1 = (Ok j, d') ∧
        r = Ok (APIKeyPrefix +:+ "_" +:+ EncodeHex idb +:+ "_" +:+ EncodeBase64 sec,
                mkIssuedKey (EncodeHex idb) (spID p) (idnID j) (mkName spec) scopes t2 (akExpiresAt rec))) ∨
     (is_ok r = false ∧ ∃ r', lk_Revoke t3 (EncodeHex idb) d1 = (r', d'))).
Proof.
  intros Hwf. unfold keys_Mint. destruct (str_eqb _ _); [intros Hm; left; by injection Hm as <- <-|].
  intros [(e & Hg & ->)|(p & d1 & Hg & Hm)]%bind_inv; apply principal_Get_state in Hg as [-> Hg]; [by left|].
  destruct Hg as (p0 & Hp0 & ->). pose proof (wf_principal_id _ Hwf _ _ Hp0) as Hid.
  apply bind_inv in Hm as [(e & Hm & ->)|(u & d1 & Hm & Hm')]; [left; by apply reads_check in Hm|].
  apply check_ok in Hm as [Hact ->]. apply str_eqb_true in Hact.
  apply bind_inv in Hm' as [(e & Hm & ->)|(scopes & d1 & Hm & Hm')]; [left; by apply reads_lift in Hm|].
  apply lift_ok in Hm as [Hsc ->]. cbn zeta in Hm'.
  set (ttl := if IsZero (mkExpiresAt spec) then 0%Z else Sub (mkExpiresAt spec) t1) in *.
  apply bind_inv in Hm' as [(e & Hm & ->)|(u' & d1 & Hm & Hm')]; [left; by apply reads_check in Hm|].
  apply check_ok in Hm as [Httl ->].
  unfold lk_Create in Hm'. destruct (str_eqb _ _); [left; by injection Hm' as <- <-|].
  destruct (existsb _ _); [left; by injection Hm' as <- <-|]. cbn zeta in Hm'.
  change (spID (scanPrincipal p0)) with (spID p0) in Hm'.
  set (rec := new_record t2 (EncodeHex idb) (EncodeBase64 sec) (mkNewAPIKey (spID p0) scopes ttl)) in *.
  apply bind_inv in Hm' as [(e & Hm & ->)|([raw rec'] & d1 & Hm & Hm')].
  { apply bind_inv in Hm as [(e' & Hp & _)|(u2 & d2 & Hp & Hx)]; [|discriminate].
    left. apply lk_put_ok in Hp as [[-> _]|(data & _ & Hx & _)]; [done|discriminate]. }
  apply bind_ok in Hm as (u2 & d2 & Hp & Hx). apply ret_ok in Hx as [Hx ->]. injection Hx as -> ->.
  apply lk_put_ok in Hp as [[_ Hx]|(data & Hmar & _ & ->)]; [discriminate|].
  right. exists p0, scopes, ttl, data. cbn zeta. cbn [fst snd] in Hm'.
  split; [by rewrite Hid|]. split; [exact Hid|]. split; [exact Hact|]. split; [exact Hsc|]. split; [exact Hmar|].
  split.
  { unfold ttl in *. destruct (IsZero (mkExpiresAt spec)); [by left|right]. by apply Z.ltb_lt in Httl. }
  set (d1 := set_kv _ d) in *. apply bind_inv in Hm' as [(e & Hm & ->)|(j & d2 & Hm & Hm')].
  - right. split; [done|]. unfold handle in Hm. destruct (identity_Create _ _ _ d1) as [[j|e1] d2] eqn:Hc; [discriminate|].
    apply identity_Create_err in Hc as ->.
    destruct (((_ ← lk_Revoke t3 (EncodeHex idb); throw e1) : auth Identity) d1) as [[x|e2] d3] eqn:Hr.
    + apply bind_ok in Hr as (? & ? & _ & Hr). discriminate.
    + change (akID rec) with (EncodeHex idb) in Hm. rewrite Hr in Hm. injection Hm as _ <-.
      apply bind_inv in Hr as [(e3 & Hr & _)|(k & d4 & Hr & Hx)]; [eauto|]. injection Hx as _ <-. eauto.
  - left. apply ret_inv in Hm' as [-> ->]. apply handle_ok in Hm as [Hm|(e & de & _ & Hm)]; [eauto|].
    apply handle_ok in Hm as [Hm|(e2 & de2 & _ & Hm)]; [|discriminate].
    apply bind_ok in Hm as (? & ? & _ & Hm). discriminate.
Qed.

(** Writing a record under a fresh id. *)
Lemma confined_put d p scopes t idb sec ttl data : reg_wf d →
  let rec := new_record t (EncodeHex idb) sec (mkNewAPIKey (spID p) scopes ttl) in
  dbPrincipals d !! spID p = Some p → (∀ s, s ∈ scopes → s ∈ ScopesForRoles (spRoles p)) →
  dbKV d !! (apiKeyStorePrefix +:+ EncodeHex idb) = None → MarshalKey rec = Some data → ascii_ids d → confined d →
  confined (set_kv (<[apiKeyStorePrefix +:+ EncodeHex idb := data]> (dbKV d)) d) ∧
  key_at (set_kv (<[apiKeyStorePrefix +:+ EncodeHex idb := data]> (dbKV d)) d) (EncodeHex idb) rec.
Proof.
  intros Hwf rec Hp Hs Hfresh Hm Ha [Hkeys Hids].
  destruct (new_record_ok d t idb sec p scopes ttl Hwf Ha Hp Hs) as [Hid Has Hsc]. fold rec in Hid, Has, Hsc.
  split; [split|exact (key_at_put_same d data rec Has Hm)].
  - intros id' rec' [[-> ->]|[Hne Hr']]%(key_at_put d data rec id' rec' Has Hm).
    + split; [done|done|exact Hsc].
    + destruct (Hkeys _ _ Hr') as [? ? ?]. by split.
  - intros k i Hk Hmi. destruct (Hids k i Hk Hmi) as (rec0 & Hr0 & Hp0). exists rec0. split; [|done].
    apply (key_at_put_other d data rec); [|done]. intros Heq. change (akID rec) with (EncodeHex idb) in Heq.
    destruct Hr0 as (x & Hx & _). rewrite Heq in Hx. congruence.
Qed.

Lemma confined_mint t1 t2 t3 idb sec idn spec d r d' : reg_wf d →
  dbKV d !! (apiKeyStorePrefix +:+ EncodeHex idb) = None → keys_Mint t1 t2 t3 idb sec idn spec d = (r, d') →
  confined_if d → confined_if d'.
Proof.
  intros Hwf Hfresh Hm Hc. apply keys_Mint_cases in Hm as [[-> _]|(p & scopes & ttl & data & Hp & Hid & _ & Hsc & Hmar & _ & Hend)];
    [done| |done].
  set (rec := new_record _ _ _ _) in *. set (d1 := set_kv _ d) in *. cbn zeta in Hend.
  assert (Hd1 : ascii_ids d1 → confined d1 ∧ key_at d1 (EncodeHex idb) rec).
  { intros Ha. apply (confined_put d p); [done|done| |done|done|done|by apply Hc].
    intros s Hs. by apply (keyScopes_granted (scanPrincipal p) (mkScopes spec) scopes). }
  destruct Hend as [(j & Hj & _)|[_ (r' & Hr)]].
  - pose proof (identity_Create_ext _ _ _ _ _ _ Hj) as Hext. apply identity_Create_ok in Hj as (-> & Ht & Hpr & _).
    injection Ht as Hme _ Hsu. intros Ha. destruct (Hd1 Ha) as [[Hkeys Hids] Hat]. split.
    + intros id' rec' Hr. apply (key_ok_ext d1); [done|]. apply Hkeys. exact Hr.
    + cbn. intros k i [[<- <-]|[_ Hk]]%lookup_insert_Some Hmi; [|by apply (Hids k)].
      cbn. exists rec. rewrite Hsu, Hpr. by split.
  - apply confined_revoke in Hr. apply Hr. intros Ha. by apply Hd1.
Qed.

(** *** Sessions leave the keys alone *)
Lemma confined_session_Create u : does (keeping confined_if) (session_Create u).
Proof.
  intros d r d' Hc. pose proof (store_op_ext _ _ _ _ _ (op_session_Create u) Hc) as Hext.
  refine (confined_frame d d' Hext _ _); revert Hc; unfold session_Create; repeat case_match; intros [= _ <-]; cbn; eauto.
  all: intros k0 i0 Hk _; exists k0, i0; done.
Qed.

Lemma confined_session_Touch id t i : does (keeping confined_if) (session_Touch id t i).
Proof.
  intros d r d' Hc. pose proof (store_op_ext _ _ _ _ _ (op_session_Touch id t i) Hc) as Hext.
  refine (confined_frame d d' Hext _ _); revert Hc; unfold session_Touch, session_exists, modify; case_match; intros [= _ <-]; cbn; eauto.
  all: intros k0 i0 Hk _; exists k0, i0; done.
Qed.
Hint Resolve confined_session_Create confined_session_Touch : auth_does.

Lemma confined_mintFor opts wk now sb ib i p k ci : does (keeping confined_if) (mintFor opts wk now sb ib i p k ci).
Proof. pose proof (keeping_preorder confined_if). unfold mintFor. solve_does. Qed.

Lemma confined_Authenticate opts wk t1 t2 secret : does (keeping confined_if) (Authenticate opts wk t1 t2 secret).
Proof.
  pose proof (keeping_preorder confined_if). unfold Authenticate. destruct (str_eqb _ _); [solve_does|].
  apply does_bind; [done| |].
  - apply does_active; [done|]. intros A m Hop. by apply confined_plain.
  - intros [[s p] sc]. solve_does.
Qed.

Lemma confined_api opts wk cfg M U sh add A (m : auth A) :
  api_method opts wk cfg M U sh add A m → does (keeping confined_if) m.
Proof.
  apply api_does; [apply _|apply confined_plain|apply confined_link|apply confined_revoke|apply confined_mintFor|apply confined_Authenticate].
Qed.

(** Every database the credential code reaches is confined. *)
Lemma reachable_confined opts wk cfg M U sh add created d :
  star (api_step opts wk cfg M U sh add) (initDB created) d → reg_wf d ∧ confined_if d.
Proof.
  intros Hd. refine (star_invariant _ (λ d, reg_wf d ∧ confined_if d) _ _ _ Hd _); clear d Hd.
  - intros a b [A m r Hm Hr|t1 t2 t3 idb sec idn spec r Hf Hr] [Hwf Hc].
    + split; [|by eapply confined_api]. eapply reg_step_wf; [|exact Hwf]. by eapply api_runs.
    + split; [|by eapply confined_mint]. eapply reg_step_wf; [|exact Hwf]. by eapply runs_keys_Mint.
  - split; [apply initDB_wf|]. intros _. split; cbn.
    + intros id rec (x & Hx & _). cbn in Hx. by rewrite lookup_empty in Hx.
    + intros k i Hk. cbn in Hk. by rewrite lookup_empty in Hk.
Qed.
End scopes.

(** ** What a caller holds *)
Section callers.
Context `{GoCrypto} `{KeyCodecLaws}.

Definition within_roles (d : AuthDB) (p : Principal) (ambient : bool) : Prop :=
  ∃ prow, dbPrincipals d !! pID p = Some prow ∧
    ∀ s, s ∈ pScopes p → s ∈ ScopesForRoles (spRoles prow) ∨ (ambient = true ∧ s = ScopeSignoutUI).

Lemma within_ext d d' p a : reg_ext d d' → within_roles d p a → within_roles d' p a.
Proof.
  intros [Hp _ _] (prow & Hk & Hs). destruct (Hp _ _ Hk) as (p' & Hp' & _ & _ & _ & Hr & _).
  exists p'. split; [done|]. by rewrite Hr.
Qed.

Lemma apikey_within cfg t1 t2 t3 cred d p d' : reg_wf d → confined d →
  apikey_Authenticate cfg t1 t2 t3 cred d = (Ok (Some p), d') → within_roles d p false.
Proof.
  unfold apikey_Authenticate. intros Hwf Hc. destruct (str_eqb _ _); [discriminate|]. intros Ha. inv_auth Ha.
  destruct x as [q|].
  - apply ret_ok in Ha as [Ha ->]. apply (inj Some) in Ha as ->.
    apply configMatch_ok in Hs as (-> & hit & prow & _ & _ & Hp & _ & Hid & _ & _ & Hsc).
    exists prow. rewrite Hid, (wf_principal_id _ Hwf _ _ Hp). split; [exact Hp|]. intros s Hin. rewrite Hsc in Hin. left.
    destruct (ckRoles hit); [done|]. by apply elem_of_intersectScopes in Hin as (_ & _ & Hin).
  - pose proof (reads_configMatch _ _ _ _ _ _ Hs) as ->. inv_auth Ha. apply (inj Some) in Ha as ->. destruct x as [p i].
    apply keys_Verify_ok in Hs0 as (rec & k & irow & prow & Hv & [_ _ _ Hp _] & _ & _ & ->).
    apply lk_Verify_ok in Hv as (_ & id & sec & _ & Hat & _). destruct (cf_keys _ Hc _ _ Hat) as [_ _ (p0 & Hp0 & Hs0)].
    assert (p0 = prow) as -> by congruence. exists prow. cbn [fst pID keyPrincipal registryPrincipal scanPrincipal sp_times spID].
    rewrite (wf_principal_id _ Hwf _ _ Hp). split; [exact Hp|]. intros s [_ Hin]%elem_of_scopesNamed. left. by apply Hs0.
Qed.

Lemma ScopesOf_within d k i p sc d' : confined d → dbIdentities d !! k = Some i → dbPrincipals d !! idnPrincipalID i = Some p →
  keys_ScopesOf (scanPrincipal p) (scanIdentity i) d = (Ok sc, d') → ∀ s, s ∈ sc → s ∈ ScopesForRoles (spRoles p).
Proof.
  intros Hc Hk Hp. unfold keys_ScopesOf. destruct (str_eqb _ _) eqn:Hm; cbn [negb].
  - apply str_eqb_true in Hm. intros [Hr|(e & de & Hg & Hr)]%handle_ok.
    + inv_auth Hr. apply lk_Get_ok in Hs as [-> Hat]. destruct (cf_identities _ Hc _ _ Hk Hm) as (rec & Hat' & Hpr).
      cbn in Hat. pose proof (key_at_inj _ _ _ _ Hat Hat') as ->. destruct (cf_keys _ Hc _ _ Hat) as [_ _ (p0 & Hp0 & Hs0)].
      assert (p0 = p) as -> by congruence. intros s. rewrite Hr. intros [_ Hin]%elem_of_scopesNamed. by apply Hs0.
    + destruct e; try discriminate. apply ret_ok in Hr as [-> _]. by intros s Hs%not_elem_of_nil.
  - intros [-> _]%ret_ok. done.
Qed.

Lemma session_within opts wk t1 t2 cred d p d' : reg_wf d → confined d →
  session_Authenticate opts wk t1 t2 cred d = (Ok (Some p), d') → within_roles d p true.
Proof.
  unfold session_Authenticate. intros Hwf Hc. destruct (str_eqb _ _); [discriminate|]. destruct (negb _); [discriminate|].
  intros [Ha|(e & d1 & _ & Ha)]%handle_ok; [|destruct (is_invalid e); discriminate].
  inv_auth Ha. apply (inj Some) in Ha as ->. destruct x as [p sess].
  apply Authenticate_ok in Hs as (s & q & sc & sa & idl & Hact & _ & -> & _).
  apply active_ok in Hact as (_ & k & srow & i & prow & _ & _ & _ & [Hi Hl Ho Hp _] & E1 & E2 & Hsc). cbn [fst snd] in *. subst s q.
  exists prow. cbn [fst pID sessionPrincipal registryPrincipal scanPrincipal sp_times spID].
  rewrite (wf_principal_id _ Hwf _ _ Hp). split; [exact Hp|]. intros s [Hs| ->]%SessionScopesFor_narrows; [left|by right].
  destruct wk; [|by rewrite Hsc in Hs]. apply (ScopesOf_within d _ i prow sc d Hc Hi); [by rewrite Ho|done|done].
Qed.

Lemma builtin_within m cred d p d' : builtin m → reg_wf d → confined d →
  mAuthenticate m cred d = (Ok (Some p), d') → within_roles d p (mAmbient m).
Proof.
  intros [(cfg & t1 & t2 & t3 & ->)|(opts & wk & t1 & t2 & ->)] Hwf Hc Ha.
  - exact (apikey_within _ _ _ _ _ _ _ _ Hwf Hc Ha).
  - exact (session_within _ _ _ _ _ _ _ _ Hwf Hc Ha).
Qed.

Lemma builtin_confined m cred : builtin m → does (keeping confined_if) (mAuthenticate m cred).
Proof.
  intros [(cfg & t1 & t2 & t3 & ->)|(opts & wk & t1 & t2 & ->)].
  - apply (confined_api (mkSessionOptions 0 0 0 0) false cfg (λ _ _, None) (λ _, None) None (λ _, Ok tt)), api_apikey.
  - apply (confined_api opts wk [] (λ _ _, None) (λ _, None) None (λ _, Ok tt)), api_session.
Qed.

Lemma chain_within c cred d p n a d' : Forall builtin c → reg_wf d → confined_if d → ascii_ids d' →
  chain_Authenticate c cred d = (Authenticated p n a, d') → within_roles d' p a.
Proof.
  intros Hc. revert d. induction Hc as [|m c Hm Hc IH]; intros d Hwf Hcf Ha; [discriminate|]. cbn [chain_Authenticate].
  destruct (mAuthenticate m cred d) as [[[q|]|e] d1] eqn:Hr; [| |discriminate]; pose proof (builtin_runs _ _ Hm _ _ _ Hr) as Hrun.
  - intros Heq. assert (q = p ∧ mAmbient m = a ∧ d1 = d') as (-> & <- & ->) by (repeat split; congruence).
    apply reg_step_ext in Hrun. apply (within_ext d); [done|]. eapply builtin_within; [done|done| |done].
    apply Hcf. by eapply ascii_ids_ext.
  - apply IH; [by eapply reg_step_wf| |done]. by apply (builtin_confined m cred Hm _ _ _ Hr).
Qed.

(** C33. No caller holds more than its principal: in every database the credential
    code reaches, whoever a chain authenticates, by a minted key, a key declared
    in config or a browser session, holds only scopes the roles of its registry
    row grant, and a session the right to sign itself out. *)
Theorem caller_within_roles opts wk cfg M U sh add created d c cred p n a d' :
  star (api_step opts wk cfg M U sh add) (initDB created) d → Forall builtin c →
  chain_Authenticate c cred d = (Authenticated p n a, d') → ascii_ids d' → within_roles d' p a.
Proof.
  intros Hd Hc Ha Hids. apply reachable_confined in Hd as [Hwf Hcf]. by eapply chain_within.
Qed.
End callers.

(** ** How long a session lasts *)
Section lifetimes.
Context `{GoCrypto} `{KeyCodec} (opts : SessionOptions).

(** A session opened at [t0] and last seen at [tl]. *)
Definition session_times (s : UISession) (t0 tl : Z) : Prop :=
  usCreatedAt s = toMillis t0 ∧ usExpiresAt s = toMillis (t0 + MaxTTL opts) ∧
  usLastSeenAt s = toMillis tl ∧ usIdleExpiresAt s = Z.min (toMillis (tl + IdleTTL opts)) (usExpiresAt s).

Definition timed (d : AuthDB) : Prop := ∀ k s, dbSessions d !! k = Some s → ∃ t0 tl, session_times s t0 tl.

Lemma toMillis_mono a b : (a ≤ b)%Z → (toMillis a ≤ toMillis b)%Z.
Proof. unfold toMillis, UnixMilli. intros. by apply Z.div_le_mono. Qed.

Lemma toMillis_lt a b : (toMillis a < toMillis b)%Z → (a < b)%Z.
Proof. intros Hlt. destruct (Z.lt_ge_cases a b) as [|Hge]; [done|]. apply toMillis_mono in Hge. lia. Qed.

Lemma toMillis_minTime a b : toMillis (minTime a b) = Z.min (toMillis a) (toMillis b).
Proof.
  unfold minTime. destruct (a <? b)%Z eqn:Hab.
  - apply Z.ltb_lt in Hab. pose proof (toMillis_mono a b). lia.
  - apply Z.ltb_ge in Hab. pose proof (toMillis_mono b a). lia.
Qed.

Lemma timed_frame d d' : rows_from us_frame (dbSessions d) (dbSessions d') → timed d → timed d'.
Proof.
  intros Hf Ht k s Hk. destruct (Hf _ _ Hk) as (s0 & Hk0 & _ & _ & _ & E1 & E2 & E3 & E4).
  destruct (Ht _ _ Hk0) as (t0 & tl & H1 & H2 & H3 & H4). exists t0, tl. unfold session_times. rewrite E1, E2, E3, E4. done.
Qed.

Lemma timed_same d d' : dbSessions d' = dbSessions d → timed d → timed d'.
Proof. unfold timed. by intros ->. Qed.

Lemma timed_plain A (m : auth A) : plain_op A m → does (keeping timed) m.
Proof. intros Hop d r d' Hm. refine (timed_frame d d' _). by eapply plain_op_rows. Qed.

Lemma timed_identity now id i : does (keeping timed) (identity_Create now id i).
Proof.
  intros d r d' Hc. refine (timed_same d d' _). revert Hc. unfold identity_Create. repeat case_match; by intros [= _ <-].
Qed.

Lemma timed_lk_put rec : does (keeping timed) (lk_put rec).
Proof. intros d r d' Hp. refine (timed_same d d' _). apply lk_put_ok in Hp as [[-> _]|(data & _ & _ & ->)]; done. Qed.

Lemma timed_Touch id t : does (keeping timed) (session_Touch id t (t + IdleTTL opts)).
Proof.
  intros d r d' Hc Ht k s. revert Hc. unfold session_Touch, session_exists, modify.
  destruct (row_hit _ _ _); intros [= _ <-]; [|apply Ht]. cbn [dbSessions set_sessions]. rewrite lookup_update_row.
  destruct (dbSessions d !! k) as [s0|] eqn:Hk; [|discriminate]. intros Hs. cbn in Hs.
  destruct (Ht _ _ Hk) as (t0 & tl & H1 & H2 & H3 & H4). destruct (_ && _); injection Hs as <-; [|by exists t0, tl].
  exists t0, t. by unfold session_times; cbn.
Qed.

Lemma timed_Create now sb ib hash pid iid kind ci :
  does (keeping timed) (session_Create (mkUISession (newSessionID ib) hash pid iid kind
    (truncate (ciUserAgent ci) 256) (truncate (ciRemoteAddr ci) 64) now now
    (minTime (now + IdleTTL opts) (now + MaxTTL opts)) (now + MaxTTL opts) None sb)).
Proof.
  intros d r d' Hc Ht k s. revert Hc. unfold session_Create. repeat case_match; intros [= _ <-]; try apply Ht.
  cbn [dbSessions set_sessions]. intros [[_ <-]|[_ Hk]]%lookup_insert_Some; [|by eapply Ht].
  exists now, now. unfold session_times. cbn. by rewrite toMillis_minTime.
Qed.

Hint Resolve timed_lk_put timed_Touch timed_Create timed_identity : auth_does.
Hint Extern 1 (does _ _) => solve [apply timed_plain; constructor] : auth_does.

Lemma timed_lk_Revoke now id : does (keeping timed) (lk_Revoke now id).
Proof. pose proof (keeping_preorder timed). unfold lk_Revoke. solve_does. Qed.
Hint Resolve timed_lk_Revoke : auth_does.

Lemma timed_keys_Mint t1 t2 t3 idb sec idn spec : does (keeping timed) (keys_Mint t1 t2 t3 idb sec idn spec).
Proof. pose proof (keeping_preorder timed). unfold keys_Mint, lk_Create. solve_does. Qed.

Lemma timed_mintFor wk now sb ib i p k ci : does (keeping timed) (mintFor opts wk now sb ib i p k ci).
Proof. pose proof (keeping_preorder timed). unfold mintFor. solve_does. Qed.

Lemma timed_Authenticate wk t1 t2 secret : does (keeping timed) (Authenticate opts wk t1 t2 secret).
Proof.
  pose proof (keeping_preorder timed). unfold Authenticate. destruct (str_eqb _ _); [solve_does|].
  apply does_bind; [done| |].
  - apply does_active; [done|apply timed_plain].
  - intros [[s p] sc]. solve_does.
Qed.

Lemma reachable_timed wk cfg M U sh add created d :
  star (api_step opts wk cfg M U sh add) (initDB created) d → timed d.
Proof.
  intros Hd. refine (api_steps_does opts wk cfg M U sh add (keeping timed) _ _ _ _ _ _ _ _ Hd _).
  - apply timed_plain.
  - intros. apply timed_identity.
  - apply timed_lk_Revoke.
  - apply timed_mintFor.
  - apply timed_Authenticate.
  - intros ? ? ? ? ? ? ? ? ? ? _ Hm. by apply timed_keys_Mint in Hm.
  - intros k s Hk. cbn in Hk. by rewrite lookup_empty in Hk.
Qed.

(** C37. A cookie lasts as long as its session's options say and no longer: one
    that authenticates names a stored session by the hash of its secret, opened
    less than MaxTTL ago and last recorded in use less than IdleTTL ago, and what
    it is answered with, and stored as, expires within_roles both. *)
Theorem session_lifetime wk cfg M U sh add created d t1 t2 secret p sess d' :
  star (api_step opts wk cfg M U sh add) (initDB created) d →
  Authenticate opts wk t1 t2 secret d = (Ok (p, sess), d') →
  ∃ k s t0 tl, dbSessions d !! k = Some s ∧ usSecretHash s = HashSecret secret ∧ usRevokedAt s = None ∧
    session_times s t0 tl ∧ (t1 < t0 + MaxTTL opts)%Z ∧ (t1 < tl + IdleTTL opts)%Z ∧
    usExpiresAt sess = fromMillis (toMillis (t0 + MaxTTL opts)) ∧
    ∀ s', dbSessions d' !! k = Some s' → usExpiresAt s' = usExpiresAt s ∧ (usIdleExpiresAt s' ≤ usExpiresAt s)%Z.
Proof.
  intros Hd Ha. pose proof (reachable_timed _ _ _ _ _ _ _ _ Hd) as Ht.
  apply Authenticate_ok in Ha as (s1 & q & sc & sa & idl & Hact & Hsess & _ & Hd').
  apply active_ok in Hact as (_ & k & s & i & prow & Hk & Hh & Hrow & _ & E1 & _). cbn [fst snd] in E1. subst s1.
  destruct (Ht _ _ Hk) as (t0 & tl & Hts). pose proof Hts as (H1 & H2 & H3 & H4).
  unfold row_active in Hrow. rewrite !andb_true_iff, !Z.ltb_lt in Hrow. destruct Hrow as [[Hl Hi] He].
  exists k, s, t0, tl. split; [done|]. split; [done|]. split; [unfold session_live in Hl; by destruct (usRevokedAt s)|].
  split; [done|]. split; [apply toMillis_lt; lia|]. split; [apply toMillis_lt; lia|].
  split; [destruct Hsess as [->| ->]; cbn; by rewrite H2|].
  assert (Hsame : ∀ s', dbSessions d !! k = Some s' → usExpiresAt s' = usExpiresAt s ∧ (usIdleExpiresAt s' ≤ usExpiresAt s)%Z).
  { intros s' Hs'. assert (s' = s) as -> by congruence. split; [done|lia]. }
  destruct Hd' as [->|(u & Htouch)]; [done|]. revert Htouch. unfold session_Touch, session_exists, modify.
  destruct (row_hit _ _ _); intros [= _ <-]; [|done]. cbn [dbSessions set_sessions]. intros s'. rewrite lookup_update_row, Hk.
  cbn [fmap option_fmap option_map]. intros Heq. destruct (_ && _) in Heq; injection Heq as <-; cbn; split; lia.
Qed.
End lifetimes.

(** ** An instance: the owner's key, then a session of it *)
#[local] Existing Instances ex_crypto ex_codec ex_codec_laws.

Definition ex_opts : SessionOptions := withDefaults (mkSessionOptions 0 0 0 0).
Definition ex_step : AuthDB → AuthDB → Prop := api_step ex_opts true [] (λ _ _, None) (λ _, None) None (λ _, Ok tt).
Definition ex_owner : Principal := mkPrincipal OwnerPrincipal "Owner" "owner" MethodAPIKey [RoleAdmin] [] {[ MetaIdentityID := "idn_1" ]}.
Definition ex_code : string := EncodeBase64 ex_secret.
Definition ex_d3 : AuthDB := (MintCode ex_opts 20 ex_secret (Some ex_owner) ex_d2).2.
Definition ex_exchange (d : AuthDB) : result AuthError Minted * AuthDB :=
  Exchange ex_opts true 30 30 ex_secret "0123456789ab" ex_code (mkClientInfo nostr nostr) d.
Definition ex_d4 : AuthDB := (ex_exchange ex_d3).2.

Lemma ex_steps2 : star ex_step (initDB 0) ex_d2.
Proof.
  eapply star_step with ex_d1; [|eapply star_step with ex_d2; [|constructor]].
  - eapply api_step_method; [apply api_plain, (op_principal_Create 0 "prn_1" ex_person)|apply surjective_pairing].
  - eapply (api_step_mint _ _ _ _ _ _ _ _ _ 0 0 0 ex_id ex_secret "idn_1" (mkMintKey OwnerPrincipal "cli" ZeroTime []));
      [vm_compute; reflexivity|apply (surjective_pairing (ex_mint ex_d1))].
Qed.

Lemma ex_steps4 : star ex_step (initDB 0) ex_d4.
Proof.
  eapply star_trans; [exact ex_steps2|]. eapply star_step with ex_d3; [|eapply star_step with ex_d4; [|constructor]].
  - eapply api_step_method; [apply (api_MintCode _ _ _ _ _ _ _ 20 ex_secret (Some ex_owner))|apply surjective_pairing].
  - eapply api_step_method; [apply (api_Exchange _ _ _ _ _ _ _ 30 30 ex_secret "0123456789ab" ex_code (mkClientInfo nostr nostr))|].
    apply (surjective_pairing (ex_exchange ex_d3)).
Qed.

Lemma caller_within_roles_witness :
  ∃ p n a d', chain_Authenticate ex_chain ex_cred ex_d2 = (Authenticated p n a, d') ∧ within_roles d' p a.
Proof.
  destruct (outcome_cases (chain_Authenticate ex_chain ex_cred ex_d2)) as (p & n & a & d' & Ha); [vm_compute; reflexivity|].
  exists p, n, a, d'. split; [exact Ha|].
  refine (caller_within_roles _ _ _ _ _ _ _ _ _ _ _ _ _ _ _ ex_steps2 ex_builtin Ha _).
  assert (Hd : d' = (chain_Authenticate ex_chain ex_cred ex_d2).2) by (rewrite Ha; reflexivity). rewrite Hd.
  refine (bool_decide_eq_true_1 (map_Forall (λ k _, is_ascii k = true) _) _). vm_compute. reflexivity.
Defined.

Lemma session_lifetime_witness :
  ∃ p sess d', Authenticate ex_opts true 40 40 ex_code ex_d4 = (Ok (p, sess), d') ∧
  ∃ k s t0 tl, dbSessions ex_d4 !! k = Some s ∧ usSecretHash s = HashSecret ex_code ∧ usRevokedAt s = None ∧
    session_times ex_opts s t0 tl ∧ (40 < t0 + MaxTTL ex_opts)%Z ∧ (40 < tl + IdleTTL ex_opts)%Z ∧
    usExpiresAt sess = fromMillis (toMillis (t0 + MaxTTL ex_opts)) ∧
    ∀ s', dbSessions d' !! k = Some s' → usExpiresAt s' = usExpiresAt s ∧ (usIdleExpiresAt s' ≤ usExpiresAt s)%Z.
Proof.
  destruct (result_cases (Authenticate ex_opts true 40 40 ex_code ex_d4)) as ([p sess] & d' & Ha); [vm_compute; reflexivity|].
  exists p, sess, d'. split; [exact Ha|].
  exact (session_lifetime ex_opts _ _ _ _ _ _ _ _ _ _ _ _ _ _ ex_steps4 Ha).
Defined.
