(* ===== verification/AuthFlows.v ===== *)
(** * Credentials from issue to use

    What a minted key, a login code, a ticket and a chain of methods do from one
    call to the next: a key verifies once minted, a code and a ticket are used
    once, and a carried key decides a request whatever cookie rides along. *)

From S2P Require Import Prelude GoStrings JobStore StorageScope Resolver Encodings AuthScopes AuthRegistry AuthInvariants AuthKeys AuthSessions AuthSafety AuthConfinement.

(** ** A minted key verifies *)
Section minted.
Context `{GoCrypto} `{KeyCodecLaws}.

Definition key_text (id sec : string) : string := APIKeyPrefix +:+ "_" +:+ id +:+ "_" +:+ sec.

Lemma splitN3_key id sec : lacks "_" id = true → splitN3 (key_text id sec) "_" = Some (APIKeyPrefix, id, sec).
Proof.
  intros Hid. unfold splitN3, key_text.
  change ("_" +:+ id +:+ "_" +:+ sec) with (String "_" (id +:+ String "_" sec)).
  rewrite span_app; [|done|done]. rewrite span_app; [done|exact Hid|done].
Qed.

Lemma splitAPIKey_key idb secb : String.length idb = apiKeyIDBytes → String.length secb = apiKeySecretBytes →
  splitAPIKey (key_text (EncodeHex idb) (EncodeBase64 secb)) = Some (EncodeHex idb, EncodeBase64 secb).
Proof.
  intros Hi Hs. unfold splitAPIKey. rewrite splitN3_key.
  - rewrite str_eqb_refl, <- Hi, isHex_EncodeHex, DecodeBase64_Encode, Hs. done.
  - apply (lower_hex_lacks "_"); [done|apply EncodeHex_lower].
Qed.

Lemma key_text_trim idb secb : TrimSpace (key_text (EncodeHex idb) (EncodeBase64 secb)) = key_text (EncodeHex idb) (EncodeBase64 secb).
Proof.
  apply TrimSpace_printable. unfold key_text. rewrite !str_forall_app, EncodeHex_printable, EncodeBase64_printable. done.
Qed.

Lemma bind_run {A B} (m : auth A) (f : A → auth B) d a d1 : m d = (Ok a, d1) → (m ≫= f) d = f a d1.
Proof. intros Hm. unfold mbind, auth_bind. by rewrite Hm. Qed.

Lemma lk_get_at id d rec : key_at d id rec → lk_get id d = (Ok (Some rec), d).
Proof.
  intros (data & Hd & Hu). unfold lk_get. rewrite (bind_run _ _ d (Some data) d); [by rewrite Hu|].
  unfold kv_Get, gets. by rewrite Hd.
Qed.

(** A live record is found by its own text. *)
Lemma lk_Verify_live d now idb secb rec :
  String.length idb = apiKeyIDBytes → String.length secb = apiKeySecretBytes → key_at d (EncodeHex idb) rec →
  akHash rec = apiKeyHash (EncodeHex idb) (EncodeBase64 secb) → akRevokedAt rec = ZeroTime →
  (akExpiresAt rec = ZeroTime ∨ (now < akExpiresAt rec)%Z) →
  lk_Verify now (key_text (EncodeHex idb) (EncodeBase64 secb)) d = (Ok rec, d).
Proof.
  intros Hi Hs Hat Hh Hr He. unfold lk_Verify. rewrite key_text_trim, splitAPIKey_key by done.
  assert (str_eqb (key_text (EncodeHex idb) (EncodeBase64 secb)) nostr = false) as -> by done.
  rewrite (bind_run _ _ _ _ _ (lk_get_at _ _ _ Hat)).
  rewrite Hh, str_eqb_refl, Hr. cbn [negb].
  assert (IsZero ZeroTime = true) as -> by reflexivity. cbn [negb].
  assert (expired (akExpiresAt rec) now = false) as ->; [|done].
  unfold expired, IsZero. destruct He as [->|He]; [by rewrite Z.eqb_refl|]. apply Z.ltb_lt in He as ->. apply andb_false_r.
Qed.

Lemma identity_Touch_runs id t d i : dbIdentities d !! id = Some i → ∃ d', identity_Touch id t d = (Ok tt, d').
Proof. intros Hi. unfold identity_Touch, identity_exists, modify. rewrite Hi. destruct (row_hit _ _ _); eauto. Qed.

Lemma identity_Find_unique d k i : reg_wf d → dbIdentities d !! k = Some i →
  identity_Find (idnMethod i) (idnIssuer i) (idnSubject i) d = (Ok (scanIdentity i), d).
Proof.
  intros Hwf Hk. unfold identity_Find. rewrite (map_find_unique _ _ k i); [done|done|by apply same_triple_spec|].
  intros k' y Hk' Ht. apply same_triple_spec in Ht. by apply (wf_triple _ Hwf k' k y i).
Qed.

(** A live record, identity and principal verify. *)
Lemma keys_Verify_live d t1 t2 raw rec k i p : reg_wf d → lk_Verify t1 raw d = (Ok rec, d) →
  dbIdentities d !! k = Some i → triple i = (IdentityMethodAPIKey, nostr, akID rec) → idnRevokedAt i = None →
  idnPrincipalID i = akPrincipal rec → dbPrincipals d !! akPrincipal rec = Some p → spStatus p = PrincipalActive →
  ∃ d', keys_Verify t1 t2 raw d = (Ok (keyPrincipal (scanPrincipal p) rec (scanIdentity i), scanIdentity i), d').
Proof.
  intros Hwf Hv Hi Ht Hl Ho Hp Ha. pose proof (identity_Find_unique d k i Hwf Hi) as Hfind.
  injection Ht as Hm Hiss Hsu. rewrite Hm, Hiss, Hsu in Hfind.
  pose proof (wf_identity_id _ Hwf _ _ Hi) as Hid. destruct (identity_Touch_runs k t2 d i Hi) as (d' & Htouch).
  exists d'. unfold keys_Verify, not_found_as, handle, mbind, auth_bind. rewrite Hv, Hfind.
  assert (identity_Active (scanIdentity i) = true) as -> by (unfold identity_Active; cbn; by rewrite Hl).
  cbn [check mret auth_ret scanIdentity idn_times idnPrincipalID idnID]. rewrite Ho, str_eqb_refl. cbn [check mret auth_ret].
  unfold principal_Get. rewrite Hp.
  assert (principal_Active (scanPrincipal p) = true) as -> by (unfold principal_Active; cbn; by rewrite Ha, str_eqb_refl).
  cbn [check mret auth_ret]. by rewrite Hid, Htouch.
Qed.

(** A minted key works: right after a mint, the text it returned verifies,
    until it expires, as the principal it was minted for, through the identity
    the mint created and with the scopes the mint reported. *)
Theorem minted_key_verifies t1 t2 t3 t4 t5 idb sec idn spec d raw ik d1 :
  reachable d → ascii_ids d → String.length idb = apiKeyIDBytes → String.length sec = apiKeySecretBytes → idn ≠ nostr →
  keys_Mint t1 t2 t3 idb sec idn spec d = (Ok (raw, ik), d1) →
  (ikExpiresAt ik = ZeroTime ∨ (t4 < ikExpiresAt ik)%Z) →
  ∃ p i d2, keys_Verify t4 t5 raw d1 = (Ok (p, i), d2) ∧ pID p = mkPrincipalID spec ∧ idnID i = ikIdentityID ik ∧
    pMeta p !! MetaIdentityID = Some (ikIdentityID ik) ∧ pScopes p = scopesNamed (ikScopes ik).
Proof.
  intros Hreach Ha Hi Hs Hidn Hm Hexp. pose proof (reachable_wf _ Hreach) as Hwf.
  assert (Hwf1 : reg_wf d1) by (eapply reg_step_wf; [by eapply runs_keys_Mint|done]).
  apply keys_Mint_cases in Hm as [[_ Hf]|(p & scopes & ttl & data & Hp & Hid & Hact & Hsc & Hmar & _ & Hend)]; [done| |done].
  cbn zeta in Hend. destruct Hend as [(j & Hj & Heq)|[Hf _]]; [|done].
  apply identity_Create_ok in Hj as (Hd1 & Ht & Hpr & _ & Hrv & _).
  set (rec := new_record _ _ _ _) in *. injection Heq as -> ->.
  destruct (new_record_ok d t2 idb (EncodeBase64 sec) p scopes ttl Hwf Ha Hp) as [_ Has _].
  { intros s Hin. by apply (keyScopes_granted (scanPrincipal p) (mkScopes spec) scopes). }
  assert (Hat : key_at d1 (EncodeHex idb) rec).
  { apply (key_at_kv (set_kv (<[apiKeyStorePrefix +:+ EncodeHex idb := data]> (dbKV d)) d)); [by rewrite Hd1|].
    exact (key_at_put_same d data rec Has Hmar). }
  pose proof (lk_Verify_live d1 t4 idb sec rec Hi Hs Hat eq_refl eq_refl Hexp) as Hv.
  assert (Hj : dbIdentities d1 !! idnID j = Some (idn_times toMillis j)) by (rewrite Hd1; apply lookup_insert_eq).
  destruct (keys_Verify_live d1 t4 t5 _ rec (idnID j) (idn_times toMillis j) p Hwf1 Hv Hj) as (d2 & Hver).
  - exact Ht.
  - cbn. by rewrite Hrv.
  - exact Hpr.
  - rewrite Hd1. exact Hp.
  - exact Hact.
  - eexists _, _, d2. split; [exact Hver|]. split; [exact Hid|]. split; [reflexivity|].
    split; [apply key_Meta_identity|reflexivity].
Qed.
End minted.

(** ** Codes and tickets are used once *)
Section once.
Context `{GoCrypto} `{KeyCodec}.

Lemma session_Create_codes u d r d' : session_Create u d = (r, d') → dbCodes d' = dbCodes d.
Proof. unfold session_Create. repeat case_match; by intros [= _ <-]. Qed.

Lemma mintFor_codes opts wk now sb ib i p k ci d r d' : mintFor opts wk now sb ib i p k ci d = (r, d') → dbCodes d' = dbCodes d.
Proof.
  unfold mintFor. intros [(e & Hr & _)|([[q j] sc] & d1 & Hr & Hm)]%bind_inv; apply reads_resolve in Hr as ->; [done|].
  cbn zeta in Hm. apply bind_inv in Hm as [(e & Hc & _)|(u & d1 & Hc & Hm)]; apply session_Create_codes in Hc; [done|].
  by injection Hm as _ <-.
Qed.

(** Whatever an exchange answers, its code is spent. *)
Lemma Exchange_spends opts wk t1 t2 sb ib code ci d r d' :
  code ≠ nostr → Exchange opts wk t1 t2 sb ib code ci d = (r, d') → dbCodes d' !! HashSecret code = None.
Proof.
  intros Hne. unfold Exchange. destruct (str_eqb code nostr) eqn:He; [by apply str_eqb_true in He|]. cbn zeta.
  assert (Hspent : ∀ r0 d0, session_ConsumeLoginCode (HashSecret code) t1 d = (r0, d0) → dbCodes d0 !! HashSecret code = None).
  { intros r0 d0. unfold session_ConsumeLoginCode. destruct (dbCodes d !! HashSecret code) eqn:Hk; [|by intros [= _ <-]].
    cbn zeta. destruct (_ <? _)%Z; intros [= _ <-]; cbn; apply lookup_delete_eq. }
  intros [(e & Hr & _)|(lc & d1 & Hr & Hm)]%bind_inv.
  - unfold not_found_as, handle in Hr. destruct (session_ConsumeLoginCode _ _ d) as [[lc|e'] d1] eqn:Hc; [discriminate|].
    specialize (Hspent _ _ eq_refl). destruct e'; injection Hr as _ <-; exact Hspent.
  - apply not_found_as_ok in Hr. specialize (Hspent _ _ Hr).
    apply bind_inv in Hm as [(e & Hk & _)|(u & d2 & Hk & Hm)]; apply reads_check in Hk as ->; [done|].
    apply mintFor_codes in Hm. by rewrite Hm.
Qed.

(** A statement that stores no code of hash [h]. *)
Definition reg_step_not_storing (h : string) (d d' : AuthDB) : Prop :=
  reg_step d d' ∧ (dbCodes d !! h = None → dbCodes d' !! h = None).

(** A login code opens at most one session: once it was exchanged, however
    that went, it is unknown to every later exchange, whatever statements ran in
    between that stored no code of the same hash. *)
Theorem login_code_used_once opts wk opts' wk' t1 t2 t1' t2' sb ib sb' ib' code ci ci' d r d1 d2 :
  code ≠ nostr → Exchange opts wk t1 t2 sb ib code ci d = (r, d1) →
  star (reg_step_not_storing (HashSecret code)) d1 d2 →
  Exchange opts' wk' t1' t2' sb' ib' code ci' d2 = (Err (InvalidCredential UnknownCode), d2).
Proof.
  intros Hne Hx Hd2. assert (Hn : dbCodes d2 !! HashSecret code = None).
  { apply (star_invariant _ (λ d, dbCodes d !! HashSecret code = None)) in Hd2; [done| |by eapply Exchange_spends].
    by intros a b [_ Hab]. }
  unfold Exchange. destruct (str_eqb code nostr) eqn:He; [by apply str_eqb_true in He|]. cbn zeta.
  unfold mbind, auth_bind, not_found_as, handle, session_ConsumeLoginCode. by rewrite Hn.
Qed.

Lemma redeem_ok now kind secret d tk d' : redeem now kind secret d = (Ok tk, d') →
  ∃ t, dbTickets d' !! TicketHash secret = Some t ∧ tkRedeemedAt t = Some (toMillis now).
Proof.
  unfold redeem. destruct (str_eqb secret nostr); [discriminate|].
  intros [Hr|(e & de & _ & Hr)]%handle_ok; [|destruct e; discriminate].
  revert Hr. unfold ticket_Redeem. destruct (dbTickets d !! TicketHash secret) as [t|] eqn:Ht; [|discriminate].
  destruct (ticket_open _ _ t); [|discriminate].
  destruct (ticket_principal_ok d t); [|destruct (principal_status _ _); discriminate].
  intros [= _ <-]. cbn. rewrite lookup_insert_eq. eauto.
Qed.

Lemma redeem_redeemed now kind secret d t x : secret ≠ nostr →
  dbTickets d !! TicketHash secret = Some t → tkRedeemedAt t = Some x →
  redeem now kind secret d = (Err (InvalidCredential InvalidTicket), d).
Proof.
  intros Hne Ht Hx. unfold redeem. destruct (str_eqb secret nostr) eqn:He; [by apply str_eqb_true in He|].
  unfold handle, ticket_Redeem. rewrite Ht. unfold ticket_open. rewrite Hx, andb_false_r. done.
Qed.

(** C38. An invite or a sign-in link is redeemed at most once: in every state any
    run of the registry's statements reaches afterwards, redeeming its secret
    again, as either kind, is refused and changes nothing. *)
Theorem ticket_redeemed_once t1 t2 kind kind' secret d tk d1 d2 :
  redeem t1 kind secret d = (Ok tk, d1) → star reg_step d1 d2 →
  redeem t2 kind' secret d2 = (Err (InvalidCredential InvalidTicket), d2).
Proof.
  intros Hr Hd. assert (Hne : secret ≠ nostr) by (intros ->; discriminate).
  apply redeem_ok in Hr as (t & Ht & Hx). destruct (ext_tickets _ _ (reg_step_ext _ _ Hd) _ _ Ht) as (t' & Ht' & _ & _ & _ & Hs).
  by eapply redeem_redeemed; [|exact Ht'|apply Hs].
Qed.
End once.

(** ** The chain *)
Section chain_order.
Context `{GoCrypto} `{KeyCodec}.

(** The chain stops at the first method that answers. *)
Lemma chain_app c1 c2 cred d : chain_Authenticate (c1 ++ c2) cred d =
  match chain_Authenticate c1 cred d with
  | (NoCredential _, d') => chain_Authenticate c2 cred d'
  | o => o
  end.
Proof.
  revert d. induction c1 as [|m c1 IH]; intros d; [done|]. cbn [app chain_Authenticate].
  destruct (mAuthenticate m cred d) as [[[p|]|e] d']; [done|apply IH|done].
Qed.

(** A presented key is answered for: matched or refused. *)
Lemma apikey_decides cfg t1 t2 t3 cred d r d' : crToken cred ≠ nostr →
  apikey_Authenticate cfg t1 t2 t3 cred d = (r, d') → r ≠ Ok None.
Proof.
  intros Hne. unfold apikey_Authenticate. destruct (str_eqb _ _) eqn:He; [by apply str_eqb_true in He|].
  intros Hr ->. apply bind_ok in Hr as ([p|] & d1 & _ & Hr); [by injection Hr|].
  apply bind_ok in Hr as (x & d2 & _ & Hr). by injection Hr.
Qed.

(** A builtin method that is carried looks at the token alone. *)
Definition with_cookie (c : string) (cred : Credential) : Credential :=
  mkCredential (crScheme cred) (crToken cred) (crTLSPeers cred) c.

Lemma carried_chain c cred cookie d o d' : Forall builtin c → crToken cred ≠ nostr → List.filter (λ m, negb (mAmbient m)) c ≠ [] →
  chain_Authenticate (List.filter (λ m, negb (mAmbient m)) c) cred d = (o, d') →
  chain_Authenticate (List.filter (λ m, negb (mAmbient m)) c) (with_cookie cookie cred) d = (o, d') ∧
  match o with Authenticated _ n a => n = MethodAPIKey ∧ a = false | Refused _ => True | NoCredential _ => False end.
Proof.
  intros Hc Hne. induction Hc as [|m c [(cfg & t1 & t2 & t3 & ->)|(opts & wk & t1 & t2 & ->)] Hc IH]; [done| |exact IH].
  intros _. cbn [List.filter apikey_method mAmbient negb chain_Authenticate mAuthenticate mName].
  change (apikey_Authenticate cfg t1 t2 t3 (with_cookie cookie cred) d) with (apikey_Authenticate cfg t1 t2 t3 cred d).
  destruct (apikey_Authenticate cfg t1 t2 t3 cred d) as [[[p|]|e] d1] eqn:Hr.
  - intros [= <- <-]. done.
  - by apply apikey_decides in Hr.
  - intros [= <- <-]. done.
Qed.

(** A carried key decides the request: where a chain runs the API key method
    at all, a request that presents a key is matched or refused by it, whatever
    the order the methods were configured in, and no cookie riding along changes
    the answer or the database.  A bad key is never rescued by a session. *)
Theorem carried_key_decides ms cred cookie d o d' :
  Forall builtin ms → existsb (λ m, negb (mAmbient m)) ms = true → crToken cred ≠ nostr →
  chain_Authenticate (NewChain ms) cred d = (o, d') →
  chain_Authenticate (NewChain ms) (with_cookie cookie cred) d = (o, d') ∧
  match o with Authenticated _ n a => n = MethodAPIKey ∧ a = false | Refused _ => True | NoCredential _ => False end.
Proof.
  intros Hms Hex Hne. unfold NewChain. rewrite !chain_app.
  assert (Hnil : List.filter (λ m, negb (mAmbient m)) ms ≠ []).
  { apply existsb_exists in Hex as (m & Hin & Hm). intros Hx. assert (Hin' : In m []) by (rewrite <- Hx; by apply filter_In). done. }
  destruct (chain_Authenticate (List.filter (λ m, negb (mAmbient m)) ms) cred d) as [o1 d1] eqn:H1.
  destruct (carried_chain _ _ cookie _ _ _ Hms Hne Hnil H1) as [-> Hk].
  destruct o1; [| |done]; by intros [= <- <-].
Qed.
End chain_order.

(** ** Witnesses *)
#[local] Existing Instances ex_crypto ex_codec ex_codec_laws.

Lemma ex_ascii1 : ascii_ids ex_d1.
Proof. refine (bool_decide_eq_true_1 (map_Forall (λ k _, is_ascii k = true) _) _). vm_compute. reflexivity. Qed.

Lemma ex_reachable1 : reachable ex_d1.
Proof.
  exists 0%Z. eapply (runs_op (principal_Create 0 "prn_1" ex_person)); [apply op_plain, op_principal_Create|apply surjective_pairing].
Qed.

Lemma minted_key_verifies_witness :
  ∃ raw ik d1, ex_mint ex_d1 = (Ok (raw, ik), d1) ∧
  ∃ p i d2, keys_Verify 10 10 raw d1 = (Ok (p, i), d2) ∧ pID p = OwnerPrincipal ∧ idnID i = ikIdentityID ik ∧
    pMeta p !! MetaIdentityID = Some (ikIdentityID ik) ∧ pScopes p = scopesNamed (ikScopes ik).
Proof.
  destruct (result_cases (ex_mint ex_d1)) as ([raw ik] & d1 & Hm); [vm_compute; reflexivity|].
  exists raw, ik, d1. split; [exact Hm|].
  refine (minted_key_verifies 0 0 0 10 10 ex_id ex_secret "idn_1" (mkMintKey OwnerPrincipal "cli" ZeroTime []) ex_d1 raw ik d1
            ex_reachable1 ex_ascii1 eq_refl eq_refl _ Hm _); [discriminate|].
  assert (Hik : Ok (raw, ik) = (ex_mint ex_d1).1) by (rewrite Hm; reflexivity). vm_compute in Hik. injection Hik as _ ->.
  left. reflexivity.
Defined.

Lemma login_code_used_once_witness :
  (ex_exchange ex_d3).1 ≠ Err (InvalidCredential UnknownCode) ∧
  Exchange ex_opts true 31 31 ex_secret "0123456789ab" ex_code (mkClientInfo nostr nostr) ex_d4 =
    (Err (InvalidCredential UnknownCode), ex_d4).
Proof.
  split; [vm_compute; discriminate|].
  refine (login_code_used_once ex_opts true ex_opts true 30 30 31 31 ex_secret "0123456789ab" ex_secret "0123456789ab" ex_code
            (mkClientInfo nostr nostr) _ ex_d3 _ ex_d4 ex_d4 _ (surjective_pairing (ex_exchange ex_d3)) (star_refl _ _)).
  vm_compute. discriminate.
Defined.

Lemma ticket_redeemed_once_witness :
  let d := (MintLink 50 "secret" (Some ex_owner) "prn_1" ex_d2).2 in
  ∃ tk d1, redeem 60 TicketKindMagicLink "secret" d = (Ok tk, d1) ∧
    redeem 61 TicketKindInvite "secret" d1 = (Err (InvalidCredential InvalidTicket), d1).
Proof.
  intros d. destruct (result_cases (redeem 60 TicketKindMagicLink "secret" d)) as (tk & d1 & Hr); [vm_compute; reflexivity|].
  exists tk, d1. split; [exact Hr|]. exact (ticket_redeemed_once 60 61 _ _ _ _ _ _ _ Hr (star_refl _ _)).
Defined.

Definition ex_methods : list Method := [session_method ex_opts true 10 10; apikey_method [] 10 10 10].

Lemma carried_key_decides_witness :
  ∃ o d', chain_Authenticate (NewChain ex_methods) ex_cred ex_d2 = (o, d') ∧
    chain_Authenticate (NewChain ex_methods) (with_cookie "other" ex_cred) ex_d2 = (o, d') ∧
    match o with Authenticated _ n a => n = MethodAPIKey ∧ a = false | Refused _ => True | NoCredential _ => False end.
Proof.
  destruct (chain_Authenticate (NewChain ex_methods) ex_cred ex_d2) as [o d'] eqn:Ha. exists o, d'. split; [reflexivity|].
  refine (carried_key_decides ex_methods ex_cred "other" ex_d2 o d' _ eq_refl _ Ha).
  - refine (Forall_cons_2 _ _ _ _ (Forall_cons_2 _ _ _ _ (Forall_nil_2 _))); [right; by exists ex_opts, true, 10%Z, 10%Z|].
    left. by exists [], 10%Z, 10%Z, 10%Z.
  - discriminate.
Defined.
