(* ===== verification/UrlFilter.v ===== *)
(** * The URL filter

    Models [internal/urlfilter] ([pattern.go], [urlfilter.go], [config.go],
    [merge.go]): the patterns of a rule, the target a URL is parsed to, the
    layered filter and the merging of configurations.  [net/url], IDNA, IP
    parsing and Unicode case folding are parameters ([GoNet], [GoUnicode]). *)

From S2P Require Import Prelude GoStrings.
From stdpp Require Import gmap sets.

(** The parts of a parsed URL the filter reads. *)
Record URL : Type := mkURL {
  uScheme : string;
  uOpaque : string;
  uHostname : string;
  uPort : string;
  uPath : string;
  uRawQuery : string;
  uForceQuery : bool;
}.

Class GoNet : Type := {
  ParseURL : string → option URL;
  IsIP : string → bool;
  IDNAToASCII : string → option string;
  EqualFold : string → string → bool;
}.

(** ** Splitting *)

(** [strings.Index] and the two slices around the match: at the first occurrence. *)
Fixpoint CutAt (s sep : string) : option (string * string) :=
  if HasPrefix s sep then Some (nostr, str_drop (String.length sep) s)
  else match s with
       | EmptyString => None
       | String c s' => match CutAt s' sep with Some (a, b) => Some (String c a, b) | None => None end
       end.

(** At the last occurrence of a byte. *)
Fixpoint CutLast (s : string) (c : ascii) : option (string * string) :=
  match s with
  | EmptyString => None
  | String d s' =>
      match CutLast s' c with
      | Some (a, b) => Some (String d a, b)
      | None => if is_char d c then Some (nostr, s') else None
      end
  end.

(** ** pattern.go *)
Inductive hostKind : Type := hostAny | hostExact | hostSubdomain | hostGlob.
Record hostMatcher : Type := mkHost { hKind : hostKind; hValue : string }.

Record pattern : Type := mkPattern {
  paRaw : string;
  paAnyScheme : bool;
  paScheme : string;
  paHost : hostMatcher;
  paPort : string;
  paPath : string;
  paPathGlob : bool;
}.

Inductive PatternError : Type :=
| EmptyScheme | UserinfoInRule | MissingBracket | AfterIPv6 | InvalidPort
| NonASCIIGlob | InvalidIDN | BareStar | HostRune | EmptyHost.

Section patterns.
Context `{GoUnicode} `{GoNet}.

Definition isASCII (s : string) : bool := is_ascii s.

Definition normalizeHost (h : string) : result PatternError string :=
  let h := TrimSuffix h "." in
  if isASCII h || IsIP h then Ok (ToLower h)
  else match IDNAToASCII h with None => Err InvalidIDN | Some a => Ok a end.

Definition compileHost (h : string) : result PatternError hostMatcher :=
  if str_eqb h "*" then Ok (mkHost hostAny nostr)
  else if HasPrefix h "*." && negb (StrContains (str_drop 2 h) "*") then
    mkHost hostSubdomain <$> normalizeHost (str_drop 2 h)
  else if StrContains h "*" then
    if negb (isASCII h) then Err NonASCIIGlob
    else Ok (mkHost hostGlob (TrimSuffix (ToLower h) "."))
  else mkHost hostExact <$> normalizeHost h.

Definition isHostPatternRune (c : ascii) : bool :=
  is_lower c || is_upper c || is_digit c || is_char c "." || is_char c "-" || is_char c "_" || is_char c "*".

(** [strings.Trim(port, digits) != nostr]: some byte is not a digit. *)
Definition splitHostPort (authority : string) : result PatternError (string * string) :=
  hp ← (if HasPrefix authority "[" then
          match CutAt authority "]" with
          | None => Err MissingBracket
          | Some (h, tail) =>
              let host := str_drop 1 h in
              if str_eqb tail nostr then Ok (host, nostr)
              else if negb (HasPrefix tail ":") then Err AfterIPv6
              else Ok (host, str_drop 1 tail)
          end
        else match CutLast authority ":" with
             | Some hp => Ok hp
             | None => Ok (authority, nostr)
             end);
  let '(host, port) := hp in
  if str_eqb port "*" then Ok (host, nostr)
  else if negb (str_forall is_digit port) then Err InvalidPort
  else Ok (host, port).

Definition compileBare (raw : string) : result PatternError pattern :=
  if str_eqb raw "*" then Err BareStar
  else if negb (str_forall (λ c, (128 <=? code c) || isHostPatternRune c) raw) then Err HostRune
  else
    h ← compileHost raw;
    if str_eqb (hValue h) nostr then Err EmptyHost
    else Ok (mkPattern raw true nostr h nostr nostr false).

Definition path_start (c : ascii) : bool := is_char c "/" || is_char c "?" || is_char c "#".

Definition compilePattern (raw : string) : result PatternError pattern :=
  match CutAt raw "://" with
  | None => compileBare raw
  | Some (before, rest) =>
      let scheme := ToLower before in
      if str_eqb scheme nostr then Err EmptyScheme
      else
        let anyScheme := str_eqb scheme "*" in
        let '(authority, path) := span (λ c, negb (path_start c)) rest in
        if StrContains authority "@" then Err UserinfoInRule
        else
          hp ← splitHostPort authority;
          let '(host, port) := hp in
          h ← compileHost host;
          let any_path := str_eqb path "/*" || str_eqb path "*" in
          Ok (mkPattern raw anyScheme (if anyScheme then nostr else scheme) h port
                (if any_path then nostr else path) (if any_path then false else StrContains path "*"))
  end.

(** ** Targets *)
Record target : Type := mkTarget {
  tgAuthority : bool;
  tgScheme : string;
  tgHost : string;
  tgPort : string;
  tgPath : string;
}.

Definition defaultPorts : list (string * string) :=
  [("http", "80"); ("ws", "80"); ("https", "443"); ("wss", "443"); ("ftp", "21")]%string.
Definition default_port (scheme : string) : string :=
  match List.find (λ kv, str_eqb kv.1 scheme) defaultPorts with Some (_, p) => p | None => nostr end.

(** [None] is [errUnparseable]. *)
Definition parseTarget (raw : string) : option target :=
  match ParseURL raw with
  | None => None
  | Some u =>
      if str_eqb (uScheme u) nostr then None
      else match normalizeHost (uHostname u) with
           | Err _ => None
           | Ok host =>
               let path := if str_eqb (uPath u) nostr then "/" else uPath u in
               Some (mkTarget
                       (str_eqb (uOpaque u) nostr && HasPrefix (str_drop (String.length (uScheme u) + 1) raw) "//")
                       (uScheme u) host
                       (if str_eqb (uPort u) nostr then default_port (uScheme u) else uPort u)
                       (if negb (str_eqb (uRawQuery u) nostr) || uForceQuery u then path +:+ "?" +:+ uRawQuery u else path))
           end
  end.

(** ** Matching *)

(** The middle segments in order, each at its first occurrence. *)
Fixpoint find_all (segs : list string) (mid : string) : bool :=
  match segs with
  | [] => true
  | seg :: segs' => match CutAt mid seg with None => false | Some (_, rest) => find_all segs' rest end
  end.

Definition globAnchored (p s : string) : bool :=
  match SplitByte p "*" with
  | [] | [_] => str_eqb p s
  | first :: rest =>
      let last := List.last rest nostr in
      if negb (HasPrefix s first) || negb (HasSuffix s last) || (String.length s <? String.length first + String.length last)
      then false
      else find_all (removelast rest) (slice s (String.length first) (String.length s - String.length last))
  end.

Definition host_match (m : hostMatcher) (host : string) : bool :=
  match hKind m with
  | hostAny => true
  | hostExact => str_eqb host (hValue m)
  | hostSubdomain => str_eqb host (hValue m) || HasSuffix host ("." +:+ hValue m)
  | hostGlob => globAnchored (hValue m) host
  end.

Definition pattern_match (p : pattern) (t : target) : bool :=
  if negb (tgAuthority t) then false
  else if negb (paAnyScheme p) && negb (str_eqb (paScheme p) (tgScheme t)) then false
  else if negb (host_match (paHost p) (tgHost t)) then false
  else if negb (str_eqb (paPort p) nostr) && negb (str_eqb (paPort p) (tgPort t)) then false
  else if str_eqb (paPath p) nostr then true
  else if paPathGlob p then globAnchored (paPath p) (tgPath t)
  else HasPrefix (tgPath t) (paPath p).
End patterns.

(** ** urlfilter.go *)
Definition ListDeny : string := "deny".
Definition ListAllowOnly : string := "allow_only".

Inductive Reason : Type :=
| ReasonAllowed | ReasonDenyRule | ReasonNotAllowListed | ReasonUnparseable | ReasonSchemeNotCaptured.

Record Rule : Type := mkRule { ruPattern : string; ruList : string; ruScope : string }.
Definition noRule : Rule := mkRule nostr nostr nostr.

Record Decision_ : Type := mkDecision { dAllowed : bool; dReason : Reason; dRule : Rule; dScheme : string }.

Record Rules : Type := mkRules {
  Deny : list string;
  AllowOnly : list string;
  moreAllowOnly : list (list string);
}.
Definition noRules : Rules := mkRules [] [] [].

(** A layer; [None] for [onlySchemes] is the nil slice. *)
Record Layer : Type := mkLayer { lyScope : string; lyRules : Rules; lyOnlySchemes : option (list string) }.

Record compiledLayer : Type := mkCompiled {
  clScope : string;
  clOnlySchemes : option (list string);
  clDeny : list pattern;
  clAllowOnly : list pattern;
}.

Definition Filter : Type := list compiledLayer.

(** An error of [New] names the scope, the list and the rule. *)
Record FilterError : Type := mkFilterError { feScope : string; feList : string; feRule : string; feCause : PatternError }.

(** [allowOnlyLists] *)
Definition allowOnlyLists (r : Rules) : list (list string) :=
  (match AllowOnly r with [] => [] | l => [l] end) ++ List.filter (λ l, match l with [] => false | _ => true end) (moreAllowOnly r).

Section filter.
Context `{GoUnicode} `{GoNet}.

Fixpoint compileAll (scope ls : string) (raws : list string) : result FilterError (list pattern) :=
  match raws with
  | [] => Ok []
  | raw :: raws =>
      match compilePattern raw with
      | Err e => Err (mkFilterError scope ls raw e)
      | Ok p => cons p <$> compileAll scope ls raws
      end
  end.

(** The gates of a layer: the first carries the deny rules and the first
    allow_only list, each further list is a gate of its own. *)
Fixpoint compileGates (scope : string) (lists : list (list string)) : result FilterError (list (list pattern)) :=
  match lists with
  | [] => Ok []
  | l :: lists =>
      ps ← compileAll scope ListAllowOnly l;
      cons ps <$> compileGates scope lists
  end.

Definition compileLayer (l : Layer) : result FilterError (list compiledLayer) :=
  deny ← compileAll (lyScope l) ListDeny (Deny (lyRules l));
  gates ← compileGates (lyScope l) (allowOnlyLists (lyRules l));
  match gates with
  | [] => Ok [mkCompiled (lyScope l) (lyOnlySchemes l) deny []]
  | g :: gs => Ok (mkCompiled (lyScope l) (lyOnlySchemes l) deny g :: map (mkCompiled (lyScope l) None []) gs)
  end.

Fixpoint New (layers : list Layer) : result FilterError Filter :=
  match layers with
  | [] => Ok []
  | l :: layers =>
      gates ← compileLayer l;
      rest ← New layers;
      Ok (gates ++ rest)
  end.

(** The three passes over the layers. *)
Definition scheme_refused (t : target) (l : compiledLayer) : bool :=
  match clOnlySchemes l with None => false | Some ss => negb (contains ss (tgScheme t)) end.

Fixpoint first_denied (t : target) (layers : list compiledLayer) : option Rule :=
  match layers with
  | [] => None
  | l :: layers =>
      match List.find (λ p, pattern_match p t) (clDeny l) with
      | Some p => Some (mkRule (paRaw p) ListDeny (clScope l))
      | None => first_denied t layers
      end
  end.

Definition gate_closed (t : target) (l : compiledLayer) : bool :=
  match clAllowOnly l with [] => false | ps => negb (existsb (λ p, pattern_match p t) ps) end.

Definition evaluate (t : target) (layers : list compiledLayer) : Decision_ :=
  match List.find (scheme_refused t) layers with
  | Some l => mkDecision false ReasonSchemeNotCaptured (mkRule nostr nostr (clScope l)) (tgScheme t)
  | None =>
      match first_denied t layers with
      | Some r => mkDecision false ReasonDenyRule r nostr
      | None =>
          match List.find (gate_closed t) layers with
          | Some l => mkDecision false ReasonNotAllowListed (mkRule nostr ListAllowOnly (clScope l)) nostr
          | None => mkDecision true ReasonAllowed noRule nostr
          end
      end
  end.

(** A nil filter still drops what does not parse. *)
Definition Evaluate (f : option Filter) (rawURL : string) : Decision_ :=
  match parseTarget rawURL with
  | None => mkDecision false ReasonUnparseable noRule nostr
  | Some t =>
      match f with
      | None => mkDecision true ReasonAllowed noRule nostr
      | Some f => evaluate t f
      end
  end.

Definition Matches (f : option Filter) (rawURL : string) : bool := dAllowed (Evaluate f rawURL).

(** ** config.go *)
Definition ScopeBuiltin : string := "builtin".
Definition ScopeGlobal : string := "global".
Definition builtinSchemes : list string := ["http"; "https"]%string.
Definition builtinDeny : list string := ["*://localhost/*"; "*://*.localhost/*"; "*://127.0.0.1/*"; "*://[::1]/*"]%string.
Definition BuiltinDeny : list string := builtinDeny.

Record BrowserConfig : Type := mkBrowser { bcRules : Rules; bcProfiles : gmap string Rules }.
Record Config : Type := mkConfig { cfRules : Rules; cfBrowsers : gmap string BrowserConfig }.

Definition sortedKeys {V} (m : gmap string V) : list string := SortStrings (map fst (map_to_list m)).

Definition profile_layers (bk : string) (profiles : list string) (bc : BrowserConfig) : list Layer :=
  map (λ pk, mkLayer ("profile:" +:+ bk +:+ "/" +:+ pk) (default noRules (bcProfiles bc !! pk)) None)
    (List.filter (λ pk, existsb (λ p, negb (str_eqb p nostr) && EqualFold p pk) profiles) (sortedKeys (bcProfiles bc))).

Definition browser_layers (profiles : list string) (browsers : gmap string BrowserConfig) (bk : string) : list Layer :=
  let bc := default (mkBrowser noRules ∅) (browsers !! bk) in
  mkLayer ("browser:" +:+ bk) (bcRules bc) None :: profile_layers bk profiles bc.

Definition For (c : Config) (browser : string) (profiles : list string) : result FilterError Filter :=
  New ([mkLayer ScopeBuiltin (mkRules builtinDeny [] []) (Some builtinSchemes); mkLayer ScopeGlobal (cfRules c) None] ++
       (if str_eqb browser nostr then []
        else concat (map (browser_layers profiles (cfBrowsers c))
               (List.filter (λ bk, EqualFold bk browser) (sortedKeys (cfBrowsers c)))))).
End filter.

(** ** merge.go *)

(** [appendUnique(nil, lists...)] *)
Fixpoint unique_from (seen : gset string) (l : list string) : list string :=
  match l with
  | [] => []
  | s :: l => if decide (s ∈ seen) then unique_from seen l else s :: unique_from ({[ s ]} ∪ seen) l
  end.
Definition appendUnique (lists : list (list string)) : list string := unique_from ∅ (concat lists).

Definition sameSet (a b : list string) : bool :=
  bool_decide (Compact (SortStrings a) = Compact (SortStrings b)).

Definition addAllowOnly (r : Rules) (l : list string) : Rules :=
  let l := appendUnique [l] in
  match l with
  | [] => r
  | _ =>
      if existsb (λ have, sameSet have l) (allowOnlyLists r) then r
      else match AllowOnly r with
           | [] => mkRules (Deny r) l (moreAllowOnly r)
           | _ => mkRules (Deny r) (AllowOnly r) (moreAllowOnly r ++ [l])
           end
  end.

Definition merged (r layer : Rules) : Rules :=
  fold_left addAllowOnly (allowOnlyLists r ++ allowOnlyLists layer) (mkRules (appendUnique [Deny r; Deny layer]) [] []).

(** The loops over a map: each key of the layer updates its own entry, in any
    order; a missing entry is the zero value. *)
Definition merge_profiles (ps layer : gmap string Rules) : gmap string Rules :=
  merge (λ p lp, match lp with None => p | Some lp => Some (merged (default noRules p) lp) end) ps layer.

Definition merge_browser (b lb : BrowserConfig) : BrowserConfig :=
  mkBrowser (merged (bcRules b) (bcRules lb)) (merge_profiles (bcProfiles b) (bcProfiles lb)).

Definition Merge (c layer : Config) : Config :=
  mkConfig (merged (cfRules c) (cfRules layer))
    (merge (λ b lb, match lb with None => b | Some lb => Some (merge_browser (default (mkBrowser noRules ∅) b) lb) end)
       (cfBrowsers c) (cfBrowsers layer)).

(** * Theorems *)

(** ** Globs *)

(** [*] is any run of characters, every other byte is itself. *)
Inductive glob : string → string → Prop :=
| glob_nil : glob nostr nostr
| glob_byte c p s : c ≠ "*"%char → glob p s → glob (String c p) (String c s)
| glob_skip p s : glob p s → glob (String "*" p) s
| glob_eat p c s : glob (String "*" p) s → glob (String "*" p) (String c s).

(** The segments of a pattern, found in order with anything between them
    ([spans]: and nothing after the last). *)
Fixpoint found (segs : list string) (s : string) : Prop :=
  match segs with
  | [] => True
  | seg :: segs' => ∃ gap rest, s = gap +:+ seg +:+ rest ∧ found segs' rest
  end.
Fixpoint spans (segs : list string) (s : string) : Prop :=
  match segs with
  | [] => s = nostr
  | seg :: segs' => ∃ gap rest, s = gap +:+ seg +:+ rest ∧ spans segs' rest
  end.

Lemma str_app_split (a t b y : string) :
  a +:+ t = b +:+ y → String.length a <= String.length b → ∃ g, t = g +:+ y.
Proof.
  revert b. induction a as [|c a IH]; intros b; cbn [String.length].
  - rewrite str_app_nil_l. intros Ht _. by exists b.
  - destruct b as [|d b]; cbn [String.length]; [lia|]. rewrite !str_app_cons. intros [= -> He] Hl.
    apply (IH b He). lia.
Qed.

Lemma CutAt_some s sep a b : CutAt s sep = Some (a, b) → s = a +:+ sep +:+ b.
Proof.
  revert a b. induction s as [|c s IH]; intros a b; cbn [CutAt].
  - destruct sep; [|discriminate]. by intros [= <- <-].
  - destruct (HasPrefix (String c s) sep) eqn:Hp.
    + intros [= <- <-]. apply HasPrefix_spec in Hp as [t Ht]. by rewrite Ht, str_drop_app.
    + destruct (CutAt s sep) as [[a' b']|]; [|discriminate]. intros [= <- <-]. by rewrite (IH a' b' eq_refl).
Qed.

Lemma HasPrefix_app (a b : string) : HasPrefix (a +:+ b) a = true.
Proof. apply HasPrefix_spec. by exists b. Qed.

(** The first occurrence leaves at least what any occurrence leaves. *)
Lemma CutAt_first s sep x y : s = x +:+ sep +:+ y → ∃ a b g, CutAt s sep = Some (a, b) ∧ b = g +:+ y.
Proof.
  revert x. induction s as [|c s IH]; intros x Hs.
  - destruct x; [|discriminate]. destruct sep; [|discriminate]. rewrite !str_app_nil_l in Hs. subst y.
    by exists nostr, nostr, nostr.
  - cbn [CutAt]. destruct (HasPrefix (String c s) sep) eqn:Hp.
    + apply HasPrefix_spec in Hp as [t Ht]. rewrite Ht, str_drop_app. rewrite Ht, <- str_app_assoc in Hs.
      apply str_app_split in Hs as [g Hg]; [by exists nostr, t, g|]. rewrite length_str_app. lia.
    + destruct x as [|d x].
      * rewrite str_app_nil_l in Hs. by rewrite Hs, HasPrefix_app in Hp.
      * injection Hs as <- Hs. destruct (IH x Hs) as (a & b & g & -> & Hb). by exists (String c a), b, g.
Qed.

Lemma found_mono segs g s : found segs s → found segs (g +:+ s).
Proof.
  destruct segs as [|seg segs]; [done|]. intros (gap & rest & -> & Hf). exists (g +:+ gap), rest.
  by rewrite str_app_assoc.
Qed.

(** Taking each segment at its first occurrence loses nothing. *)
Lemma find_all_found segs s : find_all segs s = true ↔ found segs s.
Proof.
  revert s. induction segs as [|seg segs IH]; intros s; [done|]. cbn [find_all found]. split.
  - destruct (CutAt s seg) as [[a b]|] eqn:Hc; [|done]. intros Hf. exists a, b. split; [by apply CutAt_some|by apply IH].
  - intros (gap & rest & Hs & Hf). destruct (CutAt_first s seg gap rest Hs) as (a & b & g & -> & ->).
    by apply IH, found_mono.
Qed.

Lemma spans_snoc segs last s : spans (segs ++ [last]) s ↔ ∃ mid, s = mid +:+ last ∧ found segs mid.
Proof.
  revert s. induction segs as [|seg segs IH]; intros s; cbn.
  - split.
    + intros (gap & rest & -> & ->). exists gap. by rewrite str_app_nil_r.
    + intros (mid & -> & _). exists mid, nostr. by rewrite str_app_nil_r.
  - split.
    + intros (gap & rest & -> & (mid & -> & Hf)%IH). exists (gap +:+ seg +:+ mid). rewrite !str_app_assoc. eauto.
    + intros (? & -> & (gap & rest & -> & Hf)). exists gap, (rest +:+ last). rewrite !str_app_assoc.
      split; [done|]. apply IH. eauto.
Qed.

Lemma glob_lit a p s : lacks "*" a = true → glob (a +:+ p) s ↔ ∃ t, s = a +:+ t ∧ glob p t.
Proof.
  revert s. induction a as [|c a IH]; intros s.
  - rewrite str_app_nil_l. split; [by exists s|]. by intros (t & -> & Hg).
  - unfold lacks. cbn [str_forall]. intros [Hc Ha]%andb_true_iff. apply negb_true_iff in Hc. rewrite str_app_cons. split.
    + intros Hg. inversion Hg as [|c' p' s' Hne Hg'| |]; subst; [|by rewrite is_char_refl in Hc..].
      apply IH in Hg' as (t & -> & Hg'); [|done]. by exists t.
    + intros (t & -> & Hg). rewrite str_app_cons. constructor.
      * intros ->. by rewrite is_char_refl in Hc.
      * apply IH; eauto.
Qed.

Lemma glob_star p s : glob (String "*" p) s ↔ ∃ g t, s = g +:+ t ∧ glob p t.
Proof.
  split.
  - induction s as [|c s IH]; intros Hg; inversion Hg; subst; try done.
    + by exists nostr, nostr.
    + by exists nostr, (String c s).
    + destruct (IH ltac:(assumption)) as (g & t & -> & Ht). by exists (String c g), t.
  - intros (g & t & -> & Hg). induction g as [|c g IH]; [by apply glob_skip|]. rewrite str_app_cons. by apply glob_eat.
Qed.

Lemma glob_prefixed segs s : Forall (λ a, lacks "*" a = true) segs → glob (prefixed "*" segs) s ↔ spans segs s.
Proof.
  intros Hl. revert s. induction Hl as [|seg segs Hseg _ IH]; intros s; cbn.
  - split; [by inversion 1|]. intros ->. constructor.
  - rewrite glob_star. split.
    + intros (g & t & -> & (rest & -> & Hg)%glob_lit); [|done]. exists g, rest. by rewrite <- IH.
    + intros (gap & rest & -> & Hs). exists gap, (seg +:+ rest). split; [done|]. apply glob_lit; [done|].
      exists rest. by rewrite IH.
Qed.

Lemma SplitByte_inv s c : ∃ x l, SplitByte s c = x :: l ∧ s = x +:+ prefixed c l ∧
  lacks c x = true ∧ Forall (λ a, lacks c a = true) l.
Proof.
  induction s as [|d s (x & l & He & Hs & Hx & Hl)]; cbn [SplitByte].
  - by exists nostr, [].
  - destruct (is_char d c) eqn:Hd.
    + apply is_char_true in Hd as ->. exists nostr, (x :: l). rewrite He. split_and!; [done| |done|by constructor].
      cbn [prefixed foldr]. by rewrite str_app_nil_l, Hs.
    + exists (String d x), l. rewrite He. split_and!; [done|by rewrite str_app_cons, <- Hs| |done].
      unfold lacks. cbn [str_forall]. by rewrite Hd.
Qed.

Lemma HasSuffix_app (a b : string) : HasSuffix (a +:+ b) b = true.
Proof.
  unfold HasSuffix. rewrite length_str_app. apply andb_true_iff. split; [apply Nat.leb_le; lia|].
  replace (String.length a + String.length b - String.length b) with (String.length a) by lia.
  by rewrite str_drop_app, str_eqb_refl.
Qed.

Lemma HasSuffix_spec (s p : string) : HasSuffix s p = true ↔ ∃ t, s = t +:+ p.
Proof.
  split; [|intros (t & ->); apply HasSuffix_app]. unfold HasSuffix. intros [_ He%str_eqb_true]%andb_true_iff.
  exists (str_take (String.length s - String.length p) s). rewrite <- He at 2. symmetry. apply str_take_drop.
Qed.

Lemma str_app_inj_r (a b t : string) : a +:+ t = b +:+ t → a = b.
Proof.
  intros He. apply (f_equal String.rev) in He. rewrite !str_rev_app in He. apply str_app_inj in He.
  by rewrite <- (str_rev_involutive a), He, str_rev_involutive.
Qed.

Lemma ends_mid (a m b : string) :
  slice (a +:+ m +:+ b) (String.length a) (String.length (a +:+ m +:+ b) - String.length b) = m.
Proof.
  rewrite !length_str_app.
  replace (String.length a + (String.length m + String.length b) - String.length b)
    with (String.length a + String.length m) by lia.
  apply slice_mid.
Qed.

(** The two ends overlap nowhere when the string is long enough for both. *)
Lemma ends_split (s a b : string) :
  HasPrefix s a = true → HasSuffix s b = true → String.length a + String.length b <= String.length s →
  ∃ m, s = a +:+ m +:+ b.
Proof.
  intros [t Ht]%HasPrefix_spec [u Hu]%HasSuffix_spec Hl.
  assert (∃ g, t = g +:+ b) as [g ->]; [|by exists g]. rewrite Ht in Hu. apply (str_app_split a t u b Hu).
  subst s. rewrite Hu, length_str_app in Hl. lia.
Qed.

(** [globAnchored] decides the pattern language: a star is any run of
    characters, possibly empty, every other byte is itself, and the whole of
    the string is matched.  The code splits the pattern at its stars and takes
    each middle segment at its first occurrence; no choice it skips could have
    matched. *)
Theorem globAnchored_spec (p s : string) : globAnchored p s = true ↔ glob p s.
Proof.
  destruct (SplitByte_inv p "*") as (first & rest & Hsp & -> & Hf & Hr). unfold globAnchored. rewrite Hsp.
  rewrite glob_lit by done. setoid_rewrite glob_prefixed; [|done]. destruct rest as [|r rest].
  - cbn [spans]. rewrite str_eqb_true. cbn [prefixed foldr]. rewrite str_app_nil_r. split.
    + intros ->. exists nostr. by rewrite str_app_nil_r.
    + intros (t & -> & ->). by rewrite str_app_nil_r.
  - assert (Hrl : r :: rest ≠ []) by done. revert Hrl. generalize (r :: rest) as segs. clear. intros segs Hrl.
    pose proof (app_removelast_last nostr Hrl) as Hsn. set (last := List.last segs nostr) in *. clearbody last.
    generalize dependent (removelast segs). intros init ->. setoid_rewrite spans_snoc. destruct (_ || _) eqn:Hg.
    + split; [done|]. intros (t & -> & mid & -> & _). rewrite HasPrefix_app in Hg. cbn [negb orb] in Hg.
      rewrite <- str_app_assoc, HasSuffix_app in Hg. cbn [negb orb] in Hg. apply Nat.ltb_lt in Hg.
      rewrite !length_str_app in Hg. lia.
    + apply orb_false_iff in Hg as [[Hp Hs]%orb_false_iff Hl]. apply negb_false_iff in Hp, Hs. apply Nat.ltb_ge in Hl.
      destruct (ends_split s first last Hp Hs Hl) as [m ->]. rewrite ends_mid, find_all_found. split; [eauto|].
      intros (t & Ht%str_app_inj & mid & -> & Hfd). apply str_app_inj_r in Ht as ->. done.
Qed.

(** ** What a rule list promises

    [rules_ok]: every rule compiles.  [rules_pass]: no deny rule hits the
    target, and each allow_only list has a rule that does. *)
Section semantics.
Context `{GoUnicode} `{GoNet}.

Definition rule_ok (raw : string) : bool := is_ok (compilePattern raw).
Definition rule_hits (t : target) (raw : string) : bool :=
  match compilePattern raw with Ok p => pattern_match p t | Err _ => false end.

(** A condition on every deny rule and on every allow_only list. *)
Definition on_rules (P : string → bool) (G : list string → bool) (r : Rules) : bool :=
  forallb P (Deny r) && forallb G (allowOnlyLists r).

Definition rules_ok : Rules → bool := on_rules rule_ok (forallb rule_ok).
Definition rules_pass (t : target) : Rules → bool := on_rules (λ raw, negb (rule_hits t raw)) (existsb (rule_hits t)).

Definition layer_pass (t : target) (l : Layer) : bool :=
  match lyOnlySchemes l with None => true | Some ss => contains ss (tgScheme t) end && rules_pass t (lyRules l).

(** One compiled gate lets the target through. *)
Definition gate_pass (t : target) (l : compiledLayer) : bool :=
  negb (scheme_refused t l) && negb (existsb (λ p, pattern_match p t) (clDeny l)) && negb (gate_closed t l).

Lemma find_none_existsb {A} (f : A → bool) l : (match List.find f l with Some _ => true | None => false end) = existsb f l.
Proof. induction l as [|x l IH]; [done|]. cbn. by destruct (f x). Qed.

Lemma forallb_and {A} (f g : A → bool) l : forallb (λ x, f x && g x) l = forallb f l && forallb g l.
Proof. induction l as [|x l IH]; [done|]. cbn. rewrite IH. by destruct (f x), (g x), (forallb f l). Qed.

Lemma forallb_negb {A} (f : A → bool) l : forallb (λ x, negb (f x)) l = negb (existsb f l).
Proof. induction l as [|x l IH]; [done|]. cbn. rewrite IH. by destruct (f x). Qed.

Lemma first_denied_existsb t ls :
  (match first_denied t ls with Some _ => true | None => false end) =
  existsb (λ l, existsb (λ p, pattern_match p t) (clDeny l)) ls.
Proof.
  induction ls as [|l ls IH]; [done|]. cbn. rewrite <- IH, <- find_none_existsb.
  by destruct (List.find _ (clDeny l)).
Qed.

(** The three passes allow a target exactly when every gate does. *)
Lemma evaluate_allowed t ls : dAllowed (evaluate t ls) = forallb (gate_pass t) ls.
Proof.
  unfold gate_pass. rewrite !forallb_and, !forallb_negb.
  rewrite <- (find_none_existsb (scheme_refused t)), <- (find_none_existsb (gate_closed t)), <- first_denied_existsb.
  unfold evaluate. destruct (List.find (scheme_refused t) ls); [done|].
  destruct (first_denied t ls); [done|]. by destruct (List.find (gate_closed t) ls).
Qed.

Lemma compileAll_ok scope ls raws : is_ok (compileAll scope ls raws) = forallb rule_ok raws.
Proof.
  induction raws as [|raw raws IH]; [done|]. cbn. unfold rule_ok at 1. destruct (compilePattern raw); cbn; [|done].
  rewrite <- IH. by destruct (compileAll scope ls raws).
Qed.

Lemma compileAll_hits scope ls raws ps t : compileAll scope ls raws = Ok ps →
  existsb (λ p, pattern_match p t) ps = existsb (rule_hits t) raws ∧ (ps = [] ↔ raws = []).
Proof.
  revert ps. induction raws as [|raw raws IH]; intros ps; [by intros [= <-]|]. cbn.
  unfold rule_hits at 1. destruct (compilePattern raw) as [p|]; [|done].
  intros (ps' & Hps & ->)%fmap_ok_inv. cbn. destruct (IH ps' Hps) as [-> _]. by split.
Qed.

Lemma compileGates_ok scope lists : is_ok (compileGates scope lists) = forallb (forallb rule_ok) lists.
Proof.
  induction lists as [|l lists IH]; [done|]. cbn. rewrite <- (compileAll_ok scope ListAllowOnly l), <- IH.
  destruct (compileAll scope ListAllowOnly l); cbn; [|done]. by destruct (compileGates scope lists).
Qed.

(** A gate without deny rules and schemes passes what its list hits. *)
Definition open_gate (t : target) (ps : list pattern) : bool :=
  match ps with [] => true | _ => existsb (λ p, pattern_match p t) ps end.

Lemma gate_pass_split t scope oss deny ps :
  gate_pass t (mkCompiled scope oss deny ps) =
  match oss with None => true | Some ss => contains ss (tgScheme t) end &&
  negb (existsb (λ p, pattern_match p t) deny) && open_gate t ps.
Proof.
  unfold gate_pass, scheme_refused, gate_closed, open_gate. cbn [clOnlySchemes clDeny clAllowOnly].
  f_equal; [f_equal; destruct oss; [apply negb_involutive|done]|]. destruct ps; [done|apply negb_involutive].
Qed.

Lemma compileGates_pass scope lists gates t : Forall (.≠ []) lists → compileGates scope lists = Ok gates →
  forallb (open_gate t) gates = forallb (existsb (rule_hits t)) lists.
Proof.
  intros Hne. revert gates. induction Hne as [|l lists Hl _ IH]; intros gates; [by intros [= <-]|]. cbn.
  intros (ps & Hps & (gs & Hgs & ->)%fmap_ok_inv)%bind_ok_inv. cbn.
  destruct (compileAll_hits _ _ _ _ t Hps) as [Hh Hn]. rewrite (IH gs Hgs), <- Hh. destruct ps; [|done].
  by destruct Hl; apply Hn.
Qed.

Lemma allowOnlyLists_nonempty r : Forall (.≠ []) (allowOnlyLists r).
Proof.
  unfold allowOnlyLists. apply Forall_app. split; [by destruct (AllowOnly r); repeat constructor|].
  apply Forall_forall. intros l [_ Hl]%list_elem_of_In%filter_In. by destruct l.
Qed.

Lemma compileLayer_ok l : is_ok (compileLayer l) = rules_ok (lyRules l).
Proof.
  unfold compileLayer, rules_ok, on_rules. rewrite <- (compileAll_ok (lyScope l) ListDeny), <- (compileGates_ok (lyScope l)).
  destruct (compileAll _ _ _); cbn; [|done]. by destruct (compileGates _ _) as [[|g gs]|].
Qed.

Lemma compileLayer_pass l gates t : compileLayer l = Ok gates → forallb (gate_pass t) gates = layer_pass t l.
Proof.
  unfold compileLayer. intros (deny & Hd & (gs & Hg & He)%bind_ok_inv)%bind_ok_inv.
  unfold layer_pass, rules_pass, on_rules. rewrite forallb_negb.
  rewrite <- (proj1 (compileAll_hits _ _ _ _ t Hd)).
  rewrite <- (compileGates_pass _ _ _ t (allowOnlyLists_nonempty _) Hg).
  destruct gs as [|g gs]; injection He as <-; cbn; rewrite gate_pass_split; cbn.
  - by rewrite !andb_true_r.
  - rewrite <- !andb_assoc. do 3 f_equal. clear. induction gs as [|x gs IH]; [done|]. cbn [map forallb]. by rewrite IH, gate_pass_split.
Qed.

Lemma New_ok ls : is_ok (New ls) = forallb (λ l, rules_ok (lyRules l)) ls.
Proof.
  induction ls as [|l ls IH]; [done|]. cbn. rewrite <- compileLayer_ok, <- IH. destruct (compileLayer l); cbn; [|done].
  by destruct (New ls).
Qed.

Lemma New_pass ls f t : New ls = Ok f → dAllowed (evaluate t f) = forallb (layer_pass t) ls.
Proof.
  rewrite evaluate_allowed. revert f. induction ls as [|l ls IH]; intros f; [by intros [= <-]|]. cbn.
  intros (gates & Hg & (rest & Hr & [= <-])%bind_ok_inv)%bind_ok_inv.
  by rewrite forallb_app, (compileLayer_pass _ _ t Hg), (IH rest Hr).
Qed.
End semantics.

(** ** Merging *)
Lemma elem_of_unique_from seen l x : x ∈ unique_from seen l ↔ x ∈ l ∧ x ∉ seen.
Proof.
  revert seen. induction l as [|s l IH]; intros seen; cbn; [set_solver|].
  destruct (decide (s ∈ seen)); [rewrite IH; set_solver|].
  rewrite !elem_of_cons, IH. destruct (decide (x = s)); set_solver.
Qed.

Lemma elem_of_appendUnique ls x : x ∈ appendUnique ls ↔ x ∈ concat ls.
Proof.
  unfold appendUnique. rewrite elem_of_unique_from. split; [by intros [? _]|].
  intros Hx. split; [done|apply not_elem_of_empty].
Qed.

Lemma sameSet_true a b : sameSet a b = true → ∀ x, x ∈ a ↔ x ∈ b.
Proof.
  unfold sameSet. intros He%bool_decide_eq_true_1 x.
  by rewrite <- (SortStrings_perm a), <- (SortStrings_perm b), <- (elem_of_Compact x (SortStrings a)), He, elem_of_Compact.
Qed.

Lemma forallb_same {A} (P : A → bool) a b : (∀ x, x ∈ a ↔ x ∈ b) → forallb P a = forallb P b.
Proof.
  intros He. apply eq_true_iff_eq. rewrite !forallb_forall'. by setoid_rewrite He.
Qed.

Lemma existsb_same {A} (P : A → bool) a b : (∀ x, x ∈ a ↔ x ∈ b) → existsb P a = existsb P b.
Proof.
  intros He. apply eq_true_iff_eq. rewrite !existsb_exists'. by setoid_rewrite He.
Qed.

Section conjunction.
Variables (P : string → bool) (G : list string → bool).
Hypothesis G_same : ∀ a b, (∀ x, x ∈ a ↔ x ∈ b) → G a = G b.

Lemma addAllowOnly_and r l : l ≠ [] → on_rules P G (addAllowOnly r l) = on_rules P G r && G l.
Proof.
  intros Hl. assert (Hu : ∀ x, x ∈ appendUnique [l] ↔ x ∈ l).
  { intros x. rewrite elem_of_appendUnique. cbn. by rewrite app_nil_r. }
  rewrite <- (G_same _ _ Hu). unfold addAllowOnly. destruct (appendUnique [l]) as [|s k] eqn:Hk.
  { destruct l as [|y l]; [done|]. exfalso. apply (not_elem_of_nil y), Hu. by left. }
  rewrite <- Hk. clear Hu. unfold on_rules. destruct (existsb _ _) eqn:He.
  - apply existsb_exists' in He as (have & Hin & Hs). rewrite <- (G_same _ _ (sameSet_true _ _ Hs)).
    destruct (forallb P (Deny r)); [|done]. cbn. destruct (forallb G _) eqn:Hf; [|done]. cbn.
    symmetry. by apply (proj1 (forallb_forall' _ _) Hf).
  - unfold allowOnlyLists. destruct (AllowOnly r) as [|a al]; cbn [Deny AllowOnly moreAllowOnly].
    + rewrite Hk. cbn. rewrite <- andb_assoc. f_equal. apply andb_comm.
    + rewrite List.filter_app, Hk. cbn [List.filter]. rewrite app_assoc, forallb_app. cbn [forallb].
      by rewrite andb_true_r, andb_assoc.
Qed.

Lemma merged_and r l : on_rules P G (merged r l) = on_rules P G r && on_rules P G l.
Proof.
  unfold merged. set (r0 := mkRules _ _ _).
  assert (Hf : ∀ ls r', Forall (.≠ []) ls → on_rules P G (fold_left addAllowOnly ls r') = on_rules P G r' && forallb G ls).
  { intros ls. induction ls as [|x ls IH]; intros r'; cbn; [by rewrite andb_true_r|].
    intros [Hx Hls]%Forall_cons. by rewrite IH, addAllowOnly_and, andb_assoc. }
  rewrite Hf by (apply Forall_app; split; apply allowOnlyLists_nonempty).
  rewrite forallb_app. unfold on_rules, r0. cbn [Deny AllowOnly moreAllowOnly allowOnlyLists app List.filter forallb].
  rewrite (forallb_same P _ (Deny r ++ Deny l)).
  - rewrite forallb_app. destruct (forallb P (Deny r)), (forallb P (Deny l)), (forallb G (allowOnlyLists r)); done.
  - intros x. rewrite elem_of_appendUnique. cbn. by rewrite app_nil_r.
Qed.
End conjunction.

Section merging.
Context `{GoUnicode} `{GoNet}.

Lemma rules_ok_merged r l : rules_ok (merged r l) = rules_ok r && rules_ok l.
Proof. apply merged_and, forallb_same. Qed.

Lemma rules_pass_merged t r l : rules_pass t (merged r l) = rules_pass t r && rules_pass t l.
Proof. apply merged_and, existsb_same. Qed.

(** A condition on every rule list that applies to a browser and the names
    its profile is known by. *)
Definition selected (profiles : list string) (pk : string) : bool :=
  existsb (λ p, negb (str_eqb p nostr) && EqualFold p pk) profiles.

Definition applies (Q : Rules → bool) (c : Config) (browser : string) (profiles : list string) : Prop :=
  Q (cfRules c) = true ∧
  (browser ≠ nostr → ∀ bk bc, cfBrowsers c !! bk = Some bc → EqualFold bk browser = true →
     Q (bcRules bc) = true ∧ ∀ pk r, bcProfiles bc !! pk = Some r → selected profiles pk = true → Q r = true).

Section Q.
Variable Q : Rules → bool.
Hypothesis Q_none : Q noRules = true.
Hypothesis Q_merged : ∀ r l, Q (merged r l) = Q r && Q l.

Definition profiles_hold (profiles : list string) (m : gmap string Rules) : Prop :=
  ∀ pk r, m !! pk = Some r → selected profiles pk = true → Q r = true.

Lemma merge_profiles_hold profiles a b :
  profiles_hold profiles (merge_profiles a b) ↔ profiles_hold profiles a ∧ profiles_hold profiles b.
Proof.
  unfold profiles_hold, merge_profiles. split.
  - intros Hm. split; intros pk r Hr Hs; specialize (Hm pk); rewrite lookup_merge in Hm.
    + rewrite Hr in Hm. destruct (b !! pk) as [l|]; cbn -[merged] in Hm.
      * specialize (Hm _ eq_refl Hs). rewrite Q_merged in Hm. by apply andb_true_iff in Hm as [? _].
      * exact (Hm _ eq_refl Hs).
    + rewrite Hr in Hm. destruct (a !! pk) as [l|]; cbn -[merged] in Hm; specialize (Hm _ eq_refl Hs); rewrite Q_merged in Hm;
        by apply andb_true_iff in Hm as [_ ?].
  - intros [Ha Hb] pk r. rewrite lookup_merge. specialize (Ha pk). specialize (Hb pk).
    destruct (a !! pk) as [ra|], (b !! pk) as [rb|]; cbn -[merged]; intros [= <-] Hs; rewrite ?Q_merged, ?Q_none;
      rewrite ?(Ha _ eq_refl Hs), ?(Hb _ eq_refl Hs); done.
Qed.

Lemma applies_merge c layer browser profiles :
  applies Q (Merge c layer) browser profiles ↔ applies Q c browser profiles ∧ applies Q layer browser profiles.
Proof.
  set (hold bc := Q (bcRules bc) = true ∧ profiles_hold profiles (bcProfiles bc)).
  assert (Hb : ∀ b lb, hold (merge_browser b lb) ↔ hold b ∧ hold lb).
  { intros b lb. unfold hold, merge_browser. cbn [bcRules bcProfiles].
    rewrite Q_merged, merge_profiles_hold, andb_true_iff. tauto. }
  assert (Hn : hold (mkBrowser noRules ∅)) by (by split; [|intros pk r]).
  unfold applies, Merge. cbn [cfRules cfBrowsers]. rewrite Q_merged, andb_true_iff.
  enough (Hm : ∀ bk, (∀ bc, merge (λ b lb, match lb with None => b | Some lb => Some (merge_browser (default (mkBrowser noRules ∅) b) lb) end)
       (cfBrowsers c) (cfBrowsers layer) !! bk = Some bc → hold bc) ↔
       (∀ bc, cfBrowsers c !! bk = Some bc → hold bc) ∧ (∀ bc, cfBrowsers layer !! bk = Some bc → hold bc)).
  { unfold hold, profiles_hold in Hm. clear -Hm. split.
    - intros [[Hc Hl] Hall]. split; (split; [done|]); intros Hne bk bc Hbc Hf;
        destruct (proj1 (Hm bk) (λ bc' Hbc', Hall Hne bk bc' Hbc' Hf)) as [Hm1 Hm2]; [by apply Hm1|by apply Hm2].
    - intros [[Hc Ha] [Hl Hb]]. split; [done|]. intros Hne bk bc Hbc Hf. apply (proj2 (Hm bk)); [|done].
      split; intros bc' Hbc'; [by apply (Ha Hne bk)|by apply (Hb Hne bk)]. }
  intros bk. rewrite lookup_merge.
  destruct (cfBrowsers c !! bk) as [b|], (cfBrowsers layer !! bk) as [lb|]; cbn -[hold merge_browser].
  - split; [intros Hh; specialize (Hh _ eq_refl); apply Hb in Hh as [? ?]; split; by intros ? [= <-]|].
    intros [H1' H2'] ? [= <-]. apply Hb. auto.
  - split; [|by intros [? _]]. intros Hh. by split.
  - split; [intros Hh; specialize (Hh _ eq_refl); apply Hb in Hh as [? ?]; split; by intros ? [= <-]|].
    intros [_ H2'] ? [= <-]. apply Hb. auto.
  - by split.
Qed.
End Q.

(** ** The layers of [For] *)
Definition rest_layers (c : Config) (browser : string) (profiles : list string) : list Layer :=
  mkLayer ScopeGlobal (cfRules c) None ::
  if str_eqb browser nostr then []
  else concat (map (browser_layers profiles (cfBrowsers c))
         (List.filter (λ bk, EqualFold bk browser) (sortedKeys (cfBrowsers c)))).

Definition builtin_layer : Layer := mkLayer ScopeBuiltin (mkRules builtinDeny [] []) (Some builtinSchemes).

Lemma For_New c browser profiles : For c browser profiles = New (builtin_layer :: rest_layers c browser profiles).
Proof. done. Qed.

Lemma elem_of_sortedKeys {V} (m : gmap string V) k : k ∈ sortedKeys m ↔ ∃ v, m !! k = Some v.
Proof.
  unfold sortedKeys. rewrite SortStrings_perm, list_elem_of_fmap. split.
  - intros ([k' v] & -> & Hv%elem_of_map_to_list). by exists v.
  - intros [v Hv]. exists (k, v). by rewrite elem_of_map_to_list.
Qed.

Lemma elem_of_keys_filter {V} (m : gmap string V) (f : string → bool) k :
  k ∈ List.filter f (sortedKeys m) ↔ (∃ v, m !! k = Some v) ∧ f k = true.
Proof. by rewrite list_elem_of_In, filter_In, <- list_elem_of_In, elem_of_sortedKeys. Qed.

Lemma rest_layers_open c browser profiles l : l ∈ rest_layers c browser profiles → lyOnlySchemes l = None.
Proof.
  unfold rest_layers. intros [->|Hl]%elem_of_cons; [done|]. destruct (str_eqb browser nostr); [by apply not_elem_of_nil in Hl|].
  apply elem_of_concat_map in Hl as (bk & _ & [->|Hl]%elem_of_cons); [done|]. unfold profile_layers in Hl.
  by apply list_elem_of_fmap in Hl as (pk & -> & _).
Qed.

Lemma rest_layers_applies (Q : Rules → bool) c browser profiles :
  forallb (λ l, Q (lyRules l)) (rest_layers c browser profiles) = true ↔ applies Q c browser profiles.
Proof.
  unfold rest_layers, applies. cbn [forallb lyRules]. rewrite andb_true_iff. apply and_iff_compat_l.
  destruct (str_eqb browser nostr) eqn:Hb; [apply str_eqb_true in Hb; by split|].
  assert (browser ≠ nostr) as Hne by (intros ->; by rewrite str_eqb_refl in Hb).
  rewrite forallb_forall'. setoid_rewrite elem_of_concat_map. setoid_rewrite elem_of_keys_filter. split.
  - intros Hl _ bk bc Hbc Hf.
    assert (Hall : ∀ l, l ∈ browser_layers profiles (cfBrowsers c) bk → Q (lyRules l) = true) by (intros l Hin; apply Hl; eauto 6).
    unfold browser_layers in Hall. rewrite Hbc in Hall. cbn [default from_option id] in Hall. split.
    + by apply (Hall (mkLayer ("browser:" +:+ bk) (bcRules bc) None)); left.
    + intros pk r Hr Hs. apply (Hall (mkLayer ("profile:" +:+ bk +:+ "/" +:+ pk) r None)). right. unfold profile_layers.
      apply list_elem_of_fmap. exists pk. rewrite Hr. split; [done|]. apply elem_of_keys_filter. eauto.
  - intros Hl l (bk & ((bc & Hbc) & Hf) & Hin). destruct (Hl Hne bk bc Hbc Hf) as [Hq Hp]. revert Hin.
    unfold browser_layers. rewrite Hbc. cbn [default from_option id]. intros [->|Hin]%elem_of_cons; [done|].
    apply list_elem_of_fmap in Hin as (pk & -> & ((r & Hr) & Hs)%elem_of_keys_filter). rewrite Hr. by apply (Hp pk r).
Qed.

Lemma For_ok c browser profiles :
  is_ok (For c browser profiles) = true ↔ rules_ok (mkRules builtinDeny [] []) = true ∧ applies rules_ok c browser profiles.
Proof. rewrite For_New, New_ok. cbn [forallb lyRules builtin_layer]. rewrite andb_true_iff, rest_layers_applies. done. Qed.

Lemma For_pass c browser profiles f t : For c browser profiles = Ok f →
  dAllowed (evaluate t f) = true ↔
  tgScheme t ∈ builtinSchemes ∧ rules_pass t (mkRules builtinDeny [] []) = true ∧ applies (rules_pass t) c browser profiles.
Proof.
  rewrite For_New. intros Hf. rewrite (New_pass _ _ t Hf). cbn [forallb]. rewrite !andb_true_iff.
  rewrite <- rest_layers_applies. unfold layer_pass at 1. cbn [builtin_layer lyOnlySchemes lyRules].
  rewrite andb_true_iff, contains_true.
  enough (Hl : forallb (layer_pass t) (rest_layers c browser profiles) = true ↔
               forallb (λ l, rules_pass t (lyRules l)) (rest_layers c browser profiles) = true) by tauto.
  rewrite !forallb_forall'. split; intros Hl l Hin; specialize (Hl l Hin); revert Hl; unfold layer_pass;
    by rewrite (rest_layers_open _ _ _ _ Hin).
Qed.

(** What a compiled filter admits, exactly: the URL parses, its scheme is
    http or https, no shipped deny rule and no deny rule of an applicable scope
    (global; every browser entry whose key folds to the browser; every profile
    entry of those whose key folds to a known name) hits it, and every
    non-empty allow_only list of those scopes has a rule that does.  So the
    filter fails closed and a scope can only narrow. *)
Theorem For_admits c browser profiles f url :
  For c browser profiles = Ok f →
  Matches (Some f) url = true ↔
  ∃ t, parseTarget url = Some t ∧ tgScheme t ∈ builtinSchemes ∧
       rules_pass t (mkRules builtinDeny [] []) = true ∧ applies (rules_pass t) c browser profiles.
Proof.
  intros Hf. unfold Matches, Evaluate. destruct (parseTarget url) as [t|].
  - rewrite (For_pass c browser profiles f t Hf). split; [by exists t|]. by intros (? & [= <-] & ?).
  - split; [done|]. by intros (? & ? & _).
Qed.

(** Merging configuration layers is conjunction: the merged configuration
    compiles for a browser exactly when both layers do, and then it admits
    exactly the URLs both admit.  No layer removes a deny rule of another and a
    later allow_only list only narrows. *)
Theorem Merge_conjunction c layer browser profiles :
  (is_ok (For (Merge c layer) browser profiles) =
   is_ok (For c browser profiles) && is_ok (For layer browser profiles)) ∧
  (∀ f f1 f2 url,
     For (Merge c layer) browser profiles = Ok f → For c browser profiles = Ok f1 → For layer browser profiles = Ok f2 →
     Matches (Some f) url = Matches (Some f1) url && Matches (Some f2) url).
Proof.
  split.
  - apply eq_true_iff_eq. rewrite andb_true_iff, !For_ok, (applies_merge rules_ok eq_refl rules_ok_merged). tauto.
  - intros f f1 f2 url Hf Hf1 Hf2. unfold Matches, Evaluate. destruct (parseTarget url) as [t|]; [|done].
    apply eq_true_iff_eq. rewrite andb_true_iff, (For_pass _ _ _ _ t Hf), (For_pass _ _ _ _ t Hf1), (For_pass _ _ _ _ t Hf2).
    rewrite (applies_merge (rules_pass t) eq_refl (rules_pass_merged t)). tauto.
Qed.
End merging.

(** ** Witnesses: a net that knows two URLs *)
#[local] Instance ascii_unicode : GoUnicode := {| uc_to_lower := λ s, s; uc_is_letter := λ _, false; uc_is_digit := λ _, false |}.
#[local] Instance two_urls : GoNet := {|
  ParseURL := λ s,
    if str_eqb s "https://crm.example.net/a" then Some (mkURL "https" nostr "crm.example.net" nostr "/a" nostr false)
    else if str_eqb s "https://news.example.org/" then Some (mkURL "https" nostr "news.example.org" nostr "/" nostr false)
    else None;
  IsIP := λ _, false; IDNAToASCII := λ _, None; EqualFold := str_eqb |}%string.

(** A user who denies one host, under a layer that only admits another. *)
Definition ex_config : Config := mkConfig (mkRules ["crm.example.net"%string] [] []) ∅.
Definition ex_layer : Config := mkConfig (mkRules [] ["*://*.example.org/*"%string] []) {["firefox"%string := mkBrowser (mkRules ["ads.example.org"%string] [] []) ∅]}.
Definition ex_filter (c : Config) : Filter := match For c "firefox" [] with Ok f => f | Err _ => [] end.

Lemma For_admits_witness :
  For ex_layer "firefox" [] = Ok (ex_filter ex_layer) ∧
  (Matches (Some (ex_filter ex_layer)) "https://news.example.org/" = true ↔
   ∃ t, parseTarget "https://news.example.org/" = Some t ∧ tgScheme t ∈ builtinSchemes ∧
        rules_pass t (mkRules builtinDeny [] []) = true ∧ applies (rules_pass t) ex_layer "firefox" []).
Proof. split; [vm_compute; reflexivity|]. apply (For_admits ex_layer "firefox" []). vm_compute. reflexivity. Defined.

Lemma Merge_conjunction_witness :
  is_ok (For (Merge ex_config ex_layer) "firefox" []) = true ∧
  (Matches (Some (ex_filter (Merge ex_config ex_layer))) "https://crm.example.net/a" =
   Matches (Some (ex_filter ex_config)) "https://crm.example.net/a" &&
   Matches (Some (ex_filter ex_layer)) "https://crm.example.net/a") ∧
  Matches (Some (ex_filter (Merge ex_config ex_layer))) "https://news.example.org/" = true ∧
  Matches (Some (ex_filter (Merge ex_config ex_layer))) "https://crm.example.net/a" = false.
Proof.
  split; [vm_compute; reflexivity|]. split; [|split; vm_compute; reflexivity].
  apply (proj2 (Merge_conjunction ex_config ex_layer "firefox" [])); vm_compute; reflexivity.
Defined.
