(* ===== verification/Projection.v ===== *)
(** * The index projection of an object

    Models [internal/projection] ([projection.go], [masked.go], [text.go]) and
    [internal/storage/blobref]: the text an object is searched and embedded by,
    and the masked text restricted viewers search.  The registry of masked
    renderers holds the one the program registers, for contacts.  A mention is
    carried by its URI text, so [String] is the identity on it. *)

From S2P Require Import Prelude GoStrings Objects Classes Contact.

(** ** blobref *)
Definition BlobRefPrefix : string := "blob://".
Definition IsBlobRef (s : string) : bool :=
  HasPrefix s BlobRefPrefix && (String.length BlobRefPrefix <? String.length s).
Definition BlobKey (s : string) : option string :=
  if IsBlobRef s then Some (str_drop (String.length BlobRefPrefix) s) else None.
Definition BlobRefFor (key : string) : string := BlobRefPrefix +:+ key.
Definition BlobMetaTextTruncated : string := "text_content_truncated".

(** ** text.go *)
Definition BodyText (ko : option KnowledgeObject) : string :=
  match ko with
  | None => nostr
  | Some ko =>
      match List.find (λ s, negb (str_eqb s nostr) && negb (IsBlobRef s)) [koTextContent ko; koRawContent ko] with
      | Some s => s
      | None => nostr
      end
  end.

(** [defaulted := *ko; defaulted.TextContent = ...] *)
Definition set_text (ko : KnowledgeObject) (text : string) : KnowledgeObject :=
  mkKO (koID ko) (koType ko) (koSubtype ko) (koRawContent ko) text (koContentType ko) (koMetadata ko)
    (koSummaries ko) (koSections ko) (koTags ko) (koMentions ko) (koDecisions ko) (koTasks ko) (koPipeline ko)
    (koSource ko) (koRegistryInfluences ko) (koContentHash ko) (koSourceKey ko) (koStatus ko) (koInboxNote ko)
    (koReinforcementCount ko) (koLastReinforcedAt ko) (koRemindAt ko) (koRemindedAt ko) (koCreatedAt ko)
    (koUpdatedAt ko) (koFTSIndexed ko) (koProfileID ko) (koClasses ko) (koAttachmentIDs ko) (koGraph ko).

(** ** projection.go *)
Definition NodeTypeTag : string := "tag".
Definition NodeTypeEntityMention : string := "entity_mention".
Definition NodeTypeSummary : string := "summary".
Definition newline_byte : string := String (Ascii.ascii_of_nat 10) nostr.

(** [IndexProjection] *)
Record IndexProjection : Type := mkIndex {
  ipFTSBody : string;
  ipTags : list Tag;
  ipMentions : list string;
  ipEmbeddingText : string;
  ipMaskedFTSBody : string;
  ipMaskedEmbeddingText : string;
}.
Definition noIndex : IndexProjection := mkIndex nostr [] [] nostr nostr nostr.

(** [segments.add] on the segments kept so far; [seen] is their trimmed texts. *)
Definition segment_add (kept : list string) (s : string) : list string :=
  let key := TrimSpace s in
  if str_eqb key nostr || IsBlobRef key then kept
  else if contains (map TrimSpace kept) key then kept
  else kept ++ [s].
Definition segments (l : list string) : list string := fold_left segment_add l [].

Definition indexed (n : GraphNode) : bool :=
  str_eqb (gnNodeType n) NodeTypeSummary || str_eqb (gnNodeType n) NodeTypeSection.

Definition graph_nodes (ko : KnowledgeObject) : list GraphNode :=
  match koGraph ko with None => [] | Some g => ogNodes g end.

Definition flatIndexProjection (ko : KnowledgeObject) : IndexProjection :=
  let parts := segments (koTextContent ko :: koSummaries ko ++ map secContent (koSections ko)) in
  mkIndex (Join parts " ") (koTags ko) (koMentions ko) (Join parts newline_byte) nostr nostr.

Definition rawIndexProjection (ko : KnowledgeObject) : IndexProjection :=
  match graph_nodes ko with
  | [] => flatIndexProjection ko
  | nodes =>
      let parts := segments (map gnContent (List.filter indexed nodes)) in
      let tags := map (λ n, mkTag (if str_eqb (gnLabel n) nostr then gnContent n else gnLabel n) "0" nostr)
                    (List.filter (λ n, str_eqb (gnNodeType n) NodeTypeTag) nodes) in
      let mentions := List.filter (λ c, negb (str_eqb c nostr))
                        (map gnContent (List.filter (λ n, str_eqb (gnNodeType n) NodeTypeEntityMention) nodes)) in
      match parts with
      | [] =>
          let flat := flatIndexProjection ko in
          mkIndex (ipFTSBody flat) tags mentions (ipEmbeddingText flat) nostr nostr
      | _ => mkIndex (Join parts " ") tags mentions (Join parts newline_byte) nostr nostr
      end
  end.

(** ** masked.go *)
Definition SearchableText (ko : KnowledgeObject) : option string :=
  if str_eqb (koType ko) TypeContact then Some (RenderContact ko ContactSearchableMinimum) else None.

Definition classed (n : GraphNode) : bool := match NodeClasses n with [] => false | _ => true end.

(** [maskedParts]: the kept segments and whether a node was withheld. *)
Definition maskedParts (nodes : list GraphNode) : list string * bool :=
  (segments (map gnContent (List.filter (λ n, indexed n && negb (classed n)) nodes)),
   existsb (λ n, indexed n && classed n) nodes).

Definition set_masked (p : IndexProjection) (fts emb : string) : IndexProjection :=
  mkIndex (ipFTSBody p) (ipTags p) (ipMentions p) (ipEmbeddingText p) fts emb.

Definition masked (ko : KnowledgeObject) (p : IndexProjection) : IndexProjection :=
  match SearchableText ko with
  | Some text => set_masked p text text
  | None =>
      let '(parts, withheld) := maskedParts (graph_nodes ko) in
      if withheld : bool then set_masked p (Join parts " ") (Join parts newline_byte)
      else set_masked p (ipFTSBody p) (ipEmbeddingText p)
  end.

Definition ProjectIndex (ko : option KnowledgeObject) : IndexProjection :=
  match ko with None => noIndex | Some ko => masked ko (rawIndexProjection ko) end.

Definition defaulted (ko : KnowledgeObject) : KnowledgeObject :=
  if negb (str_eqb (koTextContent ko) nostr) || str_eqb (koRawContent ko) nostr then ko
  else set_text ko (BodyText (Some ko)).

Definition EmbeddingText (ko : option KnowledgeObject) : string :=
  match ko with None => nostr | Some ko => ipEmbeddingText (ProjectIndex (Some (defaulted ko))) end.
Definition MaskedEmbeddingText (ko : option KnowledgeObject) : string :=
  match ko with None => nostr | Some ko => ipMaskedEmbeddingText (ProjectIndex (Some (defaulted ko))) end.

(** * Theorems *)

Lemma IsBlobRef_For key : key ≠ nostr → IsBlobRef (BlobRefFor key) = true.
Proof. intros Hk. destruct key as [|c key]; [done|]. reflexivity. Qed.

Lemma BlobKey_For key : key ≠ nostr → BlobKey (BlobRefFor key) = Some key.
Proof. intros Hk. unfold BlobKey. rewrite IsBlobRef_For by done. unfold BlobRefFor. by rewrite (str_drop_app BlobRefPrefix key). Qed.

Lemma BlobKey_some s key : BlobKey s = Some key ↔ s = BlobRefFor key ∧ key ≠ nostr.
Proof.
  split; [|intros [-> Hk]; by apply BlobKey_For].
  unfold BlobKey, IsBlobRef. destruct (HasPrefix s BlobRefPrefix) eqn:Hp; [|done]. apply HasPrefix_spec in Hp as [t ->].
  rewrite (str_drop_app BlobRefPrefix t). destruct (_ <? _) eqn:Hl; [|done]. intros [= <-]. split; [done|].
  intros Ht. rewrite Ht in Hl. vm_compute in Hl. discriminate.
Qed.

Lemma BodyText_spec ko : BodyText (Some ko) = nostr ∨ IsBlobRef (BodyText (Some ko)) = false.
Proof.
  unfold BodyText. destruct (List.find _ _) as [s|] eqn:Hf; [|by left]. right.
  apply find_some in Hf as [_ [_ Hb%negb_true_iff]%andb_true_iff]. done.
Qed.

(** ** The masked projection *)

(** Two nodes a restricted viewer cannot tell apart in the index: the same but
    for what a classed summary or section says. *)
Definition same_unclassed (n1 n2 : GraphNode) : Prop :=
  indexed n1 = indexed n2 ∧ classed n1 = classed n2 ∧
  (indexed n1 = true → classed n1 = false → gnContent n1 = gnContent n2).

(** Two objects that differ only in what the masked index must not show: a
    contact in anything but its searchable fields, any other object in the
    content of its classed nodes and, when there is one, in its flat fields
    too. *)
Definition masked_alike (k1 k2 : KnowledgeObject) : Prop :=
  koType k1 = koType k2 ∧
  if str_eqb (koType k1) TypeContact then ∀ f, f ∈ ContactSearchableMinimum → ContactField k1 f = ContactField k2 f
  else Forall2 same_unclassed (graph_nodes k1) (graph_nodes k2) ∧
       existsb (λ n, indexed n && classed n) (graph_nodes k1) = true.

Lemma maskedParts_alike l1 l2 : Forall2 same_unclassed l1 l2 → maskedParts l1 = maskedParts l2.
Proof.
  intros Hl. unfold maskedParts. f_equal.
  - f_equal. induction Hl as [|n1 n2 l1 l2 (Hi & Hc & Hs) _ IH]; [done|]. cbn. rewrite <- Hi, <- Hc.
    destruct (indexed n1) eqn:Hi1, (classed n1) eqn:Hc1; cbn; rewrite ?IH, ?Hs; done.
  - induction Hl as [|n1 n2 l1 l2 (Hi & Hc & _) _ IH]; [done|]. cbn. by rewrite <- Hi, <- Hc, IH.
Qed.

(** C35. The masked index leaks nothing classed: two objects that differ only in
    what it must not show (a contact's fields outside the searchable minimum;
    the content of classed nodes, and the flat fields of an object that has
    one) have the same masked full-text body and the same masked embedding
    text, so no search over them tells the objects apart. *)
Theorem masked_noninterference k1 k2 :
  masked_alike k1 k2 →
  ipMaskedFTSBody (ProjectIndex (Some k1)) = ipMaskedFTSBody (ProjectIndex (Some k2)) ∧
  ipMaskedEmbeddingText (ProjectIndex (Some k1)) = ipMaskedEmbeddingText (ProjectIndex (Some k2)) ∧
  MaskedEmbeddingText (Some k1) = MaskedEmbeddingText (Some k2).
Proof.
  assert (Hm : ∀ k1 k2, masked_alike k1 k2 →
    ipMaskedFTSBody (ProjectIndex (Some k1)) = ipMaskedFTSBody (ProjectIndex (Some k2)) ∧
    ipMaskedEmbeddingText (ProjectIndex (Some k1)) = ipMaskedEmbeddingText (ProjectIndex (Some k2))).
  { clear. intros k1 k2 [Ht Ha]. unfold ProjectIndex, masked, SearchableText. rewrite <- Ht.
    destruct (str_eqb (koType k1) TypeContact); [by rewrite (RenderContact_ext k1 k2 _ Ha)|].
    destruct Ha as [Hl Hw]. pose proof (maskedParts_alike _ _ Hl) as Hp. unfold maskedParts in Hp |- *.
    rewrite Hw in Hp |- *. injection Hp as -> <-. done. }
  assert (Hd : ∀ k, koType (defaulted k) = koType k ∧ graph_nodes (defaulted k) = graph_nodes k ∧
                    ∀ f, ContactField (defaulted k) f = ContactField k f).
  { intros k. unfold defaulted. by destruct (_ || _). }
  intros Ha. destruct (Hm k1 k2 Ha) as [H1' H2']. split; [done|]. split; [done|]. unfold MaskedEmbeddingText.
  apply Hm. destruct (Hd k1) as (Ht1 & Hn1 & Hf1), (Hd k2) as (Ht2 & Hn2 & Hf2), Ha as [Ht Ha].
  split; [congruence|]. rewrite Ht1, Hn1, Hn2. destruct (str_eqb (koType k1) TypeContact); [|done].
  intros f Hf. by rewrite Hf1, Hf2, Ha.
Qed.

Definition sectioned (public secret text : string) : KnowledgeObject :=
  mkKO "n-1" "note" nostr nostr text nostr ∅ [] [] [] [] [] [] nostr nostr [] nostr nostr nostr nostr
    0 None None None 0 0 false nostr [] []
    (Some (mkObjectGraph
       [mkGraphNode "a" NodeTypeSection nostr public 0 ∅;
        SetNodeClasses (mkGraphNode "b" NodeTypeSection nostr secret 1 ∅) ["personal"%string]] [])).

Lemma masked_noninterference_witness :
  ipMaskedFTSBody (ProjectIndex (Some (sectioned "plan" "salary" "plan salary"))) =
  ipMaskedFTSBody (ProjectIndex (Some (sectioned "plan" "illness" "plan illness"))) ∧
  ipMaskedFTSBody (ProjectIndex (Some (sectioned "plan" "salary" "plan salary"))) = "plan"%string ∧
  ipFTSBody (ProjectIndex (Some (sectioned "plan" "salary" "plan salary"))) = "plan salary"%string.
Proof.
  split; [|by split; vm_compute].
  apply (masked_noninterference (sectioned "plan" "salary" "plan salary") (sectioned "plan" "illness" "plan illness")).
  split; [reflexivity|]. change (str_eqb _ TypeContact) with false. cbv beta iota. split; [|vm_compute; reflexivity].
  repeat constructor; try (vm_compute; reflexivity); intros _ Hc; vm_compute in Hc; discriminate.
Defined.
