(* ===== verification/ObjectDB.v ===== *)
(** * The SQLite object store

    Models [ObjectStore] of [internal/storage/sqlite/objects.go],
    [object_reminders.go], [object_blob_refs.go], [object_counts.go],
    [reproject.go] and [ref_text.go] (the driver's own store, without a scope), with the triggers
    of migration 043, the unique indexes and the two full-text indexes.

    The [objects] table is its rows in rowid order.  The columns of a row are
    the encodings of the fields of the object bound to it, so a row carries that
    object and [scanObject] reads it back through them.  Each operation is one
    transaction: [Ok] with the new database, or an error that leaves it as it
    was.  A failure of the database itself is not modelled. *)

From S2P Require Import Prelude GoStrings Objects Classes Contact Projection JobStore.

(** Reading back what was written, in Go's [encoding/json] and the URI library
    of mentions: [None] when marshalling fails. *)
Class GoColumns : Type := {
  json_map : gmap string Any → option (gmap string Any);
  json_sections : list Section_ → option (list Section_);
  json_graph : ObjectGraph → option ObjectGraph;
  json_text : string → string;
  uri_Parse : string → option string;
  uri_String : string → string → string → string;
}.

Section mentions.
Context `{GoColumns}.

(** ** mentions.go: a URI is carried by its text. *)
Definition Parse_mention (s : string) : option string :=
  if HasPrefix s "ctxt://" then uri_Parse s
  else
    let s := ReplaceByte (TrimPrefix s "@") "." "/" in
    if str_eqb s nostr then None else Some (uri_String "ctxt" "entity" s).

Definition ParseSlice (ss : list string) : list string := omap Parse_mention ss.
End mentions.

(** ** Rows and the database *)
Record ObjRow : Type := mkObjRow {
  orObj : KnowledgeObject;
  orBody : string;
  orMasked : string;
  orVersion : string;
  orSeq : Z;
}.
Definition orID (r : ObjRow) : string := koID (orObj r).

(** [objects_fts] and [objects_fts_masked] by the id of the row they index;
    [object_nodes] by node id; [attachments] as (id, object id) in creation
    order. *)
Record ObjDB : Type := mkObjDB {
  odRows : list ObjRow;
  odCounter : Z;
  odFts : gmap string string;
  odFtsMasked : gmap string string;
  odNodes : gmap string (string * GraphNode);
  odAttachments : list (string * string);
}.

Inductive ObjError : Type :=
| ObjNotFound
| ObjNotFoundID (id : string)
| ObjWrongStatus (id from : string)
| ObjAlreadyExists
| ObjConstraint
| ObjNodeExists (node : string)
| ObjMarshal (what : string)
| ReinforceEmptyHash
| ReinforceNoRow
| FTSCorrupt
| SQLSyntax.

Definition ObjectStatusActive : string := "active".
Definition ObjectStatusAll : string := "all".
Definition ProjectionVersion : string := "v5".

(** An object with other values in the columns the statements set. *)
Definition edit (o : KnowledgeObject) (raw text : string) (tags : list Tag) (mentions : list string) (status : string)
    (count : Z) (last remind reminded : option Z) (created updated : Z) (fts : bool) (attachments : list string) : KnowledgeObject :=
  mkKO (koID o) (koType o) (koSubtype o) raw text (koContentType o) (koMetadata o) (koSummaries o) (koSections o) tags
    mentions (koDecisions o) (koTasks o) (koPipeline o) (koSource o) (koRegistryInfluences o) (koContentHash o)
    (koSourceKey o) status (koInboxNote o) count last remind reminded created updated fts (koProfileID o) (koClasses o)
    attachments (koGraph o).

Definition set_status (o : KnowledgeObject) (status : string) (at_ : Z) : KnowledgeObject :=
  edit o (koRawContent o) (koTextContent o) (koTags o) (koMentions o) status (koReinforcementCount o) (koLastReinforcedAt o)
    (koRemindAt o) (koRemindedAt o) (koCreatedAt o) at_ (koFTSIndexed o) (koAttachmentIDs o).
Definition set_reminder (o : KnowledgeObject) (remind reminded : option Z) (at_ : Z) : KnowledgeObject :=
  edit o (koRawContent o) (koTextContent o) (koTags o) (koMentions o) (koStatus o) (koReinforcementCount o)
    (koLastReinforcedAt o) remind reminded (koCreatedAt o) at_ (koFTSIndexed o) (koAttachmentIDs o).
Definition set_indexed (o : KnowledgeObject) (fts : bool) : KnowledgeObject :=
  edit o (koRawContent o) (koTextContent o) (koTags o) (koMentions o) (koStatus o) (koReinforcementCount o)
    (koLastReinforcedAt o) (koRemindAt o) (koRemindedAt o) (koCreatedAt o) (koUpdatedAt o) fts (koAttachmentIDs o).
Definition set_created (o : KnowledgeObject) (created : Z) : KnowledgeObject :=
  edit o (koRawContent o) (koTextContent o) (koTags o) (koMentions o) (koStatus o) (koReinforcementCount o)
    (koLastReinforcedAt o) (koRemindAt o) (koRemindedAt o) created (koUpdatedAt o) (koFTSIndexed o) (koAttachmentIDs o).
Definition set_attachments (o : KnowledgeObject) (ids : list string) : KnowledgeObject :=
  edit o (koRawContent o) (koTextContent o) (koTags o) (koMentions o) (koStatus o) (koReinforcementCount o)
    (koLastReinforcedAt o) (koRemindAt o) (koRemindedAt o) (koCreatedAt o) (koUpdatedAt o) (koFTSIndexed o) ids.
Definition set_written (o : KnowledgeObject) (status text : string) : KnowledgeObject :=
  edit o (koRawContent o) text (koTags o) (koMentions o) status (koReinforcementCount o)
    (koLastReinforcedAt o) (koRemindAt o) (koRemindedAt o) (koCreatedAt o) (koUpdatedAt o) (koFTSIndexed o) (koAttachmentIDs o).

(** Reinforce's two updates: the count and the instant, then tags, mentions and,
    when there is more content, both contents. *)
Definition set_reinforced (o : KnowledgeObject) (now : Z) : KnowledgeObject :=
  edit o (koRawContent o) (koTextContent o) (koTags o) (koMentions o) (koStatus o) (koReinforcementCount o + 1)%Z
    (Some now) (koRemindAt o) (koRemindedAt o) (koCreatedAt o) (koUpdatedAt o) (koFTSIndexed o) (koAttachmentIDs o).
Definition set_merged (o : KnowledgeObject) (tags : list Tag) (mentions : list string)
    (content : option (string * string)) (now : Z) : KnowledgeObject :=
  edit o (from_option fst (koRawContent o) content) (from_option snd (koTextContent o) content) tags mentions
    (koStatus o) (koReinforcementCount o) (koLastReinforcedAt o) (koRemindAt o) (koRemindedAt o) (koCreatedAt o) now
    (koFTSIndexed o) (koAttachmentIDs o).

(** [mergeTags], [mergeStrings] *)
Definition mergeTags (existing new : list Tag) : list Tag :=
  existing ++ List.filter (λ t, negb (contains (map tagLabel existing) (tagLabel t))) new.
Definition mergeStrings (existing new : list string) : list string :=
  existing ++ List.filter (λ s, negb (contains existing s)) new.

(** ** The statements *)

(** A row gets the next value of the counter (the triggers). *)
Definition with_seq (r : ObjRow) (seq : Z) : ObjRow := mkObjRow (orObj r) (orBody r) (orMasked r) (orVersion r) seq.

(** [UPDATE objects SET f WHERE p]: each row it touches is stamped in turn. *)
Fixpoint update_rows (p : ObjRow → bool) (f : ObjRow → ObjRow) (rows : list ObjRow) (counter : Z) : list ObjRow * Z :=
  match rows with
  | [] => ([], counter)
  | r :: rows =>
      if p r then let '(rows', c) := update_rows p f rows (counter + 1) in (with_seq (f r) (counter + 1) :: rows', c)
      else let '(rows', c) := update_rows p f rows counter in (r :: rows', c)
  end.

Definition set_rows (db : ObjDB) (rc : list ObjRow * Z) : ObjDB :=
  mkObjDB rc.1 rc.2 (odFts db) (odFtsMasked db) (odNodes db) (odAttachments db).
Definition set_fts (db : ObjDB) (fts fts_masked : gmap string string) : ObjDB :=
  mkObjDB (odRows db) (odCounter db) fts fts_masked (odNodes db) (odAttachments db).
Definition set_nodes (db : ObjDB) (nodes : gmap string (string * GraphNode)) : ObjDB :=
  mkObjDB (odRows db) (odCounter db) (odFts db) (odFtsMasked db) nodes (odAttachments db).

Definition by_id (id : string) (r : ObjRow) : bool := str_eqb (orID r) id.
Definition update_by (p : ObjRow → bool) (f : ObjRow → ObjRow) (db : ObjDB) : ObjDB :=
  set_rows db (update_rows p f (odRows db) (odCounter db)).
Definition affected (p : ObjRow → bool) (db : ObjDB) : bool := existsb p (odRows db).

(** What a unique index on [objects] lets a row share with another. *)
Definition clashes (o : KnowledgeObject) (r : ObjRow) : bool :=
  str_eqb (koID o) (orID r)
  || (negb (str_eqb (koContentHash o) nostr) && str_eqb (koContentHash o) (koContentHash (orObj r))
      && str_eqb (koProfileID o) (koProfileID (orObj r)))
  || (negb (str_eqb (koSourceKey o) nostr) && str_eqb (koSourceKey o) (koSourceKey (orObj r))).

(** An external-content FTS5 index: a delete reads the body of the content row
    to drop its tokens, so it must be the body the index holds. *)
Definition fts_insert (fts : gmap string string) (id body : string) : result ObjError (gmap string string) :=
  if str_eqb body nostr then Ok fts
  else match fts !! id with Some _ => Err FTSCorrupt | None => Ok (<[id := body]> fts) end.
Definition fts_delete (fts : gmap string string) (id body : string) : result ObjError (gmap string string) :=
  if str_eqb body nostr then Ok fts
  else match fts !! id with
       | Some b => if str_eqb b body then Ok (delete id fts) else Err FTSCorrupt
       | None => Err FTSCorrupt
       end.

Definition insertObjectFTSTx (db : ObjDB) (id : string) (index : IndexProjection) : result ObjError ObjDB :=
  fts ← fts_insert (odFts db) id (ipFTSBody index);
  ftsm ← fts_insert (odFtsMasked db) id (ipMaskedFTSBody index);
  Ok (set_fts db fts ftsm).

Definition deleteObjectFTSTx (db : ObjDB) (id : string) : result ObjError ObjDB :=
  match List.find (by_id id) (odRows db) with
  | None => Ok db
  | Some r =>
      fts ← fts_delete (odFts db) id (orBody r);
      ftsm ← fts_delete (odFtsMasked db) id (orMasked r);
      Ok (set_fts db fts ftsm)
  end.

(** The inserts of the graph's nodes: the primary key is the node id. *)
Fixpoint insert_nodes (nodes : gmap string (string * GraphNode)) (id : string) (l : list GraphNode) :
    result ObjError (gmap string (string * GraphNode)) :=
  match l with
  | [] => Ok nodes
  | n :: l =>
      match nodes !! gnID n with
      | Some _ => Err (ObjNodeExists (gnID n))
      | None => insert_nodes (<[gnID n := (id, n)]> nodes) id l
      end
  end.

Definition drop_nodes (nodes : gmap string (string * GraphNode)) (id : string) : gmap string (string * GraphNode) :=
  filter (λ kv, kv.2.1 ≠ id) nodes.

Definition upsertObjectNodesTx (db : ObjDB) (id : string) (g : option ObjectGraph) : result ObjError ObjDB :=
  nodes ← insert_nodes (drop_nodes (odNodes db) id) id (match g with None => [] | Some g => ogNodes g end);
  Ok (set_nodes db nodes).

Section store.
Context `{GoEncodings} `{GoColumns}.

(** A time through its RFC 3339 column. *)
Definition retime (t : Z) : Z := ParseTime (Format t).

Definition retag (t : Tag) : Tag := mkTag (json_text (tagLabel t)) (tagWeight t) (json_text (tagSource t)).

(** [scanObjectRow]; [marshalObjectFields] succeeded when the row was written. *)
Definition scanObject (r : ObjRow) : KnowledgeObject :=
  let o := orObj r in
  mkKO (koID o) (koType o) (koSubtype o) (koRawContent o) (koTextContent o) (koContentType o)
    (default ∅ (json_map (koMetadata o))) (map json_text (koSummaries o)) (default [] (json_sections (koSections o)))
    (map retag (koTags o)) (ParseSlice (map json_text (koMentions o)))
    (map (λ d, mkDecision (json_text (decTitle d)) (json_text (decStatus d)) (json_text (decImpact d))) (koDecisions o))
    (map (λ t, mkTask (json_text (taskTitle t)) (json_text (taskStatus t))) (koTasks o))
    (koPipeline o) (koSource o) (map json_text (koRegistryInfluences o)) (koContentHash o) (koSourceKey o) (koStatus o)
    (koInboxNote o) (koReinforcementCount o) (retime <$> koLastReinforcedAt o) (retime <$> koRemindAt o)
    (retime <$> koRemindedAt o) (retime (koCreatedAt o)) (retime (koUpdatedAt o)) (koFTSIndexed o) (koProfileID o)
    (NormalizeClasses (map json_text (NormalizeClasses (koClasses o)))) []
    (koGraph o ≫= json_graph).

(** [marshalObjectFields] and [marshalGraph]. *)
Definition marshal (o : KnowledgeObject) : result ObjError unit :=
  match json_map (koMetadata o), json_sections (koSections o) with
  | None, _ => Err (ObjMarshal "metadata")
  | _, None => Err (ObjMarshal "sections")
  | Some _, Some _ =>
      match koGraph o with
      | Some g => match json_graph g with None => Err (ObjMarshal "graph") | Some _ => Ok tt end
      | None => Ok tt
      end
  end.

(** ** objects.go *)

(** What [Create] sets on the object it is given, once it is marshalled. *)
Definition obj_defaults (obj : KnowledgeObject) : KnowledgeObject :=
  let obj := set_written obj (if str_eqb (koStatus obj) nostr then ObjectStatusActive else koStatus obj) (BodyText (Some obj)) in
  set_indexed obj (negb (str_eqb (ipFTSBody (ProjectIndex (Some obj))) nostr) || koFTSIndexed obj).

(** [Create]: the object as the call leaves it, and the database. *)
Definition obj_Create (db : ObjDB) (obj : KnowledgeObject) : result ObjError (KnowledgeObject * ObjDB) :=
  _ ← marshal obj;
  let obj := obj_defaults obj in
  let index := ProjectIndex (Some obj) in
  if affected (clashes obj) db then Err ObjAlreadyExists
  else
    let row := mkObjRow obj (ipFTSBody index) (ipMaskedFTSBody index) ProjectionVersion (odCounter db + 1) in
    db ← upsertObjectNodesTx (set_rows db (odRows db ++ [row], (odCounter db + 1)%Z)) (koID obj) (koGraph obj);
    db ← insertObjectFTSTx db (koID obj) index;
    Ok (obj, db).

Definition obj_Get (db : ObjDB) (id : string) : result ObjError KnowledgeObject :=
  match List.find (by_id id) (odRows db) with
  | None => Err ObjNotFound
  | Some r => Ok (set_attachments (scanObject r) (map fst (List.filter (λ a, str_eqb a.2 id) (odAttachments db))))
  end.

Definition by_hash (hash profile : string) (r : ObjRow) : bool :=
  str_eqb (koContentHash (orObj r)) hash && str_eqb (koProfileID (orObj r)) profile.

Definition obj_GetByContentHash (db : ObjDB) (hash profile : string) : option KnowledgeObject :=
  if str_eqb hash nostr then None else scanObject <$> List.find (by_hash hash profile) (odRows db).

Definition obj_GetBySourceKey (db : ObjDB) (key : string) : option KnowledgeObject :=
  if str_eqb key nostr then None else scanObject <$> List.find (λ r, str_eqb (koSourceKey (orObj r)) key) (odRows db).

(** The columns [Update] binds: every one but [id] and [created_at]. *)
Definition overwrite (obj : KnowledgeObject) (index : IndexProjection) (r : ObjRow) : ObjRow :=
  mkObjRow (set_created obj (koCreatedAt (orObj r))) (ipFTSBody index) (ipMaskedFTSBody index) ProjectionVersion (orSeq r).

Definition obj_Update (db : ObjDB) (obj : KnowledgeObject) : result ObjError (KnowledgeObject * ObjDB) :=
  _ ← marshal obj;
  let index := ProjectIndex (Some obj) in
  let obj := set_indexed obj (negb (str_eqb (ipFTSBody index) nostr) || koFTSIndexed obj) in
  db ← deleteObjectFTSTx db (koID obj);
  if existsb (λ r, negb (by_id (koID obj) r) && clashes obj r) (odRows db) && affected (by_id (koID obj)) db then Err ObjConstraint
  else if negb (affected (by_id (koID obj)) db) then Err (ObjNotFoundID (koID obj))
  else
    db ← upsertObjectNodesTx (update_by (by_id (koID obj)) (overwrite obj index) db) (koID obj) (koGraph obj);
    db ← insertObjectFTSTx db (koID obj) index;
    Ok (obj, db).

Definition obj_TransitionStatus (db : ObjDB) (id from to : string) (at_ : Z) : result ObjError ObjDB :=
  let p r := by_id id r && str_eqb (koStatus (orObj r)) from in
  if negb (affected p db) then Err (ObjWrongStatus id from)
  else Ok (update_by p (λ r, mkObjRow (set_status (orObj r) to at_) (orBody r) (orMasked r) (orVersion r) (orSeq r)) db).

Definition obj_Delete (db : ObjDB) (id : string) : result ObjError ObjDB :=
  db ← deleteObjectFTSTx db id;
  if negb (affected (by_id id) db) then Err (ObjNotFoundID id)
  else Ok (mkObjDB (List.filter (λ r, negb (by_id id r)) (odRows db)) (odCounter db) (odFts db) (odFtsMasked db)
             (drop_nodes (odNodes db) id) (List.filter (λ a, negb (str_eqb a.2 id)) (odAttachments db))).

(** [reindexRowTx] of reproject.go. *)
Definition reindexRowTx (db : ObjDB) (id : string) : result ObjError ObjDB :=
  match List.find (by_id id) (odRows db) with
  | None => Err ObjNotFound
  | Some r =>
      let index := ProjectIndex (Some (scanObject r)) in
      let body := ipFTSBody index in
      db ← (if str_eqb body (orBody r) && str_eqb (ipMaskedFTSBody index) (orMasked r) then Ok db
            else
              db ← deleteObjectFTSTx db id;
              insertObjectFTSTx
                (update_by (by_id id)
                   (λ r, mkObjRow (set_indexed (orObj r) (negb (str_eqb body nostr) || koFTSIndexed (orObj r)))
                           body (ipMaskedFTSBody index) (orVersion r) (orSeq r)) db) id index);
      Ok (update_by (by_id id) (λ r, mkObjRow (orObj r) (orBody r) (orMasked r) ProjectionVersion (orSeq r)) db)
  end.

(** The rows another projection version wrote; the pages walk the ids. *)
Definition outdated (r : ObjRow) : bool := negb (str_eqb (orVersion r) ProjectionVersion).
Definition obj_CountStaleProjections (db : ObjDB) : Z := Z.of_nat (length (List.filter outdated (odRows db))).
(** [WHERE id > after AND p ORDER BY id LIMIT limit], which SQLite reads as no
    limit when it is negative. *)
Definition id_page (p : ObjRow → bool) (db : ObjDB) (after : string) (limit : Z) : list string :=
  let ids := SortStrings (map orID (List.filter (λ r, str_ltb after (orID r) && p r) (odRows db))) in
  if (limit <? 0)%Z then ids else take (Z.to_nat limit) ids.
Definition obj_ListStaleProjections (db : ObjDB) (after : string) (limit : Z) : list string :=
  id_page outdated db after limit.

Definition obj_Reproject (db : ObjDB) (id : string) : result ObjError (bool * ObjDB) :=
  let p r := by_id id r && outdated r in
  if negb (affected p db) then Ok (false, db)
  else
    db ← reindexRowTx (update_by p (λ r, mkObjRow (orObj r) (orBody r) (orMasked r) ProjectionVersion (orSeq r)) db) id;
    Ok (true, db).

(** ** ref_text.go: the rows whose text is the ref of their content. *)
Definition text_is_ref (r : ObjRow) : bool := IsBlobRef (koTextContent (orObj r)).
Definition obj_ListRefText (db : ObjDB) (after : string) (limit : Z) : list KnowledgeObject :=
  omap (λ id, orObj <$> List.find (λ r, by_id id r && text_is_ref r) (odRows db)) (id_page text_is_ref db after limit).

(** The metadata column is an object, to which [json_set] adds the flag. *)
Definition set_ref_text (o : KnowledgeObject) (text : string) (truncated : bool) : KnowledgeObject :=
  let o := set_text o text in
  if truncated then
    mkKO (koID o) (koType o) (koSubtype o) (koRawContent o) (koTextContent o) (koContentType o)
      (<[BlobMetaTextTruncated := ABool true]> (koMetadata o)) (koSummaries o) (koSections o) (koTags o) (koMentions o)
      (koDecisions o) (koTasks o) (koPipeline o) (koSource o) (koRegistryInfluences o) (koContentHash o) (koSourceKey o)
      (koStatus o) (koInboxNote o) (koReinforcementCount o) (koLastReinforcedAt o) (koRemindAt o) (koRemindedAt o)
      (koCreatedAt o) (koUpdatedAt o) (koFTSIndexed o) (koProfileID o) (koClasses o) (koAttachmentIDs o) (koGraph o)
  else o.
Definition obj_ReplaceRefText (db : ObjDB) (id ref text : string) (truncated : bool) : bool * ObjDB :=
  let p r := by_id id r && str_eqb (koTextContent (orObj r)) ref in
  (affected p db,
   update_by p (λ r, mkObjRow (set_ref_text (orObj r) text truncated) (orBody r) (orMasked r) nostr (orSeq r)) db).

(** [Reinforce] at the instant [now]. *)
Definition obj_Reinforce (db : ObjDB) (hash : string) (mergeData : KnowledgeObject) (now : Z) :
    result ObjError (string * ObjDB) :=
  if str_eqb hash nostr then Err ReinforceEmptyHash
  else
    let p := by_hash hash (koProfileID mergeData) in
    let db := update_by p (λ r, mkObjRow (set_reinforced (orObj r) now) (orBody r) (orMasked r) (orVersion r) (orSeq r)) db in
    match List.find p (odRows db) with
    | None => Err ReinforceNoRow
    | Some r =>
        let tags := mergeTags (koTags (scanObject r)) (koTags mergeData) in
        let mentions := mergeStrings (koMentions (scanObject r)) (koMentions mergeData) in
        let content := if negb (str_eqb (koRawContent mergeData) nostr) && negb (str_eqb (koRawContent mergeData) hash)
                       then Some (koRawContent mergeData, BodyText (Some mergeData)) else None in
        let db := update_by p (λ r, mkObjRow (set_merged (orObj r) tags mentions content now)
                                      (orBody r) (orMasked r) (orVersion r) (orSeq r)) db in
        db ← reindexRowTx db (orID r);
        Ok (orID r, db)
    end.

(** ** Lists *)
Record ObjectFilter : Type := mkObjectFilter {
  ofType : string;
  ofSubtype : string;
  ofTag : string;
  ofMention : string;
  ofPipeline : string;
  ofProfileID : string;
  ofAfter : option Z;
  ofBefore : option Z;
  ofLimit : Z;
  ofOffset : Z;
  ofSort : string;
  ofDir : string;
  ofStatus : string;
  ofChangedAfter : option Z;
}.

Definition StatusScope (f : ObjectFilter) : option string :=
  if str_eqb (ofStatus f) nostr then Some ObjectStatusActive
  else if str_eqb (ofStatus f) ObjectStatusAll then None
  else Some (ofStatus f).

(** SQLite's [datetime] of an RFC 3339 text: whole seconds in UTC. *)
Definition datetime (t : Z) : Z := (retime t / Second)%Z.

(** A condition on a column that is there only when the filter's field is set. *)
Definition when_set (want have : string) : bool := str_eqb want nostr || str_eqb have want.

(** [objectListConditions], without the metadata facets. *)
Definition objectListConditions (f : ObjectFilter) (r : ObjRow) : bool :=
  let o := orObj r in
  match StatusScope f with Some st => str_eqb (koStatus o) st | None => true end
  && when_set (ofType f) (koType o) && when_set (ofSubtype f) (koSubtype o) && when_set (ofPipeline f) (koPipeline o)
  && (str_eqb (ofTag f) nostr || existsb (λ t, str_eqb (tagLabel t) (ofTag f)) (map retag (koTags o)))
  && (str_eqb (ofMention f) nostr
      || match Parse_mention (ofMention f) with
         | Some u => contains (map json_text (koMentions o)) u
         | None => false
         end)
  && when_set (ofProfileID f) (koProfileID o)
  && match ofAfter f with Some t => (datetime t <=? datetime (koCreatedAt o))%Z | None => true end
  && match ofBefore f with Some t => (datetime (koCreatedAt o) <=? datetime t)%Z | None => true end
  && match ofChangedAfter f with Some pos => (pos <? orSeq r)%Z | None => true end.

(** [ListOrder]: the change order, or the text of a time column, newest first
    unless asked otherwise; ties in rowid order. *)
Definition list_before (f : ObjectFilter) (a b : ObjRow) : bool :=
  match ofChangedAfter f with
  | Some _ => (orSeq a <? orSeq b)%Z
  | None =>
      let col r := Format ((if str_eqb (ofSort f) "updated_at" then koUpdatedAt else koCreatedAt) (orObj r)) in
      if str_eqb (ofDir f) "asc" then str_ltb (col a) (col b) else str_ltb (col b) (col a)
  end.

(** [LIMIT n OFFSET m], each only when positive; SQLite has no [OFFSET] alone. *)
Definition obj_List (db : ObjDB) (f : ObjectFilter) : result ObjError (list KnowledgeObject * Z) :=
  let rows := List.filter (objectListConditions f) (odRows db) in
  if (ofLimit f <=? 0)%Z && (0 <? ofOffset f)%Z then Err SQLSyntax
  else
    let page := SliceStable (list_before f) rows in
    let page := if (0 <? ofOffset f)%Z then drop (Z.to_nat (ofOffset f)) page else page in
    let page := if (0 <? ofLimit f)%Z then take (Z.to_nat (ofLimit f)) page else page in
    Ok (map scanObject page, Z.of_nat (length rows)).

(** object_counts.go *)
Definition obj_CountByType (db : ObjDB) : gmap string Z :=
  foldr (λ r m, partial_alter (λ n, Some (default 0 n + 1)%Z) (koType (orObj r)) m) ∅ (odRows db).

(** object_blob_refs.go: the columns hold [key]'s ref, or the metadata names it. *)
Definition refers (key : string) (r : ObjRow) : bool :=
  str_eqb (koRawContent (orObj r)) (BlobRefFor key) || str_eqb (koTextContent (orObj r)) (BlobRefFor key)
  || match koMetadata (scanObject r) !! "blob_key"%string with Some (AStr s) => str_eqb s key | _ => false end.
Definition obj_CountBlobRefs (db : ObjDB) (key : string) : Z := Z.of_nat (length (List.filter (refers key) (odRows db))).

(** ** object_reminders.go *)
Definition remind_row (remind reminded : KnowledgeObject → option Z) (at_ : Z) (r : ObjRow) : ObjRow :=
  mkObjRow (set_reminder (orObj r) (remind (orObj r)) (reminded (orObj r)) at_) (orBody r) (orMasked r) (orVersion r) (orSeq r).

Definition obj_SetReminder (db : ObjDB) (id : string) (at_ now : Z) : result ObjError ObjDB :=
  if negb (affected (by_id id) db) then Err (ObjNotFoundID id)
  else Ok (update_by (by_id id) (remind_row (λ _, Some at_) (λ _, None) now) db).
Definition obj_ClearReminder (db : ObjDB) (id : string) (now : Z) : result ObjError ObjDB :=
  if negb (affected (by_id id) db) then Err (ObjNotFoundID id)
  else Ok (update_by (by_id id) (remind_row (λ _, None) (λ _, None) now) db).
Definition obj_MarkReminded (db : ObjDB) (id : string) (now : Z) : ObjDB :=
  update_by (by_id id) (remind_row koRemindAt (λ _, Some now) now) db.

Definition remind_text (r : ObjRow) : string := from_option Format nostr (koRemindAt (orObj r)).
Definition due (now : Z) (r : ObjRow) : bool :=
  match koRemindAt (orObj r), koRemindedAt (orObj r) with
  | Some t, None => negb (str_ltb (Format now) (Format t))
  | _, _ => false
  end.
Definition by_remind (rows : list ObjRow) : list KnowledgeObject :=
  map scanObject (SliceStable (λ a b, str_ltb (remind_text a) (remind_text b)) rows).
Definition obj_ListDueReminders (db : ObjDB) (now : Z) : list KnowledgeObject :=
  by_remind (List.filter (due now) (odRows db)).
Definition obj_ListPendingReminders (db : ObjDB) : list KnowledgeObject :=
  by_remind (List.filter (λ r, match koRemindAt (orObj r) with Some _ => true | None => false end) (odRows db)).
End store.
