(* ===== verification/EdgeDB.v ===== *)
(** * The SQLite edge, entity and watermark stores

    Models [EdgeStore] of [internal/storage/sqlite/edges.go], the writes and
    reads of [EntityStore] of [entities.go] that federation and ingest use, and
    [watermarkStore] of [watermarks.go], over the driver's own tables (no scope).
    The edges are in rowid order; an edge's weight and metadata travel as their
    column texts. *)

From S2P Require Import Prelude GoStrings JobStore.

(** ** Edges *)
Record EdgeRow : Type := mkEdgeRow {
  erID : string;
  erFromType : string;
  erFromID : string;
  erToType : string;
  erToID : string;
  erEdgeType : string;
  erWeight : string;
  erMetadata : string;
  erCreatedAt : Z;
}.

Inductive EdgeError : Type :=
| EdgeUnique (id : string)   (* UNIQUE constraint failed: edges.id *)
| EdgeNoTypes
| EdgeNotFound (id : string).

Record EdgeMatch : Type := mkEdgeMatch {
  emFromType : string; emFromID : string; emToType : string; emToID : string; emEdgeTypes : list string }.

Definition has_edge (t : list EdgeRow) (id : string) : bool := existsb (λ e, str_eqb (erID e) id) t.

(** [insertEdge] *)
Definition edge_Create (t : list EdgeRow) (e : EdgeRow) : result EdgeError (list EdgeRow) :=
  if has_edge t (erID e) then Err (EdgeUnique (erID e)) else Ok (t ++ [e]).

Fixpoint edge_CreateAll (t : list EdgeRow) (es : list EdgeRow) : result EdgeError (list EdgeRow) :=
  match es with
  | [] => Ok t
  | e :: es => t ← edge_Create t e; edge_CreateAll t es
  end.

Definition same_pair (a b : EdgeRow) : bool :=
  str_eqb (erFromType a) (erFromType b) && str_eqb (erFromID a) (erFromID b) && str_eqb (erToType a) (erToType b)
  && str_eqb (erToID a) (erToID b) && str_eqb (erEdgeType a) (erEdgeType b).

(** [insertMissingEdge]: the row count and the table. *)
Definition insertMissingEdge (t : list EdgeRow) (e : EdgeRow) : result EdgeError (Z * list EdgeRow) :=
  if existsb (same_pair e) t then Ok (0%Z, t) else t ← edge_Create t e; Ok (1%Z, t).

Fixpoint edge_CreateMissing (t : list EdgeRow) (es : list EdgeRow) : result EdgeError (Z * list EdgeRow) :=
  match es with
  | [] => Ok (0%Z, t)
  | e :: es =>
      nt ← insertMissingEdge t e;
      mt ← edge_CreateMissing nt.2 es;
      Ok ((nt.1 + mt.1)%Z, mt.2)
  end.

Definition matches_edge (m : EdgeMatch) (e : EdgeRow) : bool :=
  str_eqb (erFromType e) (emFromType m) && str_eqb (erFromID e) (emFromID m) && str_eqb (erToType e) (emToType m)
  && str_eqb (erToID e) (emToID m) && contains (emEdgeTypes m) (erEdgeType e).

Fixpoint delete_matches (t : list EdgeRow) (ms : list EdgeMatch) : Z * list EdgeRow :=
  match ms with
  | [] => (0%Z, t)
  | m :: ms =>
      let '(n, t') := delete_matches (List.filter (λ e, negb (matches_edge m e)) t) ms in
      (Z.of_nat (length (List.filter (matches_edge m) t)) + n, t')%Z
  end.
Definition edge_DeleteMatching (t : list EdgeRow) (ms : list EdgeMatch) : result EdgeError (Z * list EdgeRow) :=
  if existsb (λ m, match emEdgeTypes m with [] => true | _ => false end) ms then Err EdgeNoTypes
  else Ok (delete_matches t ms).

Definition edge_ListFrom (t : list EdgeRow) (fromType fromID : string) : list EdgeRow :=
  List.filter (λ e, str_eqb (erFromType e) fromType && str_eqb (erFromID e) fromID) t.
Definition edge_ListTo (t : list EdgeRow) (toType toID : string) : list EdgeRow :=
  List.filter (λ e, str_eqb (erToType e) toType && str_eqb (erToID e) toID) t.

Definition edge_Delete (t : list EdgeRow) (id : string) : result EdgeError (list EdgeRow) :=
  if has_edge t id then Ok (List.filter (λ e, negb (str_eqb (erID e) id)) t) else Err (EdgeNotFound id).

Definition touches_object (id : string) (e : EdgeRow) : bool :=
  (str_eqb (erFromType e) "object" && str_eqb (erFromID e) id) || (str_eqb (erToType e) "object" && str_eqb (erToID e) id).
Definition edge_DeleteByObject (t : list EdgeRow) (id : string) : list EdgeRow :=
  List.filter (λ e, negb (touches_object id e)) t.

Definition edge_CountMentionsTo (t : list EdgeRow) (toType toID : string) : Z := Z.of_nat (length (edge_ListTo t toType toID)).

(** *** Related objects *)
Definition mention_edge (e : EdgeRow) : bool := str_eqb (erFromType e) "object" && str_eqb (erEdgeType e) "mentions".

(** [sharedMentionNeighbours]: distinct, in the order of the join's rows; the
    database may yield another. *)
Definition sharedMentionNeighbours (t : list EdgeRow) (frontier : gset string) : list string :=
  let seeds := List.filter (λ e, mention_edge e && bool_decide (erFromID e ∈ frontier)) t in
  remove_dups (concat (map (λ e1, map erFromID (List.filter (λ e2, str_eqb (erToID e1) (erToID e2) && mention_edge e2) t)) seeds)).

(** One hop: the ids not visited yet, in order, up to the limit (a positive
    one).  The flag: the limit was reached. *)
Fixpoint visit (ids : list string) (limit : Z) (visited next : gset string) (out : list string) :
    bool * gset string * gset string * list string :=
  match ids with
  | [] => (false, visited, next, out)
  | id :: ids =>
      if bool_decide (id ∈ visited) then visit ids limit visited next out
      else
        let out := out ++ [id] in
        if (0 <? limit)%Z && (limit <=? Z.of_nat (length out))%Z then (true, {[ id ]} ∪ visited, {[ id ]} ∪ next, out)
        else visit ids limit ({[ id ]} ∪ visited) ({[ id ]} ∪ next) out
  end.

Fixpoint related_hops (t : list EdgeRow) (depth : nat) (limit : Z) (frontier visited : gset string) (out : list string) : list string :=
  match depth with
  | O => out
  | S depth =>
      if bool_decide (frontier = ∅) then out
      else
        let '(stop, visited, next, out) := visit (sharedMentionNeighbours t frontier) limit visited ∅ out in
        if stop : bool then out else related_hops t depth limit next visited out
  end.

Definition edge_RelatedObjectIDs (t : list EdgeRow) (objectID : string) (depth limit : Z) : list string :=
  related_hops t (Z.to_nat (Z.min 3 (Z.max 1 depth))) limit {[ objectID ]} {[ objectID ]} [].

(** ** Entities *)
Definition ContentStatusFull : string := "full".
Definition ContentStatusThin : string := "thin".

Record Entity : Type := mkEntity {
  enSlug : string;
  enTitle : string;
  enDescription : string;
  enNamespace : string;
  enAliases : list string;
  enMetadata : string;
  enContentStatus : string;
  enVersionHash : string;
  enRegistryURL : string;
  enCreatedAt : Z;
  enUpdatedAt : Z;
}.

Definition has_slug (slug : string) (e : Entity) : bool := str_eqb (enSlug e) slug.

(** [INSERT .. ON CONFLICT(slug) DO UPDATE SET ..]. *)
Definition upsert_entity (t : list Entity) (new : Entity) (on_conflict : Entity → Entity) : list Entity :=
  if existsb (has_slug (enSlug new)) t then map (λ e, if has_slug (enSlug new) e then on_conflict e else e) t
  else t ++ [new].

Definition entity_Upsert (t : list Entity) (e : Entity) : list Entity :=
  let status := if str_eqb (enContentStatus e) nostr then ContentStatusFull else enContentStatus e in
  let write created := mkEntity (enSlug e) (enTitle e) (enDescription e) (enNamespace e) (enAliases e) (enMetadata e)
    status (enVersionHash e) (enRegistryURL e) created (enUpdatedAt e) in
  upsert_entity t (write (enCreatedAt e)) (λ old, write (enCreatedAt old)).

Definition entity_UpsertThin (t : list Entity) (e : Entity) : list Entity :=
  upsert_entity t
    (mkEntity (enSlug e) (enTitle e) nostr (enNamespace e) (enAliases e) "{}" ContentStatusThin (enVersionHash e)
       (enRegistryURL e) (enCreatedAt e) (enUpdatedAt e))
    (λ old, if str_eqb (enContentStatus old) ContentStatusFull then old
            else mkEntity (enSlug old) (enTitle e) (enDescription old) (enNamespace e) (enAliases e) (enMetadata old)
                   (enContentStatus old) (enVersionHash e) (enRegistryURL e) (enCreatedAt old) (enUpdatedAt e)).

Definition entity_SetContentStatus (t : list Entity) (slug status : string) (now : Z) : list Entity :=
  map (λ e, if has_slug slug e then
              mkEntity (enSlug e) (enTitle e) (enDescription e) (enNamespace e) (enAliases e) (enMetadata e) status
                (enVersionHash e) (enRegistryURL e) (enCreatedAt e) now
            else e) t.

Definition entity_Get (t : list Entity) (slug : string) : option Entity := List.find (has_slug slug) t.
Definition entity_Resolve (t : list Entity) (mention : string) : option Entity :=
  match entity_Get t mention with
  | Some e => Some e
  | None => List.find (λ e, contains (enAliases e) mention) t
  end.

(** ** Watermarks *)
Definition GetWatermark (t : gmap string Z) (federation : string) : Z := default 0%Z (t !! federation).
Definition SetWatermark (t : gmap string Z) (federation : string) (seq : Z) : gmap string Z := <[federation := seq]> t.

(** * Theorems *)

(** A thin upsert never touches a full record. *)
Lemma UpsertThin_keeps_full t e slug f :
  entity_Get t slug = Some f → enContentStatus f = ContentStatusFull → entity_Get (entity_UpsertThin t e) slug = Some f.
Proof.
  intros Hg Hf. unfold entity_UpsertThin, upsert_entity, entity_Get in *.
  destruct (existsb _ t) eqn:He.
  - clear He. induction t as [|x t IH]; [done|]. cbn in *.
    destruct (has_slug slug x) eqn:Hs.
    + injection Hg as ->. destruct (has_slug (enSlug e) f); cbn; [rewrite Hf, str_eqb_refl|]; by rewrite Hs.
    + destruct (has_slug (enSlug e) x); cbn; [destruct (str_eqb (enContentStatus x) ContentStatusFull)|]; unfold has_slug in *; cbn; rewrite ?Hs; auto.
  - clear He. induction t as [|x t IH]; [done|]. cbn in *. destruct (has_slug slug x); [done|]. by apply IH.
Qed.

(** *** Related objects *)
Section related.
Variable t : list EdgeRow.

(** [b] shares a mention target with [a]. *)
Definition shares (a b : string) : Prop :=
  ∃ e1 e2, e1 ∈ t ∧ e2 ∈ t ∧ mention_edge e1 = true ∧ mention_edge e2 = true ∧
           erFromID e1 = a ∧ erFromID e2 = b ∧ erToID e1 = erToID e2.

(** Reachable in at most [n] hops. *)
Inductive within : nat → string → string → Prop :=
| within_refl n a : within n a a
| within_step n a b c : within n a b → shares b c → within (S n) a c.

Lemma elem_of_neighbours frontier x :
  x ∈ sharedMentionNeighbours t frontier ↔ ∃ a, a ∈ frontier ∧ shares a x.
Proof.
  unfold sharedMentionNeighbours. rewrite elem_of_remove_dups, elem_of_concat_map. split.
  - intros (e1 & Hin & (e2 & -> & Hin2)%list_elem_of_fmap).
    apply list_elem_of_In, filter_In in Hin as [Hin [Hm1 Ha%bool_decide_eq_true]%andb_true_iff].
    apply list_elem_of_In, filter_In in Hin2 as [Hin2 [Heq%str_eqb_true Hm2]%andb_true_iff].
    exists (erFromID e1). split; [done|]. exists e1, e2. rewrite !list_elem_of_In. done.
  - intros (a & Ha & e1 & e2 & Hi1 & Hi2 & Hm1 & Hm2 & <- & <- & He). exists e1. split.
    + rewrite list_elem_of_In, filter_In, <- list_elem_of_In. split; [done|]. rewrite Hm1. by apply bool_decide_eq_true.
    + apply list_elem_of_fmap. exists e2. split; [done|].
      rewrite list_elem_of_In, filter_In, <- list_elem_of_In. split; [done|]. rewrite Hm2, andb_true_r. by apply str_eqb_true.
Qed.

Lemma within_mono n m a b : n <= m → within n a b → within m a b.
Proof. intros Hle Hw. revert m Hle. induction Hw as [|n a b c _ IH Hs]; intros m Hle; [constructor|].
  destruct m as [|m]; [lia|]. econstructor; [apply IH; lia|done].
Qed.

(** A hop adds the ids not visited before, each once, and stops early only at
    the limit. *)
Lemma visit_spec ids limit visited next out stop visited' next' out' :
  visit ids limit visited next out = (stop, visited', next', out') →
  ∃ new, out' = out ++ new ∧ NoDup new ∧ (∀ x, x ∈ new → x ∈ ids ∧ x ∉ visited) ∧
    (∀ x, x ∈ visited' ↔ x ∈ visited ∨ x ∈ new) ∧ (∀ x, x ∈ next' ↔ x ∈ next ∨ x ∈ new) ∧
    (stop = false → ∀ x, x ∈ ids → x ∈ visited') ∧
    (0 < limit → Z.of_nat (length out) < limit →
     if stop then Z.of_nat (length out') = limit else Z.of_nat (length out') < limit)%Z ∧
    (stop = true → 0 < limit)%Z.
Proof.
  revert visited next out. induction ids as [|id ids IH]; intros visited next out; cbn [visit].
  - intros [= <- <- <- <-]. exists []. rewrite app_nil_r. split_and!; try done; try constructor; try (intros; set_solver).
  - destruct (bool_decide (id ∈ visited)) eqn:Hv.
    + apply bool_decide_eq_true in Hv. intros Hr. destruct (IH _ _ _ Hr) as (new & ? & ? & Hin & Hvis & ? & Hall & ? & ?).
      exists new. split_and!; try done; [intros x Hx; split; [right; by apply Hin|by apply Hin]|].
      intros Hst x [->|Hx]%elem_of_cons; [apply Hvis; by left|by apply Hall].
    + apply bool_decide_eq_false in Hv. destruct (_ && _) eqn:Hl.
      * intros [= <- <- <- <-]. apply andb_true_iff in Hl as [Hl1%Z.ltb_lt Hl2%Z.leb_le].
        exists [id]. split_and!; try done; try (intros; set_solver); [apply NoDup_singleton|].
        intros _ Hlt. rewrite length_app in *. cbn in *. lia.
      * intros Hr. destruct (IH _ _ _ Hr) as (new & -> & Hnd & Hin & Hvis & Hnext & Hall & Hlim & Hst).
        exists (id :: new). rewrite <- app_assoc. split_and!; [done| | | | | | |done].
        -- apply NoDup_cons. split; [|done]. intros Hid. apply Hin in Hid as [_ Hid]. set_solver.
        -- intros x [->|Hx]%elem_of_cons; [split; [by left|done]|]. apply Hin in Hx as [? ?]. split; [by right|set_solver].
        -- intros x. rewrite Hvis. set_solver.
        -- intros x. rewrite Hnext. set_solver.
        -- intros Hs x [->|Hx]%elem_of_cons; [apply Hvis; set_solver|by apply Hall].
        -- intros Hpos Hlt. rewrite <- app_assoc in Hlim. apply Hlim; [done|]. rewrite length_app. cbn.
           apply andb_false_iff in Hl as [Hl%Z.ltb_ge|Hl%Z.leb_gt]; [lia|]. rewrite length_app in Hl. cbn in Hl. lia.
Qed.

(** The state of the search before hop [h + 1]. *)
Record search_inv (o : string) (limit : Z) (h : nat) (frontier visited : gset string) (out : list string) : Prop := {
  si_visited : ∀ x, x ∈ visited ↔ within h o x;
  si_frontier : ∀ x, x ∈ frontier → x ∈ visited;
  si_closed : ∀ a x, a ∈ visited → a ∉ frontier → shares a x → x ∈ visited;
  si_out : ∀ x, x ∈ out ↔ x ∈ visited ∧ x ≠ o;
  si_nodup : NoDup out;
  si_limit : (0 < limit → Z.of_nat (length out) < limit)%Z;
}.

(** When no id is left to expand, no further hop reaches anything new. *)
Lemma closed_within o limit h frontier visited out n x :
  search_inv o limit h frontier visited out → frontier = ∅ → within n o x → x ∈ visited.
Proof.
  intros Hi -> Hw. remember o as a eqn:Ha in Hw. revert Ha. induction Hw as [n a|n a b c _ IH Hs]; intros ->.
  - apply (si_visited _ _ _ _ _ _ Hi). constructor.
  - apply (si_closed _ _ _ _ _ _ Hi b); [by apply IH|set_solver|done].
Qed.

Lemma hop_inv o limit h frontier visited out visited' next out' :
  search_inv o limit h frontier visited out →
  visit (sharedMentionNeighbours t frontier) limit visited ∅ out = (false, visited', next, out') →
  search_inv o limit (S h) next visited' out'.
Proof.
  intros [Hv Hf Hc Ho Hn Hl] Hr.
  destruct (visit_spec _ _ _ _ _ _ _ _ _ Hr) as (new & -> & Hnew & Hin & Hvis & Hnext & Hall & Hlim & _).
  specialize (Hall eq_refl).
  assert (Hexp : ∀ a x, a ∈ visited → shares a x → x ∈ visited').
  { intros a x Ha Hs. destruct (decide (a ∈ frontier)) as [Hfr|Hfr].
    - apply Hall, elem_of_neighbours. by exists a.
    - apply Hvis. left. by apply (Hc a). }
  split.
  - intros x. rewrite Hvis. split.
    + intros [Hx|Hx]; [apply Hv in Hx; eapply within_mono; [|done]; lia|].
      apply Hin in Hx as [(a & Ha & Hs)%elem_of_neighbours _]. econstructor; [apply Hv, Hf, Ha|done].
    + intros Hw. rewrite <- Hvis. inversion Hw as [|n a b c Hb Hs]; subst; [apply Hvis; left; apply Hv; constructor|].
      apply (Hexp b); [by apply Hv|done].
  - intros x Hx. apply Hnext in Hx as [Hx|Hx]; [set_solver|]. apply Hvis. by right.
  - intros a x Ha Hna Hs. apply (Hexp a); [|done]. apply Hvis in Ha as [Ha|Ha]; [done|]. destruct Hna. apply Hnext. by right.
  - intros x. rewrite elem_of_app, Ho, Hvis. split; [|tauto].
    intros [[? ?]|Hx]; [tauto|]. split; [by right|]. intros ->. apply Hin in Hx as [_ Hx]. apply Hx, Hv. constructor.
  - apply NoDup_app. split_and!; [done| |done]. intros x [Hx _]%Ho Hx2. by apply Hin in Hx2 as [_ ?].
  - intros Hpos. specialize (Hlim Hpos (Hl Hpos)). lia.
Qed.

Lemma related_hops_spec o limit n h frontier visited out :
  search_inv o limit h frontier visited out →
  let R := related_hops t n limit frontier visited out in
  NoDup R ∧ (∀ x, x ∈ R → x ≠ o ∧ within (h + n) o x) ∧ (0 < limit → Z.of_nat (length R) <= limit)%Z ∧
  ((limit <= 0 ∨ Z.of_nat (length R) < limit)%Z → ∀ x, within (h + n) o x → x ≠ o → x ∈ R).
Proof.
  revert h frontier visited out. induction n as [|n IH]; intros h frontier visited out Hi; cbn [related_hops].
  - rewrite Nat.add_0_r. destruct Hi as [Hv Hf Hc Ho Hn Hl]. split_and!; [done| |intros Hp; specialize (Hl Hp); lia|].
    + intros x [Hx Hne]%Ho. split; [done|]. by apply Hv.
    + intros _ x Hx Hne. apply Ho. split; [by apply Hv|done].
  - destruct (bool_decide (frontier = ∅)) eqn:Hfe.
    + apply bool_decide_eq_true in Hfe. pose proof (closed_within o limit h frontier visited out (h + S n)) as Hcl.
      pose proof Hi as [Hv Hf Hc Ho Hn Hl]. split_and!; [done| |intros Hp; specialize (Hl Hp); lia|].
      * intros x [Hx Hne]%Ho. split; [done|]. eapply within_mono; [|by apply Hv]. lia.
      * intros _ x Hx Hne. apply Ho. split; [|done]. by apply (Hcl x Hi Hfe).
    + destruct (visit _ limit visited ∅ out) as [[[stop visited'] next] out'] eqn:Hr. destruct stop.
      * destruct (visit_spec _ _ _ _ _ _ _ _ _ Hr) as (new & -> & Hnew & Hin & Hvis & _ & _ & Hlim & Hst).
        destruct Hi as [Hv Hf Hc Ho Hn Hl]. specialize (Hst eq_refl). specialize (Hlim Hst (Hl Hst)). cbn in Hlim.
        split_and!; [| |lia|lia].
        -- apply NoDup_app. split_and!; [done| |done]. intros x [Hx _]%Ho Hx2. by apply Hin in Hx2 as [_ ?].
        -- intros x [Hx|Hx]%elem_of_app.
           ++ apply Ho in Hx as [Hx Hne]. split; [done|]. eapply within_mono; [|by apply Hv]. lia.
           ++ apply Hin in Hx as [(a & Ha & Hs)%elem_of_neighbours Hnv]. split.
              ** intros ->. apply Hnv, Hv. constructor.
              ** apply (within_mono (S h)); [lia|]. econstructor; [apply Hv, Hf, Ha|done].
      * replace (h + S n) with (S h + n) by lia. apply IH. by eapply hop_inv.
Qed.

(** The related objects of an object are those reachable over shared mention
    targets in at most [depth] hops (at least 1, at most 3): each once, never
    the object itself, no more than a positive limit; and when the limit is not
    reached, all of them. *)
Theorem RelatedObjectIDs_spec o depth limit :
  let hops := Z.to_nat (Z.min 3 (Z.max 1 depth)) in
  let R := edge_RelatedObjectIDs t o depth limit in
  NoDup R ∧ (∀ x, x ∈ R → x ≠ o ∧ within hops o x) ∧ (0 < limit → Z.of_nat (length R) <= limit)%Z ∧
  ((limit <= 0 ∨ Z.of_nat (length R) < limit)%Z → ∀ x, within hops o x → x ≠ o → x ∈ R).
Proof.
  apply (related_hops_spec o limit _ 0). split; try done.
  - intros x. rewrite elem_of_singleton. split; [intros ->; constructor|]. by inversion 1.
  - intros x. rewrite elem_of_singleton, list_elem_of_In. cbn. tauto.
  - constructor.
Qed.
End related.
