(* ===== verification/ObjectSafety.v ===== *)
(** * The object store's invariants

    Over the operations of ObjectDB: ids, content hashes and source keys stay
    unique, the two full-text indexes hold exactly the bodies of the rows, the
    node table only names stored objects, and every write takes a change
    position greater than any before it. *)

From S2P Require Import Prelude GoStrings Objects Classes Contact Projection JobStore ObjectDB.

(** ** Updates of rows *)

Lemma update_rows_spec p f rows c rows' c' : update_rows p f rows c = (rows', c') →
  (c <= c')%Z ∧
  Forall2 (λ r r', if p r then ∃ s, (c < s <= c')%Z ∧ r' = with_seq (f r) s else r' = r) rows rows'.
Proof.
  revert c rows' c'. induction rows as [|r rows IH]; intros c rows' c'; cbn; [intros [= <- <-]; by split; [lia|constructor]|].
  destruct (p r) eqn:Hp.
  - destruct (update_rows p f rows (c + 1)) as [rs c1] eqn:Hu. intros [= <- <-].
    destruct (IH _ _ _ Hu) as [Hc Hf]. split; [lia|]. constructor; [rewrite Hp; exists (c + 1)%Z; split; [lia|done]|].
    eapply Forall2_impl; [exact Hf|]. intros x y. cbn. destruct (p x); [|done]. intros (s & Hs & ->). exists s. split; [lia|done].
  - destruct (update_rows p f rows c) as [rs c1] eqn:Hu. intros [= <- <-].
    destruct (IH _ _ _ Hu) as [Hc Hf]. split; [done|]. constructor; [by rewrite Hp|done].
Qed.

(** The positions given out are distinct and above the counter. *)
Lemma update_rows_seqs p f rows c rows' c' : update_rows p f rows c = (rows', c') →
  (∀ r, r ∈ rows → orSeq r <= c)%Z → NoDup (map orSeq rows) → NoDup (map orSeq rows').
Proof.
  revert c rows' c'. induction rows as [|r rows IH]; intros c rows' c'; cbn [update_rows]; [by intros [= <- <-]|].
  intros Hu Hle. cbn [map]. rewrite NoDup_cons. intros [Hni Hnd]. destruct (p r) eqn:Hp.
  - destruct (update_rows p f rows (c + 1)) as [rs c1] eqn:Hr. injection Hu as <- <-. cbn [map with_seq orSeq].
    apply NoDup_cons. split.
    + intros (r' & He & Hin)%list_elem_of_fmap.
      destruct (update_rows_spec _ _ _ _ _ _ Hr) as [_ Hf]. destruct (Forall2_in_r _ _ _ _ Hf Hin) as (x & Hx & Hxr).
      destruct (p x); [destruct Hxr as (s & Hs & ->); cbn in He; lia|].
      subst r'. pose proof (Hle x (list_elem_of_further _ _ _ Hx)). lia.
    + apply (IH _ _ _ Hr); [|done]. intros x Hx. pose proof (Hle x (list_elem_of_further _ _ _ Hx)). lia.
  - destruct (update_rows p f rows c) as [rs c1] eqn:Hr. injection Hu as <- <-. cbn [map]. apply NoDup_cons. split.
    + intros (r' & He & Hin)%list_elem_of_fmap.
      destruct (update_rows_spec _ _ _ _ _ _ Hr) as [_ Hf]. destruct (Forall2_in_r _ _ _ _ Hf Hin) as (x & Hx & Hxr).
      destruct (p x).
      * destruct Hxr as (s & Hs & ->). cbn in He. pose proof (Hle r (list_elem_of_here _ _)). lia.
      * subst r'. apply Hni. apply list_elem_of_fmap. by exists x.
    + apply (IH _ _ _ Hr); [|done]. intros x Hx. exact (Hle x (list_elem_of_further _ _ _ Hx)).
Qed.

(** ** The invariant *)
Definition fts_ok (body : ObjRow → string) (rows : list ObjRow) (fts : gmap string string) : Prop :=
  ∀ id b, fts !! id = Some b ↔ b ≠ nostr ∧ ∃ r, r ∈ rows ∧ orID r = id ∧ body r = b.

Record obj_wf (db : ObjDB) : Prop := {
  wf_ids : NoDup (map orID (odRows db));
  wf_unique : ∀ r1 r2, r1 ∈ odRows db → r2 ∈ odRows db → clashes (orObj r1) r2 = true → orID r1 = orID r2;
  wf_fts : fts_ok orBody (odRows db) (odFts db);
  wf_masked : fts_ok orMasked (odRows db) (odFtsMasked db);
  wf_nodes : ∀ n id x, odNodes db !! n = Some (id, x) → ∃ r, r ∈ odRows db ∧ orID r = id;
  wf_seq : ∀ r, r ∈ odRows db → (0 < orSeq r <= odCounter db)%Z;
  wf_seqs : NoDup (map orSeq (odRows db));
  wf_counter : (0 <= odCounter db)%Z;
}.

Definition emptyDB : ObjDB := mkObjDB [] 0 ∅ ∅ ∅ [].

Lemma emptyDB_wf : obj_wf emptyDB.
Proof.
  split; cbn; [constructor| | | | | |constructor|done].
  - intros r1 r2 Hr. by apply not_elem_of_nil in Hr.
  - intros id b. rewrite lookup_empty. split; [done|]. intros (_ & r & Hr & _). by apply not_elem_of_nil in Hr.
  - intros id b. rewrite lookup_empty. split; [done|]. intros (_ & r & Hr & _). by apply not_elem_of_nil in Hr.
  - intros n id x. by rewrite lookup_empty.
  - intros r Hr. by apply not_elem_of_nil in Hr.
Qed.

(** ** Lemmas on the rows *)
Lemma orID_with_seq r s : orID (with_seq r s) = orID r.
Proof. done. Qed.

(** The rows of [update_by p f], for [f] that keeps the id: each old row has its
    image and each new row its origin. *)
Section update.
Context (p : ObjRow → bool) (f : ObjRow → ObjRow) (Hid : ∀ r, p r = true → orID (f r) = orID r).

Definition image (r r' : ObjRow) : Prop := r' = r ∧ p r = false ∨ ∃ s, r' = with_seq (f r) s ∧ p r = true.

Lemma update_by_images db : Forall2 image (odRows db) (odRows (update_by p f db)).
Proof.
  unfold update_by. destruct (update_rows p f (odRows db) (odCounter db)) as [rows c] eqn:Hu. cbn.
  apply update_rows_spec in Hu as [_ Hf]. eapply Forall2_impl; [exact Hf|]. intros r r'. unfold image.
  destruct (p r); [intros (s & _ & ->); right; by exists s|by left].
Qed.

Lemma image_id r r' : image r r' → orID r' = orID r.
Proof. intros [[-> _]|(s & -> & Hp)]; [done|]. rewrite orID_with_seq. by apply Hid. Qed.

Lemma update_by_ids db : map orID (odRows (update_by p f db)) = map orID (odRows db).
Proof.
  pose proof (update_by_images db) as Hf. induction Hf as [|r r' rs rs' Hr _ IH]; [done|]. cbn. by rewrite (image_id _ _ Hr), IH.
Qed.

Lemma affected_id q db : (∀ r1 r2, orID r1 = orID r2 → q r1 = q r2) → affected q (update_by p f db) = affected q db.
Proof.
  intros Hq. unfold affected. pose proof (update_by_images db) as Hf.
  induction Hf as [|r r' rs rs' Hr _ IH]; [done|]. cbn. by rewrite IH, (Hq _ _ (image_id _ _ Hr)).
Qed.

Lemma update_by_seq db : (∀ r, r ∈ odRows db → 0 < orSeq r <= odCounter db)%Z → NoDup (map orSeq (odRows db)) →
  (∀ r, r ∈ odRows (update_by p f db) → 0 < orSeq r <= odCounter (update_by p f db))%Z ∧
  NoDup (map orSeq (odRows (update_by p f db))) ∧ (odCounter db <= odCounter (update_by p f db))%Z.
Proof.
  intros Hle Hnd. unfold update_by. destruct (update_rows p f (odRows db) (odCounter db)) as [rows c] eqn:Hu. cbn.
  destruct (update_rows_spec _ _ _ _ _ _ Hu) as [Hc Hf].
  split_and!; [|by eapply update_rows_seqs; [exact Hu|intros r Hr; apply (Hle r Hr)|]|done].
  intros r' Hr'. destruct (Forall2_in_r _ _ _ _ Hf Hr') as (r & Hr & Hrr). pose proof (Hle r Hr).
  destruct (p r); [destruct Hrr as (s & Hs & ->); cbn; lia|subst; lia].
Qed.

Lemma update_by_body body db fts : (∀ r, body (f r) = body r) → (∀ r s, body (with_seq r s) = body r) →
  fts_ok body (odRows db) fts → fts_ok body (odRows (update_by p f db)) fts.
Proof.
  intros Hb Hs Hok id b. etrans; [apply Hok|]. apply and_iff_compat_l. pose proof (update_by_images db) as Hf. split.
  - intros (r & Hr & <- & <-). destruct (Forall2_in_l _ _ _ _ Hf Hr) as (r' & Hr' & Him). exists r'.
    split; [done|]. split; [by apply image_id|]. destruct Him as [[-> _]|(s & -> & _)]; [done|]. by rewrite Hs, Hb.
  - intros (r' & Hr' & <- & <-). destruct (Forall2_in_r _ _ _ _ Hf Hr') as (r & Hr & Him). exists r.
    split; [done|]. split; [symmetry; by apply image_id|]. destruct Him as [[-> _]|(s & -> & _)]; [done|]. by rewrite Hs, Hb.
Qed.

Lemma update_by_nodes db : (∀ n id x, odNodes db !! n = Some (id, x) → ∃ r, r ∈ odRows db ∧ orID r = id) →
  ∀ n id x, odNodes db !! n = Some (id, x) → ∃ r, r ∈ odRows (update_by p f db) ∧ orID r = id.
Proof.
  intros Hn n id x Hx. destruct (Hn n id x Hx) as (r & Hr & <-).
  destruct (Forall2_in_l _ _ _ _ (update_by_images db) Hr) as (r' & Hr' & Him). exists r'. split; [done|]. by apply image_id.
Qed.
End update.

(** A write that touches none of the indexed columns. *)
Definition plain_write (f : ObjRow → ObjRow) : Prop :=
  ∀ r, orID (f r) = orID r ∧ orBody (f r) = orBody r ∧ orMasked (f r) = orMasked r ∧
       koContentHash (orObj (f r)) = koContentHash (orObj r) ∧ koProfileID (orObj (f r)) = koProfileID (orObj r) ∧
       koSourceKey (orObj (f r)) = koSourceKey (orObj r).

Definition same_keys (o1 o2 : KnowledgeObject) : Prop :=
  koID o1 = koID o2 ∧ koContentHash o1 = koContentHash o2 ∧ koProfileID o1 = koProfileID o2 ∧ koSourceKey o1 = koSourceKey o2.

Lemma clashes_same o1 o2 r1 r2 : same_keys o1 o2 → same_keys (orObj r1) (orObj r2) → clashes o1 r1 = clashes o2 r2.
Proof. intros (Hi & Hh & Hp & Hs) (Hi' & Hh' & Hp' & Hs'). unfold clashes, orID. congruence. Qed.

Lemma str_eqb_sym a b : str_eqb a b = str_eqb b a.
Proof. unfold str_eqb. apply bool_decide_ext. split; congruence. Qed.

Lemma set_and_same a b : negb (str_eqb a nostr) && str_eqb a b = negb (str_eqb b nostr) && str_eqb b a.
Proof.
  rewrite (str_eqb_sym b a). destruct (str_eqb a b) eqn:He; [|by rewrite !andb_false_r]. apply str_eqb_true in He as ->. done.
Qed.

Lemma clashes_sym r1 r2 : clashes (orObj r1) r2 = clashes (orObj r2) r1.
Proof.
  unfold clashes, orID. rewrite (str_eqb_sym (koID (orObj r1))). f_equal; [f_equal|apply set_and_same].
  rewrite set_and_same, (str_eqb_sym (koProfileID (orObj r1))). done.
Qed.

Lemma update_by_unique p f db :
  (∀ r, same_keys (orObj (f r)) (orObj r)) →
  (∀ r1 r2, r1 ∈ odRows db → r2 ∈ odRows db → clashes (orObj r1) r2 = true → orID r1 = orID r2) →
  ∀ r1 r2, r1 ∈ odRows (update_by p f db) → r2 ∈ odRows (update_by p f db) → clashes (orObj r1) r2 = true → orID r1 = orID r2.
Proof.
  intros Hk Hu r1' r2' Hr1' Hr2' Hc.
  assert (Hi : ∀ r', r' ∈ odRows (update_by p f db) → ∃ r, r ∈ odRows db ∧ same_keys (orObj r') (orObj r)).
  { intros r' Hr'. destruct (Forall2_in_r _ _ _ _ (update_by_images p f db) Hr') as (r & Hr & Him). exists r. split; [done|].
    destruct Him as [[-> _]|(s & -> & _)]; [done|]. exact (Hk r). }
  destruct (Hi r1' Hr1') as (r1 & Hr1 & Hk1), (Hi r2' Hr2') as (r2 & Hr2 & Hk2).
  rewrite (clashes_same _ _ _ _ Hk1 Hk2) in Hc. pose proof (Hu r1 r2 Hr1 Hr2 Hc) as He.
  destruct Hk1 as (Hi1 & _), Hk2 as (Hi2 & _). unfold orID in *. congruence.
Qed.

Lemma update_plain_wf p f db : plain_write f → obj_wf db → obj_wf (update_by p f db).
Proof.
  intros Hf [Hids Huniq Hfts Hmask Hnodes Hseq Hseqs Hcount].
  assert (Hid : ∀ r, p r = true → orID (f r) = orID r) by (intros r _; apply Hf).
  destruct (update_by_seq p f db Hseq Hseqs) as (Hseq' & Hseqs' & Hle).
  split; [by rewrite update_by_ids| | | | |done|done|lia].
  - apply update_by_unique; [|done]. intros r. destruct (Hf r) as (? & _ & _ & ? & ? & ?). done.
  - apply update_by_body; [done|apply Hf|done|done].
  - apply update_by_body; [done|apply Hf|done|done].
  - exact (update_by_nodes p f Hid db Hnodes).
Qed.

(** ** The full-text indexes *)

(** The index holds every row but [id]'s. *)
Definition fts_but (id : string) (body : ObjRow → string) (rows : list ObjRow) (fts : gmap string string) : Prop :=
  fts !! id = None ∧ ∀ i b, i ≠ id → fts !! i = Some b ↔ b ≠ nostr ∧ ∃ r, r ∈ rows ∧ orID r = i ∧ body r = b.

Lemma by_id_true id r : by_id id r = true ↔ orID r = id.
Proof. unfold by_id. by rewrite str_eqb_true. Qed.

Lemma find_by_id rows id r : List.find (by_id id) rows = Some r → r ∈ rows ∧ orID r = id.
Proof. intros [Hin Hb]%find_some. split; [by apply list_elem_of_In|by apply by_id_true]. Qed.

Lemma find_by_id_none rows id : List.find (by_id id) rows = None → ∀ r, r ∈ rows → orID r ≠ id.
Proof.
  intros Hf r Hr He. apply list_elem_of_In in Hr. pose proof (find_none _ _ Hf r Hr) as Hn.
  apply by_id_true in He. congruence.
Qed.

Lemma affected_by_id db id : affected (by_id id) db = true ↔ ∃ r, r ∈ odRows db ∧ orID r = id.
Proof. unfold affected. rewrite existsb_exists'. by setoid_rewrite by_id_true. Qed.

Lemma fts_delete_ok body rows fts id r :
  NoDup (map orID rows) → fts_ok body rows fts → r ∈ rows → orID r = id →
  ∃ fts', fts_delete fts id (body r) = Ok fts' ∧ fts_but id body rows fts'.
Proof.
  intros Hnd Hok Hr Hid. unfold fts_delete. destruct (str_eqb (body r) nostr) eqn:Hb.
  - apply str_eqb_true in Hb. exists fts. split; [done|]. split; [|by intros i b _; apply Hok].
    destruct (fts !! id) as [b|] eqn:Hl; [|done]. apply Hok in Hl as (Hne & r' & Hr' & Hid' & <-).
    assert (r' = r) as -> by (apply (NoDup_map_inj orID rows); congruence). done.
  - assert (Hne : body r ≠ nostr) by (intros He; rewrite He, str_eqb_refl in Hb; done).
    assert (fts !! id = Some (body r)) as -> by (apply Hok; eauto). rewrite str_eqb_refl.
    eexists. split; [done|]. split; [by rewrite lookup_delete_eq|]. intros i b Hi. rewrite lookup_delete_ne by done. apply Hok.
Qed.

Lemma fts_insert_ok body rows fts id r :
  NoDup (map orID rows) → fts_but id body rows fts → r ∈ rows → orID r = id →
  ∃ fts', fts_insert fts id (body r) = Ok fts' ∧ fts_ok body rows fts'.
Proof.
  intros Hnd [Hno Hok] Hr Hid. unfold fts_insert. rewrite Hno. destruct (str_eqb (body r) nostr) eqn:Hb.
  - apply str_eqb_true in Hb. exists fts. split; [done|]. intros i b. destruct (decide (i = id)) as [->|Hi]; [|by apply Hok].
    rewrite Hno. split; [done|]. intros (Hne & r' & Hr' & Hid' & <-).
    assert (r' = r) as -> by (apply (NoDup_map_inj orID rows); congruence). done.
  - assert (Hne : body r ≠ nostr) by (intros He; rewrite He, str_eqb_refl in Hb; done).
    eexists. split; [done|]. intros i b. destruct (decide (i = id)) as [->|Hi].
    + rewrite lookup_insert_eq. split; [intros [= <-]; eauto|]. intros (_ & r' & Hr' & Hid' & <-). f_equal.
      assert (r' = r) as -> by (apply (NoDup_map_inj orID rows); congruence). done.
    + rewrite lookup_insert_ne by done. by apply Hok.
Qed.

(** Writing the row of [id] leaves the others' entries right. *)
Lemma fts_but_update id body f db fts : (∀ r, by_id id r = true → orID (f r) = orID r) →
  fts_but id body (odRows db) fts → fts_but id body (odRows (update_by (by_id id) f db)) fts.
Proof.
  intros Hid [Hno Hok]. split; [done|]. intros i b Hi. rewrite (Hok i b Hi). apply and_iff_compat_l.
  pose proof (update_by_images (by_id id) f db) as Hf. split.
  - intros (r & Hr & Hri & Hb). destruct (Forall2_in_l _ _ _ _ Hf Hr) as (r' & Hr' & [[-> _]|(s & -> & Hp)]); [by eauto|].
    apply by_id_true in Hp. congruence.
  - intros (r' & Hr' & Hri & Hb). destruct (Forall2_in_r _ _ _ _ Hf Hr') as (r & Hr & [[-> _]|(s & -> & Hp)]); [by eauto|].
    rewrite orID_with_seq, (Hid r Hp) in Hri. apply by_id_true in Hp. congruence.
Qed.

(** Adding or dropping the row of [id] too. *)
Lemma fts_but_others id body rows rows' fts :
  (∀ r, orID r ≠ id → r ∈ rows ↔ r ∈ rows') → fts_but id body rows fts → fts_but id body rows' fts.
Proof.
  intros Hr [Hno Hok]. split; [done|]. intros i b Hi. rewrite (Hok i b Hi). apply and_iff_compat_l.
  split; intros (r & Hin & He & Hb); exists r; (split; [|done]); apply Hr; congruence.
Qed.

Lemma fts_but_absent id body rows fts : fts_but id body rows fts → (∀ r, r ∈ rows → orID r ≠ id) → fts_ok body rows fts.
Proof.
  intros [Hno Hok] Ha i b. destruct (decide (i = id)) as [->|Hi]; [|by apply Hok]. rewrite Hno. split; [done|].
  intros (_ & r & Hr & He & _). by destruct (Ha r Hr).
Qed.

(** ** The operations *)

(** The call answers with what [P] says, or fails, but never on a corrupt index. *)
Definition sound {A} (m : result ObjError A) (P : A → Prop) : Prop :=
  match m with Ok a => P a | Err e => e ≠ FTSCorrupt end.

Lemma sound_bind {A B} (m : result ObjError A) (f : A → result ObjError B) (P : A → Prop) (Q : B → Prop) :
  sound m P → (∀ a, P a → sound (f a) Q) → sound (m ≫= f) Q.
Proof. destruct m; cbn; auto. Qed.

Lemma sound_weaken {A} (m : result ObjError A) (P Q : A → Prop) : sound m P → (∀ a, P a → Q a) → sound m Q.
Proof. destruct m; cbn; auto. Qed.

Lemma sound_if {A} (b : bool) (e : ObjError) (m : result ObjError A) P :
  e ≠ FTSCorrupt → (b = false → sound m P) → sound (if b then Err e else m) P.
Proof. by destruct b; auto. Qed.

Lemma deleteObjectFTSTx_ok db id : obj_wf db →
  sound (deleteObjectFTSTx db id) (λ db', ∃ f1 f2, db' = set_fts db f1 f2 ∧
    fts_but id orBody (odRows db) f1 ∧ fts_but id orMasked (odRows db) f2).
Proof.
  intros Hwf. unfold deleteObjectFTSTx. destruct (List.find (by_id id) (odRows db)) as [r|] eqn:Hf.
  - apply find_by_id in Hf as [Hr Hid].
    destruct (fts_delete_ok orBody _ _ id r (wf_ids _ Hwf) (wf_fts _ Hwf) Hr Hid) as (f1 & -> & H1').
    destruct (fts_delete_ok orMasked _ _ id r (wf_ids _ Hwf) (wf_masked _ Hwf) Hr Hid) as (f2 & -> & H2').
    cbn. by exists f1, f2.
  - exists (odFts db), (odFtsMasked db). split; [by destruct db|]. pose proof (find_by_id_none _ _ Hf) as Hn.
    split; (split; [|by intros i b _; apply Hwf]).
    + destruct (odFts db !! id) eqn:Hl; [|done]. apply (wf_fts _ Hwf) in Hl as (_ & r & Hr & He & _). by destruct (Hn r Hr).
    + destruct (odFtsMasked db !! id) eqn:Hl; [|done]. apply (wf_masked _ Hwf) in Hl as (_ & r & Hr & He & _). by destruct (Hn r Hr).
Qed.

Lemma insertObjectFTSTx_ok db id index r :
  NoDup (map orID (odRows db)) → fts_but id orBody (odRows db) (odFts db) → fts_but id orMasked (odRows db) (odFtsMasked db) →
  r ∈ odRows db → orID r = id → orBody r = ipFTSBody index → orMasked r = ipMaskedFTSBody index →
  sound (insertObjectFTSTx db id index) (λ db', ∃ f1 f2, db' = set_fts db f1 f2 ∧
    fts_ok orBody (odRows db) f1 ∧ fts_ok orMasked (odRows db) f2).
Proof.
  intros Hnd H1' H2' Hr Hid Hb Hm. unfold insertObjectFTSTx. rewrite <- Hb, <- Hm.
  destruct (fts_insert_ok orBody _ _ id r Hnd H1' Hr Hid) as (f1 & -> & Hf1).
  destruct (fts_insert_ok orMasked _ _ id r Hnd H2' Hr Hid) as (f2 & -> & Hf2). cbn. by exists f1, f2.
Qed.

Lemma insert_nodes_ok nodes id l : sound (insert_nodes nodes id l)
  (λ nodes', ∀ n i x, nodes' !! n = Some (i, x) → i = id ∨ nodes !! n = Some (i, x)).
Proof.
  revert nodes. induction l as [|n l IH]; intros nodes; cbn; [auto|].
  destruct (nodes !! gnID n); [done|]. specialize (IH (<[gnID n := (id, n)]> nodes)).
  destruct (insert_nodes _ id l) as [nodes'|e]; cbn in *; [|done]. intros m i x Hm.
  destruct (IH m i x Hm) as [->|Hl]; [by left|]. apply lookup_insert_Some in Hl as [[_ [= <- _]]|[_ Hl]]; auto.
Qed.

(** The nodes of a graph name its object, which is stored. *)
Lemma upsertObjectNodesTx_ok db id g :
  (∃ r, r ∈ odRows db ∧ orID r = id) →
  (∀ n i x, odNodes db !! n = Some (i, x) → ∃ r, r ∈ odRows db ∧ orID r = i) →
  sound (upsertObjectNodesTx db id g) (λ db', ∃ nodes, db' = set_nodes db nodes ∧
    ∀ n i x, nodes !! n = Some (i, x) → ∃ r, r ∈ odRows db ∧ orID r = i).
Proof.
  intros Hr Hn. unfold upsertObjectNodesTx. eapply sound_bind; [apply insert_nodes_ok|]. intros nodes Hnodes. cbn.
  exists nodes. split; [done|]. intros n i x Hx. destruct (Hnodes n i x Hx) as [->|Hl]; [done|].
  unfold drop_nodes in Hl. apply map_lookup_filter_Some in Hl as [Hl _]. by apply (Hn n i x).
Qed.

(** A write leaves a row as it was or gives it a position after every position
    given out before. *)
Definition feeds (db db' : ObjDB) : Prop :=
  (odCounter db <= odCounter db')%Z ∧ ∀ r, r ∈ odRows db' → r ∈ odRows db ∨ (odCounter db < orSeq r)%Z.

Lemma feeds_refl db : feeds db db.
Proof. split; [done|]. by left. Qed.
Lemma feeds_trans a b c : feeds a b → feeds b c → feeds a c.
Proof.
  intros [Hab Hr1] [Hbc Hr2]. split; [lia|]. intros r Hr. destruct (Hr2 r Hr) as [Hb|Hb]; [|right; lia].
  by apply Hr1.
Qed.
Lemma feeds_same db db' : odRows db' = odRows db → odCounter db' = odCounter db → feeds db db'.
Proof. intros Hr Hc. split; [lia|]. rewrite Hr. by left. Qed.

Lemma feeds_update p f db : feeds db (update_by p f db).
Proof.
  unfold update_by. destruct (update_rows p f (odRows db) (odCounter db)) as [rows c] eqn:Hu.
  destruct (update_rows_spec _ _ _ _ _ _ Hu) as [Hc Hf]. split; [exact Hc|]. cbn. intros r' Hr'.
  destruct (Forall2_in_r _ _ _ _ Hf Hr') as (r & Hr & Him). destruct (p r); [destruct Him as (s & Hs & ->); right; cbn; lia|].
  left. by rewrite Him.
Qed.

(** The full-text and node tables are beside the rows. *)
Lemma fts_rows db id ix db' : insertObjectFTSTx db id ix = Ok db' → odRows db' = odRows db ∧ odCounter db' = odCounter db.
Proof. unfold insertObjectFTSTx. intros Hu. inv_ok. done. Qed.
Lemma nodes_rows db id g db' : upsertObjectNodesTx db id g = Ok db' → odRows db' = odRows db ∧ odCounter db' = odCounter db.
Proof. unfold upsertObjectNodesTx. intros Hu. inv_ok. done. Qed.
Lemma unfts_rows db id db' : deleteObjectFTSTx db id = Ok db' → odRows db' = odRows db ∧ odCounter db' = odCounter db.
Proof. unfold deleteObjectFTSTx. destruct (List.find _ _); intros Hu; inv_ok; done. Qed.

Section ops.
Context `{GoEncodings} `{GoColumns}.

Lemma marshal_sound obj : sound (marshal obj) (λ _, True).
Proof.
  unfold marshal. destruct (json_map _); [|done]. destruct (json_sections _); [|done].
  destruct (koGraph obj) as [gr|]; [|done]. by destruct (json_graph gr).
Qed.

(** The rows and the counter after [Create]. *)
Lemma append_wf_parts db obj body masked :
  obj_wf db → affected (clashes obj) db = false →
  let row := mkObjRow obj body masked ProjectionVersion (odCounter db + 1) in
  let rows := odRows db ++ [row] in
  NoDup (map orID rows) ∧
  (∀ r1 r2, r1 ∈ rows → r2 ∈ rows → clashes (orObj r1) r2 = true → orID r1 = orID r2) ∧
  (∀ r, r ∈ rows → 0 < orSeq r <= odCounter db + 1)%Z ∧ NoDup (map orSeq rows).
Proof.
  intros Hwf Hc row rows.
  assert (Hno : ∀ r, r ∈ odRows db → clashes obj r = false).
  { intros r Hr. destruct (clashes obj r) eqn:He; [|done]. exfalso. apply not_true_iff_false in Hc. apply Hc.
    apply existsb_exists'. eauto. }
  assert (Hsym : ∀ r, clashes (orObj r) row = clashes obj r).
  { intros r. apply clashes_sym. }
  assert (Hid : ∀ r, r ∈ odRows db → orID r ≠ koID obj).
  { intros r Hr He. pose proof (Hno r Hr) as Hcl. unfold clashes in Hcl. by rewrite He, str_eqb_refl in Hcl. }
  unfold rows. rewrite !map_app. cbn [map]. split_and!.
  - apply NoDup_app. split_and!; [apply Hwf| |apply NoDup_singleton].
    intros x (r & -> & Hr)%list_elem_of_fmap Hx%list_elem_of_singleton. by destruct (Hid r Hr).
  - intros r1 r2 [Hr1| ->%list_elem_of_singleton]%elem_of_app [Hr2| ->%list_elem_of_singleton]%elem_of_app Hcl;
      [by apply Hwf| | |done].
    + rewrite Hsym, Hno in Hcl; done.
    + change (orObj row) with obj in Hcl. rewrite Hno in Hcl; done.
  - intros r [Hr| ->%list_elem_of_singleton]%elem_of_app; [pose proof (wf_seq _ Hwf r Hr); lia|].
    cbn. pose proof (wf_counter _ Hwf). lia.
  - apply NoDup_app. split_and!; [apply Hwf| |apply NoDup_singleton].
    intros x (r & -> & Hr)%list_elem_of_fmap Hx%list_elem_of_singleton. cbn in Hx. pose proof (wf_seq _ Hwf r Hr). lia.
Qed.

Lemma obj_Create_ok db obj : obj_wf db →
  sound (obj_Create db obj) (λ '(o, db'), obj_wf db' ∧ o = obj_defaults obj ∧ affected (clashes o) db = false ∧
    ∃ row, odRows db' = odRows db ++ [row] ∧ orObj row = o ∧ orSeq row = (odCounter db + 1)%Z ∧
           odCounter db' = (odCounter db + 1)%Z ∧
           orBody row = ipFTSBody (ProjectIndex (Some o)) ∧ orMasked row = ipMaskedFTSBody (ProjectIndex (Some o))).
Proof.
  intros Hwf. unfold obj_Create. eapply sound_bind; [apply marshal_sound|]. intros _ _.
  set (o := obj_defaults obj). apply sound_if; [done|]. intros Hc. cbv zeta.
  set (row := mkObjRow _ _ _ _ _).
  destruct (append_wf_parts db o (ipFTSBody (ProjectIndex (Some o))) (ipMaskedFTSBody (ProjectIndex (Some o))) Hwf Hc)
    as (Hids & Huniq & Hseq & Hseqs). fold row in Hids, Huniq, Hseq, Hseqs.
  assert (Hrow : row ∈ odRows db ++ [row]) by (apply elem_of_app; right; by left).
  assert (Hnew : ∀ r, r ∈ odRows db → orID r ≠ koID o).
  { intros r Hr He. assert (affected (clashes o) db = true); [|congruence]. apply existsb_exists'. exists r. split; [done|].
    unfold clashes. by rewrite He, str_eqb_refl. }
  eapply sound_bind; [apply upsertObjectNodesTx_ok|].
  - by exists row.
  - intros n i x Hx. destruct (wf_nodes _ Hwf n i x Hx) as (r & Hr & <-). exists r. split; [|done].
    apply elem_of_app. by left.
  - intros _ (nodes & -> & Hnodes). cbn [odRows set_nodes set_rows fst] in Hnodes.
    assert (Hbut : ∀ body fts, fts_ok body (odRows db) fts → fts_but (koID o) body (odRows db ++ [row]) fts).
    { intros body fts Hok. apply (fts_but_others _ _ (odRows db)).
      - intros r Hr. rewrite elem_of_app, list_elem_of_singleton. split; [by left|]. intros [?| ->]; done.
      - split; [|by intros i b _; apply Hok]. destruct (fts !! koID o) eqn:Hl; [|done].
        apply Hok in Hl as (_ & r & Hr & He & _). by destruct (Hnew r Hr). }
    eapply sound_bind; [apply (insertObjectFTSTx_ok _ _ _ row)|]; cbn [odRows odFts odFtsMasked set_nodes set_rows fst snd];
      [done|apply Hbut, Hwf|apply Hbut, Hwf|done|done|done|done|].
    intros _ (f1 & f2 & -> & Hf1 & Hf2). cbn. pose proof (wf_counter _ Hwf).
    split; [split; cbn; try done; lia|]. split; [done|]. split; [done|]. exists row. done.
Qed.

Lemma update_other_unique db o f :
  obj_wf db → (∀ r, koID (orObj (f r)) = koID o ∧ koContentHash (orObj (f r)) = koContentHash o ∧
                    koProfileID (orObj (f r)) = koProfileID o ∧ koSourceKey (orObj (f r)) = koSourceKey o) →
  existsb (λ r, negb (by_id (koID o) r) && clashes o r) (odRows db) = false →
  let db' := update_by (by_id (koID o)) f db in
  ∀ r1 r2, r1 ∈ odRows db' → r2 ∈ odRows db' → clashes (orObj r1) r2 = true → orID r1 = orID r2.
Proof.
  intros Hwf Hf Hno db'.
  assert (Hor : ∀ r', r' ∈ odRows db' → (r' ∈ odRows db ∧ orID r' ≠ koID o) ∨ same_keys (orObj r') o).
  { intros r' Hr'. destruct (Forall2_in_r _ _ _ _ (update_by_images _ _ db) Hr') as (r & Hr & [[-> Hp]|(s & -> & _)]).
    - left. split; [done|]. intros He. apply by_id_true in He. congruence.
    - right. exact (Hf r). }
  assert (Hoth : ∀ r, r ∈ odRows db → orID r ≠ koID o → clashes o r = false).
  { intros r Hr Hne. destruct (clashes o r) eqn:Hc; [|done]. apply not_true_iff_false in Hno. destruct Hno.
    apply existsb_exists'. exists r. split; [done|]. rewrite Hc, andb_true_r. apply negb_true_iff.
    destruct (by_id (koID o) r) eqn:Hb; [by apply by_id_true in Hb|done]. }
  intros r1 r2 Hr1 Hr2 Hc. destruct (Hor r1 Hr1) as [[Hi1 Hn1]|Hk1], (Hor r2 Hr2) as [[Hi2 Hn2]|Hk2].
  - by apply (wf_unique _ Hwf).
  - rewrite clashes_sym in Hc. unfold clashes in Hc. destruct Hk2 as (E1 & E2 & E3 & E4). rewrite E1, E2, E3, E4 in Hc.
    pose proof (Hoth r1 Hi1 Hn1) as Hx. unfold clashes in Hx. congruence.
  - unfold clashes in Hc. destruct Hk1 as (E1 & E2 & E3 & E4). rewrite E1, E2, E3, E4 in Hc.
    pose proof (Hoth r2 Hi2 Hn2) as Hx. unfold clashes in Hx. congruence.
  - destruct Hk1 as (E1 & _), Hk2 as (E2 & _). unfold orID. congruence.
Qed.

(** The write of a row between the two halves of its index update, whatever
    happens to its nodes. *)
Lemma rewrite_row_ok db id f nodes index f1 f2 :
  obj_wf db → (∃ r, r ∈ odRows db ∧ orID r = id) →
  (∀ r, orID r = id → orID (f r) = id ∧ orBody (f r) = ipFTSBody index ∧ orMasked (f r) = ipMaskedFTSBody index) →
  (let db' := update_by (by_id id) f db in
   ∀ r1 r2, r1 ∈ odRows db' → r2 ∈ odRows db' → clashes (orObj r1) r2 = true → orID r1 = orID r2) →
  (∀ n i x, nodes !! n = Some (i, x) → ∃ r, r ∈ odRows db ∧ orID r = i) →
  fts_but id orBody (odRows db) f1 → fts_but id orMasked (odRows db) f2 →
  sound (insertObjectFTSTx (set_nodes (update_by (by_id id) f (set_fts db f1 f2)) nodes) id index) obj_wf.
Proof.
  intros Hwf (r & Hr & Hid) Hf Huniq Hnodes Hf1 Hf2.
  assert (Hid' : ∀ r, by_id id r = true → orID (f r) = orID r).
  { intros x Hx. apply by_id_true in Hx. destruct (Hf x Hx) as [-> _]. done. }
  set (db1 := set_nodes _ nodes). assert (Hrows : odRows db1 = odRows (update_by (by_id id) f db)) by done.
  destruct (update_by_seq (by_id id) f db (wf_seq _ Hwf) (wf_seqs _ Hwf)) as (Hseq & Hseqs & Hc).
  destruct (Forall2_in_l _ _ _ _ (update_by_images (by_id id) f db) Hr) as (r' & Hr' & [[_ Hp]|(s & -> & _)]).
  { apply by_id_true in Hid. congruence. }
  destruct (Hf r Hid) as (Hi & Hb & Hm).
  apply (sound_weaken _ (λ db', ∃ g1 g2, db' = set_fts db1 g1 g2 ∧ fts_ok orBody (odRows db1) g1 ∧ fts_ok orMasked (odRows db1) g2)).
  - apply (insertObjectFTSTx_ok db1 id index (with_seq (f r) s)); [|by apply fts_but_update..|done|done|done|done].
    rewrite Hrows, update_by_ids by done. apply Hwf.
  - intros _ (g1 & g2 & -> & Hg1 & Hg2). pose proof (wf_counter _ Hwf). split; try done.
    + cbn [odRows set_fts]. rewrite Hrows, update_by_ids by done. apply Hwf.
    + intros n i x Hx. destruct (Hnodes n i x Hx) as (y & Hy & <-).
      destruct (Forall2_in_l _ _ _ _ (update_by_images (by_id id) f db) Hy) as (y' & Hy' & Him). exists y'. split; [done|].
      by apply (image_id _ _ Hid').
    + change (0 <= odCounter (update_by (by_id id) f db))%Z. lia.
Qed.

Lemma obj_Update_ok db obj : obj_wf db → sound (obj_Update db obj) (λ '(_, db'), obj_wf db').
Proof.
  intros Hwf. unfold obj_Update. eapply sound_bind; [apply marshal_sound|]. intros _ _.
  set (index := ProjectIndex (Some obj)). set (o := set_indexed obj _).
  eapply sound_bind; [apply deleteObjectFTSTx_ok, Hwf|]. intros _ (f1 & f2 & -> & Hf1 & Hf2). cbn [odRows set_fts].
  change (affected (by_id (koID o)) (set_fts db f1 f2)) with (affected (by_id (koID o)) db).
  destruct (affected (by_id (koID o)) db) eqn:Ha; [|by rewrite andb_false_r].
  rewrite andb_true_r. cbn [negb]. apply sound_if; [done|]. intros Hno.
  apply affected_by_id in Ha as (r & Hr & Hid).
  assert (Hov : ∀ r, orID r = koID o → orID (overwrite o index r) = koID o ∧
    orBody (overwrite o index r) = ipFTSBody index ∧ orMasked (overwrite o index r) = ipMaskedFTSBody index) by done.
  assert (Hid' : ∀ r, by_id (koID o) r = true → orID (overwrite o index r) = orID r).
  { intros x Hx. by apply by_id_true in Hx as ->. }
  eapply sound_bind; [apply upsertObjectNodesTx_ok|].
  - destruct (Forall2_in_l _ _ _ _ (update_by_images (by_id (koID o)) (overwrite o index) db) Hr) as (r' & Hr' & Him).
    exists r'. split; [done|]. by rewrite (image_id _ _ Hid' _ _ Him).
  - exact (update_by_nodes _ _ Hid' db (wf_nodes _ Hwf)).
  - intros _ (nodes & -> & Hnodes).
    eapply sound_bind; [|by intros db' Hdb'; exact Hdb'].
    apply rewrite_row_ok; [done|by exists r|done| |  |done|done].
    + apply update_other_unique; done.
    + intros n i x Hx. destruct (Hnodes n i x Hx) as (y' & Hy' & <-).
      destruct (Forall2_in_r _ _ _ _ (update_by_images (by_id (koID o)) (overwrite o index) db) Hy') as (y & Hy & Him).
      exists y. split; [done|]. symmetry. by apply (image_id _ _ Hid').
Qed.

Lemma obj_Delete_ok db id : obj_wf db →
  sound (obj_Delete db id) (λ db', obj_wf db' ∧ odCounter db' = odCounter db ∧
    odRows db' = List.filter (λ r, negb (by_id id r)) (odRows db)).
Proof.
  intros Hwf. unfold obj_Delete. eapply sound_bind; [apply deleteObjectFTSTx_ok, Hwf|]. intros _ (f1 & f2 & -> & Hf1 & Hf2).
  apply sound_if; [done|]. intros _. split; [|done].
  set (rows := List.filter _ _).
  assert (Hin : ∀ r, r ∈ rows ↔ r ∈ odRows db ∧ orID r ≠ id).
  { intros r. unfold rows. rewrite list_elem_of_In, filter_In, <- list_elem_of_In, negb_true_iff. apply and_iff_compat_l.
    rewrite <- not_true_iff_false, by_id_true. done. }
  assert (Hsub : ∀ B (f : ObjRow → B), NoDup (map f (odRows db)) → NoDup (map f rows)).
  { intros B f Hn. eapply sublist_NoDup; [exact Hn|]. unfold rows. clear.
    change (odRows (set_fts db f1 f2)) with (odRows db). induction (odRows db) as [|r l IH]; [done|]. cbn.
    destruct (negb (by_id id r)); cbn; by constructor. }
  assert (Hfts : ∀ body fts, fts_but id body (odRows db) fts → fts_ok body rows fts).
  { intros body fts Hb. apply (fts_but_absent id); [|by intros r [_ Hne]%Hin].
    apply (fts_but_others _ _ (odRows db)); [|done]. intros r Hr. rewrite Hin. by split; [|intros [? _]]. }
  split; cbn; [by apply Hsub, Hwf| |by apply Hfts|by apply Hfts| | |by apply Hsub, Hwf|apply Hwf].
  - intros r1 r2 [Hr1 _]%Hin [Hr2 _]%Hin. by apply (wf_unique _ Hwf).
  - intros n i x Hx. unfold drop_nodes in Hx. apply map_lookup_filter_Some in Hx as [Hx Hi]. cbn in Hi.
    destruct (wf_nodes _ Hwf n i x Hx) as (r & Hr & <-). exists r. split; [|done]. by apply Hin.
  - intros r [Hr _]%Hin. by apply (wf_seq _ Hwf).
Qed.

Lemma plain_status to at_ : plain_write (λ r, mkObjRow (set_status (orObj r) to at_) (orBody r) (orMasked r) (orVersion r) (orSeq r)).
Proof. done. Qed.
Lemma plain_remind remind reminded at_ : plain_write (remind_row remind reminded at_).
Proof. done. Qed.
Lemma plain_version : plain_write (λ r, mkObjRow (orObj r) (orBody r) (orMasked r) ProjectionVersion (orSeq r)).
Proof. done. Qed.
Lemma plain_ref_text text truncated :
  plain_write (λ r, mkObjRow (set_ref_text (orObj r) text truncated) (orBody r) (orMasked r) nostr (orSeq r)).
Proof. intros r. unfold set_ref_text. by destruct truncated. Qed.
Lemma plain_reinforced now :
  plain_write (λ r, mkObjRow (set_reinforced (orObj r) now) (orBody r) (orMasked r) (orVersion r) (orSeq r)).
Proof. done. Qed.
Lemma plain_merged tags mentions content now :
  plain_write (λ r, mkObjRow (set_merged (orObj r) tags mentions content now) (orBody r) (orMasked r) (orVersion r) (orSeq r)).
Proof. done. Qed.

Lemma reindexRowTx_ok db id : obj_wf db → sound (reindexRowTx db id) obj_wf.
Proof.
  intros Hwf. unfold reindexRowTx. destruct (List.find (by_id id) (odRows db)) as [r|] eqn:Hf; [|done].
  apply find_by_id in Hf as [Hr Hid]. set (index := ProjectIndex _).
  eapply (sound_bind _ _ obj_wf); [|by intros db' Hdb'; apply (update_plain_wf _ _ db' plain_version)].
  destruct (_ && _); [done|]. eapply sound_bind; [by apply deleteObjectFTSTx_ok|]. intros _ (f1 & f2 & -> & Hf1 & Hf2).
  set (f := λ r, mkObjRow _ _ _ _ _). change (update_by (by_id id) f (set_fts db f1 f2)) with
    (set_nodes (update_by (by_id id) f (set_fts db f1 f2)) (odNodes db)).
  apply rewrite_row_ok; [done|by exists r|by intros x Hx| |apply Hwf|done|done].
  apply update_by_unique; [done|apply Hwf].
Qed.

Lemma obj_Reproject_ok db id : obj_wf db → sound (obj_Reproject db id) (λ '(_, db'), obj_wf db').
Proof.
  intros Hwf. unfold obj_Reproject. destruct (negb _); [done|].
  eapply sound_bind; [|by intros db' Hdb'; exact Hdb']. apply reindexRowTx_ok, update_plain_wf; [apply plain_version|done].
Qed.

Lemma obj_Reinforce_ok db hash mergeData now : obj_wf db → sound (obj_Reinforce db hash mergeData now) (λ '(_, db'), obj_wf db').
Proof.
  intros Hwf. unfold obj_Reinforce. apply sound_if; [done|]. intros _. cbv zeta. destruct (List.find _ _) as [r|]; [|done].
  eapply sound_bind; [|by intros db' Hdb'; exact Hdb'].
  apply reindexRowTx_ok, update_plain_wf; [apply plain_merged|]. apply update_plain_wf; [apply plain_reinforced|done].
Qed.

(** ** Rows that the other tables' writes leave *)
Lemma upsert_rows db id gr db' : upsertObjectNodesTx db id gr = Ok db' → odRows db' = odRows db.
Proof. unfold upsertObjectNodesTx. intros Hu. inv_ok. done. Qed.
Lemma insert_rows db id ix db' : insertObjectFTSTx db id ix = Ok db' → odRows db' = odRows db.
Proof. unfold insertObjectFTSTx. intros Hu. inv_ok. done. Qed.
Lemma delete_rows db id db' : deleteObjectFTSTx db id = Ok db' → odRows db' = odRows db.
Proof. unfold deleteObjectFTSTx. destruct (List.find _ _); intros Hu; inv_ok; done. Qed.

(** What the unique index on hashes reads of a row, with its id. *)
Definition row_key (r : ObjRow) : string * string * string := (orID r, koContentHash (orObj r), koProfileID (orObj r)).
Definition row_keys (db : ObjDB) : list (string * string * string) := map row_key (odRows db).

Lemma update_by_keys p f db : (∀ r, row_key (f r) = row_key r) → row_keys (update_by p f db) = row_keys db.
Proof.
  intros Hf. pose proof (update_by_images p f db) as Hi. unfold row_keys.
  induction Hi as [|r r' rs rs' Hr _ IH]; [done|]. cbn. rewrite IH. f_equal.
  destruct Hr as [[-> _]|(s & -> & _)]; [done|]. exact (Hf r).
Qed.

Lemma reindexRowTx_keys db id db' : reindexRowTx db id = Ok db' → row_keys db' = row_keys db.
Proof.
  unfold reindexRowTx. destruct (List.find _ _) as [r|]; [|done]. cbv zeta. intros (db1 & Hm & [= <-])%bind_ok_inv.
  rewrite update_by_keys by done. destruct (_ && _); [by injection Hm as ->|].
  apply bind_ok_inv in Hm as (db0 & Hd%delete_rows & Hi%insert_rows). unfold row_keys in *. rewrite Hi.
  etrans; [by apply (update_by_keys (by_id id))|]. unfold row_keys. by rewrite Hd.
Qed.

(** The row [Reinforce] names is there, before and after, with the hash and the
    profile it was asked for. *)
Lemma reinforce_keys db hash o now id db' : obj_Reinforce db hash o now = Ok (id, db') →
  row_keys db' = row_keys db ∧ (id, hash, koProfileID o) ∈ row_keys db'.
Proof.
  unfold obj_Reinforce. destruct (str_eqb hash nostr); [done|]. cbv zeta. set (p := by_hash _ _). set (db1 := update_by p _ db).
  assert (H1 : row_keys db1 = row_keys db) by by apply update_by_keys.
  destruct (List.find p (odRows db1)) as [r|] eqn:Hf; [|done]. intros (db2 & Hre & [= <- <-])%bind_ok_inv.
  apply reindexRowTx_keys in Hre. assert (H2 : row_keys db2 = row_keys db1).
  { rewrite Hre. apply update_by_keys. by intros x. }
  split; [congruence|]. rewrite H2. apply List.find_some in Hf as [Hr%list_elem_of_In Hp].
  unfold p, by_hash in Hp. apply andb_true_iff in Hp as [Hh%str_eqb_true Hpr%str_eqb_true].
  apply list_elem_of_fmap. exists r. split; [|done]. unfold row_key. congruence.
Qed.

(** ** Steps *)

(** One call on the store. *)
Inductive obj_step (db : ObjDB) : ObjDB → Prop :=
| step_Create obj o db' : obj_Create db obj = Ok (o, db') → obj_step db db'
| step_Update obj o db' : obj_Update db obj = Ok (o, db') → obj_step db db'
| step_TransitionStatus id from to at_ db' : obj_TransitionStatus db id from to at_ = Ok db' → obj_step db db'
| step_Delete id db' : obj_Delete db id = Ok db' → obj_step db db'
| step_Reinforce hash o now id db' : obj_Reinforce db hash o now = Ok (id, db') → obj_step db db'
| step_Reproject id b db' : obj_Reproject db id = Ok (b, db') → obj_step db db'
| step_SetReminder id at_ now db' : obj_SetReminder db id at_ now = Ok db' → obj_step db db'
| step_ClearReminder id now db' : obj_ClearReminder db id now = Ok db' → obj_step db db'
| step_MarkReminded id now : obj_step db (obj_MarkReminded db id now)
| step_ReplaceRefText id ref text truncated : obj_step db (obj_ReplaceRefText db id ref text truncated).2.

Lemma sound_ok {A} (m : result ObjError A) P a : sound m P → m = Ok a → P a.
Proof. by intros Hs ->. Qed.

Lemma obj_step_wf db db' : obj_wf db → obj_step db db' → obj_wf db'.
Proof.
  intros Hwf Hs.
  destruct Hs as [obj o db' Ho|obj o db' Ho|id from to at_ db' Ho|id db' Ho|hash o now id db' Ho|id b db' Ho|id at_ now db' Ho|id now db' Ho|id now|id ref text truncated].
  - by pose proof (sound_ok _ _ _ (obj_Create_ok db obj Hwf) Ho) as [? _].
  - exact (sound_ok _ _ _ (obj_Update_ok db obj Hwf) Ho).
  - unfold obj_TransitionStatus in Ho. destruct (negb _); [done|]. injection Ho as <-. by apply update_plain_wf.
  - by pose proof (sound_ok _ _ _ (obj_Delete_ok db id Hwf) Ho) as [? _].
  - exact (sound_ok _ _ _ (obj_Reinforce_ok db hash o now Hwf) Ho).
  - exact (sound_ok _ _ _ (obj_Reproject_ok db id Hwf) Ho).
  - unfold obj_SetReminder in Ho. destruct (negb _); [done|]. injection Ho as <-. by apply update_plain_wf.
  - unfold obj_ClearReminder in Ho. destruct (negb _); [done|]. injection Ho as <-. by apply update_plain_wf.
  - by apply update_plain_wf.
  - apply update_plain_wf; [apply plain_ref_text|done].
Qed.

Lemma feeds_reindex db id db' : reindexRowTx db id = Ok db' → feeds db db'.
Proof.
  unfold reindexRowTx. destruct (List.find _ _) as [r|]; [|done]. cbv zeta. intros Hr.
  apply bind_ok_inv in Hr as (db1 & H1' & [= <-]). eapply feeds_trans; [|apply feeds_update].
  destruct (_ && _); [injection H1' as <-; apply feeds_refl|].
  apply bind_ok_inv in H1' as (db2 & [Hr2 Hc2]%unfts_rows & H1').
  apply fts_rows in H1' as [Hr3 Hc3]. eapply feeds_trans; [by apply feeds_same|].
  eapply feeds_trans; [apply feeds_update|by apply feeds_same].
Qed.

Lemma feeds_step db db' : obj_step db db' → feeds db db'.
Proof.
  intros Hs.
  destruct Hs as [obj o db' Ho|obj o db' Ho|id from to at_ db' Ho|id db' Ho|hash o now id db' Ho|id b db' Ho|id at_ now db' Ho|id now db' Ho|id now|id ref text truncated].
  - unfold obj_Create in Ho. apply bind_ok_inv in Ho as ([] & _ & Ho). cbv zeta in Ho. destruct (affected _ _); [done|].
    apply bind_ok_inv in Ho as (db1 & [Hr1 Hc1]%nodes_rows & Ho). apply bind_ok_inv in Ho as (db2 & [Hr2 Hc2]%fts_rows & Ho).
    injection Ho as <- <-. eapply feeds_trans; [|by apply feeds_same]. eapply feeds_trans; [|by apply feeds_same].
    split; [cbn; lia|]. cbn. intros r [Hr|Hr]%elem_of_app; [by left|]. apply list_elem_of_singleton in Hr as ->. right. cbn. lia.
  - unfold obj_Update in Ho. apply bind_ok_inv in Ho as ([] & _ & Ho). cbv zeta in Ho.
    apply bind_ok_inv in Ho as (db0 & [Hr0 Hc0]%unfts_rows & Ho). destruct (_ && _); [done|]. destruct (negb _); [done|].
    apply bind_ok_inv in Ho as (db1 & [Hr1 Hc1]%nodes_rows & Ho). apply bind_ok_inv in Ho as (db2 & [Hr2 Hc2]%fts_rows & Ho).
    injection Ho as <- <-. eapply feeds_trans; [by apply (feeds_same db db0)|].
    eapply feeds_trans; [apply feeds_update|]. eapply feeds_trans; by apply feeds_same.
  - unfold obj_TransitionStatus in Ho. destruct (negb _); [done|]. injection Ho as <-. apply feeds_update.
  - unfold obj_Delete in Ho. apply bind_ok_inv in Ho as (db0 & [Hr0 Hc0]%unfts_rows & Ho). destruct (negb _); [done|].
    injection Ho as <-. split; [cbn; lia|]. cbn. rewrite Hr0. intros r Hr.
    apply list_elem_of_In, filter_In in Hr as [Hr%list_elem_of_In _]. by left.
  - unfold obj_Reinforce in Ho. destruct (str_eqb _ _); [done|]. cbv zeta in Ho. destruct (List.find _ _) as [r|]; [|done].
    apply bind_ok_inv in Ho as (db1 & H1'%feeds_reindex & [= _ <-]).
    eapply feeds_trans; [|exact H1']. eapply feeds_trans; apply feeds_update.
  - unfold obj_Reproject in Ho. destruct (negb _); [by injection Ho as _ <-; apply feeds_refl|].
    apply bind_ok_inv in Ho as (db1 & H1'%feeds_reindex & [= _ <-]). eapply feeds_trans; [apply feeds_update|exact H1'].
  - unfold obj_SetReminder in Ho. destruct (negb _); [done|]. injection Ho as <-. apply feeds_update.
  - unfold obj_ClearReminder in Ho. destruct (negb _); [done|]. injection Ho as <-. apply feeds_update.
  - apply feeds_update.
  - apply feeds_update.
Qed.
(** C20. The store's invariant: whatever calls are made on an empty database, ids,
    content hashes within a profile and source keys stay unique, the raw and the
    masked full-text index hold exactly the projected bodies of the rows (no
    entry outlives its row, none is missing, none is stale), the node table
    names stored objects only, and change positions are distinct and at most the
    counter.  So no call ever meets a corrupt index.  And whatever the next call,
    a row it leaves is either a row that was there, position and all, or has a
    position above every position given out before: a feed read in position order
    from a mark misses no change. *)
Theorem object_store_invariant db :
  star obj_step emptyDB db →
  obj_wf db ∧
  (∀ obj, obj_Create db obj ≠ Err FTSCorrupt) ∧ (∀ obj, obj_Update db obj ≠ Err FTSCorrupt) ∧
  (∀ id, obj_Delete db id ≠ Err FTSCorrupt) ∧ (∀ id, obj_Reproject db id ≠ Err FTSCorrupt) ∧
  (∀ hash o now, obj_Reinforce db hash o now ≠ Err FTSCorrupt) ∧
  (∀ db', obj_step db db' → (odCounter db <= odCounter db')%Z ∧
     ∀ r', r' ∈ odRows db' → r' ∈ odRows db ∨
       (odCounter db < orSeq r')%Z ∧ ∀ r, r ∈ odRows db → (orSeq r < orSeq r')%Z).
Proof.
  intros Hs. assert (Hwf : obj_wf db).
  { exact (star_invariant obj_step obj_wf (λ a b Hab Ha, obj_step_wf a b Ha Hab) _ _ Hs emptyDB_wf). }
  assert (Hn : ∀ A (m : result ObjError A) P, sound m P → m ≠ Err FTSCorrupt) by (intros A m P Hm ->; done).
  split_and!; [done| | | | | |]; [intros; eapply Hn..|]; cycle 5.
  { intros db' [Hc Hf]%feeds_step. split; [done|]. intros r' Hr'. destruct (Hf r' Hr') as [?|Hlt]; [by left|right].
    split; [done|]. intros r Hr. pose proof (wf_seq _ Hwf r Hr). lia. }
  - by apply obj_Create_ok.
  - by apply obj_Update_ok.
  - by apply obj_Delete_ok.
  - by apply obj_Reproject_ok.
  - by apply obj_Reinforce_ok.
Qed.
End ops.

(** ** A concrete database *)
#[local] Instance plain_columns : GoColumns := {|
  json_map := Some; json_sections := Some; json_graph := Some; json_text := λ s, s;
  uri_Parse := Some; uri_String := λ s n i, (s +:+ "://" +:+ n +:+ "/" +:+ i)%string |}.
#[local] Instance decimal_times : GoEncodings := {|
  Format := λ t, pretty t; ParseTime := λ _, 0%Z; MarshalStrings := λ _, nostr; UnmarshalStrings := λ _, None |}.

Definition note (id hash text : string) : KnowledgeObject :=
  mkKO id "note" nostr text nostr nostr ∅ [] [] [] [] [] [] nostr nostr [] hash nostr nostr nostr
    1 None None None 0 0 false nostr [] [] None.

Definition two_notes : ObjDB :=
  match obj_Create emptyDB (note "n-1" "h1" "first") with
  | Ok (_, db) => match obj_Create db (note "n-2" "h2" "second") with Ok (_, db) => db | Err _ => db end
  | Err _ => emptyDB
  end.

Lemma two_notes_reachable : star obj_step emptyDB two_notes.
Proof.
  eapply star_step; [eapply (step_Create _ (note "n-1" "h1" "first")); vm_compute; reflexivity|].
  eapply star_step; [eapply (step_Create _ (note "n-2" "h2" "second")); vm_compute; reflexivity|].
  match goal with |- star _ ?a ?b => replace b with a by (vm_compute; reflexivity) end. apply star_refl.
Qed.

Lemma object_store_invariant_witness :
  odFts two_notes !! "n-2"%string = Some "second"%string ∧ obj_wf two_notes ∧
  obj_Delete two_notes "n-1" ≠ Err FTSCorrupt ∧
  map orSeq (odRows (obj_MarkReminded two_notes "n-1" 7)) = [3%Z; 2%Z] ∧
  (∀ r', r' ∈ odRows (obj_MarkReminded two_notes "n-1" 7) → r' ∈ odRows two_notes ∨ (odCounter two_notes < orSeq r')%Z).
Proof.
  split; [vm_compute; reflexivity|].
  destruct (object_store_invariant two_notes two_notes_reachable) as (Hwf & _ & _ & Hd & _ & _ & Hf).
  split; [exact Hwf|]. split; [apply Hd|]. split; [vm_compute; reflexivity|].
  intros r' Hr'. destruct (proj2 (Hf _ (step_MarkReminded two_notes "n-1" 7)) r' Hr') as [?|[? _]]; [by left|by right].
Defined.
