(* ===== verification/Blobs.v ===== *)
(** * Blobs: putting, deleting, sweeping

    Models [internal/storage/blob] ([ensure.go], [delete.go], [update.go],
    [sweep.go], [content.go], [resolve.go]), the externalize step
    ([internal/pipeline/steps/externalize.go]) and the content hash it keys blobs
    by ([internal/storageutil/content_hash.go]).

    An operation here is a sequence of calls on shared stores that other
    operations run between.  So it is written as a program: a tree whose nodes
    are the calls it makes, one branch per reply.  [exec] gives the meaning of a
    call on the world: the object store of ObjectDB and the blob store, a map
    from key to blob as [blob/local] keeps it.  The content of a file is read and
    written in one call. *)

From S2P Require Import Prelude GoStrings Objects Classes Contact Projection JobStore ObjectDB EdgeDB Encodings.

(** ** storageutil: the content hash *)
Definition is_ws (c : ascii) : bool := contains [9; 10; 12; 13; 32] (code c).

(** Each run of [\s] as one space; [in_run]: the last byte was one. *)
Fixpoint squeeze (in_run : bool) (s : string) : string :=
  match s with
  | EmptyString => nostr
  | String c s =>
      if is_ws c then if in_run then squeeze true s else String " " (squeeze true s)
      else String c (squeeze false s)
  end.

Section content_hash.
Context `{GoUnicode} `{GoCrypto}.

Definition normalizeContent (s : string) : string := squeeze false (ToLower (TrimSpace s)).
Definition ContentHash (rawContent source : string) : string :=
  EncodeHex (SHA256 (normalizeContent rawContent +:+ byte_str 0 +:+ source)).
End content_hash.

(** ** The world *)
Record BlobMeta : Type := mkBlobMeta { bmContentType : string; bmSize : Z; bmContentHash : string }.
(** [None] is the zero time: an unknown age. *)
Record BlobEntry : Type := mkBlob { bData : string; bMeta : BlobMeta; bUpdatedAt : option Z }.

Record World : Type := mkWorld {
  wObjects : ObjDB;
  wEdges : list EdgeRow;
  wBlobs : gmap string BlobEntry;
  wSource : gmap string BlobEntry;
  wNow : Z;
}.

Inductive Fault : Type :=
| ObjFault (e : ObjError)
| BlobMissing (key : string)
| CallFailed (what : string)
| NoStore
| EnsureFault (key : string) (f : Fault)
| PutBackFault (key : string) (f : Fault)
| CountFault (key : string) (f : Fault).

(** ** Programs *)

(** The calls, each with the type of its reply. *)
Inductive Call : Type :=
| Obj_Get (id : string)
| Obj_Create (o : KnowledgeObject)
| Obj_Update (o : KnowledgeObject)
| Obj_Delete (id : string)
| Edges_DeleteByObject (id : string)
| Obj_CountBlobRefs (key : string)
| Blobs_Get (key : string)
| Blobs_Put (key : string) (data : string) (meta : BlobMeta)
| Blobs_Delete (key : string)
| Blobs_Exists (key : string)
| Blobs_List (prefix : string)
| Source_Get (key : string)
| Time_Now.

Definition reply (c : Call) : Type :=
  match c with
  | Obj_Get _ | Obj_Create _ | Obj_Update _ => result Fault KnowledgeObject
  | Obj_Delete _ | Edges_DeleteByObject _ | Blobs_Put _ _ _ | Blobs_Delete _ => result Fault unit
  | Obj_CountBlobRefs _ => result Fault Z
  | Blobs_Get _ | Source_Get _ => result Fault (string * BlobMeta)
  | Blobs_Exists _ => result Fault bool
  | Blobs_List _ => result Fault (list (string * option Z))
  | Time_Now => Z
  end.

Inductive Prog (A : Type) : Type :=
| Ret (a : A)
| Vis (c : Call) (k : reply c → Prog A).
Arguments Ret {A} a. Arguments Vis {A} c k.

Fixpoint prog_bind {A B} (f : A → Prog B) (p : Prog A) : Prog B :=
  match p with
  | Ret a => f a
  | Vis c k => Vis c (λ r, prog_bind f (k r))
  end.
Definition prog_seq {A B} (p : Prog A) (f : A → Prog B) : Prog B := prog_bind f p.
Declare Scope prog_scope.
Delimit Scope prog_scope with prog.
Notation "x ⇐ p ; k" := (prog_seq p (λ x, k)) (at level 20, p at level 100, k at level 200, right associativity) : prog_scope.
Open Scope prog_scope.

Definition call (c : Call) : Prog (reply c) := Vis c Ret.
(** A call whose error the caller handles: the two branches. *)
Definition try_ {A B} (m : Prog (result Fault A)) (ok : A → Prog B) (err : Fault → Prog B) : Prog B :=
  r ⇐ m; match r with Ok a => ok a | Err e => err e end.

Section exec.
Context `{GoEncodings} `{GoColumns} `{GoUnicode}.

Definition set_objects (w : World) (db : ObjDB) : World := mkWorld db (wEdges w) (wBlobs w) (wSource w) (wNow w).
Definition set_blobs (w : World) (b : gmap string BlobEntry) : World := mkWorld (wObjects w) (wEdges w) b (wSource w) (wNow w).

(** A write of the object store: its error, or its answer and the new tables. *)
Definition obj_reply {A} (w : World) (m : result ObjError (A * ObjDB)) : result Fault A * World :=
  match m with Ok (a, db) => (Ok a, set_objects w db) | Err e => (Err (ObjFault e), w) end.

Definition exec (c : Call) (w : World) : reply c * World :=
  match c return reply c * World with
  | Obj_Get id => (map_err ObjFault (obj_Get (wObjects w) id), w)
  | Obj_Create o => obj_reply w (obj_Create (wObjects w) o)
  | Obj_Update o => obj_reply w (obj_Update (wObjects w) o)
  | Obj_Delete id => obj_reply w (pair tt <$> obj_Delete (wObjects w) id)
  | Edges_DeleteByObject id =>
      (Ok tt, mkWorld (wObjects w) (edge_DeleteByObject (wEdges w) id) (wBlobs w) (wSource w) (wNow w))
  | Obj_CountBlobRefs key => (Ok (obj_CountBlobRefs (wObjects w) key), w)
  | Blobs_Get key =>
      (match wBlobs w !! key with Some b => Ok (bData b, bMeta b) | None => Err (BlobMissing key) end, w)
  | Blobs_Put key data meta => (Ok tt, set_blobs w (<[key := mkBlob data meta (Some (wNow w))]> (wBlobs w)))
  | Blobs_Delete key => (Ok tt, set_blobs w (delete key (wBlobs w)))
  | Blobs_Exists key => (Ok (bool_decide (is_Some (wBlobs w !! key))), w)
  | Blobs_List prefix =>
      (Ok (map (λ k, (k, default None (bUpdatedAt <$> wBlobs w !! k)))
             (List.filter (λ k, HasPrefix k prefix) (SortStrings (map fst (map_to_list (wBlobs w)))))), w)
  | Source_Get key =>
      (match wSource w !! key with Some b => Ok (bData b, bMeta b) | None => Err (BlobMissing key) end, w)
  | Time_Now => (wNow w, w)
  end.
End exec.

(** ** content.go, resolve.go *)

Fixpoint valid_fuel (fuel : nat) (s : string) : bool :=
  match fuel with
  | O => false
  | S fuel =>
      match s with
      | EmptyString => true
      | _ => let '(n, ok) := utf8_head s in ok && valid_fuel fuel (str_drop n s)
      end
  end.
Definition ValidString (s : string) : bool := valid_fuel (S (String.length s)) s.

(** At most [n] trailing bytes dropped, as long as the text is not valid. *)
Fixpoint drop_split_rune (n : nat) (s : string) : string :=
  match n with
  | O => s
  | S n => if str_eqb s nostr || ValidString s then s else drop_split_rune n (str_take (String.length s - 1) s)
  end.
Definition TextPrefix (s : string) (max : Z) : string :=
  if (max <=? 0)%Z || (Z.of_nat (String.length s) <=? max)%Z then s else drop_split_rune 3 (str_take (Z.to_nat max) s).

(** [read]; [store]: whether a blob store is configured. *)
Definition read_content (store : bool) (content : string) (max : Z) : Prog (result Fault (string * bool)) :=
  match BlobKey content with
  | None => Ret (Ok (content, false))
  | Some key =>
      if negb store then Ret (Err NoStore)
      else try_ (call (Blobs_Get key))
             (λ dm, Ret (Ok (TextPrefix dm.1 max, negb (str_eqb (TextPrefix dm.1 max) dm.1))))
             (λ e, Ret (Err e))
  end.
Definition Content (store : bool) (content : string) : Prog (result Fault string) :=
  r ⇐ read_content store content (-1); Ret (fst <$> r).
Definition Preview := read_content.

Definition Resolve (obj : KnowledgeObject) : Prog (result Fault string) :=
  match BlobKey (koRawContent obj) with
  | None => Ret (Ok (koRawContent obj))
  | Some key => r ⇐ call (Blobs_Get key); Ret (fst <$> r)
  end.

(** ** Keys *)
Definition add_key (keys : list string) (key : string) : list string :=
  if str_eqb key nostr || contains keys key then keys else keys ++ [key].
Definition content_keys (obj : KnowledgeObject) : list string :=
  omap BlobKey [koRawContent obj; koTextContent obj].
Definition Keys (obj : KnowledgeObject) : list string :=
  fold_left add_key
    (content_keys obj ++ match koMetadata obj !! "blob_key"%string with Some (AStr key) => [key] | _ => [] end) [].

(** ** ensure.go

    A draft carries the contents the externalize step put, by key. *)
Definition BlobContent := gmap string string.

Fixpoint ensure_keys (obj : KnowledgeObject) (blobs : BlobContent) (keys : list string) : Prog (result Fault unit) :=
  match keys with
  | [] => Ret (Ok tt)
  | key :: keys =>
      match blobs !! key with
      | None => ensure_keys obj blobs keys
      | Some content =>
          try_ (call (Blobs_Exists key))
            (λ have : bool,
               if have then ensure_keys obj blobs keys
               else
                 let contentType := default nostr (koMetadata obj !! "blob_content_type"%string ≫= any_string) in
                 try_ (call (Blobs_Put key content (mkBlobMeta contentType (Z.of_nat (String.length content)) key)))
                   (λ _, ensure_keys obj blobs keys)
                   (λ e, Ret (Err (EnsureFault key e))))
            (λ e, Ret (Err (EnsureFault key e)))
      end
  end.

Definition Ensure (store : bool) (obj : KnowledgeObject) (blobs : BlobContent) : Prog (result Fault unit) :=
  if decide (blobs = ∅) then Ret (Ok tt)
  else if negb store then Ret (Err NoStore)
  else ensure_keys obj blobs (Keys obj).

(** ** delete.go *)
Definition DefaultSweepGrace : Z := 3600 * Second.

(** [time.Since(t)] needs the clock; a zero time is never old. *)
Definition olderThanGrace (key : string) : Prog (result Fault bool) :=
  try_ (call (Blobs_List key))
    (λ items,
       match List.find (λ i, str_eqb i.1 key) items with
       | None => Ret (Ok false)
       | Some (_, None) => Ret (Ok false)
       | Some (_, Some t) => now ⇐ call Time_Now; Ret (Ok (DefaultSweepGrace <=? now - t)%Z)
       end)
    (λ e, Ret (Err e)).

(** [remove]: whether the blob is gone. *)
Definition remove_blob (key : string) : Prog (result Fault bool) :=
  r ⇐ call (Blobs_Get key);
  match r with
  | Err (BlobMissing _) => Ret (Ok false)
  | Err e => Ret (Err e)
  | Ok (data, meta) =>
      try_ (call (Blobs_Delete key))
        (λ _,
           n ⇐ call (Obj_CountBlobRefs key);
           match n with
           | Ok 0%Z => Ret (Ok true)
           | _ =>
               try_ (call (Blobs_Put key data meta))
                 (λ _, match n with Ok _ => Ret (Ok false) | Err e => Ret (Err (CountFault key e)) end)
                 (λ e, Ret (Err (PutBackFault key e)))
           end)
        (λ e, Ret (Err e))
  end.

Definition deleteUnreferenced (store : bool) (key : string) : Prog (result Fault unit) :=
  try_ (call (Obj_CountBlobRefs key))
    (λ n : Z,
       if (0 <? n)%Z then Ret (Ok tt)
       else if negb store then Ret (Err NoStore)
       else try_ (olderThanGrace key)
              (λ old : bool, if negb old then Ret (Ok tt) else r ⇐ remove_blob key; Ret (const tt <$> r))
              (λ e, Ret (Err e)))
    (λ e, Ret (Err e)).

(** What an operation leaves behind: its error, and the blobs it could not
    settle. *)
Record Done : Type := mkDone { dnErr : option Fault; dnOrphans : list (string * Fault) }.
Definition fails (e : Fault) : Done := mkDone (Some e) [].

Fixpoint free_keys (store : bool) (keys : list string) (orphans : list (string * Fault)) : Prog Done :=
  match keys with
  | [] => Ret (mkDone None orphans)
  | key :: keys =>
      r ⇐ deleteUnreferenced store key;
      free_keys store keys (match r with Ok _ => orphans | Err e => orphans ++ [(key, e)] end)
  end.

Definition DeleteObject (store : bool) (id : string) : Prog Done :=
  try_ (call (Obj_Get id))
    (λ obj,
       try_ (call (Edges_DeleteByObject id))
         (λ _, try_ (call (Obj_Delete id)) (λ _, free_keys store (Keys obj) []) (λ e, Ret (fails e)))
         (λ e, Ret (fails e)))
    (λ e, Ret (fails e)).

(** [PlanDelete]: how many of the objects name a key, and the keys in the order
    they are first named. *)
Definition key_refs (objs : list KnowledgeObject) (key : string) : Z :=
  Z.of_nat (length (List.filter (λ o, contains (Keys o) key) objs)).
Definition key_order (objs : list KnowledgeObject) : list string := fold_left add_key (concat (map Keys objs)) [].

Fixpoint plan_keys (objs : list KnowledgeObject) (order keys : list string) : Prog (result Fault (list string)) :=
  match order with
  | [] => Ret (Ok keys)
  | key :: order =>
      try_ (call (Obj_CountBlobRefs key))
        (λ n : Z,
           if (key_refs objs key <? n)%Z then plan_keys objs order keys
           else try_ (olderThanGrace key)
                  (λ old : bool, plan_keys objs order (if old then keys ++ [key] else keys))
                  (λ e, Ret (Err e)))
        (λ e, Ret (Err e))
  end.
Definition PlanDelete (store : bool) (objs : list KnowledgeObject) : Prog (result Fault (list string)) :=
  if negb store then Ret (Ok []) else plan_keys objs (key_order objs) [].

(** ** update.go *)
Definition UpdateObject (store : bool) (obj : KnowledgeObject) (blobs : BlobContent) : Prog Done :=
  try_ (call (Obj_Get (koID obj)))
    (λ old,
       try_ (call (Obj_Update obj))
         (λ obj,
            try_ (Ensure store obj blobs)
              (λ _, free_keys store (List.filter (λ k, negb (contains (Keys obj) k)) (Keys old)) [])
              (λ e, Ret (fails e)))
         (λ e, Ret (fails e)))
    (λ e, Ret (fails e)).

(** ** sweep.go *)
Record SweepOptions : Type := mkSweepOptions { soGrace : Z; soNow : option Z; soDryRun : bool }.
Record SweepResult : Type := mkSweepResult {
  srScanned : Z;
  srDeleted : list string;
  srYoung : Z;
  srFailed : list (string * Fault);
}.

Fixpoint sweep_items (grace now : Z) (dry : bool) (items : list (string * option Z)) (res : SweepResult) :
    Prog (SweepResult * option Fault) :=
  match items with
  | [] => Ret (res, None)
  | (key, updated) :: items =>
      let young := match updated with None => true | Some t => (now - t <? grace)%Z end in
      let deleted := mkSweepResult (srScanned res) (srDeleted res ++ [key]) (srYoung res) (srFailed res) in
      try_ (call (Obj_CountBlobRefs key))
        (λ n : Z,
           if (0 <? n)%Z then sweep_items grace now dry items res
           else if young : bool then
             sweep_items grace now dry items
               (mkSweepResult (srScanned res) (srDeleted res) (srYoung res + 1)%Z (srFailed res))
           else if dry then sweep_items grace now dry items deleted
           else
             r ⇐ remove_blob key;
             match r with
             | Err e =>
                 sweep_items grace now dry items
                   (mkSweepResult (srScanned res) (srDeleted res) (srYoung res) (srFailed res ++ [(key, e)]))
             | Ok true => sweep_items grace now dry items deleted
             | Ok false => sweep_items grace now dry items res
             end)
        (λ e, Ret (res, Some e))
  end.

Definition Sweep (store : bool) (opts : SweepOptions) : Prog (SweepResult * option Fault) :=
  let none := mkSweepResult 0 [] 0 [] in
  if negb store then Ret (none, Some NoStore)
  else
    let grace := if (soGrace opts <=? 0)%Z then DefaultSweepGrace else soGrace opts in
    now ⇐ match soNow opts with Some t => Ret t | None => call Time_Now end;
    try_ (call (Blobs_List nostr))
      (λ items, sweep_items grace now (soDryRun opts) items (mkSweepResult (Z.of_nat (length items)) [] 0 []))
      (λ e, Ret (none, Some e)).

(** ** The externalize step *)
Definition with_content (o : KnowledgeObject) (raw text : string) (meta : gmap string Any) : KnowledgeObject :=
  mkKO (koID o) (koType o) (koSubtype o) raw text (koContentType o) meta (koSummaries o) (koSections o) (koTags o)
    (koMentions o) (koDecisions o) (koTasks o) (koPipeline o) (koSource o) (koRegistryInfluences o) (koContentHash o)
    (koSourceKey o) (koStatus o) (koInboxNote o) (koReinforcementCount o) (koLastReinforcedAt o) (koRemindAt o)
    (koRemindedAt o) (koCreatedAt o) (koUpdatedAt o) (koFTSIndexed o) (koProfileID o) (koClasses o) (koAttachmentIDs o)
    (koGraph o).

Section externalize.
Context `{GoUnicode} `{GoCrypto}.

Definition Externalize (threshold : Z) (draft : KnowledgeObject) (blobs : BlobContent) :
    Prog (result Fault (KnowledgeObject * BlobContent)) :=
  let raw := koRawContent draft in
  let size := Z.of_nat (String.length raw) in
  if (threshold <=? 0)%Z || (size <=? threshold)%Z then Ret (Ok (draft, blobs))
  else
    let hash := ContentHash raw (koSource draft) in
    try_ (call (Blobs_Put hash raw (mkBlobMeta (koContentType draft) size hash)))
      (λ _,
         let meta := <["blob_content_type"%string := AStr (koContentType draft)]>
                       (<["blob_original_size"%string := ANum (pretty size)]>
                         (<["blob_key"%string := AStr hash]> (koMetadata draft))) in
         let '(text, meta) :=
           if str_eqb (koTextContent draft) nostr || str_eqb (koTextContent draft) raw
           then (TextPrefix raw threshold, <[BlobMetaTextTruncated := ABool true]> meta)
           else (koTextContent draft, meta) in
         Ret (Ok (with_content draft (BlobRefFor hash) text meta, <[hash := raw]> blobs)))
      (λ e, Ret (Err e)).
End externalize.

(** [process] of jobs/worker.go from the write of the row to the blobs it refers
    to; [FederationAccept] does the same for an incoming object. *)
Definition store_draft (store : bool) (draft : KnowledgeObject) (blobs : BlobContent) : Prog Done :=
  try_ (call (Obj_Create draft))
    (λ draft, try_ (Ensure store draft blobs) (λ _, Ret (mkDone None [])) (λ e, Ret (fails e)))
    (λ e, Ret (fails e)).

(** ** federation/local.go: [copyBlobs] and [writeObject]; the target's store is
    the world's, the source's is [wSource] ([source]: whether there is one). *)
Fixpoint copy_contents (source : bool) (id : string) (contents : list string) : Prog (result Fault unit) :=
  match contents with
  | [] => Ret (Ok tt)
  | content :: contents =>
      match BlobKey content with
      | None => copy_contents source id contents
      | Some key =>
          try_ (call (Blobs_Exists key))
            (λ have : bool,
               if have then copy_contents source id contents
               else if negb source then Ret (Err NoStore)
               else
                 try_ (call (Source_Get key))
                   (λ dm,
                      try_ (call (Blobs_Put key dm.1 dm.2)) (λ _, copy_contents source id contents) (λ e, Ret (Err e)))
                   (λ e, Ret (Err e)))
            (λ e, Ret (Err e))
      end
  end.
Definition copyBlobs (source : bool) (obj : KnowledgeObject) : Prog (result Fault unit) :=
  copy_contents source (koID obj) [koRawContent obj; koTextContent obj].

Definition writeObject (source : bool) (obj : KnowledgeObject) : Prog (result Fault unit) :=
  try_ (copyBlobs source obj)
    (λ _, try_ (call (Obj_Create obj)) (λ obj, copyBlobs source obj) (λ e, Ret (Err e)))
    (λ e, Ret (Err e)).

(** ** One operation run alone *)
Section run.
Context `{GoEncodings} `{GoColumns}.

Fixpoint run {A} (p : Prog A) (w : World) : A * World :=
  match p with
  | Ret a => (a, w)
  | Vis c k => let '(r, w) := exec c w in run (k r) w
  end.
End run.
