(* ===== verification/BlobText.v ===== *)
(** * Capped previews

    The prefix of a content that the externalize step keeps inline and [Preview]
    returns ([TextPrefix]), and the content hash blobs are keyed by. *)

From S2P Require Import Prelude GoStrings Contact Projection Encodings Blobs.

(** ** Slices *)
Lemma length_str_take m s : m <= String.length s → String.length (str_take m s) = m.
Proof. revert s. induction m as [|m IH]; intros [|c s]; cbn; [done..|lia|]. intros Hm. rewrite IH; lia. Qed.
Lemma str_take_take a b s : a <= b → str_take a (str_take b s) = str_take a s.
Proof. revert b s. induction a as [|a IH]; intros [|b] [|c s] Hab; cbn; try done; [lia|]. rewrite IH; [done|lia]. Qed.
Lemma str_take_all s : str_take (String.length s) s = s.
Proof. induction s as [|c s IH]; [done|]. cbn. by rewrite IH. Qed.
Lemma str_drop_take a b s : str_drop a (str_take b s) = str_take (b - a) (str_drop a s).
Proof.
  revert b s. induction a as [|a IH]; intros b s; [cbn; f_equal; lia|].
  destruct b as [|b], s as [|c s]; cbn; [done..|by destruct (b - a)|apply IH].
Qed.
Lemma length_str_drop n s : String.length (str_drop n s) = String.length s - n.
Proof. revert s. induction n as [|n IH]; intros [|c s]; cbn; [done..|]. apply IH. Qed.

(** ** The decoder *)
Lemma utf8_head_pos c s : 1 <= (utf8_head (String c s)).1 <= 4.
Proof. unfold utf8_head. repeat case_match; cbn; lia. Qed.

Lemma head_case len n w (b1 b2 : bool) : (if b1 then (w, true) else (1, false)) = (n, true) →
  (w = n → b1 = true → b2 = true ∧ w <= len) → (if b2 then (w, true) else (1, false)) = (n, true) ∧ n <= len.
Proof. destruct b1; intros [= <-] Hb. by destruct (Hb eq_refl eq_refl) as [-> ?]. Qed.

Ltac rune_case :=
  let Hh := fresh in
  intros Hh; eapply head_case; [exact Hh|]; intros <- ?;
  repeat match goal with
  | |- context [str_take ?m ?s] => destruct m; destruct s; cbn [str_take String.length] in *; try done; try lia
  end; try (split; [done|lia]).

(** A whole rune is read from any prefix that holds it. *)
Lemma utf8_head_take m n s : utf8_head s = (n, true) → n <= m → utf8_head (str_take m s) = (n, true) ∧ n <= String.length s.
Proof.
  destruct s as [|a s]; [done|]. intros Hh Hm. pose proof (utf8_head_pos a s) as Hp. rewrite Hh in Hp. cbn [fst] in Hp.
  destruct m as [|m]; [lia|]. revert Hh. cbn [str_take String.length]. unfold utf8_head.
  destruct (code a <? 128); [intros [= <-]; split; [done|lia]|].
  destruct (_ && _); [rune_case|]. destruct (code a =? 224); [rune_case|]. destruct (code a =? 237); [rune_case|].
  destruct (_ && _); [rune_case|]. destruct (code a =? 240); [rune_case|]. destruct (_ && _); [rune_case|].
  destruct (code a =? 244); [rune_case|]. done.
Qed.

Lemma valid_fuel_enough f f' s : String.length s < f → String.length s < f' → valid_fuel f s = valid_fuel f' s.
Proof.
  revert f' s. induction f as [|f IH]; intros [|f'] [|c s] Hf Hf'; try (done || lia).
  change (valid_fuel (S f) (String c s)) with (let '(n, ok) := utf8_head (String c s) in ok && valid_fuel f (str_drop n (String c s))).
  change (valid_fuel (S f') (String c s)) with (let '(n, ok) := utf8_head (String c s) in ok && valid_fuel f' (str_drop n (String c s))).
  pose proof (utf8_head_pos c s) as Hp. destruct (utf8_head (String c s)) as [n ok]. cbn [fst] in Hp. f_equal.
  apply IH; rewrite length_str_drop; cbn [String.length] in *; lia.
Qed.

Lemma ValidString_cons c s : ValidString (String c s) =
  (utf8_head (String c s)).2 && ValidString (str_drop (utf8_head (String c s)).1 (String c s)).
Proof.
  unfold ValidString at 1. set (t := String c s).
  change (valid_fuel (S (String.length t)) t) with (let '(n, ok) := utf8_head t in ok && valid_fuel (String.length t) (str_drop n t)).
  pose proof (utf8_head_pos c s) as Hp. fold t in Hp. destruct (utf8_head t) as [n ok]. cbn [fst snd] in *. f_equal.
  apply valid_fuel_enough; rewrite length_str_drop; subst t; cbn [String.length]; lia.
Qed.

(** Any cut of a valid text is at most three bytes past a rune boundary. *)
Lemma boundary_near s m : ValidString s = true → m <= String.length s → ∃ j, j <= 3 ∧ j <= m ∧ ValidString (str_take (m - j) s) = true.
Proof.
  remember (String.length s) as l eqn:Hl. revert s m Hl. induction (lt_wf l) as [l _ IH]. intros s m -> Hv Hm.
  destruct s as [|c s]; [exists 0; cbn in Hm; replace m with 0 by lia; split_and!; [lia..|done]|].
  rewrite ValidString_cons in Hv. apply andb_true_iff in Hv as [Hok Hv].
  pose proof (utf8_head_pos c s) as Hp. destruct (utf8_head (String c s)) as [n ok] eqn:Hh. cbn [fst snd] in *. subst ok.
  destruct (decide (m < n)) as [Hlt|Hge]; [exists m; replace (m - m) with 0 by lia; split_and!; [lia..|done]|].
  destruct (IH (String.length (str_drop n (String c s))) ltac:(rewrite length_str_drop; cbn [String.length]; lia)
              (str_drop n (String c s)) (m - n) eq_refl Hv ltac:(rewrite length_str_drop; lia)) as (j & Hj & Hjm & Hvj).
  exists j. split; [done|]. split; [lia|].
  destruct (utf8_head_take (m - j) n (String c s) Hh ltac:(lia)) as [Hh' _].
  destruct (str_take (m - j) (String c s)) as [|c' s'] eqn:Ht; [done|].
  rewrite ValidString_cons, Hh', <- Ht, str_drop_take. cbn [fst snd andb].
  replace (m - j - n) with (m - n - j) by lia. done.
Qed.

(** The loop finds the longest valid prefix within its reach. *)
Lemma drop_split_rune_spec n s : ∃ j, j <= n ∧ j <= String.length s ∧ drop_split_rune n s = str_take (String.length s - j) s ∧
  (∀ i, i < j → ValidString (str_take (String.length s - i) s) = false) ∧
  ((∃ i, i <= n ∧ ValidString (str_take (String.length s - i) s) = true) → ValidString (drop_split_rune n s) = true).
Proof.
  revert s. induction n as [|n IH]; intros s.
  - exists 0. rewrite Nat.sub_0_r, str_take_all. split_and!; [lia|lia|done|by intros i Hi; lia|].
    intros (i & Hi & Hv). by replace i with 0 in Hv by lia; rewrite Nat.sub_0_r, str_take_all in Hv.
  - cbn [drop_split_rune]. destruct (str_eqb s nostr || ValidString s) eqn:Hstop.
    + exists 0. rewrite Nat.sub_0_r, str_take_all. split_and!; [lia|lia|done|by intros i Hi; lia|]. intros _.
      apply orb_true_iff in Hstop as [He|Hv]; [by apply str_eqb_true in He as ->|done].
    + apply orb_false_iff in Hstop as [Hne Hnv]. assert (Hpos : 0 < String.length s) by (destruct s; [done|cbn; lia]).
      set (t := str_take (String.length s - 1) s). assert (Hlen : String.length t = String.length s - 1) by (apply length_str_take; lia).
      assert (Htake : ∀ i, str_take (String.length t - i) t = str_take (String.length s - S i) s).
      { intros i. rewrite Hlen. unfold t. rewrite str_take_take by lia. f_equal. lia. }
      destruct (IH t) as (j & Hjn & Hjl & He & Hmax & Hv). exists (S j). rewrite Htake in He.
      split_and!; [lia|lia|done| |].
      * intros [|i] Hi; [by rewrite Nat.sub_0_r, str_take_all|]. rewrite <- Htake. apply Hmax. lia.
      * intros ([|i] & Hi & Hvi); [rewrite Nat.sub_0_r, str_take_all in Hvi; congruence|]. apply Hv. exists i. split; [lia|by rewrite Htake].
Qed.

Lemma TextPrefix_prefix s max : (0 < max)%Z → ∃ rest, s = TextPrefix s max +:+ rest.
Proof.
  intros Hmax. unfold TextPrefix. destruct (_ || _) eqn:Hfit; [exists nostr; by rewrite str_app_nil_r|].
  assert (Hm : Z.to_nat max < String.length s) by lia. set (m := Z.to_nat max) in *.
  destruct (drop_split_rune_spec 3 (str_take m s)) as (j & _ & _ & He & _). rewrite length_str_take in He by lia.
  rewrite He, str_take_take by lia.
  eexists. by rewrite str_take_drop.
Qed.

Lemma TextPrefix_length s max : (0 < max)%Z → (Z.of_nat (String.length (TextPrefix s max)) <= max)%Z.
Proof.
  intros Hmax. unfold TextPrefix. destruct (_ || _) eqn:Hfit; [lia|].
  assert (Hm : Z.to_nat max < String.length s) by lia. set (m := Z.to_nat max) in *.
  destruct (drop_split_rune_spec 3 (str_take m s)) as (j & _ & _ & He & _). rewrite length_str_take in He by lia.
  rewrite He, str_take_take, length_str_take by lia. lia.
Qed.

(** A capped preview: [TextPrefix] answers a prefix of the text of at most
    [max] bytes, the text itself when it fits; of a valid UTF-8 text it answers
    valid UTF-8, the longest such prefix within the cap, and so at most three
    bytes short of it. *)
Theorem TextPrefix_bounds s max : (0 < max)%Z →
  let t := TextPrefix s max in
  (∃ rest, s = t +:+ rest ∧ (rest = nostr ↔ Z.of_nat (String.length s) <= max)%Z) ∧
  (Z.of_nat (String.length t) <= max)%Z ∧
  (ValidString s = true →
     ValidString t = true ∧
     (∀ n, (Z.of_nat n <= max)%Z → n <= String.length s → ValidString (str_take n s) = true → n <= String.length t) ∧
     (Z.of_nat (String.length s) <= max ∨ max - 3 <= Z.of_nat (String.length t))%Z).
Proof.
  intros Hmax. cbv zeta. unfold TextPrefix. destruct (max <=? 0)%Z eqn:H0'; [lia|]. cbn [orb].
  destruct (Z.of_nat (String.length s) <=? max)%Z eqn:Hfit.
  { split_and!; [exists nostr; rewrite str_app_nil_r; split; [done|]; split; [lia|done]|lia|]. intros Hv. split_and!; [done|lia|left; lia]. }
  assert (Hm : Z.to_nat max < String.length s) by lia. set (m := Z.to_nat max) in *.
  assert (Hlen : String.length (str_take m s) = m) by (apply length_str_take; lia).
  destruct (drop_split_rune_spec 3 (str_take m s)) as (j & Hj & Hjl & He & Hlong & Hvalid). rewrite Hlen in *.
  assert (Htake : ∀ i, str_take (m - i) (str_take m s) = str_take (m - i) s) by (intros i; apply str_take_take; lia).
  rewrite Htake in He. rewrite He in *. rewrite length_str_take by lia.
  split_and!.
  - exists (str_drop (m - j) s). rewrite str_take_drop. split; [done|]. split; [|lia]. intros Hr.
    apply (f_equal String.length) in Hr. rewrite length_str_drop in Hr. cbn in Hr. lia.
  - lia.
  - intros Hv. split_and!; [| |right; lia].
    + apply Hvalid. destruct (boundary_near s m Hv ltac:(lia)) as (i & Hi & _ & Hvi). exists i. by rewrite Htake.
    + intros n Hn Hns Hvn. destruct (decide (n <= m - j)) as [|Hgt]; [done|]. exfalso.
      pose proof (Hlong (m - n) ltac:(lia)) as Hf. rewrite Htake in Hf. replace (m - (m - n)) with n in Hf by lia. congruence.
Qed.

Lemma TextPrefix_bounds_witness :
  let t := TextPrefix (byte_str 97 +:+ byte_str 226 +:+ byte_str 130 +:+ byte_str 172) 3 in
  t = byte_str 97 ∧ ValidString t = true.
Proof.
  split; [vm_compute; reflexivity|].
  apply (TextPrefix_bounds (byte_str 97 +:+ byte_str 226 +:+ byte_str 130 +:+ byte_str 172) 3 ltac:(lia)).
  vm_compute. reflexivity.
Defined.
