(* ===== verification/ServiceContent.v ===== *)
(** * Contents read and written back by the service

    Models [internal/service/content.go]: what a single-object read
    ([resolveContent]) and a list ([previewContent]) show of an object whose
    content is in the blob store, and the row a write of such an object stores
    ([storable]). *)

From S2P Require Import Prelude GoStrings Objects Classes Contact Projection JobStore ObjectDB EdgeDB Encodings Blobs BlobText.

Definition MetaContentTruncated : string := "content_truncated".
Definition defaultPreviewBytes : Z := 65536.

(** [m, _ := meta[k].(bool)] *)
Definition meta_flag (meta : gmap string Any) (k : string) : bool :=
  match meta !! k with Some (ABool b) => b | _ => false end.

Definition hasBlobRef (obj : KnowledgeObject) : bool := IsBlobRef (koRawContent obj) || IsBlobRef (koTextContent obj).

(** [store]: whether a blob store is configured. *)
Definition resolveContent (store : bool) (obj : KnowledgeObject) : Prog (result Fault KnowledgeObject) :=
  if negb (hasBlobRef obj) then Ret (Ok obj)
  else
    try_ (Content store (koRawContent obj))
      (λ raw,
         try_ (Content store (koTextContent obj))
           (λ text,
              if meta_flag (koMetadata obj) BlobMetaTextTruncated || str_eqb text nostr
              then Ret (Ok (with_content obj raw raw (delete BlobMetaTextTruncated (koMetadata obj))))
              else Ret (Ok (with_content obj raw text (koMetadata obj))))
           (λ e, Ret (Err e)))
      (λ e, Ret (Err e)).

Definition previewBytes (threshold : Z) : Z := if (0 <? threshold)%Z then threshold else defaultPreviewBytes.

(** One object of a list, then the list. *)
Definition preview_one (store : bool) (threshold : Z) (obj : KnowledgeObject) : Prog (result Fault KnowledgeObject) :=
  if negb (hasBlobRef obj) then Ret (Ok obj)
  else
    try_ (Preview store (koRawContent obj) (previewBytes threshold))
      (λ raw,
         try_ (Preview store (koTextContent obj) (previewBytes threshold))
           (λ text,
              Ret (Ok (with_content obj raw.1 text.1
                (if raw.2 || text.2 then <[MetaContentTruncated := ABool true]> (koMetadata obj) else koMetadata obj))))
           (λ e, Ret (Err e)))
      (λ e, Ret (Err e)).

Fixpoint previewContent (store : bool) (threshold : Z) (objs : list KnowledgeObject) :
    Prog (result Fault (list KnowledgeObject)) :=
  match objs with
  | [] => Ret (Ok [])
  | obj :: objs =>
      try_ (preview_one store threshold obj)
        (λ obj, try_ (previewContent store threshold objs) (λ objs, Ret (Ok (obj :: objs))) (λ e, Ret (Err e)))
        (λ e, Ret (Err e))
  end.

Section storable.
Context `{GoUnicode} `{GoCrypto}.

Definition storable (store : bool) (threshold : Z) (obj : KnowledgeObject) (blobs : BlobContent) :
    Prog (result Fault (KnowledgeObject * BlobContent)) :=
  let textTruncated := meta_flag (koMetadata obj) BlobMetaTextTruncated in
  let meta := delete BlobMetaTextTruncated (koMetadata obj) in
  if meta_flag meta MetaContentTruncated then
    match meta !! "blob_key"%string ≫= any_string with
    | Some key =>
        if str_eqb key nostr then Ret (Err (CallFailed "truncated preview with no blob_key"))
        else
          let meta := if textTruncated || str_eqb (koTextContent obj) (koRawContent obj)
                      then <[BlobMetaTextTruncated := ABool true]> meta else meta in
          Ret (Ok (with_content obj (BlobRefFor key) (koTextContent obj) (delete MetaContentTruncated meta), blobs))
    | None => Ret (Err (CallFailed "truncated preview with no blob_key"))
    end
  else
    let meta := delete MetaContentTruncated meta in
    if (threshold <=? 0)%Z || negb store || IsBlobRef (koRawContent obj)
       || (Z.of_nat (String.length (koRawContent obj)) <=? threshold)%Z
    then
      let meta := if textTruncated && IsBlobRef (koRawContent obj) then <[BlobMetaTextTruncated := ABool true]> meta else meta in
      Ret (Ok (with_content obj (koRawContent obj) (koTextContent obj) meta, blobs))
    else Externalize threshold (with_content obj (koRawContent obj) (koTextContent obj) meta) blobs.

(** ** What is read can be written back *)
Context `{GoEncodings} `{GoColumns}.

Definition clear_flags (d : KnowledgeObject) : Prop :=
  koMetadata d !! BlobMetaTextTruncated = None ∧ koMetadata d !! MetaContentTruncated = None.

(** The row the externalizer makes of a draft above the threshold. *)
Definition is_text (d : KnowledgeObject) : bool :=
  str_eqb (koTextContent d) nostr || str_eqb (koTextContent d) (koRawContent d).
Definition external_meta (d : KnowledgeObject) (key : string) : gmap string Any :=
  <["blob_content_type"%string := AStr (koContentType d)]>
    (<["blob_original_size"%string := ANum (pretty (Z.of_nat (String.length (koRawContent d))))]>
      (<["blob_key"%string := AStr key]> (koMetadata d))).
Definition external (threshold : Z) (d : KnowledgeObject) : KnowledgeObject :=
  let key := ContentHash (koRawContent d) (koSource d) in
  with_content d (BlobRefFor key)
    (if is_text d then TextPrefix (koRawContent d) threshold else koTextContent d)
    (if is_text d then <[BlobMetaTextTruncated := ABool true]> (external_meta d key) else external_meta d key).

Lemma run_Externalize threshold d blobs w : (0 < threshold < Z.of_nat (String.length (koRawContent d)))%Z →
  let key := ContentHash (koRawContent d) (koSource d) in
  run (Externalize threshold d blobs) w =
    (Ok (external threshold d, <[key := koRawContent d]> blobs),
     set_blobs w (<[key := mkBlob (koRawContent d) (mkBlobMeta (koContentType d) (Z.of_nat (String.length (koRawContent d))) key)
                             (Some (wNow w))]> (wBlobs w))).
Proof.
  intros Ht. cbv zeta. unfold Externalize, external, external_meta, is_text.
  destruct (threshold <=? 0)%Z eqn:Ha; [lia|]. destruct (_ <=? threshold)%Z eqn:Hb; [lia|]. cbn.
  by destruct (str_eqb _ nostr || _).
Qed.

Lemma TextPrefix_inline s max : (0 < max)%Z → IsBlobRef s = false → IsBlobRef (TextPrefix s max) = false.
Proof.
  intros Hm Hs. destruct (IsBlobRef (TextPrefix s max)) eqn:Hb; [|done]. rewrite <- Hs.
  destruct (TextPrefix_prefix s max Hm) as [rest Hr]. symmetry. unfold IsBlobRef in *.
  apply andb_true_iff in Hb as [Hp Hl]. apply andb_true_iff. split; [rewrite Hr; by apply HasPrefix_app_l|].
  apply Nat.ltb_lt. apply Nat.ltb_lt in Hl. apply (f_equal String.length) in Hr. rewrite length_str_app in Hr. lia.
Qed.

(** Reading one of the two contents of the row. *)
Lemma run_inline store s max w : IsBlobRef s = false → run (read_content store s max) w = (Ok (s, false), w).
Proof. intros Hs. unfold read_content, BlobKey. by rewrite Hs. Qed.
Lemma run_blob key b max w : key ≠ nostr → wBlobs w !! key = Some b →
  run (read_content true (BlobRefFor key) max) w =
    (Ok (TextPrefix (bData b) max, negb (str_eqb (TextPrefix (bData b) max) (bData b))), w).
Proof. intros Hk Hb. unfold read_content. rewrite (BlobKey_For _ Hk). cbn. by rewrite Hb. Qed.

Lemma run_seq {A B} (p : Prog A) (f : A → Prog B) w : run (prog_seq p f) w = run (f (run p w).1) (run p w).2.
Proof.
  unfold prog_seq. revert w. induction p as [a|c k IH]; intros w; cbn; [done|]. destruct (exec c w) as [r w']. apply IH.
Qed.
Lemma run_try {A B} (m : Prog (result Fault A)) (ok : A → Prog B) (err : Fault → Prog B) a w w' :
  run m w = (Ok a, w') → run (try_ m ok err) w = run (ok a) w'.
Proof. intros Hm. unfold try_. by rewrite run_seq, Hm. Qed.

Section roundtrip.
Context (threshold : Z) (d : KnowledgeObject) (w : World) (b : BlobEntry).
Let key := ContentHash (koRawContent d) (koSource d).
Context (Ht : (0 < threshold < Z.of_nat (String.length (koRawContent d)))%Z) (Hkey : key ≠ nostr)
  (Hraw : IsBlobRef (koRawContent d) = false) (Htext : IsBlobRef (koTextContent d) = false) (Hclear : clear_flags d)
  (Hb : wBlobs w !! key = Some b) (Hdata : bData b = koRawContent d).

Lemma external_text_inline : IsBlobRef (koTextContent (external threshold d)) = false.
Proof. unfold external. cbn. destruct (is_text d); [apply TextPrefix_inline; [lia|done]|done]. Qed.

Lemma external_flag : meta_flag (koMetadata (external threshold d)) BlobMetaTextTruncated = is_text d.
Proof.
  unfold external, external_meta, meta_flag. cbn. destruct Hclear as [Hf _]. destruct (is_text d); [by rewrite lookup_insert_eq|].
  rewrite !lookup_insert_ne by done. by rewrite Hf.
Qed.

Lemma external_meta_flags f : f = BlobMetaTextTruncated ∨ f = MetaContentTruncated → external_meta d key !! f = None.
Proof. unfold external_meta. destruct Hclear as [H1' H2']. intros [->| ->]; by rewrite !lookup_insert_ne. Qed.

Lemma external_ref : koRawContent (external threshold d) = BlobRefFor key ∧ hasBlobRef (external threshold d) = true.
Proof. split; [done|]. unfold hasBlobRef. change (koRawContent (external threshold d)) with (BlobRefFor key). by rewrite (IsBlobRef_For _ Hkey). Qed.

Definition resolved : KnowledgeObject :=
  with_content d (koRawContent d) (if is_text d then koRawContent d else koTextContent d) (external_meta d key).

Lemma run_resolve : run (resolveContent true (external threshold d)) w = (Ok resolved, w).
Proof.
  unfold resolveContent. destruct external_ref as [Href ->]. cbn [negb]. unfold Content.
  erewrite (run_try _ _ _ (koRawContent d) w w).
  2: { rewrite run_seq, Href, (run_blob key b (-1) w Hkey Hb). cbn. unfold TextPrefix. by rewrite Hdata. }
  erewrite (run_try _ _ _ (koTextContent (external threshold d)) w w).
  2: { rewrite run_seq, (run_inline true _ (-1) w external_text_inline). done. }
  rewrite external_flag. unfold resolved, external. destruct (is_text d) eqn:Hi; cbn [orb run koTextContent with_content koMetadata].
  - repeat f_equal. apply delete_insert_id. apply external_meta_flags. by left.
  - unfold is_text in Hi. apply orb_false_iff in Hi as [-> _]. done.
Qed.

Lemma external_meta_again x : koContentType x = koContentType d → koRawContent x = koRawContent d →
  koMetadata x = external_meta d key → external_meta x key = external_meta d key.
Proof.
  intros Ht' Hr Hm. unfold external_meta at 1. rewrite Ht', Hr, Hm.
  assert (Hin : ∀ k v, external_meta d key !! k = Some v → <[k := v]> (external_meta d key) = external_meta d key)
    by (intros k v; apply insert_id).
  unfold external_meta in Hin |- *. rewrite Hin by by rewrite !lookup_insert_ne by done; rewrite lookup_insert_eq.
  rewrite Hin by by rewrite lookup_insert_ne by done; rewrite lookup_insert_eq.
  apply Hin. by rewrite lookup_insert_eq.
Qed.

(** The content read whole, externalized again, is the row it was read from. *)
Lemma external_again : external threshold resolved = external threshold d.
Proof.
  assert (Hx : external_meta resolved key = external_meta d key) by by apply external_meta_again.
  assert (Hi : is_text resolved = is_text d).
  { unfold is_text at 1. cbn [resolved koTextContent koRawContent with_content]. destruct (is_text d) eqn:Hi; [|exact Hi].
    by rewrite str_eqb_refl, orb_true_r. }
  unfold external. rewrite Hi. change (koSource resolved) with (koSource d). change (koRawContent resolved) with (koRawContent d).
  fold key. rewrite Hx. unfold resolved. by destruct (is_text d).
Qed.

Lemma run_storable_resolved blobs :
  (run (storable true threshold resolved blobs) w).1 = Ok (external threshold d, <[key := koRawContent d]> blobs).
Proof.
  unfold storable, meta_flag. change (koMetadata resolved) with (external_meta d key).
  change (koRawContent resolved) with (koRawContent d).
  rewrite lookup_delete_ne, !external_meta_flags by auto. rewrite Hraw. cbn [negb orb].
  destruct (threshold <=? 0)%Z eqn:Ha; [lia|]. destruct (_ <=? threshold)%Z eqn:Hl; [lia|]. cbn [orb].
  rewrite !delete_id by (rewrite ?lookup_delete_ne by done; apply external_meta_flags; auto).
  change (with_content resolved (koRawContent d) (koTextContent resolved) (external_meta d key)) with resolved.
  rewrite run_Externalize by done. cbn [fst]. rewrite external_again. done.
Qed.

Lemma unflagged (M : gmap string Any) : M !! MetaContentTruncated = None →
  delete MetaContentTruncated (<[BlobMetaTextTruncated := ABool true]> (delete BlobMetaTextTruncated
    (<[MetaContentTruncated := ABool true]> (<[BlobMetaTextTruncated := ABool true]> M)))) = <[BlobMetaTextTruncated := ABool true]> M.
Proof.
  intros Hm. apply map_eq. intros i. destruct (decide (i = MetaContentTruncated)) as [->|Hc].
  { rewrite lookup_delete_eq. by rewrite lookup_insert_ne. }
  rewrite lookup_delete_ne by done. destruct (decide (i = BlobMetaTextTruncated)) as [->|Ht']; [by rewrite !lookup_insert_eq|].
  rewrite lookup_insert_ne by done. rewrite lookup_delete_ne by done. by rewrite lookup_insert_ne.
Qed.
Lemma unflagged_plain (M : gmap string Any) : M !! MetaContentTruncated = None → M !! BlobMetaTextTruncated = None →
  delete MetaContentTruncated (delete BlobMetaTextTruncated (<[MetaContentTruncated := ABool true]> M)) = M.
Proof.
  intros Hc Ht'. apply map_eq. intros i. destruct (decide (i = MetaContentTruncated)) as [->|Hic]; [by rewrite lookup_delete_eq|].
  rewrite lookup_delete_ne by done. destruct (decide (i = BlobMetaTextTruncated)) as [->|Hit]; [by rewrite lookup_delete_eq|].
  rewrite lookup_delete_ne by done. by rewrite lookup_insert_ne.
Qed.

(** A list's preview: the content is always cut, the text is whole. *)
Definition previewed : KnowledgeObject :=
  with_content (external threshold d) (TextPrefix (koRawContent d) threshold) (koTextContent (external threshold d))
    (<[MetaContentTruncated := ABool true]> (koMetadata (external threshold d))).

Lemma run_preview : run (preview_one true threshold (external threshold d)) w = (Ok previewed, w).
Proof.
  unfold preview_one. destruct external_ref as [Href ->]. cbn [negb]. unfold Preview, previewBytes.
  destruct (0 <? threshold)%Z eqn:Hp; [|lia].
  assert (Hcut : negb (str_eqb (TextPrefix (koRawContent d) threshold) (koRawContent d)) = true).
  { destruct (str_eqb _ _) eqn:He; [|done]. apply str_eqb_true, (f_equal String.length) in He.
    pose proof (TextPrefix_length (koRawContent d) threshold ltac:(lia)). lia. }
  erewrite (run_try _ _ _ (TextPrefix (koRawContent d) threshold, true) w w).
  2: { by rewrite Href, (run_blob key b threshold w Hkey Hb), Hdata, Hcut. }
  erewrite (run_try _ _ _ (koTextContent (external threshold d), false) w w); [done|].
  by rewrite (run_inline true _ threshold w external_text_inline).
Qed.

Lemma run_storable_previewed blobs : ∃ row,
  run (storable true threshold previewed blobs) w = (Ok (row, blobs), w) ∧
  koRawContent row = koRawContent (external threshold d) ∧ koTextContent row = koTextContent (external threshold d) ∧
  (koTextContent d ≠ TextPrefix (koRawContent d) threshold → row = external threshold d).
Proof.
  set (o := external threshold d). set (M := koMetadata o).
  assert (Hflag : meta_flag (koMetadata previewed) BlobMetaTextTruncated = is_text d).
  { pose proof external_flag as Hf. unfold meta_flag in *. cbn. by rewrite lookup_insert_ne. }
  assert (Hcut : meta_flag (delete BlobMetaTextTruncated (koMetadata previewed)) MetaContentTruncated = true).
  { unfold meta_flag. rewrite lookup_delete_ne by done. cbn. by rewrite lookup_insert_eq. }
  assert (Hk : delete BlobMetaTextTruncated (koMetadata previewed) !! "blob_key"%string = Some (AStr key)).
  { rewrite lookup_delete_ne by done. cbn. rewrite lookup_insert_ne by done.
    destruct (is_text d); unfold external_meta; rewrite !lookup_insert_ne by done; by rewrite lookup_insert_eq. }
  unfold storable. rewrite Hflag, Hcut, Hk. cbn [mbind option_bind any_string].
  destruct (str_eqb key nostr) eqn:He; [by apply str_eqb_true in He|]. cbn [run]. eexists. split; [done|]. split_and!; [done|done|].
  intros Hne. unfold o, external. cbn [koTextContent with_content previewed koRawContent koMetadata external].
  destruct (is_text d) eqn:Hi; cbn [orb].
  - change (with_content d (BlobRefFor key) (TextPrefix (koRawContent d) threshold) (<[BlobMetaTextTruncated := ABool true]> (external_meta d key)))
      with (with_content previewed (BlobRefFor key) (TextPrefix (koRawContent d) threshold) (<[BlobMetaTextTruncated := ABool true]> (external_meta d key))).
    f_equal. apply unflagged. apply external_meta_flags. by right.
  - assert (str_eqb (koTextContent d) (TextPrefix (koRawContent d) threshold) = false) as ->
      by (apply not_true_iff_false; intros Hx; by apply Hne, str_eqb_true).
    change (with_content d (BlobRefFor key) (koTextContent d) (external_meta d key))
      with (with_content previewed (BlobRefFor key) (koTextContent d) (external_meta d key)).
    f_equal. apply unflagged_plain; apply external_meta_flags; auto.
Qed.
End roundtrip.

(** C36. Content survives a read and a write.  A draft above the threshold is
    externalized; of the row that makes, a single-object read gives back the
    whole content, and a list gives a preview of at most the threshold.  Written
    back, either is stored as that row again: no content is inlined, cut or
    lost (a text that is the preview itself is taken for one). *)
Theorem content_roundtrip threshold d w :
  let key := ContentHash (koRawContent d) (koSource d) in
  (0 < threshold < Z.of_nat (String.length (koRawContent d)))%Z → key ≠ nostr →
  IsBlobRef (koRawContent d) = false → IsBlobRef (koTextContent d) = false → clear_flags d →
  ∃ o w', run (Externalize threshold d ∅) w = (Ok (o, {[ key := koRawContent d ]}), w') ∧
  (∃ o', run (resolveContent true o) w' = (Ok o', w') ∧ koRawContent o' = koRawContent d ∧
     koTextContent o' = (if is_text d then koRawContent d else koTextContent d) ∧
     (run (storable true threshold o' ∅) w').1 = Ok (o, {[ key := koRawContent d ]})) ∧
  (∃ o' row, run (preview_one true threshold o) w' = (Ok o', w') ∧
     (Z.of_nat (String.length (koRawContent o')) <= threshold)%Z ∧
     run (storable true threshold o' ∅) w' = (Ok (row, ∅), w') ∧
     koRawContent row = koRawContent o ∧ koTextContent row = koTextContent o ∧
     (koTextContent d ≠ TextPrefix (koRawContent d) threshold → row = o)).
Proof.
  intros key Ht Hkey Hraw Htext Hclear. eexists _, _. split; [by apply run_Externalize|].
  set (b := mkBlob _ _ _). set (w' := set_blobs w _).
  assert (Hb : wBlobs w' !! key = Some b) by (unfold w'; cbn; by rewrite lookup_insert_eq).
  split.
  - exists (resolved d). split; [by apply (run_resolve threshold d w' b)|]. split; [done|]. split; [done|].
    by apply (run_storable_resolved threshold d w').
  - destruct (run_storable_previewed threshold d w' Hkey Hclear ∅) as (row & Hrun & Hrest).
    exists (previewed threshold d), row. split; [by apply (run_preview threshold d w' b)|].
    split; [apply TextPrefix_length; lia|]. done.
Qed.
End storable.

(** ** A concrete draft *)
#[local] Instance plain_columns : GoColumns := {|
  json_map := Some; json_sections := Some; json_graph := Some; json_text := λ s, s;
  uri_Parse := Some; uri_String := λ s n i, (s +:+ "://" +:+ n +:+ "/" +:+ i)%string |}.
#[local] Instance decimal_times : GoEncodings := {|
  Format := λ t, pretty t; ParseTime := λ _, 0%Z; MarshalStrings := λ _, nostr; UnmarshalStrings := λ _, None |}.
#[local] Instance ascii_unicode : GoUnicode := {| uc_to_lower := λ s, s; uc_is_letter := λ _, false; uc_is_digit := λ _, false |}.
#[local] Instance id_crypto : GoCrypto := {| SHA256 s := s |}.

Definition draft : KnowledgeObject :=
  mkKO "n-1" "note" nostr "Some long text" nostr "text/plain" ∅ [] [] [] [] [] [] nostr "cli" [] nostr nostr nostr
    nostr 1 None None None 0 0 false nostr [] [] None.

Lemma content_roundtrip_witness :
  let w := mkWorld (mkObjDB [] 0 ∅ ∅ ∅ []) [] ∅ ∅ 0 in
  ∃ o w', run (Externalize 4 draft ∅) w = (Ok (o, {[ ContentHash (koRawContent draft) (koSource draft) := "Some long text"%string ]}), w') ∧
  ∃ o', run (resolveContent true o) w' = (Ok o', w') ∧ koRawContent o' = "Some long text"%string.
Proof.
  intros w. destruct (content_roundtrip 4 draft w) as (o & w' & Hext & (o' & Hread & Hraw & _) & _).
  - vm_compute. by split.
  - vm_compute. discriminate.
  - vm_compute. reflexivity.
  - vm_compute. reflexivity.
  - split; vm_compute; reflexivity.
  - exists o, w'. split; [exact Hext|]. exists o'. split; [exact Hread|exact Hraw].
Defined.
