(* ===== verification/BlobSafety.v ===== *)
(** * No stored row is left without its blob

    Deletes, updates, sweeps and ingests of the same blob interleave call by
    call, and a call can fail.  The argument is a ghost debt: a program owes the
    keys it may have left rows of without a blob (it deleted the blob, or wrote
    a row that refers to it) until it sees the blob there, puts it back, or sees
    that no row refers to it.  [wp] says what a program owes at its end; a
    program that owes nothing, or reports what it owes, can run among any others
    of its kind. *)

From S2P Require Import Prelude GoStrings Objects Classes Contact Projection JobStore ObjectDB EdgeDB ObjectSafety Encodings Blobs.

(** The keys a stored object's content refers to. *)
Definition refs (o : KnowledgeObject) : gset string := list_to_set (content_keys o).

Lemma elem_of_refs o k : k ∈ refs o ↔ k ≠ nostr ∧ (koRawContent o = BlobRefFor k ∨ koTextContent o = BlobRefFor k).
Proof.
  unfold refs, content_keys. rewrite elem_of_list_to_set, list_elem_of_omap. split.
  - intros (x & Hx & [-> Hk]%BlobKey_some). split; [done|].
    apply elem_of_cons in Hx as [->|[->|Hx]%elem_of_cons]; [by left|by right|by apply not_elem_of_nil in Hx].
  - intros [Hk [He|He]]; exists (BlobRefFor k); (split; [rewrite <- He|by apply BlobKey_some]); [left|right; left].
Qed.

(** ** The replies a call can give *)
Section possible.
Context `{GoEncodings} `{GoColumns}.

(** The object a write answers with. *)
Definition possible (c : Call) : reply c → Prop :=
  match c return reply c → Prop with
  | Obj_Create o => λ r, match r with Ok o' => o' = obj_defaults o | Err _ => True end
  | Obj_Update o => λ r, match r with Ok o' => content_keys o' = content_keys o ∧ koID o' = koID o ∧ Keys o' = Keys o | Err _ => True end
  | _ => λ _, True
  end.

(** The debt after a call and its reply.  A call that failed may have had its
    effect all the same. *)
Definition owed (D : gset string) (c : Call) : reply c → gset string :=
  match c return reply c → gset string with
  | Obj_Create o => λ _, D ∪ refs (obj_defaults o)
  | Obj_Update o => λ _, D ∪ refs o
  | Blobs_Delete key => λ _, D ∪ {[ key ]}
  | Blobs_Put key _ _ => λ r, match r with Ok _ => D ∖ {[ key ]} | Err _ => D end
  | Blobs_Exists key => λ r, match r with Ok true => D ∖ {[ key ]} | _ => D end
  | Obj_CountBlobRefs key => λ r, match r with Ok 0%Z => D ∖ {[ key ]} | _ => D end
  | _ => λ _, D
  end.

(** What holds of the answer and the debt when the program ends, whatever the
    replies on the way. *)
Fixpoint wp {A} (p : Prog A) (D : gset string) (Q : A → gset string → Prop) : Prop :=
  match p with
  | Ret a => Q a D
  | Vis c k => ∀ r, possible c r → wp (k r) (owed D c r) Q
  end.

Lemma wp_mono {A} (p : Prog A) D (Q R : A → gset string → Prop) : (∀ a E, Q a E → R a E) → wp p D Q → wp p D R.
Proof. intros HQR. revert D. induction p as [a|c k IH]; intros D; cbn; [auto|]. intros Hw r Hr. apply IH, Hw, Hr. Qed.

Lemma wp_seq {A B} (p : Prog A) (f : A → Prog B) D Q : wp p D (λ a E, wp (f a) E Q) → wp (prog_seq p f) D Q.
Proof. unfold prog_seq. revert D. induction p as [a|c k IH]; intros D; cbn; [done|]. intros Hw r Hr. apply IH, Hw, Hr. Qed.

Lemma wp_call (c : Call) D Q : (∀ r, possible c r → Q r (owed D c r)) → wp (call c) D Q.
Proof. done. Qed.

Lemma wp_try {A B} (m : Prog (result Fault A)) (ok : A → Prog B) (err : Fault → Prog B) D Q :
  wp m D (λ r E, match r with Ok a => wp (ok a) E Q | Err e => wp (err e) E Q end) → wp (try_ m ok err) D Q.
Proof. intros Hm. apply wp_seq. eapply wp_mono; [|exact Hm]. by intros []. Qed.

Lemma wp_ret {A} (a : A) D (Q : A → gset string → Prop) : Q a D → wp (Ret a) D Q.
Proof. done. Qed.

(** ** The operations' debts *)

(** [remove] owes its key only when it fails. *)
Lemma wp_remove key D :
  wp (remove_blob key) D (λ r E, match r with Ok _ => E ⊆ D | Err _ => E ⊆ D ∪ {[ key ]} end).
Proof.
  unfold remove_blob. apply wp_seq, wp_call. intros [[data meta]|e] _; cbn [owed].
  2: destruct e; apply wp_ret; set_solver.
  apply wp_try, wp_call. intros [[]|e] _; cbn [owed]; [|apply wp_ret; set_solver].
  apply wp_seq, wp_call. intros [n|e] _; cbn [owed].
  - assert (Hput : ∀ E, E ⊆ D ∪ {[key]} →
      wp (try_ (call (Blobs_Put key data meta)) (λ _, Ret (Ok false)) (λ e, Ret (Err (PutBackFault key e)))) E
         (λ (r : result Fault bool) E, match r with Ok _ => E ⊆ D | Err _ => E ⊆ D ∪ {[ key ]} end)).
    { intros E HE. apply wp_try, wp_call. intros [[]|e] _; cbn [owed]; apply wp_ret; set_solver. }
    destruct n as [|p|p]; [apply wp_ret; set_solver| |]; (apply Hput; set_solver).
  - apply wp_try, wp_call. intros [[]|e'] _; cbn [owed]; apply wp_ret; set_solver.
Qed.

Lemma wp_older key D : wp (olderThanGrace key) D (λ _ E, E ⊆ D).
Proof.
  unfold olderThanGrace. apply wp_try, wp_call. intros [items|e] _; cbn [owed]; [|by apply wp_ret].
  destruct (List.find _ items) as [[k [t|]]|]; [|by apply wp_ret..]. apply wp_seq, wp_call. intros now _. by apply wp_ret.
Qed.

Lemma wp_deleteUnreferenced store key D :
  wp (deleteUnreferenced store key) D (λ r E, match r with Ok _ => E ⊆ D | Err _ => E ⊆ D ∪ {[ key ]} end).
Proof.
  unfold deleteUnreferenced. apply wp_try, wp_call. intros [n|e] _; [|apply wp_ret; set_solver].
  assert (HE : owed D (Obj_CountBlobRefs key) (Ok n) ⊆ D) by (cbn; destruct n; set_solver).
  destruct (0 <? n)%Z; [by apply wp_ret|]. destruct (negb store); [apply wp_ret; set_solver|].
  apply wp_try. eapply wp_mono; [|apply wp_older]. intros [old|e] E HE'; [|apply wp_ret; set_solver].
  destruct (negb old); [apply wp_ret; set_solver|]. apply wp_seq. eapply wp_mono; [|apply wp_remove].
  intros [b|e] E' HE''; apply wp_ret; cbn; set_solver.
Qed.

Definition named (orphans : list (string * Fault)) : gset string := list_to_set (map fst orphans).

Lemma named_snoc orphans key (e : Fault) : named (orphans ++ [(key, e)]) = named orphans ∪ {[ key ]}.
Proof. unfold named. rewrite map_app, list_to_set_app_L. cbn. by rewrite union_empty_r_L. Qed.

Lemma wp_free_keys store keys orphans D :
  wp (free_keys store keys orphans) D (λ d E, dnErr d = None ∧ E ⊆ D ∪ named (dnOrphans d) ∧ named orphans ⊆ named (dnOrphans d)).
Proof.
  revert orphans D. induction keys as [|key keys IH]; intros orphans D; cbn [free_keys]; [apply wp_ret; set_solver|].
  apply wp_seq. eapply wp_mono; [|apply wp_deleteUnreferenced]. intros [u|e] E HE.
  - eapply wp_mono; [|apply IH]. intros d E' (? & ? & ?). split; [done|]. split; [set_solver|done].
  - eapply wp_mono; [|apply IH]. intros d E' (? & ? & Hn). split; [done|].
    rewrite named_snoc in Hn. set_solver.
Qed.

(** An operation that writes an object referring to [W], and has no content for
    [N] of them, settles its debt: it names the blobs it could not settle, and
    owes its own references only when it answers with an error, and [N]. *)
Definition settled (W N : gset string) (d : Done) (E : gset string) : Prop :=
  E ⊆ named (dnOrphans d) ∪ N ∪ match dnErr d with Some _ => W | None => ∅ end.
Definition settles (W N : gset string) (p : Prog Done) : Prop := wp p ∅ (settled W N).

Lemma settled_fails (W N : gset string) e (E : gset string) : E ⊆ W → settled W N (fails e) E.
Proof. unfold settled. cbn. set_solver. Qed.

Lemma refs_Keys o k : k ∈ refs o → k ∈ Keys o.
Proof.
  assert (Hmono : ∀ l acc x, x ∈ acc → x ∈ fold_left add_key l acc).
  { induction l as [|y l IH]; intros acc x Hx; [done|]. cbn. apply IH. unfold add_key.
    destruct (_ || _); [done|]. apply elem_of_app. by left. }
  assert (Hadd : ∀ l acc x, x ≠ nostr → x ∈ l → x ∈ fold_left add_key l acc).
  { induction l as [|y l IH]; intros acc x Hne Hx; [by apply not_elem_of_nil in Hx|]. cbn.
    apply elem_of_cons in Hx as [->|Hx]; [|by apply IH]. apply Hmono. unfold add_key.
    destruct (str_eqb y nostr) eqn:Hy; [by apply str_eqb_true in Hy|]. destruct (contains acc y) eqn:Hc; [by apply contains_true|].
    apply elem_of_app. right. by left. }
  intros Hk. apply Hadd.
  - by apply elem_of_refs in Hk as [? _].
  - apply elem_of_app. left. by apply elem_of_list_to_set in Hk.
Qed.

Lemma wp_ensure_keys obj blobs keys D :
  wp (ensure_keys obj blobs keys) D
    (λ r E, E ⊆ D ∧ match r with Ok _ => ∀ k, k ∈ keys → is_Some (blobs !! k) → k ∉ E | Err _ => True end).
Proof.
  revert D. induction keys as [|key keys IH]; intros D; cbn [ensure_keys].
  - apply wp_ret. split; [done|]. by intros k Hk%not_elem_of_nil.
  - destruct (blobs !! key) as [content|] eqn:Hb.
    + assert (Hgo : ∀ E, E ⊆ D ∖ {[key]} → wp (ensure_keys obj blobs keys) E
        (λ r E, E ⊆ D ∧ match r with Ok _ => ∀ k, k ∈ key :: keys → is_Some (blobs !! k) → k ∉ E | Err _ => True end)).
      { intros E HE. eapply wp_mono; [|apply IH]. intros [u|e] E' [Hs Hk]; (split; [set_solver|]); [|done].
        intros k [->|Hin]%elem_of_cons Hsome; [set_solver|by apply Hk]. }
      apply wp_try, wp_call. intros [[|]|e] _; cbn [owed]; [by apply Hgo| |by apply wp_ret].
      apply wp_try, wp_call. intros [[]|e] _; cbn [owed]; [by apply Hgo|by apply wp_ret].
    + eapply wp_mono; [|apply IH]. intros [u|e] E [Hs Hk]; (split; [done|]); [|done].
      intros k [->|Hin]%elem_of_cons Hsome; [rewrite Hb in Hsome; by destruct Hsome|by apply Hk].
Qed.

(** The blobs an object refers to whose content its write does not carry. *)
Definition uncarried (obj : KnowledgeObject) (blobs : BlobContent) : gset string := filter (λ k, blobs !! k = None) (refs obj).

Lemma elem_of_uncarried obj blobs k : k ∈ refs obj → k ∈ uncarried obj blobs ∨ is_Some (blobs !! k).
Proof.
  intros Hk. destruct (blobs !! k) as [c|] eqn:Hb; [right; by eexists|left].
  apply elem_of_filter. by split.
Qed.

Lemma wp_Ensure store obj blobs D :
  wp (Ensure store obj blobs) D
    (λ r E, E ⊆ D ∧ match r with Ok _ => ∀ k, k ∈ refs obj → k ∈ E → k ∈ uncarried obj blobs | Err _ => True end).
Proof.
  unfold Ensure. destruct (decide (blobs = ∅)) as [->|Hne].
  - apply wp_ret. split; [done|]. intros k Hk _. destruct (elem_of_uncarried obj ∅ k Hk) as [?|[? Hx]]; [done|].
    unfold BlobContent in *. by rewrite lookup_empty in Hx.
  - destruct (negb store); [by apply wp_ret|]. eapply wp_mono; [|apply wp_ensure_keys].
    intros [u|e] E [Hs Hk]; (split; [done|]); [|done]. intros k Hin HkE.
    destruct (elem_of_uncarried obj blobs k Hin) as [?|Hb]; [done|]. destruct (Hk k); [by apply refs_Keys|done|done].
Qed.

Lemma settles_DeleteObject store id : settles ∅ ∅ (DeleteObject store id).
Proof.
  unfold settles, DeleteObject. apply wp_try, wp_call. intros [obj|e] _; [|by apply wp_ret, settled_fails].
  apply wp_try, wp_call. intros [[]|e] _; [|by apply wp_ret, settled_fails].
  apply wp_try, wp_call. intros [[]|e] _; [|by apply wp_ret, settled_fails].
  eapply wp_mono; [|apply wp_free_keys]. intros d E (_ & HE & _). unfold settled. cbn [owed] in HE. set_solver.
Qed.

Lemma settles_UpdateObject store obj blobs : settles (refs obj) (uncarried obj blobs) (UpdateObject store obj blobs).
Proof.
  unfold settles, UpdateObject. apply wp_try, wp_call. intros [old|e] _; [|by apply wp_ret, settled_fails].
  apply wp_try, wp_call. intros [o|e] Hp; cbn [owed]; [|apply wp_ret, settled_fails; set_solver]. cbn [possible] in Hp.
  apply wp_try. eapply wp_mono; [|apply wp_Ensure].
  assert (Hr : refs o = refs obj) by (unfold refs; by rewrite (proj1 Hp)).
  assert (Hu : uncarried o blobs = uncarried obj blobs) by (unfold uncarried; by rewrite Hr).
  intros [u|e] E [Hs Hno]; [|apply wp_ret, settled_fails; set_solver].
  eapply wp_mono; [|apply wp_free_keys]. intros d E' (_ & HE' & _). unfold settled. rewrite Hu, Hr in Hno. set_solver.
Qed.

Lemma settles_store_draft store draft blobs :
  settles (refs (obj_defaults draft)) (uncarried (obj_defaults draft) blobs) (store_draft store draft blobs).
Proof.
  unfold settles, store_draft. apply wp_try, wp_call.
  intros [o|e] Hp; cbn [owed]; [|apply wp_ret, settled_fails; set_solver].
  cbn [possible] in Hp. subst o. apply wp_try. eapply wp_mono; [|apply wp_Ensure].
  intros [u|e] E [Hs Hno]; apply wp_ret; [|apply settled_fails; set_solver]. unfold settled. set_solver.
Qed.

Definition sweep_done (r : SweepResult * option Fault) : Done := mkDone r.2 (srFailed r.1).

Lemma wp_sweep_items grace now dry items res D :
  wp (sweep_items grace now dry items res) D (λ r E, E ⊆ D ∪ named (srFailed r.1) ∧ named (srFailed res) ⊆ named (srFailed r.1)).
Proof.
  revert res D. induction items as [|[key updated] items IH]; intros res D; cbn [sweep_items]; [apply wp_ret; set_solver|].
  apply wp_try, wp_call. intros [n|e] _; [|apply wp_ret; set_solver].
  assert (HE : owed D (Obj_CountBlobRefs key) (Ok n) ⊆ D) by (cbn; destruct n; set_solver).
  assert (Hgo : ∀ res' E, srFailed res' = srFailed res → E ⊆ D → wp (sweep_items grace now dry items res') E
    (λ r E, E ⊆ D ∪ named (srFailed r.1) ∧ named (srFailed res) ⊆ named (srFailed r.1))).
  { intros res' E Hf Hle. eapply wp_mono; [|apply IH]. intros r E' [? ?]. rewrite <- Hf. split; [set_solver|done]. }
  destruct (0 <? n)%Z; [by apply Hgo|]. destruct (match updated with None => true | _ => _ end); [by apply Hgo|].
  destruct dry; [by apply Hgo|]. apply wp_seq. eapply wp_mono; [|apply wp_remove].
  intros [[|]|e] E HE'; [apply Hgo; [done|set_solver]..|].
  eapply wp_mono; [|apply IH]. intros r E' [Hs Hn]. cbn [srFailed] in Hn. rewrite named_snoc in Hn. split; set_solver.
Qed.

Lemma settles_Sweep store opts : settles ∅ ∅ (prog_seq (Sweep store opts) (λ r, Ret (sweep_done r))).
Proof.
  unfold settles, settled. apply wp_seq. unfold Sweep. destruct (negb store); [apply wp_ret, wp_ret; set_solver|].
  assert (Hgo : ∀ now E, E ⊆ ∅ → wp (try_ (call (Blobs_List nostr))
      (λ items, sweep_items (if (soGrace opts <=? 0)%Z then DefaultSweepGrace else soGrace opts) now (soDryRun opts) items
         (mkSweepResult (Z.of_nat (length items)) [] 0 [])) (λ e, Ret (mkSweepResult 0 [] 0 [], Some e))) E
    (λ a E, wp (Ret (sweep_done a)) E (settled ∅ ∅))).
  { intros now E HE. apply wp_try, wp_call. intros [items|e] _; [|by apply wp_ret, wp_ret, settled_fails].
    eapply wp_mono; [|apply wp_sweep_items]. intros r E' [Hs _]. apply wp_ret. unfold settled, sweep_done. cbn [owed dnOrphans dnErr] in *.
    set_solver. }
  apply wp_seq. destruct (soNow opts) as [t|]; [apply wp_ret; by apply Hgo|]. apply wp_call. intros now _. by apply Hgo.
Qed.

(** ** writeObject of the local pusher *)
Lemma wp_copy_contents source id contents D :
  wp (copy_contents source id contents) D
    (λ r E, E ⊆ D ∧ match r with Ok _ => ∀ c k, c ∈ contents → BlobKey c = Some k → k ∉ E | Err _ => True end).
Proof.
  revert D. induction contents as [|c contents IH]; intros D; cbn [copy_contents].
  - apply wp_ret. split; [done|]. by intros c k Hc%not_elem_of_nil.
  - destruct (BlobKey c) as [key|] eqn:Hk.
    + assert (Hgo : ∀ E, E ⊆ D ∖ {[key]} → wp (copy_contents source id contents) E
        (λ r E, E ⊆ D ∧ match r with Ok _ => ∀ c' k, c' ∈ c :: contents → BlobKey c' = Some k → k ∉ E | Err _ => True end)).
      { intros E HE. eapply wp_mono; [|apply IH]. intros [u|e] E' [Hs Hc]; (split; [set_solver|]); [|done].
        intros c' k [->|Hin]%elem_of_cons Hk'; [|by apply (Hc c')]. assert (k = key) as -> by congruence. set_solver. }
      apply wp_try, wp_call. intros [[|]|e] _; cbn [owed]; [by apply Hgo| |by apply wp_ret].
      destruct (negb source); [by apply wp_ret|].
      apply wp_try, wp_call. intros [dm|e] _; cbn [owed]; [|by apply wp_ret].
      apply wp_try, wp_call. intros [[]|e] _; cbn [owed]; [by apply Hgo|apply wp_ret; split; [set_solver|done]].
    + eapply wp_mono; [|apply IH]. intros [u|e] E [Hs Hc]; (split; [done|]); [|done].
      intros c' k [->|Hin]%elem_of_cons Hk'; [congruence|by apply (Hc c')].
Qed.

Definition write_done (r : result Fault unit) : Done := match r with Ok _ => mkDone None [] | Err e => fails e end.

Lemma settles_writeObject source obj :
  settles (refs (obj_defaults obj)) ∅ (prog_seq (writeObject source obj) (λ r, Ret (write_done r))).
Proof.
  unfold settles. apply wp_seq. unfold writeObject, copyBlobs. apply wp_try.
  eapply wp_mono; [|apply wp_copy_contents]. intros [u|e] E [HE _]; [|apply wp_ret, wp_ret, settled_fails; set_solver].
  apply wp_try, wp_call. intros [o|e] Hp; cbn [owed]; [|apply wp_ret, wp_ret, settled_fails; set_solver].
  eapply wp_mono; [|apply wp_copy_contents].
  intros [u'|e] E' [Hs Hc]; apply wp_ret, wp_ret; [|apply settled_fails; set_solver].
  cbn [possible] in Hp. subst o. intros k Hk. exfalso.
  pose proof (Hs k Hk) as HkD. apply elem_of_union in HkD. destruct HkD as [HkD|HkD]; [set_solver|].
  apply elem_of_list_to_set, list_elem_of_omap in HkD as (c & Hin & Hkey). by apply (Hc c k).
Qed.
End possible.

(** ** What the object store's writes do to the references *)
Definition needed (db : ObjDB) (k : string) : Prop := ∃ r, r ∈ odRows db ∧ k ∈ refs (orObj r).

Section needed.
Context `{GoEncodings} `{GoColumns}.

Lemma create_needed db o o' db' : obj_Create db o = Ok (o', db') →
  o' = obj_defaults o ∧ ∀ k, needed db' k → needed db k ∨ k ∈ refs o'.
Proof.
  unfold obj_Create. intros Hc. apply bind_ok_inv in Hc as ([] & _ & Hc). cbv zeta in Hc.
  destruct (affected _ _); [done|].
  apply bind_ok_inv in Hc as (db1 & H1'%upsert_rows & Hc). apply bind_ok_inv in Hc as (db2 & H2'%insert_rows & Hc).
  injection Hc as <- <-. split; [done|]. intros k (r & Hr & Hk).
  rewrite H2', H1' in Hr. cbn [odRows set_rows fst] in Hr. apply elem_of_app in Hr as [Hr|Hr]; [left; by exists r|].
  apply list_elem_of_singleton in Hr as ->. by right.
Qed.

Lemma update_needed db o o' db' : obj_Update db o = Ok (o', db') →
  (content_keys o' = content_keys o ∧ koID o' = koID o ∧ Keys o' = Keys o) ∧ ∀ k, needed db' k → needed db k ∨ k ∈ refs o.
Proof.
  unfold obj_Update. intros Hc. apply bind_ok_inv in Hc as ([] & _ & Hc). cbv zeta in Hc.
  apply bind_ok_inv in Hc as (db0 & H0'%delete_rows & Hc). destruct (_ && _); [done|]. destruct (negb _); [done|].
  apply bind_ok_inv in Hc as (db1 & H1'%upsert_rows & Hc). apply bind_ok_inv in Hc as (db2 & H2'%insert_rows & Hc).
  injection Hc as <- <-. split; [done|]. intros k (r' & Hr' & Hk).
  rewrite H2', H1' in Hr'. destruct (Forall2_in_r _ _ _ _ (update_by_images _ _ db0) Hr') as (r & Hr & Him).
  rewrite H0' in Hr. destruct Him as [[-> _]|(s & -> & _)]; [left; by exists r|by right].
Qed.

Lemma delete_needed db id db' : obj_Delete db id = Ok db' → ∀ k, needed db' k → needed db k.
Proof.
  unfold obj_Delete. intros Hc. apply bind_ok_inv in Hc as (db0 & H0'%delete_rows & Hc). destruct (negb _); [done|].
  injection Hc as <-. intros k (r & Hr & Hk). cbn [odRows] in Hr. rewrite H0' in Hr. exists r. split; [|done].
  by apply list_elem_of_In, filter_In in Hr as [Hr%list_elem_of_In _].
Qed.

(** The count misses no row. *)
Lemma count_needed db k : obj_CountBlobRefs db k = 0%Z → ¬ needed db k.
Proof.
  unfold obj_CountBlobRefs. intros Hc (r & Hr & Hk). apply elem_of_refs in Hk as [_ Hk].
  assert (Hin : r ∈ List.filter (refers k) (odRows db)).
  { apply list_elem_of_In, filter_In. split; [by apply list_elem_of_In|]. unfold refers.
    destruct Hk as [->| ->]; rewrite str_eqb_refl; [done|]. by rewrite orb_true_r. }
  destruct (List.filter (refers k) (odRows db)); [by apply not_elem_of_nil in Hin|]. cbn in Hc. lia.
Qed.
End needed.

(** ** Operations run together *)
Definition present (w : World) (k : string) : Prop := is_Some (wBlobs w !! k).
(** A row refers to [k] and there is no such blob. *)
Definition missing (w : World) (k : string) : Prop := needed (wObjects w) k ∧ ¬ present w k.
(** Every stored row has the blobs its content refers to. *)
Definition complete (w : World) : Prop := ∀ k, needed (wObjects w) k → present w k.

Section pool.
Context `{GoEncodings} `{GoColumns} `{GoUnicode}.

Definition failed (c : Call) : reply c → Prop :=
  match c return reply c → Prop with
  | Time_Now => λ _, False
  | Obj_Get _ | Obj_Create _ | Obj_Update _ | Obj_Delete _ | Edges_DeleteByObject _ | Obj_CountBlobRefs _
  | Blobs_Get _ | Blobs_Put _ _ _ | Blobs_Delete _ | Blobs_Exists _ | Blobs_List _ | Source_Get _ =>
      λ r, match r with Ok _ => False | Err _ => True end
  end.

(** What a call can do: answer as the stores do, or fail, with or without its
    effect. *)
Inductive outcome (c : Call) (w : World) : reply c → World → Prop :=
| outcome_ok : outcome c w (exec c w).1 (exec c w).2
| outcome_lost r : failed c r → outcome c w r w
| outcome_unheard r : failed c r → outcome c w r (exec c w).2.

Lemma failed_possible c r : failed c r → possible c r.
Proof. by destruct c; destruct r. Qed.
Lemma failed_owed c r D : failed c r → D ⊆ owed D c r.
Proof. destruct c; destruct r; cbn; first [done | set_solver]. Qed.

Lemma missing_objects w db k : (∀ j, needed db j → needed (wObjects w) j) → missing (set_objects w db) k → missing w k.
Proof. intros Hn [Hk Hp]. by split; [apply Hn|]. Qed.

Lemma exec_possible c w : possible c (exec c w).1.
Proof.
  destruct c; cbn [possible exec]; try done; unfold obj_reply.
  - destruct (obj_Create (wObjects w) o) as [[o' db']|e] eqn:Ho; [by apply create_needed in Ho as [? _]|done].
  - destruct (obj_Update (wObjects w) o) as [[o' db']|e] eqn:Ho; [by apply update_needed in Ho as [? _]|done].
Qed.

(** A call leaves no other row without its blob than those it owes. *)
Lemma exec_missing c w k : missing (exec c w).2 k → missing w k ∨ ∀ D r, k ∈ owed D c r.
Proof.
  destruct c; cbn [exec]; unfold obj_reply; try (by left).
  - destruct (obj_Create (wObjects w) o) as [[o' db']|e] eqn:Ho; [|by left]. intros [Hk Hp].
    apply create_needed in Ho as [-> Hn]. destruct (Hn k Hk) as [Hold|Hnew]; [by left|right; cbn; set_solver].
  - destruct (obj_Update (wObjects w) o) as [[o' db']|e] eqn:Ho; [|by left]. intros [Hk Hp].
    apply update_needed in Ho as [_ Hn]. destruct (Hn k Hk) as [Hold|Hnew]; [by left|right; cbn; set_solver].
  - destruct (obj_Delete (wObjects w) id) as [db'|e] eqn:Ho; [|by left]. intros Hm. left.
    by apply (missing_objects _ db' _ (delete_needed _ _ _ Ho)).
  - intros [Hk Hp]. left. split; [done|]. intros Hs. apply Hp. unfold present. cbn.
    destruct (decide (k = key)) as [->|Hne]; [by rewrite lookup_insert_eq|by rewrite lookup_insert_ne].
  - intros [Hk Hp]. destruct (decide (k = key)) as [->|Hne]; [right; cbn; set_solver|left]. split; [done|].
    intros Hs. apply Hp. unfold present. cbn. by rewrite lookup_delete_ne.
Qed.

(** What a call takes off the debt is there, or nothing refers to it. *)
Lemma exec_keeps c w k D : missing (exec c w).2 k → k ∈ D → k ∈ owed D c (exec c w).1.
Proof.
  destruct c; cbn [exec owed fst snd]; try done; try (intros; set_solver).
  - intros [Hk _] HD. destruct (obj_CountBlobRefs (wObjects w) key) eqn:Hc; [|done..].
    apply elem_of_difference. split; [done|]. intros ->%elem_of_singleton. by apply (count_needed _ _ Hc).
  - intros [_ Hp] HD. apply elem_of_difference. split; [done|]. intros ->%elem_of_singleton. apply Hp.
    unfold present. cbn. by rewrite lookup_insert_eq.
  - intros [_ Hp] HD. case_bool_decide as Hs; [|done]. apply elem_of_difference. split; [done|].
    intros ->%elem_of_singleton. by apply Hp.
Qed.

Lemma outcome_debt c w r w' k D : outcome c w r w' →
  possible c r ∧ (missing w' k → (missing w k ∨ k ∈ owed D c r) ∧ (k ∈ D → k ∈ owed D c r)).
Proof.
  intros [|r' Hf|r' Hf].
  - split; [apply exec_possible|]. intros Hm. split; [|by apply exec_keeps].
    destruct (exec_missing _ _ _ Hm) as [?|Ho]; [by left|by right].
  - split; [by apply failed_possible|]. intros Hm. split; [by left|]. by apply failed_owed.
  - split; [by apply failed_possible|]. intros Hm. split; [|by apply failed_owed].
    destruct (exec_missing _ _ _ Hm) as [?|Ho]; [by left|by right].
Qed.

(** The operations that put, delete or refer to blobs. *)
Inductive Op : Type :=
| OpDelete (store : bool) (id : string)
| OpUpdate (store : bool) (obj : KnowledgeObject) (blobs : BlobContent)
| OpIngest (store : bool) (draft : KnowledgeObject) (blobs : BlobContent)
| OpSweep (store : bool) (opts : SweepOptions)
| OpPush (source : bool) (obj : KnowledgeObject).

Definition op_prog (o : Op) : Prog Done :=
  match o with
  | OpDelete store id => DeleteObject store id
  | OpUpdate store obj blobs => UpdateObject store obj blobs
  | OpIngest store draft blobs => store_draft store draft blobs
  | OpSweep store opts => prog_seq (Sweep store opts) (λ r, Ret (sweep_done r))
  | OpPush source obj => prog_seq (writeObject source obj) (λ r, Ret (write_done r))
  end.

(** The object an operation writes. *)
Definition op_writes (o : Op) : option KnowledgeObject :=
  match o with
  | OpDelete _ _ | OpSweep _ _ => None
  | OpUpdate _ obj _ => Some obj
  | OpIngest _ obj _ | OpPush _ obj => Some (obj_defaults obj)
  end.
Definition op_refs (o : Op) : gset string := from_option refs ∅ (op_writes o).

(** The blobs it refers to without their content: an update or an ingest carries
    what it was given, a push reads them from its source. *)
Definition op_uncarried (o : Op) : gset string :=
  match o with
  | OpUpdate _ obj blobs => uncarried obj blobs
  | OpIngest _ draft blobs => uncarried (obj_defaults draft) blobs
  | OpDelete _ _ | OpSweep _ _ | OpPush _ _ => ∅
  end.

(** A write elsewhere, that adds no reference and deletes no blob: status
    changes, reinforcement, reminders, puts of new blobs, the clock. *)
Definition quiet (w w' : World) : Prop :=
  (∀ k, needed (wObjects w') k → needed (wObjects w) k) ∧ (∀ k, present w k → present w' k).

(** The operations begun, each with what is left of its program. *)
Definition Pool : Type := World * list (Op * Prog Done).

Inductive pool_step : Pool → Pool → Prop :=
| pool_begin w ps o : pool_step (w, ps) (w, ps ++ [(o, op_prog o)])
| pool_call w ps i o c k r w' :
    ps !! i = Some (o, Vis c k) → outcome c w r w' → pool_step (w, ps) (w', <[i := (o, k r)]> ps)
| pool_quiet w ps w' : quiet w w' → pool_step (w, ps) (w', ps).

Lemma op_settles o : settles (op_refs o) (op_uncarried o) (op_prog o).
Proof.
  destruct o; [apply settles_DeleteObject|apply settles_UpdateObject|apply settles_store_draft|
    apply settles_Sweep|apply settles_writeObject].
Qed.

Definition pool_ok (s : Pool) : Prop :=
  ∃ Ds, Forall2 (λ p D, wp p.2 D (settled (op_refs p.1) (op_uncarried p.1))) s.2 Ds ∧ ∀ k, missing s.1 k → ∃ D, D ∈ Ds ∧ k ∈ D.

Lemma pool_step_ok s s' : pool_step s s' → pool_ok s → pool_ok s'.
Proof.
  intros [w ps o|w ps i o c kk r w' Hi Ho|w ps w' [Hn Hp]] (Ds & Hf & Hm); cbn in *.
  - exists (Ds ++ [∅]). split; cbn.
    + apply Forall2_app; [done|]. constructor; [apply op_settles|constructor].
    + intros k Hk. destruct (Hm k Hk) as (D & HD & HkD). exists D. split; [|done]. apply elem_of_app. by left.
  - destruct (Forall2_lookup_l _ _ _ _ _ Hf Hi) as (D & HD & Hw).
    exists (<[i := owed D c r]> Ds). split; cbn.
    + apply Forall2_insert; [done|]. apply Hw. exact (proj1 (outcome_debt _ _ _ _ nostr ∅ Ho)).
    + assert (Hlt : i < List.length Ds) by (by eapply lookup_lt_Some).
      assert (Hin : owed D c r ∈ <[i := owed D c r]> Ds).
      { apply list_elem_of_lookup. exists i. by apply list_lookup_insert_eq. }
      intros k Hk. destruct (outcome_debt _ _ _ _ k D Ho) as [_ Hd]. destruct (Hd Hk) as [[Hold|Hnew] Hkeep]; [|by exists (owed D c r)].
      destruct (Hm k Hold) as (E & HE & HkE). apply list_elem_of_lookup in HE as [j Hj].
      destruct (decide (i = j)) as [<-|Hne].
      * assert (E = D) as -> by congruence. exists (owed D c r). split; [done|by apply Hkeep].
      * exists E. split; [|done]. apply list_elem_of_lookup. exists j. by rewrite list_lookup_insert_ne.
  - exists Ds. split; [done|]. intros k [Hk Hnp]. apply Hm. split; [by apply Hn|]. intros Hpr. by apply Hnp, Hp.
Qed.

(** C17. No row is left without its blob.  Whatever deletes, updates, ingests,
    sweeps and federation writes run together, interleaved call by call, with
    calls that fail (with their effect or without it) and, in between, with other
    writes that add no reference and delete no blob: when all have finished, every
    blob the content of a stored row refers to exists, unless an operation names it
    among the blobs it could not settle, the write of an object that refers to it
    answered with an error, or an update or ingest wrote the reference without its
    content at hand, as a patch of an externalized object does.  When none reports
    anything and every update and ingest carries its contents, the store is
    complete.  The last exception is needed: [stale_update_loses_blob]. *)
Theorem concurrent_blobs_complete w0 w ps :
  complete w0 → star pool_step (w0, []) (w, ps) → (∀ o p, (o, p) ∈ ps → ∃ d, p = Ret d) →
  (∀ k, needed (wObjects w) k → present w k ∨
     ∃ o d, (o, Ret d) ∈ ps ∧
       (k ∈ map fst (dnOrphans d) ∨ k ∈ op_uncarried o ∨ dnErr d ≠ None ∧ ∃ obj, op_writes o = Some obj ∧ k ∈ refs obj)) ∧
  ((∀ o d, (o, Ret d) ∈ ps → d = mkDone None [] ∧ op_uncarried o = ∅) → complete w).
Proof.
  intros Hc Hs Hend.
  assert (Hok : pool_ok (w, ps)).
  { apply (star_invariant pool_step pool_ok (λ a b, pool_step_ok a b) _ _ Hs). exists []. split; [constructor|].
    intros k [Hk Hp]. by destruct (Hp (Hc k Hk)). }
  assert (Hall : ∀ k, needed (wObjects w) k → present w k ∨
     ∃ o d, (o, Ret d) ∈ ps ∧
       (k ∈ map fst (dnOrphans d) ∨ k ∈ op_uncarried o ∨ dnErr d ≠ None ∧ ∃ obj, op_writes o = Some obj ∧ k ∈ refs obj)).
  { intros k Hk. destruct (wBlobs w !! k) as [b|] eqn:Hb; [left; by exists b|right].
    destruct Hok as (Ds & Hf & Hm). destruct (Hm k) as (D & HD & HkD).
    { split; [done|]. intros [b Hx]. cbn in Hx. congruence. }
    destruct (Forall2_in_r _ _ _ _ Hf HD) as ([o p] & Hp & Hw). destruct (Hend o p Hp) as [d ->]. cbn in Hw.
    exists o, d. split; [done|]. pose proof (Hw k HkD) as HkW.
    apply elem_of_union in HkW as [[HkW|HkW]%elem_of_union|HkW]; [left; by apply elem_of_list_to_set in HkW|by right; left|right; right].
    destruct (dnErr d); [|set_solver]. split; [done|]. unfold op_refs in HkW.
    destruct (op_writes o) as [obj|]; [by exists obj|set_solver]. }
  split; [done|]. intros Hclean k Hk. destruct (Hall k Hk) as [?|(o & d & Hd & Hbad)]; [done|].
  apply Hclean in Hd as [-> Hu]. rewrite Hu in Hbad. destruct Hbad as [Hbad|[Hbad|[? _]]]; [by apply not_elem_of_nil in Hbad|set_solver|done].
Qed.
End pool.

(** ** A run: a delete and an ingest of the same blob *)

#[local] Instance plain_columns : GoColumns := {|
  json_map := Some; json_sections := Some; json_graph := Some; json_text := λ s, s;
  uri_Parse := Some; uri_String := λ s n i, (s +:+ "://" +:+ n +:+ "/" +:+ i)%string |}.
#[local] Instance decimal_times : GoEncodings := {|
  Format := λ t, pretty t; ParseTime := λ _, 0%Z; MarshalStrings := λ _, nostr; UnmarshalStrings := λ _, None |}.

(** A schedule begins operations, lets them make their next call, or lets time
    pass. *)
Inductive Turn : Type := Begin (o : Op) | Advance (i : nat) | Wait (t : Z).

Definition play_turn (t : Turn) (s : Pool) : Pool :=
  match t with
  | Begin o => (s.1, s.2 ++ [(o, op_prog o)])
  | Advance i =>
      match s.2 !! i with
      | Some (o, Vis c k) => let '(r, w) := exec c s.1 in (w, <[i := (o, k r)]> s.2)
      | _ => s
      end
  | Wait t => (mkWorld (wObjects s.1) (wEdges s.1) (wBlobs s.1) (wSource s.1) (wNow s.1 + t), s.2)
  end.
Definition play (ts : list Turn) (s : Pool) : Pool := fold_left (λ s t, play_turn t s) ts s.

Lemma play_star ts s : star pool_step s (play ts s).
Proof.
  revert s. induction ts as [|t ts IH]; intros [w ps]; [apply star_refl|].
  cbn [play fold_left]. eapply star_trans; [|by apply IH].
  destruct t as [o|i|t]; cbn [play_turn fst snd].
  - eapply star_step; [by apply pool_begin|apply star_refl].
  - destruct (ps !! i) as [[o [d|c k]]|] eqn:Hi; [apply star_refl| |apply star_refl].
    destruct (exec c w) as [r w'] eqn:He. eapply star_step; [|apply star_refl]. eapply pool_call; [done|].
    replace r with (exec c w).1 by (by rewrite He). replace w' with (exec c w).2 by (by rewrite He). apply outcome_ok.
  - eapply star_step; [by apply (pool_quiet w ps (mkWorld (wObjects w) (wEdges w) (wBlobs w) (wSource w) (wNow w + t)))|apply star_refl].
Qed.

Definition blob_note (id : string) : KnowledgeObject :=
  mkKO id "note" nostr (BlobRefFor "k1") "text" nostr (<["blob_key"%string := AStr "k1"]> ∅) [] [] [] [] [] [] nostr nostr [] id nostr
    nostr nostr 1 None None None 0 0 false nostr [] [] None.
Definition k1_content : BlobContent := {[ "k1"%string := "a long text"%string ]}.

(** [n-1] is stored with its blob and, two hours later, deleted while [n-2], of
    the same content, is ingested: the delete counts no reference just before
    [n-2]'s row is written, and deletes the blob just after [n-2]'s ingest has
    found it there. *)
Definition race : list Turn :=
  Begin (OpIngest true (blob_note "n-1") k1_content) :: replicate 3 (Advance 0) ++ [Wait (7200 * Second)] ++
  Begin (OpDelete true "n-1") :: replicate 7 (Advance 1) ++
  Begin (OpIngest true (blob_note "n-2") k1_content) :: replicate 2 (Advance 2) ++ replicate 3 (Advance 1).

Definition empty_world : World := mkWorld emptyDB [] ∅ ∅ 0.
Definition after_race : Pool := play race (empty_world, []).

Definition clean (p : Op * Prog Done) : bool :=
  match p.2 with Ret (mkDone None []) => true | _ => false end.

(** A patch read [n-1] and writes it back as it was, without the blob's content,
    after an update replaced that content and deleted the blob: both end well,
    and the row refers to a blob that is gone. *)
Definition stale_patch : list Turn :=
  Begin (OpIngest true (blob_note "n-1") k1_content) :: replicate 3 (Advance 0) ++ [Wait (7200 * Second)] ++
  [Begin (OpUpdate true (blob_note "n-1") ∅); Advance 1] ++
  Begin (OpUpdate true (with_content (blob_note "n-1") "short" "short" ∅) ∅) :: replicate 8 (Advance 2) ++
  replicate 2 (Advance 1).

Example stale_update_loses_blob :
  let s := play stale_patch (empty_world, []) in
  forallb clean s.2 = true ∧ length s.2 = 3 ∧ obj_CountBlobRefs (wObjects s.1) "k1" = 1%Z ∧
  bool_decide (is_Some (wBlobs s.1 !! "k1"%string)) = false.
Proof. vm_compute. done. Qed.

Lemma after_race_clean : forallb clean after_race.2 = true ∧ forallb (λ p, bool_decide (op_uncarried p.1 = ∅)) after_race.2 = true ∧ length after_race.2 = 3 ∧
  obj_CountBlobRefs (wObjects after_race.1) "k1" = 1%Z ∧
  bool_decide (is_Some (wBlobs (play (removelast race) (empty_world, [])).1 !! "k1"%string)) = false.
Proof. vm_compute. done. Qed.

Lemma concurrent_blobs_complete_witness :
  present after_race.1 "k1" ∧ needed (wObjects after_race.1) "k1".
Proof.
  assert (Hstar : star pool_step (empty_world, []) after_race) by exact (play_star race (empty_world, [])).
  assert (Hneed : existsb (λ r, bool_decide ("k1"%string ∈ refs (orObj r))) (odRows (wObjects after_race.1)) = true)
    by (vm_compute; reflexivity).
  destruct after_race_clean as (Hc & Hu & _). revert Hstar Hneed Hc Hu. generalize after_race. clear. intros [w ps] Hstar Hneed Hc Hu.
  assert (Hclean : ∀ o p, (o, p) ∈ ps → p = Ret (mkDone None [])).
  { intros o p Hin. rewrite forallb_forall in Hc. specialize (Hc (o, p) (proj1 (list_elem_of_In _ _) Hin)).
    unfold clean in Hc. cbn in Hc. destruct p as [[[?|] [|? ?]]|]; done. }
  apply existsb_exists' in Hneed as (r & Hr & Hk). apply bool_decide_eq_true in Hk.
  destruct (concurrent_blobs_complete empty_world w ps) as [_ Hcomplete].
  - intros k (r' & Hr' & _). by apply not_elem_of_nil in Hr'.
  - exact Hstar.
  - intros o p Hin. exists (mkDone None []). by apply (Hclean o).
  - cbn [fst]. split; [|by exists r]. apply Hcomplete; [|by exists r].
    intros o d Hin. pose proof (Hclean o (Ret d) Hin) as He. split; [by injection He|].
    rewrite forallb_forall in Hu. specialize (Hu (o, Ret d) (proj1 (list_elem_of_In _ _) Hin)). by apply bool_decide_eq_true in Hu.
Defined.
