(* ===== verification/Federation.v ===== *)
(** * Federation: pushing a source's changes to a target

    Models [internal/federation] ([sync.go], [pusher.go], [local.go],
    [remote.go], and [collectEntitiesForEdges] of [worker.go]) and the receiving
    side, [FederationAccept] of [internal/service/federation.go] with [storable]
    of [content.go] and the handler of [internal/server/http].

    A target is any type with the operations of [Pusher]; the local and the
    remote pusher are its two instances.  Opening the local target and reaching
    the remote one can fail: the states carry what the next attempts meet.  The
    watermarks of the two are the table of EdgeDB, at the target or at the
    source. *)

From S2P Require Import Prelude GoStrings Objects Classes Contact Projection JobStore ObjectDB EdgeDB Encodings Blobs BlobText ServiceContent.

(** ** pusher.go *)

(** [ObjectFailure]: an [*ObjectError], however deep [errors.As] finds it. *)
Inductive PushError : Type :=
| ObjectFailure (id : string) (cause : Fault)
| TargetFailure (cause : Fault).

Definition objectBlobError (id : string) (e : Fault) : PushError :=
  match e with BlobMissing _ => ObjectFailure id e | _ => TargetFailure e end.

(** An object with its [ChangeSeq]. *)
Definition Change : Type := KnowledgeObject * Z.
Definition chID (c : Change) : string := koID c.1.

Class Pusher (T : Type) : Type := {
  p_Watermark : T → result Fault Z;
  p_Push : T → list Change → list EdgeRow → list Entity → result PushError unit * T;
  p_Advance : T → Z → result Fault unit * T;
}.

(** ** sync.go *)
Definition DefaultBatchSize : Z := 100.
Definition maxObjectFailures : Z := 3.
Definition maxSkippedRecorded : nat := 100.

Record SkippedObject : Type := mkSkipped { skID : string; skSeq : Z; skErr : Fault }.

Record Syncer : Type := mkSyncer {
  syBatchSize : Z;
  syFailingID : string;
  syFailingSeq : Z;
  syFailures : Z;
  sySkip : gmap string Z;
  sySkipped : list SkippedObject;
}.

Definition NewSyncer (batchSize : Z) : Syncer :=
  mkSyncer (if (batchSize <=? 0)%Z then DefaultBatchSize else batchSize) nostr 0 0 ∅ [].
Definition set_failing (s : Syncer) (id : string) (seq n : Z) : Syncer :=
  mkSyncer (syBatchSize s) id seq n (sySkip s) (sySkipped s).
Definition set_skip (s : Syncer) (skip : gmap string Z) : Syncer :=
  mkSyncer (syBatchSize s) (syFailingID s) (syFailingSeq s) (syFailures s) skip (sySkipped s).

Definition findObject (objs : list Change) (id : string) : option Change := List.find (λ c, str_eqb (chID c) id) objs.

Definition skipObject (s : Syncer) (c : Change) (cause : Fault) : Syncer :=
  let log := sySkipped s ++ [mkSkipped (chID c) c.2 cause] in
  mkSyncer (syBatchSize s) nostr 0 0 (<[chID c := c.2]> (sySkip s)) (drop (length log - maxSkippedRecorded) log).

Definition clearFailing (s : Syncer) (page : list Change) : Syncer :=
  match findObject page (syFailingID s) with
  | Some c => if (c.2 =? syFailingSeq s)%Z then set_failing s nostr 0 0 else s
  | None => s
  end.

Definition prune (s : Syncer) (pos : Z) : Syncer := set_skip s (filter (λ kv, (pos < kv.2)%Z) (sySkip s)).

(** The objects of a page not being skipped. *)
Definition to_send (s : Syncer) (page : list Change) : list Change :=
  List.filter (λ c, negb (bool_decide (sySkip s !! chID c = Some c.2))) page.

(** The source: its stores. *)
Record FedSource : Type := mkFedSource { fsObjects : ObjDB; fsEdges : list EdgeRow; fsEntities : list Entity }.

Section sync.
Context `{GoEncodings} `{GoColumns} {T : Type} `{!Pusher T}.

(** [src.Objects().List] of the changes after [pos], with their positions. *)
Definition changed_filter (pos limit : Z) : ObjectFilter :=
  mkObjectFilter nostr nostr nostr nostr nostr nostr None None limit 0 nostr nostr ObjectStatusAll (Some pos).
Definition changed_rows (db : ObjDB) (pos limit : Z) : list ObjRow :=
  take (Z.to_nat limit) (SliceStable (list_before (changed_filter pos limit))
                           (List.filter (objectListConditions (changed_filter pos limit)) (odRows db))).
Definition change_of (r : ObjRow) : Change := (scanObject r, orSeq r).
Definition changes (db : ObjDB) (pos limit : Z) : list Change := map change_of (changed_rows db pos limit).

(** [seen]: the ids met in the edges before. *)
Fixpoint collect_entities (entities : list Entity) (seen : list string) (edges : list EdgeRow) : list Entity :=
  match edges with
  | [] => []
  | e :: edges =>
      if negb (str_eqb (erToType e) "entity") || str_eqb (erToID e) nostr || contains seen (erToID e)
      then collect_entities entities seen edges
      else match entity_Get entities (erToID e) with
           | None => collect_entities entities (erToID e :: seen) edges
           | Some ent => ent :: collect_entities entities (erToID e :: seen) edges
           end
  end.
Definition collectEntitiesForEdges (src : FedSource) (edges : list EdgeRow) : list Entity :=
  collect_entities (fsEntities src) [] edges.

Definition pushObjects (src : FedSource) (t : T) (page : list Change) : result PushError unit * T :=
  let edges := concat (map (λ c, edge_ListFrom (fsEdges src) "object" (chID c)) page) in
  p_Push t page edges (collectEntitiesForEdges src edges).

Definition last_seq (page : list Change) : Z := from_option snd 0%Z (last page).

(** [fuel]: the pushes of the page still allowed; [None]: it ran out. *)
Fixpoint pushPage (fuel : nat) (src : FedSource) (s : Syncer) (t : T) (page : list Change) :
    option (result PushError Z * Syncer * T) :=
  match fuel with
  | O => None
  | S fuel =>
      let send := to_send s page in
      let '(r, t) := match send with [] => (Ok tt, t) | _ => pushObjects src t send end in
      match r with
      | Ok _ =>
          let s := clearFailing s page in
          let n := Z.of_nat (length send) in
          if match send with [] => true | _ => negb (last_seq send =? last_seq page)%Z end
          then match p_Advance t (last_seq page) with
               | (Ok _, t) => Some (Ok n, s, t)
               | (Err e, t) => Some (Err (TargetFailure e), s, t)
               end
          else Some (Ok n, s, t)
      | Err (TargetFailure e) => Some (Err (TargetFailure e), s, t)
      | Err (ObjectFailure id cause) =>
          match findObject send id with
          | None => Some (Err (ObjectFailure id cause), s, t)
          | Some c =>
              let s := if str_eqb id (syFailingID s) && (c.2 =? syFailingSeq s)%Z
                       then set_failing s (syFailingID s) (syFailingSeq s) (syFailures s + 1)
                       else set_failing s (chID c) c.2 1 in
              if (syFailures s <? maxObjectFailures)%Z then Some (Err (ObjectFailure id cause), s, t)
              else pushPage fuel src (skipObject s c cause) t page
          end
      end
  end.

(** A page is pushed twice at most: see [pushPage_twice]. *)
Definition push_fuel : nat := 2.

(** What one round of [Sync]'s loop comes to. *)
Inductive PageEnd : Type :=
| PageDone (n : Z)
| PageFailed (n : Z) (e : PushError)
| PageMore (n pos : Z).

Definition sync_page (src : FedSource) (s : Syncer) (t : T) (pos : Z) : option (PageEnd * Syncer * T) :=
  let page := changes (fsObjects src) pos (syBatchSize s) in
  match page with
  | [] => Some (PageDone 0, s, t)
  | _ =>
      match pushPage push_fuel src s t page with
      | None => None
      | Some (Err e, s, t) => Some (PageFailed 0 e, s, t)
      | Some (Ok n, s, t) =>
          let s := prune s (last_seq page) in
          if (Z.of_nat (length page) <? syBatchSize s)%Z then Some (PageDone n, s, t)
          else Some (PageMore n (last_seq page), s, t)
      end
  end.

Fixpoint sync_pages (fuel : nat) (src : FedSource) (s : Syncer) (t : T) (pos pushed : Z) :
    option (Z * option PushError * Syncer * T) :=
  match fuel with
  | O => None
  | S fuel =>
      match sync_page src s t pos with
      | None => None
      | Some (PageDone n, s, t) => Some ((pushed + n)%Z, None, s, t)
      | Some (PageFailed n e, s, t) => Some ((pushed + n)%Z, Some e, s, t)
      | Some (PageMore n pos, s, t) => sync_pages fuel src s t pos (pushed + n)
      end
  end.

(** Every round but the last takes a row of the source. *)
Definition Sync (src : FedSource) (s : Syncer) (t : T) : option (Z * option PushError * Syncer * T) :=
  match p_Watermark t with
  | Err e => Some (0%Z, Some (TargetFailure e), s, t)
  | Ok pos => sync_pages (S (length (odRows (fsObjects src)))) src (prune s pos) t pos 0
  end.
End sync.

(** ** local.go *)

(** The target database: its stores and blobs ([wSource]: the source's blobs),
    its entities and watermarks; whether reading it is refused, and what opening
    it for writing answers the next times (it opens once the list is used up). *)
Record LocalTarget : Type := mkLocalTarget {
  ltName : string;
  ltSource : bool;
  ltWorld : World;
  ltEntities : list Entity;
  ltMarks : gmap string Z;
  ltRefused : option Fault;
  ltOpens : list (option Fault);
}.

Definition set_world (t : LocalTarget) (w : World) : LocalTarget :=
  mkLocalTarget (ltName t) (ltSource t) w (ltEntities t) (ltMarks t) (ltRefused t) (ltOpens t).
Definition set_entities (t : LocalTarget) (es : list Entity) : LocalTarget :=
  mkLocalTarget (ltName t) (ltSource t) (ltWorld t) es (ltMarks t) (ltRefused t) (ltOpens t).
Definition set_mark (t : LocalTarget) (seq : Z) : LocalTarget :=
  mkLocalTarget (ltName t) (ltSource t) (ltWorld t) (ltEntities t) (SetWatermark (ltMarks t) (ltName t) seq) (ltRefused t) (ltOpens t).
Definition set_edges (w : World) (es : list EdgeRow) : World := mkWorld (wObjects w) es (wBlobs w) (wSource w) (wNow w).

Definition openTarget (t : LocalTarget) : result Fault unit * LocalTarget :=
  let opened := mkLocalTarget (ltName t) (ltSource t) (ltWorld t) (ltEntities t) (ltMarks t) (ltRefused t) (tail (ltOpens t)) in
  match ltOpens t with
  | Some e :: _ => (Err e, opened)
  | _ => (Ok tt, opened)
  end.

(** The text of the driver's error holds ["UNIQUE constraint failed"]. *)
Definition isUniqueConstraintErr (e : Fault) : bool :=
  match e with
  | ObjFault ObjAlreadyExists | ObjFault ObjConstraint | ObjFault (ObjNodeExists _) => true
  | _ => false
  end.

(** The edges of one object, those inserted before in the push left out: the
    error that stopped the inserts, the table and what was inserted by then. *)
Fixpoint insert_edges (skip_taken : bool) (id : string) (edges : list EdgeRow) (t : list EdgeRow) (inserted : list string) :
    option EdgeError * list EdgeRow * list string :=
  match edges with
  | [] => (None, t, inserted)
  | e :: edges =>
      if negb (str_eqb (erFromID e) id) && negb (str_eqb (erToID e) id) then insert_edges skip_taken id edges t inserted
      else if contains inserted (erID e) then insert_edges skip_taken id edges t inserted
      else match edge_Create t e with
           | Ok t => insert_edges skip_taken id edges t (erID e :: inserted)
           | Err (EdgeUnique i) =>
               if skip_taken then insert_edges skip_taken id edges t (erID e :: inserted) else (Some (EdgeUnique i), t, inserted)
           | Err e => (Some e, t, inserted)
           end
  end.

(** Entities without a slug are left out. *)
Definition upsert_thin_all (t : list Entity) (es : list Entity) : list Entity :=
  fold_left (λ t e, if str_eqb (enSlug e) nostr then t else entity_UpsertThin t e) es t.

Section pushers.
Context `{GoEncodings} `{GoColumns} `{GoUnicode} `{GoCrypto}.

(** The read the dedup makes: its error counts as no object. *)
Definition found_hash (w : World) (obj : KnowledgeObject) : bool :=
  negb (str_eqb (koContentHash obj) nostr)
  && match obj_GetByContentHash (wObjects w) (koContentHash obj) (koProfileID obj) with Some _ => true | None => false end.
Definition found_id (w : World) (obj : KnowledgeObject) : bool :=
  str_eqb (koContentHash obj) nostr && match obj_Get (wObjects w) (koID obj) with Ok _ => true | Err _ => false end.

(** The error of the row's write names the object that failed when its blob is
    what failed it. *)
Definition write_error (obj : KnowledgeObject) (e : Fault) : PushError := objectBlobError (koID obj) e.

Fixpoint local_objects (source : bool) (w : World) (objs : list Change) (edges : list EdgeRow) (inserted : list string) :
    result PushError unit * World :=
  match objs with
  | [] => (Ok tt, w)
  | (obj, _) :: objs =>
      if found_hash w obj || found_id w obj then local_objects source w objs edges inserted
      else
        match run (writeObject source obj) w with
        | (Err e, w) =>
            if isUniqueConstraintErr e then local_objects source w objs edges inserted else (Err (write_error obj e), w)
        | (Ok _, w) =>
            match insert_edges true (koID obj) edges (wEdges w) inserted with
            | (Some _, es, _) => (Err (TargetFailure (CallFailed "create edge")), set_edges w es)
            | (None, es, inserted) => local_objects source (set_edges w es) objs edges inserted
            end
        end
  end.

Definition local_Push (t : LocalTarget) (objs : list Change) (edges : list EdgeRow) (ents : list Entity) :
    result PushError unit * LocalTarget :=
  match objs with
  | [] => (Ok tt, t)
  | _ =>
      match openTarget t with
      | (Err e, t) => (Err (TargetFailure e), t)
      | (Ok _, t) =>
          let t := set_entities t (upsert_thin_all (ltEntities t) ents) in
          match local_objects (ltSource t) (ltWorld t) objs edges [] with
          | (Err e, w) => (Err e, set_world t w)
          | (Ok _, w) => (Ok tt, set_mark (set_world t w) (last_seq objs))
          end
      end
  end.

(** A target that does not exist yet has no marks. *)
Definition local_Watermark (t : LocalTarget) : result Fault Z :=
  match ltRefused t with Some e => Err e | None => Ok (GetWatermark (ltMarks t) (ltName t)) end.
Definition local_Advance (t : LocalTarget) (seq : Z) : result Fault unit * LocalTarget :=
  match openTarget t with
  | (Err e, t) => (Err e, t)
  | (Ok _, t) => (Ok tt, set_mark t seq)
  end.

#[export] Instance LocalPusher : Pusher LocalTarget := {|
  p_Watermark := local_Watermark; p_Push := local_Push; p_Advance := local_Advance |}.

(** ** The receiver: [FederationAccept] and the handler of [POST
    /api/v1/federation/push] *)

(** The instance: its stores, whether it has a blob store and its threshold,
    its body limit, and whether the caller may push to it. *)
Record Receiver : Type := mkReceiver {
  rcWorld : World;
  rcEntities : list Entity;
  rcStore : bool;
  rcThreshold : Z;
  rcLimit : Z;
  rcAdmits : bool;
}.
Definition set_receiver (rc : Receiver) (w : World) (es : list Entity) : Receiver :=
  mkReceiver w es (rcStore rc) (rcThreshold rc) (rcLimit rc) (rcAdmits rc).

(** [store_draft] is the create and the [Ensure] after it. *)
Fixpoint accept_objects (rc : Receiver) (w : World) (objs : list KnowledgeObject) (edges : list EdgeRow)
    (inserted : list string) (created : Z) : result Fault Z * World :=
  match objs with
  | [] => (Ok created, w)
  | obj :: objs =>
      if found_hash w obj then accept_objects rc w objs edges inserted created
      else
        match run (storable (rcStore rc) (rcThreshold rc) obj ∅) w with
        | (Err e, w) => (Err e, w)
        | (Ok (row, blobs), w) =>
            let '(d, w) := run (store_draft (rcStore rc) row blobs) w in
            match dnErr d with
            | Some e => (Err e, w)
            | None =>
                match insert_edges false (koID obj) edges (wEdges w) inserted with
                | (Some _, es, _) => (Err (CallFailed "create edge"), set_edges w es)
                | (None, es, inserted) => accept_objects rc (set_edges w es) objs edges inserted (created + 1)
                end
            end
        end
  end.

Definition FederationAccept (rc : Receiver) (objs : list KnowledgeObject) (edges : list EdgeRow) (ents : list Entity) :
    result Fault Z * Receiver :=
  let es := upsert_thin_all (rcEntities rc) ents in
  let '(r, w) := accept_objects rc (rcWorld rc) objs edges [] 0 in
  (r, set_receiver rc w es).

(** ** remote.go *)

(** The wire: an object as [encoding/json] carries it ([None]: it cannot be
    encoded), the bytes of one, and of a request. *)
Class GoWire : Type := {
  wire : KnowledgeObject → option KnowledgeObject;
  wire_size : KnowledgeObject → Z;
  body_size : list KnowledgeObject → list EdgeRow → list Entity → Z;
}.
Context `{GoWire}.

Record PushBody : Type := mkPushBody { pbObjects : list KnowledgeObject; pbEdges : list EdgeRow; pbEntities : list Entity }.

Definition FederationPush (rc : Receiver) (body : PushBody) : Z * Receiver :=
  if negb (rcAdmits rc) then (403%Z, rc)
  else if (rcLimit rc <? body_size (pbObjects body) (pbEdges body) (pbEntities body))%Z then (413%Z, rc)
  else match FederationAccept rc (pbObjects body) (pbEdges body) (pbEntities body) with
       | (Ok _, rc) => (200%Z, rc)
       | (Err _, rc) => (500%Z, rc)
       end.

(** What a request meets: it is answered, it never arrives, or its answer is
    lost. *)
Inductive Net : Type := Answered | Unsent | Unheard.

Record RemoteTarget : Type := mkRemoteTarget {
  rtName : string;
  rtMarks : gmap string Z;
  rtStore : bool;
  rtSource : World;
  rtMaxBytes : Z;
  rtReceiver : Receiver;
  rtNet : list Net;
}.
Definition set_sent (t : RemoteTarget) (rc : Receiver) (net : list Net) : RemoteTarget :=
  mkRemoteTarget (rtName t) (rtMarks t) (rtStore t) (rtSource t) (rtMaxBytes t) rc net.
Definition set_rmark (t : RemoteTarget) (seq : Z) : RemoteTarget :=
  mkRemoteTarget (rtName t) (SetWatermark (rtMarks t) (rtName t) seq) (rtStore t) (rtSource t) (rtMaxBytes t) (rtReceiver t) (rtNet t).

Inductive SendError : Type := StatusError (code : Z) | AllFailed (why : Fault).

Fixpoint send_attempts (attempts : nat) (t : RemoteTarget) (body : PushBody) (why : Fault) : result SendError unit * RemoteTarget :=
  match attempts with
  | O => (Err (AllFailed why), t)
  | S attempts =>
      let net := tail (rtNet t) in
      match hd Answered (rtNet t) with
      | Unsent => send_attempts attempts (set_sent t (rtReceiver t) net) body (CallFailed "transport")
      | Unheard => send_attempts attempts (set_sent t (FederationPush (rtReceiver t) body).2 net) body (CallFailed "transport")
      | Answered =>
          let '(code, rc) := FederationPush (rtReceiver t) body in
          let t := set_sent t rc net in
          if (code =? 200)%Z then (Ok tt, t)
          else if (400 <=? code)%Z && (code <? 500)%Z && negb (code =? 429)%Z then (Err (StatusError code), t)
          else send_attempts attempts t body (CallFailed "status")
      end
  end.
Definition send (t : RemoteTarget) (body : PushBody) : result SendError unit * RemoteTarget :=
  send_attempts 3 t body (CallFailed "send").

Definition encodeInline (t : RemoteTarget) (o : KnowledgeObject) : result PushError KnowledgeObject :=
  match (run (Content (rtStore t) (koRawContent o)) (rtSource t)).1 with
  | Err e => Err (objectBlobError (koID o) e)
  | Ok raw =>
      match (run (Content (rtStore t) (koTextContent o)) (rtSource t)).1 with
      | Err e => Err (objectBlobError (koID o) e)
      | Ok text =>
          match wire (with_content o raw text (koMetadata o)) with
          | None => Err (TargetFailure (CallFailed "marshal"))
          | Some o => Ok o
          end
      end
  end.

(** The index of the first object with the id. *)
Fixpoint index_of (id : string) (objs : list Change) : option nat :=
  match objs with
  | [] => None
  | c :: objs => if str_eqb (chID c) id then Some 0 else S <$> index_of id objs
  end.
Definition edge_home (objs : list Change) (e : EdgeRow) : option nat :=
  match index_of (erFromID e) objs, index_of (erToID e) objs with
  | Some i, Some j => Some (Nat.min i j)
  | Some i, None | None, Some i => Some i
  | None, None => None
  end.
Definition assignEdges (objs : list Change) (edges : list EdgeRow) : (nat → list EdgeRow) * list EdgeRow :=
  (λ i, List.filter (λ e, bool_decide (edge_home objs e = Some i)) edges,
   List.filter (λ e, bool_decide (edge_home objs e = None)) edges).

(** The request being filled: its body, the bytes of its objects, the position
    and id of the last one. *)
Record Pending : Type := mkPending { pdBody : PushBody; pdSize : Z; pdLast : Z; pdLastID : string }.

Definition flush (t : RemoteTarget) (pd : Pending) : result PushError unit * RemoteTarget :=
  match send t (pdBody pd) with
  | (Err (StatusError code), t) =>
      if (length (pbObjects (pdBody pd)) =? 1) && (code =? 413)%Z
      then (Err (ObjectFailure (pdLastID pd) (CallFailed "HTTP 413")), t)
      else (Err (TargetFailure (CallFailed "status")), t)
  | (Err (AllFailed why), t) => (Err (TargetFailure why), t)
  | (Ok _, t) => (Ok tt, match pbObjects (pdBody pd) with [] => t | _ => set_rmark t (pdLast pd) end)
  end.

Fixpoint remote_objects (t : RemoteTarget) (i : nat) (objs : list Change) (edges_of : nat → list EdgeRow) (pd : Pending) :
    result PushError unit * RemoteTarget :=
  match objs with
  | [] => flush t pd
  | c :: objs =>
      match encodeInline t c.1 with
      | Err e => (Err e, t)
      | Ok enc =>
          let add pd := mkPending (mkPushBody (pbObjects (pdBody pd) ++ [enc]) (pbEdges (pdBody pd) ++ edges_of i) (pbEntities (pdBody pd)))
                          (pdSize pd + wire_size enc) c.2 (chID c) in
          if negb (length (pbObjects (pdBody pd)) =? 0) && (0 <? rtMaxBytes t)%Z
             && (rtMaxBytes t <? pdSize pd + wire_size enc)%Z
          then match flush t pd with
               | (Err e, t) => (Err e, t)
               | (Ok _, t) => remote_objects t (S i) objs edges_of (add (mkPending (mkPushBody [] [] []) 0 (pdLast pd) (pdLastID pd)))
               end
          else remote_objects t (S i) objs edges_of (add pd)
      end
  end.

Definition remote_Push (t : RemoteTarget) (objs : list Change) (edges : list EdgeRow) (ents : list Entity) :
    result PushError unit * RemoteTarget :=
  let '(edges_of, loose) := assignEdges objs edges in
  remote_objects t 0 objs edges_of (mkPending (mkPushBody [] loose ents) 0 0 nostr).

#[export] Instance RemotePusher : Pusher RemoteTarget := {|
  p_Watermark t := Ok (GetWatermark (rtMarks t) (rtName t));
  p_Push := remote_Push;
  p_Advance t seq := (Ok tt, set_rmark t seq) |}.
End pushers.
