(* ===== verification/FederationSafety.v ===== *)
(** * Federation loses no change

    What [Syncer] asks of a target ([PusherLaws]), the change feed it reads, and
    that together every change at or below the watermark is at the target or has
    been given up and recorded, whatever the source writes meanwhile, whichever
    calls fail, and wherever a push breaks off. *)

From S2P Require Import Prelude GoStrings Objects Classes Contact Projection JobStore ObjectDB EdgeDB ObjectSafety Encodings Blobs BlobText ServiceContent Federation.

(** ** The change feed *)

(** ** A page of the feed *)
Section sorting.
Context {A : Type} (f : A → Z).

Lemma insert_stable_sorted x l : StronglySorted (λ a b, (f a <= f b)%Z) l →
  StronglySorted (λ a b, (f a <= f b)%Z) (insert_stable (λ a b, (f a <? f b)%Z) x l).
Proof.
  induction 1 as [|y l Hs IH Hall]; cbn; [repeat constructor|]. destruct (f y <? f x)%Z eqn:Hlt.
  - constructor; [done|]. apply Forall_forall. intros z Hz. rewrite insert_stable_perm in Hz.
    apply elem_of_cons in Hz as [->|Hz]; [lia|]. rewrite Forall_forall in Hall. by apply Hall.
  - constructor; [by constructor|]. constructor; [lia|]. apply (Forall_impl _ _ _ Hall). intros z. cbn. lia.
Qed.
Lemma SliceStable_sorted l : StronglySorted (λ a b, (f a <= f b)%Z) (SliceStable (λ a b, (f a <? f b)%Z) l).
Proof. induction l as [|x l IH]; cbn; [constructor|]. by apply insert_stable_sorted. Qed.

(** Distinct keys in order. *)
Definition ascending : list A → Prop := StronglySorted (λ a b, (f a < f b)%Z).

Lemma ascending_of l : StronglySorted (λ a b, (f a <= f b)%Z) l → NoDup (map f l) → ascending l.
Proof.
  induction 1 as [|x l Hs IH Hall]; cbn; [constructor|]. intros [Hx Hl]%NoDup_cons. constructor; [by apply IH|].
  rewrite Forall_forall in *. intros y Hy. specialize (Hall y Hy). assert (f x ≠ f y); [|lia].
  intros He. apply Hx. rewrite He. by apply list_elem_of_fmap_2.
Qed.

Lemma ascending_filter p l : ascending l → ascending (List.filter p l).
Proof.
  induction 1 as [|x l Hs IH Hall]; cbn; [constructor|]. destruct (p x); [|done]. constructor; [done|].
  rewrite Forall_forall in *. intros y Hy. apply Hall. by apply list_elem_of_In, filter_In in Hy as [Hy%list_elem_of_In _].
Qed.

Lemma ascending_app l k : ascending (l ++ k) → ascending l ∧ ascending k ∧ ∀ x y, x ∈ l → y ∈ k → (f x < f y)%Z.
Proof.
  induction l as [|x l IH]; cbn; [intros Hs; split_and!; [constructor|done|by intros x y Hx%not_elem_of_nil]|].
  intros Hs. inversion Hs as [|? ? Hs' Hall]; subst. destruct (IH Hs') as (Hl & Hk & Hlk). rewrite Forall_forall in Hall. split_and!.
  - constructor; [done|]. apply Forall_forall. intros y Hy. apply Hall, elem_of_app. by left.
  - done.
  - intros a b [->|Ha]%elem_of_cons Hb; [apply Hall, elem_of_app; by right|by apply Hlk].
Qed.

Lemma ascending_before l i x y : ascending l → l !! i = Some y → x ∈ l → (f x <= f y)%Z → x ∈ take (S i) l.
Proof.
  intros Hs Hi Hx Hle. rewrite <- (take_drop (S i) l) in Hs, Hx. apply ascending_app in Hs as (_ & _ & Hlt).
  apply elem_of_app in Hx as [Hx|Hx]; [done|]. exfalso.
  assert (Hy : y ∈ take (S i) l).
  { apply list_elem_of_lookup. exists i. by rewrite lookup_take_lt by lia. }
  specialize (Hlt y x Hy Hx). lia.
Qed.
End sorting.

Section page.
Context `{GoEncodings} `{GoColumns}.

Lemma changed_conditions pos limit r : objectListConditions (changed_filter pos limit) r = (pos <? orSeq r)%Z.
Proof. done. Qed.

Lemma page_rows db pos limit : obj_wf db →
  ascending orSeq (changed_rows db pos limit) ∧
  (∀ r, r ∈ changed_rows db pos limit → r ∈ odRows db ∧ (pos < orSeq r)%Z) ∧
  (∀ r y, r ∈ odRows db → (pos < orSeq r)%Z → y ∈ changed_rows db pos limit → (orSeq r <= orSeq y)%Z →
     r ∈ changed_rows db pos limit).
Proof.
  intros Hwf. unfold changed_rows. set (n := Z.to_nat limit). set (rows := List.filter _ _).
  assert (Hin : ∀ r, r ∈ rows ↔ r ∈ odRows db ∧ (pos < orSeq r)%Z).
  { intros r. unfold rows. rewrite list_elem_of_In, filter_In, <- list_elem_of_In, changed_conditions.
    apply and_iff_compat_l. lia. }
  assert (Hsort : ascending orSeq (SliceStable (list_before (changed_filter pos limit)) rows)).
  { change (list_before (changed_filter pos limit)) with (λ a b, (orSeq a <? orSeq b)%Z).
    apply ascending_of; [apply SliceStable_sorted|].
    assert (Hp : map orSeq (SliceStable (λ a b, (orSeq a <? orSeq b)%Z) rows) ≡ₚ map orSeq rows)
      by (apply fmap_Permutation, SliceStable_perm).
    rewrite Hp. eapply sublist_NoDup; [exact (wf_seqs _ Hwf)|]. unfold rows. clear.
    induction (odRows db) as [|r l IH]; [done|]. cbn [List.filter map]. destruct (objectListConditions _ r); cbn; by constructor. }
  set (l := SliceStable _ rows) in *.
  assert (Hl : ∀ r, r ∈ l ↔ r ∈ odRows db ∧ (pos < orSeq r)%Z) by (intros r; unfold l; by rewrite SliceStable_perm).
  rewrite <- (take_drop n l) in Hsort. pose proof (ascending_app _ _ _ Hsort) as (Hs1 & _ & Hlt). split_and!.
  - done.
  - intros r Hr. apply Hl. rewrite <- (take_drop n l). apply elem_of_app. by left.
  - intros r y Hr Hpos Hy Hle. assert (Hrl : r ∈ l) by by apply Hl.
    rewrite <- (take_drop n l) in Hrl. apply elem_of_app in Hrl as [?|Hd]; [done|]. pose proof (Hlt y r Hy Hd). lia.
Qed.

(** [List] answers the same objects. *)
Lemma obj_List_changes db pos limit : (0 < limit)%Z →
  fst <$> obj_List db (changed_filter pos limit) = Ok (map fst (changes db pos limit)).
Proof.
  intros Hl. unfold obj_List, changes, changed_rows. cbn [ofLimit ofOffset changed_filter].
  destruct (limit <=? 0)%Z eqn:Ha; [lia|]. destruct (0 <? limit)%Z eqn:Hb; [|lia]. cbn. by rewrite map_map.
Qed.
End page.

(** ** What a Syncer asks of its target

    [mark]: the watermark kept for it.  [holds]: the target has the object, or
    takes another for it.  A push acknowledges its objects in order: it moves the
    mark to the last of those it acknowledged, all of them when it succeeds. *)
Class PusherLaws (T : Type) `{!Pusher T} : Type := {
  mark : T → Z;
  holds : T → Change → Prop;
  sane : T → Prop;
  law_Watermark t pos : p_Watermark t = Ok pos → pos = mark t;
  law_Push t objs edges ents r t' : objs ≠ [] → sane t → p_Push t objs edges ents = (r, t') →
    sane t' ∧ (∀ c, holds t c → holds t' c) ∧
    ∃ n, n <= length objs ∧ (r = Ok tt → n = length objs) ∧
      (mark t' = match n with O => mark t | S i => from_option (λ c : Change, c.2) 0%Z (objs !! i) end) ∧
      ∀ c, c ∈ take n objs → holds t' c;
  law_Advance t seq r t' : sane t → p_Advance t seq = (r, t') →
    sane t' ∧ (∀ c, holds t c → holds t' c) ∧ mark t' = match r with Ok _ => seq | Err _ => mark t end;
}.

Section pushing.
Context `{GoEncodings} `{GoColumns} {T : Type} `{!Pusher T} `{!PusherLaws T}.

Definition Given : Type := gset (string * Z).
Definition entry (c : Change) : string * Z := (chID c, c.2).

(** From [t] to [t'], pushing [page] less what was given up: the mark stays or
    moves to an object of the page, with all before it delivered or given up. *)
Record advanced (gave : Given) (page : list Change) (t t' : T) : Prop := {
  adv_sane : sane t';
  adv_holds : ∀ c, holds t c → holds t' c;
  adv_mark : mark t' = mark t ∨
    ∃ c : Change, c ∈ page ∧ mark t' = c.2 ∧ ∀ d : Change, d ∈ page → (d.2 <= mark t')%Z → holds t' d ∨ entry d ∈ gave;
}.

Lemma advanced_refl gave page t : sane t → advanced gave page t t.
Proof. split; [done|done|by left]. Qed.

Lemma advanced_trans gave gave' page t1 t2 t3 : gave ⊆ gave' →
  advanced gave page t1 t2 → advanced gave' page t2 t3 → advanced gave' page t1 t3.
Proof.
  intros Hg [Hs1 Hh1 Hm1] [Hs2 Hh2 Hm2]. split; [done|by auto|].
  destruct Hm2 as [Hm2|Hm2]; [|by right]. destruct Hm1 as [Hm1|(c & Hc & Hmc & Hd)]; [left; congruence|right].
  exists c. split; [done|]. split; [congruence|]. intros d Hdp Hle. rewrite Hm2 in Hle.
  destruct (Hd d Hdp Hle) as [?|?]; [left; by apply Hh2|right; by apply Hg].
Qed.

Definition skip_given (s : Syncer) (gave : Given) : Prop := ∀ id seq, sySkip s !! id = Some seq → (id, seq) ∈ gave.

Lemma elem_of_to_send s page c : c ∈ to_send s page ↔ c ∈ page ∧ sySkip s !! chID c ≠ Some c.2.
Proof.
  unfold to_send. rewrite list_elem_of_In, filter_In, <- list_elem_of_In. apply and_iff_compat_l.
  rewrite negb_true_iff, bool_decide_eq_false. done.
Qed.

(** One push of the objects to send. *)
Lemma push_advances gave src s t (page : list Change) r t' :
  ascending (A:=Change) snd page → sane t → skip_given s gave → to_send s page ≠ [] →
  pushObjects src t (to_send s page) = (r, t') →
  advanced gave page t t' ∧ (r = Ok tt → mark t' = last_seq (to_send s page)).
Proof.
  intros Hasc Hs Hg Hne Hp. unfold pushObjects in Hp.
  apply (law_Push _ _ _ _ _ _ Hne Hs) in Hp as (Hs' & Hh & n & Hn & Hok & Hm & Hheld). split.
  - split; [done|done|]. destruct n as [|i]; [by left|right].
    destruct (lookup_lt_is_Some_2 (to_send s page) i ltac:(lia)) as [c Hc]. cbv beta iota in Hm. rewrite Hc in Hm. cbn in Hm.
    assert (Hcs : c ∈ to_send s page) by (apply list_elem_of_lookup; by exists i).
    exists c. split; [by apply elem_of_to_send in Hcs as [? _]|]. split; [done|]. intros d Hd Hle. rewrite Hm in Hle.
    destruct (decide (sySkip s !! chID d = Some d.2)) as [Hsk|Hsk]; [right; by apply Hg|left].
    apply Hheld. apply (ascending_before (A:=Change) snd _ i d c); [by apply ascending_filter|done|by apply elem_of_to_send|done].
  - intros He. rewrite (Hok He) in Hm. destruct (to_send s page) as [|c l] eqn:Hl; [done|]. cbn in Hm.
    rewrite Hm. unfold last_seq. rewrite last_lookup. done.
Qed.

Lemma last_seq_in (page : list Change) : page ≠ [] → ∃ c : Change, c ∈ page ∧ last_seq page = c.2 ∧ last page = Some c.
Proof.
  intros Hne. unfold last_seq. destruct (last page) as [c|] eqn:Hl; [|by apply last_None in Hl].
  exists c. split; [by apply last_Some_elem_of|done].
Qed.

Lemma ascending_last (page : list Change) c : ascending (A:=Change) snd page → c ∈ page → (c.2 <= last_seq page)%Z.
Proof.
  intros Hasc Hc. destruct (last_seq_in page) as (y & Hy & -> & Hl); [by intros ->; apply not_elem_of_nil in Hc|].
  apply last_Some in Hl as [l ->]. apply ascending_app in Hasc as (_ & _ & Hlt).
  apply elem_of_app in Hc as [Hc|Hc]; [|by apply list_elem_of_singleton in Hc as ->].
  pose proof (Hlt c y Hc ltac:(by left)). lia.
Qed.

(** The state of the skips is the same but for the failing object. *)
Definition same_skips (s s' : Syncer) : Prop :=
  syBatchSize s' = syBatchSize s ∧ sySkip s' = sySkip s ∧ sySkipped s' = sySkipped s.
Lemma same_clear s page : same_skips s (clearFailing s page).
Proof. unfold clearFailing. destruct (findObject _ _) as [c|]; [|done]. by destruct (_ =? _)%Z. Qed.

(** Once all there is to send is acknowledged and the mark is at the end of the
    page, the page is settled. *)
Lemma settle_page gave src s t (page : list Change) t1 :
  page ≠ [] → ascending (A:=Change) snd page → sane t → skip_given s gave →
  (match to_send s page with [] => (Ok tt, t) | _ => pushObjects src t (to_send s page) end) = (Ok tt, t1) →
  ∀ t2, sane t2 → (∀ c, holds t1 c → holds t2 c) → mark t2 = last_seq page → advanced gave page t t2.
Proof.
  intros Hne Hasc Hs Hg Hp t2 Hs2 Hh2 Hm2. split; [done| |].
  - intros c Hc. apply Hh2. destruct (to_send s page) as [|c0 l] eqn:Hl; [by injection Hp as <-|]. rewrite <- Hl in Hp.
    apply (push_advances gave) in Hp as [Ha _]; [by apply Ha|done..|by rewrite Hl].
  - right. destruct (last_seq_in page Hne) as (y & Hy & Hly & _). exists y. split; [done|]. split; [congruence|].
    intros d Hd _. destruct (decide (sySkip s !! chID d = Some d.2)) as [Hsk|Hsk]; [right; by apply Hg|left].
    assert (Hds : d ∈ to_send s page) by by apply elem_of_to_send.
    destruct (to_send s page) as [|c0 l] eqn:Hl; [by apply not_elem_of_nil in Hds|]. rewrite <- Hl in *.
    apply Hh2. unfold pushObjects in Hp. apply law_Push in Hp as (_ & _ & n & _ & Hn & _ & Hheld); [|by rewrite Hl|done].
    apply Hheld. by rewrite (Hn eq_refl), firstn_all.
Qed.

(** One round of [pushPage]: it ends, or it gives an object up and goes on. *)
Lemma push_round gave fuel src s t (page : list Change) :
  page ≠ [] → ascending (A:=Change) snd page → sane t → skip_given s gave →
  (∃ r s' t', pushPage (S fuel) src s t page = Some (r, s', t') ∧ same_skips s s' ∧ advanced gave page t t' ∧
     (∀ n, r = Ok n → mark t' = last_seq page)) ∨
  (∃ s1 t1 c cause, pushPage (S fuel) src s t page = pushPage fuel src (skipObject s1 c cause) t1 page ∧
     same_skips s s1 ∧ c ∈ page ∧ advanced gave page t t1 ∧ (maxObjectFailures <= syFailures s + 1)%Z).
Proof.
  intros Hne Hasc Hs Hg. cbn [pushPage].
  destruct (match to_send s page with [] => (Ok tt, t) | _ => pushObjects src t (to_send s page) end) as [r t1] eqn:Hp.
  assert (Hadv : advanced gave page t t1 ∧ (r = Ok tt → to_send s page ≠ [] → mark t1 = last_seq (to_send s page))).
  { destruct (to_send s page) as [|c0 l] eqn:Hl; [injection Hp as <- <-; split; [by apply advanced_refl|done]|].
    rewrite <- Hl in *. destruct (push_advances gave src s t page r t1 Hasc Hs Hg ltac:(by rewrite Hl) Hp) as [Ha Hm].
    split; [done|auto]. }
  destruct Hadv as [Hadv Hm1]. destruct r as [[]|[id cause|cause]].
  - left. pose proof (same_clear s page) as Hsame.
    destruct (match to_send s page with [] => true | _ => _ end) eqn:Hadvance.
    + destruct (p_Advance t1 (last_seq page)) as [[[]|e] t2] eqn:Ha;
        destruct (law_Advance _ _ _ _ (adv_sane _ _ _ _ Hadv) Ha) as (Hs2 & Hh2 & Hm2).
      * eexists _, _, _. split; [done|]. split; [done|]. split; [by eapply settle_page|done].
      * eexists _, _, _. split; [done|]. split; [done|]. split; [|done].
        eapply advanced_trans; [done|exact Hadv|]. split; [done|done|by left].
    + eexists _, _, _. split; [done|]. split; [done|].
      assert (Hmt : mark t1 = last_seq page).
      { destruct (to_send s page) as [|c0 l] eqn:Hl; [done|]. rewrite Hm1 by done.
        apply negb_false_iff, Z.eqb_eq in Hadvance. exact Hadvance. }
      split; [|done]. eapply settle_page; [done..|apply Hadv|done|done].
  - destruct (findObject (to_send s page) id) as [c|] eqn:Hf; [|left; by eexists _, _, _].
    assert (Hc : c ∈ page).
    { apply find_some in Hf as [Hin _]. apply list_elem_of_In in Hin. by apply elem_of_to_send in Hin as [? _]. }
    set (s1 := if str_eqb id _ && _ then _ else _).
    assert (Hs1 : same_skips s s1 ∧ (maxObjectFailures <= syFailures s1 → maxObjectFailures <= syFailures s + 1)%Z).
    { unfold s1. destruct (_ && _); cbn; [split; [done|lia]|]. split; [done|]. unfold maxObjectFailures. lia. }
    destruct (syFailures s1 <? maxObjectFailures)%Z eqn:Hlt; [left; eexists _, _, _; split; [done|]; split; [apply Hs1|done]|].
    right. exists s1, t1, c, cause. split; [done|]. split; [apply Hs1|]. split; [done|]. split; [done|]. apply Hs1. lia.
  - left. by eexists _, _, _.
Qed.

Definition logged (s : Syncer) : Given := list_to_set (map (λ k, (skID k, skSeq k)) (sySkipped s)).

Lemma logged_skip s c cause : entry c ∈ logged (skipObject s c cause).
Proof.
  unfold logged, skipObject, entry. cbn. apply elem_of_list_to_set, list_elem_of_fmap. exists (mkSkipped (chID c) c.2 cause).
  split; [done|]. set (l := sySkipped s). set (x := mkSkipped _ _ _). rewrite length_app. cbn [length].
  rewrite drop_app_le by (unfold maxSkippedRecorded; lia). apply elem_of_app. right. by left.
Qed.

Lemma logged_same s s' : same_skips s s' → logged s' = logged s.
Proof. unfold logged. by intros (_ & _ & ->). Qed.

Lemma skip_given_mono s s' gave gave' : same_skips s s' → gave ⊆ gave' → skip_given s gave → skip_given s' gave'.
Proof. intros (_ & Hk & _) Hg Hs id seq. rewrite Hk. intros Hi. by apply Hg, Hs. Qed.

(** A page is pushed at most twice: giving an object up clears the count of
    failures, so that a page gives up one object at most. *)
Lemma pushPage_twice gave src s t (page : list Change) :
  page ≠ [] → ascending (A:=Change) snd page → sane t → skip_given s gave →
  ∃ r s' t', pushPage push_fuel src s t page = Some (r, s', t') ∧
    syBatchSize s' = syBatchSize s ∧ skip_given s' (gave ∪ logged s') ∧ advanced (gave ∪ logged s') page t t' ∧
    (∀ n, r = Ok n → mark t' = last_seq page).
Proof.
  intros Hne Hasc Hs Hg. unfold push_fuel.
  assert (Hweak : ∀ s' t', advanced gave page t t' → advanced (gave ∪ logged s') page t t').
  { intros s' t' Ha. eapply (advanced_trans gave); [set_solver|exact Ha|]. apply advanced_refl. apply Ha. }
  destruct (push_round gave 1 src s t page Hne Hasc Hs Hg) as [(r & s' & t' & -> & Hsame & Ha & Hm)|(s1 & t1 & c & cause & -> & Hsame & Hc & Ha & _)].
  - exists r, s', t'. split; [done|]. split; [apply Hsame|]. split; [apply (skip_given_mono s _ gave); [done|set_solver|done]|]. split; [by apply Hweak|done].
  - set (s2 := skipObject s1 c cause).
    assert (Hg2 : skip_given s2 (gave ∪ logged s2)).
    { intros id seq Hi. cbn in Hi. apply lookup_insert_Some in Hi as [[<- <-]|[_ Hi]].
      - apply elem_of_union. right. apply logged_skip.
      - apply elem_of_union. left. apply Hg. by rewrite <- (proj1 (proj2 Hsame)). }
    destruct (push_round _ 0 src s2 t1 page Hne Hasc (adv_sane _ _ _ _ Ha) Hg2)
      as [(r & s' & t' & -> & Hsame2 & Ha2 & Hm)|(_ & _ & _ & _ & _ & _ & _ & _ & Hlt)]; [|exfalso; unfold s2, maxObjectFailures in Hlt; cbn in Hlt; lia].
    exists r, s', t'. rewrite (logged_same _ _ Hsame2). split; [done|]. split; [rewrite (proj1 Hsame2); apply Hsame|].
    split; [by apply (skip_given_mono s2 _ (gave ∪ logged s2))|]. split; [|done].
    eapply advanced_trans; [|exact Ha|exact Ha2]. set_solver.
Qed.

(** ** Syncs, the source's writes between them and in between their pages *)
Record FedState : Type := mkFedState {
  fdSource : FedSource;
  fdSyncer : Syncer;
  fdTarget : T;
  fdPos : option Z;   (* where the sync that runs is *)
  fdGiven : Given;    (* every object the Syncer's record has ever named *)
}.

Inductive fed_step : FedState → FedState → Prop :=
| fed_write src s t pos gave db :
    obj_step (fsObjects src) db →
    fed_step (mkFedState src s t pos gave) (mkFedState (mkFedSource db (fsEdges src) (fsEntities src)) s t pos gave)
| fed_beside src s t pos gave es ents :
    fed_step (mkFedState src s t pos gave) (mkFedState (mkFedSource (fsObjects src) es ents) s t pos gave)
| fed_target src s t pos gave t' :
    sane t' → mark t' = mark t → (∀ c, holds t c → holds t' c) →
    fed_step (mkFedState src s t pos gave) (mkFedState src s t' pos gave)
| fed_begin src s t pos gave :
    p_Watermark t = Ok pos → fed_step (mkFedState src s t None gave) (mkFedState src (prune s pos) t (Some pos) gave)
| fed_page src s t pos gave e s' t' :
    sync_page src s t pos = Some (e, s', t') →
    fed_step (mkFedState src s t (Some pos) gave)
             (mkFedState src s' t' (match e with PageMore _ q => Some q | _ => None end) (gave ∪ logged s'))
| fed_abort src s t pos gave : fed_step (mkFedState src s t pos gave) (mkFedState src s t None gave).

(** Every row of the source up to [m] is delivered or given up. *)
Definition covers (db : ObjDB) (t : T) (gave : Given) (m : Z) : Prop :=
  ∀ r, r ∈ odRows db → (orSeq r <= m)%Z → holds t (change_of r) ∨ (orID r, orSeq r) ∈ gave.

Record fed_ok (f : FedState) : Prop := {
  fo_wf : obj_wf (fsObjects (fdSource f));
  fo_sane : sane (fdTarget f);
  fo_mark : (mark (fdTarget f) <= odCounter (fsObjects (fdSource f)))%Z;
  fo_skip : skip_given (fdSyncer f) (fdGiven f);
  fo_covers : covers (fsObjects (fdSource f)) (fdTarget f) (fdGiven f) (mark (fdTarget f));
  fo_pos : ∀ p, fdPos f = Some p → (p <= odCounter (fsObjects (fdSource f)))%Z ∧
             covers (fsObjects (fdSource f)) (fdTarget f) (fdGiven f) p;
}.

Lemma covers_feeds db db' t gave m : feeds db db' → (m <= odCounter db)%Z → covers db t gave m → covers db' t gave m.
Proof. intros [_ Hr] Hm Hc r Hin Hle. destruct (Hr r Hin) as [Hold|Hnew]; [by apply Hc|lia]. Qed.
Lemma covers_mono db t t' gave gave' m : (∀ c, holds t c → holds t' c) → gave ⊆ gave' → covers db t gave m → covers db t' gave' m.
Proof. intros Hh Hg Hc r Hr Hle. destruct (Hc r Hr Hle) as [?|?]; [left; by apply Hh|right; by apply Hg]. Qed.

Lemma skip_given_prune s pos gave : skip_given s gave → skip_given (prune s pos) gave.
Proof. intros Hs id seq Hi. cbn in Hi. apply map_lookup_filter_Some in Hi as [Hi _]. by apply Hs. Qed.

(** The rows a page brings under the mark are delivered or given up. *)
Lemma covers_page db t t' gave gave' pos limit :
  obj_wf db → covers db t gave pos → covers db t gave (mark t) → gave ⊆ gave' →
  advanced gave' (changes db pos limit) t t' → covers db t' gave' (mark t').
Proof.
  intros Hwf Hp Hc Hg [_ Hh Hm] r Hr Hle. destruct (page_rows db pos limit Hwf) as (_ & Hrows & Hall).
  destruct Hm as [Hm|(c & Hcp & Hmc & Hd)].
  - rewrite Hm in Hle. destruct (Hc r Hr Hle) as [?|?]; [left; by apply Hh|right; by apply Hg].
  - destruct (decide (orSeq r <= pos)%Z) as [Hle'|Hgt].
    + destruct (Hp r Hr Hle') as [?|?]; [left; by apply Hh|right; by apply Hg].
    + apply list_elem_of_fmap in Hcp as (y & -> & Hy). apply Hd; [|exact Hle].
      apply list_elem_of_fmap. exists r. split; [done|]. apply (Hall r y); [done|lia|done|]. rewrite Hmc in Hle. exact Hle.
Qed.

Lemma ascending_changes db pos limit : obj_wf db → ascending (A:=Change) snd (changes db pos limit).
Proof.
  intros Hwf. destruct (page_rows db pos limit Hwf) as (Hasc & _ & _). unfold changes.
  induction Hasc as [|r l Hs IH Hall]; cbn; [constructor|]. constructor; [done|].
  apply Forall_forall. intros c (y & -> & Hy)%list_elem_of_fmap. rewrite Forall_forall in Hall. exact (Hall y Hy).
Qed.

Lemma sync_page_spec gave src s t pos :
  obj_wf (fsObjects src) → sane t → skip_given s gave →
  ∃ e s' t', sync_page src s t pos = Some (e, s', t') ∧ syBatchSize s' = syBatchSize s ∧ skip_given s' (gave ∪ logged s') ∧
    advanced (gave ∪ logged s') (changes (fsObjects src) pos (syBatchSize s)) t t' ∧
    match e with
    | PageMore _ q => q = last_seq (changes (fsObjects src) pos (syBatchSize s)) ∧ mark t' = q ∧
        changes (fsObjects src) pos (syBatchSize s) ≠ []
    | _ => True
    end.
Proof.
  intros Hwf Hs Hg. unfold sync_page. pose proof (ascending_changes (fsObjects src) pos (syBatchSize s) Hwf) as Hasc.
  destruct (changes (fsObjects src) pos (syBatchSize s)) as [|c0 l] eqn:Hp.
  { eexists _, _, _. split; [done|]. split; [done|]. split; [intros id seq Hi; apply elem_of_union; left; by apply Hg|].
    split; [by apply advanced_refl|done]. }
  destruct (pushPage_twice gave src s t (c0 :: l) ltac:(done) Hasc Hs Hg) as (r & s' & t' & -> & Hb & Hg' & Ha & Hm).
  destruct r as [n|e].
  - assert (Hlog : logged (prune s' (last_seq (c0 :: l))) = logged s') by done.
    destruct (_ <? _)%Z; eexists _, _, _; (split; [done|]); rewrite Hlog;
      (split; [exact Hb|]); (split; [by apply skip_given_prune|]); (split; [done|]); [done|].
    split; [done|]. split; [by eapply Hm|done].
  - eexists _, _, _. split; [done|]. done.
Qed.

Lemma fed_step_ok f f' : fed_step f f' → fed_ok f → fed_ok f'.
Proof.
  intros Hstep [Hwf Hs Hm Hg Hc Hp].
  destruct Hstep as [src s t pos gave db Hw|src s t pos gave es ents|src s t pos gave t' Hs' Hm' Hh|src s t pos gave Hw
    |src s t pos gave e s' t' Hpage|src s t pos gave]; cbn in *.
  - pose proof (feeds_step _ _ Hw) as Hf. split; cbn; [by eapply obj_step_wf|done|destruct Hf; lia|done|by eapply covers_feeds|].
    intros p He. destruct (Hp p He) as [Hle Hcp]. split; [destruct Hf; lia|by eapply covers_feeds].
  - by split.
  - split; cbn; [done|done|by rewrite Hm'|done|rewrite Hm'; by eapply covers_mono|].
    intros p He. destruct (Hp p He) as [Hle Hcp]. split; [done|by eapply covers_mono].
  - split; cbn; [done|done|done|by apply skip_given_prune|done|]. intros p [= <-]. apply law_Watermark in Hw as ->. done.
  - destruct (Hp pos eq_refl) as [Hle Hcp].
    destruct (sync_page_spec gave src s t pos Hwf Hs Hg) as (e1 & s1 & t1 & He & _ & Hg' & Ha & Hmore).
    rewrite Hpage in He. injection He as <- <- <-.
    assert (Hc' : covers (fsObjects src) t' (gave ∪ logged s') (mark t')).
    { eapply (covers_page _ t _ gave); [done|exact Hcp|exact Hc|set_solver|exact Ha]. }
    assert (Hm' : (mark t' <= odCounter (fsObjects src))%Z).
    { destruct (adv_mark _ _ _ _ Ha) as [->|(c & Hcin & -> & _)]; [done|].
      apply list_elem_of_fmap in Hcin as (r & -> & Hr). cbn. destruct (page_rows _ pos (syBatchSize s) Hwf) as (_ & Hrows & _).
      destruct (Hrows r Hr) as [Hin _]. by apply (wf_seq _ Hwf). }
    split; cbn; [done|apply Ha|done|done|done|]. intros p Hpos. destruct e as [n|n e|n q]; [done|done|].
    injection Hpos as <-. destruct Hmore as (_ & Hq & _). by rewrite <- Hq.
  - by split.
Qed.

(** C19. Federation loses no change.  Start with a new Syncer and a target that
    has acknowledged nothing; let the source write, the target fail, syncs begin,
    break off at any page and begin again, in any order.  Then every object of
    the source at or below the target's watermark, at the position it has now, is
    held by the target (which may have taken another object for it, see [holds])
    or was given up and recorded as skipped. *)
Theorem federation_loses_nothing src t batch f :
  obj_wf (fsObjects src) → sane t → mark t = 0%Z →
  star fed_step (mkFedState src (NewSyncer batch) t None ∅) f →
  ∀ r, r ∈ odRows (fsObjects (fdSource f)) → (orSeq r <= mark (fdTarget f))%Z →
    holds (fdTarget f) (change_of r) ∨ (orID r, orSeq r) ∈ fdGiven f.
Proof.
  intros Hwf Hs Hm Hstar. assert (Hok : fed_ok f); [|apply Hok].
  apply (star_invariant fed_step fed_ok fed_step_ok _ _ Hstar). split; cbn; [done|done| | | |done].
  - rewrite Hm. apply Hwf.
  - intros id seq Hi. cbn in Hi. by rewrite lookup_empty in Hi.
  - rewrite Hm. intros r Hr Hle. pose proof (wf_seq _ Hwf r Hr). lia.
Qed.
End pushing.
