(* ===== verification/FederationTargets.v ===== *)
(** * The local and the remote pusher keep the Syncer's contract

    A target holds an object when one of its rows has the object's id, its
    content hash in the object's profile, or its source key, or when the object's
    graph cannot be stored beside the target's: what the pusher takes for a
    duplicate.  A pushed object is held from then on, whatever else is pushed. *)

From S2P Require Import Prelude GoStrings Objects Classes Contact Projection JobStore ObjectDB EdgeDB ObjectSafety Encodings Blobs BlobText ServiceContent Federation FederationSafety.

(** ** What a create does to the objects held *)
Definition held (db : ObjDB) (o : KnowledgeObject) : Prop :=
  (∃ r, r ∈ odRows db ∧ clashes o r = true) ∨
  (∃ n, n ∈ graph_nodes o ∧ is_Some (odNodes db !! gnID n)) ∨ ¬ NoDup (map gnID (graph_nodes o)).

(** Nothing held is let go. *)
Definition keeps (db db' : ObjDB) : Prop := obj_wf db' ∧ ∀ o, held db o → held db' o.

Lemma objs_keep_refl db : obj_wf db → keeps db db.
Proof. done. Qed.
Lemma objs_keep_trans a b c : keeps a b → keeps b c → keeps a c.
Proof. intros [_ H1'] [? H2']. split; [done|]. auto. Qed.

Lemma insert_nodes_mono nodes id l nodes' n : insert_nodes nodes id l = Ok nodes' → is_Some (nodes !! n) → is_Some (nodes' !! n).
Proof.
  revert nodes. induction l as [|x l IH]; intros nodes; cbn; [by intros [= <-]|].
  destruct (nodes !! gnID x) eqn:Hx; [done|]. intros Hi Hn. eapply IH; [exact Hi|].
  destruct (decide (gnID x = n)) as [<-|Hne]; [rewrite Hx in Hn; by destruct Hn|]. by rewrite lookup_insert_ne.
Qed.

Lemma insert_nodes_err nodes id l n : insert_nodes nodes id l = Err (ObjNodeExists n) →
  (∃ x, x ∈ l ∧ is_Some (nodes !! gnID x)) ∨ ¬ NoDup (map gnID l).
Proof.
  revert nodes. induction l as [|x l IH]; intros nodes; cbn; [done|].
  destruct (nodes !! gnID x) eqn:Hx; [intros _; left; exists x; split; [by left|by rewrite Hx]|].
  intros [(y & Hy & Hs)|Hnd]%IH.
  - destruct (decide (gnID x = gnID y)) as [He|Hne].
    + right. intros [Hni _]%NoDup_cons. apply Hni. rewrite He. by apply list_elem_of_fmap_2.
    + rewrite lookup_insert_ne in Hs by done. left. exists y. split; [by right|done].
  - right. by intros [_ ?]%NoDup_cons.
Qed.

Lemma drop_nodes_none db id : obj_wf db → (∀ r, r ∈ odRows db → orID r ≠ id) → drop_nodes (odNodes db) id = odNodes db.
Proof.
  intros Hwf Hno. unfold drop_nodes. apply map_filter_id. intros n [i x] Hn. cbn. intros ->.
  destruct (wf_nodes _ Hwf n id x Hn) as (r & Hr & He). by apply (Hno r Hr).
Qed.

Section creates.
Context `{GoEncodings} `{GoColumns}.

Lemma clashes_defaults o r : clashes (obj_defaults o) r = clashes o r.
Proof. done. Qed.

Lemma not_affected o db : affected (clashes o) db = false → ∀ r, r ∈ odRows db → orID r ≠ koID o.
Proof.
  intros Ha r Hr He. apply not_true_iff_false in Ha. apply Ha. unfold affected. apply existsb_exists'. exists r.
  split; [done|]. unfold clashes. by rewrite He, str_eqb_refl.
Qed.

Lemma create_keeps db o o' db' : obj_wf db → obj_Create db o = Ok (o', db') → keeps db db' ∧ held db' o.
Proof.
  intros Hwf Hc. pose proof (sound_ok _ _ _ (obj_Create_ok db o Hwf) Hc) as [Hwf' _].
  unfold obj_Create in Hc. apply bind_ok_inv in Hc as ([] & _ & Hc). cbv zeta in Hc.
  destruct (affected _ _) eqn:Ha; [done|].
  apply bind_ok_inv in Hc as (db1 & H1' & Hc). apply bind_ok_inv in Hc as (db2 & H2' & Hc). injection Hc as <- <-.
  unfold upsertObjectNodesTx in H1'. apply bind_ok_inv in H1' as (nodes & Hn & [= <-]).
  unfold insertObjectFTSTx in H2'. apply bind_ok_inv in H2' as (f1 & _ & H2'). apply bind_ok_inv in H2' as (f2 & _ & [= <-]).
  cbn [odNodes set_rows] in Hn. rewrite (drop_nodes_none _ _ Hwf (not_affected _ _ Ha)) in Hn. split.
  - split; [done|]. intros x [(r & Hr & Hx)|[(n & Hnx & Hs)|Hd]].
    + left. exists r. split; [|done]. cbn. apply elem_of_app. by left.
    + right. left. exists n. split; [done|]. cbn. by eapply insert_nodes_mono.
    + by right; right.
  - left. eexists. split; [cbn; apply elem_of_app; right; by left|]. unfold clashes, orID. cbn. by rewrite str_eqb_refl.
Qed.

(** A create refused on a unique index: the object is held already. *)
Lemma create_unique db o e : obj_wf db → obj_Create db o = Err e → isUniqueConstraintErr (ObjFault e) = true → held db o.
Proof.
  intros Hwf Hc He. unfold obj_Create in Hc. apply bind_err_inv in Hc as [Hm|([] & _ & Hc)].
  { unfold marshal in Hm. repeat (case_match; try done; simplify_eq). }
  cbv zeta in Hc. destruct (affected _ _) eqn:Ha.
  { left. unfold affected in Ha. apply existsb_exists' in Ha as (r & Hr & Hx). by exists r. }
  apply bind_err_inv in Hc as [Hn|(db1 & _ & Hc)].
  - unfold upsertObjectNodesTx in Hn. apply bind_err_inv in Hn as [Hn|(? & _ & ?)]; [|done].
    cbn [odNodes set_rows] in Hn. rewrite (drop_nodes_none _ _ Hwf (not_affected _ _ Ha)) in Hn.
    assert (∃ n, e = ObjNodeExists n) as [n ->].
    { revert Hn. clear. change (koGraph (obj_defaults o)) with (koGraph o). generalize (odNodes db).
      induction (match koGraph o with None => [] | Some g => ogNodes g end) as [|x l IH]; intros m; cbn; [done|].
      destruct (m !! gnID x); [intros [= <-]; by eexists|apply IH]. }
    right. exact (insert_nodes_err _ _ _ _ Hn).
  - apply bind_err_inv in Hc as [Hf|(? & _ & ?)]; [|done].
    assert (Hfe : ∀ fts id body, fts_insert fts id body = Err e → e = FTSCorrupt).
    { intros fts id body. unfold fts_insert. destruct (str_eqb _ _); [done|]. destruct (fts !! id); [by intros [= <-]|done]. }
    unfold insertObjectFTSTx in Hf. apply bind_err_inv in Hf as [->%Hfe|(? & _ & Hf)]; [done|].
    apply bind_err_inv in Hf as [->%Hfe|(? & _ & ?)]; done.
Qed.

(** ** The writes of a push *)
Lemma run_copy_objects source id contents w :
  wObjects (run (copy_contents source id contents) w).2 = wObjects w ∧
  ∀ e, (run (copy_contents source id contents) w).1 = Err e → isUniqueConstraintErr e = false.
Proof.
  revert w. induction contents as [|c contents IH]; intros w; [done|]. cbn [copy_contents].
  destruct (BlobKey c) as [key|]; [|apply IH]. cbn. case_bool_decide; [apply IH|].
  destruct (negb source); [split; [done|by intros e [= <-]]|]. cbn.
  destruct (wSource w !! key) as [b|]; cbn; [|split; [done|by intros e [= <-]]].
  destruct (IH (set_blobs w (<[key := mkBlob (bData b) (bMeta b) (Some (wNow w))]> (wBlobs w)))) as [Ho He]. split; [by rewrite Ho|done].
Qed.

Lemma run_write source obj w : obj_wf (wObjects w) →
  let '(r, w') := run (writeObject source obj) w in
  keeps (wObjects w) (wObjects w') ∧
  match r with
  | Ok _ => held (wObjects w') obj
  | Err e => isUniqueConstraintErr e = true → held (wObjects w') obj
  end.
Proof.
  intros Hwf. unfold writeObject, copyBlobs, try_. rewrite run_seq.
  destruct (run_copy_objects source (koID obj) [koRawContent obj; koTextContent obj] w) as [Ho1 He1].
  destruct (run (copy_contents _ _ _) w) as [[[]|e] w1]; cbn [fst snd] in *.
  2: { cbn. rewrite Ho1. split; [by apply objs_keep_refl|]. intros Hu. rewrite (He1 e eq_refl) in Hu. done. }
  cbn [call prog_seq prog_bind run exec]. unfold obj_reply. rewrite Ho1.
  destruct (obj_Create (wObjects w) obj) as [[o db]|e] eqn:Hc.
  - cbn [fst snd]. destruct (create_keeps _ _ _ _ Hwf Hc) as [Hk Hheld].
    destruct (run_copy_objects source (koID o) [koRawContent o; koTextContent o] (set_objects w1 db)) as [Ho2 He2].
    destruct (run (copy_contents source (koID o) _) (set_objects w1 db)) as [[[]|e] w2]; cbn [fst snd] in *; rewrite Ho2; cbn; done.
  - cbn. rewrite Ho1. split; [by apply objs_keep_refl|]. intros Hu. by eapply create_unique.
Qed.
End creates.

(** ** The local pusher *)
Section local.
Context `{GoEncodings} `{GoColumns}.

Lemma found_held w obj : found_hash w obj || found_id w obj = true → held (wObjects w) obj.
Proof.
  unfold found_hash, found_id. intros [Hh|Hi]%orb_true_iff; left.
  - apply andb_true_iff in Hh as [Hne Hf]. unfold obj_GetByContentHash in Hf.
    apply negb_true_iff in Hne as He. rewrite He in Hf.
    destruct (List.find _ _) as [r|] eqn:Hr; [|done]. apply find_some in Hr as [Hin Hb]. exists r.
    split; [by apply list_elem_of_In|]. unfold by_hash in Hb. apply andb_true_iff in Hb as [Hc%str_eqb_true Hp%str_eqb_true].
    unfold clashes. rewrite Hc, Hp, Hne, !str_eqb_refl. cbn. by rewrite orb_true_r.
  - apply andb_true_iff in Hi as [_ Hf]. unfold obj_Get in Hf. destruct (List.find _ _) as [r|] eqn:Hr; [|done].
    apply find_by_id in Hr as [Hin He]. exists r. split; [done|]. unfold clashes. by rewrite He, str_eqb_refl.
Qed.

Lemma local_objects_spec source w objs edges inserted r w' : obj_wf (wObjects w) →
  local_objects source w objs edges inserted = (r, w') →
  keeps (wObjects w) (wObjects w') ∧ (r = Ok tt → ∀ c : Change, c ∈ objs → held (wObjects w') c.1).
Proof.
  revert w inserted. induction objs as [|[obj seq] objs IH]; intros w inserted Hwf; cbn [local_objects].
  { intros [= <- <-]. split; [by apply objs_keep_refl|]. by intros _ c Hc%not_elem_of_nil. }
  assert (Hnext : ∀ w1 ins, keeps (wObjects w) (wObjects w1) → held (wObjects w1) obj →
    local_objects source w1 objs edges ins = (r, w') →
    keeps (wObjects w) (wObjects w') ∧ (r = Ok tt → ∀ c : Change, c ∈ (obj, seq) :: objs → held (wObjects w') c.1)).
  { intros w1 ins Hk Hh Hrest. destruct (IH w1 ins (proj1 Hk) Hrest) as [Hk' Hall]. split; [by eapply objs_keep_trans|].
    intros Hok c [->|Hc]%elem_of_cons; [by apply Hk'|by apply Hall]. }
  destruct (found_hash w obj || found_id w obj) eqn:Hf; [intros Hrest; apply (Hnext w inserted); [by apply objs_keep_refl|by apply found_held|done]|].
  pose proof (run_write source obj w Hwf) as Hw. destruct (run (writeObject source obj) w) as [[[]|e] w1]; destruct Hw as [Hk Hres].
  - destruct (insert_edges true (koID obj) edges (wEdges w1) inserted) as [[[e|] es] ins].
    + intros [= <- <-]. split; [done|done].
    + intros Hrest. by apply (Hnext (set_edges w1 es) ins).
  - destruct (isUniqueConstraintErr e) eqn:Hu; [intros Hrest; by apply (Hnext w1 inserted); [|apply Hres|]|].
    intros [= <- <-]. split; [done|done].
Qed.

#[export] Program Instance LocalPusher_laws : PusherLaws LocalTarget := {|
  mark t := GetWatermark (ltMarks t) (ltName t);
  holds t c := held (wObjects (ltWorld t)) c.1;
  sane t := obj_wf (wObjects (ltWorld t));
|}.
Next Obligation. intros t pos. cbn. unfold local_Watermark. destruct (ltRefused t); [done|]. by intros [= <-]. Qed.
Next Obligation.
  intros t objs edges ents r t' Hne Hs. cbn. unfold local_Push. destruct objs as [|c0 objs]; [done|]. set (l := c0 :: objs) in *.
  assert (Hopened : ∀ t1, wObjects (ltWorld t1) = wObjects (ltWorld t) → ltMarks t1 = ltMarks t → ltName t1 = ltName t →
    ∀ w1 r1, local_objects (ltSource t1) (ltWorld t1) l edges [] = (r1, w1) →
    (match r1 with Err e => (Err e, set_world t1 w1) | Ok _ => (Ok tt, set_mark (set_world t1 w1) (last_seq l)) end) = (r, t') →
    obj_wf (wObjects (ltWorld t')) ∧ (∀ c : Change, held (wObjects (ltWorld t)) c.1 → held (wObjects (ltWorld t')) c.1) ∧
    ∃ n, n <= length l ∧ (r = Ok tt → n = length l) ∧
      GetWatermark (ltMarks t') (ltName t') = match n with O => GetWatermark (ltMarks t) (ltName t) | S i => from_option (λ c : Change, c.2) 0%Z (l !! i) end ∧
      ∀ c : Change, c ∈ take n l → held (wObjects (ltWorld t')) c.1).
  { intros t1 Ho Hm Hn w1 r1 Hl. apply local_objects_spec in Hl as [[Hwf1 Hk] Hall]; [|rewrite Ho; exact Hs]. rewrite Ho in Hk.
    destruct r1 as [[]|e]; intros [= <- <-]; (split; [exact Hwf1|]); (split; [intros c; apply Hk|]).
    - exists (length l). split; [lia|]. split; [done|]. cbn. split.
      + unfold GetWatermark, SetWatermark. rewrite lookup_insert_eq. cbn. unfold last_seq. by rewrite last_lookup.
      + intros c Hc. rewrite firstn_all in Hc. by apply Hall.
    - exists 0. split; [lia|]. split; [done|]. split; [cbn; by rewrite Hm, Hn|]. by intros c Hc%not_elem_of_nil. }
  unfold openTarget. destruct (ltOpens t) as [|[e|] opens] eqn:Ho; cbn [tail].
  2: { intros [= <- <-]. split; [exact Hs|]. split; [done|]. exists 0. split; [lia|]. split; [done|]. split; [done|]. by intros c Hc%not_elem_of_nil. }
  all: match goal with |- context [local_objects ?a ?b ?c ?d []] => destruct (local_objects a b c d []) as [r1 w1] eqn:Hl end.
  all: intros Hr; eapply (Hopened (set_entities (mkLocalTarget (ltName t) (ltSource t) (ltWorld t) (ltEntities t) (ltMarks t) (ltRefused t) _) _));
    [done|done|done|exact Hl|exact Hr].
Qed.
Next Obligation.
  intros t seq r t' Hs. cbn. unfold local_Advance, openTarget.
  destruct (ltOpens t) as [|[e|] opens]; intros [= <- <-]; split; try done; split; try done; cbn;
    unfold GetWatermark, SetWatermark; by rewrite lookup_insert_eq.
Qed.
End local.

(** ** The receiver *)
Section receiver.
Context `{GoEncodings} `{GoColumns} `{GoUnicode} `{GoCrypto}.

Lemma run_ensure_objects obj blobs keys w : wObjects (run (ensure_keys obj blobs keys) w).2 = wObjects w.
Proof.
  revert w. induction keys as [|key keys IH]; intros w; [done|]. cbn [ensure_keys]. destruct (blobs !! key) as [content|]; [|apply IH].
  cbn. case_bool_decide; [apply IH|]. cbn. by rewrite (IH (set_blobs w _)).
Qed.
Lemma run_Ensure_objects store obj blobs w : wObjects (run (Ensure store obj blobs) w).2 = wObjects w.
Proof. unfold Ensure. destruct (decide _); [done|]. destruct (negb store); [done|apply run_ensure_objects]. Qed.

Lemma run_storable store threshold obj blobs w :
  let '(r, w') := run (storable store threshold obj blobs) w in
  wObjects w' = wObjects w ∧ match r with Ok (row, _) => ∃ raw text meta, row = with_content obj raw text meta | Err _ => True end.
Proof.
  unfold storable. destruct (meta_flag _ _).
  { destruct (_ ≫= any_string) as [key|]; [|done]. destruct (str_eqb key nostr); [done|]. cbn. split; [done|]. by eexists _, _, _. }
  destruct (_ || _); [cbn; split; [done|]; by eexists _, _, _|]. unfold Externalize.
  destruct (_ || _); [cbn; split; [done|]; by eexists _, _, _|]. cbn. destruct (_ || _); cbn; (split; [done|]); by eexists _, _, _.
Qed.

Lemma run_store_draft store row blobs w : obj_wf (wObjects w) →
  let '(d, w') := run (store_draft store row blobs) w in
  keeps (wObjects w) (wObjects w') ∧ (dnErr d = None → held (wObjects w') row).
Proof.
  intros Hwf. unfold store_draft, try_. rewrite run_seq. cbn [call run exec]. unfold obj_reply.
  destruct (obj_Create (wObjects w) row) as [[o db]|e] eqn:Hc; [|split; [by apply objs_keep_refl|done]]. cbn [fst snd].
  destruct (create_keeps _ _ _ _ Hwf Hc) as [Hk Hh]. rewrite run_seq.
  pose proof (run_Ensure_objects store o blobs (set_objects w db)) as Ho.
  destruct (run (Ensure store o blobs) (set_objects w db)) as [[[]|e] w1]; cbn [fst snd] in *; cbn; rewrite Ho; done.
Qed.

Lemma accept_objects_spec rc w objs edges inserted created r w' : obj_wf (wObjects w) →
  accept_objects rc w objs edges inserted created = (r, w') →
  keeps (wObjects w) (wObjects w') ∧ (∀ n, r = Ok n → ∀ o, o ∈ objs → held (wObjects w') o).
Proof.
  revert w inserted created. induction objs as [|obj objs IH]; intros w inserted created Hwf; cbn [accept_objects].
  { intros [= <- <-]. split; [by apply objs_keep_refl|]. by intros _ _ o Ho%not_elem_of_nil. }
  assert (Hnext : ∀ w1 ins n, keeps (wObjects w) (wObjects w1) → held (wObjects w1) obj →
    accept_objects rc w1 objs edges ins n = (r, w') →
    keeps (wObjects w) (wObjects w') ∧ (∀ n, r = Ok n → ∀ o, o ∈ obj :: objs → held (wObjects w') o)).
  { intros w1 ins n Hk Hh Hrest. destruct (IH w1 ins n (proj1 Hk) Hrest) as [Hk' Hall]. split; [by eapply objs_keep_trans|].
    intros m Hok o [->|Ho]%elem_of_cons; [by apply Hk'|by eapply Hall]. }
  destruct (found_hash w obj) eqn:Hf.
  { intros Hrest. apply (Hnext w inserted created); [by apply objs_keep_refl|apply found_held; by rewrite Hf|done]. }
  pose proof (run_storable (rcStore rc) (rcThreshold rc) obj ∅ w) as Hst.
  destruct (run (storable _ _ obj ∅) w) as [[[row blobs]|e] w1]; destruct Hst as [Ho1 Hrow].
  2: { intros [= <- <-]. rewrite Ho1. split; [by apply objs_keep_refl|done]. }
  destruct Hrow as (raw & text & meta & ->). rewrite <- Ho1 in Hwf.
  pose proof (run_store_draft (rcStore rc) (with_content obj raw text meta) blobs w1 Hwf) as Hsd.
  destruct (run (store_draft _ _ blobs) w1) as [d w2]. destruct Hsd as [Hk Hh]. rewrite Ho1 in Hk.
  destruct (dnErr d) as [e|]; [intros [= <- <-]; split; done|].
  destruct (insert_edges false (koID obj) edges (wEdges w2) inserted) as [[[e|] es] ins]; [intros [= <- <-]; split; done|].
  intros Hrest. eapply (Hnext (set_edges w2 es)); [exact Hk|exact (Hh eq_refl)|exact Hrest].
Qed.

(** ** The remote pusher *)
Context `{GoWire}.

(** What the receiver gets for an object. *)
Definition sent (o : KnowledgeObject) (enc : KnowledgeObject) : Prop := ∃ raw text, wire (with_content o raw text (koMetadata o)) = Some enc.
Definition rheld (t : RemoteTarget) (c : Change) : Prop := ∃ enc, sent c.1 enc ∧ held (wObjects (rcWorld (rtReceiver t))) enc.
Definition rmark (t : RemoteTarget) : Z := GetWatermark (rtMarks t) (rtName t).
Definition rsane (t : RemoteTarget) : Prop := obj_wf (wObjects (rcWorld (rtReceiver t))).

(** The receiver lets nothing go; the mark is untouched. *)
Definition rkeeps (t t' : RemoteTarget) : Prop :=
  keeps (wObjects (rcWorld (rtReceiver t))) (wObjects (rcWorld (rtReceiver t'))) ∧ rmark t' = rmark t.

Lemma push_keeps rc body : obj_wf (wObjects (rcWorld rc)) →
  let '(code, rc') := FederationPush rc body in
  keeps (wObjects (rcWorld rc)) (wObjects (rcWorld rc')) ∧
  (code = 200%Z → ∀ o, o ∈ pbObjects body → held (wObjects (rcWorld rc')) o).
Proof.
  intros Hwf. unfold FederationPush. destruct (negb (rcAdmits rc)); [split; [by apply objs_keep_refl|done]|].
  destruct (_ <? _)%Z; [split; [by apply objs_keep_refl|done]|]. unfold FederationAccept.
  destruct (accept_objects rc (rcWorld rc) (pbObjects body) (pbEdges body) [] 0) as [r w] eqn:Ha.
  apply accept_objects_spec in Ha as [Hk Hall]; [|done]. destruct r as [n|e]; (split; [done|]); [intros _; by eapply Hall|done].
Qed.

Lemma send_spec attempts t body why r t' : rsane t → send_attempts attempts t body why = (r, t') →
  rkeeps t t' ∧ (r = Ok tt → ∀ o, o ∈ pbObjects body → held (wObjects (rcWorld (rtReceiver t'))) o).
Proof.
  revert t why. induction attempts as [|attempts IH]; intros t why Hs; cbn [send_attempts].
  { intros [= <- <-]. split; [split; [by apply objs_keep_refl|done]|done]. }
  pose proof (push_keeps (rtReceiver t) body Hs) as Hp.
  assert (Hnext : ∀ rc net why', keeps (wObjects (rcWorld (rtReceiver t))) (wObjects (rcWorld rc)) →
    send_attempts attempts (set_sent t rc net) body why' = (r, t') →
    rkeeps t t' ∧ (r = Ok tt → ∀ o, o ∈ pbObjects body → held (wObjects (rcWorld (rtReceiver t'))) o)).
  { intros rc net why' Hk Hrest. destruct (IH (set_sent t rc net) why' (proj1 Hk) Hrest) as [[Hk' Hm] Hall].
    split; [|done]. split; [by eapply objs_keep_trans|done]. }
  destruct (FederationPush (rtReceiver t) body) as [code rc]. destruct Hp as [Hk Hall].
  destruct (hd Answered (rtNet t)).
  - destruct (code =? 200)%Z eqn:Hc; [intros [= <- <-]; split; [by split|intros _; apply Hall; lia]|].
    destruct (_ && _); [intros [= <- <-]; split; [by split|done]|]. by apply Hnext.
  - apply Hnext. by apply objs_keep_refl.
  - by apply Hnext.
Qed.

Lemma flush_spec t pd r t' : rsane t → flush t pd = (r, t') →
  keeps (wObjects (rcWorld (rtReceiver t))) (wObjects (rcWorld (rtReceiver t'))) ∧
  (r ≠ Ok tt → rmark t' = rmark t) ∧
  (r = Ok tt → (∀ o, o ∈ pbObjects (pdBody pd) → held (wObjects (rcWorld (rtReceiver t'))) o) ∧
     rmark t' = match pbObjects (pdBody pd) with [] => rmark t | _ => pdLast pd end).
Proof.
  intros Hs. unfold flush, send. destruct (send_attempts 3 t (pdBody pd) _) as [rs t1] eqn:Hsend.
  apply send_spec in Hsend as [[Hk Hm] Hall]; [|done]. destruct rs as [[]|[code|why]].
  - intros [= <- <-]. specialize (Hall eq_refl). destruct (pbObjects (pdBody pd)) as [|o l].
    + split; [done|]. split; [done|]. intros _. by split.
    + split; [exact Hk|]. split; [done|]. intros _. split; [exact Hall|]. unfold rmark, GetWatermark. cbn.
      unfold SetWatermark. by rewrite lookup_insert_eq.
  - destruct (_ && _); intros [= <- <-]; split; done.
  - intros [= <- <-]. split; done.
Qed.

Lemma encode_sent t o enc : encodeInline t o = Ok enc → sent o enc.
Proof.
  unfold encodeInline. destruct (run (Content _ (koRawContent o)) _).1 as [raw|]; [|done].
  destruct (run (Content _ (koTextContent o)) _).1 as [text|]; [|done].
  destruct (wire _) as [enc'|] eqn:Hw; [|done]. intros [= <-]. by exists raw, text.
Qed.

Lemma rheld_keeps t t' c : keeps (wObjects (rcWorld (rtReceiver t))) (wObjects (rcWorld (rtReceiver t'))) → rheld t c → rheld t' c.
Proof. intros Hk (enc & Hs & Hh). exists enc. split; [done|by apply Hk]. Qed.

(** The mark once [l] is acknowledged, from [m0]. *)
Definition mark_after (m0 : Z) (l : list Change) : Z := match l with [] => m0 | _ => last_seq l end.

Lemma mark_after_app m0 l k : k ≠ [] → mark_after m0 (l ++ k) = last_seq k.
Proof.
  intros Hk. destruct (l ++ k) as [|c l'] eqn:Hlk; [by apply app_eq_nil in Hlk as [_ ->]|].
  unfold mark_after. rewrite <- Hlk. unfold last_seq. rewrite last_app. by destruct (last k) eqn:Hl; [|apply last_None in Hl].
Qed.

Lemma remote_objects_spec m0 all t i rest edges_of pd acked pend r t' :
  rsane t → all = acked ++ pend ++ rest → pend ++ rest ≠ [] →
  (∀ c, c ∈ acked → rheld t c) → rmark t = mark_after m0 acked →
  Forall2 (λ (c : Change) enc, sent c.1 enc) pend (pbObjects (pdBody pd)) → (pend ≠ [] → pdLast pd = last_seq pend) →
  remote_objects t i rest edges_of pd = (r, t') →
  rsane t' ∧ (∀ c, rheld t c → rheld t' c) ∧ ∃ k, k `prefix_of` all ∧ (r = Ok tt → k = all) ∧
    rmark t' = mark_after m0 k ∧ ∀ c, c ∈ k → rheld t' c.
Proof.
  revert t i pd acked pend. induction rest as [|c rest IH]; intros t i pd acked pend Hs Hall Hne Hacked Hmark Hpend Hlast; cbn [remote_objects].
  - rewrite app_nil_r in Hall, Hne. intros Hf. apply flush_spec in Hf as (Hk & Hbad & Hgood); [|done].
    split; [apply Hk|]. split; [intros c; by apply rheld_keeps|]. destruct r as [[]|e].
    + destruct (Hgood eq_refl) as [Hheld Hm]. exists all. split; [done|]. split; [done|]. split.
      * rewrite Hm, Hall, mark_after_app, <- Hlast by done. inversion Hpend as [Hp1 Hp2|]; subst; [done|]. done.
      * intros c. rewrite Hall. intros [Hc|Hc]%elem_of_app; [by eapply rheld_keeps, Hacked|].
        destruct (Forall2_in_l _ _ _ _ Hpend Hc) as (enc & Henc & Hsent). exists enc. split; [done|by apply Hheld].
    + exists acked. split; [rewrite Hall; by exists pend|]. split; [done|]. split; [by rewrite Hbad|].
      intros c Hc. by eapply rheld_keeps, Hacked.
  - destruct (encodeInline t c.1) as [enc|e] eqn:Henc.
    2: { intros [= <- <-]. split; [done|]. split; [done|]. exists acked. split; [rewrite Hall; by eexists|]. done. }
    apply encode_sent in Henc. cbv zeta. destruct (_ && _ && _) eqn:Hfull.
    + apply andb_true_iff in Hfull as [[Hnz _]%andb_true_iff _].
      assert (Hpne : pend ≠ []) by (intros ->; apply Forall2_nil_inv_l in Hpend; rewrite Hpend in Hnz; done).
      destruct (flush t pd) as [rf t1] eqn:Hf. apply flush_spec in Hf as (Hk & Hbad & Hgood); [|done]. destruct rf as [[]|e].
      * destruct (Hgood eq_refl) as [Hheld Hm]. intros Hrest.
        assert (Hm1 : rmark t1 = mark_after m0 (acked ++ pend)).
        { rewrite Hm, mark_after_app, <- Hlast by done. inversion Hpend; subst; done. }
        eapply (IH t1 (S i) _ (acked ++ pend) [c]) in Hrest as (Hs' & Hh' & Hrest');
          [|apply Hk|by rewrite Hall, <- app_assoc|done| |exact Hm1|cbn; by constructor|done].
        2: { intros x [Hx|Hx]%elem_of_app; [by eapply rheld_keeps, Hacked|].
             destruct (Forall2_in_l _ _ _ _ Hpend Hx) as (ex & Hex & Hsx). exists ex. split; [done|by apply Hheld]. }
        split; [done|]. split; [intros x Hx; by eapply Hh', rheld_keeps|done].
      * intros [= <- <-]. split; [apply Hk|]. split; [intros x; by apply rheld_keeps|]. exists acked.
        split; [rewrite Hall; by eexists|]. split; [done|]. split; [by rewrite Hbad|]. intros x Hx. by eapply rheld_keeps, Hacked.
    + intros Hrest. eapply (IH t (S i) _ acked (pend ++ [c])); [done|by rewrite Hall, <- !app_assoc| |done|done| | |exact Hrest].
      * by destruct pend.
      * cbn. apply Forall2_app; [done|]. by constructor.
      * intros _. cbn. unfold last_seq. by rewrite last_snoc.
Qed.

Lemma mark_after_prefix m0 (k all : list Change) : k `prefix_of` all →
  mark_after m0 k = match length k with O => m0 | S i => from_option (λ c : Change, c.2) 0%Z (all !! i) end.
Proof.
  intros [rest ->]. destruct k as [|c k]; [done|]. cbn [length]. unfold mark_after, last_seq. rewrite last_lookup. cbn [length pred].
  by rewrite lookup_app_l by (cbn; lia).
Qed.

#[export] Program Instance RemotePusher_laws : PusherLaws RemoteTarget := {| mark := rmark; holds := rheld; sane := rsane |}.
Next Obligation. intros t pos. cbn. by intros [= <-]. Qed.
Next Obligation.
  intros t objs edges ents r t' Hne Hs Hp. cbn in Hp. unfold remote_Push in Hp. destruct (assignEdges objs edges) as [eo loose].
  eapply (remote_objects_spec (rmark t) objs _ _ _ _ _ [] []) in Hp; [|done|done|done|by intros c Hc%not_elem_of_nil|done|constructor|done].
  destruct Hp as (Hs' & Hh & k & Hk & Hok & Hm & Hheld). split; [done|]. split; [done|]. exists (length k).
  split; [by apply prefix_length|]. split; [by intros ->%Hok|]. split; [by rewrite <- mark_after_prefix|].
  destruct Hk as [rest ->]. rewrite take_app_length. done.
Qed.
Next Obligation.
  intros t seq r t' Hs. cbn. intros [= <- <-]. split; [done|]. split; [done|]. unfold rmark, GetWatermark. cbn.
  unfold SetWatermark. by rewrite lookup_insert_eq.
Qed.
End receiver.
