(* ===== verification/FederationLiveness.v ===== *)
(** * Federation gets through

    Every sync ends.  And one object that cannot be pushed does not hold back the
    rest: from a source that has come to rest, to a target that refuses only such
    objects, each failed sync brings the next nearer to the end, and after at
    most three of them per such object a sync succeeds, with everything else
    held by the target.  What held means there FederationLocal says. *)

From S2P Require Import Prelude GoStrings Objects Classes Contact Projection JobStore ObjectDB EdgeDB ObjectSafety Encodings Blobs BlobText ServiceContent Federation FederationSafety FederationTargets.

(** ** A sync ends *)
Section ends.
Context `{GoEncodings} `{GoColumns} {T : Type} `{!Pusher T} `{!PusherLaws T}.

(** The rows still ahead. *)
Definition rows_after (db : ObjDB) (pos : Z) : nat := length (List.filter (λ r, (pos <? orSeq r)%Z) (odRows db)).

Lemma filter_le {A} (p q : A → bool) l : (∀ x, x ∈ l → q x = true → p x = true) → length (List.filter q l) <= length (List.filter p l).
Proof.
  induction l as [|x l IH]; intros Hpq; [done|]. cbn. specialize (IH (λ y Hy, Hpq y (list_elem_of_further _ _ _ Hy))).
  specialize (Hpq x (list_elem_of_here _ _)). destruct (q x) eqn:Hq; [rewrite Hpq by done; cbn; lia|]. destruct (p x); cbn; lia.
Qed.
Lemma filter_lt {A} (p q : A → bool) l y : y ∈ l → p y = true → q y = false → (∀ x, x ∈ l → q x = true → p x = true) →
  length (List.filter q l) < length (List.filter p l).
Proof.
  intros Hy Hp Hq Hpq. induction l as [|x l IH]; [by apply not_elem_of_nil in Hy|].
  assert (Hpq' : ∀ z, z ∈ l → q z = true → p z = true) by (intros z Hz; apply Hpq; by right).
  cbn. apply elem_of_cons in Hy as [->|Hy].
  - rewrite Hp, Hq. cbn. pose proof (filter_le p q l Hpq'). lia.
  - specialize (IH Hy Hpq'). specialize (Hpq x (list_elem_of_here _ _)). destruct (q x) eqn:Hqx; [rewrite Hpq by done; cbn; lia|].
    destruct (p x); cbn; lia.
Qed.

Lemma filter_true {A} (l : list A) : List.filter (λ _, true) l = l.
Proof. induction l as [|x l IH]; [done|]. cbn. by rewrite IH. Qed.

Lemma rows_after_page db pos limit : obj_wf db → changes db pos limit ≠ [] →
  rows_after db (last_seq (changes db pos limit)) < rows_after db pos.
Proof.
  intros Hwf Hne. destruct (last_seq_in (changes db pos limit) Hne) as (c & Hc & Hl & _).
  apply list_elem_of_fmap in Hc as (r & -> & Hr). destruct (page_rows db pos limit Hwf) as (_ & Hrows & _).
  destruct (Hrows r Hr) as [Hin Hpos]. rewrite Hl. cbn. unfold rows_after. apply (filter_lt _ _ _ r); [done|lia|lia|].
  intros x _. lia.
Qed.

(** Some set of objects given up, whatever the Syncer has been through. *)
Lemma skip_given_some (s : Syncer) : skip_given s (list_to_set (map_to_list (sySkip s))).
Proof. intros id seq Hi. apply elem_of_list_to_set. by apply elem_of_map_to_list. Qed.

Lemma sync_pages_ends src fuel s t pos pushed :
  obj_wf (fsObjects src) → sane t → rows_after (fsObjects src) pos < fuel → is_Some (sync_pages fuel src s t pos pushed).
Proof.
  intros Hwf. revert s t pos pushed. induction fuel as [|fuel IH]; intros s t pos pushed Hs Hlt; [lia|]. cbn [sync_pages].
  destruct (sync_page_spec _ src s t pos Hwf Hs (skip_given_some s)) as (e & s' & t' & -> & _ & _ & Ha & He).
  destruct e as [n|n e|n q]; [by eexists|by eexists|]. destruct He as (-> & _ & Hne).
  apply IH; [apply Ha|]. pose proof (rows_after_page (fsObjects src) pos (syBatchSize s) Hwf Hne). lia.
Qed.

(** A sync ends: with any Syncer, against any target that keeps the contract,
    [Sync]'s loop is over after at most one round per row of the source, and a
    page is pushed at most twice. *)
Theorem Sync_terminates src s t : obj_wf (fsObjects src) → sane t → ∃ pushed e s' t', Sync src s t = Some (pushed, e, s', t').
Proof.
  intros Hwf Hs. unfold Sync. destruct (p_Watermark t) as [pos|e]; [|by eexists _, _, _, _].
  destruct (sync_pages_ends src (S (length (odRows (fsObjects src)))) (prune s pos) t pos 0 Hwf Hs) as [[[[pushed e] s'] t'] He].
  { unfold rows_after. pose proof (filter_le (λ _, true) (λ r, (pos <? orSeq r)%Z) (odRows (fsObjects src)) ltac:(done)) as Hle.
    rewrite filter_true in Hle. lia. }
  by exists pushed, e, s', t'.
Qed.
End ends.

(** ** A target that refuses only bad objects

    [bad]: the objects no push can deliver; [known]: the objects the source may
    push.  A push fails at the first bad object and names it; the mark never
    passes it. *)
Class Reliable (T : Type) `{!Pusher T} `{!PusherLaws T} (known : Change → Prop) (bad : Change → bool) : Type := {
  rel : T → Prop;
  rel_Watermark t : rel t → p_Watermark t = Ok (mark t);
  rel_Push t objs edges ents r t' :
    rel t → sane t → objs ≠ [] → (∀ c, c ∈ objs → known c) → ascending (A:=Change) snd objs →
    p_Push t objs edges ents = (r, t') →
    rel t' ∧ match List.find bad objs with
             | None => r = Ok tt
             | Some c => (∃ cause, r = Err (ObjectFailure (chID c) cause)) ∧ (mark t' = mark t ∨ (mark t' < c.2)%Z)
             end;
  rel_Advance t seq r t' : rel t → p_Advance t seq = (r, t') → rel t' ∧ r = Ok tt;
}.

Section live.
Context `{GoEncodings} `{GoColumns} {T : Type} `{!Pusher T} `{!PusherLaws T}.
Context (src : FedSource) (Hwf : obj_wf (fsObjects src)) (bad : Change → bool)
  (known : Change → Prop) (Hknown : ∀ r, r ∈ odRows (fsObjects src) → known (change_of r)) `{!Reliable T known bad}.
Let rows := odRows (fsObjects src).

Definition row_entry (r : ObjRow) : string * Z := (orID r, orSeq r).

(** A bad row not given up yet, and how many there are. *)
Definition due (gave : Given) (r : ObjRow) : Prop := r ∈ rows ∧ bad (change_of r) = true ∧ row_entry r ∉ gave.
Definition dues (gave : Given) : nat := length (List.filter (λ r, bad (change_of r) && bool_decide (row_entry r ∉ gave)) rows).

(** The object the last syncs failed on is the first due. *)
Definition failing_ok (gave : Given) (s : Syncer) : Prop :=
  (syFailures s = 0 ∧ syFailingSeq s = 0)%Z ∨
  (0 < syFailures s < maxObjectFailures)%Z ∧
  ∃ r, due gave r ∧ syFailingID s = orID r ∧ syFailingSeq s = orSeq r ∧ ∀ x, due gave x → (orSeq r <= orSeq x)%Z.

(** How far the syncs are from the end. *)
Definition distance (gave : Given) (s : Syncer) : Z := 3 * Z.of_nat (dues gave) - syFailures s.

Lemma distance_pos gave s : failing_ok gave s → (0 <= distance gave s)%Z.
Proof.
  intros Hl. unfold distance. destruct Hl as [[-> _]|[Hf (r & (Hr & Hb & Hg) & _)]]; [lia|].
  assert (0 < dues gave)%nat; [|unfold maxObjectFailures in Hf; lia]. unfold dues.
  destruct (List.filter _ rows) as [|x l] eqn:He; [|cbn; lia]. exfalso.
  assert (Hin : r ∈ List.filter (λ r, bad (change_of r) && bool_decide (row_entry r ∉ gave)) rows).
  { apply list_elem_of_In, filter_In. split; [by apply list_elem_of_In|]. rewrite Hb. by rewrite bool_decide_eq_true_2. }
  rewrite He in Hin. by apply not_elem_of_nil in Hin.
Qed.

Lemma same_seq r x : r ∈ rows → x ∈ rows → orSeq r = orSeq x → r = x.
Proof. intros Hr Hx He. exact (NoDup_map_inj orSeq rows r x (wf_seqs _ Hwf) Hr Hx He). Qed.

Section round.
Context (pos : Z) (limit : Z).
Let page := changes (fsObjects src) pos limit.

Lemma page_change c : c ∈ page → ∃ r, c = change_of r ∧ r ∈ rows ∧ (pos < orSeq r)%Z ∧ r ∈ changed_rows (fsObjects src) pos limit.
Proof.
  intros (r & -> & Hr)%list_elem_of_fmap. destruct (page_rows (fsObjects src) pos limit Hwf) as (_ & Hin & _).
  destruct (Hin r Hr) as [? ?]. by exists r.
Qed.

(** A row ahead is in the page or behind its end. *)
Lemma ahead_page r c : r ∈ rows → (pos < orSeq r)%Z → c ∈ page → change_of r ∈ page ∨ (c.2 < orSeq r)%Z.
Proof.
  intros Hr Hpos Hc. apply page_change in Hc as (x & -> & _ & _ & Hx). cbn.
  destruct (decide (orSeq r <= orSeq x)%Z) as [Hle|]; [left|right; lia].
  destruct (page_rows (fsObjects src) pos limit Hwf) as (_ & _ & Hall).
  apply list_elem_of_fmap. exists r. split; [done|]. by apply (Hall r x).
Qed.

Lemma find_ascending {A} (f : A → Z) (p : A → bool) l c x : ascending f l → List.find p l = Some c → x ∈ l → p x = true → (f c <= f x)%Z.
Proof.
  induction 1 as [|y l Hs IH Hall]; cbn; [done|]. destruct (p y) eqn:Hy.
  - intros [= <-] [->|Hx]%elem_of_cons _; [done|]. rewrite Forall_forall in Hall. specialize (Hall x Hx). cbn in Hall. lia.
  - intros Hf [->|Hx]%elem_of_cons Hpx; [congruence|by apply IH].
Qed.

(** What is sent of a page finds the first due row first. *)
Lemma send_bad gave s c : skip_given s gave → (∀ e, e ∈ gave → sySkip s !! e.1 = Some e.2 ∨ (e.2 <= pos)%Z) →
  List.find bad (to_send s page) = Some c →
  ∃ r, c = change_of r ∧ due gave r ∧ c ∈ to_send s page ∧ (pos < orSeq r)%Z ∧
    ∀ x, due gave x → (pos < orSeq x)%Z → (orSeq r <= orSeq x)%Z.
Proof.
  intros Hskip Hkept Hf. pose proof Hf as [Hin Hb]%find_some. apply list_elem_of_In in Hin.
  pose proof Hin as [Hp Hns]%elem_of_to_send. pose proof Hp as (r & -> & Hr & Hpos & Hrp)%page_change. exists r.
  assert (Hng : row_entry r ∉ gave).
  { intros Hg. destruct (Hkept _ Hg) as [Hk|Hk]; [by apply Hns|cbn in Hk; lia]. }
  split; [done|]. split; [done|]. split; [done|]. split; [done|]. intros x (Hx & Hbx & Hgx) Hxpos.
  destruct (ahead_page x (change_of r) Hx Hxpos Hp) as [Hxp|Hlt]; [|cbn in Hlt; lia].
  assert (Hxs : change_of x ∈ to_send s page).
  { apply elem_of_to_send. split; [done|]. intros Hk. apply Hgx. by apply Hskip in Hk. }
  assert (Hasc : ascending (A:=Change) snd (to_send s page)) by (apply ascending_filter; by apply ascending_changes).
  exact (find_ascending (A:=Change) snd bad _ _ _ Hasc Hf Hxs Hbx).
Qed.

(** A page all of which is acknowledged leaves no due row behind. *)
Lemma page_ahead gave s : skip_given s gave → page ≠ [] → List.find bad (to_send s page) = None →
  ∀ x, due gave x → (pos < orSeq x)%Z → (last_seq page < orSeq x)%Z.
Proof.
  intros Hskip Hne Hf x (Hx & Hbx & Hgx) Hpos. destruct (last_seq_in page Hne) as (c & Hc & -> & _).
  destruct (ahead_page x c Hx Hpos Hc) as [Hxp|?]; [exfalso|done].
  assert (Hxs : change_of x ∈ to_send s page).
  { apply elem_of_to_send. split; [done|]. intros Hk. apply Hgx. by apply Hskip in Hk. }
  apply list_elem_of_In in Hxs. pose proof (find_none _ _ Hf _ Hxs) as Hb. cbn in Hb. by rewrite Hbx in Hb.
Qed.

(** Ids are distinct in a page: the object named is the one that failed. *)
Lemma find_named s c : c ∈ to_send s page → findObject (to_send s page) (chID c) = Some c.
Proof.
  intros Hc. unfold findObject. destruct (List.find _ _) as [d|] eqn:Hf.
  - apply find_some in Hf as [Hd%list_elem_of_In He%str_eqb_true]. apply elem_of_to_send in Hd as [Hd _], Hc as [Hc _].
    apply page_change in Hd as (x & -> & Hx & _), Hc as (r & -> & Hr & _). f_equal. f_equal.
    exact (NoDup_map_inj orID rows x r (wf_ids _ Hwf) Hx Hr He).
  - apply list_elem_of_In in Hc. pose proof (find_none _ _ Hf _ Hc) as Hn. cbn in Hn. by rewrite str_eqb_refl in Hn.
Qed.

Lemma clear_failing gave s : failing_ok gave s → (∀ x, due gave x → (last_seq page < orSeq x)%Z) →
  syFailures (clearFailing s page) = syFailures s ∧ failing_ok gave (clearFailing s page).
Proof.
  intros Hf Hahead. unfold clearFailing. destruct (findObject page (syFailingID s)) as [c|] eqn:Hc; [|done].
  destruct (c.2 =? syFailingSeq s)%Z eqn:He; [|done]. destruct Hf as [[Hz _]|[_ (r & Hd & _ & Hs & _)]]; [split; [by rewrite Hz|by left]|].
  exfalso. apply find_some in Hc as [Hin%list_elem_of_In _].
  pose proof (ascending_last page c (ascending_changes _ _ _ Hwf) Hin). specialize (Hahead r Hd). lia.
Qed.

(** The Syncer's count after a push failed on the first due row. *)
Definition after_failure (s : Syncer) (c : Change) : Syncer :=
  if str_eqb (chID c) (syFailingID s) && (c.2 =? syFailingSeq s)%Z then set_failing s (syFailingID s) (syFailingSeq s) (syFailures s + 1)
  else set_failing s (chID c) c.2 1.

Lemma count_failure gave s r : failing_ok gave s → due gave r → (∀ x, due gave x → (orSeq r <= orSeq x)%Z) →
  same_skips s (after_failure s (change_of r)) ∧ syFailures (after_failure s (change_of r)) = (syFailures s + 1)%Z ∧
  ((syFailures s + 1 < maxObjectFailures)%Z → failing_ok gave (after_failure s (change_of r))) ∧ (0 <= syFailures s < maxObjectFailures)%Z.
Proof.
  intros Hf Hd Hmin. unfold after_failure. change (chID (change_of r)) with (orID r). cbn [change_of snd].
  pose proof (wf_seq _ Hwf r (proj1 Hd)) as Hpos.
  destruct Hf as [[Hz Hs]|[Hc (x & Hx & Hi & Hs & Hxmin)]].
  - rewrite Hs, Hz. destruct (orSeq r =? 0)%Z eqn:He; [lia|]. rewrite andb_false_r. split; [done|]. split; [done|].
    split; [|unfold maxObjectFailures; lia]. intros _. right. split; [cbn; unfold maxObjectFailures; lia|]. by exists r.
  - assert (r = x) as -> by (apply same_seq; [apply Hd|apply Hx|]; specialize (Hmin x Hx); specialize (Hxmin r Hd); lia).
    rewrite Hi, Hs, str_eqb_refl, Z.eqb_refl. cbn [andb]. split; [done|]. split; [done|]. split; [|lia].
    intros Hlt. right. cbn. split; [lia|]. by exists x.
Qed.

Definition round_ok (gave : Given) (t : T) : Prop := sane t ∧ rel t ∧ (pos <= mark t)%Z ∧ ∀ x, due gave x → (mark t < orSeq x)%Z.

Lemma live_round fuel gave s t :
  round_ok gave t → skip_given s gave → (∀ e, e ∈ gave → sySkip s !! e.1 = Some e.2 ∨ (e.2 <= pos)%Z) → failing_ok gave s → page ≠ [] →
  (∃ n s' t', pushPage (S fuel) src s t page = Some (Ok n, s', t') ∧ same_skips s s' ∧ syFailures s' = syFailures s ∧
     failing_ok gave s' ∧ round_ok gave t' ∧ mark t' = last_seq page) ∨
  (∃ e s' t', pushPage (S fuel) src s t page = Some (Err e, s', t') ∧ same_skips s s' ∧ syFailures s' = (syFailures s + 1)%Z ∧
     failing_ok gave s' ∧ round_ok gave t') ∨
  (∃ s1 t1 r cause, pushPage (S fuel) src s t page = pushPage fuel src (skipObject s1 (change_of r) cause) t1 page ∧
     same_skips s s1 ∧ due gave r ∧ (syFailures s + 1 = maxObjectFailures)%Z ∧ round_ok gave t1).
Proof.
  intros (Hs & Hrel & Hpos & Hahead) Hskip Hkept Hfail Hne. cbn [pushPage].
  assert (Hbeyond : ∀ x, due gave x → (pos < orSeq x)%Z) by (intros x Hx; specialize (Hahead x Hx); lia).
  destruct (match to_send s page with [] => (Ok tt, t) | _ => pushObjects src t (to_send s page) end) as [r t1] eqn:Hp.
  destruct (List.find bad (to_send s page)) as [c|] eqn:Hfind.
  - destruct (send_bad gave s c Hskip Hkept Hfind) as (x & -> & Hd & Hsent & _ & Hmin').
    assert (Hmin : ∀ y, due gave y → (orSeq x <= orSeq y)%Z) by (intros y Hy; by apply Hmin', Hbeyond).
    assert (Hsne : to_send s page ≠ []) by (intros He; rewrite He in Hsent; by apply not_elem_of_nil in Hsent).
    assert (Hpush : pushObjects src t (to_send s page) = (r, t1)) by (destruct (to_send s page); done). clear Hp.
    pose proof (push_advances gave src s t page r t1 (ascending_changes _ _ _ Hwf) Hs Hskip Hsne Hpush) as [[Hs1 _ Hm1] _].
    unfold pushObjects in Hpush.
    assert (Hk : ∀ c, c ∈ to_send s page → known c).
    { intros c [Hcp _]%elem_of_to_send. apply page_change in Hcp as (y & -> & Hy & _). by apply Hknown. }
    pose proof (rel_Push _ _ _ _ _ _ Hrel Hs Hsne Hk (ascending_filter _ _ _ (ascending_changes _ _ _ Hwf)) Hpush) as [Hrel1 Hres].
    rewrite Hfind in Hres. destruct Hres as [[cause ->] Hmark].
    rewrite (find_named s _ Hsent).
    assert (Hround : round_ok gave t1).
    { split; [done|]. split; [done|]. split.
      - destruct Hm1 as [->|(d & Hdp & -> & _)]; [done|]. apply page_change in Hdp as (y & -> & _ & Hy & _). cbn. lia.
      - intros y Hy. destruct Hmark as [->|Hlt]; [by apply Hahead|]. specialize (Hmin y Hy). cbn in Hlt. lia. }
    fold (after_failure s (change_of x)). destruct (count_failure gave s x Hfail Hd Hmin) as (Hsame & Hcount & Hok & Hrange).
    rewrite Hcount. destruct (syFailures s + 1 <? maxObjectFailures)%Z eqn:Hlt.
    + right. left. eexists _, _, _. split; [done|]. split; [done|]. split; [done|]. split; [apply Hok; lia|done].
    + right. right. exists (after_failure s (change_of x)), t1, x, cause. split; [done|]. split; [done|]. split; [done|].
      split; [lia|done].
  - left. pose proof (page_ahead gave s Hskip Hne Hfind) as Hend.
    assert (Hend' : ∀ x, due gave x → (last_seq page < orSeq x)%Z) by (intros x Hx; by apply Hend, Hbeyond).
    assert (Hr1 : r = Ok tt ∧ sane t1 ∧ rel t1 ∧ (to_send s page ≠ [] → mark t1 = last_seq (to_send s page))).
    { destruct (to_send s page) as [|c0 l] eqn:Hl; [injection Hp as <- <-; done|]. rewrite <- Hl in *.
      assert (Hsne : to_send s page ≠ []) by by rewrite Hl.
      pose proof (push_advances gave src s t page r t1 (ascending_changes _ _ _ Hwf) Hs Hskip Hsne Hp) as [[Hs1 _ _] Hm1].
      unfold pushObjects in Hp.
      assert (Hk : ∀ c, c ∈ to_send s page → known c).
      { intros c [Hcp _]%elem_of_to_send. apply page_change in Hcp as (y & -> & Hy & _). by apply Hknown. }
      pose proof (rel_Push _ _ _ _ _ _ Hrel Hs Hsne Hk (ascending_filter _ _ _ (ascending_changes _ _ _ Hwf)) Hp) as [Hrel1 Hres].
      rewrite Hfind in Hres. split; [done|]. split; [done|]. split; [done|]. intros _. by apply Hm1. }
    destruct Hr1 as (-> & Hs1 & Hrel1 & Hm1). destruct (clear_failing gave s Hfail Hend') as [Hcount Hf'].
    assert (Hlast : (pos <= last_seq page)%Z).
    { destruct (last_seq_in page Hne) as (d & Hdp & -> & _). apply page_change in Hdp as (y & -> & _ & Hy & _). cbn. lia. }
    assert (Hdone : ∀ t2, sane t2 → rel t2 → mark t2 = last_seq page → round_ok gave t2).
    { intros t2 Hs2 Hrel2 Hm2. split; [done|]. split; [done|]. rewrite Hm2. done. }
    destruct (match to_send s page with [] => true | _ => _ end) eqn:Hadv.
    + destruct (p_Advance t1 (last_seq page)) as [ra t2] eqn:Ha.
      destruct (rel_Advance _ _ _ _ Hrel1 Ha) as [Hrel2 ->]. destruct (law_Advance _ _ _ _ Hs1 Ha) as (Hs2 & _ & Hm2).
      eexists _, _, _. split; [done|]. split; [apply same_clear|]. split; [done|]. split; [done|]. split; [by apply Hdone|done].
    + assert (Hmt : mark t1 = last_seq page).
      { destruct (to_send s page) as [|c0 l] eqn:Hl; [done|]. rewrite Hm1 by done. by apply negb_false_iff, Z.eqb_eq in Hadv. }
      eexists _, _, _. split; [done|]. split; [apply same_clear|]. split; [done|]. split; [done|]. split; [by apply Hdone|done].
Qed.
End round.

(** The skips agree with what was given up. *)
Record skips_ok (pos : Z) (gave : Given) (s : Syncer) : Prop := {
  sk_given : skip_given s gave;
  sk_kept : ∀ e, e ∈ gave → sySkip s !! e.1 = Some e.2 ∨ (e.2 <= pos)%Z;
  sk_logged : logged s ⊆ gave;
  sk_gave : ∀ e, e ∈ gave → ∃ r, r ∈ rows ∧ bad (change_of r) = true ∧ e = row_entry r;
}.

Lemma skips_same pos gave s s' : same_skips s s' → skips_ok pos gave s → skips_ok pos gave s'.
Proof.
  intros Hsame [Hg Hk Hl Hb]. split; [by apply (skip_given_mono s _ gave)| | |done].
  - intros e He. rewrite (proj1 (proj2 Hsame)). by apply Hk.
  - by rewrite (logged_same _ _ Hsame).
Qed.

Lemma logged_skip_inv s c cause e : e ∈ logged (skipObject s c cause) → e ∈ logged s ∨ e = entry c.
Proof.
  unfold logged. rewrite !elem_of_list_to_set. intros (k & -> & Hk)%list_elem_of_fmap. unfold skipObject in Hk. cbn in Hk.
  apply subseteq_drop, elem_of_app in Hk as [Hk|Hk]; [left; apply list_elem_of_fmap; by exists k|right].
  by apply list_elem_of_singleton in Hk as ->.
Qed.

Lemma skips_give pos gave s r cause : (∀ x, due gave x → (pos < orSeq x)%Z) → due gave r → skips_ok pos gave s →
  skips_ok pos (gave ∪ {[ row_entry r ]}) (skipObject s (change_of r) cause).
Proof.
  intros Hahead (Hr & Hb & Hng) [Hg Hk Hl Hbad]. split.
  - intros id seq Hi. cbn in Hi. apply lookup_insert_Some in Hi as [[<- <-]|[_ Hi]]; [set_solver|]. apply Hg in Hi. set_solver.
  - intros e [He| ->%elem_of_singleton]%elem_of_union; cbn; [|left; by rewrite lookup_insert_eq].
    destruct (decide (e.1 = orID r)) as [Hid|Hid].
    + destruct (Hbad e He) as (x & Hx & _ & ->). cbn in Hid. exfalso. apply Hng.
      by rewrite <- (NoDup_map_inj orID rows x r (wf_ids _ Hwf) Hx Hr Hid).
    + rewrite lookup_insert_ne by done. by apply Hk.
  - intros e [He| ->]%logged_skip_inv; [apply Hl in He; set_solver|]. apply elem_of_union. right. by apply elem_of_singleton.
  - intros e [He| ->%elem_of_singleton]%elem_of_union; [by apply Hbad|by exists r].
Qed.

Lemma due_mono gave gave' r : gave ⊆ gave' → due gave' r → due gave r.
Proof. intros Hg (Hr & Hb & Hn). split; [done|]. split; [done|]. intros Hin. by apply Hn, Hg. Qed.

Lemma dues_give gave r : due gave r → dues (gave ∪ {[ row_entry r ]}) < dues gave.
Proof.
  intros (Hr & Hb & Hn). unfold dues. apply (filter_lt _ _ _ r); [done| | |].
  - rewrite Hb. by rewrite bool_decide_eq_true_2.
  - rewrite bool_decide_eq_false_2; [by rewrite andb_false_r|]. set_solver.
  - intros x _ [Hbx Hx]%andb_true_iff. rewrite Hbx. apply bool_decide_eq_true in Hx. apply bool_decide_eq_true. set_solver.
Qed.

Lemma round_ok_mono pos gave gave' t : gave ⊆ gave' → round_ok pos gave t → round_ok pos gave' t.
Proof. intros Hg (Hs & Hr & Hp & Ha). split; [done|]. split; [done|]. split; [done|]. intros x Hx. apply Ha. by eapply due_mono. Qed.

(** A page: it goes through, or the distance shrinks. *)
Lemma live_push pos limit gave s t :
  round_ok pos gave t → skips_ok pos gave s → failing_ok gave s → changes (fsObjects src) pos limit ≠ [] →
  ∃ r s' t' gave', pushPage push_fuel src s t (changes (fsObjects src) pos limit) = Some (r, s', t') ∧
    gave ⊆ gave' ∧ syBatchSize s' = syBatchSize s ∧ round_ok pos gave' t' ∧ skips_ok pos gave' s' ∧ failing_ok gave' s' ∧
    match r with
    | Ok _ => mark t' = last_seq (changes (fsObjects src) pos limit) ∧ (distance gave' s' <= distance gave s)%Z
    | Err _ => (distance gave' s' < distance gave s)%Z
    end.
Proof.
  intros Hround Hsk Hf Hne. unfold push_fuel, distance.
  destruct (live_round pos limit 1 gave s t Hround (sk_given _ _ _ Hsk) (sk_kept _ _ _ Hsk) Hf Hne)
    as [(n & s' & t' & -> & Hsame & Hc & Hf' & Hr' & Hm)|[(e & s' & t' & -> & Hsame & Hc & Hf' & Hr')|(s1 & t1 & r & cause & -> & Hsame & Hd & Hc & Hr1)]].
  - exists (Ok n), s', t', gave. split; [done|]. split; [done|]. split; [apply Hsame|]. split; [done|].
    split; [by eapply skips_same|]. split; [done|]. split; [done|lia].
  - exists (Err e), s', t', gave. split; [done|]. split; [done|]. split; [apply Hsame|]. split; [done|].
    split; [by eapply skips_same|]. split; [done|lia].
  - set (gave' := gave ∪ {[ row_entry r ]}). set (s2 := skipObject s1 (change_of r) cause).
    assert (Hahead : ∀ x, due gave x → (pos < orSeq x)%Z).
    { intros x Hx. destruct Hround as (_ & _ & Hp & Ha). specialize (Ha x Hx). lia. }
    assert (Hsk2 : skips_ok pos gave' s2) by (apply skips_give; [done|done|by eapply skips_same]).
    assert (Hsub : gave ⊆ gave') by (unfold gave'; set_solver).
    pose proof (dues_give gave r Hd) as Hlt. fold gave' in Hlt.
    assert (Hb2 : syBatchSize s2 = syBatchSize s) by apply Hsame.
    destruct (live_round pos limit 0 gave' s2 t1 (round_ok_mono _ _ _ _ Hsub Hr1) (sk_given _ _ _ Hsk2) (sk_kept _ _ _ Hsk2)
                ltac:(by left) Hne)
      as [(n & s' & t' & -> & Hsame2 & Hc2 & Hf' & Hr' & Hm)|[(e & s' & t' & -> & Hsame2 & Hc2 & Hf' & Hr')|(_ & _ & _ & _ & _ & _ & _ & Hc2 & _)]].
    + exists (Ok n), s', t', gave'. split; [done|]. split; [done|]. split; [rewrite <- Hb2; apply Hsame2|]. split; [done|].
      split; [by eapply skips_same|]. split; [done|]. split; [done|]. unfold maxObjectFailures in Hc. cbn in Hc2. lia.
    + exists (Err e), s', t', gave'. split; [done|]. split; [done|]. split; [rewrite <- Hb2; apply Hsame2|]. split; [done|].
      split; [by eapply skips_same|]. split; [done|]. unfold maxObjectFailures in Hc. cbn in Hc2. lia.
    + exfalso. unfold maxObjectFailures in Hc2. cbn in Hc2. lia.
Qed.

Record live (pos : Z) (gave : Given) (s : Syncer) (t : T) : Prop := {
  lv_round : round_ok pos gave t;
  lv_skips : skips_ok pos gave s;
  lv_failing : failing_ok gave s;
  lv_covers : covers (fsObjects src) t gave (mark t);
}.

Lemma skips_prune pos pos' gave s : (pos <= pos')%Z → skips_ok pos gave s → skips_ok pos' gave (prune s pos').
Proof.
  intros Hle [Hg Hk Hl Hb]. split; [by apply skip_given_prune| |done|done]. intros e He.
  destruct (decide (e.2 <= pos')%Z) as [|Hgt]; [by right|left]. destruct (Hk e He) as [Hs|]; [|lia].
  cbn. apply map_lookup_filter_Some. split; [done|]. cbn. lia.
Qed.

(** A sync begins where the target stands. *)
Lemma live_begin pos gave s t : live pos gave s t → live (mark t) gave (prune s (mark t)) t.
Proof.
  intros [(Hs & Hr & Hp & Ha) Hsk Hf Hc]. split; [done|by eapply skips_prune|done|done].
Qed.

Lemma short_page pos limit r : (Z.of_nat (length (changes (fsObjects src) pos limit)) < limit)%Z →
  r ∈ rows → (pos < orSeq r)%Z → change_of r ∈ changes (fsObjects src) pos limit.
Proof.
  unfold changes, changed_rows. rewrite length_map. set (l := SliceStable _ _). intros Hlt Hr Hpos.
  apply list_elem_of_fmap. exists r. split; [done|]. rewrite firstn_all2.
  - unfold l. rewrite SliceStable_perm. apply list_elem_of_In, filter_In. split; [by apply list_elem_of_In|].
    rewrite changed_conditions. lia.
  - rewrite length_take in Hlt. lia.
Qed.

Lemma live_page gave s t : live (mark t) gave s t → (0 < syBatchSize s)%Z →
  ∃ e s' t' gave' pos', sync_page src s t (mark t) = Some (e, s', t') ∧ live pos' gave' s' t' ∧ syBatchSize s' = syBatchSize s ∧
    match e with
    | PageDone _ => (∀ r, r ∈ rows → orSeq r <= mark t')%Z
    | PageMore _ q => q = mark t' ∧ pos' = mark t' ∧ (distance gave' s' <= distance gave s)%Z
    | PageFailed _ _ => (distance gave' s' < distance gave s)%Z
    end.
Proof.
  intros [Hround Hsk Hf Hc] Hb.
  destruct (sync_page_spec gave src s t (mark t) Hwf (proj1 Hround) (sk_given _ _ _ Hsk)) as (e & s' & t' & Hpage & _ & _ & Hadv & _).
  unfold sync_page in *. set (page := changes (fsObjects src) (mark t) (syBatchSize s)) in *.
  destruct (decide (page = [])) as [He|Hne].
  { exists (PageDone 0), s, t, gave, (mark t). rewrite He. split; [done|]. split; [by split|]. split; [done|].
    intros r Hr. destruct (decide (orSeq r <= mark t)%Z) as [|Hgt]; [done|exfalso].
    pose proof (short_page (mark t) (syBatchSize s) r) as Hin. fold page in Hin. rewrite He in Hin.
    by apply (not_elem_of_nil (change_of r)), Hin; [cbn; lia| |lia]. }
  destruct (live_push (mark t) (syBatchSize s) gave s t Hround Hsk Hf Hne)
    as (r & s1 & t1 & gave' & Hpush & Hsub & Hbatch & Hround' & Hsk' & Hf' & Hres). fold page in Hpush, Hres.
  assert (Hmatch : ∀ A (x y : A), match page with [] => x | _ :: _ => y end = y) by (intros; by destruct page).
  rewrite Hmatch, Hpush in Hpage |- *.
  assert (Hcov : covers (fsObjects src) t1 gave' (mark t1)).
  { assert (s1 = s' ∨ s' = prune s1 (last_seq page)) as Hs1.
    { destruct r as [n|f]; [destruct (_ <? _)%Z|]; injection Hpage as <- <- <-; auto. }
    assert (Ht1 : t1 = t') by (destruct r as [n|f]; [destruct (_ <? _)%Z|]; by injection Hpage).
    assert (Hlog : logged s' = logged s1) by (by destruct Hs1 as [->| ->]). rewrite Hlog in Hadv. subst t'.
    apply (covers_page _ t _ gave _ (mark t) (syBatchSize s)); [done..|]. destruct Hadv as [Ha1 Ha2 Ha3]. split; [done|done|].
    destruct Ha3 as [?|(c & Hcp & Hcm & Hd)]; [by left|right]. exists c. split; [done|]. split; [done|]. intros d Hdp Hle.
    destruct (Hd d Hdp Hle) as [?|Hg]; [by left|right]. apply elem_of_union in Hg as [Hg|Hg]; [by apply Hsub|by apply (sk_logged _ _ _ Hsk')]. }
  destruct r as [n|f].
  - destruct Hres as [Hm Hdist].
    assert (Hlive : live (mark t1) gave' (prune s1 (last_seq page)) t1).
    { split; [|rewrite <- Hm; eapply skips_prune; [|exact Hsk']; apply Hround'|done|done].
      destruct Hround' as (? & ? & ? & ?). done. }
    change (syBatchSize (prune s1 (last_seq page))) with (syBatchSize s1).
    destruct (Z.of_nat (length page) <? syBatchSize s1)%Z eqn:Hlen.
    + exists (PageDone n), (prune s1 (last_seq page)), t1, gave', (mark t1). split; [done|]. split; [done|]. split; [done|]. intros r Hr.
      destruct (decide (mark t < orSeq r)%Z) as [Hgt|]; [|destruct Hround' as (_ & _ & ? & _); lia].
      rewrite Hm. assert (Hin : change_of r ∈ page) by (apply short_page; [rewrite Hbatch in Hlen; fold page; lia|done|done]).
      exact (ascending_last page _ (ascending_changes _ _ _ Hwf) Hin).
    + exists (PageMore n (last_seq page)), (prune s1 (last_seq page)), t1, gave', (mark t1). done.
  - exists (PageFailed 0 f), s1, t1, gave', (mark t). done.
Qed.

Lemma live_pages fuel gave s t pushed : live (mark t) gave s t → (0 < syBatchSize s)%Z → rows_after (fsObjects src) (mark t) < fuel →
  ∃ n e s' t' gave' pos', sync_pages fuel src s t (mark t) pushed = Some (n, e, s', t') ∧ live pos' gave' s' t' ∧
    syBatchSize s' = syBatchSize s ∧
    match e with
    | None => (∀ r, r ∈ rows → orSeq r <= mark t')%Z
    | Some _ => (distance gave' s' < distance gave s)%Z
    end.
Proof.
  revert gave s t pushed. induction fuel as [|fuel IH]; intros gave s t pushed Hl Hb Hlt; [lia|]. cbn [sync_pages].
  destruct (live_page gave s t Hl Hb) as (e & s' & t' & gave' & pos' & Hpage & Hl' & Hb' & He). rewrite Hpage.
  destruct e as [n|n f|n q].
  - by exists (pushed + n)%Z, None, s', t', gave', pos'.
  - by exists (pushed + n)%Z, (Some f), s', t', gave', pos'.
  - destruct He as (-> & -> & Hd).
    assert (Hlt' : rows_after (fsObjects src) (mark t') < fuel).
    { destruct (sync_page_spec gave src s t (mark t) Hwf (proj1 (lv_round _ _ _ _ Hl)) (sk_given _ _ _ (lv_skips _ _ _ _ Hl)))
        as (e & s1 & t1 & Hp1 & _ & _ & _ & Hm). rewrite Hpage in Hp1. injection Hp1 as <- <- <-. destruct Hm as (Hq & _ & Hne).
      pose proof (rows_after_page (fsObjects src) (mark t) (syBatchSize s) Hwf Hne) as Hr. rewrite <- Hq in Hr. lia. }
    destruct (IH gave' s' t' (pushed + n)%Z Hl' ltac:(lia) Hlt') as (n2 & e2 & s2 & t2 & gave2 & pos2 & Hrun & Hl2 & Hb2 & He2).
    exists n2, e2, s2, t2, gave2, pos2. split; [done|]. split; [done|]. split; [congruence|]. destruct e2; [lia|done].
Qed.

Lemma live_Sync pos gave s t : live pos gave s t → (0 < syBatchSize s)%Z →
  ∃ n e s' t' gave' pos', Sync src s t = Some (n, e, s', t') ∧ live pos' gave' s' t' ∧ syBatchSize s' = syBatchSize s ∧
    match e with
    | None => (∀ r, r ∈ rows → orSeq r <= mark t')%Z
    | Some _ => (distance gave' s' < distance gave s)%Z
    end.
Proof.
  intros Hl Hb. unfold Sync. rewrite rel_Watermark by apply (lv_round _ _ _ _ Hl).
  apply (live_pages _ gave (prune s (mark t))); [by eapply live_begin|done|].
  unfold rows_after. pose proof (filter_le (λ _, true) (λ r, (mark t <? orSeq r)%Z) (odRows (fsObjects src)) ltac:(done)) as Hle.
  rewrite filter_true in Hle. lia.
Qed.

(** The state after so many syncs. *)
Fixpoint after_syncs (k : nat) (s : Syncer) (t : T) : option (Syncer * T) :=
  match k with
  | O => Some (s, t)
  | S k => match Sync src s t with None => None | Some (_, _, s, t) => after_syncs k s t end
  end.

Lemma live_syncs gave pos s t : live pos gave s t → (0 < syBatchSize s)%Z →
  ∃ k s1 t1 n s' t' gave' pos', (Z.of_nat k <= distance gave s)%Z ∧ after_syncs k s t = Some (s1, t1) ∧
    Sync src s1 t1 = Some (n, None, s', t') ∧ live pos' gave' s' t' ∧ ∀ r, r ∈ rows → (orSeq r <= mark t')%Z.
Proof.
  intros Hl Hb. remember (Z.to_nat (distance gave s)) as m eqn:Hm. revert gave pos s t Hl Hb Hm.
  induction (lt_wf m) as [m _ IH]. intros gave pos s t Hl Hb ->.
  pose proof (distance_pos gave s (lv_failing _ _ _ _ Hl)) as Hpos.
  destruct (live_Sync pos gave s t Hl Hb) as (n & e & s' & t' & gave' & pos' & Hs & Hl' & Hb' & He). destruct e as [f|].
  - pose proof (distance_pos gave' s' (lv_failing _ _ _ _ Hl')) as Hpos'.
    destruct (IH (Z.to_nat (distance gave' s')) ltac:(lia) gave' pos' s' t' Hl' ltac:(lia) eq_refl)
      as (k & s1 & t1 & n' & s2 & t2 & gave2 & pos2 & Hk & Hafter & Hrest).
    exists (S k), s1, t1, n', s2, t2, gave2, pos2. split; [lia|]. cbn [after_syncs]. rewrite Hs. done.
  - by exists 0, s, t, n, s', t', gave', pos'.
Qed.

(** From a source that has come to rest to a target that refuses only bad objects:
    of the syncs of a new Syncer at most three fail per bad object before one
    succeeds, which leaves the watermark at the end of the source and the target
    holding every object that is not bad. *)
Lemma syncs_get_through batch t :
  sane t → rel t → mark t = 0%Z →
  ∃ k s1 t1 n s' t', k <= 3 * length (List.filter (λ r, bad (change_of r)) (odRows (fsObjects src))) ∧
    after_syncs k (NewSyncer batch) t = Some (s1, t1) ∧ Sync src s1 t1 = Some (n, None, s', t') ∧ rel t' ∧
    ∀ r, r ∈ odRows (fsObjects src) → (orSeq r <= mark t')%Z ∧ (bad (change_of r) = false → holds t' (change_of r)).
Proof.
  intros Hs Hrel Hm.
  assert (Hl : live 0 ∅ (NewSyncer batch) t).
  { split.
    - split; [done|]. split; [done|]. rewrite Hm. split; [done|]. intros x (Hx & _). pose proof (wf_seq _ Hwf x Hx). lia.
    - split; [intros id seq Hi; cbn in Hi; by rewrite lookup_empty in Hi|set_solver..].
    - by left.
    - rewrite Hm. intros r Hr Hle. pose proof (wf_seq _ Hwf r Hr). lia. }
  destruct (live_syncs ∅ 0 (NewSyncer batch) t Hl) as (k & s1 & t1 & n & s' & t' & gave' & pos' & Hk & Hafter & Hsync & Hl' & Hall).
  { unfold NewSyncer, DefaultBatchSize. cbn. destruct (batch <=? 0)%Z eqn:Hb; lia. }
  exists k, s1, t1, n, s', t'. split; [|split; [done|split; [done|split; [apply (lv_round _ _ _ _ Hl')|]]]].
  - unfold distance, dues in Hk. cbn in Hk.
    pose proof (filter_le (λ r, bad (change_of r)) (λ r, bad (change_of r) && bool_decide (row_entry r ∉ (∅ : Given))) rows) as Hle.
    specialize (Hle ltac:(by intros x _ [? _]%andb_true_iff)). fold rows.
    set (n1 := length (List.filter _ rows)) in *. set (n2 := length (List.filter _ rows)) in Hle. lia.
  - intros r Hr. split; [by apply Hall|]. intros Hb. destruct (lv_covers _ _ _ _ Hl' r Hr (Hall r Hr)) as [?|Hg]; [done|exfalso].
    destruct (sk_gave _ _ _ (lv_skips _ _ _ _ Hl') _ Hg) as (x & Hx & Hbx & He).
    injection He as Hid _. rewrite (NoDup_map_inj orID rows r x (wf_ids _ Hwf) Hr Hx Hid) in Hb. congruence.
Qed.
End live.
