(* ===== verification/FederationLocal.v ===== *)
(** * The local target refuses only objects whose blobs are gone

    It opens, the blobs it lacks are those the source lacks, and its rows are
    copies of the source's: the hypotheses of FederationLiveness hold of it, and
    what its syncs deliver is the source's objects themselves, with their blobs
    (federation_gets_through). *)

From S2P Require Import Prelude GoStrings Objects Classes Contact Projection JobStore ObjectDB EdgeDB ObjectSafety Encodings Blobs BlobText ServiceContent BlobSafety Federation FederationSafety FederationTargets FederationLiveness.

Section local_reliable.
Context `{GoEncodings} `{GoColumns} (db : ObjDB) (Hwf : obj_wf db) (blobs : gmap string BlobEntry).

Definition lost (c : Change) : bool := existsb (λ k, negb (bool_decide (is_Some (blobs !! k)))) (content_keys c.1).
Definition from_source (c : Change) : Prop := ∃ r, r ∈ odRows db ∧ c = change_of r ∧ marshal c.1 = Ok tt.

(** A row of the target is a copy of a row of the source none of whose blobs is
    lost, as a create stores it, with its blobs. *)
Definition copy_of (w : World) (r x : ObjRow) : Prop :=
  orObj x = obj_defaults (change_of r).1 ∧ ∀ k, k ∈ content_keys (orObj x) → is_Some (wBlobs w !! k).
Definition world_rel (w : World) : Prop :=
  wSource w = blobs ∧ (∀ k, blobs !! k = None → wBlobs w !! k = None) ∧
  (∀ x, x ∈ odRows (wObjects w) → ∃ r, r ∈ odRows db ∧ lost (change_of r) = false ∧ copy_of w r x) ∧
  ∀ n, is_Some (odNodes (wObjects w) !! n) → ∃ x, x ∈ odRows (wObjects w) ∧ n ∈ map gnID (graph_nodes (orObj x)).

Definition local_rel (t : LocalTarget) : Prop :=
  ltOpens t = [] ∧ ltRefused t = None ∧ ltSource t = true ∧ world_rel (ltWorld t).

Lemma insert_edges_ok id edges t inserted : (insert_edges true id edges t inserted).1.1 = None.
Proof.
  revert t inserted. induction edges as [|e edges IH]; intros t inserted; cbn; [done|].
  destruct (_ && _); [done|]. destruct (contains _ _); [done|]. unfold edge_Create. by destruct (has_edge _ _).
Qed.

(** The target's blobs only grow. *)
Definition blobs_kept (w w' : World) : Prop := ∀ k, is_Some (wBlobs w !! k) → is_Some (wBlobs w' !! k).

Lemma world_rel_blobs w w' : wSource w' = wSource w → wObjects w' = wObjects w → blobs_kept w w' →
  (∀ k, blobs !! k = None → wBlobs w' !! k = None) → world_rel w → world_rel w'.
Proof.
  intros Hs Ho Hk Hb (Hs0 & _ & Hc & Hn). split; [congruence|]. split; [done|]. rewrite Ho. split; [|done]. intros x Hx.
  destruct (Hc x Hx) as (r & Hr & Hl & He & Hkeys). exists r. split; [done|]. split; [done|]. split; [done|]. auto.
Qed.

(** Copying the blobs of some contents: all there, or the first missing named. *)
Lemma run_copy_ok id contents w : world_rel w →
  ∃ w', wObjects w' = wObjects w ∧ world_rel w' ∧ blobs_kept w w' ∧
  if existsb (λ k, negb (bool_decide (is_Some (blobs !! k)))) (omap BlobKey contents)
  then ∃ k, run (copy_contents true id contents) w = (Err (BlobMissing k), w')
  else run (copy_contents true id contents) w = (Ok tt, w') ∧ ∀ k, k ∈ omap BlobKey contents → is_Some (wBlobs w' !! k).
Proof.
  revert w. induction contents as [|c contents IH]; intros w Hw.
  { exists w. split; [done|]. split; [done|]. split; [by intros k|]. split; [done|]. by intros k ?%not_elem_of_nil. }
  cbn [copy_contents omap list_omap]. destruct (BlobKey c) as [key|]; [|exact (IH w Hw)]. cbn. pose proof Hw as (Hs & Hb & Hn).
  assert (Hnext : ∀ w1, wObjects w1 = wObjects w → world_rel w1 → blobs_kept w w1 → is_Some (wBlobs w1 !! key) → is_Some (blobs !! key) →
    ∃ w', wObjects w' = wObjects w ∧ world_rel w' ∧ blobs_kept w w' ∧
    if negb (bool_decide (is_Some (blobs !! key))) || existsb (λ k, negb (bool_decide (is_Some (blobs !! k)))) (omap BlobKey contents)
    then ∃ k, run (copy_contents true id contents) w1 = (Err (BlobMissing k), w')
    else run (copy_contents true id contents) w1 = (Ok tt, w') ∧ ∀ k, k ∈ key :: omap BlobKey contents → is_Some (wBlobs w' !! k)).
  { intros w1 Ho1 Hw1 Hk1 Hhave Hsrc. rewrite (bool_decide_eq_true_2 (is_Some (blobs !! key))) by done. cbn.
    destruct (IH w1 Hw1) as (w' & Ho' & Hw' & Hk' & Hres). exists w'. split; [congruence|]. split; [done|].
    split; [intros k Hk; by apply Hk', Hk1|]. destruct (existsb _ _); [done|]. destruct Hres as [Hrun Hall]. split; [done|].
    intros k [->|Hk]%elem_of_cons; auto. }
  destruct (decide (is_Some (wBlobs w !! key))) as [Hhave|Hhave].
  - rewrite (bool_decide_eq_true_2 (is_Some (wBlobs w !! key))) by done. apply Hnext; [done|done|by intros k|done|].
    destruct (blobs !! key) eqn:Hk; [done|]. rewrite (Hb _ Hk) in Hhave. by destruct Hhave.
  - rewrite (bool_decide_eq_false_2 (is_Some (wBlobs w !! key))) by done. cbn. rewrite Hs. destruct (blobs !! key) as [b|] eqn:Hk; rewrite ?Hk in Hnext.
    + cbn. assert (Hkept : blobs_kept w (set_blobs w (<[key := mkBlob (bData b) (bMeta b) (Some (wNow w))]> (wBlobs w)))).
      { intros k Hik. cbn. rewrite lookup_insert. case_decide; [by eexists|done]. }
      apply Hnext; [done| |done|cbn; rewrite lookup_insert_eq; by eexists|by eexists].
      apply (world_rel_blobs w); [done..| |done]. intros k Hnk. cbn. rewrite lookup_insert_ne by congruence. by apply Hb.
    + rewrite bool_decide_eq_false_2 by (intros [? ?]; done). cbn. exists w. split; [done|]. split; [done|]. split; [by intros k|by eexists].
Qed.

(** A create fails only on a duplicate. *)
Lemma create_total d o : obj_wf d → marshal o = Ok tt →
  match obj_Create d o with Ok _ => True | Err e => isUniqueConstraintErr (ObjFault e) = true end.
Proof.
  intros Hd Hm. pose proof (obj_Create_ok d o Hd) as Hsound. destruct (obj_Create d o) as [|e] eqn:Hc; [done|]. cbn in Hsound.
  unfold obj_Create in Hc. rewrite Hm in Hc. cbv zeta in Hc. apply bind_err_inv in Hc as [?|([] & _ & Hc)]; [done|].
  destruct (affected _ _); [by injection Hc as <-|]. apply bind_err_inv in Hc as [Hn|(d1 & _ & Hc)].
  - unfold upsertObjectNodesTx in Hn. apply bind_err_inv in Hn as [Hn|(? & _ & ?)]; [|done]. revert Hn.
    generalize (drop_nodes (odNodes (set_rows d (odRows d ++ [mkObjRow (obj_defaults o) (ipFTSBody (ProjectIndex (Some (obj_defaults o))))
      (ipMaskedFTSBody (ProjectIndex (Some (obj_defaults o)))) ProjectionVersion (odCounter d + 1)], (odCounter d + 1)%Z))) (koID (obj_defaults o))).
    induction (match koGraph (obj_defaults o) with None => [] | Some g => ogNodes g end) as [|x l IH]; intros m; cbn; [done|].
    destruct (m !! gnID x); [by intros [= <-]|apply IH].
  - apply bind_err_inv in Hc as [Hf|(? & _ & ?)]; [|done]. exfalso. apply Hsound.
    assert (Hfe : ∀ fts id body, fts_insert fts id body = Err e → e = FTSCorrupt).
    { intros fts id body. unfold fts_insert. destruct (str_eqb _ _); [done|]. destruct (fts !! id); [by intros [= <-]|done]. }
    unfold insertObjectFTSTx in Hf. apply bind_err_inv in Hf as [->%Hfe|(? & _ & Hf)]; [done|].
    apply bind_err_inv in Hf as [->%Hfe|(? & _ & ?)]; done.
Qed.

(** The row's references are the object's. *)
Lemma defaults_keys o k : k ∈ content_keys (obj_defaults o) → k ∈ content_keys o.
Proof.
  unfold content_keys. rewrite !list_elem_of_omap. change (koRawContent (obj_defaults o)) with (koRawContent o).
  change (koTextContent (obj_defaults o)) with (BodyText (Some o)).
  intros (c & [->|[->|Hc%not_elem_of_nil]%elem_of_cons]%elem_of_cons & Hk); [by exists (koRawContent o); split; [left|]| |done].
  exfalso. unfold BodyText in Hk. destruct (List.find _ _) as [t|] eqn:Hf; [|done]. apply find_some in Hf as [_ Hf].
  apply andb_true_iff in Hf as [_ Hf]. unfold BlobKey in Hk. by destruct (IsBlobRef t).
Qed.

Lemma create_new d o o' d' : obj_Create d o = Ok (o', d') →
  (∀ x, x ∈ odRows d → x ∈ odRows d') ∧ ∃ x, x ∈ odRows d' ∧ orObj x = obj_defaults o.
Proof.
  unfold obj_Create. intros Hc. apply bind_ok_inv in Hc as ([] & _ & Hc). cbv zeta in Hc. destruct (affected _ _); [done|].
  apply bind_ok_inv in Hc as (db1 & [H1' _]%nodes_rows & Hc). apply bind_ok_inv in Hc as (db2 & [H2' _]%fts_rows & Hc).
  injection Hc as <- <-. rewrite H2', H1'. cbn. split; [intros x Hx; apply elem_of_app; by left|].
  eexists. split; [apply elem_of_app; right; by left|done].
Qed.

Lemma create_rows d o o' d' x : obj_Create d o = Ok (o', d') → x ∈ odRows d' → x ∈ odRows d ∨ orObj x = obj_defaults o.
Proof.
  unfold obj_Create. intros Hc. apply bind_ok_inv in Hc as ([] & _ & Hc). cbv zeta in Hc. destruct (affected _ _); [done|].
  apply bind_ok_inv in Hc as (db1 & [H1' _]%nodes_rows & Hc). apply bind_ok_inv in Hc as (db2 & [H2' _]%fts_rows & Hc).
  injection Hc as <- <-. rewrite H2', H1'. cbn. intros [Hx|Hx]%elem_of_app; [by left|].
  apply list_elem_of_singleton in Hx as ->. by right.
Qed.

Lemma create_nodes d o o' d' n : obj_Create d o = Ok (o', d') → is_Some (odNodes d' !! n) →
  is_Some (odNodes d !! n) ∨ n ∈ map gnID (graph_nodes (obj_defaults o)).
Proof.
  assert (Hins : ∀ l id m m', insert_nodes m id l = Ok m' → is_Some (m' !! n) → is_Some (m !! n) ∨ n ∈ map gnID l).
  { induction l as [|x l IH]; intros id m m'; cbn; [intros [= <-]; by left|]. destruct (m !! gnID x); [done|].
    intros Hi Hn. destruct (IH _ _ _ Hi Hn) as [Hm|Hl]; [|right; by right]. rewrite lookup_insert in Hm.
    case_decide as He; [right; rewrite <- He; left|by left]. }
  unfold obj_Create. intros Hc Hn. apply bind_ok_inv in Hc as ([] & _ & Hc). cbv zeta in Hc. destruct (affected _ _); [done|].
  apply bind_ok_inv in Hc as (db1 & Hup & Hc). apply bind_ok_inv in Hc as (db2 & Hfts & Hc). injection Hc as _ <-.
  unfold insertObjectFTSTx in Hfts. apply bind_ok_inv in Hfts as (f1 & _ & Hfts). apply bind_ok_inv in Hfts as (f2 & _ & [= <-]).
  unfold upsertObjectNodesTx in Hup. apply bind_ok_inv in Hup as (nodes & Hup & [= <-]). cbn in Hn.
  destruct (Hins _ _ _ _ Hup Hn) as [[y Hy]|Hl]; [left|by right]. unfold drop_nodes in Hy.
  apply map_lookup_filter_Some in Hy as [Hy _]. by exists y.
Qed.

(** A row of the source that shares a unique key with a copy is the one copied. *)
Lemma copy_clash w r r' x : r ∈ odRows db → r' ∈ odRows db → copy_of w r' x → clashes (orObj r) x = true → r = r'.
Proof.
  intros Hr Hr' [Hx _] Hcl. apply (NoDup_map_inj orID (odRows db) r r' (wf_ids _ Hwf) Hr Hr'), (wf_unique _ Hwf r r' Hr Hr').
  rewrite <- Hcl. apply clashes_same; [done|]. by rewrite Hx.
Qed.

Lemma lost_apart w c x : world_rel w → from_source c → lost c = true → x ∈ odRows (wObjects w) → clashes c.1 x = false.
Proof.
  intros (_ & _ & Hc & _) (r & Hr & -> & _) Hl Hx. apply not_true_iff_false. intros Hcl.
  destruct (Hc x Hx) as (r' & Hr' & Hl' & Hcopy). cbn in Hcl. rewrite (copy_clash _ _ _ _ Hr Hr' Hcopy Hcl) in Hl. congruence.
Qed.

(** A row created for an object whose blobs are there. *)
Lemma world_rel_create w c o d' : world_rel w → from_source c → lost c = false → obj_Create (wObjects w) c.1 = Ok (o, d') →
  (∀ k, k ∈ content_keys c.1 → is_Some (wBlobs w !! k)) → world_rel (set_objects w d').
Proof.
  intros (Hs & Hb & Hcopy & Hn) (r0 & Hr0 & -> & _) Hl Hc Hkeys. split; [done|]. split; [done|]. split; cbn.
  - intros x [Hold|Hnew]%(create_rows _ _ _ _ _ Hc); [exact (Hcopy x Hold)|]. exists r0. split; [done|]. split; [done|].
    split; [exact Hnew|]. intros k Hk. rewrite Hnew in Hk. by apply Hkeys, defaults_keys.
  - intros n [Hold|Hnew]%(create_nodes _ _ _ _ _ Hc).
    + destruct (Hn n Hold) as (x & Hx & Hnx). exists x. split; [|done]. by apply (create_new _ _ _ _ Hc).
    + destruct (create_new _ _ _ _ Hc) as (_ & x & Hx & He). exists x. by rewrite He.
Qed.

Lemma run_write_ok c w : world_rel w → obj_wf (wObjects w) → from_source c →
  ∃ r w', run (writeObject true c.1) w = (r, w') ∧ world_rel w' ∧ obj_wf (wObjects w') ∧
  if lost c then ∃ k, r = Err (BlobMissing k)
  else match r with Ok _ => True | Err e => isUniqueConstraintErr e = true end.
Proof.
  intros Hw Hd Hsrc. unfold writeObject, copyBlobs, try_. rewrite run_seq.
  destruct (run_copy_ok (koID c.1) [koRawContent c.1; koTextContent c.1] w Hw) as (w1 & Ho1 & Hw1 & _ & Hres).
  change (existsb _ (omap BlobKey [koRawContent c.1; koTextContent c.1])) with (lost c) in Hres.
  destruct (lost c) eqn:Hl.
  { destruct Hres as [k ->]. cbn. eexists _, _. split; [done|]. split; [done|]. split; [by rewrite Ho1|by exists k]. }
  destruct Hres as [-> Hkeys]. cbn [fst snd call prog_seq prog_bind run exec]. unfold obj_reply. rewrite Ho1.
  pose proof Hsrc as (r0 & Hr0 & Hc0 & Hm). pose proof (create_total (wObjects w) c.1 Hd Hm) as Htot.
  destruct (obj_Create (wObjects w) c.1) as [[o d']|e] eqn:Hc; cbn [fst snd].
  - pose proof (create_needed _ _ _ _ Hc) as [-> _].
    destruct (create_keeps _ _ _ _ Hd Hc) as [[Hd' _] _].
    assert (Hw2 : world_rel (set_objects w1 d')) by (eapply world_rel_create; rewrite ?Ho1; done).
    destruct (run_copy_ok (koID (obj_defaults c.1)) [koRawContent (obj_defaults c.1); koTextContent (obj_defaults c.1)] _ Hw2)
      as (w3 & Ho3 & Hw3 & _ & Hres3).
    assert (existsb (λ k, negb (bool_decide (is_Some (blobs !! k)))) (omap BlobKey [koRawContent (obj_defaults c.1); koTextContent (obj_defaults c.1)]) = false) as Hnone.
    { apply not_true_iff_false. intros (k & Hk & Hnk)%existsb_exists'. apply defaults_keys in Hk.
      unfold lost in Hl. apply not_true_iff_false in Hl. apply Hl, existsb_exists'. by exists k. }
    rewrite Hnone in Hres3. destruct Hres3 as [-> _]. eexists _, _. split; [done|]. split; [done|]. split; [by rewrite Ho3|done].
  - cbn. eexists _, _. split; [done|]. split; [done|]. split; [by rewrite Ho1|done].
Qed.

Lemma lost_not_found c w : world_rel w → from_source c → lost c = true → found_hash w c.1 || found_id w c.1 = false.
Proof.
  intros Hw Hsrc Hl. apply not_true_iff_false. intros Hf. pose proof (λ x, lost_apart w c x Hw Hsrc Hl) as Hn.
  unfold found_hash, found_id in Hf. apply orb_true_iff in Hf as [Hf|Hf]; apply andb_true_iff in Hf as [Hne Hf].
  - unfold obj_GetByContentHash in Hf. apply negb_true_iff in Hne as He. rewrite He in Hf.
    destruct (List.find _ _) as [x|] eqn:Hx; [|done]. apply find_some in Hx as [Hin%list_elem_of_In Hb].
    apply andb_true_iff in Hb as [Hc%str_eqb_true Hp%str_eqb_true]. specialize (Hn x Hin).
    unfold clashes in Hn. rewrite Hc, Hp, Hne, !str_eqb_refl in Hn. cbn in Hn. by rewrite orb_true_r in Hn.
  - unfold obj_Get in Hf. destruct (List.find _ _) as [x|] eqn:Hx; [|done]. apply find_by_id in Hx as [Hin He].
    specialize (Hn x Hin). unfold clashes in Hn. by rewrite He, str_eqb_refl in Hn.
Qed.

Lemma local_objects_rel w objs edges inserted : world_rel w → obj_wf (wObjects w) → (∀ c : Change, c ∈ objs → from_source c) →
  ∃ r w', local_objects true w objs edges inserted = (r, w') ∧ world_rel w' ∧
  match List.find lost objs with
  | None => r = Ok tt
  | Some c => ∃ cause, r = Err (ObjectFailure (chID c) cause)
  end.
Proof.
  revert w inserted. induction objs as [|[obj seq] objs IH]; intros w inserted Hw Hd Hsrc; cbn [local_objects List.find]; [by exists (Ok tt), w|].
  assert (Hc : from_source (obj, seq)) by (apply Hsrc; by left).
  assert (Hsrc' : ∀ c : Change, c ∈ objs → from_source c) by (intros c Hin; apply Hsrc; by right).
  destruct (run_write_ok (obj, seq) w Hw Hd Hc) as (r & w1 & Hrun & Hw1 & Hd1 & Hres). cbn [fst] in Hrun.
  destruct (lost (obj, seq)) eqn:Hl.
  - pose proof (lost_not_found (obj, seq) w Hw Hc Hl) as Hnf. cbn [fst] in Hnf. rewrite Hnf, Hrun.
    destruct Hres as [k ->]. cbn. eexists _, _. split; [done|]. split; [done|]. by eexists.
  - destruct (found_hash w obj || found_id w obj); [by apply IH|]. rewrite Hrun. destruct r as [[]|e].
    + pose proof (insert_edges_ok (koID obj) edges (wEdges w1) inserted) as He.
      destruct (insert_edges true _ _ _ _) as [[oe es] ins]. cbn in He. subst oe. by apply (IH (set_edges w1 es)).
    + rewrite Hres. by apply IH.
Qed.

#[export] Program Instance LocalPusher_reliable : Reliable LocalTarget from_source lost := {| rel := local_rel |}.
Next Obligation. intros t (_ & Hr & _). cbn. unfold local_Watermark. by rewrite Hr. Qed.
Next Obligation.
  intros t objs edges ents r t' (Ho & Hr & Hsrc & Hw) Hs Hne Hknown _. cbn. unfold local_Push, openTarget.
  destruct objs as [|c0 objs]; [done|]. set (l := c0 :: objs) in *. rewrite Ho. cbn [tail ltSource ltWorld set_entities].
  rewrite Hsrc. destruct (local_objects_rel (ltWorld t) l edges [] Hw Hs Hknown) as (rl & w1 & Hrun & Hw1 & Hres). rewrite Hrun.
  destruct rl as [[]|e]; intros [= <- <-].
  - split; [done|]. destruct (List.find lost l); [by destruct Hres|done].
  - split; [done|]. destruct (List.find lost l) as [c|]; [|done]. destruct Hres as [cause [= ->]]. split; [by exists cause|by left].
Qed.
Next Obligation.
  intros t seq r t' (Ho & Hr & Hsrc & Hw). cbn. unfold local_Advance, openTarget. rewrite Ho. intros [= <- <-]. done.
Qed.

(** No two objects of the source share a graph node id: the ids are the primary
    key of its nodes. *)
Definition nodes_apart : Prop :=
  ∀ r, r ∈ odRows db → NoDup (map gnID (graph_nodes (change_of r).1)) ∧
  ∀ r' n, r' ∈ odRows db → n ∈ map gnID (graph_nodes (change_of r).1) → n ∈ map gnID (graph_nodes (change_of r').1) → r = r'.

(** A held object of the source has its copy. *)
Lemma held_copy w r : nodes_apart → world_rel w → r ∈ odRows db → held (wObjects w) (change_of r).1 →
  ∃ x, x ∈ odRows (wObjects w) ∧ copy_of w r x.
Proof.
  intros Hapart (_ & _ & Hc & Hn) Hr. destruct (Hapart r Hr) as [Hnd Hother].
  intros [(x & Hx & Hcl)|[(n & Hnr & Hs)|Hd]]; [| |done].
  - destruct (Hc x Hx) as (r' & Hr' & _ & Hcopy). exists x. split; [done|].
    by rewrite (copy_clash w r r' x Hr Hr' Hcopy Hcl).
  - destruct (Hn _ Hs) as (x & Hx & Hnx). destruct (Hc x Hx) as (r' & Hr' & _ & Hcopy). exists x. split; [done|].
    rewrite (Hother r' (gnID n) Hr'); [done|by apply list_elem_of_fmap_2|]. by rewrite (proj1 Hcopy) in Hnx.
Qed.
End local_reliable.

Section gets_through.
Context `{GoEncodings} `{GoColumns} (src : FedSource) (blobs : gmap string BlobEntry).
Context (Hwf : obj_wf (fsObjects src)) (Hapart : nodes_apart (fsObjects src)).
Context (Hencodes : ∀ r, r ∈ odRows (fsObjects src) → marshal (change_of r).1 = Ok tt).

(** C34. Federation gets through to a local target.  The source has come to rest:
    its rows are distinct objects that encode, no two with a graph node id in
    common.  The target opens each time, has acknowledged nothing yet, and any
    row it has is a copy of a row of the source; what it refuses are the objects
    that refer to a blob the source's blob store lost.  Then, in whatever pages
    and wherever in the order the lost objects come, of the syncs of a new Syncer
    at most three fail per lost object before one succeeds.  That one leaves the
    watermark at or past the source's every change, and the target with a
    copy of every object that is not lost: the source's object, as a create stores
    it, and every blob it refers to. *)
Theorem federation_gets_through batch t :
  sane t → local_rel (fsObjects src) blobs t → mark t = 0%Z →
  ∃ k s1 t1 n s' t', k <= 3 * length (List.filter (λ r, lost blobs (change_of r)) (odRows (fsObjects src))) ∧
    after_syncs src k (NewSyncer batch) t = Some (s1, t1) ∧ Sync src s1 t1 = Some (n, None, s', t') ∧
    ∀ r, r ∈ odRows (fsObjects src) → (orSeq r <= mark t')%Z ∧
      (lost blobs (change_of r) = false → ∃ x, x ∈ odRows (wObjects (ltWorld t')) ∧ copy_of (ltWorld t') r x).
Proof.
  intros Hs Hrel Hm.
  assert (Hknown : ∀ r, r ∈ odRows (fsObjects src) → from_source (fsObjects src) (change_of r)).
  { intros r Hr. exists r. split; [done|]. split; [done|]. by apply Hencodes. }
  destruct (syncs_get_through src Hwf (lost blobs) (from_source (fsObjects src)) Hknown
              (Reliable0 := LocalPusher_reliable (fsObjects src) Hwf blobs) batch t Hs Hrel Hm)
    as (k & s1 & t1 & n & s' & t' & Hk & Hafter & Hsync & Hrel' & Hall).
  exists k, s1, t1, n, s', t'. split; [done|]. split; [done|]. split; [done|]. intros r Hr.
  destruct (Hall r Hr) as [Hle Hheld]. split; [done|]. intros Hl.
  apply (held_copy (fsObjects src) Hwf blobs); [done|apply Hrel'|done|by apply Hheld].
Qed.
End gets_through.

(** ** A source of two notes, one of whose blobs is gone *)
#[local] Instance plain_columns : GoColumns := {|
  json_map := Some; json_sections := Some; json_graph := Some; json_text := λ s, s;
  uri_Parse := Some; uri_String := λ s n i, (s +:+ "://" +:+ n +:+ "/" +:+ i)%string |}.
#[local] Instance decimal_times : GoEncodings := {|
  Format := λ t, pretty t; ParseTime := λ _, 0%Z; MarshalStrings := λ _, nostr; UnmarshalStrings := λ _, None |}.

Definition fed_note (id raw : string) : KnowledgeObject :=
  mkKO id "note" nostr raw "some text" nostr ∅ [] [] [] [] [] [] nostr nostr [] id nostr nostr nostr
    1 None None None 0 0 false nostr [] [] None.

(** The lost note first, then the good one. *)
Definition fed_db : ObjDB :=
  match obj_Create emptyDB (fed_note "n-1" (BlobRefFor "k1")) with
  | Ok (_, db) => match obj_Create db (fed_note "n-2" "plain") with Ok (_, db) => db | Err _ => db end
  | Err _ => emptyDB
  end.
Definition fed_src : FedSource := mkFedSource fed_db [] [].
Definition fresh_target : LocalTarget := mkLocalTarget "peer" true (mkWorld emptyDB [] ∅ ∅ 0) [] ∅ None [].

Lemma fed_db_wf : obj_wf fed_db.
Proof.
  unfold fed_db. destruct (obj_Create emptyDB (fed_note "n-1" (BlobRefFor "k1"))) as [[o db]|e] eqn:Hc; [|apply emptyDB_wf].
  pose proof (sound_ok _ _ _ (obj_Create_ok emptyDB _ emptyDB_wf) Hc) as [Hwf _].
  destruct (obj_Create db (fed_note "n-2" "plain")) as [[o2 db2]|e] eqn:Hc2; [|done].
  exact (proj1 (sound_ok _ _ _ (obj_Create_ok db _ Hwf) Hc2)).
Qed.

Lemma fed_rows_known r : r ∈ odRows (fsObjects fed_src) → from_source fed_db (change_of r).
Proof.
  intros Hr. exists r. split; [exact Hr|]. split; [done|]. unfold marshal. cbn [change_of fst json_map json_sections json_graph plain_columns].
  by destruct (koGraph _).
Qed.

Lemma fed_no_nodes r : r ∈ odRows fed_db → map gnID (graph_nodes (change_of r).1) = [].
Proof.
  intros Hr. assert (Hg : Forall (λ r, koGraph (orObj r) = None) (odRows fed_db)) by (vm_compute; repeat constructor).
  rewrite Forall_forall in Hg. specialize (Hg r Hr). unfold graph_nodes. cbn. by rewrite Hg.
Qed.

(** Of the syncs at most three fail, and the good note is at the target. *)
Lemma federation_gets_through_witness :
  ∃ k s1 t1 n s' t', k <= 3 ∧ after_syncs fed_src k (NewSyncer 0) fresh_target = Some (s1, t1) ∧
    Sync fed_src s1 t1 = Some (n, None, s', t') ∧
    ∃ x, x ∈ odRows (wObjects (ltWorld t')) ∧ orID x = "n-2"%string ∧ koRawContent (orObj x) = "plain"%string.
Proof.
  destruct (federation_gets_through fed_src ∅ fed_db_wf) with (batch := 0%Z) (t := fresh_target)
    as (k & s1 & t1 & n & s' & t' & Hk & Hafter & Hsync & Hall).
  - intros r Hr. rewrite (fed_no_nodes r Hr). split; [constructor|]. intros r' n _ Hn. by apply not_elem_of_nil in Hn.
  - intros r Hr. by destruct (fed_rows_known r Hr) as (r' & _ & _ & ?).
  - exact emptyDB_wf.
  - split; [done|]. split; [done|]. split; [done|]. split; [done|]. split; [done|]. split; [intros x Hx; by apply not_elem_of_nil in Hx|].
    intros n Hn. cbn in Hn. rewrite lookup_empty in Hn. by destruct Hn.
  - reflexivity.
  - exists k, s1, t1, n, s', t'. split; [exact Hk|]. split; [exact Hafter|]. split; [exact Hsync|].
    destruct (List.find (by_id "n-2") (odRows fed_db)) as [r|] eqn:Hf; [|vm_compute in Hf; discriminate Hf].
    assert (Hl : lost ∅ (change_of r) = false ∧ koRawContent (orObj r) = "plain"%string)
      by (vm_compute in Hf; injection Hf as <-; split; vm_compute; reflexivity).
    apply find_by_id in Hf as [Hin Hid]. destruct (Hall r Hin) as [_ Hcopy]. destruct (Hcopy (proj1 Hl)) as (x & Hx & He & _).
    exists x. split; [exact Hx|]. unfold orID. rewrite He. exact (conj Hid (proj2 Hl)).
Defined.

(** The same source without the lost note, in pages of one: after the first page
    the mark stands at the good note. *)
Definition good_db : ObjDB := match obj_Create emptyDB (fed_note "n-2" "plain") with Ok (_, db) => db | Err _ => emptyDB end.
Definition good_src : FedSource := mkFedSource good_db [] [].

Lemma good_db_wf : obj_wf good_db.
Proof.
  unfold good_db. destruct (obj_Create emptyDB (fed_note "n-2" "plain")) as [[o db]|e] eqn:Hc; [|apply emptyDB_wf].
  exact (proj1 (sound_ok _ _ _ (obj_Create_ok emptyDB _ emptyDB_wf) Hc)).
Qed.

Lemma federation_loses_nothing_witness :
  ∃ s' t' r, sync_page good_src (NewSyncer 1) fresh_target 0 = Some (PageMore 1 1, s', t') ∧
    r ∈ odRows good_db ∧ orID r = "n-2"%string ∧ (holds t' (change_of r) ∨ (orID r, orSeq r) ∈ logged s').
Proof.
  destruct (sync_page good_src (NewSyncer 1) fresh_target 0) as [[[e s'] t']|] eqn:Hp; [|vm_compute in Hp; discriminate Hp].
  assert (Hm : e = PageMore 1 1 ∧ mark t' = 1%Z) by (vm_compute in Hp; injection Hp as <- _ <-; split; vm_compute; reflexivity).
  destruct Hm as [-> Hm].
  destruct (List.find (by_id "n-2") (odRows good_db)) as [r|] eqn:Hf; [|vm_compute in Hf; discriminate Hf].
  assert (Hseq : orSeq r = 1%Z) by (vm_compute in Hf; by injection Hf as <-).
  apply find_by_id in Hf as [Hin Hid]. exists s', t', r. split; [done|]. split; [done|]. split; [done|].
  pose proof (federation_loses_nothing good_src fresh_target 1 (mkFedState good_src s' t' (Some 1%Z) (∅ ∪ logged s'))) as Hall.
  rewrite (left_id_L ∅ (∪)) in Hall. cbn [fdTarget fdGiven fdSource] in Hall.
  apply Hall; [exact good_db_wf|exact emptyDB_wf|reflexivity| |exact Hin|rewrite Hm, Hseq; lia].
  eapply star_step; [by apply fed_begin|]. eapply star_step; [|apply star_refl].
  pose proof (fed_page good_src (prune (NewSyncer 1) 0) fresh_target 0 ∅ (PageMore 1 1) s' t' Hp) as Hstep.
  rewrite (left_id_L ∅ (∪)) in Hstep. exact Hstep.
Defined.

Lemma Sync_terminates_witness : ∃ pushed e s' t', Sync fed_src (NewSyncer 1) fresh_target = Some (pushed, e, s', t').
Proof. apply (Sync_terminates fed_src (NewSyncer 1) fresh_target); [exact fed_db_wf|exact emptyDB_wf]. Defined.
