(* ===== verification/FederationEdits.v ===== *)
(** * An object edited after it was pushed

    A changed object whose id the target has already, under another content
    hash, is skipped by the local pusher, and fails every push to a receiver. *)

From S2P Require Import Prelude GoStrings Objects Classes Contact Projection JobStore ObjectDB EdgeDB ObjectSafety Encodings Blobs BlobText ServiceContent BlobSafety Federation FederationSafety FederationTargets FederationLiveness FederationLocal.

Section edits.
Context `{GoEncodings} `{GoColumns} `{GoUnicode} `{GoCrypto}.

(** The target has the object's id, and no object of its hash. *)
Definition edited (d : ObjDB) (o : KnowledgeObject) : Prop :=
  (∃ r, r ∈ odRows d ∧ orID r = koID o) ∧ koContentHash o ≠ nostr ∧
  obj_GetByContentHash d (koContentHash o) (koProfileID o) = None.

Lemma edited_not_found w o : edited (wObjects w) o → found_hash w o = false ∧ found_id w o = false.
Proof.
  intros (_ & Hne & Hg). unfold found_hash, found_id. rewrite Hg, andb_false_r. split; [done|].
  destruct (str_eqb _ _) eqn:He; [by apply str_eqb_true in He|done].
Qed.

Lemma edited_create d o : edited d o → ∃ e, obj_Create d o = Err e ∧ (marshal o = Ok tt → e = ObjAlreadyExists).
Proof.
  intros ((r & Hr & Hid) & _). unfold obj_Create. destruct (marshal o) as [[]|e]; [|by exists e].
  assert (Ha : affected (clashes (obj_defaults o)) d = true).
  { unfold affected. apply existsb_exists'. exists r. split; [done|]. unfold clashes. rewrite Hid. change (koID (obj_defaults o)) with (koID o).
    by rewrite str_eqb_refl. }
  cbn [mbind result_bind]. cbv zeta. rewrite Ha. by exists ObjAlreadyExists.
Qed.

(** The receiver: the request fails at it, and no row is touched. *)
Lemma accept_edited rc w o objs edges inserted created : edited (wObjects w) o →
  ∃ e w', accept_objects rc w (o :: objs) edges inserted created = (Err e, w') ∧ wObjects w' = wObjects w.
Proof.
  intros He. cbn [accept_objects]. rewrite (proj1 (edited_not_found w o He)).
  pose proof (run_storable (rcStore rc) (rcThreshold rc) o ∅ w) as Hst.
  destruct (run (storable _ _ o ∅) w) as [[[row blobs]|e] w1]; destruct Hst as [Ho1 Hrow]; [|by exists e, w1].
  destruct Hrow as (raw & text & meta & ->). rewrite <- Ho1 in He.
  destruct (edited_create (wObjects w1) (with_content o raw text meta) He) as (e & Hc & _).
  unfold store_draft, try_. rewrite run_seq. cbn [call run exec]. unfold obj_reply. rewrite Hc. cbn. eexists _, _. split; [done|exact Ho1].
Qed.

Context `{GoWire}.

Lemma push_edited rc o body objs : pbObjects body = o :: objs → edited (wObjects (rcWorld rc)) o →
  rcAdmits rc = true → (body_size (pbObjects body) (pbEdges body) (pbEntities body) <= rcLimit rc)%Z →
  ∃ rc', FederationPush rc body = (500%Z, rc') ∧ wObjects (rcWorld rc') = wObjects (rcWorld rc) ∧
    rcAdmits rc' = true ∧ rcLimit rc' = rcLimit rc.
Proof.
  intros Hb He Ha Hl. unfold FederationPush. rewrite Ha. cbn [negb]. destruct (_ <? _)%Z eqn:Hlt; [lia|].
  unfold FederationAccept. rewrite Hb.
  destruct (accept_edited rc (rcWorld rc) o objs (pbEdges body) [] 0 He) as (e & w' & -> & Ho). eexists. split; [done|]. done.
Qed.

Lemma send_edited attempts t o body objs why : pbObjects body = o :: objs → edited (wObjects (rcWorld (rtReceiver t))) o →
  rcAdmits (rtReceiver t) = true → (body_size (pbObjects body) (pbEdges body) (pbEntities body) <= rcLimit (rtReceiver t))%Z →
  ∃ why' t', send_attempts attempts t body why = (Err (AllFailed why'), t') ∧
    wObjects (rcWorld (rtReceiver t')) = wObjects (rcWorld (rtReceiver t)).
Proof.
  intros Hb. revert t why. induction attempts as [|attempts IH]; intros t why He Ha Hl; cbn [send_attempts]; [by exists why, t|].
  destruct (push_edited (rtReceiver t) o body objs Hb He Ha Hl) as (rc' & Hp & Ho & Ha' & Hl').
  destruct (hd Answered (rtNet t)).
  - rewrite Hp. cbn. destruct (IH (set_sent t rc' (tail (rtNet t))) (CallFailed "status")) as (why' & t' & Hs & Ho');
      [by cbn; rewrite Ho|done|by cbn; rewrite Hl'|]. exists why', t'. split; [done|]. by rewrite Ho', <- Ho.
  - apply (IH (set_sent t (rtReceiver t) (tail (rtNet t)))); done.
  - rewrite Hp. destruct (IH (set_sent t rc' (tail (rtNet t))) (CallFailed "transport")) as (why' & t' & Hs & Ho');
      [by cbn; rewrite Ho|done|by cbn; rewrite Hl'|]. exists why', t'. split; [done|]. by rewrite Ho', <- Ho.
Qed.

(** An edit stops the sync to a receiver.  An object the target knows by id,
    whose content hash has changed since, is skipped by the local pusher and the
    push goes on.  A receiver that admits the request answers it with an error
    every time, which the pusher takes for the target's: no object is named, so
    none is ever given up, and nothing at the receiver changes. *)
Theorem edited_object_blocks :
  (∀ source w o seq edges inserted, edited (wObjects w) o → marshal o = Ok tt → content_keys o = [] →
     ∃ w', local_objects source w [(o, seq)] edges inserted = (Ok tt, w')) ∧
  (∀ t c edges ents enc, encodeInline t c.1 = Ok enc → edited (wObjects (rcWorld (rtReceiver t))) enc →
     rcAdmits (rtReceiver t) = true → (∀ es, body_size [enc] es ents <= rcLimit (rtReceiver t))%Z →
     ∃ why t', remote_Push t [c] edges ents = (Err (TargetFailure why), t') ∧
       wObjects (rcWorld (rtReceiver t')) = wObjects (rcWorld (rtReceiver t))).
Proof.
  split.
  - intros source w o seq edges inserted He Hm Hk. cbn [local_objects]. destruct (edited_not_found w o He) as [-> ->]. cbn [orb].
    assert (Hcopy : copyBlobs source o = Ret (Ok tt)).
    { unfold copyBlobs, content_keys in *. cbn in *. destruct (BlobKey (koRawContent o)); [done|]. by destruct (BlobKey (koTextContent o)). }
    destruct (edited_create (wObjects w) o He) as (e & Hc & Hdup). rewrite (Hdup Hm) in Hc.
    unfold writeObject. rewrite Hcopy. cbn. unfold obj_reply. rewrite Hc. cbn. by eexists.
  - intros t c edges ents enc Henc He Ha Hl. unfold remote_Push. destruct (assignEdges [c] edges) as [eo loose]. cbn [remote_objects].
    rewrite Henc. cbv zeta. cbn [pdBody pbObjects length Nat.eqb negb andb]. unfold flush, send.
    match goal with |- context [send_attempts 3 t ?b ?w] =>
      destruct (send_edited 3 t enc b [] w eq_refl He Ha (Hl _)) as (why & t' & Hs & Ho) end.
    rewrite Hs. by exists why, t'.
Qed.
End edits.

(** ** A note pushed, then edited *)
#[local] Instance plain_columns : GoColumns := {|
  json_map := Some; json_sections := Some; json_graph := Some; json_text := λ s, s;
  uri_Parse := Some; uri_String := λ s n i, (s +:+ "://" +:+ n +:+ "/" +:+ i)%string |}.
#[local] Instance decimal_times : GoEncodings := {|
  Format := λ t, pretty t; ParseTime := λ _, 0%Z; MarshalStrings := λ _, nostr; UnmarshalStrings := λ _, None |}.
#[local] Instance ascii_unicode : GoUnicode := {| uc_to_lower := λ s, s; uc_is_letter := λ _, false; uc_is_digit := λ _, false |}.
#[local] Instance id_crypto : GoCrypto := {| SHA256 s := s |}.
#[local] Instance free_wire : GoWire := {| wire := Some; wire_size := λ _, 0%Z; body_size := λ _ _ _, 0%Z |}.

Definition first_note : KnowledgeObject := note "n-1" "h1" "first".
Definition edited_note : KnowledgeObject := note "n-1" "h2" "first, edited".
Definition pushed_world : World :=
  mkWorld (match obj_Create emptyDB first_note with Ok (_, db) => db | Err _ => emptyDB end) [] ∅ ∅ 0.
Definition note_receiver : RemoteTarget :=
  mkRemoteTarget "team" ∅ true (mkWorld emptyDB [] ∅ ∅ 0) 4096 (mkReceiver pushed_world [] true 0 4096 true) [].

Lemma edited_note_edited : edited (wObjects pushed_world) edited_note.
Proof.
  split; [|split; [discriminate|vm_compute; reflexivity]].
  destruct (List.find (by_id "n-1") (odRows (wObjects pushed_world))) as [r|] eqn:Hf; [|vm_compute in Hf; discriminate Hf].
  apply find_by_id in Hf as [Hin Hid]. by exists r.
Qed.

Lemma edited_object_blocks_witness :
  (∃ w', local_objects true pushed_world [(edited_note, 7%Z)] [] [] = (Ok tt, w')) ∧
  ∃ why t', remote_Push note_receiver [(edited_note, 7%Z)] [] [] = (Err (TargetFailure why), t').
Proof.
  destruct edited_object_blocks as [Hlocal Hremote]. split.
  - apply Hlocal; [exact edited_note_edited|reflexivity|reflexivity].
  - destruct (Hremote note_receiver (edited_note, 7%Z) [] [] edited_note) as (why & t' & Hp & _);
      [vm_compute; reflexivity|exact edited_note_edited|reflexivity|cbn; lia|]. by exists why, t'.
Defined.
