(* ===== verification/Ulid.v ===== *)
(** * ULIDs

    Models [NewULID] and [encodeULID] of [internal/storage/auth.go], which make
    the ids of principals, identities, audiences, policies, grants and access
    entries.  The millisecond clock and the ten random bytes are arguments; a
    byte is a number below 256. *)

From S2P Require Import Prelude GoStrings.

Definition crockford : string := "0123456789ABCDEFGHJKMNPQRSTVWXYZ".

Definition crockford_at (v : Z) : ascii := default "0"%char (String.get (Z.to_nat v) crockford).

(** [(b[bit/8] >> (7 - bit%8)) & 1] *)
Definition bit_of (b : list Z) (bit : nat) : Z :=
  Z.land (Z.shiftr (nth (bit / 8) b 0%Z) (7 - Z.of_nat (bit mod 8))) 1.

(** The inner loop; [v] is a byte. *)
Definition ulid_digit (b : list Z) (i : nat) : Z :=
  fold_left (λ v j,
    let x := if 2 <=? i * 5 + j then bit_of b (i * 5 + j - 2) else 0%Z in
    (Z.lor (Z.shiftl v 1) x mod 256)%Z) (seq 0 5) 0%Z.

Definition str_of (l : list ascii) : string := foldr String nostr l.

Definition encodeULID (b : list Z) : string := str_of (map (λ i, crockford_at (ulid_digit b i)) (seq 0 26)).

(** [binary.BigEndian.PutUint64(ts[:], ms); copy(b[:6], ts[2:])] *)
Definition ulid_time (ms : Z) : list Z := map (λ k, Z.land (Z.shiftr ms (8 * (5 - Z.of_nat k))) 255) (seq 0 6).

Definition NewULID (ms : Z) (rand : list Z) : string := encodeULID (ulid_time ms ++ rand).

Definition NewPrincipalID (ms : Z) (rand : list Z) : string := "prn_" +:+ NewULID ms rand.
Definition NewIdentityID (ms : Z) (rand : list Z) : string := "idn_" +:+ NewULID ms rand.
Definition NewAudienceID (ms : Z) (rand : list Z) : string := "aud_" +:+ NewULID ms rand.
Definition NewSharePolicyID (ms : Z) (rand : list Z) : string := "pol_" +:+ NewULID ms rand.
Definition NewShareGrantID (ms : Z) (rand : list Z) : string := "grt_" +:+ NewULID ms rand.
Definition NewAccessID (ms : Z) (rand : list Z) : string := "acc_" +:+ NewULID ms rand.

(** ** Numerals: a list of digits, most significant first *)
Definition val (B : Z) (l : list Z) : Z := fold_left (λ a d, a * B + d)%Z l 0%Z.

Section numerals.
Local Open Scope Z_scope.

Lemma val_acc B l a : fold_left (λ a d, a * B + d) l a = a * B ^ Z.of_nat (length l) + val B l.
Proof.
  unfold val. revert a. induction l as [|d l IH]; intros a; cbn [fold_left length]; [rewrite Z.pow_0_r; lia|].
  rewrite (IH (a * B + d)), (IH (0 * B + d)), Nat2Z.inj_succ, Z.pow_succ_r by lia. ring.
Qed.

Lemma val_app B l k : val B (l ++ k) = val B l * B ^ Z.of_nat (length k) + val B k.
Proof. unfold val at 1. rewrite fold_left_app. apply val_acc. Qed.

Lemma val_cons B d l : val B (d :: l) = d * B ^ Z.of_nat (length l) + val B l.
Proof. exact (val_acc B l (0 * B + d)). Qed.

Lemma val_bound B l : 0 < B → Forall (λ d, 0 <= d < B) l → 0 <= val B l < B ^ Z.of_nat (length l).
Proof.
  intros HB. induction 1 as [|d l Hd Hl IH]; [cbn; lia|].
  rewrite val_cons. cbn [length]. rewrite Nat2Z.inj_succ, Z.pow_succ_r by lia. nia.
Qed.

(** Digits grouped by [n]. *)
Lemma val_concat B n (f : Z → list Z) l :
  (∀ x, x ∈ l → length (f x) = n ∧ val B (f x) = x) →
  val B (concat (map f l)) = val (B ^ Z.of_nat n) l.
Proof.
  induction l as [|x l IH]; intros H; [done|]. cbn [map concat].
  destruct (H x) as [Hn Hx]; [left|]. assert (Hl : ∀ y, y ∈ l → length (f y) = n ∧ val B (f y) = y) by (intros y Hy; apply H; by right).
  rewrite val_app, val_cons, Hx, IH by done. do 2 f_equal.
  rewrite <- Z.pow_mul_r by lia. f_equal. clear - Hl. induction l as [|y l IHl]; [cbn; lia|].
  cbn [map concat length]. rewrite length_app. destruct (Hl y) as [-> _]; [left|].
  rewrite Nat2Z.inj_add, IHl by (intros z Hz; apply Hl; by right). lia.
Qed.
End numerals.

(** Strings of digits under an alphabet in increasing order compare as numbers. *)
Lemma str_ltb_digits (B : Z) (f : Z → ascii) (l k : list Z) :
  (0 < B)%Z → (∀ x y, (0 <= x < y)%Z → (y < B)%Z → Ascii.compare (f x) (f y) = Lt) →
  length l = length k → Forall (λ d, 0 <= d < B)%Z l → Forall (λ d, 0 <= d < B)%Z k →
  String.compare (str_of (map f l)) (str_of (map f k)) = (val B l ?= val B k)%Z.
Proof.
  intros HB Hf Hlen Hl. revert k Hlen. induction Hl as [|x l Hx Hl IH]; intros [|y k] Hlen Hk; try discriminate; [done|].
  apply Forall_cons in Hk as [Hy Hk]. injection Hlen as Hlen. cbn [map str_of foldr String.compare].
  change (foldr String nostr (map f ?u)) with (str_of (map f u)). rewrite !val_cons.
  pose proof (val_bound B l HB Hl) as B1. pose proof (val_bound B k HB Hk) as B2. rewrite Hlen in *.
  destruct (Z.lt_trichotomy x y) as [Hlt|[->|Hgt]].
  - rewrite Hf by lia. symmetry. apply Z.compare_lt_iff. nia.
  - assert (Ascii.compare (f y) (f y) = Eq) as -> by (unfold Ascii.compare; apply N.compare_refl).
    rewrite IH by done. destruct (Z.compare_spec (val B l) (val B k)); symmetry;
      [apply Z.compare_eq_iff; lia|apply Z.compare_lt_iff; lia|apply Z.compare_gt_iff; lia].
  - assert (Ascii.compare (f x) (f y) = Gt) as ->.
    { assert (Hc : Ascii.compare (f y) (f x) = Lt) by (apply Hf; lia).
      unfold Ascii.compare in *. by apply N.compare_lt_iff, N.compare_gt_iff in Hc. }
    symmetry. apply Z.compare_gt_iff. nia.
Qed.

(** ** The digits of an encoding *)
Definition byte_bits (x : Z) : list Z := map (λ k, Z.land (Z.shiftr x (7 - Z.of_nat k)) 1) (seq 0 8).
Definition is_byte (x : Z) : Prop := (0 <= x < 256)%Z.

Lemma below_256 (P : Z → bool) :
  forallb P (map Z.of_nat (seq 0 256)) = true → ∀ x, is_byte x → P x = true.
Proof.
  intros Hall x Hx. rewrite forallb_forall in Hall. apply Hall, in_map_iff. exists (Z.to_nat x).
  unfold is_byte in Hx. split; [lia|]. apply in_seq. lia.
Qed.

Lemma byte_bits_val x : is_byte x → val 2 (byte_bits x) = x.
Proof.
  intros Hx. apply Z.eqb_eq. revert x Hx. apply below_256. vm_compute. reflexivity.
Qed.

(** The bit of position [k] of the 130 the digits spell. *)
Definition padded_bit (b : list Z) (k : nat) : Z := if 2 <=? k then bit_of b (k - 2) else 0%Z.

Lemma land1_bit x : (0 <= Z.land x 1 < 2)%Z.
Proof.
  assert (Z.land x 1 = x mod 2)%Z as -> by (change 1%Z with (Z.ones 1); by rewrite Z.land_ones by lia).
  apply Z.mod_pos_bound. lia.
Qed.

Lemma padded_bit_range b k : (0 <= padded_bit b k < 2)%Z.
Proof. unfold padded_bit. destruct (2 <=? k); [apply land1_bit|lia]. Qed.

Lemma push_bit v x : (0 <= v < 16)%Z → (0 <= x < 2)%Z → (Z.lor (Z.shiftl v 1) x mod 256 = v * 2 + x)%Z.
Proof.
  intros Hv Hx.
  assert (v = 0 ∨ v = 1 ∨ v = 2 ∨ v = 3 ∨ v = 4 ∨ v = 5 ∨ v = 6 ∨ v = 7 ∨ v = 8 ∨ v = 9 ∨ v = 10 ∨ v = 11 ∨
    v = 12 ∨ v = 13 ∨ v = 14 ∨ v = 15)%Z as Hc by lia.
  assert (x = 0 ∨ x = 1)%Z as [-> | ->] by lia; repeat destruct Hc as [->|Hc]; try reflexivity; subst; reflexivity.
Qed.

Definition digit_bits (b : list Z) (i : nat) : list Z := map (λ j, padded_bit b (i * 5 + j)) (seq 0 5).

Lemma ulid_digit_val b i : ulid_digit b i = val 2 (digit_bits b i).
Proof.
  unfold ulid_digit, digit_bits, val. cbn [seq map fold_left].
  fold (padded_bit b (i * 5 + 0)) (padded_bit b (i * 5 + 1)) (padded_bit b (i * 5 + 2))
       (padded_bit b (i * 5 + 3)) (padded_bit b (i * 5 + 4)).
  pose proof (padded_bit_range b (i * 5 + 0)) as R0. pose proof (padded_bit_range b (i * 5 + 1)) as R1.
  pose proof (padded_bit_range b (i * 5 + 2)) as R2. pose proof (padded_bit_range b (i * 5 + 3)) as R3.
  pose proof (padded_bit_range b (i * 5 + 4)) as R4.
  set (x0 := padded_bit b _) in *. set (x1 := padded_bit b _) in R1 |- *. set (x2 := padded_bit b _) in R2 |- *.
  set (x3 := padded_bit b _) in R3 |- *. set (x4 := padded_bit b _) in R4 |- *. clearbody x0 x1 x2 x3 x4.
  rewrite (push_bit 0 x0) by lia. rewrite (push_bit (0 * 2 + x0) x1) by lia.
  rewrite (push_bit ((0 * 2 + x0) * 2 + x1) x2) by lia. rewrite (push_bit (((0 * 2 + x0) * 2 + x1) * 2 + x2) x3) by lia.
  by rewrite (push_bit ((((0 * 2 + x0) * 2 + x1) * 2 + x2) * 2 + x3) x4) by lia.
Qed.

Lemma ulid_digit_range b i : (0 <= ulid_digit b i < 32)%Z.
Proof.
  rewrite ulid_digit_val. apply (val_bound 2 (digit_bits b i)); [lia|].
  apply Forall_map, Forall_forall. intros j _. apply padded_bit_range.
Qed.

Definition ulid_digits (b : list Z) : list Z := map (ulid_digit b) (seq 0 26).

Lemma digit_bits_all b : concat (map (digit_bits b) (seq 0 26)) = 0%Z :: 0%Z :: map (bit_of b) (seq 0 128).
Proof.
  transitivity (map (padded_bit b) (seq 0 130)).
  - unfold digit_bits. generalize (padded_bit b) as g. intros g. reflexivity.
  - change (seq 0 130) with ([0; 1] ++ seq 2 128). rewrite map_app, <- (seq_shift 128 1), <- (seq_shift 128 0), !map_map.
    change (map (padded_bit b) [0; 1]) with [0%Z; 0%Z]. cbn [app]. by do 2 f_equal.
Qed.

Lemma byte_bits_all b : concat (map byte_bits b) = map (bit_of b) (seq 0 (8 * length b)).
Proof.
  induction b as [|x b IH]; [done|]. cbn [map concat length]. rewrite IH.
  replace (8 * S (length b)) with (8 + 8 * length b) by lia. rewrite seq_app, map_app. f_equal.
  change (0 + 8) with (8 + 0). assert (Hs : ∀ n a, map (bit_of b) (seq a n) = map (bit_of (x :: b)) (seq (8 + a) n)); [|by apply Hs].
  clear IH. induction n as [|n IH]; intros a; [done|]. cbn [seq map]. rewrite (IH (S a)), Nat.add_succ_r. f_equal.
  unfold bit_of. replace (8 + a) with (a + 1 * 8) by lia. rewrite Nat.div_add, Nat.Div0.mod_add by lia.
  by rewrite Nat.add_1_r.
Qed.

Lemma digits_val b : length b = 16 → Forall is_byte b → val 32 (ulid_digits b) = val 256 b.
Proof.
  intros Hlen Hb.
  transitivity (val 2 (concat (map (digit_bits b) (seq 0 26)))).
  - unfold ulid_digits. change 32%Z with (2 ^ Z.of_nat 5)%Z. generalize (seq 0 26) as l.
    induction l as [|i l IH]; [done|]. cbn [map concat]. rewrite val_cons, val_app, IH, ulid_digit_val, length_map.
    do 2 f_equal. rewrite <- Z.pow_mul_r by lia. f_equal. clear. induction l as [|i l IH]; [done|].
    cbn [map concat length]. rewrite length_app. unfold digit_bits at 1. rewrite length_map, length_seq. lia.
  - change 256%Z with (2 ^ Z.of_nat 8)%Z. rewrite <- (val_concat 2 8 byte_bits b).
    + rewrite digit_bits_all, (byte_bits_all b), Hlen. by rewrite !val_cons, !Z.mul_0_l, !Z.add_0_l.
    + rewrite Forall_forall in Hb. intros x Hx. split; [done|]. by apply byte_bits_val, Hb.
Qed.

Lemma crockford_increasing x y :
  (0 <= x < y)%Z → (y < 32)%Z → Ascii.compare (crockford_at x) (crockford_at y) = Lt.
Proof.
  intros Hx Hy.
  assert (Hall : forallb (λ x, forallb (λ y, negb (x <? y)%nat ||
    match Ascii.compare (crockford_at (Z.of_nat x)) (crockford_at (Z.of_nat y)) with Lt => true | _ => false end)
    (seq 0 32)) (seq 0 32) = true) by (vm_compute; reflexivity).
  rewrite forallb_forall in Hall. specialize (Hall (Z.to_nat x)). rewrite forallb_forall in Hall.
  specialize (Hall ltac:(apply in_seq; lia) (Z.to_nat y) ltac:(apply in_seq; lia)).
  rewrite !Z2Nat.id in Hall by lia. apply orb_true_iff in Hall as [Hn|Hc].
  - apply negb_true_iff, Nat.ltb_ge in Hn. lia.
  - by destruct (Ascii.compare _ _).
Qed.

Lemma encodeULID_compare b b' :
  length b = 16 → Forall is_byte b → length b' = 16 → Forall is_byte b' →
  String.compare (encodeULID b) (encodeULID b') = (val 256 b ?= val 256 b')%Z.
Proof.
  intros L1 B1 L2 B2. unfold encodeULID. rewrite <- !(map_map (ulid_digit _) crockford_at).
  fold (ulid_digits b) (ulid_digits b').
  rewrite (str_ltb_digits 32); [by rewrite !digits_val|lia|apply crockford_increasing|by unfold ulid_digits; rewrite !length_map|..];
    apply Forall_map, Forall_forall; intros i _; apply ulid_digit_range.
Qed.

(** ** The shape of an id *)
Definition ulid_char (c : ascii) : bool := is_digit c || is_upper c.
(** The characters of every minted id: its prefix and a ULID. *)
Definition id_char (c : ascii) : bool := ulid_char c || is_lower c || is_char c "_".

Lemma str_of_forall p l : str_forall p (str_of l) = forallb p l.
Proof. induction l as [|c l IH]; [done|]. change (p c && str_forall p (str_of l) = p c && forallb p l). by rewrite IH. Qed.

Lemma crockford_char v : (0 <= v < 32)%Z → ulid_char (crockford_at v) = true.
Proof.
  intros Hv. assert (Hall : forallb (λ n, ulid_char (crockford_at (Z.of_nat n))) (seq 0 32) = true) by (vm_compute; reflexivity).
  rewrite forallb_forall in Hall. specialize (Hall (Z.to_nat v) ltac:(apply in_seq; lia)). by rewrite Z2Nat.id in Hall by lia.
Qed.

Lemma encodeULID_chars b : str_forall ulid_char (encodeULID b) = true.
Proof.
  unfold encodeULID. rewrite str_of_forall. apply forallb_forall. intros c (i & <- & _)%in_map_iff.
  apply crockford_char, ulid_digit_range.
Qed.

Lemma NewULID_id_chars p ms rand : str_forall id_char p = true → str_forall id_char (p +:+ NewULID ms rand) = true.
Proof.
  intros Hp. rewrite str_forall_app, Hp. apply (str_forall_impl ulid_char); [|apply encodeULID_chars].
  intros c Hc. unfold id_char. by rewrite Hc.
Qed.

Lemma encodeULID_length b : String.length (encodeULID b) = 26.
Proof. reflexivity. Qed.

Lemma ulid_time_bytes ms : Forall is_byte (ulid_time ms).
Proof.
  apply Forall_map, Forall_forall. intros k _. unfold is_byte. change 255%Z with (Z.ones 8).
  rewrite Z.land_ones by lia. apply (Z.mod_pos_bound _ 256). lia.
Qed.

Lemma ulid_time_val ms : (0 <= ms < 2 ^ 48)%Z → val 256 (ulid_time ms) = ms.
Proof.
  intros Hms. unfold ulid_time, val. cbn [seq map fold_left Z.of_nat Z.sub Z.mul Z.add Z.opp Pos.mul Pos.of_succ_nat Pos.succ].
  change 255%Z with (Z.ones 8). rewrite !Z.land_ones by lia. rewrite !Z.shiftr_div_pow2 by lia.
  change (2 ^ 8)%Z with 256%Z. change (2 ^ 48)%Z with 281474976710656%Z in Hms.
  Z.div_mod_to_equations. lia.
Qed.

(** Ids made at a later millisecond compare greater, whatever their random
    bytes; two ULIDs are equal only when their clock and their random bytes are;
    and a ULID is 26 characters of digits and upper-case letters, so none of the
    ids made of it holds a separator. *)
Theorem NewULID_ordered ms1 r1 ms2 r2 :
  (0 <= ms1 < 2 ^ 48)%Z → (0 <= ms2 < 2 ^ 48)%Z →
  length r1 = 10 → Forall is_byte r1 → length r2 = 10 → Forall is_byte r2 →
  ((ms1 < ms2)%Z → str_ltb (NewULID ms1 r1) (NewULID ms2 r2) = true) ∧
  (NewULID ms1 r1 = NewULID ms2 r2 → ms1 = ms2 ∧ val 256 r1 = val 256 r2) ∧
  String.length (NewULID ms1 r1) = 26 ∧ str_forall ulid_char (NewULID ms1 r1) = true.
Proof.
  intros M1 M2 L1 B1 L2 B2.
  pose proof (encodeULID_compare (ulid_time ms1 ++ r1) (ulid_time ms2 ++ r2)) as Hc.
  rewrite !length_app, L1, L2, !val_app, !ulid_time_val, L1, L2 in Hc by done.
  specialize (Hc eq_refl ltac:(apply Forall_app; split; [apply ulid_time_bytes|done]) eq_refl
    ltac:(apply Forall_app; split; [apply ulid_time_bytes|done])).
  pose proof (val_bound 256 r1 ltac:(lia) B1) as V1. pose proof (val_bound 256 r2 ltac:(lia) B2) as V2.
  rewrite L1 in V1. rewrite L2 in V2. change (256 ^ Z.of_nat 10)%Z with 1208925819614629174706176%Z in *.
  split_and!; [| |apply encodeULID_length|apply encodeULID_chars].
  - intros Hlt. unfold str_ltb, String.ltb. fold (NewULID ms1 r1) (NewULID ms2 r2) in Hc. rewrite Hc.
    assert (_ ?= _ = Lt)%Z as -> by (apply Z.compare_lt_iff; lia). done.
  - intros Heq. fold (NewULID ms1 r1) (NewULID ms2 r2) in Hc. rewrite Heq in Hc.
    assert (String.compare (NewULID ms2 r2) (NewULID ms2 r2) = Eq) as E.
    { rewrite <- Heq. unfold NewULID at 1 2. rewrite encodeULID_compare; [apply Z.compare_refl|..];
        rewrite ?length_app, ?L1; try done; (apply Forall_app; split; [apply ulid_time_bytes|done]). }
    rewrite E in Hc. symmetry in Hc. apply Z.compare_eq_iff in Hc. lia.
Qed.

Lemma NewULID_ordered_witness :
  str_ltb (NewULID 1700000000000 (repeat 255%Z 10)) (NewULID 1700000000001 (repeat 0%Z 10)) = true ∧
  NewULID 1700000000000 (repeat 255%Z 10) = "01HF7YAT00ZZZZZZZZZZZZZZZZ".
Proof.
  split; [|vm_compute; reflexivity].
  destruct (NewULID_ordered 1700000000000 (repeat 255%Z 10) 1700000000001 (repeat 0%Z 10)) as [Hlt _];
    [lia|lia|reflexivity| |reflexivity| |apply Hlt; lia];
    cbn [repeat]; repeat (apply Forall_cons; split; [unfold is_byte; lia|]); apply Forall_nil; exact I.
Defined.
