(* ===== verification/SharingDB.v ===== *)
(** * The sharing registry over SQLite

    Models [internal/storage/sharing.go] (records, defaults, validation) and
    [internal/storage/sqlite/sharing.go] over the tables of migration 051:
    audiences and their members, share policies and their versions, grants, each
    principal's class ceiling, the policy a credential is bound to, and the read
    audit.  The principal registry's tables are [AuthRegistry.AuthDB]; the two
    columns the migration adds to them are maps keyed by row id, a missing entry
    being the column's default.  Instants are nanoseconds, columns milliseconds;
    a JSON array column is its list; a policy's spec is kept as its text, and
    what [encoding/json] says of it is the class [GoSpecs]. *)

From S2P Require Import Prelude GoStrings JobStore Classes StorageScope Policy Resolver AuthScopes Encodings AuthRegistry.

(** [json.Valid], and [json.Unmarshal] of a spec into [sharing.Policy]. *)
Class GoSpecs : Type := {
  json_Valid : string → bool;
  decodeSpec : string → option Policy;
}.

Record Audience : Type := mkAudience {
  auID : string;
  auName : string;
  auCreatedAt : Z;
}.

(** [storage.SharePolicy] with the text of its spec. *)
Record StoredPolicy : Type := mkStoredPolicy {
  ppID : string;
  ppName : string;
  ppVersion : Z;
  ppSpec : string;
  ppUpdatedAt : Z;
}.

(** [storage.ActiveGrant] *)
Record JoinedGrant : Type := mkJoined {
  jgGrant : ShareGrant;
  jgAudience : Audience;
  jgPolicy : StoredPolicy;
}.

Record GrantFilter : Type := mkGrantFilter {
  gfAudienceID : string;
  gfPolicyID : string;
  gfIncludeRevoked : bool;
}.

Record AccessEntry : Type := mkAccess {
  acID : string;
  acAt : Z;
  acPrincipalID : string;
  acIdentityID : string;
  acRoute : string;
  acPolicyVersions : string;
  acObjectCount : Z;
  acEntityCount : Z;
  acObjectIDs : list string;
}.

Record AccessFilter : Type := mkAccessFilter {
  afPrincipalID : string;
  afObjectID : string;
  afSince : Z;
  afUntil : Z;
  afLimit : Z;
}.

Inductive SharingError : Type :=
| ShNotFound
| ShExists
| ShInvalid (what : string)
| ShClass (e : ClassError)
| ShStorage (what : string).

(** ** The database *)
Record ShareDB : Type := mkShare {
  shAuth : AuthDB;
  shDeny : gmap string (list string);
  shKeyPolicy : gmap string string;
  shAudiences : gmap string Audience;
  shMembers : gmap (string * string) AudienceMember;
  shPolicies : gmap string StoredPolicy;
  shGrants : gmap string ShareGrant;
  shLog : gmap string AccessEntry;
  shLogObjects : gset (string * string);
}.

Definition set_auth (a : AuthDB) (d : ShareDB) : ShareDB :=
  mkShare a (shDeny d) (shKeyPolicy d) (shAudiences d) (shMembers d) (shPolicies d) (shGrants d) (shLog d) (shLogObjects d).
Definition set_deny (m : gmap string (list string)) (d : ShareDB) : ShareDB :=
  mkShare (shAuth d) m (shKeyPolicy d) (shAudiences d) (shMembers d) (shPolicies d) (shGrants d) (shLog d) (shLogObjects d).
Definition set_key_policy (m : gmap string string) (d : ShareDB) : ShareDB :=
  mkShare (shAuth d) (shDeny d) m (shAudiences d) (shMembers d) (shPolicies d) (shGrants d) (shLog d) (shLogObjects d).
Definition set_audiences (m : gmap string Audience) (d : ShareDB) : ShareDB :=
  mkShare (shAuth d) (shDeny d) (shKeyPolicy d) m (shMembers d) (shPolicies d) (shGrants d) (shLog d) (shLogObjects d).
Definition set_members (m : gmap (string * string) AudienceMember) (d : ShareDB) : ShareDB :=
  mkShare (shAuth d) (shDeny d) (shKeyPolicy d) (shAudiences d) m (shPolicies d) (shGrants d) (shLog d) (shLogObjects d).
Definition set_policies (m : gmap string StoredPolicy) (d : ShareDB) : ShareDB :=
  mkShare (shAuth d) (shDeny d) (shKeyPolicy d) (shAudiences d) (shMembers d) m (shGrants d) (shLog d) (shLogObjects d).
Definition set_grants (m : gmap string ShareGrant) (d : ShareDB) : ShareDB :=
  mkShare (shAuth d) (shDeny d) (shKeyPolicy d) (shAudiences d) (shMembers d) (shPolicies d) m (shLog d) (shLogObjects d).
Definition set_log (m : gmap string AccessEntry) (o : gset (string * string)) (d : ShareDB) : ShareDB :=
  mkShare (shAuth d) (shDeny d) (shKeyPolicy d) (shAudiences d) (shMembers d) (shPolicies d) (shGrants d) m o.

Definition initShare (a : AuthDB) : ShareDB := mkShare a ∅ ∅ ∅ ∅ ∅ ∅ ∅ ∅.

(** A step on the database that returns a value or an error. *)
Definition share (A : Type) : Type := ShareDB → result SharingError A * ShareDB.

(** [nullMillis] and [millisPtr] *)
Definition nullMillis (t : option Z) : option Z := toMillis <$> t.
Definition millisPtr (ms : option Z) : option Z := fromMillis <$> ms.

(** [x ORDER BY at, key] *)
Section ordered.
Context {A : Type} (at_of : A → Z) (key_of : A → string).
Definition at_key_le (x y : A) : Prop :=
  (at_of x < at_of y)%Z ∨ (at_of x = at_of y ∧ String.le (key_of x) (key_of y)).
#[export] Instance at_key_le_dec x y : Decision (at_key_le x y).
Proof. unfold at_key_le. apply _. Defined.
Definition order_by (l : list A) : list A := merge_sort at_key_le l.
End ordered.

Definition rows {K A} `{Countable K} (m : gmap K A) : list A := map snd (map_to_list m).

(** A table's rows by name. *)
Definition order_by_name {A} (name_of : A → string) (l : list A) : list A :=
  merge_sort (λ x y, String.le (name_of x) (name_of y)) l.

(** ** Ceilings and key bindings *)
Definition sh_DenyClasses (principalID : string) : share (list string) := λ d,
  match dbPrincipals (shAuth d) !! principalID with
  | None => (Err ShNotFound, d)
  | Some _ => (Ok (NormalizeClasses (default [] (shDeny d !! principalID))), d)
  end.

Definition SetDenyClasses (principalID : string) (classes : list string) : share unit := λ d,
  match for_each ValidateClassName classes with
  | Err e => (Err (ShClass e), d)
  | Ok _ =>
      match dbPrincipals (shAuth d) !! principalID with
      | None => (Err ShNotFound, d)
      | Some _ => (Ok tt, set_deny (<[principalID := NormalizeClasses classes]> (shDeny d)) d)
      end
  end.

Definition sh_IdentityPolicy (identityID : string) : share string := λ d,
  match dbIdentities (shAuth d) !! identityID with
  | None => (Err ShNotFound, d)
  | Some _ => (Ok (default nostr (shKeyPolicy d !! identityID)), d)
  end.

(** The update finds its row before the foreign key is checked. *)
Definition BindIdentityPolicy (identityID policyID : string) : share unit := λ d,
  match dbIdentities (shAuth d) !! identityID with
  | None => (Err ShNotFound, d)
  | Some _ =>
      if str_eqb policyID nostr then (Ok tt, set_key_policy (delete identityID (shKeyPolicy d)) d)
      else match shPolicies d !! policyID with
           | None => (Err ShNotFound, d)
           | Some _ => (Ok tt, set_key_policy (<[identityID := policyID]> (shKeyPolicy d)) d)
           end
  end.

(** ** Audiences *)

(** [newID] is what [NewAudienceID] returns, as in every [Prepare...] below. *)
Definition PrepareNewAudience (a : Audience) (now : Z) (newID : string) : result SharingError Audience :=
  let name := TrimSpace (auName a) in
  if ValidateSharingName name then
    Ok (mkAudience (if str_eqb (auID a) nostr then newID else auID a) name
          (if IsZero (auCreatedAt a) then now else auCreatedAt a))
  else Err (ShInvalid "audience name").

Definition scanAudience (a : Audience) : Audience := mkAudience (auID a) (auName a) (fromMillis (auCreatedAt a)).

Definition named_row {A} (name_of : A → string) (name : string) (m : gmap string A) : option A :=
  map_find (λ r, str_eqb (name_of r) name) m.

Definition audience_Create (now : Z) (newID : string) (a : Audience) : share Audience := λ d,
  match PrepareNewAudience a now newID with
  | Err e => (Err e, d)
  | Ok a =>
      match shAudiences d !! auID a, named_row auName (auName a) (shAudiences d) with
      | None, None =>
          (Ok a, set_audiences (<[auID a := mkAudience (auID a) (auName a) (toMillis (auCreatedAt a))]> (shAudiences d)) d)
      | _, _ => (Err ShExists, d)
      end
  end.

Definition found_row {A} (scan : A → A) (o : option A) : share A := λ d,
  match o with Some r => (Ok (scan r), d) | None => (Err ShNotFound, d) end.

Definition audience_Get (id : string) : share Audience := λ d, found_row scanAudience (shAudiences d !! id) d.
Definition audience_GetByName (name : string) : share Audience := λ d,
  found_row scanAudience (named_row auName name (shAudiences d)) d.
Definition audience_List : share (list Audience) := λ d,
  (Ok (map scanAudience (order_by_name auName (rows (shAudiences d)))), d).

Definition PrepareNewMember (m : AudienceMember) (now : Z) : result SharingError AudienceMember :=
  if str_eqb (amAudienceID m) nostr || str_eqb (amPrincipalID m) nostr then Err (ShInvalid "audience member: ids")
  else if str_eqb (amAddedBy m) nostr then Err (ShInvalid "audience member: added_by is required")
  else
    Ok (mkAudienceMember (amAudienceID m) (amPrincipalID m) (amExpiresAt m) (amAddedBy m)
          (if IsZero (amAddedAt m) then now else amAddedAt m)).

Definition member_row (m : AudienceMember) : AudienceMember :=
  mkAudienceMember (amAudienceID m) (amPrincipalID m) (nullMillis (amExpiresAt m)) (amAddedBy m) (toMillis (amAddedAt m)).
Definition scanMember (m : AudienceMember) : AudienceMember :=
  mkAudienceMember (amAudienceID m) (amPrincipalID m) (millisPtr (amExpiresAt m)) (amAddedBy m) (fromMillis (amAddedAt m)).

Definition AddMember (now : Z) (m : AudienceMember) : share AudienceMember := λ d,
  match PrepareNewMember m now with
  | Err e => (Err e, d)
  | Ok m =>
      let key := (amAudienceID m, amPrincipalID m) in
      let d' := set_members (<[key := member_row m]> (shMembers d)) d in
      match shMembers d !! key with
      | Some _ => (Ok m, d')
      | None =>
          match shAudiences d !! amAudienceID m, dbPrincipals (shAuth d) !! amPrincipalID m with
          | Some _, Some _ => (Ok m, d')
          | _, _ => (Err ShNotFound, d)
          end
      end
  end.

Definition RemoveMember (audienceID principalID : string) : share unit := λ d,
  match shMembers d !! (audienceID, principalID) with
  | None => (Err ShNotFound, d)
  | Some _ => (Ok tt, set_members (delete (audienceID, principalID) (shMembers d)) d)
  end.

Definition ListMembers (audienceID : string) : share (list AudienceMember) := λ d,
  (Ok (map scanMember (order_by amAddedAt amPrincipalID
     (List.filter (λ m, str_eqb (amAudienceID m) audienceID) (rows (shMembers d))))), d).

(** [expires_at IS NULL OR expires_at > ?] *)
Definition live_at (ms : Z) (expires : option Z) : bool :=
  match expires with None => true | Some e => (ms <? e)%Z end.

Definition ListMemberships (principalID : string) (now : Z) : share (list AudienceMember) := λ d,
  (Ok (map scanMember (order_by amAddedAt amAudienceID
     (List.filter (λ m, str_eqb (amPrincipalID m) principalID && live_at (toMillis now) (amExpiresAt m))
        (rows (shMembers d))))), d).

(** ** Policies *)
Section specs.
Context `{GoSpecs}.

Definition ValidatePolicySpec (spec : string) : result SharingError unit :=
  let trimmed := TrimSpace spec in
  if negb (json_Valid trimmed) || negb (HasPrefix trimmed "{") then Err (ShInvalid "share policy: spec") else Ok tt.

Definition PrepareNewSharePolicy (p : StoredPolicy) (now : Z) (newID : string) : result SharingError StoredPolicy :=
  let name := TrimSpace (ppName p) in
  if ValidateSharingName name then
    _ ← ValidatePolicySpec (ppSpec p);
    Ok (mkStoredPolicy (if str_eqb (ppID p) nostr then newID else ppID p) name 1 (ppSpec p)
          (if IsZero (ppUpdatedAt p) then now else ppUpdatedAt p))
  else Err (ShInvalid "share policy name").

Definition scanPolicy (p : StoredPolicy) : StoredPolicy :=
  mkStoredPolicy (ppID p) (ppName p) (ppVersion p) (ppSpec p) (fromMillis (ppUpdatedAt p)).

Definition policy_Create (now : Z) (newID : string) (p : StoredPolicy) : share StoredPolicy := λ d,
  match PrepareNewSharePolicy p now newID with
  | Err e => (Err e, d)
  | Ok p =>
      match shPolicies d !! ppID p, named_row ppName (ppName p) (shPolicies d) with
      | None, None =>
          (Ok p, set_policies (<[ppID p := mkStoredPolicy (ppID p) (ppName p) (ppVersion p) (ppSpec p)
                                             (toMillis (ppUpdatedAt p))]> (shPolicies d)) d)
      | _, _ => (Err ShExists, d)
      end
  end.

Definition policy_Get (id : string) : share StoredPolicy := λ d, found_row scanPolicy (shPolicies d !! id) d.
Definition policy_GetByName (name : string) : share StoredPolicy := λ d,
  found_row scanPolicy (named_row ppName name (shPolicies d)) d.
Definition policy_List : share (list StoredPolicy) := λ d,
  (Ok (map scanPolicy (order_by_name ppName (rows (shPolicies d)))), d).

Definition revised (spec : string) (ms : Z) (p : StoredPolicy) : StoredPolicy :=
  mkStoredPolicy (ppID p) (ppName p) (ppVersion p + 1) spec ms.

Definition policy_Update (id spec : string) (now : Z) : share StoredPolicy := λ d,
  match ValidatePolicySpec spec with
  | Err e => (Err e, d)
  | Ok _ =>
      match shPolicies d !! id with
      | None => (Err ShNotFound, d)
      | Some _ => policy_Get id (set_policies (alter (revised spec (toMillis now)) id (shPolicies d)) d)
      end
  end.
End specs.

(** ** Grants *)
Definition PrepareNewShareGrant (g : ShareGrant) (now : Z) (newID : string) : result SharingError ShareGrant :=
  if str_eqb (sgAudienceID g) nostr || str_eqb (sgPolicyID g) nostr then Err (ShInvalid "share grant: ids")
  else if str_eqb (sgCreatedBy g) nostr then Err (ShInvalid "share grant: created_by is required")
  else
    Ok (mkShareGrant (if str_eqb (sgID g) nostr then newID else sgID g) (sgAudienceID g) (sgPolicyID g)
          (sgExpiresAt g) (sgCreatedBy g) (if IsZero (sgCreatedAt g) then now else sgCreatedAt g) None).

Definition grant_row (g : ShareGrant) : ShareGrant :=
  mkShareGrant (sgID g) (sgAudienceID g) (sgPolicyID g) (nullMillis (sgExpiresAt g)) (sgCreatedBy g)
    (toMillis (sgCreatedAt g)) None.
Definition scanGrant (g : ShareGrant) : ShareGrant :=
  mkShareGrant (sgID g) (sgAudienceID g) (sgPolicyID g) (millisPtr (sgExpiresAt g)) (sgCreatedBy g)
    (fromMillis (sgCreatedAt g)) (millisPtr (sgRevokedAt g)).

Definition grant_Create (now : Z) (newID : string) (g : ShareGrant) : share ShareGrant := λ d,
  match PrepareNewShareGrant g now newID with
  | Err e => (Err e, d)
  | Ok g =>
      match shGrants d !! sgID g with
      | Some _ => (Err ShExists, d)
      | None =>
          match shAudiences d !! sgAudienceID g, shPolicies d !! sgPolicyID g with
          | Some _, Some _ => (Ok g, set_grants (<[sgID g := grant_row g]> (shGrants d)) d)
          | _, _ => (Err ShNotFound, d)
          end
      end
  end.

Definition grant_Get (id : string) : share ShareGrant := λ d, found_row scanGrant (shGrants d !! id) d.

Definition unrevoked (g : ShareGrant) : bool := match sgRevokedAt g with None => true | Some _ => false end.

Definition grant_List (f : GrantFilter) : share (list ShareGrant) := λ d,
  (Ok (map scanGrant (order_by sgCreatedAt sgID
     (List.filter (λ g, (str_eqb (gfAudienceID f) nostr || str_eqb (sgAudienceID g) (gfAudienceID f)) &&
                        (str_eqb (gfPolicyID f) nostr || str_eqb (sgPolicyID g) (gfPolicyID f)) &&
                        (gfIncludeRevoked f || unrevoked g)) (rows (shGrants d))))), d).

Definition revoked_row (ms : Z) (g : ShareGrant) : ShareGrant :=
  mkShareGrant (sgID g) (sgAudienceID g) (sgPolicyID g) (sgExpiresAt g) (sgCreatedBy g) (sgCreatedAt g) (Some ms).

Definition grant_Revoke (id : string) (at_ : Z) : share unit := λ d,
  match shGrants d !! id with
  | None => (Err ShNotFound, d)
  | Some g =>
      if unrevoked g
      then (Ok tt, set_grants (update_row id unrevoked (revoked_row (toMillis at_)) (shGrants d)) d)
      else (Ok tt, d)
  end.

(** The join of the four tables and its [WHERE]. *)
Definition joined (principalID : string) (ms : Z) (d : ShareDB) : list JoinedGrant :=
  m ← List.filter (λ m, str_eqb (amPrincipalID m) principalID && live_at ms (amExpiresAt m)) (rows (shMembers d));
  a ← option_list (shAudiences d !! amAudienceID m);
  g ← List.filter (λ g, str_eqb (sgAudienceID g) (amAudienceID m) && unrevoked g && live_at ms (sgExpiresAt g))
        (rows (shGrants d));
  p ← option_list (shPolicies d !! sgPolicyID g);
  [mkJoined g a p].

Definition sh_ListActiveForPrincipal (principalID : string) (now : Z) : share (list JoinedGrant) := λ d,
  (Ok (map (λ j, mkJoined (scanGrant (jgGrant j)) (scanAudience (jgAudience j)) (scanPolicy (jgPolicy j)))
     (order_by (λ j, sgCreatedAt (jgGrant j)) (λ j, sgID (jgGrant j)) (joined principalID (toMillis now) d))), d).

(** ** The read audit *)
Definition PrepareAccessEntry (e : AccessEntry) (now : Z) (newID : string) : result SharingError AccessEntry :=
  if str_eqb (acPrincipalID e) nostr || str_eqb (acRoute e) nostr then Err (ShInvalid "access entry")
  else
    Ok (mkAccess (if str_eqb (acID e) nostr then newID else acID e) (if IsZero (acAt e) then now else acAt e)
          (acPrincipalID e) (acIdentityID e) (acRoute e) (acPolicyVersions e) (acObjectCount e) (acEntityCount e)
          (acObjectIDs e)).

(** Each entry comes with the id [NewAccessID] would give it. *)
Fixpoint prepare_entries (now : Z) (l : list (AccessEntry * string)) : result SharingError (list AccessEntry) :=
  match l with
  | [] => Ok []
  | (e, newID) :: l' => e' ← PrepareAccessEntry e now newID; l'' ← prepare_entries now l'; Ok (e' :: l'')
  end.

(** The row of an entry: its objects are rows of their own. *)
Definition access_row (e : AccessEntry) : AccessEntry :=
  mkAccess (acID e) (toMillis (acAt e)) (acPrincipalID e) (acIdentityID e) (acRoute e) (acPolicyVersions e)
    (acObjectCount e) (acEntityCount e) [].

Definition log_tables : Type := gmap string AccessEntry * gset (string * string).

(** The statements of the transaction, in order. *)
Fixpoint insert_entries (l : list AccessEntry) (t : log_tables) : result SharingError log_tables :=
  match l with
  | [] => Ok t
  | e :: l' =>
      match t.1 !! acID e with
      | Some _ => Err (ShStorage "access log append")
      | None => insert_entries l' (<[acID e := access_row e]> t.1, t.2 ∪ list_to_set (map (pair (acID e)) (acObjectIDs e)))
      end
  end.

Definition access_Append (now : Z) (entries : list (AccessEntry * string)) : share unit := λ d,
  match prepare_entries now entries with
  | Err e => (Err e, d)
  | Ok l =>
      match insert_entries l (shLog d, shLogObjects d) with
      | Err e => (Err e, d)
      | Ok t => (Ok tt, set_log t.1 t.2 d)
      end
  end.

Definition objectIDs (accessID : string) (d : ShareDB) : list string :=
  SortStrings (map snd (List.filter (λ r, str_eqb r.1 accessID) (elements (shLogObjects d)))).

Definition access_cond (f : AccessFilter) (d : ShareDB) (e : AccessEntry) : bool :=
  (str_eqb (afPrincipalID f) nostr || str_eqb (acPrincipalID e) (afPrincipalID f)) &&
  (str_eqb (afObjectID f) nostr || bool_decide ((acID e, afObjectID f) ∈ shLogObjects d)) &&
  (IsZero (afSince f) || (toMillis (afSince f) <=? acAt e)%Z) &&
  (IsZero (afUntil f) || (acAt e <? toMillis (afUntil f))%Z).

Definition scanAccess (d : ShareDB) (e : AccessEntry) : AccessEntry :=
  mkAccess (acID e) (fromMillis (acAt e)) (acPrincipalID e) (acIdentityID e) (acRoute e) (acPolicyVersions e)
    (acObjectCount e) (acEntityCount e) (objectIDs (acID e) d).

(** [ORDER BY at DESC, id DESC] reverses the ascending order. *)
Definition access_Query (f : AccessFilter) : share (list AccessEntry) := λ d,
  (Ok (map (scanAccess d) (limited (afLimit f)
     (reverse (order_by acAt acID (List.filter (access_cond f d) (rows (shLog d))))))), d).

(** The rows the delete finds. *)
Definition prunable_ids (ms : Z) (d : ShareDB) : gset (string * string) :=
  filter (λ r, match shLog d !! r.1 with Some e => (acAt e <? ms)%Z | None => false end = true) (shLogObjects d).

Definition access_Prune (before : Z) : share Z := λ d,
  let gone := prunable_ids (toMillis before) d in
  (Ok (Z.of_nat (size gone)), set_log (shLog d) (shLogObjects d ∖ gone) d).

(** ** What the viewer resolver reads *)
Section resolver_store.
Context `{GoSpecs}.

Definition as_policy (p : StoredPolicy) : SharePolicy := mkSharePolicy (ppID p) (ppName p) (ppVersion p) (decodeSpec (ppSpec p)).

Definition store_error (e : SharingError) : StoreError :=
  match e with ShNotFound => Resolver.ErrNotFound | _ => StoreFailure "sharing registry" end.

Definition read {A B} (f : A → B) (m : share A) (d : ShareDB) : result StoreError B :=
  map_err store_error (f <$> (m d).1).

#[export] Instance sqlite_sharing : SharingStore ShareDB := {
  DenyClasses d p := read id (sh_DenyClasses p) d;
  ListActiveForPrincipal d p now :=
    read (map (λ j, mkActiveGrant (jgGrant j) (auName (jgAudience j)) (as_policy (jgPolicy j)))) (sh_ListActiveForPrincipal p now) d;
  IdentityPolicy d i := read id (sh_IdentityPolicy i) d;
  Policies_Get d i := read as_policy (policy_Get i) d;
  Policies_GetByName d n := read as_policy (policy_GetByName n) d;
}.
End resolver_store.
