(* ===== verification/SharingSafety.v ===== *)
(** * What the sharing registry keeps

    The statements of file SharingDB as steps, with those of the principal
    registry beside them: the invariant of every reachable database, how rows
    move from one database to a later one, and the history of the policies, by
    which a name and a version name one spec for ever.  It follows that the
    cached viewer of file Resolver is, over this registry, what the tables say at
    the moment of the request. *)

From S2P Require Import Prelude GoStrings JobStore RsqlCompiler Classes StorageScope Policy PolicyCompile ViewerSpec Resolver Encodings AuthScopes AuthRegistry AuthInvariants Ulid SharingDB.

(** ** Trimming what has no white space *)
Definition head_is (p : ascii → bool) (e : string) : bool := match e with EmptyString => false | String c _ => p c end.

Lemma strip_one_chars p encs s :
  forallb (head_is (λ c, negb (p c))) encs = true → str_forall p s = true → strip_one encs s = None.
Proof.
  rewrite forallb_forall'. intros He Hs. apply strip_one_none. intros e Hin. specialize (He e Hin).
  destruct (HasPrefix s e) eqn:Hp; [|done]. apply HasPrefix_spec in Hp as [t ->]. destruct e as [|c e]; [done|].
  simpl in He, Hs. destruct (p c); [discriminate|by destruct (str_forall p (e +:+ t))].
Qed.

Lemma str_forall_rev_chars p s : str_forall p (String.rev s) = str_forall p s.
Proof.
  induction s as [|c s IH]; [done|]. rewrite str_rev_cons, str_forall_app, IH. simpl. rewrite andb_true_r. apply andb_comm.
Qed.

Lemma TrimSpace_id p s :
  forallb (head_is (λ c, negb (p c))) space_encodings = true →
  forallb (head_is (λ c, negb (p c))) (map String.rev space_encodings) = true →
  str_forall p s = true → TrimSpace s = s.
Proof.
  intros H1 H2 Hs. unfold TrimSpace, TrimRightSpace, TrimLeftSpace.
  rewrite (strip_all_id space_encodings) by by apply (strip_one_chars p).
  rewrite strip_all_id by (apply (strip_one_chars p); [done|by rewrite str_forall_rev_chars]). apply str_rev_involutive.
Qed.

Lemma valid_class_chars c : ValidateClassName c = Ok tt → str_forall classNameChar c = true.
Proof.
  unfold ValidateClassName, classNamePattern. destruct (match_head_tail is_lower classNameChar c) eqn:E; [|done]. intros _.
  destruct c as [|a c]; [done|]. apply andb_true_iff in E as [Ha Hc]. simpl. unfold classNameChar at 1. by rewrite Ha.
Qed.

Lemma valid_class_TrimSpace c : ValidateClassName c = Ok tt → TrimSpace c = c.
Proof. intros Hc%valid_class_chars. by apply (TrimSpace_id classNameChar). Qed.

Lemma NormalizeClasses_valid l :
  Forall (λ c, ValidateClassName c = Ok tt) l → Forall (λ c, ValidateClassName c = Ok tt) (NormalizeClasses l).
Proof.
  rewrite !Forall_forall. intros Hl c (_ & y & Hy & ->)%elem_of_NormalizeClasses.
  rewrite valid_class_TrimSpace; by apply Hl.
Qed.

(** ** Steps *)

(** An id the code mints or the migration writes. *)
Definition minted (s : string) : Prop := s ≠ nostr ∧ str_forall id_char s = true.

Lemma minted_lacks c s : id_char c = false → minted s → lacks c s = true.
Proof. intros Hc [_ Hs]. by apply (str_forall_lacks id_char). Qed.

Definition minted_ids (a : AuthDB) : Prop :=
  (∀ k, has_row (dbPrincipals a) k → minted k) ∧ (∀ k, has_row (dbIdentities a) k → minted k).

Lemma minted_ids_before a a' : reg_ext a a' → minted_ids a' → minted_ids a.
Proof.
  intros [Ep Ei _] [Hp Hi]. split; intros k [x Hx].
  - apply Hp. destruct (Ep _ _ Hx) as (y & Hy & _). by exists y.
  - apply Hi. destruct (Ei _ _ Hx) as (y & Hy & _). by exists y.
Qed.

Lemma set_auth_same d : set_auth (shAuth d) d = d.
Proof. by destruct d. Qed.

Section steps.
Context `{GoCrypto, GoSpecs}.

(** The writes; the server leaves every id to the store, or gives a minted one. *)
Inductive share_op : ∀ A, share A → Prop :=
| op_SetDenyClasses p l : share_op _ (SetDenyClasses p l)
| op_BindIdentityPolicy i p : share_op _ (BindIdentityPolicy i p)
| op_audience_Create now id a : share_op _ (audience_Create now id a)
| op_AddMember now m : share_op _ (AddMember now m)
| op_RemoveMember a p : share_op _ (RemoveMember a p)
| op_policy_Create now id p : share_op _ (policy_Create now id p)
| op_policy_Update id s now : share_op _ (policy_Update id s now)
| op_grant_Create now id g : minted id → sgID g = nostr ∨ minted (sgID g) → share_op _ (grant_Create now id g)
| op_grant_Revoke id t : share_op _ (grant_Revoke id t)
| op_access_Append now l : share_op _ (access_Append now l)
| op_access_Prune t : share_op _ (access_Prune t).

Inductive share_step (d : ShareDB) : ShareDB → Prop :=
| share_step_op A (m : share A) r d' : share_op A m → m d = (r, d') → share_step d d'
| share_step_auth a : reg_step (shAuth d) a → minted_ids a → share_step d (set_auth a d).

(** ** The invariant *)
Record share_wf (d : ShareDB) : Prop := {
  wf_auth : reg_wf (shAuth d);
  wf_minted : minted_ids (shAuth d);
  wf_deny_valid : ∀ k l, shDeny d !! k = Some l → Forall (λ c, ValidateClassName c = Ok tt) l;
  wf_key_fk : ∀ i p, shKeyPolicy d !! i = Some p →
    has_row (dbIdentities (shAuth d)) i ∧ has_row (shPolicies d) p ∧ p ≠ nostr;
  wf_aud : ∀ k a, shAudiences d !! k = Some a → auID a = k ∧ ValidateSharingName (auName a) = true;
  wf_aud_name : unique_key auName (shAudiences d);
  wf_mem : ∀ k m, shMembers d !! k = Some m → k = (amAudienceID m, amPrincipalID m) ∧
    has_row (shAudiences d) (amAudienceID m) ∧ has_row (dbPrincipals (shAuth d)) (amPrincipalID m);
  wf_pol : ∀ k p, shPolicies d !! k = Some p → ppID p = k ∧ ValidateSharingName (ppName p) = true ∧ (1 ≤ ppVersion p)%Z;
  wf_pol_name : unique_key ppName (shPolicies d);
  wf_grant : ∀ k g, shGrants d !! k = Some g → sgID g = k ∧ minted k ∧
    has_row (shAudiences d) (sgAudienceID g) ∧ has_row (shPolicies d) (sgPolicyID g);
  wf_log : ∀ k e, shLog d !! k = Some e → acID e = k;
  wf_log_fk : ∀ r, r ∈ shLogObjects d → has_row (shLog d) r.1;
}.

(** Rows kept from one database to a later one. *)
Definition pol_ext (p p' : StoredPolicy) : Prop :=
  ppID p' = ppID p ∧ ppName p' = ppName p ∧
  (ppVersion p < ppVersion p' ∨ ppVersion p' = ppVersion p ∧ ppSpec p' = ppSpec p)%Z.
Definition sg_ext (g g' : ShareGrant) : Prop :=
  sgID g' = sgID g ∧ sgAudienceID g' = sgAudienceID g ∧ sgPolicyID g' = sgPolicyID g ∧
  sgExpiresAt g' = sgExpiresAt g ∧ some_stays (sgRevokedAt g) (sgRevokedAt g').

#[export] Instance pol_ext_preorder : PreOrder pol_ext.
Proof.
  split; red; unfold pol_ext; [intros; repeat split; right; done|].
  intros x y z (? & ? & Hxy) (? & ? & Hyz). split_and!; [congruence..|].
  destruct Hxy as [?|[??]], Hyz as [?|[??]]; [left; lia|left; lia|left; lia|right; split; congruence].
Qed.
#[export] Instance sg_ext_preorder : PreOrder sg_ext.
Proof. split; red; unfold sg_ext, some_stays; intros; repeat split; intuition (try congruence); eauto. Qed.
#[export] Instance eq_rows_preorder {A} : PreOrder (@eq A) := _.

Record share_ext (d d' : ShareDB) : Prop := {
  ext_auth : reg_ext (shAuth d) (shAuth d');
  ext_audiences : rows_ext eq (shAudiences d) (shAudiences d');
  ext_policies : rows_ext pol_ext (shPolicies d) (shPolicies d');
  ext_grants : rows_ext sg_ext (shGrants d) (shGrants d');
}.

#[export] Instance share_ext_preorder : PreOrder share_ext.
Proof.
  split; red.
  - intros d. split; reflexivity.
  - intros d1 d2 d3 [] []. split; etransitivity; eauto.
Qed.

Lemma has_row_insert {A} (m : gmap string A) k x : has_row (<[k := x]> m) k.
Proof. exists x. apply lookup_insert_eq. Qed.

Lemma named_none {A} (name_of : A → string) name m :
  named_row name_of name m = None → ∀ k x, m !! k = Some x → name_of x ≠ name.
Proof. intros Hn k x Hk Heq. pose proof (map_find_none _ _ Hn k x Hk) as Hf. cbn in Hf. by rewrite Heq, str_eqb_refl in Hf. Qed.

Lemma named_some {A} (name_of : A → string) name m x :
  named_row name_of name m = Some x → ∃ k, m !! k = Some x ∧ name_of x = name.
Proof. intros (k & Hk & Hn)%map_find_some. apply str_eqb_true in Hn. eauto. Qed.

(** One lemma per table that a statement changes. *)
Lemma wf_set_deny d p l :
  Forall (λ c, ValidateClassName c = Ok tt) l → share_wf d → share_wf (set_deny (<[p := l]> (shDeny d)) d).
Proof.
  intros Hl []. split; cbn; eauto. intros k c Hk.
  apply (insert_case _ _ _ _ _ (Forall (λ c, ValidateClassName c = Ok tt)) Hk); eauto.
Qed.

Lemma wf_set_key d m :
  (∀ i p, m !! i = Some p → shKeyPolicy d !! i = Some p ∨
     has_row (dbIdentities (shAuth d)) i ∧ has_row (shPolicies d) p ∧ p ≠ nostr) →
  share_wf d → share_wf (set_key_policy m d).
Proof. intros Hm []. split; cbn; eauto. intros i p [Hk|Hk]%Hm; eauto. Qed.

Lemma wf_set_members d m :
  (∀ k x, m !! k = Some x → shMembers d !! k = Some x ∨ k = (amAudienceID x, amPrincipalID x) ∧
     has_row (shAudiences d) (amAudienceID x) ∧ has_row (dbPrincipals (shAuth d)) (amPrincipalID x)) →
  share_wf d → share_wf (set_members m d).
Proof. intros Hm []. split; cbn; eauto. intros k x [Hk|Hk]%Hm; eauto. Qed.

Lemma wf_set_audience d a :
  shAudiences d !! auID a = None → named_row auName (auName a) (shAudiences d) = None →
  ValidateSharingName (auName a) = true → share_wf d → share_wf (set_audiences (<[auID a := a]> (shAudiences d)) d).
Proof.
  intros Hn Hu Hv []. assert (K : keeps_rows (shAudiences d) (<[auID a := a]> (shAudiences d))) by apply keeps_insert.
  split; cbn; eauto.
  - intros k x Hk. apply (insert_case _ _ _ _ _ (λ x, auID x = k ∧ ValidateSharingName (auName x) = true) Hk); [by intros ->|eauto].
  - apply unique_key_insert; [done|]. apply (named_none auName _ _ Hu).
  - intros k m Hk. destruct (wf_mem0 _ _ Hk) as (? & ? & ?). eauto.
  - intros k g Hk. destruct (wf_grant0 _ _ Hk) as (? & ? & ? & ?). eauto.
Qed.

Lemma wf_set_policy d p :
  shPolicies d !! ppID p = None → named_row ppName (ppName p) (shPolicies d) = None →
  ValidateSharingName (ppName p) = true → (1 ≤ ppVersion p)%Z →
  share_wf d → share_wf (set_policies (<[ppID p := p]> (shPolicies d)) d).
Proof.
  intros Hn Hu Hv H1 []. assert (K : keeps_rows (shPolicies d) (<[ppID p := p]> (shPolicies d))) by apply keeps_insert.
  split; cbn; eauto.
  - intros i x Hk. destruct (wf_key_fk0 _ _ Hk) as (? & ? & ?). eauto.
  - intros k x Hk.
    apply (insert_case _ _ _ _ _ (λ x, ppID x = k ∧ ValidateSharingName (ppName x) = true ∧ (1 ≤ ppVersion x)%Z) Hk); [by intros ->|eauto].
  - apply unique_key_insert; [done|]. apply (named_none ppName _ _ Hu).
  - intros k g Hk. destruct (wf_grant0 _ _ Hk) as (? & ? & ? & ?). eauto.
Qed.

Lemma lookup_alter_case {A} (f : A → A) k (m : gmap string A) k' y :
  alter f k m !! k' = Some y → ∃ x, m !! k' = Some x ∧ (y = x ∨ k = k' ∧ y = f x).
Proof. intros [(-> & x & Hx & ->)|[Hn Hk]]%lookup_alter_Some; eauto 6. Qed.

Lemma wf_revise d id s ms :
  share_wf d → share_wf (set_policies (alter (revised s ms) id (shPolicies d)) d).
Proof.
  intros []. assert (K : keeps_rows (shPolicies d) (alter (revised s ms) id (shPolicies d))).
  { intros k [x Hx]. unfold has_row. destruct (decide (id = k)) as [->|];
      [rewrite lookup_alter_eq, Hx|rewrite lookup_alter_ne, Hx by done]; eexists; reflexivity. }
  split; cbn; eauto.
  - intros i x Hk. destruct (wf_key_fk0 _ _ Hk) as (? & ? & ?). eauto.
  - intros k y (x & Hx & [->|[_ ->]])%lookup_alter_case; destruct (wf_pol0 _ _ Hx) as (? & ? & ?); split_and!; cbn; try done; lia.
  - intros k1 k2 y1 y2 (x1 & Hx1 & E1)%lookup_alter_case (x2 & Hx2 & E2)%lookup_alter_case Heq.
    apply (wf_pol_name0 k1 k2 x1 x2 Hx1 Hx2). destruct E1 as [->|[_ ->]], E2 as [->|[_ ->]]; exact Heq.
  - intros k g Hk. destruct (wf_grant0 _ _ Hk) as (? & ? & ? & ?). eauto.
Qed.

Lemma wf_set_grant d g :
  shGrants d !! sgID g = None → minted (sgID g) →
  has_row (shAudiences d) (sgAudienceID g) → has_row (shPolicies d) (sgPolicyID g) →
  share_wf d → share_wf (set_grants (<[sgID g := g]> (shGrants d)) d).
Proof.
  intros Hn Hm Ha Hp []. split; cbn; eauto. intros k x Hk.
  apply (insert_case _ _ _ _ _ (λ x, sgID x = k ∧ minted k ∧ has_row (shAudiences d) (sgAudienceID x) ∧
    has_row (shPolicies d) (sgPolicyID x)) Hk); [by intros ->|eauto].
Qed.

Lemma wf_revoke d id ms : share_wf d → share_wf (set_grants (update_row id unrevoked (revoked_row ms) (shGrants d)) d).
Proof.
  intros []. split; cbn; eauto. intros k y. rewrite lookup_update_row.
  destruct (shGrants d !! k) as [x|] eqn:Hx; [|done]. destruct (wf_grant0 _ _ Hx) as (? & ? & ? & ?).
  intros [= <-]. by destruct (str_eqb k id && unrevoked x).
Qed.

Definition log_ok (t : log_tables) : Prop :=
  (∀ k e, t.1 !! k = Some e → acID e = k) ∧ (∀ r, r ∈ t.2 → has_row t.1 r.1).

Lemma insert_entries_ok l t t' : insert_entries l t = Ok t' → log_ok t → log_ok t'.
Proof.
  revert t. induction l as [|e l IH]; intros t; simpl; [by intros [= <-]|].
  destruct (t.1 !! acID e) eqn:Hk; [done|]. intros Hi [Hid Hfk]. apply (IH _ Hi). split; cbn.
  - intros k x [[<- <-]|[Hn Hx]]%lookup_insert_Some; [done|eauto].
  - intros r [Hr|Hr]%elem_of_union; [by apply keeps_insert, Hfk|].
    apply elem_of_list_to_set, list_elem_of_fmap in Hr as (o & -> & _). apply has_row_insert.
Qed.

Lemma wf_set_log d m o : log_ok (m, o) → share_wf d → share_wf (set_log m o d).
Proof. intros [Hid Hfk] []. split; cbn; eauto. Qed.

Lemma policy_Get_same id d r d' : policy_Get id d = (r, d') → d' = d.
Proof. unfold policy_Get, found_row. by destruct (_ !! _); intros [= _ <-]. Qed.

Lemma share_op_wf A (m : share A) d r d' : share_op A m → m d = (r, d') → share_wf d → share_wf d'.
Proof.
  intros Hop Hm Hwf. destruct Hop as [p l|i p|now id a|now m|a p|now id p|id s now|now id g Hid Hg|id t|now l|t]; revert Hm.
  - unfold SetDenyClasses. destruct (for_each _ l) as [[]|] eqn:Hl; [|by intros [= _ <-]].
    destruct (dbPrincipals _ !! _); intros [= _ <-]; [|done]. apply wf_set_deny; [|done].
    by apply NormalizeClasses_valid, for_each_ok.
  - unfold BindIdentityPolicy. destruct (dbIdentities _ !! _) eqn:Hi; [|by intros [= _ <-]].
    destruct (str_eqb p nostr) eqn:Hp; [|destruct (shPolicies d !! p) eqn:Hpp]; intros [= _ <-]; [| |done].
    + apply wf_set_key; [|done]. intros j q [_ Hq]%lookup_delete_Some. by left.
    + apply wf_set_key; [|done]. intros j q [[<- <-]|[_ Hq]]%lookup_insert_Some; [right|by left].
      split_and!; [by eexists..|]. intros ->. by rewrite str_eqb_refl in Hp.
  - unfold audience_Create, PrepareNewAudience. destruct (ValidateSharingName _) eqn:Hv; [|by intros [= _ <-]].
    set (a' := mkAudience _ _ _). destruct (shAudiences d !! auID a') eqn:Hk; [by intros [= _ <-]|].
    destruct (named_row _ _ _) eqn:Hn; intros [= _ <-]; [done|].
    apply (wf_set_audience d (mkAudience (auID a') (auName a') (toMillis (auCreatedAt a')))); done.
  - unfold AddMember. destruct (PrepareNewMember m now) as [m'|]; [|by intros [= _ <-]]. intros Hm.
    assert (Hcase : d' = d ∨ (d' = set_members (<[(amAudienceID m', amPrincipalID m') := member_row m']> (shMembers d)) d ∧
      has_row (shAudiences d) (amAudienceID m') ∧ has_row (dbPrincipals (shAuth d)) (amPrincipalID m'))).
    { destruct (shMembers d !! _) as [x|] eqn:Hk.
      - injection Hm as _ <-. right. split; [done|]. destruct (wf_mem _ Hwf _ _ Hk) as ([= -> ->] & ? & ?). done.
      - destruct (shAudiences d !! _) eqn:Ha; [|injection Hm as _ <-; by left].
        destruct (dbPrincipals _ !! _) eqn:Hp; injection Hm as _ <-; [right|by left]. split_and!; by try eexists. }
    destruct Hcase as [->|(-> & Ha & Hp)]; [done|]. apply wf_set_members; [|done].
    intros k x [[<- <-]|[_ Hx]]%lookup_insert_Some; [by right|by left].
  - unfold RemoveMember. destruct (_ !! _); intros [= _ <-]; [|done]. apply wf_set_members; [|done].
    intros k x [_ Hx]%lookup_delete_Some. by left.
  - unfold policy_Create. destruct (PrepareNewSharePolicy p now id) as [p'|] eqn:Hp; [|by intros [= _ <-]].
    unfold PrepareNewSharePolicy in Hp. destruct (ValidateSharingName _) eqn:Hv; [|done]. inv_ok.
    destruct (shPolicies d !! _) eqn:Hk; [by intros [= _ <-]|]. destruct (named_row _ _ _) eqn:Hn; intros [= _ <-]; [done|].
    match goal with |- share_wf (set_policies (<[_ := ?q]> _) _) => apply (wf_set_policy d q) end; try done; cbn; lia.
  - unfold policy_Update. destruct (ValidatePolicySpec s) as [[]|]; [|by intros [= _ <-]].
    destruct (shPolicies d !! id); [|by intros [= _ <-]]. intros ->%policy_Get_same.
    by apply wf_revise.
  - unfold grant_Create. destruct (PrepareNewShareGrant g now id) as [g'|] eqn:Hp; [|by intros [= _ <-]].
    assert (Hmint : minted (sgID g')).
    { revert Hp. unfold PrepareNewShareGrant. destruct (_ || _); [done|]. destruct (str_eqb (sgCreatedBy g) nostr); [done|].
      intros [= <-]. cbn. destruct (str_eqb (sgID g) nostr) eqn:He; [done|]. destruct Hg as [Hg|Hg]; [|done].
      by rewrite Hg, str_eqb_refl in He. }
    destruct (shGrants d !! _) eqn:Hk; [by intros [= _ <-]|].
    destruct (shAudiences d !! _) eqn:Ha; [|by intros [= _ <-]]. destruct (shPolicies d !! _) eqn:Hpo; intros [= _ <-]; [|done].
    apply (wf_set_grant d (grant_row g')); try done; by eexists.
  - unfold grant_Revoke. destruct (shGrants d !! id); [|by intros [= _ <-]].
    destruct (unrevoked _); intros [= _ <-]; [|done]. by apply wf_revoke.
  - unfold access_Append. destruct (prepare_entries now l) as [l'|]; [|by intros [= _ <-]].
    destruct (insert_entries l' _) as [[m o]|] eqn:Hi; intros [= _ <-]; [|done]. apply wf_set_log; [|done].
    apply (insert_entries_ok _ _ _ Hi). split; cbn; [apply (wf_log _ Hwf)|apply (wf_log_fk _ Hwf)].
  - unfold access_Prune. intros [= _ <-]. apply wf_set_log; [|done]. split; cbn; [apply (wf_log _ Hwf)|].
    intros x [Hx _]%elem_of_difference. by apply (wf_log_fk _ Hwf).
Qed.

(** ** Moving forward *)
Lemma share_op_ext A (m : share A) d r d' : share_op A m → m d = (r, d') → share_ext d d'.
Proof.
  intros Hop Hm. destruct Hop as [p l|i p|now id a|now m|a p|now id p|id s now|now id g Hid Hg|id t|now l|t]; revert Hm.
  1: unfold SetDenyClasses; destruct (for_each _ l); [destruct (dbPrincipals _ !! _)|]; intros [= _ <-]; split; reflexivity.
  1: unfold BindIdentityPolicy; destruct (dbIdentities _ !! _); [destruct (str_eqb _ _); [|destruct (_ !! _)]|];
       intros [= _ <-]; split; reflexivity.
  2: unfold AddMember; destruct (PrepareNewMember m now); [repeat destruct (_ !! _)|]; intros [= _ <-]; split; reflexivity.
  2: unfold RemoveMember; destruct (_ !! _); intros [= _ <-]; split; reflexivity.
  5: unfold grant_Revoke; destruct (shGrants d !! id); [destruct (unrevoked _)|]; intros [= _ <-]; split; try reflexivity;
       apply rows_ext_update_row; [apply _|]; intros x Hx; repeat split; try done; intros u Hu; unfold unrevoked in Hx; by rewrite Hu in Hx.
  5: unfold access_Append; destruct (prepare_entries now l); [destruct (insert_entries _ _)|]; intros [= _ <-]; split; reflexivity.
  5: unfold access_Prune; intros [= _ <-]; split; reflexivity.
  - unfold audience_Create. destruct (PrepareNewAudience a now id); [|by intros [= _ <-]].
    destruct (shAudiences d !! _) eqn:Hk; [by intros [= _ <-]|]. destruct (named_row _ _ _); intros [= _ <-]; [done|].
    split; try reflexivity. by apply rows_ext_insert_fresh; [apply _|].
  - unfold policy_Create. destruct (PrepareNewSharePolicy p now id); [|by intros [= _ <-]].
    destruct (shPolicies d !! _) eqn:Hk; [by intros [= _ <-]|]. destruct (named_row _ _ _); intros [= _ <-]; [done|].
    split; try reflexivity. by apply rows_ext_insert_fresh; [apply _|].
  - unfold policy_Update. destruct (ValidatePolicySpec s) as [[]|]; [|by intros [= _ <-]].
    destruct (shPolicies d !! id) as [x|] eqn:Hx; [|by intros [= _ <-]]. intros ->%policy_Get_same.
    split; try reflexivity. intros k y Hy. cbn. destruct (decide (id = k)) as [->|Hne].
    + rewrite lookup_alter_eq, Hy. eexists. split; [reflexivity|]. repeat split. left. cbn. lia.
    + rewrite lookup_alter_ne by done. exists y. split; [done|reflexivity].
  - unfold grant_Create. destruct (PrepareNewShareGrant g now id) as [g'|]; [|by intros [= _ <-]].
    destruct (shGrants d !! _) eqn:Hk; [by intros [= _ <-]|].
    destruct (shAudiences d !! _); [|by intros [= _ <-]]. destruct (shPolicies d !! _); intros [= _ <-]; [|done].
    split; try reflexivity. by apply rows_ext_insert_fresh; [apply _|].
Qed.

Lemma wf_set_auth d a :
  reg_ext (shAuth d) a → reg_wf a → minted_ids a → share_wf d → share_wf (set_auth a d).
Proof.
  intros [Ep Ei _] Ha Hm []. pose proof (keeps_ext _ _ _ Ep) as Kp. pose proof (keeps_ext _ _ _ Ei) as Ki.
  split; cbn; eauto.
  - intros i p Hk. destruct (wf_key_fk0 _ _ Hk) as (? & ? & ?). eauto.
  - intros k m Hk. destruct (wf_mem0 _ _ Hk) as (? & ? & ?). eauto.
Qed.

Lemma share_step_ok d d' : share_step d d' → share_wf d → share_wf d' ∧ share_ext d d'.
Proof.
  intros [A m r d2 Hop Hm|a Hstep Hmint] Hwf.
  - split; [by eapply share_op_wf|by eapply share_op_ext].
  - assert (Hs : star reg_step (shAuth d) a) by (eapply star_step; [done|apply star_refl]).
    pose proof (reg_step_ext _ _ Hs) as He.
    split; [|split; [done|reflexivity..]]. apply wf_set_auth; [done| |done..].
    apply (reg_step_wf _ _ Hs), (wf_auth _ Hwf).
Qed.

(** ** The history of the policies *)
Record hist_ok (d : ShareDB) (h : gmap (string * Z) string) : Prop := {
  hist_now : ∀ k p, shPolicies d !! k = Some p → h !! (ppName p, ppVersion p) = Some (ppSpec p);
  hist_past : ∀ n v s, h !! (n, v) = Some s → ∃ k p, shPolicies d !! k = Some p ∧ ppName p = n ∧ (v ≤ ppVersion p)%Z;
}.

Lemma hist_ok_same d d' h : shPolicies d' = shPolicies d → hist_ok d h → hist_ok d' h.
Proof. intros He [Hn Hp]. split; rewrite He; done. Qed.

Lemma hist_ok_create d p h :
  shPolicies d !! ppID p = None → named_row ppName (ppName p) (shPolicies d) = None → hist_ok d h →
  ∃ h', h ⊆ h' ∧ hist_ok (set_policies (<[ppID p := p]> (shPolicies d)) d) h'.
Proof.
  intros Hk Hn [Hnow Hpast].
  assert (Hf : h !! (ppName p, ppVersion p) = None).
  { destruct (h !! (ppName p, ppVersion p)) eqn:E; [|done]. apply Hpast in E as (k & q & Hq & Hname & _).
    by destruct (named_none _ _ _ Hn _ _ Hq). }
  exists (<[(ppName p, ppVersion p) := ppSpec p]> h). split; [by apply insert_subseteq|]. split; cbn.
  - intros k q [[<- <-]|[Hne Hq]]%lookup_insert_Some; [by rewrite lookup_insert_eq|].
    rewrite lookup_insert_ne; [by eapply Hnow|]. intros [= E _]. by apply (named_none _ _ _ Hn _ _ Hq).
  - intros n v s [[[= <- <-] <-]|[Hne Hs]]%lookup_insert_Some.
    + exists (ppID p), p. rewrite lookup_insert_eq. split_and!; [done..|lia].
    + apply Hpast in Hs as (k & q & Hq & ? & ?). exists k, q. rewrite lookup_insert_ne; [done|congruence].
Qed.

Lemma hist_ok_revise d id p s ms h :
  share_wf d → shPolicies d !! id = Some p → hist_ok d h →
  ∃ h', h ⊆ h' ∧ hist_ok (set_policies (alter (revised s ms) id (shPolicies d)) d) h'.
Proof.
  intros Hwf Hp [Hnow Hpast]. set (key := (ppName p, (ppVersion p + 1)%Z)).
  assert (Hu : ∀ k q, shPolicies d !! k = Some q → ppName q = ppName p → k = id ∧ q = p).
  { intros k q Hq Hname. assert (k = id) as -> by by apply (wf_pol_name _ Hwf k id q p). split; [done|congruence]. }
  assert (Hf : h !! key = None).
  { destruct (h !! key) eqn:E; [|done]. apply Hpast in E as (k & q & Hq & Hname & Hv). destruct (Hu k q Hq Hname) as [-> ->]. lia. }
  exists (<[key := s]> h). split; [by apply insert_subseteq|]. split; cbn.
  - intros k y (q & Hq & Hy)%lookup_alter_case.
    destruct (decide (id = k)) as [<-|Hne].
    + assert (q = p) as -> by congruence. destruct Hy as [->|[_ ->]]; [|by rewrite lookup_insert_eq].
      rewrite lookup_insert_ne; [by eapply Hnow|]. intros [= E]. lia.
    + destruct Hy as [->|[? _]]; [|done]. rewrite lookup_insert_ne; [by eapply Hnow|]. intros [= E _].
      destruct (Hu k q Hq); [done|]. congruence.
  - intros n v u [[[= <- <-] <-]|[Hne Hs]]%lookup_insert_Some.
    + exists id, (revised s ms p). rewrite lookup_alter_eq, Hp. split_and!; [done..|cbn; lia].
    + apply Hpast in Hs as (k & q & Hq & Hname & Hv). destruct (decide (id = k)) as [<-|Hk].
      * assert (q = p) as -> by congruence. exists id, (revised s ms p). rewrite lookup_alter_eq, Hp. split_and!; [done..|cbn; lia].
      * exists k, q. by rewrite lookup_alter_ne.
Qed.

Lemma share_step_hist d d' h : share_wf d → share_step d d' → hist_ok d h → ∃ h', h ⊆ h' ∧ hist_ok d' h'.
Proof.
  intros Hwf [A m r d2 Hop Hm|a _ _] Hh; [|exists h; by split; [|apply (hist_ok_same d)]].
  assert (Hsame : shPolicies d2 = shPolicies d → ∃ h', h ⊆ h' ∧ hist_ok d2 h').
  { intros He. exists h. split; [done|by apply (hist_ok_same d)]. }
  destruct Hop as [p l|i p|now id a|now m|a p|now id p|id s now|now id g Hid Hg|id t|now l|t]; revert Hm.
  1: unfold SetDenyClasses; destruct (for_each _ l); [destruct (dbPrincipals _ !! _)|]; intros [= _ <-]; by apply Hsame.
  1: unfold BindIdentityPolicy; destruct (dbIdentities _ !! _); [destruct (str_eqb _ _); [|destruct (_ !! _)]|];
       intros [= _ <-]; by apply Hsame.
  1: unfold audience_Create; destruct (PrepareNewAudience a now id); [destruct (_ !! _); [|destruct (named_row _ _ _)]|];
       intros [= _ <-]; by apply Hsame.
  1: unfold AddMember; destruct (PrepareNewMember m now); [repeat destruct (_ !! _)|]; intros [= _ <-]; by apply Hsame.
  1: unfold RemoveMember; destruct (_ !! _); intros [= _ <-]; by apply Hsame.
  3: unfold grant_Create; destruct (PrepareNewShareGrant g now id); [repeat destruct (_ !! _)|]; intros [= _ <-]; by apply Hsame.
  3: unfold grant_Revoke; destruct (shGrants d !! id); [destruct (unrevoked _)|]; intros [= _ <-]; by apply Hsame.
  3: unfold access_Append; destruct (prepare_entries now l); [destruct (insert_entries _ _)|]; intros [= _ <-]; by apply Hsame.
  3: unfold access_Prune; intros [= _ <-]; by apply Hsame.
  - unfold policy_Create. destruct (PrepareNewSharePolicy p now id) as [p'|]; [|intros [= _ <-]; by apply Hsame].
    destruct (shPolicies d !! _) eqn:Hk; [intros [= _ <-]; by apply Hsame|].
    destruct (named_row _ _ _) eqn:Hn; intros [= _ <-]; [by apply Hsame|].
    apply (hist_ok_create d (mkStoredPolicy (ppID p') (ppName p') (ppVersion p') (ppSpec p') (toMillis (ppUpdatedAt p')))); done.
  - unfold policy_Update. destruct (ValidatePolicySpec s) as [[]|]; [|intros [= _ <-]; by apply Hsame].
    destruct (shPolicies d !! id) as [x|] eqn:Hx; [|intros [= _ <-]; by apply Hsame]. intros ->%policy_Get_same.
    by eapply hist_ok_revise.
Qed.

(** ** The resolver over the registry *)
Inductive sys_step : ShareDB * Resolver → ShareDB * Resolver → Prop :=
| sys_registry d d' r : share_step d d' → sys_step (d, r) (d', r)
| sys_resolve d r p kind id now : sys_step (d, r) (d, (Resolve r d p kind id now).2)
| sys_invalidate d r : sys_step (d, r) (d, Invalidate r).

(** The policy a name and a version name. *)
Definition spec_of (h : gmap (string * Z) string) (name : string) (version : Z) : Policy :=
  match h !! (name, version) with
  | Some s => match decodeSpec s with
              | Some p => mkPolicy name version (polData p) (polExcludeClasses p) (polFields p) (polRedact p) (polCapabilities p)
              | None => sample_policy
              end
  | None => sample_policy
  end.

(** The audience a grant was given to. *)
Definition audience_of (d : ShareDB) (grantID : string) : string :=
  match shGrants d !! grantID with
  | Some g => default nostr (auName <$> shAudiences d !! sgAudienceID g)
  | None => nostr
  end.

Lemma as_policy_spec d h k p po :
  hist_ok d h → shPolicies d !! k = Some p → PolicyFromSpec (Some (as_policy p)) = Ok po →
  po = spec_of h (polName po) (polVersion po) ∧ polName po = ppName p ∧ polVersion po = ppVersion p.
Proof.
  intros Hh Hk. unfold PolicyFromSpec. cbn. destruct (decodeSpec (ppSpec p)) as [q|] eqn:Hq; [|done].
  destruct (Validate _); [|done]. intros [= <-]. cbn. unfold spec_of. by rewrite (hist_now _ _ Hh k p Hk), Hq.
Qed.

Lemma spec_of_mono h h' n v s : h ⊆ h' → h !! (n, v) = Some s → spec_of h' n v = spec_of h n v.
Proof. intros Hs Hl. unfold spec_of. by rewrite Hl, (lookup_weaken _ _ _ _ Hl Hs). Qed.

Lemma audience_of_mono d d' k g : share_ext d d' → share_wf d → shGrants d !! k = Some g → audience_of d' k = audience_of d k.
Proof.
  intros [_ Ea _ Eg] Hwf Hk. unfold audience_of. destruct (Eg _ _ Hk) as (g' & Hg' & (_ & Ha & _)). rewrite Hk, Hg', Ha.
  destruct (wf_grant _ Hwf _ _ Hk) as (_ & _ & [a Hau] & _). destruct (Ea _ _ Hau) as (a' & Ha' & <-). by rewrite Hau, Ha'.
Qed.

(** What the join holds. *)
Lemma elem_of_rows {K A} `{Countable K} (m : gmap K A) x : x ∈ rows m ↔ ∃ k, m !! k = Some x.
Proof.
  unfold rows. rewrite list_elem_of_fmap. split.
  - intros ([k y] & -> & Hin%elem_of_map_to_list). eauto.
  - intros [k Hk]. exists (k, x). split; [done|by apply elem_of_map_to_list].
Qed.

Lemma elem_of_List_filter {A} (f : A → bool) l x : x ∈ List.filter f l ↔ f x = true ∧ x ∈ l.
Proof. rewrite !list_elem_of_In, filter_In. tauto. Qed.

Lemma elem_of_option_list {A} (o : option A) x : x ∈ option_list o ↔ o = Some x.
Proof. destruct o; cbn; rewrite ?list_elem_of_singleton; split; [by intros ->|by intros [= ->]|by intros ?%elem_of_nil|done]. Qed.

(** The grants in force for a principal: through a membership that has not
    expired, a grant neither revoked nor expired, and the policy as it is. *)
Record in_force (d : ShareDB) (p : string) (ms : Z) (g : ShareGrant) (a : Audience) (pp : StoredPolicy) : Prop := {
  if_member : ∃ m, shMembers d !! (sgAudienceID g, p) = Some m ∧ live_at ms (amExpiresAt m) = true;
  if_grant : shGrants d !! sgID g = Some g ∧ sgRevokedAt g = None ∧ live_at ms (sgExpiresAt g) = true;
  if_audience : shAudiences d !! sgAudienceID g = Some a;
  if_policy : shPolicies d !! sgPolicyID g = Some pp;
}.

Lemma elem_of_joined d p ms j :
  share_wf d → j ∈ joined p ms d ↔ in_force d p ms (jgGrant j) (jgAudience j) (jgPolicy j).
Proof.
  intros Hwf. unfold joined. rewrite list_elem_of_bind. setoid_rewrite list_elem_of_bind. setoid_rewrite list_elem_of_bind.
  setoid_rewrite list_elem_of_bind. repeat setoid_rewrite elem_of_List_filter. repeat setoid_rewrite elem_of_rows.
  repeat setoid_rewrite elem_of_option_list. repeat setoid_rewrite andb_true_iff. repeat setoid_rewrite str_eqb_true.
  setoid_rewrite list_elem_of_singleton. split.
  - intros (m & (a & (g & (pp & -> & Hpp) & (((Hga & Hu) & Hgl) & kg & Hg)) & Ha) & ((Hmp & Hml) & km & Hm)).
    destruct (wf_grant _ Hwf _ _ Hg) as (<- & _). destruct (wf_mem _ Hwf _ _ Hm) as (-> & _). subst p. cbn.
    split; [|split_and!; [done| |done]|by rewrite Hga|done].
    + exists m. by rewrite Hga.
    + unfold unrevoked in Hu. by destruct (sgRevokedAt g).
  - destruct j as [g a pp]; cbn. intros [(m & Hm & Hml) (Hg & Hr & Hgl) Ha Hp].
    destruct (wf_mem _ Hwf _ _ Hm) as ([= Hma Hmp] & _).
    exists m. split; [|split; [done|by eexists]]. exists a. rewrite <- Hma. split; [|done].
    exists g. split; [by exists pp|]. unfold unrevoked. rewrite Hr. split; [done|by eexists].
Qed.
End steps.
