(* ===== verification/SharingEffect.v ===== *)
(** * What a request sees, from the tables

    The end of the sharing path: administrators write the tables of file
    SharingDB, requests resolve their viewer through the cache of file Resolver,
    in any order.  What a request then sees is stated of the rows of the tables
    at that moment, and of nothing else. *)

From S2P Require Import Prelude GoStrings JobStore RsqlCompiler Classes StorageScope Policy PolicyCompile ViewerSpec Resolver Encodings AuthScopes AuthRegistry AuthInvariants Ulid SharingDB SharingSafety.

Section effect.
Context `{GoCrypto, GoSpecs}.

(** What [PolicyFromSpec] reads in a row. *)
Definition policy_of (pp : StoredPolicy) : result FromSpecError Policy := PolicyFromSpec (Some (as_policy pp)).

Lemma activeGrants_ok l gs :
  activeGrants l = Ok gs →
  Forall2 (λ ag g, PolicyFromSpec (Some (agPolicy ag)) = Ok (grPolicy g) ∧
                   grID g = sgID (agGrant ag) ∧ grAudience g = agAudienceName ag) l gs.
Proof.
  revert gs. induction l as [|ag l IH]; intros gs Hg; cbn in Hg; [injection Hg as <-; constructor|].
  inv_ok. unfold activeGrant in *. inv_ok. constructor; [done|by apply IH].
Qed.

Lemma activeGrants_total l :
  Forall (λ ag, ∃ po, PolicyFromSpec (Some (agPolicy ag)) = Ok po) l → ∃ gs, activeGrants l = Ok gs.
Proof.
  induction 1 as [|ag l [po Hpo] _ [gs IH]]; [by eexists|]. cbn [activeGrants]. unfold activeGrant.
  rewrite Hpo. cbn. rewrite IH. cbn. eauto.
Qed.

Lemma activeGrants_err l : activeGrants l = Err (FromStore Resolver.ErrNotFound) → False.
Proof.
  induction l as [|ag l IH]; [done|]. cbn [activeGrants]. unfold activeGrant. destruct (PolicyFromSpec _); [|done]. cbn.
  destruct (activeGrants l); [done|]. cbn. intros [= ->]. by apply IH.
Qed.

Definition active_rows (d : ShareDB) (p : string) (now : Z) : list ActiveGrant :=
  map (λ j, mkActiveGrant (scanGrant (jgGrant j)) (auName (jgAudience j)) (as_policy (jgPolicy j)))
    (order_by (λ j, sgCreatedAt (jgGrant j)) (λ j, sgID (jgGrant j)) (joined p (toMillis now) d)).

Lemma active_rows_read d p now : ListActiveForPrincipal d p now = Ok (active_rows d p now).
Proof. cbn. unfold read. cbn. by rewrite map_map. Qed.

Lemma elem_of_active_rows d p now ag :
  share_wf d → ag ∈ active_rows d p now ↔
  ∃ g a pp, in_force d p (toMillis now) g a pp ∧ ag = mkActiveGrant (scanGrant g) (auName a) (as_policy pp).
Proof.
  intros Hwf. unfold active_rows. rewrite list_elem_of_fmap. unfold order_by. setoid_rewrite merge_sort_Permutation.
  setoid_rewrite (elem_of_joined d p (toMillis now) _ Hwf). split.
  - intros ([g a pp] & -> & Hin). eauto 6.
  - intros (g & a & pp & Hin & ->). exists (mkJoined g a pp). done.
Qed.

(** The policy a credential narrows to. *)
Definition key_of (d : ShareDB) (id : string) : option string := if str_eqb id nostr then None else shKeyPolicy d !! id.

Record loaded (d : ShareDB) (p id : string) (now : Z) (i : Input) : Prop := {
  ld_principal : has_row (dbPrincipals (shAuth d)) p;
  ld_identity : id = nostr ∨ has_row (dbIdentities (shAuth d)) id;
  ld_ids : inPrincipalID i = p ∧ inIdentityID i = id;
  ld_deny : inDenyClasses i = NormalizeClasses (default [] (shDeny d !! p));
  ld_grants : Forall2 (λ ag g, PolicyFromSpec (Some (agPolicy ag)) = Ok (grPolicy g) ∧
                   grID g = sgID (agGrant ag) ∧ grAudience g = agAudienceName ag) (active_rows d p now) (inGrants i);
  ld_key : match key_of d id with
           | None => inKeyPolicy i = None
           | Some pid => ∃ pp po, shPolicies d !! pid = Some pp ∧ policy_of pp = Ok po ∧ inKeyPolicy i = Some po
           end;
}.

(** The other reads of the resolver. *)
Lemma read_deny d p :
  DenyClasses d p = match dbPrincipals (shAuth d) !! p with
                    | None => Err Resolver.ErrNotFound
                    | Some _ => Ok (NormalizeClasses (default [] (shDeny d !! p))) end.
Proof. cbn. unfold read, sh_DenyClasses. by destruct (dbPrincipals (shAuth d) !! p). Qed.

Lemma read_key d id :
  IdentityPolicy d id = match dbIdentities (shAuth d) !! id with
                        | None => Err Resolver.ErrNotFound
                        | Some _ => Ok (default nostr (shKeyPolicy d !! id)) end.
Proof. cbn. unfold read, sh_IdentityPolicy. by destruct (dbIdentities (shAuth d) !! id). Qed.

Lemma read_policy d pid :
  Policies_Get d pid = match shPolicies d !! pid with None => Err Resolver.ErrNotFound | Some pp => Ok (as_policy pp) end.
Proof. cbn. unfold read, policy_Get, found_row. by destruct (shPolicies d !! pid). Qed.

(** The policy of a known credential, as [loadInput] reads it. *)
Definition key_read (d : ShareDB) (id : string) : result ResolveError (option Policy) :=
  if str_eqb id nostr then Ok None
  else match dbIdentities (shAuth d) !! id with
       | None => Err (FromStore Resolver.ErrNotFound)
       | Some _ => match shKeyPolicy d !! id ≫= (λ pid, shPolicies d !! pid) with
                   | None => Ok None
                   | Some pp => p ← map_err FromPolicy (policy_of pp); Ok (Some p)
                   end
       end.

Lemma loadInput_read d p id now :
  share_wf d →
  loadInput d p id now =
    match dbPrincipals (shAuth d) !! p with
    | None => Err (FromStore Resolver.ErrNotFound)
    | Some _ =>
        gs ← activeGrants (active_rows d p now);
        key ← key_read d id;
        Ok (mkInput p id gs (NormalizeClasses (default [] (shDeny d !! p))) key)
    end.
Proof.
  intros Hwf. unfold loadInput. rewrite read_deny, active_rows_read. destruct (dbPrincipals (shAuth d) !! p); [|done].
  cbn [map_err mbind result_bind]. destruct (activeGrants _); cbn [mbind result_bind]; [|done].
  unfold key_read. rewrite read_key. destruct (str_eqb id nostr); [done|]. destruct (dbIdentities (shAuth d) !! id); [|done].
  cbn [map_err mbind result_bind]. destruct (shKeyPolicy d !! id) as [pid|] eqn:Hk; [|done]. change (default nostr (Some pid)) with pid. cbn [mbind option_bind].
  destruct (wf_key_fk _ Hwf _ _ Hk) as (_ & [pp Hpp] & Hne).
  assert (str_eqb pid nostr = false) as -> by (apply not_true_iff_false; by rewrite str_eqb_true).
  by rewrite read_policy, Hpp.
Qed.

Lemma loadInput_loaded d p id now i : share_wf d → loadInput d p id now = Ok i → loaded d p id now i.
Proof.
  intros Hwf. rewrite loadInput_read by done. destruct (dbPrincipals (shAuth d) !! p) as [pr|] eqn:Hp; [|done].
  intros Hl. inv_ok. rename a into gs, Ha into Hgs, a0 into key, Ha0 into Hkey. apply activeGrants_ok in Hgs.
  unfold key_read, key_of in *.
  split; [by eexists| |done|done|done|]; cbn [inKeyPolicy].
  - destruct (str_eqb id nostr) eqn:Hid; [left; by apply str_eqb_true|right].
    destruct (dbIdentities (shAuth d) !! id) eqn:Hi; [by eexists|done].
  - unfold key_of. destruct (str_eqb id nostr); [by injection Hkey as <-|].
    destruct (dbIdentities (shAuth d) !! id); [|done]. destruct (shKeyPolicy d !! id) as [pid|] eqn:Hk; [|by injection Hkey as <-].
    destruct (wf_key_fk _ Hwf _ _ Hk) as (_ & [pp Hpp] & Hne). cbn [mbind option_bind] in Hkey. rewrite Hpp in Hkey. inv_ok. eauto.
Qed.

(** Loading fails only for a row that is missing or a policy whose spec is refused. *)
Lemma loadInput_total d p id now :
  share_wf d →
  (∀ g a pp, in_force d p (toMillis now) g a pp → ∃ po, policy_of pp = Ok po) →
  (∀ pid pp, key_of d id = Some pid → shPolicies d !! pid = Some pp → ∃ po, policy_of pp = Ok po) →
  (∃ i, loadInput d p id now = Ok i) ∨ loadInput d p id now = Err (FromStore Resolver.ErrNotFound).
Proof.
  intros Hwf Hg Hk. rewrite loadInput_read by done. destruct (dbPrincipals (shAuth d) !! p); [|by right].
  destruct (activeGrants_total (active_rows d p now)) as [gs ->].
  { apply Forall_forall. intros ag (g & a & pp & Hin & ->)%elem_of_active_rows; [|done]. apply (Hg g a pp Hin). }
  cbn [mbind result_bind]. unfold key_read, key_of in *. destruct (str_eqb id nostr); [left; by eexists|].
  destruct (dbIdentities (shAuth d) !! id); [|by right]. left.
  destruct (shKeyPolicy d !! id) as [pid|] eqn:Hkp; cbn [mbind option_bind]; [|by eexists].
  destruct (shPolicies d !! pid) as [pp|] eqn:Hpp; [|by eexists].
  destruct (Hk pid pp eq_refl Hpp) as [po ->]. by eexists.
Qed.

(** ** What the resolver may rely on *)
Lemma nul_not_id : id_char nul = false. Proof. reflexivity. Qed.

Lemma policy_of_name pp po : policy_of pp = Ok po → polName po = ppName pp.
Proof. unfold policy_of, PolicyFromSpec. cbn. repeat case_match; try done. by intros [= <-]. Qed.

Lemma store_ok_at d h h' d' :
  share_wf d → hist_ok d h → h ⊆ h' → share_ext d d' → store_ok (spec_of h') (audience_of d') d.
Proof.
  intros Hwf Hh Hs He p id now i Hl%loadInput_loaded; [|done]. destruct Hl as [Hp Hi [Hip Hii] Hd Hg Hk].
  assert (Hspec : ∀ k pp po, shPolicies d !! k = Some pp → policy_of pp = Ok po →
    po = spec_of h' (polName po) (polVersion po) ∧ ValidateSharingName (polName po) = true).
  { intros k pp po Hpp Hpo. destruct (as_policy_spec d h k pp po Hh Hpp Hpo) as (Heq & Hn & Hv).
    split; [|rewrite Hn; by destruct (wf_pol _ Hwf _ _ Hpp) as (_ & ? & _)].
    rewrite (spec_of_mono h h' _ _ (ppSpec pp) Hs); [done|]. rewrite Hn, Hv. by eapply hist_now. }
  assert (Hgr : Forall (λ g, ∃ sg a pp, in_force d p (toMillis now) sg a pp ∧ policy_of pp = Ok (grPolicy g) ∧
    grID g = sgID sg ∧ grAudience g = auName a) (inGrants i)).
  { apply Forall_forall. intros g Hin. apply list_elem_of_lookup in Hin as [n Hn].
    destruct (Forall2_lookup_r _ _ _ _ _ Hg Hn) as (ag & Hag & Hpo & Hgi & Hga).
    apply list_elem_of_lookup_2, elem_of_active_rows in Hag as (sg & a & pp & Hf & ->); [|done]. eauto 8. }
  split.
  - split.
    + rewrite Hip. apply minted_lacks; [done|]. by apply (proj1 (wf_minted _ Hwf)).
    + rewrite Hii. destruct Hi as [->|Hi]; [done|]. apply minted_lacks; [done|]. by apply (proj2 (wf_minted _ Hwf)).
    + rewrite Hd. destruct (shDeny d !! p) as [l|] eqn:Hdp; cbn; [|constructor]. by eapply NormalizeClasses_valid, wf_deny_valid.
    + intros k Hik. rewrite Hik in Hk. destruct (key_of d id); [|done]. destruct Hk as (pp & po & Hpp & Hpo & [= <-]).
      by eapply Hspec.
    + eapply Forall_impl; [exact Hgr|]. intros g (sg & a & pp & [_ (Hsg & _) _ Hpp] & Hpo & Hgi & _).
      destruct (wf_grant _ Hwf _ _ Hsg) as (_ & Hm & _). rewrite Hgi.
      split_and!; [by apply minted_lacks..|]. by eapply Hspec.
  - eapply Forall_impl; [exact Hgr|]. intros g (sg & a & pp & [_ (Hsg & _) Hau Hpp] & Hpo & Hgi & Hga).
    split; [by eapply Hspec|]. rewrite Hga, Hgi, (audience_of_mono d d' _ sg He Hwf Hsg). unfold audience_of. by rewrite Hsg, Hau.
  - intros k Hik. rewrite Hik in Hk. destruct (key_of d id); [|done]. destruct Hk as (pp & po & Hpp & Hpo & [= <-]).
    by eapply Hspec.
Qed.

Definition sys_inv (s : ShareDB * Resolver) : Prop :=
  share_wf s.1 ∧ ∃ h, hist_ok s.1 h ∧
    ∀ h' d', h ⊆ h' → share_ext s.1 d' → star (resolver_step (S:=ShareDB) (spec_of h') (audience_of d')) NewResolver s.2.

Lemma sys_step_inv s s' : sys_step s s' → sys_inv s → sys_inv s'.
Proof.
  intros [d d' r Hstep|d r p kind id now|d r] (Hwf & h & Hh & Hr); unfold sys_inv; cbn [fst snd] in *.
  - destruct (share_step_ok d d' Hstep Hwf) as [Hwf' He]. split; [done|].
    destruct (share_step_hist d d' h Hwf Hstep Hh) as (h1 & Hs1 & Hh1). exists h1. split; [done|].
    intros h' d2 Hs Hd2. apply Hr; [by etransitivity|by transitivity d'].
  - split; [done|]. exists h. split; [done|]. intros h' d' Hs He.
    eapply star_trans; [by apply Hr|]. eapply star_step; [|apply star_refl]. apply step_resolve. by eapply store_ok_at.
  - split; [done|]. exists h. split; [done|]. intros h' d' Hs He.
    eapply star_trans; [by apply Hr|]. eapply star_step; [|apply star_refl]. apply step_invalidate.
Qed.

Lemma initShare_wf created : share_wf (initShare (initDB created)).
Proof.
  split; cbn; try (intros ? ? Hx; by rewrite lookup_empty in Hx); try (intros ? ? ? ? Hx; by rewrite lookup_empty in Hx).
  - apply initDB_wf.
  - split; intros k [x Hx]; cbn in Hx.
    + apply lookup_singleton_Some in Hx as [<- _]. by split.
    + by rewrite lookup_empty in Hx.
  - intros x Hx. by apply elem_of_empty in Hx.
Qed.

(** Databases and resolvers that statements, resolutions and invalidations
    reach from a migrated database and an empty cache. *)
Definition sys_reachable (s : ShareDB * Resolver) : Prop :=
  ∃ created, star sys_step (initShare (initDB created), NewResolver) s.

Lemma sys_reachable_inv s : sys_reachable s → sys_inv s.
Proof.
  intros [c Hs]. eapply star_invariant; [exact sys_step_inv|exact Hs|]. split; [apply initShare_wf|].
  exists ∅. split; [split|].
  - intros k p Hk. cbn in Hk. by rewrite lookup_empty in Hk.
  - intros n v s0 Hk. by rewrite lookup_empty in Hk.
  - intros h' d' _ _. apply star_refl.
Qed.

Lemma reachable_fresh d r p kind id now :
  sys_reachable (d, r) → share_wf d ∧ (Resolve r d p kind id now).1 = fresh d p kind id now.
Proof.
  intros (Hwf & h & Hh & Hr)%sys_reachable_inv. cbn [fst snd] in *. split; [done|].
  apply (Resolve_fresh (S:=ShareDB) (spec_of h) (audience_of d)); [apply (reachable_coherent (S:=ShareDB) (spec_of h) (audience_of d) r), Hr; [done|reflexivity]|].
  eapply store_ok_at; [done..|reflexivity].
Qed.

(** ** The specification *)

(** A policy in force for the principal admits the row. *)
Definition granted (d : ShareDB) (p : string) (ms : Z) (row : Row) : Prop :=
  ∃ g a pp po, in_force d p ms g a pp ∧ policy_of pp = Ok po ∧ policy_admits row po = true.

(** The principal's ceiling denies none of the row's classes. *)
Definition below_ceiling (d : ShareDB) (p : string) (row : Row) : Prop :=
  carries row (NormalizeClasses (default [] (shDeny d !! p))) = false.

(** The credential is none, or known and bound to no policy or to one that
    admits the row. *)
Definition key_admits (d : ShareDB) (id : string) (row : Row) : Prop :=
  (id = nostr ∨ has_row (dbIdentities (shAuth d)) id) ∧
  ∀ pid, key_of d id = Some pid → ∃ pp po, shPolicies d !! pid = Some pp ∧ policy_of pp = Ok po ∧ policy_admits row po = true.

Lemma loaded_may_see d p id now i row :
  share_wf d → loaded d p id now i →
  may_see i row = true ↔ granted d p (toMillis now) row ∧ below_ceiling d p row ∧ key_admits d id row.
Proof.
  intros Hwf [Hp Hi _ Hd Hg Hk]. unfold may_see. rewrite !andb_true_iff, negb_true_iff, existsb_exists'. rewrite Hd, NormalizeClasses_normal.
  assert (Hkey : match inKeyPolicy i with None => true | Some k => policy_admits row k end = true ↔ key_admits d id row).
  { unfold key_admits. destruct (key_of d id) as [pid|].
    - destruct Hk as (pp & po & Hpp & Hpo & ->). split.
      + intros Ha. split; [done|]. intros ? [= <-]. eauto.
      + intros [_ Hx]. destruct (Hx pid eq_refl) as (pp' & po' & Hpp' & Hpo' & Ha). simplify_eq. by assert (po' = po) as <- by congruence.
    - rewrite Hk. split; [split; [done|by intros]|done]. }
  rewrite Hkey. assert ((∃ g, g ∈ inGrants i ∧ policy_admits row (grPolicy g) = true) ↔ granted d p (toMillis now) row) as ->;
    [|unfold below_ceiling; tauto].
  unfold granted. split.
  - intros (g & Hin & Ha). apply list_elem_of_lookup in Hin as [n Hn].
    destruct (Forall2_lookup_r _ _ _ _ _ Hg Hn) as (ag & Hag & Hpo & _ & _).
    apply list_elem_of_lookup_2, elem_of_active_rows in Hag as (sg & a & pp & Hf & ->); [|done]. exists sg, a, pp, (grPolicy g). done.
  - intros (sg & a & pp & po & Hf & Hpo & Ha).
    assert (Hin : mkActiveGrant (scanGrant sg) (auName a) (as_policy pp) ∈ active_rows d p now) by (apply elem_of_active_rows; eauto 6).
    apply list_elem_of_lookup in Hin as [n Hn]. destruct (Forall2_lookup_l _ _ _ _ _ Hg Hn) as (g & Hgn & Hpo' & _).
    exists g. split; [by eapply list_elem_of_lookup_2|]. change (policy_of pp = Ok (grPolicy g)) in Hpo'. by assert (grPolicy g = po) as -> by congruence.
Qed.

Lemma fresh_sees d p kind id now v row :
  share_wf d → kind ≠ PrincipalKindOwner → fresh d p kind id now = Ok v →
  sees v row = true ↔ granted d p (toMillis now) row ∧ below_ceiling d p row ∧ key_admits d id row.
Proof.
  intros Hwf Hk. unfold fresh, CompileForPrincipal, str_eqb at 1. rewrite bool_decide_false by done.
  destruct (loadInput d p id now) as [i|[[]| | |]] eqn:Hl; cbn [mbind result_bind]; try done.
  - apply loadInput_loaded in Hl; [|done]. destruct (Compile i) as [w|] eqn:Hc; [|done]. intros [= <-].
    rewrite (Compile_sees i w row Hc). by apply loaded_may_see.
  - intros [= <-]. split; [done|]. intros ((g & a & pp & po & Hf & Hpo & _) & _ & [Hid Hkey]).
    exfalso. rewrite loadInput_read in Hl by done.
    destruct (if_member _ _ _ _ _ _ Hf) as (m & Hm & _). destruct (wf_mem _ Hwf _ _ Hm) as ([= _ Hmp] & _ & [pr Hpr]).
    rewrite <- Hmp in Hpr. rewrite Hpr in Hl.
    destruct (activeGrants (active_rows d p now)) as [gs|e] eqn:Hgs; [|injection Hl as ->; by apply activeGrants_err in Hgs].
    cbn [mbind result_bind] in Hl. unfold key_read, key_of in *. destruct (str_eqb id nostr) eqn:He; [done|].
    destruct Hid as [->|[ir Hi]]; [by rewrite str_eqb_refl in He|]. rewrite Hi in Hl.
    destruct (shKeyPolicy d !! id ≫= _) as [pp'|]; [|done]. by destruct (policy_of pp').
Qed.

Lemma policy_of_compiles pp po : policy_of pp = Ok po → ∃ n, DataNode po = Ok n.
Proof.
  unfold policy_of, PolicyFromSpec. cbn. destruct (decodeSpec (ppSpec pp)); [|done].
  destruct (Validate _) eqn:Hv; [|done]. intros [= <-]. by apply Validate_spec in Hv as (_ & ? & _).
Qed.

Lemma loaded_compiles d p id now i : share_wf d → loaded d p id now i → ∃ v, Compile i = Ok v.
Proof.
  intros Hwf [Hpr _ [Hpi _] _ Hgr Hkp]. apply Compile_total. rewrite Hpi. split; [by apply (proj1 (wf_minted _ Hwf))|]. split.
  - apply Forall_forall. intros g Hin. apply list_elem_of_lookup in Hin as [n Hn].
    destruct (Forall2_lookup_r _ _ _ _ _ Hgr Hn) as (ag & Hag & Hpo & _).
    apply list_elem_of_lookup_2, elem_of_active_rows in Hag as (sg & a & pp & Hf & ->); [|done]. by apply (policy_of_compiles pp).
  - intros k Hik. destruct (key_of d id); [|congruence]. destruct Hkp as (pp & po & _ & Hpo & Hik'). simplify_eq.
    by apply (policy_of_compiles pp).
Qed.

Lemma fresh_total d p kind id now : share_wf d → kind ≠ PrincipalKindOwner →
  (∀ g a pp, in_force d p (toMillis now) g a pp → ∃ po, policy_of pp = Ok po) →
  (∀ pid pp, key_of d id = Some pid → shPolicies d !! pid = Some pp → ∃ po, policy_of pp = Ok po) →
  ∃ v, fresh d p kind id now = Ok v.
Proof.
  intros Hwf Hk Hg Hkey. unfold fresh, CompileForPrincipal, str_eqb at 1. rewrite bool_decide_false by done.
  destruct (loadInput_total d p id now Hwf Hg Hkey) as [[i Hi]|Hi]; rewrite Hi; cbn [mbind result_bind]; [|by exists zeroViewer].
  apply loadInput_loaded in Hi; [|done]. destruct (loaded_compiles d p id now i Hwf Hi) as [v ->]. by exists v.
Qed.

(** C3. Sharing takes effect at once.  Whatever statements were run on the registry
    and whatever requests were resolved before, in any order, the viewer a request
    of a restricted principal gets, cached or compiled, sees a row exactly when,
    in the tables as they are and at the request's instant, a policy that is in
    force for the principal (an unexpired membership of an audience, a grant to it
    neither revoked nor expired) admits the row at its current version, the
    principal's ceiling denies none of the row's classes, and the policy its
    credential is bound to, if any, admits it too.  So a revocation, an expiry, a
    removed member, a new ceiling or an edited policy holds from the next request
    on; and a request is refused only for a policy whose spec is refused. *)
Theorem sharing_takes_effect d r p kind id now :
  sys_reachable (d, r) → kind ≠ PrincipalKindOwner →
  (∀ v row, (Resolve r d p kind id now).1 = Ok v →
     sees v row = true ↔ granted d p (toMillis now) row ∧ below_ceiling d p row ∧ key_admits d id row) ∧
  ((∀ g a pp, in_force d p (toMillis now) g a pp → ∃ po, policy_of pp = Ok po) →
   (∀ pid pp, key_of d id = Some pid → shPolicies d !! pid = Some pp → ∃ po, policy_of pp = Ok po) →
   ∃ v, (Resolve r d p kind id now).1 = Ok v).
Proof.
  intros Hr Hk. destruct (reachable_fresh d r p kind id now Hr) as [Hwf ->]. split; [by intros; eapply fresh_sees|].
  by apply fresh_total.
Qed.
End effect.

(** ** A registry at work: a grant, a resolved request, a revocation *)
#[local] Instance share_crypto : GoCrypto := {| SHA256 s := s |}.
#[local] Instance share_specs : GoSpecs :=
  {| json_Valid s := HasPrefix s "{"; decodeSpec s := if str_eqb s "{ideas}" then Some (sample_spec nostr 0) else None |}.

Definition share_anna : StoredPrincipal := mkSP "prn_1" PrincipalKindPerson "Anna" ["reader"] PrincipalActive 1 None.
Definition share_d1 : ShareDB := set_auth (principal_Create 1 "prn_2" share_anna (initDB 0)).2 (initShare (initDB 0)).
Definition share_d2 : ShareDB := (audience_Create 1000000 "aud_1" (mkAudience nostr "colleagues" 1000000) share_d1).2.
Definition share_d3 : ShareDB := (policy_Create 1000000 "pol_1" (mkStoredPolicy nostr "ideas" 0 "{ideas}" 1000000) share_d2).2.
Definition share_d4 : ShareDB :=
  (grant_Create 1000000 "grt_1" (mkShareGrant nostr "aud_1" "pol_1" None OwnerPrincipal 1000000 None) share_d3).2.
Definition share_d5 : ShareDB := (AddMember 2000000 (mkAudienceMember "aud_1" "prn_1" None OwnerPrincipal 2000000) share_d4).2.
Definition share_r5 : Resolver := (Resolve NewResolver share_d5 "prn_1" PrincipalKindPerson nostr 3000000).2.
Definition share_d6 : ShareDB := (grant_Revoke "grt_1" 4000000 share_d5).2.

Lemma step_to {A} (m : share A) d : share_op A m → share_step d (m d).2.
Proof. intros Hop. by apply (share_step_op d A m (m d).1); [|destruct (m d)]. Qed.

Lemma share_run : sys_reachable (share_d6, share_r5).
Proof.
  exists 0%Z.
  eapply star_step; [apply (sys_registry _ share_d1)|].
  { apply share_step_auth.
    - eapply (reg_step_intro _ _ _ (principal_Create 1 "prn_2" share_anna)); [apply op_plain, op_principal_Create|reflexivity].
    - split; intros k [x Hx].
      + change (<["prn_1" := sp_times toMillis share_anna]> ({[OwnerPrincipal := owner_row 0]} : gmap string StoredPrincipal) !! k = Some x) in Hx.
        apply lookup_insert_Some in Hx as [[<- _]|[_ [<- _]%lookup_singleton_Some]]; by split.
      + change ((∅ : gmap string Identity) !! k = Some x) in Hx. by rewrite lookup_empty in Hx. }
  eapply star_step; [apply (sys_registry _ share_d2), step_to, op_audience_Create|].
  eapply star_step; [apply (sys_registry _ share_d3), step_to, op_policy_Create|].
  eapply star_step; [apply (sys_registry _ share_d4), step_to, op_grant_Create; [by split|by left]|].
  eapply star_step; [apply (sys_registry _ share_d5), step_to, op_AddMember|].
  eapply star_step; [apply sys_resolve|]. eapply star_step; [|apply star_refl].
  apply sys_registry, step_to, op_grant_Revoke.
Qed.

Lemma sharing_takes_effect_witness :
  CacheSize share_r5 = 1 ∧
  (∃ v, (Resolve share_r5 share_d5 "prn_1" PrincipalKindPerson nostr 3500000).1 = Ok v ∧ sees v sample_row = true) ∧
  ∃ v, (Resolve share_r5 share_d6 "prn_1" PrincipalKindPerson nostr 5000000).1 = Ok v ∧ sees v sample_row = false.
Proof.
  split; [vm_compute; reflexivity|]. split; [eexists; split; [vm_compute; reflexivity|vm_compute; reflexivity]|].
  destruct (sharing_takes_effect share_d6 share_r5 "prn_1" PrincipalKindPerson nostr 5000000 share_run) as [Hs _]; [discriminate|].
  eexists. split; [vm_compute; reflexivity|]. apply not_true_iff_false. intros Ht.
  eapply Hs in Ht as ((g & a & pp & po & [_ (Hg & Hr & _) _ _] & _) & _); [|vm_compute; reflexivity].
  change (shGrants share_d6) with (update_row "grt_1" unrevoked (revoked_row 4) (shGrants share_d5)) in Hg.
  rewrite lookup_update_row in Hg.
  change (shGrants share_d5) with ({["grt_1" := grant_row (mkShareGrant "grt_1" "aud_1" "pol_1" None OwnerPrincipal 1000000 None)]}
    : gmap string ShareGrant) in Hg.
  destruct (decide (sgID g = "grt_1")) as [He|He]; [rewrite He, lookup_singleton_eq in Hg|by rewrite lookup_singleton_ne in Hg].
  injection Hg as <-. discriminate Hr.
Defined.
