(* ===== verification/ReadAudit.v ===== *)
(** * The read audit

    Models [internal/sharing/audit.go]: the entry a restricted request leaves
    ([AccessEntryFor]) and the writer that buffers entries off the request path
    and appends them in batches to the access log of file SharingDB.  The
    writer's mutex makes [Record] and the two halves of [Flush] (taking the
    buffer, and what follows the append) one step each; a flush's append runs
    between them, so several flushes, records and other statements interleave.
    The interval only decides when a flush starts. *)

From S2P Require Import Prelude GoStrings JobStore Classes StorageScope Policy PolicyCompile Resolver Ledger AuthScopes Encodings AuthRegistry AuthInvariants Ulid SharingDB SharingSafety.

(** [Ledger.Objects] and [Ledger.Entities] *)
Definition Objects (l : option Ledger) : list string :=
  match l with None => [] | Some l => SortStrings (elements (lObjects l)) end.
Definition Entities (l : option Ledger) : list string :=
  match l with None => [] | Some l => SortStrings (elements (lEntities l)) end.

Record Preview : Type := mkPreview { pvTarget : string; pvPrincipal : string; pvIdentity : string }.

Definition AccessEntryFor (preview : option Preview) (v : Viewer) (route : string) (l : option Ledger) (now : Z) : AccessEntry :=
  let ids := Objects l in
  let '(principal, identity, versions) :=
    match preview with
    | Some p => (pvPrincipal p, pvIdentity p, "preview=" +:+ pvTarget p +:+ ";" +:+ Viewer_PolicyKey v)
    | None => (Viewer_PrincipalID v, Viewer_IdentityID v, Viewer_PolicyKey v)
    end in
  mkAccess nostr now (if str_eqb principal nostr then OwnerPrincipal else principal) identity route versions
    (Z.of_nat (length ids)) (Z.of_nat (length (Entities l))) ids.

(** ** The writer *)
Definition DefaultAuditBatch : nat := 64.
Definition DefaultAuditCapacity : nat := 10000.

Record AuditWriter : Type := mkWriter {
  awBatch : nat;
  awCapacity : nat;
  awBuf : list AccessEntry;
  awClosed : bool;
  awDropped : nat;
  awKick : bool;
}.

Definition NewAuditWriter (batch capacity : Z) : AuditWriter :=
  mkWriter (if (batch <=? 0)%Z then DefaultAuditBatch else Z.to_nat batch)
           (if (capacity <=? 0)%Z then DefaultAuditCapacity else Z.to_nat capacity) [] false 0 false.

Definition count_dropped (n : nat) (w : AuditWriter) : AuditWriter :=
  mkWriter (awBatch w) (awCapacity w) (awBuf w) (awClosed w) (awDropped w + n) (awKick w).

(** Whether [Record] refuses an entry. *)
Definition refuses (w : AuditWriter) : bool := awClosed w || (awCapacity w <=? length (awBuf w)).

Definition Record_ (e : AccessEntry) (w : AuditWriter) : AuditWriter :=
  if refuses w then count_dropped 1 w
  else
    let buf := awBuf w ++ [e] in
    mkWriter (awBatch w) (awCapacity w) buf (awClosed w) (awDropped w) ((awBatch w <=? length buf) || awKick w).

(** [batch := w.buf; w.buf = nil] *)
Definition take_buffer (w : AuditWriter) : list AccessEntry * AuditWriter :=
  (awBuf w, mkWriter (awBatch w) (awCapacity w) [] (awClosed w) (awDropped w) (awKick w)).

(** [Flush] run alone; [ids] are the ids [NewAccessID] gives, one per entry. *)
Definition Flush (now : Z) (ids : list string) (w : AuditWriter) (d : ShareDB)
    : result SharingError unit * AuditWriter * ShareDB :=
  let (batch, w) := take_buffer w in
  match batch with
  | [] => (Ok tt, w, d)
  | _ =>
      match access_Append now (zip batch ids) d with
      | (Ok _, d) => (Ok tt, w, d)
      | (Err e, d) => (Err e, count_dropped (length batch) w, d)
      end
  end.

Definition set_closed (w : AuditWriter) : AuditWriter :=
  mkWriter (awBatch w) (awCapacity w) (awBuf w) true (awDropped w) (awKick w).

(** [Close] after its wait for the writer's goroutine. *)
Definition Close (now : Z) (ids : list string) (w : AuditWriter) (d : ShareDB) : result SharingError unit * AuditWriter * ShareDB :=
  if awClosed w then (Ok tt, w, d) else Flush now ids (set_closed w) d.

Definition Dropped (w : AuditWriter) : nat := awDropped w.
Definition Buffered (w : AuditWriter) : nat := length (awBuf w).

(** ** The writer among other goroutines *)
Record AuditSys : Type := mkAudit {
  asWriter : AuditWriter;
  asInflight : list (list AccessEntry);  (* batches taken and not yet appended *)
  asDB : ShareDB;
  (* what happened, for the accounts *)
  asRecorded : list AccessEntry;
  asStored : list AccessEntry;
  asLost : list AccessEntry;
}.

Section steps.
Context `{GoCrypto, GoSpecs}.

Inductive audit_step : AuditSys → AuditSys → Prop :=
| au_record w fl d rc st lo e :
    audit_step (mkAudit w fl d rc st lo)
      (mkAudit (Record_ e w) fl d (e :: rc) st (if refuses w then e :: lo else lo))
| au_take w fl d rc st lo :
    awBuf w ≠ [] → audit_step (mkAudit w fl d rc st lo) (mkAudit (take_buffer w).2 ((take_buffer w).1 :: fl) d rc st lo)
| au_appended w fl1 batch fl2 d d' rc st lo now ids :
    length ids = length batch → access_Append now (zip batch ids) d = (Ok tt, d') →
    audit_step (mkAudit w (fl1 ++ batch :: fl2) d rc st lo) (mkAudit w (fl1 ++ fl2) d' rc (batch ++ st) lo)
| au_failed w fl1 batch fl2 d d' rc st lo now ids :
    (* the append was refused, or the database failed it with or without its effect *)
    d' = d ∨ access_Append now (zip batch ids) d = (Ok tt, d') →
    audit_step (mkAudit w (fl1 ++ batch :: fl2) d rc st lo)
      (mkAudit (count_dropped (length batch) w) (fl1 ++ fl2) d' rc st (batch ++ lo))
| au_close w fl d rc st lo : audit_step (mkAudit w fl d rc st lo) (mkAudit (set_closed w) fl d rc st lo)
| au_other w fl d d' rc st lo : share_step d d' → audit_step (mkAudit w fl d rc st lo) (mkAudit w fl d' rc st lo).

(** The row of the access log an entry left. *)
Definition logged_as (d : ShareDB) (k : string) (e : AccessEntry) : Prop :=
  ∃ r, shLog d !! k = Some r ∧ acPrincipalID r = acPrincipalID e ∧ acIdentityID r = acIdentityID e ∧
    acRoute r = acRoute e ∧ acPolicyVersions r = acPolicyVersions e ∧
    acObjectCount r = acObjectCount e ∧ acEntityCount r = acEntityCount e.

Definition log_grows (d d' : ShareDB) : Prop := ∀ k r, shLog d !! k = Some r → shLog d' !! k = Some r.

(** ** Appending *)
Lemma insert_entries_grow l t t' : insert_entries l t = Ok t' → ∀ k r, t.1 !! k = Some r → t'.1 !! k = Some r.
Proof.
  revert t. induction l as [|e l IH]; intros t; simpl; [by intros [= <-]|].
  destruct (t.1 !! acID e) eqn:Hk; [done|]. intros Hi k r Hr. apply (IH _ Hi). cbn.
  rewrite lookup_insert_ne; [done|congruence].
Qed.

Lemma insert_entries_rows l t t' :
  insert_entries l t = Ok t' →
  NoDup (map acID l) ∧ (∀ e, e ∈ l → t.1 !! acID e = None ∧ t'.1 !! acID e = Some (access_row e) ∧
    ∀ o, o ∈ acObjectIDs e → (acID e, o) ∈ t'.2) ∧ t.2 ⊆ t'.2.
Proof.
  revert t. induction l as [|e l IH]; intros t; simpl; [intros [= <-]; split_and!; [constructor|set_solver|done]|].
  destruct (t.1 !! acID e) eqn:Hk; [done|]. intros Hi. destruct (IH _ Hi) as (Hnd & Hin & Hsub). cbn in Hin, Hsub.
  assert (Hne : ∀ x, x ∈ l → acID x ≠ acID e).
  { intros x Hx Heq. destruct (Hin x Hx) as (Hn & _). by rewrite Heq, lookup_insert_eq in Hn. }
  split_and!.
  - constructor; [|done]. intros (x & Heq & Hx)%list_elem_of_fmap. by apply (Hne x).
  - intros x [->|Hx]%elem_of_cons.
    + split_and!; [done|apply (insert_entries_grow _ _ _ Hi); apply lookup_insert_eq|]. intros o Ho. apply Hsub.
      apply elem_of_union_r, elem_of_list_to_set, list_elem_of_fmap. eauto.
    + destruct (Hin x Hx) as (Hn & Hs & Ho). split_and!; [|done|done].
      rewrite lookup_insert_ne in Hn; [done|]. intros Heq. by apply (Hne x Hx).
  - set_solver.
Qed.

Lemma prepare_entries_spec now l l' :
  prepare_entries now l = Ok l' →
  Forall2 (λ p e, acPrincipalID e = acPrincipalID p.1 ∧ acIdentityID e = acIdentityID p.1 ∧ acRoute e = acRoute p.1 ∧
    acPolicyVersions e = acPolicyVersions p.1 ∧ acObjectCount e = acObjectCount p.1 ∧ acEntityCount e = acEntityCount p.1 ∧
    acObjectIDs e = acObjectIDs p.1) l l'.
Proof.
  revert l'. induction l as [|[e id] l IH]; intros l'; cbn [prepare_entries]; [intros [= <-]; constructor|].
  intros Hp. inv_ok. constructor; [|by apply IH]. revert Ha. unfold PrepareAccessEntry. destruct (_ || _); [done|].
  intros [= <-]. done.
Qed.

(** A batch is stored whole, each entry under an id of its own, or not at all. *)
Lemma access_Append_spec now l d r d' :
  access_Append now l d = (r, d') →
  match r with
  | Err _ => d' = d
  | Ok _ => log_grows d d' ∧ ∃ keys, NoDup keys ∧ (∀ k, k ∈ keys → shLog d !! k = None) ∧
      Forall2 (λ k e, logged_as d' k e ∧ ∀ o, o ∈ acObjectIDs e → (k, o) ∈ shLogObjects d') keys (map fst l)
  end.
Proof.
  unfold access_Append. destruct (prepare_entries now l) as [es|] eqn:Hp; [|by intros [= <- <-]].
  destruct (insert_entries es _) as [t|] eqn:Hi; intros [= <- <-]; [|done].
  split; [intros k x Hx; by apply (insert_entries_grow _ _ _ Hi)|].
  destruct (insert_entries_rows _ _ _ Hi) as (Hnd & Hin & _). exists (map acID es). split; [done|]. split.
  - intros k (e & -> & He)%list_elem_of_fmap. by apply Hin.
  - apply prepare_entries_spec in Hp. clear Hi Hnd. induction Hp as [|p e l es (E1 & E2 & E3 & E4 & E5 & E6 & E7) Hp IH]; [constructor|].
    constructor; [|apply IH; intros x Hx; apply Hin; by right].
    destruct (Hin e) as (_ & Hr & Ho); [by left|]. split; [|by rewrite <- E7].
    eexists. split; [exact Hr|]. cbn. by rewrite E1, E2, E3, E4, E5, E6.
Qed.

(** No statement takes a row out of the log. *)
Lemma share_step_log d d' : share_step d d' → log_grows d d'.
Proof.
  intros [A m r d2 Hop Hm|a _ _]; [|by intros k x Hx]. destruct Hop as [p l|i p|now id a|now m|a p|now id p|id s now|now id g Hid Hg|id t|now l|t].
  10: { pose proof (access_Append_spec now l d r d2 Hm) as Hs. destruct r; [apply Hs|rewrite Hs; by intros k x Hx]. }
  7: { revert Hm. unfold policy_Update. destruct (ValidatePolicySpec s) as [[]|]; [|by intros [= _ <-] k x Hx].
       destruct (shPolicies d !! id); [|by intros [= _ <-] k x Hx]. by intros ->%policy_Get_same k x Hx. }
  all: revert Hm; unfold SetDenyClasses, BindIdentityPolicy, audience_Create, AddMember, RemoveMember, policy_Create,
    grant_Create, grant_Revoke, access_Prune; repeat case_match; intros [= _ <-]; by intros k' x' Hx'.
Qed.

(** ** The accounts *)
Record audit_ok (s : AuditSys) : Prop := {
  ao_split : asRecorded s ≡ₚ asStored s ++ concat (asInflight s) ++ awBuf (asWriter s) ++ asLost s;
  ao_lost : length (asLost s) = awDropped (asWriter s);
  ao_capacity : length (awBuf (asWriter s)) ≤ awCapacity (asWriter s);
  ao_stored : ∃ keys, NoDup keys ∧ Forall2 (logged_as (asDB s)) keys (asStored s);
}.

Lemma logged_as_grows d d' k e : log_grows d d' → logged_as d k e → logged_as d' k e.
Proof. intros Hg (r & Hr & Hx). exists r. split; [by apply Hg|done]. Qed.

Lemma stored_grows d d' keys l : log_grows d d' → Forall2 (logged_as d) keys l → Forall2 (logged_as d') keys l.
Proof. intros Hg Hf. eapply Forall2_impl; [exact Hf|]. intros k e. by apply logged_as_grows. Qed.

Lemma stored_append d d' keys st now batch ids :
  length ids = length batch → access_Append now (zip batch ids) d = (Ok tt, d') →
  NoDup keys → Forall2 (logged_as d) keys st →
  ∃ keys', NoDup keys' ∧ Forall2 (logged_as d') keys' (batch ++ st).
Proof.
  intros Hlen (Hg & new & Hnd & Hfresh & Hf)%access_Append_spec Hk Hs.
  rewrite fst_zip in Hf by lia. exists (new ++ keys). split.
  - apply NoDup_app. split_and!; [done| |done]. intros k Hin Hin'. apply list_elem_of_lookup in Hin' as [n Hn].
    destruct (Forall2_lookup_l _ _ _ _ _ Hs Hn) as (e & _ & (r & Hr & _)). rewrite (Hfresh k Hin) in Hr. done.
  - apply Forall2_app; [|by eapply stored_grows]. eapply Forall2_impl; [exact Hf|]. by intros k e [? _].
Qed.

Lemma audit_step_ok s s' : audit_step s s' → audit_ok s → audit_ok s'.
Proof.
  intros Hstep [Hp Hl Hc (keys & Hnd & Hs)].
  destruct Hstep as [w fl d rc st lo e|w fl d rc st lo Hb|w fl1 batch fl2 d d' rc st lo now ids Hlen Ha|
    w fl1 batch fl2 d d' rc st lo now ids Hd|w fl d rc st lo|w fl d d' rc st lo Hstep]; cbn [asRecorded asStored asInflight asWriter asLost asDB] in *.
  - unfold Record_, refuses. destruct (awClosed w || (awCapacity w <=? length (awBuf w))) eqn:Hr.
    + split; cbn; [rewrite Hp; solve_Permutation|lia|done|eauto].
    + apply orb_false_iff in Hr as [_ Hr%Nat.leb_gt].
      split; cbn; [rewrite Hp; solve_Permutation|done|rewrite length_app; cbn; lia|eauto].
  - split; cbn; [rewrite Hp; solve_Permutation|done|lia|eauto].
  - split; cbn; [rewrite Hp, !concat_app; cbn; solve_Permutation|done|done|by eapply stored_append].
  - split; cbn; [rewrite Hp, !concat_app; cbn; solve_Permutation|rewrite length_app; lia|done|].
    exists keys. split; [done|]. eapply stored_grows; [|done]. destruct Hd as [->|Hd]; [by intros k|].
    apply access_Append_spec in Hd. apply Hd.
  - split; cbn; eauto.
  - split; cbn; [done|done|done|]. exists keys. split; [done|]. by eapply stored_grows, Hs; apply share_step_log.
Qed.

Definition audit_start (batch capacity : Z) (d : ShareDB) : AuditSys := mkAudit (NewAuditWriter batch capacity) [] d [] [] [].

Lemma audit_reachable_ok batch capacity d s : star audit_step (audit_start batch capacity d) s → audit_ok s.
Proof.
  intros Hs. eapply star_invariant; [exact audit_step_ok|exact Hs|]. split; cbn; [done|done|lia|]. exists []. by split; constructor.
Qed.

(** C18. No entry of the read audit disappears unnoticed.  Whatever records, flushes,
    failures and other statements interleave, every entry handed to the writer is
    exactly one of: in the access log, under an id of its own and with its
    principal, credential, route, policy versions and counts, where no later
    statement removes it; in a batch being written; in the buffer, which never
    exceeds its capacity; or counted by [Dropped].  So when the writer is closed
    and its last flush is done, what is not in the log is in the count. *)
Theorem audit_accounts batch capacity d s :
  star audit_step (audit_start batch capacity d) s →
  asRecorded s ≡ₚ asStored s ++ concat (asInflight s) ++ awBuf (asWriter s) ++ asLost s ∧
  length (asLost s) = Dropped (asWriter s) ∧
  Buffered (asWriter s) ≤ awCapacity (asWriter s) ∧
  (∃ keys, NoDup keys ∧ Forall2 (logged_as (asDB s)) keys (asStored s)) ∧
  (asInflight s = [] → awBuf (asWriter s) = [] →
     length (asRecorded s) = length (asStored s) + Dropped (asWriter s)).
Proof.
  intros [Hp Hl Hc Hk]%audit_reachable_ok. split_and!; [done..|]. intros Hf Hb. unfold Dropped.
  rewrite Hp, Hf, Hb, <- Hl. cbn. by rewrite length_app.
Qed.

(** Closing: the buffer is empty after it, and an entry recorded later is only
    counted. *)
Lemma Close_drains now ids w d :
  awClosed w = false →
  let '(_, w', _) := Close now ids w d in
  awBuf w' = [] ∧ awClosed w' = true ∧ ∀ e, Record_ e w' = count_dropped 1 w'.
Proof.
  intros Hw. unfold Close. rewrite Hw. unfold Flush, take_buffer, set_closed. cbn [awBuf awBatch awCapacity awClosed awDropped awKick].
  assert (Hr : ∀ w' e, awClosed w' = true → Record_ e w' = count_dropped 1 w').
  { intros w' e Hc. unfold Record_, refuses. by rewrite Hc. }
  destruct (awBuf w); [|destruct (access_Append _ _ _) as [[[]|err] d2]];
    (split; [done|split; [done|intros x; by rewrite Hr]]).
Qed.
End steps.

(** ** A run: two entries, a buffer of one *)
#[local] Instance audit_crypto : GoCrypto := {| SHA256 s := s |}.
#[local] Instance audit_specs : GoSpecs := {| json_Valid _ := true; decodeSpec _ := None |}.

Definition entry_of (route : string) : AccessEntry := mkAccess nostr 5 "prn_1" nostr route "principal=prn_1" 1 0 ["01A"].
Definition audit_log_db : ShareDB := initShare (initDB 0).

Definition audit_w2 : AuditWriter := Record_ (entry_of "GET /b") (Record_ (entry_of "GET /a") (NewAuditWriter 1 1)).
Definition audit_d1 : ShareDB := (access_Append 7 [(entry_of "GET /a", "acc_1")] audit_log_db).2.
Definition audit_end : AuditSys :=
  mkAudit (take_buffer audit_w2).2 [] audit_d1 [entry_of "GET /b"; entry_of "GET /a"] [entry_of "GET /a"] [entry_of "GET /b"].

Lemma audit_run : star audit_step (audit_start 1 1 audit_log_db) audit_end.
Proof.
  eapply star_step; [apply (au_record _ _ _ _ _ _ (entry_of "GET /a"))|].
  eapply star_step; [apply (au_record _ _ _ _ _ _ (entry_of "GET /b"))|].
  eapply star_step; [apply au_take; vm_compute; discriminate|].
  eapply star_step; [|apply star_refl].
  apply (au_appended _ [] [entry_of "GET /a"] [] _ audit_d1 _ _ _ 7 ["acc_1"]); [reflexivity|vm_compute; reflexivity].
Qed.

Lemma audit_accounts_witness :
  length (asStored audit_end) = 1 ∧ Dropped (asWriter audit_end) = 1 ∧
  length (asRecorded audit_end) = length (asStored audit_end) + Dropped (asWriter audit_end) ∧
  ∃ keys, NoDup keys ∧ Forall2 (logged_as (asDB audit_end)) keys (asStored audit_end).
Proof.
  destruct (audit_accounts 1 1 audit_log_db audit_end audit_run) as (_ & _ & _ & Hk & Hn).
  split; [reflexivity|]. split; [reflexivity|]. split; [apply Hn; reflexivity|exact Hk].
Defined.
