(* ===== verification/HttpGate.v ===== *)
(** * The way of a request

    Models the chain a request under [/api/v1] runs through
    ([internal/server/http]: routes.go, capabilities.go, scope.go,
    middleware_auth.go, middleware_viewer.go, middleware_visibility.go,
    [sameOriginWrite] of ui_session.go, and how server.go mounts them):
    authentication and the rules for browser credentials, the caller's viewer,
    the owner's preview of another viewer, the ledger, scope and capability of
    the route, the handler, the read audit and the backstop.  The handler is an
    argument: what it answers and what its scoped reads put in the ledger.  Host
    rules, body checks, the event stream's session guard and security events are
    left out. *)

From S2P Require Import Prelude GoStrings JobStore Objects Classes StorageScope Policy PolicyCompile ViewerSpec Resolver Fields Contact Render RenderSafety Ledger Backstop Encodings AuthScopes AuthRegistry AuthInvariants AuthKeys AuthSessions AuthSafety Ulid SharingDB SharingSafety SharingEffect ReadAudit.

(** ** The route tables *)
Definition SearchRSQL : string := "rsql".
Definition SearchGraph : string := "graph".

Record apiRoute : Type := mkRoute { rtMethod : string; rtPattern : string; rtScope : Scope }.

Definition apiRoutes : list apiRoute := [
  mkRoute "GET" "/whoami" ScopeReadSystem;
  mkRoute "GET" "/objects" ScopeReadObjects;
  mkRoute "GET" "/objects/facets" ScopeReadObjects;
  mkRoute "GET" "/objects/{id}" ScopeReadObjects;
  mkRoute "GET" "/objects/{id}/related" ScopeReadObjects;
  mkRoute "PATCH" "/objects/{id}" ScopeWriteObjects;
  mkRoute "DELETE" "/objects/{id}" ScopeDeleteObjects;
  mkRoute "POST" "/objects/{id}/reprocess" ScopeWriteObjects;
  mkRoute "POST" "/edges" ScopeWriteObjects;
  mkRoute "GET" "/objects/{id}/edges" ScopeReadObjects;
  mkRoute "DELETE" "/edges" ScopeDeleteEdges;
  mkRoute "POST" "/analyze" ScopeWriteObjects;
  mkRoute "GET" "/jobs" ScopeReadJobs;
  mkRoute "GET" "/jobs/{id}" ScopeReadJobs;
  mkRoute "POST" "/jobs/{id}/retry" ScopeWriteJobs;
  mkRoute "POST" "/jobs/{id}/cancel" ScopeCancelJobs;
  mkRoute "GET" "/search" ScopeReadObjects;
  mkRoute "POST" "/find" ScopeReadObjects;
  mkRoute "GET" "/search/graph" ScopeReadObjects;
  mkRoute "GET" "/entities" ScopeReadObjects;
  mkRoute "GET" "/entities/resolve" ScopeReadObjects;
  mkRoute "GET" "/entities/{slug}" ScopeReadObjects;
  mkRoute "GET" "/entities/{slug}/backlinks" ScopeReadObjects;
  mkRoute "POST" "/entities/{slug}/pull" ScopeWriteObjects;
  mkRoute "POST" "/entities/registry-sync" ScopeSyncRegistries;
  mkRoute "GET" "/entities/registry-pending" ScopeSyncRegistries;
  mkRoute "POST" "/entities/registry-pending/approve" ScopeSyncRegistries;
  mkRoute "POST" "/entities/registry-pending/reject" ScopeSyncRegistries;
  mkRoute "GET" "/pages" ScopeReadObjects;
  mkRoute "GET" "/pages/{slug}" ScopeReadObjects;
  mkRoute "POST" "/pages/{slug}/refresh" ScopeWriteObjects;
  mkRoute "GET" "/topic-index" ScopeReadObjects;
  mkRoute "GET" "/topic-index/{topic}" ScopeReadObjects;
  mkRoute "POST" "/topic-index" ScopeWriteObjects;
  mkRoute "GET" "/stats" ScopeReadObjects;
  mkRoute "POST" "/pipelines" ScopeAdminPipelines;
  mkRoute "GET" "/pipelines" ScopeReadPipelines;
  mkRoute "GET" "/pipelines/{name}" ScopeReadPipelines;
  mkRoute "DELETE" "/pipelines/{name}" ScopeAdminPipelines;
  mkRoute "POST" "/pipelines/{name}/archive" ScopeAdminPipelines;
  mkRoute "POST" "/pipelines/{name}/unarchive" ScopeAdminPipelines;
  mkRoute "POST" "/pipelines/enqueue" ScopeWriteObjects;
  mkRoute "GET" "/steps" ScopeReadPipelines;
  mkRoute "GET" "/steps/{name}" ScopeReadPipelines;
  mkRoute "POST" "/steps/install" ScopeAdminSteps;
  mkRoute "DELETE" "/steps/{name}" ScopeAdminSteps;
  mkRoute "POST" "/steps/registries/fetch" ScopeSyncRegistries;
  mkRoute "POST" "/steps/registries/{url}/update" ScopeSyncRegistries;
  mkRoute "GET" "/steps/registries" ScopeReadRegistries;
  mkRoute "POST" "/feeds" ScopeWriteFeeds;
  mkRoute "GET" "/feeds" ScopeReadFeeds;
  mkRoute "POST" "/feeds/sync" ScopeWriteFeeds;
  mkRoute "POST" "/feeds/{id}/sync" ScopeWriteFeeds;
  mkRoute "DELETE" "/feeds/{id}" ScopeDeleteFeeds;
  mkRoute "POST" "/import" ScopeWriteObjects;
  mkRoute "GET" "/import/{id}" ScopeReadJobs;
  mkRoute "POST" "/importers/dropbox/run" ScopeWriteObjects;
  mkRoute "POST" "/importers/slack/run" ScopeWriteObjects;
  mkRoute "POST" "/importers/discord/run" ScopeWriteObjects;
  mkRoute "GET" "/importers/runs/{id}" ScopeReadJobs;
  mkRoute "GET" "/system/reminders" ScopeReadSystem;
  mkRoute "POST" "/system/reminders/{id}/dismiss" ScopeWriteSystem;
  mkRoute "POST" "/watches" ScopeAdminWatches;
  mkRoute "GET" "/watches" ScopeReadWatches;
  mkRoute "GET" "/watches/{id}" ScopeReadWatches;
  mkRoute "PATCH" "/watches/{id}" ScopeAdminWatches;
  mkRoute "DELETE" "/watches/{id}" ScopeAdminWatches;
  mkRoute "POST" "/watches/{id}/pause" ScopeAdminWatches;
  mkRoute "POST" "/watches/{id}/resume" ScopeAdminWatches;
  mkRoute "GET" "/watches/{id}/files" ScopeReadWatches;
  mkRoute "POST" "/inbox" ScopeWriteInbox;
  mkRoute "GET" "/inbox" ScopeReadInbox;
  mkRoute "GET" "/inbox/queue" ScopeReadInbox;
  mkRoute "POST" "/inbox/clear" ScopeProcessInbox;
  mkRoute "POST" "/inbox/{id}/triage" ScopeProcessInbox;
  mkRoute "POST" "/inbox/{id}/discard" ScopeProcessInbox;
  mkRoute "GET" "/events" ScopeReadObjects;
  mkRoute "POST" "/aliases" ScopeWriteObjects;
  mkRoute "GET" "/aliases" ScopeReadObjects;
  mkRoute "GET" "/aliases/{alias}" ScopeReadObjects;
  mkRoute "DELETE" "/aliases/{alias}" ScopeDeleteAliases;
  mkRoute "POST" "/capture/page" ScopeWriteObjects;
  mkRoute "POST" "/capture/selection" ScopeWriteObjects;
  mkRoute "POST" "/capture/element" ScopeWriteObjects;
  mkRoute "GET" "/capture/recent" ScopeReadJobs;
  mkRoute "POST" "/saved-searches" ScopeWriteObjects;
  mkRoute "GET" "/saved-searches" ScopeReadObjects;
  mkRoute "GET" "/saved-searches/{name}" ScopeReadObjects;
  mkRoute "DELETE" "/saved-searches/{name}" ScopeDeleteSearches;
  mkRoute "GET" "/search-history" ScopeReadObjects;
  mkRoute "DELETE" "/search-history" ScopeDeleteSearches;
  mkRoute "GET" "/audit-log" ScopeAdminAudit;
  mkRoute "GET" "/share/audit" ScopeAdminAudit;
  mkRoute "POST" "/federation/push" ScopeWriteObjects;
  mkRoute nostr "/mcp/" ScopeReadMCP;
  mkRoute nostr "/mcp" ScopeReadMCP;
  mkRoute "POST" "/ui/login-codes" ScopeReadUI;
  mkRoute "DELETE" "/ui/session" ScopeSignoutUI;
  mkRoute "GET" "/principals" ScopeAdminPrincipals;
  mkRoute "POST" "/principals" ScopeAdminPrincipals;
  mkRoute "GET" "/principals/{id}" ScopeAdminPrincipals;
  mkRoute "POST" "/principals/{id}/suspend" ScopeAdminPrincipals;
  mkRoute "POST" "/principals/{id}/revoke" ScopeAdminPrincipals;
  mkRoute "POST" "/principals/{id}/links" ScopeAdminPrincipals;
  mkRoute "GET" "/principals/{id}/identities" ScopeAdminPrincipals;
  mkRoute "POST" "/principals/{id}/identities" ScopeAdminPrincipals;
  mkRoute "DELETE" "/principals/{id}/identities/{identity}" ScopeAdminPrincipals;
  mkRoute "GET" "/principals/{id}/keys" ScopeAdminPrincipals;
  mkRoute "POST" "/principals/{id}/keys" ScopeAdminPrincipals;
  mkRoute "DELETE" "/principals/{id}/keys/{key}" ScopeAdminPrincipals;
  mkRoute "POST" "/share/invites" ScopeAdminShares;
  mkRoute "GET" "/share/audiences" ScopeAdminShares;
  mkRoute "POST" "/share/audiences" ScopeAdminShares;
  mkRoute "GET" "/share/audiences/{audience}" ScopeAdminShares;
  mkRoute "PUT" "/share/audiences/{audience}/members/{principal}" ScopeAdminShares;
  mkRoute "DELETE" "/share/audiences/{audience}/members/{principal}" ScopeAdminShares;
  mkRoute "GET" "/share/policies" ScopeAdminShares;
  mkRoute "POST" "/share/policies" ScopeAdminShares;
  mkRoute "GET" "/share/policies/{policy}" ScopeAdminShares;
  mkRoute "PUT" "/share/policies/{policy}" ScopeAdminShares;
  mkRoute "GET" "/share/templates" ScopeAdminShares;
  mkRoute "POST" "/share/templates/{name}" ScopeAdminShares;
  mkRoute "GET" "/share/grants" ScopeAdminShares;
  mkRoute "POST" "/share/grants" ScopeAdminShares;
  mkRoute "DELETE" "/share/grants/{grant}" ScopeAdminShares;
  mkRoute "GET" "/principals/{id}/ceiling" ScopeAdminShares;
  mkRoute "PUT" "/principals/{id}/ceiling" ScopeAdminShares;
  mkRoute "PUT" "/share/keys/{key}/policy" ScopeAdminShares;
  mkRoute "GET" "/self/keys" ScopeWriteSelf;
  mkRoute "POST" "/self/keys" ScopeWriteSelf;
  mkRoute "DELETE" "/self/keys/{key}" ScopeWriteSelf;
  mkRoute "GET" "/self/identities" ScopeWriteSelf;
  mkRoute "DELETE" "/self/identities/{identity}" ScopeWriteSelf;
  mkRoute "GET" "/self/sessions" ScopeWriteSelf;
  mkRoute "DELETE" "/self/sessions/{session}" ScopeWriteSelf;
  mkRoute "PUT" "/self/keys/{key}/policy" ScopeWriteSelf
].

Record routeAccess : Type := mkAccessRule { raOwnerOnly : bool; raCapability : string; raShape : Shape }.

Definition routeOwnerOnly : routeAccess := mkAccessRule true nostr ShapeNone.
Definition routeNone : routeAccess := mkAccessRule false nostr ShapeNone.
Definition routeObjects : routeAccess := mkAccessRule false nostr ShapeObjects.
Definition needs (capability : string) (shape : Shape) : routeAccess := mkAccessRule false capability shape.

Definition routeAccessTable : list (string * routeAccess) := [
  ("GET /whoami", routeNone);
  ("GET /objects", routeObjects);
  ("GET /objects/facets", routeObjects);
  ("GET /objects/{id}", routeObjects);
  ("GET /objects/{id}/related", routeObjects);
  ("PATCH /objects/{id}", routeObjects);
  ("DELETE /objects/{id}", routeNone);
  ("POST /objects/{id}/reprocess", routeNone);
  ("POST /edges", routeNone);
  ("GET /objects/{id}/edges", routeObjects);
  ("DELETE /edges", routeNone);
  ("POST /analyze", routeNone);
  ("GET /jobs", routeOwnerOnly);
  ("GET /jobs/{id}", routeOwnerOnly);
  ("POST /jobs/{id}/retry", routeOwnerOnly);
  ("POST /jobs/{id}/cancel", routeOwnerOnly);
  ("GET /search", needs (CapabilitySearchPrefix +:+ SearchRSQL) ShapeObjects);
  ("POST /find", routeObjects);
  ("GET /search/graph", needs (CapabilitySearchPrefix +:+ SearchGraph) ShapeMixed);
  ("GET /entities", needs (CapabilityEntities) ShapeEntities);
  ("GET /entities/resolve", needs (CapabilityEntities) ShapeEntities);
  ("GET /entities/{slug}", needs (CapabilityEntities) ShapeEntities);
  ("GET /entities/{slug}/backlinks", needs (CapabilityEntities) ShapeObjects);
  ("POST /entities/{slug}/pull", needs (CapabilityEntities) ShapeNone);
  ("POST /entities/registry-sync", routeOwnerOnly);
  ("GET /entities/registry-pending", routeOwnerOnly);
  ("POST /entities/registry-pending/approve", routeOwnerOnly);
  ("POST /entities/registry-pending/reject", routeOwnerOnly);
  ("GET /pages", routeOwnerOnly);
  ("GET /pages/{slug}", routeOwnerOnly);
  ("POST /pages/{slug}/refresh", routeOwnerOnly);
  ("GET /topic-index", routeOwnerOnly);
  ("GET /topic-index/{topic}", routeOwnerOnly);
  ("POST /topic-index", routeOwnerOnly);
  ("GET /stats", routeNone);
  ("POST /pipelines", routeOwnerOnly);
  ("GET /pipelines", routeOwnerOnly);
  ("GET /pipelines/{name}", routeOwnerOnly);
  ("DELETE /pipelines/{name}", routeOwnerOnly);
  ("POST /pipelines/{name}/archive", routeOwnerOnly);
  ("POST /pipelines/{name}/unarchive", routeOwnerOnly);
  ("POST /pipelines/enqueue", routeNone);
  ("GET /steps", routeOwnerOnly);
  ("GET /steps/{name}", routeOwnerOnly);
  ("POST /steps/install", routeOwnerOnly);
  ("DELETE /steps/{name}", routeOwnerOnly);
  ("POST /steps/registries/fetch", routeOwnerOnly);
  ("POST /steps/registries/{url}/update", routeOwnerOnly);
  ("GET /steps/registries", routeOwnerOnly);
  ("POST /feeds", routeOwnerOnly);
  ("GET /feeds", routeOwnerOnly);
  ("POST /feeds/sync", routeOwnerOnly);
  ("POST /feeds/{id}/sync", routeOwnerOnly);
  ("DELETE /feeds/{id}", routeOwnerOnly);
  ("POST /import", routeOwnerOnly);
  ("GET /import/{id}", routeOwnerOnly);
  ("POST /importers/dropbox/run", routeOwnerOnly);
  ("POST /importers/slack/run", routeOwnerOnly);
  ("POST /importers/discord/run", routeOwnerOnly);
  ("GET /importers/runs/{id}", routeOwnerOnly);
  ("GET /system/reminders", routeOwnerOnly);
  ("POST /system/reminders/{id}/dismiss", routeOwnerOnly);
  ("POST /watches", routeOwnerOnly);
  ("GET /watches", routeOwnerOnly);
  ("GET /watches/{id}", routeOwnerOnly);
  ("PATCH /watches/{id}", routeOwnerOnly);
  ("DELETE /watches/{id}", routeOwnerOnly);
  ("POST /watches/{id}/pause", routeOwnerOnly);
  ("POST /watches/{id}/resume", routeOwnerOnly);
  ("GET /watches/{id}/files", routeOwnerOnly);
  ("POST /inbox", routeNone);
  ("GET /inbox", routeOwnerOnly);
  ("GET /inbox/queue", routeOwnerOnly);
  ("POST /inbox/clear", routeOwnerOnly);
  ("POST /inbox/{id}/triage", routeOwnerOnly);
  ("POST /inbox/{id}/discard", routeOwnerOnly);
  ("GET /events", routeOwnerOnly);
  ("POST /aliases", routeNone);
  ("GET /aliases", routeObjects);
  ("GET /aliases/{alias}", routeObjects);
  ("DELETE /aliases/{alias}", routeNone);
  ("POST /capture/page", routeNone);
  ("POST /capture/selection", routeNone);
  ("POST /capture/element", routeNone);
  ("GET /capture/recent", routeOwnerOnly);
  ("POST /saved-searches", routeNone);
  ("GET /saved-searches", routeNone);
  ("GET /saved-searches/{name}", routeNone);
  ("DELETE /saved-searches/{name}", routeNone);
  ("GET /search-history", routeNone);
  ("DELETE /search-history", routeOwnerOnly);
  ("GET /audit-log", routeOwnerOnly);
  ("GET /share/audit", routeOwnerOnly);
  ("POST /federation/push", routeNone);
  ("GET /principals", routeNone);
  ("POST /principals", routeNone);
  ("GET /principals/{id}", routeNone);
  ("POST /principals/{id}/suspend", routeNone);
  ("POST /principals/{id}/revoke", routeNone);
  ("POST /principals/{id}/links", routeNone);
  ("GET /principals/{id}/identities", routeNone);
  ("POST /principals/{id}/identities", routeNone);
  ("DELETE /principals/{id}/identities/{identity}", routeNone);
  ("GET /principals/{id}/keys", routeNone);
  ("POST /principals/{id}/keys", routeNone);
  ("DELETE /principals/{id}/keys/{key}", routeNone);
  ("GET /principals/{id}/ceiling", routeNone);
  ("PUT /principals/{id}/ceiling", routeNone);
  ("GET /self/keys", routeNone);
  ("POST /self/keys", routeNone);
  ("DELETE /self/keys/{key}", routeNone);
  ("PUT /self/keys/{key}/policy", routeNone);
  ("GET /self/identities", routeNone);
  ("DELETE /self/identities/{identity}", routeNone);
  ("GET /self/sessions", routeNone);
  ("DELETE /self/sessions/{session}", routeNone);
  ("POST /share/invites", routeNone);
  ("GET /share/audiences", routeNone);
  ("POST /share/audiences", routeNone);
  ("GET /share/audiences/{audience}", routeNone);
  ("PUT /share/audiences/{audience}/members/{principal}", routeNone);
  ("DELETE /share/audiences/{audience}/members/{principal}", routeNone);
  ("GET /share/policies", routeNone);
  ("POST /share/policies", routeNone);
  ("GET /share/policies/{policy}", routeNone);
  ("PUT /share/policies/{policy}", routeNone);
  ("GET /share/templates", routeNone);
  ("POST /share/templates/{name}", routeNone);
  ("GET /share/grants", routeNone);
  ("POST /share/grants", routeNone);
  ("DELETE /share/grants/{grant}", routeNone);
  ("PUT /share/keys/{key}/policy", routeNone);
  ("ANY /mcp/", needs (CapabilityMCP) ShapeObjects);
  ("ANY /mcp", needs (CapabilityMCP) ShapeObjects);
  ("POST /ui/login-codes", routeNone);
  ("DELETE /ui/session", routeNone)
].

Definition routeKey (method pattern : string) : string :=
  (if str_eqb method nostr then "ANY" else method) +:+ " " +:+ pattern.

Fixpoint access_at (t : list (string * routeAccess)) (key : string) : option routeAccess :=
  match t with
  | [] => None
  | (k, a) :: t' => if str_eqb k key then Some a else access_at t' key
  end.

Definition access_of (rt : apiRoute) : option routeAccess := access_at routeAccessTable (routeKey (rtMethod rt) (rtPattern rt)).
Definition RouteAccess (method pattern : string) : bool * string * bool :=
  match access_at routeAccessTable (routeKey method pattern) with
  | Some a => (raOwnerOnly a, raCapability a, true)
  | None => (false, nostr, false)
  end.
Definition RouteShape (method pattern : string) : option Shape :=
  raShape <$> access_at routeAccessTable (routeKey method pattern).

(** ** The request *)
Record Request : Type := mkRequest {
  rqMethod : string;
  rqHost : string;
  rqAuthorization : string;
  rqAPIKey : string;
  rqCookie : string;         (* the instance's session cookie *)
  rqTLSPeers : nat;
  rqSecFetchSite : string;
  rqOrigin : string;
  rqCSRF : string;
  rqViewAs : string;
}.

Definition isSafeMethod (m : string) : bool := str_eqb m "GET" || str_eqb m "HEAD" || str_eqb m "OPTIONS".

(** [strings.EqualFold] of an ASCII prefix without K and S, whose only other
    cases are ASCII. *)
Definition cutPrefixFold (s prefix : string) : option string :=
  let n := String.length prefix in
  if (String.length s <? n) || negb (str_eqb (str_map lower_ascii (str_take n s)) (str_map lower_ascii prefix)) then None
  else Some (str_drop n s).

Definition credentialFromRequest (r : Request) : Credential :=
  let bearer :=
    if str_eqb (rqAuthorization r) nostr then None else TrimSpace <$> cutPrefixFold (rqAuthorization r) "Bearer " in
  let '(scheme, token) :=
    match bearer with
    | Some tok => if str_eqb tok nostr && negb (str_eqb (rqAPIKey r) nostr) then ("apikey"%string, rqAPIKey r) else ("bearer"%string, tok)
    | None => if str_eqb (rqAPIKey r) nostr then (nostr, nostr) else ("apikey"%string, rqAPIKey r)
    end in
  mkCredential scheme token (rqTLSPeers r) (rqCookie r).

(** [url.Parse(origin).Host] *)
Class GoOrigin : Type := { OriginHost : string → option string }.

Section browser.
Context `{GoOrigin} (trusted : list string).

(** [http.CrossOriginProtection.Check] *)
Definition cop_Check (r : Request) : bool :=
  if isSafeMethod (rqMethod r) then true
  else if str_eqb (rqSecFetchSite r) nostr then
    if str_eqb (rqOrigin r) nostr then true
    else
      match OriginHost (rqOrigin r) with Some h => str_eqb h (rqHost r) | None => false end || contains trusted (rqOrigin r)
  else if str_eqb (rqSecFetchSite r) "same-origin" || str_eqb (rqSecFetchSite r) "none" then true
  else contains trusted (rqOrigin r).

Definition sameOriginWrite (r : Request) : bool :=
  if str_eqb (rqSecFetchSite r) nostr && str_eqb (rqOrigin r) nostr then false else cop_Check r.

(** The code of the refusal, if any. *)
Definition browserRules (r : Request) : option string :=
  if isSafeMethod (rqMethod r) then
    if negb (str_eqb (rqSecFetchSite r) nostr) && negb (str_eqb (rqSecFetchSite r) "same-origin") &&
       negb (str_eqb (rqSecFetchSite r) "none")
    then Some "CROSS_ORIGIN_REQUEST" else None
  else if negb (sameOriginWrite r) then Some "CROSS_ORIGIN_REQUEST"
  else if negb (str_eqb (rqCSRF r) "1") then Some "CSRF_HEADER_REQUIRED"
  else None.
End browser.

Definition allowedDevOrigins : list string := ["http://localhost:5173"; "http://127.0.0.1:5173"].
Definition trusted_origins (devCORS : bool) : list string := if devCORS then allowedDevOrigins else [].

(** ** What the middleware works on *)
Record GateWorld : Type := mkWorld { wdDB : ShareDB; wdResolver : Resolver; wdAudit : option AuditWriter }.

Record Ctx : Type := mkCtx { cxPrincipal : option Principal; cxViewer : option Viewer; cxPreview : option Preview }.

(** A response as the recorder holds it, and the ledger of its request. *)
Record Recorded : Type := mkRecorded { rcStatus : Z; rcBody : string; rcLedger : option Ledger }.

Inductive Answer : Type :=
| ErrorAnswer (status : Z) (code : string)
| Passed (status : Z) (body : string)      (* the handler's own, unread *)
| Checked (status : Z) (body : string).    (* read by the backstop *)

(** The registry as [ViewAs] looks principals up in it. *)
#[export] Instance sqlite_principals : PrincipalRegistry ShareDB := {
  Principals_Get d id :=
    match dbPrincipals (shAuth d) !! id with
    | Some p => Ok (spID p, spKind p)
    | None => Err Resolver.ErrNotFound
    end;
}.

Section gate.
Context `{GoCrypto, GoSpecs, GoOrigin, GoJSON}.
(** The text of an error envelope. *)
Context (error_text : string → string).

Definition refuse (status : Z) (code : string) (l : option Ledger) : Recorded := mkRecorded status (error_text code) l.

(** A handler answers with what its reads left in the ledger it was given. *)
Definition Handler : Type := Ctx → option Ledger → Recorded.

(** [RequireCapability] *)
Definition RequireCapability (rt : apiRoute) (h : Handler) (cx : Ctx) (l : option Ledger) : Recorded * option Ctx :=
  match cxViewer cx with
  | Some v =>
      if vUnrestricted v then (h cx l, Some cx)
      else
        match access_of rt with
        | None => (refuse 403 "NOT_SHARED" l, None)
        | Some a =>
            if raOwnerOnly a || (negb (str_eqb (raCapability a) nostr) && negb (Viewer_Allows v (raCapability a)))
            then (refuse 403 "NOT_SHARED" l, None)
            else (h cx l, Some cx)
        end
  | None => (refuse 403 "NOT_SHARED" l, None)
  end.

(** [RequireScope], mounted when there is an authentication chain. *)
Definition RequireScope (with_auth : bool) (rt : apiRoute) (h : Handler) (cx : Ctx) (l : option Ledger) : Recorded * option Ctx :=
  if negb with_auth then RequireCapability rt h cx l
  else
    match cxPrincipal cx with
    | None => (refuse 401 "UNAUTHORIZED" l, None)
    | Some p =>
        if HasScope (Some p) (rtScope rt) then RequireCapability rt h cx l
        else (refuse 403 "INSUFFICIENT_SCOPE" l, None)
    end.

Definition route_reads (rt : apiRoute) : bool :=
  str_eqb (rtMethod rt) nostr || isSafeMethod (rtMethod rt) || str_eqb (Verb (rtScope rt)) verbRead.

Definition previewContext (cx : Ctx) (pv : Viewer) (target : string) : Ctx :=
  let p := match cxPrincipal cx with
           | Some o => mkPreview target (pID o) (Meta o MetaIdentityID)
           | None => mkPreview target OwnerPrincipal nostr
           end in
  mkCtx (cxPrincipal cx) (Some pv) (Some p).

(** [viewAs]: the context to go on with, or a refusal. *)
Definition viewAs (rt : apiRoute) (cx : Ctx) (target : string) (now : Z) (w : GateWorld) : result (Z * string) Ctx * GateWorld :=
  let v := default zeroViewer (cxViewer cx) in
  if negb (bool_decide (is_Some (cxViewer cx)) && vUnrestricted v) then (Err (403%Z, "VIEW_AS_OWNER_ONLY"%string), w)
  else if negb (route_reads rt) then (Err (400%Z, "VIEW_AS_READ_ONLY"%string), w)
  else
    let (res, r) := ViewAs (wdResolver w) (wdDB w) (Some (wdDB w)) target now in
    let w := mkWorld (wdDB w) r (wdAudit w) in
    match res with
    | Err ErrViewAsUnknown => (Err (404%Z, "NOT_FOUND"%string), w)
    | Err _ => (Err (500%Z, "INTERNAL_ERROR"%string), w)
    | Ok pv => (Ok (previewContext cx pv target), w)
    end.

(** [Visibility] around the rest. *)
Definition Visibility (with_auth strict : bool) (rt : apiRoute) (h : Handler) (target : string) (now : Z) (cx : Ctx) (w : GateWorld)
    : Answer * GateWorld * option Ctx :=
  let swapped := if str_eqb target nostr then (Ok cx, w) else viewAs rt cx target now w in
  match swapped with
  | (Err (status, code), w) => (ErrorAnswer status code, w, None)
  | (Ok cx, w) =>
      let v := default zeroViewer (cxViewer cx) in
      if bool_decide (is_Some (cxViewer cx)) && vUnrestricted v then
        let (rec, ran) := RequireScope with_auth rt h cx None in
        (Passed (rcStatus rec) (rcBody rec), w, ran)
      else
        match access_of rt with
        | None => (ErrorAnswer 500 "INTERNAL_ERROR", w, None)
        | Some a =>
            let (rec, ran) := RequireScope with_auth rt h cx (Some NewLedger) in
            let entry := AccessEntryFor (cxPreview cx) v (routeKey (rtMethod rt) (rtPattern rt)) (rcLedger rec) now in
            let w := mkWorld (wdDB w) (wdResolver w) (Record_ entry <$> wdAudit w) in
            match Backstop (rcBody rec) (HTTPPaths (raShape a)) (rcLedger rec) with
            | Err _ => (ErrorAnswer 500 "INTERNAL_ERROR", w, ran)
            | Ok res =>
                match brHits res, strict with
                | _ :: _, true => (ErrorAnswer 500 "VISIBILITY_BACKSTOP", w, ran)
                | _, _ =>
                    if brAbsent res then (ErrorAnswer 404 "NOT_FOUND", w, ran)
                    else (Checked (rcStatus rec) (brBody res), w, ran)
                end
            end
        end
  end.

(** [attachCaller], and the refusal of a failed resolution. *)
Definition attachCaller (p : Principal) (now : Z) (w : GateWorld) : result (Z * string) Ctx * GateWorld :=
  let (v, r) := Resolve (wdResolver w) (wdDB w) (pID p) (pKind p) (Meta p MetaIdentityID) now in
  let w := mkWorld (wdDB w) r (wdAudit w) in
  match v with
  | Err _ => (Err (500%Z, "INTERNAL_ERROR"%string), w)
  | Ok v => (Ok (mkCtx (Some p) (Some v) None), w)
  end.

(** [RequireAuth]; without a chain, [WithViewer] of the owner. *)
Definition authenticate (chain : option Chain) (devCORS : bool) (rq : Request) (now : Z) (w : GateWorld)
    : result (Z * string) Ctx * GateWorld :=
  match chain with
  | None => (Ok (mkCtx None (Some Unrestricted) None), w)
  | Some c =>
      match chain_Authenticate c (credentialFromRequest rq) (shAuth (wdDB w)) with
      | (Authenticated p _ ambient, a) =>
          let w := mkWorld (set_auth a (wdDB w)) (wdResolver w) (wdAudit w) in
          match (if ambient : bool then browserRules (trusted_origins devCORS) rq else None) with
          | Some code => (Err (403%Z, code), w)
          | None => attachCaller p now w
          end
      | (_, a) => (Err (401%Z, "UNAUTHORIZED"%string), mkWorld (set_auth a (wdDB w)) (wdResolver w) (wdAudit w))
      end
  end.

(** A request to a route of the table: what is answered, the world after, and
    the context the handler ran in, if it ran. *)
Definition serve (chain : option Chain) (devCORS strict : bool) (rt : apiRoute) (h : Handler) (rq : Request) (now : Z) (w : GateWorld)
    : Answer * GateWorld * option Ctx :=
  match authenticate chain devCORS rq now w with
  | (Err (status, code), w) => (ErrorAnswer status code, w, None)
  | (Ok cx, w) => Visibility (bool_decide (is_Some chain)) strict rt h (TrimSpace (rqViewAs rq)) now cx w
  end.
End gate.
