(* ===== verification/GateSafety.v ===== *)
(** * What the way of a request promises

    The theorems of the chain of file HttpGate: which callers a handler runs
    for, with which viewer, and what a restricted caller's request leaves in the
    read audit and lets out. *)

From S2P Require Import Prelude GoStrings JobStore Objects RsqlCompiler Classes StorageScope Policy PolicyCompile ViewerSpec Resolver Fields Contact Render RenderSafety Ledger Backstop Encodings AuthScopes AuthRegistry AuthInvariants AuthKeys AuthSessions AuthSafety Ulid SharingDB SharingSafety SharingEffect ReadAudit HttpGate.

(** ** The tables *)
Definition route_key (rt : apiRoute) : string := routeKey (rtMethod rt) (rtPattern rt).

Lemma routes_distinct : NoDup (map route_key apiRoutes) ∧ NoDup (map fst routeAccessTable).
Proof. split; apply (bool_decide_unpack _); vm_compute; exact I. Qed.

(** The tables name the same routes. *)
Lemma routes_classified : map fst routeAccessTable ≡ₚ map route_key apiRoutes.
Proof. apply (bool_decide_unpack _); vm_compute; exact I. Qed.

Lemma access_at_some t k : k ∈ map fst t → ∃ a, access_at t k = Some a.
Proof.
  induction t as [|[k' a] t IH]; cbn; [by intros ?%elem_of_nil|]. intros [->|Hin]%elem_of_cons.
  - rewrite str_eqb_refl. by eexists.
  - destruct (str_eqb k' k); [by eexists|by apply IH].
Qed.

Lemma route_access rt : rt ∈ apiRoutes → ∃ a, access_of rt = Some a.
Proof.
  intros Hin. apply access_at_some. rewrite routes_classified. by apply (list_elem_of_fmap_2 route_key).
Qed.

Section gate.
Context `{GoCrypto, KeyCodec, GoSpecs, GoOrigin, GoJSON} (error_text : string → string).

(** ** Authentication among the registry's steps *)
Lemma sys_reachable_step s s' : sys_step s s' → sys_reachable s → sys_reachable s'.
Proof. intros Hs [c Hr]. exists c. eapply star_trans; [exact Hr|]. eapply star_step; [exact Hs|apply star_refl]. Qed.

Lemma auth_reachable a0 a d r :
  star reg_step a0 a → minted_ids a → shAuth d = a0 → sys_reachable (d, r) → sys_reachable (set_auth a d, r).
Proof.
  intros Hs Hm. revert d. induction Hs as [a|a a1 a2 Hstep Hs IH]; intros d Hd Hr.
  - rewrite <- Hd. by rewrite set_auth_same.
  - change (set_auth a2 d) with (set_auth a2 (set_auth a1 d)). apply IH; [done|done|].
    apply (sys_reachable_step (d, r)); [|done]. apply sys_registry, share_step_auth; [by rewrite Hd|].
    by apply (minted_ids_before a1 a2); [apply reg_step_ext|].
Qed.

Lemma chain_runs c cred a o a' : Forall builtin c → chain_Authenticate c cred a = (o, a') → star reg_step a a'.
Proof.
  intros Hc. revert a. induction Hc as [|m c Hm Hc IH]; intros a; cbn [chain_Authenticate]; [intros [= _ <-]; constructor|].
  destruct (mAuthenticate m cred a) as [[[p|]|e] a1] eqn:Hr; apply builtin_runs in Hr; try done; intros Ha; [by injection Ha as _ <-| |by injection Ha as _ <-].
  eapply star_trans; [exact Hr|by apply IH].
Qed.

Lemma fresh_owner (d : ShareDB) p kind id now v :
  fresh d p kind id now = Ok v → vUnrestricted v = true ↔ kind = PrincipalKindOwner.
Proof.
  unfold fresh, CompileForPrincipal, str_eqb. case_bool_decide as Hk; [by intros [= <-]|].
  destruct (loadInput d p id now) as [i|[[]| | |]]; cbn [mbind result_bind]; try done.
  - destruct (Compile i) as [y|] eqn:Hc; [|done]. intros [= <-]. by rewrite (Compile_restricted i y Hc).
  - by intros [= <-].
Qed.

(** What the world keeps. *)
Definition world_ok (w : GateWorld) : Prop := sys_reachable (wdDB w, wdResolver w).

Lemma reachable_resolve d r p kind id now v r' :
  sys_reachable (d, r) → Resolve r d p kind id now = (v, r') → sys_reachable (d, r') ∧ v = fresh d p kind id now.
Proof.
  intros Hr Hs. destruct (reachable_fresh d r p kind id now Hr) as [_ Hf]. rewrite Hs in Hf. split; [|done].
  apply (sys_reachable_step (d, r)); [|done]. pose proof (sys_resolve d r p kind id now) as Hx. by rewrite Hs in Hx.
Qed.

(** The caller [authenticate] lets through. *)
Record admitted (c : Chain) (devCORS : bool) (rq : Request) (now : Z) (w w' : GateWorld) (p : Principal) (v : Viewer) : Prop := {
  ad_chain : ∃ n ambient,
    chain_Authenticate c (credentialFromRequest rq) (shAuth (wdDB w)) = (Authenticated p n ambient, shAuth (wdDB w')) ∧
    (ambient = true → browserRules (trusted_origins devCORS) rq = None);
  ad_vouched : ∃ a, star reg_step (shAuth (wdDB w)) a ∧ vouched a p;
  ad_viewer : fresh (wdDB w') (pID p) (pKind p) (Meta p MetaIdentityID) now = Ok v;
}.

Lemma authenticate_spec c devCORS rq now w res w' :
  Forall builtin c → world_ok w → minted_ids (shAuth (wdDB w')) →
  authenticate (Some c) devCORS rq now w = (res, w') →
  world_ok w' ∧ wdAudit w' = wdAudit w ∧
  ∀ cx, res = Ok cx → ∃ p v, cx = mkCtx (Some p) (Some v) None ∧ admitted c devCORS rq now w w' p v.
Proof.
  intros Hc Hw Hm. unfold authenticate. destruct w as [d r au]. cbn [wdDB wdResolver wdAudit] in *.
  destruct (chain_Authenticate c (credentialFromRequest rq) (shAuth d)) as [o a] eqn:Ha.
  assert (Hr : star reg_step (shAuth d) a) by by eapply chain_runs.
  assert (Hok : minted_ids a → sys_reachable (set_auth a d, r)) by (intros Hx; by eapply auth_reachable).
  unfold world_ok in *. destruct o as [p n ambient|e|cookie].
  2,3: intros [= <- <-]; split; [by apply Hok|done].
  destruct (if ambient then browserRules (trusted_origins devCORS) rq else None) as [code|] eqn:Hbr;
    [intros [= <- <-]; split; [by apply Hok|done]|].
  unfold attachCaller. cbn [wdDB wdResolver wdAudit].
  destruct (Resolve r (set_auth a d) (pID p) (pKind p) (Meta p MetaIdentityID) now) as [v r'] eqn:Hv.
  intros Hx. assert (Hw' : wdDB w' = set_auth a d ∧ wdResolver w' = r' ∧ wdAudit w' = au) by (destruct v; by injection Hx as _ <-).
  destruct Hw' as (Hd & Hr' & Hau). rewrite Hd in Hm. cbn in Hm. specialize (Hok Hm).
  destruct (reachable_resolve _ _ _ _ _ _ _ _ Hok Hv) as [Hreach Hf]. rewrite Hd, Hr'. split; [done|]. split; [done|].
  intros cx ->. destruct v as [v|]; [|done]. injection Hx as <- _. exists p, v. split; [done|]. split.
  - exists n, ambient. rewrite Hd. split; [done|]. intros ->. done.
  - eapply chain_vouched; [done| |exact Ha]. apply sys_reachable_inv in Hw as [Hwf _]. apply (wf_auth _ Hwf).
  - by rewrite Hd.
Qed.

(** ** The owner's preview *)

(** The viewer a preview's target names. *)
Definition previewed (d : ShareDB) (target : string) (now : Z) (v : Viewer) : Prop :=
  match dbPrincipals (shAuth d) !! target with
  | Some row => fresh d (spID row) (spKind row) nostr now = Ok v
  | None => ∃ k pp po, shPolicies d !! k = Some pp ∧ ppName pp = target ∧ policy_of pp = Ok po ∧
      vUnrestricted v = false ∧ ∀ row, sees v row = policy_admits row po
  end.

Lemma ViewAs_previewed d r target now v r' :
  sys_reachable (d, r) → ViewAs r d (Some d) target now = (v, r') →
  sys_reachable (d, r') ∧ ∀ x, v = Ok x → previewed d target now x.
Proof.
  intros Hr. unfold ViewAs, previewed. destruct (str_eqb target nostr); [by intros [= <- <-]|]. cbn [Principals_Get sqlite_principals].
  destruct (dbPrincipals (shAuth d) !! target) as [row|].
  - intros Hv. destruct (reachable_resolve _ _ _ _ _ _ _ _ Hr Hv) as [? ->]. done.
  - cbn [Policies_GetByName sqlite_sharing]. unfold read, policy_GetByName, found_row, named_row. cbn.
    destruct (map_find _ (shPolicies d)) as [pp|] eqn:Hpp; [|by intros [= <- <-]]. intros [= <- <-]. split; [done|].
    intros x Hx. inv_ok. apply map_find_some in Hpp as (k & Hk & Hn%str_eqb_true). exists k, pp, a. split; [done|]. split; [done|].
    split; [by revert Ha; unfold policy_of, PolicyFromSpec; cbn; repeat case_match; try done; intros [= ->]|].
    destruct (Compile _) as [y|] eqn:Hc; [|done]. injection Hx as <-. split; [by eapply Compile_restricted|]. intros row0.
    rewrite (Compile_sees _ _ _ Hc). unfold may_see. cbn. by rewrite orb_false_r, andb_true_r, andb_true_r.
Qed.

Lemma viewAs_spec rt cx target now w res w' :
  world_ok w → viewAs rt cx target now w = (res, w') →
  world_ok w' ∧ wdDB w' = wdDB w ∧ wdAudit w' = wdAudit w ∧
  ∀ cx', res = Ok cx' → route_reads rt = true ∧ (∃ v0, cxViewer cx = Some v0 ∧ vUnrestricted v0 = true) ∧
    ∃ v pv, cx' = mkCtx (cxPrincipal cx) (Some v) (Some pv) ∧ previewed (wdDB w) target now v ∧
      pvPrincipal pv = default OwnerPrincipal (pID <$> cxPrincipal cx).
Proof.
  intros Hw. unfold viewAs. destruct w as [d r au]. cbn [wdDB wdResolver wdAudit]. unfold world_ok in *. cbn [wdDB wdResolver wdAudit] in *.
  destruct (bool_decide (is_Some (cxViewer cx)) && vUnrestricted (default zeroViewer (cxViewer cx))) eqn:Hu; cbn [negb];
    [|by intros [= <- <-]].
  destruct (route_reads rt) eqn:Hreads; cbn [negb]; [|by intros [= <- <-]].
  destruct (ViewAs r d (Some d) target now) as [v r'] eqn:Hv. destruct (ViewAs_previewed _ _ _ _ _ _ Hw Hv) as [Hr Hp].
  destruct v as [v|e].
  - intros [= <- <-]. split; [done|]. split; [done|]. split; [done|]. intros cx' [= <-]. split; [done|]. split.
    + destruct (cxViewer cx) as [v0|]; [|done]. by exists v0.
    + exists v. eexists. split; [done|]. split; [by apply Hp|]. by destruct (cxPrincipal cx).
  - intros Hx. assert (w' = mkWorld d r' au ∧ ∀ cx', res ≠ Ok cx') as [-> Hne] by (destruct e; by injection Hx as <- <-).
    cbn. split_and!; [done..|]. intros cx' ->. by destruct (Hne cx').
Qed.

(** ** The last gates *)

(** What a restricted viewer's route asks for. *)
Definition capable (rt : apiRoute) (v : Viewer) : Prop :=
  vUnrestricted v = true ∨
  ∃ a, access_of rt = Some a ∧ raOwnerOnly a = false ∧ (raCapability a = nostr ∨ Viewer_Allows v (raCapability a) = true).

Lemma RequireCapability_spec rt h cx l rec cx' :
  RequireCapability error_text rt h cx l = (rec, Some cx') →
  cx' = cx ∧ rec = h cx l ∧ ∃ v, cxViewer cx = Some v ∧ capable rt v.
Proof.
  unfold RequireCapability, capable. destruct (cxViewer cx) as [v|]; [|done]. destruct (vUnrestricted v) eqn:Hu; [intros [= <- <-]; by eauto 8|].
  destruct (access_of rt) as [a|]; [|by intros [=]]. destruct (raOwnerOnly a) eqn:Ho; cbn [orb]; [by intros [=]|].
  destruct (str_eqb (raCapability a) nostr) eqn:Hc; cbn [negb andb].
  - intros [= <- <-]. split; [done|]. split; [done|]. exists v. split; [done|]. right. exists a. split; [done|]. split; [done|]. left. by apply str_eqb_true.
  - destruct (Viewer_Allows v (raCapability a)) eqn:Ha; cbn [negb]; [|by intros [=]]. intros [= <- <-]. by eauto 12.
Qed.

Lemma RequireScope_spec rt h cx l rec cx' :
  RequireScope error_text true rt h cx l = (rec, Some cx') →
  cx' = cx ∧ rec = h cx l ∧ (∃ p, cxPrincipal cx = Some p ∧ HasScope (Some p) (rtScope rt) = true) ∧
  ∃ v, cxViewer cx = Some v ∧ capable rt v.
Proof.
  unfold RequireScope. cbn [negb]. destruct (cxPrincipal cx) as [p|]; [|done]. destruct (HasScope _ _) eqn:Hs; [|done].
  intros (-> & -> & Hv)%RequireCapability_spec. by eauto 6.
Qed.

(** ** The response *)

(** What a checked body shows of a ledger: nothing at its object paths but ids
    the entry lists. *)
Definition accounted (body : string) (sh : Shape) (l : option Ledger) (e : AccessEntry) : Prop :=
  ∃ doc, body = Marshal doc ∧
  ∀ p, p ∈ HTTPPaths sh → ipKind p = KindObject →
    holds_at (Canaries l) (λ s, s = nostr ∨ s ∈ acObjectIDs e) (replaced_by (Canaries l)) (parsePath (ipPath p)) doc.

Lemma HasObject_listed l id : HasObject l id = true → id ∈ Objects l.
Proof.
  unfold HasObject, Objects, SortStrings. destruct l as [l|]; [|done]. intros Hin%bool_decide_eq_true.
  rewrite merge_sort_Permutation. by apply stdpp.base.elem_of_elements.
Qed.

Lemma Backstop_accounted raw sh l r pv v route now :
  Backstop raw (HTTPPaths sh) l = Ok r → brAbsent r = false → TrimSpace raw ≠ nostr → sh ≠ ShapeNone →
  accounted (brBody r) sh l (AccessEntryFor pv v route l now).
Proof.
  intros Hr Ha Hb Hsh.
  assert (Hc : compatible_paths (HTTPPaths sh) = true ∧ HTTPPaths sh ≠ []) by (destruct sh; try done; (split; [vm_compute; reflexivity|discriminate])).
  destruct (Backstop_holds raw (HTTPPaths sh) l r) as (doc & Hbody & Hdoc); [apply Hc|apply Hc|done..|].
  exists doc. split; [done|]. intros p Hin Hk. eapply holds_at_mono; [|by apply Hdoc]. cbn. intros s Hall.
  rewrite Hk in Hall. unfold allowed in Hall.
  destruct (str_eqb s nostr) eqn:Es; [left; by apply str_eqb_true|right]. apply HasObject_listed in Hall.
  unfold AccessEntryFor. by destruct pv.
Qed.

(** ** The whole way *)
Lemma Visibility_db with_auth strict rt h target now cx w ans w' ran :
  Visibility error_text with_auth strict rt h target now cx w = (ans, w', ran) → wdDB w' = wdDB w.
Proof.
  unfold Visibility, viewAs. intros Hs. repeat case_match; simplify_eq/=; done.
Qed.

(** The viewer a request goes on with. *)
Definition viewing (rt : apiRoute) (rq : Request) (now : Z) (d : ShareDB) (v0 v : Viewer) : Prop :=
  let target := TrimSpace (rqViewAs rq) in
  if str_eqb target nostr then v = v0
  else vUnrestricted v0 = true ∧ route_reads rt = true ∧ previewed d target now v.

(** The context [Visibility] goes on with. *)
Lemma swapped_spec rt rq now cx p v0 w res w' :
  world_ok w → cx = mkCtx (Some p) (Some v0) None →
  (if str_eqb (TrimSpace (rqViewAs rq)) nostr then (Ok cx, w) else viewAs rt cx (TrimSpace (rqViewAs rq)) now w) = (res, w') →
  world_ok w' ∧ wdDB w' = wdDB w ∧ wdAudit w' = wdAudit w ∧
  ∀ cx', res = Ok cx' → ∃ v pv, cx' = mkCtx (Some p) (Some v) pv ∧ viewing rt rq now (wdDB w) v0 v ∧
    (∀ x, pv = Some x → pvPrincipal x = pID p).
Proof.
  intros Hw -> Hs. unfold viewing. destruct (str_eqb (TrimSpace (rqViewAs rq)) nostr).
  - injection Hs as <- <-. split_and!; [done..|]. intros cx' [= <-]. by exists v0, None.
  - destruct (viewAs_spec _ _ _ _ _ _ _ Hw Hs) as (Hw' & Hd & Ha & Hok). split_and!; [done..|]. intros cx' He.
    destruct (Hok cx' He) as (Hr & (v1 & [= <-] & Hu) & v & pv & -> & Hpv & Hpp). exists v, (Some pv). split_and!; [done..|].
    by intros x [= <-].
Qed.

Lemma Visibility_spec strict rt h rq now p v0 w ans w' ran :
  world_ok w →
  Visibility error_text true strict rt h (TrimSpace (rqViewAs rq)) now (mkCtx (Some p) (Some v0) None) w = (ans, w', ran) →
  world_ok w' ∧ wdDB w' = wdDB w ∧
  ∀ cx, ran = Some cx → cxPrincipal cx = Some p ∧ HasScope (Some p) (rtScope rt) = true ∧
    ∃ v, cxViewer cx = Some v ∧ viewing rt rq now (wdDB w) v0 v ∧ capable rt v.
Proof.
  intros Hw. unfold Visibility.
  destruct (if str_eqb (TrimSpace (rqViewAs rq)) nostr then _ else _) as [[cx|[status code]] w1] eqn:Hs;
    (destruct (swapped_spec _ _ _ _ _ _ _ _ _ Hw eq_refl Hs) as (Hw1 & Hd & _ & Hok)); [|by intros [= _ <- <-]].
  destruct (Hok cx eq_refl) as (v & pv & -> & Hv & _). clear Hok Hs.
  assert (Hrun : ∀ l rec cx', RequireScope error_text true rt h (mkCtx (Some p) (Some v) pv) l = (rec, Some cx') →
    cxPrincipal cx' = Some p ∧ HasScope (Some p) (rtScope rt) = true ∧
    ∃ v, cxViewer cx' = Some v ∧ viewing rt rq now (wdDB w) v0 v ∧ capable rt v).
  { intros l rec cx' (-> & _ & (q & [= <-] & Hsc) & x & [= <-] & Hc)%RequireScope_spec. split; [done|]. split; [done|]. by exists v. }
  cbn [cxViewer cxPreview default from_option]. unfold id. destruct (bool_decide (is_Some (Some v)) && vUnrestricted v).
  - destruct (RequireScope _ _ _ _ _ _) as [rec ran'] eqn:Hq. intros [= _ <- <-]. split; [done|]. split; [done|].
    intros cx' ->. by eapply Hrun.
  - destruct (access_of rt) as [a|]; [|by intros [= _ <- <-]].
    destruct (RequireScope _ _ _ _ _ _) as [rec ran'] eqn:Hq. intros Hx.
    assert (wdDB w' = wdDB w1 ∧ wdResolver w' = wdResolver w1 ∧ ran = ran') as (Hd' & Hr' & ->) by (repeat case_match; by simplify_eq/=).
    unfold world_ok. rewrite Hd', Hr'. split; [done|]. split; [done|]. intros cx' ->. by eapply Hrun.
Qed.

(** C4. A handler runs only for whom it may.  Whatever was served and written before,
    when a request under an authentication chain reaches its handler, the chain
    authenticated the caller against the registry as the request found it, some
    active principal vouching for it, and an ambient credential passed the rules
    for browsers; the caller holds the route's scope; and the viewer in the
    handler's context is the caller's own, or, only for a caller that sees
    everything and only on a route that reads, the one its preview names.  Only a
    principal of kind owner sees everything; any other sees a row exactly when the
    tables, as they are after authentication, grant it at the request's instant,
    and reaches only classified routes that are not the owner's, with the
    capability the route asks for. *)
Theorem handler_reached c devCORS strict rt h rq now w ans w' cx :
  Forall builtin c → world_ok w → minted_ids (shAuth (wdDB w')) →
  serve error_text (Some c) devCORS strict rt h rq now w = (ans, w', Some cx) →
  world_ok w' ∧ ∃ p v0 v,
    admitted c devCORS rq now w w' p v0 ∧ cxPrincipal cx = Some p ∧ HasScope (Some p) (rtScope rt) = true ∧
    cxViewer cx = Some v ∧ viewing rt rq now (wdDB w') v0 v ∧ capable rt v ∧
    (vUnrestricted v0 = true ↔ pKind p = PrincipalKindOwner) ∧
    (pKind p ≠ PrincipalKindOwner → v = v0 ∧ ∀ row, sees v row = true ↔
       granted (wdDB w') (pID p) (toMillis now) row ∧ below_ceiling (wdDB w') (pID p) row ∧
       key_admits (wdDB w') (Meta p MetaIdentityID) row).
Proof.
  intros Hc Hw Hm. unfold serve. destruct (authenticate (Some c) devCORS rq now w) as [[cx0|[status code]] w1] eqn:Ha; [|done].
  intros Hs.
  pose proof (Visibility_db _ _ _ _ _ _ _ _ _ _ _ Hs) as Hd. rewrite Hd in Hm.
  destruct (authenticate_spec _ _ _ _ _ _ _ Hc Hw Hm Ha) as (Hw1 & _ & Hok). destruct (Hok cx0 eq_refl) as (p & v0 & -> & Had).
  destruct (Visibility_spec _ _ _ _ _ _ _ _ _ _ _ Hw1 Hs) as (Hw' & _ & Hcx). destruct (Hcx cx eq_refl) as (Hp & Hsc & v & Hv & Hvw & Hcap).
  split; [done|]. exists p, v0, v. rewrite Hd. split; [by destruct Had; split; rewrite ?Hd|]. do 5 (split; [done|]).
  pose proof (fresh_owner _ _ _ _ _ _ (ad_viewer _ _ _ _ _ _ _ _ Had)) as Hown. split; [done|]. intros Hk.
  assert (v = v0) as ->.
  { unfold viewing in Hvw. destruct (str_eqb _ _); [done|]. destruct Hvw as (Hu & _). by apply Hown in Hu. }
  split; [done|]. intros row. destruct (sys_reachable_inv _ Hw1) as [Hwf _].
  apply (fresh_sees _ _ (pKind p) _ now v0 row Hwf Hk), (ad_viewer _ _ _ _ _ _ _ _ Had).
Qed.

(** The context a request reaches the visibility middleware's end with, and the
    state of the world then: after authentication and the preview. *)
Definition arrives (chain : option Chain) (devCORS : bool) (rt : apiRoute) (rq : Request) (now : Z) (w : GateWorld)
    : option (Ctx * GateWorld) :=
  match authenticate chain devCORS rq now w with
  | (Err _, _) => None
  | (Ok cx, w) =>
      let target := TrimSpace (rqViewAs rq) in
      match (if str_eqb target nostr then (Ok cx, w) else viewAs rt cx target now w) with
      | (Err _, _) => None
      | (Ok cx, w) => Some (cx, w)
      end
  end.

Lemma authenticate_audit chain devCORS rq now w res w' :
  authenticate chain devCORS rq now w = (res, w') →
  wdAudit w' = wdAudit w ∧ ∀ cx, res = Ok cx → ∃ v, cxViewer cx = Some v.
Proof.
  unfold authenticate, attachCaller. intros Ha. repeat case_match; simplify_eq/=; (split; [done|]); intros cx [= <-]; by eexists.
Qed.

Lemma viewAs_audit rt cx target now w res w' :
  viewAs rt cx target now w = (res, w') → wdAudit w' = wdAudit w ∧ ∀ cx', res = Ok cx' → ∃ v, cxViewer cx' = Some v.
Proof.
  unfold viewAs. intros Ha. repeat case_match; simplify_eq/=; (split; [done|]); intros cx' [= <-]; by eexists.
Qed.

(** A gate that does not run the handler leaves the ledger empty. *)
Lemma RequireScope_ran with_auth rt h cx l rec ran :
  RequireScope error_text with_auth rt h cx l = (rec, ran) →
  (ran = Some cx ∧ rec = h cx l) ∨ (ran = None ∧ rcLedger rec = l).
Proof. unfold RequireScope, RequireCapability. intros Hr. repeat case_match; simplify_eq/=; auto. Qed.

(** What the middleware answers a restricted viewer. *)
Lemma answer_spec strict a rec v pv route now (w : GateWorld) (ran : option Ctx) ans w' ran' :
  match Backstop (rcBody rec) (HTTPPaths (raShape a)) (rcLedger rec) with
  | Err _ => (ErrorAnswer 500 "INTERNAL_ERROR", w, ran)
  | Ok res =>
      match brHits res, strict with
      | _ :: _, true => (ErrorAnswer 500 "VISIBILITY_BACKSTOP", w, ran)
      | _, _ => if brAbsent res then (ErrorAnswer 404 "NOT_FOUND", w, ran) else (Checked (rcStatus rec) (brBody res), w, ran)
      end
  end = (ans, w', ran') →
  w' = w ∧ ran' = ran ∧
  ((∃ status code, ans = ErrorAnswer status code) ∨
   ∃ r, ans = Checked (rcStatus rec) (brBody r) ∧ Backstop (rcBody rec) (HTTPPaths (raShape a)) (rcLedger rec) = Ok r ∧
     (strict = true → brHits r = []) ∧
     (TrimSpace (rcBody rec) ≠ nostr → raShape a ≠ ShapeNone →
        accounted (brBody r) (raShape a) (rcLedger rec) (AccessEntryFor pv v route (rcLedger rec) now))).
Proof.
  destruct (Backstop _ _ _) as [res|e] eqn:Hb; [|intros [= <- <- <-]; by eauto 6].
  assert (Hchk : brAbsent res = false → TrimSpace (rcBody rec) ≠ nostr → raShape a ≠ ShapeNone →
    accounted (brBody res) (raShape a) (rcLedger rec) (AccessEntryFor pv v route (rcLedger rec) now))
    by (intros; by apply (Backstop_accounted (rcBody rec))).
  destruct (brHits res) eqn:Hh, strict, (brAbsent res) eqn:Hab; intros [= <- <- <-]; (split; [done|]); (split; [done|]);
    first [by left; eexists _, _|right; exists res; split_and!; [done|done|done|by apply Hchk]].
Qed.

Definition answered (strict : bool) (rt : apiRoute) (h : Handler) (now : Z) (cx : Ctx) (v : Viewer) (au au' : option AuditWriter)
    (ans : Answer) (ran : option Ctx) : Prop :=
  if vUnrestricted v then au' = au ∧ ∃ rec, ans = Passed (rcStatus rec) (rcBody rec) ∧ (ran = Some cx → rec = h cx None)
  else ∃ a rec e, access_of rt = Some a ∧ au' = Record_ e <$> au ∧
    e = AccessEntryFor (cxPreview cx) v (route_key rt) (rcLedger rec) now ∧
    (ran = Some cx ∧ rec = h cx (Some NewLedger) ∨ ran = None ∧ rcLedger rec = Some NewLedger) ∧
    ((∃ status code, ans = ErrorAnswer status code) ∨
     ∃ r, ans = Checked (rcStatus rec) (brBody r) ∧ Backstop (rcBody rec) (HTTPPaths (raShape a)) (rcLedger rec) = Ok r ∧
       (strict = true → brHits r = []) ∧
       (TrimSpace (rcBody rec) ≠ nostr → raShape a ≠ ShapeNone → accounted (brBody r) (raShape a) (rcLedger rec) e)).

Lemma Visibility_answered with_auth strict rt h target now cx w ans w' ran :
  rt ∈ apiRoutes → (∃ v, cxViewer cx = Some v) →
  Visibility error_text with_auth strict rt h target now cx w = (ans, w', ran) →
  match (if str_eqb target nostr then (Ok cx, w) else viewAs rt cx target now w) with
  | (Err _, _) => (∃ status code, ans = ErrorAnswer status code) ∧ ran = None ∧ wdAudit w' = wdAudit w
  | (Ok cx, _) => ∃ v, cxViewer cx = Some v ∧ answered strict rt h now cx v (wdAudit w) (wdAudit w') ans ran
  end.
Proof.
  intros Hrt Hcx. unfold Visibility.
  destruct (if str_eqb target nostr then _ else _) as [[cx1|[status code]] w1] eqn:Hs.
  2: { intros [= <- <- <-]. split; [by eexists _, _|]. split; [done|]. destruct (str_eqb target nostr); [done|]. by apply viewAs_audit in Hs as [-> _]. }
  assert (wdAudit w1 = wdAudit w ∧ ∃ v, cxViewer cx1 = Some v) as [Hau [v Hv]].
  { destruct (str_eqb target nostr); [by simplify_eq|]. apply viewAs_audit in Hs as [-> Hx]. split; [done|by apply Hx]. }
  rewrite Hv. cbn [default from_option]. unfold id. rewrite bool_decide_true by by eexists. cbn [andb]. unfold answered.
  destruct (vUnrestricted v) eqn:Hu.
  - destruct (RequireScope _ _ _ _ _ _) as [rec ran'] eqn:Hq. intros [= <- <- <-]. exists v. split; [done|]. rewrite Hu. split; [done|].
    exists rec. split; [done|]. apply RequireScope_ran in Hq as [[_ ->]|[-> _]]; done.
  - destruct (route_access rt Hrt) as [a Ha]. rewrite Ha. destruct (RequireScope _ _ _ _ _ _) as [rec ran'] eqn:Hq.
    intros (-> & -> & Hans)%(answer_spec _ _ _ v (cxPreview cx1) (route_key rt) now). exists v. split; [done|]. rewrite Hu.
    exists a, rec. eexists. split; [done|]. cbn [wdAudit]. rewrite Hau. split; [done|]. split; [done|]. split; [|done].
    apply RequireScope_ran in Hq. naive_solver.
Qed.

(** C5. Every request is accounted for.  Of the requests to a route of the table,
    one that is refused before it has a viewer runs no handler and leaves the
    audit as it was; one of a viewer that sees everything passes unread and
    unrecorded; and any other, whether its handler ran or its scope or capability
    was refused, hands exactly one entry to the read audit, for that route and at
    that instant, whose objects are those its ledger holds, and answers either an
    error of the middleware or the handler's body as the backstop checked it:
    where the route declares ids, a JSON document whose object paths hold nothing
    but ids the entry lists (or one with withheld values replaced). *)
Theorem request_accounted chain devCORS strict rt h rq now w ans w' ran :
  rt ∈ apiRoutes →
  serve error_text chain devCORS strict rt h rq now w = (ans, w', ran) →
  match arrives chain devCORS rt rq now w with
  | None => (∃ status code, ans = ErrorAnswer status code) ∧ ran = None ∧ wdAudit w' = wdAudit w
  | Some (cx, _) => ∃ v, cxViewer cx = Some v ∧ answered strict rt h now cx v (wdAudit w) (wdAudit w') ans ran
  end.
Proof.
  intros Hrt. unfold serve, arrives. destruct (authenticate chain devCORS rq now w) as [[cx|[status code]] w1] eqn:Ha;
    apply authenticate_audit in Ha as [Hau Hv].
  - intros Hs. apply Visibility_answered in Hs; [|done|by apply Hv]. rewrite Hau in Hs. cbv zeta.
    by destruct (if str_eqb (TrimSpace (rqViewAs rq)) nostr then _ else _) as [[cx1|?] w2].
  - intros [= <- <- <-]. split; [by eexists _, _|done].
Qed.
End gate.

(** ** A request served *)
#[local] Existing Instance ex_crypto.
#[local] Existing Instance ex_codec.
#[local] Existing Instance note_json.
#[local] Instance gate_origin : GoOrigin := {| OriginHost _ := None |}.
#[local] Instance gate_specs : GoSpecs :=
  {| json_Valid s := HasPrefix s "{"; decodeSpec s := if str_eqb s "{ideas}" then Some (sample_spec nostr 0) else None |}.

Definition minted_keys {A} (m : gmap string A) : bool :=
  forallb (λ kv, negb (str_eqb kv.1 nostr) && str_forall id_char kv.1) (map_to_list m).

Lemma minted_keys_spec {A} (m : gmap string A) : minted_keys m = true → ∀ k, has_row m k → minted k.
Proof.
  unfold minted_keys. rewrite forallb_forall'. intros Hf k [x Hx]. apply elem_of_map_to_list in Hx. specialize (Hf _ Hx).
  apply andb_true_iff in Hf as [Hn Hc]. split; [|done]. cbn in Hn. intros ->. done.
Qed.

Lemma minted_ids_check a : minted_keys (dbPrincipals a) && minted_keys (dbIdentities a) = true → minted_ids a.
Proof. intros [? ?]%andb_true_iff. split; by apply minted_keys_spec. Qed.

Definition gate_person : StoredPrincipal := mkSP "prn_1" PrincipalKindPerson "Ada" [RoleReader] PrincipalActive 0 None.
Definition gate_a1 : AuthDB := (principal_Create 0 "prn_1" gate_person (initDB 0)).2.
Definition gate_mint : auth (string * IssuedKey) :=
  keys_Mint 0 0 0 ex_id ex_secret "idn_1" (mkMintKey "prn_1" "cli" ZeroTime []).
Definition gate_a2 : AuthDB := (gate_mint gate_a1).2.
Definition gate_d1 : ShareDB := set_auth gate_a2 (initShare (initDB 0)).
Definition gate_d2 : ShareDB := (audience_Create 1000000 "aud_1" (mkAudience nostr "colleagues" 1000000) gate_d1).2.
Definition gate_d3 : ShareDB := (policy_Create 1000000 "pol_1" (mkStoredPolicy nostr "ideas" 0 "{ideas}" 1000000) gate_d2).2.
Definition gate_d4 : ShareDB :=
  (grant_Create 1000000 "grt_1" (mkShareGrant nostr "aud_1" "pol_1" None OwnerPrincipal 1000000 None) gate_d3).2.
Definition gate_d5 : ShareDB := (AddMember 2000000 (mkAudienceMember "aud_1" "prn_1" None OwnerPrincipal 2000000) gate_d4).2.
Definition gate_world : GateWorld := mkWorld gate_d5 NewResolver (Some (NewAuditWriter 64 100)).
Definition gate_route : apiRoute := mkRoute "GET" "/objects" ScopeReadObjects.
Definition gate_request : Request := mkRequest "GET" "host" ("Bearer " +:+ ex_key) nostr nostr 0 nostr nostr nostr nostr.

(** A handler that read one note and leaks what its copy withheld. *)
Definition gate_handler : Handler := λ _ _, mkRecorded 200 leaking_body note_ledger.
Definition gate_served : Answer * GateWorld * option Ctx :=
  serve (λ c, c) (Some ex_chain) false false gate_route gate_handler gate_request 3000000 gate_world.

Lemma gate_step {A} (m : share A) d : share_op A m → share_step d (m d).2.
Proof. intros Hop. by apply (share_step_op d A m (m d).1); [|destruct (m d)]. Qed.

Lemma gate_start : sys_reachable (gate_d1, NewResolver).
Proof.
  apply (auth_reachable (initDB 0) gate_a2 (initShare (initDB 0)) NewResolver); [|apply minted_ids_check; vm_compute; reflexivity|reflexivity|by exists 0%Z; apply star_refl].
  eapply star_trans with gate_a1.
  - eapply (runs_op (principal_Create 0 "prn_1" gate_person)); [apply op_plain, op_principal_Create|apply surjective_pairing].
  - eapply runs_keys_Mint. apply (surjective_pairing (gate_mint gate_a1)).
Qed.

Lemma gate_write d {A} (m : share A) r : share_op A m → sys_reachable (d, r) → sys_reachable ((m d).2, r).
Proof. intros Hop. by apply sys_reachable_step, sys_registry, gate_step. Qed.

Lemma gate_reachable : world_ok gate_world.
Proof.
  unfold world_ok. change (sys_reachable (gate_d5, NewResolver)). unfold gate_d5. apply gate_write; [apply op_AddMember|].
  unfold gate_d4. apply gate_write; [apply op_grant_Create; [by split|by left]|].
  unfold gate_d3. apply gate_write; [apply op_policy_Create|]. unfold gate_d2. apply gate_write; [apply op_audience_Create|]. exact gate_start.
Qed.

(** The person's key reads a shared route, sees what the grant admits, and no
    other route but with its scope. *)
Lemma handler_reached_witness :
  ∃ ans w' cx p, gate_served = (ans, w', Some cx) ∧ cxPrincipal cx = Some p ∧ HasScope (Some p) ScopeReadObjects = true ∧
    pID p = "prn_1" ∧ ∃ v, cxViewer cx = Some v ∧ vUnrestricted v = false.
Proof.
  assert (Hran : bool_decide (is_Some gate_served.2) = true) by (vm_compute; reflexivity).
  destruct gate_served as [[ans w'] [cx|]] eqn:Hs; [|discriminate Hran]. unfold gate_served in Hs.
  assert (Hm : minted_ids (shAuth (wdDB w'))).
  { apply minted_ids_check. replace w' with (gate_served.1.2) by (unfold gate_served; rewrite Hs; reflexivity). vm_compute. reflexivity. }
  destruct (handler_reached (λ c, c) ex_chain false false gate_route gate_handler gate_request 3000000 gate_world ans w' cx
              ex_builtin gate_reachable Hm Hs) as (_ & p & v0 & v & _ & Hp & Hsc & Hv & _ & _ & _ & _).
  exists ans, w', cx, p. split; [reflexivity|]. split; [exact Hp|]. split; [exact Hsc|].
  assert (Hcx : cx = default (mkCtx None None None) gate_served.2) by (unfold gate_served; rewrite Hs; reflexivity).
  split.
  - assert (Hq : (pID <$> cxPrincipal cx) = Some "prn_1") by (rewrite Hcx; vm_compute; reflexivity).
    rewrite Hp in Hq. injection Hq as Hq. exact Hq.
  - exists v. split; [exact Hv|]. assert (Hu : (vUnrestricted <$> cxViewer cx) = Some false) by (rewrite Hcx; vm_compute; reflexivity).
    rewrite Hv in Hu. injection Hu as Hu. exact Hu.
Defined.

Lemma request_accounted_witness :
  ∃ ans w' ran cx v, gate_served = (ans, w', ran) ∧
    answered false gate_route gate_handler 3000000 cx v (Some (NewAuditWriter 64 100)) (wdAudit w') ans ran ∧
    ans = Checked 200 "it says [content], twice: [content]" ∧
    (map acObjectIDs ∘ awBuf <$> wdAudit w') = Some [["c-1"]].
Proof.
  destruct gate_served as [[ans w'] ran] eqn:Hs. pose proof Hs as Hans. unfold gate_served in Hs.
  assert (Hrt : gate_route ∈ apiRoutes) by (do 1 apply list_elem_of_further; apply list_elem_of_here).
  pose proof (request_accounted (λ c, c) (Some ex_chain) false false gate_route gate_handler gate_request 3000000 gate_world ans w' ran
              Hrt Hs) as Ha.
  assert (Harr : bool_decide (is_Some (arrives (Some ex_chain) false gate_route gate_request 3000000 gate_world)) = true) by (vm_compute; reflexivity).
  destruct (arrives (Some ex_chain) false gate_route gate_request 3000000 gate_world) as [[cx w1]|]; [|discriminate Harr].
  destruct Ha as (v & _ & Ha). exists ans, w', ran, cx, v. split; [reflexivity|]. split; [exact Ha|]. split.
  - replace ans with (gate_served.1.1) by (rewrite Hans; reflexivity). vm_compute. reflexivity.
  - replace w' with (gate_served.1.2) by (rewrite Hans; reflexivity). vm_compute. reflexivity.
Defined.
