(* ===== verification/RegistryRoutes.v ===== *)
(** * The principal registry over the API

    Models [internal/server/http/handlers_principals.go], [handlers_self.go] and
    [mintLink] of [ui_ceremony.go]: the routes that list, create and end
    principals, identities, keys, sessions and sign-in links, over the stores of
    files AuthRegistry, AuthKeys and AuthSessions.  The registry is
    wired, as it is in every router that serves requests ([ready]).  A request
    comes with its body decoded ([None] when it is not JSON); an answer is its status and error code,
    or what is written; clocks, new ids and random bytes are arguments. *)

From S2P Require Import Prelude GoStrings JobStore StorageScope Resolver Encodings AuthScopes AuthRegistry AuthInvariants AuthKeys AuthSessions.

Definition CodePrincipalInactive : string := "PRINCIPAL_INACTIVE".
Definition CodeOwnerProtected : string := "OWNER_PROTECTED".
Definition CodeAlreadyExists : string := "ALREADY_EXISTS".
Definition CodeNotSelf : string := "NOT_SELF".
Definition CodeInvalidScope : string := "INVALID_SCOPE".
Definition CodeScopeNotHeld : string := "SCOPE_NOT_HELD".
Definition CodeNotFound : string := "NOT_FOUND".
Definition CodeSignInDisabled : string := "SIGN_IN_DISABLED".
Definition SignInPath : string := "/ui/signin".
Definition InvitePath : string := "/ui/invite".

Definition manualIdentityMethods : list string := ["proxy"; "oidc"].
Definition defaultRolesByKind (kind : string) : list string :=
  if str_eqb kind PrincipalKindPerson then [RoleReader]
  else if str_eqb kind PrincipalKindDevice then [RoleWriter]
  else if str_eqb kind PrincipalKindPeer then [RoleWriter]
  else [].

(** ** Answers *)
Definition HttpError : Type := Z * string.
Definition bad (code : string) : HttpError := (400%Z, code).

(** [writeRegistryError] *)
Definition writeRegistryError (e : AuthError) : HttpError :=
  match e with
  | ErrNotFound => (404%Z, CodeNotFound)
  | ErrAlreadyExists => (409%Z, CodeAlreadyExists)
  | ErrPrincipalInactive => (409%Z, CodePrincipalInactive)
  | ErrOwnerProtected => (403%Z, CodeOwnerProtected)
  | _ => (500%Z, "INTERNAL_ERROR"%string)
  end.

(** A handler's run: an answer, or the refusal it wrote, and the registry after. *)
Definition route (A : Type) : Type := AuthDB → result HttpError A * AuthDB.
#[export] Instance route_ret : MRet route := λ A a d, (Ok a, d).
#[export] Instance route_bind : MBind route := λ A B f m d,
  match m d with
  | (Ok a, d') => f a d'
  | (Err e, d') => (Err e, d')
  end.

Definition answer {A} (r : result HttpError A) : route A := λ d, (r, d).
Definition guard_ (b : bool) (e : HttpError) : route unit := answer (if b then Ok tt else Err e).
(** [if err != nil { write(err); return }] *)
Definition attempt {A} (m : auth A) (write : AuthError → HttpError) : route A := λ d,
  match m d with
  | (Ok a, d') => (Ok a, d')
  | (Err e, d') => (Err (write e), d')
  end.
Definition try_ {A} (m : auth A) : route A := attempt m writeRegistryError.

Inductive Reply : Type :=
| PrincipalBody (status : Z) (p : StoredPrincipal)
| PrincipalsBody (l : list StoredPrincipal)
| IdentityBody (i : Identity)
| IdentitiesBody (l : list Identity)
| KeysBody (l : list KeyInfo)
| CreatedKeyBody (key : string) (issued : IssuedKey)
| SessionsBody (l : list (UISession * string * bool))
| LinkBody (url : string) (expiresAt : Z)
| NoContent (clearCookie : bool).

(** ** The caller *)
(** [caller]: without a chain there is no principal, and the caller is the local
    owner. *)
Definition caller (p : option Principal) : Principal := default LocalPrincipal p.

Definition ownerGuard (p : Principal) (principalID : string) : route unit :=
  guard_ (negb (str_eqb principalID OwnerPrincipal) || IsSelf (Some p) OwnerPrincipal) (403%Z, CodeOwnerProtected).

Definition callerCeiling (p : Principal) : list Scope := List.filter (contains (ScopesForRoles (pRoles p))) (pScopes p).
Definition exceeds (c : list Scope) (scopes : list Scope) : option Scope := List.find (λ s, negb (contains c s)) scopes.
Definition withinCeiling (p : Principal) (scopes : list Scope) : route unit :=
  guard_ (match exceeds (callerCeiling p) scopes with None => true | Some _ => false end) (403%Z, CodeScopeNotHeld).

Definition decodeRegistryBody {A} (body : option A) : route A :=
  answer (match body with Some a => Ok a | None => Err (bad "INVALID_REQUEST") end).

(** [expiryOf] of handlers_share.go: the zero time for no expiry. *)
Definition expiryOf (expiresIn expiresAt now : Z) : result HttpError Z :=
  if (expiresIn <? 0)%Z then Err (bad "INVALID_REQUEST")
  else if (0 <? expiresIn)%Z && negb (IsZero expiresAt) then Err (bad "INVALID_REQUEST")
  else if (0 <? expiresIn)%Z then Ok (now + wrap64 (expiresIn * Second))%Z
  else if negb (IsZero expiresAt) && negb (now <? expiresAt)%Z then Err (bad "INVALID_REQUEST")
  else Ok expiresAt.

Record createPrincipalRequest : Type := mkCreatePrincipal { cpKind : string; cpDisplayName : string; cpRoles : list string }.
Record addIdentityRequest : Type := mkAddIdentity { aiMethod : string; aiIssuer : string; aiSubject : string; aiName : string }.
Record createKeyRequest : Type := mkCreateKey { cqName : string; cqExpiresIn : Z; cqExpiresAt : Z; cqScopes : list Scope }.

(** What a run reads of the clock, the id makers and the random source. *)
Record Env : Type := mkEnv {
  eNow : Z; eNow2 : Z; eNow3 : Z; eNow4 : Z;
  ePrincipalID : string; eIdentityID : string;
  eKeyBytes : string; eSecretBytes : string; eTicketSecret : string;
}.

Definition sessionStatus (s : UISession) (now : Z) : string :=
  if negb (session_live s) then "revoked" else if negb (session_Active s now) then "expired" else "active".

Section routes.
Context `{GoCrypto, KeyCodec}.
(** Whether the instance has sessions, the ceremonies it enables ([None] without
    tickets) and its public address. *)
Context (sessions : bool) (signIn : option (list string)) (publicURL : string).

(** ** /principals *)
Definition ListPrincipals (kind status : string) (limit : Z) : route Reply :=
  _ ← guard_ (str_eqb kind nostr || contains PrincipalKinds kind) (bad "INVALID_PARAM");
  _ ← guard_ (str_eqb status nostr || contains PrincipalStatuses status) (bad "INVALID_PARAM");
  l ← try_ (principal_List kind status limit);
  mret (PrincipalsBody l).

Definition CreatePrincipal (p : Principal) (e : Env) (body : option createPrincipalRequest) : route Reply :=
  req ← decodeRegistryBody body;
  _ ← guard_ (contains PrincipalKinds (cpKind req) && negb (str_eqb (cpKind req) PrincipalKindOwner)) (bad "INVALID_REQUEST");
  _ ← guard_ (negb (str_eqb (TrimSpace (cpDisplayName req)) nostr)) (bad "INVALID_REQUEST");
  let roles := match cpRoles req with [] => defaultRolesByKind (cpKind req) | r => r end in
  _ ← guard_ (match ValidateRoles roles with Ok _ => true | Err _ => false end) (bad "INVALID_REQUEST");
  _ ← withinCeiling p (ScopesForRoles roles);
  q ← try_ (principal_Create (eNow e) (ePrincipalID e)
              (mkSP nostr (cpKind req) (TrimSpace (cpDisplayName req)) roles nostr ZeroTime None));
  mret (PrincipalBody 201 q).

Definition GetPrincipal (id : string) : route Reply := q ← try_ (principal_Get id); mret (PrincipalBody 200 q).

(** [answerPrincipal] *)
Definition answerPrincipal (id : string) : route Reply := GetPrincipal id.

Definition SuspendPrincipal (p : Principal) (id : string) : route Reply :=
  _ ← ownerGuard p id;
  _ ← try_ (principal_Suspend id);
  answerPrincipal id.

Definition RevokePrincipal (p : Principal) (e : Env) (id : string) : route Reply :=
  _ ← ownerGuard p id;
  _ ← try_ (principal_Revoke id (eNow e));
  answerPrincipal id.

(** ** Identities *)
Definition writeIdentities (principalID : string) : route Reply :=
  l ← try_ (identity_ListByPrincipal principalID); mret (IdentitiesBody l).

Definition ListIdentities (id : string) : route Reply := _ ← try_ (principal_Get id); writeIdentities id.

Definition AddIdentity (p : Principal) (e : Env) (id : string) (body : option addIdentityRequest) : route Reply :=
  req ← decodeRegistryBody body;
  _ ← guard_ (contains manualIdentityMethods (aiMethod req)) (bad "INVALID_REQUEST");
  _ ← guard_ (negb (str_eqb (TrimSpace (aiSubject req)) nostr)) (bad "INVALID_REQUEST");
  _ ← ownerGuard p id;
  q ← try_ (principal_Get id);
  _ ← guard_ (principal_Active q) (409%Z, CodePrincipalInactive);
  _ ← withinCeiling p (ScopesForRoles (spRoles q));
  i ← try_ (identity_Create (eNow e) (eIdentityID e)
              (mkIdentity nostr (spID q) (aiMethod req) (TrimSpace (aiIssuer req)) (TrimSpace (aiSubject req))
                 (TrimSpace (aiName req)) ZeroTime None None));
  mret (IdentityBody i).

(** [revokeIdentity] *)
Definition revokeIdentity (e : Env) (i : Identity) : auth unit :=
  if str_eqb (idnMethod i) IdentityMethodAPIKey then keys_Revoke (eNow e) (eNow2 e) (idnSubject i)
  else identity_Revoke (idnID i) (eNow e).

Definition RemoveIdentity (p : Principal) (e : Env) (id identity : string) : route Reply :=
  _ ← ownerGuard p id;
  i ← attempt (identity_Get identity) (λ _, (404%Z, CodeNotFound));
  _ ← guard_ (str_eqb (idnPrincipalID i) id) (404%Z, CodeNotFound);
  _ ← try_ (revokeIdentity e i);
  mret (NoContent false).

(** ** Keys *)
Definition writeKeys (principalID : string) : route Reply := l ← try_ (keys_ListByPrincipal principalID); mret (KeysBody l).
Definition ListPrincipalKeys (id : string) : route Reply := _ ← try_ (principal_Get id); writeKeys id.

(** The scopes a key asks for. *)
Definition askedScopes (p : Principal) (granted : list Scope) (req : createKeyRequest) (forSelf : bool) : list Scope :=
  match cqScopes req with
  | [] => if forSelf then callerCeiling p else granted
  | s => s
  end.

Definition mintKey (p : Principal) (e : Env) (principalID : string) (req : createKeyRequest) (forSelf : bool) : route Reply :=
  expiresAt ← answer (expiryOf (cqExpiresIn req) (cqExpiresAt req) (eNow e));
  target ← try_ (principal_Get principalID);
  _ ← guard_ (principal_Active target) (409%Z, CodePrincipalInactive);
  let granted := ScopesForRoles (spRoles target) in
  let scopes := askedScopes p granted req forSelf in
  _ ← guard_ (forallb (λ s, contains AllScopes s && contains granted s) scopes) (bad CodeInvalidScope);
  _ ← withinCeiling p scopes;
  k ← try_ (keys_Mint (eNow2 e) (eNow3 e) (eNow4 e) (eKeyBytes e) (eSecretBytes e) (eIdentityID e)
              (mkMintKey (spID target) (TrimSpace (cqName req)) expiresAt scopes));
  mret (CreatedKeyBody k.1 k.2).

Definition CreatePrincipalKey (p : Principal) (e : Env) (id : string) (body : option createKeyRequest) : route Reply :=
  req ← decodeRegistryBody body; _ ← ownerGuard p id; mintKey p e id req false.

Definition RevokePrincipalKey (p : Principal) (e : Env) (id key : string) : route Reply :=
  _ ← ownerGuard p id;
  info ← attempt (keys_Get key) (λ _, (404%Z, CodeNotFound));
  _ ← guard_ (str_eqb (ikPrincipalID (kiKey info)) id) (404%Z, CodeNotFound);
  _ ← try_ (keys_Revoke (eNow e) (eNow2 e) (ikID (kiKey info)));
  mret (NoContent false).

(** ** /self *)
Definition ListOwnKeys (p : Principal) : route Reply := writeKeys (pID p).
Definition CreateOwnKey (p : Principal) (e : Env) (body : option createKeyRequest) : route Reply :=
  req ← decodeRegistryBody body; mintKey p e (pID p) req true.

Definition RevokeOwnKey (p : Principal) (e : Env) (key : string) : route Reply :=
  info ← try_ (keys_Get key);
  _ ← guard_ (IsSelf (Some p) (ikPrincipalID (kiKey info))) (403%Z, CodeNotSelf);
  _ ← try_ (keys_Revoke (eNow e) (eNow2 e) (ikID (kiKey info)));
  mret (NoContent false).

Definition ListOwnIdentities (p : Principal) : route Reply := writeIdentities (pID p).

Definition RemoveOwnIdentity (p : Principal) (e : Env) (identity : string) : route Reply :=
  i ← try_ (identity_Get identity);
  _ ← guard_ (IsSelf (Some p) (idnPrincipalID i)) (403%Z, CodeNotSelf);
  _ ← try_ (revokeIdentity e i);
  mret (NoContent false).

Definition ListOwnSessions (p : Principal) (e : Env) (all : bool) : route Reply :=
  if negb sessions then mret (SessionsBody [])
  else
    l ← try_ (ListSessionsByPrincipal (eNow e) (pID p) all);
    mret (SessionsBody (map (λ s, (s, sessionStatus s (eNow2 e), str_eqb (usID s) (Meta p MetaSessionID))) l)).

Definition EndOwnSession (p : Principal) (e : Env) (id : string) : route Reply :=
  if negb sessions then answer (Err (404%Z, CodeNotFound))
  else
    s ← try_ (session_Get id);
    _ ← guard_ (IsSelf (Some p) (usPrincipalID s)) (403%Z, CodeNotSelf);
    _ ← try_ (RevokeSession (eNow e) id "logout");
    mret (NoContent (IsSession (Some p) && str_eqb (Meta p MetaSessionID) id)).

(** ** Sign-in links *)
Definition ceremonyOn (name : string) : route unit :=
  guard_ (sessions && match signIn with Some l => contains l name | None => false end) (404%Z, CodeSignInDisabled).

Fixpoint TrimSlashes (rev : string) : string :=
  match rev with
  | String "/" s => TrimSlashes s
  | _ => rev
  end.

(** [link] *)
Definition link_url (path : string) (issued : Issued) : string :=
  String.rev (TrimSlashes (String.rev publicURL)) +:+ path +:+ "#t=" +:+ isSecret issued.

Definition link_error (e : AuthError) : HttpError :=
  match e with
  | ErrNoCredential => (401%Z, "UNAUTHORIZED"%string)
  | ErrNotFound => (404%Z, CodeNotFound)
  | ErrPrincipalInactive => (409%Z, CodePrincipalInactive)
  | _ => (500%Z, "INTERNAL_ERROR"%string)
  end.

(** [mintLink]: [who] is the authenticated principal, [caller who] the caller. *)
Definition mintLink (who : option Principal) (e : Env) (id : string) : route Reply :=
  let p := caller who in
  _ ← ceremonyOn "link";
  _ ← ownerGuard p id;
  target ← try_ (principal_Get id);
  _ ← withinCeiling p (ScopesForRoles (spRoles target));
  issued ← attempt (MintLink (eNow e) (eTicketSecret e) who id) link_error;
  mret (LinkBody (link_url SignInPath issued) (isExpiresAt issued)).

(** ** The routes *)
Inductive RegistryRequest : Type :=
| RqListPrincipals (kind status : string) (limit : Z)
| RqCreatePrincipal (body : option createPrincipalRequest)
| RqGetPrincipal (id : string)
| RqSuspendPrincipal (id : string)
| RqRevokePrincipal (id : string)
| RqMintLink (id : string)
| RqListIdentities (id : string)
| RqAddIdentity (id : string) (body : option addIdentityRequest)
| RqRemoveIdentity (id identity : string)
| RqListPrincipalKeys (id : string)
| RqCreatePrincipalKey (id : string) (body : option createKeyRequest)
| RqRevokePrincipalKey (id key : string)
| RqListOwnKeys
| RqCreateOwnKey (body : option createKeyRequest)
| RqRevokeOwnKey (key : string)
| RqListOwnIdentities
| RqRemoveOwnIdentity (identity : string)
| RqListOwnSessions (all : bool)
| RqEndOwnSession (session : string).

(** Whether the route is mounted under [admin:principals] or [write:self]. *)
Definition request_scope (rq : RegistryRequest) : Scope :=
  match rq with
  | RqListOwnKeys | RqCreateOwnKey _ | RqRevokeOwnKey _ | RqListOwnIdentities | RqRemoveOwnIdentity _
  | RqListOwnSessions _ | RqEndOwnSession _ => ScopeWriteSelf
  | _ => ScopeAdminPrincipals
  end.

Definition registry_route (who : option Principal) (e : Env) (rq : RegistryRequest) : route Reply :=
  let p := caller who in
  match rq with
  | RqListPrincipals kind status limit => ListPrincipals kind status limit
  | RqCreatePrincipal body => CreatePrincipal p e body
  | RqGetPrincipal id => GetPrincipal id
  | RqSuspendPrincipal id => SuspendPrincipal p id
  | RqRevokePrincipal id => RevokePrincipal p e id
  | RqMintLink id => mintLink who e id
  | RqListIdentities id => ListIdentities id
  | RqAddIdentity id body => AddIdentity p e id body
  | RqRemoveIdentity id identity => RemoveIdentity p e id identity
  | RqListPrincipalKeys id => ListPrincipalKeys id
  | RqCreatePrincipalKey id body => CreatePrincipalKey p e id body
  | RqRevokePrincipalKey id key => RevokePrincipalKey p e id key
  | RqListOwnKeys => ListOwnKeys p
  | RqCreateOwnKey body => CreateOwnKey p e body
  | RqRevokeOwnKey key => RevokeOwnKey p e key
  | RqListOwnIdentities => ListOwnIdentities p
  | RqRemoveOwnIdentity identity => RemoveOwnIdentity p e identity
  | RqListOwnSessions all => ListOwnSessions p e all
  | RqEndOwnSession id => EndOwnSession p e id
  end.
End routes.
