(* ===== verification/RegistrySafety.v ===== *)
(** * What the registry routes promise

    Nothing yielded over the API holds more than its caller, and a caller reaches
    only its own rows or, as an administrator, those of principals other than the
    owner.  Every route is first reduced to the one write it may make. *)

From S2P Require Import Prelude GoStrings JobStore StorageScope Resolver Encodings AuthScopes AuthRegistry AuthInvariants AuthKeys AuthSessions AuthSafety AuthConfinement RegistryRoutes.

(** ** Runs *)
Lemma route_bind_inv {A B} (m : route A) (f : A → route B) d r d' :
  (m ≫= f) d = (r, d') → (∃ e, m d = (Err e, d') ∧ r = Err e) ∨ ∃ a d1, m d = (Ok a, d1) ∧ f a d1 = (r, d').
Proof. exact (st_bind_inv m f d r d'). Qed.

Lemma attempt_inv {A} (m : auth A) w d r d' : attempt m w d = (r, d') →
  ∃ r0, m d = (r0, d') ∧ ∀ a, r = Ok a → r0 = Ok a.
Proof. unfold attempt. destruct (m d) as [[a|e] d1]; intros [= <- <-]; eexists; (split; [done|]); naive_solver. Qed.

(** What every run of a handler on a registry leaves. *)
Definition leads (d : AuthDB) (P : AuthDB → Prop) {A} (m : route A) : Prop := ∀ r d', m d = (r, d') → P d'.

Section leads.
Context (d : AuthDB) (P : AuthDB → Prop) (Hd : P d).

Lemma leads_ret {A} (a : A) : leads d P (mret a). Proof. by intros r d' [= _ <-]. Qed.
Lemma leads_answer {A} (x : result HttpError A) : leads d P (answer x). Proof. by intros r d' [= _ <-]. Qed.
Lemma leads_then {A B} (x : result HttpError A) (f : A → route B) :
  (∀ a, x = Ok a → leads d P (f a)) → leads d P (answer x ≫= f).
Proof.
  intros Hf r d' [(e & Hm & _)|(a & d1 & Hm & Hr)]%route_bind_inv; [by injection Hm as _ <-|].
  injection Hm as Hx <-. by apply (Hf a Hx r).
Qed.
Lemma leads_guard {B} b e (f : unit → route B) : (b = true → leads d P (f tt)) → leads d P (guard_ b e ≫= f).
Proof. intros Hf. apply leads_then. intros [] Hx. apply Hf. by destruct b. Qed.
Lemma leads_read {A B} (m : auth A) w (f : A → route B) :
  reads_only m → (∀ a, m d = (Ok a, d) → leads d P (f a)) → leads d P (attempt m w ≫= f).
Proof.
  intros Hm Hf r d' [(e & Hx & _)|(a & d1 & Hx & Hr)]%route_bind_inv;
    apply attempt_inv in Hx as (r0 & Hx & Hok); pose proof (Hm _ _ _ Hx) as ->; [done|].
  rewrite (Hok a eq_refl) in Hx. by apply (Hf a Hx r).
Qed.
Lemma leads_write {A B} (m : auth A) w (f : A → route B) :
  (∀ r d', m d = (r, d') → P d') → (∀ a d' r d2, f a d' = (r, d2) → d2 = d') → leads d P (attempt m w ≫= f).
Proof.
  intros Hm Hf r d' [(e & Hx & _)|(a & d1 & Hx & Hr)]%route_bind_inv; apply attempt_inv in Hx as (r0 & Hx & _).
  - by eapply Hm.
  - apply Hf in Hr as ->. by eapply Hm.
Qed.
Lemma leads_last {A} (m : auth A) w : (∀ r d', m d = (r, d') → P d') → leads d P (attempt m w).
Proof. intros Hm r d' (r0 & Hx & _)%attempt_inv. by eapply Hm. Qed.
End leads.

Lemma ret_stays {A} (a : A) d r d' : (mret a : route A) d = (r, d') → d' = d. Proof. by intros [= _ <-]. Qed.
Lemma read_stays {A B} (m : auth A) w (g : A → B) d r d' :
  reads_only m → (x ← attempt m w; mret (g x) : route B) d = (r, d') → d' = d.
Proof.
  intros Hm [(e & Hx & _)|(a & d1 & Hx & Hr)]%route_bind_inv; apply attempt_inv in Hx as (r0 & Hx & _); apply Hm in Hx as ->; [done|].
  by injection Hr.
Qed.

Section reads.
Context `{GoCrypto, KeyCodec}.
Lemma reads_keys_Get id : reads_only (keys_Get id).
Proof.
  unfold keys_Get. apply reads_bind; [apply reads_api_not_found, reads_lk_Get|]. intros rec.
  apply reads_bind; [apply reads_identity_Find|intros; apply reads_ret].
Qed.
Lemma reads_record_of i : reads_only (record_of i).
Proof.
  unfold record_of. apply reads_handle; [apply reads_bind; [apply reads_lk_Get|intros; apply reads_ret]|].
  intros []; first [apply reads_ret|apply reads_throw].
Qed.
Lemma reads_infos l : reads_only (infos l).
Proof.
  induction l as [|i l IH]; cbn [infos]; [apply reads_ret|]. destruct (negb _); [done|].
  apply reads_bind; [apply reads_record_of|]. intros rec. apply reads_bind; [done|]. intros; apply reads_ret.
Qed.
Lemma reads_keys_List p : reads_only (keys_ListByPrincipal p).
Proof. apply reads_bind; [apply reads_gets|apply reads_infos]. Qed.
Lemma reads_session_Get id : reads_only (session_Get id).
Proof. intros d r d'. unfold session_Get. destruct (_ !! _); by intros [= _ <-]. Qed.
End reads.

(** ** The write a route makes *)
Section safety.
Context `{GoCrypto} `{KeyCodecLaws}.

(** What changed, and the principal it is about. *)
Inductive wrote (p : Principal) (kb : string) (d : AuthDB) : string → AuthDB → Prop :=
| w_nothing q : wrote p kb d q d
| w_principal now id sp r d' :
    spRoles sp ≠ [] → spID sp = nostr → exceeds (callerCeiling p) (ScopesForRoles (spRoles sp)) = None →
    principal_Create now id sp d = (r, d') → wrote p kb d id d'
| w_suspend q r d' : principal_Suspend q d = (r, d') → wrote p kb d q d'
| w_revoke q t r d' : principal_Revoke q t d = (r, d') → wrote p kb d q d'
| w_identity q row i now id r d' :
    dbPrincipals d !! q = Some row → idnPrincipalID i = q → idnMethod i ≠ IdentityMethodAPIKey →
    exceeds (callerCeiling p) (ScopesForRoles (spRoles row)) = None →
    identity_Create now id i d = (r, d') → wrote p kb d q d'
| w_unbind k i t r d' :
    dbIdentities d !! k = Some i → identity_Revoke k t d = (r, d') → wrote p kb d (idnPrincipalID i) d'
| w_unkey k i t1 t2 r d' :
    dbIdentities d !! k = Some i → idnMethod i = IdentityMethodAPIKey →
    keys_Revoke t1 t2 (idnSubject i) d = (r, d') → wrote p kb d (idnPrincipalID i) d'
| w_mint row spec t1 t2 t3 sec idn r d' :
    dbPrincipals d !! mkPrincipalID spec = Some row →
    exceeds (callerCeiling p) (mkScopes spec) = None →
    (mkScopes spec = [] → mkPrincipalID spec = pID p ∧ callerCeiling p = [] ∨ ScopesForRoles (spRoles row) = []) →
    keys_Mint t1 t2 t3 kb sec idn spec d = (r, d') → wrote p kb d (mkPrincipalID spec) d'
| w_session k s t reason r d' :
    dbSessions d !! k = Some s → session_Revoke k t reason d = (r, d') → wrote p kb d (usPrincipalID s) d'
| w_link q row who now secret r d' :
    dbPrincipals d !! q = Some row → exceeds (callerCeiling p) (ScopesForRoles (spRoles row)) = None →
    MintLink now secret who q d = (r, d') → wrote p kb d q d'.

(** The principal a route acts on. *)
Definition request_target (p : Principal) (e : Env) (rq : RegistryRequest) : string :=
  match rq with
  | RqCreatePrincipal _ => ePrincipalID e
  | RqSuspendPrincipal id | RqRevokePrincipal id | RqMintLink id | RqAddIdentity id _ | RqRemoveIdentity id _
  | RqCreatePrincipalKey id _ | RqRevokePrincipalKey id _ => id
  | _ => pID p
  end.

(** The write of a request's run, and that its principal is one the caller may
    act on. *)
Definition reaches (p : Principal) (e : Env) (rq : RegistryRequest) (d d' : AuthDB) : Prop :=
  d' = d ∨ wrote p (eKeyBytes e) d (request_target p e rq) d' ∧
    (request_target p e rq = OwnerPrincipal → pID p = OwnerPrincipal ∨ dbPrincipals d !! OwnerPrincipal = None).

Lemma reaches_nothing p e rq d : reaches p e rq d d. Proof. by left. Qed.

Lemma IsSelf_true p q : IsSelf (Some p) q = true → q = pID p.
Proof. unfold IsSelf. intros [_ Hs%str_eqb_true]%andb_true_iff. done. Qed.

Lemma owner_may (p : Principal) q : negb (str_eqb q OwnerPrincipal) || IsSelf (Some p) OwnerPrincipal = true →
  q = OwnerPrincipal → pID p = OwnerPrincipal.
Proof. intros Ho ->. rewrite str_eqb_refl in Ho. cbn in Ho. by apply IsSelf_true in Ho. Qed.

Lemma reaches_admin p e rq d d' q :
  request_target p e rq = q → (q = OwnerPrincipal → pID p = OwnerPrincipal) → wrote p (eKeyBytes e) d q d' → reaches p e rq d d'.
Proof. intros <- Ho Hw. right. split; [done|]. intros Hq. left. by apply Ho. Qed.

Lemma reaches_self p e rq d d' q : q = pID p → request_target p e rq = pID p → wrote p (eKeyBytes e) d q d' → reaches p e rq d d'.
Proof. intros -> Ht Hw. right. rewrite Ht. split; [done|]. by left. Qed.

Lemma exceeds_true c scopes : match exceeds c scopes with None => true | Some _ => false end = true → exceeds c scopes = None.
Proof. by destruct (exceeds c scopes). Qed.

Context (sessions : bool) (signIn : option (list string)) (publicURL : string).

Ltac lead := first [ apply leads_guard; [apply reaches_nothing|intros ?Hg] | apply leads_then; [apply reaches_nothing|intros ?a ?Ha] ].
Ltac lead_read lem := apply leads_read; [apply reaches_nothing|apply lem|intros ?a ?Ha].

Lemma answer_stays id d r d' : answerPrincipal id d = (r, d') → d' = d.
Proof. apply read_stays, reads_principal_Get. Qed.

Lemma lead_create who e body d : leads d (reaches (caller who) e (RqCreatePrincipal body) d) (CreatePrincipal (caller who) e body).
Proof.
  unfold CreatePrincipal, decodeRegistryBody, withinCeiling. lead. lead. lead. lead. lead.
  apply leads_write; [|intros ????; apply ret_stays]. intros r d' Hc.
  set (roles := match cpRoles a with [] => _ | _ => _ end) in *. apply exceeds_true in Hg2.
  destruct (decide (ePrincipalID e = OwnerPrincipal)) as [Ho|Ho].
  - revert Hc. unfold principal_Create, PrepareNewPrincipal. rewrite Ho. cbn.
    destruct (str_eqb (cpKind a) PrincipalKindOwner); [intros [= _ <-]; apply reaches_nothing|].
    destruct (negb (contains PrincipalKinds (cpKind a))); intros [= _ <-]; apply reaches_nothing.
  - apply (reaches_admin _ _ _ _ _ (ePrincipalID e)); [done|by intros|]. match type of Hc with principal_Create ?t ?i ?sp _ = _ => refine (w_principal _ _ _ t i sp r d' _ eq_refl Hg2 Hc) end.
    cbn. intros He. by rewrite He in Hg1.
Qed.

Lemma lead_suspend who e id d : leads d (reaches (caller who) e (RqSuspendPrincipal id) d) (SuspendPrincipal (caller who) id).
Proof.
  unfold SuspendPrincipal, ownerGuard. lead. apply leads_write; [|intros _ ???; apply answer_stays]. intros r d' Hs.
  apply (reaches_admin _ _ _ _ _ id); [done|by apply owner_may|by eapply w_suspend].
Qed.

Lemma lead_revoke who e id d : leads d (reaches (caller who) e (RqRevokePrincipal id) d) (RevokePrincipal (caller who) e id).
Proof.
  unfold RevokePrincipal, ownerGuard. lead. apply leads_write; [|intros _ ???; apply answer_stays]. intros r d' Hs.
  apply (reaches_admin _ _ _ _ _ id); [done|by apply owner_may|by eapply w_revoke].
Qed.

Lemma lead_link who e id d : leads d (reaches (caller who) e (RqMintLink id) d) (mintLink sessions signIn publicURL who e id).
Proof.
  unfold mintLink, ceremonyOn, ownerGuard, withinCeiling. lead. lead. lead_read (reads_principal_Get id). lead.
  apply leads_write; [|intros ????; apply ret_stays]. intros r d' Hm. apply principal_Get_ok in Ha as (_ & row & Hr & ->).
  apply (reaches_admin _ _ _ _ _ id); [done|by apply owner_may|]. eapply w_link; [exact Hr| |exact Hm]. by apply exceeds_true in Hg1.
Qed.

Lemma lead_identity who e id body d :
  reg_wf d → leads d (reaches (caller who) e (RqAddIdentity id body) d) (AddIdentity (caller who) e id body).
Proof.
  intros Hwf. unfold AddIdentity, decodeRegistryBody, ownerGuard, withinCeiling. lead. lead. lead. lead.
  lead_read (reads_principal_Get id). lead. lead. apply leads_write; [|intros ????; apply ret_stays]. intros r d' Hm.
  apply principal_Get_ok in Ha0 as (_ & row & Hr & ->). apply (reaches_admin _ _ _ _ _ id); [done|by apply owner_may|].
  eapply w_identity; [exact Hr| | | |exact Hm].
  - cbn. by apply (wf_principal_id _ Hwf).
  - cbn. intros Hx. rewrite Hx in Hg. done.
  - by apply exceeds_true in Hg3.
Qed.

Lemma wrote_revoke p kb e k i d r d' :
  reg_wf d → dbIdentities d !! k = Some i → revokeIdentity e (scanIdentity i) d = (r, d') → wrote p kb d (idnPrincipalID i) d'.
Proof.
  intros Hwf Hk. unfold revokeIdentity. destruct (str_eqb _ _) eqn:Hm; intros Hr.
  - eapply w_unkey; [exact Hk|by apply str_eqb_true in Hm|exact Hr].
  - cbn in Hr. rewrite (wf_identity_id _ Hwf _ _ Hk) in Hr. by eapply w_unbind.
Qed.

Lemma wrote_unkey p kb t1 t2 id info d r d' :
  keys_Get id d = (Ok info, d) → keys_Revoke t1 t2 (ikID (kiKey info)) d = (r, d') → wrote p kb d (ikPrincipalID (kiKey info)) d'.
Proof.
  unfold keys_Get. intros Hg Hr. inv_auth Hg. apply identity_Find_ok in Hs0 as (-> & k & i & Hk & Ht & ->). subst info.
  cbn in Hr |- *. apply andb_true_iff in Ht as [[Hm%str_eqb_true _]%andb_true_iff Hs'%str_eqb_true].
  eapply (w_unkey _ _ _ k i); [exact Hk|exact Hm|]. rewrite Hs'. exact Hr.
Qed.

Lemma lead_unbind who e id identity d :
  reg_wf d → leads d (reaches (caller who) e (RqRemoveIdentity id identity) d) (RemoveIdentity (caller who) e id identity).
Proof.
  intros Hwf. unfold RemoveIdentity, ownerGuard. lead. lead_read (reads_identity_Get identity). lead.
  apply leads_write; [|intros ????; apply ret_stays]. intros r d' Hm. apply identity_Get_ok in Ha as (_ & i & Hk & ->).
  cbn in Hg0. apply str_eqb_true in Hg0 as <-. apply (reaches_admin _ _ _ _ _ (idnPrincipalID i)); [done|by apply owner_may|].
  by eapply wrote_revoke.
Qed.

Lemma lead_unbind_own who e identity d :
  reg_wf d → leads d (reaches (caller who) e (RqRemoveOwnIdentity identity) d) (RemoveOwnIdentity (caller who) e identity).
Proof.
  intros Hwf. unfold RemoveOwnIdentity. lead_read (reads_identity_Get identity). lead.
  apply leads_write; [|intros ????; apply ret_stays]. intros r d' Hm. apply identity_Get_ok in Ha as (_ & i & Hk & ->).
  apply (reaches_self _ _ _ _ _ (idnPrincipalID i)); [by apply IsSelf_true|done|by eapply wrote_revoke].
Qed.

Lemma lead_unkey who e id key d :
  leads d (reaches (caller who) e (RqRevokePrincipalKey id key) d) (RevokePrincipalKey (caller who) e id key).
Proof.
  unfold RevokePrincipalKey, ownerGuard. lead. lead_read (reads_keys_Get key). lead.
  apply leads_write; [|intros ????; apply ret_stays]. intros r d' Hm. apply str_eqb_true in Hg0 as <-.
  apply (reaches_admin _ _ _ _ _ (ikPrincipalID (kiKey a))); [done|by apply owner_may|by eapply wrote_unkey].
Qed.

Lemma lead_unkey_own who e key d : leads d (reaches (caller who) e (RqRevokeOwnKey key) d) (RevokeOwnKey (caller who) e key).
Proof.
  unfold RevokeOwnKey. lead_read (reads_keys_Get key). lead.
  apply leads_write; [|intros ????; apply ret_stays]. intros r d' Hm.
  apply (reaches_self _ _ _ _ _ (ikPrincipalID (kiKey a))); [by apply IsSelf_true|done|by eapply wrote_unkey].
Qed.

Lemma lead_mint who e q req forSelf d rq :
  reg_wf d → (forSelf = true → q = pID (caller who)) →
  (∀ d', wrote (caller who) (eKeyBytes e) d q d' → reaches (caller who) e rq d d') →
  leads d (reaches (caller who) e rq d) (mintKey (caller who) e q req forSelf).
Proof.
  intros Hwf Hself Hreach. unfold mintKey, withinCeiling. lead. lead_read (reads_principal_Get q). lead. lead. lead.
  apply leads_write; [|intros ????; apply ret_stays]. intros r d' Hm. apply Hreach.
  apply principal_Get_ok in Ha0 as (_ & row & Hr & ->). cbn [scanPrincipal sp_times spID spRoles] in *.
  pose proof (wf_principal_id _ Hwf _ _ Hr) as Hid. rewrite Hid in Hm.
  eapply (w_mint _ _ _ row (mkMintKey q _ _ _)); [exact Hr|by apply exceeds_true in Hg1| |exact Hm].
  cbn [mkScopes mkPrincipalID]. unfold askedScopes. destruct (cqScopes req); [|done]. destruct forSelf; [left; by rewrite Hself|by right].
Qed.

Lemma lead_session who e id d : leads d (reaches (caller who) e (RqEndOwnSession id) d) (EndOwnSession sessions (caller who) e id).
Proof.
  unfold EndOwnSession. destruct sessions; cbn [negb]; [|apply leads_answer, reaches_nothing].
  lead_read (reads_session_Get id). lead. apply leads_write; [|intros ????; apply ret_stays]. intros r d' Hm.
  unfold session_Get in Ha. destruct (dbSessions d !! id) as [s|] eqn:Hs; [|done]. injection Ha as <-.
  apply (reaches_self _ _ _ _ _ (usPrincipalID s)); [by apply IsSelf_true in Hg|done|by eapply w_session].
Qed.

Lemma stays_reaches p e rq d {A} (m : route A) : (∀ r d', m d = (r, d') → d' = d) → leads d (reaches p e rq d) m.
Proof. intros Hm r d' ->%Hm. apply reaches_nothing. Qed.

(** Every route makes at most one write, on a principal its caller may act on. *)
Lemma route_reaches who e rq d r d' :
  reg_wf d → registry_route sessions signIn publicURL who e rq d = (r, d') → reaches (caller who) e rq d d'.
Proof.
  intros Hwf. revert r d'. change (leads d (reaches (caller who) e rq d) (registry_route sessions signIn publicURL who e rq)).
  assert (Hget : ∀ id rq, leads d (reaches (caller who) e rq d) (GetPrincipal id)).
  { intros id rq'. apply stays_reaches. intros r d'. apply read_stays, reads_principal_Get. }
  assert (Hidn : ∀ id rq, leads d (reaches (caller who) e rq d) (writeIdentities id)).
  { intros id rq'. apply stays_reaches. intros r d'. apply read_stays, reads_gets. }
  assert (Hkey : ∀ id rq, leads d (reaches (caller who) e rq d) (writeKeys id)).
  { intros id rq'. apply stays_reaches. intros r d'. apply read_stays, reads_keys_List. }
  destruct rq as [k st l|body|id|id|id|id|id|id body|id identity|id|id body|id key| |body|key| |identity|all|id];
    cbn [registry_route]; auto using lead_create, lead_suspend, lead_revoke, lead_link, lead_identity, lead_unbind, lead_unbind_own,
      lead_unkey, lead_unkey_own, lead_session.
  - unfold ListPrincipals. lead. lead. apply stays_reaches. intros r d'. apply read_stays, reads_gets.
  - unfold ListIdentities. lead_read (reads_principal_Get id). apply Hidn.
  - unfold ListPrincipalKeys. lead_read (reads_principal_Get id). apply Hkey.
  - unfold CreatePrincipalKey, decodeRegistryBody, ownerGuard. lead. lead. apply lead_mint; [done|done|].
    intros d'. by apply reaches_admin; [|apply owner_may].
  - apply Hkey.
  - unfold CreateOwnKey, decodeRegistryBody. lead. apply lead_mint; [done|done|]. intros d' Hw. by eapply reaches_self.
  - apply Hidn.
  - unfold ListOwnSessions. destruct sessions; cbn [negb]; apply stays_reaches; [|apply ret_stays].
    intros r d'. apply read_stays, reads_gets.
Qed.

(** ** The updates a write is made of *)
Section shapes.
Context (P : Scope → Prop) (q : string).

(** Updates of the rows of [q], none of which grants a scope outside [P]. *)
Inductive shape (d : AuthDB) : AuthDB → Prop :=
| sh_principal row :
    dbPrincipals d !! q = None → (∀ s, s ∈ ScopesForRoles (spRoles row) → P s) →
    shape d (set_principals (<[q := row]> (dbPrincipals d)) d)
| sh_status c f :
    (∀ r, spRoles (f r) = spRoles r) → shape d (set_principals (update_row q c f (dbPrincipals d)) d)
| sh_cascade ms : shape d (cascade_principal q ms d)
| sh_identity k i :
    dbIdentities d !! k = None → idnPrincipalID i = q →
    (idnMethod i ≠ IdentityMethodAPIKey → ∀ row, dbPrincipals d !! q = Some row → ∀ s, s ∈ ScopesForRoles (spRoles row) → P s) →
    shape d (set_identities (<[k := i]> (dbIdentities d)) d)
| sh_unbind k i ms : dbIdentities d !! k = Some i → idnPrincipalID i = q → shape d (cascade_identity k ms d)
| sh_key rec data :
    key_ascii rec = true → MarshalKey rec = Some data → akPrincipal rec = q →
    (∀ old, key_at d (akID rec) old → akPrincipal old = q) →
    ((∃ old, key_at d (akID rec) old ∧ akScopes old = akScopes rec) ∨ ∀ s, s ∈ akScopes rec → P s) →
    shape d (set_kv (<[apiKeyStorePrefix +:+ akID rec := data]> (dbKV d)) d)
| sh_session k s c f :
    dbSessions d !! k = Some s → usPrincipalID s = q → (∀ r, usPrincipalID (f r) = usPrincipalID r) →
    shape d (set_sessions (update_row k c f (dbSessions d)) d)
| sh_ticket h t :
    dbTickets d !! h = None → tkPrincipalID t = q →
    (∀ row, dbPrincipals d !! q = Some row → ∀ s, s ∈ ScopesForRoles (spRoles row) → P s) →
    shape d (set_tickets (<[h := t]> (dbTickets d)) d).
End shapes.

Lemma one_shape P q d d' : shape P q d d' → star (shape P q) d d'.
Proof. intros Hs. eapply star_step; [exact Hs|apply star_refl]. Qed.

Lemma lk_Revoke_cases now id d r d' :
  lk_Revoke now id d = (r, d') → d' = d ∨ ∃ rec data, key_at d id rec ∧ MarshalKey (with_revoked now rec) = Some data ∧
    d' = set_kv (<[apiKeyStorePrefix +:+ akID rec := data]> (dbKV d)) d.
Proof.
  intros Hr. unfold lk_Revoke in Hr. apply bind_inv in Hr as [(e & Hg & ->)|(rec & d1 & Hg & Hr)].
  { left. by apply reads_lk_Get in Hg. }
  apply lk_Get_ok in Hg as [-> Hk]. destruct (IsZero _); [|injection Hr as _ <-; by left].
  assert (Hput : ∃ r', lk_put (with_revoked now rec) d = (r', d')).
  { apply bind_inv in Hr as [(e & Hp & _)|(u & d1 & Hp & Hr)]; [eauto|]. injection Hr as _ <-. eauto. }
  destruct Hput as (r' & [[-> _]|(data & Hm & _ & ->)]%lk_put_ok); [by left|right]. by exists rec, data.
Qed.

Lemma lk_Revoke_shape P q now id d r d' :
  confined d → (∀ rec, key_at d id rec → akPrincipal rec = q) → lk_Revoke now id d = (r, d') → star (shape P q) d d'.
Proof.
  intros Hc Hq [->|(rec & data & Hk & Hm & ->)]%lk_Revoke_cases; [apply star_refl|]. apply one_shape.
  destruct (cf_keys _ Hc _ _ Hk) as [Hid Ha _].
  apply (sh_key _ _ _ (with_revoked now rec) data); [by rewrite with_revoked_ascii|done|exact (Hq _ Hk)| |left].
  - intros old Ho. cbn in Ho. rewrite Hid in Ho. by apply Hq.
  - exists rec. cbn. by rewrite Hid.
Qed.

Lemma identity_Revoke_cases k t d r d' :
  identity_Revoke k t d = (r, d') → d' = d ∨ ∃ ms, d' = cascade_identity k ms d.
Proof. unfold identity_Revoke, identity_exists, modify. destruct (row_hit _ _ _); intros [= _ <-]; eauto. Qed.

Lemma identity_Revoke_shape P k i t d r d' :
  dbIdentities d !! k = Some i → identity_Revoke k t d = (r, d') → star (shape P (idnPrincipalID i)) d d'.
Proof. intros Hk [->|(ms & ->)]%identity_Revoke_cases; [apply star_refl|]. apply one_shape. by eapply sh_unbind. Qed.

Lemma api_not_found_state {A} (m : auth A) d r d' : api_not_found m d = (r, d') → ∃ r0, m d = (r0, d').
Proof.
  unfold api_not_found, handle. destruct (m d) as [[x|e] d2]; [intros [= _ <-]; eauto|].
  destruct e; intros [= _ <-]; eauto.
Qed.

Lemma keys_Revoke_cases t1 t2 id d r d' :
  keys_Revoke t1 t2 id d = (r, d') → ∃ r1 d1, lk_Revoke t1 id d = (r1, d1) ∧
    (d' = d1 ∨ ∃ k j ms, dbIdentities d1 !! k = Some j ∧ same_triple IdentityMethodAPIKey nostr id j = true ∧
       d' = cascade_identity (idnID j) ms d1).
Proof.
  intros Hr. unfold keys_Revoke in Hr.
  apply bind_inv in Hr as [(e & Hl & _)|(x & d1 & Hl & Hr)]; apply api_not_found_state in Hl as (r1 & Hl); [by eauto|].
  exists r1, d1. split; [done|]. apply bind_inv in Hr as [(e & Hf & _)|(o & d2 & Hf & Hr)].
  - left. unfold handle in Hf. destruct ((y ← _; mret (Some y) : auth _) d1) as [[y|e'] d2] eqn:Hb; [done|].
    apply reads_bind in Hb as ->; [|apply reads_identity_Find|intros; apply reads_ret]. destruct e'; by injection Hf as _ <-.
  - assert (d2 = d1 ∧ ∀ y, o = Some y → ∃ k0 j, dbIdentities d1 !! k0 = Some j ∧ same_triple IdentityMethodAPIKey nostr id j = true ∧ y = scanIdentity j)
      as [-> Ho].
    { apply handle_ok in Hf as [Hf|(e' & d3 & He & Hf)].
      - inv_auth Hf. apply identity_Find_ok in Hs as (-> & k0 & j & Hj & Ht & ->). split; [done|]. intros z Hz. exists k0, j. split_and!; [done|done|congruence].
      - apply reads_bind in He as ->; [|apply reads_identity_Find|intros; apply reads_ret].
        destruct e'; try done. apply ret_ok in Hf as [-> ->]. done. }
    destruct o as [y|]; [|injection Hr as _ <-; by left]. destruct (Ho y eq_refl) as (k0 & j & Hj & Ht & ->).
    apply identity_Revoke_cases in Hr as [->|(ms & ->)]; [by left|right]. by exists k0, j, ms.
Qed.

Lemma keys_Revoke_shape P k i t1 t2 d r d' :
  reg_wf d → confined d → dbIdentities d !! k = Some i → idnMethod i = IdentityMethodAPIKey →
  keys_Revoke t1 t2 (idnSubject i) d = (r, d') → star (shape P (idnPrincipalID i)) d d'.
Proof.
  intros Hwf Hc Hk Hmi Hr. destruct (cf_identities _ Hc _ _ Hk Hmi) as (rec & Hrec & Hpr).
  assert (Hq : ∀ x, key_at d (idnSubject i) x → akPrincipal x = idnPrincipalID i).
  { intros x Hx. by rewrite (key_at_inj _ _ _ _ Hx Hrec). }
  apply keys_Revoke_cases in Hr as (r1 & d1 & Hl & Hr).
  pose proof (lk_Revoke_shape P _ _ _ _ _ _ Hc Hq Hl) as Hsh.
  assert (Hi : dbIdentities d1 = dbIdentities d) by (apply lk_Revoke_cases in Hl as [->|(?&?&_&_&->)]; done).
  destruct Hr as [->|(k0 & j & ms & Hj & Ht & ->)]; [done|]. eapply star_trans; [exact Hsh|].
  rewrite Hi in Hj. apply andb_true_iff in Ht as [[Hm _]%andb_true_iff Hsub].
  apply str_eqb_true in Hm, Hsub. destruct (cf_identities _ Hc _ _ Hj Hm) as (rec' & Hrec' & Hpr').
  rewrite Hsub in Hrec'. apply one_shape. rewrite (wf_identity_id _ Hwf _ _ Hj).
  eapply sh_unbind; [by rewrite Hi|]. rewrite <- Hpr', <- Hpr. by rewrite (key_at_inj _ _ _ _ Hrec' Hrec).
Qed.

Lemma within_ceiling p scopes s : exceeds (callerCeiling p) scopes = None → s ∈ scopes → s ∈ pScopes p.
Proof.
  unfold exceeds, callerCeiling. intros He Hs%list_elem_of_In. pose proof (find_none _ _ He s Hs) as Hn.
  apply negb_false_iff, contains_true, elem_of_bfilter in Hn as [Hn _]. done.
Qed.

Lemma PrepareNewPrincipal_ok p now id q : PrepareNewPrincipal p now id = Ok q → spID p = nostr → spRoles p ≠ [] →
  spID q = id ∧ spRoles q = spRoles p.
Proof.
  unfold PrepareNewPrincipal. intros Hq Hid Hne. repeat (case_match; [discriminate|]). injection Hq as <-. cbn.
  rewrite Hid, str_eqb_refl. by destruct (spRoles p).
Qed.

Lemma principal_Create_shape (P : Scope → Prop) now id sp d r d' :
  spRoles sp ≠ [] → spID sp = nostr → (∀ s, s ∈ ScopesForRoles (spRoles sp) → P s) →
  principal_Create now id sp d = (r, d') → star (shape P id) d d'.
Proof.
  intros Hne Hid HP. unfold principal_Create. destruct (PrepareNewPrincipal sp now id) as [q|e] eqn:Hq; [|intros [= _ <-]; apply star_refl].
  apply PrepareNewPrincipal_ok in Hq as [<- Hr]; [|done|done].
  destruct (dbPrincipals d !! spID q) eqn:Hk; intros [= _ <-]; [apply star_refl|]. apply one_shape, sh_principal; [done|].
  cbn. by rewrite Hr.
Qed.

Lemma mint_shape (P : Scope → Prop) t1 t2 t3 kb sec idn spec d r d' :
  reg_wf d → confined d → ascii_ids d → dbKV d !! (apiKeyStorePrefix +:+ EncodeHex kb) = None →
  (∀ row scopes, dbPrincipals d !! mkPrincipalID spec = Some row → keyScopes (scanPrincipal row) (mkScopes spec) = Ok scopes →
     ∀ s, s ∈ scopes → P s) →
  keys_Mint t1 t2 t3 kb sec idn spec d = (r, d') → star (shape P (mkPrincipalID spec)) d d'.
Proof.
  intros Hwf Hc Ha Hf HP Hm. apply keys_Mint_cases in Hm as [[-> _]|(p & scopes & ttl & data & Hp & Hid & _ & Hsc & Hmar & _ & Hend)];
    [apply star_refl| |done].
  assert (Hgr : ∀ s, s ∈ scopes → s ∈ ScopesForRoles (spRoles p)) by (intros s; by apply (keyScopes_granted (scanPrincipal p) (mkScopes spec))).
  destruct (confined_put d p scopes t2 kb (EncodeBase64 sec) ttl data Hwf Hp Hgr Hf Hmar Ha Hc) as [Hc1 Hat].
  destruct (new_record_ok d t2 kb (EncodeBase64 sec) p scopes ttl Hwf Ha Hp Hgr) as [Hrid Has _].
  set (rec := new_record _ _ _ _) in *. set (d1 := set_kv _ d) in *. cbn zeta in Hend. rewrite Hid in Hp.
  assert (Hs1 : shape P (mkPrincipalID spec) d d1).
  { apply (sh_key _ _ d rec data); [done|done|exact Hid| |].
    - intros old (x & Hx & _). rewrite Hrid in Hx. congruence.
    - right. intros s Hs. by apply (HP p scopes Hp Hsc). }
  eapply star_step; [exact Hs1|]. destruct Hend as [(j & Hj & _)|(_ & r' & Hr)].
  - apply identity_Create_ok in Hj as (-> & Ht & Hpr & _ & _ & Hn & _). apply one_shape.
    apply sh_identity; [done|by rewrite <- Hid|]. cbn. injection Ht as -> _ _. done.
  - eapply lk_Revoke_shape; [exact Hc1| |exact Hr]. intros rec' Hr'. pose proof (key_at_inj _ _ _ _ Hr' Hat) as ->. exact Hid.
Qed.

Lemma PrepareTicketIssue_principal t now t' : PrepareTicketIssue t now = Ok t' → tiPrincipalID t' = tiPrincipalID t.
Proof. unfold PrepareTicketIssue. repeat (case_match; [discriminate|]). by intros [= <-]. Qed.

Lemma link_shape (P : Scope → Prop) now secret who q d r d' :
  reg_wf d → (∀ row, dbPrincipals d !! q = Some row → ∀ s, s ∈ ScopesForRoles (spRoles row) → P s) →
  MintLink now secret who q d = (r, d') → star (shape P q) d d'.
Proof.
  intros Hwf HP. unfold MintLink. destruct who as [w|]; [|intros [= _ <-]; apply star_refl].
  intros [(e & Hg & _)|(p & d1 & Hg & Hm)]%bind_inv; apply principal_Get_state in Hg as [-> Hg]; [apply star_refl|].
  destruct Hg as (row & Hrow & ->). pose proof (wf_principal_id _ Hwf _ _ Hrow) as Hid.
  apply bind_inv in Hm as [(e & Hm & _)|(u & d1 & Hm & Hm')]; [apply reads_check in Hm as ->; apply star_refl|].
  apply check_ok in Hm as [_ ->]. assert (Ht : ∃ r', ticket_Issue now secret
      (mkTicketIssue TicketKindMagicLink nostr MagicLinkTTL (pID w) (spID (scanPrincipal row)) now) d = (r', d')).
  { apply bind_inv in Hm' as [(e & Hm & _)|(x & d1 & Hm & Hx)]; [eauto|]. apply ret_inv in Hx as [_ ->]. eauto. }
  destruct Ht as (r' & Ht). revert Ht. unfold ticket_Issue. destruct (PrepareTicketIssue _ _) as [t|e] eqn:Hp; [|intros [= _ <-]; apply star_refl].
  destruct (dbTickets d !! TicketHash secret) eqn:Hk; [intros [= _ <-]; apply star_refl|].
  destruct (_ && _); intros [= _ <-]; [|apply star_refl]. apply one_shape, sh_ticket; [done| |done].
  apply PrepareTicketIssue_principal in Hp. cbn [tkPrincipalID]. rewrite Hp. exact Hid.
Qed.

Lemma session_Revoke_shape P k s t reason d r d' :
  dbSessions d !! k = Some s → session_Revoke k t reason d = (r, d') → star (shape P (usPrincipalID s)) d d'.
Proof.
  intros Hk. unfold session_Revoke, session_exists, modify. destruct (row_hit _ _ _); intros [= _ <-]; [|apply star_refl].
  apply one_shape. by eapply sh_session.
Qed.

Lemma keyScopes_asked p asked out s : asked ≠ [] → keyScopes p asked = Ok out → s ∈ out → s ∈ asked.
Proof.
  intros Hne. unfold keyScopes. destruct asked as [|a l]; [done|].
  destruct (existsb _ AllScopes); [discriminate|]. destruct (existsb _ (a :: l)); [discriminate|].
  intros Heq. assert (out = List.filter (contains (a :: l)) AllScopes) as -> by congruence.
  by intros [_ Hin%contains_true]%elem_of_bfilter.
Qed.

(** What the caller may lend without a ceiling to check: nothing, unless it is its
    own principal's. *)
Definition lends (d : AuthDB) (p : Principal) : Prop :=
  callerCeiling p = [] → ∀ row, dbPrincipals d !! pID p = Some row → ∀ s, s ∈ ScopesForRoles (spRoles row) → s ∈ pScopes p.

(** Every write is made of updates of its principal's rows that grant nothing
    beyond the caller. *)
Lemma wrote_shapes (P : Scope → Prop) p kb d q d' :
  (∀ s, s ∈ pScopes p → P s) →
  reg_wf d → confined d → ascii_ids d → dbKV d !! (apiKeyStorePrefix +:+ EncodeHex kb) = None → (callerCeiling p = [] → ∀ row, dbPrincipals d !! pID p = Some row → ∀ s, s ∈ ScopesForRoles (spRoles row) → P s) →
  wrote p kb d q d' → star (shape P q) d d'.
Proof.
  intros HP Hwf Hc Ha Hf Hl Hw. destruct Hw as [q|now id sp r d' Hne Hid Hx Hr|q r d' Hr|q t r d' Hr|q row i now id r d' Hrow Hq Hmi Hx Hr
    |k i t r d' Hk Hr|k i t1 t2 r d' Hk Hmi Hr|row spec t1 t2 t3 sec idn r d' Hrow Hx He Hr|k s t reason r d' Hk Hr|q row who now secret r d' Hrow Hx Hr].
  - apply star_refl.
  - eapply principal_Create_shape; [exact Hne|exact Hid| |exact Hr]. intros s. intros Hs. by eapply HP, within_ceiling.
  - apply principal_Suspend_state in Hr as [->| ->]; [apply star_refl|]. by apply one_shape, sh_status.
  - apply principal_Revoke_state in Hr as [->| ->]; [apply star_refl|]. apply one_shape, sh_cascade.
  - destruct r as [j|e]; [|apply identity_Create_err in Hr as ->; apply star_refl].
    apply identity_Create_ok in Hr as (-> & Ht & Hpr & _ & _ & Hn & _). apply one_shape, sh_identity; [done|by cbn; rewrite Hpr|].
    intros _ row' Hrow' s. assert (row' = row) as -> by congruence. intros Hs. by eapply HP, within_ceiling.
  - by eapply identity_Revoke_shape.
  - by eapply keys_Revoke_shape.
  - eapply mint_shape; [done..| |exact Hr]. intros row' scopes Hrow' Hsc s Hs. assert (row' = row) as -> by congruence.
    destruct (mkScopes spec) as [|a l] eqn:Hask.
    + apply (keyScopes_granted _ _ _ _ Hsc) in Hs as Hg. cbn in Hg. destruct (He eq_refl) as [[Hself Hce]|Hno].
      * apply (Hl Hce row); [by rewrite <- Hself|done].
      * rewrite Hno in Hg. by apply not_elem_of_nil in Hg.
    + apply HP, (within_ceiling _ _ _ Hx). by apply (keyScopes_asked (scanPrincipal row) (a :: l) scopes).
  - by eapply session_Revoke_shape.
  - eapply link_shape; [done| |exact Hr]. intros row' Hrow' s. assert (row' = row) as -> by congruence. intros Hs. by eapply HP, within_ceiling.
Qed.

(** *** What a credential is worth *)
Inductive Held : Type := ByPrincipal (id : string) | ByIdentity (id : string) | ByKey (id : string) | ByLink (hash : string).

(** The scopes a credential of the registry can authenticate with: a key's own,
    and through a principal, an identity it is bound to or a sign-in link, those
    of the principal's roles. *)
Inductive carries (d : AuthDB) : Held → Scope → Prop :=
| carries_principal k row s :
    dbPrincipals d !! k = Some row → s ∈ ScopesForRoles (spRoles row) → carries d (ByPrincipal k) s
| carries_identity k i row s :
    dbIdentities d !! k = Some i → idnMethod i ≠ IdentityMethodAPIKey → dbPrincipals d !! idnPrincipalID i = Some row →
    s ∈ ScopesForRoles (spRoles row) → carries d (ByIdentity k) s
| carries_key id rec s : key_at d id rec → s ∈ akScopes rec → carries d (ByKey id) s
| carries_link h t row s :
    dbTickets d !! h = Some t → dbPrincipals d !! tkPrincipalID t = Some row → s ∈ ScopesForRoles (spRoles row) → carries d (ByLink h) s.

Definition widens (P : Scope → Prop) (d d' : AuthDB) : Prop := ∀ c s, carries d' c s → carries d c s ∨ P s.

(** The rows two registries share, up to what authenticates. *)
Lemma widens_rows (P : Scope → Prop) d d' :
  (∀ k row', dbPrincipals d' !! k = Some row' →
     (∃ row, dbPrincipals d !! k = Some row ∧ spRoles row' = spRoles row) ∨ ∀ s, s ∈ ScopesForRoles (spRoles row') → P s) →
  rows_from idn_same (dbIdentities d) (dbIdentities d') → rows_from tk_same (dbTickets d) (dbTickets d') → dbKV d' = dbKV d →
  widens P d d'.
Proof.
  intros Hp Hi Ht Hk c s [k row s' Hrow Hs|k i row s' Hki Hm Hrow Hs|id rec s' Hat Hs|h t row s' Hh Hrow Hs].
  - destruct (Hp _ _ Hrow) as [(r & Hr & He)|HP]; [left|right; by apply HP]. rewrite He in Hs. by econstructor.
  - destruct (Hi _ _ Hki) as (j & Hj & _ & Hpr & Htr). destruct (Hp _ _ Hrow) as [(r & Hr & He)|HP]; [left|right; by apply HP].
    rewrite He in Hs. rewrite Hpr in Hr. injection Htr as Hme _ _. rewrite Hme in Hm. by econstructor.
  - left. apply (key_at_kv d d') in Hat; [|done]. by econstructor.
  - destruct (Ht _ _ Hh) as (t0 & Ht0 & _ & Hpr). destruct (Hp _ _ Hrow) as [(r & Hr & He)|HP]; [left|right; by apply HP].
    rewrite He in Hs. rewrite Hpr in Hr. by econstructor.
Qed.

Definition roles_from (m m' : gmap string StoredPrincipal) : Prop := rows_from (λ row row', spRoles row' = spRoles row) m m'.

Lemma widens_roles P d d' :
  roles_from (dbPrincipals d) (dbPrincipals d') →
  rows_from idn_same (dbIdentities d) (dbIdentities d') → rows_from tk_same (dbTickets d) (dbTickets d') → dbKV d' = dbKV d →
  widens P d d'.
Proof. intros Hr. apply widens_rows. intros k row' Hk. left. by apply Hr. Qed.

(** A table a write leaves alone, or updates in place. *)
Ltac from_tables := (apply rows_from_refl || apply rows_from_update_row || apply rows_from_update_where); intros; repeat split; done.

Lemma shape_widens P q d d' : shape P q d d' → widens P d d'.
Proof.
  intros [row Hn HP|c f Hf|ms|k i Hn Hq HP|k i ms Hk Hq|rec data Ha Hm Hq Hold Hs|k s c f Hk Hq Hf|h t Hn Hq HP].
  - apply widens_rows; cbn; [|from_tables..|done].
    intros k row' [[<- <-]|[_ Hk]]%lookup_insert_Some; [by right|left; eauto].
  - apply widens_roles; cbn; [by apply rows_from_update_row|from_tables..|done].
  - apply widens_roles; cbn; [from_tables..|done].
  - intros c s Hc. inversion Hc as [k0 row s' Hrow Hs E1 E2|k0 i0 row s' Hki Hmi Hrow Hs E1 E2|id rec s' Hat Hs E1 E2|h t row s' Hh Hrow Hs E1 E2];
      cbn in *; subst; try (left; by econstructor).
    apply lookup_insert_Some in Hki as [[<- <-]|[_ Hki]]; [right; by eapply HP|left; by econstructor].
  - apply widens_roles; cbn; [from_tables..|done].
  - intros c s Hc. inversion Hc as [k0 row s' Hrow Hs' E1 E2|k0 i0 row s' Hki Hmi Hrow Hs' E1 E2|id rec' s' Hat Hs' E1 E2|h t row s' Hh Hrow Hs' E1 E2];
      subst; try (left; by econstructor).
    apply key_at_put in Hat as [[-> ->]|[_ Hat]]; [|left; by econstructor|done..].
    destruct Hs as [(old & Hat & He)|HP]; [left; rewrite <- He in Hs'; by econstructor|right; by apply HP].
  - apply widens_roles; cbn; [from_tables..|done].
  - intros c s Hc. inversion Hc as [k0 row s' Hrow Hs E1 E2|k0 i0 row s' Hki Hmi Hrow Hs E1 E2|id rec s' Hat Hs E1 E2|h0 t0 row s' Hh Hrow Hs E1 E2];
      cbn in *; subst; try (left; by econstructor).
    apply lookup_insert_Some in Hh as [[<- <-]|[_ Hh]]; [right; by eapply HP|left; by econstructor].
Qed.

Lemma shapes_widen P q d d' : star (shape P q) d d' → widens P d d'.
Proof.
  induction 1 as [d|d d1 d2 Hs _ IH]; [by left|]. intros c s Hc.
  apply IH in Hc as [Hc|Hc]; [|by right]. by eapply shape_widens.
Qed.

(** ** The registry and its routes, over a life *)
Definition sound (d : AuthDB) : Prop := reg_wf d ∧ confined_if d.
Definition fresh_key (d : AuthDB) (kb : string) : Prop := dbKV d !! (apiKeyStorePrefix +:+ EncodeHex kb) = None.

Lemma sound_run {A} (m : auth A) d r d' : runs m → does (keeping confined_if) m → m d = (r, d') → sound d → sound d'.
Proof. intros Hr Hc Hm [Hwf Hcf]. split; [|by eapply Hc]. eapply reg_step_wf; [by eapply Hr|done]. Qed.

Lemma sound_api A (m : auth A) d r d' :
  api_method (mkSessionOptions 0 0 0 0) false [] (λ _ _, None) (λ _, None) None (λ _, Ok tt) A m →
  m d = (r, d') → sound d → sound d'.
Proof. intros Hm. apply sound_run; [by eapply api_runs|by eapply confined_api]. Qed.

Lemma confined_identity now id i : idnMethod i ≠ IdentityMethodAPIKey → does (keeping confined_if) (identity_Create now id i).
Proof.
  intros Hne d r d' Hi. pose proof (identity_Create_ext _ _ _ _ _ _ Hi) as Hext. destruct r as [j|e].
  - apply identity_Create_ok in Hi as (-> & Ht & _). injection Ht as Hm _ _. refine (confined_frame _ _ Hext eq_refl _). cbn.
    intros k x [[<- <-]|[_ Hk]]%lookup_insert_Some Hmx; [|by exists k, x]. cbn in Hmx. congruence.
  - apply identity_Create_err in Hi as ->. unfold keeping. done.
Qed.

Lemma wrote_sound p kb d q d' : fresh_key d kb → wrote p kb d q d' → sound d → sound d'.
Proof.
  intros Hf [q'|now id sp r d1 _ _ _ Hr|q' r d1 Hr|q' t r d1 Hr|q' row i now id r d1 _ _ Hm _ Hr
    |k i t r d1 _ Hr|k i t1 t2 r d1 _ _ Hr|row spec t1 t2 t3 sec idn r d1 _ _ _ Hr|k s t reason r d1 _ Hr|q' row who now secret r d1 _ _ Hr];
    try (eapply sound_api; [|exact Hr]; by repeat constructor).
  - done.
  - eapply sound_run; [|by apply confined_identity|exact Hr]. apply runs_op, op_identity_Create.
  - intros [Hwf Hcf]. split; [|by eapply confined_mint]. eapply reg_step_wf; [by eapply runs_keys_Mint|done].
Qed.

Lemma route_sound who e rq d r d' : fresh_key d (eKeyBytes e) →
  registry_route sessions signIn publicURL who e rq d = (r, d') → sound d → sound d'.
Proof.
  intros Hf Hr Hs. apply route_reaches in Hr as [->|[Hw _]]; [done| |apply Hs]. by eapply wrote_sound.
Qed.

Section life.
Context (opts : SessionOptions) (wk : bool) (cfg : list ConfigKey).
Context (M : string → string → option string) (U : string → option (string * string)).
Context (sh : option (string → bool)) (add : AudienceMember → result AuthError unit).

(** The credential code and the routes, one call at a time; a mint draws an id
    no key has. *)
Inductive life_step (d d' : AuthDB) : Prop :=
| life_api : api_step opts wk cfg M U sh add d d' → life_step d d'
| life_route who e rq r : fresh_key d (eKeyBytes e) →
    registry_route sessions signIn publicURL who e rq d = (r, d') → life_step d d'.

Lemma life_sound created d : star life_step (initDB created) d → sound d.
Proof.
  intros Hd. refine (star_invariant _ sound _ _ _ Hd _); clear d Hd.
  - intros a b [Ha|who e rq r Hf Hr] Hs; [|by eapply route_sound]. destruct Ha as [A m r Hm Hr|t1 t2 t3 idb sec idn spec r Hf Hr].
    + eapply sound_run; [by eapply api_runs|by eapply confined_api|exact Hr|exact Hs].
    + destruct Hs as [Hwf Hcf]. split; [|by eapply confined_mint]. eapply reg_step_wf; [by eapply runs_keys_Mint|done].
  - apply (reachable_confined opts wk cfg M U sh add created), star_refl.
Qed.
End life.

(** ** What a caller lends *)
Lemma Bundle_chain r1 r2 b1 b2 : Bundle r1 = Some b1 → Bundle r2 = Some b2 → b1 ⊆ b2 ∨ b2 ⊆ b1.
Proof.
  unfold Bundle, role_keep. intros Hb1 Hb2. repeat case_match; simplify_eq;
    first [left; apply bundle_of_mono; intros s Hs; cbn beta in *; first [done|by rewrite Hs]
          |right; apply bundle_of_mono; intros s Hs; cbn beta in *; first [done|by rewrite Hs]].
Qed.

(** Roles asked for that grant all of a principal's, or else some are within them. *)
Lemma asked_roles asked own x s :
  x ∈ ScopesForRoles asked → x ∉ ScopesForRoles (rolesWithin asked (ScopesForRoles own)) →
  s ∈ ScopesForRoles own → s ∈ ScopesForRoles asked.
Proof.
  intros (Hall & r & b & Hr & Hb & Hws)%elem_of_ScopesForRoles Hno Hs.
  pose proof Hs as (Hsa & r' & b' & Hr' & Hb' & Hs')%elem_of_ScopesForRoles.
  destruct (Bundle_chain r r' b b' Hb Hb') as [Hsub|Hsub].
  - destruct Hno. apply elem_of_ScopesForRoles. split; [done|]. exists r, b. split; [|done]. unfold rolesWithin.
    apply elem_of_bfilter. split; [done|]. rewrite Hb. apply forallb_forall'. intros y Hy. apply contains_true, elem_of_ScopesForRoles.
    split; [|exists r', b'; auto]. revert Hb Hy. unfold Bundle. destruct (role_keep r); [|discriminate].
    by intros <-%(inj Some) [? _]%elem_of_bundle_of.
  - apply elem_of_ScopesForRoles. split; [done|]. exists r, b. auto.
Qed.

Lemma empty_ceiling p s : callerCeiling p = [] → s ∈ pScopes p → s ∉ ScopesForRoles (pRoles p).
Proof.
  intros Hc Hs Hr. assert (s ∈ callerCeiling p) as Hx by (apply elem_of_bfilter; by rewrite contains_true).
  rewrite Hc in Hx. by apply not_elem_of_nil in Hx.
Qed.

(** A caller whose roles are its row's lends nothing it does not hold. *)
Lemma lends_roles d p prow a x : within_roles d p a → dbPrincipals d !! pID p = Some prow → pRoles p = spRoles prow →
  x ∈ pScopes p → x ≠ ScopeSignoutUI → lends d p.
Proof.
  intros (prow' & Hk & Hw) Hk' Hr Hs Hne Hc. assert (prow' = prow) as -> by congruence. destruct (empty_ceiling p _ Hc Hs).
  rewrite Hr. destruct (Hw _ Hs) as [?|[_ Heq]]; done.
Qed.

Lemma apikey_lends x c t1 t2 t3 cred d p d' : reg_wf d → confined d →
  apikey_Authenticate c t1 t2 t3 cred d = (Ok (Some p), d') → x ∈ pScopes p → x ≠ ScopeSignoutUI → lends d p.
Proof.
  intros Hwf Hcf Ha Hs Hne. pose proof (apikey_within _ _ _ _ _ _ _ _ Hwf Hcf Ha) as Hw. revert Ha. unfold apikey_Authenticate.
  destruct (str_eqb _ _); [discriminate|]. intros Ha. inv_auth Ha. destruct x0 as [q|].
  - apply ret_ok in Ha as [Ha ->]. apply (inj Some) in Ha as ->.
    apply configMatch_ok in Hs0 as (-> & hit & prow & _ & _ & Hp & _ & Hid & _ & Hro & Hsc).
    pose proof Hp as Hp'. rewrite <- (wf_principal_id _ Hwf _ _ Hp), <- Hid in Hp'.
    destruct (ckRoles hit) as [|r l]; [by eapply lends_roles|]. intros Hc row Hrow s Hin. assert (row = prow) as -> by congruence.
    pose proof (empty_ceiling q _ Hc Hs) as Hno. rewrite Hro in Hno. rewrite Hsc in Hs |- *.
    apply elem_of_intersectScopes in Hs as (_ & Hask & _). apply elem_of_intersectScopes.
    split; [by apply elem_of_ScopesForRoles in Hin as [? _]|]. split; [|done]. by apply (asked_roles (r :: l) (spRoles prow) x).
  - pose proof (reads_configMatch _ _ _ _ _ _ Hs0) as ->. inv_auth Ha. apply (inj Some) in Ha as ->. destruct x0 as [p i].
    apply keys_Verify_ok in Hs1 as (rec & k & irow & prow & _ & [_ _ _ Hp _] & _ & _ & ->).
    rewrite <- (wf_principal_id _ Hwf _ _ Hp) in Hp. by eapply lends_roles.
Qed.

Lemma session_lends x opts wk t1 t2 cred d p d' : reg_wf d → confined d →
  session_Authenticate opts wk t1 t2 cred d = (Ok (Some p), d') → x ∈ pScopes p → x ≠ ScopeSignoutUI → lends d p.
Proof.
  intros Hwf Hcf Ha Hs Hne. pose proof (session_within _ _ _ _ _ _ _ _ Hwf Hcf Ha) as Hw. revert Ha. unfold session_Authenticate.
  destruct (str_eqb _ _); [discriminate|]. destruct (negb _); [discriminate|].
  intros [Ha|(e & d1 & _ & Ha)]%handle_ok; [|destruct (is_invalid e); discriminate].
  inv_auth Ha. apply (inj Some) in Ha as ->. destruct x0 as [p sess].
  apply Authenticate_ok in Hs0 as (s & q & sc & sa & idl & Hact & _ & -> & _).
  apply active_ok in Hact as (_ & k & srow & i & prow & _ & _ & _ & [_ _ _ Hp _] & _ & E2 & _). cbn [fst snd] in *. subst q.
  rewrite <- (wf_principal_id _ Hwf _ _ Hp) in Hp. by eapply lends_roles.
Qed.

Lemma lends_ext d d' p : reg_ext d d' → within_roles d p true ∨ within_roles d p false → lends d p → lends d' p.
Proof.
  intros [Hp _ _] Hw Hl Hc row Hrow. assert (∃ prow, dbPrincipals d !! pID p = Some prow) as (prow & Hk).
  { by destruct Hw as [(prow & Hk & _)|(prow & Hk & _)]; exists prow. }
  destruct (Hp _ _ Hk) as (p' & Hp' & _ & _ & _ & Hr & _). assert (p' = row) as -> by congruence. rewrite Hr. by apply Hl.
Qed.

Lemma chain_lends x c cred d p n a d' : Forall builtin c → sound d → ascii_ids d' →
  chain_Authenticate c cred d = (Authenticated p n a, d') → x ∈ pScopes p → x ≠ ScopeSignoutUI → lends d' p.
Proof.
  intros Hc. revert d. induction Hc as [|m c Hm Hc IH]; intros d [Hwf Hcf] Ha; [discriminate|]. cbn [chain_Authenticate].
  destruct (mAuthenticate m cred d) as [[[q|]|e] d1] eqn:Hr; [| |discriminate]; pose proof (builtin_runs _ _ Hm _ _ _ Hr) as Hrun.
  - intros Heq. assert (q = p ∧ d1 = d') as (-> & ->) by (split; congruence). intros Hs Hne.
    apply reg_step_ext in Hrun. assert (confined d) as Hcd by (apply Hcf; by eapply ascii_ids_ext).
    apply (lends_ext d); [done|pose proof (builtin_within _ _ _ _ _ Hm Hwf Hcd Hr) as Hw; destruct (mAmbient m); auto|].
    destruct Hm as [(cfg & t1 & t2 & t3 & ->)|(opts & wk & t1 & t2 & ->)]; [exact (apikey_lends _ _ _ _ _ _ _ _ _ Hwf Hcd Hr Hs Hne)|exact (session_lends _ _ _ _ _ _ _ _ _ Hwf Hcd Hr Hs Hne)].
  - intros Heq Hs Hne. apply (IH d1); [|done..]. split; [by eapply reg_step_wf|]. by apply (builtin_confined m cred Hm _ _ _ Hr).
Qed.

Lemma chain_sound c cred d o d' : Forall builtin c → chain_Authenticate c cred d = (o, d') → sound d → sound d'.
Proof.
  intros Hc. revert d. induction Hc as [|m c Hm Hc IH]; intros d; cbn [chain_Authenticate]; [by intros [= _ <-]|].
  destruct (mAuthenticate m cred d) as [[[q|]|e] d1] eqn:Hr; intros Heq Hs;
    (assert (sound d1) as Hs1 by (eapply sound_run; [by apply builtin_runs|by apply builtin_confined|exact Hr|exact Hs]));
    [by injection Heq as _ <-|by apply (IH d1)|by injection Heq as _ <-].
Qed.

(** C10. Nothing the registry holds widens beyond the caller who asked: in every
    database that the credential code and these routes reach, after any request
    to list, create, bind, mint, suspend or revoke, each principal, identity, key
    and sign-in link can authenticate with the scopes it could before, or with
    scopes the caller itself holds. *)
Theorem nothing_widens opts wk cfg M U sh add created d0 c cred p n a d e rq r d' :
  star (life_step opts wk cfg M U sh add) (initDB created) d0 → Forall builtin c →
  chain_Authenticate c cred d0 = (Authenticated p n a, d) → HasScope (Some p) (request_scope rq) = true →
  ascii_ids d → fresh_key d (eKeyBytes e) → registry_route sessions signIn publicURL (Some p) e rq d = (r, d') →
  ∀ h s, carries d' h s → carries d h s ∨ s ∈ pScopes p.
Proof.
  intros Hlife Hc Ha Hs%contains_true Hids Hf Hr. apply life_sound in Hlife as Hs0.
  destruct (chain_sound _ _ _ _ _ Hc Ha Hs0) as [Hwf Hcf]. apply route_reaches in Hr as [->|[Hw _]]; [by left| |done].
  eapply shapes_widen, wrote_shapes; [done|done|by apply Hcf|done|done| |exact Hw].
  eapply chain_lends; [done|done|done|exact Ha|exact Hs|by destruct rq].
Qed.

(** What is [k]'s in the first registry is as it was in the second, and nothing
    else became [k]'s. *)
Record keeps_principal (k : string) (d d' : AuthDB) : Prop := {
  kp_row : dbPrincipals d' !! k = dbPrincipals d !! k;
  kp_identity : ∀ j i, idnPrincipalID i = k → dbIdentities d' !! j = Some i ↔ dbIdentities d !! j = Some i;
  kp_key : ∀ id rec, akPrincipal rec = k → key_at d' id rec ↔ key_at d id rec;
  kp_session : ∀ j s i, usPrincipalID s = k → dbIdentities d !! usIdentityID s = Some i → idnPrincipalID i = k →
    dbSessions d' !! j = Some s ↔ dbSessions d !! j = Some s;
  kp_ticket : ∀ h t, tkPrincipalID t = k → dbTickets d' !! h = Some t ↔ dbTickets d !! h = Some t;
}.

#[local] Instance keeps_principal_preorder k : PreOrder (keeps_principal k).
Proof.
  split; red; [by split|]. intros d d1 d2 [R1 I1 K1 S1 T1] [R2 I2 K2 S2 T2]. split.
  - by rewrite R2.
  - intros j i Hi. by rewrite I2, I1.
  - intros id rec Hr. by rewrite K2, K1.
  - intros j s i Hs Hi Hp. rewrite (S2 j s i), (S1 j s i); [done..| |done]. by apply I1.
  - intros h t Ht. by rewrite T2, T1.
Qed.

Section untouched.
Context {A : Type} (Q : A → Prop) (m : gmap string A).

Lemma insert_untouched k v j x : (∀ y, m !! k = Some y → ¬ Q y) → ¬ Q v → Q x → <[k := v]> m !! j = Some x ↔ m !! j = Some x.
Proof.
  intros Hk Hv Hx. destruct (decide (j = k)) as [->|Hne]; [|by rewrite lookup_insert_ne].
  rewrite lookup_insert_eq. split; [intros [= ->]|intros Hm; destruct (Hk _ Hm)]; done.
Qed.

Lemma update_row_untouched id c f j x :
  (∀ y, m !! id = Some y → ¬ Q y ∧ ¬ Q (f y)) → Q x → update_row id c f m !! j = Some x ↔ m !! j = Some x.
Proof.
  intros Hid Hx. rewrite lookup_update_row. destruct (m !! j) as [y|] eqn:Hj; [|done]. cbn.
  destruct (str_eqb j id) eqn:Hji; [apply str_eqb_true in Hji as ->|done]. destruct (Hid y Hj) as [Hy Hfy].
  destruct (c y); cbn; split; intros [= <-]; done.
Qed.

Lemma update_where_untouched c f j x :
  (∀ y, c y = true → ¬ Q y ∧ ¬ Q (f y)) → Q x → update_where c f m !! j = Some x ↔ m !! j = Some x.
Proof.
  intros Hc Hx. rewrite lookup_update_where. destruct (m !! j) as [y|]; [|done]. cbn.
  destruct (c y) eqn:Hy; [|done]. destruct (Hc y Hy). split; intros [= <-]; done.
Qed.
End untouched.

Lemma shape_keeps P q k d d' : k ≠ q → shape P q d d' → keeps_principal k d d'.
Proof.
  intros Hne [row Hn HP|c f Hf|ms|j i Hn Hq HP|j i ms Hj Hq|rec data Ha Hm Hq Hold Hs|j s c f Hj Hq Hf|h t Hn Hq HP]; split; try done; cbn.
  - by apply lookup_insert_ne.
  - by apply lookup_alter_ne.
  - by apply lookup_alter_ne.
  - intros j i. apply (update_where_untouched (λ i, idnPrincipalID i = k)). intros y [Hy%str_eqb_true _]%andb_true_iff. cbn. by rewrite Hy.
  - intros j s i Hs _ _. apply (update_where_untouched (λ s, usPrincipalID s = k)); [|done].
    intros y [Hy%str_eqb_true _]%andb_true_iff. cbn. by rewrite Hy.
  - intros x y Hy. apply (insert_untouched (λ i, idnPrincipalID i = k)); [by rewrite Hn|cbn; congruence|done].
  - intros x y Hy. apply (update_row_untouched (λ i, idnPrincipalID i = k)); [|done].
    intros z Hz. assert (z = i) as -> by congruence. cbn. split; congruence.
  - intros x s y Hs Hy Hp.
    apply (update_where_untouched (λ s, usPrincipalID s = k ∧ ∃ i, dbIdentities d !! usIdentityID s = Some i ∧ idnPrincipalID i = k)); [|by eauto].
    intros z [Hz%str_eqb_true _]%andb_true_iff. cbn. rewrite Hz. split; intros (_ & i' & Hi' & Hp'); congruence.
  - intros id rec' Hr. split; [intros [[-> ->]|[_ Hat]]%key_at_put; [congruence|done..]|].
    intros Hat. destruct (decide (id = akID rec)) as [->|Hid]; [|by apply key_at_put_other]. apply Hold in Hat. congruence.
  - intros x y z Hy _ _. apply (update_row_untouched (λ s, usPrincipalID s = k)); [|done].
    intros w Hw. assert (w = s) as -> by congruence. rewrite Hf. split; congruence.
  - intros x y Hy. apply (insert_untouched (λ t, tkPrincipalID t = k)); [by rewrite Hn|congruence|done].
Qed.

Lemma shapes_keep P q k d d' : k ≠ q → star (shape P q) d d' → keeps_principal k d d'.
Proof.
  intros Hne. induction 1 as [d|d d1 d2 Hs _ IH]; [done|]. transitivity d1; [by eapply shape_keeps|done].
Qed.

(** C11. An administrator reaches one principal, and the owner only as the owner; a
    route over oneself reaches its caller: everything that belongs to any other
    principal (its row, identities, keys, sessions and links) is left as it was,
    and nothing new becomes its own. *)
Theorem others_untouched opts wk cfg M U sh add created d who e rq r d' k :
  star (life_step opts wk cfg M U sh add) (initDB created) d → ascii_ids d → fresh_key d (eKeyBytes e) →
  registry_route sessions signIn publicURL who e rq d = (r, d') →
  k ≠ request_target (caller who) e rq ∨ k = OwnerPrincipal ∧ pID (caller who) ≠ OwnerPrincipal ∧ has_row (dbPrincipals d) OwnerPrincipal →
  keeps_principal k d d'.
Proof.
  intros Hlife Hids Hf Hr Hk. apply life_sound in Hlife as [Hwf Hcf].
  apply route_reaches in Hr as [->|[Hw Ho]]; [done| |done].
  assert (k ≠ request_target (caller who) e rq) as Hne.
  { destruct Hk as [?|(-> & Hp & [row Hrow])]; [done|]. intros Heq. destruct Ho as [?|?]; congruence. }
  apply (wrote_shapes (λ _, True)) in Hw; [|done|done|by apply Hcf|done..]. by eapply shapes_keep.
Qed.
End safety.

(** ** An instance: the owner mints a person's key, then suspends the person *)
#[local] Existing Instances ex_crypto ex_codec ex_codec_laws.
Definition ex_life : AuthDB → AuthDB → Prop :=
  life_step true None nostr ex_opts true [] (λ _ _, None) (λ _, None) None (λ _, Ok tt).
Definition ex_env : Env := mkEnv 50 51 52 53 "prn_2" "idn_2" "76543210" ex_secret "secret".
Definition ex_called : Outcome * AuthDB := chain_Authenticate ex_chain ex_cred ex_d2.
Definition ex_key_request : RegistryRequest :=
  RqCreatePrincipalKey "prn_1" (Some (mkCreateKey "phone" 3600 ZeroTime [ScopeReadObjects])).
Definition ex_route (p : Principal) : route Reply := registry_route true None nostr (Some p) ex_env ex_key_request.

Lemma ex_life2 : star ex_life (initDB 0) ex_d2.
Proof. generalize ex_steps2. induction 1; [apply star_refl|]. eapply star_step; [by apply life_api|done]. Qed.

Lemma ascii_ids_check d : forallb (λ kv, is_ascii kv.1) (map_to_list (dbPrincipals d)) = true → ascii_ids d.
Proof. rewrite forallb_forall'. intros Hf k p Hk. apply elem_of_map_to_list in Hk. by specialize (Hf _ Hk). Qed.

Definition ex_key_id : string := EncodeHex "76543210".

Lemma nothing_widens_witness :
  ∃ p n a d r d', ex_called = (Authenticated p n a, d) ∧ ex_route p d = (r, d') ∧ is_ok r = true ∧
    (∃ rec, key_at d' ex_key_id rec ∧ akPrincipal rec = "prn_1" ∧ akScopes rec = [ScopeReadObjects]) ∧
    ∀ h s, carries d' h s → carries d h s ∨ s ∈ pScopes p.
Proof.
  assert (Hok : match ex_called with
    | (Authenticated p _ _, d) =>
        HasScope (Some p) ScopeAdminPrincipals && forallb (λ kv, is_ascii kv.1) (map_to_list (dbPrincipals d)) &&
        bool_decide (dbKV d !! (apiKeyStorePrefix +:+ ex_key_id) = None) && is_ok (ex_route p d).1 &&
        match dbKV (ex_route p d).2 !! (apiKeyStorePrefix +:+ ex_key_id) with
        | Some x => match UnmarshalKey x with
                    | Some rec => bool_decide (akPrincipal rec = "prn_1"%string ∧ akScopes rec = [ScopeReadObjects])
                    | None => false
                    end
        | None => false
        end
    | _ => false
    end = true) by (vm_compute; reflexivity).
  destruct ex_called as [[p n a|e|b] d] eqn:Hs; [|discriminate Hok..].
  rewrite !andb_true_iff in Hok. destruct Hok as [[[[Hsc Hids] Hf] Hr] Hk].
  destruct (ex_route p d) as [r d'] eqn:Hrun. exists p, n, a, d, r, d'. split; [reflexivity|]. split; [exact Hrun|]. split; [exact Hr|]. split.
  - cbn [snd] in Hk. destruct (dbKV d' !! _) as [x|] eqn:Hx; [|discriminate Hk]. destruct (UnmarshalKey x) as [rec|] eqn:Hu; [|discriminate Hk].
    apply bool_decide_eq_true in Hk. exists rec. split; [exists x; split; [exact Hx|exact Hu]|exact Hk].
  - exact (nothing_widens true None nostr ex_opts true [] (λ _ _, None) (λ _, None) None (λ _, Ok tt) 0 ex_d2 ex_chain ex_cred p n a d
             ex_env ex_key_request r d' ex_life2 ex_builtin Hs Hsc (ascii_ids_check d Hids) (bool_decide_eq_true_1 _ Hf) Hrun).
Defined.

Definition ex_suspend : result HttpError Reply * AuthDB :=
  registry_route true None nostr None ex_env (RqSuspendPrincipal "prn_1") ex_d2.

Lemma others_untouched_witness :
  is_ok ex_suspend.1 = true ∧ spStatus <$> dbPrincipals ex_suspend.2 !! "prn_1" = Some PrincipalSuspended ∧
  keeps_principal OwnerPrincipal ex_d2 ex_suspend.2.
Proof.
  split; [vm_compute; reflexivity|]. split; [vm_compute; reflexivity|].
  apply (others_untouched true None nostr ex_opts true [] (λ _ _, None) (λ _, None) None (λ _, Ok tt) 0 ex_d2 None ex_env
           (RqSuspendPrincipal "prn_1") ex_suspend.1 ex_suspend.2 OwnerPrincipal ex_life2).
  - apply ascii_ids_check. vm_compute. reflexivity.
  - vm_compute. reflexivity.
  - apply surjective_pairing.
  - left. intros Heq. discriminate Heq.
Defined.

(** A lifetime of 293 years does not fit a duration: the key asked for would have
    expired long ago. *)
Example expiry_wraps : expiryOf 9223372037 ZeroTime 0 = Ok (wrap64 (9223372037 * Second)) ∧ (wrap64 (9223372037 * Second) < 0)%Z.
Proof. split; vm_compute; reflexivity. Qed.
