(* ===== verification/ShareRoutes.v ===== *)
(** * The sharing registry over the API

    Models [internal/server/http/handlers_share.go], [handlers_share_policies.go],
    [handlers_share_audit.go], [mintInvite] of [ui_ceremony.go], and what they use
    of [internal/sharing]: [templates.go], and [ParsePolicies] and [Spec] of
    [policy.go].  The routes read and write the stores of file SharingDB.  A
    request comes with its body and its query decoded ([None] for a body that is
    not JSON); the YAML of a policy document and the JSON of a spec are the class
    [GoDocs]; clocks, ids and random bytes are arguments.  The registry is wired,
    as it is in every router that serves requests ([ready]). *)

From S2P Require Import Prelude GoStrings Blobs JobStore Classes StorageScope Policy PolicyCompile Resolver Encodings AuthScopes AuthRegistry AuthInvariants AuthKeys AuthSessions SharingDB RegistryRoutes.

(** ** Templates *)
Definition TemplateColleagues : string := "colleagues-network".
Definition TemplatePartners : string := "partners-network".

Definition SearchFTS : string := "fts".
Definition SearchVector : string := "vector".
Definition SearchGraph : string := "graph".

Definition Templates : list Policy := [
  mkPolicy TemplateColleagues 0 "type==contact;tag=in=(work,client)" ["personal"]
    (<["contact" := ["title"; "org"; "role"; "tags"; "city"]]> {["*" := ["title"; "summary"; "tags"; "created_at"]]})
    (mkRedact ["email"; "phone"; "address"] [] RedactCategory)
    (mkCapabilities [SearchFTS; SearchVector] true false true false);
  mkPolicy TemplatePartners 0 "type==contact" ["personal"]
    {["contact" := ["title"; "org"; "role"; "email"; "phone"; "tags"; "city"]]}
    (mkRedact [] [] nostr)
    (mkCapabilities [SearchFTS; SearchVector; SearchGraph] true false true false)].

Definition Template (name : string) : option Policy := List.find (λ p, str_eqb (polName p) name) Templates.

(** ** Documents *)
(** [yaml_documents] is what [Decode] returns call by call until the end of the
    stream, [None] being the error that ends the loop; [MarshalPolicy] is
    [json.Marshal] of a policy. *)
Class GoDocs : Type := {
  yaml_documents : string → list (option Policy);
  MarshalPolicy : Policy → string;
}.

(** The version is not part of the JSON. *)
Definition unversioned (p : Policy) : Policy :=
  mkPolicy (polName p) 0 (polData p) (polExcludeClasses p) (polFields p) (polRedact p) (polCapabilities p).

(** YAML is UTF-8; a policy that validates, whose text is UTF-8, is written as a
    JSON object and read back as it was. *)
Class GoDocsLaws `{GoSpecs, GoDocs} : Prop := {
  yaml_text : ∀ s p, Some p ∈ yaml_documents s → ValidString (polData p) = true;
  spec_object : ∀ p, json_Valid (TrimSpace (MarshalPolicy p)) = true ∧ HasPrefix (TrimSpace (MarshalPolicy p)) "{" = true;
  spec_read_back : ∀ p, Validate p = [] → ValidString (polData p) = true → decodeSpec (MarshalPolicy p) = Some (unversioned p);
}.

Inductive DocumentError : Type :=
| DocumentDecode
| DocumentInvalid (errs : list PolicyError)
| NoDocument
| ManyDocuments (n : nat).

Section documents.
Context `{GoDocs}.

Fixpoint parse_each (l : list (option Policy)) : result DocumentError (list Policy) :=
  match l with
  | [] => Ok []
  | None :: _ => Err DocumentDecode
  | Some p :: l =>
      match Validate p with
      | [] => cons p <$> parse_each l
      | errs => Err (DocumentInvalid errs)
      end
  end.

Definition ParsePolicies (data : string) : result DocumentError (list Policy) :=
  out ← parse_each (yaml_documents data);
  match out with [] => Err NoDocument | _ => Ok out end.

Definition ParsePolicy (data : string) : result DocumentError Policy :=
  policies ← ParsePolicies data;
  match policies with
  | [p] => Ok p
  | l => Err (ManyDocuments (length l))
  end.

Definition Spec (p : Policy) : result DocumentError string :=
  match Validate p with
  | [] => Ok (MarshalPolicy p)
  | errs => Err (DocumentInvalid errs)
  end.
End documents.

(** ** Requests *)
Record expiryRequest : Type := mkExpiry { exIn : Z; exAt : Z }.
Definition expiry (req : expiryRequest) (now : Z) : result HttpError (option Z) :=
  at_ ← expiryOf (exIn req) (exAt req) now;
  Ok (if IsZero at_ then None else Some at_).

Record createGrantRequest : Type := mkGrantRequest { cgAudience : string; cgPolicy : string; cgExpiry : expiryRequest }.
Record inviteRequest : Type := mkInviteRequest { ivDisplayName : string; ivExpiresIn : Z; ivAudience : string }.
Record grantRecord : Type := mkGrantRecord { grGrant : ShareGrant; grAudience : string; grPolicy : string; grPolicyVersion : Z }.
Record keyPolicyRecord : Type := mkKeyPolicy { kpKeyID : string; kpIdentityID : string; kpPolicyID : string; kpPolicy : string }.

Definition defaultAuditLimit : Z := 100.
(** The [since] parameter as [time.Parse] and [time.ParseDuration] read it. *)
Inductive Since : Type :=
| SinceTime (t : Z)
| SinceDuration (dur : Z) (days : bool)
| SinceBad.
Definition parseSince (s : Since) (now : Z) : option Z :=
  match s with
  | SinceTime t => Some t
  | SinceDuration dur days =>
      if (dur <=? 0)%Z then None
      else Some (now - (if days then wrap64 (dur * 24) else dur))%Z
  | SinceBad => None
  end.

(** What a run reads of the clock, the id makers and the random source. *)
Record ShareEnv : Type := mkShareEnv { seNow : Z; seNow2 : Z; seID : string; seSecret : string }.

Inductive ShareReply : Type :=
| AudiencesBody (l : list (Audience * list AudienceMember))
| AudienceBody (status : Z) (a : Audience) (members : list AudienceMember)
| MemberBody (m : AudienceMember)
| PoliciesBody (l : list StoredPolicy)
| PolicyBody (status : Z) (p : StoredPolicy)
| TemplatesBody (l : list (string * Policy))
| GrantsBody (l : list grantRecord)
| GrantBody (g : grantRecord)
| CeilingBody (principalID : string) (classes : list string)
| KeyPolicyBody (r : keyPolicyRecord)
| AuditBody (l : list AccessEntry)
| InviteBody (url : string) (expiresAt : Z)
| ShareNoContent.

(** ** Runs *)
Definition sroute (A : Type) : Type := ShareDB → result HttpError A * ShareDB.
#[export] Instance sroute_ret : MRet sroute := λ A a d, (Ok a, d).
#[export] Instance sroute_bind : MBind sroute := λ A B f m d,
  match m d with
  | (Ok a, d') => f a d'
  | (Err e, d') => (Err e, d')
  end.

(** [writeRegistryError] of an error of the sharing stores. *)
Definition writeSharingError (e : SharingError) : HttpError :=
  match e with
  | ShNotFound => (404%Z, CodeNotFound)
  | ShExists => (409%Z, CodeAlreadyExists)
  | _ => (500%Z, "INTERNAL_ERROR"%string)
  end.

Definition attempt_share {A} (m : share A) (write : SharingError → HttpError) : sroute A := λ d,
  match m d with
  | (Ok a, d') => (Ok a, d')
  | (Err e, d') => (Err (write e), d')
  end.
Definition from_store {A} (m : share A) : sroute A := attempt_share m writeSharingError.
(** A call on the principal registry, and the guards the registry's routes share. *)
Definition on_auth {A} (m : route A) : sroute A := λ d,
  let (r, a) := m (shAuth d) in (r, set_auth a d).
Definition refuse_unless (b : bool) (e : HttpError) : sroute unit := λ d, (if b then Ok tt else Err e, d).
Definition answer_share {A} (r : result HttpError A) : sroute A := λ d, (r, d).
Definition decode_share {A} (body : option A) : sroute A :=
  answer_share (match body with Some a => Ok a | None => Err (bad "INVALID_REQUEST") end).

#[export] Instance share_ret : MRet share := λ A a d, (Ok a, d).
#[export] Instance share_bind : MBind share := λ A B f m d,
  match m d with
  | (Ok a, d') => f a d'
  | (Err e, d') => (Err e, d')
  end.

(** By id, then by name when no id matches. *)
Definition or_by_name {A} (get by_name : share A) : share A := λ d,
  match get d with
  | (Err ShNotFound, d') => by_name d'
  | r => r
  end.
Definition resolveAudienceIn (ref : string) : share Audience :=
  or_by_name (audience_Get (TrimSpace ref)) (audience_GetByName (TrimSpace ref)).
Definition resolveAudience (ref : string) : share Audience := resolveAudienceIn ref.
Definition resolvePolicy (ref : string) : share StoredPolicy :=
  or_by_name (policy_Get (TrimSpace ref)) (policy_GetByName (TrimSpace ref)).

Definition audienceRecordOf (a : Audience) : share (Audience * list AudienceMember) :=
  members ← ListMembers (auID a); mret (a, members).

Fixpoint audienceRecords (l : list Audience) : sroute (list (Audience * list AudienceMember)) :=
  match l with
  | [] => mret []
  | a :: l => rec ← from_store (audienceRecordOf a); out ← audienceRecords l; mret (rec :: out)
  end.

(** [grantRecords]: each audience and each policy is read once. *)
Fixpoint grantRecords (audiences : gmap string Audience) (policies : gmap string StoredPolicy) (l : list ShareGrant)
    : share (list grantRecord) :=
  match l with
  | [] => mret []
  | g :: l =>
      a ← match audiences !! sgAudienceID g with Some a => mret a | None => audience_Get (sgAudienceID g) end;
      p ← match policies !! sgPolicyID g with Some p => mret p | None => policy_Get (sgPolicyID g) end;
      out ← grantRecords (<[sgAudienceID g := a]> audiences) (<[sgPolicyID g := p]> policies) l;
      mret (mkGrantRecord g (auName a) (ppName p) (ppVersion p) :: out)
  end.

Section routes.
Context `{GoCrypto, KeyCodec, GoSpecs, GoDocs}.
Context (sessions : bool) (signIn : option (list string)) (publicURL : string).
Context (MarshalInvite : string → string → option string).

(** ** Audiences *)
Definition ListAudiences : sroute ShareReply :=
  l ← from_store audience_List; out ← audienceRecords l; mret (AudiencesBody out).

Definition CreateAudience (e : ShareEnv) (body : option string) : sroute ShareReply :=
  name ← decode_share body;
  _ ← refuse_unless (ValidateSharingName (TrimSpace name)) (bad "INVALID_REQUEST");
  a ← from_store (audience_Create (seNow e) (seID e) (mkAudience nostr (TrimSpace name) ZeroTime));
  mret (AudienceBody 201 a []).

Definition GetAudience (ref : string) : sroute ShareReply :=
  a ← from_store (resolveAudience ref);
  rec ← from_store (audienceRecordOf a);
  mret (AudienceBody 200 rec.1 rec.2).

Definition share_AddMember (p : Principal) (e : ShareEnv) (audience principal : string) (body : option expiryRequest) : sroute ShareReply :=
  req ← decode_share body;
  expiresAt ← answer_share (expiry req (seNow e));
  a ← from_store (resolveAudience audience);
  let id := TrimSpace principal in
  _ ← refuse_unless (negb (str_eqb id OwnerPrincipal)) (bad "INVALID_REQUEST");
  q ← on_auth (try_ (principal_Get id));
  _ ← refuse_unless (principal_Active q) (409%Z, CodePrincipalInactive);
  m ← from_store (AddMember (seNow2 e) (mkAudienceMember (auID a) (AuthRegistry.spID q) expiresAt (pID p) (seNow e)));
  mret (MemberBody m).

Definition share_RemoveMember (audience principal : string) : sroute ShareReply :=
  a ← from_store (resolveAudience audience);
  _ ← from_store (RemoveMember (auID a) (TrimSpace principal));
  mret ShareNoContent.

(** ** Policies *)
Definition readPolicyDocument (body : option string) : sroute Policy :=
  document ← decode_share body;
  _ ← refuse_unless (negb (str_eqb (TrimSpace document) nostr)) (bad "INVALID_REQUEST");
  answer_share (match ParsePolicy document with Ok p => Ok p | Err _ => Err (bad "INVALID_REQUEST") end).

Definition policy_spec (p : Policy) : sroute string :=
  answer_share (match Spec p with Ok s => Ok s | Err _ => Err (bad "INVALID_REQUEST") end).

Definition ListPolicies : sroute ShareReply := l ← from_store policy_List; mret (PoliciesBody l).

Definition storePolicy (e : ShareEnv) (p : Policy) : sroute ShareReply :=
  spec ← policy_spec p;
  row ← from_store (policy_Create (seNow e) (seID e) (mkStoredPolicy nostr (polName p) 0 spec ZeroTime));
  mret (PolicyBody 201 row).

Definition CreatePolicy (e : ShareEnv) (body : option string) : sroute ShareReply :=
  p ← readPolicyDocument body; storePolicy e p.

Definition GetPolicy (ref : string) : sroute ShareReply := row ← from_store (resolvePolicy ref); mret (PolicyBody 200 row).

Definition UpdatePolicy (e : ShareEnv) (ref : string) (body : option string) : sroute ShareReply :=
  row ← from_store (resolvePolicy ref);
  p ← readPolicyDocument body;
  _ ← refuse_unless (str_eqb (polName p) (ppName row)) (bad "INVALID_REQUEST");
  spec ← policy_spec p;
  updated ← from_store (policy_Update (ppID row) spec (seNow e));
  mret (PolicyBody 200 updated).

Definition ListTemplates : sroute ShareReply := mret (TemplatesBody (map (λ p, (polName p, p)) Templates)).

Definition InstallTemplate (e : ShareEnv) (name : string) : sroute ShareReply :=
  p ← answer_share (match Template (TrimSpace name) with Some p => Ok p | None => Err (404%Z, CodeNotFound) end);
  storePolicy e p.

(** ** Grants *)
Definition CreateGrant (p : Principal) (e : ShareEnv) (body : option createGrantRequest) : sroute ShareReply :=
  req ← decode_share body;
  expiresAt ← answer_share (expiry (cgExpiry req) (seNow e));
  _ ← refuse_unless (negb (str_eqb (TrimSpace (cgAudience req)) nostr)) (bad "INVALID_REQUEST");
  _ ← refuse_unless (negb (str_eqb (TrimSpace (cgPolicy req)) nostr)) (bad "INVALID_REQUEST");
  a ← from_store (resolveAudience (cgAudience req));
  pol ← from_store (resolvePolicy (cgPolicy req));
  g ← from_store (grant_Create (seNow2 e) (seID e) (mkShareGrant nostr (auID a) (ppID pol) expiresAt (pID p) (seNow e) None));
  mret (GrantBody (mkGrantRecord g (auName a) (ppName pol) (ppVersion pol))).

Definition ListGrants (e : ShareEnv) (principal audience policy include_revoked : string) : sroute ShareReply :=
  let who := TrimSpace principal in
  if negb (str_eqb who nostr) then
    active ← from_store (sh_ListActiveForPrincipal who (seNow e));
    mret (GrantsBody (map (λ j, mkGrantRecord (jgGrant j) (auName (jgAudience j)) (ppName (jgPolicy j)) (ppVersion (jgPolicy j))) active))
  else
    aid ← (if str_eqb audience nostr then mret nostr else a ← from_store (resolveAudience audience); mret (auID a));
    pid ← (if str_eqb policy nostr then mret nostr else p ← from_store (resolvePolicy policy); mret (ppID p));
    l ← from_store (grant_List (mkGrantFilter aid pid (str_eqb include_revoked "true")));
    out ← from_store (grantRecords ∅ ∅ l);
    mret (GrantsBody out).

Definition RevokeGrant (e : ShareEnv) (grant : string) : sroute ShareReply :=
  _ ← from_store (grant_Revoke (TrimSpace grant) (seNow e)); mret ShareNoContent.

(** ** Ceilings *)
Definition GetCeiling (id : string) : sroute ShareReply :=
  classes ← from_store (sh_DenyClasses (TrimSpace id)); mret (CeilingBody (TrimSpace id) classes).

Definition SetCeiling (id : string) (body : option (list string)) : sroute ShareReply :=
  req ← decode_share body;
  _ ← refuse_unless (is_ok (for_each ValidateClassName req)) (bad "INVALID_REQUEST");
  let classes := NormalizeClasses req in
  _ ← from_store (SetDenyClasses (TrimSpace id) classes);
  mret (CeilingBody (TrimSpace id) classes).

(** ** Key bindings *)
Definition bindKeyPolicy (keyID identityID : string) (body : option string) : sroute ShareReply :=
  req ← decode_share body;
  let ref := TrimSpace req in
  rec ← (if str_eqb ref nostr then mret (mkKeyPolicy keyID identityID nostr nostr)
         else p ← from_store (resolvePolicy ref); mret (mkKeyPolicy keyID identityID (ppID p) (ppName p)));
  _ ← from_store (BindIdentityPolicy identityID (kpPolicyID rec));
  mret (KeyPolicyBody rec).

Definition BindOwnKeyPolicy (p : Principal) (key : string) (body : option string) : sroute ShareReply :=
  info ← on_auth (try_ (keys_Get key));
  _ ← refuse_unless (IsSelf (Some p) (ikPrincipalID (kiKey info))) (403%Z, CodeNotSelf);
  bindKeyPolicy (ikID (kiKey info)) (ikIdentityID (kiKey info)) body.

Definition BindKeyPolicy (p : Principal) (key : string) (body : option string) : sroute ShareReply :=
  info ← on_auth (try_ (keys_Get key));
  _ ← on_auth (ownerGuard p (ikPrincipalID (kiKey info)));
  bindKeyPolicy (ikID (kiKey info)) (ikIdentityID (kiKey info)) body.

(** ** The read audit *)
Definition ListShareAudit (e : ShareEnv) (principal object : string) (since : option Since) (limit : option Z) : sroute ShareReply :=
  lim ← answer_share (match limit with
                      | None => Ok defaultAuditLimit
                      | Some n => if (1 <=? n)%Z && (n <=? 10000)%Z then Ok n else Err (bad "INVALID_PARAM")
                      end);
  from ← answer_share (match since with
                       | None => Ok ZeroTime
                       | Some s => match parseSince s (seNow e) with Some t => Ok t | None => Err (bad "INVALID_PARAM") end
                       end);
  l ← attempt_share (access_Query (mkAccessFilter (TrimSpace principal) (TrimSpace object) from ZeroTime lim)) (λ _, (500%Z, "INTERNAL_ERROR"%string));
  mret (AuditBody l).

(** ** Invites *)
Definition invite_error (e : AuthError) : HttpError :=
  match e with
  | ErrNoCredential => (401%Z, "UNAUTHORIZED"%string)
  | AuthInvalid _ => bad "INVALID_REQUEST"
  | _ => (500%Z, "INTERNAL_ERROR"%string)
  end.

Definition mintInvite (who : option Principal) (e : ShareEnv) (body : option inviteRequest) : sroute ShareReply :=
  _ ← on_auth (ceremonyOn sessions signIn "invite");
  req ← decode_share body;
  _ ← refuse_unless (0 <=? ivExpiresIn req)%Z (bad "INVALID_REQUEST");
  let ref := TrimSpace (ivAudience req) in
  aid ← (if str_eqb ref nostr then mret nostr
         else a ← attempt_share (resolveAudienceIn ref) (λ e, match e with ShNotFound => bad "INVALID_REQUEST" | _ => writeSharingError e end);
              mret (auID a));
  audiences ← (λ d, (Ok (λ id, bool_decide (is_Some (shAudiences d !! id))), d)) : sroute (string → bool);
  issued ← on_auth (attempt (MintInvite MarshalInvite (Some audiences) (seNow e) (seSecret e) who
                               (mkInvite (ivDisplayName req) aid (wrap64 (ivExpiresIn req * Second)))) invite_error);
  mret (InviteBody (link_url publicURL InvitePath issued) (isExpiresAt issued)).

(** ** The routes *)
Inductive ShareRequest : Type :=
| SqMintInvite (body : option inviteRequest)
| SqListAudiences
| SqCreateAudience (body : option string)
| SqGetAudience (audience : string)
| SqAddMember (audience principal : string) (body : option expiryRequest)
| SqRemoveMember (audience principal : string)
| SqListPolicies
| SqCreatePolicy (body : option string)
| SqGetPolicy (policy : string)
| SqUpdatePolicy (policy : string) (body : option string)
| SqListTemplates
| SqInstallTemplate (name : string)
| SqListGrants (principal audience policy include_revoked : string)
| SqCreateGrant (body : option createGrantRequest)
| SqRevokeGrant (grant : string)
| SqGetCeiling (id : string)
| SqSetCeiling (id : string) (body : option (list string))
| SqBindKeyPolicy (key : string) (body : option string)
| SqBindOwnKeyPolicy (key : string) (body : option string)
| SqListAudit (principal object : string) (since : option Since) (limit : option Z).

Definition share_scope (rq : ShareRequest) : AuthScopes.Scope :=
  match rq with
  | SqBindOwnKeyPolicy _ _ => ScopeWriteSelf
  | SqListAudit _ _ _ _ => ScopeAdminAudit
  | _ => ScopeAdminShares
  end.

Definition share_route (who : option Principal) (e : ShareEnv) (rq : ShareRequest) : sroute ShareReply :=
  let p := caller who in
  match rq with
  | SqMintInvite body => mintInvite who e body
  | SqListAudiences => ListAudiences
  | SqCreateAudience body => CreateAudience e body
  | SqGetAudience audience => GetAudience audience
  | SqAddMember audience principal body => share_AddMember p e audience principal body
  | SqRemoveMember audience principal => share_RemoveMember audience principal
  | SqListPolicies => ListPolicies
  | SqCreatePolicy body => CreatePolicy e body
  | SqGetPolicy policy => GetPolicy policy
  | SqUpdatePolicy policy body => UpdatePolicy e policy body
  | SqListTemplates => ListTemplates
  | SqInstallTemplate name => InstallTemplate e name
  | SqListGrants principal audience policy include_revoked => ListGrants e principal audience policy include_revoked
  | SqCreateGrant body => CreateGrant p e body
  | SqRevokeGrant grant => RevokeGrant e grant
  | SqGetCeiling id => GetCeiling id
  | SqSetCeiling id body => SetCeiling id body
  | SqBindKeyPolicy key body => BindKeyPolicy p key body
  | SqBindOwnKeyPolicy key body => BindOwnKeyPolicy p key body
  | SqListAudit principal object since limit => ListShareAudit e principal object since limit
  end.
End routes.
