(* ===== verification/ShareSafety.v ===== *)
(** * What the sharing routes promise

    Every policy the API stores is one a viewer can be compiled from, so no
    request is ever refused for a policy; a document stored over the API is the
    policy its viewers follow; and a route touches nothing of the principal
    registry, makes the owner nobody's guest, and binds only keys its caller may
    bind. *)

From S2P Require Import Prelude GoStrings Blobs JobStore Classes StorageScope Policy PolicyCompile ViewerSpec Resolver Encodings AuthScopes AuthRegistry AuthInvariants AuthKeys AuthSessions AuthSafety AuthConfinement Ulid SharingDB SharingSafety SharingEffect RegistryRoutes RegistrySafety ShareRoutes.

(** ** Runs *)
Definition sdoes (R : ShareDB → ShareDB → Prop) {A} (m : sroute A) : Prop := ∀ d r d', m d = (r, d') → R d d'.

Lemma sroute_bind_inv {A B} (m : sroute A) (f : A → sroute B) d r d' :
  (m ≫= f) d = (r, d') → (∃ e, m d = (Err e, d') ∧ r = Err e) ∨ ∃ a d1, m d = (Ok a, d1) ∧ f a d1 = (r, d').
Proof. exact (st_bind_inv m f d r d'). Qed.

Lemma share_bind_inv {A B} (m : share A) (f : A → share B) d r d' :
  (m ≫= f) d = (r, d') → (∃ e, m d = (Err e, d') ∧ r = Err e) ∨ ∃ a d1, m d = (Ok a, d1) ∧ f a d1 = (r, d').
Proof. exact (st_bind_inv m f d r d'). Qed.

Lemma attempt_share_inv {A} (m : share A) w d r d' : attempt_share m w d = (r, d') →
  ∃ r0, m d = (r0, d') ∧ ∀ a, r = Ok a → r0 = Ok a.
Proof. unfold attempt_share. destruct (m d) as [[a|e] d1]; intros [= <- <-]; eexists; (split; [done|]); naive_solver. Qed.

Definition reads_share {A} (m : share A) : Prop := ∀ d r d', m d = (r, d') → d' = d.

Section reads.
Lemma reads_share_ret {A} (a : A) : reads_share (mret a). Proof. by intros d r d' [= _ <-]. Qed.
Lemma reads_share_bind {A B} (m : share A) (f : A → share B) : reads_share m → (∀ a, reads_share (f a)) → reads_share (m ≫= f).
Proof. intros Hm Hf d r d' [(e & Hx & _)|(a & d1 & Hx & Hr)]%share_bind_inv; apply Hm in Hx as ->; [done|]. by eapply Hf. Qed.
Lemma reads_found {A} (scan : A → A) (get : ShareDB → option A) : reads_share (λ d, found_row scan (get d) d).
Proof. intros d r d'. unfold found_row. by destruct (get d); intros [= _ <-]. Qed.
Lemma reads_or_by_name {A} (m n : share A) : reads_share m → reads_share n → reads_share (or_by_name m n).
Proof.
  intros Hm Hn d r d'. unfold or_by_name. destruct (m d) as [[a|e] d1] eqn:Hx; apply Hm in Hx as ->; [by intros [= _ <-]|].
  destruct e; try (by intros [= _ <-]). apply Hn.
Qed.
Lemma reads_resolveAudience ref : reads_share (resolveAudience ref).
Proof. apply reads_or_by_name; apply (reads_found scanAudience). Qed.
Lemma reads_resolvePolicy ref : reads_share (resolvePolicy ref).
Proof. apply reads_or_by_name; apply (reads_found scanPolicy). Qed.
Lemma reads_audienceRecordOf a : reads_share (audienceRecordOf a).
Proof. apply reads_share_bind; [by intros d r d' [= _ <-]|intros; apply reads_share_ret]. Qed.
Lemma reads_grantRecords as_ ps l : reads_share (grantRecords as_ ps l).
Proof.
  revert as_ ps. induction l as [|g l IH]; intros; cbn [grantRecords]; [apply reads_share_ret|].
  apply reads_share_bind; [destruct (as_ !! _); [apply reads_share_ret|apply (reads_found scanAudience)]|intros a].
  apply reads_share_bind; [destruct (ps !! _); [apply reads_share_ret|apply (reads_found scanPolicy)]|intros p].
  apply reads_share_bind; [apply IH|intros; apply reads_share_ret].
Qed.
Lemma reads_sh_DenyClasses p : reads_share (sh_DenyClasses p).
Proof. intros d r d'. unfold sh_DenyClasses. by destruct (_ !! _); intros [= _ <-]. Qed.
End reads.

Section sdoes.
Context (R : ShareDB → ShareDB → Prop) `{!PreOrder R}.

Lemma sdoes_ret {A} (a : A) : sdoes R (mret a). Proof. by intros d r d' [= _ <-]. Qed.
Lemma sdoes_bind {A B} (m : sroute A) (f : A → sroute B) : sdoes R m → (∀ a, sdoes R (f a)) → sdoes R (m ≫= f).
Proof. exact (st_does_bind R m f). Qed.
Lemma sdoes_bind_post {A B} (P : A → Prop) (m : sroute A) (f : A → sroute B) :
  sdoes R m → (∀ d a d', m d = (Ok a, d') → P a) → (∀ a, P a → sdoes R (f a)) → sdoes R (m ≫= f).
Proof. exact (st_does_bind_post R P m f). Qed.
Lemma sdoes_answer {A} (x : result HttpError A) : sdoes R (answer_share x). Proof. by intros d r d' [= _ <-]. Qed.
Lemma sdoes_then {A B} (x : result HttpError A) (f : A → sroute B) :
  (∀ a, x = Ok a → sdoes R (f a)) → sdoes R (answer_share x ≫= f).
Proof. intros Hf d r d' [(e & [= _ <-] & _)|(a & d1 & [= Hx <-] & Hr)]%sroute_bind_inv; [done|]. by eapply Hf. Qed.
Lemma sdoes_guard {B} b e (f : unit → sroute B) : (b = true → sdoes R (f tt)) → sdoes R (refuse_unless b e ≫= f).
Proof. intros Hf. apply sdoes_then. intros [] Hx. apply Hf. by destruct b. Qed.
Lemma sdoes_attempt {A} (m : share A) w : (∀ d r d', m d = (r, d') → R d d') → sdoes R (attempt_share m w).
Proof. intros Hm d r d' (r0 & Hx & _)%attempt_share_inv. by eapply Hm. Qed.
Lemma sdoes_read {A} (m : share A) w : reads_share m → sdoes R (attempt_share m w).
Proof. intros Hm. apply sdoes_attempt. intros d r d' ->%Hm. reflexivity. Qed.
Lemma sdoes_on_auth {A} (m : route A) : (∀ a r a', m a = (r, a') → a' = a) → sdoes R (on_auth m).
Proof.
  intros Hm d r d'. unfold on_auth. destruct (m (shAuth d)) as [x a] eqn:Hx. apply Hm in Hx as ->. intros [= _ <-].
  rewrite set_auth_same. reflexivity.
Qed.
Lemma sdoes_if {A} (b : bool) (m n : sroute A) : sdoes R m → sdoes R n → sdoes R (if b then m else n).
Proof. by destruct b. Qed.
End sdoes.

(** ** The policies the API stores *)
Section sound.
Context `{GoCrypto, KeyCodec} `{GoDocsLaws}.

Definition policies_sound (d : ShareDB) : Prop := ∀ k pp, shPolicies d !! k = Some pp → ∃ po, policy_of pp = Ok po.

(** A policy under the name and the version of its row. *)
Definition row_policy (name : string) (version : Z) (p : Policy) : Policy :=
  mkPolicy name version (polData p) (polExcludeClasses p) (polFields p) (polRedact p) (polCapabilities p).

Lemma Validate_row p name version : Validate p = [] → ValidateSharingName name = true → Validate (row_policy name version p) = [].
Proof.
  rewrite !Validate_spec. intros (_ & Hd & Hr) Hn. split; [done|]. split; [|exact Hr]. destruct Hd as [n Hn']. by exists n.
Qed.

Lemma policy_of_stored p id name version ms :
  Validate p = [] → ValidString (polData p) = true → ValidateSharingName name = true →
  policy_of (mkStoredPolicy id name version (MarshalPolicy p) ms) = Ok (row_policy name version p).
Proof.
  intros Hv Hu Hn. unfold policy_of, PolicyFromSpec. cbn [as_policy spSpec spName spVersion ppSpec ppName ppVersion].
  rewrite spec_read_back by done. cbn. change (mkPolicy name version _ _ _ _ _) with (row_policy name version p).
  by rewrite Validate_row.
Qed.

(** A policy a viewer may be compiled from. *)
Definition good_policy (p : Policy) : Prop := Validate p = [] ∧ ValidString (polData p) = true.

Lemma parse_each_good l out : (∀ p, Some p ∈ l → ValidString (polData p) = true) → parse_each l = Ok out → Forall good_policy out.
Proof.
  revert out. induction l as [|[p|] l IH]; intros out Hl; cbn [parse_each]; [by intros [= <-]; constructor| |done].
  destruct (Validate p) eqn:Hv; [|done]. destruct (parse_each l) as [ps|] eqn:Hps; [|done]. intros [= <-].
  constructor; [split; [done|by apply Hl, elem_of_cons; left]|]. apply IH; [|done]. intros q Hq. apply Hl, elem_of_cons. by right.
Qed.

Lemma ParsePolicy_good s p : ParsePolicy s = Ok p → good_policy p.
Proof.
  unfold ParsePolicy, ParsePolicies. destruct (parse_each (yaml_documents s)) as [[|q [|q' l]]|e] eqn:Hp; cbn; try done.
  intros [= <-]. apply parse_each_good in Hp; [by inversion Hp|]. intros x. apply yaml_text.
Qed.

Lemma Templates_good : Forall good_policy Templates.
Proof. repeat constructor; vm_compute; reflexivity. Qed.

Lemma Template_good name p : Template name = Some p → good_policy p.
Proof.
  unfold Template. intros [Hin _]%find_some. pose proof Templates_good as Hg. rewrite Forall_forall in Hg. by apply Hg, list_elem_of_In.
Qed.

Lemma Spec_good p s : Spec p = Ok s → Validate p = [] ∧ s = MarshalPolicy p.
Proof. unfold Spec. destruct (Validate p); [|done]. by intros [= <-]. Qed.

(** ** What a route is made of *)
Definition keeps_sound (d d' : ShareDB) : Prop :=
  share_wf d → star share_step d d' ∧ (policies_sound d → policies_sound d').

Lemma share_steps_wf d d' : star share_step d d' → share_wf d → share_wf d'.
Proof. apply star_invariant. intros a b Hs Hwf. by eapply share_step_ok. Qed.

#[local] Instance keeps_sound_preorder : PreOrder keeps_sound.
Proof.
  split; red.
  - intros d _. split; [apply star_refl|done].
  - intros d d1 d2 Ha Hb Hwf. destruct (Ha Hwf) as [S1 P1]. destruct (Hb (share_steps_wf _ _ S1 Hwf)) as [S2 P2].
    split; [by eapply star_trans|auto].
Qed.

Lemma keeps_op {A} (m : share A) w : share_op A m → (∀ d r d', m d = (r, d') → shPolicies d' = shPolicies d) → sdoes keeps_sound (attempt_share m w).
Proof.
  intros Hop Hp. apply sdoes_attempt. intros d r d' Hm _. split.
  - eapply star_step; [by eapply share_step_op|apply star_refl].
  - intros Hs k pp. rewrite (Hp _ _ _ Hm). apply Hs.
Qed.

Ltac same_table := intros d r d'; unfold audience_Create, AddMember, RemoveMember, grant_Create, grant_Revoke, SetDenyClasses, BindIdentityPolicy;
  repeat case_match; by intros [= _ <-].

Lemma keeps_audience now id a w : sdoes keeps_sound (attempt_share (audience_Create now id a) w).
Proof. apply keeps_op; [constructor|same_table]. Qed.
Lemma keeps_AddMember now m w : sdoes keeps_sound (attempt_share (AddMember now m) w).
Proof. apply keeps_op; [constructor|same_table]. Qed.
Lemma keeps_RemoveMember a p w : sdoes keeps_sound (attempt_share (RemoveMember a p) w).
Proof. apply keeps_op; [constructor|same_table]. Qed.
Lemma keeps_grant now id g w : minted id → sgID g = nostr → sdoes keeps_sound (attempt_share (grant_Create now id g) w).
Proof. intros Hid Hg. apply keeps_op; [constructor; [done|by left]|same_table]. Qed.
Lemma keeps_grant_Revoke id t w : sdoes keeps_sound (attempt_share (grant_Revoke id t) w).
Proof. apply keeps_op; [constructor|same_table]. Qed.
Lemma keeps_deny p l w : sdoes keeps_sound (attempt_share (SetDenyClasses p l) w).
Proof. apply keeps_op; [constructor|same_table]. Qed.
Lemma keeps_bind i p w : sdoes keeps_sound (attempt_share (BindIdentityPolicy i p) w).
Proof. apply keeps_op; [constructor|same_table]. Qed.

Lemma keeps_policy_Create now id name v t p w : good_policy p →
  sdoes keeps_sound (attempt_share (policy_Create now id (mkStoredPolicy nostr name v (MarshalPolicy p) t)) w).
Proof.
  intros [Hv Hu]. apply sdoes_attempt. intros d r d' Hm _. split; [eapply star_step; [by eapply share_step_op; [apply op_policy_Create|]|apply star_refl]|].
  revert Hm. unfold policy_Create, PrepareNewSharePolicy. cbn [ppName ppSpec ppID ppUpdatedAt].
  destruct (ValidateSharingName (TrimSpace name)) eqn:Hn; [|by intros [= _ <-]].
  destruct (ValidatePolicySpec _) as [[]|]; [|by intros [= _ <-]]. cbn [mbind result_bind ppID ppName].
  destruct (shPolicies d !! _) eqn:Hk; [by intros [= _ <-]|]. destruct (named_row _ _ _); intros [= _ <-]; [done|].
  intros Hs k pp. cbn [shPolicies set_policies]. intros [[<- <-]|[_ Hpp]]%lookup_insert_Some; [|by apply (Hs k)].
  eexists. by apply policy_of_stored.
Qed.

Lemma keeps_policy_Update id now p w : good_policy p → sdoes keeps_sound (attempt_share (policy_Update id (MarshalPolicy p) now) w).
Proof.
  intros [Hv Hu]. apply sdoes_attempt. intros d r d' Hm _. split; [eapply star_step; [by eapply share_step_op; [apply op_policy_Update|]|apply star_refl]|].
  revert Hm. unfold policy_Update. destruct (ValidatePolicySpec _) as [[]|]; [|by intros [= _ <-]].
  destruct (shPolicies d !! id) as [old|] eqn:Ho; [|by intros [= _ <-]]. intros ->%policy_Get_same Hs k pp. cbn [shPolicies set_policies].
  intros [(-> & x & Hx & ->)|[_ Hk]]%lookup_alter_Some; [|by apply (Hs k)].
  destruct (Hs _ _ Hx) as (po & Hpo). eexists. apply policy_of_stored; [done|done|].
  unfold policy_of, PolicyFromSpec in Hpo. cbn in Hpo. destruct (decodeSpec _) in Hpo; [|done].
  destruct (Validate _) eqn:Hvx in Hpo; [|done]. by apply Validate_spec in Hvx as [? _].
Qed.

(** ** Every route *)
Lemma MintInvite_state M sh now secret who inv a r a' : MintInvite M sh now secret who inv a = (r, a') →
  a' = a ∨ ∃ t r0, ticket_Issue now secret t a = (r0, a').
Proof.
  unfold MintInvite. destruct who as [p|]; [|intros [= _ <-]; by left]. destruct (str_eqb _ _); [intros [= _ <-]; by left|].
  destruct (_ <? 0)%Z; [intros [= _ <-]; by left|].
  intros [(e & Hx & _)|(u & a1 & Hx & Hr)]%bind_inv; assert (Hstay : ∀ r1 a1, (if str_eqb (invAudienceID inv) nostr then mret tt
       else match sh with None => throw (AuthInvalid "no sharing registry") | Some audiences => check (audiences (invAudienceID inv)) ErrNotFound end : auth unit) a = (r1, a1) → a1 = a).
  1,3: intros r1 a2; destruct (str_eqb _ _); [by intros [= _ <-]|]; destruct sh; [apply reads_check|by intros [= _ <-]].
  - left. by eapply Hstay.
  - apply Hstay in Hx as ->. destruct (M _ _); [|injection Hr as _ <-; by left]. right.
    apply bind_inv in Hr as [(e & Ht & _)|(x & a1 & Ht & Hr)]; [eauto|]. apply ret_inv in Hr as [_ ->]. eauto.
Qed.

Lemma ticket_Issue_rows now secret t a r a' : ticket_Issue now secret t a = (r, a') → ∃ m, a' = set_tickets m a.
Proof.
  unfold ticket_Issue. repeat case_match; intros [= _ <-]; try (exists (dbTickets a); by destruct a). by eexists.
Qed.

Lemma keeps_invite M sh now secret who inv w : sdoes keeps_sound (on_auth (attempt (MintInvite M sh now secret who inv) w)).
Proof.
  intros d r d'. unfold on_auth. destruct (attempt _ _ (shAuth d)) as [x a] eqn:Hx. intros [= _ <-] Hwf. split; [|done].
  apply attempt_inv in Hx as (r0 & Hx & _). apply MintInvite_state in Hx as [->|(t & r1 & Ht)]; [rewrite set_auth_same; apply star_refl|].
  eapply star_step; [|apply star_refl]. apply share_step_auth; [by eapply (reg_step_intro _ _ _ (ticket_Issue now secret t)); [apply op_plain, op_ticket_Issue|]|].
  destruct (ticket_Issue_rows _ _ _ _ _ _ Ht) as [m ->]. apply (wf_minted _ Hwf).
Qed.

Lemma route_reads {A} (m : auth A) w : reads_only m → ∀ a r a', attempt m w a = (r, a') → a' = a.
Proof. intros Hm a r a' (r0 & Hx & _)%attempt_inv. by eapply Hm. Qed.

Context (sessions : bool) (signIn : option (list string)) (publicURL : string) (MarshalInvite : string → string → option string).

Ltac ss := first [ apply sdoes_guard; [apply _|intros ?Hg] | apply sdoes_then; [apply _|intros ?a ?Ha] ].
Ltac sb := apply sdoes_bind; [apply _| |intros ?a].
Ltac sread lem := sb; [apply sdoes_read; [apply _|apply lem]|].
Ltac sret := first [apply sdoes_ret; apply _ | apply sdoes_answer; apply _].

Lemma readPolicyDocument_ok body d p d' : readPolicyDocument body d = (Ok p, d') → good_policy p.
Proof.
  unfold readPolicyDocument, decode_share. intros [(e & _ & ?)|(s & d1 & _ & Hx)]%sroute_bind_inv; [done|].
  apply sroute_bind_inv in Hx as [(e & _ & ?)|(u & d2 & _ & Hx)]; [done|]. injection Hx as Hx _.
  destruct (ParsePolicy s) as [q|] eqn:Hp; [|done]. injection Hx as ->. by eapply ParsePolicy_good.
Qed.

Lemma guard_reads b e a r a' : (guard_ b e : route unit) a = (r, a') → a' = a. Proof. by intros [= _ <-]. Qed.

(** A relation that every statement a route may make keeps, and the routes that
    look at whom they are about. *)
Section every_route.
Context (R : ShareDB → ShareDB → Prop) `{!PreOrder R} (who : option Principal) (e : ShareEnv).
Hypothesis Raudience : ∀ now id a w, sdoes R (attempt_share (audience_Create now id a) w).
Hypothesis Rremove : ∀ a p w, sdoes R (attempt_share (RemoveMember a p) w).
Hypothesis Rcreate : ∀ now id name v t p w, good_policy p →
  sdoes R (attempt_share (policy_Create now id (mkStoredPolicy nostr name v (MarshalPolicy p) t)) w).
Hypothesis Rupdate : ∀ id now p w, good_policy p → sdoes R (attempt_share (policy_Update id (MarshalPolicy p) now) w).
Hypothesis Rgrant : ∀ now g w, sgID g = nostr → sdoes R (attempt_share (grant_Create now (seID e) g) w).
Hypothesis Rrevoke : ∀ id t w, sdoes R (attempt_share (grant_Revoke id t) w).
Hypothesis Rdeny : ∀ p l w, sdoes R (attempt_share (SetDenyClasses p l) w).
Hypothesis Rinvite : ∀ M sh now secret inv w, sdoes R (on_auth (attempt (MintInvite M sh now secret who inv) w)).
Hypothesis Radd : ∀ a p body, sdoes R (share_AddMember (caller who) e a p body).
Hypothesis Rbind : ∀ key body, sdoes R (BindKeyPolicy (caller who) key body).
Hypothesis Rbind_own : ∀ key body, sdoes R (BindOwnKeyPolicy (caller who) key body).

Lemma does_document body : sdoes R (readPolicyDocument body).
Proof using All. unfold readPolicyDocument, decode_share. ss. ss. sret. Qed.

Lemma does_storePolicy p : good_policy p → sdoes R (storePolicy e p).
Proof using All.
  intros Hp. unfold storePolicy, policy_spec. ss. destruct (Spec p) as [s|] eqn:Hs; [|done]. injection Ha as ->.
  apply Spec_good in Hs as [_ ->]. sb; [by apply Rcreate|sret].
Qed.

Lemma does_UpdatePolicy ref body : sdoes R (UpdatePolicy e ref body).
Proof using All.
  unfold UpdatePolicy, policy_spec. sread reads_resolvePolicy.
  eapply sdoes_bind_post; [apply _|apply does_document|apply readPolicyDocument_ok|intros p Hp]. ss. ss.
  destruct (Spec p) as [s|] eqn:Hs; [|done]. injection Ha as ->. apply Spec_good in Hs as [_ ->].
  sb; [by apply Rupdate|sret].
Qed.

Lemma does_records l : sdoes R (audienceRecords l).
Proof using All. induction l as [|a l IH]; cbn [audienceRecords]; [sret|]. sread reads_audienceRecordOf. sb; [done|sret]. Qed.

Lemma route_does rq : sdoes R (share_route sessions signIn publicURL MarshalInvite who e rq).
Proof using All.
  destruct rq; cbn [share_route]; auto using does_UpdatePolicy.
  - unfold mintInvite, decode_share. sb; [apply sdoes_on_auth; [apply _|apply guard_reads]|]. ss. ss. sb.
    + apply sdoes_if; [sret|]. sread reads_resolveAudience. sret.
    + sb; [by intros d r d' [= _ <-]|]. sb; [apply Rinvite|sret].
  - unfold ListAudiences. sb; [apply sdoes_read; [apply _|by intros d r d' [= _ <-]]|]. sb; [apply does_records|sret].
  - unfold CreateAudience, decode_share. ss. ss. sb; [apply Raudience|sret].
  - unfold GetAudience. sread reads_resolveAudience. sread reads_audienceRecordOf. sret.
  - unfold share_RemoveMember. sread reads_resolveAudience. sb; [apply Rremove|sret].
  - unfold ListPolicies. sb; [apply sdoes_read; [apply _|by intros d r d' [= _ <-]]|sret].
  - eapply sdoes_bind_post; [apply _|apply does_document|apply readPolicyDocument_ok|intros p Hp]. by apply does_storePolicy.
  - unfold GetPolicy. sread reads_resolvePolicy. sret.
  - sret.
  - unfold InstallTemplate. ss. destruct (Template (TrimSpace name)) eqn:Ht; [|done]. injection Ha as ->.
    by apply does_storePolicy, (Template_good (TrimSpace name)).
  - unfold ListGrants. apply sdoes_if.
    + sb; [apply sdoes_read; [apply _|by intros d r d' [= _ <-]]|sret].
    + sb; [apply sdoes_if; [sret|sread reads_resolveAudience; sret]|]. sb; [apply sdoes_if; [sret|sread reads_resolvePolicy; sret]|].
      sb; [apply sdoes_read; [apply _|by intros d r d' [= _ <-]]|]. sread reads_grantRecords. sret.
  - unfold CreateGrant, decode_share. ss. ss. ss. ss. sread reads_resolveAudience. sread reads_resolvePolicy.
    sb; [by apply Rgrant|sret].
  - unfold RevokeGrant. sb; [apply Rrevoke|sret].
  - unfold GetCeiling. sread reads_sh_DenyClasses. sret.
  - unfold SetCeiling, decode_share. ss. ss. sb; [apply Rdeny|sret].
  - unfold ListShareAudit. ss. ss. sb; [apply sdoes_read; [apply _|by intros d r d' [= _ <-]]|sret].
Qed.
End every_route.

Lemma keeps_bindKeyPolicy k i body : sdoes keeps_sound (bindKeyPolicy k i body).
Proof.
  unfold bindKeyPolicy, decode_share, from_store. ss. sb.
  - apply sdoes_if; [sret|]. sread reads_resolvePolicy. sret.
  - sb; [apply keeps_bind|sret].
Qed.

(** Every route is a run of the registry's statements, and keeps its policies
    ones that compile. *)
Lemma route_keeps who e rq : minted (seID e) →
  sdoes keeps_sound (share_route sessions signIn publicURL MarshalInvite who e rq).
Proof.
  intros Hid. apply route_does; auto using keeps_audience, keeps_RemoveMember, keeps_policy_Create, keeps_policy_Update,
    keeps_grant, keeps_grant_Revoke, keeps_deny, keeps_invite; [apply _|intros a p body|intros key body..].
  - unfold share_AddMember, decode_share. ss. ss. sread reads_resolveAudience. ss.
    sb; [apply sdoes_on_auth; [apply _|apply route_reads, reads_principal_Get]|]. ss. sb; [apply keeps_AddMember|sret].
  - unfold BindKeyPolicy. sb; [apply sdoes_on_auth; [apply _|apply route_reads, reads_keys_Get]|].
    sb; [apply sdoes_on_auth; [apply _|apply guard_reads]|]. apply keeps_bindKeyPolicy.
  - unfold BindOwnKeyPolicy. sb; [apply sdoes_on_auth; [apply _|apply route_reads, reads_keys_Get]|]. ss. apply keeps_bindKeyPolicy.
Qed.

(** ** The server's registry *)

(** The sharing routes; what authentication, the registry's routes and the
    ceremonies do to the principal registry; the membership an accepted invite
    brings; the read audit; and requests resolved in between. *)
Inductive shared_step : ShareDB * Resolver → ShareDB * Resolver → Prop :=
| shared_route who e rq d r a d' :
    minted (seID e) → share_route sessions signIn publicURL MarshalInvite who e rq d = (a, d') → shared_step (d, r) (d', r)
| shared_auth d a r : reg_step (shAuth d) a → minted_ids a → shared_step (d, r) (set_auth a d, r)
| shared_accept now m d r a d' : AddMember now m d = (a, d') → shared_step (d, r) (d', r)
| shared_audit now l d r a d' : access_Append now l d = (a, d') → shared_step (d, r) (d', r)
| shared_prune t d r a d' : access_Prune t d = (a, d') → shared_step (d, r) (d', r)
| shared_resolve d r p kind id now : shared_step (d, r) (d, (Resolve r d p kind id now).2)
| shared_invalidate d r : shared_step (d, r) (d, Invalidate r).

Definition shared_inv (s : ShareDB * Resolver) : Prop := sys_reachable s ∧ policies_sound s.1.

Lemma sys_reachable_steps d d' r : star share_step d d' → sys_reachable (d, r) → sys_reachable (d', r).
Proof.
  induction 1 as [d|d d1 d2 Hs _ IH]; [done|]. intros [c Hr]. apply IH. exists c.
  eapply star_trans; [exact Hr|]. eapply star_step; [by apply sys_registry|apply star_refl].
Qed.

Lemma shared_op {A} (m : share A) d r a d' :
  share_op A m → m d = (a, d') → shPolicies d' = shPolicies d → shared_inv (d, r) → shared_inv (d', r).
Proof.
  intros Hop Hm Hp [Hr Hs]. split; [eapply sys_reachable_steps; [eapply star_step; [by eapply share_step_op|apply star_refl]|done]|].
  intros k pp. cbn [fst]. rewrite Hp. apply Hs.
Qed.

Lemma shared_step_inv s s' : shared_step s s' → shared_inv s → shared_inv s'.
Proof.
  intros [who e rq d r a d' Hid Hr|d a r Hstep Hm|now m d r a d' Hm|now l d r a d' Hm|t d r a d' Hm|d r p kind id now|d r].
  - intros [Hreach Hs]. pose proof Hreach as [Hwf _]%sys_reachable_inv. apply (route_keeps who e rq Hid) in Hr.
    destruct (Hr Hwf) as [Hst Hp]. split; [by eapply sys_reachable_steps|by apply Hp].
  - intros [Hreach Hs]. split; [|done]. eapply sys_reachable_steps; [|done].
    eapply star_step; [by apply share_step_auth|apply star_refl].
  - apply (shared_op (AddMember now m) d r a d'); [constructor|done|]. revert Hm. unfold AddMember. repeat case_match; by intros [= _ <-].
  - apply (shared_op (access_Append now l) d r a d'); [constructor|done|]. revert Hm. unfold access_Append. repeat case_match; by intros [= _ <-].
  - apply (shared_op (access_Prune t) d r a d'); [constructor|done|]. by injection Hm as _ <-.
  - intros [[c Hreach] Hs]. split; [|done]. exists c. eapply star_trans; [exact Hreach|]. eapply star_step; [apply sys_resolve|apply star_refl].
  - intros [[c Hreach] Hs]. split; [|done]. exists c. eapply star_trans; [exact Hreach|]. eapply star_step; [apply sys_invalidate|apply star_refl].
Qed.

Definition shared_reachable (s : ShareDB * Resolver) : Prop :=
  ∃ created, star shared_step (initShare (initDB created), NewResolver) s.

Lemma shared_reachable_inv s : shared_reachable s → shared_inv s.
Proof.
  intros [c Hs]. eapply star_invariant; [exact shared_step_inv|exact Hs|]. split; [exists c; apply star_refl|].
  intros k pp Hk. cbn in Hk. by rewrite lookup_empty in Hk.
Qed.

(** C12. No request is refused for what the registry holds.  In every state of a server
    whose policies were written through the API or installed from the templates,
    after any requests, edits, failures, authentications and resolutions, every
    restricted principal's request gets a viewer, and that viewer sees exactly the
    rows the tables grant it at that instant. *)
Theorem every_viewer_resolves d r p kind id now :
  shared_reachable (d, r) → kind ≠ PrincipalKindOwner →
  ∃ v, (Resolve r d p kind id now).1 = Ok v ∧
    ∀ row, sees v row = true ↔ granted d p (toMillis now) row ∧ below_ceiling d p row ∧ key_admits d id row.
Proof.
  intros [Hr Hs]%shared_reachable_inv Hk. destruct (reachable_fresh d r p kind id now Hr) as [Hwf Hf]. rewrite Hf.
  destruct (fresh_total d p kind id now Hwf Hk) as [v Hv].
  - intros g a pp [_ _ _ Hpp]. by apply (Hs _ _ Hpp).
  - intros pid pp _ Hpp. by apply (Hs _ _ Hpp).
  - exists v. split; [done|]. intros row. by eapply fresh_sees.
Qed.

(** ** What a route leaves alone *)
Definition same_registry (a a' : AuthDB) : Prop :=
  dbPrincipals a' = dbPrincipals a ∧ dbIdentities a' = dbIdentities a ∧ dbKV a' = dbKV a ∧
  dbSessions a' = dbSessions a ∧ dbCodes a' = dbCodes a.

#[local] Instance same_registry_preorder : PreOrder same_registry.
Proof. split; red; unfold same_registry; [done|]. intros a b c (?&?&?&?&?) (?&?&?&?&?). repeat split; congruence. Qed.

(** The key bindings that moved are of identities in [B]. *)
Record leaves (B : Identity → Prop) (d d' : ShareDB) : Prop := {
  lv_registry : same_registry (shAuth d) (shAuth d');
  lv_owner : ∀ a m, shMembers d' !! (a, OwnerPrincipal) = Some m → shMembers d !! (a, OwnerPrincipal) = Some m;
  lv_bindings : ∀ j, shKeyPolicy d' !! j ≠ shKeyPolicy d !! j → ∃ i, dbIdentities (shAuth d) !! j = Some i ∧ B i;
}.

Definition keeps_rest (B : Identity → Prop) (d d' : ShareDB) : Prop := share_wf d → share_wf d' ∧ leaves B d d'.

#[local] Instance leaves_preorder B : PreOrder (leaves B).
Proof.
  split; red; [by split; [reflexivity|auto|]; intros|]. intros d d1 d2 [R1 O1 B1] [R2 O2 B2]. split.
  - by transitivity (shAuth d1).
  - intros a m Hm. by apply O1, O2.
  - intros j Hj. destruct (decide (shKeyPolicy d1 !! j = shKeyPolicy d !! j)) as [He|He]; [|by apply B1].
    rewrite <- He in Hj. apply B2 in Hj as (i & Hi & Hb). exists i. split; [|done]. destruct R1 as (_ & Hr & _). by rewrite <- Hr.
Qed.

#[local] Instance keeps_rest_preorder B : PreOrder (keeps_rest B).
Proof.
  split; red; unfold keeps_rest; [by intros d Hwf; split; [|reflexivity]|]. intros d d1 d2 Ha Hb Hwf.
  destruct (Ha Hwf) as [Hwf1 L1]. destruct (Hb Hwf1) as [Hwf2 L2]. split; [done|by transitivity d1].
Qed.

Lemma rest_op B {A} (m : share A) w : share_op A m →
  (∀ d r d', m d = (r, d') → shAuth d' = shAuth d ∧ shKeyPolicy d' = shKeyPolicy d ∧
     ∀ a x, shMembers d' !! (a, OwnerPrincipal) = Some x → shMembers d !! (a, OwnerPrincipal) = Some x) →
  sdoes (keeps_rest B) (attempt_share m w).
Proof.
  intros Hop Hm. apply sdoes_attempt. intros d r d' Hx Hwf. split; [by eapply share_op_wf|].
  destruct (Hm _ _ _ Hx) as (Ha & Hk & Ho). split; [by rewrite Ha|done|]. intros j. by rewrite Hk.
Qed.

Ltac rest_table := intros d r d'; unfold audience_Create, grant_Create, grant_Revoke, SetDenyClasses, policy_Create, policy_Update;
  repeat case_match; try (intros ->%policy_Get_same); try (intros [= _ <-]); done.

Lemma rest_remove B a p w : sdoes (keeps_rest B) (attempt_share (RemoveMember a p) w).
Proof.
  apply rest_op; [constructor|]. intros d r d'. unfold RemoveMember. destruct (_ !! _); intros [= _ <-]; [|done].
  split; [done|]. split; [done|]. cbn. by intros a' x [_ Hx]%lookup_delete_Some.
Qed.

Lemma rest_invite B who M sh now secret inv w : sdoes (keeps_rest B) (on_auth (attempt (MintInvite M sh now secret who inv) w)).
Proof.
  intros d r d' Hx Hwf. pose proof (keeps_invite _ _ _ _ _ _ _ _ _ _ Hx Hwf) as [Hst _]. split; [by eapply share_steps_wf|].
  revert Hx. unfold on_auth. destruct (attempt _ _ (shAuth d)) as [x a] eqn:Hx. intros [= _ <-].
  apply attempt_inv in Hx as (r0 & Hx & _). split; [|done..]. apply MintInvite_state in Hx as [->|(t & r1 & Ht)]; [done|].
  by destruct (ticket_Issue_rows _ _ _ _ _ _ Ht) as [m ->].
Qed.

Lemma on_auth_inv {A} (m : route A) d r d' : on_auth m d = (r, d') → ∃ a, m (shAuth d) = (r, a) ∧ d' = set_auth a d.
Proof. unfold on_auth. destruct (m (shAuth d)) as [x a]. intros [= <- <-]. eauto. Qed.

Lemma on_auth_read {A} (m : auth A) w d r d' : reads_only m → on_auth (attempt m w) d = (r, d') →
  d' = d ∧ ∀ a, r = Ok a → m (shAuth d) = (Ok a, shAuth d).
Proof.
  intros Hm (a & Hx & ->)%on_auth_inv. apply attempt_inv in Hx as (r0 & Hx & Hok). pose proof (Hm _ _ _ Hx) as ->.
  split; [apply set_auth_same|]. intros y Hy. by rewrite (Hok y Hy) in Hx.
Qed.

Lemma stays_then {A B} (m : sroute A) (f : A → sroute B) d r d' :
  (∀ r1 d1, m d = (r1, d1) → d1 = d) → (m ≫= f) d = (r, d') → d' = d ∨ ∃ a, m d = (Ok a, d) ∧ f a d = (r, d').
Proof.
  intros Hm [(e & Hx & _)|(a & d1 & Hx & Hr)]%sroute_bind_inv; pose proof (Hm _ _ Hx) as ->; [by left|right; eauto].
Qed.

Lemma answer_share_stays {A} (x : result HttpError A) d r1 d1 : answer_share x d = (r1, d1) → d1 = d. Proof. by intros [= _ <-]. Qed.
Lemma refuse_stays b e d r1 d1 : refuse_unless b e d = (r1, d1) → d1 = d. Proof. by intros [= _ <-]. Qed.
Lemma stored_stays {A} (m : share A) w d r1 d1 : reads_share m → attempt_share m w d = (r1, d1) → d1 = d.
Proof. intros Hm (r0 & Hx & _)%attempt_share_inv. by eapply Hm. Qed.

Lemma rest_AddMember B p e a pr body : sdoes (keeps_rest B) (share_AddMember p e a pr body).
Proof.
  intros d r d' Hr Hwf. unfold share_AddMember, decode_share in Hr.
  apply stays_then in Hr as [->|(req & _ & Hr)]; [done| |apply answer_share_stays].
  apply stays_then in Hr as [->|(at_ & _ & Hr)]; [done| |apply answer_share_stays].
  apply stays_then in Hr as [->|(au & _ & Hr)]; [done| |by intros r1 d1; apply stored_stays, reads_resolveAudience].
  apply stays_then in Hr as [->|([] & Ho & Hr)]; [done| |apply refuse_stays].
  apply stays_then in Hr as [->|(q & Hq & Hr)]; [done| |by intros r1 d1 [? _]%(on_auth_read _ _ _ _ _ (reads_principal_Get _))].
  apply stays_then in Hr as [->|(u & _ & Hr)]; [done| |apply refuse_stays].
  apply on_auth_read in Hq as [_ Hq]; [|apply reads_principal_Get]. specialize (Hq q eq_refl).
  apply principal_Get_ok in Hq as (_ & row & Hrow & ->). cbn [AuthRegistry.spID scanPrincipal sp_times] in Hr.
  rewrite (wf_principal_id _ (wf_auth _ Hwf) _ _ Hrow) in Hr.
  assert (Hne : TrimSpace pr ≠ OwnerPrincipal).
  { intros Heq. rewrite Heq in Ho. discriminate. }
  assert (∃ r1, AddMember (seNow2 e) (mkAudienceMember (auID au) (TrimSpace pr) at_ (pID p) (seNow e)) d = (r1, d')) as (r1 & Hm).
  { apply sroute_bind_inv in Hr as [(e0 & Hx & _)|(m & d1 & Hx & [= _ <-])]; apply attempt_share_inv in Hx as (r0 & Hx & _); eauto. }
  split; [by eapply share_op_wf; [apply op_AddMember|exact Hm|]|].
  assert (d' = d ∨ ∃ x, d' = set_members (<[(auID au, TrimSpace pr) := x]> (shMembers d)) d) as [->|(x & ->)].
  { revert Hm. unfold AddMember, PrepareNewMember. cbn [amAudienceID amPrincipalID amAddedBy amExpiresAt amAddedAt].
    repeat (case_match; try discriminate); intros [= _ <-]; eauto. all: simplify_eq; right; by eexists. }
  - reflexivity.
  - split; [done|cbn|done]. intros a0 m. rewrite lookup_insert_ne by congruence. done.
Qed.

Lemma keys_Get_identity key a info : reg_wf a → keys_Get key a = (Ok info, a) →
  ∃ i, dbIdentities a !! ikIdentityID (kiKey info) = Some i ∧ idnPrincipalID i = ikPrincipalID (kiKey info).
Proof.
  intros Hwf Hg. unfold keys_Get in Hg. inv_auth Hg. apply identity_Find_ok in Hs0 as (-> & k & i & Hk & _ & ->). subst info.
  exists i. cbn. by rewrite (wf_identity_id _ Hwf _ _ Hk).
Qed.

Lemma rest_bindKeyPolicy (B : Identity → Prop) k j body d r d' i :
  share_wf d → dbIdentities (shAuth d) !! j = Some i → B i → bindKeyPolicy k j body d = (r, d') →
  share_wf d' ∧ leaves B d d' ∧ ∃ m, d' = set_key_policy m d.
Proof.
  intros Hwf Hj Hb Hr. unfold bindKeyPolicy, decode_share, from_store in Hr.
  assert (Hsame : share_wf d ∧ leaves B d d ∧ ∃ m, d = set_key_policy m d).
  { split; [done|]. split; [reflexivity|]. exists (shKeyPolicy d). by destruct d. }
  apply stays_then in Hr as [->|(req & _ & Hr)]; [done| |apply answer_share_stays].
  apply stays_then in Hr as [->|(rec & _ & Hr)]; [done| |].
  2:{ intros r1 d1. destruct (str_eqb _ _); [by intros [= _ <-]|]. intros [->|(p & _ & [= _ <-])]%stays_then; [done..|].
      intros r2 d2. apply stored_stays, reads_resolvePolicy. }
  assert (∃ r1, BindIdentityPolicy j (kpPolicyID rec) d = (r1, d')) as (r1 & Hm).
  { apply sroute_bind_inv in Hr as [(e0 & Hx & _)|(m & d1 & Hx & [= _ <-])]; apply attempt_share_inv in Hx as (r0 & Hx & _); eauto. }
  split; [by eapply share_op_wf; [apply op_BindIdentityPolicy|exact Hm|]|].
  assert (d' = d ∨ ∃ m, d' = set_key_policy m d ∧ ∀ j', j' ≠ j → m !! j' = shKeyPolicy d !! j') as [->|(m & -> & Hm')].
  { revert Hm. unfold BindIdentityPolicy. rewrite Hj. destruct (str_eqb _ _).
    - intros [= _ <-]. right. eexists. split; [done|]. intros j' Hne. by rewrite lookup_delete_ne.
    - destruct (shPolicies d !! _); intros [= _ <-]; [right|by left]. eexists. split; [done|]. intros j' Hne. by rewrite lookup_insert_ne. }
  - apply Hsame.
  - split; [|by eexists]. split; [done|done|]. intros j' Hx. cbn in Hx. destruct (decide (j' = j)) as [->|Hne]; [by exists i|].
    by rewrite Hm' in Hx.
Qed.

(** The caller may bind the keys of any principal but the owner's. *)
Definition may_bind (p : Principal) (i : Identity) : Prop := idnPrincipalID i = OwnerPrincipal → pID p = OwnerPrincipal.

Lemma rest_BindKeyPolicy p key body : sdoes (keeps_rest (may_bind p)) (BindKeyPolicy p key body).
Proof.
  intros d r d' Hr Hwf. unfold BindKeyPolicy in Hr.
  apply stays_then in Hr as [->|(info & Hi & Hr)]; [done| |by intros r1 d1 [? _]%(on_auth_read _ _ _ _ _ (reads_keys_Get _))].
  apply on_auth_read in Hi as [_ Hi]; [|apply reads_keys_Get]. specialize (Hi info eq_refl).
  apply stays_then in Hr as [->|(u & Hg & Hr)]; [done| |].
  2:{ intros r1 d1 (a & [= _ <-] & ->)%on_auth_inv. apply set_auth_same. }
  apply keys_Get_identity in Hi as (i & Hj & Hp); [|apply (wf_auth _ Hwf)].
  assert (Hb : may_bind p i).
  { unfold may_bind. rewrite Hp. apply owner_may. apply on_auth_inv in Hg as (a & Hg & _). unfold ownerGuard, guard_, answer in Hg.
    by destruct (_ || _). }
  by destruct (rest_bindKeyPolicy _ _ _ _ _ _ _ _ Hwf Hj Hb Hr) as (? & ? & _).
Qed.

Lemma own_BindKeyPolicy p key body d r d' : share_wf d → BindOwnKeyPolicy p key body d = (r, d') →
  share_wf d' ∧ leaves (λ i, idnPrincipalID i = pID p) d d' ∧ ∃ m, d' = set_key_policy m d.
Proof.
  intros Hwf Hr. assert (Hsame : share_wf d ∧ leaves (λ i, idnPrincipalID i = pID p) d d ∧ ∃ m, d = set_key_policy m d).
  { split; [done|]. split; [reflexivity|]. exists (shKeyPolicy d). by destruct d. }
  unfold BindOwnKeyPolicy in Hr.
  apply stays_then in Hr as [->|(info & Hi & Hr)]; [done| |by intros r1 d1 [? _]%(on_auth_read _ _ _ _ _ (reads_keys_Get _))].
  apply on_auth_read in Hi as [_ Hi]; [|apply reads_keys_Get]. specialize (Hi info eq_refl).
  apply stays_then in Hr as [->|(u & Hg & Hr)]; [done| |apply refuse_stays].
  apply keys_Get_identity in Hi as (i & Hj & Hp); [|apply (wf_auth _ Hwf)].
  eapply rest_bindKeyPolicy; [done|exact Hj| |exact Hr]. cbv beta. rewrite Hp. unfold refuse_unless in Hg.
  destruct (IsSelf _ _) eqn:Hs; [by apply IsSelf_true|done].
Qed.

Lemma leaves_mono (B C : Identity → Prop) d d' : (∀ i, B i → C i) → leaves B d d' → leaves C d d'.
Proof. intros Hbc [R O L]. split; [done..|]. intros j Hj. destruct (L j Hj) as (i & ? & ?). eauto. Qed.

Lemma route_rest who e rq : minted (seID e) →
  sdoes (keeps_rest (may_bind (caller who))) (share_route sessions signIn publicURL MarshalInvite who e rq).
Proof.
  intros Hid. apply route_does; auto using rest_remove, rest_invite, rest_AddMember, rest_BindKeyPolicy; [apply _|intros..].
  - apply rest_op; [constructor|rest_table].
  - apply rest_op; [apply op_policy_Create|rest_table].
  - apply rest_op; [apply op_policy_Update|rest_table].
  - apply rest_op; [constructor; [done|by left]|rest_table].
  - apply rest_op; [constructor|rest_table].
  - apply rest_op; [constructor|rest_table].
  - intros d r d' Hr Hwf. apply own_BindKeyPolicy in Hr as (? & Hl & _); [|done]. split; [done|].
    eapply leaves_mono; [|exact Hl]. intros i Hi Ho. congruence.
Qed.

(** C13. What a sharing route can do, whoever calls it.  In a reachable state, no route
    changes a principal, an identity, a settings row, a session or a login code;
    none makes the owner a member of an audience; a key binding it moves is of an
    identity the caller may bind (the owner's keys are the owner's alone); and the
    one route that asks for less than [admin:shares] moves nothing but the bindings
    of the caller's own keys. *)
Theorem share_routes_confined d res who e rq r d' :
  shared_reachable (d, res) → minted (seID e) → share_route sessions signIn publicURL MarshalInvite who e rq d = (r, d') →
  leaves (may_bind (caller who)) d d' ∧
  (share_scope rq = ScopeWriteSelf →
     leaves (λ i, idnPrincipalID i = pID (caller who)) d d' ∧ ∃ bindings, d' = set_key_policy bindings d).
Proof.
  intros [[Hwf _]%sys_reachable_inv _]%shared_reachable_inv Hid Hr. split; [by apply (route_rest who e rq Hid) in Hr as [_ ?]|].
  destruct rq; try done. intros _. by apply own_BindKeyPolicy in Hr as (_ & ? & ?).
Qed.

(** ** Runs of requests *)
Lemma shared_auths d r a a' : shared_reachable (set_auth a d, r) → star reg_step a a' → minted_ids a' →
  shared_reachable (set_auth a' d, r).
Proof.
  intros Hs Hr. revert Hs. induction Hr as [a|a b a' Hab Hr IH]; intros Hs Hm; [done|]. apply IH; [|done].
  destruct Hs as [c Hs]. exists c. eapply star_trans; [exact Hs|]. eapply star_step; [|apply star_refl].
  exact (shared_auth (set_auth a d) b r Hab (minted_ids_before _ _ (reg_step_ext _ _ Hr) Hm)).
Qed.

(** Requests of the owner, one after the other. *)
Definition serve_all (d : ShareDB) (l : list (ShareEnv * ShareRequest)) : ShareDB :=
  foldl (λ d '(e, rq), (share_route sessions signIn publicURL MarshalInvite None e rq d).2) d l.

Lemma serve_reachable d r l : shared_reachable (d, r) → Forall (λ '(e, _), minted (seID e)) l → shared_reachable (serve_all d l, r).
Proof.
  revert d. induction l as [|[e rq] l IH]; intros d Hs Hl; [done|]. apply Forall_cons in Hl as [He Hl]. cbn. apply IH; [|done].
  destruct Hs as [c Hs]. exists c. eapply star_trans; [exact Hs|]. eapply star_step; [|apply star_refl].
  by eapply (shared_route None e rq); [|apply surjective_pairing].
Qed.
End sound.

(** ** An instance: a template installed and granted to a person *)
#[local] Existing Instances ex_crypto ex_codec.

Definition policy_texts (p : Policy) : list (list string) :=
  [[polName p; polData p; rdStyle (polRedact p)]; polExcludeClasses p; rdMask (polRedact p); rdReveal (polRedact p);
   capSearch (polCapabilities p)].
Definition policy_flags (p : Policy) : list bool :=
  let c := polCapabilities p in [capEntities c; capExport c; capMCP c; capEvents c].
Definition policy_of_parts (texts : list (list string)) (flags : list bool) (fields : gmap string (list string)) : option Policy :=
  match texts, flags with
  | [[n; d; st]; ex; mask; rev; search], [a; b; c; e] =>
      Some (mkPolicy n 0 d ex fields (mkRedact mask rev st) (mkCapabilities search a b c e))
  | _, _ => None
  end.
Definition policy_parts (p : Policy) : list (list string) * (list bool * gmap string (list string)) :=
  (policy_texts p, (policy_flags p, polFields p)).
Definition ex_spec (p : Policy) : string := String "{" (bits_of (encode (policy_parts p))).

#[local] Instance ex_specs : GoSpecs :=
  {| json_Valid s := HasPrefix s "{";
     decodeSpec s := match s with
                     | String _ b => '(t, (f, m)) ← decode (of_bits b); policy_of_parts t f m
                     | EmptyString => None
                     end |}.
Definition ex_document : string := "colleagues.yaml".
#[local] Instance ex_docs : GoDocs :=
  {| yaml_documents s := if str_eqb s ex_document then [head Templates] else []; MarshalPolicy := ex_spec |}.
#[local] Instance ex_docs_laws : GoDocsLaws.
Proof.
  split.
  - intros s p. cbn [yaml_documents ex_docs]. destruct (str_eqb s ex_document); [|intros Hp; inversion Hp]. intros Hp%list_elem_of_singleton. injection Hp as ->. vm_compute. reflexivity.
  - intros p. assert (Hp : str_forall printable_ascii (ex_spec p) = true).
    { unfold ex_spec. generalize (encode (policy_parts p)). intros q. cbn. induction q; cbn; auto. }
    cbn [MarshalPolicy ex_docs]. rewrite TrimSpace_printable by done. cbn [json_Valid ex_specs]. unfold ex_spec. destruct (bits_of _); by split.
  - intros p _ _. cbn [MarshalPolicy ex_docs]. unfold ex_spec. cbn [decodeSpec ex_specs]. rewrite of_bits_of, decode_encode. by destruct p as [??????[]]; cbn; destruct polRedact.
Qed.

Definition ex_share_env (id : string) : ShareEnv := mkShareEnv 1000000 2000000 id ex_secret.
Definition ex_requests : list (ShareEnv * ShareRequest) :=
  [(ex_share_env "aud_1", SqCreateAudience (Some "colleagues"));
   (ex_share_env "pol_1", SqCreatePolicy (Some ex_document));
   (ex_share_env "x", SqAddMember "colleagues" "prn_1" (Some (mkExpiry 0 ZeroTime)));
   (ex_share_env "grt_1", SqCreateGrant (Some (mkGrantRequest "colleagues" TemplateColleagues (mkExpiry 0 ZeroTime))))].
Definition ex_serve : ShareDB → list (ShareEnv * ShareRequest) → ShareDB := serve_all true None nostr (λ _ _, None).
Definition ex_shared0 : ShareDB := set_auth ex_d2 (initShare (initDB 0)).
Definition ex_shared : ShareDB := ex_serve ex_shared0 ex_requests.

Lemma minted_check s : negb (str_eqb s nostr) && str_forall id_char s = true → minted s.
Proof. intros [Hn Hs]%andb_true_iff. split; [|done]. intros ->. discriminate. Qed.

Lemma rows_check {A} (m : gmap string A) :
  forallb (λ kv, negb (str_eqb kv.1 nostr) && str_forall id_char kv.1) (map_to_list m) = true → ∀ k, has_row m k → minted k.
Proof. rewrite forallb_forall'. intros Hf k [x Hx]. apply minted_check, (Hf (k, x)), elem_of_map_to_list, Hx. Qed.

Lemma ex_shared_reachable : shared_reachable true None nostr (λ _ _, None) (ex_shared, NewResolver).
Proof.
  apply serve_reachable; [|repeat constructor; apply minted_check; reflexivity].
  apply (shared_auths true None nostr (λ _ _, None) (initShare (initDB 0)) NewResolver (initDB 0)).
  - exists 0%Z. apply star_refl.
  - eapply star_trans with ex_d1.
    + eapply (runs_op (principal_Create 0 "prn_1" ex_person)); [apply op_plain, op_principal_Create|apply surjective_pairing].
    + eapply runs_keys_Mint. apply (surjective_pairing (ex_mint ex_d1)).
  - split; apply rows_check; vm_compute; reflexivity.
Qed.

(** A row both clauses of the template hold of, and the same row kept personal. *)
Definition ex_work_row : Row := mkRow [] (λ _ _ _, true).
Definition ex_home_row : Row := mkRow ["personal"] (λ _ _ _, true).

Lemma every_viewer_resolves_witness :
  ∃ v, (Resolve NewResolver ex_shared "prn_1" PrincipalKindPerson nostr 3000000).1 = Ok v ∧
    sees v ex_work_row = true ∧ sees v ex_home_row = false ∧ granted ex_shared "prn_1" (toMillis 3000000) ex_work_row.
Proof.
  destruct (every_viewer_resolves true None nostr (λ _ _, None) ex_shared NewResolver "prn_1" PrincipalKindPerson nostr 3000000
              ex_shared_reachable) as (v & Hv & Hs); [discriminate|].
  assert (Ht : match (Resolve NewResolver ex_shared "prn_1" PrincipalKindPerson nostr 3000000).1 with
               | Ok v => sees v ex_work_row && negb (sees v ex_home_row) | Err _ => false end = true) by (vm_compute; reflexivity).
  rewrite Hv in Ht. apply andb_true_iff in Ht as [Hw Hh%negb_true_iff].
  exists v. split; [exact Hv|]. split; [exact Hw|]. split; [exact Hh|]. apply Hs, Hw.
Defined.

Definition ex_bind : ShareRequest := SqBindOwnKeyPolicy (EncodeHex ex_id) (Some TemplateColleagues).
Definition ex_bound : result HttpError ShareReply * ShareDB :=
  share_route true None nostr (λ _ _, None) None (ex_share_env "x") ex_bind ex_shared.

Lemma share_routes_confined_witness :
  is_ok ex_bound.1 = true ∧ shKeyPolicy ex_bound.2 !! "idn_1" = Some "pol_1" ∧ shKeyPolicy ex_shared !! "idn_1" = None ∧
  leaves (may_bind LocalPrincipal) ex_shared ex_bound.2 ∧ ∃ bindings, ex_bound.2 = set_key_policy bindings ex_shared.
Proof.
  split; [vm_compute; reflexivity|]. split; [vm_compute; reflexivity|]. split; [vm_compute; reflexivity|].
  destruct (share_routes_confined true None nostr (λ _ _, None) ex_shared NewResolver None (ex_share_env "x") ex_bind ex_bound.1 ex_bound.2
              ex_shared_reachable) as [Hl Hown].
  - apply minted_check. reflexivity.
  - apply surjective_pairing.
  - split; [exact Hl|]. by destruct (Hown eq_refl) as [_ ?].
Defined.

(** Nothing of the route looks at the key that carries the request: a key bound to
    a policy unbinds itself. *)
Example bound_key_unbinds :
  shKeyPolicy (share_route true None nostr (λ _ _, None)
                 (Some (mkPrincipal OwnerPrincipal "Owner" "owner" MethodAPIKey [RoleAdmin] [ScopeWriteSelf]
                          {[ MetaIdentityID := "idn_1"; MetaKeyID := EncodeHex ex_id ]}))
                 (ex_share_env "x") (SqBindOwnKeyPolicy (EncodeHex ex_id) (Some nostr)) ex_bound.2).2 !! "idn_1" = None.
Proof. vm_compute. reflexivity. Qed.

(** [since=150000d] is a window that starts in the future. *)
Example since_wraps : ∃ t, parseSince (SinceDuration (150000 * 3600 * Second) true) 0 = Some t ∧ (0 < t)%Z.
Proof. eexists. split; vm_compute; reflexivity. Qed.
