(* ===== verification/NetIP.v ===== *)
(** * IP addresses

    The part of Go's [net/netip] and [net] that the fetch guard uses: addresses
    and prefixes, their text, and host:port pairs.  An address is its family and
    its value, a Z below 2^32 or 2^128; the bytes and the masks of the library
    are written with shifts and bitwise operators.  Parse errors are [None]. *)

From S2P Require Import Prelude GoStrings UrlFilter.

Local Open Scope Z_scope.

(** ** Addresses *)
Inductive Addr : Type :=
| NoAddr
| V4 (n : Z)
| V6 (n : Z) (zone : string).

#[export] Instance Addr_eq_dec : EqDecision Addr.
Proof. solve_decision. Defined.

Definition addr_wf (a : Addr) : Prop :=
  match a with NoAddr => True | V4 n => 0 <= n < 2 ^ 32 | V6 n _ => 0 <= n < 2 ^ 128 end.

Definition BitLen (a : Addr) : Z := match a with NoAddr => 0 | V4 _ => 32 | V6 _ _ => 128 end.
Definition Is6 (a : Addr) : bool := match a with V6 _ _ => true | _ => false end.
Definition Zone (a : Addr) : string := match a with V6 _ z => z | _ => nostr end.
Definition WithZone (a : Addr) (zone : string) : Addr := match a with V6 n _ => V6 n zone | _ => a end.
Definition Is4In6 (a : Addr) : bool := match a with V6 n _ => Z.shiftr n 32 =? 65535 | _ => false end.

(** [As16], one byte at a time, most significant first. *)
Definition byte_of (n i : Z) : Z := Z.land (Z.shiftr n (8 * (15 - i))) 255.
Definition As16 (a : Addr) (i : Z) : Z :=
  match a with
  | V6 n _ => byte_of n i
  | V4 n => byte_of (Z.lor (Z.shiftl 65535 32) n) i
  | NoAddr => 0
  end.
Definition AddrFrom4 (a b c d : Z) : Addr :=
  V4 (Z.lor (Z.shiftl a 24) (Z.lor (Z.shiftl b 16) (Z.lor (Z.shiftl c 8) d))).
Definition Unmap (a : Addr) : Addr :=
  match a with
  | V6 n _ => if Is4In6 a then V4 (Z.land n (Z.ones 32)) else a
  | _ => a
  end.

(** ** Prefixes *)
Record Prefix : Type := mkPrefix { pfxAddr : Addr; pfxBits : Z }.

Definition PrefixFrom (a : Addr) (bits : Z) : Prefix :=
  mkPrefix (WithZone a nostr) (if (bits <? 0) || (BitLen a <? bits) then -1 else bits).
Definition zeroPrefix : Prefix := mkPrefix NoAddr (-1).
Definition IsValid (p : Prefix) : bool := negb (pfxBits p =? -1).

Definition mask6 (bits : Z) : Z := Z.shiftl (Z.ones bits) (128 - bits).
Definition mask4 (bits : Z) : Z := Z.shiftl (Z.ones bits) (32 - bits).

Definition Contains (p : Prefix) (a : Addr) : bool :=
  IsValid p && str_eqb (Zone a) nostr &&
  match pfxAddr p, a with
  | V4 m, V4 n => Z.shiftr (Z.lxor n m) (32 - pfxBits p) =? 0
  | V6 m _, V6 n _ => Z.land (Z.lxor n m) (mask6 (pfxBits p)) =? 0
  | _, _ => false
  end.

Definition Masked (p : Prefix) : Prefix :=
  if IsValid p then
    match pfxAddr p with
    | V4 m => mkPrefix (V4 (Z.land m (mask4 (pfxBits p)))) (pfxBits p)
    | V6 m _ => mkPrefix (V6 (Z.land m (mask6 (pfxBits p))) nostr) (pfxBits p)
    | NoAddr => zeroPrefix
    end
  else zeroPrefix.

(** ** Text *)
Definition digit_value (c : ascii) : Z := Z.of_nat (code c) - 48.
Definition is_hex (c : ascii) : bool := is_digit c || in_range 97 102 c || in_range 65 70 c.
Definition hex_value (c : ascii) : Z :=
  if is_digit c then digit_value c
  else if in_range 97 102 c then Z.of_nat (code c) - 87 else Z.of_nat (code c) - 55.

(** [first] and [dot] say whether the byte before is missing or a dot. *)
Fixpoint parseIPv4Fields (s : string) (first dot : bool) (val : Z) (digLen : nat) (fields : list Z) : option (list Z) :=
  match s with
  | EmptyString => if (length fields <? 3)%nat then None else Some (fields ++ [val])
  | String c s' =>
      if is_digit c then
        if (digLen =? 1)%nat && (val =? 0) then None
        else let val' := val * 10 + digit_value c in
             if 255 <? val' then None else parseIPv4Fields s' false false val' (S digLen) fields
      else if is_char c "." then
        if first || dot || str_eqb s' nostr then None
        else if (length fields =? 3)%nat then None
        else parseIPv4Fields s' false true 0 0 (fields ++ [val])
      else None
  end.
Definition v4_fields (s : string) : option (list Z) := parseIPv4Fields s true false 0 0 [].

Definition of_bytes (l : list Z) : Z := foldl (λ n b, n * 256 + b) 0 l.

Definition parseIPv4 (s : string) : option Addr :=
  match v4_fields s with
  | Some [a; b; c; d] => Some (AddrFrom4 a b c d)
  | _ => None
  end.

Definition hex_number (s : string) : Z := foldl (λ n c, n * 16 + hex_value c) 0 (String.list_ascii_of_string s).

(** The groups of an IPv6 address: the bytes read, where the ellipsis was, and
    what is left of the text; [fuel] groups fit. *)
Fixpoint v6_groups (fuel : nat) (s : string) (ip : list Z) (ellipsis : option nat) : option (list Z * option nat * string) :=
  match fuel with
  | O => Some (ip, ellipsis, s)
  | S fuel' =>
      let (ds, rest) := span is_hex s in
      if str_eqb ds nostr || (4 <? String.length ds)%nat then None
      else if HasPrefix rest "." then
        if match ellipsis with None => negb (length ip =? 12)%nat | Some _ => false end then None
        else if (16 <? length ip + 4)%nat then None
        else b ← v4_fields s; Some (ip ++ b, ellipsis, nostr)
      else
        let acc := hex_number ds in
        let ip' := ip ++ [Z.shiftr acc 8; Z.land acc 255] in
        match rest with
        | EmptyString => Some (ip', ellipsis, nostr)
        | String c s1 =>
            if negb (is_char c ":") then None
            else match s1 with
                 | EmptyString => None
                 | String c1 s2 =>
                     if is_char c1 ":" then
                       match ellipsis with
                       | Some _ => None
                       | None => if str_eqb s2 nostr then Some (ip', Some (length ip'), nostr)
                                 else v6_groups fuel' s2 ip' (Some (length ip'))
                       end
                     else v6_groups fuel' s1 ip' ellipsis
                 end
        end
  end.

Definition expand (ip : list Z) (ellipsis : option nat) : option (list Z) :=
  match ellipsis with
  | None => if (length ip <? 16)%nat then None else Some ip
  | Some e => if (length ip <? 16)%nat then Some (take e ip ++ replicate (16 - length ip) 0 ++ drop e ip) else None
  end.

Definition parse_groups (s : string) : option Z :=
  let start := if HasPrefix s "::" then (str_drop 2 s, Some 0%nat) else (s, None) in
  if HasPrefix s "::" && str_eqb (str_drop 2 s) nostr then Some 0
  else match v6_groups 8 start.1 [] start.2 with
       | Some (ip, e, EmptyString) => of_bytes <$> expand ip e
       | _ => None
       end.

Definition parseIPv6 (s : string) : option Addr :=
  match CutAt s "%" with
  | Some (_, EmptyString) => None
  | Some (a, zone) => (λ n, V6 n zone) <$> parse_groups a
  | None => (λ n, V6 n nostr) <$> parse_groups s
  end.

(** The first of the bytes [.], [:] and [%] decides. *)
Fixpoint addr_kind (s : string) : option ascii :=
  match s with
  | EmptyString => None
  | String c s' => if is_char c "." || is_char c ":" || is_char c "%" then Some c else addr_kind s'
  end.
Definition ParseAddr (s : string) : option Addr :=
  match addr_kind s with
  | Some c => if is_char c "." then parseIPv4 s else if is_char c ":" then parseIPv6 s else None
  | None => None
  end.

(** [strconv.Atoi] of a digit string without sign or leading zero. *)
Definition number (s : string) : Z := foldl (λ n c, n * 10 + digit_value c) 0 (String.list_ascii_of_string s).
Definition parseBits (s : string) : option Z :=
  match s with
  | EmptyString => None
  | String c s' =>
      if str_forall is_digit s && (str_eqb s' nostr || negb (is_char c "0")) then Some (number s) else None
  end.

Definition ParsePrefix (s : string) : option Prefix :=
  '(a, b) ← CutLast s "/";
  ip ← ParseAddr a;
  if Is6 ip && negb (str_eqb (Zone ip) nostr) then None
  else bits ← parseBits b;
       if BitLen ip <? bits then None else Some (PrefixFrom ip bits).

(** ** host:port *)
Definition has_byte (c : ascii) (s : string) : bool := negb (lacks c s).

Definition JoinHostPort (host port : string) : string :=
  if has_byte ":" host then "[" +:+ host +:+ "]:" +:+ port else host +:+ ":" +:+ port.

Definition SplitHostPort (s : string) : option (string * string) :=
  '(before, port) ← CutLast s ":";
  match s with
  | String c rest =>
      if is_char c "[" then
        '(host, tail) ← CutAt rest "]";
        if str_eqb tail (":" +:+ port) && negb (has_byte "[" rest) && negb (has_byte "]" tail) then Some (host, port) else None
      else if has_byte ":" before || has_byte "[" s || has_byte "]" s then None
      else Some (before, port)
  | EmptyString => None
  end.

Example parse_mapped : ParseAddr "::ffff:127.0.0.1" = Some (V6 (65535 * 2 ^ 32 + 127 * 2 ^ 24 + 1) nostr).
Proof. vm_compute. reflexivity. Qed.
Example parse_zone : ParseAddr "fe80::1%eth0" = Some (V6 (65152 * 2 ^ 112 + 1) "eth0").
Proof. vm_compute. reflexivity. Qed.
Example parse_refused :
  map ParseAddr ["127.0.0.01"; "1.2.3"; "1.2.3.4.5"; "256.1.1.1"; "0x7f.1"; ":::"; "1:2:3:4:5:6:7:8:9"; "12345::"; "fe80::1%"; "localhost"]
  = replicate 10 None.
Proof. vm_compute. reflexivity. Qed.
Example split_ports :
  map SplitHostPort ["example.com:80"; "[::1]:443"; "::1:80"; "example.com"; "[::1]"; "[::1]x:80"]
  = [Some ("example.com", "80"); Some ("::1", "443"); None; None; None; None].
Proof. vm_compute. reflexivity. Qed.

(** ** Parsed addresses are in range *)
Definition byte (b : Z) : Prop := 0 ≤ b < 256.

Lemma in_range_iff lo hi c : in_range lo hi c = true ↔ (lo ≤ code c ≤ hi)%nat.
Proof. unfold in_range. by rewrite andb_true_iff, !Nat.leb_le. Qed.
Lemma digit_byte c : is_digit c = true → 0 ≤ digit_value c ≤ 9.
Proof. unfold is_digit, digit_value. rewrite in_range_iff. lia. Qed.
Lemma hex_nibble c : is_hex c = true → 0 ≤ hex_value c < 16.
Proof.
  unfold is_hex, hex_value. destruct (is_digit c) eqn:Hd; [intros _; pose proof (digit_byte c Hd); lia|]. cbn [orb].
  destruct (in_range 97 102 c) eqn:Hl; cbn [orb]; [apply in_range_iff in Hl; lia|]. rewrite in_range_iff. lia.
Qed.

Lemma of_bytes_range l n k : 0 ≤ n < 256 ^ k → 0 ≤ k → Forall byte l →
  0 ≤ foldl (λ n b, n * 256 + b) n l < 256 ^ (k + Z.of_nat (length l)).
Proof.
  revert n k. induction l as [|b l IH]; intros n k Hn Hk Hl; cbn [foldl length]; [by rewrite Z.add_0_r|].
  apply Forall_cons in Hl as [Hb Hl]. rewrite Nat2Z.inj_succ. replace (k + Z.succ (Z.of_nat (length l))) with (k + 1 + Z.of_nat (length l)) by lia.
  apply IH; [|lia|done]. rewrite Z.pow_add_r by lia. unfold byte in Hb. nia.
Qed.

Lemma parseIPv4Fields_bytes s first dot val dl fields l : byte val → Forall byte fields →
  parseIPv4Fields s first dot val dl fields = Some l → Forall byte l ∧ (length fields ≤ 3 → length l = 4)%nat.
Proof.
  revert first dot val dl fields. induction s as [|c s IH]; intros first dot val dl fields Hv Hf; cbn [parseIPv4Fields].
  - destruct (_ <? 3)%nat eqn:Hl; [done|]. intros [= <-]. apply Nat.ltb_ge in Hl. split; [by apply Forall_app; split; [|apply Forall_singleton]|].
    rewrite length_app. cbn. lia.
  - destruct (is_digit c) eqn:Hd.
    + destruct (_ && _); [done|]. destruct (255 <? _) eqn:Hlt; [done|]. apply IH; [|done].
      pose proof (digit_byte c Hd). unfold byte in *. lia.
    + destruct (is_char c "."); [|done]. destruct (_ || _); [done|]. destruct (_ =? 3)%nat eqn:Hl; [done|].
      intros Hp. apply IH in Hp as [Hb Hlen]; [|unfold byte; lia|by apply Forall_app; split; [|apply Forall_singleton]].
      split; [done|]. intros Hle. apply Hlen. apply Nat.eqb_neq in Hl. rewrite length_app. cbn. lia.
Qed.

Lemma v4_fields_bytes s l : v4_fields s = Some l → Forall byte l ∧ length l = 4%nat.
Proof.
  intros Hl. apply parseIPv4Fields_bytes in Hl as [Hb Hn]; [|unfold byte; lia|by constructor]. split; [done|]. apply Hn. cbn. lia.
Qed.

Lemma lor_shift a b k : 0 ≤ k → 0 ≤ b < 2 ^ k → Z.lor (Z.shiftl a k) b = a * 2 ^ k + b.
Proof.
  intros Hk Hb. rewrite <- Z.shiftl_mul_pow2 by done. symmetry. rewrite <- Z.lxor_lor; [apply Z.add_nocarry_lxor|];
    apply Z.bits_inj'; intros i Hi; rewrite Z.land_spec, Z.bits_0, Z.shiftl_spec by done.
  all: destruct (decide (i < k)); [by rewrite Z.testbit_neg_r by lia|].
  all: rewrite <- (Z.mod_small b (2 ^ k)), Z.mod_pow2_bits_high by lia; apply andb_false_r.
Qed.

Lemma AddrFrom4_wf a b c d : byte a → byte b → byte c → byte d → addr_wf (AddrFrom4 a b c d).
Proof.
  unfold byte. intros Ha Hb Hc Hd. unfold AddrFrom4. cbn [addr_wf].
  rewrite (lor_shift c d 8), (lor_shift b _ 16), (lor_shift a _ 24) by lia. lia.
Qed.

Lemma span_all {p} s a b : span p s = (a, b) → str_forall p a = true.
Proof.
  revert a b. induction s as [|c s IH]; cbn; [by intros ? ? [= <- <-]|]. intros a b.
  destruct (p c) eqn:Hc; [|by intros [= <- <-]]. destruct (span p s) as [x y]. intros [= <- <-]. cbn. rewrite Hc. by eapply IH.
Qed.

Lemma hex_number_range s : str_forall is_hex s = true → (String.length s ≤ 4)%nat → 0 ≤ hex_number s < 65536.
Proof.
  intros Hs Hl. unfold hex_number.
  assert (Hg : ∀ l n k, Forall (λ c, is_hex c = true) l → 0 ≤ k → 0 ≤ n < 16 ^ k →
            0 ≤ foldl (λ n c, n * 16 + hex_value c) n l < 16 ^ (k + Z.of_nat (length l))).
  { clear. induction l as [|c l IH]; intros n k Hl Hk Hn; cbn [foldl length]; [by rewrite Z.add_0_r|].
    apply Forall_cons in Hl as [Hc Hl]. rewrite Nat2Z.inj_succ. replace (k + Z.succ (Z.of_nat (length l))) with (k + 1 + Z.of_nat (length l)) by lia.
    apply IH; [done|lia|]. rewrite Z.pow_add_r by lia. pose proof (hex_nibble c Hc). nia. }
  assert (length (String.list_ascii_of_string s) = String.length s) as Hlen by (clear; induction s; cbn; auto).
  specialize (Hg (String.list_ascii_of_string s) 0 0). rewrite Hlen in Hg.
  assert (16 ^ (0 + Z.of_nat (String.length s)) ≤ 16 ^ 4) by (apply Z.pow_le_mono_r; lia).
  destruct Hg as [Hg1 Hg2]; [|lia..]. clear - Hs. induction s as [|c s IH]; [by constructor|].
  cbn in Hs. apply andb_true_iff in Hs as [Hc Hs]. constructor; [done|by apply IH].
Qed.

Lemma v6_groups_bytes fuel s ip e ip' e' rest : Forall byte ip → (length ip + 2 * fuel ≤ 16)%nat →
  v6_groups fuel s ip e = Some (ip', e', rest) → Forall byte ip' ∧ (length ip' ≤ 16)%nat.
Proof.
  revert s ip e. induction fuel as [|fuel IH]; intros s ip e Hb Hl; cbn [v6_groups]; [intros [= <- <- <-]; split; [done|lia]|].
  destruct (span is_hex s) as [ds r] eqn:Hsp. destruct (str_eqb ds nostr || _) eqn:Hds; [done|].
  apply orb_false_iff in Hds as [_ Hlen%Nat.ltb_ge].
  destruct (HasPrefix r ".").
  { destruct (match e with None => _ | Some _ => _ end); [done|]. destruct (16 <? _)%nat eqn:H16; [done|]. apply Nat.ltb_ge in H16.
    destruct (v4_fields s) as [b|] eqn:Hv; cbn; [|done]. intros [= <- <- <-]. apply v4_fields_bytes in Hv as [Hbb Hbl].
    split; [by apply Forall_app|]. rewrite length_app. lia. }
  pose proof (hex_number_range ds (span_all _ _ _ Hsp) Hlen) as Hn.
  set (ip2 := ip ++ [_; _]). assert (Forall byte ip2 ∧ length ip2 = length ip + 2)%nat as [Hb2 Hl2].
  { unfold ip2. rewrite length_app. split; [|done]. apply Forall_app. split; [done|].
    rewrite Z.shiftr_div_pow2 by lia. change 255 with (Z.ones 8). rewrite Z.land_ones by lia.
    repeat constructor; unfold byte; try (apply Z.mod_pos_bound; lia); [apply Z.div_pos; lia|apply Z.div_lt_upper_bound; lia]. }
  clearbody ip2. destruct r as [|c s1]; [intros [= <- <- <-]; split; [done|lia]|]. destruct (negb _); [done|].
  destruct s1 as [|c1 s2]; [done|]. destruct (is_char c1 ":"); [|apply IH; [done|lia]]. destruct e; [done|].
  destruct (str_eqb s2 nostr); [intros [= <- <- <-]; split; [done|lia]|]. apply IH; [done|lia].
Qed.

Lemma expand_bytes ip e l : Forall byte ip → (length ip ≤ 16)%nat → expand ip e = Some l → Forall byte l ∧ length l = 16%nat.
Proof.
  intros Hb Hl. unfold expand. destruct e as [k|]; destruct (_ <? 16)%nat eqn:H16; try done; intros [= <-].
  - split; [|rewrite !length_app, length_take, length_replicate, length_drop; lia].
    repeat apply Forall_app_2; [by apply Forall_take|apply Forall_replicate; unfold byte; lia|by apply Forall_drop].
  - apply Nat.ltb_ge in H16. split; [done|lia].
Qed.

Lemma parse_groups_range s n : parse_groups s = Some n → 0 ≤ n < 2 ^ 128.
Proof.
  unfold parse_groups. destruct (_ && _); [intros [= <-]; lia|]. destruct (v6_groups 8 _ [] _) as [[[ip e] [|]]|] eqn:Hg; try done.
  apply v6_groups_bytes in Hg as [Hb Hl]; [|by constructor|done]. destruct (expand ip e) as [l|] eqn:He; cbn; [|done]. intros [= <-].
  apply expand_bytes in He as [Hlb Hll]; [|done..]. pose proof (of_bytes_range l 0 0) as Hr. rewrite Hll in Hr. apply Hr; [lia..|done].
Qed.

(** What [ParseAddr] reads is an address. *)
Lemma ParseAddr_wf s a : ParseAddr s = Some a → addr_wf a.
Proof.
  unfold ParseAddr, parseIPv4, parseIPv6. destruct (addr_kind s) as [c|]; [|done]. destruct (is_char c ".").
  - destruct (v4_fields s) as [l|] eqn:Hv; [|done]. apply v4_fields_bytes in Hv as [Hb _].
    destruct l as [|a1 [|a2 [|a3 [|a4 [|]]]]]; try done. intros [= <-]. rewrite !Forall_cons in Hb. destruct Hb as (?&?&?&?&_). by apply AddrFrom4_wf.
  - destruct (is_char c ":"); [|done]. destruct (CutAt s "%") as [[x [|]]|]; [done|..].
    + destruct (parse_groups x) eqn:Hp; cbn; [|done]. intros [= <-]. by eapply parse_groups_range.
    + destruct (parse_groups s) eqn:Hp; cbn; [|done]. intros [= <-]. by eapply parse_groups_range.
Qed.

(** ** host:port, back and forth *)
Lemma CutLast_none c b : lacks c b = true → CutLast b c = None.
Proof.
  induction b as [|d b IH]; [done|]. cbn. intros [Hd Hb]%andb_true_iff. rewrite IH by done. by apply negb_true_iff in Hd as ->.
Qed.
Lemma CutLast_app a c b : lacks c b = true → CutLast (a +:+ String c b) c = Some (a, b).
Proof.
  intros Hb. induction a as [|d a IH]; rewrite ?str_app_nil_l, ?str_app_cons; cbn [CutLast].
  - by rewrite CutLast_none, is_char_refl.
  - by rewrite IH.
Qed.

Lemma HasPrefix_byte c s : HasPrefix s (String c nostr) = match s with String d _ => is_char c d | EmptyString => false end.
Proof.
  unfold HasPrefix. destruct s as [|d s]; [done|]. cbn [String.prefix]. unfold is_char. destruct (Ascii.ascii_dec c d) as [->|Hne].
  - rewrite bool_decide_true by done. by destruct s.
  - by rewrite bool_decide_false.
Qed.

Lemma CutAt_byte a c b : lacks c a = true → CutAt (a +:+ String c b) (String c nostr) = Some (a, b).
Proof.
  induction a as [|d a IH]; intros Ha; rewrite ?str_app_nil_l, ?str_app_cons; cbn [CutAt]; rewrite HasPrefix_byte.
  - rewrite is_char_refl. by destruct b.
  - cbn in Ha. apply andb_true_iff in Ha as [Hd Ha]. apply negb_true_iff in Hd. replace (is_char c d) with false.
    + by rewrite IH.
    + symmetry. apply not_true_iff_false. intros Hx%is_char_true. subst. by rewrite is_char_refl in Hd.
Qed.

(** [SplitHostPort] undoes [JoinHostPort], for a host without brackets and a port
    without brackets or colons. *)
Lemma Split_Join host port :
  lacks "[" host = true → lacks "]" host = true → lacks ":" port = true → lacks "[" port = true → lacks "]" port = true →
  SplitHostPort (JoinHostPort host port) = Some (host, port).
Proof.
  intros Ho Hc Hp Hpo Hpc. unfold JoinHostPort, has_byte. destruct (lacks ":" host) eqn:Hl; cbn [negb].
  - unfold SplitHostPort. rewrite str_app_cons, str_app_nil_l, CutLast_app by done. cbn [mbind option_bind].
    unfold has_byte. rewrite Hl, !lacks_app, Ho, Hc. change (lacks "[" (String ":" port)) with (lacks "[" port).
    change (lacks "]" (String ":" port)) with (lacks "]" port). rewrite Hpo, Hpc. cbn [negb orb andb].
    destruct host as [|c host]; rewrite ?str_app_nil_l, ?str_app_cons; [done|]. cbn in Ho. apply andb_true_iff in Ho as [Ho _].
    apply negb_true_iff in Ho. by rewrite Ho.
  - unfold SplitHostPort. rewrite !str_app_cons, !str_app_nil_l.
    replace (String "[" (host +:+ String "]" (String ":" port))) with ((String "[" host +:+ String "]" nostr) +:+ String ":" port).
    2:{ by rewrite !str_app_cons, str_app_assoc, str_app_cons, str_app_nil_l. }
    rewrite CutLast_app by done. cbn [mbind option_bind]. rewrite is_char_refl, (CutAt_byte host "]" (String ":" port)) by done.
    cbn [mbind option_bind]. unfold str_eqb, has_byte. rewrite str_app_cons, str_app_nil_l, bool_decide_true by done.
    rewrite lacks_app, Ho. change (lacks "[" (String "]" (String ":" port))) with (lacks "[" port).
    change (lacks "]" (String ":" port)) with (lacks "]" port). by rewrite Hpo, Hpc.
Qed.
