(* ===== verification/SafeFetch.v ===== *)
(** * Fetching URLs that others supplied

    Models [internal/safefetch] ([policy.go], [client.go]) and [FetchGuard] of
    [internal/config/config.go]: the ranges a fetch may not reach, the policy that
    allows some of them, the dialer that checks every socket just before it
    connects, and the HTTP client over it.  [net/netip] is file NetIP.  Of
    [net/http] the model has the redirect loop of a client and a transport's use
    of new and of idle connections; what the resolver answers, whether a
    connection is made and what a server replies is a function of the moment it
    is asked ([Outside]), so answers may change between two questions. *)

From S2P Require Import Prelude GoStrings UrlFilter NetIP.

Local Open Scope Z_scope.

(** ** policy.go *)
Inductive FetchError : Type :=
| ErrBlocked (host : string) (a : Addr) (range : string)
| ErrScheme
| ErrAddress
| ErrNetwork (code : nat)
| NoSuchHost
| ErrRedirects
| ErrParseURL
| MissingHost
| ErrLocation
| ErrOffline.

Record blockedRange : Type := mkBlocked { brPrefix : Prefix; brName : string }.
Definition mustRange (cidr name : string) : blockedRange := mkBlocked (default zeroPrefix (ParsePrefix cidr)) name.

Definition defaultBlocked : list blockedRange := [
  mustRange "0.0.0.0/8" "unspecified (this-network)";
  mustRange "10.0.0.0/8" "private (RFC 1918)";
  mustRange "100.64.0.0/10" "carrier-grade NAT (RFC 6598)";
  mustRange "127.0.0.0/8" "loopback";
  mustRange "169.254.0.0/16" "link-local";
  mustRange "172.16.0.0/12" "private (RFC 1918)";
  mustRange "192.168.0.0/16" "private (RFC 1918)";
  mustRange "224.0.0.0/4" "multicast";
  mustRange "240.0.0.0/4" "reserved";
  mustRange "::/128" "unspecified";
  mustRange "::1/128" "loopback";
  mustRange "fc00::/7" "unique-local (ULA)";
  mustRange "fe80::/10" "link-local";
  mustRange "fec0::/10" "site-local";
  mustRange "ff00::/8" "multicast"].

Definition ipv4Compatible : Prefix := default zeroPrefix (ParsePrefix "::/96").
Definition nat64 : Prefix := default zeroPrefix (ParsePrefix "64:ff9b::/96").
Definition sixToFour : Prefix := default zeroPrefix (ParsePrefix "2002::/16").
Definition IPv6Unspecified : Addr := V6 0 nostr.
Definition IPv6Loopback : Addr := V6 1 nostr.

Definition embeddedV4 (a : Addr) : option Addr :=
  if Is4In6 a then Some (Unmap a)
  else if negb (Is6 a) then None
  else
    let b := As16 a in
    if Contains ipv4Compatible a && negb (bool_decide (a = IPv6Unspecified)) && negb (bool_decide (a = IPv6Loopback))
    then Some (AddrFrom4 (b 12) (b 13) (b 14) (b 15))
    else if Contains nat64 a then Some (AddrFrom4 (b 12) (b 13) (b 14) (b 15))
    else if Contains sixToFour a then Some (AddrFrom4 (b 2) (b 3) (b 4) (b 5))
    else None.

Definition first_range (ranges : list blockedRange) (a : Addr) : string :=
  match List.find (λ r, Contains (brPrefix r) a) ranges with Some r => brName r | None => nostr end.
Definition classify (ranges : list blockedRange) (a : Addr) : string :=
  let a := WithZone a nostr in
  first_range ranges (default a (embeddedV4 a)).

Record FetchPolicy : Type := mkFetchPolicy {
  fpAllowPrivate : bool;
  fpAllowedHosts : list string;
  fpAllowedCIDRs : list Prefix;
}.
Definition zeroPolicy : FetchPolicy := mkFetchPolicy false [] [].

Inductive EntryError : Type := EmptyEntry | InvalidHost (h : string) | InvalidCIDR (s : string).
Inductive PolicyEntryError : Type := AllowedHostsAt (i : nat) (e : EntryError) | AllowedCIDRsAt (i : nat) (e : EntryError).

Definition hostStop : list ascii := map Ascii.ascii_of_nat [32; 9; 13; 10; 47; 92; 42; 64; 63; 35; 44; 58]%nat.

Definition parseCIDR (s : string) : result EntryError Prefix :=
  let s := TrimSpace s in
  if negb (has_byte "/" s) then
    match ParseAddr s with
    | Some a => Ok (PrefixFrom (Unmap a) (BitLen (Unmap a)))
    | None => Err (InvalidCIDR s)
    end
  else match ParsePrefix s with
       | Some p => Ok (Masked p)
       | None => Err (InvalidCIDR s)
       end.

(** [for i, x := range l] with the index in the error. *)
Fixpoint each_at {A B E F} (wrap : nat → E → F) (f : A → result E B) (i : nat) (l : list A) : result F (list B) :=
  match l with
  | [] => Ok []
  | x :: l' =>
      match f x with
      | Err e => Err (wrap i e)
      | Ok y => cons y <$> each_at wrap f (S i) l'
      end
  end.

Section policies.
Context `{GoUnicode}.

Definition normalizeFetchHost (h : string) : result EntryError string :=
  let h := TrimSpace h in
  if str_eqb h nostr then Err EmptyEntry
  else if existsb (λ c, has_byte c h) hostStop then Err (InvalidHost h)
  else Ok (ToLower (TrimSuffix h ".")).

Definition ParseFetchPolicy (allowPrivate : bool) (hosts cidrs : list string) : result PolicyEntryError FetchPolicy :=
  hs ← each_at AllowedHostsAt normalizeFetchHost 0 hosts;
  cs ← each_at AllowedCIDRsAt parseCIDR 0 cidrs;
  Ok (mkFetchPolicy allowPrivate hs cs).

Definition hostAllowed (p : FetchPolicy) (host : string) : bool :=
  fpAllowPrivate p || existsb (str_eqb (ToLower (TrimSuffix host "."))) (fpAllowedHosts p).
End policies.

Definition check_addr (p : FetchPolicy) (ranges : list blockedRange) (host : string) (a : Addr) : result FetchError unit :=
  if fpAllowPrivate p then Ok tt
  else
    let name := classify ranges a in
    if str_eqb name nostr then Ok tt
    else
      let plain := WithZone a nostr in
      if existsb (λ pfx, Contains pfx plain || Contains pfx (Unmap plain)) (fpAllowedCIDRs p) then Ok tt
      else Err (ErrBlocked host plain name).

Definition fetch_Check (p : FetchPolicy) (a : Addr) : result FetchError unit := check_addr p defaultBlocked nostr a.

(** ** client.go *)
Definition DefaultMaxRedirects : Z := 10.

(** The dial timeout only enters what the network answers. *)
Record FetchOptions : Type := mkFetchOptions { foPolicy : FetchPolicy; foMaxRedirects : Z }.
Record Guard : Type := mkGuard { gdPolicy : FetchPolicy; gdMaxRedirects : Z; gdRanges : list blockedRange }.

Definition NewGuard (o : FetchOptions) : Guard :=
  mkGuard (foPolicy o) (if foMaxRedirects o <=? 0 then DefaultMaxRedirects else foMaxRedirects o) defaultBlocked.
Definition DefaultGuard : Guard := NewGuard (mkFetchOptions zeroPolicy 0).

(** The URL of a request, host and port as the transport dials them. *)
Record Target : Type := mkTarget { tgScheme : string; tgHost : string; tgPort : string }.
Inductive Location : Type := NoLocation | BadLocation | ToURL (u : Target).
Record Response : Type := mkResponse { rsStatus : Z; rsLocation : Location }.

(** A connection: the scheme and the address it was dialed for, the host the guard
    read in that address, and the address its socket reached. *)
Record Socket : Type := mkSocket { skScheme : string; skDialed : string; skHost : string; skAddr : Addr; skPort : string }.

(** What lies outside the process. *)
Record Outside : Type := mkOutside {
  nResolve : nat → string → string → result FetchError (list Addr);
  nConnect : nat → Addr → string → option FetchError;
  nCancelled : nat → bool;
  nAttempts : nat → list bool;
  nExchange : nat → Socket → Target → result FetchError Response;
}.

(** The moment, the connections made so far, and the requests sent on them. *)
Record Wire : Type := mkWire { wNow : nat; wSockets : list Socket; wSent : list (Target * Socket) }.
Definition idleWire : Wire := mkWire 0 [] [].

Definition fetch (A : Type) : Type := stateful Wire FetchError A.
#[export] Instance fetch_ret : MRet fetch := λ A, st_ret.
#[export] Instance fetch_bind : MBind fetch := λ A B f m, st_bind m f.
Definition fail {A} (e : FetchError) : fetch A := λ w, (Err e, w).
Definition ask {A} (f : nat → A) : fetch A := λ w, (Ok (f (wNow w)), mkWire (S (wNow w)) (wSockets w) (wSent w)).
Definition lift {A} (r : result FetchError A) : fetch A := λ w, (r, w).
Definition opened (s : Socket) : fetch unit := λ w, (Ok tt, mkWire (wNow w) (s :: wSockets w) (wSent w)).
Definition sent (u : Target) (s : Socket) : fetch unit := λ w, (Ok tt, mkWire (wNow w) (wSockets w) ((u, s) :: wSent w)).

Section client.
Context `{GoUnicode} (net : Outside) (g : Guard).

(** [g.lookup]. *)
Definition lookup_addrs (network host : string) : fetch (list Addr) :=
  match ParseAddr host with
  | Some ip => mret [ip]
  | None =>
      let ipNet := if str_eqb network "tcp4" || str_eqb network "udp4" then "ip4"
                   else if str_eqb network "tcp6" || str_eqb network "udp6" then "ip6" else "ip" in
      r ← ask (λ t, nResolve net t ipNet host);
      ips ← lift r;
      match ips with [] => fail NoSuchHost | _ => mret ips end
  end.

(** The hook is handed the text of the socket's address, which reads back as it. *)
Definition control (host : string) (a : Addr) : result FetchError unit := check_addr (gdPolicy g) (gdRanges g) host a.

(** [d.DialContext] of a literal: a socket address holds an IPv4-mapped address as
    the IPv4 one; the hook runs just before connect. *)
Definition dial_literal (scheme dialed host : string) (hook : option (Addr → result FetchError unit)) (ip : Addr) (port : string)
    : fetch Socket :=
  let a := Unmap ip in
  if bool_decide (a = NoAddr) then fail ErrAddress
  else
    _ ← lift (match hook with Some f => f a | None => Ok tt end);
    c ← ask (λ t, nConnect net t a port);
    match c with
    | Some e => fail e
    | None => let s := mkSocket scheme dialed host a port in _ ← opened s; mret s
    end.

Definition attempt_dial {A} (m : fetch A) : fetch (result FetchError A) := λ w, let (r, w') := m w in (Ok r, w').

Definition no_connection (firstErr : option FetchError) : fetch (option Socket) :=
  match firstErr with Some e => fail e | None => mret None end.

Fixpoint dial_each (dial : Addr → fetch Socket) (ips : list Addr) (firstErr : option FetchError) : fetch (option Socket) :=
  match ips with
  | [] => no_connection firstErr
  | ip :: ips' =>
      r ← attempt_dial (dial ip);
      match r with
      | Ok s => mret (Some s)
      | Err e =>
          let firstErr := Some (default e firstErr) in
          stop ← ask (nCancelled net);
          if (stop : bool) then no_connection firstErr else dial_each dial ips' firstErr
      end
  end.

(** [None] is a nil connection and a nil error; [scheme] is the caller's. *)
Definition DialContext (scheme network addr : string) : fetch (option Socket) :=
  match SplitHostPort addr with
  | None => fail ErrAddress
  | Some (host, port) =>
      let hook := if hostAllowed (gdPolicy g) host then None else Some (control host) in
      ips ← lookup_addrs network host;
      dial_each (λ ip, dial_literal scheme addr host hook ip port) ips None
  end.

Definition httpScheme (s : string) : bool := let s := ToLower s in str_eqb s "http" || str_eqb s "https".

(** *** The transport *)
Definition canonicalAddr (u : Target) : string := JoinHostPort (tgHost u) (tgPort u).
Definition serves (u : Target) (s : Socket) : bool := str_eqb (skScheme s) (tgScheme u) && str_eqb (skDialed s) (canonicalAddr u).

(** [http.Transport]: a request goes out on a connection made for its scheme and
    address, an idle one or a new one; after a failure it may be tried again. *)
Definition getConn (reuse : bool) (u : Target) : fetch (option Socket) := λ w,
  match List.find (serves u) (wSockets w) with
  | Some s => if reuse then (Ok (Some s), w) else DialContext (tgScheme u) "tcp" (canonicalAddr u) w
  | None => DialContext (tgScheme u) "tcp" (canonicalAddr u) w
  end.

Fixpoint round_trip (attempts : list bool) (u : Target) : fetch Response :=
  c ← getConn (default false (head attempts)) u;
  match c with
  | None => fail ErrAddress
  | Some s =>
      _ ← sent u s;
      r ← ask (λ t, nExchange net t s u);
      match r, attempts with
      | Ok resp, _ => mret resp
      | Err e, _ :: attempts' => round_trip attempts' u
      | Err e, [] => fail e
      end
  end.

Definition Transport_RoundTrip (u : Target) : fetch Response :=
  if str_eqb (tgHost u) nostr then fail MissingHost
  else attempts ← ask (nAttempts net); round_trip attempts u.

(** kit's guard refuses a request or passes it on. *)
Context (offline : Target → bool).
Definition netpolicy_RoundTrip (u : Target) : fetch Response :=
  if offline u then fail ErrOffline else Transport_RoundTrip u.

Definition schemeGuard_RoundTrip (u : Target) : fetch Response :=
  if negb (httpScheme (tgScheme u)) then fail ErrScheme else netpolicy_RoundTrip u.

(** *** The client *)
Definition checkRedirect (u : Target) (via : list Target) : result FetchError unit :=
  if gdMaxRedirects g <? Z.of_nat (length via) then Err ErrRedirects
  else if negb (httpScheme (tgScheme u)) then Err ErrScheme
  else Ok tt.

Definition redirects (resp : Response) : bool := existsb (Z.eqb (rsStatus resp)) [301; 302; 303; 307; 308].

(** [http.Client.Do] of a request without a body; [None] when the fuel is spent. *)
Fixpoint do_requests (fuel : nat) (u : Target) (via : list Target) : fetch (option Response) :=
  match fuel with
  | O => mret None
  | S fuel' =>
      resp ← schemeGuard_RoundTrip u;
      if redirects resp then
        match rsLocation resp with
        | NoLocation => mret (Some resp)
        | BadLocation => fail ErrLocation
        | ToURL u' =>
            _ ← lift (checkRedirect u' (via ++ [u]));
            do_requests fuel' u' (via ++ [u])
        end
      else mret (Some resp)
  end.

Definition fetch_fuel : nat := S (Z.to_nat (gdMaxRedirects g)).
Definition Client_Do (u : Target) : fetch (option Response) := do_requests fetch_fuel u [].

(** *** Browsers *)
Context `{GoNet}.

Definition CheckURL (rawURL : string) : fetch unit :=
  match ParseURL (TrimSpace rawURL) with
  | None => fail ErrParseURL
  | Some u =>
      if negb (httpScheme (uScheme u)) then fail ErrScheme
      else
        let host := uHostname u in
        if str_eqb host nostr then fail MissingHost
        else if hostAllowed (gdPolicy g) host then mret tt
        else
          ips ← lookup_addrs "tcp" host;
          lift (for_each (check_addr (gdPolicy g) (gdRanges g) host) ips)
  end.
End client.

Definition IsBlocked (e : FetchError) : bool := match e with ErrBlocked _ _ _ | ErrScheme => true | _ => false end.

(** ** config.go *)
Record FetchConfig : Type := mkFetchConfig { fcAllowPrivate : bool; fcAllowedHosts : list string; fcAllowedCIDRs : list string }.

Definition FetchConfig_Policy `{GoUnicode} (c : FetchConfig) : result PolicyEntryError FetchPolicy :=
  ParseFetchPolicy (fcAllowPrivate c) (fcAllowedHosts c) (fcAllowedCIDRs c).

Definition FetchGuard `{GoUnicode} (cfg : option FetchConfig) : Guard :=
  match cfg with
  | None => DefaultGuard
  | Some c =>
      match FetchConfig_Policy c with
      | Err _ => DefaultGuard
      | Ok p => NewGuard (mkFetchOptions p 0)
      end
  end.
