(* ===== verification/FetchSafety.v ===== *)
(** * What the fetch guard promises

    The ranges are the ones the address registries set aside, in either family and
    in every form an IPv6 address carries an IPv4 one; no connection a client makes
    reaches one of them unless the policy says so, whatever the resolver, the
    network and the servers answer; a fetch ends after the redirects it may follow;
    and a policy allows exactly what its configuration lists. *)

From S2P Require Import Prelude GoStrings UrlFilter NetIP SafeFetch.

Local Open Scope Z_scope.

(** ** Prefixes, by division *)
Definition covers (p : Prefix) (a : Addr) : Prop :=
  0 ≤ pfxBits p ∧
  match pfxAddr p, a with
  | V4 m, V4 n => n / 2 ^ (32 - pfxBits p) = m / 2 ^ (32 - pfxBits p)
  | V6 m _, V6 n _ => n / 2 ^ (128 - pfxBits p) = m / 2 ^ (128 - pfxBits p)
  | _, _ => False
  end.

Definition prefix_wf (p : Prefix) : Prop := addr_wf (pfxAddr p) ∧ Zone (pfxAddr p) = nostr ∧ -1 ≤ pfxBits p ≤ BitLen (pfxAddr p).

Lemma shiftr_lxor_zero n m k : Z.shiftr (Z.lxor n m) k = 0 ↔ Z.shiftr n k = Z.shiftr m k.
Proof.
  rewrite Z.shiftr_lxor. split; [apply Z.lxor_eq|]. intros ->. apply Z.lxor_nilpotent.
Qed.

Lemma land_shiftl x y k : 0 ≤ k → Z.land x (Z.shiftl y k) = Z.shiftl (Z.land (Z.shiftr x k) y) k.
Proof.
  intros Hk. apply Z.bits_inj'. intros i Hi. rewrite Z.land_spec, !Z.shiftl_spec by done.
  destruct (decide (k ≤ i)) as [Hle|Hgt].
  - rewrite Z.land_spec, Z.shiftr_spec by lia. by replace (i - k + k) with i by lia.
  - rewrite !(Z.testbit_neg_r _ (i - k)) by lia. by rewrite andb_false_r.
Qed.

Lemma shiftl_zero x k : 0 ≤ k → Z.shiftl x k = 0 ↔ x = 0.
Proof. intros Hk. rewrite Z.shiftl_mul_pow2 by done. pose proof (Z.pow_pos_nonneg 2 k). nia. Qed.

Lemma mask_zero x w b : 0 ≤ x < 2 ^ w → 0 ≤ b ≤ w →
  Z.land x (Z.shiftl (Z.ones b) (w - b)) = 0 ↔ Z.shiftr x (w - b) = 0.
Proof.
  intros Hx Hb. rewrite land_shiftl, shiftl_zero, Z.land_ones by lia.
  rewrite Z.mod_small; [done|]. rewrite Z.shiftr_div_pow2 by lia. split; [apply Z.div_pos; lia|].
  apply Z.div_lt_upper_bound; [lia|]. rewrite <- Z.pow_add_r by lia. replace (w - b + b) with w by lia. lia.
Qed.

Lemma lxor_range n m w : 0 ≤ w → 0 ≤ n < 2 ^ w → 0 ≤ m < 2 ^ w → 0 ≤ Z.lxor n m < 2 ^ w.
Proof.
  intros Hw Hn Hm. split; [apply Z.lxor_nonneg; lia|].
  assert (Z.lxor n m = Z.lxor n m mod 2 ^ w) as ->; [|apply Z.mod_pos_bound, Z.pow_pos_nonneg; lia].
  apply Z.bits_inj'. intros i Hi. destruct (decide (i < w)) as [Hlt|Hge]; [by rewrite Z.mod_pow2_bits_low|].
  rewrite Z.mod_pow2_bits_high, Z.lxor_spec by lia.
  rewrite <- (Z.mod_small n (2 ^ w)), <- (Z.mod_small m (2 ^ w)), !Z.mod_pow2_bits_high by lia. done.
Qed.

Lemma Contains_covers p a : prefix_wf p → addr_wf a → Zone a = nostr → Contains p a = true ↔ covers p a.
Proof.
  destruct p as [m b]. intros (Hm & Hz & Hb) Ha Hza. unfold Contains, covers, IsValid. cbn [pfxAddr pfxBits] in *.
  rewrite Hza, !andb_true_iff, negb_true_iff, Z.eqb_neq. change (str_eqb nostr nostr = true) with (true = true).
  assert (b ≠ -1 ↔ 0 ≤ b) as Hb' by lia.
  destruct m as [|m|m zm], a as [|n|n zn]; cbn [BitLen addr_wf] in *; rewrite ?Z.eqb_eq; try tauto; try naive_solver.
  - rewrite shiftr_lxor_zero. destruct (decide (0 ≤ b)) as [?|?]; [|tauto].
    rewrite !Z.shiftr_div_pow2 by lia. tauto.
  - destruct (decide (0 ≤ b)) as [?|?]; [|tauto]. unfold mask6.
    rewrite mask_zero, shiftr_lxor_zero, !Z.shiftr_div_pow2 by first [lia|by apply lxor_range]. tauto.
Qed.

(** ** The ranges, by number *)

(** The IPv4 blocks that are not public: 0/8, 10/8, 100.64/10, 127/8, 169.254/16,
    172.16/12, 192.168/16, and everything from 224 up. *)
Definition special_v4 (n : Z) : Prop :=
  n < 2 ^ 24 ∨ 10 * 2 ^ 24 ≤ n < 11 * 2 ^ 24 ∨
  100 * 2 ^ 24 + 64 * 2 ^ 16 ≤ n < 100 * 2 ^ 24 + 128 * 2 ^ 16 ∨
  127 * 2 ^ 24 ≤ n < 128 * 2 ^ 24 ∨
  169 * 2 ^ 24 + 254 * 2 ^ 16 ≤ n < 169 * 2 ^ 24 + 255 * 2 ^ 16 ∨
  172 * 2 ^ 24 + 16 * 2 ^ 16 ≤ n < 172 * 2 ^ 24 + 32 * 2 ^ 16 ∨
  192 * 2 ^ 24 + 168 * 2 ^ 16 ≤ n < 192 * 2 ^ 24 + 169 * 2 ^ 16 ∨
  224 * 2 ^ 24 ≤ n.

(** [::], [::1], fc00::/7, fe80::/10, fec0::/10 and ff00::/8. *)
Definition special_v6 (n : Z) : Prop :=
  n < 2 ∨ 0xfc00 * 2 ^ 112 ≤ n < 0xfe00 * 2 ^ 112 ∨ 0xfe80 * 2 ^ 112 ≤ n.

(** The IPv4 address an IPv6 one carries: mapped (::ffff:a.b.c.d), compatible
    (::a.b.c.d), NAT64 (64:ff9b::a.b.c.d) or 6to4 (2002:aabb:ccdd::). *)
Definition carried (n : Z) : option Z :=
  if (n / 2 ^ 32 =? 0xffff) || (n / 2 ^ 32 =? 0x64ff9b * 2 ^ 64) || ((n / 2 ^ 32 =? 0) && (2 <=? n)) then Some (n mod 2 ^ 32)
  else if n / 2 ^ 112 =? 0x2002 then Some ((n / 2 ^ 80) mod 2 ^ 32)
  else None.

Definition public (a : Addr) : Prop :=
  match a with
  | NoAddr => True
  | V4 n => ¬ special_v4 n
  | V6 n _ => match carried n with Some m => ¬ special_v4 m | None => ¬ special_v6 n end
  end.

Lemma land_ones_bit x w i : 0 ≤ w → Z.testbit (Z.land x (Z.ones w)) i = Z.testbit x i && (i <? w).
Proof.
  intros Hw. destruct (decide (0 ≤ i)); [|by rewrite !Z.testbit_neg_r by lia].
  rewrite Z.land_spec. destruct (Z.ltb_spec i w); [by rewrite Z.ones_spec_low by lia|].
  rewrite Z.ones_spec_high by lia. by rewrite !andb_false_r.
Qed.

Lemma byte_bit n s i : 0 ≤ s → Z.testbit (Z.land (Z.shiftr n s) 255) i = (0 <=? i) && (i <? 8) && Z.testbit n (i + s).
Proof.
  intros Hs. change 255 with (Z.ones 8). rewrite land_ones_bit by done. destruct (Z.leb_spec 0 i).
  - rewrite Z.shiftr_spec by done. by rewrite andb_comm.
  - by rewrite Z.testbit_neg_r by done.
Qed.

(** Four bytes in a row are a 32-bit slice. *)
Lemma bytes_value n k i : 0 ≤ k → i = 15 - k →
  AddrFrom4 (byte_of n (i - 3)) (byte_of n (i - 2)) (byte_of n (i - 1)) (byte_of n i) = V4 ((n / 2 ^ (8 * k)) mod 2 ^ 32).
Proof.
  intros Hk ->. unfold AddrFrom4, byte_of. f_equal. rewrite <- Z.land_ones, <- Z.shiftr_div_pow2 by lia.
  apply Z.bits_inj'. intros j Hj.
  rewrite !Z.lor_spec, !Z.shiftl_spec, land_ones_bit, Z.shiftr_spec, !byte_bit by lia.
  repeat match goal with |- context [Z.testbit n ?e] => lazymatch e with j + 8 * k => fail | _ => replace e with (j + 8 * k) by lia end end.
  destruct (Z.testbit n (j + 8 * k)); [|by rewrite !andb_false_r].
  rewrite !andb_true_r. cbn [andb]. lia.
Qed.

Lemma Is4In6_div n z : Is4In6 (V6 n z) = (n / 2 ^ 32 =? 0xffff).
Proof. unfold Is4In6. by rewrite Z.shiftr_div_pow2. Qed.

Lemma eqb_of_iff (b : bool) x y : (b = true ↔ x = y) → b = (x =? y).
Proof. destruct b, (Z.eqb_spec x y); naive_solver. Qed.

Lemma Contains_div6 m b n : 0 ≤ b ≤ 128 → 0 ≤ m < 2 ^ 128 → 0 ≤ n < 2 ^ 128 →
  Contains (mkPrefix (V6 m nostr) b) (V6 n nostr) = (n / 2 ^ (128 - b) =? m / 2 ^ (128 - b)).
Proof.
  intros Hb Hm Hn. apply eqb_of_iff. rewrite Contains_covers; [unfold covers; cbn [pfxAddr pfxBits]; intuition lia| |done..].
  repeat split; cbn [pfxAddr pfxBits BitLen]; lia.
Qed.

Lemma Contains_div4 m b n : 0 ≤ b ≤ 32 → 0 ≤ m < 2 ^ 32 → 0 ≤ n < 2 ^ 32 →
  Contains (mkPrefix (V4 m) b) (V4 n) = (n / 2 ^ (32 - b) =? m / 2 ^ (32 - b)).
Proof.
  intros Hb Hm Hn. apply eqb_of_iff. rewrite Contains_covers; [unfold covers; cbn [pfxAddr pfxBits]; intuition lia| |done..].
  repeat split; cbn [pfxAddr pfxBits BitLen]; lia.
Qed.

Lemma low_bytes n : let b := As16 (V6 n nostr) in AddrFrom4 (b 12) (b 13) (b 14) (b 15) = V4 (n mod 2 ^ 32).
Proof.
  cbv zeta. transitivity (V4 ((n / 1) mod 2 ^ 32)); [exact (bytes_value n 0 15 (Z.le_refl 0) eq_refl)|by rewrite Z.div_1_r].
Qed.

Lemma high_bytes n : let b := As16 (V6 n nostr) in AddrFrom4 (b 2) (b 3) (b 4) (b 5) = V4 ((n / 2 ^ 80) mod 2 ^ 32).
Proof. apply (bytes_value n 10 5); lia. Qed.

Lemma not_addr n m : negb (bool_decide (V6 n nostr = V6 m nostr)) = negb (n =? m).
Proof. f_equal. destruct (Z.eqb_spec n m) as [->|Hne]; [by rewrite bool_decide_true|]. apply bool_decide_false. congruence. Qed.

Lemma embeddedV4_carried n : 0 ≤ n < 2 ^ 128 → embeddedV4 (V6 n nostr) = V4 <$> carried n.
Proof.
  intros Hn. unfold embeddedV4, carried. rewrite Is4In6_div. cbn [Is6 negb]. cbv zeta. rewrite low_bytes, high_bytes.
  destruct (n / 2 ^ 32 =? 0xffff) eqn:Hm; cbn [orb].
  - unfold Unmap. rewrite Is4In6_div, Hm. cbn. by rewrite Z.land_ones.
  - change ipv4Compatible with (mkPrefix (V6 0 nostr) 96).
    change nat64 with (mkPrefix (V6 (0x64ff9b * 2 ^ 96) nostr) 96).
    change sixToFour with (mkPrefix (V6 (0x2002 * 2 ^ 112) nostr) 16).
    unfold IPv6Unspecified, IPv6Loopback. rewrite !Contains_div6, !not_addr by lia.
    change (128 - 96) with 32. change (128 - 16) with 112. change (0 / 2 ^ 32) with 0.
    change (0x64ff9b * 2 ^ 96 / 2 ^ 32) with (0x64ff9b * 2 ^ 64). change (0x2002 * 2 ^ 112 / 2 ^ 112) with 0x2002.
    replace ((n / 2 ^ 32 =? 0) && negb (n =? 0) && negb (n =? 1)) with ((n / 2 ^ 32 =? 0) && (2 <=? n)) by lia.
    destruct (n / 2 ^ 32 =? 0x64ff9b * 2 ^ 64); cbn [orb]; [by destruct (_ && _)|].
    destruct ((n / 2 ^ 32 =? 0) && (2 <=? n)); [done|]. by destruct (n / 2 ^ 112 =? 0x2002).
Qed.

Lemma first_range_find a : first_range defaultBlocked a = nostr ↔ Forall (λ r, Contains (brPrefix r) a = false) defaultBlocked.
Proof.
  unfold first_range. rewrite Forall_forall. destruct (List.find _ _) as [r|] eqn:Hf.
  - apply List.find_some in Hf as [Hin Hc]. split.
    + assert (Hn : Forall (λ r, brName r ≠ nostr) defaultBlocked) by (repeat constructor; vm_compute; discriminate).
      rewrite Forall_forall in Hn. intros Hr. by apply list_elem_of_In, Hn in Hin.
    + intros Ha. apply list_elem_of_In, Ha in Hin. by rewrite Hin in Hc.
  - split; [|done]. intros _ r Hr%list_elem_of_In. by apply (List.find_none _ _ Hf).
Qed.

Lemma div_interval n k m : 0 < k → (n / k =? m) = (m * k <=? n) && (n <? (m + 1) * k).
Proof.
  intros Hk. pose proof (Z.div_mod n k) as Hd. pose proof (Z.mod_pos_bound n k Hk) as Hb.
  destruct (Z.eqb_spec (n / k) m) as [<-|Hne]; symmetry; [|apply not_true_iff_false]; rewrite andb_true_iff, Z.leb_le, Z.ltb_lt; nia.
Qed.

Lemma default_prefixes : map brPrefix defaultBlocked =
  [mkPrefix (V4 0) 8; mkPrefix (V4 (10 * 2 ^ 24)) 8; mkPrefix (V4 (100 * 2 ^ 24 + 64 * 2 ^ 16)) 10; mkPrefix (V4 (127 * 2 ^ 24)) 8;
   mkPrefix (V4 (169 * 2 ^ 24 + 254 * 2 ^ 16)) 16; mkPrefix (V4 (172 * 2 ^ 24 + 16 * 2 ^ 16)) 12;
   mkPrefix (V4 (192 * 2 ^ 24 + 168 * 2 ^ 16)) 16; mkPrefix (V4 (224 * 2 ^ 24)) 4; mkPrefix (V4 (240 * 2 ^ 24)) 4;
   mkPrefix (V6 0 nostr) 128; mkPrefix (V6 1 nostr) 128; mkPrefix (V6 (0xfc00 * 2 ^ 112) nostr) 7;
   mkPrefix (V6 (0xfe80 * 2 ^ 112) nostr) 10; mkPrefix (V6 (0xfec0 * 2 ^ 112) nostr) 10; mkPrefix (V6 (0xff00 * 2 ^ 112) nostr) 8].
Proof. vm_compute. reflexivity. Qed.

Lemma first_range_prefixes a : first_range defaultBlocked a = nostr ↔ Forall (λ p, Contains p a = false) (map brPrefix defaultBlocked).
Proof. rewrite first_range_find. by rewrite Forall_map. Qed.

Lemma Contains_64 m z b n : Contains (mkPrefix (V6 m z) b) (V4 n) = false.
Proof. unfold Contains. cbn [pfxAddr]. apply andb_false_r. Qed.
Lemma Contains_46 m b n : Contains (mkPrefix (V4 m) b) (V6 n nostr) = false.
Proof. unfold Contains. cbn [pfxAddr]. apply andb_false_r. Qed.

Ltac constants := repeat match goal with |- context [Z.div ?x ?y] => let c := eval vm_compute in (Z.div x y) in change (Z.div x y) with c end.

Lemma range_v4 n : 0 ≤ n < 2 ^ 32 → first_range defaultBlocked (V4 n) = nostr ↔ ¬ special_v4 n.
Proof.
  intros Hn. rewrite first_range_prefixes, default_prefixes. unfold special_v4.
  rewrite !Forall_cons, Forall_nil, !Contains_64, !Contains_div4, !div_interval by lia. constants. lia.
Qed.

Lemma range_v6 n : 0 ≤ n < 2 ^ 128 → first_range defaultBlocked (V6 n nostr) = nostr ↔ ¬ special_v6 n.
Proof.
  intros Hn. rewrite first_range_prefixes, default_prefixes. unfold special_v6.
  rewrite !Forall_cons, Forall_nil, !Contains_46, !Contains_div6, !div_interval by lia. constants. lia.
Qed.

Lemma carried_range n m : carried n = Some m → 0 ≤ m < 2 ^ 32.
Proof. unfold carried. repeat case_match; intros [= <-]; apply Z.mod_pos_bound; lia. Qed.

(** [classify] names a range exactly for the addresses that are not public. *)
Lemma classify_public a : addr_wf a → classify defaultBlocked a = nostr ↔ public a.
Proof.
  intros Ha. unfold classify. destruct a as [|n|n z]; cbn [WithZone public].
  - split; [done|]. intros _. vm_compute. reflexivity.
  - change (embeddedV4 (V4 n)) with (@None Addr). by apply range_v4.
  - rewrite embeddedV4_carried by done. destruct (carried n) as [m|] eqn:Hc; cbn; [|by apply range_v6].
    apply range_v4. by eapply carried_range.
Qed.

(** ** What a policy permits *)
Definition policy_wf (p : FetchPolicy) : Prop := Forall prefix_wf (fpAllowedCIDRs p).
Definition listed (p : FetchPolicy) (a : Addr) : Prop :=
  ∃ pfx, pfx ∈ fpAllowedCIDRs p ∧ (covers pfx (WithZone a nostr) ∨ covers pfx (Unmap (WithZone a nostr))).
Definition permitted (p : FetchPolicy) (a : Addr) : Prop := fpAllowPrivate p = true ∨ public a ∨ listed p a.

Lemma Unmap_wf a : addr_wf a → addr_wf (Unmap a).
Proof.
  destruct a as [|n|n z]; cbn [Unmap]; [done..|]. intros Ha. destruct (Is4In6 _); [|done].
  cbn [addr_wf]. rewrite Z.land_ones by lia. apply Z.mod_pos_bound. lia.
Qed.
Lemma WithZone_wf a z : addr_wf a → addr_wf (WithZone a z). Proof. by destruct a. Qed.
Lemma Zone_plain a : Zone (WithZone a nostr) = nostr. Proof. by destruct a. Qed.
Lemma Zone_unmapped a : Zone (Unmap (WithZone a nostr)) = nostr.
Proof. destruct a as [|n|n z]; cbn [WithZone Unmap]; [done..|]. by destruct (Is4In6 _). Qed.

Lemma allow_listed p a : policy_wf p → addr_wf a →
  existsb (λ pfx, Contains pfx (WithZone a nostr) || Contains pfx (Unmap (WithZone a nostr))) (fpAllowedCIDRs p) = true ↔ listed p a.
Proof.
  intros Hp Ha. rewrite List.existsb_exists. unfold listed, policy_wf in *. rewrite Forall_forall in Hp.
  split; intros (pfx & Hin & Hc); exists pfx; rewrite list_elem_of_In in *; (split; [done|]);
    pose proof (Hp pfx) as Hw; rewrite list_elem_of_In in Hw; specialize (Hw Hin);
    [apply orb_true_iff in Hc|apply orb_true_iff];
    rewrite !Contains_covers in *; auto using Zone_plain, Zone_unmapped, Unmap_wf, WithZone_wf.
Qed.

(** C39. The check characterised.  For every address and every policy made of
    well-formed prefixes, [check] passes exactly when the block is off, the address
    is public, or a listed prefix covers it; otherwise it names the host, the
    address without its zone and the range. *)
Theorem check_spec p host a : policy_wf p → addr_wf a →
  (check_addr p defaultBlocked host a = Ok tt ↔ permitted p a) ∧
  (¬ permitted p a → ∃ range, range ≠ nostr ∧ check_addr p defaultBlocked host a = Err (ErrBlocked host (WithZone a nostr) range)).
Proof.
  intros Hp Ha. unfold check_addr, permitted. rewrite <- (classify_public a Ha), <- (allow_listed p a Hp Ha).
  destruct (fpAllowPrivate p); [naive_solver|]. unfold str_eqb.
  destruct (decide (classify defaultBlocked a = nostr)) as [Hc|Hc]; [rewrite bool_decide_true by done; naive_solver|].
  rewrite bool_decide_false by done. destruct (existsb _ _); [naive_solver|]. split; [naive_solver|]. eauto.
Qed.

(** ** Connections *)
Section client.
Context `{GoUnicode} (net : Outside) (offline : Target → bool) (g : Guard).

(** Every answer of the resolver is an address. *)
Definition net_wf : Prop := ∀ t network host l, nResolve net t network host = Ok l → Forall addr_wf l.
Hypothesis Hnet : net_wf.
Hypothesis Hpolicy : policy_wf (gdPolicy g).
Hypothesis Hranges : gdRanges g = defaultBlocked.

(** The guard let the socket through: the host it was dialed for is exempt, or the
    address it reached is permitted. *)
Definition guarded (s : Socket) : Prop :=
  SplitHostPort (skDialed s) = Some (skHost s, skPort s) ∧ addr_wf (skAddr s) ∧
  (hostAllowed (gdPolicy g) (skHost s) = true ∨ permitted (gdPolicy g) (skAddr s)).

(** A request that may be sent on a socket. *)
Definition sendable (u : Target) (s : Socket) : Prop := httpScheme (tgScheme u) = true ∧ serves u s = true ∧ guarded s.

Record adds (w w' : Wire) : Prop := {
  ad_sockets : ∃ l, wSockets w' = l ++ wSockets w ∧ Forall guarded l;
  ad_sent : ∃ l, wSent w' = l ++ wSent w ∧ Forall (λ us, sendable us.1 us.2) l;
}.
Definition all_guarded (w : Wire) : Prop := Forall guarded (wSockets w).
Definition grows (w w' : Wire) : Prop := all_guarded w → adds w w'.

Lemma adds_guarded w w' : adds w w' → all_guarded w → all_guarded w'.
Proof. intros [(l & E & F) _] Hg. unfold all_guarded. rewrite E. by apply Forall_app. Qed.

Lemma adds_refl w : adds w w. Proof. split; by exists []. Qed.
Lemma adds_trans w1 w2 w3 : adds w1 w2 → adds w2 w3 → adds w1 w3.
Proof.
  intros [(l1 & E1 & F1) (m1 & T1 & G1)] [(l2 & E2 & F2) (m2 & T2 & G2)].
  split; [exists (l2 ++ l1)|exists (m2 ++ m1)]; rewrite ?E2, ?E1, ?T2, ?T1, app_assoc; (split; [done|]); by apply Forall_app.
Qed.
#[local] Instance grows_preorder : PreOrder grows.
Proof.
  split; red; unfold grows; [auto using adds_refl|]. intros w1 w2 w3 H1 H2 Hg. specialize (H1 Hg).
  eapply adds_trans; [done|]. by eapply H2, adds_guarded.
Qed.

Lemma grows_ret {A} (a : A) : st_does grows (mret a : fetch A). Proof. apply (st_does_ret grows). Qed.
Lemma grows_bind {A B} (m : fetch A) (f : A → fetch B) : st_does grows m → (∀ a, st_does grows (f a)) → st_does grows (m ≫= f).
Proof. apply (st_does_bind grows). Qed.
Lemma grows_bind_post {A B} (P : A → Prop) (m : fetch A) (f : A → fetch B) :
  st_does grows m → (∀ w a w', m w = (Ok a, w') → P a) → (∀ a, P a → st_does grows (f a)) → st_does grows (m ≫= f).
Proof. apply (st_does_bind_post grows P). Qed.
Lemma grows_fail {A} e : st_does grows (fail (A:=A) e). Proof. by intros w r w' [= _ <-]; intros _; apply adds_refl. Qed.
Lemma grows_lift {A} (x : result FetchError A) : st_does grows (lift x). Proof. intros w r w' [= _ <-] _. apply adds_refl. Qed.
Lemma grows_ask {A} (f : nat → A) : st_does grows (ask f).
Proof. intros w r w' [= _ <-] _. split; by exists []. Qed.
Lemma grows_opened s : guarded s → st_does grows (opened s).
Proof. intros Hs w r w' [= _ <-] _. split; [exists [s]; split; [done|by constructor]|by exists []]. Qed.
Lemma grows_sent u s : sendable u s → st_does grows (sent u s).
Proof. intros Hs w r w' [= _ <-] _. split; [by exists []|exists [(u, s)]; split; [done|by constructor]]. Qed.

Lemma lookup_grows network host : st_does grows (lookup_addrs net network host).
Proof.
  unfold lookup_addrs. destruct (ParseAddr host); [apply grows_ret|]. apply grows_bind; [apply grows_ask|intros r].
  apply grows_bind; [apply grows_lift|intros l]. destruct l; [apply grows_fail|apply grows_ret].
Qed.

Lemma lookup_wf network host w l w' : lookup_addrs net network host w = (Ok l, w') → Forall addr_wf l ∧ l ≠ [].
Proof.
  unfold lookup_addrs. destruct (ParseAddr host) as [a|] eqn:Ha; [intros [= <- <-]; split; [|done]; apply Forall_singleton; by eapply ParseAddr_wf|].
  intros [(e & _ & ?)|(r & w1 & Hr & Hx)]%st_bind_inv; [done|]. injection Hr as <- <-.
  apply st_bind_inv in Hx as [(e & _ & ?)|(ips & w2 & Hl & Hx)]; [done|]. injection Hl as Hl <-.
  apply Hnet in Hl. destruct ips; [done|]. by injection Hx as <- <-.
Qed.

Lemma dial_literal_grows scheme addr host port ip : addr_wf ip → SplitHostPort addr = Some (host, port) →
  st_does grows (dial_literal net scheme addr host (if hostAllowed (gdPolicy g) host then None else Some (control g host)) ip port).
Proof.
  intros Hip Hsp. unfold dial_literal. case_bool_decide; [apply grows_fail|].
  apply (grows_bind_post (λ _, hostAllowed (gdPolicy g) host = true ∨ permitted (gdPolicy g) (Unmap ip))); [apply grows_lift| |intros _ Hok].
  - intros w u w' [= Hx _]. destruct (hostAllowed _ _); [by left|right]. unfold control in Hx. rewrite Hranges in Hx.
    destruct u. eapply check_spec; [done|by apply Unmap_wf|done].
  - apply grows_bind; [apply grows_ask|intros [e|]]; [apply grows_fail|].
    apply grows_bind; [apply grows_opened|intros _; apply grows_ret]. split; [done|]. split; [by apply Unmap_wf|done].
Qed.

Lemma attempt_grows {A} (m : fetch A) : st_does grows m → st_does grows (attempt_dial m).
Proof. intros Hm w r w'. unfold attempt_dial. destruct (m w) eqn:Hx. intros [= _ <-]. by eapply Hm. Qed.

Lemma dial_each_grows dial ips e : Forall (λ ip, st_does grows (dial ip)) ips → st_does grows (dial_each net dial ips e).
Proof.
  intros Hd. revert e. induction Hd as [|ip ips Hip Hd IH]; intros e; cbn [dial_each].
  - destruct e; [apply grows_fail|apply grows_ret].
  - apply grows_bind; [by apply attempt_grows|intros [s|x]; [apply grows_ret|]].
    apply grows_bind; [apply grows_ask|intros [|]; [apply grows_fail|apply IH]].
Qed.

Lemma DialContext_grows scheme network addr : st_does grows (DialContext net g scheme network addr).
Proof.
  unfold DialContext. destruct (SplitHostPort addr) as [[host port]|] eqn:Hsp; [|apply grows_fail]. cbv zeta.
  apply (grows_bind_post (Forall addr_wf)); [apply lookup_grows|by intros w l w' [? _]%lookup_wf|intros ips Hips].
  apply dial_each_grows. eapply Forall_impl; [exact Hips|]. intros ip Hip. by apply dial_literal_grows.
Qed.

(** A connection that is answered was opened, under the scheme and address asked for. *)
Definition connected (scheme addr : string) (w : Wire) (s : Socket) : Prop :=
  s ∈ wSockets w ∧ skScheme s = scheme ∧ skDialed s = addr.

Lemma dial_literal_connected scheme addr host port ip hook w s w' :
  dial_literal net scheme addr host hook ip port w = (Ok s, w') → connected scheme addr w' s.
Proof.
  unfold dial_literal. case_bool_decide; [done|]. intros [(x & _ & ?)|(u & w1 & Hu & Hx)]%st_bind_inv; [done|].
  apply st_bind_inv in Hx as [(x & _ & ?)|(c & w2 & _ & Hx)]; [done|]. destruct c; [done|].
  injection Hx as <- <-. split; [|done]. by left.
Qed.

Lemma dial_each_result (P : Wire → Socket → Prop) dial ips e w c w' :
  (∀ ip w s w', dial ip w = (Ok s, w') → P w' s) → (ips ≠ [] ∨ is_Some e) →
  dial_each net dial ips e w = (Ok c, w') → ∃ s, c = Some s ∧ P w' s.
Proof.
  intros Hd. revert e w. induction ips as [|ip ips IH]; intros e w; cbn [dial_each]; [by intros [?|[x ->]]|]. intros _.
  intros [(x & _ & ?)|(r & w1 & Hr & Hx)]%st_bind_inv; [done|]. unfold attempt_dial in Hr.
  destruct (dial ip w) as [r0 w0] eqn:Hip. injection Hr as <- <-. destruct r0 as [s0|x]; [injection Hx as <- <-; eauto|].
  apply st_bind_inv in Hx as [(y & _ & ?)|(b & w2 & _ & Hx)]; [done|]. destruct b; [done|]. eapply IH; [|exact Hx]. right. eauto.
Qed.

Lemma DialContext_connected scheme network addr w c w' :
  DialContext net g scheme network addr w = (Ok c, w') → ∃ s, c = Some s ∧ connected scheme addr w' s.
Proof.
  unfold DialContext. destruct (SplitHostPort addr) as [[host port]|]; [|done]. cbv zeta.
  intros [(x & _ & ?)|(ips & w1 & Hl & Hx)]%st_bind_inv; [done|]. apply lookup_wf in Hl as [_ Hne].
  eapply dial_each_result; [|by left|exact Hx]. intros ip w2 s w3. apply dial_literal_connected.
Qed.

Lemma getConn_grows reuse u : st_does grows (getConn net g reuse u).
Proof.
  intros w r w'. unfold getConn. destruct (List.find _ _); [destruct reuse; [intros [= _ <-] _; apply adds_refl|]|]; apply DialContext_grows.
Qed.

Lemma getConn_serves reuse u w c w' : all_guarded w → getConn net g reuse u w = (Ok c, w') →
  ∃ s, c = Some s ∧ serves u s = true ∧ guarded s.
Proof.
  intros Hg Hc. pose proof (adds_guarded _ _ (getConn_grows reuse u _ _ _ Hc Hg) Hg) as Hg'. revert Hc. unfold getConn.
  assert (Hdial : DialContext net g (tgScheme u) "tcp" (canonicalAddr u) w = (Ok c, w') → ∃ s, c = Some s ∧ serves u s = true ∧ guarded s).
  { intros (s & -> & Hin & Hs & Hd)%DialContext_connected. exists s. split; [done|]. split; [|by eapply Forall_forall in Hg'; [|exact Hin]].
    unfold serves. rewrite Hs, Hd. unfold str_eqb. by rewrite !bool_decide_true. }
  destruct (List.find _ _) as [s|] eqn:Hf; [destruct reuse|]; [intros [= <- <-]|exact Hdial..].
  apply List.find_some in Hf as [Hin Hs]. exists s. split; [done|]. split; [done|]. rewrite <- list_elem_of_In in Hin.
  by eapply Forall_forall in Hg; [|exact Hin].
Qed.

Lemma round_trip_grows attempts u : httpScheme (tgScheme u) = true → st_does grows (round_trip net g attempts u).
Proof.
  intros Hu. assert (Hstep : ∀ reuse (k : Socket → fetch Response), (∀ s, sendable u s → st_does grows (k s)) →
      st_does grows (c ← getConn net g reuse u; match c with None => fail ErrAddress | Some s => k s end)).
  { intros reuse k Hk w r w' [(e & Hx & _)|(c & w1 & Hx & Hr)]%st_bind_inv Hg; pose proof (getConn_grows reuse u _ _ _ Hx Hg) as Ha; [done|].
    pose proof (getConn_serves _ _ _ _ _ Hg Hx) as (s & -> & Hs & Hgs). eapply adds_trans; [exact Ha|].
    eapply Hk; [split; [done|by split]|exact Hr|by eapply adds_guarded]. }
  induction attempts as [|b attempts IH]; cbn [round_trip]; apply Hstep; intros s Hs;
    (apply grows_bind; [by apply grows_sent|intros _]; apply grows_bind; [apply grows_ask|intros [resp|e]]); try apply grows_ret; [apply grows_fail|done].
Qed.

Lemma RoundTrip_grows u : st_does grows (schemeGuard_RoundTrip net g offline u).
Proof.
  unfold schemeGuard_RoundTrip. destruct (httpScheme (tgScheme u)) eqn:Hu; [|apply grows_fail]. cbn [negb].
  unfold netpolicy_RoundTrip. destruct (offline u); [apply grows_fail|]. unfold Transport_RoundTrip. destruct (str_eqb _ _); [apply grows_fail|].
  apply grows_bind; [apply grows_ask|intros l; by apply round_trip_grows].
Qed.

Lemma do_requests_grows fuel u via : st_does grows (do_requests net g offline fuel u via).
Proof.
  revert u via. induction fuel as [|fuel IH]; intros u via; cbn [do_requests]; [apply grows_ret|].
  apply grows_bind; [apply RoundTrip_grows|intros resp]. destruct (redirects resp); [|apply grows_ret].
  destruct (rsLocation resp); [apply grows_ret|apply grows_fail|]. apply grows_bind; [apply grows_lift|intros _; apply IH].
Qed.
End client.

#[local] Existing Instance grows_preorder.

(** ** The entries of a configuration *)
Lemma masked_shift m w b : 0 ≤ m < 2 ^ w → 0 ≤ b ≤ w →
  Z.land m (Z.shiftl (Z.ones b) (w - b)) = Z.shiftl (Z.shiftr m (w - b)) (w - b).
Proof.
  intros Hm Hb. rewrite land_shiftl by lia. f_equal. rewrite Z.land_ones by lia. apply Z.mod_small.
  rewrite Z.shiftr_div_pow2 by lia. split; [apply Z.div_pos; lia|]. apply Z.div_lt_upper_bound; [lia|].
  rewrite <- Z.pow_add_r by lia. replace (w - b + b) with w by lia. lia.
Qed.

Lemma masked_value m w b : 0 ≤ m < 2 ^ w → 0 ≤ b ≤ w →
  let x := Z.land m (Z.shiftl (Z.ones b) (w - b)) in 0 ≤ x < 2 ^ w ∧ x / 2 ^ (w - b) = m / 2 ^ (w - b).
Proof.
  intros Hm Hb x. unfold x. rewrite masked_shift, Z.shiftl_mul_pow2, Z.shiftr_div_pow2, Z.div_mul by lia.
  pose proof (Z.pow_pos_nonneg 2 (w - b)). pose proof (Z.mul_div_le m (2 ^ (w - b))). pose proof (Z.div_pos m (2 ^ (w - b))). nia.
Qed.

Lemma Masked_covers p : prefix_wf p → 0 ≤ pfxBits p → pfxAddr p ≠ NoAddr →
  prefix_wf (Masked p) ∧ ∀ a, covers (Masked p) a ↔ covers p a.
Proof.
  destruct p as [m b]. intros (Hm & Hz & Hb) Hb0 Hn. unfold Masked, IsValid, prefix_wf. cbn [pfxAddr pfxBits] in *.
  replace (b =? -1) with false by lia. cbn [negb]. destruct m as [|m|m z]; [done|..]; cbn [addr_wf BitLen] in *.
  - destruct (masked_value m 32 b) as [Hr He]; [lia..|]. split; [split; [exact Hr|split; [done|exact Hb]]|].
    intros a. unfold covers. cbn [pfxAddr pfxBits]. unfold mask4. by rewrite He.
  - destruct (masked_value m 128 b) as [Hr He]; [lia..|]. split; [split; [exact Hr|split; [done|exact Hb]]|].
    intros a. unfold covers. cbn [pfxAddr pfxBits]. unfold mask6. by rewrite He.
Qed.

Lemma number_nonneg s : str_forall is_digit s = true → 0 ≤ number s.
Proof.
  unfold number. enough (∀ n, 0 ≤ n → str_forall is_digit s = true → 0 ≤ foldl (λ n c, n * 10 + digit_value c) n (String.list_ascii_of_string s)) by auto with lia.
  induction s as [|c s IH]; cbn; [done|]. intros n Hn [Hc Hs]%andb_true_iff. apply IH; [|done]. pose proof (digit_byte c Hc). lia.
Qed.

Lemma ParsePrefix_wf s p : ParsePrefix s = Some p → prefix_wf p ∧ 0 ≤ pfxBits p ∧ pfxAddr p ≠ NoAddr.
Proof.
  unfold ParsePrefix. destruct (CutLast s "/") as [[a b]|]; cbn; [|done]. destruct (ParseAddr a) as [ip|] eqn:Ha; cbn; [|done].
  pose proof (ParseAddr_wf _ _ Ha) as Hip. destruct (Is6 ip && _); [done|]. unfold parseBits.
  destruct b as [|c b]; [done|]. destruct (str_forall is_digit (String c b) && _) eqn:Hd; [|done].
  apply andb_true_iff in Hd as [Hd _]. apply number_nonneg in Hd. cbn [mbind option_bind]. set (k := number (String c b)) in *. clearbody k.
  destruct (BitLen ip <? k) eqn:Hk; [done|]. intros [= <-]. unfold PrefixFrom, prefix_wf.
  replace ((k <? 0) || (BitLen ip <? k)) with false by lia. cbn [pfxAddr pfxBits].
  repeat split; [by apply WithZone_wf|apply Zone_plain|lia|destruct ip; cbn in *; lia|lia|].
  unfold ParseAddr in Ha. destruct ip; cbn; try done. exfalso. clear - Ha. unfold parseIPv4, parseIPv6 in Ha.
  repeat (case_match; try done); (try by destruct (parse_groups _)); simplify_eq.
Qed.

(** What a text of [fetch.allowed_cidrs] covers: a prefix its addresses, an address
    itself. *)
Definition entry_covers (text : string) (a : Addr) : Prop :=
  let s := TrimSpace text in
  if has_byte "/" s then ∃ p, ParsePrefix s = Some p ∧ covers p a
  else ∃ b, ParseAddr s = Some b ∧ a = WithZone (Unmap b) nostr ∧ a ≠ NoAddr.

Lemma single_covers b a : addr_wf b → addr_wf a → Zone a = nostr →
  covers (PrefixFrom b (BitLen b)) a ↔ a = WithZone b nostr ∧ a ≠ NoAddr.
Proof.
  intros Hb Ha Hz. unfold covers, PrefixFrom. cbn [pfxAddr pfxBits]. replace ((BitLen b <? 0) || (BitLen b <? BitLen b)) with false by (destruct b; done).
  destruct b as [|m|m z], a as [|n|n z']; cbn in *; subst; rewrite ?Z.div_1_r; split; intros; destruct_and?; simplify_eq; auto with lia.
Qed.

Lemma parseCIDR_covers text pfx : parseCIDR text = Ok pfx →
  prefix_wf pfx ∧ ∀ a, addr_wf a → Zone a = nostr → covers pfx a ↔ entry_covers text a.
Proof.
  unfold parseCIDR, entry_covers. cbv zeta. destruct (has_byte "/" (TrimSpace text)); cbn [negb].
  - destruct (ParsePrefix (TrimSpace text)) as [p|] eqn:Hp; [|done]. intros [= <-].
    destruct (ParsePrefix_wf _ _ Hp) as (Hw & Hb & Hn). destruct (Masked_covers p Hw Hb Hn) as [Hmw Hmc].
    split; [done|]. intros a _ _. rewrite Hmc. naive_solver.
  - destruct (ParseAddr (TrimSpace text)) as [b|] eqn:Hb; [|done]. intros [= <-]. apply ParseAddr_wf in Hb as Hw. apply Unmap_wf in Hw.
    split.
    + unfold PrefixFrom, prefix_wf. cbn [pfxAddr pfxBits]. repeat split; [by apply WithZone_wf|apply Zone_plain|..]; destruct (Unmap b); cbn; lia.
    + intros a Ha Hz. rewrite single_covers by done. naive_solver.
Qed.

Lemma each_at_ok {A B E F} (wrap : nat → E → F) (f : A → result E B) i l out :
  each_at wrap f i l = Ok out ↔ Forall2 (λ x y, f x = Ok y) l out.
Proof.
  revert i out. induction l as [|x l IH]; intros i out; cbn [each_at].
  - split; [intros [= <-]; constructor|]. by intros ->%Forall2_nil_inv_l.
  - destruct (f x) as [y|e] eqn:Hx; [|split; [done|by intros (y & ? & ? & _)%Forall2_cons_inv_l; congruence]].
    split.
    + intros (out' & Hr & ->)%fmap_ok_inv. constructor; [done|by eapply IH].
    + intros (y' & out' & Hy & Hr & ->)%Forall2_cons_inv_l. apply (IH (S i)) in Hr. rewrite Hr. cbn. congruence.
Qed.

(** The index in an error is that of the first entry that does not parse. *)
Lemma each_at_err {A B E F} (wrap : nat → E → F) (f : A → result E B) i l x :
  each_at wrap f i l = Err x → ∃ k a e, l !! k = Some a ∧ f a = Err e ∧ x = wrap (i + k)%nat e ∧ Forall (λ a, is_ok (f a) = true) (take k l).
Proof.
  revert i. induction l as [|a l IH]; intros i; cbn [each_at]; [done|]. destruct (f a) as [y|e] eqn:Ha.
  - destruct (each_at wrap f (S i) l) as [?|e] eqn:Hr; [done|]. intros [= <-]. apply IH in Hr as (k & b & e' & Hk & Hb & -> & Ht).
    exists (S k), b, e'. repeat split; [done..|by rewrite Nat.add_succ_r|]. cbn. constructor; [by rewrite Ha|done].
  - intros [= <-]. exists 0%nat, a, e. repeat split; [done|by rewrite Nat.add_0_r|constructor].
Qed.

Section config.
Context `{GoUnicode}.

Definition host_text (h : string) : string := ToLower (TrimSuffix h ".").

Lemma normalize_text h x : normalizeFetchHost h = Ok x → x = host_text (TrimSpace h).
Proof. unfold normalizeFetchHost. cbv zeta. destruct (str_eqb _ _); [done|]. destruct (existsb _ _); [done|]. by intros [= <-]. Qed.

(** What a configuration exempts and lists; one with a malformed entry says nothing. *)
Definition cfg_private (c : FetchConfig) : Prop := is_ok (FetchConfig_Policy c) = true ∧ fcAllowPrivate c = true.
Definition cfg_host (c : FetchConfig) (host : string) : Prop :=
  is_ok (FetchConfig_Policy c) = true ∧ ∃ h, h ∈ fcAllowedHosts c ∧ host_text (TrimSpace h) = host_text host.
Definition cfg_lists (c : FetchConfig) (a : Addr) : Prop :=
  is_ok (FetchConfig_Policy c) = true ∧ ∃ text, text ∈ fcAllowedCIDRs c ∧
    (entry_covers text (WithZone a nostr) ∨ entry_covers text (Unmap (WithZone a nostr))).

Lemma policy_parts c p : FetchConfig_Policy c = Ok p →
  fpAllowPrivate p = fcAllowPrivate c ∧ Forall2 (λ h x, normalizeFetchHost h = Ok x) (fcAllowedHosts c) (fpAllowedHosts p) ∧
  Forall2 (λ t x, parseCIDR t = Ok x) (fcAllowedCIDRs c) (fpAllowedCIDRs p).
Proof.
  unfold FetchConfig_Policy, ParseFetchPolicy. intros (hs & Hh & (cs & Hc & [= <-])%bind_ok_inv)%bind_ok_inv.
  apply each_at_ok in Hh, Hc. done.
Qed.

Lemma parsed_policy_wf c p : FetchConfig_Policy c = Ok p → policy_wf p.
Proof.
  intros (_ & _ & Hc)%policy_parts. unfold policy_wf. rewrite Forall_forall. intros pfx Hin.
  apply (Forall2_in_r _ _ _ _ Hc) in Hin as (t & _ & Ht). by apply parseCIDR_covers in Ht as [? _].
Qed.

Lemma hostAllowed_iff p host : hostAllowed p host = true ↔ fpAllowPrivate p = true ∨ host_text host ∈ fpAllowedHosts p.
Proof.
  unfold hostAllowed. rewrite orb_true_iff, List.existsb_exists. unfold str_eqb. setoid_rewrite bool_decide_eq_true.
  setoid_rewrite <- list_elem_of_In. split; [intros [?|(x & Hx & <-)]; auto|]. intros [?|?]; eauto.
Qed.

Lemma cfg_hostAllowed c p host : FetchConfig_Policy c = Ok p → hostAllowed p host = true ↔ cfg_private c ∨ cfg_host c host.
Proof.
  intros Hp. rewrite hostAllowed_iff. unfold cfg_private, cfg_host. rewrite Hp. destruct (policy_parts _ _ Hp) as (-> & Hh & _).
  split; [intros [?|Hin]; [by left|]|intros [[_ ?]|[_ (h & Hin & He)]]; [by left|]]; right.
  - split; [done|]. apply (Forall2_in_r _ _ _ _ Hh) in Hin as (h & Hin & Hx). exists h. by apply normalize_text in Hx.
  - apply (Forall2_in_l _ _ _ _ Hh) in Hin as (x & Hin & ->%normalize_text). by rewrite <- He.
Qed.

Lemma cfg_permitted c p a : FetchConfig_Policy c = Ok p → addr_wf a → permitted p a ↔ cfg_private c ∨ public a ∨ cfg_lists c a.
Proof.
  intros Hp Ha. unfold permitted, listed, cfg_private, cfg_lists. rewrite Hp. destruct (policy_parts _ _ Hp) as (-> & _ & Hc).
  assert (Hcov : ∀ t x, parseCIDR t = Ok x → covers x (WithZone a nostr) ∨ covers x (Unmap (WithZone a nostr)) ↔
            entry_covers t (WithZone a nostr) ∨ entry_covers t (Unmap (WithZone a nostr))).
  { intros t x [_ Hx]%parseCIDR_covers. rewrite !Hx; auto using WithZone_wf, Unmap_wf, Zone_plain, Zone_unmapped. }
  split; (intros [?|[?|Hl]]; [naive_solver..|]); right; right.
  - destruct Hl as (x & Hin & Hx). split; [done|]. apply (Forall2_in_r _ _ _ _ Hc) in Hin as (t & Hin & Ht).
    exists t. split; [done|]. by apply (Hcov t x Ht).
  - destruct Hl as (_ & t & Hin & Hx). apply (Forall2_in_l _ _ _ _ Hc) in Hin as (x & Hin & Ht).
    exists x. split; [done|]. by apply (Hcov t x Ht).
Qed.
End config.

(** ** The guard of a configuration *)
Section guard.
Context `{GoUnicode, GoNet} (net : Outside) (offline : Target → bool).

Lemma FetchGuard_ranges cfg : gdRanges (FetchGuard cfg) = defaultBlocked ∧ 0 < gdMaxRedirects (FetchGuard cfg) ∧ policy_wf (gdPolicy (FetchGuard cfg)).
Proof.
  unfold FetchGuard. destruct cfg as [c|]; [|by repeat split; constructor]. destruct (FetchConfig_Policy c) as [p|] eqn:Hp; [|by repeat split; constructor].
  repeat split. by eapply parsed_policy_wf.
Qed.

(** What a configuration says of a connection: off altogether, an exempt host, a
    public address, or a listed one. *)
Definition cfg_allows (cfg : option FetchConfig) (host : string) (a : Addr) : Prop :=
  public a ∨ ∃ c, cfg = Some c ∧ (cfg_private c ∨ cfg_host c host ∨ cfg_lists c a).

Lemma guarded_allows cfg s : guarded (FetchGuard cfg) s → cfg_allows cfg (skHost s) (skAddr s).
Proof.
  intros (_ & Ha & Hs). unfold cfg_allows. unfold FetchGuard in Hs.
  assert (Hdef : hostAllowed zeroPolicy (skHost s) = true ∨ permitted zeroPolicy (skAddr s) → public (skAddr s)).
  { rewrite hostAllowed_iff. unfold permitted, listed. cbn. intros [[?|Hx]|[?|[?|(x & Hx & _)]]]; try done; inversion Hx. }
  destruct cfg as [c|]; [|left; by apply Hdef]. destruct (FetchConfig_Policy c) as [p|] eqn:Hp; [|left; by apply Hdef].
  cbn [gdPolicy NewGuard foPolicy] in Hs. rewrite (cfg_hostAllowed c p), (cfg_permitted c p) in Hs by done. naive_solver.
Qed.

(** Anything the guard is used for: fetches, bare connections, vetted URLs. *)
Inductive guard_step (g : Guard) (w w' : Wire) : Prop :=
| step_fetch u r : Client_Do net g offline u w = (r, w') → guard_step g w w'
| step_dial network addr r : DialContext net g nostr network addr w = (r, w') → guard_step g w w'
| step_vet url r : CheckURL net g url w = (r, w') → guard_step g w w'.

Lemma CheckURL_grows g url : st_does (grows g) (CheckURL net g url).
Proof.
  unfold CheckURL. destruct (ParseURL _) as [u|]; [|apply grows_fail]. destruct (negb _); [apply grows_fail|]. cbv zeta.
  destruct (str_eqb _ _); [apply grows_fail|]. destruct (hostAllowed _ _); [apply grows_ret|].
  apply grows_bind; [apply lookup_grows|intros l; apply grows_lift].
Qed.

Lemma guard_steps_grow cfg w w' : net_wf net → star (guard_step (FetchGuard cfg)) w w' → grows (FetchGuard cfg) w w'.
Proof.
  intros Hnet. destruct (FetchGuard_ranges cfg) as (Hr & _ & Hp).
  induction 1 as [w|w w1 w2 Hs _ IH]; [reflexivity|]. etransitivity; [|exact IH].
  destruct Hs as [u r Hx|network addr r Hx|url r Hx]; revert Hx; [apply do_requests_grows|apply DialContext_grows|apply CheckURL_grows]; done.
Qed.

(** C16. No private address is reached unless the configuration says so.  Whatever the
    resolver, the network and the servers answer, from one moment to the next, every
    connection the guard of a configuration ever made reached a public address,
    or one the configuration allows, for the host it was dialed for; and every
    request was an http or https one, sent on such a connection made for its own
    scheme, host and port. *)
Theorem fetch_guarded cfg w :
  net_wf net → star (guard_step (FetchGuard cfg)) idleWire w →
  (∀ s, s ∈ wSockets w → SplitHostPort (skDialed s) = Some (skHost s, skPort s) ∧ cfg_allows cfg (skHost s) (skAddr s)) ∧
  (∀ u s, (u, s) ∈ wSent w → httpScheme (tgScheme u) = true ∧ skScheme s = tgScheme u ∧
     SplitHostPort (canonicalAddr u) = Some (skHost s, skPort s) ∧ cfg_allows cfg (skHost s) (skAddr s)).
Proof.
  intros Hnet Hs. destruct (guard_steps_grow _ _ _ Hnet Hs (Forall_nil_2 _)) as [(l & E & F) (m & T & G)].
  cbn in E, T. rewrite app_nil_r in E, T. rewrite E, T. rewrite Forall_forall in F. rewrite Forall_forall in G. split.
  - intros s Hin%F. split; [apply Hin|by apply guarded_allows].
  - intros u s Hin%G. destruct Hin as (Hh & Hsv & Hg). unfold serves in Hsv. cbn [fst snd] in *. apply andb_true_iff in Hsv as [Hsc Hd].
    apply bool_decide_eq_true in Hsc, Hd. rewrite <- Hd. repeat split; [done..|apply Hg|by apply guarded_allows].
Qed.

(** ** Redirects *)
Lemma do_requests_enough g n k u via w :
  Z.of_nat (length via + n) = gdMaxRedirects g + 1 → n ≠ 0%nat →
  do_requests net g offline (n + k) u via w = do_requests net g offline n u via w ∧ (do_requests net g offline n u via w).1 ≠ Ok None.
Proof.
  revert u via w. induction n as [|n IH]; intros u via w Hn; [done|]. intros _. cbn [do_requests Nat.add].
  unfold mbind, fetch_bind, st_bind. destruct (schemeGuard_RoundTrip net g offline u w) as [[resp|e] w1]; [|done].
  destruct (redirects resp); [|done]. destruct (rsLocation resp) as [| |u']; [done..|]. unfold lift.
  destruct (checkRedirect g u' (via ++ [u])) as [[]|e] eqn:Hc; [|done]. unfold checkRedirect in Hc.
  destruct (gdMaxRedirects g <? Z.of_nat (length (via ++ [u]))) eqn:Hl; [done|]. rewrite length_app in Hl. cbn [length] in Hl.
  apply Z.ltb_ge in Hl. apply IH; [rewrite length_app; cbn [length]|]; lia.
Qed.

(** A fetch ends.  With the redirects the guard of a configuration allows, a client
    sends one request more at most: the fuel for that many is never spent, and any
    more of it changes nothing, whatever the servers answer. *)
Theorem fetch_ends cfg k u w :
  do_requests net (FetchGuard cfg) offline (fetch_fuel (FetchGuard cfg) + k) u [] w = Client_Do net (FetchGuard cfg) offline u w ∧
  (Client_Do net (FetchGuard cfg) offline u w).1 ≠ Ok None.
Proof.
  destruct (FetchGuard_ranges cfg) as (_ & Hm & _). unfold Client_Do. apply do_requests_enough; unfold fetch_fuel; cbn [length]; lia.
Qed.

(** [CheckURL] passes exactly http and https URLs with a host that is exempt or whose
    every address is permitted. *)
Lemma CheckURL_spec cfg url w : net_wf net → let g := FetchGuard cfg in
  (CheckURL net g url w).1 = Ok tt ↔
  ∃ u, ParseURL (TrimSpace url) = Some u ∧ httpScheme (uScheme u) = true ∧ uHostname u ≠ nostr ∧
    (hostAllowed (gdPolicy g) (uHostname u) = true ∨
     ∃ ips, (lookup_addrs net "tcp" (uHostname u) w).1 = Ok ips ∧ Forall (permitted (gdPolicy g)) ips).
Proof.
  intros Hnet g. destruct (FetchGuard_ranges cfg) as (Hr & _ & Hp). fold g in Hr, Hp. unfold CheckURL.
  destruct (ParseURL _) as [u|]; [|split; [done|by intros (u & ? & _)]].
  destruct (httpScheme (uScheme u)) eqn:Hs; cbn [negb]; [|split; [done|intros (u' & [= <-] & ? & _); congruence]]. cbv zeta. unfold str_eqb.
  case_bool_decide as Hh; [split; [done|by intros (u' & [= <-] & _ & ? & _)]|].
  destruct (hostAllowed _ _) eqn:Ha; [split; [intros _|done]; eauto 10|].
  unfold mbind, fetch_bind, st_bind. destruct (lookup_addrs net "tcp" (uHostname u) w) as [[ips|e] w1] eqn:Hl;
    [|split; [done|intros (u' & [= <-] & _ & _ & [?|(ips & Hi & _)]); [congruence|by rewrite Hl in Hi]]].
  pose proof (lookup_wf _ Hnet _ _ _ _ _ Hl) as [Hwf _]. cbn [fst lift]. rewrite for_each_ok, Hr.
  assert (Forall (λ a, check_addr (gdPolicy g) defaultBlocked (uHostname u) a = Ok tt) ips ↔ Forall (permitted (gdPolicy g)) ips) as ->.
  { rewrite !Forall_forall. rewrite Forall_forall in Hwf.
    split; intros Hf a Hin; pose proof (Hf a Hin); destruct (check_spec (gdPolicy g) (uHostname u) a Hp (Hwf a Hin)); tauto. }
  split; [intros Hf; exists u; rewrite Hl; eauto 10|].
  intros (u' & [= <-] & _ & _ & [?|(ips' & Hi & Hf)]); [congruence|]. rewrite Hl in Hi. by injection Hi as <-.
Qed.
End guard.

(** ** An instance: a page that redirects to the metadata address, and an intranet *)
#[local] Instance ascii_unicode : GoUnicode := {| uc_to_lower := λ s, s; uc_is_letter := λ _, false; uc_is_digit := λ _, false |}.
#[local] Instance no_urls : GoNet := {| ParseURL _ := None; IsIP _ := false; IDNAToASCII s := Some s; EqualFold := String.eqb |}.

Definition ex_fetch_config : FetchConfig := mkFetchConfig false ["Wiki.corp.example."] ["10.20.0.0/16"].
Definition addr_of (s : string) : Addr := default NoAddr (ParseAddr s).

(** The resolver answers a public address first and a private one ever after. *)
Definition ex_net : Outside := mkOutside
  (λ t _ host, if str_eqb host "page.example" then Ok [if (t <=? 1)%nat then addr_of "93.184.216.34" else addr_of "::ffff:127.0.0.1"]
               else if str_eqb host "wiki.corp.example" then Ok [addr_of "192.168.7.7"] else Ok [addr_of "10.20.3.4"])
  (λ _ _ _, None) (λ _, false) (λ _, [])
  (λ _ s _, if str_eqb (skHost s) "page.example" then Ok (mkResponse 302 (ToURL (mkTarget "http" "169.254.169.254" "80")))
            else Ok (mkResponse 200 NoLocation)).
Definition ex_target (host : string) : Target := mkTarget "http" host "80".
Definition ex_fetches : list Target := map ex_target ["page.example"; "wiki.corp.example"; "intranet.example"; "page.example"].
Definition ex_fetch_run : list (result FetchError (option Response)) * Wire :=
  foldl (λ '(rs, w) u, let (r, w') := Client_Do ex_net (FetchGuard (Some ex_fetch_config)) (λ _, false) u w in (rs ++ [r], w')) ([], idleWire) ex_fetches.

(** The redirect to 169.254.169.254 is refused, and so is the loopback address the
    second lookup of the page's host answers; the exempt host and the listed range
    are reached. *)
Example ex_fetch_outcomes :
  ex_fetch_run.1 = [Err (ErrBlocked "169.254.169.254" (addr_of "169.254.169.254") "link-local"); Ok (Some (mkResponse 200 NoLocation));
                    Ok (Some (mkResponse 200 NoLocation)); Err (ErrBlocked "page.example" (addr_of "127.0.0.1") "loopback")] ∧
  map skAddr (wSockets ex_fetch_run.2) = [addr_of "10.20.3.4"; addr_of "192.168.7.7"; addr_of "93.184.216.34"].
Proof. vm_compute. done. Qed.

Lemma ex_net_wf : net_wf ex_net.
Proof.
  intros t network host l. cbn. repeat case_match; intros [= <-]; apply Forall_singleton; vm_compute; intuition discriminate.
Qed.

Lemma check_spec_witness :
  let p := mkFetchPolicy false [] [mkPrefix (V4 (10 * 2 ^ 24 + 20 * 2 ^ 16)) 16] in
  permitted p (addr_of "::ffff:10.20.0.5") ∧ ¬ permitted p (addr_of "64:ff9b::10.20.0.5").
Proof.
  assert (Hp : policy_wf (mkFetchPolicy false [] [mkPrefix (V4 (10 * 2 ^ 24 + 20 * 2 ^ 16)) 16])).
  { apply Forall_singleton. split; [cbn; lia|]. split; [reflexivity|cbn; lia]. }
  split.
  - apply (check_spec _ "h" _ Hp); [vm_compute; intuition discriminate|vm_compute; reflexivity].
  - intros Hx. apply (check_spec _ "h" _ Hp) in Hx; [vm_compute in Hx; discriminate Hx|vm_compute; intuition discriminate].
Defined.

Lemma fetch_run_steps us rs w : star (guard_step ex_net (λ _, false) (FetchGuard (Some ex_fetch_config))) idleWire w →
  star (guard_step ex_net (λ _, false) (FetchGuard (Some ex_fetch_config))) idleWire
    (foldl (λ '(rs, w) u, let (r, w') := Client_Do ex_net (FetchGuard (Some ex_fetch_config)) (λ _, false) u w in (rs ++ [r], w')) (rs, w) us).2.
Proof.
  revert rs w. induction us as [|u us IH]; intros rs w Hs; [done|]. cbn [foldl].
  destruct (Client_Do _ _ _ u w) as [r w'] eqn:Hr. apply IH. eapply star_trans; [exact Hs|].
  eapply star_step; [|apply star_refl]. by eapply step_fetch.
Qed.

Lemma fetch_guarded_witness :
  length (wSent ex_fetch_run.2) = 3%nat ∧
  ∀ s, s ∈ wSockets ex_fetch_run.2 → cfg_allows (Some ex_fetch_config) (skHost s) (skAddr s).
Proof.
  split; [vm_compute; reflexivity|]. intros s Hs.
  destruct (fetch_guarded ex_net (λ _, false) (Some ex_fetch_config) ex_fetch_run.2 ex_net_wf) as [Hg _].
  - apply (fetch_run_steps ex_fetches [] idleWire). apply star_refl.
  - by apply Hg.
Defined.
