(* ===== verification/Turns.v ===== *)
(** * Runs among others

    Code that makes calls on shared stores, one at a time, while other writers
    act between its calls, its context may be cancelled, calls may fail (with
    their effect or without it) and the process may die.  A run is a [RunM] over
    the shared state [S] and a log of the events [E] it publishes; what happens
    to it is the list of its [Turn]s.

    [lift R] is for what a run does to the shared state, [wp] for that it ends
    and how. *)

From S2P Require Import Prelude.

(** How a call ends: done, refused, or done with its answer lost. *)
Inductive Fate : Type := Runs | Refused | Lost.

(** What happens before and to the next call: what others do, whether the context
    is cancelled, whether the process dies, how the call ends. *)
Record Turn (S : Type) : Type := mkTurn { tnOthers : S → S; tnCancel : bool; tnKill : bool; tnFate : Fate }.
Arguments mkTurn {S} _ _ _ _. Arguments tnOthers {S} _ _. Arguments tnCancel {S} _. Arguments tnKill {S} _. Arguments tnFate {S} _.

Record RunCtx (S E : Type) : Type := mkRunCtx {
  cxShared : S;
  cxCancelled : bool;
  cxTurns : list (Turn S);
  cxEvents : list E;
}.
Arguments mkRunCtx {S E} _ _ _ _. Arguments cxShared {S E} _. Arguments cxCancelled {S E} _.
Arguments cxTurns {S E} _. Arguments cxEvents {S E} _.

(** Why a run did not return. *)
Inductive Halt : Type := Killed | OutOfFuel.

Definition RunM (S E A : Type) : Type := stateful (RunCtx S E) Halt A.
#[export] Instance run_ret S E : MRet (RunM S E) := λ A, st_ret.
#[export] Instance run_bind S E : MBind (RunM S E) := λ A B f m, st_bind m f.

Section turns.
Context {S E : Type}.
Implicit Types c : RunCtx S E.

Definition with_shared c (s : S) : RunCtx S E := mkRunCtx s (cxCancelled c) (cxTurns c) (cxEvents c).

(** The next moment of the run; once the turns are used up nothing else
    happens. *)
Definition turn : RunM S E Fate := λ c,
  match cxTurns c with
  | [] => (Ok Runs, c)
  | t :: ts =>
      let c := mkRunCtx (tnOthers t (cxShared c)) (cxCancelled c || tnCancel t) ts (cxEvents c) in
      if tnKill t then (Err Killed, c) else (Ok (tnFate t), c)
  end.

(** A step that always answers. *)
Definition on_ctx {A} (f : RunCtx S E → A * RunCtx S E) : RunM S E A := λ c, let '(a, c) := f c in (Ok a, c).
Definition on_shared {A} (f : S → A * S) : RunM S E A := on_ctx (λ c, ((f (cxShared c)).1, with_shared c (f (cxShared c)).2)).

(** A call: its answer, if it came. *)
Definition ask {A} (f : S → A * S) : RunM S E (option A) :=
  fate ← turn;
  match fate with
  | Runs => a ← on_shared f; mret (Some a)
  | Refused => mret None
  | Lost => _ ← on_shared f; mret None
  end.

(** [ctx.Err() != nil] *)
Definition ctx_Err : RunM S E bool := _ ← turn; on_ctx (λ c, (cxCancelled c, c)).
Definition publish (e : E) : RunM S E unit :=
  on_ctx (λ c, (tt, mkRunCtx (cxShared c) (cxCancelled c) (cxTurns c) (cxEvents c ++ [e]))).
Definition halt {A} (h : Halt) : RunM S E A := λ c, (Err h, c).

(** ** What a run does *)
Section within.
Context (polite : Turn S → Prop) (R : S → S → Prop) `{!PreOrder R}.

Definition lift (c c' : RunCtx S E) : Prop :=
  Forall polite (cxTurns c) → Forall polite (cxTurns c') ∧ R (cxShared c) (cxShared c').

#[export] Instance lift_preorder : PreOrder lift.
Proof.
  split; [by intros c Hc|]. intros a b c Hab Hbc Hf. destruct (Hab Hf) as [Hf' Hr]. destruct (Hbc Hf') as [Hf'' Hr'].
  split; [done|by transitivity (cxShared b)].
Qed.

Context (Hothers : ∀ t s, polite t → R s (tnOthers t s)).

Lemma does_ret {A} (a : A) : st_does lift (mret a : RunM S E A).
Proof. apply st_does_ret; apply _. Qed.
Lemma does_seq {A B} (m : RunM S E A) (f : A → RunM S E B) :
  st_does lift m → (∀ a, st_does lift (f a)) → st_does lift (m ≫= f).
Proof. apply st_does_bind; apply _. Qed.
Lemma does_turn : st_does lift turn.
Proof.
  intros c r c' Hx Hf. unfold turn in Hx. destruct (cxTurns c) as [|t ts] eqn:Ht; [by injection Hx as _ <-; rewrite Ht|].
  apply Forall_cons in Hf as [Hp Hf]. destruct (tnKill t); injection Hx as _ <-; (split; [done|by apply Hothers]).
Qed.
Lemma does_on {A} (f : RunCtx S E → A * RunCtx S E) :
  (∀ c, cxTurns (f c).2 = cxTurns c ∧ R (cxShared c) (cxShared (f c).2)) → st_does lift (on_ctx f).
Proof.
  intros Hf c r c' Hx Hp. unfold on_ctx in Hx. specialize (Hf c). destruct (f c) as [a c1]. injection Hx as _ <-.
  destruct Hf as [Ht Hr]. cbn in *. by rewrite Ht.
Qed.
Lemma does_ask {A} (f : S → A * S) : (∀ s, R s (f s).2) → st_does lift (ask f).
Proof.
  intros Hf. apply does_seq; [apply does_turn|]. intros []; try apply does_ret;
    (apply does_seq; [apply does_on; intros c; by split|intros a; apply does_ret]).
Qed.
Lemma does_ctx_Err : st_does lift ctx_Err.
Proof. apply does_seq; [apply does_turn|]. intros _. by apply does_on. Qed.
Lemma does_publish e : st_does lift (publish e).
Proof. by apply does_on. Qed.
Lemma does_halt {A} h : st_does lift (halt h : RunM S E A).
Proof. intros c r c' [= _ <-]. reflexivity. Qed.
End within.

Lemma lift_mono polite (R R' : S → S → Prop) {A} (m : RunM S E A) :
  (∀ s s', R s s' → R' s s') → st_does (lift polite R) m → st_does (lift polite R') m.
Proof. intros HR Hm c r c' Hx Hf. destruct (Hm _ _ _ Hx Hf) as [? ?]. auto. Qed.

(** What a read answers. *)
Lemma read_spec {A} (f : S → A) c a c' : ask (λ s, (f s, s)) c = (Ok a, c') → a = Some (f (cxShared c')) ∨ a = None.
Proof.
  unfold ask, mbind, run_bind. intros [(e & _ & ?)|(fate & c1 & _ & Hx)]%st_bind_inv; [done|].
  destruct fate; injection Hx as <- <-; auto.
Qed.

(** A later context of the same run: moments used up, events published. *)
Definition later (c c' : RunCtx S E) : Prop :=
  (∃ ts, cxTurns c = ts ++ cxTurns c') ∧ ∃ es, cxEvents c' = cxEvents c ++ es.
#[export] Instance later_preorder : PreOrder later.
Proof.
  split; [intros c; split; [by exists []|exists []; by rewrite app_nil_r]|].
  intros a b c [[ts Ht] [es He]] [[ts' Ht'] [es' He']]. split.
  - exists (ts ++ ts'). by rewrite <- app_assoc, <- Ht'.
  - exists (es ++ es'). by rewrite app_assoc, <- He.
Qed.
Lemma later_turn fate c c' : turn c = (Ok fate, c') → later c c'.
Proof.
  unfold turn. destruct (cxTurns c) as [|t ts] eqn:Ht; [by intros [= _ <-]|]. destruct (tnKill t); [done|].
  intros [= _ <-]. split; [exists [t]; by rewrite Ht|exists []; by rewrite app_nil_r].
Qed.

(** ** That it ends, and how

    [kills]: what holds if it is killed. *)
Definition wp {A} (kills : RunCtx S E → Prop) (m : RunM S E A) (Q : A → RunCtx S E → Prop) (c : RunCtx S E) : Prop :=
  match m c with
  | (Ok a, c') => Q a c'
  | (Err Killed, c') => kills c'
  | (Err OutOfFuel, _) => False
  end.

Lemma wp_mret {A} K (a : A) Q c : Q a c → wp K (mret a) Q c.
Proof. done. Qed.
Lemma wp_seq_run {A B} K (m : RunM S E A) (f : A → RunM S E B) Q c : wp K m (λ a c', wp K (f a) Q c') c → wp K (m ≫= f) Q c.
Proof. unfold wp, mbind, run_bind, st_bind. destruct (m c) as [[a|[]] c']; done. Qed.
Lemma wp_publish K e Q c :
  Q tt (mkRunCtx (cxShared c) (cxCancelled c) (cxTurns c) (cxEvents c ++ [e])) → wp K (publish e) Q c.
Proof. done. Qed.
Lemma wp_weaken {A} K (m : RunM S E A) (P Q : A → RunCtx S E → Prop) c : wp K m P c → (∀ a c', P a c' → Q a c') → wp K m Q c.
Proof. unfold wp. destruct (m c) as [[a|[]] c']; auto. Qed.

(** The context a run ends in is the one it computes. *)
Lemma wp_answered {A} K (m : RunM S E A) Q c : wp K m (λ a c', m c = (Ok a, c') → Q a c') c → wp K m Q c.
Proof. unfold wp. destruct (m c) as [[a|[]] c']; auto. Qed.

Lemma wp_kills {A} (K K' : RunCtx S E → Prop) (m : RunM S E A) Q c : wp K m Q c → (∀ c', K c' → K' c') → wp K' m Q c.
Proof. unfold wp. destruct (m c) as [[a|[]] c']; auto. Qed.

(** *** Among polite others

    [sm]: whether the run goes smoothly: no call fails, nothing cancels or kills
    it.  [crash]: what holds of the shared state whenever the process may die. *)
Section sure.
Context (polite : Turn S → Prop) (R : S → S → Prop) `{!PreOrder R} (Hothers : ∀ t s, polite t → R s (tnOthers t s)).
Context (sm : bool) (crash : S → Prop).
Local Notation sure := (wp (λ c, sm = false ∧ crash (cxShared c))).

Definition smooth_turn (t : Turn S) : Prop := tnCancel t = false ∧ tnKill t = false ∧ tnFate t = Runs.

(** Dying now would leave what it may, whatever the others do first. *)
Definition covers (s : S) : Prop := ∀ s', R s s' → crash s'.

Record ready c : Prop := {
  rd_polite : Forall polite (cxTurns c);
  rd_smooth : sm = true → Forall smooth_turn (cxTurns c) ∧ cxCancelled c = false;
  rd_covers : covers (cxShared c);
}.

(** Where a run got to: [c'] after [c]. *)
Record went c c' : Prop := { we_ready : ready c'; we_within : R (cxShared c) (cxShared c') }.
Lemma went_refl c : ready c → went c c.
Proof. by split. Qed.
Lemma went_trans a b c : went a b → went b c → went a c.
Proof. intros [? ?] [? ?]. split; [done|by transitivity (cxShared b)]. Qed.
Lemma covers_within s s' : covers s → R s s' → covers s'.
Proof. intros Hs Hr s2 Hr2. apply Hs. by transitivity s'. Qed.
Lemma ready_with c s : ready c → covers s → ready (with_shared c s).
Proof. intros [] Hs. by split. Qed.

Lemma wp_turn Q c : ready c →
  (∀ fate c', went c c' → cxEvents c' = cxEvents c → (sm = true → fate = Runs) → Q fate c') → sure turn Q c.
Proof.
  intros [Ht Hs Hcov] HQ. unfold wp, turn. destruct (cxTurns c) as [|t ts] eqn:Ets.
  - apply HQ; [|done..]. apply went_refl. split; rewrite ?Ets; auto.
  - apply Forall_cons in Ht as [Ht Hts].
    assert (Hw : went c (mkRunCtx (tnOthers t (cxShared c)) (cxCancelled c || tnCancel t) ts (cxEvents c))).
    { split; [|by apply Hothers]. split; [done| |by eapply covers_within; [|apply Hothers]].
      intros Hsm. destruct (Hs Hsm) as [Hf Hc].
      apply Forall_cons in Hf as [(Hcc & _) Hf]. split; [done|]. cbn. by rewrite Hc, Hcc. }
    destruct (tnKill t) eqn:Hk.
    + split; [|by apply Hcov, Hothers].
      destruct sm; [|done]. destruct (Hs eq_refl) as [Hf _]. apply Forall_cons in Hf as [(_ & ? & _) _]. congruence.
    + apply HQ; [done|done|]. intros Hsm. destruct (Hs Hsm) as [Hf _]. by apply Forall_cons in Hf as [(_ & _ & ?) _].
Qed.

(** A call answers, or fails with or without its effect. *)
Definition answered {A} (f : S → A * S) (s : S) (a : option A) (s' : S) : Prop :=
  a = Some (f s).1 ∧ s' = (f s).2 ∨ sm = false ∧ a = None ∧ (s' = s ∨ s' = (f s).2).

Lemma wp_ask {A} (f : S → A * S) Q c : ready c → (∀ s, R (cxShared c) s → covers (f s).2) →
  (∀ a s c', ready c' → R (cxShared c) s → answered f s a (cxShared c') → Q a c') → sure (ask f) Q c.
Proof.
  intros Hc Hcov HQ. unfold ask. apply wp_seq_run, wp_turn; [done|]. intros fate c1 [Hr Hk] _ Hf. destruct fate.
  - apply (HQ _ (cxShared c1)); [by apply ready_with, Hcov|done|by left].
  - apply (HQ _ (cxShared c1)); [done|done|right]. split_and!; [|done|by left]. destruct sm; [by specialize (Hf eq_refl)|done].
  - apply (HQ _ (cxShared c1)); [by apply ready_with, Hcov|done|right]. split_and!; [|done|by right]. destruct sm; [by specialize (Hf eq_refl)|done].
Qed.

(** One within what others may see. *)
Lemma wp_ask_within {A} (f : S → A * S) Q c : ready c → (∀ s, R s (f s).2) →
  (∀ a s c', went c c' → R (cxShared c) s → R s (cxShared c') → answered f s a (cxShared c') → Q a c') → sure (ask f) Q c.
Proof.
  intros Hc Hf HQ. apply wp_ask; [done| |].
  { intros s Hs. eapply covers_within; [apply Hc|]. by transitivity s. }
  intros a s c' Hr Hk Ha.
  assert (Hk' : R s (cxShared c')).
  { destruct Ha as [[_ ->]|(_ & _ & [->| ->])]; [apply Hf|reflexivity|apply Hf]. }
  apply (HQ a s); [|done|done|done]. split; [done|by transitivity s].
Qed.

Lemma wp_ctx_Err Q c : ready c → (∀ b c', went c c' → (sm = true → b = false) → Q b c') → sure ctx_Err Q c.
Proof.
  intros Hc HQ. apply wp_seq_run, wp_turn; [done|]. intros _ c1 Hw _ _. apply HQ; [done|].
  intros Hsm. by destruct (rd_smooth _ (we_ready _ _ Hw) Hsm).
Qed.
Lemma wp_clocked {A} (g : S → A) Q c : (∀ a, Q a c) → sure (on_shared (λ s, (g s, s))) Q c.
Proof. intros HQ. unfold wp, on_shared, on_ctx. destruct c. apply HQ. Qed.

End sure.

(** A part that is only known by what it does and how it ends. *)
Section known.
Context (polite : Turn S → Prop) (R : S → S → Prop) `{!PreOrder R} (sm : bool).

Definition behaves {A} (m : RunM S E A) (P : A → Prop) : Prop := ∀ c r c',
  Forall polite (cxTurns c) → (sm = true → Forall smooth_turn (cxTurns c) ∧ cxCancelled c = false) → m c = (r, c') →
  R (cxShared c) (cxShared c') ∧
  match r with
  | Ok a => Forall polite (cxTurns c') ∧ (sm = true → Forall smooth_turn (cxTurns c') ∧ cxCancelled c' = false) ∧ P a
  | Err Killed => sm = false
  | Err OutOfFuel => False
  end.

Lemma wp_behaves crash {A} (m : RunM S E A) P Q c : behaves m P → ready polite R sm crash c →
  (∀ a c', went polite R sm crash c c' → P a → Q a c') → wp (λ c, sm = false ∧ crash (cxShared c)) m Q c.
Proof.
  intros Hm [Hp Hs Hcov] HQ. unfold wp. destruct (m c) as [r c'] eqn:Hx.
  destruct (Hm c r c' Hp Hs Hx) as [Hr Hres].
  destruct r as [a|[]]; [|by split; [|apply Hcov]|done]. destruct Hres as (Hp' & Hs' & HP).
  apply HQ; [|done]. split; [|done]. split; [done|done|by eapply covers_within].
Qed.

(** What it answers, some call of it answered. *)
Lemma behaves_called {A} (m : RunM S E A) P : behaves m P → behaves m (λ a, P a ∧ ∃ c c', m c = (Ok a, c')).
Proof.
  intros Hm c r c' Hp Hs Hx. destruct (Hm c r c' Hp Hs Hx) as [Hr Hres]. split; [done|]. destruct r as [a|[]]; [|done..].
  destruct Hres as (? & ? & ?). eauto 10.
Qed.

Lemma behaves_wp {A} (m : RunM S E A) (P : A → Prop) :
  (∀ crash c, ready polite R sm crash c → wp (λ c, sm = false ∧ crash (cxShared c)) m (λ a c', went polite R sm crash c c' ∧ P a) c) →
  behaves m P.
Proof.
  intros Hm c r c' Hp Hs Hx. specialize (Hm (R (cxShared c)) c). unfold wp in Hm. rewrite Hx in Hm.
  assert (Hc : ready polite R sm (R (cxShared c)) c) by (split; [done|done|by intros s]). specialize (Hm Hc).
  destruct r as [a|[]]; [|by destruct Hm|done]. destruct Hm as [[[Hp' Hs' _] Hr] HP]. done.
Qed.
Lemma behaves_ret {A} (a : A) (P : A → Prop) : P a → behaves (mret a) P.
Proof. intros Ha c r c' Hp Hs [= <- <-]. done. Qed.
End known.
End turns.
