(* ===== verification/Pipelines.v ===== *)
(** * Pipelines: versions, contracts, the registry and detection

    Models [internal/pipeline]: versioned names ([version.go]), step contracts
    and their validation ([contract.go], [validate.go], [override.go]), permanent
    errors ([errors.go]), the registry ([registry.go]) and its detectors
    ([detector.go], [detectors.go]).  What a step runs is left to its user (file
    Ingest).  The order of [registry.List] is that of the sorted names. *)

From S2P Require Import Prelude GoStrings Encodings NetIP.

Local Open Scope Z_scope.

(** ** version.go *)

(** [strconv.Atoi], base 10 on 64 bits. *)
Definition Atoi (s : string) : option Z :=
  let '(neg, digits) := match s with
    | String c s' => if is_char c "-" then (true, s') else if is_char c "+" then (false, s') else (false, s)
    | EmptyString => (false, s)
    end in
  if str_eqb digits nostr || negb (str_forall is_digit digits) then None
  else
    let n := if neg : bool then - number digits else number digits in
    if (- 2 ^ 63 <=? n) && (n <? 2 ^ 63) then Some n else None.

(** [strings.LastIndex] of one byte, as the text before and the text after it. *)
Definition cut_last (c : ascii) (s : string) : option (string * string) :=
  let '(after, before) := span (λ d, negb (is_char d c)) (String.rev s) in
  match before with
  | EmptyString => None
  | String _ before => Some (String.rev before, String.rev after)
  end.

Definition ParseVersionedName (s : string) : string * Z * bool :=
  match cut_last "@" s with
  | None => (s, 0, true)
  | Some (name, suffix) =>
      if negb (HasPrefix suffix "v") then (s, 0, false)
      else
        let digits := str_drop 1 suffix in
        if str_eqb digits nostr then (s, 0, false)
        else match Atoi digits with
             | Some v => if v <? 0 then (s, 0, false) else (name, v, true)
             | None => (s, 0, false)
             end
  end.

Definition FormatVersionedName (name : string) (version : Z) : string := name +:+ "@v" +:+ pretty version.

(** ** contract.go, override.go *)
Record Contract : Type := mkContract { ctRequires : list string; ctProduces : list string; ctCapabilities : list string }.

(** A step: its name, its contract and what it runs. *)
Record PipelineStep (R : Type) : Type := mkStepOf { psName : string; psContract : Contract; psRun : R }.
Arguments mkStepOf {R} _ _ _. Arguments psName {R} _. Arguments psContract {R} _. Arguments psRun {R} _.

Definition SeedState : list string := ["RawContent"; "Source"; "Pipeline"].
Definition KeyAliases : list (string * string) :=
  [("text", "RawContent"); ("content_type", "ContentType"); ("type", "Type"); ("subtype", "Subtype");
   ("sections", "Sections"); ("tags", "Tags"); ("mentions", "Mentions"); ("metadata", "Metadata")]%string.

Definition named_in (l : list (string * string)) (k : string) : option string :=
  snd <$> List.find (λ kv, str_eqb kv.1 k) l.

Definition Canonicalize (key : string) : string :=
  if negb (StrContains key ".") then default key (named_in KeyAliases key) else key.

Record StepOverride : Type := mkOverride { soAddRequires : list string; soAddProduces : list string; soDropRequires : list string }.

Definition ApplyOverride {R} (step : PipelineStep R) (o : StepOverride) : PipelineStep R :=
  let base := psContract step in
  mkStepOf (psName step)
    (mkContract (List.filter (λ k, negb (contains (soDropRequires o) k)) (ctRequires base) ++ soAddRequires o)
       (ctProduces base ++ soAddProduces o) (ctCapabilities base))
    (psRun step).

(** ** validate.go *)

(** The text before the first dot, if there is one. *)
Definition fieldPrefix (key : string) : string := if StrContains key "." then CutBefore key "." else nostr.

(** A requirement that is not met: the step, its name and the key. *)
Definition ComposeError : Type := nat * string * string.

Definition met (available : gset string) (req : string) : bool :=
  bool_decide (Canonicalize req ∈ available) || bool_decide (fieldPrefix (Canonicalize req) ∈ available).

Fixpoint compose_from {R} (i : nat) (available : gset string) (steps : list (PipelineStep R)) : result ComposeError unit :=
  match steps with
  | [] => Ok tt
  | step :: steps =>
      match List.find (λ req, negb (met available req)) (ctRequires (psContract step)) with
      | Some req => Err (i, psName step, req)
      | None => compose_from (S i) (available ∪ list_to_set (map Canonicalize (ctProduces (psContract step)))) steps
      end
  end.
Definition ValidateComposability {R} (steps : list (PipelineStep R)) : result ComposeError unit :=
  compose_from 0 (list_to_set SeedState) steps.

Definition lacks_capability {R} (caps : gset string) (step : PipelineStep R) : bool :=
  existsb (λ c, negb (bool_decide (c ∈ caps))) (ctCapabilities (psContract step)).

(** [for i, x := range l] keeping what [f] picks. *)
Fixpoint pick_from {A B} (f : nat → A → option B) (i : nat) (l : list A) : list B :=
  match l with
  | [] => []
  | x :: l => match f i x with Some b => b :: pick_from f (S i) l | None => pick_from f (S i) l end
  end.
Definition ValidateCapabilities {R} (steps : list (PipelineStep R)) (caps : gset string) : list nat :=
  pick_from (λ i step, if lacks_capability caps step then Some i else None) 0 steps.
Definition RemoveIndices {R} (steps : list (PipelineStep R)) (indices : list nat) : list (PipelineStep R) :=
  pick_from (λ i step, if bool_decide (i ∈ indices) then None else Some step) 0 steps.

(** ** registry.go *)
Section registry.
Context {P : Type} `{GoUnicode}.
Implicit Types pipelines : gmap string P.

(** [None]: already registered. *)
Definition Register pipelines (name : string) (p : P) : option (gmap string P) :=
  match pipelines !! name with Some _ => None | None => Some (<[name := p]> pipelines) end.
Definition Upsert pipelines (name : string) (p : P) : gmap string P := <[name := p]> pipelines.

(** [None]: not found. *)
Definition pipe_Get pipelines (name : string) : option P :=
  match pipelines !! name with
  | Some p => Some p
  | None =>
      let '(parsed, version, ok) := ParseVersionedName name in
      if negb ok then None
      else if negb (StrContains name "@") then pipelines !! FormatVersionedName parsed 0
      else if version =? 0 then pipelines !! parsed
      else None
  end.

Definition pipe_List pipelines : list string := SortStrings (map fst (map_to_list pipelines)).

(** *** Detection *)
Record DetectInput : Type := mkInput { diSource : string; diContentType : string; diContent : string }.

(** What a detector answers: a pipeline, [ErrDelegate], or another error, which
    the registry logs. *)
Inductive Detection : Type := Detected (name : string) | Delegated | DetectFailed.
Definition Detector : Type := DetectInput → Detection.

(** [filepath.Ext] *)
Definition Ext (s : string) : string :=
  let '(after, before) := span (λ c, negb (is_char c "." || is_char c "/")) (String.rev s) in
  match before with
  | EmptyString => nostr
  | String c _ => if is_char c "." then String.rev (after +:+ ".") else nostr
  end.

Definition ExtensionDetector (m : list (string * string)) : Detector := λ inp,
  if str_eqb (diSource inp) nostr then Delegated
  else match named_in m (ToLower (Ext (diSource inp))) with Some name => Detected name | None => Delegated end.
(** [NewExtensionDetector]; of two keys that are one in lower case the last
    ranged over stays ([m] gives the range's order). *)
Definition NewExtensionDetector (m : list (string * string)) : Detector :=
  ExtensionDetector (rev (map (λ '(k, v), (ToLower k, v)) m)).
Definition ContentTestDetector (name : string) (test : string → bool) : Detector := λ inp,
  if test (diContent inp) then Detected name else Delegated.
(** [matches]: the regular expression. *)
Definition URLPatternDetector (name : string) (matches : string → bool) : Detector := λ inp,
  if negb (HasPrefix (diSource inp) "http://") && negb (HasPrefix (diSource inp) "https://") then Delegated
  else if matches (diSource inp) then Detected name else Delegated.

Definition defaultExtensions : list (string * string) :=
  [(".png", "image.ocr"); (".jpg", "image.ocr"); (".jpeg", "image.ocr"); (".webp", "image.ocr");
   (".tiff", "image.ocr"); (".tif", "image.ocr"); (".bmp", "image.ocr"); (".gif", "image.ocr");
   (".mp3", "audio.transcribe"); (".wav", "audio.transcribe"); (".ogg", "audio.transcribe");
   (".flac", "audio.transcribe"); (".m4a", "audio.transcribe");
   (".mp4", "video.full"); (".mov", "video.full"); (".avi", "video.full"); (".mkv", "video.full"); (".webm", "video.full");
   (".pdf", "doc.pdf");
   (".md", "doc.markdown"); (".markdown", "doc.markdown");
   (".go", "doc.code"); (".py", "doc.code"); (".js", "doc.code"); (".ts", "doc.code"); (".rs", "doc.code");
   (".java", "doc.code"); (".rb", "doc.code"); (".cpp", "doc.code"); (".c", "doc.code"); (".cs", "doc.code");
   (".docx", "doc.office")]%string.
Definition TextShort : string := "text.short".
Definition TextLong : string := "text.long".

Definition defaultSourceSelector (source : string) : option string := named_in defaultExtensions (ToLower (Ext source)).
Definition defaultContentSelector (content : string) : string :=
  if (String.length content <? 500)%nat then TextShort else TextLong.

Record Selectors : Type := mkSelectors { slSource : string → option string; slContent : string → string }.
Definition defaultSelectors : Selectors := mkSelectors defaultSourceSelector defaultContentSelector.

Fixpoint Detect (detectors : list Detector) (sel : Selectors) (inp : DetectInput) : string :=
  match detectors with
  | [] => match slSource sel (diSource inp) with Some name => name | None => slContent sel (diContent inp) end
  | d :: detectors => match d inp with Detected name => name | _ => Detect detectors sel inp end
  end.
Definition SelectPipeline (detectors : list Detector) (sel : Selectors) (source content : string) : string :=
  Detect detectors sel (mkInput source nostr content).
End registry.

(** ** Versions *)
Lemma span_none p s : str_forall p s = true → span p s = (s, nostr).
Proof.
  induction s as [|c s IH]; cbn; [done|]. intros [Hc Hs]%andb_true_iff. by rewrite Hc, IH.
Qed.
Lemma cut_last_app c a b : lacks c b = true → cut_last c (a +:+ String c b) = Some (a, b).
Proof.
  intros Hb. unfold cut_last. rewrite str_rev_app, str_rev_cons, str_app_assoc.
  change (String c nostr +:+ String.rev a) with (String c (String.rev a)).
  rewrite (span_app _ (String.rev b)); [by rewrite !str_rev_involutive|by rewrite str_forall_rev|].
  cbn. by rewrite is_char_refl.
Qed.
Lemma cut_last_none c s : lacks c s = true → cut_last c s = None.
Proof. intros Hs. unfold cut_last. by rewrite span_none; [|rewrite str_forall_rev]. Qed.

(** Decimal digits read back. *)
Definition fold_digits (n : Z) (s : string) : Z := foldl (λ n c, n * 10 + digit_value c) n (String.list_ascii_of_string s).
Lemma digit_value_pretty (d : N) : (d < 10)%N → digit_value (pretty_N_char d) = Z.of_N d.
Proof.
  intros Hd. assert (∃ k : nat, d = N.of_nat k ∧ (k < 10)%nat) as (k & -> & Hk) by (exists (N.to_nat d); lia).
  do 10 (destruct k as [|k]; [reflexivity|]). lia.
Qed.
Lemma is_digit_pretty (d : N) : is_digit (pretty_N_char d) = true.
Proof. unfold pretty_N_char. by repeat case_match. Qed.

Lemma pretty_N_go_digits (x : N) s : str_forall is_digit s = true → str_forall is_digit (pretty_N_go x s) = true.
Proof.
  revert s. induction (N.lt_wf_0 x) as [x _ IH]. intros s Hs.
  assert (x = 0 ∨ 0 < x)%N as [->|Hx] by lia; [by rewrite pretty_N_go_0|].
  rewrite pretty_N_go_step by done. apply IH; [by apply N.div_lt|]. cbn [str_forall]. by rewrite is_digit_pretty, Hs.
Qed.
Lemma pretty_N_go_fold (x : N) s : fold_digits 0 (pretty_N_go x s) = fold_digits (Z.of_N x) s.
Proof.
  revert s. induction (N.lt_wf_0 x) as [x _ IH]. intros s.
  assert (x = 0 ∨ 0 < x)%N as [->|Hx] by lia; [by rewrite pretty_N_go_0|].
  rewrite pretty_N_go_step, IH by (try apply N.div_lt; done). unfold fold_digits. cbn [String.list_ascii_of_string foldl].
  f_equal. pose proof (N.mod_lt x 10 ltac:(done)) as Hm. rewrite digit_value_pretty by done.
  pose proof (N.div_mod x 10 ltac:(done)) as Hd. lia.
Qed.
Lemma pretty_N_go_keeps (x : N) s : s ≠ nostr → pretty_N_go x s ≠ nostr.
Proof.
  revert s. induction (N.lt_wf_0 x) as [x _ IH]. intros s Hs.
  assert (x = 0 ∨ 0 < x)%N as [->|Hx] by lia; [by rewrite pretty_N_go_0|].
  rewrite pretty_N_go_step by done. apply IH; [by apply N.div_lt|done].
Qed.

Lemma Atoi_pretty v : 0 ≤ v < 2 ^ 63 → pretty v ≠ nostr ∧ lacks "@" (pretty v) = true ∧ Atoi (pretty v) = Some v.
Proof.
  intros Hv. assert (∃ n : N, v = Z.of_N n) as [n ->] by (exists (Z.to_N v); lia).
  assert (Hp : pretty (Z.of_N n) = pretty n) by by destruct n.
  rewrite Hp. clear Hp. unfold pretty, pretty_N. case_decide as Hz; [by subst n|].
  set (s := pretty_N_go n nostr).
  assert (Hne : s ≠ nostr).
  { subst s. rewrite pretty_N_go_step by lia. by apply pretty_N_go_keeps. }
  assert (Hd : str_forall is_digit s = true) by by apply pretty_N_go_digits.
  split_and!; [done|by apply (str_forall_lacks is_digit)|].
  assert (Hnum : number s = Z.of_N n) by (change (fold_digits 0 s = Z.of_N n); subst s; by rewrite pretty_N_go_fold).
  clearbody s. unfold Atoi. destruct s as [|c s]; [done|].
  assert (Hc : is_digit c = true) by (cbn in Hd; by apply andb_true_iff in Hd as [? _]).
  destruct (is_char c "-") eqn:E1; [by apply is_char_true in E1 as ->|].
  destruct (is_char c "+") eqn:E2; [by apply is_char_true in E2 as ->|].
  rewrite Hd. replace (str_eqb (String c s) nostr) with false by done. cbn [orb negb]. rewrite Hnum.
  destruct (- 2 ^ 63 <=? Z.of_N n) eqn:E3; [|lia]. by destruct (Z.of_N n <? 2 ^ 63) eqn:E4; [|lia].
Qed.

(** A version's text reads back, whatever the name. *)
Theorem ParseVersionedName_Format name v :
  0 ≤ v < 2 ^ 63 → ParseVersionedName (FormatVersionedName name v) = (name, v, true).
Proof.
  intros Hv. destruct (Atoi_pretty v Hv) as (Hne & Hl & Ha). unfold ParseVersionedName, FormatVersionedName.
  change ("@v" +:+ pretty v)%string with (String "@" (String "v" (pretty v))). rewrite cut_last_app; [|done].
  replace (HasPrefix (String "v" (pretty v)) "v") with true by by destruct (pretty v). cbn [negb].
  change (str_drop 1 (String "v" (pretty v))) with (pretty v).
  destruct (str_eqb (pretty v) nostr) eqn:E; [by apply str_eqb_true in E|]. rewrite Ha.
  by destruct (v <? 0) eqn:Ev; [lia|].
Qed.

(** A name without a version and its version 0 find the same pipeline when at
    most one of the two is registered. *)
Lemma pipe_Get_v0 {P} (pipelines : gmap string P) name :
  lacks "@" name = true →
  pipelines !! name = None ∨ pipelines !! FormatVersionedName name 0 = None →
  pipe_Get pipelines name = pipe_Get pipelines (FormatVersionedName name 0) ∧
  pipe_Get pipelines name =
    match pipelines !! name with Some p => Some p | None => pipelines !! FormatVersionedName name 0 end.
Proof.
  intros Hl Hone.
  assert (Hb : pipe_Get pipelines name =
    match pipelines !! name with Some p => Some p | None => pipelines !! FormatVersionedName name 0 end).
  { unfold pipe_Get, ParseVersionedName. rewrite cut_last_none by done. destruct (pipelines !! name); [done|]. cbn [negb].
    destruct (StrContains name "@") eqn:E; [|done]. apply StrContains_spec in E as (a & b & ->).
    rewrite !lacks_app in Hl. cbn in Hl. by rewrite andb_false_r in Hl. }
  split; [|done]. rewrite Hb. unfold pipe_Get. rewrite ParseVersionedName_Format by lia. cbn [negb].
  destruct (pipelines !! FormatVersionedName name 0) as [q|] eqn:E0.
  { destruct Hone as [->|?]; done. }
  destruct (StrContains (FormatVersionedName name 0) "@") eqn:E; cbn [negb].
  - by destruct (pipelines !! name).
  - exfalso. apply StrContains_false in E. apply E. by exists name, (String "v" (pretty 0)).
Qed.

(** ** Contracts *)

(** What is there when step [i] begins. *)
Definition available {R} (steps : list (PipelineStep R)) (i : nat) : gset string :=
  list_to_set SeedState ∪ list_to_set (map Canonicalize (concat (map (ctProduces ∘ psContract) (take i steps)))).

Lemma find_all {A} (p : A → bool) l : List.find (λ x, negb (p x)) l = None ↔ ∀ x, x ∈ l → p x = true.
Proof.
  split.
  - intros Hn x Hx%list_elem_of_In. apply negb_false_iff. by apply (List.find_none _ _ Hn).
  - intros Ha. destruct (List.find _ l) as [x|] eqn:E; [|done]. apply List.find_some in E as [Hx%list_elem_of_In Hp].
    by rewrite (Ha x Hx) in Hp.
Qed.

Lemma compose_from_spec {R} n (avail : gset string) (steps : list (PipelineStep R)) :
  match compose_from n avail steps with
  | Ok _ => ∀ i step req, steps !! i = Some step → req ∈ ctRequires (psContract step) →
      met (avail ∪ list_to_set (map Canonicalize (concat (map (ctProduces ∘ psContract) (take i steps))))) req = true
  | Err (k, name, req) => ∃ i step, k = (n + i)%nat ∧ steps !! i = Some step ∧ psName step = name ∧ req ∈ ctRequires (psContract step) ∧
      met (avail ∪ list_to_set (map Canonicalize (concat (map (ctProduces ∘ psContract) (take i steps))))) req = false
  end.
Proof.
  revert n avail. induction steps as [|step steps IH]; intros n avail; cbn [compose_from]; [done|].
  destruct (List.find _ _) as [req|] eqn:E.
  - apply List.find_some in E as [Hreq%list_elem_of_In Hm%negb_true_iff]. exists 0%nat, step. cbn. rewrite union_empty_r_L.
    split_and!; [lia|done..].
  - rewrite find_all in E.
    specialize (IH (S n) (avail ∪ list_to_set (map Canonicalize (ctProduces (psContract step))))).
    assert (Hs : ∀ i, avail ∪ list_to_set (map Canonicalize (concat (map (ctProduces ∘ psContract) (take (S i) (step :: steps)))))
      = (avail ∪ list_to_set (map Canonicalize (ctProduces (psContract step)))) ∪
        list_to_set (map Canonicalize (concat (map (ctProduces ∘ psContract) (take i steps)))) :> gset string).
    { intros i. cbn. by rewrite map_app, list_to_set_app_L, (assoc_L (∪)). }
    destruct (compose_from _ _ _) as [u|[[k name] req]].
    + intros [|i] st req Hi Hreq.
      * injection Hi as <-. cbn. rewrite union_empty_r_L. by apply E.
      * rewrite Hs. by eapply IH.
    + destruct IH as (i & st & -> & Hi & Hn & Hreq & Hm). exists (S i), st. rewrite Hs. split_and!; [lia|done..].
Qed.

(** A pipeline is accepted just when every key a step requires, or the field it is
    of, is among the seeds or what the steps before it produce; otherwise the
    error names a step and a key it lacks. *)
Theorem ValidateComposability_spec {R} (steps : list (PipelineStep R)) :
  match ValidateComposability steps with
  | Ok _ => ∀ i step req, steps !! i = Some step → req ∈ ctRequires (psContract step) → met (available steps i) req = true
  | Err (i, name, req) => ∃ step, steps !! i = Some step ∧ psName step = name ∧ req ∈ ctRequires (psContract step) ∧
      met (available steps i) req = false
  end.
Proof.
  unfold ValidateComposability. pose proof (compose_from_spec 0 (list_to_set SeedState) steps) as Hs.
  destruct (compose_from _ _ _) as [u|[[k name] req]]; [exact Hs|]. destruct Hs as (i & step & -> & Hi & Hn & Hr & Hm). eauto.
Qed.

Lemma elem_of_pick_from {A B} (f : nat → A → option B) n l b :
  b ∈ pick_from f n l ↔ ∃ i x, l !! i = Some x ∧ f (n + i)%nat x = Some b.
Proof.
  revert n. induction l as [|x l IH]; intros n; cbn [pick_from].
  { split; [by intros ?%not_elem_of_nil|by intros (i & y & ? & _)]. }
  assert (Hsplit : (∃ i y, (x :: l) !! i = Some y ∧ f (n + i)%nat y = Some b) ↔
      f n x = Some b ∨ ∃ i y, l !! i = Some y ∧ f (S n + i)%nat y = Some b).
  { split.
    - intros ([|i] & y & Hi & Hf); [left; injection Hi as ->; by rewrite Nat.add_0_r in Hf|right].
      exists i, y. by rewrite Nat.add_succ_r in Hf.
    - intros [Hf|(i & y & Hi & Hf)]; [exists 0%nat, x; by rewrite Nat.add_0_r|exists (S i), y; by rewrite Nat.add_succ_r]. }
  rewrite Hsplit, <- IH. destruct (f n x) as [b'|]; [|naive_solver]. rewrite elem_of_cons. naive_solver.
Qed.

Lemma pick_from_filter {A} (f : nat → A → option A) (p : A → bool) n l :
  (∀ i x, l !! i = Some x → f (n + i)%nat x = if p x then Some x else None) → pick_from f n l = List.filter p l.
Proof.
  revert n. induction l as [|x l IH]; intros n Hf; cbn [pick_from List.filter]; [done|].
  pose proof (Hf 0%nat x eq_refl) as Hx. rewrite Nat.add_0_r in Hx.
  rewrite Hx, (IH (S n)); [by destruct (p x)|]. intros i y Hi. rewrite <- (Hf (S i) y Hi). by rewrite Nat.add_succ_r.
Qed.

(** Dropping the steps whose capabilities are missing keeps the others, in
    order. *)
Theorem RemoveIndices_unsatisfied {R} (steps : list (PipelineStep R)) (caps : gset string) :
  RemoveIndices steps (ValidateCapabilities steps caps) = List.filter (λ s, negb (lacks_capability caps s)) steps.
Proof.
  apply pick_from_filter. intros i s Hi. cbn [Nat.add].
  assert (Hin : i ∈ ValidateCapabilities steps caps ↔ lacks_capability caps s = true).
  { unfold ValidateCapabilities. rewrite elem_of_pick_from. split.
    - intros (j & s' & Hj & Hl). cbn in Hl. destruct (lacks_capability caps s') eqn:E; [|done]. by simplify_eq.
    - intros Hl. exists i, s. cbn. by rewrite Hl. }
  destruct (lacks_capability caps s); cbn [negb]; [by rewrite bool_decide_true by naive_solver|].
  by rewrite bool_decide_false by naive_solver.
Qed.
