(* ===== verification/Upgrade.v ===== *)
(** * Upgrade: the status of an upgrade, its header and its selectors

    Models [internal/upgrade]: the status machine ([manager.go]), the response
    header that carries it ([header.go]) and the selectors of a selective
    re-ingest ([selector.go]).

    The header is an RFC 8941 dictionary; a parser is a function from the text
    that is left to a value and the rest, [None] for [ErrHeader].  The progress
    fraction, a function of the counts, is not a field.  The regular expressions
    of the selector are written out as the scans they describe. *)

From S2P Require Import Prelude GoStrings Objects JobStore ObjectDB NetIP Pipelines.

Local Open Scope Z_scope.

(** ** manager.go *)
Inductive UpgradeError : Type :=
| ErrNotRunning
| ErrBusy (bucket : string)
| BadTotal (total : Z)
| BadTick (done failed : Z)
| NilError
| PersistFailed.

Definition StateIdle : string := "idle".
Definition StateInProgress : string := "in_progress".
Definition StateFailed : string := "failed".
Definition BucketReindexAuto : string := "reindex_auto".
Definition BucketReingestSelective : string := "reingest_selective".

(** [E]: what a run may fail with. *)
Record StatusOf (E : Type) : Type := mkStatus {
  stState : string;
  stBucket : string;
  stTarget : string;
  stDone : Z;
  stTotal : Z;
  stFailed : Z;
  stEta : Z;
  stStartedAt : option Z;
  stLastError : option E;
}.
Arguments mkStatus {E} _ _ _ _ _ _ _ _ _.
Arguments stState {E} _. Arguments stBucket {E} _. Arguments stTarget {E} _. Arguments stDone {E} _. Arguments stTotal {E} _.
Arguments stFailed {E} _. Arguments stEta {E} _. Arguments stStartedAt {E} _. Arguments stLastError {E} _.

(** [time.Time.Sub] saturates; a time never set is the year 1. *)
Definition since (t u : Z) : Z := Z.max (- 2 ^ 63) (Z.min (2 ^ 63 - 1) (t - u)).
Definition neverStarted : Z := -62135596800 * Second.

(** [int(remaining.Seconds())] is the quotient for the durations below 2 ^ 24
    seconds, where the float holds the nanoseconds. *)
Definition computeETA (done total startedAt now : Z) : Z :=
  if (done <=? 0) || (total <=? 0) || (total <=? done) then 0
  else
    let elapsed := since now startedAt in
    if elapsed <=? 0 then 0
    else
      let perItem := elapsed `quot` done in
      let remaining := wrap64 (perItem * wrap64 (total - done)) in
      let secs := remaining `quot` Second in
      if secs <? 0 then 0 else secs.

Section manager.
Context {E : Type}.
Local Notation Status := (StatusOf E).
Implicit Types s : Status.

Definition idleStatus : Status := mkStatus StateIdle nostr nostr 0 0 0 0 None None.
Definition in_progress s : bool := str_eqb (stState s) StateInProgress.

(** Each method ends by writing the shadow file; [persisted]: whether that
    succeeds.  The status changes all the same. *)
Definition after_persist (persisted : bool) s : result UpgradeError unit * Status :=
  (if persisted then Ok tt else Err PersistFailed, s).

Definition StartTarget (bucket target : string) (total : Z) (now : Z) (persisted : bool) s : result UpgradeError unit * Status :=
  if in_progress s then (Err (ErrBusy (stBucket s)), s)
  else if total <? 0 then (Err (BadTotal total), s)
  else after_persist persisted (mkStatus StateInProgress bucket target 0 total 0 0 (Some now) None).

Definition status_Start (bucket : string) (total : Z) : Z → bool → Status → result UpgradeError unit * Status :=
  StartTarget bucket nostr total.

Definition tickLocked (done failed : Z) (now : Z) (persisted : bool) s : result UpgradeError unit * Status :=
  after_persist persisted
    (mkStatus (stState s) (stBucket s) (stTarget s) done (stTotal s) failed
       (if 0 <? stTotal s then computeETA done (stTotal s) (default neverStarted (stStartedAt s)) now else stEta s)
       (stStartedAt s) (stLastError s)).

Definition Tick (done : Z) (now : Z) (persisted : bool) s : result UpgradeError unit * Status :=
  if negb (in_progress s) then (Err ErrNotRunning, s)
  else if done <? 0 then (Err (BadTick done 0), s)
  else tickLocked done (stFailed s) now persisted s.

Definition TickFailed (done failed : Z) (now : Z) (persisted : bool) s : result UpgradeError unit * Status :=
  if negb (in_progress s) then (Err ErrNotRunning, s)
  else if (done <? 0) || (failed <? 0) || (done <? failed) then (Err (BadTick done failed), s)
  else tickLocked done failed now persisted s.

Definition status_Complete (now : Z) (persisted : bool) s : result UpgradeError unit * Status :=
  if negb (in_progress s) then (Err ErrNotRunning, s) else after_persist persisted idleStatus.

Definition status_Fail (err : option E) (now : Z) (persisted : bool) s : result UpgradeError unit * Status :=
  match err with
  | None => (Err NilError, s)
  | Some e =>
      if negb (in_progress s) then (Err ErrNotRunning, s)
      else after_persist persisted
             (mkStatus StateFailed (stBucket s) (stTarget s) (stDone s) (stTotal s) (stFailed s) (stEta s) (stStartedAt s) (Some e))
  end.
End manager.

(** ** header.go: encoding *)
Definition maxHeaderError : nat := 256.
Definition backslash : ascii := Ascii.ascii_of_nat 92.

Definition isAlpha (c : ascii) : bool := is_lower c || is_upper c.
Definition char_in (set : string) (c : ascii) : bool := negb (str_forall (λ d, negb (is_char c d)) set).
Definition isTokenChar (c : ascii) : bool := isAlpha c || is_digit c || char_in "!#$%&'*+-.^_`|~:/" c.
Definition isToken (s : string) : bool :=
  match s with String c s => (isAlpha c || is_char c "*") && str_forall isTokenChar s | EmptyString => false end.

Definition sf_byte (c : ascii) : bool := in_range 32 126 c.
Fixpoint quoted (s : string) : string :=
  match s with
  | EmptyString => String dquote nostr
  | String c s =>
      if is_char c dquote || is_char c backslash then String backslash (String c (quoted s))
      else if negb (sf_byte c) then String "?" (quoted s)
      else String c (quoted s)
  end.
Definition sfString (s : string) : string := String dquote (quoted s).
Definition sfItem (s : string) : string := if isToken s then s else sfString s.

(** The members of the dictionary, in the order they are written. *)
Definition members (st : StatusOf string) : list (string * string) :=
  [("state", sfItem (stState st))] ++
  (if str_eqb (stBucket st) nostr then [] else [("bucket", sfItem (stBucket st))]) ++
  (if str_eqb (stTarget st) nostr then [] else [("target", sfString (stTarget st))]) ++
  [("done", pretty (stDone st)); ("total", pretty (stTotal st))] ++
  (if 0 <? stFailed st then [("failed", pretty (stFailed st))] else []) ++
  [("eta", pretty (stEta st))] ++
  (let msg := default nostr (stLastError st) in
   if str_eqb msg nostr then [] else [("error", sfString (str_take maxHeaderError msg))]).
Definition written (m : string * string) : string := m.1 +:+ "=" +:+ m.2.

Definition EncodeHeader (st : StatusOf string) : string :=
  if str_eqb (stState st) StateIdle || str_eqb (stState st) nostr then nostr
  else Join (map written (members st)) ", ".

(** ** header.go: decoding *)
Inductive item : Type :=
| ItemOther
| ItemText (s : string)
| ItemInt (n : Z).

Definition skipSP (s : string) : string := (span (λ c, is_char c " ") s).2.
Definition skipOWS (s : string) : string := (span (λ c, is_char c " " || is_char c (Ascii.ascii_of_nat 9)) s).2.

Definition keyChar (c : ascii) : bool := is_lower c || is_digit c || char_in "_-.*" c.
Definition parse_key (s : string) : option (string * string) :=
  match s with
  | String c s => if is_lower c || is_char c "*" then let '(k, s) := span keyChar s in Some (String c k, s) else None
  | EmptyString => None
  end.

(** The body of a string, after its opening quote. *)
Fixpoint parse_str (s : string) : option (string * string) :=
  match s with
  | EmptyString => None
  | String c s =>
      if is_char c backslash then
        match s with
        | String d s => if is_char d dquote || is_char d backslash then '(t, s) ← parse_str s; Some (String d t, s) else None
        | EmptyString => None
        end
      else if is_char c dquote then Some (nostr, s)
      else if negb (sf_byte c) then None
      else '(t, s) ← parse_str s; Some (String c t, s)
  end.

Definition parse_number (s : string) : option (item * string) :=
  let '(sign, s) := match s with String c s' => if is_char c "-" then ("-"%string, s') else (nostr, s) | EmptyString => (nostr, s) end in
  let '(digits, s) := span is_digit s in
  let n := String.length digits in
  if (n =? 0)%nat || (15 <? n)%nat then None
  else
    match s with
    | String "." s =>
        let '(frac, s) := span is_digit s in
        let f := String.length frac in
        if (f =? 0)%nat || (3 <? f)%nat || (12 <? n)%nat then None else Some (ItemOther, s)
    | _ => v ← Atoi (sign +:+ digits); Some (ItemInt v, s)
    end.

Definition bareItem (s : string) : option (item * string) :=
  match s with
  | EmptyString => None
  | String c s' =>
      if is_char c "-" || is_digit c then parse_number s
      else if is_char c dquote then '(t, s) ← parse_str s'; Some (ItemText t, s)
      else if isAlpha c || is_char c "*" then let '(t, s) := span isTokenChar s in Some (ItemText t, s)
      else if is_char c ":" then
        match (span (λ d, negb (is_char d ":")) s').2 with
        | String _ s => Some (ItemOther, s)
        | EmptyString => None
        end
      else if is_char c "?" then
        match s' with String b s => if is_char b "0" || is_char b "1" then Some (ItemOther, s) else None | EmptyString => None end
      else None
  end.

(** The fuel is the length of the text, of which each round takes a byte. *)
Fixpoint skipParams (fuel : nat) (s : string) : option string :=
  match fuel, s with
  | S fuel, String ";" s =>
      '(_, s) ← parse_key (skipSP s);
      match s with
      | String "=" s => '(_, s) ← bareItem s; skipParams fuel s
      | _ => skipParams fuel s
      end
  | _, _ => Some s
  end.

Fixpoint parse_members (fuel : nat) (s : string) (out : gmap string item) : option (gmap string item) :=
  match fuel with
  | O => None
  | S fuel =>
      '(key, s) ← parse_key s;
      '(it, s) ← match s with String "=" s => bareItem s | _ => Some (ItemOther, s) end;
      s ← skipParams (String.length s) s;
      let out := <[key := it]> out in
      match skipOWS s with
      | EmptyString => Some out
      | String "," s =>
          let s := skipOWS s in
          if str_eqb s nostr then None else parse_members fuel s out
      | _ => None
      end
  end.

Definition parseDictionary (v : string) : option (gmap string item) :=
  let s := skipSP v in
  if str_eqb s nostr then None else parse_members (S (String.length s)) s ∅.

Definition text_member (dict : gmap string item) (key : string) : option string :=
  match dict !! key with None => Some nostr | Some (ItemText s) => Some s | Some _ => None end.
Definition int_member (dict : gmap string item) (key : string) : option Z :=
  match dict !! key with None => Some 0 | Some (ItemInt n) => Some n | Some _ => None end.

Definition DecodeHeader (v : string) : option (StatusOf string) :=
  dict ← parseDictionary v;
  state ← text_member dict "state";
  bucket ← text_member dict "bucket";
  target ← text_member dict "target";
  err ← text_member dict "error";
  done ← int_member dict "done";
  total ← int_member dict "total";
  failed ← int_member dict "failed";
  eta ← int_member dict "eta";
  if str_eqb state nostr || str_eqb state StateIdle then None
  else Some (mkStatus state bucket target done total failed eta None (if str_eqb err nostr then None else Some err)).

(** ** selector.go *)
Record Selector : Type := mkSelector { seRaw : string; seSQL : string; seArgs : list string }.

Inductive SelectorError : Type :=
| SelectorEmpty
| SelectorForm
| PipelineValue
| PipelineVersion
| PredicateEmpty
| ForbiddenFragment
| ForbiddenKeyword
| UnknownIdentifier (tok : string)
| RejectedBySQLite.

(** [dangerousFragmentRE], [dangerousKeywordRE].  Without regard to case, the
    letters S and K also stand for U+017F and U+212A. *)
Definition dangerousFragments : list string := [";"; "--"; "/*"; "*/"]%string.
Definition dangerousKeywords : list string :=
  ["DROP"; "INSERT"; "UPDATE"; "DELETE"; "ALTER"; "CREATE"; "REPLACE"; "TRUNCATE"; "ATTACH"; "DETACH"; "PRAGMA"; "BEGIN";
   "COMMIT"; "ROLLBACK"; "VACUUM"]%string.

Definition word_start (c : ascii) : bool := isAlpha c || is_char c "_".
Definition word_char (c : ascii) : bool := word_start c || is_digit c.
Definition upper_ascii (c : ascii) : ascii := if is_lower c then Ascii.ascii_of_nat (code c - 32) else c.

(** The text after a keyword, and whether the last character matched is a word's. *)
Fixpoint fold_prefix (k : string) (last : bool) (s : string) : option (bool * string) :=
  match k with
  | EmptyString => Some (last, s)
  | String d k =>
      match s with
      | EmptyString => None
      | String c s' =>
          if is_char (upper_ascii c) d then fold_prefix k true s'
          else if is_char d "S" && HasPrefix s (bytes [197; 191]%nat) then fold_prefix k false (str_drop 2 s)
          else if is_char d "K" && HasPrefix s (bytes [226; 132; 170]%nat) then fold_prefix k false (str_drop 3 s)
          else None
      end
  end.
Definition starts_word (s : string) : bool := match s with String c _ => word_char c | EmptyString => false end.
Definition keyword_here (s : string) : bool :=
  existsb (λ k, match fold_prefix k false s with Some (last, s) => xorb last (starts_word s) | None => false end) dangerousKeywords.
Fixpoint has_keyword (after_word : bool) (s : string) : bool :=
  negb after_word && keyword_here s ||
  match s with String c s => has_keyword (word_char c) s | EmptyString => false end.

(** [stringLiteralRE]: after an opening quote, the text after the longest
    literal. *)
Fixpoint close_literal (s : string) : option string :=
  match s with
  | EmptyString => None
  | String c s' =>
      if is_char c squote then
        match s' with
        | String d s'' =>
            if is_char d squote then match close_literal s'' with Some rest => Some rest | None => Some s' end else Some s'
        | EmptyString => Some s'
        end
      else close_literal s'
  end.
Fixpoint strip_literals (fuel : nat) (s : string) : string :=
  match fuel, s with
  | S fuel, String c s =>
      if is_char c squote then
        match close_literal s with
        | Some rest => String squote (String squote (strip_literals fuel rest))
        | None => String c (strip_literals fuel s)
        end
      else String c (strip_literals fuel s)
  | _, _ => nostr
  end.

(** [identifierRE.FindAllString]; [open]: the token being read. *)
Fixpoint identifiers (open : option string) (s : string) : list string :=
  match s with
  | EmptyString => option_list open
  | String c s =>
      match open with
      | Some w => if word_char c then identifiers (Some (w +:+ String c nostr)) s else w :: identifiers None s
      | None => if word_start c then identifiers (Some (String c nostr)) s else identifiers None s
      end
  end.

Definition allowedIdentifiers : list string :=
  ["id"; "type"; "subtype"; "pipeline"; "source"; "source_key"; "status"; "content_hash"; "content_type"; "profile_id";
   "graph_json"; "metadata"; "tags"; "created_at"; "updated_at"; "last_reinforced_at"; "reinforcement_count"; "fts_indexed";
   "AND"; "OR"; "NOT"; "IS"; "NULL"; "LIKE"; "IN"; "BETWEEN"; "GLOB"; "TRUE"; "FALSE"]%string.
Definition allowed_word (tok : string) : bool :=
  contains allowedIdentifiers (str_map lower_ascii tok) || contains allowedIdentifiers (str_map upper_ascii tok).

Definition validateIdentifiers (pred : string) : result SelectorError unit :=
  match List.find (λ tok, negb (allowed_word tok)) (identifiers None (strip_literals (String.length pred) pred)) with
  | Some tok => Err (UnknownIdentifier tok)
  | None => Ok tt
  end.

Definition parsePipelineFilter (input : string) : result SelectorError Selector :=
  let value := TrimSpace (TrimPrefix input "pipeline=") in
  if str_eqb value nostr then Err PipelineValue
  else if negb (StrContains value "@v") then Err PipelineVersion
  else Ok (mkSelector input "pipeline = ?" [value]).

(** [explain]: whether SQLite plans a statement, when there is a database to ask. *)
Section selector.
Context (explain : option (string → bool)).

Definition parseWhereSelector (predicate : string) : result SelectorError Selector :=
  let pred := TrimSpace predicate in
  if str_eqb pred nostr then Err PredicateEmpty
  else if existsb (StrContains pred) dangerousFragments then Err ForbiddenFragment
  else if has_keyword false pred then Err ForbiddenKeyword
  else
    _ ← validateIdentifiers pred;
    match explain with
    | Some plans =>
        if plans ("EXPLAIN QUERY PLAN SELECT id FROM objects WHERE " +:+ pred)%string
        then Ok (mkSelector ("where:" +:+ pred) pred []) else Err RejectedBySQLite
    | None => Ok (mkSelector ("where:" +:+ pred) pred [])
    end.

Definition ParseSelector (s : string) : result SelectorError Selector :=
  let trimmed := TrimSpace s in
  if str_eqb trimmed nostr then Err SelectorEmpty
  else if HasPrefix trimmed "pipeline=" then parsePipelineFilter trimmed
  else if HasPrefix trimmed "where:" then parseWhereSelector (str_drop 6 trimmed)
  else Err SelectorForm.
End selector.

(** [CountMatching], [IterateMatching]; [holds]: how SQLite decides a clause with
    its arguments on a row of [objects]. *)
Section matching.
Context `{GoEncodings} (holds : string → list string → ObjRow → bool).

Definition matching (sel : Selector) (db : ObjDB) : list ObjRow :=
  if str_eqb (seSQL sel) nostr then odRows db else List.filter (holds (seSQL sel) (seArgs sel)) (odRows db).
Definition CountMatching (sel : Selector) (db : ObjDB) : Z := Z.of_nat (length (matching sel db)).

Definition created_before (a b : ObjRow) : bool :=
  let ca := Format (koCreatedAt (orObj a)) in
  let cb := Format (koCreatedAt (orObj b)) in
  str_ltb ca cb || str_eqb ca cb && str_ltb (orID a) (orID b).
Definition matching_ids (sel : Selector) (db : ObjDB) : list string := map orID (SliceStable created_before (matching sel db)).
End matching.
