(* ===== verification/UpgradeSafety.v ===== *)
(** * Upgrade: the header reads back, a selector stays within its words

    [header_roundtrip]: decoding the header of a status gives what the status
    shows, and the header is printable whatever the status says.
    [selector_confined]: outside its string literals an accepted predicate holds
    only the words allowed.  [status_step_ok]: what every status a server can reach
    satisfies.  [quoted_names_unchecked] is a predicate the check lets through. *)

From S2P Require Import Prelude GoStrings Objects JobStore ObjectDB NetIP Pipelines Upgrade.

Local Open Scope Z_scope.

(** ** Items *)
Definition shown_char (c : ascii) : ascii := if sf_byte c then c else "?"%char.
Definition shown_text (s : string) : string := str_map shown_char s.

(** Facts about single bytes, by going through all of them. *)
Definition all_bytes (p : ascii → bool) : bool := forallb (λ n, p (Ascii.ascii_of_nat n)) (seq 0 256).
Lemma by_bytes p c : all_bytes p = true → p c = true.
Proof.
  unfold all_bytes. rewrite forallb_forall. intros Hp. rewrite <- (Ascii.ascii_nat_embedding c). apply Hp.
  apply in_seq. pose proof (Ascii.nat_ascii_bounded c). lia.
Qed.
Lemma byte_impl p q c : all_bytes (λ c, implb (p c) (q c)) = true → p c = true → q c = true.
Proof. intros Ha Hp. pose proof (by_bytes _ c Ha) as Hi. cbn in Hi. by rewrite Hp in Hi. Qed.

Ltac each_byte c hyp :=
  revert hyp;
  match goal with |- ?P = true → ?Q = true =>
    match eval pattern c in P with ?p _ => match eval pattern c in Q with ?q _ =>
      apply (byte_impl p q c); vm_compute; reflexivity
    end end
  end.

Lemma parse_str_quoted s rest : parse_str (quoted s +:+ rest) = Some (shown_text s, rest).
Proof.
  induction s as [|c s IH]; [done|]. cbn [quoted shown_text str_map]. unfold shown_char at 1.
  destruct (is_char c dquote || is_char c backslash) eqn:Eq.
  { assert (Hp : sf_byte c = true) by each_byte c Eq.
    rewrite !str_app_cons. cbn [parse_str]. by rewrite is_char_refl, Eq, IH, Hp. }
  apply orb_false_iff in Eq as [Ed Eb]. destruct (sf_byte c) eqn:Ep; cbn [negb]; rewrite str_app_cons; cbn [parse_str].
  - by rewrite Eb, Ed, Ep, IH.
  - replace (is_char "?" backslash) with false by done. replace (is_char "?" dquote) with false by done.
    replace (sf_byte "?") with true by done. cbn [negb]. by rewrite IH.
Qed.

(** What may follow a member. *)
Definition stops (rest : string) : Prop := rest = nostr ∨ ∃ r, rest = String "," r.

Lemma span_stops p s rest : str_forall p s = true → stops rest → p ","%char = false → span p (s +:+ rest) = (s, rest).
Proof. intros Hs [->|[r ->]] Hp; rewrite (span_app p); cbn; rewrite ?Hp; done. Qed.

Lemma shown_printable s : str_forall sf_byte s = true → shown_text s = s.
Proof.
  unfold shown_text. induction s as [|c s IH]; [done|]. cbn [str_forall str_map]. intros [Hc Hs]%andb_true_iff.
  unfold shown_char at 1. by rewrite Hc, IH.
Qed.

Lemma token_printable s : isToken s = true → str_forall sf_byte s = true.
Proof.
  destruct s as [|c s]; [done|]. cbn. intros [Hc Hs]%andb_true_iff. apply andb_true_iff. split.
  - each_byte c Hc.
  - revert Hs. apply str_forall_impl. intros d Hd. each_byte d Hd.
Qed.

Lemma bareItem_string s rest : bareItem (sfString s +:+ rest) = Some (ItemText (shown_text s), rest).
Proof. unfold sfString. rewrite str_app_cons. cbn. by rewrite parse_str_quoted. Qed.

Lemma bareItem_token s rest : isToken s = true → stops rest → bareItem (s +:+ rest) = Some (ItemText s, rest).
Proof.
  destruct s as [|c s]; [done|]. cbn [isToken]. intros [Hc Hs]%andb_true_iff Hr. rewrite str_app_cons. cbn [bareItem].
  assert (Hq : negb (is_char c "-" || is_digit c) && negb (is_char c dquote) && (isAlpha c || is_char c "*") && isTokenChar c = true).
  { each_byte c Hc. }
  apply andb_true_iff in Hq as [Hq Ht]. apply andb_true_iff in Hq as [Hq Ha]. apply andb_true_iff in Hq as [Hn%negb_true_iff Hd%negb_true_iff].
  rewrite Hn, Hd, Ha. change (String c (s +:+ rest)) with (String c s +:+ rest).
  rewrite (span_stops isTokenChar); [done| |done|done]. cbn [str_forall]. by rewrite Ht, Hs.
Qed.

Lemma bareItem_item s rest : stops rest → bareItem (sfItem s +:+ rest) = Some (ItemText (shown_text s), rest).
Proof.
  intros Hr. unfold sfItem. destruct (isToken s) eqn:Ht; [|apply bareItem_string].
  rewrite (shown_printable s) by by apply token_printable. by apply bareItem_token.
Qed.

(** *** Integers *)
Definition fits (z : Z) : Prop := 0 ≤ z < 10 ^ 15.

Lemma pretty_N_go_length (k : nat) (x : N) s : (x < 10 ^ N.of_nat k)%N →
  (String.length (pretty_N_go x s) ≤ k + String.length s)%nat.
Proof.
  revert x s. induction k as [|k IH]; intros x s Hx.
  - assert (x = 0)%N as -> by (cbn in Hx; lia). by rewrite pretty_N_go_0.
  - assert (x = 0 ∨ 0 < x)%N as [->|Hp] by lia; [rewrite pretty_N_go_0; lia|]. rewrite pretty_N_go_step by done.
    assert (Hd : (x `div` 10 < 10 ^ N.of_nat k)%N).
    { apply N.Div0.div_lt_upper_bound. rewrite Nat2N.inj_succ, N.pow_succ_r' in Hx. done. }
    specialize (IH _ (String (pretty_N_char (x `mod` 10)) s) Hd). cbn [String.length] in *. lia.
Qed.

Lemma pretty_digits z : fits z → str_forall is_digit (pretty z) = true ∧ (1 ≤ String.length (pretty z) ≤ 15)%nat.
Proof.
  intros [Hz Hu]. assert (∃ n : N, z = Z.of_N n) as [n ->] by (exists (Z.to_N z); lia).
  replace (pretty (Z.of_N n)) with (pretty n) by by destruct n. unfold pretty, pretty_N. case_decide as Hn; [by split; [|cbn; lia]|].
  split; [by apply pretty_N_go_digits|].
  assert (Hne : pretty_N_go n nostr ≠ nostr) by (rewrite pretty_N_go_step by lia; by apply pretty_N_go_keeps).
  pose proof (pretty_N_go_length 15 n nostr ltac:(lia)) as Hl. cbn [String.length] in Hl.
  destruct (pretty_N_go n nostr); [done|]. cbn [String.length] in *. lia.
Qed.

Lemma bareItem_int z rest : fits z → stops rest → bareItem (pretty z +:+ rest) = Some (ItemInt z, rest).
Proof.
  intros Hz Hr. destruct (pretty_digits z Hz) as [Hd Hl]. destruct (Atoi_pretty z ltac:(unfold fits in Hz; lia)) as (_ & _ & Ha).
  destruct (pretty z) as [|c s] eqn:Hp; [cbn in Hl; lia|]. rewrite str_app_cons. cbn [bareItem].
  assert (Hc : is_digit c = true) by (cbn in Hd; by apply andb_true_iff in Hd as [? _]).
  assert (Hm : is_char c "-" = false) by (apply negb_true_iff; each_byte c Hc).
  rewrite Hc, orb_true_r. unfold parse_number. rewrite Hm. change (String c (s +:+ rest)) with (String c s +:+ rest).
  rewrite (span_stops is_digit) by done.
  destruct (_ =? 0)%nat eqn:E0; [apply Nat.eqb_eq in E0; lia|]. destruct (15 <? _)%nat eqn:E15; [apply Nat.ltb_lt in E15; lia|].
  cbn [orb]. rewrite str_app_nil_l, Ha. destruct Hr as [->|[r ->]]; done.
Qed.

(** ** Members *)

(** A member and the item it is read as. *)
Record wire (m : string * string) (it : item) : Prop := {
  wi_key : ∀ rest, parse_key (m.1 +:+ String "=" rest) = Some (m.1, String "=" rest);
  wi_head : ∀ rest, skipOWS (m.1 +:+ rest) = m.1 +:+ rest;
  wi_item : ∀ rest, stops rest → bareItem (m.2 +:+ rest) = Some (it, rest);
}.

Lemma skipParams_stops fuel rest : stops rest → skipParams fuel rest = Some rest.
Proof. intros [->|[r ->]]; by destruct fuel. Qed.

Lemma skipOWS_space s : skipOWS (String " " s) = skipOWS s.
Proof. unfold skipOWS. cbn [span]. by destruct (span _ s). Qed.

Definition read_members (ms : list (string * string)) (its : list item) (out : gmap string item) : gmap string item :=
  foldl (λ out mi, <[mi.1.1 := mi.2]> out) out (zip ms its).

Lemma parse_members_Join fuel ms its out : Forall2 wire ms its → ms ≠ [] → (length ms ≤ fuel)%nat →
  parse_members fuel (Join (map written ms) ", ") out = Some (read_members ms its out).
Proof.
  intros Hw. revert fuel out. induction Hw as [|[k v] it ms its Hm Hms IH]; intros fuel out Hne Hf; [done|].
  destruct fuel as [|fuel]; [cbn in Hf; lia|].
  assert (Hs : ∃ rest, Join (map written ((k, v) :: ms)) ", " = k +:+ String "=" (v +:+ rest) ∧ stops rest ∧
    (ms = [] ∧ rest = nostr ∨ ms ≠ [] ∧ rest = String "," (String " " (Join (map written ms) ", ")))).
  { cbn [map]. change (written (k, v)) with (k +:+ String "=" v). destruct ms as [|m ms].
    - exists nostr. cbn [map Join]. rewrite ?str_app_assoc, ?str_app_nil_r. split; [done|]. split; [by left|by left].
    - exists (String "," (String " " (Join (map written (m :: ms)) ", "))). cbn [map Join]. rewrite ?str_app_assoc.
      split; [done|]. split; [right; eauto|by right]. }
  destruct Hs as (rest & -> & Hst & Hrest). cbn [parse_members]. rewrite (wi_key _ _ Hm). cbn [mbind option_bind].
  rewrite (wi_item _ _ Hm) by done. cbn [mbind option_bind]. rewrite skipParams_stops by done. cbn [mbind option_bind].
  destruct Hrest as [[-> ->]|[Hms' ->]].
  { cbn. inversion Hms; subst. done. }
  replace (skipOWS (String "," (String " " (Join (map written ms) ", ")))) with
    (String "," (String " " (Join (map written ms) ", "))) by done.
  assert (Hskip : skipOWS (String " " (Join (map written ms) ", ")) = Join (map written ms) ", " ∧
    str_eqb (Join (map written ms) ", ") nostr = false).
  { destruct Hms as [|m' it' ms' its' Hm' Hms'']; [done|].
    assert (∃ r, Join (map written (m' :: ms')) ", " = m'.1 +:+ String "=" r) as [r Hr].
    { cbn [map]. change (written m') with (m'.1 +:+ String "=" m'.2). destruct ms' as [|m2 ms']; cbn [map Join]; rewrite ?str_app_assoc; eauto. }
    rewrite Hr. split.
    - rewrite skipOWS_space. apply (wi_head _ _ Hm').
    - destruct (str_eqb _ _) eqn:E; [|done]. apply str_eqb_true in E. by destruct m'.1. }
  destruct Hskip as [-> ->]. rewrite IH; [done|done|]. cbn in Hf. lia.
Qed.

(** ** The header *)

(** What a header shows of a status. *)
Definition shown (st : StatusOf string) : StatusOf string :=
  let err := shown_text (str_take maxHeaderError (default nostr (stLastError st))) in
  mkStatus (shown_text (stState st)) (shown_text (stBucket st)) (shown_text (stTarget st)) (stDone st) (stTotal st)
    (if 0 <? stFailed st then stFailed st else 0) (stEta st) None (if str_eqb err nostr then None else Some err).

Definition items (st : StatusOf string) : list item :=
  [ItemText (shown_text (stState st))] ++
  (if str_eqb (stBucket st) nostr then [] else [ItemText (shown_text (stBucket st))]) ++
  (if str_eqb (stTarget st) nostr then [] else [ItemText (shown_text (stTarget st))]) ++
  [ItemInt (stDone st); ItemInt (stTotal st)] ++
  (if 0 <? stFailed st then [ItemInt (stFailed st)] else []) ++
  [ItemInt (stEta st)] ++
  (let msg := default nostr (stLastError st) in
   if str_eqb msg nostr then [] else [ItemText (shown_text (str_take maxHeaderError msg))]).

(** Counts a header can carry: at most 15 digits. *)
Record countable (st : StatusOf string) : Prop := {
  co_done : fits (stDone st);
  co_total : fits (stTotal st);
  co_failed : stFailed st < 10 ^ 15;
  co_eta : fits (stEta st);
}.

Ltac known_key := split; [intros ?; reflexivity|intros ?; reflexivity|].

Lemma members_wire st : countable st → Forall2 wire (members st) (items st).
Proof.
  intros [Hd Ht Hf He]. unfold members, items.
  repeat apply Forall2_app.
  - constructor; [|done]. known_key. intros rest Hr. by apply bareItem_item.
  - destruct (str_eqb _ _); [done|]. constructor; [|done]. known_key. intros rest Hr. by apply bareItem_item.
  - destruct (str_eqb _ _); [done|]. constructor; [|done]. known_key. intros rest _. apply bareItem_string.
  - constructor; [|constructor; [|done]]; known_key; intros rest Hr; by apply bareItem_int.
  - destruct (0 <? stFailed st) eqn:E; [|done]. constructor; [|done]. known_key. intros rest Hr. apply bareItem_int; [|done].
    apply Z.ltb_lt in E. unfold fits. lia.
  - constructor; [|done]. known_key. intros rest Hr. by apply bareItem_int.
  - cbv zeta. destruct (str_eqb _ _); [done|]. constructor; [|done]. known_key. intros rest _. apply bareItem_string.
Qed.

Lemma shown_text_nil s : str_eqb (shown_text s) nostr = str_eqb s nostr.
Proof. by destruct s. Qed.
Lemma take_nil n s : str_eqb (str_take (S n) s) nostr = str_eqb s nostr.
Proof. by destruct s. Qed.

Lemma str_forall_map p f s : (∀ c, p (f c) = true) → str_forall p (str_map f s) = true.
Proof. intros Hp. induction s as [|c s IH]; [done|]. cbn [str_map str_forall]. by rewrite Hp, IH. Qed.

Lemma shown_text_eq s t : str_forall sf_byte t = true → StrContains t "?" = false → shown_text s = t → s = t.
Proof.
  revert t. induction s as [|c s IH]; intros t Ht Hq; cbn [shown_text str_map]; [by intros <-|].
  destruct t as [|d t]; [done|]. intros [= Hc Hs]. cbn [str_forall] in Ht. apply andb_true_iff in Ht as [Hd Ht].
  cbn [StrContains] in Hq. apply orb_false_iff in Hq as [Hp Hq]. f_equal; [|by apply IH].
  unfold shown_char in Hc. destruct (sf_byte c); [done|]. subst d. by destruct t.
Qed.

Lemma dict_fields st : countable st →
  let dict := read_members (members st) (items st) ∅ in
  text_member dict "state" = Some (shown_text (stState st)) ∧ text_member dict "bucket" = Some (shown_text (stBucket st)) ∧
  text_member dict "target" = Some (shown_text (stTarget st)) ∧
  text_member dict "error" = Some (shown_text (str_take maxHeaderError (default nostr (stLastError st)))) ∧
  int_member dict "done" = Some (stDone st) ∧ int_member dict "total" = Some (stTotal st) ∧
  int_member dict "failed" = Some (if 0 <? stFailed st then stFailed st else 0) ∧ int_member dict "eta" = Some (stEta st).
Proof.
  intros _. unfold members, items. set (msg := default nostr (stLastError st)). cbv zeta.
  destruct (str_eqb (stBucket st) nostr) eqn:Eb; [apply str_eqb_true in Eb; rewrite Eb|];
    (destruct (str_eqb (stTarget st) nostr) eqn:Et; [apply str_eqb_true in Et; rewrite Et|]);
    (destruct (str_eqb msg nostr) eqn:Em; [apply str_eqb_true in Em; rewrite Em|]);
    destruct (0 <? stFailed st); cbn [app]; unfold read_members; cbn [zip zip_with foldl fst snd];
    unfold text_member, int_member;
    repeat first [rewrite lookup_insert_eq|rewrite lookup_insert_ne by done|rewrite lookup_empty]; done.
Qed.

Lemma Join_printable l : (∀ s, s ∈ l → str_forall sf_byte s = true) → str_forall sf_byte (Join l ", ") = true.
Proof.
  induction l as [|s [|t l] IH]; intros Hl; [done|by apply Hl; left|].
  change (Join (s :: t :: l) ", ") with (s +:+ ", " +:+ Join (t :: l) ", "). rewrite !str_forall_app, (Hl s) by by left.
  cbn [andb]. rewrite IH; [done|]. intros x Hx. apply Hl. by right.
Qed.
Lemma quoted_printable s : str_forall sf_byte (quoted s) = true.
Proof.
  induction s as [|c s IH]; [done|]. cbn [quoted]. destruct (is_char c dquote || is_char c backslash) eqn:Eq.
  - cbn [str_forall]. rewrite IH, andb_true_r. each_byte c Eq.
  - destruct (sf_byte c) eqn:Ep; cbn [negb str_forall]; rewrite IH; [by rewrite Ep|done].
Qed.
Lemma sfItem_printable s : str_forall sf_byte (sfItem s) = true.
Proof. unfold sfItem. destruct (isToken s) eqn:E; [by apply token_printable|]. apply quoted_printable. Qed.
Lemma pretty_printable (z : Z) : str_forall sf_byte (pretty z) = true.
Proof. eapply str_forall_impl; [|apply pretty_Z_chars]. intros c Hc. each_byte c Hc. Qed.

Lemma EncodeHeader_printable st : str_forall sf_byte (EncodeHeader st) = true.
Proof.
  unfold EncodeHeader. destruct (_ || _); [done|]. apply Join_printable.
  assert (Hm : ∀ k v, str_forall sf_byte k = true → str_forall sf_byte v = true → str_forall sf_byte (written (k, v)) = true).
  { intros k v Hk Hv. unfold written. cbn [fst snd]. by rewrite !str_forall_app, Hk, Hv. }
  assert (Hall : ∀ m, m ∈ members st → str_forall sf_byte (written m) = true).
  { intros m. unfold members. rewrite !elem_of_app.
    intros Hin. repeat match goal with x : _ ∨ _ |- _ => destruct x end;
      repeat match goal with
      | x : _ ∈ (if ?b then _ else _) |- _ => destruct b
      | x : _ ∈ (let _ := _ in _) |- _ => cbv zeta in x
      | x : _ ∈ [] |- _ => by apply not_elem_of_nil in x
      | x : _ ∈ _ :: _ |- _ => apply elem_of_cons in x as [->|x]
      end; apply Hm; (done || apply sfItem_printable || apply pretty_printable || apply quoted_printable). }
  intros s (m & -> & Hin)%list_elem_of_fmap. by apply Hall.
Qed.

Lemma skipped_members st : skipSP (Join (map written (members st)) ", ") = Join (map written (members st)) ", " ∧
  str_eqb (Join (map written (members st)) ", ") nostr = false.
Proof.
  assert (∃ r, Join (map written (members st)) ", " = String "s" r) as [r ->]; [|done].
  unfold members. cbn [app map]. set (l := map written _). change (written ("state"%string, ?x)) with (String "s" ("tate=" +:+ x)).
  destruct l; cbn [Join]; rewrite ?str_app_cons; eauto.
Qed.

Lemma members_fuel st : (length (members st) ≤ S (String.length (skipSP (Join (map written (members st)) ", "))))%nat.
Proof.
  assert (Hj : ∀ l, (∀ s, s ∈ l → s ≠ nostr) → (length l ≤ String.length (Join l ", "))%nat).
  { intros l. induction l as [|s [|t l] IH]; intros Hl; [cbn; lia| |].
    - pose proof (Hl s ltac:(by left)). destruct s; [done|]. cbn. lia.
    - change (Join (s :: t :: l) ", ") with (s +:+ ", " +:+ Join (t :: l) ", "). rewrite !length_str_app.
      specialize (IH ltac:(intros x Hx; apply Hl; by right)). cbn [length String.length] in *. lia. }
  assert (Hw : ∀ s, s ∈ map written (members st) → s ≠ nostr).
  { intros s (m & -> & _)%list_elem_of_fmap. unfold written. by destruct m.1. }
  specialize (Hj _ Hw). rewrite length_map in Hj. destruct (skipped_members st) as [-> _]. lia.
Qed.

(** ** The status machine *)
Section machine.
Context {E : Type}.
Local Notation Status := (StatusOf E).

Inductive status_step (s : Status) : Status → Prop :=
| step_Start bucket target total now persisted : status_step s (StartTarget bucket target total now persisted s).2
| step_Tick done now persisted : status_step s (Tick done now persisted s).2
| step_TickFailed done failed now persisted : status_step s (TickFailed done failed now persisted s).2
| step_Complete now persisted : status_step s (status_Complete now persisted s).2
| step_Fail err now persisted : status_step s (status_Fail err now persisted s).2.

(** Idle is the empty status; a failed one says why; the counts and the estimate
    are never negative, and the estimate is below 2 ^ 34 seconds. *)
Record status_ok (s : Status) : Prop := {
  so_state : s = idleStatus ∨ stState s = StateInProgress ∧ is_Some (stStartedAt s) ∧ stLastError s = None ∨
             stState s = StateFailed ∧ is_Some (stLastError s);
  so_done : 0 ≤ stDone s;
  so_total : 0 ≤ stTotal s;
  so_failed : 0 ≤ stFailed s;
  so_eta : 0 ≤ stEta s < 2 ^ 34;
}.

Lemma computeETA_bound done total started now : 0 ≤ computeETA done total started now < 2 ^ 34.
Proof.
  unfold computeETA. destruct (_ || _); [lia|]. cbv zeta. destruct (_ <=? 0) eqn:He; [lia|].
  set (r := wrap64 _). assert (Hr : - 2 ^ 63 <= r < 2 ^ 63) by (unfold r, wrap64; lia). clearbody r.
  destruct (r `quot` Second <? 0) eqn:Hs; [lia|]. apply Z.ltb_ge in Hs.
  split; [lia|]. pose proof (Z.quot_le_upper_bound r Second (2 ^ 34 - 1)) as Hq. unfold Second in *. lia.
Qed.

Lemma idle_ok : status_ok (idleStatus : Status).
Proof. split; [by left|cbn; lia..]. Qed.

Lemma status_step_ok (s s' : Status) : status_ok s → status_step s s' → status_ok s'.
Proof.
  intros [Hs Hd Ht Hf He] Hstep.
  assert (Hrun : in_progress s = true → is_Some (stStartedAt s) ∧ stLastError s = None ∧ stState s = StateInProgress).
  { unfold in_progress. intros Hr%str_eqb_true. destruct Hs as [->|[(? & ? & ?)|[Hf' _]]]; [done|done|by rewrite Hf' in Hr]. }
  assert (Htick : ∀ done failed now persisted, in_progress s = true → 0 ≤ done → 0 ≤ failed → status_ok (tickLocked done failed now persisted s).2).
  { intros done failed now persisted (Hst & Herr & Hstate)%Hrun Hd' Hf'. split; cbn; [by right; left|done|done|done|].
    destruct (0 <? stTotal s); [apply computeETA_bound|done]. }
  destruct Hstep.
  - unfold StartTarget. destruct (in_progress s); [by split|]. destruct (total <? 0) eqn:E0; [by split|]. apply Z.ltb_ge in E0.
    split; cbn; [right; left; eauto|lia..].
  - unfold Tick. destruct (in_progress s) eqn:Hr; cbn [negb]; [|by split]. destruct (done <? 0) eqn:E0; [by split|]. apply Z.ltb_ge in E0.
    by apply Htick.
  - unfold TickFailed. destruct (in_progress s) eqn:Hr; cbn [negb]; [|by split]. destruct (_ || _) eqn:Hb; [by split|].
    apply orb_false_iff in Hb as [[Hb1%Z.ltb_ge Hb2%Z.ltb_ge]%orb_false_iff _]. by apply Htick.
  - unfold status_Complete. destruct (in_progress s); cbn [negb]; [|by split]. apply idle_ok.
  - unfold status_Fail. destruct err as [e|]; [|by split]. destruct (in_progress s); cbn [negb]; [|by split].
    split; cbn; [right; right; eauto|done..].
Qed.
End machine.

(** C28. The upgrade header reads back.  Of every status a server can reach the
    header is printable ASCII, whatever errors and names the status holds; it is
    empty just when the status is idle, and otherwise, as long as the counts have
    at most 15 digits, a client decodes from it the state and the counts of the
    status, its estimate, and its bucket, target and error with the unprintable
    bytes replaced and the error cut at 256 bytes. *)
Theorem header_roundtrip (st : StatusOf string) : star status_step idleStatus st →
  str_forall sf_byte (EncodeHeader st) = true ∧
  (EncodeHeader st = nostr ↔ st = idleStatus) ∧
  (st ≠ idleStatus → stDone st < 10 ^ 15 → stTotal st < 10 ^ 15 → stFailed st < 10 ^ 15 →
     DecodeHeader (EncodeHeader st) = Some (shown st) ∧ stState (shown st) = stState st).
Proof.
  intros Hreach. assert (Hok : status_ok st).
  { assert (Hgen : ∀ s, star status_step s st → status_ok s → status_ok st); [|by apply (Hgen _ Hreach), idle_ok].
    clear Hreach. intros s. induction 1 as [s|a b c Hab _ IH]; [done|]. intros Ha. by eapply IH, status_step_ok. }
  destruct Hok as [Hs Hd Ht Hf He].
  assert (Hstate : st ≠ idleStatus → stState st = StateInProgress ∨ stState st = StateFailed).
  { intros Hne. destruct Hs as [?|[(? & _)|[? _]]]; [done|by left|by right]. }
  assert (Hact : st ≠ idleStatus → str_eqb (stState st) StateIdle || str_eqb (stState st) nostr = false).
  { intros [-> | ->]%Hstate; reflexivity. }
  split; [apply EncodeHeader_printable|]. split.
  - split; [|by intros ->]. intros Hn. destruct Hs as [?|Hs]; [done|]. exfalso. revert Hn. unfold EncodeHeader.
    assert (Hst : stState st = StateInProgress ∨ stState st = StateFailed) by (destruct Hs as [(? & _)|[? _]]; [by left|by right]).
    replace (str_eqb (stState st) StateIdle || str_eqb (stState st) nostr) with false by by destruct Hst as [-> | ->].
    unfold members. cbn [app map]. by destruct (map written _).
  - intros Hne Hd' Ht' Hf'. specialize (Hact Hne). specialize (Hstate Hne).
    assert (Hshown : shown_text (stState st) = stState st) by by destruct Hstate as [-> | ->]. split; [|done].
    assert (Hc : countable st) by (split; unfold fits; lia).
    unfold DecodeHeader, EncodeHeader. rewrite Hact. unfold parseDictionary.
    pose proof (members_fuel st) as Hfuel. destruct (skipped_members st) as [Hskip Hnn]. rewrite Hskip, Hnn in *.
    rewrite (parse_members_Join _ _ (items st)); [|by apply members_wire|done|done].
    cbn [mbind option_bind]. destruct (dict_fields st Hc) as (-> & -> & -> & -> & -> & -> & -> & ->). cbn [mbind option_bind].
    rewrite Hshown. by rewrite orb_comm, Hact, <- Hshown.
Qed.

Definition failed_status : StatusOf string :=
  let s1 := (@StartTarget string BucketReingestSelective "nomic:v1.5" 9 0 true idleStatus).2 in
  let s2 := (TickFailed 3 1 (6 * Second) false s1).2 in
  (status_Fail (Some ("disk " +:+ String dquote ("full" +:+ String dquote (String (Ascii.ascii_of_nat 10) "X"))))%string 0 true s2).2.

Lemma header_roundtrip_witness :
  star status_step idleStatus failed_status ∧
  DecodeHeader (EncodeHeader failed_status) = Some (shown failed_status) ∧ stState (shown failed_status) = StateFailed ∧
  stLastError (shown failed_status) = Some ("disk " +:+ String dquote ("full" +:+ String dquote "?X"))%string ∧
  EncodeHeader failed_status =
    ("state=failed, bucket=reingest_selective, target=" +:+ String dquote ("nomic:v1.5" +:+ String dquote
     (", done=3, total=9, failed=1, eta=12, error=" +:+ String dquote ("disk " +:+ String backslash (String dquote ("full" +:+
      String backslash (String dquote ("?X" +:+ String dquote nostr))))))))%string.
Proof.
  assert (Hr : star status_step idleStatus failed_status).
  { eapply star_step; [apply (step_Start _ BucketReingestSelective "nomic:v1.5" 9 0 true)|].
    eapply star_step; [apply (step_TickFailed _ 3 1 (6 * Second) false)|].
    eapply star_step; [apply (step_Fail _ (Some ("disk " +:+ String dquote ("full" +:+ String dquote (String (Ascii.ascii_of_nat 10) "X"))))%string 0 true)|].
    apply star_refl. }
  destruct (header_roundtrip failed_status Hr) as (_ & _ & Hd).
  destruct Hd as [Hd Hs]; [discriminate|reflexivity..|].
  split; [exact Hr|]. split; [exact Hd|]. split; [reflexivity|]. split; vm_compute; reflexivity.
Defined.

(** Members and parameters a client does not know are skipped, and a member of
    the wrong type is an error. *)
Example decode_tolerant :
  (stTotal <$> DecodeHeader "state=in_progress;p=1, future=?1, rate=1.5, blob=:AAE=:, done=1,total=4") = Some 4 ∧
  DecodeHeader "done=abc, state=in_progress" = None ∧ DecodeHeader "state=in_progress,,done=1" = None ∧
  DecodeHeader "state=in_progress, done=12345678901234567" = None ∧ DecodeHeader "state=idle" = None.
Proof. by vm_compute. Qed.

(** ** The words of a predicate *)

(** SQL's string literals: a doubled quote stands for one, and a literal that is
    not closed is an error. *)
Fixpoint sql_close (s : string) : option string :=
  match s with
  | EmptyString => None
  | String c s' =>
      if is_char c squote then
        match s' with
        | String d s'' => if is_char d squote then sql_close s'' else Some s'
        | EmptyString => Some s'
        end
      else sql_close s'
  end.

(** SQLite's identifier characters: beside letters, digits and underscores also
    dollar signs and every byte outside ASCII; an identifier starts with neither a
    digit, as a number does, nor a dollar sign, as a parameter does. *)
Definition sql_id_char (c : ascii) : bool := word_char c || is_char c "$" || (128 <=? code c)%nat.
Definition sql_identifier (w : string) : bool :=
  match w with String c _ => word_start c || (128 <=? code c)%nat | EmptyString => false end.
(** A word of ASCII letters, digits and underscores. *)
Definition plain_word (w : string) : bool := forallb word_char (String.list_ascii_of_string w).

(** The words outside the literals of a text without quoted names: the longest
    runs of identifier characters. *)
Fixpoint sql_words (fuel : nat) (open : option string) (s : string) : option (list string) :=
  match fuel, s with
  | _, EmptyString => Some (option_list open)
  | O, _ => None
  | S fuel, String c s =>
      if is_char c squote then
        rest ← sql_close s; ws ← sql_words fuel None rest; Some (option_list open ++ ws)
      else
        match open with
        | Some w =>
            if sql_id_char c then sql_words fuel (Some (w +:+ String c nostr)) s
            else ws ← sql_words fuel None s; Some (w :: ws)
        | None => if sql_id_char c then sql_words fuel (Some (String c nostr)) s else sql_words fuel None s
        end
  end.
Definition quoted_names (s : string) : bool := negb (lacks dquote s && lacks "`" s && lacks "[" s).

Lemma sql_close_literal s rest : sql_close s = Some rest → close_literal s = Some rest.
Proof.
  assert (Hn : ∀ n s, (String.length s ≤ n)%nat → sql_close s = Some rest → close_literal s = Some rest); [|by apply (Hn (String.length s) s)].
  induction n as [|n IH]; intros [|c s'] Hl; try done; [cbn in Hl; lia|]. cbn [sql_close close_literal String.length] in *.
  destruct (is_char c squote); [|apply IH; lia]. destruct s' as [|d s'']; [done|]. cbn [String.length] in *.
  destruct (is_char d squote); [|done]. intros Hr. by rewrite (IH s'') by (done || lia).
Qed.

Lemma not_id_char c : sql_id_char c = false → word_char c = false.
Proof. unfold sql_id_char. by destruct (word_char c). Qed.

(** A character outside words ends the one being read. *)
Lemma identifiers_cut open w c t : word_char c = false →
  identifiers open (w +:+ String c t) = identifiers open w ++ identifiers None t.
Proof.
  intros Hc. assert (Hs : word_start c = false) by (unfold word_char in Hc; by destruct (word_start c)).
  revert open. induction w as [|d w IH]; intros open.
  - destruct open; simpl; [by rewrite Hc|by rewrite Hs].
  - simpl. destruct open as [v|].
    + destruct (word_char d); [apply IH|]. cbn [app]. f_equal. apply IH.
    + destruct (word_start d); apply IH.
Qed.

(** The words the check finds are those in SQL's. *)
Lemma strip_words fuel open s ws : sql_words fuel open s = Some ws →
  identifiers None (default nostr open +:+ strip_literals fuel s) = concat (map (identifiers None) ws).
Proof.
  revert open s ws. induction fuel as [|fuel IH]; intros open [|c s] ws; cbn [sql_words strip_literals];
    try (intros [= <-]; destruct open; cbn; by rewrite ?str_app_nil_r, ?app_nil_r); try done.
  destruct (is_char c squote) eqn:Eq.
  - destruct (sql_close s) as [rest|] eqn:Er; [|done]. cbn. destruct (sql_words fuel None rest) as [ws'|] eqn:Ew; [|done].
    cbn. intros [= <-]. rewrite (sql_close_literal _ _ Er). specialize (IH None rest ws' Ew). cbn in IH.
    rewrite identifiers_cut by done. cbn [identifiers]. rewrite map_app, concat_app, <- IH.
    by destruct open; cbn; rewrite ?app_nil_r.
  - destruct (sql_id_char c) eqn:Ec.
    + intros Hw. assert (Hw' : sql_words fuel (Some (default nostr open +:+ String c nostr)) s = Some ws) by by destruct open.
      specialize (IH _ _ _ Hw'). cbn [default from_option id] in IH. by rewrite str_app_assoc in IH.
    + apply not_id_char in Ec. destruct open as [w|]; cbn [default from_option id].
      * destruct (sql_words fuel None s) as [ws'|] eqn:Ew; [|done]. cbn. intros [= <-].
        rewrite identifiers_cut by done. cbn [map concat]. by rewrite <- (IH None s ws').
      * intros Hw. rewrite <- (IH None s ws Hw).
        exact (identifiers_cut None nostr c (strip_literals fuel s) Ec).
Qed.

Corollary predicate_words fuel s ws : sql_words fuel None s = Some ws →
  identifiers None (strip_literals fuel s) = concat (map (identifiers None) ws).
Proof. exact (strip_words fuel None s ws). Qed.

Lemma identifiers_plain open w : plain_word w = true → identifiers (Some open) w = [open +:+ w].
Proof.
  revert open. induction w as [|c w IH]; intros open Hw; [cbn; by rewrite str_app_nil_r|].
  unfold plain_word in Hw. cbn in Hw. apply andb_true_iff in Hw as [Hc Hw]. cbn. rewrite Hc, (IH _ Hw).
  by rewrite str_app_assoc.
Qed.
Lemma word_char_start c : word_char c = true → word_start c || (128 <=? code c)%nat = true → word_start c = true.
Proof. by destruct c as [[] [] [] [] [] [] [] []]; vm_compute. Qed.

Lemma identifiers_word w : sql_identifier w = true → plain_word w = true → identifiers None w = [w].
Proof.
  destruct w as [|c w]; [done|]. intros Hi Hp. unfold plain_word in Hp. cbn [String.list_ascii_of_string forallb] in Hp.
  apply andb_true_iff in Hp as [Hc Hw]. cbn [identifiers]. rewrite (word_char_start c Hc Hi).
  by rewrite identifiers_plain.
Qed.

(** C27. A selector stays within its words.  One that parses is a pipeline filter,
    a fixed clause whose one bound argument names a version, or a predicate
    without a statement separator or a comment.  As long as that predicate quotes
    no names, each of its identifiers outside its string literals, read as SQLite
    reads them, is a listed column of [objects] or a listed operator if it is made
    of ASCII letters, digits and underscores; of a word that also has dollar signs
    or bytes outside ASCII, which SQLite lets an identifier have, the parts
    between those are listed. *)
Theorem selector_confined explain s sel : ParseSelector explain s = Ok sel →
  (seSQL sel = "pipeline = ?" ∧ ∃ value, seArgs sel = [value] ∧ StrContains value "@v" = true) ∨
  (seArgs sel = [] ∧ seRaw sel = ("where:" +:+ seSQL sel)%string ∧ seSQL sel ≠ nostr ∧
   (∀ frag, frag ∈ dangerousFragments → StrContains (seSQL sel) frag = false) ∧
   (quoted_names (seSQL sel) = false → ∀ ws w, sql_words (String.length (seSQL sel)) None (seSQL sel) = Some ws → w ∈ ws →
      (sql_identifier w = true → plain_word w = true → allowed_word w = true) ∧
      (∀ tok, tok ∈ identifiers None w → allowed_word tok = true)) ∧
   (∀ plans, explain = Some plans → plans ("EXPLAIN QUERY PLAN SELECT id FROM objects WHERE " +:+ seSQL sel)%string = true)).
Proof.
  unfold ParseSelector. destruct (str_eqb _ nostr); [done|]. destruct (HasPrefix _ "pipeline=").
  - unfold parsePipelineFilter. cbv zeta. destruct (str_eqb _ nostr); [done|]. destruct (StrContains _ "@v") eqn:Hv; [|done].
    cbn [negb]. intros [= <-]. left. cbn. eauto.
  - destruct (HasPrefix _ "where:"); [|done]. unfold parseWhereSelector. cbv zeta.
    set (pred := TrimSpace (str_drop 6 (TrimSpace s))). destruct (str_eqb pred nostr) eqn:Hne; [done|].
    destruct (existsb _ dangerousFragments) eqn:Hfrag; [done|]. destruct (has_keyword false pred); [done|].
    intros ([] & Hval & Hsel)%bind_ok_inv. right.
    assert (sel = mkSelector ("where:" +:+ pred) pred [] ∧
      ∀ plans, explain = Some plans → plans ("EXPLAIN QUERY PLAN SELECT id FROM objects WHERE " +:+ pred)%string = true) as [-> Hplans].
    { destruct explain as [plans|]; [|by injection Hsel as <-]. destruct (plans _) eqn:Hp; [|done]. injection Hsel as <-.
      split; [done|]. by intros ? [= <-]. }
    cbn [seSQL seArgs seRaw]. split_and!; [done|done| | | |done].
    + intros E. by rewrite E in Hne.
    + intros frag Hf. apply not_true_iff_false. intros Hc. apply not_true_iff_false in Hfrag. apply Hfrag, existsb_exists'. eauto.
    + intros _ ws w Hws Hw. unfold validateIdentifiers in Hval. destruct (List.find _ _) as [tok|] eqn:Hfind; [done|].
      rewrite (predicate_words _ _ _ Hws) in Hfind.
      assert (Htok : ∀ tok, tok ∈ identifiers None w → allowed_word tok = true).
      { intros tok Ht. apply negb_false_iff. apply (List.find_none _ _ Hfind tok), list_elem_of_In, elem_of_concat_map. eauto. }
      split; [|done]. intros Hi Hp. apply Htok. rewrite identifiers_word by done. by apply list_elem_of_singleton.
Qed.

Definition sample_predicate : string := "graph_json IS NULL and pipeline LIKE 'text.short''s%'".
Definition sample_selector : Selector := mkSelector ("where:" +:+ sample_predicate) sample_predicate [].

Lemma selector_confined_witness :
  ParseSelector None (" where: " +:+ sample_predicate) = Ok sample_selector ∧
  sql_words (String.length sample_predicate) None sample_predicate = Some ["graph_json"; "IS"; "NULL"; "and"; "pipeline"; "LIKE"]%string ∧
  allowed_word "and" = true ∧
  ParseSelector None "where:id = 'a; b'" = Err ForbiddenFragment ∧ ParseSelector None "pipeline=text.short" = Err PipelineVersion.
Proof.
  assert (Hs : ParseSelector None (" where: " +:+ sample_predicate) = Ok sample_selector) by (vm_compute; reflexivity).
  assert (Hws : sql_words (String.length sample_predicate) None sample_predicate =
    Some ["graph_json"; "IS"; "NULL"; "and"; "pipeline"; "LIKE"]%string) by (vm_compute; reflexivity).
  assert (Hq : quoted_names sample_predicate = false) by (vm_compute; reflexivity).
  split; [exact Hs|]. split; [exact Hws|]. split; [|split; vm_compute; reflexivity].
  destruct (selector_confined _ _ _ Hs) as [[He _]|(_ & _ & _ & _ & Hw & _)]; [discriminate He|].
  refine (proj1 (Hw Hq _ "and"%string Hws _) eq_refl eq_refl). apply list_elem_of_In. do 3 right. left. reflexivity.
Defined.

(** A dollar sign or a letter outside ASCII is part of an identifier to SQLite but
    not to the identifier check, which looks at the parts between them only. *)
Example other_letters_unchecked :
  ParseSelector None "where:id$type IS NULL" = Ok (mkSelector "where:id$type IS NULL" "id$type IS NULL" []) ∧
  sql_words 15 None "id$type IS NULL" = Some ["id$type"; "IS"; "NULL"]%string ∧ allowed_word "id$type" = false ∧
  ParseSelector None "where:é = 1" = Ok (mkSelector "where:é = 1" "é = 1" []) ∧
  sql_words 7 None "é = 1" = Some ["é"; "1"]%string ∧ sql_identifier "é" = true ∧ allowed_word "é" = false.
Proof. split_and!; vm_compute; reflexivity. Qed.

(** A quote inside a quoted name is the end of a literal to the identifier check
    but not to SQL, for which what follows is text of the predicate: any words
    pass between two such names. *)
Definition quote_name : string := String dquote (String squote (String dquote nostr)).
Definition subquery : string := "< (SELECT group_concat(secret) FROM api_keys) OR 1 <"%string.
Example quoted_names_unchecked :
  let pred := (quote_name +:+ " " +:+ subquery +:+ " " +:+ quote_name)%string in
  ParseSelector None ("where:" +:+ pred) = Ok (mkSelector ("where:" +:+ pred) pred []) ∧
  ParseSelector None ("where:id " +:+ subquery +:+ " id")%string = Err (UnknownIdentifier "SELECT").
Proof. split; vm_compute; reflexivity. Qed.
