(* ===== verification/Reproject.v ===== *)
(** * Re-projection: bringing the search index to a new projection

    Models the index signature over SQLite
    ([internal/storage/indexsig/indexsig.go]) and the re-projection job
    ([internal/jobs/reproject.go], [reproject_reftext.go]) over the object store
    of ObjectDB, with the upgrade status of file Upgrade.

    A run meets the world one call at a time (file Turns).  Left out: texts of
    errors, and what reads the shadow file. *)

From S2P Require Import Prelude GoStrings Objects Classes Contact Projection JobStore JobQueue ObjectDB EdgeDB Encodings Blobs Turns Upgrade.

Local Open Scope Z_scope.

(** ** indexsig.go *)
Definition FTSSignatureID : string := "objects_fts".
Definition SQLiteFTSTokenizer : string := "fts5-default".

Section signature.
Context `{GoCrypto} `{GoUnicode}.
(** The DDL of [objects_fts] in [sqlite_master], when it is there. *)
Context (ddl : option string).

Definition hashInputs (parts : list string) : string := EncodeHex (SHA256 (Join (SortStrings parts) newline_byte)).
Definition HashFTSInputs (tokenizer projection ddl : string) : string :=
  hashInputs ["tokenizer=" +:+ tokenizer; "projection=" +:+ projection; "ddl=" +:+ ddl]%string.

(** [computeFTSSQLite]: the hash, or no such table. *)
Definition computeFTSSQLite : option string :=
  HashFTSInputs SQLiteFTSTokenizer ProjectionVersion ∘ TrimSpace <$> ddl.

Record VerifyResult : Type := mkVerify { vrMatch : bool; vrFirstBoot : bool; vrOldHash : string; vrNewHash : string }.

(** [index_signatures] by id. *)
Definition VerifyFTS (sigs : gmap string string) : option (VerifyResult * gmap string string) :=
  new ← computeFTSSQLite;
  Some match sigs !! FTSSignatureID with
       | None => (mkVerify false true nostr new, <[FTSSignatureID := new]> sigs)
       | Some old => (mkVerify (str_eqb old new) false old new, sigs)
       end.

Definition StampFTS (sigs : gmap string string) : option (gmap string string) :=
  new ← computeFTSSQLite; Some (<[FTSSignatureID := new]> sigs).
End signature.

(** ** Scheduling *)
Definition ReprojectJobType : string := "projection:reproject".
Definition reprojectMaxRetries : Z := 3.

Inductive ScheduleError : Type :=
| ScheduleList
| ScheduleEnqueue (e : QueueError).

Section schedule.
Context `{GoEncodings}.

(** The newest job of the type in a status. *)
Definition live_job (t : list JobRow) (status : string) : result ScheduleError (option Job) :=
  match List_ t (mkJobFilter status ReprojectJobType 1 0) with
  | None => Err ScheduleList
  | Some (jobs, _) => Ok (head jobs)
  end.

(** [now] and [id]: the clock and the new job's id. *)
Definition ScheduleReprojection (t : list JobRow) (verify : option VerifyResult) (now : Z) (id : string) :
    result ScheduleError (list JobRow * option Job) :=
  match verify with
  | None => Ok (t, None)
  | Some v =>
      if vrMatch v || vrFirstBoot v then Ok (t, None)
      else
        running ← live_job t JobRunning;
        match running with
        | Some j => Ok (t, Some j)
        | None =>
            pending ← live_job t JobPending;
            match pending with
            | Some j => Ok (t, Some j)
            | None =>
                '(t, j) ← map_err ScheduleEnqueue (EnqueueTask t now id ReprojectJobType "{}" reprojectMaxRetries);
                Ok (t, Some j)
            end
        end
  end.
End schedule.

(** ** Errors and results of a run *)

(** What a call answers: it failed, or its own error. *)
Inductive CallError : Type :=
| CallFault
| StoreFault (e : ObjError).

Inductive RunError : Type :=
| Interrupted
| ListRefFailed
| CountFailed
| ListStaleFailed
| StampFailed
| StatusFailed (e : UpgradeError).

(** The reasons a run gives the status when it fails. *)
Inductive FailReason : Type :=
| StillStale (left : Z) (first : option CallError)
| StoppedAfter (done total : Z) (cause : RunError).

Abbreviation Status := (StatusOf FailReason).

(** ** The world of a run *)

(** What a run shares with the rest of the program: the stores, the signatures
    and the upgrade status. *)
Record Shared : Type := mkShared { shWorld : World; shSigs : gmap string string; shStatus : Status }.
Definition shDB (s : Shared) : ObjDB := wObjects (shWorld s).
Definition with_db (s : Shared) (db : ObjDB) : Shared := mkShared (set_objects (shWorld s) db) (shSigs s) (shStatus s).
Definition with_sigs (s : Shared) (sigs : gmap string string) : Shared := mkShared (shWorld s) sigs (shStatus s).
Definition with_status (s : Shared) (st : Status) : Shared := mkShared (shWorld s) (shSigs s) st.

Inductive Topic : Type := ReprojectionStarted | ReprojectionProgressed | ReprojectionCompleted | ReprojectionFailed.

(** [ReprojectResult] *)
Record ReprojectResult : Type := mkResult {
  rsTotal : Z;
  rsReprojected : Z;
  rsSkipped : Z;
  rsFailed : Z;
  rsFailedObjects : list string;
  rsTextRepaired : Z;
  rsTextRepairFailed : Z;
  rsTextRepairFailedObjects : list string;
}.
Definition newResult : ReprojectResult := mkResult 0 0 0 0 [] 0 0 [].
Definition Handled (r : ReprojectResult) : Z := rsReprojected r + rsSkipped r + rsFailed r.

(** The events published carry the result so far. *)
Definition ProjectionEvent : Type := Topic * ReprojectResult.
Abbreviation ReprojectM := (RunM Shared ProjectionEvent).
Abbreviation ReprojectCtx := (RunCtx Shared ProjectionEvent).

(** A call on a store. *)
Definition db_call {A} (f : Shared → A * Shared) : ReprojectM (result CallError A) :=
  a ← ask f; mret match a with Some a => Ok a | None => Err CallFault end.
(** A call on the status: only its shadow file can fail. *)
Definition status_call (f : Z → bool → Status → result UpgradeError unit * Status) : ReprojectM (result UpgradeError unit) :=
  fate ← turn;
  let persisted := match fate with Runs => true | _ => false end in
  on_shared (λ s, let '(r, st) := f (wNow (shWorld s)) persisted (shStatus s) in (r, with_status s st)).

(** ** reproject.go *)
Definition DefaultTextCap : Z := 65536.
Definition DefaultReprojectBatch : Z := 200.
Definition maxFailedReprojections : nat := 20.
Definition ReprojectTarget : string := "projection@" +:+ ProjectionVersion.

(** [Reprojector]: whether it has a [RefTextStore], a blob store and a status. *)
Record Reprojector : Type := mkReprojector {
  rpRefText : bool;
  rpBlobs : bool;
  rpTextCap : Z;
  rpProgress : bool;
  rpBatch : Z;
}.
Definition text_cap (rp : Reprojector) : Z := if rpTextCap rp <=? 0 then DefaultTextCap else rpTextCap rp.
Definition batch_size (rp : Reprojector) : Z := if rpBatch rp <=? 0 then DefaultReprojectBatch else rpBatch rp.

(** [reprojectRun]: the result and the first failure. *)
Record reprojectRun : Type := mkRun { rrRes : ReprojectResult; rrFailure : option CallError }.

Definition add_failed (l : list string) (id : string) : list string :=
  if (length l <? maxFailedReprojections)%nat then l ++ [id] else l.

Definition set_total (r : ReprojectResult) (total : Z) : ReprojectResult :=
  mkResult total (rsReprojected r) (rsSkipped r) (rsFailed r) (rsFailedObjects r) (rsTextRepaired r)
    (rsTextRepairFailed r) (rsTextRepairFailedObjects r).
Definition text_repaired (r : ReprojectResult) : ReprojectResult :=
  mkResult (rsTotal r) (rsReprojected r) (rsSkipped r) (rsFailed r) (rsFailedObjects r) (rsTextRepaired r + 1)
    (rsTextRepairFailed r) (rsTextRepairFailedObjects r).
Definition text_not_repaired (r : ReprojectResult) (id : string) : ReprojectResult :=
  mkResult (rsTotal r) (rsReprojected r) (rsSkipped r) (rsFailed r) (rsFailedObjects r) (rsTextRepaired r)
    (rsTextRepairFailed r + 1) (add_failed (rsTextRepairFailedObjects r) id).

(** [reprojectRun.count] *)
Definition count (x : reprojectRun) (id : string) (changed : result CallError bool) : reprojectRun :=
  let r := rrRes x in
  match changed with
  | Err e =>
      mkRun (mkResult (rsTotal r) (rsReprojected r) (rsSkipped r) (rsFailed r + 1) (add_failed (rsFailedObjects r) id)
               (rsTextRepaired r) (rsTextRepairFailed r) (rsTextRepairFailedObjects r))
        (Some (default e (rrFailure x)))
  | Ok true =>
      mkRun (mkResult (rsTotal r) (rsReprojected r + 1) (rsSkipped r) (rsFailed r) (rsFailedObjects r)
               (rsTextRepaired r) (rsTextRepairFailed r) (rsTextRepairFailedObjects r)) (rrFailure x)
  | Ok false =>
      mkRun (mkResult (rsTotal r) (rsReprojected r) (rsSkipped r + 1) (rsFailed r) (rsFailedObjects r)
               (rsTextRepaired r) (rsTextRepairFailed r) (rsTextRepairFailedObjects r)) (rrFailure x)
  end.

Section run.
Context `{GoEncodings} `{GoColumns} `{GoCrypto} `{GoUnicode}.
Context (ddl : option string) (rp : Reprojector).

(** ** reproject_reftext.go *)

(** The body of the loop: the object's text from its blob, in place of the ref. *)
Definition repair_object (o : KnowledgeObject) (res : ReprojectResult) : ReprojectM ReprojectResult :=
  text ← db_call (λ s, let '(r, w) := run (Content (rpBlobs rp) (koTextContent o)) (shWorld s) in
                       (r, mkShared w (shSigs s) (shStatus s)));
  match text with
  | Ok (Ok text) =>
      wrote ← db_call (λ s,
        let '(b, db) := obj_ReplaceRefText (shDB s) (koID o) (koTextContent o) (TextPrefix text (text_cap rp))
                          (str_eqb (koTextContent o) (koRawContent o)) in
        (b, with_db s db));
      mret match wrote with
           | Err _ => text_not_repaired res (koID o)
           | Ok true => text_repaired res
           | Ok false => res
           end
  | _ => mret (text_not_repaired res (koID o))
  end.

Fixpoint repair_objects (objs : list KnowledgeObject) (cursor : string) (res : ReprojectResult) :
    ReprojectM (option RunError * string * ReprojectResult) :=
  match objs with
  | [] => mret (None, cursor, res)
  | o :: objs =>
      cancelled ← ctx_Err;
      if cancelled : bool then mret (Some Interrupted, cursor, res)
      else res ← repair_object o res; repair_objects objs (koID o) res
  end.

Fixpoint repair_pages (fuel : nat) (cursor : string) (res : ReprojectResult) : ReprojectM (option RunError * ReprojectResult) :=
  match fuel with
  | O => halt OutOfFuel
  | S fuel =>
      objs ← db_call (λ s, (obj_ListRefText (shDB s) cursor (batch_size rp), s));
      match objs with
      | Err _ => mret (Some ListRefFailed, res)
      | Ok [] => mret (None, res)
      | Ok objs =>
          '(err, cursor, res) ← repair_objects objs cursor res;
          match err with Some e => mret (Some e, res) | None => repair_pages fuel cursor res end
      end
  end.

Definition repairRefText (fuel : nat) (res : ReprojectResult) : ReprojectM (option RunError * ReprojectResult) :=
  if rpRefText rp then repair_pages fuel nostr res else mret (None, res).

(** ** Begin, stop, finish *)
Definition count_stale : ReprojectM (result CallError Z) := db_call (λ s, (obj_CountStaleProjections (shDB s), s)).

(** The wait for another run ends with the poll or with the context. *)
Fixpoint begin_run (fuel : nat) (x : reprojectRun) : ReprojectM (option RunError * reprojectRun) :=
  match fuel with
  | O => halt OutOfFuel
  | S fuel =>
      total ← count_stale;
      match total with
      | Err _ => mret (Some CountFailed, x)
      | Ok total =>
          let x := mkRun (set_total (rrRes x) total) (rrFailure x) in
          if negb (rpProgress rp) then mret (None, x)
          else
            started ← status_call (StartTarget BucketReindexAuto ReprojectTarget total);
            match started with
            | Ok _ => mret (None, x)
            | Err (ErrBusy _) =>
                cancelled ← ctx_Err;
                if cancelled : bool then mret (Some Interrupted, x) else begin_run fuel x
            | Err e => mret (Some (StatusFailed e), x)
            end
      end
  end.

Definition RunResult : Type := ReprojectResult * option RunError.

(** The status's own error is dropped. *)
Definition fail_status (reason : FailReason) : ReprojectM unit :=
  if rpProgress rp then (_ ← status_call (status_Fail (Some reason)); mret tt) else mret tt.

Definition stop (x : reprojectRun) (cause : RunError) : ReprojectM RunResult :=
  _ ← fail_status (StoppedAfter (Handled (rrRes x)) (rsTotal (rrRes x)) cause);
  _ ← publish (ReprojectionFailed, rrRes x);
  mret (rrRes x, Some cause).

Definition tick (x : reprojectRun) : ReprojectM (option RunError) :=
  if negb (rpProgress rp) then mret None
  else
    r ← status_call (TickFailed (Handled (rrRes x)) (rsFailed (rrRes x)));
    mret match r with Ok _ => None | Err e => Some (StatusFailed e) end.

Definition stamp : ReprojectM (result CallError bool) :=
  db_call (λ s, match StampFTS ddl (shSigs s) with Some sigs => (true, with_sigs s sigs) | None => (false, s) end).

Definition finish_run (x : reprojectRun) : ReprojectM RunResult :=
  n ← count_stale;
  match n with
  | Err _ => stop x CountFailed
  | Ok n =>
      if (0 <? n) || (0 <? rsFailed (rrRes x)) then
        _ ← fail_status (StillStale n (rrFailure x));
        _ ← publish (ReprojectionFailed, rrRes x);
        mret (rrRes x, None)
      else
        stamped ← stamp;
        match stamped with
        | Ok true =>
            _ ← publish (ReprojectionCompleted, rrRes x);
            if negb (rpProgress rp) then mret (rrRes x, None)
            else
              r ← status_call status_Complete;
              mret (rrRes x, match r with Ok _ => None | Err e => Some (StatusFailed e) end)
        | _ => stop x StampFailed
        end
  end.

(** ** The loop *)
Definition progress_every (total : Z) : Z := Z.max 1 (total / 100).

(** One page: cut off, or the cursor and the run at its end. *)
Fixpoint reproject_ids (ids : list string) (cursor : string) (x : reprojectRun) : ReprojectM (option RunError * string * reprojectRun) :=
  match ids with
  | [] => mret (None, cursor, x)
  | id :: ids =>
      cancelled ← ctx_Err;
      if cancelled : bool then mret (Some Interrupted, cursor, x)
      else
        changed ← db_call (λ s, match obj_Reproject (shDB s) id with
                                | Ok (b, db) => (Ok b, with_db s db)
                                | Err e => (Err (StoreFault e), s)
                                end);
        cancelled ← ctx_Err;
        if cancelled : bool then mret (Some Interrupted, id, x)
        else
          let x := count x id (match changed with Ok r => r | Err e => Err e end) in
          _ ← (if (Handled (rrRes x) mod progress_every (rsTotal (rrRes x)) =? 0) then publish (ReprojectionProgressed, rrRes x)
               else mret tt);
          reproject_ids ids id x
  end.

Fixpoint pages (fuel : nat) (cursor : string) (x : reprojectRun) : ReprojectM RunResult :=
  match fuel with
  | O => halt OutOfFuel
  | S fuel =>
      ids ← db_call (λ s, (obj_ListStaleProjections (shDB s) cursor (batch_size rp), s));
      match ids with
      | Err _ =>
          cancelled ← ctx_Err;
          stop x (if cancelled : bool then Interrupted else ListStaleFailed)
      | Ok [] => finish_run x
      | Ok ids =>
          '(err, cursor, x) ← reproject_ids ids cursor x;
          match err with
          | Some e => stop x e
          | None =>
              err ← tick x;
              match err with Some e => mret (rrRes x, Some e) | None => pages fuel cursor x end
          end
      end
  end.

(** [Run]; [fuel] bounds each of its three loops. *)
Definition Run (fuel : nat) : ReprojectM RunResult :=
  '(err, res) ← repairRefText fuel newResult;
  match err with
  | Some e =>
      cancelled ← ctx_Err;
      mret (res, Some (if cancelled : bool then Interrupted else e))
  | None =>
      '(err, x) ← begin_run fuel (mkRun res None);
      match err with
      | Some e => mret (rrRes x, Some e)
      | None =>
          _ ← publish (ReprojectionStarted, rrRes x);
          pages fuel nostr x
      end
  end.
End run.
