(* ===== verification/ReprojectSafety.v ===== *)
(** * Re-projections reach the current projection

    What every write of the object store does to a row's projection
    ([calm]), and from it: a signature that verifies after a run means that the whole index is
    what the current projection makes of the stored rows
    ([stamped_index_current]), a run ends, and a run no call of which fails
    brings the index there ([reprojection_completes]). *)

From S2P Require Import Prelude GoStrings Objects Classes Contact Projection JobStore JobQueue ObjectDB EdgeDB ObjectSafety Encodings Blobs Turns Upgrade Reproject.

(** ** Rows and their projections *)
Section rows.
Context `{GoEncodings} `{GoColumns}.

(** What the current projection makes of a stored row. *)
Definition proj (r : ObjRow) : IndexProjection := ProjectIndex (Some (scanObject r)).
Definition projected (r : ObjRow) : Prop := orBody r = ipFTSBody (proj r) ∧ orMasked r = ipMaskedFTSBody (proj r).
(** A row says it carries the current projection only when it does. *)
Definition current (r : ObjRow) : Prop := outdated r = false → projected r.

Record good (db : ObjDB) : Prop := {
  good_wf : obj_wf db;
  good_current : ∀ r, r ∈ odRows db → current r;
  good_ids : ∀ r, r ∈ odRows db → orID r ≠ nostr;
}.

(** An object whose columns say of its projection what it says itself: its JSON
    columns read back as they were written. *)
Definition reads_back (o : KnowledgeObject) : Prop :=
  let o' := scanObject (mkObjRow o nostr nostr nostr 0) in
  ipFTSBody (ProjectIndex (Some o')) = ipFTSBody (ProjectIndex (Some o)) ∧
  ipMaskedFTSBody (ProjectIndex (Some o')) = ipMaskedFTSBody (ProjectIndex (Some o)).

(** What a write may make of a row. *)
Record kept (r r' : ObjRow) : Prop := {
  kept_id : orID r' = orID r;
  kept_current : current r → current r';
  kept_outdated : outdated r' = true → outdated r = true;
  kept_ref : text_is_ref r' = true → text_is_ref r = true;
}.
Record fresh (r : ObjRow) : Prop := {
  fresh_id : orID r ≠ nostr;
  fresh_projected : projected r;
  fresh_version : outdated r = false;
  fresh_text : text_is_ref r = false;
}.
Definition calm (db db' : ObjDB) : Prop :=
  ∀ r', r' ∈ odRows db' → (∃ r, r ∈ odRows db ∧ kept r r') ∨ fresh r'.

#[export] Instance kept_preorder : PreOrder kept.
Proof.
  split; [by intros r; split|]. intros a b c [? Hc1 Ho1 Ht1] [? Hc2 Ho2 Ht2]. split; [congruence|auto..].
Qed.

Lemma fresh_kept r r' : fresh r → kept r r' → fresh r'.
Proof.
  intros [Hid Hp Hv Ht] [Hi Hc Ho Hr].
  assert (Hv' : outdated r' = false) by (destruct (outdated r'); [rewrite Ho in Hv|]; done).
  split; [congruence|exact (Hc (λ _, Hp) Hv')|done|]. destruct (text_is_ref r'); [rewrite Hr in Ht|]; done.
Qed.

#[export] Instance calm_preorder : PreOrder calm.
Proof.
  split.
  - intros db r Hr. left. by exists r.
  - intros a b c Hab Hbc r' Hr'. destruct (Hbc r' Hr') as [(r & Hr & Hk)|Hf]; [|by right].
    destruct (Hab r Hr) as [(q & Hq & Hk')|Hf].
    + left. exists q. split; [done|]. by transitivity r.
    + right. by eapply fresh_kept.
Qed.

Lemma calm_same db db' : odRows db' = odRows db → calm db db'.
Proof. intros He r Hr. rewrite He in Hr. left. by exists r. Qed.

(** *** Statements *)
Lemma kept_with_seq r s : kept r (with_seq r s).
Proof. by split. Qed.

Lemma calm_update p f db : (∀ r, r ∈ odRows db → p r = true → kept r (f r)) → calm db (update_by p f db).
Proof.
  intros Hf r' Hr'. destruct (Forall2_in_r _ _ _ _ (update_by_images p f db) Hr') as (r & Hr & [[-> _]|(s & -> & Hp)]).
  - left. by exists r.
  - left. exists r. split; [done|]. transitivity (f r); [by apply Hf|apply kept_with_seq].
Qed.

(** Columns the projection does not read. *)
Lemma kept_edit r o' :
  koID o' = koID (orObj r) → koTextContent o' = koTextContent (orObj r) →
  proj (mkObjRow o' (orBody r) (orMasked r) (orVersion r) (orSeq r)) = proj r →
  kept r (mkObjRow o' (orBody r) (orMasked r) (orVersion r) (orSeq r)).
Proof.
  intros Hi Ht Hp. split; [done| |done|].
  - unfold current, projected. by rewrite Hp.
  - unfold text_is_ref. cbn. by rewrite Ht.
Qed.

Lemma kept_status r to at_ : kept r (mkObjRow (set_status (orObj r) to at_) (orBody r) (orMasked r) (orVersion r) (orSeq r)).
Proof. by apply kept_edit. Qed.
Lemma kept_remind remind reminded at_ r : kept r (remind_row remind reminded at_ r).
Proof. by apply kept_edit. Qed.

(** A row as an index update leaves it. *)
Definition reindexed (r r' : ObjRow) : Prop :=
  orID r' = orID r ∧ projected r' ∧ outdated r' = false ∧ text_is_ref r' = text_is_ref r.

Lemma fts_delete_err fts id b e : fts_delete fts id b = Err e → e = FTSCorrupt.
Proof. unfold fts_delete. by repeat case_match; intros; simplify_eq. Qed.
Lemma fts_insert_err fts id b e : fts_insert fts id b = Err e → e = FTSCorrupt.
Proof. unfold fts_insert. by repeat case_match; intros; simplify_eq. Qed.
Lemma deleteObjectFTSTx_err db id e : deleteObjectFTSTx db id = Err e → e = FTSCorrupt.
Proof.
  unfold deleteObjectFTSTx. destruct (List.find _ _); [|done].
  intros [?|(x & _ & [?|(y & _ & ?)]%bind_err_inv)]%bind_err_inv; [by eapply fts_delete_err..|done].
Qed.
Lemma insertObjectFTSTx_err db id index e : insertObjectFTSTx db id index = Err e → e = FTSCorrupt.
Proof.
  unfold insertObjectFTSTx.
  intros [?|(x & _ & [?|(y & _ & ?)]%bind_err_inv)]%bind_err_inv; [by eapply fts_insert_err..|done].
Qed.

(** An index update fails on a row that is not there only. *)
Lemma reindexRowTx_fails db id e : obj_wf db → reindexRowTx db id = Err e → ∀ r, r ∈ odRows db → orID r ≠ id.
Proof.
  intros Hwf He. pose proof (reindexRowTx_ok db id Hwf) as Hs. rewrite He in Hs. cbn in Hs. revert He.
  unfold reindexRowTx. destruct (List.find (by_id id) (odRows db)) as [r|] eqn:Hf; [|intros _; by apply find_by_id_none].
  intros [Hx|(db1 & _ & Hx)]%bind_err_inv; [|done]. destruct (_ && _); [done|].
  apply bind_err_inv in Hx as [Hx|(db2 & _ & Hx)]; destruct Hs; [by eapply deleteObjectFTSTx_err|by eapply insertObjectFTSTx_err].
Qed.

Lemma reindexRowTx_rows db id db' r' : obj_wf db → reindexRowTx db id = Ok db' → r' ∈ odRows db' →
  (r' ∈ odRows db ∧ orID r' ≠ id) ∨ ∃ r, r ∈ odRows db ∧ orID r = id ∧ reindexed r r'.
Proof.
  intros Hwf. unfold reindexRowTx. destruct (List.find (by_id id) (odRows db)) as [r|] eqn:Hf; [|done].
  apply find_by_id in Hf as [Hr Hid]. set (index := ProjectIndex _). cbv zeta.
  intros (db1 & Hdb1 & [= <-])%bind_ok_inv Hr'.
  assert (Hmid : ∀ q, q ∈ odRows db1 → (q ∈ odRows db ∧ orID q ≠ id) ∨
    (orID q = id ∧ projected q ∧ text_is_ref q = text_is_ref r)).
  { intros q Hq. destruct (str_eqb (ipFTSBody index) (orBody r) && str_eqb (ipMaskedFTSBody index) (orMasked r)) eqn:Hsame.
    - injection Hdb1 as <-. destruct (decide (orID q = id)) as [He|]; [right|by left].
      assert (q = r) as -> by (apply (NoDup_map_inj orID (odRows db)); [apply Hwf|done..|congruence]).
      apply andb_true_iff in Hsame as [Hb%str_eqb_true Hm%str_eqb_true]. by split.
    - apply bind_ok_inv in Hdb1 as (db0 & Hdel & Hins). apply delete_rows in Hdel. apply insert_rows in Hins.
      rewrite Hins in Hq. rewrite <- Hdel in Hr |- *.
      destruct (Forall2_in_r _ _ _ _ (update_by_images (by_id id) _ db0) Hq) as (x & Hx & [[-> Hno]|(s & -> & Hy)]).
      + left. split; [done|]. intros He%by_id_true. congruence.
      + right. apply by_id_true in Hy.
        assert (x = r) as -> by (apply (NoDup_map_inj orID (odRows db0)); [rewrite Hdel; apply Hwf|done..|congruence]).
        split; [done|]. by split. }
  destruct (Forall2_in_r _ _ _ _ (update_by_images (by_id id) _ db1) Hr') as (q & Hq & [[-> Hno]|(s & -> & Hy)]).
  - destruct (Hmid q Hq) as [?|(He & _)]; [by left|]. apply by_id_true in He. congruence.
  - apply by_id_true in Hy. destruct (Hmid q Hq) as [[_ ?]|(He & Hp & Ht)]; [done|]. right. exists r.
    split; [done|]. split; [done|]. split; [change (orID q = orID r); congruence|]. by split.
Qed.
(** *** Operations *)
Lemma kept_reindexed r r1 r' : orID r1 = orID r → (text_is_ref r1 = true → text_is_ref r = true) → reindexed r1 r' → kept r r'.
Proof.
  intros Hi Ht (Hi' & Hp & Hv & Ht'). constructor; [congruence|by intros _ _|by rewrite Hv|by rewrite Ht'].
Qed.

Lemma calm_Create db o o' db' : obj_wf db → koID o ≠ nostr → reads_back (obj_defaults o) →
  obj_Create db o = Ok (o', db') → calm db db'.
Proof.
  intros Hwf Hid [Hb Hm] Hc. unfold obj_Create in Hc. apply bind_ok_inv in Hc as ([] & _ & Hc). cbv zeta in Hc.
  destruct (affected _ _); [done|].
  apply bind_ok_inv in Hc as (db1 & Hn & Hc). apply bind_ok_inv in Hc as (db2 & H2'%insert_rows & [= _ <-]).
  unfold upsertObjectNodesTx in Hn. apply bind_ok_inv in Hn as (nodes & _ & [= <-]).
  intros r'. rewrite H2'. cbn [odRows set_nodes set_rows fst]. intros [Hr| ->%list_elem_of_singleton]%elem_of_app.
  - left. by exists r'.
  - right. constructor; [done|by split|done|]. unfold text_is_ref. cbn [orObj obj_defaults].
    destruct (BodyText_spec o) as [He|He]; [|exact He]. change (IsBlobRef (BodyText (Some o)) = false). by rewrite He.
Qed.

Lemma calm_Update db o o' db' : obj_wf db → koID o ≠ nostr → reads_back o → IsBlobRef (koTextContent o) = false →
  obj_Update db o = Ok (o', db') → calm db db'.
Proof.
  intros Hwf Hid [Hb Hm] Ht Hc. unfold obj_Update in Hc. apply bind_ok_inv in Hc as ([] & _ & Hc). cbv zeta in Hc.
  apply bind_ok_inv in Hc as (db0 & H0'%delete_rows & Hc). destruct (_ && _); [done|]. destruct (negb _); [done|].
  apply bind_ok_inv in Hc as (db1 & Hn & Hc). apply bind_ok_inv in Hc as (db2 & H2'%insert_rows & [= _ <-]).
  unfold upsertObjectNodesTx in Hn. apply bind_ok_inv in Hn as (nodes & _ & [= <-]).
  intros r'. rewrite H2'. intros Hr'.
  destruct (Forall2_in_r _ _ _ _ (update_by_images _ _ db0) Hr') as (r & Hr & [[-> _]|(s & -> & Hp)]).
  - left. rewrite H0' in Hr. by exists r.
  - right. by constructor.
Qed.

Lemma calm_Delete db id db' : obj_Delete db id = Ok db' → calm db db'.
Proof.
  unfold obj_Delete. intros (db0 & H0'%delete_rows & Hc)%bind_ok_inv. destruct (negb _); [done|]. injection Hc as <-.
  intros r Hr. cbn [odRows] in Hr. rewrite H0' in Hr. apply list_elem_of_In, filter_In in Hr as [Hr%list_elem_of_In _].
  left. by exists r.
Qed.

Lemma calm_Reproject db id b db' : obj_wf db → obj_Reproject db id = Ok (b, db') →
  calm db db' ∧ ∀ r', r' ∈ odRows db' → orID r' = id → outdated r' = false.
Proof.
  intros Hwf. unfold obj_Reproject. set (f := λ r, mkObjRow _ _ _ _ _). destruct (negb _) eqn:Ha.
  - intros [= _ <-]. split; [done|]. intros r Hr Hid. apply negb_true_iff in Ha.
    destruct (outdated r) eqn:Ho; [|done]. apply not_true_iff_false in Ha. destruct Ha. apply existsb_exists'.
    exists r. split; [done|]. rewrite Ho, andb_true_r. by apply by_id_true.
  - intros (db1 & Hre & [= _ <-])%bind_ok_inv.
    assert (Hwf' : obj_wf (update_by (λ r, by_id id r && outdated r) f db)) by (apply update_plain_wf; [apply plain_version|done]).
    assert (Hrow : ∀ r', r' ∈ odRows db1 → (r' ∈ odRows db ∧ orID r' ≠ id) ∨
      ∃ r, r ∈ odRows db ∧ kept r r' ∧ outdated r' = false).
    { intros r' Hr'. destruct (reindexRowTx_rows _ _ _ _ Hwf' Hre Hr') as [[Hq Hne]|(q & Hq & He & Hx)].
      - destruct (Forall2_in_r _ _ _ _ (update_by_images _ f db) Hq) as (r & Hr & [[-> _]|(s & -> & Hp)]); [by left|].
        apply andb_true_iff in Hp as [Hp%by_id_true _]. done.
      - right. destruct (Forall2_in_r _ _ _ _ (update_by_images _ f db) Hq) as (r & Hr & Him). exists r. split; [done|].
        split; [|by destruct Hx as (_ & _ & ? & _)]. destruct Him as [[-> _]|(s & -> & _)].
        + by apply (kept_reindexed r r).
        + by apply (kept_reindexed r (with_seq (f r) s)). }
    split.
    + intros r' Hr'. left. destruct (Hrow r' Hr') as [[Hr _]|(r & Hr & Hk & _)]; [by exists r'|by exists r].
    + intros r' Hr' Hid. by destruct (Hrow r' Hr') as [[_ ?]|(r & _ & _ & ?)].
Qed.

Lemma calm_Reinforce db hash o now id db' : obj_wf db → obj_Reinforce db hash o now = Ok (id, db') → calm db db'.
Proof.
  intros Hwf. unfold obj_Reinforce. destruct (str_eqb hash nostr) eqn:Hh; [done|]. cbv zeta.
  set (p := by_hash hash (koProfileID o)).
  set (f := λ r, mkObjRow (set_reinforced (orObj r) now) _ _ _ _). set (db1 := update_by p f db).
  destruct (List.find p (odRows db1)) as [r|] eqn:Hfind; [|done]. set (g := λ x, mkObjRow _ _ _ _ _).
  intros (db2 & Hre & [= _ <-])%bind_ok_inv.
  assert (Hwf1 : obj_wf db1) by (apply update_plain_wf; [apply plain_reinforced|done]).
  assert (Hwf2 : obj_wf (update_by p g db1)) by (apply update_plain_wf; [apply plain_merged|done]).
  apply find_some in Hfind as [Hr%list_elem_of_In Hp].
  assert (Huniq : ∀ q, q ∈ odRows db1 → p q = true → orID q = orID r).
  { intros q Hq Hpq. apply (wf_unique _ Hwf1); [done..|]. unfold p, by_hash in Hp, Hpq.
    apply andb_true_iff in Hp as [E1%str_eqb_true E2%str_eqb_true], Hpq as [E3%str_eqb_true E4%str_eqb_true].
    unfold clashes. rewrite E1, E2, E3, E4, Hh, !str_eqb_refl. by rewrite orb_true_r. }
  intros r' Hr'. left. destruct (reindexRowTx_rows _ _ _ _ Hwf2 Hre Hr') as [[Hq Hne]|(q & Hq & He & Hx)].
  - destruct (Forall2_in_r _ _ _ _ (update_by_images p g db1) Hq) as (q1 & Hq1 & [[-> Hp1]|(s & -> & Hp1)]).
    2: { destruct Hne. exact (Huniq q1 Hq1 Hp1). }
    destruct (Forall2_in_r _ _ _ _ (update_by_images p f db) Hq1) as (q0 & Hq0 & [[-> _]|(s & -> & Hp0)]); [by exists q0|].
    destruct Hne. exact (Huniq _ Hq1 Hp0).
  - destruct (Forall2_in_r _ _ _ _ (update_by_images p g db1) Hq) as (q1 & Hq1 & Him1).
    destruct (Forall2_in_r _ _ _ _ (update_by_images p f db) Hq1) as (q0 & Hq0 & Him0). exists q0. split; [done|].
    assert (Hi : orID q1 = orID q0 ∧ text_is_ref q1 = text_is_ref q0) by (destruct Him0 as [[-> _]|(s & -> & _)]; done).
    destruct Hi as [Hi Ht]. apply (kept_reindexed q0 q); [| |done].
    + rewrite <- Hi. by destruct Him1 as [[-> _]|(s & -> & _)].
    + rewrite <- Ht. destruct Him1 as [[-> _]|(s & -> & _)]; [done|]. unfold text_is_ref. cbn [orObj with_seq g set_merged edit koTextContent].
      destruct (_ && _); cbn [from_option snd]; [|done]. destruct (BodyText_spec o) as [He'|He']; by rewrite He'.
Qed.
(** *** What other writers do

    Any call of the object store that leaves no ref as a text: ingest, edits,
    reminders, deletes, other re-projections. *)
Inductive polite_step (db : ObjDB) : ObjDB → Prop :=
| polite_Create o o' db' :
    koID o ≠ nostr → reads_back (obj_defaults o) → obj_Create db o = Ok (o', db') → polite_step db db'
| polite_Update o o' db' :
    koID o ≠ nostr → reads_back o → IsBlobRef (koTextContent o) = false → obj_Update db o = Ok (o', db') → polite_step db db'
| polite_TransitionStatus id from to at_ db' : obj_TransitionStatus db id from to at_ = Ok db' → polite_step db db'
| polite_Delete id db' : obj_Delete db id = Ok db' → polite_step db db'
| polite_Reinforce hash o now id db' : obj_Reinforce db hash o now = Ok (id, db') → polite_step db db'
| polite_Reproject id b db' : obj_Reproject db id = Ok (b, db') → polite_step db db'
| polite_SetReminder id at_ now db' : obj_SetReminder db id at_ now = Ok db' → polite_step db db'
| polite_ClearReminder id now db' : obj_ClearReminder db id now = Ok db' → polite_step db db'
| polite_MarkReminded id now : polite_step db (obj_MarkReminded db id now).

Lemma polite_obj_step db db' : polite_step db db' → obj_step db db'.
Proof.
  destruct 1; [eapply step_Create|eapply step_Update|eapply step_TransitionStatus|eapply step_Delete|eapply step_Reinforce|
    eapply step_Reproject|eapply step_SetReminder|eapply step_ClearReminder|apply step_MarkReminded]; eassumption.
Qed.

Lemma polite_calm db db' : obj_wf db → polite_step db db' → calm db db'.
Proof.
  intros Hwf Hs.
  destruct Hs as [o o' db' Hi Hb Ho|o o' db' Hi Hb Ht Ho|id from to at_ db' Ho|id db' Ho|hash o now id db' Ho|id b db' Ho|id at_ now db' Ho|id now db' Ho|id now].
  - by apply (calm_Create db o o').
  - by apply (calm_Update db o o').
  - unfold obj_TransitionStatus in Ho. destruct (negb _); [done|]. injection Ho as <-.
    apply calm_update. intros r _ _. apply kept_status.
  - by apply (calm_Delete db id).
  - by apply (calm_Reinforce db hash o now id).
  - by apply (calm_Reproject db id b).
  - unfold obj_SetReminder in Ho. destruct (negb _); [done|]. injection Ho as <-. apply calm_update. intros r _ _. apply kept_remind.
  - unfold obj_ClearReminder in Ho. destruct (negb _); [done|]. injection Ho as <-. apply calm_update. intros r _ _. apply kept_remind.
  - apply calm_update. intros r _ _. apply kept_remind.
Qed.

Lemma calm_good db db' : good db → obj_wf db' → calm db db' → good db'.
Proof.
  intros [_ Hc Hi] Hwf Hcalm. constructor; [done| |]; intros r' Hr'; destruct (Hcalm r' Hr') as [(r & Hr & [Hk Hcur _ _])|Hf].
  - by apply Hcur, Hc.
  - by intros _; apply Hf.
  - rewrite Hk. by apply Hi.
  - by apply Hf.
Qed.

Lemma polite_star db db' : good db → star polite_step db db' → good db' ∧ calm db db'.
Proof.
  intros Hg Hs. induction Hs as [db|a b c Hab _ IH]; [done|].
  assert (Hcalm : calm a b) by (apply polite_calm; [apply Hg|done]).
  destruct (IH (calm_good _ _ Hg (obj_step_wf _ _ (good_wf _ Hg) (polite_obj_step _ _ Hab)) Hcalm)) as [Hg' Hc'].
  split; [done|]. by transitivity b.
Qed.

(** *** The ids still to do *)
Definition pend (p : ObjRow → bool) (db : ObjDB) : gset string := list_to_set (map orID (List.filter p (odRows db))).

Lemma elem_of_pend p db id : id ∈ pend p db ↔ ∃ r, r ∈ odRows db ∧ orID r = id ∧ p r = true.
Proof.
  unfold pend. rewrite elem_of_list_to_set, list_elem_of_fmap. setoid_rewrite list_elem_of_In at 1. setoid_rewrite filter_In.
  setoid_rewrite <- list_elem_of_In. split.
  - intros (r & -> & Hr & Hp). eauto.
  - intros (r & Hr & <- & Hp). eauto.
Qed.

Lemma calm_outdated db db' : calm db db' → pend outdated db' ⊆ pend outdated db.
Proof.
  intros Hc id (r' & Hr' & <- & Ho)%elem_of_pend. apply elem_of_pend.
  destruct (Hc r' Hr') as [(r & Hr & [Hi _ Hk _])|[_ _ Hv _]]; [|congruence]. exists r. auto.
Qed.
Lemma calm_ref db db' : calm db db' → pend text_is_ref db' ⊆ pend text_is_ref db.
Proof.
  intros Hc id (r' & Hr' & <- & Ho)%elem_of_pend. apply elem_of_pend.
  destruct (Hc r' Hr') as [(r & Hr & [Hi _ _ Hk])|[_ _ _ Hv]]; [|congruence]. exists r. auto.
Qed.

(** Giving text back: the row becomes stale, and no row gets a ref. *)
Lemma replace_ref_kept db id ref text truncated : good db → IsBlobRef ref = true →
  let db' := (obj_ReplaceRefText db id ref text truncated).2 in
  good db' ∧ pend text_is_ref db' ⊆ pend text_is_ref db ∧ pend outdated db' ⊆ pend outdated db ∪ pend text_is_ref db.
Proof.
  intros Hg Href. unfold obj_ReplaceRefText. cbn [snd]. cbv zeta. set (p := λ r, _ && _). set (f := λ r, mkObjRow _ _ _ _ _). set (db' := update_by p f db).
  assert (Hrow : ∀ r', r' ∈ odRows db' → ∃ r, r ∈ odRows db ∧ orID r' = orID r ∧ (r' = r ∨ outdated r' = true ∧ text_is_ref r = true)).
  { intros r' Hr'. destruct (Forall2_in_r _ _ _ _ (update_by_images p f db) Hr') as (r & Hr & [[-> _]|(s & -> & Hp)]).
    - exists r. auto.
    - exists r. split; [done|]. split; [unfold orID; cbn; by destruct truncated|]. right. split; [done|].
      apply andb_true_iff in Hp as [_ Ht%str_eqb_true]. unfold text_is_ref. by rewrite Ht. }
  split_and!; [constructor| |].
  - apply update_plain_wf; [apply plain_ref_text|apply Hg].
  - intros r' Hr'. destruct (Hrow r' Hr') as (r & Hr & _ & [->|[Ho _]]); [by apply Hg|]. unfold current. by rewrite Ho.
  - intros r' Hr'. destruct (Hrow r' Hr') as (r & Hr & -> & _). by apply Hg.
  - intros i (r' & Hr' & <- & Ht)%elem_of_pend. apply elem_of_pend. destruct (Hrow r' Hr') as (r & Hr & Hi & [->|[_ ?]]); eauto.
  - intros i (r' & Hr' & <- & Ht)%elem_of_pend. apply elem_of_union. rewrite !elem_of_pend.
    destruct (Hrow r' Hr') as (r & Hr & Hi & [->|[_ ?]]); [left|right]; eauto.
Qed.

(** ** Pages *)
Definition above (cursor : string) (s : gset string) : gset string := filter (λ id, str_ltb cursor id = true) s.

Lemma str_ltb_trans a b c : str_ltb a b = true → str_ltb b c = true → str_ltb a c = true.
Proof.
  intros Hab Hbc. destruct (str_ltb a c) eqn:Hac; [done|]. exfalso. apply str_ltb_false in Hac.
  apply str_ltb_asym in Hab. apply str_ltb_false in Hab. assert (Hcb : String.le c b) by (etransitivity; eassumption).
  apply str_ltb_false in Hcb. congruence.
Qed.

Lemma elem_of_id_page p db cursor limit id : id ∈ id_page p db cursor limit → id ∈ above cursor (pend p db).
Proof.
  unfold id_page, above. intros Hid. apply elem_of_filter.
  assert (Hin : id ∈ SortStrings (map orID (List.filter (λ r, str_ltb cursor (orID r) && p r) (odRows db)))).
  { destruct (limit <? 0)%Z; [done|]. by apply elem_of_take in Hid as (i & Hi & _); apply list_elem_of_lookup_2 in Hi. }
  rewrite SortStrings_perm in Hin. apply list_elem_of_fmap in Hin as (r & -> & Hr).
  apply list_elem_of_In, filter_In in Hr as [Hr%list_elem_of_In [Hl Hp]%andb_true_iff]. split; [done|].
  apply elem_of_pend. eauto.
Qed.

(** A page is the first of the ids above the cursor: an id that is not in it lies
    behind its last one. *)
Lemma id_page_first p db cursor limit id : (0 < limit)%Z → id ∈ above cursor (pend p db) →
  id ∈ id_page p db cursor limit ∨ (∃ x, last (id_page p db cursor limit) = Some x ∧ (str_ltb x id = true ∨ x = id)).
Proof.
  intros Hl. unfold above, id_page. intros [Hlt (r & Hr & <- & Hp)%elem_of_pend]%elem_of_filter.
  set (ids := map orID _). destruct (limit <? 0)%Z eqn:Hneg; [lia|].
  assert (Hin : orID r ∈ SortStrings ids).
  { rewrite SortStrings_perm. apply list_elem_of_fmap. exists r. split; [done|].
    apply list_elem_of_In, filter_In. split; [by apply list_elem_of_In|]. by rewrite Hlt, Hp. }
  pose proof (SortStrings_sorted ids) as Hs. revert Hin Hs. generalize (SortStrings ids) as l. intros l Hin Hs.
  assert (Hn : Z.to_nat limit ≠ O) by lia. revert Hn. generalize (Z.to_nat limit) as n. clear Hl Hneg. intros n Hn.
  rewrite <- (take_drop n l) in Hin, Hs. apply elem_of_app in Hin as [?|Hin]; [by left|]. right.
  destruct (last (take n l)) as [x|] eqn:Hx.
  - exists x. split; [done|]. apply last_Some in Hx as [k Hk]. rewrite Hk, <- app_assoc in Hs.
    assert (Hle : String.le x (orID r)).
    { clear -Hs Hin. induction k as [|y k IH]; cbn in Hs.
      - apply StronglySorted_inv in Hs as [_ Hall]. rewrite Forall_forall in Hall. by apply Hall.
      - apply IH. by apply StronglySorted_inv in Hs as [Hs _]. }
    destruct (str_ltb x (orID r)) eqn:E; [by left|]. right. apply str_ltb_false in E. by apply (anti_symm String.le).
  - apply last_None in Hx. destruct n as [|n]; [done|]. destruct l; [|done]. by apply not_elem_of_nil in Hin.
Qed.
End rows.

(** ** Runs *)
Section runs.
Context `{GoEncodings} `{GoColumns} `{GoCrypto} `{GoUnicode}.
Context (ddl : option string) (rp : Reprojector).

(** The signature the next start verifies. *)
Definition verifies (s : Shared) : bool :=
  match VerifyFTS ddl (shSigs s) with Some (v, _) => vrMatch v | None => false end.

(** Between two calls others write objects, and stamp nothing. *)
Definition polite_turn (t : Turn Shared) : Prop :=
  ∀ s, star polite_step (shDB s) (shDB (tnOthers t s)) ∧ shSigs (tnOthers t s) = shSigs s.

(** What a stretch of a run does to the world: [keeps] while texts are given back,
    [steady] after that, [settled] once no row is stale. *)
Definition keeps (s s' : Shared) : Prop :=
  good (shDB s) → good (shDB s') ∧ shSigs s' = shSigs s ∧ pend text_is_ref (shDB s') ⊆ pend text_is_ref (shDB s) ∧
    pend outdated (shDB s') ⊆ pend outdated (shDB s) ∪ pend text_is_ref (shDB s).
Definition steady (s s' : Shared) : Prop :=
  good (shDB s) → keeps s s' ∧ pend outdated (shDB s') ⊆ pend outdated (shDB s).
Definition settled (s s' : Shared) : Prop :=
  good (shDB s) → pend outdated (shDB s) = ∅ → good (shDB s') ∧ pend outdated (shDB s') = ∅.

#[export] Instance keeps_preorder : PreOrder keeps.
Proof.
  split; [intros s Hg; split_and!; [done|done|done|set_solver]|]. intros a b c Hab Hbc Hg.
  destruct (Hab Hg) as (Hg' & Hs & Hp & Ho), (Hbc (proj1 (Hab Hg))) as (Hg'' & Hs' & Hp' & Ho').
  split_and!; [done|congruence|set_solver..].
Qed.
#[export] Instance steady_preorder : PreOrder steady.
Proof.
  split; [intros s Hg; split; [reflexivity|done]|]. intros a b c Hab Hbc Hg. destruct (Hab Hg) as [Hk Ho].
  destruct (Hbc (proj1 (Hk Hg))) as [Hk' Ho']. split; [by transitivity b|set_solver].
Qed.
#[export] Instance settled_preorder : PreOrder settled.
Proof. split; [by intros s|]. intros a b c Hab Hbc Hg Hp. destruct (Hab Hg Hp) as [Hg' Hp']. by apply Hbc. Qed.

(** A relation that the others, and changes of the status, stay within. *)
Class Sane (R : Shared → Shared → Prop) : Prop := {
  sane_preorder :: PreOrder R;
  sane_others t s : polite_turn t → R s (tnOthers t s);
  sane_status s st : R s (with_status s st);
}.

Lemma steady_others t s : polite_turn t → steady s (tnOthers t s).
Proof.
  intros Ht Hg. destruct (Ht s) as [Hstar Hsig]. destruct (polite_star _ _ Hg Hstar) as [Hg' Hc].
  split; [intros _; split_and!; [done|done|by apply calm_ref|]|by apply calm_outdated].
  apply calm_outdated in Hc. set_solver.
Qed.
Lemma steady_keeps s s' : steady s s' → keeps s s'.
Proof. intros Hs Hg. destruct (Hs Hg) as [Hk _]. exact (Hk Hg). Qed.
Lemma steady_settled s s' : steady s s' → settled s s'.
Proof. intros Hs Hg Hp. destruct (Hs Hg) as [Hk Ho]. destruct (Hk Hg) as [Hg' _]. split; [done|set_solver]. Qed.

#[export] Instance sane_steady : Sane steady.
Proof. split; [apply _|apply steady_others|]. intros s st Hg. split; [intros _; split_and!; [done..|set_solver]|done]. Qed.
#[export] Instance sane_keeps : Sane keeps.
Proof. split; [apply _|intros t s Ht; by apply steady_keeps, steady_others|intros s st Hg; split_and!; [done..|set_solver]]. Qed.
#[export] Instance sane_settled : Sane settled.
Proof. split; [apply _|intros t s Ht; by apply steady_settled, steady_others|by intros s st Hg]. Qed.

Section sane.
Context (R : Shared → Shared → Prop) `{!Sane R}.

Lemma does_moment : st_does (lift polite_turn R) (turn : ReprojectM Fate).
Proof. apply does_turn; [apply _|apply sane_others]. Qed.
Lemma does_db {A} (f : Shared → A * Shared) : (∀ s, R s (f s).2) → st_does (lift polite_turn R) (db_call f).
Proof.
  intros Hf. apply does_seq; [apply _| |intros a; apply does_ret; apply _]. by apply does_ask; [apply _|apply sane_others|].
Qed.
Lemma does_read {A} (f : Shared → A) : st_does (lift polite_turn R) (db_call (λ s, (f s, s))).
Proof. by apply does_db. Qed.
Lemma does_status f : st_does (lift polite_turn R) (status_call f).
Proof.
  apply does_seq; [apply _|apply does_moment|]. intros fate. apply does_on. intros c. cbv zeta. split; [done|].
  cbn. destruct (f _ _) as [r st]. apply sane_status.
Qed.
Lemma does_check : st_does (lift polite_turn R) (ctx_Err : ReprojectM bool).
Proof. apply does_ctx_Err; [apply _|apply sane_others]. Qed.
End sane.
End runs.

(** The parts of a run one by one, down to calls that need a lemma. *)
Ltac does :=
  repeat (cbv beta; match goal with
  | |- st_does _ (mret _) => apply does_ret; apply _
  | |- st_does _ (mbind _ _) => apply does_seq; [apply _| |intros ?]
  | |- st_does _ (match ?x with _ => _ end) => destruct x
  | |- st_does _ turn => apply does_moment; apply _
  | |- st_does _ (db_call (λ s, (_, s))) => apply does_read; apply _
  | |- st_does _ (status_call _) => apply does_status; apply _
  | |- st_does _ ctx_Err => apply does_check; apply _
  | |- st_does _ (publish _) => apply does_publish; apply _
  | |- st_does _ (halt _) => apply does_halt; apply _
  | |- st_does _ count_stale => unfold count_stale
  end).

Section safety.
Context `{GoEncodings} `{GoColumns} `{GoCrypto} `{GoUnicode}.
Context (ddl : option string) (rp : Reprojector).

Section sane.
Context (R : Shared → Shared → Prop) `{!Sane R}.
Lemma does_count_stale : st_does (lift polite_turn R) count_stale.
Proof. unfold count_stale. does. Qed.
Lemma does_fail_status reason : st_does (lift polite_turn R) (fail_status rp reason).
Proof. unfold fail_status. does. Qed.
Lemma does_stop x e : st_does (lift polite_turn R) (stop rp x e).
Proof. unfold stop. does. apply does_fail_status. Qed.
Lemma does_tick x : st_does (lift polite_turn R) (tick rp x).
Proof. unfold tick. does. Qed.
Lemma does_begin fuel x : st_does (lift polite_turn R) (begin_run rp fuel x).
Proof. revert x. induction fuel as [|fuel IH]; intros x; cbn [begin_run]; does; apply IH. Qed.
End sane.

(** *** Giving texts back *)
Lemma run_Content store s w : (run (Content store s) w).2 = w.
Proof.
  unfold Content, read_content. destruct (BlobKey s); [|done]. destruct (negb store); [done|]. cbn. by destruct (_ !! _).
Qed.

Lemma does_repair_object o res : IsBlobRef (koTextContent o) = true → st_does (lift polite_turn keeps) (repair_object rp o res).
Proof.
  intros Ho. unfold repair_object. apply does_seq; [apply _| |].
  - apply does_db; [apply _|]. intros s. pose proof (run_Content (rpBlobs rp) (koTextContent o) (shWorld s)) as Hw.
    destruct (run _ _) as [r w]. cbn in Hw. subst w. by destruct s.
  - intros [[text|]|]; [|does..]. apply does_seq; [apply _| |intros ?; does].
    apply does_db; [apply _|]. intros s Hg.
    pose proof (replace_ref_kept _ (koID o) (koTextContent o) (TextPrefix text (text_cap rp))
      (str_eqb (koTextContent o) (koRawContent o)) Hg Ho) as (Hg' & Hp & Hp').
    destruct (obj_ReplaceRefText _ _ _ _ _) as [b db]. by split.
Qed.

Lemma elem_of_ListRefText db after limit o : o ∈ obj_ListRefText db after limit →
  IsBlobRef (koTextContent o) = true ∧ koID o ∈ above after (pend text_is_ref db).
Proof.
  unfold obj_ListRefText. intros (id & Hid & Ho)%list_elem_of_omap. apply fmap_Some in Ho as (r & Hf & ->).
  apply find_some in Hf as [Hr%list_elem_of_In [Hb%by_id_true Ht]%andb_true_iff]. split; [done|].
  change (koID (orObj r)) with (orID r). rewrite Hb. by eapply elem_of_id_page.
Qed.

Definition refs_only (objs : result CallError (list KnowledgeObject)) : Prop :=
  match objs with Ok l => Forall (λ o, IsBlobRef (koTextContent o) = true) l | Err _ => True end.

Lemma does_repair_objects objs cursor res : Forall (λ o, IsBlobRef (koTextContent o) = true) objs →
  st_does (lift polite_turn keeps) (repair_objects rp objs cursor res).
Proof.
  intros Hobjs. revert cursor res. induction Hobjs as [|o objs Ho _ IH]; intros cursor res; cbn [repair_objects]; does.
  - by apply does_repair_object.
  - apply IH.
Qed.

Lemma db_read_spec {A} (f : Shared → A) c a c' :
  db_call (λ s, (f s, s)) c = (Ok a, c') → a = Ok (f (cxShared c')) ∨ a = Err CallFault.
Proof.
  intros [(e & _ & ?)|(o & c1 & [->| ->]%read_spec & Hx)]%st_bind_inv; [done|..]; injection Hx as <- <-; auto.
Qed.

Lemma does_repair_pages fuel cursor res : st_does (lift polite_turn keeps) (repair_pages rp fuel cursor res).
Proof.
  revert cursor res. induction fuel as [|fuel IH]; intros cursor res; cbn [repair_pages]; [does|].
  apply (st_does_bind_post _ refs_only); [does| |].
  - intros c a c' [->| ->]%db_read_spec; [|done]. apply Forall_forall. intros o Ho. by eapply elem_of_ListRefText.
  - intros [[|o objs]|] Hobjs; does; [by apply does_repair_objects|apply IH].
Qed.

Lemma does_repairRefText fuel res : st_does (lift polite_turn keeps) (repairRefText rp fuel res).
Proof. unfold repairRefText. does. apply does_repair_pages. Qed.

(** *** Re-projecting *)
Lemma steady_Reproject s id b db : obj_Reproject (shDB s) id = Ok (b, db) → steady s (with_db s db).
Proof.
  intros Hr Hg. destruct (calm_Reproject _ _ _ _ (good_wf _ Hg) Hr) as [Hc _].
  assert (Hg' : good db).
  { apply (calm_good (shDB s)); [done| |done]. exact (obj_step_wf _ _ (good_wf _ Hg) (step_Reproject _ _ _ _ Hr)). }
  split; [intros _; split_and!; [done|done|by apply calm_ref|]|by apply calm_outdated].
  apply calm_outdated in Hc. set_solver.
Qed.

Lemma does_reproject_ids ids cursor x : st_does (lift polite_turn steady) (reproject_ids ids cursor x).
Proof.
  revert cursor x. induction ids as [|id ids IH]; intros cursor x; cbn [reproject_ids]; does; try apply IH.
  apply does_db; [apply _|]. intros s. destruct (obj_Reproject (shDB s) id) as [[b db]|e] eqn:Hr; [|done].
  by eapply steady_Reproject.
Qed.

Lemma does_stamp : st_does (lift polite_turn settled) (stamp ddl).
Proof. apply does_db; [apply _|]. intros s. by destruct (StampFTS _ _). Qed.

(** *** The signature *)

(** Nothing is left for a run to do. *)
Definition nothing_left (s : Shared) : Prop := pend text_is_ref (shDB s) = ∅ ∧ pend outdated (shDB s) = ∅.

(** A run that found the signature stale, or nothing to do, leaves a signature
    that verifies only when no row is stale. *)
Definition vouched (c c' : ReprojectCtx) : Prop :=
  Forall polite_turn (cxTurns c) → good (shDB (cxShared c)) →
  (verifies ddl (cxShared c) = true → nothing_left (cxShared c)) →
  good (shDB (cxShared c')) ∧ (verifies ddl (cxShared c') = true → pend outdated (shDB (cxShared c')) = ∅).

Lemma keeps_left s s' : good (shDB s) → keeps s s' → (verifies ddl s = true → nothing_left s) →
  verifies ddl s' = true → nothing_left s'.
Proof.
  intros Hg Hk Hv Hv'. destruct (Hk Hg) as (_ & Hs & Hr & Ho). unfold verifies in *. rewrite Hs in Hv'.
  destruct (Hv Hv') as [Hr0 Ho0]. split; set_solver.
Qed.
Lemma vouched_keeps {A} (m : ReprojectM A) : st_does (lift polite_turn keeps) m → st_does vouched m.
Proof.
  intros Hm c r c' Hx Hf Hg Hv. destruct (Hm _ _ _ Hx Hf) as [_ Hk]. split; [by destruct (Hk Hg)|].
  intros Hv'. by apply (keeps_left _ _ Hg Hk Hv).
Qed.
Lemma vouched_bind {A B} (m : ReprojectM A) (f : A → ReprojectM B) :
  st_does (lift polite_turn keeps) m → (∀ a, st_does vouched (f a)) → st_does vouched (m ≫= f).
Proof.
  intros Hm Hf c r c' [(e & Hx & _)|(a & c1 & Hx & Hr)]%st_bind_inv; [by eapply vouched_keeps|].
  intros Ht Hg Hv. destruct (Hm _ _ _ Hx Ht) as [Ht' Hk].
  eapply Hf; [exact Hr|done|by destruct (Hk Hg)|]. by apply (keeps_left (cxShared c)).
Qed.
Lemma lift_keeps {A} (m : ReprojectM A) : st_does (lift polite_turn steady) m → st_does (lift polite_turn keeps) m.
Proof. apply lift_mono, steady_keeps. Qed.

Lemma count_zero db : (0 <? obj_CountStaleProjections db)%Z = false → pend outdated db = ∅.
Proof.
  unfold obj_CountStaleProjections. intros Hn. unfold pend. by destruct (List.filter outdated (odRows db)).
Qed.

Lemma vouched_finish x : st_does vouched (finish_run ddl rp x).
Proof.
  unfold finish_run. intros c r c' [(e & Hx & _)|(n & c1 & Hx & Hr)]%st_bind_inv.
  { eapply (vouched_keeps count_stale); [|exact Hx]. apply does_count_stale, _. }
  intros Ht Hg Hv. destruct (does_count_stale steady _ _ _ Hx Ht) as [Ht1 Hk]. destruct (Hk Hg) as [Hk1 _].
  assert (Hg1 : good (shDB (cxShared c1))) by by destruct (Hk1 Hg).
  assert (Hv1 : verifies ddl (cxShared c1) = true → nothing_left (cxShared c1)) by by apply (keeps_left (cxShared c)).
  destruct n as [n|e].
  2: { eapply (vouched_keeps (stop rp x CountFailed)); [apply does_stop, _|exact Hr|done..]. }
  destruct ((0 <? n)%Z || (0 <? rsFailed (rrRes x))%Z) eqn:Hn.
  { refine (vouched_keeps _ _ c1 r c' Hr Ht1 Hg1 Hv1). does. apply does_fail_status, _. }
  apply orb_false_iff in Hn as [Hn _].
  assert (Hp : pend outdated (shDB (cxShared c1)) = ∅).
  { apply db_read_spec in Hx as [[= ->]|?]; [|done]. by apply count_zero. }
  assert (Hset : lift polite_turn settled c1 c').
  { refine (does_seq polite_turn settled _ _ does_stamp _ c1 r c' Hr). intros [[|]|]; does; apply does_stop, _. }
  destruct (Hset Ht1) as [_ Hset']. destruct (Hset' Hg1 Hp). by split.
Qed.

Lemma vouched_pages fuel cursor x : st_does vouched (pages ddl rp fuel cursor x).
Proof.
  revert cursor x. induction fuel as [|fuel IH]; intros cursor x; cbn [pages]; [apply vouched_keeps; does|].
  apply vouched_bind; [does|]. intros [[|id ids]|].
  - apply vouched_finish.
  - apply vouched_bind; [apply lift_keeps, does_reproject_ids|]. intros [[[e|] cursor'] x']; [apply vouched_keeps, does_stop, _|].
    apply vouched_bind; [apply does_tick, _|]. intros [e|]; [apply vouched_keeps; does|apply IH].
  - apply vouched_bind; [does|]. intros cancelled. apply vouched_keeps, does_stop, _.
Qed.

Lemma vouched_Run fuel : st_does vouched (Run ddl rp fuel).
Proof.
  unfold Run. apply vouched_bind; [apply does_repairRefText|]. intros [[e|] res]; [apply vouched_keeps; does|].
  apply vouched_bind; [apply does_begin, _|]. intros [[e|] x]; [apply vouched_keeps; does|].
  apply vouched_bind; [does|]. intros _. apply vouched_pages.
Qed.
(** The whole index is what the current projection makes of the stored rows. *)
Definition indexed_now (db : ObjDB) : Prop :=
  (∀ id b, odFts db !! id = Some b ↔ b ≠ nostr ∧ ∃ r, r ∈ odRows db ∧ orID r = id ∧ ipFTSBody (proj r) = b) ∧
  (∀ id b, odFtsMasked db !! id = Some b ↔ b ≠ nostr ∧ ∃ r, r ∈ odRows db ∧ orID r = id ∧ ipMaskedFTSBody (proj r) = b).

Lemma good_indexed db : good db → pend outdated db = ∅ → indexed_now db.
Proof.
  intros [Hwf Hc _] Hp.
  assert (Hr : ∀ r, r ∈ odRows db → projected r).
  { intros r Hr. apply (Hc r Hr). destruct (outdated r) eqn:Ho; [|done]. exfalso.
    assert (Hin : orID r ∈ pend outdated db) by (apply elem_of_pend; eauto). rewrite Hp in Hin. set_solver. }
  split; intros id b; [etrans; [apply (wf_fts _ Hwf)|]|etrans; [apply (wf_masked _ Hwf)|]]; apply and_iff_compat_l;
    (split; intros (r & Hin & Hi & <-); exists r; (split; [done|split; [done|]]); by destruct (Hr r Hin)).
Qed.

(** C24. A stamped signature can be trusted.  A run that starts with a signature
    that does not verify, or with no row stale or with a ref for its text, is
    interfered with by writers between any two of its calls, its calls fail with
    or without their effect, it is cancelled or crashes; however it ends, if the
    index signature verifies afterwards then both full-text indexes hold exactly
    what the current projection makes of the stored rows, and they go on doing so
    under any later writes.  The writers leave the signatures alone and leave no
    row with a ref for its text; a run over rows still to do under a signature
    that already verifies is outside, see [stale_under_stamp]. *)
Theorem stamped_index_current fuel c r c' db :
  Forall polite_turn (cxTurns c) → good (shDB (cxShared c)) →
  (verifies ddl (cxShared c) = true → ∀ x, x ∈ odRows (shDB (cxShared c)) → text_is_ref x = false ∧ outdated x = false) →
  Run ddl rp fuel c = (r, c') → verifies ddl (cxShared c') = true → star polite_step (shDB (cxShared c')) db →
  indexed_now db.
Proof.
  intros Ht Hg Hv Hr Hv' Hs. destruct (vouched_Run fuel _ _ _ Hr Ht Hg) as [Hg' Hp].
  { intros Hx. specialize (Hv Hx). split; apply set_eq; intros id; (split; [|by intros ?%elem_of_empty]);
      intros (r' & Hr' & _ & Hb)%elem_of_pend; destruct (Hv r' Hr'); congruence. }
  destruct (polite_star _ _ Hg' Hs) as [Hg'' Hc]. apply good_indexed; [done|].
  apply calm_outdated in Hc. specialize (Hp Hv'). set_solver.
Qed.
End safety.

(** ** Ends and success *)
Section ends.
Context `{GoEncodings} `{GoColumns} `{GoCrypto} `{GoUnicode}.
Context (ddl : option string) (rp : Reprojector).

(** [sm]: whether the run goes smoothly: no call fails, nothing cancels or kills
    it. *)
Context (sm : bool).
(** No other upgrade run is about. *)
Definition quiet_status (t : Turn Shared) : Prop := ∀ s, shStatus (tnOthers t s) = shStatus s.

Record ready (c : ReprojectCtx) : Prop := {
  ready_polite : Forall polite_turn (cxTurns c);
  ready_quiet : Forall quiet_status (cxTurns c);
  ready_smooth : sm = true → Forall smooth_turn (cxTurns c) ∧ cxCancelled c = false;
  ready_good : good (shDB (cxShared c));
}.

(** A part of a run ends, or the process is killed; what holds then. *)
Local Notation wp := (Turns.wp (λ _, sm = false)).

(** Where a run got to: [c'] after [c], the world changed within [R]. *)
Record went (R : Shared → Shared → Prop) (c c' : ReprojectCtx) : Prop := {
  went_ready : ready c';
  went_within : R (cxShared c) (cxShared c');
}.
Definition same_status (c c' : ReprojectCtx) : Prop := shStatus (cxShared c') = shStatus (cxShared c).

Lemma got_trans R `{!PreOrder R} a b c : went R a b → went R b c → went R a c.
Proof. intros [Hr1 Hw1] [Hr2 Hw2]. split; [done|by transitivity (cxShared b)]. Qed.
Lemma got_refl R `{!PreOrder R} c : ready c → went R c c.
Proof. by split. Qed.
Lemma went_keeps c c' : went steady c c' → went keeps c c'.
Proof. intros [Hr Hw]. split; [done|by apply steady_keeps]. Qed.

#[local] Instance steady_status_preorder : PreOrder (λ s s', steady s s' ∧ shStatus s' = shStatus s).
Proof.
  split; [by intros s|]. intros a b c [Hab Eab] [Hbc Ebc]. split; [by transitivity b|congruence].
Qed.

Lemma wp_moment Q c : ready c →
  (∀ fate c', went steady c c' → same_status c c' → cxEvents c' = cxEvents c → (sm = true → fate = Runs) → Q fate c') →
  wp turn Q c.
Proof.
  intros [Hp Hq Hs Hg] HQ.
  assert (Ho : ∀ t s, polite_turn t ∧ quiet_status t → steady s (tnOthers t s) ∧ shStatus (tnOthers t s) = shStatus s).
  { intros t s [Hpt Hqt]. split; [by apply steady_others|apply Hqt]. }
  eapply wp_kills.
  - apply (wp_turn (λ t, polite_turn t ∧ quiet_status t) (λ s s', steady s s' ∧ shStatus s' = shStatus s) Ho sm (λ _, True)).
    + by split; [apply Forall_and| |].
    + intros fate c' [[[Hp' Hq']%Forall_and Hs' _] [Hst Hss]] Hev Hf. apply HQ; [|done..]. split; [|done].
      split; [done|done|done|by destruct (steady_keeps _ _ Hst Hg)].
  - by intros c' [? _].
Qed.

Lemma ready_with_shared c s : ready c → good (shDB s) → ready (with_shared c s).
Proof. intros [] Hg. by split. Qed.

(** A call on a store within [R]. *)
Lemma wp_db {A} R `{!PreOrder R} (f : Shared → A * Shared) Q c :
  (∀ s s', steady s s' → R s s') → ready c →
  (∀ s, good (shDB s) → R s (f s).2 ∧ good (shDB (f s).2) ∧ shStatus (f s).2 = shStatus s) →
  (∀ a c' s, went R c c' → same_status c c' → good (shDB s) → R (cxShared c) s →
     a = Ok (f s).1 ∧ cxShared c' = (f s).2 ∨ sm = false ∧ a = Err CallFault → Q a c') → wp (db_call f) Q c.
Proof.
  intros HR Hc Hf HQ. unfold db_call, ask. apply wp_seq_run, wp_seq_run, wp_moment; [done|]. intros fate c1 [Hr1 Hw1] Hs1 _ Hfate.
  destruct (Hf (cxShared c1) (ready_good _ Hr1)) as (HR1 & Hg & Hst). pose proof (HR _ _ Hw1) as Hw1'.
  assert (Hdone : went R c (with_shared c1 (f (cxShared c1)).2)).
  { split; [by apply ready_with_shared|]. by transitivity (cxShared c1). }
  assert (Hst' : same_status c (with_shared c1 (f (cxShared c1)).2)) by (unfold same_status in *; cbn; congruence).
  destruct fate; cbn.
  - apply (HQ _ _ (cxShared c1)); [done|done|by apply Hr1|done|by left].
  - apply (HQ _ _ (cxShared c1)); [by split|done|by apply Hr1|done|]. right. split; [|done]. destruct sm; [|done]. by specialize (Hfate eq_refl).
  - apply (HQ _ _ (cxShared c1)); [done|done|by apply Hr1|done|]. right. split; [|done]. destruct sm; [|done]. by specialize (Hfate eq_refl).
Qed.

Lemma wp_read {A} (f : Shared → A) Q c : ready c →
  (∀ a c', went steady c c' → same_status c c' → a = Ok (f (cxShared c')) ∨ sm = false ∧ a = Err CallFault → Q a c') →
  wp (db_call (λ s, (f s, s))) Q c.
Proof.
  intros Hc HQ. apply (wp_db steady); [done|done|by intros s Hg|]. intros a c' s Hw Hst _ _ Ha. apply HQ; [done..|].
  destruct Ha as [[-> Hs]|?]; [left|by right]. cbn in Hs. by rewrite Hs.
Qed.

Lemma wp_cancelled Q c : ready c →
  (∀ b c', went steady c c' → same_status c c' → (sm = true → b = false) → Q b c') → wp ctx_Err Q c.
Proof.
  intros Hc HQ. apply wp_seq_run, wp_moment; [done|]. intros _ c1 Hw Hs _ _. apply HQ; [done..|].
  intros Hsm. by destruct (ready_smooth _ (went_ready _ _ _ Hw) Hsm).
Qed.

Lemma wp_status f Q c : ready c →
  (∀ c' now persisted st, went steady c c' → (sm = true → persisted = true) → st = shStatus (cxShared c) →
     shStatus (cxShared c') = (f now persisted st).2 ∧ cxEvents c' = cxEvents c → Q (f now persisted st).1 c') → wp (status_call f) Q c.
Proof.
  intros Hc HQ. apply wp_seq_run, wp_moment; [done|]. intros fate c1 Hw Hs Hev Hfate. unfold on_shared, Turns.wp, on_ctx. cbv zeta.
  set (persisted := match fate with Runs => true | _ => false end).
  set (now := wNow (shWorld (cxShared c1))).
  specialize (HQ (with_shared c1 (with_status (cxShared c1) (f now persisted (shStatus (cxShared c1))).2)) now persisted (shStatus (cxShared c1))).
  destruct (f now persisted (shStatus (cxShared c1))) as [r st]. apply HQ; [| |done|by split].
  - apply (got_trans steady c c1); [done|]. split; [by apply ready_with_shared; [apply Hw|apply Hw]|]. apply (sane_status (R := steady)).
  - intros Hsm. unfold persisted. by rewrite (Hfate Hsm).
Qed.
(** *** The variant of both loops: the ids above the cursor *)
Lemma above_mono cursor s s' : s' ⊆ s → above cursor s' ⊆ above cursor s.
Proof. unfold above. set_solver. Qed.
Lemma above_shrinks cursor cursor' s s' : cursor' ∈ above cursor s → s' ⊆ s → (size (above cursor' s') < size (above cursor s))%nat.
Proof.
  intros Hin Hs. apply subset_size. unfold above in *. apply elem_of_filter in Hin as [Hlt Hin]. split.
  - intros id [Hid Hi]%elem_of_filter. apply elem_of_filter. split; [by eapply str_ltb_trans|set_solver].
  - intros Hsub. assert (Hx : cursor' ∈ filter (λ id, str_ltb cursor' id = true) s').
    { apply Hsub, elem_of_filter. done. }
    apply elem_of_filter in Hx as [Hx _]. by rewrite str_ltb_irrefl in Hx.
Qed.

Lemma above_le cursor s t : s ⊆ t → (size (above cursor s) <= size t)%nat.
Proof. intros Hs. apply subseteq_size. unfold above. set_solver. Qed.

(** The counters of a run: nothing negative, and no failure when it goes
    smoothly. *)
Definition fine (res : ReprojectResult) : Prop :=
  (0 <= rsReprojected res)%Z ∧ (0 <= rsSkipped res)%Z ∧ (0 <= rsFailed res)%Z ∧ (sm = true → rsFailed res = 0%Z).

Lemma wp_repair_object o res Q c : ready c → IsBlobRef (koTextContent o) = true → fine res →
  (∀ res' c', went keeps c c' → same_status c c' → fine res' → Q res' c') → wp (repair_object rp o res) Q c.
Proof.
  intros Hc Ho Hres HQ. unfold repair_object.
  apply wp_seq_run, (wp_db keeps); [apply steady_keeps|done| |].
  - intros s Hg. pose proof (run_Content (rpBlobs rp) (koTextContent o) (shWorld s)) as Hw.
    destruct (run _ _) as [r w]. cbn in Hw. subst w. by destruct s.
  - intros text c1 s Hw Hst _ _ _. destruct text as [[text|]|]; [|by apply wp_mret, HQ..].
    apply wp_seq_run, (wp_db keeps); [apply steady_keeps|apply Hw| |].
    + intros s1 Hg. pose proof (replace_ref_kept _ (koID o) (koTextContent o) (TextPrefix text (text_cap rp))
        (str_eqb (koTextContent o) (koRawContent o)) Hg Ho) as (Hg' & Hp & Hp').
      destruct (obj_ReplaceRefText _ _ _ _ _) as [b db]. by split_and!.
    + intros wrote c2 s1 Hw1 Hst1 _ _ _. apply wp_mret, HQ; [by eapply (got_trans keeps)| |by destruct wrote as [[]|]].
      unfold same_status in *. congruence.
Qed.

Lemma wp_repair_objects objs cursor res Q c :
  ready c → Forall (λ o, IsBlobRef (koTextContent o) = true) objs → fine res →
  (∀ err cursor' res' c', went keeps c c' → same_status c c' → fine res' → (sm = true → err = None) →
     (err = None → objs = [] ∧ cursor' = cursor ∨ ∃ o, o ∈ objs ∧ cursor' = koID o) → Q (err, cursor', res') c') →
  wp (repair_objects rp objs cursor res) Q c.
Proof.
  revert cursor res c. induction objs as [|o objs IH]; intros cursor res c Hc Hobjs Hres HQ; cbn [repair_objects].
  { apply wp_mret, HQ; [by apply got_refl; [apply _|]|done|done|done|by left]. }
  apply Forall_cons in Hobjs as [Ho Hobjs]. apply wp_seq_run, wp_cancelled; [done|]. intros b c1 Hw1 Hs1 Hb.
  apply went_keeps in Hw1. destruct b.
  { apply wp_mret, HQ; [done|done|done| |done]. intros Hsm. by specialize (Hb Hsm). }
  apply wp_seq_run, wp_repair_object; [apply Hw1|done|done|]. intros res1 c2 Hw2 Hs2 Hres1.
  apply IH; [apply Hw2|done|done|]. intros err cursor' res' c3 Hw3 Hs3 Hres' Herr Hcur. apply HQ.
  - eapply (got_trans keeps); [exact Hw1|]. by eapply (got_trans keeps).
  - unfold same_status in *. congruence.
  - done.
  - done.
  - intros He. right. destruct (Hcur He) as [[_ ->]|(o' & Ho' & ->)]; [exists o; by split; [left|]|exists o'; by split; [right|]].
Qed.

Lemma batch_pos : (0 < batch_size rp)%Z.
Proof. unfold batch_size, DefaultReprojectBatch. destruct (rpBatch rp <=? 0)%Z eqn:E; lia. Qed.

Definition ref_variant (cursor : string) (c : ReprojectCtx) : nat := size (above cursor (pend text_is_ref (shDB (cxShared c)))).
Definition stale_variant (cursor : string) (c : ReprojectCtx) : nat := size (above cursor (pend outdated (shDB (cxShared c)))).

Lemma wp_repair_pages fuel cursor res Q c :
  ready c → fine res → (ref_variant cursor c < fuel)%nat →
  (∀ err res' c', went keeps c c' → same_status c c' → fine res' → (sm = true → err = None) → Q (err, res') c') →
  wp (repair_pages rp fuel cursor res) Q c.
Proof.
  revert cursor res c. induction fuel as [|fuel IH]; intros cursor res c Hc Hres Hfuel HQ; cbn [repair_pages]; [lia|].
  apply wp_seq_run, wp_read; [done|]. intros objs c1 Hw1 Hs1 Hobjs. pose proof (went_keeps _ _ Hw1) as Hk1.
  destruct objs as [objs|e].
  2: { apply wp_mret, HQ; [done..|]. intros Hsm. destruct Hobjs as [?|[? _]]; congruence. }
  destruct Hobjs as [[= Hobjs]|[_ ?]]; [|done].
  assert (Hspec : ∀ o, o ∈ objs → IsBlobRef (koTextContent o) = true ∧ koID o ∈ above cursor (pend text_is_ref (shDB (cxShared c1)))).
  { intros o Ho. rewrite Hobjs in Ho. by eapply elem_of_ListRefText. }
  assert (Hgo : wp ('(err, cursor, res) ← repair_objects rp objs cursor res;
      match err with Some e => mret (Some e, res) | None => repair_pages rp fuel cursor res end) Q c1 ∨ objs = []).
  { destruct objs as [|o0 objs']; [by right|]. left. set (objs := o0 :: objs') in *.
    apply wp_seq_run, wp_repair_objects; [apply Hw1|by apply Forall_forall; intros o Ho; apply Hspec|done|].
    intros err cursor' res' c2 Hw2 Hs2 Hres' Herr Hcur. assert (Hk2 : went keeps c c2) by by eapply (got_trans keeps).
    assert (Hs' : same_status c c2) by (unfold same_status in *; congruence).
    destruct err as [e|]; [by apply wp_mret, HQ|].
    destruct (Hcur eq_refl) as [[? _]|(o & Ho & ->)]; [done|].
    apply IH; [apply Hw2|done| |].
    - destruct (went_within _ _ _ Hw2 (ready_good _ (went_ready _ _ _ Hw1))) as (_ & _ & Hp2 & _).
      destruct (went_within _ _ _ Hk1 (ready_good _ Hc)) as (_ & _ & Hp1 & _).
      pose proof (above_shrinks _ _ _ _ (proj2 (Hspec o Ho)) Hp2) as Hlt.
      pose proof (subseteq_size _ _ (above_mono cursor _ _ Hp1)). unfold ref_variant in *. lia.
    - intros err' res'' c3 Hw3 Hs3 Hres'' Herr'. apply HQ; [by eapply (got_trans keeps)| |done..].
      unfold same_status in *. congruence. }
  destruct Hgo as [Hgo| ->]; [|by apply wp_mret, HQ]. destruct objs; [by apply wp_mret, HQ|exact Hgo].
Qed.
(** *** The loop over the stale rows *)
Lemma obj_Reproject_total db id : obj_wf db → ∃ b db', obj_Reproject db id = Ok (b, db').
Proof.
  intros Hwf. destruct (obj_Reproject db id) as [[b db']|e] eqn:Hr; [eauto|]. exfalso. revert Hr.
  unfold obj_Reproject. destruct (negb _) eqn:Ha; [done|]. intros [Hr|(db1 & _ & Hr)]%bind_err_inv; [|done].
  apply negb_false_iff, existsb_exists' in Ha as (r & Hr' & [Hi%by_id_true Ho]%andb_true_iff).
  destruct (Forall2_in_l _ _ _ _ (update_by_images (λ r, by_id id r && outdated r)
    (λ r, mkObjRow (orObj r) (orBody r) (orMasked r) ProjectionVersion (orSeq r)) db) Hr') as (r1 & Hr1 & Him).
  eapply (reindexRowTx_fails _ _ _ _ Hr); [exact Hr1|]. by destruct Him as [[-> _]|(s & -> & _)].
  Unshelve. apply update_plain_wf; [apply plain_version|done].
Qed.

Lemma fine_count x id changed : fine (rrRes x) → (sm = true → is_ok changed = true) → fine (rrRes (count x id changed)).
Proof.
  intros (Hr & Hs & Hf & Hsm) Hok. unfold fine, count. destruct changed as [[|]|e]; cbn; split_and!; try lia; try done.
  intros Hs'. by specialize (Hok Hs').
Qed.

Lemma wp_reproject_ids ids cursor x Q c :
  ready c → fine (rrRes x) →
  (∀ err cursor' x' c', went steady c c' → same_status c c' → fine (rrRes x') →
     (sm = true → err = None ∧ ∀ id, id ∈ ids → id ∉ pend outdated (shDB (cxShared c'))) →
     (err = None → cursor' = default cursor (last ids)) → Q (err, cursor', x') c') →
  wp (reproject_ids ids cursor x) Q c.
Proof.
  revert cursor x c. induction ids as [|id ids IH]; intros cursor x c Hc Hx HQ; cbn [reproject_ids].
  { apply wp_mret, HQ; [by apply got_refl; [apply _|]|done|done|split; [done|by intros id Hid%not_elem_of_nil]|done]. }
  apply wp_seq_run, wp_cancelled; [done|]. intros b c1 Hw1 Hs1 Hb. destruct b.
  { apply wp_mret, HQ; [done..|intros Hsm; by specialize (Hb Hsm)|done]. }
  apply wp_seq_run, (wp_db steady); [done|apply Hw1| |].
  { intros s Hg. destruct (obj_Reproject_total (shDB s) id (good_wf _ Hg)) as (b & db & Hr). rewrite Hr. cbn [snd].
    pose proof (steady_Reproject _ _ _ _ Hr) as Hst. split; [done|]. split; [|done]. by destruct (steady_keeps _ _ Hst Hg). }
  intros changed c2 s Hw2 Hs2 Hgs Hss Hch. apply wp_seq_run, wp_cancelled; [apply Hw2|]. intros b c3 Hw3 Hs3 Hb3.
  assert (Hw : went steady c c3) by (eapply (got_trans steady); [exact Hw1|]; by eapply (got_trans steady)).
  assert (Hst : same_status c c3) by (unfold same_status in *; congruence).
  destruct b; [apply wp_mret, HQ; [done..|intros Hsm; by specialize (Hb3 Hsm)|done]|].
  destruct (obj_Reproject_total (shDB s) id (good_wf _ Hgs)) as (b & db & Hr). rewrite Hr in Hch. cbn [fst snd] in Hch.
  set (x' := count x id _).
  assert (Hx' : fine (rrRes x')).
  { apply fine_count; [done|]. intros Hsm. destruct Hch as [[-> _]|[? _]]; [done|congruence]. }
  assert (Hgone : sm = true → id ∉ pend outdated (shDB (cxShared c3))).
  { intros Hsm. destruct Hch as [[_ Hc2]|[? _]]; [|congruence].
    destruct (calm_Reproject _ _ _ _ (good_wf _ Hgs) Hr) as [_ Hno].
    destruct (went_within _ _ _ Hw3 (ready_good _ (went_ready _ _ _ Hw2))) as [_ Hp]. intros Hin. apply Hp in Hin.
    rewrite Hc2 in Hin. apply elem_of_pend in Hin as (r & Hin & Hi & Ho). by rewrite (Hno r Hin Hi) in Ho. }
  assert (Hgo : ∀ c4, ready c4 → cxShared c4 = cxShared c3 → wp (reproject_ids ids id x') Q c4).
  { intros c4 Hc4 He. assert (Hw4 : went steady c c4) by (split; [done|rewrite He; apply Hw]).
    apply IH; [done|done|]. intros err cursor' x'' c5 Hw5 Hs5 Hx'' Hsm5 Hcur. apply HQ.
    - by eapply (got_trans steady).
    - unfold same_status in *. congruence.
    - done.
    - intros Hsm. destruct (Hsm5 Hsm) as [-> Hno]. split; [done|]. intros i [->|Hi]%elem_of_cons; [|by apply Hno].
      destruct (went_within _ _ _ Hw5 (ready_good _ Hc4)) as [_ Hp]. rewrite He in Hp. specialize (Hgone Hsm). set_solver.
    - intros He'. rewrite (Hcur He'), last_cons. by destruct (last ids). }
  apply wp_seq_run. destruct (_ =? 0)%Z; [|apply wp_mret, Hgo; [apply Hw3|done]].
  apply wp_publish. apply Hgo; [|done]. destruct (went_ready _ _ _ Hw3). by split.
Qed.

(** *** The status *)
Definition running (c : ReprojectCtx) : bool := in_progress (shStatus (cxShared c)).

Lemma count_stale_nonneg db : (0 <= obj_CountStaleProjections db)%Z.
Proof. unfold obj_CountStaleProjections. lia. Qed.

Lemma wp_begin fuel x Q c :
  ready c → fine (rrRes x) → (rpProgress rp = true → running c = false) → (0 < fuel)%nat →
  (∀ err x' c', went steady c c' → fine (rrRes x') → (sm = true → err = None) →
     (rpProgress rp = true → err = None → running c' = true) → Q (err, x') c') →
  wp (begin_run rp fuel x) Q c.
Proof.
  intros Hc Hx Hrun Hfuel HQ. destruct fuel as [|fuel]; [lia|]. cbn [begin_run].
  apply wp_seq_run, wp_read; [done|]. intros total c1 Hw1 Hs1 Htot. destruct total as [total|e].
  2: { apply wp_mret, HQ; [done..|intros Hsm; destruct Htot as [?|[? _]]; congruence|done]. }
  destruct Htot as [[= ->]|[_ ?]]; [|done]. cbv zeta. set (x' := mkRun _ _). assert (Hx' : fine (rrRes x')) by done.
  destruct (rpProgress rp) eqn:Hp; cbn [negb]; [|by apply wp_mret, HQ].
  apply wp_seq_run, wp_status; [apply Hw1|]. intros c2 now persisted st Hw2 Hper -> [Hst _].
  assert (Hw : went steady c c2) by by eapply (got_trans steady).
  assert (Hidle : in_progress (shStatus (cxShared c1)) = false).
  { unfold same_status in Hs1. rewrite Hs1. by apply Hrun. }
  revert Hst. unfold StartTarget. rewrite Hidle.
  pose proof (count_stale_nonneg (shDB (cxShared c1))) as Hn. destruct (_ <? 0)%Z eqn:Hlt; [lia|]. intros Hst.
  destruct persisted; cbn [after_persist fst snd] in *; apply wp_mret, HQ; try done.
  - intros _ _. unfold running. by rewrite Hst.
  - intros Hsm. by specialize (Hper Hsm).
Qed.

Lemma wp_tick x Q c :
  ready c → fine (rrRes x) → (rpProgress rp = true → running c = true) →
  (∀ err c', went steady c c' → (sm = true → err = None) → (rpProgress rp = true → running c' = true) → Q err c') →
  wp (tick rp x) Q c.
Proof.
  intros Hc Hx Hrun HQ. unfold tick. destruct (rpProgress rp) eqn:Hp; cbn [negb].
  2: { apply wp_mret, HQ; [by apply got_refl; [apply _|]|done|done]. }
  apply wp_seq_run, wp_status; [done|]. intros c1 now persisted st Hw Hper -> [Hst _]. apply wp_mret.
  specialize (Hrun eq_refl). unfold running in Hrun. revert Hst. unfold TickFailed. rewrite Hrun. cbn [negb].
  destruct Hx as (Hr & Hs & Hf & _). unfold Handled. destruct (_ || _) eqn:Hbad.
  { exfalso. apply orb_true_iff in Hbad as [Hbad|Hbad]; [apply orb_true_iff in Hbad as [Hbad|Hbad]|]; lia. }
  unfold tickLocked. cbn [after_persist fst snd]. intros Hst. apply HQ; [done| |].
  - intros Hsm. by rewrite (Hper Hsm).
  - intros _. unfold running. by rewrite Hst.
Qed.
(** *** The end of a run *)
Record done_well (r : RunResult) (c : ReprojectCtx) : Prop := {
  dw_no_error : r.2 = None;
  dw_no_failure : rsFailed r.1 = 0%Z;
  dw_verifies : verifies ddl (cxShared c) = true;
  dw_indexed : indexed_now (shDB (cxShared c));
  dw_none_left : obj_CountStaleProjections (shDB (cxShared c)) = 0%Z;
  dw_idle : rpProgress rp = true → shStatus (cxShared c) = idleStatus;
  dw_event : last (cxEvents c) = Some (ReprojectionCompleted, r.1);
}.
Definition final (r : RunResult) (c : ReprojectCtx) : Prop := sm = true → is_Some ddl → done_well r c.

Lemma verifies_stamped s sigs : StampFTS ddl (shSigs s) = Some sigs → verifies ddl (with_sigs s sigs) = true.
Proof.
  unfold StampFTS, verifies, VerifyFTS. destruct (computeFTSSQLite ddl) as [new|]; [|done]. cbn. intros [= <-].
  rewrite lookup_insert_eq. cbn. by rewrite str_eqb_refl.
Qed.

Lemma pend_count db : pend outdated db = ∅ → obj_CountStaleProjections db = 0%Z.
Proof.
  unfold obj_CountStaleProjections. intros Hp. destruct (List.filter outdated (odRows db)) as [|r l] eqn:Hf; [done|].
  assert (Hin : orID r ∈ pend outdated db); [|set_solver]. apply elem_of_pend. exists r.
  assert (Hr : List.In r (List.filter outdated (odRows db))) by (rewrite Hf; by left).
  apply filter_In in Hr as [Hr%list_elem_of_In Ho]. done.
Qed.

Lemma wp_fail_status reason Q c : ready c → (∀ c', ready c' → Q tt c') → wp (fail_status rp reason) Q c.
Proof.
  intros Hc HQ. unfold fail_status. destruct (rpProgress rp); [|by apply wp_mret, HQ].
  apply wp_seq_run, wp_status; [done|]. intros c' now persisted st Hw _ _ _. apply wp_mret, HQ, Hw.
Qed.

Lemma wp_stop x e c : ready c → (sm = true → ddl = None) → wp (stop rp x e) final c.
Proof.
  intros Hc Hd. unfold stop. apply wp_seq_run, wp_fail_status; [done|]. intros c' Hc'. apply wp_seq_run, wp_publish.
  apply wp_mret. intros Hsm [d Hd']. specialize (Hd Hsm). congruence.
Qed.

Lemma wp_finish x c :
  ready c → fine (rrRes x) → (rpProgress rp = true → running c = true) →
  (sm = true → pend outdated (shDB (cxShared c)) = ∅) → wp (finish_run ddl rp x) final c.
Proof.
  intros Hc Hx Hrun Hpend. unfold finish_run. apply wp_seq_run, wp_read; [done|]. intros n c1 Hw1 Hs1 Hn.
  destruct n as [n|e]; [|apply wp_stop; [apply Hw1|]; intros Hsm; destruct Hn as [?|[? _]]; congruence].
  destruct Hn as [[= ->]|[_ ?]]; [|done].
  destruct (_ || _) eqn:Hbad.
  { apply wp_seq_run, wp_fail_status; [apply Hw1|]. intros c2 Hc2. apply wp_seq_run, wp_publish. apply wp_mret. intros Hsm _.
    exfalso. destruct (went_within _ _ _ Hw1 (ready_good _ Hc)) as [_ Hp]. rewrite (Hpend Hsm) in Hp.
    rewrite pend_count in Hbad by set_solver. destruct Hx as (_ & _ & _ & Hf). rewrite (Hf Hsm) in Hbad. done. }
  apply orb_false_iff in Hbad as [Hzero _]. apply count_zero in Hzero.
  apply wp_seq_run. unfold stamp. apply (wp_db settled); [apply steady_settled|apply Hw1| |].
  { intros s Hg. by destruct (StampFTS ddl (shSigs s)). }
  intros stamped c2 s Hw2 Hs2 Hgs Hss Hst.
  destruct stamped as [[|]|e].
  3: { apply wp_stop; [apply Hw2|]. intros Hsm. destruct Hst as [[? _]|[? _]]; [done|congruence]. }
  2: { apply wp_stop; [apply Hw2|]. intros _. destruct Hst as [[He _]|[_ ?]]; [|done].
       unfold StampFTS, computeFTSSQLite in He. by destruct ddl. }
  destruct Hst as [[He Hc2]|[_ ?]]; [|done]. destruct (StampFTS ddl (shSigs s)) as [sigs|] eqn:Hsig; [|done].
  assert (Hv : verifies ddl (cxShared c2) = true) by (rewrite Hc2; by apply verifies_stamped).
  destruct (went_within _ _ _ Hw2 (ready_good _ (went_ready _ _ _ Hw1)) Hzero) as [Hg2 Hp2].
  assert (Hfinal : ∀ c3 r, ready c3 → went steady c2 c3 → last (cxEvents c3) = Some (ReprojectionCompleted, rrRes x) →
    (sm = true → r = None ∧ (rpProgress rp = true → shStatus (cxShared c3) = idleStatus)) → final (rrRes x, r) c3).
  { intros c3 r Hc3 Hw3 Hev Hr Hsm _. destruct (Hr Hsm) as [-> Hidle], (went_within _ _ _ Hw3 Hg2) as [Hk Hp3].
    assert (Hp : pend outdated (shDB (cxShared c3)) = ∅) by set_solver. constructor; cbn; try done.
    - by apply Hx.
    - unfold verifies in *. by destruct (Hk Hg2) as (_ & -> & _).
    - apply good_indexed; [apply Hc3|done].
    - by apply pend_count. }
  pose proof (went_ready _ _ _ Hw2) as Hr2. apply wp_seq_run, wp_publish. set (c3 := mkRunCtx _ _ _ _).
  assert (Hc3 : ready c3) by (destruct Hr2; by split). assert (Hw3 : went steady c2 c3) by (by split; [|done]).
  assert (Hlast : last (cxEvents c3) = Some (ReprojectionCompleted, rrRes x)) by (cbn; by rewrite last_snoc).
  destruct (rpProgress rp) eqn:Hp; cbn [negb]; [|by apply wp_mret, Hfinal].
  apply wp_seq_run. pose proof (Hrun eq_refl) as Hrun1. unfold running in Hrun1.
  assert (Hrun3 : in_progress (shStatus (cxShared c3)) = true) by (unfold same_status in *; cbn; congruence).
  apply wp_status; [done|]. intros c4 now persisted st Hw4 Hper -> [Hst4 Hev4]. revert Hst4. unfold status_Complete. rewrite Hrun3.
  cbn [negb after_persist fst snd]. intros Hst4. apply wp_mret, Hfinal; [apply Hw4|by eapply (got_trans steady)|by rewrite Hev4|].
  intros Hsm. by rewrite (Hper Hsm).
Qed.

Lemma wp_pages fuel cursor x c :
  ready c → fine (rrRes x) → (rpProgress rp = true → running c = true) → (stale_variant cursor c < fuel)%nat →
  (sm = true → ∀ id, id ∈ pend outdated (shDB (cxShared c)) → str_ltb cursor id = true) →
  wp (pages ddl rp fuel cursor x) final c.
Proof.
  revert cursor x c. induction fuel as [|fuel IH]; intros cursor x c Hc Hx Hrun Hfuel Hdone; cbn [pages]; [lia|].
  apply wp_seq_run, wp_read; [done|]. intros ids c1 Hw1 Hs1 Hids.
  assert (Hrun1 : rpProgress rp = true → running c1 = true).
  { intros Hp. unfold running, same_status in *. rewrite Hs1. by apply Hrun. }
  destruct (went_within _ _ _ Hw1 (ready_good _ Hc)) as [_ Hp1].
  destruct ids as [ids|e].
  2: { apply wp_seq_run, wp_cancelled; [apply Hw1|]. intros b c2 Hw2 _ _. apply wp_stop; [apply Hw2|].
       intros Hsm. destruct Hids as [?|[? _]]; congruence. }
  destruct Hids as [[= Hids]|[_ ?]]; [|done].
  assert (Hpage : ∀ id, id ∈ ids → id ∈ above cursor (pend outdated (shDB (cxShared c1)))).
  { intros id Hid. rewrite Hids in Hid. by eapply elem_of_id_page. }
  assert (Hfirst : sm = true → ∀ id, id ∈ pend outdated (shDB (cxShared c1)) →
    id ∈ ids ∨ ∃ y, last ids = Some y ∧ (str_ltb y id = true ∨ y = id)).
  { intros Hsm id Hid. rewrite Hids. apply id_page_first; [apply batch_pos|]. apply elem_of_filter. split; [|done].
    apply (Hdone Hsm). set_solver. }
  destruct ids as [|id0 ids0].
  { apply wp_finish; [apply Hw1|done|done|]. intros Hsm. apply elem_of_equiv_empty_L. intros id Hid.
    destruct (Hfirst Hsm id Hid) as [Hn%not_elem_of_nil|(y & ? & _)]; done. }
  set (ids := id0 :: ids0) in *. apply wp_seq_run, wp_reproject_ids; [apply Hw1|done|].
  intros err cursor' x' c2 Hw2 Hs2 Hx' Hsm2 Hcur.
  destruct err as [e|]; [apply wp_stop; [apply Hw2|]; intros Hsm; by destruct (Hsm2 Hsm)|].
  assert (Hrun2 : rpProgress rp = true → running c2 = true).
  { intros Hp. unfold running, same_status in *. rewrite Hs2. by apply Hrun1. }
  apply wp_seq_run, wp_tick; [apply Hw2|done|done|]. intros err c3 Hw3 Herr Hrun3.
  destruct err as [e|]; [apply wp_mret; intros Hsm; by specialize (Herr Hsm)|].
  destruct (went_within _ _ _ Hw2 (ready_good _ (went_ready _ _ _ Hw1))) as [_ Hp2].
  destruct (went_within _ _ _ Hw3 (ready_good _ (went_ready _ _ _ Hw2))) as [_ Hp3].
  assert (Hlast : last ids = Some cursor').
  { rewrite (Hcur eq_refl). destruct (last ids) as [y|] eqn:Hl; [done|]. by apply last_None in Hl. }
  assert (Hin : cursor' ∈ ids) by (apply last_Some in Hlast as [k ->]; set_solver).
  apply IH; [apply Hw3|done|done| |].
  - unfold stale_variant in *. pose proof (above_shrinks cursor cursor' _ (pend outdated (shDB (cxShared c3))) (Hpage _ Hin)) as Hlt.
    specialize (Hlt ltac:(set_solver)). pose proof (subseteq_size _ _ (above_mono cursor _ _ Hp1)). lia.
  - intros Hsm id Hid. destruct (Hsm2 Hsm) as [_ Hno].
    assert (Hid2 : id ∈ pend outdated (shDB (cxShared c2))) by set_solver.
    destruct (Hfirst Hsm id ltac:(set_solver)) as [Hi|(y & Hy & Hcmp)]; [by destruct (Hno id Hi)|].
    assert (y = cursor') as -> by congruence. destruct Hcmp as [?| <-]; [done|]. by destruct (Hno cursor' Hin).
Qed.

Lemma size_list_to_set_le (l : list string) : (size (list_to_set l : gset string) <= length l)%nat.
Proof.
  induction l as [|x l IH]; [done|]. cbn. rewrite size_union_alt, size_singleton.
  pose proof (subseteq_size (list_to_set l ∖ {[x]} : gset string) (list_to_set l) ltac:(set_solver)). lia.
Qed.
(** No page loop has more rounds than there are rows. *)
Lemma rounds db : (size (pend outdated db ∪ pend text_is_ref db) <= length (odRows db))%nat.
Proof.
  etrans; [|apply (Nat.eq_le_incl (length (map orID (odRows db)))); by rewrite length_map].
  etrans; [|apply size_list_to_set_le]. apply subseteq_size. intros id Hid. apply elem_of_list_to_set, list_elem_of_fmap.
  apply elem_of_union in Hid as [(r & Hr & <- & _)%elem_of_pend|(r & Hr & <- & _)%elem_of_pend]; by exists r.
Qed.

Lemma wp_Run fuel c :
  ready c → (rpProgress rp = true → running c = false) → (length (odRows (shDB (cxShared c))) < fuel)%nat →
  wp (Run ddl rp fuel) final c.
Proof.
  intros Hc Hrun Hfuel. pose proof (rounds (shDB (cxShared c))) as Hle.
  assert (Hnew : fine newResult) by done. unfold Run. apply wp_seq_run.
  assert (Hrepair : ∀ Q, (∀ err res c', went keeps c c' → same_status c c' → fine res → (sm = true → err = None) → Q (err, res) c') →
    wp (repairRefText rp fuel newResult) Q c).
  { intros Q HQ. unfold repairRefText. destruct (rpRefText rp); [|apply wp_mret, HQ; [by apply got_refl; [apply _|]|done..]].
    apply wp_repair_pages; [done|done| |done]. unfold ref_variant.
    eapply Nat.le_lt_trans; [apply above_le|]; [|eapply Nat.le_lt_trans; [exact Hle|exact Hfuel]]. set_solver. }
  apply Hrepair. intros err res c1 Hw1 Hs1 Hres Herr. destruct err as [e|].
  { apply wp_seq_run, wp_cancelled; [apply Hw1|]. intros b c2 _ _ _. apply wp_mret. intros Hsm. by specialize (Herr Hsm). }
  destruct (went_within _ _ _ Hw1 (ready_good _ Hc)) as (_ & _ & _ & Ho1).
  apply wp_seq_run, wp_begin; [apply Hw1|done| |lia|].
  { intros Hp. unfold running, same_status in *. rewrite Hs1. by apply Hrun. }
  intros err x c2 Hw2 Hx Herr2 Hrun2. destruct err as [e|]; [apply wp_mret; intros Hsm; by specialize (Herr2 Hsm)|].
  destruct (went_within _ _ _ Hw2 (ready_good _ (went_ready _ _ _ Hw1))) as [_ Ho2].
  apply wp_seq_run, wp_publish. pose proof (went_ready _ _ _ Hw2) as Hr2.
  apply wp_pages; [by destruct Hr2; split|done|by intros Hp; apply Hrun2| |].
  - eapply Nat.le_lt_trans; [apply above_le|eapply Nat.le_lt_trans; [exact Hle|exact Hfuel]]. cbn [cxShared]. set_solver.
  - intros _ id (r & Hr & <- & _)%elem_of_pend. pose proof (good_ids _ (ready_good _ Hr2) r Hr) as Hne.
    destruct (orID r); [done|reflexivity].
Qed.
End ends.

Section results.
Context `{GoEncodings} `{GoColumns} `{GoCrypto} `{GoUnicode}.
Context (ddl : option string) (rp : Reprojector).

(** C26. A re-projection run ends: [Run] returns after at most one round per
    stored row in each of its loops, unless it is killed, however other writers
    and failing calls interfere, as long as the upgrade status is not in progress
    when it starts and nobody else writes that status (a run that reports no
    progress needs the second only), and the writers leave no row with a ref for
    its text.  A status in progress holds it for ever: [busy_waits]. *)
Theorem reprojection_ends fuel c :
  Forall polite_turn (cxTurns c) → Forall quiet_status (cxTurns c) → good (shDB (cxShared c)) →
  (rpProgress rp = true → in_progress (shStatus (cxShared c)) = false) →
  (length (odRows (shDB (cxShared c))) < fuel)%nat →
  (∃ r, (Run ddl rp fuel c).1 = Ok r) ∨ (Run ddl rp fuel c).1 = Err Killed.
Proof.
  intros Hp Hq Hg Hrun Hfuel. pose proof (wp_Run ddl rp false fuel c ltac:(by split) Hrun Hfuel) as Hwp. unfold wp in Hwp.
  destruct (Run ddl rp fuel c) as [[r|[]] c']; [left; by exists r|by right|done].
Qed.

(** C25. A run that no failing call, cancellation or crash cuts off, that starts
    with the upgrade status not in progress and alone writes it, brings the whole
    index to the current projection, whatever the writers do meanwhile that leave
    no row with a ref for its text: it fails on no object, leaves none stale,
    stamps a signature that verifies, puts the upgrade status back to idle, and
    its last event says it completed. *)
Theorem reprojection_completes fuel c :
  Forall polite_turn (cxTurns c) → Forall quiet_status (cxTurns c) → Forall smooth_turn (cxTurns c) → cxCancelled c = false →
  good (shDB (cxShared c)) → (rpProgress rp = true → in_progress (shStatus (cxShared c)) = false) →
  is_Some ddl → (length (odRows (shDB (cxShared c))) < fuel)%nat →
  ∃ res c', Run ddl rp fuel c = (Ok (res, None), c') ∧ rsFailed res = 0%Z ∧
    verifies ddl (cxShared c') = true ∧ indexed_now (shDB (cxShared c')) ∧
    obj_CountStaleProjections (shDB (cxShared c')) = 0%Z ∧
    (rpProgress rp = true → shStatus (cxShared c') = idleStatus) ∧
    last (cxEvents c') = Some (ReprojectionCompleted, res).
Proof.
  intros Hp Hq Hs Hcan Hg Hrun Hddl Hfuel. pose proof (wp_Run ddl rp true fuel c ltac:(by split) Hrun Hfuel) as Hwp. unfold wp in Hwp.
  destruct (Run ddl rp fuel c) as [[[res e]|[]] c']; [|done..].
  destruct (Hwp eq_refl Hddl) as [He Hf Hv Hi Hn Hidle Hev]. cbn in *. subst e. exists res, c'. done.
Qed.
End results.

(** ** Scheduling *)
Section scheduling.
Context `{GoEncodings}.

Definition live (status : string) : JobRow → bool := jobs_where (mkJobFilter status ReprojectJobType 1 0).

Lemma live_job_none t status : List.filter (live status) t = [] → live_job t status = Ok None.
Proof. unfold live_job, List_, live. intros Hf. cbn [jfLimit jfOffset]. by rewrite Hf. Qed.
Lemma live_job_empty t status : live_job t status = Ok None → List.filter (live status) t = [].
Proof.
  unfold live_job, List_, live. cbn [jfLimit jfOffset]. intros Hj.
  destruct (List.filter _ t) as [|r l] eqn:Hf; [done|]. exfalso. revert Hj.
  assert (Hn : SliceStable (λ a b, str_ltb (jCreatedAt (rJob b)) (jCreatedAt (rJob a))) (r :: l) ≠ []).
  { intros He. pose proof (SliceStable_perm (λ a b, str_ltb (jCreatedAt (rJob b)) (jCreatedAt (rJob a))) (r :: l)) as Hp.
    rewrite He in Hp. by apply Permutation_nil_cons in Hp. }
  destruct (SliceStable _ _); [done|]. done.
Qed.

(** Scheduling twice leaves one job: a second start finds the job the first one
    made, or found, and adds none. *)
Theorem ScheduleReprojection_once t v now id t' j now2 id2 :
  ScheduleReprojection t (Some v) now id = Ok (t', Some j) →
  ∃ j', ScheduleReprojection t' (Some v) now2 id2 = Ok (t', Some j') ∧ jID j' = jID j.
Proof.
  unfold ScheduleReprojection. destruct (_ || _); [done|].
  destruct (live_job t JobRunning) as [[r|]|] eqn:Hr; cbn [mbind result_bind]; [| |done].
  { intros [= <- <-]. rewrite Hr. cbn [mbind result_bind]. eauto. }
  destruct (live_job t JobPending) as [[q|]|] eqn:Hp; cbn [mbind result_bind]; [| |done].
  { intros [= <- <-]. rewrite Hr. cbn [mbind result_bind]. rewrite Hp. cbn [mbind result_bind]. eauto. }
  apply live_job_empty in Hr, Hp. unfold EnqueueTask, Create. cbn [str_eqb].
  destruct (existsb _ t); [done|]. intros [= <- <-].
  rewrite (live_job_none _ JobRunning) by (by rewrite List.filter_app, Hr).
  cbn [mbind result_bind]. unfold live_job, List_. cbn [jfLimit jfOffset].
  change (jobs_where _) with (live JobPending).
  rewrite List.filter_app, Hp. cbn. eauto.
Qed.
End scheduling.

(** ** A concrete run *)
#[local] Instance plain_columns : GoColumns := {|
  json_map := Some; json_sections := Some; json_graph := Some; json_text := λ s, s;
  uri_Parse := Some; uri_String := λ s n i, (s +:+ "://" +:+ n +:+ "/" +:+ i)%string |}.
#[local] Instance decimal_times : GoEncodings := {|
  Format := λ t, pretty t; ParseTime := λ _, 0%Z; MarshalStrings := λ _, nostr; UnmarshalStrings := λ _, None |}.
#[local] Instance ascii_unicode : GoUnicode := {| uc_to_lower := λ s, s; uc_is_letter := λ _, false; uc_is_digit := λ _, false |}.
#[local] Instance id_crypto : GoCrypto := {| SHA256 s := s |}.

Definition memo (id hash raw text : string) : KnowledgeObject :=
  mkKO id "note" nostr raw text nostr ∅ [] [] [] [] [] [] nostr nostr [] hash nostr nostr nostr
    1 None None None 0 0 false nostr [] [] None.
Definition created (db : ObjDB) (o : KnowledgeObject) : ObjDB :=
  match obj_Create db o with Ok (_, db) => db | Err _ => db end.

(** One object whose text is still the ref of its content, and the content's blob. *)
Definition ref_db : ObjDB :=
  match obj_Update (created emptyDB (memo "n-1" "h1" "first" "first")) (memo "n-1" "h1" "blob://k" "blob://k") with
  | Ok (_, db) => db
  | Err _ => emptyDB
  end.
Definition ref_world : Shared :=
  mkShared (mkWorld ref_db [] {[ "k"%string := mkBlob "hello world" (mkBlobMeta nostr 11 "k") None ]} ∅ 0)
    {[ FTSSignatureID := "an older signature"%string ]} idleStatus.
Definition plain_reprojector : Reprojector := mkReprojector true true 5 true 1.

(** Another writer adds an object before each of the first calls. *)
Definition writes (o : KnowledgeObject) (s : Shared) : Shared := with_db s (created (shDB s) o).
Definition busy_turns : list (Turn Shared) :=
  [mkTurn (writes (memo "n-0" "h0" "before" "before")) false false Runs;
   mkTurn id false false Runs;
   mkTurn (writes (memo "n-2" "h2" "after" "after")) false false Runs].
Definition ref_ctx (turns : list (Turn Shared)) : ReprojectCtx := mkRunCtx ref_world false turns [].

Lemma ref_db_good : good ref_db.
Proof.
  assert (Hrows : ∃ r, odRows ref_db = [r] ∧ orID r = "n-1"%string ∧ projected r).
  { eexists. split; [vm_compute; reflexivity|]. split; [reflexivity|]. split; vm_compute; reflexivity. }
  destruct Hrows as (r & Hr & Hid & Hp). constructor.
  - set (db1 := created emptyDB (memo "n-1" "h1" "first" "first")).
    assert (H1' : obj_wf db1).
    { eapply obj_step_wf; [apply emptyDB_wf|]. eapply (step_Create _ (memo "n-1" "h1" "first" "first")). vm_compute. reflexivity. }
    eapply obj_step_wf; [exact H1'|]. eapply (step_Update _ (memo "n-1" "h1" "blob://k" "blob://k")). vm_compute. reflexivity.
  - rewrite Hr. by intros q ->%list_elem_of_singleton _.
  - rewrite Hr. intros q ->%list_elem_of_singleton. by rewrite Hid.
Qed.

Lemma writes_polite o : koID o ≠ nostr → reads_back (obj_defaults o) →
  polite_turn (mkTurn (writes o) false false Runs).
Proof.
  intros Hid Hr s. split; [|done]. cbn. unfold created. destruct (obj_Create (shDB s) o) as [[o' db]|e] eqn:Hc; [|apply star_refl].
  eapply star_step; [by eapply polite_Create|apply star_refl].
Qed.

Lemma busy_turns_polite : Forall polite_turn busy_turns.
Proof.
  apply Forall_cons_2; [|apply Forall_cons_2; [|apply Forall_cons_2; [|apply Forall_nil_2]]].
  - apply writes_polite; [done|split; vm_compute; reflexivity].
  - intros s. split; [apply star_refl|done].
  - apply writes_polite; [done|split; vm_compute; reflexivity].
Qed.

Definition ref_run := Run (Some "create fts"%string) plain_reprojector 4 (ref_ctx busy_turns).

Lemma stamped_index_current_witness :
  verifies (Some "create fts"%string) ref_world = false ∧ verifies (Some "create fts"%string) (cxShared ref_run.2) = true ∧
  indexed_now (shDB (cxShared ref_run.2)) ∧ odFts (shDB (cxShared ref_run.2)) !! "n-1"%string = Some "hello"%string.
Proof.
  split; [vm_compute; reflexivity|]. split; [vm_compute; reflexivity|]. split; [|vm_compute; reflexivity].
  apply (stamped_index_current (Some "create fts"%string) plain_reprojector 4 (ref_ctx busy_turns) ref_run.1 ref_run.2).
  - exact busy_turns_polite.
  - exact ref_db_good.
  - intros Hx. vm_compute in Hx. discriminate Hx.
  - unfold ref_run. apply surjective_pairing.
  - vm_compute; reflexivity.
  - apply star_refl.
Defined.

Lemma reprojection_ends_witness :
  (∃ r, ref_run.1 = Ok r) ∨ ref_run.1 = Err Killed.
Proof.
  unfold ref_run. apply (reprojection_ends (Some "create fts"%string) plain_reprojector 4 (ref_ctx busy_turns)).
  - exact busy_turns_polite.
  - by repeat constructor.
  - exact ref_db_good.
  - intros _. reflexivity.
  - vm_compute. lia.
Defined.

Lemma reprojection_completes_witness :
  ∃ res c', ref_run = (Ok (res, None), c') ∧ rsFailed res = 0%Z ∧ indexed_now (shDB (cxShared c')).
Proof.
  unfold ref_run. destruct (reprojection_completes (Some "create fts"%string) plain_reprojector 4 (ref_ctx busy_turns))
    as (res & c' & Hr & Hf & _ & Hi & _).
  - exact busy_turns_polite.
  - by repeat constructor.
  - by repeat constructor.
  - reflexivity.
  - exact ref_db_good.
  - intros _. reflexivity.
  - by eexists.
  - vm_compute. lia.
  - exists res, c'. exact (conj Hr (conj Hf Hi)).
Defined.

(** ** Two ways a run leaves things that no later run mends *)

(** The run's own status write fails while it reports progress. *)
Definition stale_world : Shared := with_db ref_world (obj_ReplaceRefText ref_db "n-1" "blob://k" "hello" true).2.
Definition quiet_turn : Turn Shared := mkTurn id false false Runs.
Definition shadow_fails : list (Turn Shared) := repeat quiet_turn 6 ++ [mkTurn id false false Refused].
Definition no_ref_text : Reprojector := mkReprojector false false 0 true 1.

(** A busy status holds a run in its first loop for ever. *)
Lemma busy_waits ddl rp fuel c :
  cxTurns c = [] → cxCancelled c = false → rpRefText rp = false → rpProgress rp = true →
  in_progress (shStatus (cxShared c)) = true → (Run ddl rp fuel c).1 = Err OutOfFuel.
Proof.
  intros Ht Hc Hr Hp Hrun.
  assert (Hbegin : ∀ x, (begin_run rp fuel x c).1 = Err OutOfFuel).
  { induction fuel as [|fuel IH]; intros x; [done|]. cbn [begin_run].
    destruct c as [[w sigs st] can turns evs]. cbn [cxTurns cxCancelled cxShared shStatus] in *. subst turns can.
    unfold count_stale, db_call, status_call, ctx_Err, ask, on_shared, mbind, run_bind, st_bind, turn, on_ctx, StartTarget.
    cbn -[in_progress begin_run]. rewrite Hp. cbn -[in_progress begin_run]. rewrite Hrun. cbn -[in_progress begin_run]. apply IH. }
  unfold Run, repairRefText. rewrite Hr. unfold mbind, run_bind, st_bind, mret, run_ret, st_ret.
  specialize (Hbegin (mkRun newResult None)). destruct (begin_run rp fuel _ c) as [[a|e] c']; [done|]. cbn in *. by injection Hbegin as ->.
Qed.

(** A run that cannot write its status's shadow file stops without failing the
    status, which stays in progress; so every later run, the job's retries among
    them, waits in [begin] for a run that is over. *)
Example status_wedged :
  let c := (Run (Some "create fts"%string) no_ref_text 3 (mkRunCtx stale_world false shadow_fails [])).2 in
  (∃ res, (Run (Some "create fts"%string) no_ref_text 3 (mkRunCtx stale_world false shadow_fails [])).1 =
     Ok (res, Some (StatusFailed PersistFailed))) ∧
  ∀ fuel, (Run (Some "create fts"%string) no_ref_text fuel (mkRunCtx (cxShared c) false [] [])).1 = Err OutOfFuel.
Proof.
  cbv zeta. split; [eexists; vm_compute; reflexivity|]. intros fuel. apply busy_waits; [done..|]. vm_compute. reflexivity.
Qed.

(** A job that is run again once its signature is stamped (a retry after a failure
    to put the status back, or a retry from the API) and is killed just after it
    gave a text back leaves a stale row under a signature that verifies, so that
    no later start schedules it. *)
Example stale_under_stamp :
  let stamped := with_sigs ref_world (default ∅ (StampFTS (Some "create fts"%string) ∅)) in
  let r := Run (Some "create fts"%string) plain_reprojector 3
             (mkRunCtx stamped false (repeat quiet_turn 4 ++ [mkTurn id false true Runs]) []) in
  r.1 = Err Killed ∧ verifies (Some "create fts"%string) (cxShared r.2) = true ∧
  obj_CountStaleProjections (shDB (cxShared r.2)) = 1%Z.
Proof. cbv zeta. split_and!; vm_compute; reflexivity. Qed.
