(* ===== verification/Ingest.v ===== *)
(** * Ingest: a worker's run of a queued job

    Models the ingest side of [WorkerPool] ([internal/jobs/worker.go]): the job's
    draft, the pipeline and its hops, deduplication, the writes of the object, its
    blobs and its mention edges, the job's settlement and the jobs of staged
    items; with the mention edges of [internal/storage/mention_edges.go] and
    [mention_provenance.go].

    A run is one of file Turns over the stores and the jobs table.  A step of a
    pipeline is any run of that kind; vectors, durations and log lines are left
    out: the vector store's call is a moment of the run without an effect on the
    stores modelled here. *)

From S2P Require Import Prelude GoStrings Objects Classes Contact Projection JobStore JobQueue ObjectDB EdgeDB Encodings Blobs Turns Pipelines.

(** ** mention_edges.go, mention_provenance.go *)
Definition EdgeTypeMentions : string := "mentions".
Definition EdgeTypeMentionedIn : string := "mentioned_in".
Definition EdgeObject : string := "object".
Definition EdgeEntity : string := "entity".
Definition MentionSourceMentions : string := "mentions".

Definition MentionNode (g : option ObjectGraph) (mention : string) : option GraphNode :=
  g ← g; List.find (λ n, str_eqb (gnNodeType n) NodeTypeEntityMention && str_eqb (gnLabel n) mention) (ogNodes g).

(** The node and the field. *)
Definition MentionProvenance (g : option ObjectGraph) (mention : string) : string * string :=
  match MentionNode g mention with
  | None => (nostr, MentionSourceMentions)
  | Some n =>
      let field := default nostr (gnMetadata n !! "source_field"%string ≫= any_string) in
      (gnID n, if str_eqb field nostr then MentionSourceMentions else field)
  end.

Section mention_edges.
(** The JSON of an object of strings, in the order of its keys; the ids of new
    edges. *)
Context (json_object : list (string * string) → string) (fresh : nat → string).

Definition provenance_text (g : option ObjectGraph) (mention : string) : string :=
  let '(node, field) := MentionProvenance g mention in json_object [("source_field"%string, field); ("source_node"%string, node)].

Fixpoint edges_from (obj : KnowledgeObject) (reverse : bool) (now : Z) (n : nat) (seen targets : list string) : list EdgeRow :=
  match targets with
  | [] => []
  | target :: targets =>
      if contains seen target then edges_from obj reverse now n seen targets
      else
        let meta := provenance_text (koGraph obj) target in
        mkEdgeRow (fresh n) EdgeObject (koID obj) EdgeEntity target EdgeTypeMentions "1" meta now ::
        (if reverse
         then [mkEdgeRow (fresh (S n)) EdgeEntity target EdgeObject (koID obj) EdgeTypeMentionedIn "1" meta now] else []) ++
        edges_from obj reverse now (if reverse then S (S n) else S n) (target :: seen) targets
  end.

(** A mention is carried by its URI's text, its [MentionTarget]. *)
Definition MentionEdges (obj : KnowledgeObject) (targets : list string) (reverse : bool) (now : Z) : list EdgeRow :=
  if str_eqb (koID obj) nostr then [] else edges_from obj reverse now 0 [] targets.
End mention_edges.

(** ** The world of a run *)
Record IngestWorld : Type := mkIngest { inWorld : World; inJobs : list JobRow }.
Definition with_world (s : IngestWorld) (w : World) : IngestWorld := mkIngest w (inJobs s).
Definition with_jobs (s : IngestWorld) (t : list JobRow) : IngestWorld := mkIngest (inWorld s) t.
Definition put_edges (w : World) (t : list EdgeRow) : World := mkWorld (wObjects w) t (wBlobs w) (wSource w) (wNow w).

(** A draft: the object, the contents its externalized blobs hold, and whether it
    has vectors. *)
Record Draft : Type := mkDraft { dfObj : KnowledgeObject; dfBlobs : BlobContent; dfVectors : bool }.
Definition with_draft (d : Draft) (o : KnowledgeObject) : Draft := mkDraft o (dfBlobs d) (dfVectors d).

Inductive IngestFault : Type :=
| NoAnswer
| ObjRefused (e : ObjError)
| BlobsRefused (e : Fault)
| EdgesRefused (e : EdgeError)
| CtxDone.

Inductive WorkError : Type :=
| NoPipeline (name : string)
| StepFailed (step : string) (permanent : bool) (text : string).
Definition IsPermanent (e : WorkError) : bool := match e with StepFailed _ p _ => p | NoPipeline _ => false end.

(** Why a job fails. *)
Inductive FailureReason : Type :=
| WorkFailed (e : WorkError)
| ReinforceFailed (e : IngestFault)
| RaceFailed (e : IngestFault)
| StoreFailed (e : IngestFault)
| MentionsFailed (e : IngestFault).

Inductive IngestEvent : Type :=
| ObjectIngested (id type pipeline : string) (tags : list string)
| JobDone (id : string)
| JobFailedWith (id : string) (reason : FailureReason) (object : string)
| JobEnqueued (job : Job).

Abbreviation IngestM := (RunM IngestWorld IngestEvent).
Abbreviation IngestCtx := (RunCtx IngestWorld IngestEvent).

Inductive StepResult : Type :=
| Stepped (d : Draft)
| StepDelegates (d : Draft)
| StepFails (permanent : bool) (text : string).
Definition Step : Type := Draft → IngestM StepResult.
Abbreviation Pipeline := (list (PipelineStep Step)).

Definition clock : IngestM Z := on_shared (λ s, (wNow (inWorld s), s)).

(** ** Blob programs, a call at a time *)
Section calls.
Context `{GoEncodings} `{GoColumns} `{GoUnicode}.

(** The reply to a call that fails. *)
Definition lost_reply (c : Call) (w : World) : reply c :=
  let down := CallFailed nostr in
  match c return reply c with
  | Obj_Get _ => Err down | Obj_Create _ => Err down | Obj_Update _ => Err down | Obj_Delete _ => Err down
  | Edges_DeleteByObject _ => Err down | Obj_CountBlobRefs _ => Err down | Blobs_Get _ => Err down
  | Blobs_Put _ _ _ => Err down | Blobs_Delete _ => Err down | Blobs_Exists _ => Err down | Blobs_List _ => Err down
  | Source_Get _ => Err down
  | Time_Now => wNow w
  end.
Definition play_call (fate : Fate) (c : Call) (s : IngestWorld) : reply c * IngestWorld :=
  match fate with
  | Runs => let '(r, w) := exec c (inWorld s) in (r, with_world s w)
  | Refused => (lost_reply c (inWorld s), s)
  | Lost => (lost_reply c (inWorld s), with_world s (exec c (inWorld s)).2)
  end.
Fixpoint run_calls {A} (p : Prog A) : IngestM A :=
  match p with
  | Ret a => mret a
  | Vis c k => fate ← turn; r ← on_shared (play_call fate c); run_calls (k r)
  end.
End calls.

(** ** The worker pool *)

(** [bus]: whether it publishes. *)
Record WorkerPool : Type := mkPool { wpMaxHops : Z; wpMaxRetries : Z; wpBlobs : bool; wpBus : bool }.

(** The ids a run mints. *)
Record Fresh : Type := mkFresh { frDraft : string; frEdge : nat → string; frItem : nat → string }.

(** *** Drafts *)
Definition parseUserHints (raw : list string) : list Tag :=
  omap (λ h, let label := TrimSpace h in if str_eqb label nostr then None else Some (mkTag label "1" "user")) raw.

Definition set_meta (o : KnowledgeObject) (m : gmap string Any) : KnowledgeObject :=
  with_content o (koRawContent o) (koTextContent o) m.

Section draft.
Context `{GoColumns}.

Definition newDraft (job : Job) (id : string) (now : Z) : Draft :=
  mkDraft (mkKO id nostr nostr (jPayload job) nostr nostr ∅ [] [] (parseUserHints (jUserHints job))
             (ParseSlice (jUserMentions job)) [] [] (jPipeline job) (jSource job) [] nostr nostr nostr (jUserNote job)
             0 None None None now 0 false (jUserProfile job) [] [] None) ∅ false.
End draft.

(** [UpdatedAt] and [ContentHash] once the pipeline is done. *)
Definition hashed `{GoUnicode} `{GoCrypto} (o : KnowledgeObject) (now : Z) : KnowledgeObject :=
  mkKO (koID o) (koType o) (koSubtype o) (koRawContent o) (koTextContent o) (koContentType o) (koMetadata o) (koSummaries o)
    (koSections o) (koTags o) (koMentions o) (koDecisions o) (koTasks o) (koPipeline o) (koSource o) (koRegistryInfluences o)
    (ContentHash (koRawContent o) (koSource o)) (koSourceKey o) (koStatus o) (koInboxNote o) (koReinforcementCount o)
    (koLastReinforcedAt o) (koRemindAt o) (koRemindedAt o) (koCreatedAt o) now (koFTSIndexed o) (koProfileID o) (koClasses o)
    (koAttachmentIDs o) (koGraph o).
Definition counted_once (o : KnowledgeObject) : KnowledgeObject :=
  edit o (koRawContent o) (koTextContent o) (koTags o) (koMentions o) (koStatus o) 1 (koLastReinforcedAt o) (koRemindAt o)
    (koRemindedAt o) (koCreatedAt o) (koUpdatedAt o) (koFTSIndexed o) (koAttachmentIDs o).

(** The existing object the draft is dropped for. *)
Definition suppressedDuplicate (o : KnowledgeObject) : option string :=
  match koMetadata o !! "suppress_output"%string, koMetadata o !! "duplicate_of"%string with
  | Some (ABool true), Some (AStr id) => if str_eqb id nostr then None else Some id
  | _, _ => None
  end.

(** *** Staged items *)
Definition item_field (item : list (string * Any)) (k : string) : string :=
  default nostr (List.find (λ kv, str_eqb kv.1 k) item ≫= (λ kv, any_string kv.2)).

(** The job of an item that has content. *)
Definition itemJob (maxRetries : Z) (id : string) (now : Z) (item : list (string * Any)) : option Job :=
  let content := item_field item "content" in
  let content := if str_eqb content nostr then item_field item "link" else content in
  if str_eqb content nostr then None
  else
    let pipeline := item_field item "pipeline" in
    Some (mkJob id "ingest:feed_item" JobPending content (if str_eqb pipeline nostr then "feed.ingest" else pipeline)
            (item_field item "source") nostr nostr 0 maxRetries now now None None [] [] nostr nostr nostr).

Section worker.
Context `{GoEncodings} `{GoColumns} `{GoUnicode} `{GoCrypto}.
Context (json_object : list (string * string) → string) (reason_text : FailureReason → string).
Context (pool : WorkerPool) (pipelines : gmap string Pipeline) (validatePipeline : option (string → bool)).
(** The callback after an ingest, if one is set; its error is logged. *)
Context (fanOut : option (string → IngestM unit)).
Context (fresh : Fresh).

Definition emit_event (e : IngestEvent) : IngestM unit := if wpBus pool then publish e else mret tt.

(** *** Settling the job *)
Definition settle (f : Z → list JobRow → list JobRow) : IngestM unit :=
  _ ← ask (λ s, (tt, with_jobs s (f (wNow (inWorld s)) (inJobs s)))); mret tt.

Definition complete_job (id res : string) : IngestM unit :=
  _ ← settle (λ now t, markCompleted t now id res); emit_event (JobDone id).
Definition fail_job (id : string) (reason : FailureReason) (object : string) : IngestM unit :=
  _ ← settle (λ now t, markFailed t now id (reason_text reason)); emit_event (JobFailedWith id reason object).

(** [Queue.Retry]: a read, then the update. *)
Definition queue_retry (id : string) : IngestM bool :=
  j ← ask (λ s, (Get (inJobs s) id, s));
  match j with
  | Some (Ok j) =>
      if (jMaxRetries j <=? jRetryCount j)%Z then mret false
      else
        r ← ask (λ s, match Retry (inJobs s) (wNow (inWorld s)) id with
                      | Ok t => (true, with_jobs s t)
                      | Err _ => (false, s)
                      end);
        mret (default false r)
  | _ => mret false
  end.
Definition retry_or_fail (id : string) (reason : FailureReason) (object : string) : IngestM unit :=
  retried ← queue_retry id;
  if retried : bool then mret tt else fail_job id reason object.

(** *** The pipeline *)
Fixpoint runSteps (steps : Pipeline) (d : Draft) : IngestM (result WorkError Draft) :=
  match steps with
  | [] => mret (Ok d)
  | step :: steps =>
      r ← psRun step d;
      match r with
      | Stepped d => runSteps steps d
      | StepDelegates d => runSteps steps d
      | StepFails permanent text => mret (Err (StepFailed (psName step) permanent text))
      end
  end.

Definition next_pipeline (d : Draft) : option string :=
  name ← koMetadata (dfObj d) !! "next_pipeline"%string ≫= any_string;
  if str_eqb name nostr then None else Some name.

Fixpoint hops (n : nat) (d : Draft) : IngestM (result WorkError Draft) :=
  match n with
  | O => mret (Ok d)
  | S n =>
      match next_pipeline d with
      | None => mret (Ok d)
      | Some next =>
          let d := with_draft d (set_meta (dfObj d) (delete "next_pipeline"%string (koMetadata (dfObj d)))) in
          match pipe_Get pipelines next with
          | None => mret (Ok d)
          | Some pipe =>
              r ← runSteps pipe d;
              match r with Ok d => hops n d | Err e => mret (Err e) end
          end
      end
  end.

Definition processWithHops (job : Job) : IngestM (result WorkError Draft) :=
  match pipe_Get pipelines (jPipeline job) with
  | None => mret (Err (NoPipeline (jPipeline job)))
  | Some pipe =>
      now ← clock;
      r ← runSteps pipe (newDraft job (frDraft fresh) now);
      match r with
      | Ok d => hops (Z.to_nat (wpMaxHops pool - 1)) d
      | Err e => mret (Err e)
      end
  end.

(** *** The object *)
Definition obj_call {A} (f : ObjDB → Z → result ObjError (A * ObjDB)) : IngestM (result IngestFault A) :=
  a ← ask (λ s, match f (wObjects (inWorld s)) (wNow (inWorld s)) with
                | Ok (a, db) => (Ok a, with_world s (set_objects (inWorld s) db))
                | Err e => (Err (ObjRefused e), s)
                end);
  mret (default (Err NoAnswer) a).

Definition reinforce (o : KnowledgeObject) : IngestM (result IngestFault string) :=
  obj_call (λ db now, obj_Reinforce db (koContentHash o) o now).

(** [n] attempts are left after this one; the wait ends with the timer or with the
    context. *)
Fixpoint reinforceAfterRace (n : nat) (o : KnowledgeObject) : IngestM (result IngestFault string) :=
  r ← reinforce o;
  match r, n with
  | Err (ObjRefused ReinforceNoRow), S n =>
      done ← ctx_Err;
      if done : bool then mret (Err CtxDone) else reinforceAfterRace n o
  | _, _ => mret r
  end.

Definition putVectors (d : Draft) : IngestM unit :=
  if dfVectors d then (_ ← ask (λ s : IngestWorld, (tt, s)); mret tt) else mret tt.

(** *** The jobs of staged items *)
Fixpoint enqueue_items (n : nat) (now : Z) (items : list (list (string * Any))) : IngestM unit :=
  match items with
  | [] => mret tt
  | item :: items =>
      match itemJob (wpMaxRetries pool) (frItem fresh n) now item with
      | None => enqueue_items (S n) now items
      | Some job =>
          r ← ask (λ s, match Enqueue validatePipeline (inJobs s) job with
                        | Ok t => (true, with_jobs s t)
                        | Err _ => (false, s)
                        end);
          _ ← (if default false r then emit_event (JobEnqueued job) else mret tt);
          enqueue_items (S n) now items
      end
  end.
Definition fanOutItems (o : KnowledgeObject) : IngestM unit :=
  match koMetadata o !! "items_to_enqueue"%string with
  | Some (AMaps items) => now ← clock; enqueue_items 0 (now / Second * Second)%Z items
  | _ => mret tt
  end.

(** *** [process] *)

(** After the row is written. *)
Definition finish_ingest (job : Job) (d : Draft) : IngestM unit :=
  let o := dfObj d in
  ensured ← run_calls (Ensure (wpBlobs pool) o (dfBlobs d));
  match ensured with
  | Err e => retry_or_fail (jID job) (StoreFailed (BlobsRefused e)) (koID o)
  | Ok _ =>
      _ ← putVectors d;
      now ← clock;
      let edges := MentionEdges json_object (frEdge fresh) o (koMentions o) false now in
      wrote ← ask (λ s, match edge_CreateMissing (wEdges (inWorld s)) edges with
                        | Ok (_, t) => (Ok tt, with_world s (put_edges (inWorld s) t))
                        | Err e => (Err (EdgesRefused e), s)
                        end);
      match default (Err NoAnswer) wrote with
      | Err e => fail_job (jID job) (MentionsFailed e) (koID o)
      | Ok _ =>
          _ ← emit_event (ObjectIngested (koID o) (koType o) (koPipeline o) (map tagLabel (koTags o)));
          _ ← complete_job (jID job) (koID o);
          _ ← (match fanOut with
               | Some f => if HasSuffix (jType job) ":nofanout" then mret tt else f (koID o)
               | None => mret tt
               end);
          fanOutItems o
      end
  end.

(** The object exists: one more reinforcement of it. *)
Definition settle_existing (job : Job) (d : Draft) (id : string) : IngestM unit :=
  _ ← putVectors d; complete_job (jID job) id.

Definition store_new (job : Job) (d : Draft) : IngestM unit :=
  let o := counted_once (dfObj d) in
  created ← obj_call (λ db _, obj_Create db o);
  match created with
  | Ok o => finish_ingest job (with_draft d o)
  | Err (ObjRefused ObjAlreadyExists) =>
      r ← reinforceAfterRace 2 (obj_defaults o);
      match r with
      | Ok id => settle_existing job d id
      | Err e => fail_job (jID job) (RaceFailed e) (koID o)
      end
  | Err e => fail_job (jID job) (StoreFailed e) (koID o)
  end.

(** A lookup that fails finds nothing. *)
Definition store_draft_of (job : Job) (d : Draft) : IngestM unit :=
  existing ← ask (λ s, (obj_GetByContentHash (wObjects (inWorld s)) (koContentHash (dfObj d)) (koProfileID (dfObj d)), s));
  match mjoin existing with
  | Some _ =>
      r ← reinforce (dfObj d);
      match r with
      | Ok id => settle_existing job d id
      | Err e => retry_or_fail (jID job) (ReinforceFailed e) nostr
      end
  | None =>
      match suppressedDuplicate (dfObj d) with
      | Some dup => complete_job (jID job) dup
      | None => store_new job d
      end
  end.

Definition process (job : Job) : IngestM unit :=
  r ← processWithHops job;
  match r with
  | Err e => if IsPermanent e then fail_job (jID job) (WorkFailed e) nostr else retry_or_fail (jID job) (WorkFailed e) nostr
  | Ok d =>
      now ← clock;
      store_draft_of job (with_draft d (hashed (dfObj d) now))
  end.
End worker.

(** The externalize step as a step of a pipeline. *)
Definition externalize_step `{GoEncodings} `{GoColumns} `{GoUnicode} `{GoCrypto} (threshold : Z) : Step := λ d,
  r ← run_calls (Externalize threshold (dfObj d) (dfBlobs d));
  mret match r with
       | Ok (o, blobs) => Stepped (mkDraft o blobs (dfVectors d))
       | Err _ => StepFails false "externalize: blob put"
       end.
