(* ===== verification/IngestSafety.v ===== *)
(** * Ingest: what a run leaves

    A run of [process] (file Ingest) meets other writers between any two of its
    calls, calls that fail with or without their effect, cancellation and death.
    [completed_is_stored]: a job that reads completed names a stored object with
    the content's hash in the draft's profile, linked to what it mentions and
    with its blobs, or the object its draft was dropped for.  [ingest_settles]: a
    run nothing goes wrong with settles its job.  [mention_edges_spec]: the
    edges of an object's mentions, each pair once, with their provenance. *)

From S2P Require Import Prelude GoStrings Objects Classes Contact Projection JobStore JobQueue ObjectDB ObjectSafety EdgeDB Encodings Blobs Turns Pipelines Ingest.

(** ** Edges *)
Lemma same_pair_true a b : same_pair a b = true ↔
  erFromType a = erFromType b ∧ erFromID a = erFromID b ∧ erToType a = erToType b ∧ erToID a = erToID b ∧ erEdgeType a = erEdgeType b.
Proof. unfold same_pair. rewrite !andb_true_iff, !str_eqb_true. tauto. Qed.

Lemma missing_edge_spec t e n t' : insertMissingEdge t e = Ok (n, t') →
  (∀ x, x ∈ t → x ∈ t') ∧ ∃ x, x ∈ t' ∧ same_pair e x = true.
Proof.
  unfold insertMissingEdge. destruct (existsb (same_pair e) t) eqn:E.
  - intros [= _ <-]. split; [done|]. apply existsb_exists' in E as (x & Hx & Hs). eauto.
  - unfold edge_Create. destruct (has_edge t (erID e)); [done|]. intros [= _ <-]. split.
    + intros x Hx. apply elem_of_app. by left.
    + exists e. split; [apply elem_of_app; right; by left|]. by apply same_pair_true.
Qed.

Lemma CreateMissing_spec es t n t' : edge_CreateMissing t es = Ok (n, t') →
  (∀ x, x ∈ t → x ∈ t') ∧ ∀ e, e ∈ es → ∃ x, x ∈ t' ∧ same_pair e x = true.
Proof.
  revert t n. induction es as [|e es IH]; intros t n; cbn [edge_CreateMissing].
  { intros [= _ <-]. split; [done|]. by intros e ?%not_elem_of_nil. }
  intros ([n1 t1] & H1 & Hr)%bind_ok_inv. apply bind_ok_inv in Hr as ([n2 t2] & H2 & [= _ <-]). cbn in *.
  destruct (missing_edge_spec _ _ _ _ H1) as [Hk1 (x & Hx & Hs)]. destruct (IH _ _ H2) as [Hk2 Hes]. split; [auto|].
  intros e' [->|He']%elem_of_cons; [exists x; auto|by apply Hes].
Qed.

(** Pairs that are stored already add nothing, whatever the ids of the new rows. *)
Lemma CreateMissing_again es t : (∀ e, e ∈ es → ∃ x, x ∈ t ∧ same_pair e x = true) → edge_CreateMissing t es = Ok (0%Z, t).
Proof.
  induction es as [|e es IH]; intros Hes; [done|]. cbn [edge_CreateMissing]. unfold insertMissingEdge at 1.
  destruct (Hes e ltac:(by left)) as (x & Hx & Hs).
  assert (E : existsb (same_pair e) t = true) by (apply existsb_exists'; eauto). rewrite E. cbn.
  rewrite IH; [done|]. intros e' He'. apply Hes. by right.
Qed.

Lemma not_contains_cons (x y : string) l : contains (x :: l) y = false ↔ y ≠ x ∧ contains l y = false.
Proof. unfold contains. rewrite !bool_decide_eq_false, not_elem_of_cons. done. Qed.

(** ** Mention edges *)
Section mentions.
Context (json_object : list (string * string) → string) (fresh : nat → string).

(** The edge of a mention, in either direction. *)
Definition forward (o : KnowledgeObject) (target : string) (e : EdgeRow) : Prop :=
  erFromType e = EdgeObject ∧ erFromID e = koID o ∧ erToType e = EdgeEntity ∧ erToID e = target ∧ erEdgeType e = EdgeTypeMentions.
Definition backward (o : KnowledgeObject) (target : string) (e : EdgeRow) : Prop :=
  erFromType e = EdgeEntity ∧ erFromID e = target ∧ erToType e = EdgeObject ∧ erToID e = koID o ∧ erEdgeType e = EdgeTypeMentionedIn.
Definition pair_of (e : EdgeRow) : string * string * string * string * string :=
  (erFromType e, erFromID e, erToType e, erToID e, erEdgeType e).

Definition mentions_of (o : KnowledgeObject) (reverse : bool) (target : string) (e : EdgeRow) : Prop :=
  (forward o target e ∨ reverse = true ∧ backward o target e) ∧ erMetadata e = provenance_text json_object (koGraph o) target.

Lemma edges_from_in o reverse now n seen targets e :
  e ∈ edges_from json_object fresh o reverse now n seen targets →
  ∃ t i, t ∈ targets ∧ contains seen t = false ∧ mentions_of o reverse t e ∧ (n <= i)%nat ∧ erID e = fresh i.
Proof.
  revert n seen. induction targets as [|t targets IH]; intros n seen; cbn [edges_from]; [by intros ?%not_elem_of_nil|].
  destruct (contains seen t) eqn:Hc.
  { intros (t' & i & Ht' & ?)%IH. exists t', i. split; [by right|done]. }
  cbv zeta. intros [->|[He|He]%elem_of_app]%elem_of_cons.
  - exists t, n. split_and!; [by left|done| |lia|done]. split; [by left|done].
  - destruct reverse; [|by apply not_elem_of_nil in He]. apply list_elem_of_singleton in He as ->.
    exists t, (S n). split_and!; [by left|done| |lia|done]. split; [by right|done].
  - apply IH in He as (t' & i & Ht' & Hs & Hm & Hi & Hid). exists t', i. split_and!; [by right| |done| |done].
    + by apply not_contains_cons in Hs as [_ ?].
    + destruct reverse; lia.
Qed.

Lemma edges_from_covers o reverse now n seen targets t :
  t ∈ targets → contains seen t = false →
  (∃ e, e ∈ edges_from json_object fresh o reverse now n seen targets ∧ forward o t e) ∧
  (reverse = true → ∃ e, e ∈ edges_from json_object fresh o reverse now n seen targets ∧ backward o t e).
Proof.
  revert n seen. induction targets as [|t' targets IH]; intros n seen Ht Hs; [by apply not_elem_of_nil in Ht|].
  cbn [edges_from]. destruct (decide (t = t')) as [<-|Hne].
  - rewrite Hs. cbv zeta. split.
    + eexists. split; [by left|done].
    + intros ->. eexists. split; [right; by left|done].
  - apply elem_of_cons in Ht as [?|Ht]; [done|]. destruct (contains seen t') eqn:Hc; [by apply IH|].
    destruct (IH (if reverse then S (S n) else S n) (t' :: seen) Ht) as [(e & He & Hf) Hb].
    { by apply not_contains_cons. }
    split; [exists e; split; [|done]|intros Hr; destruct (Hb Hr) as (e' & He' & Hf'); exists e'; split; [|done]];
      (right; apply elem_of_app; by right).
Qed.

Lemma edges_from_pairs o reverse now n seen targets : NoDup (map pair_of (edges_from json_object fresh o reverse now n seen targets)).
Proof.
  revert n seen. induction targets as [|t targets IH]; intros n seen; cbn [edges_from]; [apply NoDup_nil_2|].
  destruct (contains seen t); [by apply IH|]. cbv zeta.
  assert (Hout : ∀ e m, e ∈ edges_from json_object fresh o reverse now m (t :: seen) targets →
    pair_of e ≠ (EdgeObject, koID o, EdgeEntity, t, EdgeTypeMentions) ∧ pair_of e ≠ (EdgeEntity, t, EdgeObject, koID o, EdgeTypeMentionedIn)).
  { intros e m (t' & i & _ & [Hne _]%not_contains_cons & [Hd _] & _)%edges_from_in. unfold pair_of.
    destruct Hd as [(-> & -> & -> & -> & ->)|(_ & -> & -> & -> & -> & ->)]; split; intros [=]; done. }
  cbn [map]. apply NoDup_cons_2.
  - intros (e & He & [Hr|Hr]%elem_of_app)%list_elem_of_fmap.
    + destruct reverse; [|by apply not_elem_of_nil in Hr]. apply list_elem_of_singleton in Hr as ->. discriminate He.
    + by apply Hout in Hr as [[] _].
  - rewrite map_app. apply NoDup_app. split; [|split; [|apply IH]].
    + destruct reverse; [apply NoDup_singleton|apply NoDup_nil_2].
    + intros x Hx (e & -> & He)%list_elem_of_fmap. apply Hout in He as [_ He].
      destruct reverse; [|by apply not_elem_of_nil in Hx]. by apply list_elem_of_singleton in Hx.
Qed.

Lemma edges_from_ids o reverse now n seen targets : (∀ i j, fresh i = fresh j → i = j) →
  NoDup (map erID (edges_from json_object fresh o reverse now n seen targets)).
Proof.
  intros Hf. revert n seen. induction targets as [|t targets IH]; intros n seen; cbn [edges_from]; [apply NoDup_nil_2|].
  destruct (contains seen t); [by apply IH|]. cbv zeta. cbn [map erID].
  assert (Hout : ∀ e m j, (j < m)%nat → e ∈ edges_from json_object fresh o reverse now m (t :: seen) targets → erID e ≠ fresh j).
  { intros e m j Hj (t' & i & _ & _ & _ & Hi & ->)%edges_from_in He. apply Hf in He. lia. }
  destruct reverse; cbn [app map erID].
  - repeat apply NoDup_cons_2; [| |apply IH].
    + intros [He|(e & He & Hin)%list_elem_of_fmap]%elem_of_cons; [apply Hf in He; lia|].
      symmetry in He. revert He. by apply (Hout e (S (S n)) n); [lia|].
    + intros (e & He & Hin)%list_elem_of_fmap. symmetry in He. revert He. by apply (Hout e (S (S n)) (S n)); [lia|].
  - apply NoDup_cons_2; [|apply IH]. intros (e & He & Hin)%list_elem_of_fmap. symmetry in He. revert He. by apply (Hout e (S n) n); [lia|].
Qed.
End mentions.

Lemma MentionProvenance_sound g m : let '(node, field) := MentionProvenance g m in
  field ≠ nostr ∧ (node ≠ nostr → ∃ n, n ∈ from_option ogNodes [] g ∧ gnID n = node ∧ gnNodeType n = NodeTypeEntityMention ∧ gnLabel n = m).
Proof.
  unfold MentionProvenance. destruct (MentionNode g m) as [n|] eqn:Hn; [|by split].
  cbv zeta. split; [by destruct (str_eqb _ _) eqn:E; [|intros E'; rewrite E' in E]|]. intros _. exists n.
  unfold MentionNode in Hn. destruct g as [g|]; [|done]. cbn in Hn. apply List.find_some in Hn as [Hin%list_elem_of_In Hp].
  apply andb_true_iff in Hp as [?%str_eqb_true ?%str_eqb_true]. done.
Qed.

(** C23. The edges of an object's mentions: each mention has its edge, and its inverse
    when both directions are asked for; there are no others; no pair appears
    twice, and no id when the minted ones are distinct; and each carries the
    provenance of its mention, whose node, when it names one, is the graph's node
    for that mention.  Storing them again adds none. *)
Theorem mention_edges_spec json_object fresh o targets reverse now : koID o ≠ nostr →
  let es := MentionEdges json_object fresh o targets reverse now in
  (∀ t, t ∈ targets → (∃ e, e ∈ es ∧ forward o t e) ∧ (reverse = true → ∃ e, e ∈ es ∧ backward o t e)) ∧
  (∀ e, e ∈ es → ∃ t, t ∈ targets ∧ (forward o t e ∨ reverse = true ∧ backward o t e) ∧
     erMetadata e = provenance_text json_object (koGraph o) t) ∧
  (∀ t node field, MentionProvenance (koGraph o) t = (node, field) → node ≠ nostr →
     ∃ n, n ∈ from_option ogNodes [] (koGraph o) ∧ gnID n = node ∧ gnNodeType n = NodeTypeEntityMention ∧ gnLabel n = t) ∧
  NoDup (map pair_of es) ∧
  ((∀ i j, fresh i = fresh j → i = j) → NoDup (map erID es)) ∧
  (∀ table n table' fresh' now', edge_CreateMissing table es = Ok (n, table') →
     edge_CreateMissing table' (MentionEdges json_object fresh' o targets reverse now') = Ok (0%Z, table')).
Proof.
  intros Hid. cbv zeta.
  assert (Hu : ∀ f at_, MentionEdges json_object f o targets reverse at_ = edges_from json_object f o reverse at_ 0 [] targets).
  { intros f at_. unfold MentionEdges. destruct (str_eqb (koID o) nostr) eqn:E; [by apply str_eqb_true in E|done]. }
  rewrite Hu. split_and!.
  - intros t Ht. by apply edges_from_covers.
  - intros e (t & i & Ht & _ & [Hd Hm] & _)%edges_from_in. eauto.
  - intros t node field Hp Hne. pose proof (MentionProvenance_sound (koGraph o) t) as Hs. rewrite Hp in Hs. by apply Hs.
  - apply edges_from_pairs.
  - apply edges_from_ids.
  - intros table n table' fresh' now' [_ Hes]%CreateMissing_spec. rewrite Hu. apply CreateMissing_again.
    intros e (t & i & Ht & _ & [Hd _] & _)%edges_from_in.
    destruct (edges_from_covers json_object fresh o reverse now 0 [] targets t Ht eq_refl) as [(e1 & He1 & Hf1) Hb1].
    destruct Hd as [Hf|[-> Hb]].
    + destruct (Hes e1 He1) as (x & Hx & Hs%same_pair_true). exists x. split; [done|]. apply same_pair_true.
      unfold forward in *. intuition congruence.
    + destruct (Hb1 eq_refl) as (e2 & He2 & Hf2). destruct (Hes e2 He2) as (x & Hx & Hs%same_pair_true). exists x. split; [done|].
      apply same_pair_true. unfold backward in *. intuition congruence.
Qed.

(** ** What others leave alone *)
Definition job_row (id : string) (s : IngestWorld) : option JobRow := List.find (has_id id) (inJobs s).

(** Nothing is deleted, and the object store stays well formed. *)
Record grows (s s' : IngestWorld) : Prop := {
  gr_wf : obj_wf (wObjects (inWorld s)) → obj_wf (wObjects (inWorld s'));
  gr_rows : ∀ k, k ∈ row_keys (wObjects (inWorld s)) → k ∈ row_keys (wObjects (inWorld s'));
  gr_edges : ∀ e, e ∈ wEdges (inWorld s) → e ∈ wEdges (inWorld s');
  gr_blobs : ∀ k, is_Some (wBlobs (inWorld s) !! k) → is_Some (wBlobs (inWorld s') !! k);
}.
(** Nor does anybody else write the row of [job]. *)
Record keeps (job : string) (s s' : IngestWorld) : Prop := {
  ke_grows : grows s s';
  ke_job : ∀ r, job_row job s = Some r → job_row job s' = Some r;
}.
Definition tame (job : string) (t : Turn IngestWorld) : Prop := ∀ s, keeps job s (tnOthers t s).

#[export] Instance grows_preorder : PreOrder grows.
Proof. split; [by intros s; split|]. intros a b c [] []. split; auto. Qed.
#[export] Instance keeps_preorder job : PreOrder (keeps job).
Proof. split; [by intros s; split|]. intros a b c [Hg1 Hj1] [Hg2 Hj2]. split; [by transitivity b|auto]. Qed.

(** A job's row after the statements on it. *)
Lemma find_update id p f t r :
  (∀ x, rID (f x) = rID x) → job_row id t = Some r →
  List.find (has_id id) (update p f (inJobs t)) = Some (if p r then f r else r).
Proof.
  intros Hf. unfold job_row, update. induction (inJobs t) as [|x l IH]; cbn; [done|].
  assert (Hx : has_id id (if p x then f x else x) = has_id id x) by (unfold has_id; by destruct (p x); rewrite ?Hf).
  rewrite Hx. destruct (has_id id x); [by intros [= ->]|exact IH].
Qed.
Lemma affecting_row id e p f t r : p r = true → job_row id t = Some r → (∀ x, rID (f x) = rID x) →
  ∃ t', affecting e p f (inJobs t) = Ok t' ∧ List.find (has_id id) t' = Some (f r).
Proof.
  intros Hp Hr Hf. unfold affecting.
  assert (Hn : (RowsAffected p (inJobs t) =? 0)%nat = false).
  { apply Nat.eqb_neq. unfold RowsAffected, job_row in *. apply List.find_some in Hr as [Hr _].
    assert (Hin : List.In r (List.filter p (inJobs t))) by (by apply filter_In).
    destruct (List.filter p (inJobs t)); [done|]. cbn. lia. }
  rewrite Hn. eexists. split; [done|]. by rewrite (find_update _ _ _ _ _ Hf Hr), Hp.
Qed.

Lemma with_jobs_grows s t : grows s (with_jobs s t).
Proof. by split. Qed.
Lemma with_world_keeps job s w : grows s (with_world s w) → keeps job s (with_world s w).
Proof. by split. Qed.

Definition others_tame job (t : Turn IngestWorld) (s : IngestWorld) (Ht : tame job t) : keeps job s (tnOthers t s) := Ht s.

(** ** Calls of a blob program *)
Section calls.
Context `{GoEncodings} `{GoColumns} `{GoUnicode} (job : string) (sm : bool) (crash : IngestWorld → Prop).
Local Notation ready := (Turns.ready (tame job) (keeps job) sm crash).
Local Notation went := (Turns.went (tame job) (keeps job) sm crash).
Local Notation wp := (Turns.wp (λ c, sm = false ∧ crash (cxShared c))).

Lemma wp_play {A} (call : Call) (k : reply call → Prog A) Q c : ready c →
  (∀ s, grows s (with_world s (exec call (inWorld s)).2)) →
  (∀ r c' s, went c c' → keeps job s (cxShared c') →
     r = (exec call (inWorld s)).1 ∧ cxShared c' = with_world s (exec call (inWorld s)).2 ∨ sm = false ∧ r = lost_reply call (inWorld s) →
     wp (run_calls (k r)) Q c') → wp (run_calls (Vis call k)) Q c.
Proof.
  intros Hc Hg HQ. cbn [run_calls]. apply wp_seq_run. eapply (wp_turn _ _ (others_tame job)); [done|]. intros fate c1 Hw _ Hf.
  apply wp_seq_run. pose proof (Hg (cxShared c1)) as Hg1. pose proof (with_world_keeps job _ _ Hg1) as Hk1.
  assert (Hdone : went c (with_shared c1 (with_world (cxShared c1) (exec call (inWorld (cxShared c1))).2))).
  { split; [|cbn; transitivity (cxShared c1); [apply Hw|done]]. apply ready_with; [apply Hw|].
    eapply covers_within; [apply _|apply Hw|done]. }
  unfold Turns.wp at 1, on_shared, on_ctx. destruct fate; cbn [play_call fst snd].
  - specialize (HQ (exec call (inWorld (cxShared c1))).1 _ (cxShared c1) Hdone Hk1).
    destruct (exec call (inWorld (cxShared c1))) as [r w]. by apply HQ; left.
  - apply (HQ _ _ (cxShared c1)); [|done|right]; [by destruct c1|]. split; [|done]. destruct sm; [by specialize (Hf eq_refl)|done].
  - apply (HQ _ _ (cxShared c1)); [done|done|right]. split; [|done]. destruct sm; [by specialize (Hf eq_refl)|done].
Qed.
End calls.

(** ** What a settled job says *)
Section runs.
Context `{GoEncodings} `{GoColumns} `{GoUnicode} `{GoCrypto}.
Context (json_object : list (string * string) → string) (reason_text : FailureReason → string).
Context (pool : WorkerPool) (pipelines : gmap string Pipeline) (validatePipeline : option (string → bool)).
Context (fanOut : option (string → IngestM unit)) (fresh : Fresh).
Context (job : Job) (sm : bool).
(** What the pipelines say of their drafts; the draft of the run and the instant
    it was hashed. *)
Context (D : Draft → Prop) (drafts : Draft → Z → Prop).

Definition stored_as (o : KnowledgeObject) (id : string) (s : IngestWorld) : Prop :=
  (id, koContentHash o, koProfileID o) ∈ row_keys (wObjects (inWorld s)).

(** The object's mentions have their edges, and the blobs whose content the draft
    holds are there. *)
Record linked (o : KnowledgeObject) (blobs : BlobContent) (s : IngestWorld) : Prop := {
  li_edges : koID o ≠ nostr → ∀ m, m ∈ koMentions o → ∃ e, e ∈ wEdges (inWorld s) ∧ forward o m e;
  li_blobs : ∀ k, k ∈ Keys o → is_Some (blobs !! k) → is_Some (wBlobs (inWorld s) !! k);
}.

(** The object [store_new] writes. *)
Definition new_object (d : Draft) (now : Z) : KnowledgeObject := obj_defaults (counted_once (hashed (dfObj d) now)).

Inductive ingested (s : IngestWorld) (res : string) : Prop :=
| ing_dropped d now : drafts d now → suppressedDuplicate (dfObj d) = Some res → ingested s res
| ing_existing d now : drafts d now → stored_as (hashed (dfObj d) now) res s → ingested s res
| ing_new d now : drafts d now → res = koID (dfObj d) → stored_as (hashed (dfObj d) now) res s →
    linked (new_object d now) (dfBlobs d) s → ingested s res.

(** A fault that is an answer. *)
Definition real (e : IngestFault) : Prop := match e with NoAnswer | CtxDone => False | _ => True end.
Definition real_reason (reason : FailureReason) : Prop :=
  match reason with
  | WorkFailed _ => True
  | ReinforceFailed e | RaceFailed e | StoreFailed e | MentionsFailed e => real e
  end.

(** How a run that began with the row [r0] may leave it. *)
Inductive final (r0 : JobRow) (s : IngestWorld) : JobRow → Prop :=
| fin_running : sm = false → final r0 s r0
| fin_completed now res : ingested s res → final r0 s (completed now res r0)
| fin_failed now reason : (sm = true → real_reason reason) → final r0 s (JobStore.failed now (reason_text reason) r0)
| fin_retried now : (jRetryCount (rJob r0) < jMaxRetries (rJob r0))%Z → final r0 s (retried now r0)
| fin_retry_lost now now' msg : sm = false → (jRetryCount (rJob r0) < jMaxRetries (rJob r0))%Z →
    final r0 s (JobStore.failed now' msg (retried now r0)).

Definition sound_store (s : IngestWorld) : Prop := obj_wf (wObjects (inWorld s)).
Definition left_as (r0 : JobRow) (s : IngestWorld) : Prop :=
  sound_store s ∧ ∃ r, job_row (jID job) s = Some r ∧ final r0 s r.
(** What a crash may leave. *)
Definition crash_ok (r0 : JobRow) (s : IngestWorld) : Prop := sm = false → left_as r0 s.

Lemma stored_as_grows o id s s' : grows s s' → stored_as o id s → stored_as o id s'.
Proof. intros Hg. apply Hg. Qed.
Lemma linked_grows o blobs s s' : grows s s' → linked o blobs s → linked o blobs s'.
Proof.
  intros [_ _ He Hb] [Hl Hk]. split; [|auto]. intros Hid m Hm. destruct (Hl Hid m Hm) as (e & Hin & Hf). eauto.
Qed.
Lemma ingested_grows s s' res : grows s s' → ingested s res → ingested s' res.
Proof.
  intros Hg [d now Hd Hs|d now Hd Hs|d now Hd Hr Hs Hl].
  - by eapply ing_dropped.
  - eapply ing_existing; [done|]. by eapply stored_as_grows.
  - eapply ing_new; [done|done|by eapply stored_as_grows|by eapply linked_grows].
Qed.
Lemma final_grows r0 s s' r : grows s s' → final r0 s r → final r0 s' r.
Proof. intros Hg [?|? ? ?|? ? ?|? ?|? ? ? ? ?]; [by apply fin_running|apply fin_completed; by eapply ingested_grows|by constructor..]. Qed.
Lemma left_keeps r0 s s' : keeps (jID job) s s' → left_as r0 s → left_as r0 s'.
Proof. intros [Hg Hj] (Hwf & r & Hr & Hf). split; [by apply (gr_wf _ _ Hg)|]. exists r. split; [by apply Hj|by eapply final_grows]. Qed.

(** What the parts the worker is given do: the steps of every pipeline and the
    fan-out callback end, delete nothing and leave the job's row to the worker;
    drafts keep [D], which a new draft has and taking the next pipeline's name
    off it keeps. *)
Definition step_behaves (m : IngestM StepResult) : Prop :=
  behaves (tame (jID job)) (keeps (jID job)) sm m
    (λ r, match r with Stepped d | StepDelegates d => D d | StepFails _ _ => True end).
Record equipped : Prop := {
  eq_steps : ∀ name pipe step d, pipelines !! name = Some pipe → step ∈ pipe → D d → step_behaves (psRun step d);
  eq_new : ∀ now, D (newDraft job (frDraft fresh) now);
  eq_hop : ∀ d, D d → D (with_draft d (set_meta (dfObj d) (delete "next_pipeline"%string (koMetadata (dfObj d)))));
  eq_fanOut : ∀ f id, fanOut = Some f → behaves (tame (jID job)) (keeps (jID job)) sm (f id) (λ _, True);
}.

Section from.
(** The row at the start of the run. *)
Context (r0 : JobRow).
Local Notation ready := (Turns.ready (tame (jID job)) (keeps (jID job)) sm (crash_ok r0)).
Local Notation went := (Turns.went (tame (jID job)) (keeps (jID job)) sm (crash_ok r0)).
Local Notation covers := (Turns.covers (keeps (jID job)) (crash_ok r0)).
Local Notation wp := (Turns.wp (λ c, sm = false ∧ crash_ok r0 (cxShared c))).

Lemma here (c : IngestCtx) : ready c → went c c.
Proof. exact (went_refl _ (keeps (jID job)) _ _ c). Qed.
Lemma onward (a b c : IngestCtx) : went a b → went b c → went a c.
Proof. exact (went_trans _ (keeps (jID job)) _ _ a b c). Qed.

(** Not settled yet; settled. *)
Definition pending (c : IngestCtx) : Prop := ready c ∧ sound_store (cxShared c) ∧ job_row (jID job) (cxShared c) = Some r0.
Definition done_ (c : IngestCtx) : Prop := ready c ∧ left_as r0 (cxShared c).

Lemma covers_left s : left_as r0 s → covers s.
Proof. intros Hl s' Hk _. by eapply left_keeps. Qed.
Lemma covers_row s : sound_store s → job_row (jID job) s = Some r0 → covers s.
Proof.
  intros Hwf Hr s' [Hg Hk] Hsm. split; [by apply (gr_wf _ _ Hg)|]. exists r0. split; [by apply Hk|by apply fin_running].
Qed.

Lemma pending_went c c' : went c c' → pending c → pending c'.
Proof. intros [Hr [Hg Hk]] (_ & Hwf & Hj). split_and!; [done|by apply (gr_wf _ _ Hg)|by apply Hk]. Qed.
Lemma done_went c c' : went c c' → done_ c → done_ c'.
Proof. intros [Hr Hk] [_ Hl]. split; [done|by eapply left_keeps]. Qed.

Lemma wp_emit e Q c : ready c → (∀ c', ready c' → cxShared c' = cxShared c → Q tt c') → wp (emit_event pool e) Q c.
Proof.
  intros [Hp Hs Hc] HQ. unfold emit_event. destruct (wpBus pool).
  - apply wp_publish, HQ; [by split|done].
  - apply wp_mret, HQ; [by split|done].
Qed.

(** A write of the job's row: from [r1], which may stay. *)
Lemma wp_settle f r1 (Q : unit → IngestCtx → Prop) c :
  ready c → sound_store (cxShared c) → job_row (jID job) (cxShared c) = Some r1 → (∀ s, grows (cxShared c) s → sm = false → final r0 s r1) →
  (∀ s now, grows (cxShared c) s → job_row (jID job) s = Some r1 →
     ∃ r, List.find (has_id (jID job)) (f now (inJobs s)) = Some r ∧ final r0 s r) →
  (∀ c', done_ c' → Q tt c') → wp (settle f) Q c.
Proof.
  intros Hc Hwf Hr1 Hstay Hf HQ. unfold settle. apply wp_seq_run.
  assert (Hleft : ∀ s, keeps (jID job) (cxShared c) s → left_as r0 (with_jobs s (f (wNow (inWorld s)) (inJobs s)))).
  { intros s [Hg Hk]. destruct (Hf s (wNow (inWorld s)) Hg (Hk _ Hr1)) as (r & Hr & Hfin).
    split; [by apply (gr_wf _ _ Hg)|]. exists r. split; [done|].
    by eapply final_grows; [apply with_jobs_grows|]. }
  eapply (wp_ask _ _ (others_tame (jID job))); [done| |].
  - intros s Hs. apply covers_left, Hleft, Hs.
  - intros a s c' Hr Hs Ha. apply wp_mret, HQ. split; [done|].
    destruct Ha as [[_ ->]|(Hsm & _ & [->| ->])]; [by apply Hleft| |by apply Hleft].
    destruct Hs as [Hg Hk]. split; [by apply (gr_wf _ _ Hg)|]. exists r1. auto.
Qed.

(** *** Settling *)
Lemma wp_complete res c : pending c → (∀ s, grows (cxShared c) s → ingested s res) →
  wp (complete_job pool (jID job) res) (λ _, done_) c.
Proof.
  intros (Hc & Hwf & Hr) Hi. unfold complete_job. apply wp_seq_run.
  apply (wp_settle _ r0); [done..|by intros s _ ?; apply fin_running| |].
  - intros s now Hg Hr'. exists (completed now res r0). split; [|by apply fin_completed, Hi].
    unfold markCompleted, Complete. destruct (affecting_row (jID job) (JobNotFoundID (jID job)) (has_id (jID job)) (completed now res) s r0)
      as (t' & -> & Ht'); [|done..].
    unfold job_row in Hr'. by apply List.find_some in Hr' as [_ ?].
  - intros c' [Hc' Hl]. apply wp_emit; [done|]. intros c2 Hc2 Hs. split; [done|]. by rewrite Hs.
Qed.

(** From [r1], the row at the start or the row a retry left. *)
Lemma wp_fail r1 reason obj c : ready c → sound_store (cxShared c) → job_row (jID job) (cxShared c) = Some r1 →
  (∀ s, grows (cxShared c) s → sm = false → final r0 s r1) → (∀ s now, final r0 s (JobStore.failed now (reason_text reason) r1)) →
  wp (fail_job reason_text pool (jID job) reason obj) (λ _, done_) c.
Proof.
  intros Hc Hwf Hr Hstay Hfail. unfold fail_job. apply wp_seq_run. apply (wp_settle _ r1); [done..| |].
  - intros s now Hg Hr'. exists (JobStore.failed now (reason_text reason) r1). split; [|apply Hfail].
    unfold markFailed, Fail_. destruct (affecting_row (jID job) (JobNotFoundID (jID job)) (has_id (jID job)) (JobStore.failed now (reason_text reason)) s r1)
      as (t' & -> & Ht'); [|done..].
    unfold job_row in Hr'. by apply List.find_some in Hr' as [_ ?].
  - intros c' [Hc' Hl]. apply wp_emit; [done|]. intros c2 Hc2 Hs. split; [done|]. by rewrite Hs.
Qed.
Lemma wp_fail_pending reason obj c : (sm = true → real_reason reason) → pending c → wp (fail_job reason_text pool (jID job) reason obj) (λ _, done_) c.
Proof. intros Hreal (Hc & Hwf & Hr). apply (wp_fail r0); [done..|by intros s _ ?; apply fin_running|by constructor]. Qed.

Lemma wp_retry_or_fail reason obj c : (sm = true → real_reason reason) → pending c → wp (retry_or_fail reason_text pool (jID job) reason obj) (λ _, done_) c.
Proof.
  intros Hreal (Hc & Hwf & Hr). unfold retry_or_fail, queue_retry. apply wp_seq_run, wp_seq_run.
  eapply (wp_ask_within _ _ (others_tame (jID job))); [done|done|]. intros a s c1 Hw1 Hs Hs1 Ha.
  assert (Hp1 : pending c1) by by eapply pending_went. pose proof (wp_fail_pending reason obj c1 Hreal Hp1) as Hfail.
  destruct a as [[j|e]|]; [|by apply wp_mret..].
  assert (Hj : j = scanJob r0).
  { destruct Ha as [[[= Hj] _]|(_ & ? & _)]; [|done]. unfold Get in Hj. destruct Hs as [_ Hk]. pose proof (Hk _ Hr) as Hrs.
    unfold job_row in Hrs. rewrite Hrs in Hj. congruence. }
  subst j. cbn [jMaxRetries jRetryCount scanJob].
  destruct (jMaxRetries (rJob r0) <=? jRetryCount (rJob r0))%Z eqn:Hmax; [by apply wp_mret|].
  apply Z.leb_gt in Hmax. destruct Hp1 as (Hc1 & Hwf1 & Hr1). apply wp_seq_run.
  assert (Hrt : ∀ s, keeps (jID job) (cxShared c1) s → ∃ t, Retry (inJobs s) (wNow (inWorld s)) (jID job) = Ok t ∧
    List.find (has_id (jID job)) t = Some (retried (wNow (inWorld s)) r0)).
  { intros s' [_ Hk]. apply affecting_row; [|by apply Hk|done]. unfold retryable. rewrite (proj2 (Z.ltb_lt _ _) Hmax), andb_true_r.
    pose proof (Hk _ Hr1) as Hk'. by apply List.find_some in Hk' as [_ ?]. }
  assert (Hwfs : ∀ s, keeps (jID job) (cxShared c1) s → sound_store s) by (intros s' [Hg _]; by apply (gr_wf _ _ Hg)).
  assert (Hleft : ∀ s t, keeps (jID job) (cxShared c1) s → List.find (has_id (jID job)) t = Some (retried (wNow (inWorld s)) r0) →
    left_as r0 (with_jobs s t)).
  { intros s' t Hs' Ht. split; [exact (Hwfs s' Hs')|]. exists (retried (wNow (inWorld s')) r0). split; [done|by apply fin_retried]. }
  eapply (wp_ask _ _ (others_tame (jID job))); [done| |].
  { intros s' Hs'. destruct (Hrt s' Hs') as (t & -> & Ht). by apply covers_left, Hleft. }
  intros a s' c2 Hc2 Hs' Ha2. destruct (Hrt s' Hs') as (t & Ht & Hrow). unfold answered in Ha2. rewrite Ht in Ha2. cbn in Ha2.
  destruct Ha2 as [[-> Hc2']|(Hsm & -> & [Hc2'|Hc2'])]; apply wp_mret; cbn [default].
  - apply wp_mret. split; [done|]. rewrite Hc2'. by apply Hleft.
  - apply wp_fail_pending; [done|]. split_and!; [done|rewrite Hc2'; exact (Hwfs s' Hs')|]. rewrite Hc2'. by apply Hs'.
  - apply (wp_fail (retried (wNow (inWorld s')) r0)); [done|rewrite Hc2'; exact (Hwfs s' Hs')|by rewrite Hc2'|by intros; apply fin_retried|by intros; apply fin_retry_lost].
Qed.

(** *** The pipeline *)
Lemma wp_runSteps (pipe : Pipeline) d c :
  (∀ step d, step ∈ pipe → D d → step_behaves (psRun step d)) → D d → ready c →
  wp (runSteps pipe d) (λ r c', went c c' ∧ ∀ d', r = Ok d' → D d') c.
Proof.
  intros Hpipe. revert d c. induction pipe as [|step pipe IH]; intros d c Hd Hc; cbn [runSteps].
  { apply wp_mret. split; [by apply here|]. by intros d' [= <-]. }
  apply wp_seq_run. eapply (wp_behaves _ (keeps (jID job))); [apply (Hpipe step d); [by left|done]|done|].
  assert (Hgo : ∀ d' c1, D d' → went c c1 → wp (runSteps pipe d') (λ r c', went c c' ∧ ∀ d', r = Ok d' → D d') c1).
  { intros d' c1 Hd' Hw. eapply wp_weaken; [apply IH; [|done|apply Hw]|].
    - intros st d2 Hst. apply Hpipe. by right.
    - intros r c' [Hw' Hr]. split; [by eapply onward|done]. }
  intros [d'|d'|perm text] c1 Hw Hd'; [by apply Hgo..|]. apply wp_mret. split; [done|]. by intros d'.
Qed.

Lemma pipe_Get_in name pipe : pipe_Get pipelines name = Some pipe → ∃ k, pipelines !! k = Some pipe.
Proof.
  unfold pipe_Get. destruct (pipelines !! name) eqn:Hn; [intros [= ->]; eauto|].
  destruct (ParseVersionedName name) as [[parsed v] ok]. destruct (negb ok); [done|]. destruct (negb _); [eauto|].
  destruct (v =? 0)%Z; [eauto|done].
Qed.

(** *** The object *)
Definition db_of (s : IngestWorld) : ObjDB := wObjects (inWorld s).

(** An answer, or a fault that a smooth run's is a real one. *)
Definition answers {A} (r : result IngestFault A) (P : A → Prop) : Prop :=
  match r with Ok a => P a | Err e => sm = true → real e end.

Lemma wp_obj_call {A} (f : ObjDB → Z → result ObjError (A * ObjDB)) (P : A → IngestWorld → Prop) Q c : ready c →
  (∀ s now a db, f (db_of s) now = Ok (a, db) →
     keeps (jID job) s (with_world s (set_objects (inWorld s) db)) ∧ P a (with_world s (set_objects (inWorld s) db))) →
  (∀ r c', went c c' → answers r (λ a, P a (cxShared c')) → Q r c') → wp (obj_call f) Q c.
Proof.
  intros Hc Hf HQ. unfold obj_call. apply wp_seq_run. eapply (wp_ask_within _ _ (others_tame (jID job))); [done| |].
  - intros s. cbn. destruct (f _ _) as [[a db]|e] eqn:Hx; [by eapply Hf|done].
  - intros r s c' Hw _ _ Ha. apply wp_mret, HQ; [done|]. destruct Ha as [[-> ->]|(Hsm & -> & _)]; [|by intros ?; congruence].
    cbn. destruct (f _ _) as [[a db]|e] eqn:Hx; [by eapply Hf|done].
Qed.

Lemma wp_reinforce o Q c : ready c →
  (∀ r c', went c c' → answers r (λ id, stored_as o id (cxShared c')) → Q r c') → wp (reinforce o) Q c.
Proof.
  intros Hc HQ. apply (wp_obj_call _ (λ id s, stored_as o id s)); [done| |done].
  intros s now id db Hx. pose proof (reinforce_keys _ _ _ _ _ _ Hx) as [Hk Hin]. split; [|done].
  apply with_world_keeps. split; [|by intros k Hk'; unfold db_of in *; cbn; rewrite Hk|done|done].
  intros Hwf. pose proof (sound_ok _ _ _ (obj_Reinforce_ok (db_of s) (koContentHash o) o now Hwf) Hx) as Hw. exact Hw.
Qed.

Lemma wp_race n o Q c : ready c →
  (∀ r c', went c c' → answers r (λ id, stored_as o id (cxShared c')) → Q r c') → wp (reinforceAfterRace n o) Q c.
Proof.
  revert Q c. induction n as [|n IH]; intros Q c Hc HQ; cbn [reinforceAfterRace]; apply wp_seq_run, wp_reinforce; try done;
    intros r c1 Hw1 Hr; destruct r as [id|[| [] | | |]]; try (by apply wp_mret, HQ).
  apply wp_seq_run. eapply (wp_ctx_Err _ _ (others_tame (jID job))); [apply Hw1|]. intros b c2 Hw2 Hb.
  assert (Hw : went c c2) by by eapply onward. destruct b.
  { apply wp_mret, HQ; [done|]. intros Hsm. by specialize (Hb Hsm). }
  apply IH; [apply Hw2|]. intros r c3 Hw3. apply HQ. by eapply onward.
Qed.

Lemma wp_putVectors d Q c : ready c → (∀ c', went c c' → Q tt c') → wp (putVectors d) Q c.
Proof.
  intros Hc HQ. unfold putVectors. destruct (dfVectors d); [|apply wp_mret, HQ; by apply here].
  apply wp_seq_run. eapply (wp_ask_within _ _ (others_tame (jID job))); [done|done|]. intros a s c' Hw _ _ _. by apply wp_mret, HQ.
Qed.

Lemma create_keys db o o' db' : obj_Create db o = Ok (o', db') →
  o' = obj_defaults o ∧ ∃ r, row_keys db' = row_keys db ++ [r] ∧ r = (koID o', koContentHash o', koProfileID o').
Proof.
  unfold obj_Create. intros ([] & _ & Hc)%bind_ok_inv. cbv zeta in Hc. destruct (affected _ _); [done|].
  apply bind_ok_inv in Hc as (db1 & H1'%upsert_rows & Hc). apply bind_ok_inv in Hc as (db2 & H2'%insert_rows & [= <- <-]).
  split; [done|]. eexists. split; [|done]. unfold row_keys. rewrite H2', H1'. cbn [odRows set_rows fst]. by rewrite map_app.
Qed.

Lemma wp_create o Q c : ready c →
  (∀ r c', went c c' → answers r (λ o', o' = obj_defaults o ∧ stored_as o' (koID o') (cxShared c')) → Q r c') →
  wp (obj_call (λ db _, obj_Create db o)) Q c.
Proof.
  intros Hc HQ. apply (wp_obj_call _ (λ o' s, o' = obj_defaults o ∧ stored_as o' (koID o') s)); [done| |done].
  intros s now o' db Hx. destruct (create_keys _ _ _ _ Hx) as (Ho & k & Hk & ->). split.
  - apply with_world_keeps. split; [|intros k' Hk'; cbn; rewrite Hk; apply elem_of_app; by left|done|done].
    intros Hwf. pose proof (sound_ok _ _ _ (obj_Create_ok (db_of s) o Hwf) Hx) as [Hw _]. exact Hw.
  - split; [done|]. unfold stored_as. cbn. rewrite Hk. apply elem_of_app. right. by left.
Qed.

(** *** Blobs *)
Definition there (s : IngestWorld) (k : string) : Prop := is_Some (wBlobs (inWorld s) !! k).
Lemma there_keeps s s' k : keeps (jID job) s s' → there s k → there s' k.
Proof. intros [Hg _]. apply Hg. Qed.

Lemma wp_ensure_keys_run o blobs keys Q c : ready c →
  (∀ r c', went c c' → (r = Ok tt → ∀ k, k ∈ keys → is_Some (blobs !! k) → there (cxShared c') k) → Q r c') →
  wp (run_calls (ensure_keys o blobs keys)) Q c.
Proof.
  revert Q c. induction keys as [|key keys IH]; intros Q c Hc HQ; cbn [ensure_keys].
  { apply wp_mret, HQ; [by apply here|]. by intros _ k ?%not_elem_of_nil. }
  destruct (blobs !! key) as [content|] eqn:Hb.
  2: { apply IH; [done|]. intros r c' Hw Hr. apply HQ; [done|]. intros Hok k [->|Hk]%elem_of_cons Hs; [|by apply Hr].
       rewrite Hb in Hs. by destruct Hs. }
  assert (Hgo : ∀ c1, went c c1 → there (cxShared c1) key → wp (run_calls (ensure_keys o blobs keys)) Q c1).
  { intros c1 Hw Ht. apply IH; [apply Hw|]. intros r c' Hw' Hr. apply HQ; [by eapply onward|].
    intros Hok k [->|Hk]%elem_of_cons Hs; [|by apply Hr]. by eapply there_keeps; [apply Hw'|]. }
  assert (Hstop : ∀ e c1, went c c1 → wp (run_calls (Ret (Err (EnsureFault key e)))) Q c1).
  { intros e c1 Hw. by apply wp_mret, HQ. }
  apply (wp_play (jID job) sm (crash_ok r0)); [done|by intros s; split|]. intros r c1 s Hw1 Hs1 Hr. cbn [prog_bind].
  destruct r as [[|]|e]; [| |by apply Hstop].
  - apply Hgo; [done|]. destruct Hr as [[Hr Hc1]|[_ Hr]]; [|done]. cbn in Hr. injection Hr as Hr. symmetry in Hr.
    apply bool_decide_eq_true in Hr. rewrite Hc1. exact Hr.
  - apply (wp_play (jID job) sm (crash_ok r0)); [apply Hw1| |].
    { intros s'. split; try done. intros k Hk. cbn. destruct (decide (k = key)) as [->|Hne]; [rewrite lookup_insert_eq; eauto|].
      by rewrite lookup_insert_ne. }
    intros r' c2 s' Hw2 _ Hr'. assert (Hw : went c c2) by by eapply onward. cbn [prog_bind].
    destruct r' as [[]|e]; [|by apply Hstop]. apply Hgo; [done|].
    destruct Hr' as [[_ ->]|[_ Hr']]; [|done]. unfold there. cbn. rewrite lookup_insert_eq. eauto.
Qed.

Lemma wp_Ensure_run o blobs Q c : ready c →
  (∀ r c', went c c' → (r = Ok tt → ∀ k, k ∈ Keys o → is_Some (blobs !! k) → there (cxShared c') k) → Q r c') →
  wp (run_calls (Ensure (wpBlobs pool) o blobs)) Q c.
Proof.
  intros Hc HQ. unfold Ensure. destruct (decide (blobs = ∅)) as [->|Hne].
  { apply wp_mret, HQ; [by apply here|]. intros _ k _ [x Hx]. unfold BlobContent in *. by rewrite lookup_empty in Hx. }
  destruct (negb (wpBlobs pool)); [by apply wp_mret, HQ; [apply here|]|]. by apply wp_ensure_keys_run.
Qed.

(** *** Edges and items *)
Lemma wp_edges (es : list EdgeRow) (Q : option (result IngestFault unit) → IngestCtx → Prop) c : ready c →
  (∀ r c', went c c' →
     answers (default (Err NoAnswer) r) (λ _, ∀ e, e ∈ es → ∃ x, x ∈ wEdges (inWorld (cxShared c')) ∧ same_pair e x = true) → Q r c') →
  wp (ask (λ s, match edge_CreateMissing (wEdges (inWorld s)) es with
                | Ok (_, t) => (Ok tt, with_world s (put_edges (inWorld s) t))
                | Err e => (Err (EdgesRefused e), s)
                end)) Q c.
Proof.
  intros Hc HQ. eapply (wp_ask_within _ _ (others_tame (jID job))); [done| |].
  - intros s. destruct (edge_CreateMissing _ _) as [[n t]|e] eqn:Hx; [|done].
    apply CreateMissing_spec in Hx as [Hk _]. by apply with_world_keeps.
  - intros r s c' Hw _ _ Ha. apply HQ; [done|]. destruct Ha as [[-> ->]|(Hsm & -> & _)]; [|by intros ?; congruence].
    destruct (edge_CreateMissing _ _) as [[n t]|e] eqn:Hx; [|done]. by apply CreateMissing_spec in Hx as [_ ?].
Qed.

Lemma enqueue_keeps s j t : Enqueue validatePipeline (inJobs s) j = Ok t → keeps (jID job) s (with_jobs s t).
Proof.
  intros Hx. split; [by split|]. intros r Hr. unfold job_row in *. cbn.
  assert (∃ x, t = inJobs s ++ [x]) as [x ->].
  { unfold Enqueue, Create in Hx. destruct validatePipeline as [v|].
    - destruct (str_eqb _ _); [done|]. destruct (negb _); [done|]. destruct (existsb _ _); [done|]. injection Hx as <-. eauto.
    - destruct (existsb _ _); [done|]. injection Hx as <-. eauto. }
  clear Hx. induction (inJobs s) as [|y l IH]; cbn in *; [done|]. destruct (has_id (jID job) y); [done|by apply IH].
Qed.

Lemma wp_enqueue_items n now items Q c : ready c → (∀ c', went c c' → Q tt c') →
  wp (enqueue_items pool validatePipeline fresh n now items) Q c.
Proof.
  revert n Q c. induction items as [|item items IH]; intros n Q c Hc HQ; cbn [enqueue_items]; [apply wp_mret, HQ; by apply here|].
  destruct (itemJob _ _ _ _) as [j|]; [|by apply IH]. apply wp_seq_run. eapply (wp_ask_within _ _ (others_tame (jID job))); [done| |].
  { intros s. destruct (Enqueue _ _ _) as [t|e] eqn:Hx; [|done]. by eapply enqueue_keeps. }
  intros r s c1 Hw1 _ _ _. apply wp_seq_run.
  assert (Hgo : ∀ c2, went c c2 → wp (enqueue_items pool validatePipeline fresh (S n) now items) Q c2).
  { intros c2 Hw2. apply IH; [apply Hw2|]. intros c3 Hw3. apply HQ. by eapply onward. }
  destruct (default false r); [|by apply wp_mret, Hgo]. apply wp_emit; [apply Hw1|]. intros c2 Hc2 Hs. apply Hgo.
  split; [done|]. rewrite Hs. apply Hw1.
Qed.

Lemma wp_fanOutItems o Q c : ready c → (∀ c', went c c' → Q tt c') → wp (fanOutItems pool validatePipeline fresh o) Q c.
Proof.
  intros Hc HQ. unfold fanOutItems. destruct (koMetadata o !! _) as [[]|]; try (apply wp_mret, HQ; by apply here).
  apply wp_seq_run, wp_clocked. intros now. by apply wp_enqueue_items.
Qed.
Section equipped.
Context (Heq : equipped).

Lemma wp_pipe name pipe d c : pipe_Get pipelines name = Some pipe → D d → ready c →
  wp (runSteps pipe d) (λ r c', went c c' ∧ ∀ d', r = Ok d' → D d') c.
Proof.
  intros [k Hk]%pipe_Get_in. apply wp_runSteps. intros step d' Hs Hd'. by apply (eq_steps Heq k pipe).
Qed.

Lemma wp_hops n d c : D d → ready c → wp (hops pipelines n d) (λ r c', went c c' ∧ ∀ d', r = Ok d' → D d') c.
Proof.
  revert d c. induction n as [|n IH]; intros d c Hd Hc; cbn [hops].
  { apply wp_mret. split; [by apply here|]. by intros d' [= <-]. }
  destruct (next_pipeline d) as [next|].
  2: { apply wp_mret. split; [by apply here|]. by intros d' [= <-]. }
  apply (eq_hop Heq) in Hd. cbv zeta. destruct (pipe_Get pipelines next) as [pipe|] eqn:Hp.
  2: { apply wp_mret. split; [by apply here|]. by intros d' [= <-]. }
  apply wp_seq_run. eapply wp_weaken; [by eapply wp_pipe|]. intros [d'|e] c1 [Hw Hd'].
  - eapply wp_weaken; [apply IH; [by apply Hd'|apply Hw]|]. intros r c2 [Hw2 Hr]. split; [|done].
    by eapply onward.
  - apply wp_mret. split; [done|]. by intros d'.
Qed.

Lemma wp_processWithHops c : ready c →
  wp (processWithHops pool pipelines fresh job) (λ r c', went c c' ∧ ∀ d', r = Ok d' → D d') c.
Proof.
  intros Hc. unfold processWithHops. destruct (pipe_Get pipelines (jPipeline job)) as [pipe|] eqn:Hp.
  2: { apply wp_mret. split; [by apply here|]. by intros d'. }
  apply wp_seq_run, wp_clocked. intros now. apply wp_seq_run.
  eapply wp_weaken; [eapply wp_pipe; [done|apply (eq_new Heq)|done]|]. intros [d'|e] c1 [Hw Hd'].
  - eapply wp_weaken; [apply wp_hops; [by apply Hd'|apply Hw]|]. intros r c2 [Hw2 Hr]. split; [|done].
    by eapply onward.
  - apply wp_mret. split; [done|]. by intros d'.
Qed.

(** *** The run *)
Lemma wp_finish_ingest d now c : pending c → drafts d now → stored_as (hashed (dfObj d) now) (koID (dfObj d)) (cxShared c) →
  wp (finish_ingest json_object reason_text pool validatePipeline fanOut fresh job (with_draft d (new_object d now))) (λ _, done_) c.
Proof.
  intros Hp Hd Hst. unfold finish_ingest. cbn [dfObj dfBlobs with_draft]. set (o := new_object d now).
  apply wp_seq_run, wp_Ensure_run; [apply Hp|]. intros r c1 Hw1 Hblobs.
  assert (Hp1 : pending c1) by by eapply pending_went.
  destruct r as [[]|e]; [|by apply wp_retry_or_fail; [|done]]. specialize (Hblobs eq_refl).
  apply wp_seq_run, wp_putVectors; [apply Hw1|]. intros c2 Hw2. assert (Hp2 : pending c2) by by eapply pending_went.
  apply wp_seq_run, wp_clocked. intros at_. cbv zeta. apply wp_seq_run, wp_edges; [apply Hw2|]. intros wrote c3 Hw3 Hedges.
  assert (Hp3 : pending c3) by by eapply pending_went.
  destruct (default (Err NoAnswer) wrote) as [[]|e]; [|by apply wp_fail_pending].
  apply wp_seq_run, wp_emit; [apply Hp3|]. intros c4 Hc4 Hs4.
  assert (Hp4 : pending c4) by (split_and!; [done|rewrite Hs4; apply Hp3..]).
  assert (Hg : grows (cxShared c1) (cxShared c4)).
  { rewrite Hs4. transitivity (cxShared c2); [apply Hw2|apply Hw3]. }
  apply wp_seq_run. eapply wp_weaken; [apply (wp_complete (koID o)); [done|]|].
  { intros s Hg4. eapply (ing_new _ _ d now); [done|done| |].
    - eapply stored_as_grows; [|exact Hst]. transitivity (cxShared c4); [|done]. transitivity (cxShared c1); [apply Hw1|done].
    - split.
      + intros Hid m Hm. destruct (edges_from_covers json_object (frEdge fresh) o false at_ 0 [] (koMentions o) m Hm eq_refl)
          as [(e & He & Hf) _].
        destruct (Hedges e) as (x & Hx & Hs%same_pair_true).
        { unfold MentionEdges. destruct (str_eqb (koID o) nostr) eqn:E; [by apply str_eqb_true in E|done]. }
        exists x. split; [apply (gr_edges _ _ Hg4); by rewrite Hs4|]. subst o. unfold forward in *. intuition congruence.
      + intros k Hk Hb. apply (gr_blobs _ _ Hg4), (gr_blobs _ _ Hg). by apply Hblobs. }
  intros [] c5 Hd5. apply wp_seq_run.
  assert (Hend : ∀ c6, done_ c6 → wp (fanOutItems pool validatePipeline fresh o) (λ _, done_) c6).
  { intros c6 Hd6. apply wp_fanOutItems; [apply Hd6|]. intros c7 Hw7. by eapply done_went. }
  destruct fanOut as [f|] eqn:Hf; [|by apply wp_mret, Hend]. destruct (HasSuffix _ _); [by apply wp_mret, Hend|].
  eapply (wp_behaves _ (keeps (jID job))); [by apply (eq_fanOut Heq)|apply Hd5|]. intros a c6 Hw6 _.
  apply Hend. by eapply done_went.
Qed.

Lemma wp_existing d now id c : pending c → drafts d now → stored_as (hashed (dfObj d) now) id (cxShared c) →
  ∀ d', wp (settle_existing pool job d' id) (λ _, done_) c.
Proof.
  intros Hp Hd Hst d'. unfold settle_existing. apply wp_seq_run, wp_putVectors; [apply Hp|]. intros c1 Hw1.
  apply wp_complete; [by eapply pending_went|]. intros s Hg. eapply ing_existing; [done|].
  eapply stored_as_grows; [|exact Hst]. transitivity (cxShared c1); [apply Hw1|done].
Qed.

Lemma wp_store_new d now c : pending c → drafts d now →
  wp (store_new json_object reason_text pool validatePipeline fanOut fresh job (with_draft d (hashed (dfObj d) now))) (λ _, done_) c.
Proof.
  intros Hp Hd. unfold store_new. cbv zeta. apply wp_seq_run, wp_create; [apply Hp|]. intros r c1 Hw1 Hr.
  assert (Hp1 : pending c1) by by eapply pending_went.
  destruct r as [o'|e].
  { destruct Hr as [-> Hst]. exact (wp_finish_ingest d now c1 Hp1 Hd Hst). }
  assert (Hfail : wp (fail_job reason_text pool (jID job) (StoreFailed e) (koID (counted_once (hashed (dfObj d) now)))) (λ _, done_) c1)
    by by apply wp_fail_pending.
  destruct e as [|[]| | |]; try exact Hfail. clear Hfail. apply wp_seq_run, wp_race; [apply Hw1|]. intros r c2 Hw2 Hst.
  assert (Hp2 : pending c2) by by eapply pending_went. destruct r as [id|e]; [|by apply wp_fail_pending].
  by apply (wp_existing d now).
Qed.

Lemma wp_store_draft d now c : pending c → drafts d now →
  wp (store_draft_of json_object reason_text pool validatePipeline fanOut fresh job (with_draft d (hashed (dfObj d) now))) (λ _, done_) c.
Proof.
  intros Hp Hd. unfold store_draft_of. apply wp_seq_run. eapply (wp_ask_within _ _ (others_tame (jID job))); [apply Hp|done|].
  intros existing s c1 Hw1 _ _ _. assert (Hp1 : pending c1) by by eapply pending_went. destruct (mjoin existing) as [o|].
  - apply wp_seq_run, wp_reinforce; [apply Hw1|]. intros r c2 Hw2 Hst. assert (Hp2 : pending c2) by by eapply pending_went.
    destruct r as [id|e]; [|by apply wp_retry_or_fail]. by apply (wp_existing d now).
  - cbn [dfObj with_draft]. destruct (suppressedDuplicate _) as [dup|] eqn:Hs; [|by apply wp_store_new].
    apply wp_complete; [done|]. intros s' _. by eapply ing_dropped.
Qed.

Lemma wp_process c : pending c →
  (∀ d c1, processWithHops pool pipelines fresh job c = (Ok (Ok d), c1) → D d → drafts d (wNow (inWorld (cxShared c1)))) →
  wp (process json_object reason_text pool pipelines validatePipeline fanOut fresh job) (λ _, done_) c.
Proof.
  intros Hp Hd. unfold process. apply wp_seq_run, wp_answered.
  eapply wp_weaken; [apply wp_processWithHops, Hp|]. intros r c1 [Hw HD] Hx.
  assert (Hp1 : pending c1) by by eapply pending_went. destruct r as [d|e].
  - apply wp_seq_run. unfold Turns.wp at 1, clock, on_shared, on_ctx. destruct c1 as [s1 x1 t1 e1].
    apply wp_store_draft; [done|]. by apply (Hd d _ Hx), HD.
  - destruct (IsPermanent e); [by apply wp_fail_pending|by apply wp_retry_or_fail].
Qed.
End equipped.
End from.
End runs.

(** ** The theorems *)
Section theorems.
Context `{GoEncodings} `{GoColumns} `{GoUnicode} `{GoCrypto}.
Context (json_object : list (string * string) → string) (reason_text : FailureReason → string).
Context (pool : WorkerPool) (pipelines : gmap string Pipeline) (validatePipeline : option (string → bool)).
Context (fanOut : option (string → IngestM unit)) (fresh : Fresh) (job : Job).
Context (D : Draft → Prop).
Local Notation process := (process json_object reason_text pool pipelines validatePipeline fanOut fresh job).

(** The draft the run's own pipeline and hops answered with, and the instant the
    run read before it hashed it. *)
Definition drafted (c : IngestCtx) (d : Draft) (now : Z) : Prop :=
  D d ∧ ∃ c1, processWithHops pool pipelines fresh job c = (Ok (Ok d), c1) ∧ now = wNow (inWorld (cxShared c1)).

Lemma process_leaves sm c r0 res c' :
  equipped pipelines fanOut fresh job sm D →
  Forall (tame (jID job)) (cxTurns c) → (sm = true → Forall smooth_turn (cxTurns c) ∧ cxCancelled c = false) →
  sound_store (cxShared c) → job_row (jID job) (cxShared c) = Some r0 → process c = (res, c') →
  (res = Ok tt ∨ sm = false ∧ res = Err Killed) ∧ left_as reason_text job sm (drafted c) r0 (cxShared c').
Proof.
  intros Heq Ht Hs Hwf Hr Hx.
  assert (Hp : pending reason_text job sm (drafted c) r0 c).
  { split_and!; [|done|done]. split; [done|done|]. by apply covers_row. }
  pose proof (wp_process json_object reason_text pool pipelines validatePipeline fanOut fresh job sm D (drafted c) r0 Heq c Hp) as Hwp.
  specialize (Hwp ltac:(intros d c1 Hc1 Hd; split; [done|by exists c1])).
  unfold Turns.wp in Hwp. rewrite Hx in Hwp. destruct res as [[]|[]]; [|destruct Hwp as [Hsm Hc]|done].
  - split; [by left|]. apply Hwp.
  - split; [by right|]. by apply Hc.
Qed.

Lemma stored_unique o id s row : sound_store s → koContentHash o ≠ nostr → stored_as o id s → row ∈ odRows (wObjects (inWorld s)) →
  koContentHash (orObj row) = koContentHash o → koProfileID (orObj row) = koProfileID o → orID row = id.
Proof.
  intros Hwf Hne (r & [= -> Hh Hp] & Hr)%list_elem_of_fmap Hrow Hh' Hp'. apply (wf_unique _ Hwf); [done..|].
  unfold clashes. rewrite Hh', Hp', <- Hh, <- Hp, !str_eqb_refl.
  destruct (str_eqb (koContentHash o) nostr) eqn:E; [by apply str_eqb_true in E|]. by rewrite orb_true_r.
Qed.


(** C22. A run nothing goes wrong with settles its job: it returns, and the job is
    completed, or failed for a reason that is not a lost answer, or back in the
    queue with a retry used. *)
Theorem ingest_settles c r0 res c' :
  equipped pipelines fanOut fresh job true D → Forall (tame (jID job)) (cxTurns c) → Forall smooth_turn (cxTurns c) →
  cxCancelled c = false → sound_store (cxShared c) → job_row (jID job) (cxShared c) = Some r0 → process c = (res, c') →
  res = Ok tt ∧ ∃ r, job_row (jID job) (cxShared c') = Some r ∧
    ((∃ now id, r = completed now id r0 ∧ ingested (drafted c) (cxShared c') id) ∨
     (∃ now reason, r = JobStore.failed now (reason_text reason) r0 ∧ real_reason reason) ∨
     (∃ now, r = retried now r0 ∧ (jRetryCount (rJob r0) < jMaxRetries (rJob r0))%Z)).
Proof.
  intros Heq Ht Hs Hc Hwf Hr0 Hx. destruct (process_leaves true c r0 res c' Heq Ht) as [Hres (_ & r & Hr & Hf)]; [done..|].
  split; [by destruct Hres as [?|[? _]]|]. exists r. split; [done|]. destruct Hf; [done|left; eauto|right; left|right; right; eauto|done].
  eexists _, _. split; [done|]. auto.
Qed.
End theorems.

(** ** Steps that behave *)
Section steps.
Context `{GoEncodings} `{GoColumns} `{GoUnicode} `{GoCrypto} (job : Job) (sm : bool).

(** The profile a caller asks for, and the source. *)
Definition asked (d : Draft) : Prop := koProfileID (dfObj d) = jUserProfile job ∧ koSource (dfObj d) = jSource job.

Lemma externalize_behaves threshold d : asked d → step_behaves job sm asked (externalize_step threshold d).
Proof.
  intros Hd. apply (behaves_wp _ (keeps (jID job))). intros crash c Hc. unfold externalize_step. apply wp_seq_run. unfold Externalize.
  destruct (_ || _); [apply wp_mret, wp_mret; split; [by apply (went_refl _ (keeps (jID job)))|done]|].
  apply (wp_play (jID job) sm crash); [done| |].
  - intros s. split; try done. intros k Hk. cbn. set (key := ContentHash _ _).
    destruct (decide (k = key)) as [->|Hne]; [rewrite lookup_insert_eq; eauto|by rewrite lookup_insert_ne].
  - intros r c' s Hw _ _. cbn [prog_bind]. destruct r as [[]|e].
    + destruct (if str_eqb _ _ || _ then _ else _) as [text meta]. apply wp_mret, wp_mret. by split.
    + apply wp_mret, wp_mret. by split.
Qed.

(** A step that asks for the next pipeline. *)
Definition hop_step (next : string) : Step := λ d,
  mret (Stepped (with_draft d (set_meta (dfObj d) (<["next_pipeline"%string := AStr next]> (koMetadata (dfObj d)))))).
Lemma hop_behaves next d : asked d → step_behaves job sm asked (hop_step next d).
Proof. intros Hd. by apply (behaves_ret _ (keeps (jID job))). Qed.
End steps.

(** ** Concrete runs *)
#[local] Instance plain_columns : GoColumns := {|
  json_map := Some; json_sections := Some; json_graph := Some; json_text := λ s, s;
  uri_Parse := Some; uri_String := λ s n i, (s +:+ "://" +:+ n +:+ "/" +:+ i)%string |}.
#[local] Instance comma_times : GoEncodings := sample_encodings.
#[local] Instance ascii_unicode : GoUnicode := {| uc_to_lower := λ s, s; uc_is_letter := λ _, false; uc_is_digit := λ _, false |}.
#[local] Instance id_crypto : GoCrypto := {| SHA256 s := s |}.

(** The first pipeline hops to the second, which externalizes. *)
Definition two_pipelines : gmap string Pipeline :=
  {[ "text.ingest"%string := [mkStepOf "route" (mkContract [] [] []) (hop_step "text.long")];
     "text.long@v0"%string := [mkStepOf "externalize_content" (mkContract ["RawContent"] ["RawContent"] []) (externalize_step 4)] ]}.
Definition ingest_job : Job :=
  mkJob "j1" "ingest:text" JobRunning "A long text" "text.ingest" "cli" nostr nostr 0 1 5%Z 5%Z None None
    ["@stripe.api"] [" due "] "p1" nostr nostr.
Definition running_row : JobRow := @claimed sample_encodings 9 "c1" (mkRow (encodeJob ingest_job) nostr None).
Definition ingest_ids : Fresh := mkFresh "o-1" (λ n, "e-" +:+ pretty n) (λ n, "i-" +:+ pretty n)%string.
Definition plain_pool : WorkerPool := mkPool 3 1 true true.
Definition json_pairs (l : list (string * string)) : string := Join (map (λ kv, kv.1 +:+ "=" +:+ kv.2) l) ",".
Definition no_text (r : FailureReason) : string := "failed".
Definition empty_ingest : IngestWorld := mkIngest (mkWorld emptyDB [] ∅ ∅ 0) [running_row].
Definition run_job (turns : list (Turn IngestWorld)) (s : IngestWorld) :=
  process json_pairs no_text plain_pool two_pipelines None None ingest_ids ingest_job (mkRunCtx s false turns []).

Lemma plain_equipped sm : equipped two_pipelines None ingest_ids ingest_job sm (asked ingest_job).
Proof.
  constructor; [|done|by intros d|done]. intros name pipe step d Hp Hs Hd. unfold two_pipelines in Hp.
  apply lookup_insert_Some in Hp as [[_ <-]|[_ [_ <-]%lookup_singleton_Some]];
    apply list_elem_of_singleton in Hs as ->; [by apply hop_behaves|by apply externalize_behaves].
Qed.

Lemma empty_sound : sound_store empty_ingest.
Proof. exact emptyDB_wf. Qed.

(** Another worker stores the same content just before the run would. *)
Definition creates (o : KnowledgeObject) (s : IngestWorld) : IngestWorld :=
  match obj_Create (wObjects (inWorld s)) o with
  | Ok (_, db) => with_world s (set_objects (inWorld s) db)
  | Err _ => s
  end.
Definition other_object : KnowledgeObject :=
  hashed (with_content (dfObj (newDraft ingest_job "o-2" 0)) (BlobRefFor (ContentHash "A long text" "cli")) "A lo" ∅) 0.
Definition race_turns : list (Turn IngestWorld) :=
  [mkTurn id false false Runs; mkTurn id false false Runs; mkTurn (creates other_object) false false Runs].

Lemma creates_tame o job : tame job (mkTurn (creates o) false false Runs).
Proof.
  intros s. cbn. unfold creates. destruct (obj_Create _ o) as [[o' db]|e] eqn:Hx; [|done].
  apply with_world_keeps. destruct (create_keys _ _ _ _ Hx) as (_ & k & Hk & _). split; [| |done|done].
  - intros Hwf. pose proof (sound_ok _ _ _ (obj_Create_ok _ o Hwf) Hx) as [Hw _]. exact Hw.
  - intros k' Hk'. cbn. rewrite Hk. apply elem_of_app. by left.
Qed.
Lemma idle_tame job fate : tame job (mkTurn id false false fate).
Proof. intros s. done. Qed.
Lemma race_tame : Forall (tame "j1") race_turns.
Proof. unfold race_turns. apply Forall_cons_2, Forall_cons_2, Forall_cons_2, Forall_nil_2; apply creates_tame || apply idle_tame. Qed.


Lemma ingest_settles_witness :
  (run_job [] empty_ingest).1 = Ok tt ∧
  ∃ now, job_row "j1" (cxShared (run_job [] empty_ingest).2) = Some (completed now "o-1" running_row) ∧
    ingested (drafted plain_pool two_pipelines ingest_ids ingest_job (asked ingest_job) (mkRunCtx empty_ingest false [] [])) (cxShared (run_job [] empty_ingest).2) "o-1".
Proof.
  assert (Hrow : (λ r, (rStatus r, jResultID (rJob r))) <$> job_row "j1" (cxShared (run_job [] empty_ingest).2) =
    Some (JobCompleted, "o-1"%string)) by (vm_compute; reflexivity).
  destruct (ingest_settles json_pairs no_text plain_pool two_pipelines None None ingest_ids ingest_job (asked ingest_job)
    (mkRunCtx empty_ingest false [] []) running_row _ _ (plain_equipped true) (List.Forall_nil _) (List.Forall_nil _) eq_refl empty_sound eq_refl
    (surjective_pairing (run_job [] empty_ingest))) as [Hok (r & Hr & Hend)].
  split; [exact Hok|]. change (jID ingest_job) with "j1"%string in Hr. rewrite Hr in Hrow |- *.
  destruct Hend as [(now & id & -> & Hi)|[(now & reason & -> & _)|(now & -> & _)]]; cbn in Hrow; [|discriminate Hrow|discriminate Hrow].
  injection Hrow as ->. exists now. split; [reflexivity|exact Hi].
Defined.

Lemma mention_edges_spec_witness :
  koID other_object ≠ nostr ∧ NoDup (map pair_of (MentionEdges json_pairs (frEdge ingest_ids) other_object ["ctxt://entity/a"; "ctxt://entity/a"] true 0)).
Proof.
  split; [done|]. apply (mention_edges_spec json_pairs (frEdge ingest_ids) other_object ["ctxt://entity/a"; "ctxt://entity/a"]%string true 0).
  intros Hx. discriminate Hx.
Defined.

(** Alone and unhindered, a worker's [retry_or_fail] is the queue's. *)
Lemma retry_or_fail_alone `{GoEncodings} reason_text pool id reason object (c : IngestCtx) : cxTurns c = [] →
  inJobs (cxShared (retry_or_fail reason_text pool id reason object c).2) =
  retryOrFail (inJobs (cxShared c)) (wNow (inWorld (cxShared c))) id (reason_text reason).
Proof.
  intros Ht. destruct c as [[w t] cancelled turns events]. cbn in Ht. subst turns.
  unfold retry_or_fail, queue_retry, retryOrFail, QueueRetry, fail_job, settle, emit_event, ask, on_shared, mbind, run_bind, st_bind, turn, on_ctx. cbn.
  destruct (Get t id) as [j|e]; cbn; [|by destruct (wpBus pool)].
  destruct (jMaxRetries j <=? jRetryCount j)%Z; cbn; [by destruct (wpBus pool)|].
  destruct (Retry t (wNow w) id) as [t'|e]; cbn; [done|by destruct (wpBus pool)].
Qed.

(** *** Runs that are not what the source's comments say *)

(** The write of the edges fails; the job is run again, finds its object by the
    content's hash and completes, with no edge ever written. *)
Definition edges_refused : list (Turn IngestWorld) :=
  repeat (mkTurn id false false Runs) 4 ++ [mkTurn id false false Refused].
Definition again (s : IngestWorld) : IngestWorld := with_jobs s [running_row].
Example edges_never_written :
  let s1 := cxShared (run_job edges_refused empty_ingest).2 in
  let s2 := cxShared (run_job [] (again s1)).2 in
  (rStatus <$> job_row "j1" s1) = Some JobFailed ∧
  (λ r, (rStatus r, jResultID (rJob r))) <$> job_row "j1" s2 = Some (JobCompleted, "o-1"%string) ∧
  map (koMentions ∘ orObj) (odRows (wObjects (inWorld s2))) = [["ctxt://entity/stripe/api"%string]] ∧
  wEdges (inWorld s2) = [].
Proof. vm_compute. repeat split. Qed.

(** The hash of an externalized object is that of its content's ref: looked up by
    the hash of the content it was submitted with, it is not found. *)
Example externalized_not_found :
  let s := cxShared (run_job [] empty_ingest).2 in
  (rStatus <$> job_row "j1" s) = Some JobCompleted ∧
  obj_GetByContentHash (wObjects (inWorld s)) (ContentHash (jPayload ingest_job) (jSource ingest_job)) (jUserProfile ingest_job) = None.
Proof. vm_compute. repeat split. Qed.
