(* ===== verification/Reanalyze.v ===== *)
(** * Re-analysis: the current pipeline over stored objects

    Models the staleness of a pipeline stamp ([internal/service/staleness.go]),
    the re-analysis of one object ([reanalyze.go]) as a run over the stores of
    file Ingest, and the worker that re-analyses the objects a selector matches
    ([internal/upgrade/worker.go]) as a run over the object store and the upgrade
    status.

    The worker takes its re-analyser through an interface, here a run that is
    given to it.  The goroutine behind [IterateMatching] and the worker's [select]
    are one moment per id: a moment that fails is the scan's error or, once the
    context is cancelled, the branch that sees it.  Costs are floats.  A bus is there to publish on.  Left out:
    the sleeps of the rate limit, the dry run's plan event beyond its counts, and
    log lines. *)

From S2P Require Import Prelude GoStrings Objects Classes Contact Projection JobStore JobQueue ObjectDB EdgeDB Encodings Blobs ServiceContent Turns Pipelines Upgrade Ingest.

Local Open Scope Z_scope.

(** ** staleness.go *)
Section staleness.
Context {P : Type} (reg : gmap string P).

Definition version_in (name registered : string) : option Z :=
  let '(fam, ver, ok) := ParseVersionedName registered in if ok && str_eqb fam name then Some ver else None.
Definition CurrentVersionForFamily (name : string) : option Z :=
  let maxVer := foldl (λ m registered, match version_in name registered with Some v => Z.max m v | None => m end) (-1) (pipe_List reg) in
  if maxVer <? 0 then None else Some maxVer.

(** One candidate: the pipeline of its object, if there is one. *)
Definition stale_candidate (candidate : option string) : bool :=
  match candidate with
  | None => false
  | Some stamp =>
      if str_eqb stamp nostr then false
      else
        let '(fam, ver, ok) := ParseVersionedName stamp in
        ok && match CurrentVersionForFamily fam with Some current => ver <? current | None => false end
  end.
Definition countStaleCandidates (candidates : list (option string)) : Z := Z.of_nat (length (List.filter stale_candidate candidates)).
End staleness.

(** ** reanalyze.go *)
Inductive ReanalyzeError : Type :=
| ReanalyzeLoad (e : Fault)
| ReanalyzeContent (e : Fault)
| EmptyContent (id : string)
| NoFamily (family : string)
| NoLookup (name : string)
| ReanalyzeStep (step text : string)
| ReanalyzePersist (e : Fault).

(** What the draft keeps of the object. *)
Definition reanalyze_draft (o : KnowledgeObject) (versionedName : string) : KnowledgeObject :=
  mkKO (koID o) (koType o) (koSubtype o) (koRawContent o) nostr (koContentType o) ∅ [] [] [] [] [] [] versionedName (koSource o) []
    (koContentHash o) (koSourceKey o) (koStatus o) nostr (koReinforcementCount o) (koLastReinforcedAt o) None None (koCreatedAt o)
    0 false (koProfileID o) [] [] None.

(** [Pipeline] and [UpdatedAt] once the steps are done. *)
Definition stamped (o : KnowledgeObject) (versionedName : string) (now : Z) : KnowledgeObject :=
  mkKO (koID o) (koType o) (koSubtype o) (koRawContent o) (koTextContent o) (koContentType o) (koMetadata o) (koSummaries o)
    (koSections o) (koTags o) (koMentions o) (koDecisions o) (koTasks o) versionedName (koSource o) (koRegistryInfluences o)
    (koContentHash o) (koSourceKey o) (koStatus o) (koInboxNote o) (koReinforcementCount o) (koLastReinforcedAt o) (koRemindAt o)
    (koRemindedAt o) (koCreatedAt o) now (koFTSIndexed o) (koProfileID o) (koClasses o) (koAttachmentIDs o) (koGraph o).

Section reanalyze.
Context `{GoEncodings} `{GoColumns} `{GoUnicode} `{GoCrypto}.
(** [blobs]: whether a blob store is configured; [threshold]: its setting. *)
Context (pipelines : gmap string Pipeline) (detectPipeline : string → string → string → string).
Context (blobs : bool) (threshold : Z).

Definition family_of (o : KnowledgeObject) : string :=
  let '(parsed, _, ok) := ParseVersionedName (koPipeline o) in
  let family := if ok && negb (str_eqb parsed nostr) then parsed else koPipeline o in
  if str_eqb family nostr then detectPipeline (koSource o) (koContentType o) (koRawContent o) else family.

(** A step that delegates leaves the draft it was given. *)
Fixpoint reanalyze_steps (steps : Pipeline) (d : Draft) : IngestM (result ReanalyzeError Draft) :=
  match steps with
  | [] => mret (Ok d)
  | step :: steps =>
      r ← psRun step d;
      match r with
      | Stepped d => reanalyze_steps steps d
      | StepDelegates _ => reanalyze_steps steps d
      | StepFails _ text => mret (Err (ReanalyzeStep (psName step) text))
      end
  end.

(** The write of the draft, and its vectors. *)
Definition persist_draft (d : Draft) (versionedName : string) : IngestM (result ReanalyzeError string) :=
  now ← clock;
  row ← run_calls (storable blobs threshold (stamped (dfObj d) versionedName now) (dfBlobs d));
  match row with
  | Err e => mret (Err (ReanalyzePersist e))
  | Ok (row, contents) =>
      r ← run_calls (UpdateObject blobs row contents);
      match dnErr r with
      | Some e => mret (Err (ReanalyzePersist e))
      | None => _ ← putVectors d; mret (Ok versionedName)
      end
  end.

Definition ReanalyzeObject (id : string) : IngestM (result ReanalyzeError string) :=
  loaded ← run_calls (call (Obj_Get id));
  match loaded with
  | Err e => mret (Err (ReanalyzeLoad e))
  | Ok obj =>
      resolved ← run_calls (resolveContent blobs obj);
      match resolved with
      | Err e => mret (Err (ReanalyzeContent e))
      | Ok obj =>
          if str_eqb (koRawContent obj) nostr then mret (Err (EmptyContent id))
          else
            let family := family_of obj in
            match CurrentVersionForFamily pipelines family with
            | None => mret (Err (NoFamily family))
            | Some curVer =>
                let versionedName := FormatVersionedName family curVer in
                match (match pipe_Get pipelines versionedName with Some pipe => Some pipe | None => pipe_Get pipelines family end) with
                | None => mret (Err (NoLookup versionedName))
                | Some pipe =>
                    r ← reanalyze_steps pipe (mkDraft (reanalyze_draft obj versionedName) ∅ false);
                    match r with
                    | Err e => mret (Err e)
                    | Ok d => persist_draft d versionedName
                    end
                end
            end
      end
  end.
End reanalyze.

(** ** worker.go *)

(** [float64]: what the worker does with costs. *)
Class GoFloat : Type := {
  flt : Type;
  fl_zero : flt;
  fl_add : flt → flt → flt;
  fl_gt : flt → flt → bool;
  fl_gt_asym x y : fl_gt x y = true → fl_gt y x = false;
}.

Section worker.
Context `{GoEncodings} `{GoFloat}.
(** The re-analyser's errors. *)
Context {F : Type}.

(** What the status is told. *)
Inductive ReingestCause : Type :=
| CauseIterate
| CauseCancelled
| CauseReanalyze (e : F)
| CauseBudget.

Inductive ReingestError : Type :=
| ReingestCount
| AlreadyInProgress
| ReingestStart (e : UpgradeError)
| ReingestIterate
| ReingestCancelled
| ReingestObject (id : string) (e : F)
| BudgetExceeded
| ReingestTick (e : UpgradeError)
| ReingestComplete (e : UpgradeError).

Record ReingestWorld : Type := mkReingest { rwDB : ObjDB; rwNow : Z; rwStatus : StatusOf ReingestCause }.

Inductive ReingestEvent : Type :=
| PlanComputed (raw : string) (total : Z)
| ReingestStarted (raw : string) (total : Z)
| ReingestProgress (done total : Z) (cost : flt)
| ReingestFailed (done total : Z) (cost : flt) (cause : ReingestCause)
| ReingestCompleted (done total : Z) (cost : flt).

Abbreviation ReingestM := (RunM ReingestWorld ReingestEvent).
Abbreviation ReingestCtx := (RunCtx ReingestWorld ReingestEvent).

(** A zero budget is none. *)
Record WorkerOpts : Type := mkOpts { woDryRun : bool; woBudgetUSD : flt }.

Context (holds : string → list string → ObjRow → bool) (reanalyze : string → ReingestM (result F flt)).
Context (sel : Selector) (opts : WorkerOpts).

Definition reingest_status (f : Z → bool → StatusOf ReingestCause → result UpgradeError unit * StatusOf ReingestCause) :
    ReingestM (result UpgradeError unit) :=
  fate ← turn;
  let persisted := match fate with Runs => true | _ => false end in
  on_shared (λ s, let '(r, st) := f (rwNow s) persisted (rwStatus s) in (r, mkReingest (rwDB s) (rwNow s) st)).

(** [reingestRun] *)
Record reingestRun : Type := mkReingestRun { rgTotal : Z; rgDone : Z; rgCost : flt }.

(** [reingestRun.fail]; the status's own error is dropped. *)
Definition reingest_fail (x : reingestRun) (cause : ReingestCause) : ReingestM unit :=
  _ ← reingest_status (status_Fail (Some cause));
  publish (ReingestFailed (rgDone x) (rgTotal x) (rgCost x) cause).

Definition over_budget (cost : flt) : bool := fl_gt (woBudgetUSD opts) fl_zero && fl_gt cost (woBudgetUSD opts).

(** [reingestRun.step] *)
Definition reingest_step (id : string) (progressEvery : Z) (x : reingestRun) : ReingestM (result ReingestError reingestRun) :=
  r ← reanalyze id;
  match r with
  | Err e => _ ← reingest_fail x (CauseReanalyze e); mret (Err (ReingestObject id e))
  | Ok cost =>
      let x := mkReingestRun (rgTotal x) (rgDone x + 1) (fl_add (rgCost x) cost) in
      if over_budget (rgCost x) then _ ← reingest_fail x CauseBudget; mret (Err BudgetExceeded)
      else
        ticked ← reingest_status (Tick (rgDone x));
        match ticked with
        | Err e => mret (Err (ReingestTick e))
        | Ok _ =>
            _ ← (if (rgDone x mod progressEvery =? 0) || (rgDone x =? rgTotal x)
                 then publish (ReingestProgress (rgDone x) (rgTotal x) (rgCost x)) else mret tt);
            mret (Ok x)
        end
  end.

(** How the channel of ids ends, or the context first. *)
Inductive Channel : Type := NextReady | ScanFailed | ContextDone.
Definition next_moment : ReingestM Channel :=
  fate ← turn;
  cancelled ← on_ctx (λ c, (cxCancelled c, c));
  mret match fate, (cancelled : bool) with
       | Runs, _ => NextReady
       | Refused, true => ContextDone
       | _, _ => ScanFailed
       end.

Fixpoint reingest_ids (ids : list string) (progressEvery : Z) (x : reingestRun) : ReingestM (result ReingestError reingestRun) :=
  next ← next_moment;
  match next with
  | ContextDone => _ ← reingest_fail x CauseCancelled; mret (Err ReingestCancelled)
  | ScanFailed => _ ← reingest_fail x CauseIterate; mret (Err ReingestIterate)
  | NextReady =>
      match ids with
      | [] => mret (Ok x)
      | id :: ids =>
          r ← reingest_step id progressEvery x;
          match r with Err e => mret (Err e) | Ok x => reingest_ids ids progressEvery x end
      end
  end.

Definition finish_reingest (x : reingestRun) : ReingestM (result ReingestError unit) :=
  r ← reingest_status status_Complete;
  match r with
  | Err e => mret (Err (ReingestComplete e))
  | Ok _ => _ ← publish (ReingestCompleted (rgDone x) (rgTotal x) (rgCost x)); mret (Ok tt)
  end.

(** [Worker.Run] up to the rows: the count, the dry run, the start.  No run is
    begun for a dry one. *)
Definition begin_reingest : ReingestM (result ReingestError (option reingestRun)) :=
  total ← ask (λ s, (CountMatching holds sel (rwDB s), s));
  match total with
  | None => mret (Err ReingestCount)
  | Some total =>
      if woDryRun opts then (_ ← publish (PlanComputed (seRaw sel) total); mret (Ok None))
      else
        started ← reingest_status (status_Start BucketReingestSelective total);
        match started with
        | Err (ErrBusy _) => mret (Err AlreadyInProgress)
        | Err e => mret (Err (ReingestStart e))
        | Ok _ =>
            _ ← publish (ReingestStarted (seRaw sel) total);
            mret (Ok (Some (mkReingestRun total 0 fl_zero)))
        end
  end.

(** [IterateMatching]'s query. *)
Definition list_reingest (x : reingestRun) : ReingestM (result ReingestError (list string)) :=
  ids ← ask (λ s, (matching_ids holds sel (rwDB s), s));
  match ids with
  | None => _ ← reingest_fail x CauseIterate; mret (Err ReingestIterate)
  | Some ids => mret (Ok ids)
  end.

(** [Worker.Run] *)
Definition worker_Run : ReingestM (result ReingestError unit) :=
  begun ← begin_reingest;
  match begun with
  | Err e => mret (Err e)
  | Ok None => mret (Ok tt)
  | Ok (Some x) =>
      listed ← list_reingest x;
      match listed with
      | Err e => mret (Err e)
      | Ok ids =>
          r ← reingest_ids ids (Z.max 1 (rgTotal x / 100)) x;
          match r with Err e => mret (Err e) | Ok x => finish_reingest x end
      end
  end.
End worker.
