(* ===== verification/ReanalyzeSafety.v ===== *)
(** * Re-analysis: how a selective re-ingest ends

    [reingest_ends]: what the error of a run says of the upgrade status it leaves,
    whatever interferes with the run.  [CurrentVersion_spec]: the current version
    of a family is the greatest registered.  The examples are of what a
    re-analysed object loses, and of a status no later run can start from. *)

From S2P Require Import Prelude GoStrings Objects Classes Contact Projection JobStore JobQueue ObjectDB ObjectSafety EdgeDB Encodings Blobs ServiceContent Turns Pipelines Upgrade Ingest IngestSafety Reanalyze.

Local Open Scope Z_scope.

(** ** Staleness *)
Section staleness.
Context {P : Type} (reg : gmap string P).

Lemma foldl_version name l m : let top := foldl (λ m registered, match version_in name registered with Some v => Z.max m v | None => m end) m l in
  m <= top ∧ (∀ r v, r ∈ l → version_in name r = Some v → v <= top) ∧ (top = m ∨ ∃ r, r ∈ l ∧ version_in name r = Some top).
Proof.
  revert m. induction l as [|r l IH]; intros m; cbn [foldl]; [split_and!; [lia|by intros r v ?%not_elem_of_nil|by left]|].
  cbv zeta. destruct (version_in name r) as [v|] eqn:Hv.
  - destruct (IH (Z.max m v)) as (Hm & Hall & Htop). cbv zeta in *. split_and!; [lia| |].
    + intros r' v' [->|Hin]%elem_of_cons Hv'; [rewrite Hv in Hv'; injection Hv' as <-; lia|by eapply Hall].
    + destruct Htop as [Htop|(r' & Hin & Hv')]; [|right; exists r'; split; [by right|done]].
      destruct (Z.max_spec m v) as [[_ Hx]|[_ Hx]]; [right; exists r; rewrite Htop, Hx; split; [by left|done]|left; lia].
  - destruct (IH m) as (Hm & Hall & Htop). cbv zeta in *. split_and!; [lia| |].
    + intros r' v' [->|Hin]%elem_of_cons Hv'; [congruence|by eapply Hall].
    + destruct Htop as [Htop|(r' & Hin & Hv')]; [by left|right; exists r'; split; [by right|done]].
Qed.

Lemma version_in_nonneg name r v : version_in name r = Some v → 0 <= v.
Proof.
  unfold version_in, ParseVersionedName. destruct (cut_last _ _) as [[n suffix]|]; cbn; [|by destruct (str_eqb _ _); intros [= <-]].
  destruct (negb _); [done|]. destruct (str_eqb _ nostr); [done|]. destruct (Atoi _) as [w|]; [|done].
  destruct (w <? 0) eqn:Hw; [done|]. destruct (true && str_eqb n name); intros [= <-]. by apply Z.ltb_ge.
Qed.

(** The current version of a family is the greatest version registered under its
    name, and there is none just when nothing is. *)
Lemma CurrentVersion_spec name :
  match CurrentVersionForFamily reg name with
  | Some v => (∃ r, r ∈ pipe_List reg ∧ version_in name r = Some v) ∧ ∀ r v', r ∈ pipe_List reg → version_in name r = Some v' → v' <= v
  | None => ∀ r, r ∈ pipe_List reg → version_in name r = None
  end.
Proof.
  unfold CurrentVersionForFamily. destruct (foldl_version name (pipe_List reg) (-1)) as (_ & Hall & Htop). cbv zeta in *.
  set (top := foldl _ _ _) in *. destruct (top <? 0) eqn:Ht.
  - apply Z.ltb_lt in Ht. intros r Hr. destruct (version_in name r) as [v|] eqn:Hv; [|done].
    pose proof (Hall r v Hr Hv). pose proof (version_in_nonneg _ _ _ Hv). lia.
  - apply Z.ltb_ge in Ht. destruct Htop as [Htop|Htop]; [lia|]. done.
Qed.
End staleness.

(** ** The worker *)
Section worker.
Context `{GoEncodings} `{GoFloat} {F : Type}.
Context (holds : string → list string → ObjRow → bool) (reanalyze : string → RunM (ReingestWorld (F := F)) (ReingestEvent (F := F)) (result F flt)).
Context (sel : Selector) (opts : WorkerOpts).
Local Notation Status := (StatusOf (ReingestCause (F := F))).
Local Notation Ctx := (RunCtx (ReingestWorld (F := F)) (ReingestEvent (F := F))).

(** Nobody else writes the status while the worker runs, and re-analysing an
    object does not. *)
Definition same_status (s s' : ReingestWorld (F := F)) : Prop := rwStatus s' = rwStatus s.
Definition quiet_status (t : Turn (ReingestWorld (F := F))) : Prop := ∀ s, same_status s (tnOthers t s).
#[export] Instance same_status_preorder : PreOrder same_status.
Proof. split; [done|]. intros a b c Hab Hbc. unfold same_status in *. congruence. Qed.

Definition reanalyzer_ends : Prop := ∀ id, behaves quiet_status same_status false (reanalyze id) (λ _, True).

(** The reason the status is given for an error. *)
Definition cause_of (e : ReingestError (F := F)) : option (ReingestCause (F := F)) :=
  match e with
  | ReingestIterate => Some CauseIterate
  | ReingestCancelled => Some CauseCancelled
  | ReingestObject _ e => Some (CauseReanalyze e)
  | BudgetExceeded => Some CauseBudget
  | _ => None
  end.

(** The objects of [ids] re-analysed one after the other, in their order, from the
    context [start] of a run on: each by a call that succeeded, begun at a later
    moment of the run than the one before it ended; and what each cost. *)
Inductive served (start : Ctx) : list string → list flt → Ctx → Prop :=
| served_none : served start [] [] start
| served_next ids costs c id c1 spent c2 :
    served start ids costs c → later c c1 → reanalyze id c1 = (Ok (Ok spent), c2) →
    served start (ids ++ [id]) (costs ++ [spent]) c2.

(** A run from [c] that completed: the ids it listed, at its own listing, are
    those of the rows that match there; each was re-analysed; the total the run
    reports as done is their number, the cost the sum of theirs, within the
    budget. *)
Definition all_done (c : Ctx) (events : list (ReingestEvent (F := F))) : Prop :=
  ∃ x c1 ids c2 costs c3,
    begin_reingest holds sel opts c = (Ok (Ok (Some x)), c1) ∧
    list_reingest holds sel x c1 = (Ok (Ok ids), c2) ∧ ids = matching_ids holds sel (rwDB (cxShared c2)) ∧
    served c2 ids costs c3 ∧ over_budget opts (foldl fl_add fl_zero costs) = false ∧
    last events = Some (ReingestCompleted (Z.of_nat (length ids)) (rgTotal x) (foldl fl_add fl_zero costs)).

(** What a run that began with the status [s0] returned and left. *)
Inductive ended (c0 : Ctx) (s0 : Status) (events : list (ReingestEvent (F := F))) :
    result (ReingestError (F := F)) unit → Status → Prop :=
| en_planned : woDryRun opts = true → ended c0 s0 events (Ok tt) s0
| en_completed : woDryRun opts = false → all_done c0 events → ended c0 s0 events (Ok tt) idleStatus
| en_uncounted : ended c0 s0 events (Err ReingestCount) s0
| en_busy : in_progress s0 = true → ended c0 s0 events (Err AlreadyInProgress) s0
| en_failed e cause s : cause_of e = Some cause → stState s = StateFailed → stLastError s = Some cause → ended c0 s0 events (Err e) s
| en_unwritten_start s : in_progress s = true → ended c0 s0 events (Err (ReingestStart PersistFailed)) s
| en_unwritten_tick s : in_progress s = true → ended c0 s0 events (Err (ReingestTick PersistFailed)) s
| en_unwritten_end : ended c0 s0 events (Err (ReingestComplete PersistFailed)) idleStatus.

Definition any_state (s : ReingestWorld (F := F)) : Prop := True.
Local Notation ready := (Turns.ready quiet_status same_status false any_state).
Local Notation went := (Turns.went quiet_status same_status false any_state).
Local Notation wp := (Turns.wp (λ c, false = false ∧ any_state (cxShared c))).
Definition status_quiet (t : Turn (ReingestWorld (F := F))) (s : ReingestWorld (F := F)) (Ht : quiet_status t) : same_status s (tnOthers t s) := Ht s.

Lemma ready_polite (c : Ctx) : Forall quiet_status (cxTurns c) → ready c.
Proof. intros Hc. by split. Qed.

(** A write of the status: what it answers and leaves. *)
Lemma wp_reingest_status f Q (c : Ctx) : ready c →
  (∀ c' now persisted, ready c' → later c c' → rwStatus (cxShared c') = (f now persisted (rwStatus (cxShared c))).2 →
     cxEvents c' = cxEvents c → Q (f now persisted (rwStatus (cxShared c))).1 c') → wp (reingest_status f) Q c.
Proof.
  intros Hc HQ. unfold reingest_status. apply wp_seq_run, wp_answered. eapply (wp_turn _ _ status_quiet); [done|].
  intros fate c1 [Hr Hs] Hev _ Hl%later_turn. unfold Turns.wp, on_shared, on_ctx. cbv zeta.
  set (persisted := match fate with Runs => true | _ => false end). unfold same_status in Hs. rewrite Hs.
  specialize (HQ (with_shared c1 (mkReingest (rwDB (cxShared c1)) (rwNow (cxShared c1)) (f (rwNow (cxShared c1)) persisted (rwStatus (cxShared c))).2))
    (rwNow (cxShared c1)) persisted).
  destruct (f _ persisted _) as [r st]. apply HQ; [by apply ready_with|exact Hl|done|done].
Qed.

Definition working (c : Ctx) : Prop := ready c ∧ in_progress (rwStatus (cxShared c)) = true.
Lemma working_went c c' : working c → went c c' → working c'.
Proof. intros [_ Hw] [Hr Hs]. split; [done|]. unfold same_status in Hs. by rewrite Hs. Qed.

Section from.
(** Where the run began. *)
Context (c0 : Ctx) (s0 : Status).
Local Notation ended := (ended c0 s0).

Lemma wp_reingest_fail x e cause c : working c → cause_of e = Some cause →
  wp (reingest_fail x cause) (λ _ c', ended (cxEvents c') (Err e) (rwStatus (cxShared c'))) c.
Proof.
  intros [Hc Hw] He. unfold reingest_fail. apply wp_seq_run, wp_reingest_status; [done|]. intros c1 now persisted Hr _ Hst _.
  revert Hst. unfold status_Fail. rewrite Hw. cbn [negb after_persist snd]. intros Hst. apply wp_publish. cbn [cxShared].
  eapply en_failed; [done|by rewrite Hst..].
Qed.
(** A branch that fails the run. *)
Lemma wp_fails {A} x e cause (P : A → Ctx → Prop) c : working c → cause_of e = Some cause →
  wp (_ ← reingest_fail x cause; mret (Err e))
    (λ r c', match r with Ok a => P a c' | Err e => ended (cxEvents c') (Err e) (rwStatus (cxShared c')) end) c.
Proof. intros Hc He. apply wp_seq_run. eapply wp_weaken; [by apply (wp_reingest_fail _ e)|]. intros [] c1 Hend. by apply wp_mret. Qed.

(** What the loop carries, from the context of the listing on. *)
Definition so_far (start : Ctx) (ids : list string) (x : reingestRun) (c : Ctx) : Prop :=
  rgDone x = Z.of_nat (length ids) ∧ over_budget opts (rgCost x) = false ∧
  ∃ costs c1, served start ids costs c1 ∧ later c1 c ∧ rgCost x = foldl fl_add fl_zero costs.

Lemma so_far_later start ids x c c' : later c c' → so_far start ids x c → so_far start ids x c'.
Proof.
  intros Hl (Hd & Hb & costs & c1 & Hs & Hl1 & Hc). split; [done|]. split; [done|]. exists costs, c1.
  split; [done|]. split; [by transitivity c|done].
Qed.

Definition loop_post (total : Z) (start : Ctx) (ids : list string) (r : result (ReingestError (F := F)) reingestRun) (c : Ctx) : Prop :=
  match r with
  | Ok x => working c ∧ rgTotal x = total ∧ so_far start ids x c
  | Err e => ended (cxEvents c) (Err e) (rwStatus (cxShared c))
  end.

Lemma wp_reingest_step start id every before x c : reanalyzer_ends → working c → so_far start before x c →
  wp (reingest_step reanalyze opts id every x) (loop_post (rgTotal x) start (before ++ [id])) c.
Proof.
  intros Hre Hc (Hdone & Hbud & costs & c9 & Hserved & Hlate & Hcost). unfold reingest_step. apply wp_seq_run, wp_answered.
  eapply (wp_behaves _ same_status); [apply (Hre id)|apply Hc|]. intros r c1 Hw1 _ Hcall.
  assert (Hc1 : working c1) by by eapply working_went. destruct r as [spent|e]; [|by apply (wp_fails x (ReingestObject id e))].
  cbv zeta. cbn [rgCost rgDone rgTotal]. destruct (over_budget opts (fl_add _ _)) eqn:Hover; [by apply (wp_fails _ BudgetExceeded)|].
  destruct Hc1 as [Hr1 Hp1]. apply wp_seq_run, wp_reingest_status; [done|]. intros c2 now persisted Hr2 Hl2 Hst2 _.
  revert Hst2. unfold Tick. rewrite Hp1. cbn [negb]. destruct (_ <? 0) eqn:Hneg; [apply Z.ltb_lt in Hneg; lia|].
  unfold tickLocked, after_persist. cbn [fst snd]. intros Hst2.
  assert (Hc2 : working c2) by (split; [done|by rewrite Hst2]). destruct persisted.
  2: { apply wp_mret. apply en_unwritten_tick, Hc2. }
  assert (Hend : ∀ c3, working c3 → later c1 c3 →
    loop_post (rgTotal x) start (before ++ [id]) (Ok (mkReingestRun (rgTotal x) (rgDone x + 1) (fl_add (rgCost x) spent))) c3).
  { intros c3 Hc3 Hl3. split; [done|]. split; [done|]. split_and!; cbn; [rewrite length_app; cbn; lia|done|].
    exists (costs ++ [spent]), c1. split; [by eapply served_next|]. split; [done|]. by rewrite foldl_snoc, <- Hcost. }
  apply wp_seq_run. destruct (_ || _); [|by apply wp_mret, wp_mret, Hend]. apply wp_publish, wp_mret, Hend.
  - destruct Hc2 as [Hr Hp]. split; [by destruct Hr|done].
  - transitivity c2; [done|]. split; [by exists []|by eexists].
Qed.

Lemma wp_next_moment Q c : working c → (∀ ch c', working c' → later c c' → Q ch c') → wp next_moment Q c.
Proof.
  intros Hc HQ. unfold next_moment. apply wp_seq_run, wp_answered. eapply (wp_turn _ _ status_quiet); [apply Hc|].
  intros fate c1 Hw _ _ Hl%later_turn.
  apply wp_seq_run. unfold Turns.wp at 1, on_ctx. apply wp_mret, HQ; [by apply (working_went c)|done].
Qed.

Lemma wp_reingest_ids start ids every before x c : reanalyzer_ends → working c → so_far start before x c →
  wp (reingest_ids reanalyze opts ids every x) (loop_post (rgTotal x) start (before ++ ids)) c.
Proof.
  intros Hre. revert before x c. induction ids as [|id ids IH]; intros before x c Hc Hx; cbn [reingest_ids];
    apply wp_seq_run, wp_next_moment; try done; intros ch c1 Hc1 Hl1; destruct ch;
    try (first [by apply (wp_fails x ReingestIterate)|by apply (wp_fails x ReingestCancelled)]).
  - apply wp_mret. rewrite app_nil_r. split; [done|]. split; [done|by eapply so_far_later].
  - apply wp_seq_run. eapply wp_weaken; [apply (wp_reingest_step start id every before); [done|done|by eapply so_far_later]|].
    intros [x'|e] c2 Hr; [|by apply wp_mret].
    destruct Hr as (Hc2 & <- & Hx2). replace (before ++ id :: ids) with ((before ++ [id]) ++ ids) by by rewrite <- app_assoc.
    by apply IH.
Qed.

Lemma wp_finish_reingest start ids x c :
  woDryRun opts = false → working c → so_far start ids x c →
  (∀ costs c3 events, served start ids costs c3 → over_budget opts (foldl fl_add fl_zero costs) = false →
     last events = Some (ReingestCompleted (Z.of_nat (length ids)) (rgTotal x) (foldl fl_add fl_zero costs)) → all_done c0 events) →
  wp (finish_reingest x) (λ r c', ended (cxEvents c') r (rwStatus (cxShared c'))) c.
Proof.
  intros Hdry [Hc Hp] (Hdone & Hbud & costs & c9 & Hserved & _ & Hcost) Hall.
  unfold finish_reingest. apply wp_seq_run, wp_reingest_status; [done|].
  intros c1 now persisted Hr1 _ Hst _. revert Hst. unfold status_Complete. rewrite Hp. cbn [negb after_persist fst snd]. intros Hst.
  destruct persisted; [|apply wp_mret; rewrite Hst; apply en_unwritten_end].
  apply wp_seq_run, wp_publish, wp_mret. cbn [cxShared cxEvents]. rewrite Hst. apply en_completed; [done|].
  rewrite Hcost in Hbud. eapply Hall; [exact Hserved|done|]. by rewrite last_snoc, Hdone, Hcost.
Qed.

(** Up to the listing. *)
Lemma wp_begin_reingest c : ready c → rwStatus (cxShared c) = s0 →
  wp (begin_reingest holds sel opts)
    (λ r c', match r with
             | Ok (Some x) => woDryRun opts = false ∧ working c' ∧ rgDone x = 0 ∧ rgCost x = fl_zero
             | Ok None => ended (cxEvents c') (Ok tt) (rwStatus (cxShared c'))
             | Err e => ended (cxEvents c') (Err e) (rwStatus (cxShared c'))
             end) c.
Proof.
  intros Hc Hs0. unfold begin_reingest. apply wp_seq_run. eapply (wp_ask_within _ _ status_quiet); [done|done|]. intros total s c1 Hw1 _ _ Htot.
  assert (Hs1 : rwStatus (cxShared c1) = s0) by (rewrite <- Hs0; apply Hw1).
  destruct total as [total|]; [|apply wp_mret; rewrite Hs1; by apply en_uncounted].
  destruct (woDryRun opts) eqn:Hdry; [apply wp_seq_run, wp_publish, wp_mret; cbn [cxShared]; rewrite Hs1; by apply en_planned|].
  assert (Hpos : (total <? 0) = false).
  { destruct Htot as [[[= ->] _]|(_ & ? & _)]; [|done]. apply Z.ltb_ge. unfold CountMatching. lia. }
  apply wp_seq_run, wp_reingest_status; [apply Hw1|]. intros c2 now persisted Hr2 _ Hst _. revert Hst. rewrite Hs1.
  unfold status_Start, StartTarget. destruct (in_progress s0) eqn:Hbusy.
  { cbn [fst snd]. intros Hst. apply wp_mret. rewrite Hst. by apply en_busy. }
  rewrite Hpos. cbn [after_persist fst snd]. intros Hst.
  destruct persisted; [|by apply wp_mret, en_unwritten_start; rewrite Hst].
  apply wp_seq_run, wp_publish, wp_mret. split; [done|]. split; [|done]. split; [destruct Hr2; by split|cbn; by rewrite Hst].
Qed.

Lemma wp_list_reingest x c : working c →
  wp (list_reingest holds sel x)
    (λ r c', match r with
             | Ok ids => working c' ∧ ids = matching_ids holds sel (rwDB (cxShared c'))
             | Err e => ended (cxEvents c') (Err e) (rwStatus (cxShared c'))
             end) c.
Proof.
  intros Hc. unfold list_reingest. apply wp_seq_run, wp_answered. eapply (wp_ask_within _ _ status_quiet); [apply Hc|done|].
  intros ids s c1 Hw1 _ _ _ Hread%read_spec. assert (Hc1 : working c1) by by eapply working_went.
  destruct ids as [ids|].
  - apply wp_mret. split; [done|]. by destruct Hread as [[= ->]|?].
  - by apply (wp_fails x ReingestIterate).
Qed.
End from.

(** C29. How a selective re-ingest ends.  Whatever else happens meanwhile, as long
    as nobody else writes the upgrade status, a run that is not killed returns,
    and what it returns says what the status is: completed, and then idle, every
    object that matched when the run listed them re-analysed by a successful call
    of this run, one after the other, and the sum of their costs, which it
    reports, within the budget; refused, and then untouched; failed, and then
    failed with the reason of the error.  The exceptions are the shadow file's: a
    run that could not write it stops, and leaves the status in progress unless
    it was at its end. *)
Theorem reingest_ends (c : Ctx) r c' : reanalyzer_ends → Forall quiet_status (cxTurns c) →
  worker_Run holds reanalyze sel opts c = (r, c') →
  match r with
  | Ok r => ended c (rwStatus (cxShared c)) (cxEvents c') r (rwStatus (cxShared c'))
  | Err h => h = Killed
  end.
Proof.
  intros Hre Hq Hx. pose proof (ready_polite c Hq) as Hc. set (s0 := rwStatus (cxShared c)) in *.
  assert (Hwp : wp (worker_Run holds reanalyze sel opts) (λ r c', ended c s0 (cxEvents c') r (rwStatus (cxShared c'))) c).
  2: { unfold Turns.wp in Hwp. rewrite Hx in Hwp. by destruct r as [a|[]]. }
  unfold worker_Run. apply wp_seq_run, wp_answered. eapply wp_weaken; [by apply (wp_begin_reingest c s0)|].
  intros [[x|]|e] c1 Hb Hbegin; [|by apply wp_mret..]. destruct Hb as (Hdry & Hc1 & Hd & Hz).
  apply wp_seq_run, wp_answered. eapply wp_weaken; [by apply (wp_list_reingest c s0 x)|].
  intros [ids|e] c2 Hl Hlist; [|by apply wp_mret]. destruct Hl as [Hc2 Hids].
  apply wp_seq_run. eapply wp_weaken; [apply (wp_reingest_ids c s0 c2 ids _ [] x); [done|done|]|].
  { split_and!; [done| |exists [], c2; by split_and!; [constructor|reflexivity|]]. rewrite Hz. unfold over_budget.
    destruct (fl_gt (woBudgetUSD opts) fl_zero) eqn:Hg; [by rewrite (fl_gt_asym _ _ Hg)|done]. }
  intros [x'|e] c3 Hr; [|by apply wp_mret]. destruct Hr as (Hc3 & Ht & Hx3).
  eapply wp_finish_reingest; [done|done|exact Hx3|]. intros costs c4 events Hs Hb Hlast.
  exists x, c1, ids, c2, costs, c4. rewrite Ht in Hlast. done.
Qed.
End worker.

(** ** Examples *)
#[local] Existing Instances plain_columns comma_times ascii_unicode id_crypto.

(** Whole costs. *)
#[local] Instance whole_costs : GoFloat.
Proof. refine {| flt := Z; fl_zero := 0; fl_add := Z.add; fl_gt := λ x y, y <? x |}. intros x y. rewrite Z.ltb_lt, Z.ltb_ge. lia. Defined.

Definition stamped_with (id pipeline : string) (created : Z) : KnowledgeObject :=
  mkKO id "text" nostr ("text " +:+ id) nostr nostr ∅ [] [] [] [] [] [] pipeline nostr [] id nostr nostr "call back" 1 None (Some 90) None
    created created false nostr ["work"]%string [] None.
Definition put (db : ObjDB) (o : KnowledgeObject) : ObjDB := match obj_Create db o with Ok (_, db) => db | Err _ => db end.
Definition two_old : ObjDB := put (put emptyDB (stamped_with "n-2" "text.short@v0" 20)) (stamped_with "n-1" "text.short@v0" 10).

(** The clause of a pipeline filter, the only one the examples use. *)
Definition pipeline_is (clause : string) (args : list string) (r : ObjRow) : bool :=
  str_eqb clause "pipeline = ?" && contains args (koPipeline (orObj r)).
Definition old_ones : Selector := mkSelector "pipeline=text.short@v0" "pipeline = ?" ["text.short@v0"%string].

(** Each object costs two. *)
Definition costs_two (id : string) : RunM (ReingestWorld (F := string)) (ReingestEvent (F := string)) (result string Z) := mret (Ok 2).
Lemma costs_two_ends : reanalyzer_ends costs_two.
Proof. intros id. by apply (behaves_ret _ same_status). Qed.

Definition idle_world : ReingestWorld (F := string) := mkReingest two_old 0 idleStatus.
Local Notation reingest budget turns s := (worker_Run pipeline_is costs_two old_ones (mkOpts false budget) (mkRunCtx s false turns [])).
Definition plain_turns (fates : list Fate) : list (Turn (ReingestWorld (F := string))) := map (mkTurn id false false) fates.

Lemma plain_turns_quiet fates : Forall quiet_status (plain_turns fates).
Proof. apply List.Forall_forall. intros t (f & <- & _)%in_map_iff s. done. Qed.

Lemma too_dear : (reingest 3 [] idle_world).1 = Ok (Err BudgetExceeded) ∧ stDone (rwStatus (cxShared (reingest 3 [] idle_world).2)) = 1.
Proof. split; vm_compute; reflexivity. Qed.
Lemma affordable : (reingest 4 [] idle_world).1 = Ok (Ok tt).
Proof. vm_compute. reflexivity. Qed.

Lemma reingest_ends_witness :
  (∀ r c', reingest 3 [] idle_world = (Ok r, c') → r = Err BudgetExceeded ∧ stState (rwStatus (cxShared c')) = StateFailed) ∧
  (∀ r c', reingest 4 [] idle_world = (Ok r, c') → r = Ok tt ∧ all_done pipeline_is costs_two old_ones (mkOpts false 4) (mkRunCtx idle_world false [] []) (cxEvents c')).
Proof.
  assert (Hends : ∀ budget r c', reingest budget [] idle_world = (Ok r, c') →
    ended pipeline_is costs_two old_ones (mkOpts false budget) (mkRunCtx idle_world false [] []) (rwStatus idle_world) (cxEvents c') r (rwStatus (cxShared c'))).
  { intros budget r c' Hx.
    exact (reingest_ends pipeline_is costs_two old_ones (mkOpts false budget) (mkRunCtx idle_world false [] []) (Ok r) c' costs_two_ends (List.Forall_nil _) Hx). }
  split; intros r c' Hx.
  - destruct too_dear as [Hr _]. rewrite Hx in Hr. cbn [fst] in Hr. injection Hr as ->. split; [reflexivity|].
    apply Hends in Hx. by inversion Hx.
  - pose proof affordable as Hr. rewrite Hx in Hr. cbn [fst] in Hr. injection Hr as ->. split; [reflexivity|].
    apply Hends in Hx. inversion Hx as [Hdry| | | | | | |]; [discriminate Hdry|assumption].
Defined.

(** A run whose status cannot be written at the start leaves it in progress, so
    every later run is refused as if that one were still going. *)
Example reingest_wedged :
  let c1 := (reingest 0 (plain_turns [Runs; Refused]) idle_world).2 in
  (reingest 0 (plain_turns [Runs; Refused]) idle_world).1 = Ok (Err (ReingestStart PersistFailed)) ∧
  (reingest 0 [] (cxShared c1)).1 = Ok (Err AlreadyInProgress) ∧
  rwStatus (cxShared (reingest 0 [] (cxShared c1)).2) = rwStatus (cxShared c1).
Proof. vm_compute. repeat split. Qed.

(** A re-analysed object has lost its note, its reminder and its classes. *)
Example reanalyze_forgets :
  let pipelines : gmap string Pipeline := {[ "text.short"%string := []; "text.short@v1"%string := [] ]} in
  let '(r, c) := ReanalyzeObject pipelines (λ _ _ _, "text.short"%string) false 0 "n-1"
                   (mkRunCtx (mkIngest (mkWorld two_old [] ∅ ∅ 0) []) false [] []) in
  let fields db := map (λ o, (koPipeline o, koInboxNote o, koRemindAt o, koClasses o)) (map orObj (List.filter (by_id "n-1") (odRows db))) in
  r = Ok (Ok "text.short@v1"%string) ∧
  fields two_old = [("text.short@v0"%string, "call back"%string, Some 90, ["work"%string])] ∧
  fields (wObjects (inWorld (cxShared c))) = [("text.short@v1"%string, nostr, None, [])].
Proof. vm_compute. repeat split. Qed.
